(* ===== verification/_CoqProject ===== *)
-Q . S2P
Prelude.v
Text.v
TextProofs.v
Model.v
Json.v
Events.v
Squash.v
Lineage.v
RequiredRuns.v
Graph.v
GraphProofs.v
Analysis.v
AnalysisProofs.v
Generation.v
GenerationProofs.v
Selection.v
SelectionProofs.v
Intent.v
RemoteLease.v
RemoteLeaseProofs.v
Budget.v
BudgetProofs.v
Mutations.v
RootMerge.v
Effects.v
Landing.v
LandingProofs.v
LandingSample.v
LandingOnce.v
Files.v
Programs.v
Store.v
Checkpoints.v
CiDispatch.v
CiDispatchProofs.v
CiSelectProofs.v
CiSample.v
Command.v
CiEvidence.v
CiReceiptProofs.v
CiEvidenceProofs.v
CiClassify.v
CiClassifyProofs.v
StackLock.v
StackLockProofs.v
StackMerge.v
StackMergeProofs.v
StackPolicy.v
StackLand.v
StackLandProofs.v
StackLandValid.v
StackSample.v
Hooks.v
Scheduler.v
SchedulerProofs.v
Pass.v
Converge.v
ConvergeProofs.v
CiGate.v
CiGateProofs.v
Journal.v
JournalLog.v
JournalFiles.v
JournalProofs.v
FailureOutcome.v
FailureProofs.v
OperationLock.v
LockSystem.v
LockProofs.v
LockExclusion.v
LockAlone.v
LockSample.v
RecoveryLedger.v
RecoverySample.v
RecoveryLedgerProofs.v
RecoveryLiveness.v
GraphChains.v
Concat.v
ConcatProofs.v
ConcatGraph.v
