(* ===== verification/Prelude.v ===== *)
(** A verification development of Caravan, the program that organises the open
    pull requests of a repository into linear chains ("caravans") and merges
    them one after the other.

    * What is modelled

    The decisions Caravan takes are pure computations on a snapshot of the
    repository read from the forge; the effects around them (GitHub requests,
    Git processes, files, clocks) are carried out by other modules. The
    development translates the decision core and states what makes each
    decision safe. The files, with what they model under src/:

    - [Prelude], [Text]: the Rust standard library as the code uses it (see the
      end of this comment); [TextProofs]: lemmas on strings.
    - [Model]: src/src/model.rs. Pull request snapshots, caravans, the fleet, the
      kinds of problem and which of them block or are historical.
    - [Squash]: the receipts of src/src/squash_equivalence.rs and their readings.
    - [Json], [Events]: JSON values and UTF-8; the events and hook deliveries of
      src/src/model.rs and src/src/hooks.rs.
    - [Lineage]: the check reduction of src/src/model.rs
      ([latest_checks_per_identity]): which rows of a check rollup are retired
      because a later observation or workflow run of the same check exists.
    - [RequiredRuns]: src/src/required_runs.rs. Whether the checks that branch
      protection requires are satisfied, running, failing or will never report,
      with the bounded lineage, the recovery and the receipt with its hash.
    - [Graph], [GraphProofs]: [derive_for_actor] of src/src/graph.rs. Chains are
      read off the base branches: heads, parents, cycles, branching, roots,
      headless remainders, auto-merge and history problems.
    - [Analysis], [AnalysisProofs]: [analyze_for_actor_internal] of
      src/src/graph.rs. The plan of pairwise compatibility comparisons and its
      execution under a deadline.
    - [Generation], [GenerationProofs]: src/src/generation.rs. Which of several
      pull requests of one agent and bead stream is the current generation.
    - [Selection], [SelectionProofs]: [resolve_admission] of src/src/read.rs with
      the keys of src/src/admission.rs. Which unqueued request may be admitted next.
    - [Intent]: [evaluate] of src/src/admission.rs, with its properties. Whether an
      explicit command may pass the canonical order.
    - [RemoteLease], [RemoteLeaseProofs]: src/src/remote_lease.rs. The writer lease
      across hosts: the broker client, and the guard that fences every write.
    - [Budget], [BudgetProofs]: src/src/sync/budget.rs. The time reserve of a
      physical apply, the prefix it admits and the bound on joining.
    - [Effects]: the state and error monad of the transactions below, with its
      notation and Hoare triples; [Files]: the calls of std::fs and std::path
      the code makes, on a tree of files with a schedule of faults; [Mutations]:
      the mutation steps and receipts of src/src/model.rs and src/src/github.rs.
    - [RootMerge]: src/src/root_merge.rs. Triggers, causes, receipts and the gate
      of the merge Caravan performs itself.
    - [Landing]: of src/src/sync.rs, [promote_root], [merge_root],
      [drain_caravan_roots] and what they call. [LandingProofs]: its trace
      lemmas; [LandingSample]: the properties, on a sample forge; [LandingOnce]:
      the landing together with the analysis that feeds it.
    - [RecoveryLedger]: src/src/recovery_ledger.rs, with the file operations in
      their order. [RecoverySample]: a codec and a file system to run it on;
      [RecoveryLedgerProofs], [RecoveryLiveness]: its properties.
    - [Programs]: programs of effectful operations, the machine that runs them
      with kills, and its rule for invariants. [Store]: the files under the Git
      directory as operations of such programs, with their failures.
    - [Checkpoints]: src/src/stack_checkpoint.rs. Durable checkpoints that a
      rename replaces.
    - [CiDispatch]: src/src/ci_dispatch.rs. Which workflow executions a queue
      mutation must start again, and the durable start of one.
      [CiSelectProofs], [CiDispatchProofs]: its properties; [CiSample]: runs.
    - [Command]: of src/src/command.rs and src/src/writer_guard.rs,
      the command requests, the recognition of writes, and the runners that ask
      the lease before a write.
    - [CiEvidence]: src/src/ci.rs, the structured evidence about failed runs as a
      program of commands. [CiReceiptProofs], [CiEvidenceProofs]: its properties.
    - [CiClassify], [CiClassifyProofs]: of src/src/sync.rs, the class of a failed
      run, the reduction of check rows to workflow generations, and the verdict
      of [observe_ci] that the landing takes as its operation [diagnose_ci].
    - [StackLock], [StackLockProofs]: src/src/github/stack_lock.rs, the ruleset
      that keeps the branches of a native Stack still while it lands.
    - [StackMerge], [StackMergeProofs]: src/src/github/stack_merge.rs. The ready
      prefix of a Stack, its submission, polls and observations, and their
      sealed evidence.
    - [StackPolicy]: src/src/stack_policy.rs. The evidence of
      the entries, and the path a caravan lands by.
    - [StackLand]: src/src/github/stack_land.rs with the archive of
      src/src/sync/receipt.rs, and of src/src/sync.rs [drain_native_stack] and
      [reconcile_pending_native_stack_landing_checkpoints], which drive it.
      [StackLandProofs]: the machine of its ticks, and at most one submission;
      [StackLandValid]: its checkpoints stay valid; [StackSample]: runs.
    - [Hooks]: src/src/hooks.rs with the errors of src/src/lib.rs. The
      delivery of events as a program of journal records and hook processes.
    - [Scheduler], [SchedulerProofs]: src/src/sync/decision.rs with the tick of
      src/src/sync.rs that records a failure. What a tick reports to its scheduler,
      and whom a failure wakes, with runs.
    - [Pass]: the state and the log of a pass over the caravans. On it
      src/src/root_auto_merge.rs with [ensure_root_squash_auto_merge] of
      src/src/sync.rs, the recovery of a deferred admission gate, the restart of
      failed runs and [force_merge_head].
    - [Converge]: of src/src/sync.rs, [select_caravans], the preflight, the
      validation of the graph, [reconcile_caravan], [execute_root_first],
      [execute_native_stack_prefix_first], [execute_bounded_with_native], and the
      merge of their progress. [ConvergeProofs]: a postcondition calculus on the
      log, and its properties.
    - [CiGate], [CiGateProofs]: src/src/ci_gate.rs and src/src/ci_admission_gate.rs.
      Whether a workflow may skip its expensive jobs.
    - [Journal]: src/src/journal.rs, the append-only event files with their
      recovery, deduplication and rotation. [JournalLog], [JournalFiles]: what
      their bytes hold; [JournalProofs]: its properties and runs.
    - [FailureOutcome], [FailureProofs]: src/src/failure_outcome.rs. The class
      and the refusing step of a failure, and the summary of a journal.
    - [OperationLock]: src/src/operation_lock.rs, each handler a program of file
      operations. [LockSystem]: the processes that run them, interleaved one
      operation at a time. [LockProofs]: a program logic for handlers that share
      the lock, and the handlers verified in it; [LockExclusion]: the invariant
      of the system; [LockAlone]: handlers on a quiet repository;
      [LockSample]: mutual exclusion, and a codec to run schedules with.
    - [Concat]: src/src/concat.rs. The plan and the transaction that appends one
      caravan to another, with its compensations. [GraphChains]: chains in a
      snapshot; [ConcatProofs], [ConcatGraph]: its properties.

    How they interact: [derive_for_actor] turns a [RepositorySnapshot] into a
    [GraphAnalysis]; [Generation.analyze] adds the generation findings; the
    admission resolution reads both (and the check reduction) to list the
    candidates; the intent decision reads the admission list and the analysis;
    the budget prices the caravans of the analysis. [Lineage] feeds
    [RequiredRuns]. The lease and the operation lock stand
    beside them: the one fences the writes, the other the operations of a host. The
    landing reads the cumulative trees and reports of the analysis, and the
    required runs of the root on the default branch; the concatenation plans on
    the graph and is confirmed by deriving the graph again. A caravan that the
    route of [StackPolicy] gives to a native Stack lands by [StackLand] instead:
    its checkpoints are those of [Checkpoints], its evidence is judged by
    [RequiredRuns] and [StackPolicy], its writes are those of [StackLock] and
    [StackMerge]. A pass of [Converge] takes the route of a caravan first and then
    runs the landing, lifted into its state and log by [land], the arming or the
    forced merge of [Pass], or the drain of the native Stack, which enters as the
    operation [drain_stack] of the class [SyncProvider]; it judges the graph by
    the problems of [Graph] and the checks by [CiClassify]. The recovery ledger
    reads the status only to verify a success. The scheduler's verdict reads the
    analysis, the admission status, the observations of the landing and the receipts
    of the required runs; the events of a tick go through the hooks into the journal.

    * What the theorems show

    - Graph: every snapshot has a graph, no [expect] can fail and no walk runs
      out of fuel; caravans partition the active members and follow the base
      branches; a problem-free fleet is a set of complete chains from the
      default branch; cycles and auto-merge violations are reported exactly;
      the order of discovery is irrelevant where no number is listed twice; what gates the active fleet.
    - Analysis: the plan is exact; every planned comparison is executed or
      deferred by name; a complete analysis has one report per comparison and
      one problem per report that is not clean.
    - Generation: each declared request is classified once, with at most the
      bound of comparisons asked of the provider; at most one current generation per stream;
      supersession is proven by reviewed links or by containment answers of the
      provider; the lifecycle policy acts on exact evidence only; metadata
      round-trips and is parsed whole or refused.
    - Selection, Intent: nothing that may not be passed is passed; candidates
      are eligible; the lists partition the unqueued requests; exactly when
      the order permits an explicit admission; a later stage only narrows it.
    - Lineage, RequiredRuns: a row is retired on positive evidence only; a
      verdict "satisfied" or "missing" is justified by the evidence it names;
      normalisation and the bounds; receipts verify.
    - RemoteLease: a write passes only after the store confirmed the exact
      live fence; a guard never changes hands; with a store of the contract of
      src/docs/remote-writer-lease.md (class [LeaseStore]) any number of writers
      exclude each other: only the newest acquisition of a key passes.
    - Budget: apply admission terminates with a maximal root-to-descendant
      prefix that fits; the capacity gate is exact and refuses on fullness only
      what draining cures; the advised deadline is the least sound one.
    - Landing: a squash is sent only behind its fence of reads, comparisons,
      authorization, audit comment and second verification; the authorization
      is exact; the receipts rest on logged answers; a caravan lands in
      order within the budget; the proofs of one analysis land one root only.
    - RecoveryLedger: the file is absent or well formed under any calls and
      faults; a write is atomic and private; a completion was verified by a
      fresh read; the backoff doubles up to its cap; exhaustion escalates once.
    - CI dispatch: the selection is exact; under any calls, failures and kills a
      start is requested at most once for a binding, refusals aside; a result
      reports the request that was made.
    - Commands: whatever an operation does, a write reaches a process only
      directly behind the confirmation of its live fence.
    - CI evidence: a diagnosis is bounded and only reads; a deferral is proven by
      an uncut log of the expected generation; receipts are read back exactly.
    - CI classification: only infrastructure failures are restarted; a wait
      hides no failure: every required row is accounted for.
    - Native Stacks: a caravan goes to its one exact Stack only; what the ready
      prefix selects is authorized entry by entry, cannot be longer, and passes
      the validation of a submission; the lock is created and deleted behind
      exact reads and its receipts are proved; a submission is fenced by the lock
      and the generation; a receipt that says merged rests on fresh reads; under
      any ticks, failures and kills a merge is submitted at most once; a valid
      checkpoint stays valid and can go on. A run in which one lost poll releases
      the lock.
    - Passes: nothing but reads is sent before the preflight passed and the graph
      lets the selected caravans through; the selection is exact; a caravan is
      merged by one mechanism, its native Stack exactly where the fresh route says
      so, and nothing is armed where Cara merges; a forced merge is one
      administrator's squash of the head behind its fence; the root-first pass lands at most
      one root; an arming is bounded and leaves a sealed receipt for facts the
      provider answered.
    - Hooks: a hook runs only for an event the journal kept, no event is
      journaled twice in a dispatch, and a delivery is what the run before it
      came to; a dispatch that returns ran every configured hook once, in order.
    - Scheduler: when a tick is healthy; the front of every queue that cannot
      proceed is named exactly; a failure is classified stably and wakes at most once.
      Runs in which a wait hides a stall and an external decision wakes nobody.
    - CI gates: an expensive suite is skipped only for the freshly observed, open
      and unjoined generation under the fetched policy; the cases of the evidence gate.
    - Journal: under any failures, kills and torn writes readers see appended
      records in the order of the calls, and no event twice while every call
      retains the same archives; an acknowledged record is read back.
    - FailureOutcome: outcomes are fixed codes and bounded identifiers, whatever
      they are made from; the summary is the counts of the failures.
    - OperationLock: at most one process holds the lock under every
      interleaving, failure and kill in which a recovery removes the file it
      validated, and a schedule without that proviso in which two do; what an
      acquisition returns in every state of the lock, and its release.
    - Concat: a plan is exact; an error that reports nothing mutated restored
      the heads and bases; a new success was observed from the state its base
      edit left; the committed snapshot derives the planned caravan.

    Results that are true but of less weight stay as lemmas beside these.

    * Conventions

    Integers keep their width: [u64] is [N] with [sat_add], [sat_mul],
    [checked_add] and the bounds [u64_max], [u32_max]; a [Duration] is its
    nanoseconds. A [usize] that only counts elements of a list in memory is a
    [nat]. [BTreeMap] and [BTreeSet] are [gmap] and [gset], iterated in Rust's
    ascending order by [bt_entries] and [bs_elems]. A Rust [String] is
    [string], compared byte by byte. [Result] is [result]. An [expect], a
    failing index or exhausted fuel is [None], and the totality theorems show
    that it does not occur. A world that answers (compatibility checker,
    provider comparison, lease broker, clock) is a state [W] threaded through
    the calls, with the answering operations as parameters. Where the order
    of calls matters, the model logs each with its answer ([Landing.Call]), and
    the properties speak of the log, whatever the provider answers.

    Loops that are not structural carry fuel: the parent walk and the cycle
    search have more units than there are pull requests (a walk never repeats
    one), the growth of a stream one per request, the growth of the apply prefix one sweep more
    than the longest chain, the capacity search its limit of 4096. The theorem
    of each component proves the fuel sufficient. The bounded loops of the code
    keep their bounds: three confirmation reads around a promotion or merge,
    ten attempts of a recovery request, an hour of backoff, five rounds of the
    landing of a native Stack, two armings of a root and three reads of each.

    Parameters stand for code that is not in the repository or that only does
    input and output: the JSON serializer and parser, the debug formatting of
    strings, the lease broker process, the forge and Git. Theorems that
    need something of them say so in a named hypothesis and come with a witness
    for a concrete function.

    * What is not modelled

    Reading from and writing to the forge (src/src/github.rs and src/src/github/), Git
    execution (the processes of src/src/command.rs, src/src/compatibility.rs, src/src/physical_rebase.rs),
    the web and command line interfaces (src/src/web.rs, src/src/main.rs, src/src/lib.rs),
    telemetry, configuration parsing, and of src/src/sync.rs the tick that
    composes the passes: its planning, the physical rebase, the admission loop, the
    restart of checks after queue mutations and the final rediscovery (of which
    [first_blocking_completion_problem] is modelled); the operator and membership
    commands that use the same parts. They would be the next extension: most of them
    are long compositions of provider calls like those of [Pass]. The native Stack resource is landed but not created, extended or
    reshaped (src/src/github/stack.rs, src/src/github/stack_reshape.rs). The
    variants of the operation lock for Windows are left out, and so is the
    acquisition of src/src/writer_guard.rs, which combines it with the lease. Errors
    keep their cause and the facts they name, and their JSON details only in [Hooks]
    and [Scheduler], which read and extend them.

    * This file

    What every component shares:
    - machine integers: [u64] values as [N] with saturating and checked
      arithmetic written out ([sat_add], [sat_mul], [checked_add]);
    - Rust's [Ord] as the class [RustOrd] with its laws [RustOrdLaws], and the
      instances the code uses (integers, booleans, strings compared byte by
      byte, options with [None] first, tuples lexicographically);
    - [Vec::sort_by_key] (stable), [dedup], [Iterator::min] and their lemmas;
    - [BTreeMap] and [BTreeSet] as [gmap] and [gset] with the ascending
      iteration order of Rust written as [bt_entries] and [bs_elems];
    - the two-armed [result] type with its bind notation;
    - the string operations of the Rust standard library the code calls;
    - the tactics and the hint database [caravan] of the development. *)

From Stdlib Require Import Ascii String.
From stdpp Require Export base tactics decidable gmap strings list sorting pretty fin_maps fin_sets numbers.
From stdpp Require Export list.

#[global] Open Scope nat_scope.
#[global] Arguments Nat.ltb : simpl never.
#[global] Arguments Nat.leb : simpl never.

(** ** Tactics *)

(** Case analysis on the first [match] scrutinee of the goal, remembering it. *)
Ltac case_on_goal :=
  match goal with
  | |- context [match ?x with _ => _ end] => destruct x eqn:?
  end.

(** The same for a hypothesis. *)
Ltac case_on H :=
  match type of H with
  | context [match ?x with _ => _ end] => destruct x eqn:?
  end.

(** Turn boolean connectives and comparisons into propositions. *)
Ltac bool_prop :=
  repeat match goal with
  | H : (_ && _)%bool = true |- _ => apply andb_true_iff in H; destruct H
  | H : (_ || _)%bool = false |- _ => apply orb_false_iff in H; destruct H
  | H : negb _ = true |- _ => apply negb_true_iff in H
  | H : negb _ = false |- _ => apply negb_false_iff in H
  | H : bool_decide _ = true |- _ => apply bool_decide_eq_true_1 in H
  | H : bool_decide _ = false |- _ => apply bool_decide_eq_false_1 in H
  | H : (_ =? _)%N = true |- _ => apply N.eqb_eq in H
  | H : (_ =? _)%N = false |- _ => apply N.eqb_neq in H
  | H : (_ <? _)%N = true |- _ => apply N.ltb_lt in H
  | H : (_ <? _)%N = false |- _ => apply N.ltb_ge in H
  | H : (_ <=? _)%N = true |- _ => apply N.leb_le in H
  | H : (_ <=? _)%N = false |- _ => apply N.leb_gt in H
  | H : (_ =? _)%nat = true |- _ => apply Nat.eqb_eq in H
  | H : (_ =? _)%nat = false |- _ => apply Nat.eqb_neq in H
  | H : (_ <? _)%nat = true |- _ => apply Nat.ltb_lt in H
  | H : (_ <? _)%nat = false |- _ => apply Nat.ltb_ge in H
  | H : (_ <=? _)%nat = true |- _ => apply Nat.leb_le in H
  | H : (_ <=? _)%nat = false |- _ => apply Nat.leb_gt in H
  end.

Create HintDb caravan.
Create Rewrite HintDb caravan.

(** ** Results and errors *)

Inductive result (A E : Type) : Type :=
| Ok (a : A)
| Err (e : E).
Arguments Ok {A E} a.
Arguments Err {A E} e.

Declare Scope caravan_scope.
Delimit Scope caravan_scope with caravan.

(** Rust's [?] operator. *)
Notation "x <-? c1 ;; c2" :=
  (match c1 with Ok x => c2 | Err e => Err e end)
  (at level 100, c1 at next level, right associativity) : caravan_scope.
Notation "'do?' c1 ;; c2" :=
  (match c1 with Ok _ => c2 | Err e => Err e end)
  (at level 100, c1 at next level, right associativity) : caravan_scope.

Definition is_ok {A E} (r : result A E) : bool :=
  match r with Ok _ => true | Err _ => false end.

(** [Option::ok_or]. *)
Definition ok_or {A E} (o : option A) (e : E) : result A E :=
  match o with Some a => Ok a | None => Err e end.

(** [Option::is_none_or] and [Option::is_some_and]. *)
Definition is_none_or {A} (o : option A) (f : A → bool) : bool :=
  match o with Some a => f a | None => true end.
Definition is_some_and {A} (o : option A) (f : A → bool) : bool :=
  match o with Some a => f a | None => false end.
(** [Option::filter]. *)
Definition opt_filter {A} (f : A → bool) (o : option A) : option A :=
  match o with Some a => if f a then Some a else None | None => None end.
(** [Iterator::find_map]. *)
Fixpoint find_map {A B} (f : A → option B) (l : list A) : option B :=
  match l with
  | [] => None
  | x :: l' => match f x with Some y => Some y | None => find_map f l' end
  end.
Definition is_some_b {A} (o : option A) : bool :=
  match o with Some _ => true | None => false end.
Definition is_none_b {A} (o : option A) : bool := negb (is_some_b o).
(** [Option::or]. *)
Definition opt_or {A} (a b : option A) : option A :=
  match a with Some x => Some x | None => b end.
(** [Option::then_some] on a condition. *)
Definition then_some {A} (b : bool) (a : A) : option A := if b then Some a else None.

Definition opt_eqb {A} `{EqDecision A} (a b : option A) : bool := bool_decide (a = b).

(** ** Machine integers *)

Definition u64_max : N := 18446744073709551615.
Definition u32_max : N := 4294967295.

Definition sat_add (a b : N) : N := N.min u64_max (a + b).
Definition sat_sub (a b : N) : N := a - b.
Definition sat_mul (a b : N) : N := N.min u64_max (a * b).
Definition checked_add (a b : N) : option N :=
  if (a + b <=? u64_max)%N then Some (a + b)%N else None.
Definition is_u64 (n : N) : Prop := (n ≤ u64_max)%N.

Lemma sat_add_mono a b c d :
  (a ≤ c)%N → (b ≤ d)%N → (sat_add a b ≤ sat_add c d)%N.
Proof. unfold sat_add. lia. Qed.

Lemma sat_mul_mono a b c d :
  (a ≤ c)%N → (b ≤ d)%N → (sat_mul a b ≤ sat_mul c d)%N.
Proof.
  unfold sat_mul. intros.
  assert (a * b ≤ c * d)%N by (apply N.mul_le_mono; done). lia.
Qed.

Lemma sat_add_0_r a : is_u64 a → sat_add a 0 = a.
Proof. unfold is_u64, sat_add. lia. Qed.

Lemma sat_add_assoc a b c : sat_add (sat_add a b) c = sat_add a (sat_add b c).
Proof. unfold sat_add. lia. Qed.

Lemma sat_add_le_l a b : is_u64 a → (a ≤ sat_add a b)%N.
Proof. unfold is_u64, sat_add. lia. Qed.

Lemma sat_add_is_u64 a b : is_u64 (sat_add a b).
Proof. unfold is_u64, sat_add. lia. Qed.

Lemma sat_mul_is_u64 a b : is_u64 (sat_mul a b).
Proof. unfold is_u64, sat_mul. lia. Qed.

#[export] Hint Resolve sat_add_is_u64 sat_mul_is_u64 sat_add_mono sat_mul_mono : caravan.

(** [.fold(0_u64, u64::saturating_add)] over an iterator. *)
Definition sat_sum (l : list N) : N := foldl sat_add 0%N l.

Lemma foldl_sat_add_mono (l k : list N) a b :
  (a ≤ b)%N → Forall2 N.le l k → (foldl sat_add a l ≤ foldl sat_add b k)%N.
Proof.
  intros Hab Hl. revert a b Hab. induction Hl as [|x y l k Hxy Hl IH]; intros a b Hab; cbn.
  - done.
  - apply IH. by apply sat_add_mono.
Qed.

Lemma foldl_sat_add_ge a l : is_u64 a → (a ≤ foldl sat_add a l)%N.
Proof.
  revert a. induction l as [|x l IH]; intros a Ha; cbn; [lia|].
  etrans; [apply (sat_add_le_l a x Ha)|]. apply IH. apply sat_add_is_u64.
Qed.

Lemma foldl_sat_add_mono_app (l k : list N) a :
  is_u64 a → (foldl sat_add a l ≤ foldl sat_add a (l ++ k))%N.
Proof.
  intros Ha. rewrite foldl_app. apply foldl_sat_add_ge.
  clear k. revert a Ha. induction l as [|x l IH]; intros a Ha; cbn; [done|].
  apply IH, sat_add_is_u64.
Qed.

(** ** Orders *)

(** Rust's derived [Ord]: [ord_le a b] is [a <= b]. *)
Class RustOrd (A : Type) := ord_le : A → A → bool.

Class RustOrdLaws (A : Type) `{RustOrd A} := {
  ord_refl : ∀ a : A, ord_le a a = true;
  ord_trans : ∀ a b c : A, ord_le a b = true → ord_le b c = true → ord_le a c = true;
  ord_antisym : ∀ a b : A, ord_le a b = true → ord_le b a = true → a = b;
  ord_total : ∀ a b : A, ord_le a b = true ∨ ord_le b a = true }.

(** [a < b] and [a >= b]. *)
Definition ord_lt {A} `{RustOrd A} (a b : A) : bool := negb (ord_le b a).

#[export] Instance ord_N : RustOrd N := N.leb.
#[export] Instance ord_nat : RustOrd nat := Nat.leb.
(** [false < true]. *)
#[export] Instance ord_bool : RustOrd bool := λ a b, implb a b.
(** Strings compare byte by byte. *)
#[export] Instance ord_string : RustOrd string := String.leb.
(** [None < Some _]. *)
#[export] Instance ord_option {A} `{RustOrd A} : RustOrd (option A) := λ a b,
  match a, b with
  | None, _ => true
  | Some _, None => false
  | Some x, Some y => ord_le x y
  end.
(** Tuples are lexicographic. *)
#[export] Instance ord_prod {A B} `{RustOrd A, EqDecision A, RustOrd B} : RustOrd (A * B) := λ a b,
  if decide (a.1 = b.1) then ord_le a.2 b.2 else ord_le a.1 b.1.

#[export] Instance ord_N_laws : RustOrdLaws N.
Proof.
  split; unfold ord_le, ord_N; intros;
    rewrite ?N.leb_le in *; lia.
Qed.

#[export] Instance ord_nat_laws : RustOrdLaws nat.
Proof.
  split; unfold ord_le, ord_nat; intros;
    rewrite ?Nat.leb_le in *; lia.
Qed.

#[export] Instance ord_bool_laws : RustOrdLaws bool.
Proof.
  split; unfold ord_le, ord_bool.
  - by intros [].
  - by intros [] [] [].
  - by intros [] [].
  - intros [] []; cbn; auto.
Qed.

#[export] Instance ord_string_laws : RustOrdLaws string.
Proof.
  split; unfold ord_le, ord_string.
  - intros a. apply Is_true_true, (reflexivity (R:=String.le) a).
  - intros a b c Hab Hbc. apply Is_true_true.
    apply (transitivity (R:=String.le) (y:=b)); by apply Is_true_true.
  - intros a b Hab Hba. apply (anti_symm String.le); by apply Is_true_true.
  - intros a b. destruct (total String.le a b) as [H|H]; apply Is_true_true in H; auto.
Qed.

#[export] Instance ord_option_laws {A} `{RustOrd A, !RustOrdLaws A} : RustOrdLaws (option A).
Proof.
  split.
  - intros [a|]; cbn; [apply ord_refl|done].
  - intros [a|] [b|] [c|]; cbn; try done. apply ord_trans.
  - intros [a|] [b|]; cbn; try done. intros. f_equal. by apply ord_antisym.
  - intros [a|] [b|]; cbn; auto. apply ord_total.
Qed.

#[export] Instance ord_prod_laws {A B}
  `{RustOrd A, !RustOrdLaws A, EqDecision A, RustOrd B, !RustOrdLaws B} : RustOrdLaws (A * B).
Proof.
  split; unfold ord_le at 1, ord_prod.
  - intros [a b]; cbn. rewrite decide_True by done. apply ord_refl.
  - intros [a1 b1] [a2 b2] [a3 b3]. unfold ord_le, ord_prod; cbn.
    repeat case_decide; subst; try done; intros.
    + by eapply ord_trans.
    + exfalso. match goal with H : ?x ≠ _ |- _ => apply H end. by apply ord_antisym.
    + by eapply ord_trans.
  - intros [a1 b1] [a2 b2]. unfold ord_le, ord_prod; cbn.
    repeat case_decide; subst; try done; intros.
    + f_equal. by apply ord_antisym.
    + exfalso. match goal with H : ?x ≠ _ |- _ => apply H end. by apply ord_antisym.
  - intros [a1 b1] [a2 b2]. unfold ord_le, ord_prod; cbn.
    repeat case_decide; subst; try done; apply ord_total.
Qed.

(** A type ordered through an injective projection, as a derived [Ord] is
    through the tuple of its fields. *)
Lemma ord_inj_laws {A B} `{RustOrd B, !RustOrdLaws B} (f : A → B) (Hf : Inj (=) (=) f) :
  @RustOrdLaws A (λ a b, ord_le (f a) (f b)).
Proof.
  split.
  - intros a. apply (ord_refl (f a)).
  - intros a b c. apply (ord_trans (f a) (f b) (f c)).
  - intros a b Hab Hba. apply Hf. by apply ord_antisym.
  - intros a b. apply (ord_total (f a) (f b)).
Qed.

Lemma ord_lt_le {A} `{RustOrd A, !RustOrdLaws A} (a b : A) : ord_lt a b = true → ord_le a b = true.
Proof. unfold ord_lt. intros ?%negb_true_iff. destruct (ord_total a b); congruence. Qed.

Lemma ord_not_le {A} `{RustOrd A, !RustOrdLaws A} (a b : A) : ord_le a b = false → ord_lt b a = true.
Proof. unfold ord_lt. by intros ->. Qed.

Lemma ord_lt_irrefl {A} `{RustOrd A, !RustOrdLaws A} (a : A) : ord_lt a a = false.
Proof. unfold ord_lt. by rewrite ord_refl. Qed.

Lemma ord_lt_ne {A} `{RustOrd A, !RustOrdLaws A} (a b : A) : ord_lt a b = true → a ≠ b.
Proof. intros Hlt ->. by rewrite ord_lt_irrefl in Hlt. Qed.

Lemma ord_lt_trans {A} `{RustOrd A, !RustOrdLaws A} (a b c : A) :
  ord_lt a b = true → ord_lt b c = true → ord_lt a c = true.
Proof.
  unfold ord_lt. rewrite !negb_true_iff. intros Hba Hcb.
  destruct (ord_le c a) eqn:Hca; [|done].
  destruct (ord_total a b) as [Hab|Hab]; [|congruence].
  assert (ord_le c b = true) by (by eapply ord_trans). congruence.
Qed.

Lemma ord_le_lt_trans {A} `{RustOrd A, !RustOrdLaws A} (a b c : A) :
  ord_le a b = true → ord_lt b c = true → ord_lt a c = true.
Proof.
  unfold ord_lt. rewrite !negb_true_iff. intros Hab Hcb.
  destruct (ord_le c a) eqn:Hca; [|done].
  assert (ord_le c b = true) by (by eapply ord_trans). congruence.
Qed.

Lemma ord_lt_le_trans {A} `{RustOrd A, !RustOrdLaws A} (a b c : A) :
  ord_lt a b = true → ord_le b c = true → ord_lt a c = true.
Proof.
  unfold ord_lt. rewrite !negb_true_iff. intros Hab Hcb.
  destruct (ord_le c a) eqn:Hca; [|done].
  assert (ord_le b a = true) by (by eapply ord_trans). congruence.
Qed.

Lemma ord_lt_gt_cases {A} `{RustOrd A, !RustOrdLaws A} (a b : A) :
  a ≠ b → ord_lt a b = true ∨ ord_lt b a = true.
Proof.
  intros Hne. unfold ord_lt.
  destruct (ord_le a b) eqn:Hab, (ord_le b a) eqn:Hba; cbn; auto.
  by destruct Hne; apply ord_antisym.
Qed.
#[export] Hint Resolve ord_refl ord_lt_le : caravan.

(** ** Sorting *)

(** Insertion sort: the first element goes before the first one that is not
    smaller, so equal keys keep their input order, as [slice::sort_by_key]. *)
Section sort.
Context {A K : Type} `{RustOrd K, !RustOrdLaws K} (key : A → K).

Fixpoint insert_by_key (x : A) (l : list A) : list A :=
  match l with
  | [] => [x]
  | y :: l' => if ord_le (key x) (key y) then x :: y :: l' else y :: insert_by_key x l'
  end.

Definition sort_by_key (l : list A) : list A := foldr insert_by_key [] l.

Definition key_le (a b : A) : Prop := ord_le (key a) (key b) = true.

Lemma insert_by_key_Permutation x l : insert_by_key x l ≡ₚ x :: l.
Proof.
  induction l as [|y l IH]; cbn; [done|]. case_match; [done|].
  rewrite IH. apply Permutation_swap.
Qed.

Lemma sort_by_key_Permutation l : sort_by_key l ≡ₚ l.
Proof. induction l as [|x l IH]; cbn; [done|]. by rewrite insert_by_key_Permutation, IH. Qed.

Lemma insert_by_key_sorted x l :
  StronglySorted key_le l → StronglySorted key_le (insert_by_key x l).
Proof.
  unfold key_le. induction 1 as [|y l Hl IH Hy]; cbn.
  - repeat constructor.
  - destruct (ord_le (key x) (key y)) eqn:Hxy.
    + constructor; [by constructor|]. constructor; [done|].
      eapply Forall_impl; [exact Hy|]. intros z Hz. by eapply ord_trans.
    + constructor; [done|]. rewrite insert_by_key_Permutation. constructor; [|done].
      by apply ord_lt_le, ord_not_le.
Qed.

Lemma sort_by_key_sorted l : StronglySorted key_le (sort_by_key l).
Proof. induction l as [|x l IH]; cbn; [constructor|]. by apply insert_by_key_sorted. Qed.

Lemma elem_of_sort_by_key x l : x ∈ sort_by_key l ↔ x ∈ l.
Proof. by rewrite sort_by_key_Permutation. Qed.

Lemma length_sort_by_key l : length (sort_by_key l) = length l.
Proof. by rewrite sort_by_key_Permutation. Qed.

Lemma NoDup_sort_by_key l : NoDup (sort_by_key l) ↔ NoDup l.
Proof. by rewrite sort_by_key_Permutation. Qed.

Lemma insert_by_key_head x l : Forall (key_le x) l → insert_by_key x l = x :: l.
Proof. intros Hl. destruct l as [|y l]; [done|]. inversion Hl as [|? ? Hy]; subst. cbn. by rewrite Hy. Qed.

(** A sorted list is left alone. *)
Lemma sort_by_key_id l : StronglySorted key_le l → sort_by_key l = l.
Proof.
  unfold sort_by_key. induction 1 as [|x l Hl IH Hx]; cbn; [done|]. rewrite IH.
  by apply insert_by_key_head.
Qed.

Lemma sorted_nodup_keys_unique l k :
  NoDup (key <$> l) → StronglySorted key_le l → StronglySorted key_le k → l ≡ₚ k → l = k.
Proof.
  intros Hnd Hl Hk Hp.
  eapply (StronglySorted_unique_strong key_le); [|done..].
  unfold key_le. intros x1 x2 Hx1 Hx2 H12 H21.
  assert (key x1 = key x2) as Hkey by (by apply ord_antisym).
  rewrite <-Hp in Hx2.
  apply list_elem_of_lookup in Hx1 as [i Hi], Hx2 as [j Hj].
  assert (i = j) as ->.
  { eapply (NoDup_lookup (key <$> l)); [done|..]; rewrite list_lookup_fmap.
    - by rewrite Hi. - rewrite Hj; cbn. by rewrite Hkey. }
  congruence.
Qed.

(** Sorting forgets the input order when the keys are distinct. *)
Lemma sort_by_key_perm_eq l k :
  NoDup (key <$> l) → l ≡ₚ k → sort_by_key l = sort_by_key k.
Proof.
  intros Hnd Hp. apply sorted_nodup_keys_unique.
  - by rewrite sort_by_key_Permutation.
  - apply sort_by_key_sorted.
  - apply sort_by_key_sorted.
  - by rewrite !sort_by_key_Permutation.
Qed.
End sort.

(** [std::cmp::Reverse]. *)
Record Reverse (A : Type) := mkReverse { unreverse : A }.
Arguments mkReverse {A} _.
Arguments unreverse {A} _.
#[export] Instance Reverse_eq_dec {A} `{EqDecision A} : EqDecision (Reverse A).
Proof. solve_decision. Defined.
#[export] Instance ord_Reverse {A} `{RustOrd A} : RustOrd (Reverse A) :=
  λ a b, ord_le (unreverse b) (unreverse a).

(** [Vec::sort] and [Vec::sort_unstable] on a totally ordered type. *)
Definition vec_sort {A} `{RustOrd A} (l : list A) : list A := sort_by_key id l.

(** Sorting whole values forgets the input order. *)
Lemma vec_sort_perm_eq {A} `{RustOrd A, !RustOrdLaws A} (l k : list A) :
  l ≡ₚ k → vec_sort l = vec_sort k.
Proof.
  intros Hp. unfold vec_sort. eapply (StronglySorted_unique_strong (key_le id)).
  - unfold key_le. intros x y _ _. apply ord_antisym.
  - apply sort_by_key_sorted.
  - apply sort_by_key_sorted.
  - by rewrite !sort_by_key_Permutation.
Qed.

(** [Vec::dedup]: drops consecutive equal elements. *)
Fixpoint dedup_by {A} (eqb : A → A → bool) (l : list A) : list A :=
  match l with
  | [] => []
  | x :: l' =>
      match dedup_by eqb l' with
      | [] => [x]
      | y :: k => if eqb x y then x :: k else x :: y :: k
      end
  end.
(** [Vec::dedup_by_key]. *)
Definition dedup_by_key {A K} `{EqDecision K} (key : A → K) (l : list A) : list A :=
  dedup_by (λ a b, bool_decide (key a = key b)) l.
Definition vec_dedup {A} `{EqDecision A} (l : list A) : list A :=
  dedup_by (λ a b, bool_decide (a = b)) l.

Lemma vec_dedup_cons {A} `{EqDecision A} (x : A) l :
  ∃ k, vec_dedup (x :: l) = x :: k.
Proof. unfold vec_dedup; cbn. repeat case_match; eauto. Qed.

Lemma elem_of_vec_dedup {A} `{EqDecision A} (x : A) l : x ∈ vec_dedup l ↔ x ∈ l.
Proof.
  induction l as [|y l IH]; [done|].
  unfold vec_dedup in *; cbn. destruct (dedup_by _ l) as [|z k] eqn:E.
  - rewrite !elem_of_cons, <-IH. by rewrite elem_of_nil.
  - case_bool_decide; subst; rewrite !elem_of_cons, <-IH, !elem_of_cons; tauto.
Qed.

Lemma length_dedup_by {A} (eqb : A → A → bool) l : length (dedup_by eqb l) ≤ length l.
Proof.
  induction l as [|x l IH]; cbn; [lia|]. destruct (dedup_by eqb l); cbn in *; [lia|].
  case_match; cbn; lia.
Qed.

Lemma length_vec_dedup {A} `{EqDecision A} (l : list A) : length (vec_dedup l) ≤ length l.
Proof. apply length_dedup_by. Qed.

(** Deduplicating a sorted vector leaves strictly ascending elements. *)
Lemma vec_dedup_sorted {A} `{RustOrd A, !RustOrdLaws A, EqDecision A} (l : list A) :
  StronglySorted (key_le id) l →
  StronglySorted (λ a b : A, ord_lt a b = true) (vec_dedup l).
Proof.
  unfold vec_dedup. induction 1 as [|x l Hl IH Hx]; cbn; [constructor|].
  assert (Forall (λ b, ord_le x b = true) (dedup_by (λ a b, bool_decide (a = b)) l)) as Hall.
  { apply Forall_forall. intros b Hb.
    apply (elem_of_vec_dedup b l) in Hb. rewrite Forall_forall in Hx. by apply Hx. }
  destruct (dedup_by _ l) as [|y k] eqn:E; [repeat constructor|].
  inversion IH as [|? ? Hk Hyk]; subst. inversion Hall as [|? ? Hxy Hxk]; subst.
  case_bool_decide as Heq; subst.
  - constructor; done.
  - assert (ord_lt x y = true) as Hlt.
    { unfold ord_lt. apply negb_true_iff. destruct (ord_le y x) eqn:Hyx; [|done].
      by destruct Heq; apply ord_antisym. }
    constructor; [done|]. constructor; [done|].
    eapply Forall_impl; [exact Hyk|]. intros b Hb. by eapply ord_lt_trans.
Qed.

Lemma strictly_sorted_NoDup {A} `{RustOrd A, !RustOrdLaws A} (l : list A) :
  StronglySorted (λ a b : A, ord_lt a b = true) l → NoDup l.
Proof.
  induction 1 as [|x l Hl IH Hx]; constructor; [|done].
  rewrite Forall_forall in Hx. intros Hin. specialize (Hx x Hin). by rewrite ord_lt_irrefl in Hx.
Qed.

Lemma strictly_sorted_le {A} `{RustOrd A, !RustOrdLaws A} (l : list A) :
  StronglySorted (λ a b : A, ord_lt a b = true) l → StronglySorted (key_le id) l.
Proof.
  induction 1 as [|x l Hl IH Hx]; constructor; [done|].
  eapply Forall_impl; [exact Hx|]. intros y Hy. by apply ord_lt_le.
Qed.

Lemma vec_dedup_id {A} `{RustOrd A, !RustOrdLaws A, EqDecision A} (l : list A) :
  StronglySorted (λ a b : A, ord_lt a b = true) l → vec_dedup l = l.
Proof.
  unfold vec_dedup. induction 1 as [|x l Hl IH Hx]; cbn; [done|]. rewrite IH.
  destruct l as [|y l]; [done|]. inversion Hx as [|? ? Hxy]; subst.
  rewrite bool_decide_eq_false_2; [done|]. by apply ord_lt_ne.
Qed.

#[export] Instance ord_Reverse_laws {A} `{RustOrd A, !RustOrdLaws A} : RustOrdLaws (Reverse A).
Proof.
  split; unfold ord_le, ord_Reverse.
  - intros a. apply ord_refl.
  - intros a b c Hab Hbc. by eapply ord_trans.
  - intros [a] [b] Hab Hba; cbn in *. f_equal. by apply ord_antisym.
  - intros a b. apply ord_total.
Qed.

Section dedup_by_key.
Context {A K : Type} `{EqDecision K, RustOrd K, !RustOrdLaws K} (key : A → K).

Lemma dedup_by_key_subset x l : x ∈ dedup_by_key key l → x ∈ l.
Proof.
  unfold dedup_by_key. induction l as [|y l IH]; cbn; [done|].
  destruct (dedup_by _ l) as [|z k]; [rewrite !elem_of_cons, elem_of_nil; tauto|].
  case_bool_decide; rewrite !elem_of_cons in *; tauto.
Qed.

Lemma dedup_by_key_covers x l : x ∈ l → ∃ y, y ∈ dedup_by_key key l ∧ key y = key x.
Proof.
  unfold dedup_by_key. induction l as [|y l IH]; cbn; [by intros ?%elem_of_nil|].
  intros Hx. destruct (dedup_by _ l) as [|z k].
  - exists y. rewrite list_elem_of_singleton. split; [done|].
    apply elem_of_cons in Hx as [->|Hx]; [done|].
    destruct (IH Hx) as (w & Hw & _). by apply elem_of_nil in Hw.
  - apply elem_of_cons in Hx as [->|Hx].
    + exists y. split; [|done]. case_bool_decide; by left.
    + destruct (IH Hx) as (w & Hw & Hk). case_bool_decide as Heq.
      * apply elem_of_cons in Hw as [->|Hw].
        { exists y. split; [by left|congruence]. }
        exists w. split; [by right|done].
      * exists w. split; [by right|done].
Qed.

Lemma dedup_by_key_sorted l :
  StronglySorted (key_le key) l →
  StronglySorted (λ a b, ord_lt (key a) (key b) = true) (dedup_by_key key l).
Proof.
  induction 1 as [|x l Hl IH Hx]; cbn; [constructor|].
  assert (Forall (λ b, ord_le (key x) (key b) = true) (dedup_by_key key l)) as Hall.
  { apply Forall_forall. intros b Hb%dedup_by_key_subset. rewrite Forall_forall in Hx. by apply Hx. }
  unfold dedup_by_key in *. destruct (dedup_by _ l) as [|y k] eqn:E; [repeat constructor|].
  inversion IH as [|? ? Hk Hyk]; subst. inversion Hall as [|? ? Hxy Hxk]; subst.
  case_bool_decide as Heq.
  - constructor; [done|]. by rewrite Heq.
  - assert (ord_lt (key x) (key y) = true) as Hlt.
    { destruct (ord_lt_gt_cases (key x) (key y)) as [?|Hgt]; [done..|].
      unfold ord_lt in Hgt. by rewrite Hxy in Hgt. }
    constructor; [done|]. constructor; [done|].
    eapply Forall_impl; [exact Hyk|]. intros b Hb. by eapply ord_lt_trans.
Qed.

Lemma dedup_by_key_id l :
  StronglySorted (λ a b, ord_lt (key a) (key b) = true) l → dedup_by_key key l = l.
Proof.
  unfold dedup_by_key. induction 1 as [|x l Hl IH Hx]; cbn; [done|]. rewrite IH.
  destruct l as [|y l]; [done|]. inversion Hx as [|? ? Hxy]; subst.
  rewrite bool_decide_eq_false_2; [done|]. by apply ord_lt_ne.
Qed.

Lemma sorted_NoDup_strict l :
  NoDup (key <$> l) → StronglySorted (key_le key) l →
  StronglySorted (λ a b, ord_lt (key a) (key b) = true) l.
Proof.
  intros Hnd Hl. induction Hl as [|x l Hl IH Hx]; [constructor|].
  cbn in Hnd. apply NoDup_cons in Hnd as [Hxl Hnd]. constructor; [by apply IH|].
  rewrite Forall_forall in *. intros y Hy. specialize (Hx y Hy). unfold key_le in Hx.
  destruct (ord_lt_gt_cases (key x) (key y)) as [?|Hgt]; [|done|].
  - intros Heq. apply Hxl. rewrite Heq. by apply list_elem_of_fmap_2.
  - unfold ord_lt in Hgt. by rewrite Hx in Hgt.
Qed.
End dedup_by_key.

Lemma dedup_by_key_Reverse {A K} `{EqDecision K} (key : A → K) l :
  dedup_by_key (λ a, mkReverse (key a)) l = dedup_by_key key l.
Proof.
  unfold dedup_by_key. induction l as [|x l IH]; cbn; [done|]. rewrite IH; clear IH.
  destruct (dedup_by _ l) as [|y k]; [done|].
  repeat case_bool_decide; congruence.
Qed.

Lemma StronglySorted_app_l_r {A} (R : A → A → Prop) l k x y :
  StronglySorted R (l ++ k) → x ∈ l → y ∈ k → R x y.
Proof.
  induction l as [|z l IH]; cbn; [by intros _ ?%elem_of_nil|].
  intros Hs. inversion Hs as [|? ? Hl Hz]; subst. intros [->|Hx]%elem_of_cons Hy.
  - rewrite Forall_forall in Hz. apply Hz. rewrite elem_of_app. by right.
  - by apply IH.
Qed.

(** [collect::<BTreeSet<_>>().len()] is the input's length exactly without duplicates. *)
Lemma size_list_to_set_NoDup {K} `{Countable K} (l : list K) :
  size (list_to_set l : gset K) = length l ↔ NoDup l.
Proof.
  split; [|apply size_list_to_set].
  assert (∀ k : list K, size (list_to_set k : gset K) ≤ length k) as Hle.
  { induction k as [|x k IH]; cbn; [by rewrite size_empty|].
    rewrite size_union_alt, size_singleton.
    assert (size ((list_to_set k : gset K) ∖ {[x]}) ≤ size (list_to_set k : gset K))
      by (apply subseteq_size, subseteq_difference_l; reflexivity). lia. }
  induction l as [|x l IH]; cbn; [constructor|].
  rewrite size_union_alt, size_singleton. intros Hs.
  assert (size ((list_to_set l : gset K) ∖ {[x]}) ≤ size (list_to_set l : gset K))
    by (by apply subseteq_size, subseteq_difference_l).
  pose proof (Hle l). destruct (decide (x ∈ l)) as [Hx|Hx].
  - assert ((list_to_set l : gset K) ∖ {[x]} ⊂ list_to_set l) as Hsub.
    { split; [by apply subseteq_difference_l|]. intros Hc.
      assert (x ∈ (list_to_set l : gset K)) as Hxs by (by apply elem_of_list_to_set).
      specialize (Hc x Hxs). apply elem_of_difference in Hc as [_ Hc].
      by apply Hc, elem_of_singleton. }
    apply subset_size in Hsub. lia.
  - constructor; [done|]. apply IH. lia.
Qed.

(** [Iterator::min]. *)
Definition list_min {A} `{RustOrd A} (l : list A) : option A :=
  match l with
  | [] => None
  | x :: l' => Some (foldl (λ m y, if ord_le m y then m else y) x l')
  end.

Lemma list_min_spec {A} `{RustOrd A, !RustOrdLaws A} (l : list A) m :
  list_min l = Some m → m ∈ l ∧ ∀ y, y ∈ l → ord_le m y = true.
Proof.
  destruct l as [|x l]; [done|]. cbn. intros [= <-]. revert x.
  induction l as [|z l IH]; intros x; cbn.
  - split; [by left|]. intros y ->%list_elem_of_singleton. apply ord_refl.
  - destruct (ord_le x z) eqn:Hxz.
    + destruct (IH x) as [Hin Hle].
      split; [apply elem_of_cons in Hin as [->|Hin]; [by left|by right; right]|].
      intros y [->|[->|Hy]%elem_of_cons]%elem_of_cons; [apply Hle; by left| |apply Hle; by right].
      eapply ord_trans; [apply Hle; by left|done].
    + destruct (IH z) as [Hin Hle]. split; [by right|].
      assert (ord_le z x = true) by (destruct (ord_total x z); congruence).
      intros y [->|[->|Hy]%elem_of_cons]%elem_of_cons; [|apply Hle; by left|apply Hle; by right].
      eapply ord_trans; [apply Hle; by left|done].
Qed.

Lemma list_min_None {A} `{RustOrd A} (l : list A) : list_min l = None ↔ l = [].
Proof. destruct l; cbn; split; done. Qed.

(** ** Ordered maps and sets *)

(** [BTreeMap::iter]: the entries in ascending key order. *)
Definition bt_entries {K V} `{Countable K, RustOrd K} (m : gmap K V) : list (K * V) :=
  sort_by_key fst (map_to_list m).
(** [BTreeMap::keys] and [BTreeMap::values]. *)
Definition bt_keys {K V} `{Countable K, RustOrd K} (m : gmap K V) : list K := (bt_entries m).*1.
Definition bt_values {K V} `{Countable K, RustOrd K} (m : gmap K V) : list V := (bt_entries m).*2.
(** [BTreeSet::iter]. *)
Definition bs_elems {K} `{Countable K, RustOrd K} (s : gset K) : list K := vec_sort (elements s).

Section btree.
Context {K V : Type} `{Countable K, RustOrd K, !RustOrdLaws K}.
Implicit Types (m : gmap K V) (s : gset K).

Lemma elem_of_bt_entries m k v : (k, v) ∈ bt_entries m ↔ m !! k = Some v.
Proof. unfold bt_entries. by rewrite elem_of_sort_by_key, elem_of_map_to_list. Qed.

Lemma elem_of_bt_values m v : v ∈ bt_values m ↔ ∃ k, m !! k = Some v.
Proof.
  unfold bt_values. rewrite list_elem_of_fmap. split.
  - intros [[k v'] [-> Hin]]. exists k. by apply elem_of_bt_entries.
  - intros [k Hk]. exists (k, v). split; [done|]. by apply elem_of_bt_entries.
Qed.

Lemma elem_of_bt_keys m k : k ∈ bt_keys m ↔ is_Some (m !! k).
Proof.
  unfold bt_keys. rewrite list_elem_of_fmap. split.
  - intros [[k' v] [-> Hin]]. exists v. by apply elem_of_bt_entries.
  - intros [v Hk]. exists (k, v). split; [done|]. by apply elem_of_bt_entries.
Qed.

Lemma bt_keys_Permutation m : bt_keys m ≡ₚ (map_to_list m).*1.
Proof. unfold bt_keys, bt_entries. by rewrite sort_by_key_Permutation. Qed.

Lemma NoDup_bt_keys m : NoDup (bt_keys m).
Proof. rewrite bt_keys_Permutation. apply NoDup_fst_map_to_list. Qed.

Lemma length_bt_keys m : length (bt_keys m) = size m.
Proof. rewrite bt_keys_Permutation, length_fmap, length_map_to_list. done. Qed.

Lemma bt_entries_sorted m : StronglySorted (key_le fst) (bt_entries m).
Proof. apply sort_by_key_sorted. Qed.

Lemma bt_keys_sorted m : StronglySorted (key_le id) (bt_keys m).
Proof.
  unfold bt_keys. generalize (bt_entries_sorted m).
  induction 1 as [|e l Hl IH He]; cbn; constructor; [done|].
  rewrite Forall_fmap. exact He.
Qed.

Lemma elem_of_bs_elems s k : k ∈ bs_elems s ↔ k ∈ s.
Proof. unfold bs_elems, vec_sort. by rewrite elem_of_sort_by_key, elem_of_elements. Qed.

Lemma NoDup_bs_elems s : NoDup (bs_elems s).
Proof. unfold bs_elems, vec_sort. rewrite NoDup_sort_by_key. apply NoDup_elements. Qed.
End btree.

(** A map read as a list and written back. *)
Definition bt_map_values {K V W} `{Countable K} (f : V → W) (m : gmap K V) : gmap K W := f <$> m.

(** ** Lists *)

(** [Iterator::position]. *)
Fixpoint position {A} (p : A → bool) (l : list A) : option nat :=
  match l with
  | [] => None
  | x :: l' => if p x then Some 0 else S <$> position p l'
  end.

Definition mem {A} `{EqDecision A} (x : A) (l : list A) : bool := bool_decide (x ∈ l).

(** [slice::windows(2)]. *)
Fixpoint pairs {A} (l : list A) : list (A * A) :=
  match l with
  | x :: ((y :: _) as l') => (x, y) :: pairs l'
  | _ => []
  end.

Lemma elem_of_pairs_split {A} (l : list A) x y :
  (x, y) ∈ pairs l → ∃ l1 l2, l = l1 ++ x :: y :: l2.
Proof.
  induction l as [|a [|b l] IH]; cbn; try (intros Hn; by apply elem_of_nil in Hn).
  intros [[= -> ->]|Hin]%elem_of_cons.
  - by exists [], l.
  - destruct (IH Hin) as (l1 & l2 & ->). by exists (a :: l1), l2.
Qed.

Lemma pairs_elem_of {A} (l : list A) x y :
  (x, y) ∈ pairs l → x ∈ l ∧ y ∈ l.
Proof. intros (l1 & l2 & ->)%elem_of_pairs_split. rewrite !elem_of_app, !elem_of_cons. auto. Qed.

(** An element of a list opens it or follows another one. *)
Lemma elem_of_head_or_pair {A} (l : list A) x :
  x ∈ l → head l = Some x ∨ ∃ a, (a, x) ∈ pairs l.
Proof.
  induction l as [|y l IH]; [by intros ?%elem_of_nil|].
  intros [->|Hx]%elem_of_cons; [by left|]. right. destruct (IH Hx) as [Hh|(a & Ha)].
  - destruct l as [|z l]; [done|]. cbn in Hh. injection Hh as ->. exists y. cbn. by left.
  - exists a. destruct l as [|z l]; [by apply elem_of_nil in Hx|]. cbn. by right.
Qed.

Lemma elem_of_last_or_pair {A} (l : list A) x :
  x ∈ l → last l = Some x ∨ ∃ b, (x, b) ∈ pairs l.
Proof.
  induction l as [|y l IH]; [by intros ?%elem_of_nil|].
  destruct l as [|z l]; [intros ->%list_elem_of_singleton; by left|].
  intros [->|Hx]%elem_of_cons; [right; exists z; by left|].
  destruct (IH Hx) as [Hl|(b & Hb)]; [by left|right; exists b; by right].
Qed.

(** Without repetitions the first element follows nothing. *)
Lemma head_not_pair {A} (l : list A) a x :
  NoDup l → head l = Some x → (a, x) ∉ pairs l.
Proof.
  destruct l as [|y l]; [done|]. cbn. intros [Hy _]%NoDup_cons [= ->].
  destruct l as [|z l]; [apply not_elem_of_nil|]. intros [[= _ <-]|Hp]%elem_of_cons.
  - apply Hy. by left.
  - apply Hy. by eapply pairs_elem_of.
Qed.

Lemma find_some_iff {A} (p : A → bool) l x :
  List.find p l = Some x → x ∈ l ∧ p x = true.
Proof. intros H. destruct (List.find_some _ _ H) as [Hin Hp]. by rewrite list_elem_of_In. Qed.

Lemma find_none_iff {A} (p : A → bool) l :
  List.find p l = None → ∀ x, x ∈ l → p x = false.
Proof. intros H x Hx. apply (List.find_none _ _ H). by rewrite <-list_elem_of_In. Qed.

Lemma existsb_elem_of {A} (p : A → bool) l :
  existsb p l = true ↔ ∃ x, x ∈ l ∧ p x = true.
Proof. rewrite existsb_exists. by setoid_rewrite list_elem_of_In. Qed.

Lemma existsb_false_elem_of {A} (p : A → bool) l :
  existsb p l = false ↔ ∀ x, x ∈ l → p x = false.
Proof.
  split.
  - intros H x Hx. destruct (p x) eqn:Hp; [|done].
    assert (existsb p l = true) by (apply existsb_elem_of; eauto). congruence.
  - intros H. destruct (existsb p l) eqn:E; [|done].
    apply existsb_elem_of in E as (x & Hx & Hp). rewrite H in Hp; done.
Qed.

Lemma forallb_elem_of {A} (p : A → bool) l :
  forallb p l = true ↔ ∀ x, x ∈ l → p x = true.
Proof. rewrite forallb_forall. by setoid_rewrite list_elem_of_In. Qed.

Lemma mem_true {A} `{EqDecision A} (x : A) l : mem x l = true ↔ x ∈ l.
Proof. unfold mem. by rewrite bool_decide_eq_true. Qed.

Lemma mem_false {A} `{EqDecision A} (x : A) l : mem x l = false ↔ x ∉ l.
Proof. unfold mem. by rewrite bool_decide_eq_false. Qed.

Lemma elem_of_list_filter_b {A} (p : A → bool) l x :
  x ∈ List.filter p l ↔ x ∈ l ∧ p x = true.
Proof. rewrite !list_elem_of_In. apply filter_In. Qed.

Lemma elem_of_flat_map {A B} (f : A → list B) l y :
  y ∈ flat_map f l ↔ ∃ x, x ∈ l ∧ y ∈ f x.
Proof. rewrite list_elem_of_In, in_flat_map. by setoid_rewrite list_elem_of_In. Qed.

Lemma filter_split_Permutation {A} (p : A → bool) l :
  List.filter p l ++ List.filter (λ x, negb (p x)) l ≡ₚ l.
Proof.
  induction l as [|x l IH]; cbn; [done|]. destruct (p x); cbn.
  - by rewrite IH.
  - by rewrite <-Permutation_middle, IH.
Qed.

Lemma filter_b_Permutation {A} (p : A → bool) (l k : list A) :
  l ≡ₚ k → List.filter p l ≡ₚ List.filter p k.
Proof.
  induction 1 as [|x l k _ IH|x y l|l k k' _ IH1 _ IH2]; cbn.
  - done.
  - destruct (p x); [by constructor|done].
  - destruct (p x), (p y); try done. constructor.
  - by etrans.
Qed.

Lemma filter_ext_elem_of {A} (p q : A → bool) l :
  (∀ x, x ∈ l → p x = q x) → List.filter p l = List.filter q l.
Proof. intros H. apply List.filter_ext_in. intros x Hx. apply H. by rewrite list_elem_of_In. Qed.

Lemma filter_b_false {A} (l : list A) : List.filter (λ _, false) l = [].
Proof. by induction l. Qed.

Lemma filter_b_length {A} (p : A → bool) l : length (List.filter p l) ≤ length l.
Proof. induction l as [|x l IH]; cbn; [lia|]. destruct (p x); cbn; lia. Qed.

Lemma filter_b_sublist {A} (p : A → bool) l : List.filter p l `sublist_of` l.
Proof.
  induction l as [|x l IH]; cbn; [done|]. destruct (p x); by constructor.
Qed.

Lemma NoDup_filter_b {A} (p : A → bool) l : NoDup l → NoDup (List.filter p l).
Proof.
  induction 1 as [|x l Hx Hl IH]; cbn; [constructor|].
  destruct (p x); [|done]. constructor; [|done]. rewrite elem_of_list_filter_b. tauto.
Qed.

#[export] Hint Rewrite @mem_true @mem_false @existsb_elem_of @forallb_elem_of
  @elem_of_list_filter_b : caravan.
