(* ===== verification/Text.v ===== *)
(** Strings as the Rust standard library sees them: UTF-8 byte strings.

    The functions the code calls on [str] ([starts_with], [split_once],
    [join], [parse::<u64>], [eq_ignore_ascii_case], [trim], [len]) on
    [string], one [ascii] per byte, and FNV-1a over bytes as
    src/src/membership.rs computes it. *)

From Stdlib Require Import Ascii String.
From S2P Require Import Prelude.

#[local] Open Scope string_scope.

Definition byte_of (c : ascii) : N := N_of_ascii c.
Definition char_of (n : N) : ascii := ascii_of_N n.

(** [str::starts_with]. *)
Definition starts_with (p s : string) : bool := String.prefix p s.
(** [str::is_empty]. *)
Definition str_is_empty (s : string) : bool := match s with EmptyString => true | _ => false end.

Fixpoint str_drop (n : nat) (s : string) : string :=
  match n, s with
  | S n', String _ s' => str_drop n' s'
  | _, _ => s
  end.

(** [str::strip_prefix]. *)
Definition strip_prefix (p s : string) : option string :=
  if starts_with p s then Some (str_drop (String.length p) s) else None.

(** [str::split_once]: the text before and after the first occurrence. *)
Fixpoint split_once (pat s : string) : option (string * string) :=
  if starts_with pat s then Some (EmptyString, str_drop (String.length pat) s)
  else match s with
       | EmptyString => None
       | String c s' =>
           match split_once pat s' with
           | Some (a, b) => Some (String c a, b)
           | None => None
           end
       end.

(** [str::split(c).next()]: the text before the first [c]. *)
Fixpoint split_first (c : ascii) (s : string) : string :=
  match s with
  | EmptyString => EmptyString
  | String d s' => if Ascii.eqb c d then EmptyString else String d (split_first c s')
  end.

(** [[String]::join]. *)
Fixpoint join (sep : string) (l : list string) : string :=
  match l with
  | [] => EmptyString
  | [x] => x
  | x :: l' => x +:+ sep +:+ join sep l'
  end.

(** The concatenation a [format!] call writes out. *)
Definition fmt (l : list string) : string := foldr String.append EmptyString l.
Definition show_bool (b : bool) : string := if b then "true" else "false".

(** Decimal digits. *)
Definition digit_of (c : ascii) : option N :=
  let n := byte_of c in
  if ((48 <=? n) && (n <=? 57))%N then Some (n - 48)%N else None.

Definition is_ascii_digit (c : ascii) : bool := is_some_b (digit_of c).

Fixpoint parse_digits (acc : N) (s : string) : option N :=
  match s with
  | EmptyString => Some acc
  | String c s' =>
      match digit_of c with
      | Some d =>
          let acc' := (acc * 10 + d)%N in
          if (acc' <=? u64_max)%N then parse_digits acc' s' else None
      | None => None
      end
  end.

(** [str::parse::<u64>]: one optional [+], at least one digit, no overflow. *)
Definition parse_u64 (s : string) : option N :=
  let body := match s with
              | String c s' => if Ascii.eqb c "+" then s' else s
              | EmptyString => s
              end in
  match body with
  | EmptyString => None
  | _ => parse_digits 0 body
  end.

(** [str::eq_ignore_ascii_case]. *)
Definition ascii_lower (c : ascii) : ascii :=
  let n := byte_of c in
  if ((65 <=? n) && (n <=? 90))%N then char_of (n + 32) else c.

Fixpoint to_ascii_lowercase (s : string) : string :=
  match s with
  | EmptyString => EmptyString
  | String c s' => String (ascii_lower c) (to_ascii_lowercase s')
  end.

Definition eq_ignore_ascii_case (a b : string) : bool :=
  String.eqb (to_ascii_lowercase a) (to_ascii_lowercase b).

(** The UTF-8 encodings of the code points with the [White_Space] property. *)
Definition bytes_str (l : list N) : string := string_of_list_ascii (char_of <$> l).

Definition white_space : list string :=
  bytes_str <$>
    (([[9]; [10]; [11]; [12]; [13]; [32]; [194; 133]; [194; 160]; [225; 154; 128]]%N
      ++ ((λ k, [226; 128; k])%N <$>
          [128; 129; 130; 131; 132; 133; 134; 135; 136; 137; 138; 168; 169; 175]%N)
      ++ [[226; 129; 159]; [227; 128; 128]]%N)%list).

Definition strip_ws_prefix (s : string) : option string :=
  foldr (λ w acc, match strip_prefix w s with Some r => Some r | None => acc end) None white_space.

(** [str::trim_start]: each step removes at least one byte, so the length is
    enough fuel. *)
Fixpoint trim_start_fuel (fuel : nat) (s : string) : string :=
  match fuel with
  | O => s
  | S fuel' => match strip_ws_prefix s with Some r => trim_start_fuel fuel' r | None => s end
  end.
Definition trim_start (s : string) : string := trim_start_fuel (String.length s) s.

Fixpoint ends_with_ws (s : string) : bool :=
  mem s white_space || match s with EmptyString => false | String _ s' => ends_with_ws s' end.

(** [s.trim()] and [str::trim_end]: white space is encoded by whole characters,
    so a suffix of white space starts where every rest is white space. *)
Definition all_ws (s : string) : bool := str_is_empty (trim_start s).
Fixpoint trim_end (s : string) : string :=
  if all_ws s then EmptyString
  else match s with
       | EmptyString => EmptyString
       | String c s' => String c (trim_end s')
       end.
Definition trim (s : string) : string := trim_end (trim_start s).

(** [str::strip_suffix], [str::ends_with] and [str::contains]. *)
Fixpoint strip_suffix (suffix s : string) : option string :=
  if String.eqb s suffix then Some EmptyString
  else match s with
       | EmptyString => None
       | String c s' => String c <$> strip_suffix suffix s'
       end.
Definition ends_with (suffix s : string) : bool := is_some_b (strip_suffix suffix s).
Definition contains_str (pat s : string) : bool := is_some_b (split_once pat s).

(** [str::rsplit_once]: the text before and after the last occurrence. *)
Fixpoint rsplit_once (pat s : string) : option (string * string) :=
  let here := if starts_with pat s then Some (EmptyString, str_drop (String.length pat) s) else None in
  match s with
  | EmptyString => here
  | String c s' =>
      match rsplit_once pat s' with
      | Some (a, b) => Some (String c a, b)
      | None => here
      end
  end.

(** [str::split] on the bytes of a class of one-byte characters. *)
Fixpoint split_on (sep : ascii → bool) (s : string) : list string :=
  match s with
  | EmptyString => [EmptyString]
  | String c s' =>
      if sep c then EmptyString :: split_on sep s'
      else match split_on sep s' with
           | [] => [String c EmptyString]
           | w :: ws => String c w :: ws
           end
  end.

(** [str::lines]: pieces ended by a line feed lose it and a carriage return
    before it; a last piece without a line feed is kept as it is. *)
Definition line_feed : ascii := char_of 10.
Definition carriage_return : ascii := char_of 13.
Definition strip_cr (s : string) : string :=
  match strip_suffix (String carriage_return EmptyString) s with Some r => r | None => s end.
Fixpoint lines_of (pieces : list string) : list string :=
  match pieces with
  | [] => []
  | [last] => if str_is_empty last then [] else [last]
  | piece :: rest => strip_cr piece :: lines_of rest
  end.
Definition lines (s : string) : list string := lines_of (split_on (Ascii.eqb line_feed) s).

(** [str::trim_matches] on one character. *)
Fixpoint trim_start_char (c : ascii) (s : string) : string :=
  match s with
  | String d s' => if Ascii.eqb c d then trim_start_char c s' else s
  | EmptyString => EmptyString
  end.
Fixpoint trim_end_char (c : ascii) (s : string) : string :=
  match s with
  | EmptyString => EmptyString
  | String d s' =>
      match trim_end_char c s' with
      | EmptyString => if Ascii.eqb c d then EmptyString else String d EmptyString
      | r => String d r
      end
  end.
Definition trim_matches (c : ascii) (s : string) : string := trim_end_char c (trim_start_char c s).

(** [s.bytes().all(..)] and the byte classes the code asks for. *)
Fixpoint all_bytes (p : ascii → bool) (s : string) : bool :=
  match s with
  | EmptyString => true
  | String c s' => p c && all_bytes p s'
  end.
(** [s.contains([c1, c2, ..])] for ASCII characters. *)
Definition contains_char (cs : list ascii) (s : string) : bool :=
  negb (all_bytes (λ c, negb (mem c cs)) s).
Definition between (lo hi : N) (c : ascii) : bool := ((lo <=? byte_of c) && (byte_of c <=? hi))%N.
Definition is_ascii_hexdigit (c : ascii) : bool :=
  is_ascii_digit c || between 65 70 c || between 97 102 c.
Definition is_ascii_alphanumeric (c : ascii) : bool :=
  is_ascii_digit c || between 65 90 c || between 97 122 c.
Definition is_ascii_whitespace (c : ascii) : bool :=
  mem (byte_of c) [9; 10; 12; 13; 32]%N.

Example lines_example :
  lines (bytes_str [102; 10; 98; 13; 10; 10; 97; 13]%N) = ["f"; "b"; ""; bytes_str [97; 13]%N].
Proof. reflexivity. Qed.

Example trim_example : trim (bytes_str [32; 226; 128; 137; 120; 32; 121; 194; 160; 9]%N) = "x y".
Proof. reflexivity. Qed.

Example rsplit_once_example : rsplit_once "-pr-g" "a-pr-gb-pr-gc" = Some ("a-pr-gb", "c").
Proof. reflexivity. Qed.

(** [s.trim() != s]: some white space opens or closes the text. *)
Definition is_trimmed (s : string) : bool :=
  negb (is_some_b (strip_ws_prefix s)) && negb (ends_with_ws s).

(** [char::is_control] on some character: C0, DEL, or C1 (encoded [C2 80..9F]). *)
Fixpoint has_control (s : string) : bool :=
  match s with
  | EmptyString => false
  | String c s' =>
      let n := byte_of c in
      ((n <? 32) || (n =? 127))%N
      || match s' with
         | String d _ => ((n =? 194) && (128 <=? byte_of d) && (byte_of d <=? 159))%N
         | EmptyString => false
         end
      || has_control s'
  end.

(** [format!("{x:016x}")] on a [u64]. *)
Definition hex_digit (n : N) : ascii := char_of (if (n <? 10)%N then n + 48 else n + 87)%N.
Fixpoint hex_go (width : nat) (n : N) (acc : string) : string :=
  match width with
  | O => acc
  | S w => hex_go w (n / 16)%N (String (hex_digit (n mod 16)%N) acc)
  end.
Definition hex016 (n : N) : string := hex_go 16 n EmptyString.

(** FNV-1a, 64 bit, with the wrapping product written out. *)
Definition fnv1a64_hash (bytes : list N) : N :=
  foldl (λ hash byte, (N.lxor hash byte * 0x100000001b3) mod (u64_max + 1))%N
    0xcbf29ce484222325%N bytes.
Definition fnv1a64 (bytes : list N) : string := "fnv1a64:" +:+ hex016 (fnv1a64_hash bytes).

Example fnv1a64_empty : fnv1a64 [] = "fnv1a64:cbf29ce484222325".
Proof. reflexivity. Qed.

Example split_once_example :
  split_once "/actions/runs/" "https://h/o/r/actions/runs/42/job/7" = Some ("https://h/o/r", "42/job/7").
Proof. reflexivity. Qed.

Example parse_u64_bounds :
  (parse_u64 "18446744073709551615", parse_u64 "18446744073709551616", parse_u64 "+7", parse_u64 "x")
  = (Some 18446744073709551615%N, None, Some 7%N, None).
Proof. reflexivity. Qed.
