(* ===== verification/TextProofs.v ===== *)
(** Lemmas on the string functions of [Text]: prefixes and suffixes, pieces and
    lines, trimming text that ends in a visible byte, and decimal numbers. *)

From Stdlib Require Import Ascii String.
From S2P Require Import Prelude Text.

#[local] Open Scope string_scope.
#[local] Arguments String.append : simpl nomatch.

(** ** Concatenation, prefixes and suffixes *)

Lemma str_app_assoc (a b c : string) : (a +:+ b) +:+ c = a +:+ (b +:+ c).
Proof. induction a as [|x a IH]; cbn; [done|by rewrite IH]. Qed.

Lemma str_app_nil_r (a : string) : a +:+ EmptyString = a.
Proof. induction a as [|x a IH]; cbn; [done|by rewrite IH]. Qed.

Lemma str_length_app (a b : string) : String.length (a +:+ b) = String.length a + String.length b.
Proof. induction a as [| x a IH]; cbn; [done | by rewrite IH]. Qed.

Lemma str_app_inj_r (a b c : string) : a +:+ c = b +:+ c → a = b.
Proof.
  revert b. induction a as [| x a IH]; intros [| y b] H; [done | | | injection H as -> H; f_equal; auto];
    apply (f_equal String.length) in H; rewrite !str_length_app in H; cbn in H; lia.
Qed.

Lemma str_app_last_inj (a b : string) c d :
  a +:+ String c EmptyString = b +:+ String d EmptyString → c = d.
Proof.
  revert b. induction a as [|x a IH]; intros [|y b]; cbn; intros Heq; injection Heq.
  - done.
  - by destruct b.
  - by destruct a.
  - intros Ht _. by eapply IH.
Qed.

Lemma starts_with_app p r : starts_with p (p +:+ r) = true.
Proof.
  unfold starts_with. induction p as [|c p IH]; cbn; [by destruct r|].
  destruct (ascii_dec c c); [exact IH|congruence].
Qed.

Lemma str_drop_app p r : str_drop (String.length p) (p +:+ r) = r.
Proof. induction p; cbn; [by destruct r|done]. Qed.

Lemma strip_prefix_app p r : strip_prefix p (p +:+ r) = Some r.
Proof. unfold strip_prefix. by rewrite starts_with_app, str_drop_app. Qed.

Lemma strip_prefix_spec p s r : strip_prefix p s = Some r ↔ s = p +:+ r.
Proof.
  split; [|intros ->; apply strip_prefix_app].
  unfold strip_prefix, starts_with. revert s. induction p as [|c p IH]; cbn; intros s.
  - destruct s; intros [= <-]; done.
  - destruct s as [|d s]; [done|]. cbn. destruct (ascii_dec c d) as [->|]; [|done].
    intros H. f_equal. apply IH. exact H.
Qed.

Lemma strip_prefix_other p c d s : c ≠ d → strip_prefix (String c p) (String d s) = None.
Proof.
  intros Hne. destruct (strip_prefix (String c p) (String d s)) eqn:E; [|done].
  apply strip_prefix_spec in E. by injection E.
Qed.

Lemma strip_prefix_common p q s : strip_prefix (p +:+ q) (p +:+ s) = strip_prefix q s.
Proof.
  destruct (strip_prefix q s) as [r|] eqn:E.
  - apply strip_prefix_spec in E as ->. rewrite <-str_app_assoc. apply strip_prefix_app.
  - destruct (strip_prefix (p +:+ q) (p +:+ s)) as [r|] eqn:E2; [|done].
    apply strip_prefix_spec in E2. rewrite str_app_assoc in E2.
    assert (s = q +:+ r) as ->; [|by rewrite strip_prefix_app in E].
    clear E. induction p as [|c p IH]; [done|]. by injection E2.
Qed.

Lemma contains_str_prefix p r : contains_str p (p +:+ r) = true.
Proof.
  unfold contains_str. pose proof (starts_with_app p r) as Hs.
  destruct (p +:+ r); cbn [split_once]; by rewrite Hs.
Qed.

Lemma strip_suffix_spec suffix s r : strip_suffix suffix s = Some r → s = r +:+ suffix.
Proof.
  revert r. induction s as [|c s IH]; intros r; cbn [strip_suffix].
  - destruct (String.eqb_spec EmptyString suffix) as [<-|]; [|done]. by intros [= <-].
  - destruct (String.eqb_spec (String c s) suffix) as [<-|]; [by intros [= <-]|].
    destruct (strip_suffix suffix s) as [r'|]; [|done]. cbn. intros [= <-]. cbn. f_equal. by apply IH.
Qed.

(** ** Pieces and lines *)

Lemma split_on_nonempty sep s : split_on sep s ≠ [].
Proof. destruct s as [|c s]; cbn; [done|]. destruct (sep c); [done|]. by destruct (split_on sep s). Qed.

Lemma split_on_app sep a c b :
  all_bytes (λ x, negb (sep x)) a = true → sep c = true →
  split_on sep (a +:+ String c b) = a :: split_on sep b.
Proof.
  intros Ha Hc. induction a as [|x a IH]; cbn; [by rewrite Hc|].
  cbn in Ha. apply andb_true_iff in Ha as [Hx Ha]. apply negb_true_iff in Hx.
  by rewrite Hx, IH.
Qed.

Lemma split_on_none sep a : all_bytes (λ x, negb (sep x)) a = true → split_on sep a = [a].
Proof.
  induction a as [|x a IH]; cbn; [done|]. intros [Hx Ha]%andb_true_iff.
  apply negb_true_iff in Hx. by rewrite Hx, IH.
Qed.

Lemma strip_cr_visible a c : c ≠ carriage_return →
  strip_cr (a +:+ String c EmptyString) = a +:+ String c EmptyString.
Proof.
  intros Hc. unfold strip_cr. destruct (strip_suffix _ _) as [r|] eqn:E; [|done].
  apply strip_suffix_spec, str_app_last_inj in E. done.
Qed.

Definition no_line_feed (a : string) : bool := all_bytes (λ x, negb (Ascii.eqb line_feed x)) a.

(** A line that ends in a visible byte, before more text. *)
Lemma lines_app a c b :
  no_line_feed (a +:+ String c EmptyString) = true → c ≠ carriage_return →
  lines ((a +:+ String c EmptyString) +:+ String line_feed b) =
    (a +:+ String c EmptyString) :: lines b.
Proof.
  intros Ha Hc. unfold lines. rewrite split_on_app; [|done|apply Ascii.eqb_refl].
  pose proof (split_on_nonempty (Ascii.eqb line_feed) b) as Hne.
  destruct (split_on _ b) as [|x l] eqn:E; [done|].
  change (lines_of ((a +:+ String c EmptyString) :: x :: l)) with
    (strip_cr (a +:+ String c EmptyString) :: lines_of (x :: l)).
  by rewrite strip_cr_visible.
Qed.

Lemma lines_empty b : lines (String line_feed b) = EmptyString :: lines b.
Proof.
  unfold lines. cbn [split_on]. rewrite Ascii.eqb_refl.
  pose proof (split_on_nonempty (Ascii.eqb line_feed) b) as Hne.
  by destruct (split_on _ b).
Qed.

Lemma all_bytes_app p a b : all_bytes p (a +:+ b) = all_bytes p a && all_bytes p b.
Proof. induction a as [|c a IH]; cbn; [done|]. by rewrite IH, andb_assoc. Qed.

Lemma all_bytes_impl (p q : ascii → bool) a :
  (∀ c, p c = true → q c = true) → all_bytes p a = true → all_bytes q a = true.
Proof.
  intros Hpq. induction a as [|c a IH]; cbn; [done|]. intros [Hc Ha]%andb_true_iff.
  by rewrite Hpq, IH.
Qed.

(** ** Trimming *)

Definition ws_byte (c : ascii) : bool :=
  mem (byte_of c) ([9; 10; 11; 12; 13; 32; 194; 133; 160; 225; 154; 226; 227; 129; 159; 168; 169; 175;
    128; 130; 131; 132; 134; 135; 136; 137; 138]%N).

Lemma white_space_bytes : forallb (λ w, negb (str_is_empty w) && all_bytes ws_byte w) white_space = true.
Proof. vm_compute. reflexivity. Qed.

Lemma strip_ws_prefix_spec s r : strip_ws_prefix s = Some r → ∃ w, s = w +:+ r ∧ all_bytes ws_byte w = true.
Proof.
  unfold strip_ws_prefix. pose proof white_space_bytes as Hws. revert Hws.
  induction white_space as [|w ws IH]; cbn; [done|]. intros [Hw Hws]%andb_true_iff.
  destruct (strip_prefix w s) as [r'|] eqn:E.
  - intros [= <-]. exists w. apply strip_prefix_spec in E. by apply andb_true_iff in Hw as [_ Hw].
  - by apply IH.
Qed.

Lemma trim_start_fuel_visible fuel c s :
  ws_byte c = false → trim_start_fuel fuel (String c s) = String c s.
Proof.
  intros Hc. destruct fuel as [|fuel]; cbn [trim_start_fuel]; [done|].
  destruct (strip_ws_prefix (String c s)) as [r|] eqn:E; [|done].
  assert (∃ w, String c s = w +:+ r ∧ all_bytes ws_byte w = true ∧ w ≠ EmptyString) as (w & Hw & Hb & Hne).
  { revert E. unfold strip_ws_prefix. pose proof white_space_bytes as Hws. revert Hws.
    induction white_space as [|w ws IH]; cbn; [done|]. intros [Hw Hws]%andb_true_iff.
    apply andb_true_iff in Hw as [Hn Hw].
    destruct (strip_prefix w (String c s)) as [r'|] eqn:E.
    - intros [= <-]. exists w. apply strip_prefix_spec in E. split_and!; try done. by intros ->.
    - by apply IH. }
  destruct w as [|d w]; [done|]. injection Hw as <- _. cbn in Hb. by rewrite Hc in Hb.
Qed.

Lemma trim_start_visible c s : ws_byte c = false → trim_start (String c s) = String c s.
Proof. apply trim_start_fuel_visible. Qed.

Lemma trim_start_fuel_suffix fuel s :
  ∃ w, s = w +:+ trim_start_fuel fuel s ∧ all_bytes ws_byte w = true.
Proof.
  revert s. induction fuel as [|fuel IH]; intros s; cbn [trim_start_fuel];
    [exists EmptyString; split; reflexivity|].
  destruct (strip_ws_prefix s) as [r|] eqn:E; [|exists EmptyString; split; reflexivity].
  apply strip_ws_prefix_spec in E as (w & -> & Hw). destruct (IH r) as (w' & Hr & Hw').
  exists (w +:+ w'). rewrite all_bytes_app, Hw, Hw'. split; [|done].
  by rewrite str_app_assoc, <-Hr.
Qed.

Lemma all_ws_bytes s : all_ws s = true → all_bytes ws_byte s = true.
Proof.
  unfold all_ws, trim_start. destruct (trim_start_fuel_suffix (String.length s) s) as (w & Hs & Hw).
  destruct (trim_start_fuel _ s); [|done]. intros _. rewrite Hs. by rewrite str_app_nil_r.
Qed.

Lemma trim_end_visible a c s :
  ws_byte c = false → trim_end (a +:+ String c s) = a +:+ String c (trim_end s).
Proof.
  intros Hc.
  assert (∀ b, all_ws (b +:+ String c s) = false) as Hno.
  { intros b. destruct (all_ws (b +:+ String c s)) eqn:E; [|done].
    apply all_ws_bytes in E. rewrite all_bytes_app in E. cbn in E. rewrite Hc in E.
    by rewrite andb_false_r in E. }
  induction a as [|x a IH].
  - pose proof (Hno EmptyString) as H0. cbn in *. by rewrite H0.
  - pose proof (Hno (String x a)) as H0. cbn in *. by rewrite H0, IH.
Qed.

(** Text between two visible bytes is already trimmed. *)
Lemma trim_visible c a d :
  ws_byte c = false → ws_byte d = false →
  trim (String c (a +:+ String d EmptyString)) = String c (a +:+ String d EmptyString).
Proof.
  intros Hc Hd. unfold trim. rewrite trim_start_visible by done.
  exact (trim_end_visible (String c a) d EmptyString Hd).
Qed.

(** ** Decimal numbers *)

Lemma digit_of_pretty d : (d < 10)%N → digit_of (pretty_N_char d) = Some d.
Proof.
  intros Hd. assert (∃ k : nat, d = N.of_nat k ∧ k < 10) as (k & -> & Hk) by (exists (N.to_nat d); lia).
  do 10 (destruct k as [|k]; [reflexivity|]). lia.
Qed.

Lemma parse_digits_pretty n s :
  (n ≤ u64_max)%N → parse_digits 0 (pretty_N_go n s) = parse_digits n s.
Proof.
  revert s. induction (N.lt_wf_0 n) as [n _ IH]; intros s Hn.
  destruct (decide (0 < n)%N) as [Hpos|Hz].
  - rewrite pretty_N_go_step by done.
    rewrite IH; [|apply N.div_lt; lia|]; cycle 1.
    { etrans; [apply N.Div0.div_le_upper_bound with (q := n); lia|done]. }
    cbn. rewrite digit_of_pretty by (apply N.mod_lt; lia).
    replace (n `div` 10 * 10 + n `mod` 10)%N with n
      by (rewrite N.mul_comm; apply N.div_mod; lia).
    by destruct (N.leb_spec n u64_max); [|lia].
  - replace n with 0%N by lia. by rewrite pretty_N_go_0.
Qed.

Definition all_digits (s : string) : bool := all_bytes is_ascii_digit s.

Lemma all_digits_pretty_go n s : all_digits (pretty_N_go n s) = all_digits s.
Proof.
  revert s. induction (N.lt_wf_0 n) as [n _ IH]; intros s.
  destruct (decide (0 < n)%N) as [Hpos|Hz].
  - rewrite pretty_N_go_step by done. rewrite IH by (apply N.div_lt; lia).
    cbn. unfold is_ascii_digit. by rewrite digit_of_pretty by (apply N.mod_lt; lia).
  - replace n with 0%N by lia. by rewrite pretty_N_go_0.
Qed.

Lemma all_digits_pretty (n : N) : all_digits (pretty n) = true.
Proof. unfold pretty, pretty_N. case_decide; [done|]. by rewrite all_digits_pretty_go. Qed.

Lemma parse_digits_plus s : all_digits s = true → s ≠ EmptyString → parse_u64 s = parse_digits 0 s.
Proof.
  destruct s as [|c s]; [done|]. cbn. intros [Hc _]%andb_true_iff _. unfold parse_u64.
  destruct (Ascii.eqb_spec c "+"%char) as [->|]; [done|done].
Qed.

(** Parsing what [Display] prints. *)
Lemma parse_u64_pretty (n : N) : (n ≤ u64_max)%N → parse_u64 (pretty n) = Some n.
Proof.
  intros Hn. pose proof (all_digits_pretty n) as Hd.
  rewrite parse_digits_plus; [|done|]; unfold pretty, pretty_N in *; case_decide; subst; try done.
  - by rewrite parse_digits_pretty.
  - intros He. pose proof (parse_digits_pretty n EmptyString Hn) as Hp. rewrite He in Hp.
    cbn in Hp. congruence.
Qed.

Lemma pretty_N_go_nonempty n s : s ≠ EmptyString → pretty_N_go n s ≠ EmptyString.
Proof.
  revert s. induction (N.lt_wf_0 n) as [n _ IH]; intros s Hs.
  destruct (decide (0 < n)%N) as [Hpos|Hz].
  - rewrite pretty_N_go_step by done. by apply IH; [apply N.div_lt; lia|].
  - replace n with 0%N by lia. by rewrite pretty_N_go_0.
Qed.

Lemma pretty_nonempty (n : N) : pretty n ≠ EmptyString.
Proof.
  unfold pretty, pretty_N. case_decide; [done|]. rewrite pretty_N_go_step by lia.
  by apply pretty_N_go_nonempty.
Qed.

Lemma str_snoc s : s ≠ EmptyString → ∃ a d, s = a +:+ String d EmptyString.
Proof.
  induction s as [|c s IH]; [done|]. intros _. destruct s as [|d s].
  - by exists EmptyString, c.
  - destruct IH as (a & e & ->); [done|]. by exists (String c a), e.
Qed.

(** Text that ends in a digit. *)
Lemma pretty_snoc (n : N) : ∃ a d, pretty n = a +:+ String d EmptyString ∧ is_ascii_digit d = true.
Proof.
  destruct (str_snoc _ (pretty_nonempty n)) as (a & d & Hn). exists a, d. split; [done|].
  pose proof (all_digits_pretty n) as Hd. unfold all_digits in Hd.
  rewrite Hn, all_bytes_app in Hd. cbn in Hd. by bool_prop.
Qed.

Lemma digit_visible d : is_ascii_digit d = true → ws_byte d = false ∧ d ≠ carriage_return ∧ d ≠ line_feed.
Proof. destruct d as [[] [] [] [] [] [] [] []]; vm_compute; done. Qed.

(** ** The last occurrence of a byte *)

Lemma starts_with_char a c s : starts_with (String a EmptyString) (String c s) = Ascii.eqb a c.
Proof.
  unfold starts_with. change (String.prefix (String a EmptyString) (String c s))
    with (if ascii_dec a c then String.prefix EmptyString s else false).
  destruct (ascii_dec a c) as [-> | Hne]; [rewrite Ascii.eqb_refl; by destruct s |].
  by apply Ascii.eqb_neq in Hne.
Qed.

Lemma rsplit_char_none x s :
  all_bytes (λ c, negb (Ascii.eqb x c)) s = true → rsplit_once (String x EmptyString) s = None.
Proof.
  induction s as [| c s IH]; [done |]. cbn [all_bytes rsplit_once]. intros [Hc Hs]%andb_true_iff.
  rewrite IH, starts_with_char by done. by destruct (Ascii.eqb x c).
Qed.

Lemma rsplit_char x a b :
  all_bytes (λ c, negb (Ascii.eqb x c)) b = true →
  rsplit_once (String x EmptyString) (a +:+ String x b) = Some (a, b).
Proof.
  intros Hb. induction a as [| c a IH].
  - change (EmptyString +:+ String x b) with (String x b). cbn [rsplit_once].
    rewrite rsplit_char_none, starts_with_char, Ascii.eqb_refl by done. by destruct b.
  - change (String c a +:+ String x b) with (String c (a +:+ String x b)). cbn [rsplit_once]. by rewrite IH.
Qed.

(** The text before the first occurrence of a byte. *)
Lemma first_char x a b c d :
  all_bytes (λ y, negb (Ascii.eqb x y)) a = true → all_bytes (λ y, negb (Ascii.eqb x y)) b = true →
  a +:+ String x c = b +:+ String x d → a = b ∧ c = d.
Proof.
  revert b. induction a as [| y a IH]; intros [| z b]; cbn.
  - by intros _ _ [= ->].
  - intros _ [Hz _]%andb_true_iff [= <- _]. by rewrite Ascii.eqb_refl in Hz.
  - intros [Hy _]%andb_true_iff _ [= -> _]. by rewrite Ascii.eqb_refl in Hy.
  - intros [_ Ha]%andb_true_iff [_ Hb]%andb_true_iff [= -> H]. by destruct (IH b Ha Hb H) as [-> ->].
Qed.
