(* ===== verification/Model.v ===== *)
(** The domain model: src/src/model.rs.

    Identities, provider snapshots of pull requests, caravans, graph problems,
    compatibility evidence and mutation preconditions, as records and
    enumerations with the fields and constructors of the source. A [u64]
    pull-request number is an [N], an object id is its text, a
    [BTreeSet<String>] of labels is a [gset string], a [usize] count is a
    [nat]. Constructors that several Rust enums share carry a prefix. *)

From Stdlib Require Import String.
From S2P Require Import Prelude Text.

#[local] Open Scope string_scope.

Abbreviation PrNumber := N (only parsing).
Abbreviation CommitOid := string (only parsing).
Abbreviation OperationId := string (only parsing).

(** Rendering used by the [format!] calls of the source. *)
Definition show_pr (n : PrNumber) : string := pretty n.
Definition show_nat (n : nat) : string := pretty n.
Definition show_N (n : N) : string := pretty n.

(** ** Identities *)

Record RepositoryId := mkRepositoryId {
  repo_owner : string;
  repo_name : string }.

#[export] Instance RepositoryId_eq_dec : EqDecision RepositoryId.
Proof. solve_decision. Defined.

Definition slug (r : RepositoryId) : string := repo_owner r +:+ "/" +:+ repo_name r.

Record BranchSnapshot := mkBranchSnapshot {
  br_repository : RepositoryId;
  br_name : string;
  br_oid : CommitOid }.

#[export] Instance BranchSnapshot_eq_dec : EqDecision BranchSnapshot.
Proof. solve_decision. Defined.

Inductive PullRequestState := Open | Closed | Merged.
#[export] Instance PullRequestState_eq_dec : EqDecision PullRequestState.
Proof. solve_decision. Defined.

Inductive MergeMethod := Squash.
#[export] Instance MergeMethod_eq_dec : EqDecision MergeMethod.
Proof. solve_decision. Defined.

Record AutoMergeState := mkAutoMergeState {
  am_enabled : bool;
  am_merge_method : option MergeMethod;
  am_actor : option string }.

(** The hand-written [PartialEq]: the actor is observability, not identity. *)
Definition auto_merge_eqb (a b : AutoMergeState) : bool :=
  Bool.eqb (am_enabled a) (am_enabled b)
  && opt_eqb (am_merge_method a) (am_merge_method b).

Definition auto_merge_disabled : AutoMergeState := mkAutoMergeState false None None.
Definition auto_merge_squash : AutoMergeState := mkAutoMergeState true (Some Squash) None.

(** ** Checks *)

Inductive CheckState :=
| CheckExpected | CheckQueued | CheckInProgress | CheckSuccess | CheckFailure
| CheckNeutral | CheckSkipped | CheckCancelled | CheckTimedOut
| CheckActionRequired | CheckUnknown.
#[export] Instance CheckState_eq_dec : EqDecision CheckState.
Proof. solve_decision. Defined.

Record CheckSnapshot := mkCheckSnapshot {
  ck_name : string;
  ck_state : CheckState;
  ck_provider_state : option string;
  ck_details_url : option string;
  ck_provider_kind : option string;
  ck_workflow_name : option string;
  ck_app_id : option N;
  ck_check_suite_id : option N;
  ck_head_oid : option CommitOid;
  ck_started_at : option string;
  ck_completed_at : option string;
  ck_superseded : bool }.

Definition check_default : CheckSnapshot :=
  mkCheckSnapshot EmptyString CheckUnknown None None None None None None None None None false.

(** ** Pull requests *)

Record PullRequestSnapshot := mkPullRequestSnapshot {
  pr_number : PrNumber;
  pr_title : string;
  pr_url : string;
  pr_state : PullRequestState;
  pr_draft : bool;
  pr_head : BranchSnapshot;
  pr_base : BranchSnapshot;
  pr_cross_repository : bool;
  pr_labels : gset string;
  pr_auto_merge : AutoMergeState;
  pr_checks : list CheckSnapshot;
  pr_created_at : option string;
  pr_merged_at : option string;
  pr_updated_at : option string;
  pr_merge_state_status : option string }.

Definition has_label (pr : PullRequestSnapshot) (label : string) : bool :=
  bool_decide (label ∈ pr_labels pr).

Definition state_is (pr : PullRequestSnapshot) (s : PullRequestState) : bool :=
  bool_decide (pr_state pr = s).

Definition is_active_caravan_member (pr : PullRequestSnapshot) : bool :=
  state_is pr Open && has_label pr "caravan" && negb (has_label pr "caravan-evicted").

Definition is_closed_unmerged (pr : PullRequestSnapshot) : bool :=
  state_is pr Closed && is_none_b (pr_merged_at pr).

Definition is_merged (pr : PullRequestSnapshot) : bool :=
  state_is pr Merged || is_some_b (pr_merged_at pr).

(** Exact Cacophony generation metadata of one open pull request. *)
Record CacophonyGenerationProvenance := mkProvenance {
  gp_generation : string;
  gp_agent : string;
  gp_source_head : CommitOid;
  gp_bead_ids : gset string;
  gp_stack_base : string;
  gp_stack_state : string }.

Record PullRequestGenerationFact := mkGenerationFact {
  gf_pr : PrNumber;
  gf_provider_head : CommitOid;
  gf_created_at : option string;
  gf_provenance : option CacophonyGenerationProvenance;
  gf_metadata_error : option string;
  gf_supersedes : gset PrNumber }.

(** ** Provider lineage carried by a repository snapshot *)

Inductive MovementOwnership := CaraOwned | External | UnknownOwnership.

Record DefaultBranchMovement := mkDefaultBranchMovement {
  dm_oid : CommitOid;
  dm_timestamp : string;
  dm_actor : option string;
  dm_source_pr : option PrNumber;
  dm_ownership : MovementOwnership }.

Inductive MergeCandidateFreshness :=
| Fresh | StaleHead | StaleBase | MissingCandidate | UnknownFreshness.

Record SyntheticMergeCandidate := mkSyntheticMergeCandidate {
  sm_git_ref : string;
  sm_oid : CommitOid;
  sm_tree_oid : CommitOid;
  sm_parents : list CommitOid }.

Record NativeAutoMergeState := mkNativeAutoMergeState {
  na_enabled : bool;
  na_merge_method : option MergeMethod;
  na_actor : option string }.

Record MergeCandidateIdentity := mkMergeCandidateIdentity {
  mc_pr : PrNumber;
  mc_provider_updated_at : string;
  mc_observed_at : string;
  mc_base : BranchSnapshot;
  mc_head : BranchSnapshot;
  mc_synthetic : option SyntheticMergeCandidate;
  mc_auto_merge : NativeAutoMergeState;
  mc_freshness : MergeCandidateFreshness;
  mc_compared_base : option BranchSnapshot;
  mc_stale_base : bool;
  mc_stale_head : bool;
  mc_stale_reasons : list string }.

Record RepositorySnapshot := mkRepositorySnapshot {
  rs_repository : RepositoryId;
  rs_default_branch : BranchSnapshot;
  rs_merge_candidates : list MergeCandidateIdentity;
  rs_merge_candidates_truncated : nat;
  rs_previous_default_oid : option CommitOid;
  rs_default_branch_movements : list DefaultBranchMovement;
  rs_current_branch : option string;
  rs_current_pr : option PrNumber;
  rs_pull_requests : list PullRequestSnapshot;
  rs_generation_facts : list PullRequestGenerationFact;
  rs_observed_at : option string }.

(** ** Caravans *)

Record Caravan := mkCaravan {
  cv_id : PrNumber;
  cv_members : list PrNumber;
  cv_parked : bool }.

#[export] Instance Caravan_eq_dec : EqDecision Caravan.
Proof. solve_decision. Defined.

Definition caravan_new (members : list PrNumber) : option Caravan :=
  match members with
  | [] => None
  | id :: _ => Some (mkCaravan id members false)
  end.

Definition caravan_head (c : Caravan) : option PrNumber := head (cv_members c).
Definition caravan_tail (c : Caravan) : option PrNumber := last (cv_members c).
Definition caravan_position (c : Caravan) (n : PrNumber) : option nat :=
  position (N.eqb n) (cv_members c).

Inductive HeadMergeActor := ActorCaravan | ActorGithub.
Definition actor_default : HeadMergeActor := ActorGithub.
Definition actor_code (a : HeadMergeActor) : string :=
  match a with ActorCaravan => "caravan" | ActorGithub => "github" end.
Definition actor_github (a : HeadMergeActor) : bool :=
  match a with ActorGithub => true | ActorCaravan => false end.
Definition actor_caravan (a : HeadMergeActor) : bool :=
  match a with ActorCaravan => true | ActorGithub => false end.

(** ** Graph problems *)

Inductive GraphProblemKind :=
| MissingHead | MultipleHeads | Branching | Cycle | DanglingBase
| ActiveAndEvicted | DuplicateMember | ForkOnlyPredecessor | AutoMergeInvariant
| Incompatible | CandidateIncompatible | ReusedBranchProvenance
| SupersededGenerationKind | DissolvedMember | AmbiguousGenerationKind
| InvalidGenerationMetadataKind | UnknownKind.
#[export] Instance GraphProblemKind_eq_dec : EqDecision GraphProblemKind.
Proof. solve_decision. Defined.

Definition blocks_fleet (k : GraphProblemKind) : bool :=
  match k with
  | MissingHead | MultipleHeads | Branching | Cycle | DanglingBase
  | ActiveAndEvicted | DuplicateMember | ForkOnlyPredecessor | AutoMergeInvariant
  | Incompatible | ReusedBranchProvenance | SupersededGenerationKind
  | AmbiguousGenerationKind | InvalidGenerationMetadataKind | UnknownKind => true
  | CandidateIncompatible | DissolvedMember => false
  end.

Definition is_historical (k : GraphProblemKind) : bool :=
  match k with
  | DissolvedMember => true
  | MissingHead | MultipleHeads | Branching | Cycle | DanglingBase
  | ActiveAndEvicted | DuplicateMember | ForkOnlyPredecessor | AutoMergeInvariant
  | Incompatible | CandidateIncompatible | ReusedBranchProvenance
  | SupersededGenerationKind | AmbiguousGenerationKind
  | InvalidGenerationMetadataKind | UnknownKind => false
  end.

Definition is_candidate_scoped (k : GraphProblemKind) : bool :=
  negb (blocks_fleet k) && negb (is_historical k).

Record GraphProblem := mkGraphProblem {
  gp_kind : GraphProblemKind;
  gp_prs : list PrNumber;
  gp_message : string }.
#[export] Instance GraphProblem_eq_dec : EqDecision GraphProblem.
Proof. solve_decision. Defined.

Record CaravanHistory := mkCaravanHistory {
  ch_merged_members_observed : nat;
  ch_earliest_merged_at : option string;
  ch_latest_merged_at : option string;
  ch_unlabelled_merged_rows : nat }.

Definition has_formed_before (h : CaravanHistory) : bool :=
  (0 <? ch_merged_members_observed h)%nat.
Definition evidence_may_be_stripped (h : CaravanHistory) : bool :=
  (ch_merged_members_observed h =? 0)%nat && (0 <? ch_unlabelled_merged_rows h)%nat.

Record CaravanFleet := mkCaravanFleet {
  fl_repository : RepositoryId;
  fl_default_branch : BranchSnapshot;
  fl_caravans : list Caravan;
  fl_unqueued : list PrNumber;
  fl_problems : list GraphProblem;
  fl_history : CaravanHistory }.

Definition fleet_caravan (f : CaravanFleet) (id : PrNumber) : option Caravan :=
  List.find (λ c, N.eqb (cv_id c) id) (fl_caravans f).
Definition containing (f : CaravanFleet) (n : PrNumber) : option Caravan :=
  List.find (λ c, mem n (cv_members c)) (fl_caravans f).

(** ** Compatibility evidence *)

Inductive CompatibilityOutcome := Clean | Conflict | UnknownOutcome.
#[export] Instance CompatibilityOutcome_eq_dec : EqDecision CompatibilityOutcome.
Proof. solve_decision. Defined.

Record CompatibilityReport := mkCompatibilityReport {
  cr_candidate : BranchSnapshot;
  cr_target : BranchSnapshot;
  cr_outcome : CompatibilityOutcome;
  cr_conflicting_paths : list string;
  cr_diagnostic : option string }.

Record CumulativeTreeProof := mkCumulativeTreeProof {
  ct_candidate : BranchSnapshot;
  ct_target : BranchSnapshot;
  ct_candidate_tree : CommitOid;
  ct_merge_result_tree : CommitOid;
  ct_identical : bool;
  ct_target_reachable_from_candidate : bool }.

(** ** Mutation preconditions *)

Record PullRequestPrecondition := mkPullRequestPrecondition {
  pc_number : PrNumber;
  pc_state : PullRequestState;
  pc_merged_at : option string;
  pc_head_oid : CommitOid;
  pc_base_ref : string;
  pc_base_oid : CommitOid;
  pc_labels : gset string;
  pc_checks : list CheckSnapshot;
  pc_auto_merge : AutoMergeState }.

Definition mutation_identity_eq (a b : PullRequestPrecondition) : bool :=
  N.eqb (pc_number a) (pc_number b)
  && bool_decide (pc_state a = pc_state b)
  && opt_eqb (pc_merged_at a) (pc_merged_at b)
  && String.eqb (pc_head_oid a) (pc_head_oid b)
  && String.eqb (pc_base_ref a) (pc_base_ref b)
  && String.eqb (pc_base_oid a) (pc_base_oid b)
  && bool_decide (pc_labels a = pc_labels b)
  && auto_merge_eqb (pc_auto_merge a) (pc_auto_merge b).

Definition precondition_of (pr : PullRequestSnapshot) : PullRequestPrecondition :=
  mkPullRequestPrecondition (pr_number pr) (pr_state pr) (pr_merged_at pr)
    (br_oid (pr_head pr)) (br_name (pr_base pr)) (br_oid (pr_base pr))
    (pr_labels pr) (pr_checks pr) (pr_auto_merge pr).

(** ** Lemmas *)

Lemma state_is_true pr s : state_is pr s = true ↔ pr_state pr = s.
Proof. unfold state_is. by rewrite bool_decide_eq_true. Qed.

Lemma has_label_true pr l : has_label pr l = true ↔ l ∈ pr_labels pr.
Proof. unfold has_label. by rewrite bool_decide_eq_true. Qed.

Lemma is_active_caravan_member_true pr :
  is_active_caravan_member pr = true ↔
  pr_state pr = Open ∧ "caravan" ∈ pr_labels pr ∧ "caravan-evicted" ∉ pr_labels pr.
Proof.
  unfold is_active_caravan_member. rewrite !andb_true_iff, negb_true_iff.
  unfold state_is, has_label. rewrite !bool_decide_eq_true, bool_decide_eq_false. tauto.
Qed.

Lemma caravan_new_Some ms c :
  caravan_new ms = Some c → cv_members c = ms ∧ head ms = Some (cv_id c) ∧ cv_parked c = false.
Proof. destruct ms; cbn; [done|]. by intros [= <-]. Qed.

Lemma fleet_containing_Some f n c :
  containing f n = Some c → c ∈ fl_caravans f ∧ n ∈ cv_members c.
Proof. intros [Hin Hm]%find_some_iff. split; [done|]. by apply mem_true. Qed.

Lemma fleet_containing_None f n :
  containing f n = None ↔ ∀ c, c ∈ fl_caravans f → n ∉ cv_members c.
Proof.
  split.
  - intros H c Hc. apply mem_false. exact (find_none_iff _ _ H c Hc).
  - intros H. destruct (containing f n) as [c|] eqn:E; [|done].
    apply fleet_containing_Some in E as [Hc Hn]. by destruct (H c Hc).
Qed.

#[export] Hint Rewrite state_is_true has_label_true : caravan.
