(* ===== verification/Json.v ===== *)
(** JSON values as [serde_json] holds them, and UTF-8 as the standard library
    checks it. An object lists its fields in ascending order of their keys. *)

From Stdlib Require Import Ascii String.
From S2P Require Import Prelude Text TextProofs.

#[local] Open Scope string_scope.
#[local] Open Scope list_scope.
#[local] Open Scope nat_scope.

Inductive JsonNumber := PosInt (n : N) | NegInt (z : Z) | Float (bits : N).
#[export] Instance JsonNumber_eq_dec : EqDecision JsonNumber.
Proof. solve_decision. Defined.

Inductive Value :=
| VNull
| VBool (b : bool)
| VNumber (n : JsonNumber)
| VString (s : string)
| VArray (items : list Value)
| VObject (fields : list (string * Value)).

(** Induction with a hypothesis for every item and every field. *)
Section induction.
Context (P : Value → Prop).
Context (Pnull : P VNull) (Pbool : ∀ b, P (VBool b)) (Pnumber : ∀ n, P (VNumber n)) (Pstring : ∀ s, P (VString s)).
Context (Parray : ∀ items, Forall P items → P (VArray items)).
Context (Pobject : ∀ fields, Forall (λ f, P f.2) fields → P (VObject fields)).
Fixpoint Value_ind' (v : Value) : P v :=
  match v with
  | VNull => Pnull
  | VBool b => Pbool b
  | VNumber n => Pnumber n
  | VString s => Pstring s
  | VArray items =>
      Parray items ((fix go l : Forall P l :=
        match l with [] => Forall_nil_2 _ | x :: l => Forall_cons_2 _ _ _ (Value_ind' x) (go l) end) items)
  | VObject fields =>
      Pobject fields ((fix go l : Forall (λ f, P f.2) l :=
        match l with [] => Forall_nil_2 _ | f :: l => Forall_cons_2 _ _ _ (Value_ind' f.2) (go l) end) fields)
  end.
End induction.

#[export] Instance Value_eq_dec : EqDecision Value.
Proof.
  refine (fix go (v w : Value) {struct v} : {v = w} + {v ≠ w} := _).
  destruct v as [| a | a | a | a | a], w as [| b | b | b | b | b]; first [by left | by right | idtac].
  - destruct (decide (a = b)) as [-> | H]; [by left | right; congruence].
  - destruct (decide (a = b)) as [-> | H]; [by left | right; congruence].
  - destruct (decide (a = b)) as [-> | H]; [by left | right; congruence].
  - destruct (@list_eq_dec _ go a b) as [-> | H]; [by left | right; congruence].
  - destruct (@list_eq_dec _ (@prod_eq_dec _ _ _ go) a b) as [-> | H]; [by left | right; congruence].
Defined.

(** [Value::as_str], [Value::as_bool], [Value::is_object], [Value::get] on a
    key and [Map::get]. *)
Definition as_str (v : Value) : option string := match v with VString s => Some s | _ => None end.
Definition as_bool (v : Value) : option bool := match v with VBool b => Some b | _ => None end.
Definition is_object (v : Value) : bool := match v with VObject _ => true | _ => false end.
Definition map_get (key : string) (fields : list (string * Value)) : option Value :=
  snd <$> List.find (λ f, String.eqb (fst f) key) fields.
Definition get (key : string) (v : Value) : option Value :=
  match v with VObject fields => map_get key fields | _ => None end.

(** ** UTF-8 *)

Definition byte_in (lo hi b : N) : bool := (lo <=? b)%N && (b <=? hi)%N.
Definition continuation (b : N) : bool := byte_in 128 191 b.

(** [str::from_utf8]: no surrogates, no overlong forms, nothing above U+10FFFF. *)
Fixpoint utf8_valid (l : list N) : bool :=
  match l with
  | [] => true
  | b :: l =>
      if (b <? 128)%N then utf8_valid l
      else match l with
      | [] => false
      | c1 :: l =>
          if byte_in 194 223 b then continuation c1 && utf8_valid l
          else match l with
          | [] => false
          | c2 :: l =>
              if byte_in 224 239 b then
                byte_in (if (b =? 224)%N then 160 else 128) (if (b =? 237)%N then 159 else 191) c1
                && continuation c2 && utf8_valid l
              else match l with
              | [] => false
              | c3 :: l =>
                  byte_in 240 244 b
                  && byte_in (if (b =? 240)%N then 144 else 128) (if (b =? 244)%N then 143 else 191) c1
                  && continuation c2 && continuation c3 && utf8_valid l
              end
          end
      end
  end.

Example utf8_examples :
  utf8_valid [104; 195; 169; 226; 130; 172; 240; 159; 152; 128]%N = true
  ∧ utf8_valid [195]%N = false ∧ utf8_valid [192; 128]%N = false ∧ utf8_valid [237; 160; 128]%N = false.
Proof. by vm_compute. Qed.


(** The bytes of a [String]. *)
Definition str_bytes (s : string) : list N := byte_of <$> list_ascii_of_string s.

Lemma bytes_str_bytes s : bytes_str (str_bytes s) = s.
Proof.
  unfold bytes_str, str_bytes. rewrite <- list_fmap_compose.
  rewrite (list_fmap_ext _ id) by (intros ? c _; apply ascii_N_embedding).
  rewrite list_fmap_id. apply string_of_list_ascii_of_string.
Qed.

Lemma utf8_app a b : utf8_valid a = true → utf8_valid (a ++ b) = utf8_valid b.
Proof.
  remember (length a) as n eqn:Hn. revert a Hn.
  induction n as [n IH] using lt_wf_ind. intros a ->. destruct a as [| x a]; [done |]. cbn.
  destruct (x <? 128)%N; [apply (IH (length a)); [cbn; lia | done] |].
  destruct a as [| c1 a]; [done |]. cbn. destruct (byte_in 194 223 x).
  { intros [-> H]%andb_true_iff. by apply (IH (length a)); [cbn; lia | |]. }
  destruct a as [| c2 a]; [done |]. cbn. destruct (byte_in 224 239 x).
  { intros [[-> ->]%andb_true_iff H]%andb_true_iff. by apply (IH (length a)); [cbn; lia | |]. }
  destruct a as [| c3 a]; [done |]. cbn.
  intros [[[[-> ->]%andb_true_iff ->]%andb_true_iff ->]%andb_true_iff H]%andb_true_iff.
  by apply (IH (length a)); [cbn; lia | |].
Qed.
