(* ===== verification/Events.v ===== *)
(** Events and hook deliveries: the records of src/src/model.rs and
    src/src/hooks.rs that the journal stores. *)

From Stdlib Require Import Ascii String.
From S2P Require Import Prelude Text Model Json.

#[local] Open Scope string_scope.
#[local] Open Scope list_scope.
#[local] Open Scope nat_scope.

Abbreviation EventId := string (only parsing).

Inductive EventKind :=
  CaravanCreated | PrJoined | ReadyPrUnqueued | ConflictDetected | SyncCompleted | SyncFailed
| JoinFailed | AdmissionSkipped | EvictionFailed | HeadAdvanced | Evicted | SplitEvent
| CaravansConcatenated | CaravanParked | CaravanUnparked | CiFailedEvent | ForceMergeAttempted
| ForceMergeCompleted | RootAutoMergeArmed | RootPromoted | RootMerged | RequiredRunsMissing
| RequiredRunsRetriggered.
#[export] Instance EventKind_eq_dec : EqDecision EventKind.
Proof. solve_decision. Defined.

(** The snake-case names [serde] gives the kinds. *)
Definition kind_names : list (string * EventKind) :=
  [("caravan_created", CaravanCreated); ("pr_joined", PrJoined); ("ready_pr_unqueued", ReadyPrUnqueued);
   ("conflict_detected", ConflictDetected); ("sync_completed", SyncCompleted); ("sync_failed", SyncFailed);
   ("join_failed", JoinFailed); ("admission_skipped", AdmissionSkipped); ("eviction_failed", EvictionFailed);
   ("head_advanced", HeadAdvanced); ("evicted", Evicted); ("split", SplitEvent);
   ("caravans_concatenated", CaravansConcatenated); ("caravan_parked", CaravanParked);
   ("caravan_unparked", CaravanUnparked); ("ci_failed", CiFailedEvent);
   ("force_merge_attempted", ForceMergeAttempted); ("force_merge_completed", ForceMergeCompleted);
   ("root_auto_merge_armed", RootAutoMergeArmed); ("root_promoted", RootPromoted); ("root_merged", RootMerged);
   ("required_runs_missing", RequiredRunsMissing); ("required_runs_retriggered", RequiredRunsRetriggered)].

Record CaravanEvent := mkEvent {
  cv_version : N;
  cv_event_id : EventId;
  cv_operation_id : OperationId;
  cv_kind : EventKind;
  cv_repository : RepositoryId;
  cv_caravan_id : option PrNumber;
  cv_prs : list PrNumber;
  cv_fleet : option CaravanFleet;
  cv_reason : option string;
  cv_metadata : gmap string Value;
  cv_timestamp : string }.

#[export] Instance CaravanHistory_eq_dec : EqDecision CaravanHistory.
Proof. solve_decision. Defined.
#[export] Instance CaravanFleet_eq_dec : EqDecision CaravanFleet.
Proof. solve_decision. Defined.
#[export] Instance CaravanEvent_eq_dec : EqDecision CaravanEvent.
Proof. solve_decision. Defined.

Inductive HookDeliveryState := DeliverySucceeded | DeliveryFailed | DeliveryTimedOut.
#[export] Instance HookDeliveryState_eq_dec : EqDecision HookDeliveryState.
Proof. solve_decision. Defined.

Record HookDelivery := mkHookDelivery {
  hd_event_id : EventId;
  hd_kind : EventKind;
  hd_state : HookDeliveryState;
  hd_blocking : bool;
  hd_exit_code : option Z;
  hd_stdout_bytes : N;
  hd_stderr_bytes : N }.
#[export] Instance HookDelivery_eq_dec : EqDecision HookDelivery.
Proof. solve_decision. Defined.
