(* ===== verification/Squash.v ===== *)
(** Squash-equivalence receipts: the data of src/src/squash_equivalence.rs and
    the readings of a report that decide whether a replay is authorized. The
    analysis that fills a report runs Git and is not modelled; the graph
    analysis receives reports from its checker. *)

From Stdlib Require Import String.
From S2P Require Import Prelude Text Model.

#[local] Open Scope string_scope.
#[local] Open Scope list_scope.

Inductive SquashEquivalenceOutcome :=
| NoEquivalence | Reconcilable | ResidualConflict | Indeterminate.

Definition outcome_name (o : SquashEquivalenceOutcome) : string :=
  match o with
  | NoEquivalence => "no_equivalence"
  | Reconcilable => "reconcilable"
  | ResidualConflict => "residual_conflict"
  | Indeterminate => "indeterminate"
  end.

Definition authorizes_reconciliation (o : SquashEquivalenceOutcome) : bool :=
  match o with Reconcilable => true | _ => false end.

Inductive ReconciliationAction := Dropped | Retained.
#[export] Instance ReconciliationAction_eq_dec : EqDecision ReconciliationAction.
Proof. solve_decision. Defined.

Definition action_name (a : ReconciliationAction) : string :=
  match a with Dropped => "dropped" | Retained => "retained" end.

Record RepresentedPath := mkRepresentedPath {
  rpth_path : string;
  rpth_mode : string;
  rpth_blob : string;
  rpth_deleted : bool }.

Record AnalyzedCommit := mkAnalyzedCommit {
  ac_oid : CommitOid;
  ac_tree_oid : CommitOid;
  ac_action : ReconciliationAction;
  ac_paths : list string }.

Record MergeEvidence := mkMergeEvidence {
  me_merge_base : CommitOid;
  me_outcome : CompatibilityOutcome;
  me_result_tree : CommitOid;
  me_conflicting_paths : list string }.

Record SquashEquivalenceReport := mkSquashEquivalenceReport {
  sq_schema_version : N;
  sq_candidate : BranchSnapshot;
  sq_target : BranchSnapshot;
  sq_candidate_oid : CommitOid;
  sq_target_oid : CommitOid;
  sq_merge_base : option CommitOid;
  sq_outcome : SquashEquivalenceOutcome;
  sq_before : option MergeEvidence;
  sq_after : option MergeEvidence;
  sq_proven_boundary : option CommitOid;
  sq_boundary_tree : option CommitOid;
  sq_target_tree : option CommitOid;
  sq_commits : list AnalyzedCommit;
  sq_represented_paths : list RepresentedPath;
  sq_represented_paths_truncated : bool;
  sq_candidate_commit_count : nat;
  sq_analyzed_prefix_complete : bool;
  sq_evaluated_boundaries : nat;
  sq_evaluation_bounded : bool;
  sq_reason : string;
  sq_policy : string }.

Definition authorized_range_base (self : SquashEquivalenceReport) : option CommitOid :=
  if authorizes_reconciliation (sq_outcome self) then sq_proven_boundary self else None.

Definition reconciliation_required (self : SquashEquivalenceReport) : bool :=
  is_some_and (sq_before self) (λ evidence, negb (bool_decide (me_outcome evidence = Clean))).

Definition dropped_commits (self : SquashEquivalenceReport) : list CommitOid :=
  ac_oid <$> List.filter (λ commit, bool_decide (ac_action commit = Dropped)) (sq_commits self).
Definition retained_commits (self : SquashEquivalenceReport) : list CommitOid :=
  ac_oid <$> List.filter (λ commit, bool_decide (ac_action commit = Retained)) (sq_commits self).
Definition affected_paths (self : SquashEquivalenceReport) : list string :=
  rpth_path <$> sq_represented_paths self.

(** A report drops or retains every analyzed commit, never both ways. *)
Lemma commits_dropped_or_retained self :
  dropped_commits self ++ retained_commits self ≡ₚ ac_oid <$> sq_commits self.
Proof.
  unfold dropped_commits, retained_commits. rewrite <-fmap_app.
  rewrite (filter_ext_elem_of (λ commit, bool_decide (ac_action commit = Retained))
             (λ commit, negb (bool_decide (ac_action commit = Dropped)))).
  - by rewrite filter_split_Permutation.
  - intros c _. by destruct (ac_action c).
Qed.
