(* ===== verification/Lineage.v ===== *)
(** Check lineage: the rollup reduction of src/src/model.rs.

    A rollup lists every run of every check on a head. This file models the
    identities that group runs ([identity], [workflow_generation]), the newest
    observation of each group, and the reduction of a rollup to its current
    rows ([latest_checks_per_identity], [mark_superseded_checks]). The
    theorems say that a row is retired exactly on positive evidence, that the
    diagnostic flag is never an input, and where a verdict is guaranteed to
    survive; [rerun_silences_failure] is a lineage where none does. *)

From Stdlib Require Import Ascii String.
From S2P Require Import Prelude Text Model.

#[local] Open Scope string_scope.
#[local] Open Scope list_scope.
#[local] Open Scope nat_scope.

(** ** Identities *)

Record CheckIdentity := mkCheckIdentity {
  ci_name : string;
  ci_provider_kind : option string;
  ci_workflow_name : option string;
  ci_app_id : option N;
  ci_head_oid : option CommitOid }.

#[export] Instance CheckIdentity_eq_dec : EqDecision CheckIdentity.
Proof. solve_decision. Defined.
#[export] Instance CheckIdentity_countable : Countable CheckIdentity.
Proof.
  refine (inj_countable'
    (λ i, (ci_name i, ci_provider_kind i, ci_workflow_name i, ci_app_id i, ci_head_oid i))
    (λ '(a, b, c, d, e), mkCheckIdentity a b c d e) _); by intros [].
Defined.

Record WorkflowIdentity := mkWorkflowIdentity {
  wi_provider_kind : option string;
  wi_workflow_name : string;
  wi_app_id : option N;
  wi_head_oid : option CommitOid }.

#[export] Instance WorkflowIdentity_eq_dec : EqDecision WorkflowIdentity.
Proof. solve_decision. Defined.
#[export] Instance WorkflowIdentity_countable : Countable WorkflowIdentity.
Proof.
  refine (inj_countable'
    (λ i, (wi_provider_kind i, wi_workflow_name i, wi_app_id i, wi_head_oid i))
    (λ '(a, b, c, d), mkWorkflowIdentity a b c d) _); by intros [].
Defined.

Definition identity (check : CheckSnapshot) : CheckIdentity :=
  mkCheckIdentity (ck_name check) (ck_provider_kind check) (ck_workflow_name check)
    (ck_app_id check) (ck_head_oid check).

Definition valid_stamp (stamp : string) : bool :=
  negb (str_is_empty stamp) && negb (starts_with "0001-01-01T" stamp).

Definition observed_at (check : CheckSnapshot) : option string :=
  let started := opt_filter valid_stamp (ck_started_at check) in
  let completed := opt_filter valid_stamp (ck_completed_at check) in
  match started, completed with
  | Some l, Some r => Some (if ord_lt l r then r else l)
  | Some stamp, None | None, Some stamp => Some stamp
  | None, None => None
  end.

Definition workflow_generation (check : CheckSnapshot) : option (WorkflowIdentity * N) :=
  match ck_workflow_name check, ck_details_url check with
  | Some workflow_name, Some url =>
      match split_once "/actions/runs/" url with
      | Some (_, suffix) =>
          match parse_u64 (split_first "/" suffix) with
          | Some run_id =>
              Some (mkWorkflowIdentity (ck_provider_kind check) workflow_name
                      (ck_app_id check) (ck_head_oid check), run_id)
          | None => None
          end
      | None => None
      end
  | _, _ => None
  end.

(** ** The newest observation of each group *)

(** [map.entry(k).and_modify(f).or_insert(v)]. *)
Definition entry_modify_or_insert {K V} `{Countable K} (f : V → V) (v : V) (k : K)
    (m : gmap K V) : gmap K V :=
  partial_alter (λ o, Some (match o with Some best => f best | None => v end)) k m.

Definition newest_observation_per_identity (checks : list CheckSnapshot)
    : gmap CheckIdentity string :=
  foldl (λ newest check,
    match observed_at check with
    | None => newest
    | Some observed =>
        entry_modify_or_insert (λ best, if ord_lt best observed then observed else best)
          observed (identity check) newest
    end) ∅ checks.

Definition newest_workflow_generation (checks : list CheckSnapshot)
    : gmap WorkflowIdentity N :=
  foldl (λ newest check,
    match workflow_generation check with
    | None => newest
    | Some (identity, run_id) =>
        entry_modify_or_insert (λ best, N.max best run_id) run_id identity newest
    end) ∅ checks.

Definition newer_same_check (check : CheckSnapshot) (newest : gmap CheckIdentity string) : bool :=
  match newest !! identity check, observed_at check with
  | Some best, Some observed => ord_lt observed best
  | _, _ => false
  end.

Definition newer_workflow_generation (check : CheckSnapshot)
    (newest_workflow : gmap WorkflowIdentity N) : bool :=
  match workflow_generation check with
  | Some (identity, run_id) =>
      match newest_workflow !! identity with
      | Some newest_run_id => (run_id <? newest_run_id)%N
      | None => false
      end
  | None => false
  end.

Definition is_superseded (check : CheckSnapshot) (newest : gmap CheckIdentity string)
    (newest_workflow : gmap WorkflowIdentity N) : bool :=
  newer_same_check check newest || newer_workflow_generation check newest_workflow.

(** ** The reduction *)

Definition latest_checks_per_identity (checks : list CheckSnapshot)
    : list CheckSnapshot * list CheckSnapshot :=
  let newest := newest_observation_per_identity checks in
  let newest_workflow := newest_workflow_generation checks in
  foldl (λ '(current, superseded) check,
    if is_superseded check newest newest_workflow
    then (current, superseded ++ [check])
    else (current ++ [check], superseded)) ([], []) checks.

Definition set_superseded (check : CheckSnapshot) (flag : bool) : CheckSnapshot :=
  mkCheckSnapshot (ck_name check) (ck_state check) (ck_provider_state check)
    (ck_details_url check) (ck_provider_kind check) (ck_workflow_name check)
    (ck_app_id check) (ck_check_suite_id check) (ck_head_oid check)
    (ck_started_at check) (ck_completed_at check) flag.

Definition mark_superseded_checks (checks : list CheckSnapshot) : list CheckSnapshot :=
  let newest := newest_observation_per_identity checks in
  let newest_workflow := newest_workflow_generation checks in
  let flags := (λ check, is_superseded check newest newest_workflow) <$> checks in
  zip_with set_superseded checks flags.

(** ** The newest maps hold the maximum of each group *)

Section newest.
Context {A K V : Type} `{Countable K} `{RustOrd V, !RustOrdLaws V}.
Context (obs : A → option (K * V)) (maxf : V → V → V).
Context (maxf_spec : ∀ a b, maxf a b = if ord_lt a b then b else a).

Definition newest_by (l : list A) (m : gmap K V) : gmap K V :=
  foldl (λ m x, match obs x with
                | None => m
                | Some (k, v) => entry_modify_or_insert (λ best, maxf best v) v k m
                end) m l.

(** [o] bounds every observation of group [k] and is one of them. *)
Definition is_newest (l : list A) (k : K) (o : option V) : Prop :=
  match o with
  | Some b => (∃ x, x ∈ l ∧ obs x = Some (k, b)) ∧
              ∀ x v, x ∈ l → obs x = Some (k, v) → ord_le v b = true
  | None => ∀ x v, x ∈ l → obs x ≠ Some (k, v)
  end.

Lemma newest_by_snoc l x m :
  newest_by (l ++ [x]) m =
  match obs x with
  | None => newest_by l m
  | Some (k, v) => entry_modify_or_insert (λ best, maxf best v) v k (newest_by l m)
  end.
Proof. unfold newest_by. by rewrite foldl_app. Qed.

Lemma newest_by_spec l k : is_newest l k (newest_by l ∅ !! k).
Proof.
  induction l as [|x l IH] using rev_ind.
  { cbn. rewrite lookup_empty. intros x v Hx. by apply elem_of_nil in Hx. }
  rewrite newest_by_snoc. destruct (obs x) as [[k' v]|] eqn:Hx.
  2:{ destruct (newest_by l ∅ !! k) as [b|]; cbn in *.
      - destruct IH as [(y & Hy & Hyk) Hle]. split; [exists y; set_solver|].
        intros z w [Hz| ->%list_elem_of_singleton]%elem_of_app; [by apply Hle|congruence].
      - intros z w [Hz| ->%list_elem_of_singleton]%elem_of_app; [by apply IH|congruence]. }
  unfold entry_modify_or_insert. destruct (decide (k = k')) as [<-|Hne].
  - rewrite lookup_partial_alter. destruct (newest_by l ∅ !! k) as [b|]; cbn in *.
    + rewrite maxf_spec. destruct IH as [(y & Hy & Hyk) Hle].
      rewrite decide_True by done; cbn.
      destruct (ord_lt b v) eqn:Hbv; split.
      * exists x. rewrite elem_of_app, list_elem_of_singleton. auto.
      * intros z w [Hz| ->%list_elem_of_singleton]%elem_of_app Hw.
        { eapply ord_trans; [by eapply Hle|by apply ord_lt_le]. }
        rewrite Hx in Hw. injection Hw as <-. apply ord_refl.
      * exists y. rewrite elem_of_app. auto.
      * intros z w [Hz| ->%list_elem_of_singleton]%elem_of_app Hw; [by eapply Hle|].
        rewrite Hx in Hw. injection Hw as <-. unfold ord_lt in Hbv.
        by apply negb_false_iff in Hbv.
    + rewrite decide_True by done; cbn. split.
      * exists x. rewrite elem_of_app, list_elem_of_singleton. auto.
      * intros z w [Hz| ->%list_elem_of_singleton]%elem_of_app Hw; [by destruct (IH z w)|].
        rewrite Hx in Hw. injection Hw as <-. apply ord_refl.
  - rewrite lookup_partial_alter_ne by done.
    destruct (newest_by l ∅ !! k) as [b|]; cbn in *.
    + destruct IH as [(y & Hy & Hyk) Hle]. split; [exists y; set_solver|].
      intros z w [Hz| ->%list_elem_of_singleton]%elem_of_app; [by apply Hle|congruence].
    + intros z w [Hz| ->%list_elem_of_singleton]%elem_of_app; [by apply IH|congruence].
Qed.
End newest.

Definition obs_entry (check : CheckSnapshot) : option (CheckIdentity * string) :=
  (λ o, (identity check, o)) <$> observed_at check.

Lemma obs_entry_Some c k s : obs_entry c = Some (k, s) ↔ identity c = k ∧ observed_at c = Some s.
Proof.
  unfold obs_entry. rewrite fmap_Some. split.
  - by intros (o & Ho & [= <- <-]).
  - intros [<- Ho]. eauto.
Qed.

Lemma newest_observation_spec checks k :
  is_newest obs_entry checks k (newest_observation_per_identity checks !! k).
Proof.
  replace (newest_observation_per_identity checks)
    with (newest_by obs_entry (λ best observed, if ord_lt best observed then observed else best)
            checks ∅); [by apply newest_by_spec|].
  unfold newest_by, newest_observation_per_identity, obs_entry. generalize (∅ : gmap CheckIdentity string).
  induction checks as [|c l IH]; intros m; cbn; [done|]. by destruct (observed_at c).
Qed.

Lemma newest_generation_spec checks k :
  is_newest workflow_generation checks k (newest_workflow_generation checks !! k).
Proof.
  change (newest_workflow_generation checks) with (newest_by workflow_generation N.max checks ∅).
  apply newest_by_spec. intros a b. unfold ord_lt, ord_le, ord_N.
  destruct (N.leb_spec b a); cbn; lia.
Qed.

(** ** What supersedes a row *)

(** Another row of the same check was observed strictly later. *)
Definition later_observation (checks : list CheckSnapshot) (c : CheckSnapshot) : Prop :=
  ∃ d s t, d ∈ checks ∧ identity d = identity c ∧
    observed_at c = Some s ∧ observed_at d = Some t ∧ ord_lt s t = true.

(** Some row comes from a newer run of the workflow that owns this one. *)
Definition later_run (checks : list CheckSnapshot) (c : CheckSnapshot) : Prop :=
  ∃ d w i j, d ∈ checks ∧ workflow_generation c = Some (w, i) ∧
    workflow_generation d = Some (w, j) ∧ (i < j)%N.

Lemma newer_same_check_true checks c :
  newer_same_check c (newest_observation_per_identity checks) = true ↔ later_observation checks c.
Proof.
  pose proof (newest_observation_spec checks (identity c)) as Hn.
  unfold newer_same_check, later_observation.
  destruct (_ !! identity c) as [b|]; cbn in Hn.
  - destruct Hn as [(d & Hd & [Hid Hdb]%obs_entry_Some) Hle]. split.
    + destruct (observed_at c) as [s|]; [|done]. intros Hlt. by exists d, s, b.
    + intros (e & s & t & He & Hide & Hs & Ht & Hlt). rewrite Hs.
      eapply ord_lt_le_trans; [done|]. apply (Hle e); [done|]. by apply obs_entry_Some.
  - split; [done|]. intros (e & s & t & He & Hid & Hs & Ht & Hlt).
    destruct (Hn e t He). by apply obs_entry_Some.
Qed.

Lemma newer_workflow_generation_true checks c :
  newer_workflow_generation c (newest_workflow_generation checks) = true ↔ later_run checks c.
Proof.
  unfold newer_workflow_generation, later_run.
  destruct (workflow_generation c) as [[w i]|] eqn:Hc.
  2:{ split; [done|]. by intros (d & w & i & j & _ & [=] & _). }
  pose proof (newest_generation_spec checks w) as Hn.
  destruct (_ !! w) as [b|]; cbn in Hn.
  - destruct Hn as [(d & Hd & Hdb) Hle]. split.
    + intros Hlt%N.ltb_lt. by exists d, w, i, b.
    + intros (e & w' & i' & j & He & [= <- <-] & Hj & Hlt). apply N.ltb_lt.
      specialize (Hle e j He Hj). unfold ord_le, ord_N in Hle. apply N.leb_le in Hle. lia.
  - split; [done|]. intros (e & w' & i' & j & He & [= <- <-] & Hj & Hlt). by destruct (Hn e j He).
Qed.

Definition superseded_in (checks : list CheckSnapshot) (c : CheckSnapshot) : bool :=
  is_superseded c (newest_observation_per_identity checks) (newest_workflow_generation checks).

Lemma superseded_in_true checks c :
  superseded_in checks c = true ↔ later_observation checks c ∨ later_run checks c.
Proof.
  unfold superseded_in, is_superseded. rewrite orb_true_iff.
  by rewrite newer_same_check_true, newer_workflow_generation_true.
Qed.

(** The loop is a stable two-way split. *)
Lemma latest_checks_filter checks :
  latest_checks_per_identity checks =
  (List.filter (λ c, negb (superseded_in checks c)) checks,
   List.filter (superseded_in checks) checks).
Proof.
  unfold latest_checks_per_identity. fold (superseded_in checks).
  change (λ '(current, superseded) check,
      if is_superseded check (newest_observation_per_identity checks) (newest_workflow_generation checks)
      then (current, superseded ++ [check]) else (current ++ [check], superseded))
    with (λ '(current, superseded) check,
      if superseded_in checks check
      then (current, superseded ++ [check]) else (current ++ [check], superseded)).
  generalize (superseded_in checks) as p. intros p.
  enough (∀ a b, foldl (λ '(current, superseded) check,
      if p check then (current, superseded ++ [check]) else (current ++ [check], superseded))
      (a, b) checks =
    (a ++ List.filter (λ c, negb (p c)) checks, b ++ List.filter p checks)) as H by apply H.
  induction checks as [|c l IH]; intros a b; cbn; [by rewrite !app_nil_r|].
  destruct (p c) eqn:Hc; cbn; rewrite IH, <-!app_assoc; done.
Qed.

Lemma elem_of_current checks c :
  c ∈ (latest_checks_per_identity checks).1 ↔ c ∈ checks ∧ superseded_in checks c = false.
Proof. rewrite latest_checks_filter; cbn. by rewrite elem_of_list_filter_b, negb_true_iff. Qed.

(** Every reading of a row ignores its diagnostic flag. *)
Lemma set_superseded_reads c b :
  identity (set_superseded c b) = identity c ∧ observed_at (set_superseded c b) = observed_at c ∧
  workflow_generation (set_superseded c b) = workflow_generation c.
Proof. done. Qed.

Lemma newest_maps_flag_free (f : CheckSnapshot → bool) checks :
  newest_observation_per_identity ((λ c, set_superseded c (f c)) <$> checks)
    = newest_observation_per_identity checks ∧
  newest_workflow_generation ((λ c, set_superseded c (f c)) <$> checks)
    = newest_workflow_generation checks.
Proof.
  unfold newest_observation_per_identity, newest_workflow_generation. split.
  - generalize (∅ : gmap CheckIdentity string).
    induction checks as [|c l IH]; intros m; cbn [fmap list_fmap foldl]; [done|]. by rewrite IH.
  - generalize (∅ : gmap WorkflowIdentity N).
    induction checks as [|c l IH]; intros m; cbn [fmap list_fmap foldl]; [done|]. by rewrite IH.
Qed.

Lemma superseded_in_flag_free (f : CheckSnapshot → bool) checks c b :
  superseded_in ((λ c, set_superseded c (f c)) <$> checks) (set_superseded c b)
  = superseded_in checks c.
Proof. unfold superseded_in. by destruct (newest_maps_flag_free f checks) as [-> ->]. Qed.

Lemma mark_superseded_map checks :
  mark_superseded_checks checks = (λ c, set_superseded c (superseded_in checks c)) <$> checks.
Proof.
  unfold mark_superseded_checks, superseded_in.
  generalize (newest_observation_per_identity checks) (newest_workflow_generation checks).
  intros n w. induction checks as [|c l IH]; cbn; [done|]. by f_equal.
Qed.

Lemma filter_fmap_flag (p q : CheckSnapshot → bool) (g : CheckSnapshot → CheckSnapshot) l :
  (∀ c, p (g c) = q c) → List.filter p (g <$> l) = g <$> List.filter q l.
Proof.
  intros H. induction l as [|c l IH]; cbn; [done|]. rewrite H. destruct (q c); cbn; by rewrite IH.
Qed.

(** ** Properties *)

(** The reduction partitions the rollup: the two groups are
    order-preserving sublists that together hold every row, and a row is
    retired exactly when another row gives positive evidence, either a strictly
    later valid timestamp for the same check or a newer run of the workflow that
    owns it. *)
Theorem latest_checks_positive_evidence checks :
  (latest_checks_per_identity checks).1 `sublist_of` checks ∧
  (latest_checks_per_identity checks).2 `sublist_of` checks ∧
  (latest_checks_per_identity checks).1 ++ (latest_checks_per_identity checks).2 ≡ₚ checks ∧
  ∀ c, c ∈ (latest_checks_per_identity checks).2 ↔
       c ∈ checks ∧ (later_observation checks c ∨ later_run checks c).
Proof.
  rewrite latest_checks_filter; cbn. split_and!.
  - apply filter_b_sublist.
  - apply filter_b_sublist.
  - rewrite Permutation_app_comm. apply filter_split_Permutation.
  - intros c. by rewrite elem_of_list_filter_b, superseded_in_true.
Qed.

(** The diagnostic flag is an output only: rewriting it in any way on the
    input rows leaves the reduction unchanged, and marking, applied any number
    of times, flags exactly the rows the reduction retires. *)
Theorem superseded_flag_is_never_read (f : CheckSnapshot → bool) checks :
  let flag c := set_superseded c (f c) in
  latest_checks_per_identity (flag <$> checks) =
    (flag <$> (latest_checks_per_identity checks).1,
     flag <$> (latest_checks_per_identity checks).2) ∧
  mark_superseded_checks (flag <$> checks) = mark_superseded_checks checks ∧
  List.filter ck_superseded (mark_superseded_checks checks) =
    (λ c, set_superseded c true) <$> (latest_checks_per_identity checks).2.
Proof.
  cbn. rewrite !latest_checks_filter, !mark_superseded_map; cbn. split_and!.
  - f_equal; apply filter_fmap_flag; intros c; by rewrite superseded_in_flag_free.
  - rewrite <-list_fmap_compose. apply list_fmap_ext. intros i c Hc. cbn.
    rewrite superseded_in_flag_free. done.
  - generalize (superseded_in checks) as p. intros p.
    induction checks as [|c l IH]; cbn; [done|].
    destruct (p c) eqn:Hc; cbn; by rewrite IH.
Qed.

(** A row whose workflow has no newer run keeps a verdict of its check in
    the current group, provided no outrun row of the same check carries a later
    timestamp than it; with no later timestamp at all the row itself stays. *)
Theorem newest_run_keeps_a_verdict checks c :
  c ∈ checks → ¬ later_run checks c →
  (∀ d t, d ∈ checks → identity d = identity c → later_run checks d → observed_at d = Some t →
     ∃ s, observed_at c = Some s ∧ ord_le t s = true) →
  ∃ d, d ∈ (latest_checks_per_identity checks).1 ∧ identity d = identity c ∧
       ∀ s t, observed_at c = Some s → observed_at d = Some t → ord_le s t = true.
Proof.
  intros Hc Hrun Hclock.
  assert (∀ d, d ∈ checks → ¬ later_observation checks d → ¬ later_run checks d →
    d ∈ (latest_checks_per_identity checks).1) as Hkeep.
  { intros d Hd Ho Hr. apply elem_of_current. split; [done|]. apply not_true_iff_false.
    rewrite superseded_in_true. tauto. }
  destruct (newer_same_check c (newest_observation_per_identity checks)) eqn:Hn.
  2:{ exists c. split_and!; [|done|].
      - apply Hkeep; [done| |done]. rewrite <-newer_same_check_true. congruence.
      - intros s t -> [= <-]. apply ord_refl. }
  pose proof (newest_observation_spec checks (identity c)) as Hspec.
  unfold newer_same_check in Hn.
  destruct (_ !! identity c) as [b|]; cbn in Hspec; [|done].
  destruct (observed_at c) as [s|] eqn:Hs; [|done].
  destruct Hspec as [(d & Hd & [Hid Hdb]%obs_entry_Some) Hle].
  exists d. split_and!; [|done|].
  - apply Hkeep; [done| |].
    + intros (e & s' & t & He & Hide & Hs' & Ht & Hlt).
      assert (ord_le t b = true) by (apply (Hle e); [done|]; apply obs_entry_Some; split; congruence).
      assert (s' = b) as -> by congruence. unfold ord_lt in Hlt. by rewrite H in Hlt.
    + intros Hr. destruct (Hclock d b Hd Hid Hr Hdb) as (s' & [= <-] & Hbs).
      unfold ord_lt in Hn. by rewrite Hbs in Hn.
  - intros s' t [= <-] Ht. assert (t = b) as -> by congruence. by apply ord_lt_le.
Qed.

(** ** Concrete lineages *)

Definition job_row (run stamp : string) (state : CheckState) : CheckSnapshot :=
  mkCheckSnapshot "build" state None
    (Some ("https://github.com/o/r/actions/runs/" +:+ run +:+ "/job/1"))
    (Some "CheckRun") (Some "ci") (Some 15368%N) None (Some "h1")
    (Some stamp) (Some stamp) false.

Lemma newest_run_keeps_a_verdict_witness :
  ∃ d, d ∈ (latest_checks_per_identity
              [job_row "5" "2024-01-01T00:00:01Z" CheckFailure;
               job_row "6" "2024-01-01T00:00:02Z" CheckSuccess]).1 ∧
       identity d = identity (job_row "6" "2024-01-01T00:00:02Z" CheckSuccess) ∧
       ∀ s t, observed_at (job_row "6" "2024-01-01T00:00:02Z" CheckSuccess) = Some s →
              observed_at d = Some t → ord_le s t = true.
Proof.
  apply (newest_run_keeps_a_verdict
    [job_row "5" "2024-01-01T00:00:01Z" CheckFailure;
     job_row "6" "2024-01-01T00:00:02Z" CheckSuccess]
    (job_row "6" "2024-01-01T00:00:02Z" CheckSuccess)).
  - apply elem_of_cons. right. by apply list_elem_of_singleton.
  - rewrite <-newer_workflow_generation_true. vm_compute. discriminate.
  - intros d t Hd _ _ Ht.
    exists "2024-01-01T00:00:02Z". split; [vm_compute; reflexivity|].
    apply elem_of_cons in Hd as [->|Hd]; [|apply list_elem_of_singleton in Hd as ->];
      vm_compute in Ht; injection Ht as <-; vm_compute; reflexivity.
Defined.

(** Re-running an older workflow run gives a row with the later timestamp and
    the smaller run id. Each of the two rows then retires the other, the current
    group is empty, and the failure is no longer anyone's verdict. *)
Lemma rerun_silences_failure :
  let first_run := job_row "6" "2024-01-01T00:00:01Z" CheckSuccess in
  let rerun := job_row "5" "2024-01-01T00:00:02Z" CheckFailure in
  ck_state rerun = CheckFailure ∧
  latest_checks_per_identity [first_run; rerun] = ([], [first_run; rerun]).
Proof. split; vm_compute; reflexivity. Qed.
