(* ===== verification/RequiredRuns.v ===== *)
(** Required-run coverage: src/src/required_runs.rs.

    The policy that tells "waiting for CI" from "no run will ever report": the
    effective required contexts of the landing branch ([normalized]), the
    check-suite and workflow-run lineage of one exact head, the coverage class
    of each context, the whole verdict with its recovery ([assess]), the visible
    problem derived from it ([problem], [push_problem]) and the strict timestamp
    reader the grace period rests on. The JSON serializer of the sealed
    receipts and fingerprints is a parameter. *)

From Stdlib Require Import Ascii String ZArith Lia.
From S2P Require Import Prelude Text Model Lineage.

#[local] Open Scope string_scope.
#[local] Open Scope list_scope.
#[local] Open Scope nat_scope.

Definition REQUIRED_RUNS_RECEIPT_SCHEMA_VERSION : N := 1.
Definition MAX_REPORTED_CONTEXTS : nat := 32.
Definition MAX_REPORTED_LINEAGE : nat := 32.
Definition MAX_MISSING_REQUIRED_RUNS_PROBLEMS : nat := 32.
Definition REQUIRED_RUNS_OWNER : string := "caravan-scheduler".
Definition REQUIRED_RUNS_COMPONENT : string := "cara sync".
Definition REVIEWED_MANUAL_RECOVERY : string :=
  "reviewed manual recovery: close and immediately reopen the exact PR to make GitHub queue a `pull_request` run on the unchanged head; never push an empty commit, force-push, retarget, or broadly rerun another generation".

#[global] Arguments MAX_REPORTED_CONTEXTS : simpl never.
#[global] Arguments MAX_REPORTED_LINEAGE : simpl never.
#[global] Arguments MAX_MISSING_REQUIRED_RUNS_PROBLEMS : simpl never.

(** ** Required contexts *)

Record RequiredCheck := mkRequiredCheck {
  rc_context : string;
  rc_app_id : option N }.
#[export] Instance RequiredCheck_eq_dec : EqDecision RequiredCheck.
Proof. solve_decision. Defined.
(** The derived [Ord]: context first, then App. *)
#[export] Instance ord_RequiredCheck : RustOrd RequiredCheck :=
  λ a b, ord_le (rc_context a, rc_app_id a) (rc_context b, rc_app_id b).
#[export] Instance ord_RequiredCheck_laws : RustOrdLaws RequiredCheck.
Proof.
  apply (ord_inj_laws (λ a, (rc_context a, rc_app_id a))).
  intros [? ?] [? ?]; cbn. by intros [= -> ->].
Qed.

Definition matches (required : RequiredCheck) (check : CheckSnapshot) (head : CommitOid) : bool :=
  String.eqb (ck_name check) (rc_context required)
  && negb (opt_eqb (ck_provider_kind check) (Some "WorkflowRunLineage"))
  && is_none_or (ck_head_oid check) (String.eqb head)
  && is_none_or (rc_app_id required) (λ app,
       opt_eqb (ck_app_id check) (Some app) && opt_eqb (ck_head_oid check) (Some head)).

Record RequiredContextsRead := mkRequiredContextsRead {
  rr_branch : string;
  rr_protected : bool;
  rr_contexts : list string;
  rr_checks : list RequiredCheck;
  rr_complete : bool }.

Definition unprotected (branch : string) : RequiredContextsRead :=
  mkRequiredContextsRead branch false [] [] true.
Definition partial_read (branch : string) : RequiredContextsRead :=
  mkRequiredContextsRead branch true [] [] false.

(** Legacy contexts that no typed declaration names become App-free checks. *)
Definition merge_contexts (contexts : list string) (checks : list RequiredCheck)
    : list RequiredCheck :=
  foldl (λ checks context,
    if negb (existsb (λ check, String.eqb (rc_context check) context) checks)
    then checks ++ [mkRequiredCheck context None] else checks) checks contexts.

#[global] Arguments merge_contexts : simpl never.

Definition normalized (self : RequiredContextsRead) : RequiredContextsRead :=
  let checks := vec_dedup (vec_sort (merge_contexts (rr_contexts self) (rr_checks self))) in
  let contexts := vec_dedup (vec_sort (rc_context <$> checks)) in
  let complete :=
    if (MAX_REPORTED_CONTEXTS <? length checks)
       || existsb (λ check, str_is_empty (rc_context check)
                            || opt_eqb (rc_app_id check) (Some 0%N)) checks
    then false else rr_complete self in
  mkRequiredContextsRead (rr_branch self) (rr_protected self)
    (take MAX_REPORTED_CONTEXTS contexts) (take MAX_REPORTED_CONTEXTS checks) complete.

Definition required_checks (self : RequiredContextsRead) (checks : list CheckSnapshot)
    (head : CommitOid) : list CheckSnapshot :=
  let policy := normalized self in
  List.filter (λ check, existsb (λ required, matches required check head) (rr_checks policy))
    (latest_checks_per_identity checks).1.

(** ** Provider lineage of one head *)

Record CheckSuiteLineage := mkCheckSuiteLineage {
  cs_id : N;
  cs_head_sha : string;
  cs_status : string;
  cs_conclusion : string;
  cs_app_slug : string;
  cs_rerequestable : bool }.

Record WorkflowPullRequestBinding := mkWorkflowPullRequestBinding {
  wb_number : PrNumber;
  wb_head_sha : string;
  wb_head_ref : string;
  wb_base_sha : string;
  wb_base_ref : string }.

Record WorkflowExecutionIdentity := mkWorkflowExecutionIdentity {
  we_workflow_id : N;
  we_run_attempt : N;
  we_pull_requests : list WorkflowPullRequestBinding }.

Record WorkflowRunLineage := mkWorkflowRunLineage {
  wr_run_id : N;
  wr_check_suite_id : N;
  wr_workflow_name : string;
  wr_execution : option WorkflowExecutionIdentity;
  wr_head_sha : string;
  wr_status : string;
  wr_conclusion : string;
  wr_event : string }.

Record HeadRunLineage := mkHeadRunLineage {
  hl_head_sha : string;
  hl_check_suites : list CheckSuiteLineage;
  hl_workflow_runs : list WorkflowRunLineage;
  hl_head_committed_at : option string;
  hl_complete : bool }.

(** [ids.collect::<BTreeSet<_>>().len() != ids.len()]. *)
Definition has_duplicate_ids (ids : list N) : bool :=
  negb (size (list_to_set ids : gset N) =? length ids).

Definition bounded (self : HeadRunLineage) : HeadRunLineage :=
  let complete :=
    if (MAX_REPORTED_LINEAGE <? length (hl_check_suites self))
       || (MAX_REPORTED_LINEAGE <? length (hl_workflow_runs self))
       || has_duplicate_ids (cs_id <$> hl_check_suites self)
       || has_duplicate_ids (wr_run_id <$> hl_workflow_runs self)
    then false else hl_complete self in
  let check_suites :=
    sort_by_key cs_id (take MAX_REPORTED_LINEAGE (dedup_by_key cs_id
      (sort_by_key (λ suite, mkReverse (cs_id suite)) (hl_check_suites self)))) in
  let workflow_runs :=
    sort_by_key wr_run_id (take MAX_REPORTED_LINEAGE (dedup_by_key wr_run_id
      (sort_by_key (λ run, mkReverse (wr_run_id run)) (hl_workflow_runs self)))) in
  mkHeadRunLineage (hl_head_sha self) check_suites workflow_runs
    (hl_head_committed_at self) complete.

Definition lineage_is_live (status conclusion : string) : bool :=
  if existsb (λ candidate, eq_ignore_ascii_case status candidate)
       ["queued"; "in_progress"; "requested"; "waiting"; "pending"; "action_required"]
  then true else str_is_empty status && str_is_empty conclusion.

Definition lineage_is_abandoned (conclusion : string) : bool :=
  existsb (λ candidate, eq_ignore_ascii_case conclusion candidate)
    ["cancelled"; "stale"; "skipped"].

(** ** Coverage classes *)

Inductive RequiredContextState :=
| CtxPassing | CtxPending | CtxFailing | CtxCancelledSuperseded | CtxMissing | CtxUnknown.
#[export] Instance RequiredContextState_eq_dec : EqDecision RequiredContextState.
Proof. solve_decision. Defined.

Record RequiredContextCoverage := mkRequiredContextCoverage {
  cov_context : string;
  cov_app_id : option N;
  cov_state : RequiredContextState;
  cov_reporting_checks : list string;
  cov_current_reporting_checks : list string;
  cov_provider_state : option string }.

Inductive RequiredRunsStatus :=
| NotRequired | Satisfied | Pending | Failing | CancelledSuperseded | AwaitingGrace
| MissingRequiredRuns | UnknownProviderState.
#[export] Instance RequiredRunsStatus_eq_dec : EqDecision RequiredRunsStatus.
Proof. solve_decision. Defined.

Definition status_code (s : RequiredRunsStatus) : string :=
  match s with
  | NotRequired => "not_required"
  | Satisfied => "satisfied"
  | Pending => "pending"
  | Failing => "failing"
  | CancelledSuperseded => "cancelled_superseded"
  | AwaitingGrace => "awaiting_grace"
  | MissingRequiredRuns => "missing_required_runs"
  | UnknownProviderState => "unknown_provider_state"
  end.

Definition stalls_forever (s : RequiredRunsStatus) : bool :=
  match s with MissingRequiredRuns | CancelledSuperseded => true | _ => false end.
Definition is_waiting (s : RequiredRunsStatus) : bool :=
  match s with Pending | AwaitingGrace => true | _ => false end.

Inductive RequiredRunsRecovery :=
| RecoveryNone | AwaitGrace | RerequestCheckSuite (check_suite_id : N) | OperatorAction.

Definition recovery_code (r : RequiredRunsRecovery) : string :=
  match r with
  | RecoveryNone => "none"
  | AwaitGrace => "await_grace"
  | RerequestCheckSuite _ => "rerequest_check_suite"
  | OperatorAction => "operator_action"
  end.

Record RequiredRunsClock := mkRequiredRunsClock {
  rk_now_unix : N;
  rk_grace_secs : N }.

Record RequiredRunsInput := mkRequiredRunsInput {
  ri_pr : PrNumber;
  ri_head : BranchSnapshot;
  ri_base : BranchSnapshot;
  ri_contexts : RequiredContextsRead;
  ri_lineage : option HeadRunLineage;
  ri_checks : list CheckSnapshot;
  ri_head_published_at : option string;
  ri_clock : RequiredRunsClock }.

Record RequiredRunsAssessment := mkRequiredRunsAssessment {
  ra_pr : PrNumber;
  ra_head : BranchSnapshot;
  ra_base : BranchSnapshot;
  ra_status : RequiredRunsStatus;
  ra_required_contexts : list string;
  ra_required_policy : option RequiredContextsRead;
  ra_coverage : list RequiredContextCoverage;
  ra_missing_contexts : list string;
  ra_observed_check_suites : nat;
  ra_observed_runs : nat;
  ra_stale_head_runs : nat;
  ra_provider_reads_complete : bool;
  ra_head_age_secs : option N;
  ra_grace_secs : N;
  ra_grace_elapsed : bool;
  ra_recovery : RequiredRunsRecovery;
  ra_reason : string }.

Definition requires_problem (a : RequiredRunsAssessment) : bool :=
  stalls_forever (ra_status a)
  || match ra_status a with UnknownProviderState => true | _ => false end.

(** ** Classification *)

Definition is_reporting (check : CheckSnapshot) : bool :=
  negb (bool_decide (ck_state check = CheckExpected)).

Definition is_failing_state (s : CheckState) : bool :=
  match s with CheckFailure | CheckTimedOut | CheckActionRequired => true | _ => false end.
Definition is_running_state (s : CheckState) : bool :=
  match s with CheckQueued | CheckInProgress => true | _ => false end.

Definition state_from_checks (matching : list CheckSnapshot)
    : option (RequiredContextState * option string) :=
  let reporting := List.filter is_reporting matching in
  match reporting with
  | [] => None
  | first :: _ =>
      match List.find (λ check, bool_decide (ck_state check = CheckUnknown)) reporting with
      | Some unknown => Some (CtxUnknown, ck_provider_state unknown)
      | None =>
          let provider_state := ck_provider_state first in
          let state :=
            if existsb (λ check, is_failing_state (ck_state check)) reporting then CtxFailing
            else if existsb (λ check, bool_decide (ck_state check = CheckCancelled)) reporting
            then CtxCancelledSuperseded
            else if existsb (λ check, is_running_state (ck_state check)) reporting
            then CtxPending
            else CtxPassing in
          Some (state, provider_state)
      end
  end.

Definition suites_on (lineage : HeadRunLineage) (head_sha : string) : list CheckSuiteLineage :=
  List.filter (λ suite, String.eqb (cs_head_sha suite) head_sha) (hl_check_suites lineage).
Definition runs_on (lineage : HeadRunLineage) (head_sha : string) : list WorkflowRunLineage :=
  List.filter (λ run, String.eqb (wr_head_sha run) head_sha) (hl_workflow_runs lineage).

Definition state_from_lineage (lineage : option HeadRunLineage) (head_sha : string)
    : RequiredContextState :=
  match lineage with
  | None => CtxUnknown
  | Some lineage =>
      let live :=
        existsb (λ suite, lineage_is_live (cs_status suite) (cs_conclusion suite))
          (suites_on lineage head_sha)
        || existsb (λ run, lineage_is_live (wr_status run) (wr_conclusion run))
             (runs_on lineage head_sha) in
      if live then CtxPending else
      let abandoned :=
        existsb (λ suite, lineage_is_abandoned (cs_conclusion suite)) (suites_on lineage head_sha)
        || existsb (λ run, lineage_is_abandoned (wr_conclusion run)) (runs_on lineage head_sha) in
      if abandoned then CtxCancelledSuperseded else CtxMissing
  end.

Definition lineage_counts (lineage : option HeadRunLineage) (head_sha : string)
    : nat * nat * nat :=
  match lineage with
  | None => (0, 0, 0)
  | Some lineage =>
      let suites := length (suites_on lineage head_sha) in
      let runs := length (runs_on lineage head_sha) in
      let stale :=
        length (List.filter (λ suite, negb (String.eqb (cs_head_sha suite) head_sha))
                  (hl_check_suites lineage))
        + length (List.filter (λ run, negb (String.eqb (wr_head_sha run) head_sha))
                    (hl_workflow_runs lineage)) in
      (suites, runs, stale)
  end.

(** The lineage a decision may rest on: complete, and read for this head. *)
Definition usable_lineage (lineage : option HeadRunLineage) (head_sha : string)
    : option HeadRunLineage :=
  opt_filter (λ lineage, hl_complete lineage && String.eqb (hl_head_sha lineage) head_sha) lineage.

Definition rerequestable_suite (lineage : option HeadRunLineage) (head_sha : string) : option N :=
  match usable_lineage lineage head_sha with
  | None => None
  | Some lineage =>
      match List.filter (λ suite, String.eqb (cs_head_sha suite) head_sha && cs_rerequestable suite)
              (hl_check_suites lineage) with
      | [] => None
      | only :: rest => then_some (match rest with [] => true | _ => false end) (cs_id only)
      end
  end.

(** The run id in a check's details URL. *)
Definition details_run_id (check : CheckSnapshot) : option N :=
  match ck_details_url check with
  | Some url =>
      match split_once "/actions/runs/" url with
      | Some (_, suffix) => parse_u64 (split_first "/" suffix)
      | None => None
      end
  | None => None
  end.

Definition superseded_by_exact_lineage (check : CheckSnapshot) (lineage : option HeadRunLineage)
    (head : string) : bool :=
  match usable_lineage lineage head, details_run_id check with
  | Some lineage, Some run_id =>
      if has_duplicate_ids (wr_run_id <$> hl_workflow_runs lineage)
         || has_duplicate_ids (cs_id <$> hl_check_suites lineage)
      then false else
      match List.find (λ run, N.eqb (wr_run_id run) run_id && String.eqb (wr_head_sha run) head
                              && negb (str_is_empty (wr_workflow_name run)))
              (hl_workflow_runs lineage) with
      | None => false
      | Some old =>
          match List.find (λ suite, N.eqb (cs_id suite) (wr_check_suite_id old)
                                    && String.eqb (cs_head_sha suite) head)
                  (hl_check_suites lineage) with
          | None => false
          | Some old_suite =>
              if is_some_b (ck_app_id check)
                 && (negb (opt_eqb (ck_check_suite_id check) (Some (cs_id old_suite)))
                     || is_none_or (ck_head_oid check) (λ oid, negb (String.eqb oid head)))
              then false else
              existsb (λ new,
                (wr_run_id old <? wr_run_id new)%N
                && String.eqb (wr_head_sha new) head
                && String.eqb (wr_workflow_name new) (wr_workflow_name old)
                && existsb (λ suite,
                     N.eqb (cs_id suite) (wr_check_suite_id new)
                     && String.eqb (cs_head_sha suite) head
                     && String.eqb (cs_app_slug suite) (cs_app_slug old_suite))
                     (hl_check_suites lineage))
                (hl_workflow_runs lineage)
          end
      end
  | _, _ => false
  end.

(** ** Provider timestamps *)

(** Rust's [/] and [%] on [i64] truncate toward zero. *)
Definition days_from_civil (year month day : Z) : Z :=
  (let year := if month <=? 2 then year - 1 else year in
   let era := Z.quot (if 0 <=? year then year else year - 399) 400 in
   let year_of_era := year - era * 400 in
   let shifted_month := Z.rem (month + 9) 12 in
   let day_of_year := Z.quot (153 * shifted_month + 2) 5 + day - 1 in
   let day_of_era := year_of_era * 365 + Z.quot year_of_era 4 - Z.quot year_of_era 100 + day_of_year in
   era * 146097 + day_of_era - 719468)%Z.

(** [value.get(start..end)] parsed as digits; the ranges used hold at most four. *)
Definition number (value : string) (start stop : nat) : option Z :=
  if String.length value <? stop then None else
  let slice := String.substring start (stop - start) value in
  if forallb is_ascii_digit (list_ascii_of_string slice)
  then Z.of_N <$> parse_u64 slice else None.

Definition byte_is (value : string) (index : nat) (c : ascii) : bool :=
  match String.get index value with Some d => Ascii.eqb c d | None => false end.

(** [while bytes.get(index).is_some_and(u8::is_ascii_digit) { index += 1 }]: the
    value's length bounds the iterations. *)
Fixpoint skip_digits (fuel : nat) (value : string) (index : nat) : nat :=
  match fuel with
  | O => index
  | S fuel' =>
      match String.get index value with
      | Some c => if is_ascii_digit c then skip_digits fuel' value (S index) else index
      | None => index
      end
  end.

Definition rfc3339_offset (value : string) (index : nat) : option Z :=
  match String.get index value with
  | None => None
  | Some c =>
      if Ascii.eqb c "Z" || Ascii.eqb c "z" then Some 0%Z
      else if Ascii.eqb c "+" || Ascii.eqb c "-" then
        if negb (byte_is value (index + 3) ":") then None else
        match number value (index + 1) (index + 3) with
        | None => None
        | Some hours =>
            match number value (index + 4) (index + 6) with
            | None => None
            | Some minutes =>
                if ((23 <? hours) || (59 <? minutes))%Z then None else
                let magnitude := (hours * 3600 + minutes * 60)%Z in
                Some (if Ascii.eqb c "+" then magnitude else (- magnitude)%Z)
            end
        end
      else None
  end.

Definition rfc3339_to_unix_secs (value : string) : option N :=
  if String.length value <? 20 then None else
  if negb (byte_is value 4 "-") || negb (byte_is value 7 "-") || negb (byte_is value 13 ":")
     || negb (byte_is value 16 ":") then None else
  if negb (byte_is value 10 "T" || byte_is value 10 "t") then None else
  match number value 0 4, number value 5 7, number value 8 10 with
  | Some year, Some month, Some day =>
      match number value 11 13, number value 14 16, number value 17 19 with
      | Some hour, Some minute, Some second =>
          if negb ((1 <=? month) && (month <=? 12))%Z || negb ((1 <=? day) && (day <=? 31))%Z
          then None else
          if ((23 <? hour) || (59 <? minute) || (60 <? second))%Z then None else
          let index := if byte_is value 19 "."
                       then skip_digits (String.length value) value 20 else 19 in
          match rfc3339_offset value index with
          | None => None
          | Some offset_secs =>
              let seconds := (days_from_civil year month day * 86400 + hour * 3600
                              + minute * 60 + second - offset_secs)%Z in
              if (seconds <? 0)%Z then None else Some (Z.to_N seconds)
          end
      | _, _, _ => None
      end
  | _, _, _ => None
  end.

Example rfc3339_examples :
  (rfc3339_to_unix_secs "1970-01-01T00:00:00Z", rfc3339_to_unix_secs "2024-02-29T12:00:00.123+01:00",
   rfc3339_to_unix_secs "1969-12-31T23:59:59Z", rfc3339_to_unix_secs "2024-13-01T00:00:00Z",
   rfc3339_to_unix_secs "2024-01-01 00:00:00Z")
  = (Some 0%N, Some 1709204400%N, None, None, None).
Proof. vm_compute. reflexivity. Qed.

(** ** The assessment *)

Definition head_age (input : RequiredRunsInput) : option N :=
  match opt_or (ri_head_published_at input)
          (match ri_lineage input with Some lineage => hl_head_committed_at lineage | None => None end)
  with
  | Some stamp =>
      (λ published, sat_sub (rk_now_unix (ri_clock input)) published)
        <$> rfc3339_to_unix_secs stamp
  | None => None
  end.

Definition grace_elapsed_of (input : RequiredRunsInput) : bool :=
  is_some_and (head_age input) (λ age, (rk_grace_secs (ri_clock input) <=? age)%N).

(** Current rows for one requirement that provider lineage has not retired. *)
Definition current_matching (input : RequiredRunsInput) (required : RequiredCheck)
    : list CheckSnapshot :=
  let head_sha := br_oid (ri_head input) in
  List.filter (λ check, negb (superseded_by_exact_lineage check (ri_lineage input) head_sha))
    (List.filter (λ check, matches required check head_sha)
       (latest_checks_per_identity (ri_checks input)).1).

Definition coverage_of (input : RequiredRunsInput) (required : RequiredCheck)
    : RequiredContextCoverage :=
  let head_sha := br_oid (ri_head input) in
  let matching := List.filter (λ check, matches required check head_sha) (ri_checks input) in
  let current := current_matching input required in
  let reporting_checks := ck_name <$> List.filter is_reporting matching in
  let '(state, provider_state) :=
    match state_from_checks current with
    | Some reported => reported
    | None => (state_from_lineage (ri_lineage input) head_sha, None)
    end in
  mkRequiredContextCoverage (rc_context required) (rc_app_id required) state
    reporting_checks (ck_name <$> List.filter is_reporting current) provider_state.

Definition coverage_list (input : RequiredRunsInput) (policy : RequiredContextsRead)
    : list RequiredContextCoverage :=
  take MAX_REPORTED_CONTEXTS (coverage_of input <$> rr_checks policy).

Definition has_state (s : RequiredContextState) (coverage : list RequiredContextCoverage) : bool :=
  existsb (λ item, bool_decide (cov_state item = s)) coverage.

Definition missing_of (coverage : list RequiredContextCoverage) : list string :=
  cov_context <$> List.filter (λ item, bool_decide (cov_state item = CtxMissing)) coverage.

Definition lineage_complete (input : RequiredRunsInput) : bool :=
  is_none_or (ri_lineage input) hl_complete.

Definition verdict (input : RequiredRunsInput) (policy : RequiredContextsRead)
    (coverage : list RequiredContextCoverage) : RequiredRunsStatus * string :=
  let head_sha := br_oid (ri_head input) in
  let '(observed_check_suites, observed_runs, _) := lineage_counts (ri_lineage input) head_sha in
  let missing_contexts := missing_of coverage in
  let provider_reads_complete := rr_complete policy && lineage_complete input in
  let at_head := fmt ["PR #"; show_pr (ri_pr input); " head "; head_sha] in
  let missing := join ", " missing_contexts in
  if has_state CtxUnknown coverage || negb provider_reads_complete then
    (UnknownProviderState,
     fmt ["provider evidence for "; at_head; " is incomplete (protection_read_complete=";
          show_bool (rr_complete (ri_contexts input)); ", lineage_read_complete=";
          show_bool (lineage_complete input);
          "); nothing may be declared missing from a partial read"])
  else if match missing_contexts with [] => false | _ => true end then
    if is_none_b (head_age input) then
      (UnknownProviderState,
       fmt [at_head; " has no reporting run for "; missing;
            " but the provider served no head timestamp, so the bounded grace period cannot be evaluated"])
    else if grace_elapsed_of input then
      (MissingRequiredRuns,
       fmt [at_head; " has zero reporting run or check-suite lineage for required "; missing;
            " after "; show_N (default 0%N (head_age input)); "s (grace ";
            show_N (rk_grace_secs (ri_clock input)); "s); "; show_nat observed_check_suites;
            " suites and "; show_nat observed_runs; " runs exist on this exact head"])
    else
      (AwaitingGrace,
       fmt [at_head; " has no reporting run for "; missing; " yet, still inside the bounded ";
            show_N (rk_grace_secs (ri_clock input)); "s grace period"])
  else if has_state CtxFailing coverage then
    (Failing, fmt [at_head; " has an honest required-context failure owned by CI decision policy"])
  else if has_state CtxCancelledSuperseded coverage then
    (CancelledSuperseded,
     fmt [at_head; " has only cancelled or superseded lineage for a required context, which never reports a verdict"])
  else if has_state CtxPending coverage then
    (Pending,
     fmt [at_head; " has a reporting run for every required context and at least one is still running"])
  else
    (Satisfied, fmt [at_head; " has a passing reporting run for every required context"]).

Definition recovery_of (status : RequiredRunsStatus) (lineage : option HeadRunLineage)
    (head_sha : string) : RequiredRunsRecovery :=
  match status with
  | MissingRequiredRuns | CancelledSuperseded =>
      match rerequestable_suite lineage head_sha with
      | Some check_suite_id => RerequestCheckSuite check_suite_id
      | None => OperatorAction
      end
  | AwaitingGrace => AwaitGrace
  | _ => RecoveryNone
  end.

(** The early return for a branch that requires nothing. *)
Definition not_required (input : RequiredRunsInput) (policy : RequiredContextsRead)
    : RequiredRunsAssessment :=
  let '(observed_check_suites, observed_runs, stale_head_runs) :=
    lineage_counts (ri_lineage input) (br_oid (ri_head input)) in
  mkRequiredRunsAssessment (ri_pr input) (ri_head input) (ri_base input) NotRequired []
    (Some policy) [] [] observed_check_suites observed_runs stale_head_runs true
    (head_age input) (rk_grace_secs (ri_clock input)) (grace_elapsed_of input) RecoveryNone
    (fmt ["landing branch `"; rr_branch policy;
          "` declares no required status check; required-run coverage cannot stall this head"]).

Definition requires_nothing (policy : RequiredContextsRead) : bool :=
  match rr_checks policy with [] => true | _ => false end && rr_complete policy.

Definition assess (input : RequiredRunsInput) : RequiredRunsAssessment :=
  let policy := normalized (ri_contexts input) in
  let head_sha := br_oid (ri_head input) in
  let '(observed_check_suites, observed_runs, stale_head_runs) :=
    lineage_counts (ri_lineage input) head_sha in
  if requires_nothing policy then not_required input policy else
  let coverage := coverage_list input policy in
  let '(status, reason) := verdict input policy coverage in
  mkRequiredRunsAssessment (ri_pr input) (ri_head input) (ri_base input) status
    (rr_contexts policy) (Some policy) coverage (missing_of coverage)
    observed_check_suites observed_runs stale_head_runs
    (rr_complete policy && lineage_complete input)
    (head_age input) (rk_grace_secs (ri_clock input)) (grace_elapsed_of input)
    (recovery_of status (ri_lineage input) head_sha) reason.

(** ** Receipts *)

Record RequiredRunsRetrigger := mkRequiredRunsRetrigger {
  rt_check_suite_id : N;
  rt_head_oid : CommitOid;
  rt_attempts : N;
  rt_requested : bool;
  rt_rediscovered : bool;
  rt_status_after : RequiredRunsStatus;
  rt_failure : option string }.

Record RequiredRunsProvenance := mkRequiredRunsProvenance {
  pv_owner : string;
  pv_component : string;
  pv_operation_id : OperationId;
  pv_reason : string }.

Definition provenance (operation_id : OperationId) (reason : string) : RequiredRunsProvenance :=
  mkRequiredRunsProvenance REQUIRED_RUNS_OWNER REQUIRED_RUNS_COMPONENT operation_id reason.

Record RequiredRunsReceipt := mkRequiredRunsReceipt {
  rp_schema_version : N;
  rp_repository : RepositoryId;
  rp_caravan_id : PrNumber;
  rp_pr : PrNumber;
  rp_assessment : RequiredRunsAssessment;
  rp_retrigger : option RequiredRunsRetrigger;
  rp_provenance : RequiredRunsProvenance;
  rp_evidence_hash : string }.

Definition with_evidence_hash (r : RequiredRunsReceipt) (h : string) : RequiredRunsReceipt :=
  mkRequiredRunsReceipt (rp_schema_version r) (rp_repository r) (rp_caravan_id r) (rp_pr r)
    (rp_assessment r) (rp_retrigger r) (rp_provenance r) h.

(** ** Problems *)

Inductive MissingRequiredRunsKind :=
| KindMissingRequiredRuns | KindCancelledSuperseded | KindUnknownProviderState.

Definition kind_code (k : MissingRequiredRunsKind) : string :=
  match k with
  | KindMissingRequiredRuns => "missing_required_runs"
  | KindCancelledSuperseded => "cancelled_superseded_required_runs"
  | KindUnknownProviderState => "unknown_required_runs_provider_state"
  end.

Definition operator_action_required (k : MissingRequiredRunsKind) : bool :=
  match k with KindUnknownProviderState => false | _ => true end.

Record MissingRequiredRunsProblem := mkMissingRequiredRunsProblem {
  mp_kind : MissingRequiredRunsKind;
  mp_caravan_id : PrNumber;
  mp_pr : PrNumber;
  mp_head : BranchSnapshot;
  mp_base : BranchSnapshot;
  mp_contexts : list string;
  mp_retrigger : option RequiredRunsRetrigger;
  mp_operator_action_required : bool;
  mp_message : string;
  mp_next : string;
  mp_fingerprint : string }.

Definition problem_kind (status : RequiredRunsStatus) : option MissingRequiredRunsKind :=
  match status with
  | MissingRequiredRuns => Some KindMissingRequiredRuns
  | CancelledSuperseded => Some KindCancelledSuperseded
  | UnknownProviderState => Some KindUnknownProviderState
  | _ => None
  end.

Definition problem_next (kind : MissingRequiredRunsKind) (assessment : RequiredRunsAssessment)
    : string :=
  match kind with
  | KindUnknownProviderState =>
      "rerun the same idempotent bounded sync tick once provider reads are complete; nothing is claimed missing from a partial read"
  | _ =>
      match ra_recovery assessment with
      | RerequestCheckSuite check_suite_id =>
          fmt ["the single auditable rerequest of check suite "; show_N check_suite_id;
               " on unchanged head "; br_oid (ra_head assessment);
               " did not produce reporting lineage; "; REVIEWED_MANUAL_RECOVERY]
      | _ =>
          fmt ["no safe provider retrigger exists for head "; br_oid (ra_head assessment);
               " (zero rerequestable check suites); "; REVIEWED_MANUAL_RECOVERY]
      end
  end.

(** Returns whether the problem was retained, and the list afterwards. *)
Definition push_problem (problems : list MissingRequiredRunsProblem)
    (problem : MissingRequiredRunsProblem) : bool * list MissingRequiredRunsProblem :=
  if existsb (λ existing, String.eqb (mp_fingerprint existing) (mp_fingerprint problem)) problems
  then (false, problems)
  else if MAX_MISSING_REQUIRED_RUNS_PROBLEMS <=? length problems then (false, problems)
  else (true, problems ++ [problem]).

(** ** What is serialized *)

Section serialized.
(** [serde_json::to_vec] on a receipt, and on the fingerprint material (kind,
    PR, head, contexts in ascending order). [None] is a serializer error. *)
Context (receipt_json : RequiredRunsReceipt → option (list N)).
Context (fingerprint_json : string → PrNumber → string → list string → option (list N)).

(** [None] is the panic of [expect]. *)
Definition finalize_hash (self : RequiredRunsReceipt) : option RequiredRunsReceipt :=
  let cleared := with_evidence_hash self EmptyString in
  match receipt_json cleared with
  | Some material => Some (with_evidence_hash cleared (fnv1a64 material))
  | None => None
  end.

Definition hash_is_valid (self : RequiredRunsReceipt) : bool :=
  let expected := rp_evidence_hash self in
  match receipt_json (with_evidence_hash self EmptyString) with
  | Some bytes => String.eqb (fnv1a64 bytes) expected
  | None => false
  end.

Definition receipt (repository : RepositoryId) (caravan_id : PrNumber)
    (assessment : RequiredRunsAssessment) (retrigger : option RequiredRunsRetrigger)
    (prov : RequiredRunsProvenance) : option RequiredRunsReceipt :=
  finalize_hash (mkRequiredRunsReceipt REQUIRED_RUNS_RECEIPT_SCHEMA_VERSION repository
    caravan_id (ra_pr assessment) assessment retrigger prov EmptyString).

Definition fingerprint (kind : MissingRequiredRunsKind) (pr : PrNumber) (head_oid : string)
    (contexts : list string) : option string :=
  let unique := bs_elems (list_to_set contexts : gset string) in
  fnv1a64 <$> fingerprint_json (kind_code kind) pr head_oid unique.

(** [Some None]: no visible problem; [None]: the panic of [expect]. *)
Definition problem (caravan_id : PrNumber) (assessment : RequiredRunsAssessment)
    (retrigger : option RequiredRunsRetrigger) : option (option MissingRequiredRunsProblem) :=
  match problem_kind (ra_status assessment) with
  | None => Some None
  | Some kind =>
      let contexts := match ra_missing_contexts assessment with
                      | [] => ra_required_contexts assessment
                      | missing => missing
                      end in
      (λ fp, Some (mkMissingRequiredRunsProblem kind caravan_id (ra_pr assessment)
         (ra_head assessment) (ra_base assessment) contexts retrigger
         (operator_action_required kind) (ra_reason assessment)
         (problem_next kind assessment) fp))
        <$> fingerprint kind (ra_pr assessment) (br_oid (ra_head assessment)) contexts
  end.
End serialized.

(** ** Lemmas: the normalized policy *)

Lemma merge_contexts_cons x l checks :
  merge_contexts (x :: l) checks =
  merge_contexts l (if existsb (λ check, String.eqb (rc_context check) x) checks then checks
                    else checks ++ [mkRequiredCheck x None]).
Proof. unfold merge_contexts; cbn. by destruct (existsb _ checks). Qed.

Lemma elem_of_merge_contexts contexts checks c :
  c ∈ merge_contexts contexts checks ↔
  c ∈ checks ∨ (rc_app_id c = None ∧ rc_context c ∈ contexts ∧
                ∀ d, d ∈ checks → rc_context d ≠ rc_context c).
Proof.
  revert checks. induction contexts as [|x l IH]; intros checks.
  { cbn. rewrite elem_of_nil. tauto. }
  rewrite merge_contexts_cons, IH, elem_of_cons. clear IH.
  destruct (existsb _ checks) eqn:E.
  - apply existsb_elem_of in E as (d & Hd & Hdx%String.eqb_eq). split; [tauto|].
    intros [H|(H1 & [Hx|H2] & H3)]; [by left| |right; done].
    destruct (H3 d Hd). congruence.
  - rewrite existsb_false_elem_of in E. rewrite elem_of_app, list_elem_of_singleton.
    assert (∀ d, d ∈ checks → rc_context d ≠ x) as Hne.
    { intros d Hd Hx. specialize (E d Hd). rewrite Hx, String.eqb_refl in E. done. }
    split.
    + intros [[H| ->]|(H1 & H2 & H3)]; [by left| |].
      * right. cbn. eauto.
      * right. split_and!; [done|by right|]. intros d Hd. apply H3.
        rewrite elem_of_app. by left.
    + intros [H|(H1 & [Hx|H2] & H3)]; [by left; left| |].
      * left. right. destruct c as [ctx app]; cbn in *. by subst.
      * destruct (decide (rc_context c = x)) as [Hx|Hx].
        { left. right. destruct c as [ctx app]; cbn in *. by subst. }
        right. split_and!; [done|done|].
        intros d [Hd| ->%list_elem_of_singleton]%elem_of_app; [by apply H3|]. cbn. congruence.
Qed.

Lemma merge_contexts_id contexts checks :
  (∀ x, x ∈ contexts → ∃ c, c ∈ checks ∧ rc_context c = x) → merge_contexts contexts checks = checks.
Proof.
  induction contexts as [|x l IH]; intros H; [done|]. rewrite merge_contexts_cons.
  replace (existsb _ checks) with true; [apply IH; intros y Hy; apply H; by right|].
  symmetry. apply existsb_elem_of. destruct (H x) as (c & Hc & Hx); [by left|].
  exists c. split; [done|]. by apply String.eqb_eq.
Qed.

(** The requirements before the diagnostic bound. *)
Definition policy_checks (p : RequiredContextsRead) : list RequiredCheck :=
  vec_dedup (vec_sort (merge_contexts (rr_contexts p) (rr_checks p))).

Lemma elem_of_policy_checks p c :
  c ∈ policy_checks p ↔ c ∈ merge_contexts (rr_contexts p) (rr_checks p).
Proof. unfold policy_checks, vec_sort. by rewrite elem_of_vec_dedup, elem_of_sort_by_key. Qed.

Lemma policy_checks_sorted p :
  StronglySorted (λ a b : RequiredCheck, ord_lt a b = true) (policy_checks p).
Proof. apply vec_dedup_sorted, sort_by_key_sorted. Qed.

Lemma normalized_complete p :
  rr_complete (normalized p) = true →
  rr_complete p = true ∧ length (policy_checks p) ≤ 32 ∧
  existsb (λ check, str_is_empty (rc_context check) || opt_eqb (rc_app_id check) (Some 0%N))
    (policy_checks p) = false.
Proof.
  unfold normalized; cbn. fold (policy_checks p).
  destruct (_ || _) eqn:E; [done|]. intros Hp. bool_prop.
  unfold MAX_REPORTED_CONTEXTS in *. done.
Qed.

Lemma normalized_complete_checks p :
  rr_complete (normalized p) = true → rr_checks (normalized p) = policy_checks p.
Proof. intros (_ & Hlen & _)%normalized_complete. cbn. fold (policy_checks p). by apply take_ge. Qed.

Lemma normalized_checks_bounded p : length (rr_checks (normalized p)) ≤ MAX_REPORTED_CONTEXTS.
Proof. cbn. rewrite length_take. lia. Qed.

(** A normalized policy that is still complete states exactly the declared
    requirements: every typed declaration, and every legacy context that no
    typed declaration refines, each once in ascending order; nothing else is
    required, no requirement is dropped, and normalizing again changes nothing. *)
Theorem normalized_exact p :
  rr_complete (normalized p) = true →
  rr_complete p = true ∧
  (∀ c, c ∈ rr_checks (normalized p) ↔
        c ∈ rr_checks p ∨
        (rc_app_id c = None ∧ rc_context c ∈ rr_contexts p ∧
         ∀ d, d ∈ rr_checks p → rc_context d ≠ rc_context c)) ∧
  StronglySorted (λ a b, ord_lt a b = true) (rr_checks (normalized p)) ∧
  normalized (normalized p) = normalized p.
Proof.
  intros Hc. pose proof (normalized_complete_checks p Hc) as Hchecks.
  destruct (normalized_complete p Hc) as (Hp & Hlen & Hbad).
  split_and!; [done| | |].
  - intros c. by rewrite Hchecks, elem_of_policy_checks, elem_of_merge_contexts.
  - rewrite Hchecks. apply policy_checks_sorted.
  - assert (length (vec_dedup (vec_sort (rc_context <$> policy_checks p))) ≤ 32) as Hctx.
    { etrans; [apply length_vec_dedup|]. unfold vec_sort.
      by rewrite length_sort_by_key, length_fmap. }
    assert (normalized p = mkRequiredContextsRead (rr_branch p) (rr_protected p)
      (vec_dedup (vec_sort (rc_context <$> policy_checks p))) (policy_checks p) true) as Hn.
    { pose proof Hc as Hc'. unfold normalized in Hc' |- *; cbn in Hc' |- *.
      fold (policy_checks p) in Hc' |- *. rewrite Hc'. f_equal; by apply take_ge. }
    rewrite Hn at 1. unfold normalized at 1; cbn.
    rewrite merge_contexts_id.
    2:{ intros x. rewrite elem_of_vec_dedup. unfold vec_sort.
        rewrite elem_of_sort_by_key, list_elem_of_fmap. intros (c & -> & Hin). eauto. }
    assert (vec_dedup (vec_sort (policy_checks p)) = policy_checks p) as ->.
    { unfold vec_sort. rewrite sort_by_key_id by apply strictly_sorted_le, policy_checks_sorted.
      apply vec_dedup_id, policy_checks_sorted. }
    rewrite Hbad. unfold MAX_REPORTED_CONTEXTS. rewrite (proj2 (Nat.ltb_ge _ _) Hlen); cbn.
    rewrite !take_ge by lia. done.
Qed.

Lemma normalized_exact_witness :
  let p := mkRequiredContextsRead "main" true ["lint"; "build"]
             [mkRequiredCheck "build" (Some 15368%N)] true in
  rr_complete (normalized p) = true ∧ normalized (normalized p) = normalized p ∧
  rr_checks (normalized p) = [mkRequiredCheck "build" (Some 15368%N); mkRequiredCheck "lint" None].
Proof.
  cbn zeta. split; [vm_compute; reflexivity|]. split; [|vm_compute; reflexivity].
  apply (normalized_exact (mkRequiredContextsRead "main" true ["lint"; "build"]
             [mkRequiredCheck "build" (Some 15368%N)] true)).
  vm_compute. reflexivity.
Defined.

(** ** Lemmas: bounded lineage *)

Section newest_rows.
Context {A : Type} (key : A → N).

(** The retained rows, newest first. *)
Definition newest_rows (l : list A) : list A :=
  dedup_by_key key (sort_by_key (λ a, mkReverse (key a)) l).
(** The retained rows as [bounded] stores them. *)
Definition keep_newest (l : list A) : list A :=
  sort_by_key key (take MAX_REPORTED_LINEAGE (newest_rows l)).

Lemma newest_rows_sorted l :
  StronglySorted (λ a b, (key b < key a)%N) (newest_rows l).
Proof.
  pose proof (dedup_by_key_sorted (λ a, mkReverse (key a)) _
                (sort_by_key_sorted (λ a, mkReverse (key a)) l)) as Hs.
  rewrite dedup_by_key_Reverse in Hs. fold (newest_rows l) in Hs. induction Hs as [|x k Hk IH Hx]; constructor; [done|].
  eapply Forall_impl; [exact Hx|]. cbn. intros y Hy. unfold ord_lt, ord_le in Hy; cbn in Hy.
  unfold ord_le, ord_N in Hy. apply negb_true_iff, N.leb_gt in Hy. done.
Qed.

Lemma keep_newest_subset x l : x ∈ keep_newest l → x ∈ l.
Proof.
  unfold keep_newest. rewrite elem_of_sort_by_key. intros Hx.
  eapply elem_of_sublist in Hx; [|apply sublist_take].
  apply dedup_by_key_subset in Hx. by rewrite elem_of_sort_by_key in Hx.
Qed.

Lemma length_keep_newest l : length (keep_newest l) ≤ MAX_REPORTED_LINEAGE.
Proof. unfold keep_newest. rewrite length_sort_by_key, length_take. lia. Qed.

Lemma keep_newest_newest x l :
  x ∈ l →
  (∃ y, y ∈ keep_newest l ∧ key y = key x) ∨
  (length (keep_newest l) = MAX_REPORTED_LINEAGE ∧ ∀ y, y ∈ keep_newest l → (key x < key y)%N).
Proof.
  intros Hx. rewrite <-(elem_of_sort_by_key (λ a, mkReverse (key a))) in Hx.
  destruct (dedup_by_key_covers key _ _ Hx) as (z & Hz & Hzx).
  fold (newest_rows l) in Hz. unfold keep_newest.
  rewrite <-(take_drop MAX_REPORTED_LINEAGE (newest_rows l)), elem_of_app in Hz.
  destruct Hz as [Hz|Hz].
  - left. exists z. by rewrite elem_of_sort_by_key.
  - right. split.
    + rewrite length_sort_by_key, length_take_le; [done|].
      assert (0 < length (drop MAX_REPORTED_LINEAGE (newest_rows l))) as Hl.
      { destruct (drop _ _); [by apply elem_of_nil in Hz|cbn; lia]. }
      rewrite length_drop in Hl. lia.
    + intros y Hy. rewrite elem_of_sort_by_key in Hy. rewrite <-Hzx.
      eapply (StronglySorted_app_l_r (λ a b, (key b < key a)%N)); [|exact Hy|exact Hz].
      rewrite take_drop. apply newest_rows_sorted.
Qed.

Lemma keep_newest_all l :
  length l ≤ MAX_REPORTED_LINEAGE → NoDup (key <$> l) → keep_newest l ≡ₚ l.
Proof.
  intros Hlen Hnd. unfold keep_newest, newest_rows.
  rewrite <-dedup_by_key_Reverse, sort_by_key_Permutation, dedup_by_key_id.
  - rewrite take_ge; [apply sort_by_key_Permutation|]. by rewrite length_sort_by_key.
  - apply sorted_NoDup_strict; [|apply sort_by_key_sorted].
    rewrite sort_by_key_Permutation, (list_fmap_compose key mkReverse). apply NoDup_fmap_2; [|done].
    by intros ? ? [=].
Qed.

Lemma keep_newest_keys_sorted l : StronglySorted (λ a b, (key a ≤ key b)%N) (keep_newest l).
Proof.
  unfold keep_newest. generalize (sort_by_key_sorted key (take MAX_REPORTED_LINEAGE (newest_rows l))).
  induction 1 as [|x k Hk IH Hx]; constructor; [done|].
  eapply Forall_impl; [exact Hx|]. intros y Hy. by apply N.leb_le.
Qed.
End newest_rows.

Lemma has_duplicate_ids_false l : has_duplicate_ids l = false ↔ NoDup l.
Proof.
  unfold has_duplicate_ids. rewrite negb_false_iff, Nat.eqb_eq. apply size_list_to_set_NoDup.
Qed.

Lemma bounded_rows self :
  hl_check_suites (bounded self) = keep_newest cs_id (hl_check_suites self) ∧
  hl_workflow_runs (bounded self) = keep_newest wr_run_id (hl_workflow_runs self).
Proof. done. Qed.

(** The diagnostic bound on lineage keeps the newest generations: every row
    is retained up to its id or is older than all of the 32 retained rows, and
    a lineage that still claims completeness has lost nothing at all. *)
Theorem bounded_keeps_newest self :
  (∀ suite, suite ∈ hl_check_suites self →
     (∃ kept, kept ∈ hl_check_suites (bounded self) ∧ cs_id kept = cs_id suite) ∨
     (length (hl_check_suites (bounded self)) = MAX_REPORTED_LINEAGE ∧
      ∀ kept, kept ∈ hl_check_suites (bounded self) → (cs_id suite < cs_id kept)%N)) ∧
  (∀ run, run ∈ hl_workflow_runs self →
     (∃ kept, kept ∈ hl_workflow_runs (bounded self) ∧ wr_run_id kept = wr_run_id run) ∨
     (length (hl_workflow_runs (bounded self)) = MAX_REPORTED_LINEAGE ∧
      ∀ kept, kept ∈ hl_workflow_runs (bounded self) → (wr_run_id run < wr_run_id kept)%N)) ∧
  length (hl_check_suites (bounded self)) ≤ MAX_REPORTED_LINEAGE ∧
  length (hl_workflow_runs (bounded self)) ≤ MAX_REPORTED_LINEAGE ∧
  (hl_complete (bounded self) = true →
     hl_complete self = true ∧
     hl_check_suites (bounded self) ≡ₚ hl_check_suites self ∧
     hl_workflow_runs (bounded self) ≡ₚ hl_workflow_runs self).
Proof.
  destruct (bounded_rows self) as [-> ->].
  split_and!; [intros ?; apply keep_newest_newest..|apply length_keep_newest|apply length_keep_newest|].
  unfold bounded; cbn zeta; cbn [hl_complete].
  case_match eqn:E; [done|]. intros Hc. bool_prop.
  repeat match goal with H : has_duplicate_ids _ = false |- _ => apply has_duplicate_ids_false in H end.
  split_and!; [done|by apply keep_newest_all..].
Qed.

(** ** Lemmas: the verdict *)

Lemma coverage_list_all input contexts :
  coverage_list input (normalized contexts) = coverage_of input <$> rr_checks (normalized contexts).
Proof.
  unfold coverage_list. apply take_ge. rewrite length_fmap. apply normalized_checks_bounded.
Qed.

Definition cov_state_of (input : RequiredRunsInput) (required : RequiredCheck)
    : RequiredContextState :=
  match state_from_checks (current_matching input required) with
  | Some (state, _) => state
  | None => state_from_lineage (ri_lineage input) (br_oid (ri_head input))
  end.

Lemma coverage_of_state input required :
  cov_state (coverage_of input required) = cov_state_of input required ∧
  cov_context (coverage_of input required) = rc_context required.
Proof. unfold coverage_of, cov_state_of. by destruct (state_from_checks _) as [[? ?]|]. Qed.

Lemma has_state_coverage s input contexts :
  has_state s (coverage_list input (normalized contexts)) = true ↔
  ∃ required, required ∈ rr_checks (normalized contexts) ∧ cov_state_of input required = s.
Proof.
  rewrite coverage_list_all. unfold has_state. rewrite existsb_elem_of. split.
  - intros (item & Hin & Hs%bool_decide_eq_true_1).
    apply list_elem_of_fmap in Hin as (required & -> & Hr).
    exists required. by rewrite <-(proj1 (coverage_of_state _ _)).
  - intros (required & Hr & Hs). exists (coverage_of input required). split.
    + by apply list_elem_of_fmap_2.
    + apply bool_decide_eq_true_2. by rewrite (proj1 (coverage_of_state _ _)).
Qed.

Lemma has_state_coverage_false s input contexts :
  has_state s (coverage_list input (normalized contexts)) = false ↔
  ∀ required, required ∈ rr_checks (normalized contexts) → cov_state_of input required ≠ s.
Proof.
  rewrite <-not_true_iff_false, has_state_coverage. split.
  - intros H r Hr Hs. apply H. eauto.
  - intros H (r & Hr & Hs). by apply (H r).
Qed.

Lemma elem_of_missing_of context input contexts :
  context ∈ missing_of (coverage_list input (normalized contexts)) ↔
  ∃ required, required ∈ rr_checks (normalized contexts) ∧ rc_context required = context ∧
    cov_state_of input required = CtxMissing.
Proof.
  rewrite coverage_list_all. unfold missing_of. rewrite list_elem_of_fmap. split.
  - intros (item & -> & Hin). apply elem_of_list_filter_b in Hin as [Hin Hs%bool_decide_eq_true_1].
    apply list_elem_of_fmap in Hin as (required & -> & Hr).
    destruct (coverage_of_state input required) as [Hst Hctx]. exists required. by rewrite <-Hst, Hctx.
  - intros (required & Hr & <- & Hs). destruct (coverage_of_state input required) as [Hst Hctx].
    exists (coverage_of input required). rewrite elem_of_list_filter_b, Hctx. split_and!; [done| |].
    + by apply list_elem_of_fmap_2.
    + apply bool_decide_eq_true_2. by rewrite Hst.
Qed.

(** What a context state says about the rows it was read from. *)
Lemma state_from_checks_cases rows :
  match state_from_checks rows with
  | None => ∀ c, c ∈ rows → ck_state c = CheckExpected
  | Some (state, _) =>
      (∃ c, c ∈ rows ∧ ck_state c ≠ CheckExpected) ∧
      match state with
      | CtxPassing => ∀ c, c ∈ rows → ck_state c = CheckExpected ∨ ck_state c = CheckSuccess ∨
                                      ck_state c = CheckNeutral ∨ ck_state c = CheckSkipped
      | CtxFailing => ∃ c, c ∈ rows ∧ is_failing_state (ck_state c) = true
      | CtxMissing => False
      | CtxUnknown => ∃ c, c ∈ rows ∧ ck_state c = CheckUnknown
      | CtxCancelledSuperseded | CtxPending =>
          ∀ c, c ∈ rows → is_failing_state (ck_state c) = false
      end
  end.
Proof.
  unfold state_from_checks. set (rep := List.filter is_reporting rows).
  assert (∀ c, c ∈ rep ↔ c ∈ rows ∧ ck_state c ≠ CheckExpected) as Hrep.
  { intros c. unfold rep, is_reporting. rewrite elem_of_list_filter_b, negb_true_iff.
    by rewrite bool_decide_eq_false. }
  destruct rep as [|first rest].
  { intros c Hc. destruct (decide (ck_state c = CheckExpected)) as [|Hne]; [done|].
    exfalso. by eapply elem_of_nil, (proj2 (Hrep c)). }
  assert (∃ c, c ∈ rows ∧ ck_state c ≠ CheckExpected) as Hsome.
  { exists first. apply Hrep. by left. }
  destruct (List.find _ (first :: rest)) as [u|] eqn:Hu.
  { apply find_some_iff in Hu as [Hin Hs%bool_decide_eq_true_1].
    split; [done|]. exists u. split; [by apply Hrep|done]. }
  split; [done|].
  assert (∀ c, c ∈ rows → ck_state c ≠ CheckUnknown) as Hun.
  { intros c Hc Hs. assert (c ∈ first :: rest) as Hin by (apply Hrep; by rewrite Hs).
    pose proof (find_none_iff _ _ Hu c Hin) as Hf.
    by apply bool_decide_eq_false_1 in Hf. }
  assert (∀ (p : CheckState → bool), p CheckExpected = false →
    existsb (λ c, p (ck_state c)) (first :: rest) = false → ∀ c, c ∈ rows → p (ck_state c) = false) as Hall.
  { intros p Hp Hex c Hc. rewrite existsb_false_elem_of in Hex.
    destruct (decide (ck_state c = CheckExpected)) as [->|Hne]; [done|].
    apply Hex, Hrep. done. }
  destruct (existsb _ (first :: rest)) eqn:Hf.
  { apply existsb_elem_of in Hf as (c & Hc & Hs). exists c. split; [by apply Hrep|done]. }
  pose proof (Hall is_failing_state eq_refl Hf) as Hnf.
  destruct (existsb _ (first :: rest)) eqn:Hca in |- *; [exact Hnf|].
  pose proof (Hall (λ s, bool_decide (s = CheckCancelled)) eq_refl Hca) as Hnc.
  destruct (existsb _ (first :: rest)) eqn:Hr in |- *; [exact Hnf|].
  pose proof (Hall is_running_state eq_refl Hr) as Hnr.
  intros c Hc. specialize (Hnf c Hc). specialize (Hnc c Hc). specialize (Hnr c Hc).
  specialize (Hun c Hc). cbn in Hnc. apply bool_decide_eq_false_1 in Hnc.
  destruct (ck_state c); cbn in *; auto; done.
Qed.

Lemma assess_unfold input :
  requires_nothing (normalized (ri_contexts input)) = false →
  let policy := normalized (ri_contexts input) in
  let coverage := coverage_list input policy in
  ra_status (assess input) = (verdict input policy coverage).1 ∧
  ra_missing_contexts (assess input) = missing_of coverage ∧
  ra_coverage (assess input) = coverage ∧
  ra_recovery (assess input) =
    recovery_of (verdict input policy coverage).1 (ri_lineage input) (br_oid (ri_head input)).
Proof.
  cbn zeta. intros Hr. unfold assess. destruct (lineage_counts _ _) as [[? ?] ?].
  rewrite Hr. by destruct (verdict _ _ _) as [? ?].
Qed.

Lemma assess_not_required input :
  requires_nothing (normalized (ri_contexts input)) = true →
  ra_status (assess input) = NotRequired ∧ ra_missing_contexts (assess input) = [] ∧
  ra_recovery (assess input) = RecoveryNone.
Proof.
  intros Hr. unfold assess. destruct (lineage_counts _ _) as [[? ?] ?] eqn:E.
  rewrite Hr. unfold not_required. rewrite E. done.
Qed.

(** The verdict as a decision list over the coverage. *)
Definition verdict_status (input : RequiredRunsInput) (policy : RequiredContextsRead)
    (coverage : list RequiredContextCoverage) : RequiredRunsStatus :=
  if has_state CtxUnknown coverage || negb (rr_complete policy && lineage_complete input)
  then UnknownProviderState
  else match missing_of coverage with
       | _ :: _ =>
           match head_age input with
           | None => UnknownProviderState
           | Some age => if (rk_grace_secs (ri_clock input) <=? age)%N
                         then MissingRequiredRuns else AwaitingGrace
           end
       | [] =>
           if has_state CtxFailing coverage then Failing
           else if has_state CtxCancelledSuperseded coverage then CancelledSuperseded
           else if has_state CtxPending coverage then Pending else Satisfied
       end.

Lemma verdict_fst input policy coverage :
  (verdict input policy coverage).1 = verdict_status input policy coverage.
Proof.
  unfold verdict, verdict_status, grace_elapsed_of, is_none_b.
  destruct (lineage_counts _ _) as [[? ?] ?].
  destruct (_ || _); [done|]. destruct (missing_of coverage).
  - by repeat (case_match; [done|]).
  - destruct (head_age input); cbn; [|done]. by case_match.
Qed.

Lemma elem_of_usable_lineage o head l :
  usable_lineage o head = Some l ↔
  o = Some l ∧ hl_complete l = true ∧ hl_head_sha l = head.
Proof.
  unfold usable_lineage. destruct o as [l'|]; cbn; [|by split; [|intros [? _]]].
  destruct (hl_complete l') eqn:Hc, (String.eqb_spec (hl_head_sha l') head); cbn; split;
    [intros [= <-]; done|by intros ([= ->] & _)|..]; try done;
    intros ([= <-] & ? & ?); congruence.
Qed.

(** [missing_required_runs] is only ever claimed on proof. All provider
    reads are complete, a head age is known and has reached the grace period,
    and each context named missing is required, has no reporting row on this
    head, and no check suite or workflow run of this head is live or abandoned. *)
Theorem missing_only_when_proven input :
  ra_status (assess input) = MissingRequiredRuns →
  rr_complete (normalized (ri_contexts input)) = true ∧
  (∃ age, head_age input = Some age ∧ (rk_grace_secs (ri_clock input) ≤ age)%N) ∧
  ra_missing_contexts (assess input) ≠ [] ∧
  ∃ lineage, ri_lineage input = Some lineage ∧ hl_complete lineage = true ∧
    (∀ suite, suite ∈ suites_on lineage (br_oid (ri_head input)) →
       lineage_is_live (cs_status suite) (cs_conclusion suite) = false ∧
       lineage_is_abandoned (cs_conclusion suite) = false) ∧
    (∀ run, run ∈ runs_on lineage (br_oid (ri_head input)) →
       lineage_is_live (wr_status run) (wr_conclusion run) = false ∧
       lineage_is_abandoned (wr_conclusion run) = false) ∧
    ∀ context, context ∈ ra_missing_contexts (assess input) →
      ∃ required, required ∈ rr_checks (normalized (ri_contexts input)) ∧
        rc_context required = context ∧
        ∀ check, check ∈ current_matching input required → ck_state check = CheckExpected.
Proof.
  destruct (requires_nothing (normalized (ri_contexts input))) eqn:Hr.
  { by destruct (assess_not_required input Hr) as (-> & _). }
  destruct (assess_unfold input Hr) as (-> & -> & _). rewrite verdict_fst. unfold verdict_status.
  set (policy := normalized (ri_contexts input)).
  destruct (has_state CtxUnknown _ || _) eqn:Hu; [done|].
  assert (∀ x, x ∈ missing_of (coverage_list input policy) →
    ∃ required, required ∈ rr_checks policy ∧ rc_context required = x ∧
      state_from_checks (current_matching input required) = None ∧
      state_from_lineage (ri_lineage input) (br_oid (ri_head input)) = CtxMissing) as Hx.
  { intros x (required & Hin & Hctx & Hs)%elem_of_missing_of. exists required.
    unfold cov_state_of in Hs. pose proof (state_from_checks_cases (current_matching input required)) as Hc.
    destruct (state_from_checks _) as [[st ?]|]; [|done]. subst st. by destruct Hc. }
  destruct (missing_of _) as [|x xs] eqn:Hm; [by repeat case_match|].
  destruct (head_age input) as [age|] eqn:Ha; [|done].
  destruct (N.leb_spec (rk_grace_secs (ri_clock input)) age) as [Hg|]; [|done]. intros _.
  apply orb_false_iff in Hu as [_ [Hpc Hlc]%negb_false_iff%andb_true_iff].
  split_and!; [done|eauto|done|].
  destruct (Hx x ltac:(by left)) as (_ & _ & _ & _ & Hl). unfold state_from_lineage in Hl.
  destruct (ri_lineage input) as [lineage|] eqn:Hlin; [|done]. exists lineage.
  destruct (_ || _) eqn:Hlive; [done|]. destruct (_ || _) eqn:Hab in Hl; [done|].
  apply orb_false_iff in Hlive as [Hls Hlr], Hab as [Has Har].
  rewrite !existsb_false_elem_of in Hls. rewrite !existsb_false_elem_of in Hlr.
  rewrite !existsb_false_elem_of in Has. rewrite !existsb_false_elem_of in Har.
  unfold lineage_complete in Hlc. rewrite Hlin in Hlc.
  split_and!; [done|done|auto|auto|].
  intros context Hin. destruct (Hx context Hin) as (required & Hrin & Hctx & Hn & _).
  exists required. split_and!; [done..|].
  pose proof (state_from_checks_cases (current_matching input required)) as Hc. by rewrite Hn in Hc.
Qed.

(** [satisfied] means what it says: every provider read was complete and
    each required context of the landing branch has a current reporting row on
    this head, all of whose current rows succeeded, were neutral, or skipped. *)
Theorem satisfied_only_when_passing input :
  ra_status (assess input) = Satisfied →
  rr_complete (normalized (ri_contexts input)) = true ∧
  (∀ lineage, ri_lineage input = Some lineage → hl_complete lineage = true) ∧
  ∀ required, required ∈ rr_checks (normalized (ri_contexts input)) →
    (∃ check, check ∈ current_matching input required ∧ ck_state check ≠ CheckExpected) ∧
    ∀ check, check ∈ current_matching input required →
      ck_state check = CheckExpected ∨ ck_state check = CheckSuccess ∨
      ck_state check = CheckNeutral ∨ ck_state check = CheckSkipped.
Proof.
  destruct (requires_nothing (normalized (ri_contexts input))) eqn:Hr.
  { by destruct (assess_not_required input Hr) as (-> & _). }
  destruct (assess_unfold input Hr) as (-> & _). rewrite verdict_fst. unfold verdict_status.
  destruct (has_state CtxUnknown _ || _) eqn:Hu; [done|].
  destruct (missing_of _) as [|x xs] eqn:Hm; [|by repeat case_match].
  destruct (has_state CtxFailing _) eqn:Hf; [done|].
  destruct (has_state CtxCancelledSuperseded _) eqn:Hca; [done|].
  destruct (has_state CtxPending _) eqn:Hp; [done|]. intros _.
  apply orb_false_iff in Hu as [Hun [Hpc Hlc]%negb_false_iff%andb_true_iff].
  split_and!; [done| |].
  { intros l Hl. unfold lineage_complete in Hlc. by rewrite Hl in Hlc. }
  intros required Hin.
  rewrite has_state_coverage_false in Hun. rewrite has_state_coverage_false in Hf.
  rewrite has_state_coverage_false in Hca. rewrite has_state_coverage_false in Hp.
  specialize (Hun required Hin). specialize (Hf required Hin). specialize (Hca required Hin).
  specialize (Hp required Hin). unfold cov_state_of in *.
  pose proof (state_from_checks_cases (current_matching input required)) as Hc.
  destruct (state_from_checks _) as [[st ?]|] eqn:Hs.
  - destruct Hc as [Hsome Hst]. split; [done|]. by destruct st.
  - exfalso. destruct (state_from_lineage _ _) eqn:Hl; try done.
    + unfold state_from_lineage in Hl. by repeat case_match.
    + assert (rc_context required ∈ []) as Hnil.
      { rewrite <-Hm. apply elem_of_missing_of. exists required. unfold cov_state_of. by rewrite Hs. }
      by apply elem_of_nil in Hnil.
Qed.

(** A suite is only rerequested on the unchanged head, and only when it is
    the single rerequestable suite a complete lineage read lists for that head;
    nothing but a proven absence of runs leads there, and under
    [cancelled_superseded] no required context has a current failing row. *)
Theorem rerequest_is_unambiguous input id :
  ra_recovery (assess input) = RerequestCheckSuite id →
  (∃ lineage suite, ri_lineage input = Some lineage ∧ hl_complete lineage = true ∧
     hl_head_sha lineage = br_oid (ri_head input) ∧ suite ∈ hl_check_suites lineage ∧
     cs_id suite = id ∧
     List.filter (λ s, String.eqb (cs_head_sha s) (br_oid (ri_head input)) && cs_rerequestable s)
       (hl_check_suites lineage) = [suite]) ∧
  (ra_status (assess input) = MissingRequiredRuns ∨
   ra_status (assess input) = CancelledSuperseded ∧
   ∀ required check, required ∈ rr_checks (normalized (ri_contexts input)) →
     check ∈ current_matching input required → is_failing_state (ck_state check) = false).
Proof.
  destruct (requires_nothing (normalized (ri_contexts input))) eqn:Hr.
  { by destruct (assess_not_required input Hr) as (_ & _ & ->). }
  destruct (assess_unfold input Hr) as (-> & _ & _ & ->). rewrite verdict_fst.
  set (st := verdict_status _ _ _) in *. intros Hrec. split.
  - assert (rerequestable_suite (ri_lineage input) (br_oid (ri_head input)) = Some id) as Hs.
    { unfold recovery_of in Hrec.
      destruct st; try done; destruct (rerequestable_suite _ _); congruence. }
    unfold rerequestable_suite in Hs. destruct (usable_lineage _ _) as [lineage|] eqn:Hu; [|done].
    apply elem_of_usable_lineage in Hu as (Hl & Hc & Hh).
    destruct (List.filter _ _) as [|suite [|other rest]] eqn:Hfil; try done.
    exists lineage, suite. injection Hs as <-. split_and!; [done..| |done|done].
    assert (suite ∈ [suite]) as Hin by (by left). rewrite <-Hfil in Hin.
    by apply elem_of_list_filter_b in Hin as [? _].
  - destruct st eqn:Hst; try done; [|by left]. right. split; [done|].
    unfold st, verdict_status in Hst.
    destruct (has_state CtxUnknown _ || _) eqn:Hu; [done|].
    apply orb_false_iff in Hu as [Hun _].
    destruct (missing_of _) as [|x xs] eqn:Hm; [|by repeat case_match].
    destruct (has_state CtxFailing _) eqn:Hf; [done|].
    intros required check Hin Hcheck. rewrite has_state_coverage_false in Hf.
    rewrite has_state_coverage_false in Hun. specialize (Hun required Hin).
    specialize (Hf required Hin). unfold cov_state_of in Hf, Hun.
    pose proof (state_from_checks_cases (current_matching input required)) as Hc.
    destruct (state_from_checks _) as [[s ?]|]; [|by rewrite (Hc check Hcheck)].
    destruct Hc as [_ Hc]. destruct s; try done; [|by apply Hc..].
    by destruct (Hc check Hcheck) as [->|[->|[->| ->]]].
Qed.

Definition with_now (input : RequiredRunsInput) (now : N) : RequiredRunsInput :=
  mkRequiredRunsInput (ri_pr input) (ri_head input) (ri_base input) (ri_contexts input)
    (ri_lineage input) (ri_checks input) (ri_head_published_at input)
    (mkRequiredRunsClock now (rk_grace_secs (ri_clock input))).

(** The clock decides nothing but the end of the grace period: as time
    passes on otherwise unchanged evidence the status stays the same or moves
    from [awaiting_grace] to [missing_required_runs], and once there it stays. *)
Theorem time_only_ends_the_grace input t1 t2 :
  (t1 ≤ t2)%N →
  ra_status (assess (with_now input t1)) = ra_status (assess (with_now input t2)) ∨
  ra_status (assess (with_now input t1)) = AwaitingGrace ∧
  ra_status (assess (with_now input t2)) = MissingRequiredRuns.
Proof.
  intros Hle. destruct (requires_nothing (normalized (ri_contexts input))) eqn:Hr.
  { destruct (assess_not_required (with_now input t1) Hr) as (-> & _).
    destruct (assess_not_required (with_now input t2) Hr) as (-> & _). by left. }
  destruct (assess_unfold (with_now input t1) Hr) as (-> & _).
  destruct (assess_unfold (with_now input t2) Hr) as (-> & _).
  rewrite !verdict_fst. unfold verdict_status.
  change (coverage_list (with_now input t1) (normalized (ri_contexts (with_now input t1))))
    with (coverage_list input (normalized (ri_contexts input))).
  change (coverage_list (with_now input t2) (normalized (ri_contexts (with_now input t2))))
    with (coverage_list input (normalized (ri_contexts input))).
  cbn [with_now ri_contexts ri_clock rk_grace_secs].
  change (lineage_complete (with_now input t1)) with (lineage_complete input).
  change (lineage_complete (with_now input t2)) with (lineage_complete input).
  destruct (has_state CtxUnknown _ || _); [by left|].
  destruct (missing_of _); [by left|].
  unfold head_age, sat_sub; cbn [with_now ri_head_published_at ri_lineage ri_clock rk_now_unix].
  destruct (opt_or _ _) as [stamp|]; [|by left].
  destruct (rfc3339_to_unix_secs stamp) as [p|]; cbn; [|by left].
  destruct (N.leb_spec (rk_grace_secs (ri_clock input)) (t1 - p));
    destruct (N.leb_spec (rk_grace_secs (ri_clock input)) (t2 - p)); auto; lia.
Qed.

(** ** Problems *)

Definition problems_wf (problems : list MissingRequiredRunsProblem) : Prop :=
  NoDup (mp_fingerprint <$> problems) ∧ length problems ≤ MAX_MISSING_REQUIRED_RUNS_PROBLEMS.

(** The problem list stays deduplicated by fingerprint and bounded; a
    problem is retained, at the end, exactly when its fingerprint is new and the
    list has room, and otherwise the list is untouched. *)
Theorem push_problem_wf problems p :
  problems_wf problems →
  let '(retained, problems') := push_problem problems p in
  problems_wf problems' ∧
  problems' = (if retained then (problems ++ [p]) else problems) ∧
  (retained = true ↔ (mp_fingerprint p ∉ (mp_fingerprint <$> problems)) ∧
                     length problems < MAX_MISSING_REQUIRED_RUNS_PROBLEMS).
Proof.
  intros [Hnd Hlen]. unfold push_problem.
  destruct (existsb _ problems) eqn:He.
  { split_and!; [done..|]. split; [done|]. intros [Hnew _]. exfalso. apply Hnew.
    apply existsb_elem_of in He as (q & Hq & Heq%String.eqb_eq).
    rewrite <-Heq. by apply list_elem_of_fmap_2. }
  assert (mp_fingerprint p ∉ mp_fingerprint <$> problems) as Hnew.
  { intros (q & Heq & Hq)%list_elem_of_fmap. rewrite existsb_false_elem_of in He.
    specialize (He q Hq). rewrite Heq, String.eqb_refl in He. done. }
  destruct (Nat.leb_spec MAX_MISSING_REQUIRED_RUNS_PROBLEMS (length problems)).
  { split_and!; [done..|]. split; [done|]. intros [_ ?]. lia. }
  split_and!; [|done|done]. split.
  - rewrite fmap_app. apply NoDup_app. split_and!; [done| |apply NoDup_singleton].
    intros x Hx ->%list_elem_of_singleton. done.
  - rewrite length_app; cbn. lia.
Qed.

(** ** Sealed receipts *)

(** Sealing is checkable and stable: with any serializer, a receipt that
    was built verifies, sealing it again gives it back, and a receipt that
    carries the same seal over a body with another digest does not verify. *)
Theorem receipt_hash_roundtrip json repository caravan_id assessment retrigger prov r :
  receipt json repository caravan_id assessment retrigger prov = Some r →
  hash_is_valid json r = true ∧ finalize_hash json r = Some r ∧
  rp_assessment r = assessment ∧ rp_pr r = ra_pr assessment ∧
  ∀ r' bytes bytes', rp_evidence_hash r' = rp_evidence_hash r →
    json (with_evidence_hash r EmptyString) = Some bytes →
    json (with_evidence_hash r' EmptyString) = Some bytes' →
    fnv1a64 bytes ≠ fnv1a64 bytes' → hash_is_valid json r' = false.
Proof.
  unfold receipt, finalize_hash.
  set (cleared := mkRequiredRunsReceipt _ _ _ _ _ _ _ EmptyString).
  change (with_evidence_hash cleared EmptyString) with cleared.
  destruct (json cleared) as [material|] eqn:Hj; [|done]. intros [= <-].
  assert (∀ h, with_evidence_hash (with_evidence_hash cleared h) EmptyString = cleared) as Hc by done.
  unfold hash_is_valid. rewrite !Hc, Hj. split_and!; [apply String.eqb_refl|done..|].
  intros r' bytes bytes' Hseal [= <-] -> Hne. rewrite Hseal.
  apply String.eqb_neq. by apply not_eq_sym.
Qed.

(** ** The civil calendar *)

#[local] Open Scope Z_scope.

Definition is_leap (year : Z) : bool :=
  (year mod 4 =? 0) && (negb (year mod 100 =? 0) || (year mod 400 =? 0)).
Definition days_in_month (year month : Z) : Z :=
  if (month =? 2) then (if is_leap year then 29 else 28)
  else if (month =? 4) || (month =? 6) || (month =? 9) || (month =? 11) then 30 else 31.
Definition valid_date (d : Z * Z * Z) : Prop :=
  let '(year, month, day) := d in 1 ≤ month ≤ 12 ∧ 1 ≤ day ≤ days_in_month year month.
Definition next_date (d : Z * Z * Z) : Z * Z * Z :=
  let '(year, month, day) := d in
  if day <? days_in_month year month then (year, month, day + 1)
  else if month <? 12 then (year, month + 1, 1) else (year + 1, 1, 1).
Definition days_of (d : Z * Z * Z) : Z := let '(y, m, day) := d in days_from_civil y m day.

(** Days of the year, counted from March, before the month begins. *)
Definition month_offset (month : Z) : Z := (153 * ((month + 9) mod 12) + 2) / 5.
Ltac eval_offsets :=
  repeat match goal with
  | |- context [month_offset ?m] =>
      let v := eval vm_compute in (month_offset m) in change (month_offset m) with v
  | |- context [?m <=? 2] =>
      let v := eval vm_compute in (m <=? 2) in change (m <=? 2) with v
  end.

(** The day number with floor division throughout. *)
Lemma days_from_civil_floor year month day :
  1 ≤ month ≤ 12 →
  days_from_civil year month day =
  let y := if month <=? 2 then year - 1 else year in
  365 * y + y / 4 - y / 100 + y / 400
  + month_offset month + day - 1 - 719468.
Proof.
  intros Hm. unfold days_from_civil, month_offset; cbn zeta.
  set (y := if month <=? 2 then year - 1 else year).
  assert (Z.quot (if 0 <=? y then y else y - 399) 400 = y / 400) as ->.
  { destruct (Z.leb_spec 0 y); Z.to_euclidean_division_equations; lia. }
  rewrite (Z.rem_mod_nonneg (month + 9) 12) by lia.
  rewrite (Z.quot_div_nonneg (153 * _ + 2) 5) by (Z.to_euclidean_division_equations; lia).
  assert (0 ≤ y - y / 400 * 400) by (Z.to_euclidean_division_equations; lia).
  rewrite (Z.quot_div_nonneg _ 4), (Z.quot_div_nonneg _ 100) by lia.
  enough ((y - y / 400 * 400) / 4 = y / 4 - y / 400 * 100 ∧
          (y - y / 400 * 400) / 100 = y / 100 - y / 400 * 4) by lia.
  split; Z.to_euclidean_division_equations; lia.
Qed.

Lemma leap_step y :
  (y + 1) / 4 - (y + 1) / 100 + (y + 1) / 400
  = y / 4 - y / 100 + y / 400 + (if is_leap (y + 1) then 1 else 0).
Proof.
  unfold is_leap.
  destruct (Z.eqb_spec ((y + 1) mod 4) 0), (Z.eqb_spec ((y + 1) mod 100) 0),
    (Z.eqb_spec ((y + 1) mod 400) 0); cbn; Z.to_euclidean_division_equations; lia.
Qed.

(** The day count is the civil calendar: 1970-01-01 is day 0 and each valid
    date, in any year, is followed by the next date's number, through month
    ends, leap days and year ends. *)
Theorem days_from_civil_successor d :
  valid_date d →
  days_of (1970, 1, 1) = 0 ∧ valid_date (next_date d) ∧ days_of (next_date d) = days_of d + 1.
Proof.
  destruct d as [[year month] day]. cbn [valid_date]. intros [Hm Hd]. split; [reflexivity|].
  unfold next_date. destruct (Z.ltb_spec day (days_in_month year month)) as [Hlt|Hge].
  { split; [cbn; lia|]. cbn [days_of]. rewrite !days_from_civil_floor by done. cbn zeta. lia. }
  assert (day = days_in_month year month) as -> by lia. clear Hd Hge.
  assert (month = 1 ∨ month = 2 ∨ month = 3 ∨ month = 4 ∨ month = 5 ∨ month = 6 ∨ month = 7 ∨
          month = 8 ∨ month = 9 ∨ month = 10 ∨ month = 11 ∨ month = 12) as Hc by lia.
  assert (1 ≤ days_in_month (year + 1) 1 ∧ ∀ m, 1 ≤ days_in_month year m) as [Hd1 Hdm].
  { split; [done|]. intros m. unfold days_in_month. repeat case_match; lia. }
  destruct (Z.ltb_spec month 12) as [Hlt|Hge].
  2:{ assert (month = 12) as -> by lia. split; [cbn; lia|].
      cbn [days_of]. rewrite !days_from_civil_floor by lia. eval_offsets. cbn.
      replace (year + 1 - 1) with year by lia. lia. }
  split; [cbn; specialize (Hdm (month + 1)); lia|].
  cbn [days_of]. rewrite !days_from_civil_floor by lia.
  destruct (decide (month = 2)) as [->|Hne].
  { eval_offsets. cbn. pose proof (leap_step (year - 1)) as Hs. replace (year - 1 + 1) with year in Hs by lia.
    unfold days_in_month; cbn. destruct (is_leap year); lia. }
  repeat destruct Hc as [->|Hc]; try done; try (subst month; done); eval_offsets; cbn; lia.
Qed.

#[local] Close Scope Z_scope.

(** ** Concrete assessments *)

Definition sample_repo : RepositoryId := mkRepositoryId "o" "r".
Definition sample_branch (name oid : string) : BranchSnapshot := mkBranchSnapshot sample_repo name oid.
Definition sample_policy : RequiredContextsRead :=
  mkRequiredContextsRead "main" true ["build"] [] true.
Definition sample_lineage (suites : list CheckSuiteLineage) : HeadRunLineage :=
  mkHeadRunLineage "h1" suites [] (Some "2024-01-01T00:00:00Z") true.
Definition sample_input (lineage : option HeadRunLineage) (checks : list CheckSnapshot) (now : N)
    : RequiredRunsInput :=
  mkRequiredRunsInput 7%N (sample_branch "topic" "h1") (sample_branch "main" "b1") sample_policy
    lineage checks None (mkRequiredRunsClock now 600%N).
Definition idle_suite : CheckSuiteLineage :=
  mkCheckSuiteLineage 41%N "h1" "completed" "success" "github-actions" true.
Definition sample_json (r : RequiredRunsReceipt) : option (list N) :=
  Some (byte_of <$> list_ascii_of_string (ra_reason (rp_assessment r))).
Definition sample_problem (fp : string) : MissingRequiredRunsProblem :=
  mkMissingRequiredRunsProblem KindMissingRequiredRuns 7%N 7%N (sample_branch "topic" "h1")
    (sample_branch "main" "b1") ["build"] None true "m" "n" fp.

(** 2024-01-01T00:10:00Z. *)
Definition grace_end : N := 1704067800%N.

Lemma missing_only_when_proven_witness :
  ra_status (assess (sample_input (Some (sample_lineage [idle_suite])) [] grace_end))
    = MissingRequiredRuns ∧
  ra_missing_contexts (assess (sample_input (Some (sample_lineage [idle_suite])) [] grace_end)) ≠ [].
Proof.
  assert (ra_status (assess (sample_input (Some (sample_lineage [idle_suite])) [] grace_end))
    = MissingRequiredRuns) as H by (vm_compute; reflexivity).
  split; [exact H|]. exact (proj1 (proj2 (proj2 (missing_only_when_proven _ H)))).
Defined.

Lemma satisfied_only_when_passing_witness :
  let input := sample_input None [job_row "6" "2024-01-01T00:00:02Z" CheckSuccess] 0%N in
  ra_status (assess input) = Satisfied ∧ rr_complete (normalized (ri_contexts input)) = true.
Proof.
  assert (ra_status (assess (sample_input None [job_row "6" "2024-01-01T00:00:02Z" CheckSuccess] 0%N))
    = Satisfied) as H by (vm_compute; reflexivity).
  split; [exact H|]. exact (proj1 (satisfied_only_when_passing _ H)).
Defined.

Lemma rerequest_is_unambiguous_witness :
  let input := sample_input (Some (sample_lineage [idle_suite])) [] grace_end in
  ra_recovery (assess input) = RerequestCheckSuite 41%N ∧
  ∃ lineage suite, ri_lineage input = Some lineage ∧ hl_complete lineage = true ∧
     hl_head_sha lineage = br_oid (ri_head input) ∧ suite ∈ hl_check_suites lineage ∧
     cs_id suite = 41%N ∧
     List.filter (λ s, String.eqb (cs_head_sha s) (br_oid (ri_head input)) && cs_rerequestable s)
       (hl_check_suites lineage) = [suite].
Proof.
  assert (ra_recovery (assess (sample_input (Some (sample_lineage [idle_suite])) [] grace_end))
    = RerequestCheckSuite 41%N) as H by (vm_compute; reflexivity).
  split; [exact H|]. exact (proj1 (rerequest_is_unambiguous _ _ H)).
Defined.

Lemma time_only_ends_the_grace_witness :
  let input := sample_input (Some (sample_lineage [idle_suite])) [] 0%N in
  (ra_status (assess (with_now input (grace_end - 1)%N))
     = ra_status (assess (with_now input grace_end)) ∨
   ra_status (assess (with_now input (grace_end - 1)%N)) = AwaitingGrace ∧
   ra_status (assess (with_now input grace_end)) = MissingRequiredRuns) ∧
  ra_status (assess (with_now input (grace_end - 1)%N)) = AwaitingGrace.
Proof.
  split; [|vm_compute; reflexivity].
  apply (time_only_ends_the_grace (sample_input (Some (sample_lineage [idle_suite])) [] 0%N)).
  vm_compute. discriminate.
Defined.

Lemma push_problem_wf_witness :
  problems_wf [sample_problem "a"] ∧
  problems_wf (push_problem [sample_problem "a"] (sample_problem "b")).2.
Proof.
  assert (problems_wf [sample_problem "a"]) as H.
  { split; [apply NoDup_singleton|vm_compute; lia]. }
  split; [exact H|]. exact (proj1 (push_problem_wf _ (sample_problem "b") H)).
Defined.

Lemma receipt_hash_roundtrip_witness :
  ∃ r, receipt sample_json sample_repo 7%N (assess (sample_input None [] 0%N)) None
         (provenance "op-1" "tick") = Some r ∧
       hash_is_valid sample_json r = true.
Proof.
  eexists. split; [vm_compute; reflexivity|].
  eapply (receipt_hash_roundtrip sample_json sample_repo 7%N (assess (sample_input None [] 0%N)) None
         (provenance "op-1" "tick")).
  vm_compute. reflexivity.
Defined.

Lemma days_from_civil_successor_witness :
  valid_date (2024, 2, 29)%Z ∧ next_date (2024, 2, 29)%Z = (2024, 3, 1)%Z ∧
  days_of (2024, 3, 1)%Z = (days_of (2024, 2, 29) + 1)%Z.
Proof.
  assert (valid_date (2024, 2, 29)%Z) as H by (vm_compute; repeat split; discriminate).
  split; [exact H|]. split; [reflexivity|].
  exact (proj2 (proj2 (days_from_civil_successor (2024, 2, 29)%Z H))).
Defined.

(** The reader accepts text after the zone and days the month does not have. *)
Lemma rfc3339_accepts_malformed :
  rfc3339_to_unix_secs "2024-01-01T00:00:00Zgarbage" = Some 1704067200%N ∧
  rfc3339_to_unix_secs "2023-02-31T00:00:00Z" = rfc3339_to_unix_secs "2023-03-03T00:00:00Z".
Proof. split; vm_compute; reflexivity. Qed.
