(* ===== verification/Graph.v ===== *)
(** The caravan graph: [derive_for_actor] of src/src/graph.rs.

    Caravans are not stored anywhere; each read derives them from one bounded
    snapshot of pull requests. The derivation is written phase by phase as the
    code runs it: the snapshot keyed by number, the active members, the branch
    heads, each member's parent, the branching and cycle problems, the linear
    walks that become caravans, parking, the auto-merge invariant, the unqueued
    candidates and the history. [None] is a panic of the code ([expect]), or a
    loop that outruns its fuel; [derive_for_actor_total] excludes both. *)

From Stdlib Require Import String.
From S2P Require Import Prelude Text Model Squash RequiredRuns.

#[local] Open Scope string_scope.
#[local] Open Scope list_scope.
#[local] Open Scope nat_scope.

Record GraphAnalysis := mkGraphAnalysis {
  ga_fleet : CaravanFleet;
  ga_required_policy : option RequiredContextsRead;
  ga_pull_requests : gmap PrNumber PullRequestSnapshot;
  ga_compatibility : list CompatibilityReport;
  ga_cumulative_trees : list CumulativeTreeProof;
  ga_squash_reconciliations : list SquashEquivalenceReport }.

(** The early return inside the loop over [problem.prs]. *)
Fixpoint scan_problem_prs (fleet : CaravanFleet) (prs : list PrNumber) (parked_observed : bool)
    : bool :=
  match prs with
  | [] => negb parked_observed
  | number :: prs' =>
      match containing fleet number with
      | Some caravan => if negb (cv_parked caravan) then true else scan_problem_prs fleet prs' true
      | None => scan_problem_prs fleet prs' parked_observed
      end
  end.

Definition problem_blocks_active_fleet (self : GraphAnalysis) (problem : GraphProblem) : bool :=
  if negb (blocks_fleet (gp_kind problem)) then false
  else scan_problem_prs (ga_fleet self) (gp_prs problem) false.

Definition healthy (self : GraphAnalysis) : bool :=
  negb (existsb (problem_blocks_active_fleet self) (fl_problems (ga_fleet self))).

(** ** The snapshot keyed by number *)

Definition collect_pull_requests (prs : list PullRequestSnapshot)
    : gmap PrNumber PullRequestSnapshot * list GraphProblem :=
  foldl (λ '(pull_requests, problems) pull_request,
    (<[pr_number pull_request := pull_request]> pull_requests,
     if is_some_b (pull_requests !! pr_number pull_request)
     then problems ++
       [mkGraphProblem DuplicateMember [pr_number pull_request]
          (fmt ["PR #"; show_pr (pr_number pull_request);
                " appeared more than once in one discovery snapshot"])]
     else problems)) (∅, []) prs.

(** ** Members *)

Record Members := mkMembers {
  mb_active : gmap PrNumber PullRequestSnapshot;
  mb_merged_by_head : gmap string PrNumber;
  mb_departed_by_head : gmap string PrNumber;
  mb_problems : list GraphProblem }.

Definition dissolved_problem (pr : PullRequestSnapshot) : GraphProblem :=
  mkGraphProblem DissolvedMember [pr_number pr]
    (fmt ["caravan member #"; show_pr (pr_number pr);
          " was closed without merging, so its caravan no longer exists; requeue the work through its successor or remove the `caravan` label to acknowledge the dissolution"]).

Definition evicted_problem (pr : PullRequestSnapshot) : GraphProblem :=
  mkGraphProblem ActiveAndEvicted [pr_number pr]
    (fmt ["PR #"; show_pr (pr_number pr); " has both caravan and caravan-evicted labels"]).

Definition note_merged (m : Members) (pr : PullRequestSnapshot) : Members :=
  if state_is pr Merged && has_label pr "caravan"
  then mkMembers (mb_active m) (<[br_name (pr_head pr) := pr_number pr]> (mb_merged_by_head m))
         (mb_departed_by_head m) (mb_problems m)
  else m.

Definition note_departed (m : Members) (pr : PullRequestSnapshot) : Members :=
  if state_is pr Closed && has_label pr "caravan"
  then mkMembers (mb_active m) (mb_merged_by_head m)
         (<[br_name (pr_head pr) := pr_number pr]> (mb_departed_by_head m))
         (mb_problems m ++ [dissolved_problem pr])
  else m.

Definition note_active (m : Members) (pr : PullRequestSnapshot) : Members :=
  if state_is pr Open && has_label pr "caravan" && has_label pr "caravan-evicted"
  then mkMembers (mb_active m) (mb_merged_by_head m) (mb_departed_by_head m)
         (mb_problems m ++ [evicted_problem pr])
  else if is_active_caravan_member pr
  then mkMembers (<[pr_number pr := pr]> (mb_active m)) (mb_merged_by_head m)
         (mb_departed_by_head m) (mb_problems m)
  else m.

Definition classify_member (m : Members) (pr : PullRequestSnapshot) : Members :=
  note_active (note_departed (note_merged m pr) pr) pr.

Definition classify_members (pull_requests : gmap PrNumber PullRequestSnapshot)
    (problems : list GraphProblem) : Members :=
  foldl classify_member (mkMembers ∅ ∅ ∅ problems) (bt_values pull_requests).

(** ** Branch heads *)

Definition fork_problem (pr : PullRequestSnapshot) : GraphProblem :=
  mkGraphProblem ForkOnlyPredecessor [pr_number pr]
    (fmt ["PR #"; show_pr (pr_number pr);
          " has a fork-only head branch which cannot be a GitHub PR base"]).

(** [map.entry(k).or_default().push(x)]. *)
Definition push_entry {K} `{Countable K} (k : K) (x : PrNumber) (m : gmap K (list PrNumber))
    : gmap K (list PrNumber) :=
  <[k := default [] (m !! k) ++ [x]]> m.

Definition collect_heads (repository : RepositoryId)
    (active : gmap PrNumber PullRequestSnapshot) (problems : list GraphProblem)
    : gmap string (list PrNumber) * list GraphProblem :=
  foldl (λ '(heads, problems) pr,
    (push_entry (br_name (pr_head pr)) (pr_number pr) heads,
     if pr_cross_repository pr || negb (bool_decide (br_repository (pr_head pr) = repository))
     then problems ++ [fork_problem pr] else problems)) (∅, problems) (bt_values active).

Definition duplicate_heads (heads : gmap string (list PrNumber)) : list GraphProblem :=
  flat_map (λ members, if 1 <? length members
     then [mkGraphProblem DuplicateMember members "multiple active PRs expose the same head branch"]
     else []) (bt_values heads).

Definition heads_by_branch (repository : RepositoryId)
    (active : gmap PrNumber PullRequestSnapshot) (problems : list GraphProblem)
    : gmap string (list PrNumber) * list GraphProblem :=
  let '(heads, problems) := collect_heads repository active problems in
  let sorted : gmap string (list PrNumber) := vec_sort <$> heads in
  (sorted, problems ++ duplicate_heads sorted).

(** ** Parents *)

Record Links := mkLinks {
  lk_roots : gset PrNumber;
  lk_parent_of : gmap PrNumber PrNumber;
  lk_children : gmap PrNumber (list PrNumber);
  lk_problems : list GraphProblem }.

Definition add_root (l : Links) (n : PrNumber) (problems : list GraphProblem) : Links :=
  mkLinks ({[n]} ∪ lk_roots l) (lk_parent_of l) (lk_children l) (lk_problems l ++ problems).
Definition add_link (l : Links) (child parent : PrNumber) : Links :=
  mkLinks (lk_roots l) (<[child := parent]> (lk_parent_of l))
    (push_entry parent child (lk_children l)) (lk_problems l).

Definition reused_problem (pr : PullRequestSnapshot) (parent : PrNumber) (reused : option PrNumber)
    : GraphProblem :=
  mkGraphProblem ReusedBranchProvenance ([pr_number pr; parent] ++ option_list reused)
    (fmt ["PR #"; show_pr (pr_number pr); " records base `"; br_name (pr_base pr); "` at ";
          br_oid (pr_base pr); " but active PR #"; show_pr parent;
          " now holds that branch; a merged caravan member also used it, so the predecessor is ambiguous"]).

Definition ambiguous_problem (pr : PullRequestSnapshot) (parents : list PrNumber) : GraphProblem :=
  mkGraphProblem MultipleHeads (pr_number pr :: parents)
    (fmt ["PR #"; show_pr (pr_number pr); " targets ambiguous branch `"; br_name (pr_base pr); "`"]).

Definition dangling_problem (default_name : string) (pr : PullRequestSnapshot)
    (merged departed : option PrNumber) : GraphProblem :=
  mkGraphProblem DanglingBase (pr_number pr :: option_list merged ++ option_list departed)
    (match merged, departed with
     | Some merged, _ =>
         fmt ["PR #"; show_pr (pr_number pr); " still targets merged predecessor #"; show_pr merged;
              "; sync must advance it to `"; default_name; "`"]
     | None, Some departed =>
         fmt ["PR #"; show_pr (pr_number pr); " is stranded on branch `"; br_name (pr_base pr);
              "` of caravan member #"; show_pr departed;
              ", which was closed without merging; the caravan lost that member and this PR must be rebased onto `";
              default_name; "` or evicted"]
     | None, None =>
         fmt ["PR #"; show_pr (pr_number pr); " targets non-member branch `"; br_name (pr_base pr); "`"]
     end).

(** The base of [pr] is the branch of exactly one active member. *)
Definition link_parent (m : Members) (l : Links) (pr : PullRequestSnapshot) (parent : PrNumber)
    : Links :=
  let reused := mb_merged_by_head m !! br_name (pr_base pr) in
  let parent_head := (λ p, br_oid (pr_head p)) <$> mb_active m !! parent in
  let provenance_matches := is_none_or parent_head (λ head, String.eqb head (br_oid (pr_base pr))) in
  if is_some_b reused && negb provenance_matches
  then add_root l (pr_number pr) [reused_problem pr parent reused]
  else add_link l (pr_number pr) parent.

(** No active member holds the base of [pr]. *)
Definition dangle (default_name : string) (m : Members) (l : Links) (pr : PullRequestSnapshot)
    : Links :=
  let merged := mb_merged_by_head m !! br_name (pr_base pr) in
  let departed := if is_none_b merged then mb_departed_by_head m !! br_name (pr_base pr) else None in
  add_root l (pr_number pr) [dangling_problem default_name pr merged departed].

Definition resolve_parent (default_name : string) (m : Members)
    (heads : gmap string (list PrNumber)) (l : Links) (pr : PullRequestSnapshot) : Links :=
  if String.eqb (br_name (pr_base pr)) default_name then add_root l (pr_number pr) []
  else match heads !! br_name (pr_base pr) with
       | Some [parent] => link_parent m l pr parent
       | Some parents => add_root l (pr_number pr) [ambiguous_problem pr parents]
       | None => dangle default_name m l pr
       end.

Definition resolve_parents (default_name : string) (m : Members)
    (heads : gmap string (list PrNumber)) (problems : list GraphProblem) : Links :=
  foldl (resolve_parent default_name m heads) (mkLinks ∅ ∅ ∅ problems) (bt_values (mb_active m)).

(** ** Branching *)

(** [parent_of.iter().find_map(..)]: the parent of the first listed child. *)
Definition parent_of_list (parent_of : gmap PrNumber PrNumber) (child_list : list PrNumber)
    : option PrNumber :=
  snd <$> List.find (λ '(child, _), mem child child_list) (bt_entries parent_of).

Definition branching_problem (parent : PrNumber) (child_list : list PrNumber) : GraphProblem :=
  mkGraphProblem Branching (parent :: child_list)
    (fmt ["PR #"; show_pr parent; " has multiple active caravan children"]).

Fixpoint branching_problems (parent_of : gmap PrNumber PrNumber) (lists : list (list PrNumber))
    : option (list GraphProblem) :=
  match lists with
  | [] => Some []
  | child_list :: rest =>
      if 1 <? length child_list then
        match parent_of_list parent_of child_list with
        | Some parent => (branching_problem parent child_list ::.) <$> branching_problems parent_of rest
        | None => None
        end
      else branching_problems parent_of rest
  end.

(** ** Cycles *)

(** One walk up the parents from [current]; the repeated suffix, if any. *)
Fixpoint find_cycle (fuel : nat) (parent_of : gmap PrNumber PrNumber) (path : list PrNumber)
    (positions : gmap PrNumber nat) (current : PrNumber) : option (option (list PrNumber)) :=
  match fuel with
  | O => None
  | S fuel' =>
      match positions !! current with
      | Some position => Some (Some (vec_sort (drop position path)))
      | None =>
          let positions' := <[current := length path]> positions in
          let path' := path ++ [current] in
          match parent_of !! current with
          | None => Some None
          | Some parent => find_cycle fuel' parent_of path' positions' parent
          end
      end
  end.

(** The walk visits keys of [parent_of], at most one node that is not a key,
    and stops at the first repetition. *)
Definition cycle_fuel (parent_of : gmap PrNumber PrNumber) : nat := 2 + size parent_of.

#[global] Arguments cycle_fuel : simpl never.

Definition cycle_problem (cycle : list PrNumber) : GraphProblem :=
  mkGraphProblem Cycle cycle "active caravan base graph contains a cycle".

Fixpoint detect_cycles (parent_of : gmap PrNumber PrNumber) (starts : list PrNumber)
    (recorded : gset (list PrNumber)) (problems : list GraphProblem) : option (list GraphProblem) :=
  match starts with
  | [] => Some problems
  | start :: rest =>
      match find_cycle (cycle_fuel parent_of) parent_of [] ∅ start with
      | None => None
      | Some None => detect_cycles parent_of rest recorded problems
      | Some (Some cycle) =>
          if bool_decide (cycle ∈ recorded)
          then detect_cycles parent_of rest recorded problems
          else detect_cycles parent_of rest ({[cycle]} ∪ recorded) (problems ++ [cycle_problem cycle])
      end
  end.

(** ** Walks *)

Fixpoint walk_linear_from (fuel : nat) (children : gmap PrNumber (list PrNumber))
    (visited : gset PrNumber) (members : list PrNumber) (current : PrNumber)
    : option (list PrNumber * gset PrNumber) :=
  match fuel with
  | O => None
  | S fuel' =>
      if bool_decide (current ∈ visited) then Some (members, visited) else
      let visited' := {[current]} ∪ visited in
      let members' := members ++ [current] in
      match children !! current with
      | Some [child] => walk_linear_from fuel' children visited' members' child
      | _ => Some (members', visited')
      end
  end.

(** Each step but the last consumes a new key of [children]. *)
Definition walk_linear (root : PrNumber) (children : gmap PrNumber (list PrNumber))
    (visited : gset PrNumber) : option (list PrNumber * gset PrNumber) :=
  walk_linear_from (2 + size children) children visited [] root.

#[global] Arguments walk_linear : simpl never.

Fixpoint root_caravans (children : gmap PrNumber (list PrNumber)) (roots : list PrNumber)
    (caravans : list Caravan) (visited : gset PrNumber) : option (list Caravan * gset PrNumber) :=
  match roots with
  | [] => Some (caravans, visited)
  | root :: rest =>
      if bool_decide (root ∈ visited) then root_caravans children rest caravans visited else
      match walk_linear root children visited with
      | None => None
      | Some (members, visited) =>
          root_caravans children rest (caravans ++ option_list (caravan_new members)) visited
      end
  end.

Definition headless_problem (members : list PrNumber) : GraphProblem :=
  mkGraphProblem MissingHead members "active component has no unique default-branch head".

Fixpoint headless_caravans (children : gmap PrNumber (list PrNumber)) (numbers : list PrNumber)
    (caravans : list Caravan) (visited : gset PrNumber) (problems : list GraphProblem)
    : option (list Caravan * list GraphProblem) :=
  match numbers with
  | [] => Some (caravans, problems)
  | number :: rest =>
      if bool_decide (number ∈ visited) then headless_caravans children rest caravans visited problems
      else match walk_linear number children visited with
           | None => None
           | Some (members, visited) =>
               headless_caravans children rest (caravans ++ option_list (caravan_new members)) visited
                 (problems ++ [headless_problem members])
           end
  end.

(** ** Parking and the auto-merge invariant *)

Definition set_parked (active : gmap PrNumber PullRequestSnapshot) (c : Caravan) : Caravan :=
  mkCaravan (cv_id c) (cv_members c)
    (is_some_and (active !! cv_id c) (λ head, has_label head "caravan-parked")).

Definition native_squash_armed (pr : PullRequestSnapshot) : bool :=
  am_enabled (pr_auto_merge pr) && opt_eqb (am_merge_method (pr_auto_merge pr)) (Some Squash).

Definition root_must_be_armed (actor : HeadMergeActor) (parked : bool) (position : nat) : bool :=
  actor_github actor && (position =? 0) && negb parked.

Definition auto_merge_valid (actor : HeadMergeActor) (parked : bool) (position : nat)
    (pr : PullRequestSnapshot) : bool :=
  if root_must_be_armed actor parked position then native_squash_armed pr
  else negb (am_enabled (pr_auto_merge pr)).

Definition auto_merge_problem (actor : HeadMergeActor) (parked : bool) (position : nat)
    (number : PrNumber) : GraphProblem :=
  mkGraphProblem AutoMergeInvariant [number]
    (if root_must_be_armed actor parked position then
       fmt ["caravan head #"; show_pr number; " must have squash auto-merge enabled"]
     else if position =? 0 then
       fmt ["caravan head #"; show_pr number;
            " must not delegate merging to native auto-merge; cara is the single merge actor"]
     else fmt ["non-head caravan PR #"; show_pr number; " must have auto-merge disabled"]).

Fixpoint auto_merge_problems (actor : HeadMergeActor) (active : gmap PrNumber PullRequestSnapshot)
    (parked : bool) (position : nat) (members : list PrNumber) : option (list GraphProblem) :=
  match members with
  | [] => Some []
  | number :: rest =>
      match active !! number with
      | None => None
      | Some pr =>
          (λ problems,
             (if auto_merge_valid actor parked position pr then []
              else [auto_merge_problem actor parked position number]) ++ problems)
            <$> auto_merge_problems actor active parked (S position) rest
      end
  end.

Fixpoint fleet_auto_merge_problems (actor : HeadMergeActor)
    (active : gmap PrNumber PullRequestSnapshot) (caravans : list Caravan)
    : option (list GraphProblem) :=
  match caravans with
  | [] => Some []
  | c :: rest =>
      match auto_merge_problems actor active (cv_parked c) 0 (cv_members c),
            fleet_auto_merge_problems actor active rest with
      | Some a, Some b => Some (a ++ b)
      | _, _ => None
      end
  end.

(** ** Unqueued candidates and history *)

Definition is_unqueued (pr : PullRequestSnapshot) : bool :=
  state_is pr Open && negb (pr_draft pr) && negb (has_label pr "caravan")
  && negb (has_label pr "caravan-evicted").

Definition unqueued_of (pull_requests : gmap PrNumber PullRequestSnapshot) : list PrNumber :=
  pr_number <$> List.filter is_unqueued (bt_values pull_requests).

Definition history_of (prs : list PullRequestSnapshot) : CaravanHistory :=
  let merged_members := List.filter (λ pr, state_is pr Merged && has_label pr "caravan") prs in
  let merged_timestamps := vec_sort (omap pr_merged_at merged_members) in
  mkCaravanHistory (length merged_members) (head merged_timestamps) (last merged_timestamps)
    (length (List.filter (λ pr, state_is pr Merged && negb (has_label pr "caravan")) prs)).

(** ** The derivation *)

(** Everything before the walks: the members, the links between them, and the
    problems found so far. *)
Record Topology := mkTopology {
  tp_pull_requests : gmap PrNumber PullRequestSnapshot;
  tp_members : Members;
  tp_links : Links;
  tp_children : gmap PrNumber (list PrNumber) }.

Definition topology_of (snapshot : RepositorySnapshot) : Topology :=
  let '(pull_requests, problems) := collect_pull_requests (rs_pull_requests snapshot) in
  let members := classify_members pull_requests problems in
  let '(heads, problems) :=
    heads_by_branch (rs_repository snapshot) (mb_active members) (mb_problems members) in
  let links := resolve_parents (br_name (rs_default_branch snapshot)) members heads problems in
  mkTopology pull_requests members links (vec_sort <$> lk_children links).

(** The walks, in order: from every root, then from every unvisited member. *)
Definition caravans_of (active : gmap PrNumber PullRequestSnapshot) (roots : gset PrNumber)
    (children : gmap PrNumber (list PrNumber)) (problems : list GraphProblem)
    : option (list Caravan * list GraphProblem) :=
  match root_caravans children (bs_elems roots) [] ∅ with
  | None => None
  | Some (caravans, visited) =>
      match headless_caravans children (bt_keys active) caravans visited problems with
      | None => None
      | Some (caravans, problems) =>
          Some (set_parked active <$> sort_by_key cv_id caravans, problems)
      end
  end.

Definition derive_for_actor (snapshot : RepositorySnapshot) (actor : HeadMergeActor)
    : option GraphAnalysis :=
  let t := topology_of snapshot in
  let active := mb_active (tp_members t) in
  match branching_problems (lk_parent_of (tp_links t)) (bt_values (tp_children t)) with
  | None => None
  | Some branching =>
      match detect_cycles (lk_parent_of (tp_links t)) (bt_keys active) ∅
              (lk_problems (tp_links t) ++ branching) with
      | None => None
      | Some problems =>
          match caravans_of active (lk_roots (tp_links t)) (tp_children t) problems with
          | None => None
          | Some (caravans, problems) =>
              match fleet_auto_merge_problems actor active caravans with
              | None => None
              | Some auto =>
                  Some (mkGraphAnalysis
                    (mkCaravanFleet (rs_repository snapshot) (rs_default_branch snapshot) caravans
                       (unqueued_of (tp_pull_requests t)) (problems ++ auto)
                       (history_of (rs_pull_requests snapshot)))
                    None (tp_pull_requests t) [] [] [])
              end
          end
      end
  end.

Definition derive (snapshot : RepositorySnapshot) : option GraphAnalysis :=
  derive_for_actor snapshot actor_default.
