(* ===== verification/GraphProofs.v ===== *)
(** Correctness of the caravan derivation of Graph.v.

    The lemmas follow the phases: what the maps hold ([active_spec],
    [heads_spec], [links_spec]), that the two walks end and what they visit,
    which problem kinds each phase reports. The theorems are about
    [derive_for_actor]: it never panics, its caravans partition the active
    members along base branches, cycles and auto-merge violations are reported
    exactly, and the order of discovery does not matter. *)

From Stdlib Require Import String.
From stdpp Require Import relations.
From S2P Require Import Prelude Text Model Squash RequiredRuns Graph.

#[local] Open Scope string_scope.
#[local] Open Scope list_scope.
#[local] Open Scope nat_scope.

Implicit Types (pr : PullRequestSnapshot) (n p : N) (prs : list PullRequestSnapshot).

(** ** The snapshot keyed by number *)

Definition keyed (m : gmap N PullRequestSnapshot) : Prop :=
  ∀ n pr, m !! n = Some pr → pr_number pr = n.

Lemma collect_snoc prs pr :
  collect_pull_requests (prs ++ [pr]) =
  let '(m, problems) := collect_pull_requests prs in
  (<[pr_number pr := pr]> m,
   if is_some_b (m !! pr_number pr)
   then problems ++ [mkGraphProblem DuplicateMember [pr_number pr]
          (fmt ["PR #"; show_pr (pr_number pr);
                " appeared more than once in one discovery snapshot"])]
   else problems).
Proof.
  unfold collect_pull_requests. rewrite foldl_app. cbn [foldl].
  by destruct (foldl _ (∅, []) prs).
Qed.

Lemma collect_keyed prs : keyed (collect_pull_requests prs).1.
Proof.
  induction prs as [|pr prs IH] using rev_ind; [by intros n pr; cbn; rewrite lookup_empty|].
  rewrite collect_snoc. destruct (collect_pull_requests prs) as [m ps]; cbn in *.
  intros n q [[<- <-]|[_ Hq]]%lookup_insert_Some; [done|]. by apply IH.
Qed.

Lemma collect_NoDup prs :
  NoDup (pr_number <$> prs) →
  (∀ n pr, (collect_pull_requests prs).1 !! n = Some pr ↔ pr ∈ prs ∧ pr_number pr = n) ∧
  (collect_pull_requests prs).2 = [].
Proof.
  induction prs as [|x prs IH] using rev_ind.
  { intros _. split; [|done]. intros n pr. cbn. rewrite lookup_empty, elem_of_nil. split; [done|by intros [? _]]. }
  rewrite fmap_app. cbn. rewrite NoDup_app. intros (Hnd & Hx & _).
  destruct (IH Hnd) as [Hm Hps]. rewrite collect_snoc.
  destruct (collect_pull_requests prs) as [m ps]; cbn in *.
  assert (m !! pr_number x = None) as Hnone.
  { destruct (m !! pr_number x) as [y|] eqn:Hy; [|done]. exfalso.
    apply Hm in Hy as [Hy Hyx]. apply (Hx (pr_number x)); [|by left].
    rewrite <-Hyx. by apply list_elem_of_fmap_2. }
  rewrite Hnone; cbn. split; [|done]. intros n pr.
  rewrite elem_of_app, list_elem_of_singleton, lookup_insert_Some, Hm. split.
  - intros [[<- ->]|[Hne [H1 H2]]]; auto.
  - intros [[Hin| ->] <-]; [|by left]. right. split; [|done]. intros Heq.
    apply (Hx (pr_number pr)); [by apply list_elem_of_fmap_2|]. rewrite <-Heq. by left.
Qed.

(** ** Members *)

(** What classifying adds to the problems. *)
Definition member_problems pr : list GraphProblem :=
  (if state_is pr Closed && has_label pr "caravan" then [dissolved_problem pr] else [])
  ++ (if state_is pr Open && has_label pr "caravan" && has_label pr "caravan-evicted"
      then [evicted_problem pr] else []).

Lemma note_active_active m pr :
  mb_active (note_active m pr) =
    (if is_active_caravan_member pr then <[pr_number pr := pr]> (mb_active m) else mb_active m).
Proof.
  unfold note_active, is_active_caravan_member.
  destruct (state_is pr Open), (has_label pr "caravan"), (has_label pr "caravan-evicted"); done.
Qed.

Lemma classify_member_fields m pr :
  mb_active (classify_member m pr) =
    (if is_active_caravan_member pr then <[pr_number pr := pr]> (mb_active m) else mb_active m) ∧
  mb_problems (classify_member m pr) = mb_problems m ++ member_problems pr.
Proof.
  unfold classify_member. split.
  - rewrite note_active_active. unfold note_departed, note_merged. by repeat case_match.
  - unfold note_active, note_departed, note_merged, member_problems.
    destruct (state_is pr Open) eqn:Ho, (state_is pr Closed) eqn:Hc, (state_is pr Merged) eqn:Hm,
      (has_label pr "caravan"), (has_label pr "caravan-evicted"); cbn;
      try (destruct (is_active_caravan_member pr)); cbn; rewrite ?app_nil_r, <- ?app_assoc; done.
Qed.

Lemma classify_fold m prs :
  NoDup (pr_number <$> prs) →
  (∀ pr, pr ∈ prs → mb_active m !! pr_number pr = None) →
  let m' := foldl classify_member m prs in
  (∀ n pr, mb_active m' !! n = Some pr ↔
     mb_active m !! n = Some pr ∨
     (pr ∈ prs ∧ pr_number pr = n ∧ is_active_caravan_member pr = true)) ∧
  mb_problems m' = mb_problems m ++ flat_map member_problems prs.
Proof.
  revert m. induction prs as [|x prs IH]; intros m Hnd Hfresh; cbn.
  { split; [|by rewrite app_nil_r]. intros n pr. rewrite elem_of_nil. tauto. }
  cbn in Hnd. apply NoDup_cons in Hnd as [Hx Hnd].
  destruct (classify_member_fields m x) as [Hact Hprob].
  destruct (IH (classify_member m x) Hnd) as [H1 H2].
  { intros pr Hpr. rewrite Hact.
    assert (pr_number x ≠ pr_number pr).
    { intros Heq. apply Hx. rewrite Heq. by apply list_elem_of_fmap_2. }
    destruct (is_active_caravan_member x); [rewrite lookup_insert_ne by done|];
      apply Hfresh; by right. }
  split; [|by rewrite H2, Hprob, <-app_assoc].
  intros n pr. rewrite H1, Hact, elem_of_cons. specialize (Hfresh x ltac:(by left)).
  destruct (is_active_caravan_member x) eqn:Hxa; [rewrite lookup_insert_Some|]; split.
  - intros [[[<- ->]|[? ?]]|(? & ? & ?)]; auto 6.
  - intros [Hn|([->|Hin] & Hn & Ha)]; auto 6.
    left. right. split; [|done]. intros <-. congruence.
  - intros [?|(? & ? & ?)]; auto 6.
  - intros [Hn|([->|Hin] & Hn & Ha)]; auto 6. congruence.
Qed.

Lemma elem_of_bt_values_keyed m pr :
  keyed m → pr ∈ bt_values m ↔ m !! pr_number pr = Some pr.
Proof.
  intros Hk. rewrite elem_of_bt_values. split; [|eauto].
  intros [n Hn]. by rewrite (Hk n pr Hn).
Qed.

Lemma bt_values_numbers m : keyed m → pr_number <$> bt_values m = bt_keys m.
Proof.
  intros Hk. unfold bt_values, bt_keys. rewrite <-list_fmap_compose.
  apply list_fmap_ext. intros i [n pr] Hi. cbn. apply Hk.
  apply elem_of_bt_entries. by eapply list_elem_of_lookup_2.
Qed.

Lemma NoDup_bt_values_numbers m : keyed m → NoDup (pr_number <$> bt_values m).
Proof. intros Hk. rewrite bt_values_numbers by done. apply NoDup_bt_keys. Qed.

Lemma classify_members_spec pull_requests problems :
  keyed pull_requests →
  let m := classify_members pull_requests problems in
  (∀ n pr, mb_active m !! n = Some pr ↔
     pull_requests !! n = Some pr ∧ is_active_caravan_member pr = true) ∧
  keyed (mb_active m) ∧
  mb_problems m = problems ++ flat_map member_problems (bt_values pull_requests).
Proof.
  intros Hk. unfold classify_members.
  destruct (classify_fold (mkMembers ∅ ∅ ∅ problems) (bt_values pull_requests)) as [H1 H2].
  { by apply NoDup_bt_values_numbers. }
  { intros pr _. cbn. apply lookup_empty. }
  cbn zeta.
  assert (∀ n pr, mb_active (foldl classify_member (mkMembers ∅ ∅ ∅ problems)
      (bt_values pull_requests)) !! n = Some pr ↔
      pull_requests !! n = Some pr ∧ is_active_caravan_member pr = true) as Hact.
  { intros n pr. rewrite H1. cbn. rewrite lookup_empty, elem_of_bt_values_keyed by done. split.
    - intros [?|(H & <- & ?)]; done.
    - intros [H Ha]. right. pose proof (Hk n pr H) as <-. done. }
  split_and!; [exact Hact| |exact H2].
  intros n pr [Hn _]%Hact. by apply Hk.
Qed.

(** ** Grouping *)

Section group.
Context {K : Type} `{Countable K} (key : PullRequestSnapshot → option K).

(** The numbers of the rows filed under [k], in order. *)
Definition group_list (L : list PullRequestSnapshot) (k : K) : list PrNumber :=
  pr_number <$> List.filter (λ pr, bool_decide (key pr = Some k)) L.

Definition nonempty (l : list PrNumber) : option (list PrNumber) :=
  match l with [] => None | _ => Some l end.

Lemma group_list_snoc L pr k :
  group_list (L ++ [pr]) k = group_list L k ++ (if bool_decide (key pr = Some k) then [pr_number pr] else []).
Proof. unfold group_list. rewrite List.filter_app, fmap_app. cbn. by destruct (bool_decide _). Qed.

Lemma nonempty_snoc l x : nonempty (l ++ [x]) = Some (l ++ [x]).
Proof. by destruct l. Qed.

Lemma group_push (m : gmap K (list PrNumber)) L pr k0 :
  (∀ k, m !! k = nonempty (group_list L k)) → key pr = Some k0 →
  ∀ k, push_entry k0 (pr_number pr) m !! k = nonempty (group_list (L ++ [pr]) k).
Proof.
  intros Hm Hk k. unfold push_entry. rewrite group_list_snoc, Hk.
  destruct (decide (k0 = k)) as [<-|Hne].
  - rewrite lookup_insert_eq, bool_decide_eq_true_2, nonempty_snoc by done.
    f_equal. f_equal. rewrite Hm. by destruct (group_list L k0).
  - rewrite lookup_insert_ne, bool_decide_eq_false_2 by congruence. by rewrite app_nil_r.
Qed.

Lemma group_skip (m : gmap K (list PrNumber)) L pr :
  (∀ k, m !! k = nonempty (group_list L k)) → key pr = None →
  ∀ k, m !! k = nonempty (group_list (L ++ [pr]) k).
Proof.
  intros Hm Hk k. rewrite group_list_snoc, Hk, bool_decide_eq_false_2 by done.
  by rewrite app_nil_r.
Qed.

Lemma elem_of_group_list L k n :
  n ∈ group_list L k ↔ ∃ pr, pr ∈ L ∧ pr_number pr = n ∧ key pr = Some k.
Proof.
  unfold group_list. rewrite list_elem_of_fmap. setoid_rewrite elem_of_list_filter_b.
  setoid_rewrite bool_decide_eq_true. split.
  - intros (pr & -> & Hin & Hk). eauto.
  - intros (pr & Hin & <- & Hk). eauto.
Qed.

Lemma NoDup_group_list L k : NoDup (pr_number <$> L) → NoDup (group_list L k).
Proof.
  intros Hnd. unfold group_list. eapply sublist_NoDup; [exact Hnd|].
  apply fmap_sublist, filter_b_sublist.
Qed.

Lemma nonempty_Some l k : nonempty l = Some k ↔ l = k ∧ k ≠ [].
Proof.
  destruct l; cbn; split.
  - done.
  - by intros [<- ?].
  - by intros [= <-].
  - by intros [<- _].
Qed.
End group.

(** ** Branch heads *)

Definition fork_problems (repository : RepositoryId) (L : list PullRequestSnapshot) : list GraphProblem :=
  flat_map (λ pr, if pr_cross_repository pr || negb (bool_decide (br_repository (pr_head pr) = repository))
                  then [fork_problem pr] else []) L.

Lemma collect_heads_fold repository L problems :
  let r := foldl (λ '(heads, problems) pr,
    (push_entry (br_name (pr_head pr)) (pr_number pr) heads,
     if pr_cross_repository pr || negb (bool_decide (br_repository (pr_head pr) = repository))
     then problems ++ [fork_problem pr] else problems)) (∅, problems) L in
  (∀ b, r.1 !! b = nonempty (group_list (λ pr, Some (br_name (pr_head pr))) L b)) ∧
  r.2 = problems ++ fork_problems repository L.
Proof.
  induction L as [|pr L IH] using rev_ind; cbn.
  { split; [intros b; by rewrite lookup_empty|by rewrite app_nil_r]. }
  rewrite foldl_app; cbn in *. destruct (foldl _ _ L) as [heads ps]; cbn in *.
  destruct IH as [IH1 IH2]. split.
  - by apply group_push.
  - unfold fork_problems in *. rewrite flat_map_app, IH2; cbn.
    destruct (_ || _); cbn; rewrite ?app_nil_r; rewrite <- ?app_assoc; done.
Qed.

(** The members whose head branch is [b]. *)
Definition holders (active : gmap N PullRequestSnapshot) (b : string) : list PrNumber :=
  group_list (λ pr, Some (br_name (pr_head pr))) (bt_values active) b.

Lemma heads_by_branch_spec repository active problems :
  let r := heads_by_branch repository active problems in
  (∀ b, r.1 !! b = vec_sort <$> nonempty (holders active b)) ∧
  r.2 = problems ++ fork_problems repository (bt_values active) ++ duplicate_heads r.1.
Proof.
  unfold heads_by_branch, collect_heads.
  destruct (collect_heads_fold repository (bt_values active) problems) as [H1 H2].
  destruct (foldl _ _ _) as [heads ps]; cbn in *. split.
  - intros b. by rewrite lookup_fmap, H1.
  - by rewrite H2, <-app_assoc.
Qed.

Lemma elem_of_holders active b n :
  keyed active → n ∈ holders active b ↔ ∃ pr, active !! n = Some pr ∧ br_name (pr_head pr) = b.
Proof.
  intros Hk. unfold holders. rewrite elem_of_group_list. split.
  - intros (pr & Hin & <- & [= Hb]). exists pr. by rewrite <-elem_of_bt_values_keyed.
  - intros (pr & Hn & Hb). exists pr. pose proof (Hk n pr Hn) as Hnum. rewrite <-Hnum in Hn.
    rewrite elem_of_bt_values_keyed by done. by rewrite Hb.
Qed.

(** ** Parents *)

Section links.
Context (default_name : string) (m : Members) (heads : gmap string (list PrNumber)).

Definition provenance_ok (pr : PullRequestSnapshot) (parent : PrNumber) : bool :=
  is_none_or ((λ q, br_oid (pr_head q)) <$> mb_active m !! parent)
    (λ head, String.eqb head (br_oid (pr_base pr))).

(** The parent a member is linked to, if any. *)
Definition choice (pr : PullRequestSnapshot) : option PrNumber :=
  if String.eqb (br_name (pr_base pr)) default_name then None
  else match heads !! br_name (pr_base pr) with
       | Some [parent] =>
           if is_some_b (mb_merged_by_head m !! br_name (pr_base pr)) && negb (provenance_ok pr parent)
           then None else Some parent
       | _ => None
       end.

(** The problem a root is reported with; a default-branch root has none. *)
Definition root_problems (pr : PullRequestSnapshot) : list GraphProblem :=
  if String.eqb (br_name (pr_base pr)) default_name then []
  else match heads !! br_name (pr_base pr) with
       | Some [parent] =>
           if is_some_b (mb_merged_by_head m !! br_name (pr_base pr)) && negb (provenance_ok pr parent)
           then [reused_problem pr parent (mb_merged_by_head m !! br_name (pr_base pr))] else []
       | Some parents => [ambiguous_problem pr parents]
       | None =>
           let merged := mb_merged_by_head m !! br_name (pr_base pr) in
           [dangling_problem default_name pr merged
              (if is_none_b merged then mb_departed_by_head m !! br_name (pr_base pr) else None)]
       end.

Lemma resolve_parent_choice l pr :
  resolve_parent default_name m heads l pr =
  match choice pr with
  | Some parent => add_link l (pr_number pr) parent
  | None => add_root l (pr_number pr) (root_problems pr)
  end.
Proof.
  unfold resolve_parent, choice, root_problems, link_parent, dangle, provenance_ok.
  destruct (String.eqb _ default_name); [done|].
  destruct (heads !! _) as [[|parent [|other rest]]|]; [done| |done|done].
  by destruct (_ && _).
Qed.

Lemma choice_Some pr p :
  choice pr = Some p →
  br_name (pr_base pr) ≠ default_name ∧ heads !! br_name (pr_base pr) = Some [p] ∧
  root_problems pr = [].
Proof.
  unfold choice, root_problems. destruct (String.eqb_spec (br_name (pr_base pr)) default_name); [done|].
  destruct (heads !! _) as [[|parent [|other rest]]|]; try done.
  destruct (_ && _); [done|]. by intros [= <-].
Qed.

Lemma choice_None_problems pr :
  choice pr = None →
  (br_name (pr_base pr) = default_name ∧ root_problems pr = []) ∨
  ∃ q, root_problems pr = [q] ∧ pr_number pr ∈ gp_prs q ∧
       (gp_kind q = ReusedBranchProvenance ∨ gp_kind q = MultipleHeads ∨ gp_kind q = DanglingBase).
Proof.
  unfold choice, root_problems. destruct (String.eqb_spec (br_name (pr_base pr)) default_name); [by left|].
  intros Hc. right.
  destruct (heads !! _) as [[|parent [|other rest]]|].
  - eexists. split_and!; [done|by left|auto].
  - destruct (_ && _); [|done]. eexists. split_and!; [done|by left|auto].
  - eexists. split_and!; [done|by left|auto].
  - eexists. split_and!; [done|by left|auto].
Qed.

Lemma links_fold problems L :
  NoDup (pr_number <$> L) →
  let l := foldl (resolve_parent default_name m heads) (mkLinks ∅ ∅ ∅ problems) L in
  (∀ n, n ∈ lk_roots l ↔ ∃ pr, pr ∈ L ∧ pr_number pr = n ∧ choice pr = None) ∧
  (∀ n p, lk_parent_of l !! n = Some p ↔ ∃ pr, pr ∈ L ∧ pr_number pr = n ∧ choice pr = Some p) ∧
  (∀ p, lk_children l !! p = nonempty (group_list choice L p)) ∧
  lk_problems l = problems ++ flat_map root_problems L.
Proof.
  induction L as [|x L IH] using rev_ind; intros Hnd; cbn.
  { split_and!; [intros n|intros n p|intros p; by rewrite lookup_empty|by rewrite app_nil_r].
    - rewrite elem_of_empty. split; [done|]. by intros (pr & ?%elem_of_nil & _).
    - rewrite lookup_empty. split; [done|]. by intros (pr & ?%elem_of_nil & _). }
  rewrite fmap_app, NoDup_app in Hnd. destruct Hnd as (Hnd & Hx & _).
  assert (∀ pr, pr ∈ L → pr_number pr ≠ pr_number x) as Hfresh.
  { intros pr Hpr Heq. apply (Hx (pr_number pr)); [by apply list_elem_of_fmap_2|].
    rewrite Heq. by left. }
  destruct (IH Hnd) as (IH1 & IH2 & IH3 & IH4). clear IH. rewrite foldl_app; cbn.
  set (l := foldl _ _ L) in *. rewrite resolve_parent_choice.
  destruct (choice x) as [p0|] eqn:Hc; cbn; split_and!.
  - intros n. rewrite IH1. setoid_rewrite elem_of_app. setoid_rewrite list_elem_of_singleton.
    split; [intros (pr & ? & ? & ?); eauto|]. intros (pr & [?| ->] & ? & ?); [eauto|congruence].
  - intros n p. rewrite lookup_insert_Some, IH2. setoid_rewrite elem_of_app.
    setoid_rewrite list_elem_of_singleton. split.
    + intros [[<- <-]|(_ & pr & ? & ? & ?)]; eauto.
    + intros (pr & [Hin| ->] & <- & Hp); [right|left; split; congruence].
      split; [|eauto]. intros Heq. by apply (Hfresh pr Hin).
  - by apply group_push.
  - rewrite IH4, flat_map_app; cbn. destruct (choice_Some x p0 Hc) as (_ & _ & ->). by rewrite !app_nil_r.
  - intros n. rewrite elem_of_union, elem_of_singleton, IH1. setoid_rewrite elem_of_app.
    setoid_rewrite list_elem_of_singleton. split.
    + intros [->|(pr & ? & ? & ?)]; eauto.
    + intros (pr & [Hin| ->] & <- & Hp); eauto.
  - intros n p. rewrite IH2. setoid_rewrite elem_of_app. setoid_rewrite list_elem_of_singleton.
    split; [intros (pr & ? & ? & ?); eauto|]. intros (pr & [?| ->] & ? & ?); [eauto|congruence].
  - by apply group_skip.
  - by rewrite IH4, flat_map_app, <-app_assoc; cbn; rewrite app_nil_r.
Qed.
End links.

(** ** The topology of a snapshot *)

Section topology.
Context (snapshot : RepositorySnapshot).

Definition rows_of : gmap N PullRequestSnapshot := (collect_pull_requests (rs_pull_requests snapshot)).1.
Definition members_of : Members :=
  classify_members rows_of (collect_pull_requests (rs_pull_requests snapshot)).2.
Definition active_of : gmap N PullRequestSnapshot := mb_active members_of.
Definition heads_of : gmap string (list PrNumber) :=
  (heads_by_branch (rs_repository snapshot) active_of (mb_problems members_of)).1.
Definition choice_of : PullRequestSnapshot → option PrNumber :=
  choice (br_name (rs_default_branch snapshot)) members_of heads_of.
Definition links_of : Links := tp_links (topology_of snapshot).
Definition parent_of : gmap N N := lk_parent_of links_of.
Definition children_of : gmap N (list PrNumber) := tp_children (topology_of snapshot).

Lemma topology_fields :
  topology_of snapshot = mkTopology rows_of members_of
    (resolve_parents (br_name (rs_default_branch snapshot)) members_of heads_of
       (heads_by_branch (rs_repository snapshot) active_of (mb_problems members_of)).2)
    (vec_sort <$> lk_children links_of).
Proof.
  unfold links_of, topology_of, heads_of, active_of, members_of, rows_of.
  destruct (collect_pull_requests _) as [rows ps]; cbn [fst snd].
  by destruct (heads_by_branch _ _ _) as [heads ps'].
Qed.

Lemma rows_keyed : keyed rows_of.
Proof. apply collect_keyed. Qed.

Lemma rows_elem n pr : rows_of !! n = Some pr → pr ∈ rs_pull_requests snapshot.
Proof.
  unfold rows_of. induction (rs_pull_requests snapshot) as [|x l IH] using rev_ind; [done|].
  rewrite collect_snoc. destruct (collect_pull_requests l) as [m problems]; cbn in *.
  rewrite lookup_insert_Some, elem_of_app, list_elem_of_singleton. intros [[_ ->]|[_ ?]]; [by right|left; by apply IH].
Qed.

Lemma active_spec n pr :
  active_of !! n = Some pr ↔ rows_of !! n = Some pr ∧ is_active_caravan_member pr = true.
Proof.
  apply (classify_members_spec rows_of (collect_pull_requests (rs_pull_requests snapshot)).2 rows_keyed).
Qed.

Lemma active_keyed : keyed active_of.
Proof.
  apply (classify_members_spec rows_of (collect_pull_requests (rs_pull_requests snapshot)).2 rows_keyed).
Qed.

Lemma elem_of_active_values pr : pr ∈ bt_values active_of ↔ active_of !! pr_number pr = Some pr.
Proof. apply elem_of_bt_values_keyed, active_keyed. Qed.

(** The rows of active members, found by number. *)
Lemma active_rows (Q : PullRequestSnapshot → Prop) n :
  (∃ pr, pr ∈ bt_values active_of ∧ pr_number pr = n ∧ Q pr) ↔
  (∃ pr, active_of !! n = Some pr ∧ Q pr).
Proof.
  split.
  - intros (pr & Hin & <- & HQ). exists pr. by rewrite <-elem_of_active_values.
  - intros (pr & Hn & HQ). exists pr. pose proof (active_keyed n pr Hn) as Hnum. subst n.
    by rewrite elem_of_active_values.
Qed.

Lemma links_spec :
  (∀ n, n ∈ lk_roots links_of ↔ ∃ pr, active_of !! n = Some pr ∧ choice_of pr = None) ∧
  (∀ n p, parent_of !! n = Some p ↔ ∃ pr, active_of !! n = Some pr ∧ choice_of pr = Some p) ∧
  (∀ p, lk_children links_of !! p = nonempty (group_list choice_of (bt_values active_of) p)) ∧
  lk_problems links_of =
    (heads_by_branch (rs_repository snapshot) active_of (mb_problems members_of)).2
    ++ flat_map (root_problems (br_name (rs_default_branch snapshot)) members_of heads_of)
         (bt_values active_of).
Proof.
  unfold parent_of. unfold links_of at 1 2 3 4. rewrite topology_fields. cbn [tp_links].
  unfold resolve_parents. fold active_of.
  destruct (links_fold (br_name (rs_default_branch snapshot)) members_of heads_of
    (heads_by_branch (rs_repository snapshot) active_of (mb_problems members_of)).2
    (bt_values active_of)) as (H1 & H2 & H3 & H4).
  { apply NoDup_bt_values_numbers, active_keyed. }
  split_and!; [|intros n p|exact H3|exact H4].
  - intros n. by rewrite H1, active_rows.
  - by rewrite H2, active_rows.
Qed.

Lemma parent_of_Some n p :
  parent_of !! n = Some p ↔ ∃ pr, active_of !! n = Some pr ∧ choice_of pr = Some p.
Proof. apply links_spec. Qed.

Lemma elem_of_roots n :
  n ∈ lk_roots links_of ↔ is_Some (active_of !! n) ∧ parent_of !! n = None.
Proof.
  rewrite (proj1 links_spec). split.
  - intros (pr & Hn & Hc). split; [eauto|]. destruct (parent_of !! n) as [p|] eqn:Hp; [|done].
    apply parent_of_Some in Hp as (pr' & Hn' & Hc'). congruence.
  - intros [[pr Hn] Hp]. exists pr. split; [done|]. destruct (choice_of pr) as [p|] eqn:Hc; [|done].
    assert (parent_of !! n = Some p) by (apply parent_of_Some; eauto). congruence.
Qed.

(** The children listed under [p] are the members linked to [p]. *)
Lemma children_spec p l :
  children_of !! p = Some l →
  l ≠ [] ∧ NoDup l ∧ ∀ c, c ∈ l ↔ parent_of !! c = Some p.
Proof.
  unfold children_of. rewrite topology_fields. cbn [tp_children].
  destruct links_spec as (_ & H2 & H3 & _). rewrite lookup_fmap, H3, fmap_Some.
  intros (k & [Hk Hne]%nonempty_Some & ->). unfold vec_sort.
  split_and!.
  - intros Hnil. apply Hne. apply Permutation_nil_r. rewrite <-Hnil. symmetry.
    apply sort_by_key_Permutation.
  - rewrite NoDup_sort_by_key, <-Hk. apply NoDup_group_list, NoDup_bt_values_numbers, active_keyed.
  - intros c. rewrite elem_of_sort_by_key, <-Hk, elem_of_group_list, active_rows. by rewrite H2.
Qed.

Lemma children_of_parent c p :
  parent_of !! c = Some p → ∃ l, children_of !! p = Some l ∧ c ∈ l.
Proof.
  intros Hp. unfold children_of. rewrite topology_fields. cbn [tp_children].
  destruct links_spec as (_ & H2 & H3 & _). rewrite lookup_fmap, H3.
  assert (c ∈ group_list choice_of (bt_values active_of) p) as Hc.
  { by rewrite elem_of_group_list, active_rows, <-H2. }
  destruct (nonempty _) as [l|] eqn:Hl.
  - apply nonempty_Some in Hl as [Hl _]. rewrite Hl in Hc. cbn. eexists. split; [done|].
    unfold vec_sort. by rewrite elem_of_sort_by_key.
  - destruct (group_list _ _ _); [by apply elem_of_nil in Hc|done].
Qed.

(** A link is a base branch: the parent is the only active member whose head
    branch the child names as its base. *)
Lemma parent_of_branch c p :
  parent_of !! c = Some p →
  ∃ prc prp, active_of !! c = Some prc ∧ active_of !! p = Some prp ∧
    br_name (pr_base prc) = br_name (pr_head prp) ∧
    br_name (pr_base prc) ≠ br_name (rs_default_branch snapshot) ∧
    ∀ q prq, active_of !! q = Some prq → br_name (pr_head prq) = br_name (pr_base prc) → q = p.
Proof.
  intros (prc & Hc & Hch)%parent_of_Some. apply choice_Some in Hch as (Hne & Hh & _).
  destruct (heads_by_branch_spec (rs_repository snapshot) active_of (mb_problems members_of)) as [Hspec _].
  fold heads_of in Hspec. rewrite Hspec, fmap_Some in Hh.
  destruct Hh as (l & [Hl _]%nonempty_Some & Hp).
  assert (l ≡ₚ [p]) as Hperm.
  { rewrite Hp. unfold vec_sort. symmetry. apply sort_by_key_Permutation. }
  apply Permutation_singleton_r in Hperm. subst l.
  assert (∀ q, q ∈ holders active_of (br_name (pr_base prc)) ↔ q = p) as Hhold.
  { intros q. rewrite Hperm. by rewrite list_elem_of_singleton. }
  destruct (proj1 (elem_of_holders active_of (br_name (pr_base prc)) p active_keyed)) as (prp & Hpp & Hb).
  { by apply Hhold. }
  exists prc, prp. split_and!; try done.
  intros q prq Hq Hqb. apply Hhold, elem_of_holders; [apply active_keyed|eauto].
Qed.
End topology.

(** ** Linear walks *)

Lemma length_le_size {V} (m : gmap N V) (l : list N) :
  NoDup l → (∀ x, x ∈ l → is_Some (m !! x)) → length l ≤ size m.
Proof.
  intros Hnd Hl. rewrite <-(size_list_to_set (C:=gset N) l Hnd), <-(size_dom (D:=gset N)).
  apply subseteq_size. intros x Hx. apply elem_of_dom, Hl. by apply elem_of_list_to_set in Hx.
Qed.

Section walks.
Context (ch : gmap N (list N)).

Lemma walk_total fuel visited members current :
  NoDup members → (∀ x, x ∈ members → x ∈ visited ∧ is_Some (ch !! x)) →
  2 + size ch ≤ fuel + length members →
  is_Some (walk_linear_from fuel ch visited members current).
Proof.
  revert visited members current. induction fuel as [|fuel IH]; intros visited members current Hnd Hm Hf.
  { assert (length members ≤ size ch); [|lia]. apply length_le_size; [done|]. intros x Hx. by apply Hm. }
  cbn [walk_linear_from]. case_bool_decide as Hv; [eauto|].
  destruct (ch !! current) as [[|child [|other rest]]|] eqn:Hc; [by eauto| |by eauto|by eauto].
  apply IH.
  - apply NoDup_app. split_and!; [done| |apply NoDup_singleton].
    intros x Hx ->%list_elem_of_singleton. by apply Hv, Hm.
  - intros x [Hx| ->%list_elem_of_singleton]%elem_of_app.
    + destruct (Hm x Hx). split; [|done]. apply elem_of_union. by right.
    + split; [|eauto]. apply elem_of_union. left. by apply elem_of_singleton.
  - rewrite length_app. cbn. lia.
Qed.

(** A walk [w]: each step goes to the only child, nothing is seen twice. *)
Record is_walk (visited : gset N) (start : N) (w : list N) (visited' : gset N) : Prop := {
  walk_head : start ∉ visited → head w = Some start;
  walk_none : start ∈ visited → w = [];
  walk_NoDup : NoDup w;
  walk_fresh : ∀ x, x ∈ w → x ∉ visited;
  walk_visited : ∀ x, x ∈ visited' ↔ x ∈ visited ∨ x ∈ w;
  walk_edges : ∀ a b, (a, b) ∈ pairs w → ch !! a = Some [b];
  walk_maximal : ∀ x y, last w = Some x → ch !! x = Some [y] → y ∈ visited' }.

Lemma walk_spec fuel visited members current r :
  walk_linear_from fuel ch visited members current = Some r →
  ∃ w, r.1 = members ++ w ∧ is_walk visited current w r.2.
Proof.
  revert visited members current. induction fuel as [|fuel IH]; intros visited members current; [done|].
  cbn [walk_linear_from]. case_bool_decide as Hv.
  { intros [= <-]. exists []. rewrite app_nil_r. split; [done|]. split; try done.
    - constructor.
    - intros x. by intros ?%elem_of_nil.
    - intros x. rewrite elem_of_nil. cbn. tauto.
    - intros a b. by intros ?%elem_of_nil. }
  assert ((∀ y, ch !! current ≠ Some [y]) → is_walk visited current [current] ({[current]} ∪ visited)) as Hone.
  { intros Hstop. split; try done.
    - apply NoDup_singleton.
    - by intros x ->%list_elem_of_singleton.
    - intros x. rewrite elem_of_union, elem_of_singleton, list_elem_of_singleton. tauto.
    - intros a b. by intros ?%elem_of_nil.
    - intros x y [= <-] Hy. by destruct (Hstop y). }
  destruct (ch !! current) as [[|child [|other rest]]|] eqn:Hc;
    [intros [= <-]; exists [current]; auto| |intros [= <-]; exists [current]; auto|intros [= <-]; exists [current]; auto].
  intros Hr. destruct (IH _ _ _ Hr) as (w & Hw & Hwalk). clear IH Hr.
  exists (current :: w). rewrite Hw, <-app_assoc. split; [done|].
  destruct Hwalk as [Hh Hn Hnd Hfr Hvis Hed Hmax]. split.
  - done.
  - done.
  - constructor; [|done]. intros Hin. apply (Hfr current Hin). apply elem_of_union. left.
    by apply elem_of_singleton.
  - intros x [->|Hx]%elem_of_cons; [done|]. intros Hxv. apply (Hfr x Hx). apply elem_of_union. by right.
  - intros x. rewrite Hvis, elem_of_union, elem_of_singleton, elem_of_cons. tauto.
  - intros a b Hab. destruct w as [|y w]; [by apply elem_of_nil in Hab|].
    cbn in Hab. apply elem_of_cons in Hab as [[= -> ->]|Hab]; [|by apply Hed].
    destruct (decide (child ∈ {[current]} ∪ visited)) as [Hin|Hin]; [by specialize (Hn Hin)|].
    specialize (Hh Hin). cbn in Hh. by injection Hh as <-.
  - intros x y Hlast Hy. destruct w as [|z w].
    + cbn in Hlast. injection Hlast as <-. rewrite Hc in Hy. injection Hy as <-.
      destruct (decide (child ∈ {[current]} ∪ visited)) as [Hin|Hin]; [apply Hvis; by left|].
      by specialize (Hh Hin).
    + by apply (Hmax x).
Qed.

Lemma walk_linear_spec root visited :
  root ∉ visited →
  ∃ w visited', walk_linear root ch visited = Some (w, visited') ∧ w ≠ [] ∧
    is_walk visited root w visited'.
Proof.
  intros Hr. unfold walk_linear.
  destruct (walk_total (2 + size ch) visited [] root) as [r Hs].
  { constructor. } { by intros x ?%elem_of_nil. } { cbn. lia. }
  destruct (walk_spec _ _ _ _ _ Hs) as (w & Hw & Hwalk). cbn in Hw.
  exists w, r.2. rewrite Hs, <-Hw. split_and!; [by destruct r| |by rewrite Hw].
  rewrite Hw. intros ->. by specialize (walk_head _ _ _ _ Hwalk Hr).
Qed.

(** A caravan as the walks make them. *)
Definition walked (c : Caravan) : Prop :=
  caravan_new (cv_members c) = Some c ∧ NoDup (cv_members c) ∧
  ∀ a b, (a, b) ∈ pairs (cv_members c) → ch !! a = Some [b].

Definition all_members (cs : list Caravan) : list N := cs ≫= cv_members.

Lemma elem_of_all_members n cs : n ∈ all_members cs ↔ ∃ c, c ∈ cs ∧ n ∈ cv_members c.
Proof. unfold all_members. rewrite list_elem_of_bind. split; intros (c & ? & ?); eauto. Qed.

(** What a run of walks from [starts] adds. *)
Record walks_spec (starts : list N) (visited : gset N) (new : list Caravan) (visited' : gset N) : Prop := {
  ws_walked : ∀ c, c ∈ new → walked c;
  ws_NoDup : NoDup (all_members new);
  ws_fresh : ∀ x, x ∈ all_members new → x ∉ visited;
  ws_visited : ∀ x, x ∈ visited' ↔ x ∈ visited ∨ x ∈ all_members new;
  ws_ids : ∀ c, c ∈ new → cv_id c ∈ starts;
  ws_starts : ∀ x, x ∈ starts → x ∈ visited';
  ws_maximal : ∀ c x y, c ∈ new → last (cv_members c) = Some x → ch !! x = Some [y] → y ∈ visited' }.

Lemma walks_nil visited : walks_spec [] visited [] visited.
Proof.
  split; cbn; try (by intros ? ?%elem_of_nil); [constructor| |].
  - intros x. rewrite elem_of_nil. tauto.
  - by intros c x y ?%elem_of_nil.
Qed.

Lemma walks_skip x starts visited new visited' :
  x ∈ visited → walks_spec starts visited new visited' → walks_spec (x :: starts) visited new visited'.
Proof.
  intros Hx [H1 H2 H3 H4 H5 H6 H7]. split; try done.
  - intros c Hc. right. by apply H5.
  - intros y [->|Hy]%elem_of_cons; [apply H4; by left|by apply H6].
Qed.

Lemma walks_step x w visited1 starts visited new visited' :
  x ∉ visited → w ≠ [] → is_walk visited x w visited1 →
  walks_spec starts visited1 new visited' →
  ∃ c, caravan_new w = Some c ∧ cv_members c = w ∧
       walks_spec (x :: starts) visited (c :: new) visited'.
Proof.
  intros Hx Hne [Hh _ Hnd Hfr Hvis Hed Hmax] [H1 H2 H3 H4 H5 H6 H7].
  destruct w as [|y w]; [done|]. specialize (Hh Hx). injection Hh as ->.
  exists (mkCaravan x (x :: w) false). split_and!; [done..|].
  assert (all_members (mkCaravan x (x :: w) false :: new) = (x :: w) ++ all_members new) as Hall by done.
  split; rewrite ?Hall.
  - intros c [->|Hc]%elem_of_cons; [done|by apply H1].
  - apply NoDup_app. split_and!; [done| |done]. intros z Hz Hz'. apply (H3 z Hz'). apply Hvis. by right.
  - intros z [Hz|Hz]%elem_of_app; [by apply Hfr|]. intros Hzv. apply (H3 z Hz). apply Hvis. by left.
  - intros z. rewrite H4, Hvis, elem_of_app. tauto.
  - intros c [->|Hc]%elem_of_cons; [by left|right; by apply H5].
  - intros z [->|Hz]%elem_of_cons; [|by apply H6]. apply H4. left. apply Hvis. right. by left.
  - intros c z y [->|Hc]%elem_of_cons Hlast Hy; [|by apply (H7 c z)]. apply H4. left. by apply (Hmax z).
Qed.

Lemma root_caravans_spec starts cs visited :
  ∃ new visited', root_caravans ch starts cs visited = Some (cs ++ new, visited') ∧
    walks_spec starts visited new visited'.
Proof.
  revert cs visited. induction starts as [|x starts IH]; intros cs visited; cbn.
  { exists [], visited. rewrite app_nil_r. split; [done|apply walks_nil]. }
  case_bool_decide as Hx.
  { destruct (IH cs visited) as (new & visited' & -> & Hw). exists new, visited'.
    split; [done|]. by apply walks_skip. }
  destruct (walk_linear_spec x visited Hx) as (w & visited1 & -> & Hne & Hwalk).
  destruct (IH (cs ++ option_list (caravan_new w)) visited1) as (new & visited' & -> & Hw).
  destruct (walks_step x w visited1 starts visited new visited' Hx Hne Hwalk Hw) as (c & Hc & _ & Hws).
  exists (c :: new), visited'. rewrite Hc, <-app_assoc. done.
Qed.

Lemma headless_caravans_spec starts cs visited problems :
  ∃ new visited',
    headless_caravans ch starts cs visited problems =
      Some (cs ++ new, problems ++ ((λ c, headless_problem (cv_members c)) <$> new)) ∧
    walks_spec starts visited new visited'.
Proof.
  revert cs visited problems. induction starts as [|x starts IH]; intros cs visited problems; cbn.
  { exists [], visited. cbn. rewrite !app_nil_r. split; [done|apply walks_nil]. }
  case_bool_decide as Hx.
  { destruct (IH cs visited problems) as (new & visited' & -> & Hw). exists new, visited'.
    split; [done|]. by apply walks_skip. }
  destruct (walk_linear_spec x visited Hx) as (w & visited1 & -> & Hne & Hwalk).
  destruct (IH (cs ++ option_list (caravan_new w)) visited1 (problems ++ [headless_problem w]))
    as (new & visited' & -> & Hw).
  destruct (walks_step x w visited1 starts visited new visited' Hx Hne Hwalk Hw) as (c & Hc & Hm & Hws).
  exists (c :: new), visited'. rewrite Hc, <- !app_assoc. cbn. by rewrite Hm.
Qed.
End walks.

(** ** The caravans of a topology *)

Section caravans.
Context (snapshot : RepositorySnapshot).
#[local] Abbreviation active := (active_of snapshot).
#[local] Abbreviation parents := (parent_of snapshot).
#[local] Abbreviation children := (children_of snapshot).

Lemma child_link a b : children !! a = Some [b] → parents !! b = Some a.
Proof. intros (_ & _ & H)%children_spec. apply H. by left. Qed.

Lemma parent_active b a : parents !! b = Some a → is_Some (active !! b) ∧ is_Some (active !! a).
Proof. intros (pb & pa & Hb & Ha & _)%parent_of_branch. eauto. Qed.

Lemma walked_active c n :
  walked children c → is_Some (active !! cv_id c) → n ∈ cv_members c → is_Some (active !! n).
Proof.
  intros (Hnew & _ & Hed) Hid Hn. apply caravan_new_Some in Hnew as (_ & Hh & _).
  destruct (elem_of_head_or_pair _ _ Hn) as [Hh'|(a & Ha)].
  - rewrite Hh in Hh'. by injection Hh' as <-.
  - apply Hed, child_link in Ha. exact (proj1 (parent_active _ _ Ha)).
Qed.

Record caravans_spec (rooted headless : list Caravan) : Prop := {
  cs_walked : ∀ c, c ∈ rooted ++ headless → walked children c;
  cs_NoDup : NoDup (all_members (rooted ++ headless));
  cs_members : ∀ n, n ∈ all_members (rooted ++ headless) ↔ is_Some (active !! n);
  cs_rooted : ∀ c, c ∈ rooted → cv_id c ∈ lk_roots (links_of snapshot);
  cs_headless : ∀ n, n ∈ all_members headless → n ∉ lk_roots (links_of snapshot);
  cs_maximal : ∀ c x y, c ∈ rooted → last (cv_members c) = Some x → children !! x = Some [y] →
    y ∈ all_members rooted }.

Lemma elem_of_walked_id ch c : walked ch c → cv_id c ∈ cv_members c.
Proof.
  intros (Hnew & _). apply caravan_new_Some in Hnew as (_ & Hh & _).
  destruct (cv_members c) as [|x l]; [done|]. cbn in Hh. injection Hh as ->. by left.
Qed.

Lemma all_members_app a b : all_members (a ++ b) = all_members a ++ all_members b.
Proof. unfold all_members. apply bind_app. Qed.

Lemma caravans_of_spec problems :
  ∃ rooted headless,
    caravans_of active (lk_roots (links_of snapshot)) children problems =
      Some (set_parked active <$> sort_by_key cv_id (rooted ++ headless),
            problems ++ ((λ c, headless_problem (cv_members c)) <$> headless)) ∧
    caravans_spec rooted headless.
Proof.
  unfold caravans_of.
  destruct (root_caravans_spec children (bs_elems (lk_roots (links_of snapshot))) [] ∅)
    as (rooted & visited & -> & [R1 R2 R3 R4 R5 R6 R7]). cbn [app].
  destruct (headless_caravans_spec children (bt_keys active) rooted visited problems)
    as (headless & visited' & -> & [H1 H2 H3 H4 H5 H6 H7]).
  exists rooted, headless. split; [done|].
  assert (∀ c, c ∈ rooted → cv_id c ∈ lk_roots (links_of snapshot)) as Hroot.
  { intros c Hc. apply elem_of_bs_elems. by apply R5. }
  assert (∀ c, c ∈ rooted ++ headless → walked children c ∧ is_Some (active !! cv_id c)) as Hall.
  { intros c [Hc|Hc]%elem_of_app.
    - split; [by apply R1|]. by apply (elem_of_roots snapshot), Hroot.
    - split; [by apply H1|]. by apply elem_of_bt_keys, H5. }
  split.
  - intros c Hc. by apply Hall.
  - rewrite all_members_app. apply NoDup_app. split_and!; [done| |done].
    intros x Hx Hx'. apply (H3 x Hx'). apply R4. by right.
  - intros n. split.
    + intros (c & Hc & Hn)%elem_of_all_members. destruct (Hall c Hc). by apply (walked_active c).
    + intros Hn. assert (n ∈ visited') as Hv by (by apply H6, elem_of_bt_keys).
      rewrite all_members_app, elem_of_app. apply H4 in Hv as [Hv|Hv]; [|by right].
      apply R4 in Hv as [Hv|Hv]; [by apply elem_of_empty in Hv|by left].
  - exact Hroot.
  - intros n Hn Hr. apply (H3 n Hn). apply R6. by apply elem_of_bs_elems.
  - intros c x y Hc Hlast Hy. pose proof (R7 c x y Hc Hlast Hy) as Hv.
    apply R4 in Hv as [Hv|Hv]; [by apply elem_of_empty in Hv|done].
Qed.
End caravans.

(** ** Branching *)

Lemma parent_of_list_spec (parents : gmap N N) l p :
  l ≠ [] → (∀ c, c ∈ l → parents !! c = Some p) → parent_of_list parents l = Some p.
Proof.
  intros Hne Hl. unfold parent_of_list.
  destruct (List.find _ (bt_entries parents)) as [[c q]|] eqn:Hf; cbn.
  - apply find_some_iff in Hf as [Hin Hc%mem_true].
    apply elem_of_bt_entries in Hin. rewrite (Hl c Hc) in Hin. by injection Hin as ->.
  - destruct l as [|c l]; [done|]. exfalso.
    assert ((c, p) ∈ bt_entries parents) as Hin by (apply elem_of_bt_entries, Hl; by left).
    pose proof (find_none_iff _ _ Hf (c, p) Hin) as Hn. cbn in Hn.
    apply mem_false in Hn. apply Hn. by left.
Qed.

Lemma branching_problems_spec (parents : gmap N N) lists :
  (∀ l, l ∈ lists → ∃ p, parent_of_list parents l = Some p) →
  ∃ problems, branching_problems parents lists = Some problems ∧
    ∀ q, q ∈ problems ↔ ∃ l p, l ∈ lists ∧ 1 < length l ∧ parent_of_list parents l = Some p ∧
                               q = branching_problem p l.
Proof.
  induction lists as [|l lists IH]; intros Hall; cbn.
  { exists []. split; [done|]. intros q. rewrite elem_of_nil. split; [done|].
    by intros (l & p & ?%elem_of_nil & _). }
  destruct IH as (problems & -> & Hspec); [intros l' Hl'; apply Hall; by right|].
  destruct (Hall l ltac:(by left)) as [p Hp].
  destruct (Nat.ltb_spec 1 (length l)) as [Hlen|Hlen].
  - rewrite Hp. cbn. eexists. split; [done|]. intros q. rewrite elem_of_cons, Hspec. split.
    + intros [->|(l' & p' & ? & ? & ? & ?)].
      * exists l, p. split_and!; [by left|done..].
      * exists l', p'. split_and!; [by right|done..].
    + intros (l' & p' & [->|Hin]%elem_of_cons & ? & Hp' & ->).
      * left. congruence.
      * right. eauto 8.
  - exists problems. split; [done|]. intros q. rewrite Hspec. split.
    + intros (l' & p' & ? & ?). exists l', p'. split; [by right|done].
    + intros (l' & p' & [->|Hin]%elem_of_cons & ? & ?); [lia|]. eauto.
Qed.

(** ** Cycles *)

Section cycles.
Context (parents : gmap N N).

Definition parent_step (a b : N) : Prop := parents !! a = Some b.

(** The members of one base cycle: each reaches itself, and no step leaves. *)
Record is_cycle (cycle : list N) : Prop := {
  cyc_nonempty : cycle ≠ [];
  cyc_loops : ∀ x, x ∈ cycle → tc parent_step x x;
  cyc_closed : ∀ x y, x ∈ cycle → parent_step x y → y ∈ cycle }.

(** The state of a walk up the parents: [path] leads from its start to [current]. *)
Record path_ok (path : list N) (positions : gmap N nat) (current : N) : Prop := {
  po_NoDup : NoDup path;
  po_positions : ∀ x i, positions !! x = Some i ↔ path !! i = Some x;
  po_steps : ∀ i x, path !! i = Some x → parents !! x = (path ++ [current]) !! S i }.

Lemma path_ok_push path positions current parent :
  path_ok path positions current → positions !! current = None → parents !! current = Some parent →
  path_ok (path ++ [current]) (<[current := length path]> positions) parent.
Proof.
  intros [Hnd Hpos Hsteps] Hnew Hp. split.
  - apply NoDup_app. split_and!; [done| |apply NoDup_singleton].
    intros x Hx ->%list_elem_of_singleton. apply list_elem_of_lookup in Hx as [i Hi].
    apply Hpos in Hi. congruence.
  - intros x i. rewrite lookup_insert_Some, lookup_app_Some, Hpos. split.
    + intros [[<- <-]|[_ Hi]]; [right|by left]. by rewrite Nat.sub_diag.
    + intros [Hi|[Hle Hi]].
      * right. split; [|done]. intros ->. apply Hpos in Hi. congruence.
      * left. apply list_lookup_singleton_Some in Hi as [Hi ->]. split; [done|lia].
  - intros i x. rewrite lookup_app_Some. intros [Hi|[Hle Hi]].
    + rewrite (Hsteps i x Hi). symmetry. apply lookup_app_l. rewrite length_app; cbn.
      apply lookup_lt_Some in Hi. lia.
    + apply list_lookup_singleton_Some in Hi as [Hi ->].
      assert (i = length path) as -> by lia. rewrite Hp, lookup_app_r; rewrite length_app; cbn; [|lia].
      by replace (S (length path) - (length path + 1)) with 0 by lia.
Qed.

Lemma path_steps path positions current i j x y :
  path_ok path positions current → i < j →
  (path ++ [current]) !! i = Some x → (path ++ [current]) !! j = Some y → tc parent_step x y.
Proof.
  intros Hok Hij. revert y. induction j as [|j IH]; intros y Hx Hy; [lia|].
  assert (∃ z, path !! j = Some z) as [z Hz].
  { apply lookup_lt_is_Some. apply lookup_lt_Some in Hy. rewrite length_app in Hy. cbn in Hy. lia. }
  assert (parent_step z y) as Hzy by (unfold parent_step; by rewrite (po_steps _ _ _ Hok j z Hz)).
  destruct (decide (i = j)) as [->|Hne].
  - rewrite lookup_app_l in Hx by (by eapply lookup_lt_Some). rewrite Hz in Hx. injection Hx as <-.
    by apply tc_once.
  - eapply tc_r; [|exact Hzy]. apply IH; [lia|done|]. by apply lookup_app_l_Some.
Qed.

Lemma repeated_is_cycle path positions current pos :
  path_ok path positions current → positions !! current = Some pos →
  is_cycle (drop pos path) ∧ current ∈ drop pos path.
Proof.
  intros Hok Hpos. pose proof (proj1 (po_positions _ _ _ Hok current pos) Hpos) as Hcur.
  assert (∀ x, x ∈ drop pos path ↔ ∃ i, pos ≤ i ∧ path !! i = Some x) as Hdrop.
  { intros x. rewrite list_elem_of_lookup. setoid_rewrite lookup_drop. split.
    - intros [i Hi]. exists (pos + i). split; [lia|done].
    - intros (i & Hi & Hx). exists (i - pos). by replace (pos + (i - pos)) with i by lia. }
  assert (current ∈ drop pos path) as Hin by (apply Hdrop; eauto).
  split; [|done]. split.
  - intros Hnil. rewrite Hnil in Hin. by apply elem_of_nil in Hin.
  - intros x (i & Hi & Hx)%Hdrop.
    assert (tc parent_step x current) as Hto.
    { apply (path_steps path positions current i (length path)); [done| | |].
      - by eapply lookup_lt_Some. - by apply lookup_app_l_Some.
      - rewrite lookup_app_r, Nat.sub_diag by lia. done. }
    destruct (decide (i = pos)) as [->|Hne]; [congruence|].
    eapply tc_transitive; [exact Hto|].
    apply (path_steps path positions current pos i); [done|lia|by apply lookup_app_l_Some..].
  - intros x y (i & Hi & Hx)%Hdrop Hxy. unfold parent_step in Hxy.
    rewrite (po_steps _ _ _ Hok i x Hx) in Hxy. apply lookup_app_Some in Hxy as [Hy|[Hle Hy]].
    + apply Hdrop. exists (S i). split; [lia|done].
    + apply list_lookup_singleton_Some in Hy as [_ <-]. done.
Qed.

Lemma find_cycle_total fuel path positions current :
  path_ok path positions current → 2 + size parents ≤ fuel + length path →
  is_Some (find_cycle fuel parents path positions current).
Proof.
  revert path positions current. induction fuel as [|fuel IH]; intros path positions current Hok Hf.
  { assert (length path ≤ size parents); [|lia]. apply length_le_size; [apply Hok|].
    intros x [i Hi]%list_elem_of_lookup. rewrite (po_steps _ _ _ Hok i x Hi).
    apply lookup_lt_is_Some. rewrite length_app. cbn. apply lookup_lt_Some in Hi. lia. }
  cbn. destruct (positions !! current) as [pos|] eqn:Hpos; [eauto|].
  destruct (parents !! current) as [p|] eqn:Hp; [|eauto].
  apply IH; [by apply path_ok_push|]. rewrite length_app. cbn. lia.
Qed.

(** What a walk from [start] answers. *)
Lemma find_cycle_spec fuel path positions current start r :
  path_ok path positions current → rtc parent_step start current →
  find_cycle fuel parents path positions current = Some r →
  match r with
  | Some cycle => is_cycle cycle ∧ ∃ y, y ∈ cycle ∧ rtc parent_step start y
  | None => ∃ y, rtc parent_step start y ∧ parents !! y = None
  end.
Proof.
  revert path positions current. induction fuel as [|fuel IH]; intros path positions current Hok Hr; [done|].
  cbn. destruct (positions !! current) as [pos|] eqn:Hpos.
  - intros [= <-]. destruct (repeated_is_cycle _ _ _ _ Hok Hpos) as [[H1 H2 H3] Hin].
    assert (∀ x, x ∈ vec_sort (drop pos path) ↔ x ∈ drop pos path) as Hs.
    { intros x. apply elem_of_sort_by_key. }
    split; [split|].
    + intros Hnil. rewrite <-Hs, Hnil in Hin. by apply elem_of_nil in Hin.
    + intros x Hx. by apply H2, Hs.
    + intros x y Hx Hxy. apply Hs. eapply H3; [by apply Hs|done].
    + exists current. by rewrite Hs.
  - destruct (parents !! current) as [p|] eqn:Hp.
    + intros Hf. eapply (IH _ _ p); [by apply path_ok_push| |exact Hf].
      eapply rtc_r; [exact Hr|exact Hp].
    + intros [= <-]. eauto.
Qed.

(** From a node on a cycle every reachable node leads back. *)
Lemma loop_returns s x : tc parent_step s s → rtc parent_step s x → rtc parent_step x s.
Proof.
  intros Hs Hr. induction Hr as [s|s y x Hsy Hr IH]; [done|].
  assert (tc parent_step y y ∧ rtc parent_step y s) as [Hyy Hys].
  { inversion Hs as [? ? Hs1|? z ? Hsz Hzs]; subst.
    - assert (y = s) as -> by (unfold parent_step in *; congruence). by split.
    - assert (z = y) as -> by (unfold parent_step in *; congruence).
      split; [by eapply tc_r|by apply tc_rtc]. }
  etrans; [by apply IH|done].
Qed.

Lemma path_ok_start start : path_ok [] ∅ start.
Proof. split; [constructor| |done]. intros x i. by rewrite lookup_empty, lookup_nil. Qed.

Lemma find_cycle_start start :
  ∃ r, find_cycle (cycle_fuel parents) parents [] ∅ start = Some r ∧
       (∀ cycle, r = Some cycle → is_cycle cycle) ∧
       (tc parent_step start start → ∃ cycle, r = Some cycle ∧ start ∈ cycle).
Proof.
  destruct (find_cycle_total (cycle_fuel parents) [] ∅ start) as [r Hr];
    [apply path_ok_start|unfold cycle_fuel; cbn; lia|].
  exists r. split; [done|].
  pose proof (find_cycle_spec _ [] ∅ start start r (path_ok_start start) (rtc_refl _ _) Hr) as Hspec.
  destruct r as [cycle|].
  - destruct Hspec as [Hcyc (y & Hy & Hsy)]. split; [by intros ? [= <-]|].
    intros Hloop. exists cycle. split; [done|]. pose proof (loop_returns start y Hloop Hsy) as Hback.
    clear Hsy. induction Hback as [y|y z x Hyz Hzx IH]; [done|].
    apply IH; [done| |done]. exact (cyc_closed _ Hcyc y z Hy Hyz).
  - destruct Hspec as (y & Hsy & Hnone). split; [done|]. intros Hloop. exfalso.
    pose proof (loop_returns start y Hloop Hsy) as Hback.
    assert (∃ z, parent_step y z) as [z Hz].
    { inversion Hback as [|? z ? Hyz]; subst; [|eauto].
      inversion Hloop as [? ? H1|? z ? H1]; subst; eauto. }
    unfold parent_step in Hz. congruence.
Qed.
End cycles.

Lemma detect_cycles_spec parents starts recorded problems :
  (∀ c, c ∈ recorded → cycle_problem c ∈ problems) →
  ∃ cycles, detect_cycles parents starts recorded problems = Some (problems ++ cycles) ∧
    (∀ q, q ∈ cycles → ∃ c, q = cycle_problem c ∧ is_cycle parents c) ∧
    (∀ s, s ∈ starts → tc (parent_step parents) s s →
       ∃ c, s ∈ c ∧ cycle_problem c ∈ problems ++ cycles).
Proof.
  revert recorded problems. induction starts as [|s starts IH]; intros recorded problems Hrec; cbn.
  { exists []. rewrite app_nil_r. split_and!; [done| |]; by intros ? ?%elem_of_nil. }
  destruct (find_cycle_start parents s) as (r & -> & Hcyc & Hloop).
  destruct r as [c|].
  2:{ destruct (IH recorded problems Hrec) as (cycles & -> & H1 & H2). exists cycles.
      split_and!; [done|done|]. intros x [->|Hx]%elem_of_cons Hl; [|by apply H2].
      by destruct (Hloop Hl) as (c & [=] & _). }
  case_bool_decide as Hin.
  - destruct (IH recorded problems Hrec) as (cycles & -> & H1 & H2). exists cycles.
    split_and!; [done|done|]. intros x [->|Hx]%elem_of_cons Hl; [|by apply H2].
    destruct (Hloop Hl) as (c' & [= <-] & Hsc). exists c. split; [done|].
    rewrite elem_of_app. left. by apply Hrec.
  - destruct (IH ({[c]} ∪ recorded) (problems ++ [cycle_problem c])) as (cycles & -> & H1 & H2).
    { intros d [->%elem_of_singleton|Hd]%elem_of_union; rewrite elem_of_app.
      - right. by left. - left. by apply Hrec. }
    exists (cycle_problem c :: cycles). rewrite <-app_assoc in H2 |- *. cbn in *. split_and!; [done| |].
    + intros q [->|Hq]%elem_of_cons; [|by apply H1]. exists c. split; [done|]. by apply Hcyc.
    + intros x [->|Hx]%elem_of_cons Hl; [|by apply H2].
      destruct (Hloop Hl) as (c' & [= <-] & Hsc). exists c. split; [done|].
      rewrite elem_of_app. right. by left.
Qed.

(** ** The auto-merge invariant *)

Lemma auto_merge_problems_spec actor active parked position members :
  (∀ n, n ∈ members → is_Some (active !! n)) →
  ∃ problems, auto_merge_problems actor active parked position members = Some problems ∧
    ∀ q, q ∈ problems ↔ ∃ i n pr, members !! i = Some n ∧ active !! n = Some pr ∧
      auto_merge_valid actor parked (position + i) pr = false ∧
      q = auto_merge_problem actor parked (position + i) n.
Proof.
  revert position. induction members as [|m members IH]; intros position Hact; cbn.
  { exists []. split; [done|]. intros q. rewrite elem_of_nil. split; [done|].
    by intros (i & n & pr & Hi & _). }
  destruct (Hact m ltac:(by left)) as [pr Hpr]. rewrite Hpr.
  destruct (IH (S position)) as (problems & -> & Hspec); [intros n Hn; apply Hact; by right|].
  cbn. eexists. split; [done|]. intros q. rewrite elem_of_app, Hspec. split.
  - intros [Hq|(i & n & pr' & Hi & Hn & Hv & ->)].
    + destruct (auto_merge_valid actor parked position pr) eqn:Hv; [by apply elem_of_nil in Hq|].
      apply list_elem_of_singleton in Hq as ->. exists 0, m, pr. rewrite Nat.add_0_r. done.
    + exists (S i), n, pr'. rewrite Nat.add_succ_r. done.
  - intros (i & n & pr' & Hi & Hn & Hv & ->). destruct i as [|i]; cbn in Hi.
    + left. injection Hi as <-. rewrite Nat.add_0_r in Hv |- *. rewrite Hpr in Hn. injection Hn as <-.
      rewrite Hv. by left.
    + right. exists i, n, pr'. rewrite Nat.add_succ_r in Hv |- *. done.
Qed.

Lemma fleet_auto_merge_problems_spec actor active caravans :
  (∀ c n, c ∈ caravans → n ∈ cv_members c → is_Some (active !! n)) →
  ∃ problems, fleet_auto_merge_problems actor active caravans = Some problems ∧
    ∀ q, q ∈ problems ↔ ∃ c i n pr, c ∈ caravans ∧ cv_members c !! i = Some n ∧
      active !! n = Some pr ∧ auto_merge_valid actor (cv_parked c) i pr = false ∧
      q = auto_merge_problem actor (cv_parked c) i n.
Proof.
  induction caravans as [|c caravans IH]; intros Hact; cbn.
  { exists []. split; [done|]. intros q. rewrite elem_of_nil. split; [done|].
    by intros (c & i & n & pr & ?%elem_of_nil & _). }
  destruct (auto_merge_problems_spec actor active (cv_parked c) 0 (cv_members c)) as (a & -> & Ha).
  { intros n Hn. eapply Hact; [by left|done]. }
  destruct IH as (b & -> & Hb); [intros d n Hd; apply Hact; by right|].
  eexists. split; [done|]. intros q. rewrite elem_of_app, Ha, Hb. split.
  - intros [(i & n & pr & H)|(d & i & n & pr & Hd & H)].
    + exists c, i, n, pr. split; [by left|done].
    + exists d, i, n, pr. split; [by right|done].
  - intros (d & i & n & pr & [->|Hd]%elem_of_cons & H); [left|right]; eauto 8.
Qed.

(** ** The derivation, phase by phase *)

(** The kinds reported before the walks. *)
Definition early_kind (k : GraphProblemKind) : bool :=
  match k with
  | DuplicateMember | DissolvedMember | ActiveAndEvicted | ForkOnlyPredecessor
  | ReusedBranchProvenance | MultipleHeads | DanglingBase => true
  | _ => false
  end.

Lemma early_problems snapshot q :
  q ∈ lk_problems (links_of snapshot) → early_kind (gp_kind q) = true.
Proof.
  destruct (links_spec snapshot) as (_ & _ & _ & ->).
  destruct (heads_by_branch_spec (rs_repository snapshot) (active_of snapshot)
              (mb_problems (members_of snapshot))) as [_ ->].
  destruct (classify_members_spec (rows_of snapshot)
    (collect_pull_requests (rs_pull_requests snapshot)).2 (rows_keyed snapshot)) as (_ & _ & Hm).
  fold (members_of snapshot) in Hm. rewrite Hm. clear Hm.
  rewrite !elem_of_app. intros [[[Hq|Hq]|[Hq|Hq]]|Hq].
  - revert Hq. generalize (rs_pull_requests snapshot). intros prs.
    induction prs as [|pr prs IH] using rev_ind; [by intros ?%elem_of_nil|].
    rewrite collect_snoc. destruct (collect_pull_requests prs) as [m ps]; cbn in *.
    destruct (is_some_b _); [|done]. rewrite elem_of_app. intros [?| ->%list_elem_of_singleton]; auto.
  - apply elem_of_flat_map in Hq as (pr & _ & Hq). unfold member_problems in Hq.
    apply elem_of_app in Hq as [Hq|Hq]; repeat case_match;
      first [by apply elem_of_nil in Hq|by apply list_elem_of_singleton in Hq as ->].
  - apply elem_of_flat_map in Hq as (pr & _ & Hq). repeat case_match;
      first [by apply elem_of_nil in Hq|by apply list_elem_of_singleton in Hq as ->].
  - apply elem_of_flat_map in Hq as (l & _ & Hq). repeat case_match;
      first [by apply elem_of_nil in Hq|by apply list_elem_of_singleton in Hq as ->].
  - apply elem_of_flat_map in Hq as (pr & _ & Hq).
    destruct (choice_of snapshot pr) as [p|] eqn:Hc.
    + apply choice_Some in Hc as (_ & _ & Hr). rewrite Hr in Hq. by apply elem_of_nil in Hq.
    + apply choice_None_problems in Hc as [[_ Hr]|(q' & Hr & _ & Hk)]; rewrite Hr in Hq.
      * by apply elem_of_nil in Hq.
      * apply list_elem_of_singleton in Hq as ->. by destruct Hk as [->|[->| ->]].
Qed.

Record derive_parts (snapshot : RepositorySnapshot) (actor : HeadMergeActor)
    (rooted headless : list Caravan) (caravans : list Caravan)
    (branching cycles auto : list GraphProblem) : Prop := {
  dp_caravans : caravans = set_parked (active_of snapshot) <$> sort_by_key cv_id (rooted ++ headless);
  dp_spec : caravans_spec snapshot rooted headless;
  dp_branching : ∀ q, q ∈ branching ↔ ∃ l p, children_of snapshot !! p = Some l ∧ 1 < length l ∧
                   q = branching_problem p l;
  dp_cycles : ∀ q, q ∈ cycles → ∃ c, q = cycle_problem c ∧ is_cycle (parent_of snapshot) c;
  dp_loops : ∀ s, tc (parent_step (parent_of snapshot)) s s → ∃ c, s ∈ c ∧ cycle_problem c ∈ cycles;
  dp_auto : ∀ q, q ∈ auto ↔ ∃ c i n pr, c ∈ caravans ∧ cv_members c !! i = Some n ∧
              active_of snapshot !! n = Some pr ∧
              auto_merge_valid actor (cv_parked c) i pr = false ∧
              q = auto_merge_problem actor (cv_parked c) i n }.

Definition derived (snapshot : RepositorySnapshot) (caravans : list Caravan)
    (problems : list GraphProblem) : GraphAnalysis :=
  mkGraphAnalysis
    (mkCaravanFleet (rs_repository snapshot) (rs_default_branch snapshot) caravans
       (unqueued_of (rows_of snapshot)) problems (history_of (rs_pull_requests snapshot)))
    None (rows_of snapshot) [] [] [].

Lemma loop_active snapshot s :
  tc (parent_step (parent_of snapshot)) s s → s ∈ bt_keys (active_of snapshot).
Proof.
  intros Hl. apply elem_of_bt_keys.
  assert (∃ y, parent_step (parent_of snapshot) s y) as [y Hy] by (inversion Hl; eauto).
  by apply parent_active in Hy as [? _].
Qed.

Lemma branching_total snapshot :
  ∃ branching,
    branching_problems (parent_of snapshot) (bt_values (children_of snapshot)) = Some branching ∧
    ∀ q, q ∈ branching ↔ ∃ l p, children_of snapshot !! p = Some l ∧ 1 < length l ∧
                                q = branching_problem p l.
Proof.
  assert (∀ p l, children_of snapshot !! p = Some l →
    parent_of_list (parent_of snapshot) l = Some p) as Hpar.
  { intros p l (Hne & _ & Hl)%children_spec. apply parent_of_list_spec; [done|]. intros c. apply Hl. }
  destruct (branching_problems_spec (parent_of snapshot) (bt_values (children_of snapshot)))
    as (branching & Hb & Hspec).
  { intros l (p & Hp)%elem_of_bt_values. eauto. }
  exists branching. split; [done|]. intros q. rewrite Hspec. split.
  - intros (l & p & (p' & Hl)%elem_of_bt_values & Hlen & Hp & ->).
    rewrite (Hpar p' l Hl) in Hp. injection Hp as ->. eauto.
  - intros (l & p & Hl & Hlen & ->). exists l, p. split_and!; [|done|by apply Hpar|done].
    apply elem_of_bt_values. eauto.
Qed.

Lemma derive_spec snapshot actor :
  ∃ rooted headless caravans branching cycles auto,
    derive_for_actor snapshot actor = Some (derived snapshot caravans
      ((((lk_problems (links_of snapshot) ++ branching) ++ cycles)
        ++ ((λ c, headless_problem (cv_members c)) <$> headless)) ++ auto)) ∧
    derive_parts snapshot actor rooted headless caravans branching cycles auto.
Proof.
  unfold derive_for_actor. cbn zeta.
  replace (mb_active (tp_members (topology_of snapshot))) with (active_of snapshot)
    by (by rewrite topology_fields).
  replace (tp_pull_requests (topology_of snapshot)) with (rows_of snapshot)
    by (by rewrite topology_fields).
  fold (links_of snapshot). fold (parent_of snapshot) (children_of snapshot).
  destruct (branching_total snapshot) as (branching & -> & Hb).
  destruct (detect_cycles_spec (parent_of snapshot) (bt_keys (active_of snapshot)) ∅
    (lk_problems (links_of snapshot) ++ branching)) as (cycles & -> & Hc1 & Hc2).
  { by intros c ?%elem_of_empty. }
  destruct (caravans_of_spec snapshot ((lk_problems (links_of snapshot) ++ branching) ++ cycles))
    as (rooted & headless & -> & Hspec).
  destruct (fleet_auto_merge_problems_spec actor (active_of snapshot)
    (set_parked (active_of snapshot) <$> sort_by_key cv_id (rooted ++ headless))) as (auto & -> & Ha).
  { intros c n (d & -> & Hd)%list_elem_of_fmap Hn. rewrite elem_of_sort_by_key in Hd.
    apply (cs_members snapshot _ _ Hspec), elem_of_all_members. eauto. }
  do 6 eexists. split; [done|]. split; try done.
  intros s Hl. destruct (Hc2 s (loop_active snapshot s Hl) Hl) as (c & Hsc & Hc).
  exists c. split; [done|]. apply elem_of_app in Hc as [[Hc|Hc]%elem_of_app|Hc]; [| |done].
  - by apply early_problems in Hc.
  - by apply Hb in Hc as (l & p & _ & _ & [=]).
Qed.

Lemma derive_for_actor_some snapshot actor : is_Some (derive_for_actor snapshot actor).
Proof. destruct (derive_spec snapshot actor) as (? & ? & ? & ? & ? & ? & -> & _). eauto. Qed.

Lemma derived_evidence_empty snapshot actor a :
  derive_for_actor snapshot actor = Some a → ga_compatibility a = [].
Proof.
  destruct (derive_spec snapshot actor) as (? & ? & ? & ? & ? & ? & -> & _). by intros [= <-].
Qed.

(** The derivation never panics and never runs out of fuel: every snapshot,
    however inconsistent its pull requests are, has a graph. *)
Theorem derive_for_actor_total snapshot actor :
  is_Some (derive_for_actor snapshot actor).
Proof. destruct (derive_spec snapshot actor) as (? & ? & ? & ? & ? & ? & -> & _). eauto. Qed.

(** What the fleet of an analysis holds, in terms of the walks. *)
Lemma derive_caravan snapshot actor a c :
  derive_for_actor snapshot actor = Some a → c ∈ fl_caravans (ga_fleet a) →
  ∃ d, walked (children_of snapshot) d ∧ c = set_parked (active_of snapshot) d.
Proof.
  destruct (derive_spec snapshot actor) as (rooted & headless & cs & b & cy & au & -> & Hp).
  intros [= <-] Hc. cbn in Hc. rewrite (dp_caravans _ _ _ _ _ _ _ _ Hp) in Hc.
  apply list_elem_of_fmap in Hc as (d & -> & Hd). exists d. split; [|done].
  apply (cs_walked _ _ _ (dp_spec _ _ _ _ _ _ _ _ Hp)). by rewrite elem_of_sort_by_key in Hd.
Qed.

Lemma walked_ids ch (cs : list Caravan) :
  (∀ c, c ∈ cs → walked ch c) → NoDup (all_members cs) → NoDup (cv_id <$> cs).
Proof.
  induction cs as [|c cs IH]; cbn; intros Hw Hnd; [constructor|].
  apply NoDup_app in Hnd as (_ & Hdis & Hnd). constructor.
  - intros (d & Hd & Hin)%list_elem_of_fmap. apply (Hdis (cv_id c)).
    + eapply elem_of_walked_id, Hw. by left.
    + rewrite Hd. apply elem_of_all_members. exists d. split; [done|].
      eapply elem_of_walked_id, Hw. by right.
  - apply IH; [|done]. intros d Hd. apply Hw. by right.
Qed.

Lemma all_members_Permutation cs cs' : cs ≡ₚ cs' → all_members cs ≡ₚ all_members cs'.
Proof. intros H. unfold all_members. by rewrite H. Qed.

Lemma all_members_parked active cs : all_members (set_parked active <$> cs) = all_members cs.
Proof. unfold all_members. by rewrite list_fmap_bind. Qed.

(** C33. The caravans partition the active members: every open, labelled,
    unevicted pull request is in exactly one caravan and nothing else is; each
    caravan is named by its head, and caravans are listed by ascending id. *)
Theorem caravans_partition_active snapshot actor a :
  derive_for_actor snapshot actor = Some a →
  NoDup (all_members (fl_caravans (ga_fleet a))) ∧
  (∀ n, n ∈ all_members (fl_caravans (ga_fleet a)) ↔
     ∃ pr, ga_pull_requests a !! n = Some pr ∧ pr_number pr = n ∧
           pr_state pr = Open ∧ "caravan" ∈ pr_labels pr ∧ "caravan-evicted" ∉ pr_labels pr) ∧
  (∀ c, c ∈ fl_caravans (ga_fleet a) → caravan_head c = Some (cv_id c)) ∧
  StronglySorted N.lt (cv_id <$> fl_caravans (ga_fleet a)).
Proof.
  intros Ha. pose proof (derive_caravan snapshot actor a) as Hcar. specialize (λ c, Hcar c Ha).
  destruct (derive_spec snapshot actor) as (rooted & headless & cs & b & cy & au & Hd & Hp).
  rewrite Hd in Ha. injection Ha as <-. cbn in *.
  destruct Hp as [Hcs [W ND MB _ _] _ _ _ _].
  assert (all_members cs ≡ₚ all_members (rooted ++ headless)) as Hperm.
  { rewrite Hcs, all_members_parked. apply all_members_Permutation, sort_by_key_Permutation. }
  split_and!.
  - by rewrite Hperm.
  - intros n. rewrite Hperm, MB. split.
    + intros [pr [Hn Hact]%active_spec]. exists pr. rewrite <-is_active_caravan_member_true.
      split_and!; [done| |done]. by apply (rows_keyed snapshot).
    + intros (pr & Hn & _ & Hact). exists pr. apply active_spec. split; [done|].
      by apply is_active_caravan_member_true.
  - intros c Hc. destruct (Hcar c Hc) as (d & (Hnew & _) & ->).
    by apply caravan_new_Some in Hnew as (_ & Hh & _).
  - assert (cv_id <$> cs = cv_id <$> sort_by_key cv_id (rooted ++ headless)) as ->.
    { rewrite Hcs, <-list_fmap_compose. by apply list_fmap_ext. }
    assert (NoDup (cv_id <$> sort_by_key cv_id (rooted ++ headless))) as Hids.
    { rewrite sort_by_key_Permutation. by eapply walked_ids. }
    pose proof (sorted_NoDup_strict cv_id _ Hids (sort_by_key_sorted cv_id _)) as Hs.
    clear -Hs. induction Hs as [|x l Hl IH Hx]; cbn; constructor; [exact IH|].
    + apply Forall_fmap. eapply Forall_impl; [exact Hx|]. intros y Hy. cbn.
      unfold ord_lt, ord_le, ord_N in Hy. by apply negb_true_iff, N.leb_gt in Hy.
Qed.

(** The facts a client of the derivation builds on. *)
Lemma caravans_of_derived snapshot actor a :
  derive_for_actor snapshot actor = Some a →
  (∀ c, c ∈ fl_caravans (ga_fleet a) → caravan_head c = Some (cv_id c)) ∧
  (∀ c n, c ∈ fl_caravans (ga_fleet a) → n ∈ cv_members c → is_Some (ga_pull_requests a !! n)).
Proof.
  intros Ha. pose proof (derive_caravan snapshot actor a) as Hcar. specialize (λ c, Hcar c Ha).
  destruct (derive_spec snapshot actor) as (rooted & headless & cs & b & cy & au & Hd & Hp).
  rewrite Hd in Ha. injection Ha as <-. cbn in *. destruct Hp as [Hcs [W ND MB _ _] _ _ _ _].
  split.
  - intros c Hc. destruct (Hcar c Hc) as (d & (Hnew & _) & ->).
    by apply caravan_new_Some in Hnew as (_ & Hh & _).
  - intros c n Hc Hn. assert (is_Some (active_of snapshot !! n)) as [pr Hpr].
    { apply MB. rewrite <-(all_members_Permutation _ _ (sort_by_key_Permutation cv_id _)).
      rewrite <-(all_members_parked (active_of snapshot)), <-Hcs. apply elem_of_all_members. eauto. }
    apply active_spec in Hpr as [Hpr _]. eauto.
Qed.

(** A caravan follows base branches: each member after the head is open on
    the head branch of the member before it, no other active member holds that
    branch, the member before it has no other linked child, and the branch is
    not the default branch. *)
Theorem caravan_follows_branches snapshot actor a c x y :
  derive_for_actor snapshot actor = Some a → c ∈ fl_caravans (ga_fleet a) →
  (x, y) ∈ pairs (cv_members c) →
  ∃ px py, ga_pull_requests a !! x = Some px ∧ ga_pull_requests a !! y = Some py ∧
    is_active_caravan_member px = true ∧ is_active_caravan_member py = true ∧
    br_name (pr_base py) = br_name (pr_head px) ∧
    br_name (pr_base py) ≠ br_name (rs_default_branch snapshot) ∧
    (∀ z pz, ga_pull_requests a !! z = Some pz → is_active_caravan_member pz = true →
       br_name (pr_head pz) = br_name (pr_base py) → z = x) ∧
    (∀ z, lk_parent_of (tp_links (topology_of snapshot)) !! z = Some x ↔ z = y).
Proof.
  intros Ha Hc Hxy. destruct (derive_caravan snapshot actor a c Ha Hc) as (d & (_ & _ & Hed) & ->).
  destruct (derive_spec snapshot actor) as (rooted & headless & cs & b & cy & au & Hd & _).
  rewrite Hd in Ha. injection Ha as <-. cbn in *.
  pose proof (Hed x y Hxy) as Hch. pose proof (child_link snapshot x y Hch) as Hpar.
  destruct (parent_of_branch snapshot y x Hpar) as (py & px & Hy & Hx & Hb & Hne & Huniq).
  exists px, py. apply active_spec in Hy as [Hy Hya], Hx as [Hx Hxa]. split_and!; try done.
  - intros z pz Hz Hza. apply Huniq. by apply active_spec.
  - intros z. fold (links_of snapshot). fold (parent_of snapshot).
    destruct (children_spec snapshot x [y] Hch) as (_ & _ & Hl). rewrite <-Hl.
    by rewrite list_elem_of_singleton.
Qed.

Definition has_problem (a : GraphAnalysis) (k : GraphProblemKind) : Prop :=
  ∃ q, q ∈ fl_problems (ga_fleet a) ∧ gp_kind q = k.

(** C34. Without structural problems the fleet is a set of complete rooted
    chains: when no headless component, dangling base, ambiguous base or reused
    branch is reported, every caravan head targets the default branch and the
    adjacent pairs of the caravans are exactly the parent links. *)
Theorem unproblematic_fleet_is_rooted_chains snapshot actor a :
  derive_for_actor snapshot actor = Some a →
  ¬ has_problem a MissingHead → ¬ has_problem a DanglingBase →
  ¬ has_problem a MultipleHeads → ¬ has_problem a ReusedBranchProvenance →
  (∀ c, c ∈ fl_caravans (ga_fleet a) →
     ∃ pr, ga_pull_requests a !! cv_id c = Some pr ∧
           br_name (pr_base pr) = br_name (rs_default_branch snapshot)) ∧
  (∀ x y, lk_parent_of (tp_links (topology_of snapshot)) !! y = Some x ↔
     ∃ c, c ∈ fl_caravans (ga_fleet a) ∧ (x, y) ∈ pairs (cv_members c)).
Proof.
  intros Ha Hmh Hdb Hmu Hre.
  destruct (derive_spec snapshot actor) as (rooted & headless & cs & b & cy & au & Hd & Hp).
  rewrite Hd in Ha. injection Ha as <-. cbn in *. destruct Hp as [Hcs [W ND MB RT HL] _ _ _ _].
  unfold has_problem in *; cbn in *.
  assert (headless = []) as ->.
  { destruct headless as [|h hs]; [done|]. exfalso. apply Hmh.
    exists (headless_problem (cv_members h)). split; [|done]. rewrite !elem_of_app. left. right. by left. }
  rewrite app_nil_r in *.
  assert (∀ c, c ∈ cs ↔ ∃ d, d ∈ rooted ∧ c = set_parked (active_of snapshot) d) as Hin.
  { intros c. rewrite Hcs, list_elem_of_fmap. setoid_rewrite elem_of_sort_by_key.
    split; intros (d & ? & ?); eauto. }
  split.
  - intros c (d & Hd' & ->)%Hin. cbn. specialize (RT d Hd').
    apply (proj1 (links_spec snapshot)) in RT as (pr & Hn & Hch).
    exists pr. split; [by apply active_spec in Hn as [? _]|].
    destruct (choice_None_problems _ _ _ _ Hch) as [[Hb _]|(q & Hq & _ & Hk)]; [done|exfalso].
    assert (q ∈ lk_problems (links_of snapshot)) as Hqin.
    { destruct (links_spec snapshot) as (_ & _ & _ & ->). rewrite elem_of_app, elem_of_flat_map. right.
      exists pr. rewrite Hq. split; [|by left]. apply elem_of_active_values.
      by rewrite (active_keyed snapshot _ _ Hn). }
    destruct Hk as [Hk|[Hk|Hk]]; [apply Hre|apply Hmu|apply Hdb]; exists q; (split; [|done]);
      rewrite !elem_of_app; auto.
  - intros x y. fold (links_of snapshot). fold (parent_of snapshot). split.
    + intros Hpar. destruct (parent_active snapshot y x Hpar) as [Hy _].
      apply MB, elem_of_all_members in Hy as (d & Hd' & Hyd).
      exists (set_parked (active_of snapshot) d). split; [apply Hin; eauto|]. cbn.
      destruct (W d Hd') as (Hnew & _ & Hed).
      destruct (elem_of_head_or_pair _ _ Hyd) as [Hh|(x' & Hx')].
      * apply caravan_new_Some in Hnew as (_ & Hid & _). rewrite Hid in Hh. injection Hh as <-.
        apply RT, elem_of_roots in Hd' as [_ Hnone]. congruence.
      * assert (x' = x) as <-; [|done]. pose proof (child_link snapshot x' y (Hed x' y Hx')). congruence.
    + intros (c & (d & Hd' & ->)%Hin & Hpair). cbn in Hpair.
      destruct (W d Hd') as (_ & _ & Hed). by apply child_link, Hed.
Qed.

(** Cycle reports are exact: a pull request is named by a [cycle] problem
    if and only if following base branches from it leads back to it. *)
Theorem cycles_reported_exactly snapshot actor a n :
  derive_for_actor snapshot actor = Some a →
  (∃ q, q ∈ fl_problems (ga_fleet a) ∧ gp_kind q = Cycle ∧ n ∈ gp_prs q) ↔
  tc (λ x y, lk_parent_of (tp_links (topology_of snapshot)) !! x = Some y) n n.
Proof.
  intros Ha. destruct (derive_spec snapshot actor) as (rooted & headless & cs & b & cy & au & Hd & Hp).
  rewrite Hd in Ha. injection Ha as <-. cbn in *. destruct Hp as [_ _ Hb Hcy Hloop Hau].
  fold (links_of snapshot). fold (parent_of snapshot). split.
  - intros (q & Hq & Hk & Hn). rewrite !elem_of_app in Hq.
    destruct Hq as [[[[Hq|Hq]|Hq]|Hq]|Hq].
    + apply early_problems in Hq. by rewrite Hk in Hq.
    + by apply Hb in Hq as (l & p & _ & _ & ->).
    + apply Hcy in Hq as (c & -> & Hc). by apply (cyc_loops _ _ Hc).
    + by apply list_elem_of_fmap in Hq as (c & -> & _).
    + by apply Hau in Hq as (c & i & m & pr & _ & _ & _ & _ & ->).
  - intros Hl. destruct (Hloop n Hl) as (c & Hn & Hc). exists (cycle_problem c).
    split_and!; [|done|done]. rewrite !elem_of_app. auto.
Qed.

(** The rule of one position, as the documentation of the merge actor states it. *)
Definition breaks_merge_rule (actor : HeadMergeActor) (parked : bool) (position : nat)
    (state : AutoMergeState) : Prop :=
  (actor = ActorGithub ∧ position = 0 ∧ parked = false ∧
     ¬ (am_enabled state = true ∧ am_merge_method state = Some Squash)) ∨
  (¬ (actor = ActorGithub ∧ position = 0 ∧ parked = false) ∧ am_enabled state = true).

Lemma auto_merge_valid_false actor parked position pr :
  auto_merge_valid actor parked position pr = false ↔
  breaks_merge_rule actor parked position (pr_auto_merge pr).
Proof.
  unfold auto_merge_valid, root_must_be_armed, native_squash_armed, opt_eqb, breaks_merge_rule.
  destruct (am_enabled _); cbn.
  - destruct actor, position as [|i], parked; cbn; rewrite ?bool_decide_eq_false;
      intuition congruence.
  - destruct actor, position as [|i], parked; cbn; intuition congruence.
Qed.

(** Auto-merge reports are exact: a pull request is reported if and only if
    it is at some position of a caravan and breaks the rule of that position,
    squash auto-merge for an unparked head when GitHub is the merge actor, and
    no auto-merge anywhere else. *)
Theorem auto_merge_reported_exactly snapshot actor a n :
  derive_for_actor snapshot actor = Some a →
  (∃ q, q ∈ fl_problems (ga_fleet a) ∧ gp_kind q = AutoMergeInvariant ∧ n ∈ gp_prs q) ↔
  ∃ c i pr, c ∈ fl_caravans (ga_fleet a) ∧ cv_members c !! i = Some n ∧
    ga_pull_requests a !! n = Some pr ∧
    breaks_merge_rule actor (cv_parked c) i (pr_auto_merge pr).
Proof.
  intros Ha. destruct (derive_spec snapshot actor) as (rooted & headless & cs & b & cy & au & Hd & Hp).
  rewrite Hd in Ha. injection Ha as <-. cbn in *. destruct Hp as [Hcs Hspec Hb Hcy _ Hau].
  setoid_rewrite <-auto_merge_valid_false. split.
  - intros (q & Hq & Hk & Hn). rewrite !elem_of_app in Hq.
    destruct Hq as [[[[Hq|Hq]|Hq]|Hq]|Hq].
    + apply early_problems in Hq. by rewrite Hk in Hq.
    + by apply Hb in Hq as (l & p & _ & _ & ->).
    + by apply Hcy in Hq as (c & -> & Hc).
    + by apply list_elem_of_fmap in Hq as (c & -> & _).
    + apply Hau in Hq as (c & i & m & pr & Hc & Hi & Hm & Hv & ->). cbn in Hn.
      apply list_elem_of_singleton in Hn as ->. exists c, i, pr. split_and!; try done.
      by apply active_spec in Hm as [? _].
  - intros (c & i & pr & Hc & Hi & Hn & Hv). exists (auto_merge_problem actor (cv_parked c) i n).
    split_and!; [|done|by left]. rewrite !elem_of_app. right. apply Hau.
    exists c, i, n, pr. split_and!; try done.
    assert (is_Some (active_of snapshot !! n)) as [pr' Hn'].
    { apply (cs_members _ _ _ Hspec). rewrite <-(all_members_Permutation _ _ (sort_by_key_Permutation cv_id _)).
      rewrite <-(all_members_parked (active_of snapshot)), <-Hcs. apply elem_of_all_members.
      exists c. split; [done|]. by eapply list_elem_of_lookup_2. }
    rewrite Hn'. apply active_spec in Hn' as [Hn' _]. congruence.
Qed.

(** ** Discovery order *)

Definition with_pull_requests (s : RepositorySnapshot) (prs : list PullRequestSnapshot)
    : RepositorySnapshot :=
  mkRepositorySnapshot (rs_repository s) (rs_default_branch s) (rs_merge_candidates s)
    (rs_merge_candidates_truncated s) (rs_previous_default_oid s) (rs_default_branch_movements s)
    (rs_current_branch s) (rs_current_pr s) prs (rs_generation_facts s) (rs_observed_at s).

Lemma history_of_perm prs prs' : prs ≡ₚ prs' → history_of prs = history_of prs'.
Proof.
  intros Hp. unfold history_of.
  assert (List.filter (λ pr, state_is pr Merged && has_label pr "caravan") prs
    ≡ₚ List.filter (λ pr, state_is pr Merged && has_label pr "caravan") prs') as Hm
    by (by apply filter_b_Permutation).
  rewrite (vec_sort_perm_eq _ _ (omap_Permutation pr_merged_at _ _ Hm)), Hm.
  by rewrite (filter_b_Permutation _ _ _ Hp).
Qed.

(** A number that is listed twice is reported, and its last row counts: there
    the order of discovery does matter. *)
Lemma last_row_counts a b :
  pr_number a = pr_number b → ∃ problem,
    collect_pull_requests [a; b] = ({[pr_number b := b]}, [problem])
    ∧ gp_kind problem = DuplicateMember ∧ gp_prs problem = [pr_number b].
Proof.
  intros Hn. unfold collect_pull_requests. cbn. rewrite Hn, lookup_insert_eq, insert_insert_eq. by eexists.
Qed.

(** C35. The order in which the provider lists pull requests is irrelevant as
    long as it lists no number twice: two discoveries of the same rows, each
    number once, derive the same analysis, problems and their order included.
    (For a repeated number see [last_row_counts].) *)
Theorem derive_order_independent snapshot prs actor :
  NoDup (pr_number <$> rs_pull_requests snapshot) → rs_pull_requests snapshot ≡ₚ prs →
  derive_for_actor (with_pull_requests snapshot prs) actor = derive_for_actor snapshot actor.
Proof.
  intros Hnd Hp.
  assert (NoDup (pr_number <$> prs)) as Hnd' by (by rewrite <-Hp).
  destruct (collect_NoDup _ Hnd) as [Hm Hps], (collect_NoDup _ Hnd') as [Hm' Hps'].
  assert (collect_pull_requests prs = collect_pull_requests (rs_pull_requests snapshot)) as Hc.
  { rewrite (surjective_pairing (collect_pull_requests prs)),
      (surjective_pairing (collect_pull_requests (rs_pull_requests snapshot))), Hps, Hps'.
    f_equal. apply map_eq. intros n. apply option_eq. intros pr. by rewrite Hm, Hm', Hp. }
  assert (topology_of (with_pull_requests snapshot prs) = topology_of snapshot) as Ht.
  { unfold topology_of. cbn [with_pull_requests rs_pull_requests rs_repository rs_default_branch].
    by rewrite Hc. }
  unfold derive_for_actor. rewrite Ht.
  cbn [with_pull_requests rs_pull_requests rs_repository rs_default_branch].
  by rewrite (history_of_perm _ _ Hp).
Qed.

(** ** The fleet gate *)

Lemma scan_problem_prs_true fleet ns parked :
  scan_problem_prs fleet ns parked = true ↔
  (∃ n c, n ∈ ns ∧ containing fleet n = Some c ∧ cv_parked c = false) ∨
  (parked = false ∧ ∀ n, n ∈ ns → containing fleet n = None).
Proof.
  revert parked. induction ns as [|n ns IH]; intros parked; cbn.
  { rewrite negb_true_iff. split.
    - intros ->. right. split; [done|]. by intros n ?%elem_of_nil.
    - by intros [(n & c & ?%elem_of_nil & _)|[-> _]]. }
  destruct (containing fleet n) as [c|] eqn:Hc.
  - destruct (cv_parked c) eqn:Hpk; cbn.
    + rewrite IH. split.
      * intros [(m & d & Hm & H)|[? _]]; [|done]. left. exists m, d. split; [by right|done].
      * intros [(m & d & [->|Hm]%elem_of_cons & Hd & Hpk')|[_ H]]; [congruence|left; eauto|].
        specialize (H n ltac:(by left)). congruence.
    + split; [|done]. intros _. left. exists n, c. split; [by left|done].
  - rewrite IH. split.
    + intros [(m & d & Hm & H)|[-> H]].
      * left. exists m, d. split; [by right|done].
      * right. split; [done|]. intros m [->|Hm]%elem_of_cons; [done|by apply H].
    + intros [(m & d & [->|Hm]%elem_of_cons & Hd & Hpk)|[-> H]]; [congruence|left; eauto|].
      right. split; [done|]. intros m Hm. apply H. by right.
Qed.

(** Exactly these problems gate the active fleet: those of a blocking kind
    that name a member of some unparked caravan, and those of a blocking kind
    that name no caravan member at all. The fleet is healthy when there is none,
    so parked caravans and candidate-scoped or historical problems never gate. *)
Theorem active_fleet_gate self problem :
  (problem_blocks_active_fleet self problem = true ↔
     blocks_fleet (gp_kind problem) = true ∧
     ((∃ n c, n ∈ gp_prs problem ∧ containing (ga_fleet self) n = Some c ∧ cv_parked c = false) ∨
      (∀ n, n ∈ gp_prs problem → containing (ga_fleet self) n = None))) ∧
  (healthy self = true ↔
     ∀ q, q ∈ fl_problems (ga_fleet self) → problem_blocks_active_fleet self q = false).
Proof.
  split.
  - unfold problem_blocks_active_fleet. destruct (blocks_fleet _); cbn; [|naive_solver].
    rewrite scan_problem_prs_true. naive_solver.
  - unfold healthy. by rewrite negb_true_iff, existsb_false_elem_of.
Qed.

(** ** A concrete fleet *)

Definition sample_row (number : N) (head base : string) (state : PullRequestState)
    (labels : list string) (armed : bool) : PullRequestSnapshot :=
  mkPullRequestSnapshot number "t" "u" state false (sample_branch head head) (sample_branch base base)
    false (list_to_set labels) (if armed then auto_merge_squash else auto_merge_disabled) []
    None None None None.

Definition sample_snapshot (prs : list PullRequestSnapshot) : RepositorySnapshot :=
  mkRepositorySnapshot sample_repo (sample_branch "main" "main") [] 0 None [] None None prs [] None.

(** A rooted chain #1 <- #2 and an unqueued #9. *)
Definition chain_rows : list PullRequestSnapshot :=
  [sample_row 2 "b" "a" Open ["caravan"] false; sample_row 1 "a" "main" Open ["caravan"] true;
   sample_row 9 "x" "main" Open [] false].

(** A base cycle #3 <- #4 <- #3 beside an unarmed root #1. *)
Definition cycle_rows : list PullRequestSnapshot :=
  [sample_row 3 "c" "d" Open ["caravan"] false; sample_row 4 "d" "c" Open ["caravan"] false;
   sample_row 1 "a" "main" Open ["caravan"] false].

Definition analysis_of (prs : list PullRequestSnapshot) : GraphAnalysis :=
  match derive (sample_snapshot prs) with
  | Some a => a
  | None => derived (sample_snapshot prs) [] []
  end.

Lemma analysis_of_derived prs : derive_for_actor (sample_snapshot prs) actor_default = Some (analysis_of prs).
Proof.
  unfold analysis_of, derive.
  destruct (derive_spec (sample_snapshot prs) actor_default) as (? & ? & ? & ? & ? & ? & -> & _). done.
Qed.

Example chain_fleet :
  ((fl_caravans (ga_fleet (analysis_of chain_rows)), fl_unqueued (ga_fleet (analysis_of chain_rows))),
   fl_problems (ga_fleet (analysis_of chain_rows)))
  = (([mkCaravan 1 [1%N; 2%N] false], [9%N]), []).
Proof. vm_compute. reflexivity. Qed.

Lemma caravans_partition_active_witness :
  NoDup (all_members (fl_caravans (ga_fleet (analysis_of chain_rows)))) ∧
  all_members (fl_caravans (ga_fleet (analysis_of chain_rows))) = [1%N; 2%N].
Proof.
  split; [|vm_compute; reflexivity].
  exact (proj1 (caravans_partition_active _ _ _ (analysis_of_derived chain_rows))).
Defined.

Lemma caravan_follows_branches_witness :
  ∃ px py, ga_pull_requests (analysis_of chain_rows) !! 1%N = Some px ∧
    ga_pull_requests (analysis_of chain_rows) !! 2%N = Some py ∧
    br_name (pr_base py) = br_name (pr_head px).
Proof.
  destruct (caravan_follows_branches (sample_snapshot chain_rows) actor_default (analysis_of chain_rows)
    (mkCaravan 1 [1%N; 2%N] false) 1 2 (analysis_of_derived chain_rows))
    as (px & py & H1 & H2 & _ & _ & H3 & _).
  - apply mem_true. vm_compute. reflexivity.
  - cbn. by left.
  - exists px, py. split; [exact H1|]. split; [exact H2|exact H3].
Defined.

Lemma unproblematic_fleet_is_rooted_chains_witness :
  Forall (λ c, ∃ pr, ga_pull_requests (analysis_of chain_rows) !! cv_id c = Some pr ∧ br_name (pr_base pr) = "main")
    (fl_caravans (ga_fleet (analysis_of chain_rows))).
Proof.
  apply Forall_forall.
  assert (∀ k, ¬ has_problem (analysis_of chain_rows) k) as Hno.
  { intros k (q & Hq & _).
    replace (fl_problems (ga_fleet (analysis_of chain_rows))) with (@nil GraphProblem) in Hq
      by (vm_compute; reflexivity).
    by apply elem_of_nil in Hq. }
  apply (unproblematic_fleet_is_rooted_chains (sample_snapshot chain_rows) actor_default
    (analysis_of chain_rows) (analysis_of_derived chain_rows)); apply Hno.
Defined.

Lemma cycles_reported_exactly_witness :
  tc (λ x y, lk_parent_of (tp_links (topology_of (sample_snapshot cycle_rows))) !! x = Some y) 3%N 3%N.
Proof.
  apply (cycles_reported_exactly (sample_snapshot cycle_rows) actor_default (analysis_of cycle_rows) 3
    (analysis_of_derived cycle_rows)).
  exists (cycle_problem [3%N; 4%N]). split_and!; [|reflexivity|cbn; by left].
  apply mem_true. vm_compute. reflexivity.
Defined.

Lemma auto_merge_reported_exactly_witness :
  ∃ c i pr, c ∈ fl_caravans (ga_fleet (analysis_of cycle_rows)) ∧ cv_members c !! i = Some 1%N ∧
    ga_pull_requests (analysis_of cycle_rows) !! 1%N = Some pr ∧
    breaks_merge_rule actor_default (cv_parked c) i (pr_auto_merge pr).
Proof.
  apply (auto_merge_reported_exactly (sample_snapshot cycle_rows) actor_default (analysis_of cycle_rows) 1
    (analysis_of_derived cycle_rows)).
  exists (auto_merge_problem actor_default false 0 1). split_and!; [|reflexivity|cbn; by left].
  apply mem_true. vm_compute. reflexivity.
Defined.

Lemma derive_order_independent_witness :
  derive_for_actor (with_pull_requests (sample_snapshot chain_rows) (rev chain_rows)) actor_default
  = derive_for_actor (sample_snapshot chain_rows) actor_default.
Proof.
  apply (derive_order_independent (sample_snapshot chain_rows) (rev chain_rows) actor_default).
  - assert (bool_decide (NoDup (pr_number <$> chain_rows)) = true) as H by (vm_compute; reflexivity).
    exact (bool_decide_eq_true_1 _ H).
  - apply Permutation_rev.
Defined.
