(* ===== verification/Analysis.v ===== *)
(** Mechanical compatibility analysis: [compatibility_tasks] and
    [analyze_for_actor_internal] of src/src/graph.rs.

    A derived graph is checked by a list of Git comparisons against a checker,
    optionally under a deadline. The checker and the clock are effects: each call
    takes a world and returns one, so a checker may cache, fail, or answer
    differently later. A task that fails has kept what it recorded before the
    failure, as the [&mut GraphAnalysis] of the code does. *)

From Stdlib Require Import String.
From S2P Require Import Prelude Text Model Squash RequiredRuns Graph GraphProofs.

#[local] Open Scope string_scope.
#[local] Open Scope list_scope.
#[local] Open Scope nat_scope.

Record CompatibilityAnalysisProgress := mkProgress {
  cp_complete : bool;
  cp_revision_preparation_complete : bool;
  cp_candidate_count : nat;
  cp_unqueued_candidate_count : nat;
  cp_caravan_count : nat;
  cp_branch_count : nat;
  cp_planned_analyses : nat;
  cp_completed_analyses : nat;
  cp_deferred_analyses : list string;
  cp_deferred_analyses_truncated : nat;
  cp_skipped_analyses : list string;
  cp_skipped_analyses_truncated : nat }.

Record BoundedGraphAnalysis := mkBounded {
  bd_analysis : GraphAnalysis;
  bd_progress : CompatibilityAnalysisProgress }.

(** What the graph analysis asks of a compatibility checker. *)
Class CompatibilityChecker (W E : Type) := {
  prepare : list BranchSnapshot → W → result unit E * W;
  check : BranchSnapshot → BranchSnapshot → W → result CompatibilityReport E * W;
  cumulative_tree : BranchSnapshot → BranchSnapshot → W → result (option CumulativeTreeProof) E * W;
  squash_equivalence : BranchSnapshot → BranchSnapshot → W →
    result (option SquashEquivalenceReport) E * W }.

Inductive CompatibilityAnalysisTask :=
| TaskFleet (description : string) (candidate target : BranchSnapshot) (prs : list PrNumber)
    (message : string)
| TaskCumulativeTree (description : string) (candidate target : BranchSnapshot)
| TaskAdmissionCandidate (description : string) (candidate target : BranchSnapshot) (pr : PrNumber).

Definition description (task : CompatibilityAnalysisTask) : string :=
  match task with
  | TaskFleet d _ _ _ _ | TaskCumulativeTree d _ _ | TaskAdmissionCandidate d _ _ _ => d
  end.

Definition MAX_ANALYSIS_PROGRESS_SAMPLES : nat := 64.
Definition LEADING_CANDIDATE_COMPATIBILITY_BOUND : nat := 3.
#[global] Arguments MAX_ANALYSIS_PROGRESS_SAMPLES : simpl never.
#[global] Arguments LEADING_CANDIDATE_COMPATIBILITY_BOUND : simpl never.

(** The samples and the count of those left out. *)
Definition push_progress_sample (samples : list string * nat) (sample : string) : list string * nat :=
  if length samples.1 <? MAX_ANALYSIS_PROGRESS_SAMPLES
  then (samples.1 ++ [sample], samples.2) else (samples.1, S samples.2).

Definition set_deferred (p : CompatibilityAnalysisProgress) (d : list string * nat)
    : CompatibilityAnalysisProgress :=
  mkProgress (cp_complete p) (cp_revision_preparation_complete p) (cp_candidate_count p)
    (cp_unqueued_candidate_count p) (cp_caravan_count p) (cp_branch_count p)
    (cp_planned_analyses p) (cp_completed_analyses p) d.1 d.2
    (cp_skipped_analyses p) (cp_skipped_analyses_truncated p).

Definition defer_tasks (progress : CompatibilityAnalysisProgress)
    (tasks : list CompatibilityAnalysisTask) : CompatibilityAnalysisProgress :=
  set_deferred progress
    (foldl (λ samples task, push_progress_sample samples (description task))
       (cp_deferred_analyses progress, cp_deferred_analyses_truncated progress) tasks).

(** ** Planning *)

Section planning.
Context (default_branch : BranchSnapshot) (rows : gmap PrNumber PullRequestSnapshot).

(** [analysis.pull_requests.get(n).expect(..).head]. *)
Definition head_branch (n : PrNumber) : option BranchSnapshot := pr_head <$> rows !! n.

Fixpoint adjacent_tasks (edges : list (PrNumber * PrNumber)) : option (list CompatibilityAnalysisTask) :=
  match edges with
  | [] => Some []
  | (parent, child) :: rest =>
      match head_branch parent, head_branch child with
      | Some parent_branch, Some child_branch =>
          (TaskFleet (fmt ["adjacent:pr#"; show_pr child; "->pr#"; show_pr parent])
             child_branch parent_branch [parent; child]
             "adjacent caravan PRs are not mechanically compatible" ::.) <$> adjacent_tasks rest
      | _, _ => None
      end
  end.

Definition caravan_tasks (caravan : Caravan) : option (list CompatibilityAnalysisTask) :=
  match caravan_head caravan with
  | None => Some []
  | Some head_number =>
      match head_branch head_number, adjacent_tasks (pairs (cv_members caravan)) with
      | Some branch, Some adjacent =>
          Some (TaskFleet (fmt ["head_to_default:pr#"; show_pr head_number]) branch default_branch
                  [head_number]
                  "caravan head does not merge cleanly into the current default branch"
                :: TaskCumulativeTree (fmt ["cumulative_tree:pr#"; show_pr head_number]) branch
                     default_branch
                :: adjacent)
      | _, _ => None
      end
  end.

Definition cross_task (caravan other : Caravan) : option (list CompatibilityAnalysisTask) :=
  match caravan_head caravan, caravan_tail other with
  | Some head_number, Some tail_number =>
      match head_branch head_number, head_branch tail_number with
      | Some branch, Some tail_branch =>
          Some [TaskFleet (fmt ["cross_caravan:pr#"; show_pr head_number; "->pr#"; show_pr tail_number])
                  branch tail_branch [head_number; tail_number]
                  "one caravan head cannot be attached after another caravan tail"]
      | _, _ => None
      end
  | _, _ => Some []
  end.

(** Concatenate the outputs of a loop, stopping at the first panic. *)
Fixpoint flat_map_opt {A B} (f : A → option (list B)) (l : list A) : option (list B) :=
  match l with
  | [] => Some []
  | x :: l' =>
      match f x, flat_map_opt f l' with
      | Some a, Some b => Some (a ++ b)
      | _, _ => None
      end
  end.

(** The two nested loops over [caravans.iter().enumerate()]. *)
Definition cross_tasks (caravans : list Caravan) : option (list CompatibilityAnalysisTask) :=
  let unparked := List.filter (λ p, negb (cv_parked p.2)) (imap pair caravans) in
  flat_map_opt (λ '(index, caravan),
    flat_map_opt (λ '(other_index, other),
      if index =? other_index then Some [] else cross_task caravan other) unparked) unparked.

(** The reason a candidate is not proven, and the number selected so far. *)
Definition candidate_reason (selected : nat) (candidate : PullRequestSnapshot) : option string * nat :=
  if has_label candidate "caravan-join-skipped" then (Some "generation_bound_skip", selected)
  else if LEADING_CANDIDATE_COMPATIBILITY_BOUND <=? selected
  then (Some "leading_candidate_bound", selected)
  else (if pr_cross_repository candidate then Some "cross_repository"
        else if pr_draft candidate then Some "draft" else None, S selected).

Fixpoint candidate_tasks (unqueued : list PrNumber) (selected : nat) (skipped : list string * nat)
    : list CompatibilityAnalysisTask * (list string * nat) :=
  match unqueued with
  | [] => ([], skipped)
  | number :: rest =>
      match rows !! number with
      | None => candidate_tasks rest selected skipped
      | Some candidate =>
          match candidate_reason selected candidate with
          | (Some reason, selected) =>
              candidate_tasks rest selected
                (push_progress_sample skipped
                   (fmt ["candidate_to_default:pr#"; show_pr number; ":"; reason]))
          | (None, selected) =>
              let '(tasks, skipped) := candidate_tasks rest selected skipped in
              (TaskAdmissionCandidate (fmt ["candidate_to_default:pr#"; show_pr number])
                 (pr_head candidate) default_branch number :: tasks, skipped)
          end
      end
  end.
End planning.

Definition set_skipped (p : CompatibilityAnalysisProgress) (s : list string * nat)
    : CompatibilityAnalysisProgress :=
  mkProgress (cp_complete p) (cp_revision_preparation_complete p) (cp_candidate_count p)
    (cp_unqueued_candidate_count p) (cp_caravan_count p) (cp_branch_count p)
    (cp_planned_analyses p) (cp_completed_analyses p) (cp_deferred_analyses p)
    (cp_deferred_analyses_truncated p) s.1 s.2.

Definition compatibility_tasks (snapshot : RepositorySnapshot) (analysis : GraphAnalysis)
    (progress : CompatibilityAnalysisProgress)
    : option (list CompatibilityAnalysisTask * CompatibilityAnalysisProgress) :=
  let rows := ga_pull_requests analysis in
  let caravans := fl_caravans (ga_fleet analysis) in
  match flat_map_opt (caravan_tasks (rs_default_branch snapshot) rows) caravans,
        cross_tasks rows caravans with
  | Some own, Some cross =>
      let '(admission, skipped) :=
        candidate_tasks (rs_default_branch snapshot) rows (fl_unqueued (ga_fleet analysis)) 0
          (cp_skipped_analyses progress, cp_skipped_analyses_truncated progress) in
      Some (own ++ cross ++ admission, set_skipped progress skipped)
  | _, _ => None
  end.

(** ** Recording evidence *)

Definition push_fleet_problem (a : GraphAnalysis) (problem : GraphProblem) : GraphAnalysis :=
  let f := ga_fleet a in
  mkGraphAnalysis
    (mkCaravanFleet (fl_repository f) (fl_default_branch f) (fl_caravans f) (fl_unqueued f)
       (fl_problems f ++ [problem]) (fl_history f))
    (ga_required_policy a) (ga_pull_requests a) (ga_compatibility a) (ga_cumulative_trees a)
    (ga_squash_reconciliations a).
Definition push_report (a : GraphAnalysis) (report : CompatibilityReport) : GraphAnalysis :=
  mkGraphAnalysis (ga_fleet a) (ga_required_policy a) (ga_pull_requests a)
    (ga_compatibility a ++ [report]) (ga_cumulative_trees a) (ga_squash_reconciliations a).
Definition push_proof (a : GraphAnalysis) (proof : CumulativeTreeProof) : GraphAnalysis :=
  mkGraphAnalysis (ga_fleet a) (ga_required_policy a) (ga_pull_requests a)
    (ga_compatibility a) (ga_cumulative_trees a ++ [proof]) (ga_squash_reconciliations a).
Definition push_reconciliation (a : GraphAnalysis) (r : SquashEquivalenceReport) : GraphAnalysis :=
  mkGraphAnalysis (ga_fleet a) (ga_required_policy a) (ga_pull_requests a)
    (ga_compatibility a) (ga_cumulative_trees a) (ga_squash_reconciliations a ++ [r]).

Definition is_clean (report : CompatibilityReport) : bool := bool_decide (cr_outcome report = Clean).

Definition candidate_message : string :=
  "leading admission candidate does not merge cleanly into the current default branch".

Definition record_candidate_compatibility (analysis : GraphAnalysis) (report : CompatibilityReport)
    (pr : PrNumber) (message : string) : GraphAnalysis :=
  push_report
    (if negb (is_clean report)
     then push_fleet_problem analysis (mkGraphProblem CandidateIncompatible [pr] message) else analysis)
    report.

Section run.
Context {W E : Type} `{CompatibilityChecker W E}.
(** [Instant::now()], and whether an error's category is a timeout. *)
Context (now : W → N * W) (analysis_timed_out : E → bool).

Definition record_compatibility (analysis : GraphAnalysis) (report : CompatibilityReport)
    (prs : list PrNumber) (message : string) (w : W) : result unit E * GraphAnalysis * W :=
  if negb (is_clean report) then
    let analysis := push_fleet_problem analysis (mkGraphProblem Incompatible prs message) in
    match squash_equivalence (cr_candidate report) (cr_target report) w with
    | (Err e, w) => (Err e, analysis, w)
    | (Ok (Some r), w) => (Ok tt, push_report (push_reconciliation analysis r) report, w)
    | (Ok None, w) => (Ok tt, push_report analysis report, w)
    end
  else (Ok tt, push_report analysis report, w).

Definition execute (task : CompatibilityAnalysisTask) (analysis : GraphAnalysis) (w : W)
    : result unit E * GraphAnalysis * W :=
  match task with
  | TaskFleet _ candidate target prs message =>
      match check candidate target w with
      | (Err e, w) => (Err e, analysis, w)
      | (Ok report, w) => record_compatibility analysis report prs message w
      end
  | TaskCumulativeTree _ candidate target =>
      match cumulative_tree candidate target w with
      | (Err e, w) => (Err e, analysis, w)
      | (Ok (Some proof), w) => (Ok tt, push_proof analysis proof, w)
      | (Ok None, w) => (Ok tt, analysis, w)
      end
  | TaskAdmissionCandidate _ candidate target pr =>
      match check candidate target w with
      | (Err e, w) => (Err e, analysis, w)
      | (Ok report, w) =>
          (Ok tt, record_candidate_compatibility analysis report pr candidate_message, w)
      end
  end.

(** [analysis_deadline.is_some_and(|deadline| Instant::now() >= deadline)]:
    without a deadline the clock is not read. *)
Definition past_deadline (deadline : option N) (w : W) : bool * W :=
  match deadline with
  | None => (false, w)
  | Some d => let '(t, w) := now w in ((d <=? t)%N, w)
  end.

Definition completed_one (p : CompatibilityAnalysisProgress) : CompatibilityAnalysisProgress :=
  mkProgress (cp_complete p) (cp_revision_preparation_complete p) (cp_candidate_count p)
    (cp_unqueued_candidate_count p) (cp_caravan_count p) (cp_branch_count p)
    (cp_planned_analyses p) (S (cp_completed_analyses p)) (cp_deferred_analyses p)
    (cp_deferred_analyses_truncated p) (cp_skipped_analyses p) (cp_skipped_analyses_truncated p).
Definition mark_complete (p : CompatibilityAnalysisProgress) : CompatibilityAnalysisProgress :=
  mkProgress true (cp_revision_preparation_complete p) (cp_candidate_count p)
    (cp_unqueued_candidate_count p) (cp_caravan_count p) (cp_branch_count p)
    (cp_planned_analyses p) (cp_completed_analyses p) (cp_deferred_analyses p)
    (cp_deferred_analyses_truncated p) (cp_skipped_analyses p) (cp_skipped_analyses_truncated p).
Definition mark_prepared (p : CompatibilityAnalysisProgress) : CompatibilityAnalysisProgress :=
  mkProgress (cp_complete p) true (cp_candidate_count p)
    (cp_unqueued_candidate_count p) (cp_caravan_count p) (cp_branch_count p)
    (cp_planned_analyses p) (cp_completed_analyses p) (cp_deferred_analyses p)
    (cp_deferred_analyses_truncated p) (cp_skipped_analyses p) (cp_skipped_analyses_truncated p).
Definition set_planned (p : CompatibilityAnalysisProgress) (n : nat) : CompatibilityAnalysisProgress :=
  mkProgress (cp_complete p) (cp_revision_preparation_complete p) (cp_candidate_count p)
    (cp_unqueued_candidate_count p) (cp_caravan_count p) (cp_branch_count p)
    n (cp_completed_analyses p) (cp_deferred_analyses p)
    (cp_deferred_analyses_truncated p) (cp_skipped_analyses p) (cp_skipped_analyses_truncated p).

(** The loop over [tasks]; [tasks[index..]] is the list still to run. *)
Fixpoint run_tasks (deadline : option N) (tasks : list CompatibilityAnalysisTask)
    (analysis : GraphAnalysis) (progress : CompatibilityAnalysisProgress) (w : W)
    : result BoundedGraphAnalysis E * W :=
  match tasks with
  | [] => (Ok (mkBounded analysis (mark_complete progress)), w)
  | task :: rest =>
      match past_deadline deadline w with
      | (true, w) => (Ok (mkBounded analysis (defer_tasks progress tasks)), w)
      | (false, w) =>
          match execute task analysis w with
          | (Err e, analysis, w) =>
              if is_some_b deadline && analysis_timed_out e
              then (Ok (mkBounded analysis (defer_tasks progress tasks)), w)
              else (Err e, w)
          | (Ok _, analysis, w) => run_tasks deadline rest analysis (completed_one progress) w
          end
      end
  end.

(** The revisions prepared once: the default branch and every caravan member. *)
Definition prepared_branches (snapshot : RepositorySnapshot) (analysis : GraphAnalysis)
    : list BranchSnapshot :=
  let branches := rs_default_branch snapshot ::
    flat_map (λ caravan, omap (λ number, pr_head <$> ga_pull_requests analysis !! number)
                (cv_members caravan)) (fl_caravans (ga_fleet analysis)) in
  dedup_by (λ l r, String.eqb (br_name l) (br_name r) && String.eqb (br_oid l) (br_oid r))
    (sort_by_key (λ b, (br_name b, br_oid b)) branches).

Definition initial_progress (snapshot : RepositorySnapshot) (analysis : GraphAnalysis)
    : CompatibilityAnalysisProgress :=
  mkProgress false false (length (rs_pull_requests snapshot))
    (length (fl_unqueued (ga_fleet analysis))) (length (fl_caravans (ga_fleet analysis)))
    (length (prepared_branches snapshot analysis)) 0 0 [] 0 [] 0.

(** [None] is a panic. *)
Definition analyze_for_actor_internal (snapshot : RepositorySnapshot) (actor : HeadMergeActor)
    (deadline : option N) (w : W) : option (result BoundedGraphAnalysis E * W) :=
  match derive_for_actor snapshot actor with
  | None => None
  | Some analysis =>
      match compatibility_tasks snapshot analysis (initial_progress snapshot analysis) with
      | None => None
      | Some (tasks, progress) =>
          let progress := set_planned progress (length tasks) in
          Some (match past_deadline deadline w with
                | (true, w) => (Ok (mkBounded analysis (defer_tasks progress tasks)), w)
                | (false, w) =>
                    match prepare (prepared_branches snapshot analysis) w with
                    | (Err e, w) =>
                        if is_some_b deadline && analysis_timed_out e
                        then (Ok (mkBounded analysis (defer_tasks progress tasks)), w)
                        else (Err e, w)
                    | (Ok _, w) => run_tasks deadline tasks analysis (mark_prepared progress) w
                    end
                end)
      end
  end.

Definition analyze_for_actor_with_progress (snapshot : RepositorySnapshot) (actor : HeadMergeActor)
    (w : W) : option (result BoundedGraphAnalysis E * W) :=
  analyze_for_actor_internal snapshot actor None w.

Definition analyze_for_actor_bounded (snapshot : RepositorySnapshot) (actor : HeadMergeActor)
    (analysis_deadline : N) (w : W) : option (result BoundedGraphAnalysis E * W) :=
  analyze_for_actor_internal snapshot actor (Some analysis_deadline) w.

Definition analyze_for_actor (snapshot : RepositorySnapshot) (actor : HeadMergeActor) (w : W)
    : option (result GraphAnalysis E * W) :=
  (λ '(r, w), (match r with Ok b => Ok (bd_analysis b) | Err e => Err e end, w))
    <$> analyze_for_actor_with_progress snapshot actor w.

Definition analyze (snapshot : RepositorySnapshot) (w : W) : option (result GraphAnalysis E * W) :=
  analyze_for_actor snapshot actor_default w.
End run.
