(* ===== verification/AnalysisProofs.v ===== *)
(** Correctness of the compatibility analysis of Analysis.v: what is planned,
    how a run accounts for every planned task, and what evidence it leaves. *)

From Stdlib Require Import String.
From S2P Require Import Prelude Text Model Squash RequiredRuns Graph GraphProofs Analysis.

#[local] Open Scope string_scope.
#[local] Open Scope list_scope.
#[local] Open Scope nat_scope.

(** ** Planning never panics *)

Lemma flat_map_opt_spec {A B} (f : A → option (list B)) l :
  (∀ x, x ∈ l → is_Some (f x)) →
  ∃ r, flat_map_opt f l = Some r ∧ ∀ y, y ∈ r ↔ ∃ x ys, x ∈ l ∧ f x = Some ys ∧ y ∈ ys.
Proof.
  induction l as [|x l IH]; intros Hall; cbn.
  { exists []. split; [done|]. intros y. rewrite elem_of_nil. split; [done|].
    by intros (x & ys & ?%elem_of_nil & _). }
  destruct (Hall x ltac:(by left)) as [ys Hys]. rewrite Hys.
  destruct IH as (r & -> & Hr); [intros z Hz; apply Hall; by right|].
  eexists. split; [done|]. intros y. rewrite elem_of_app, Hr. split.
  - intros [Hy|(z & zs & Hz & Hzs & Hy)].
    + exists x, ys. split_and!; [by left|done..].
    + exists z, zs. split_and!; [by right|done..].
  - intros (z & zs & [->|Hz]%elem_of_cons & Hzs & Hy).
    + left. congruence.
    + right. eauto.
Qed.

Section plan.
Context (default_branch : BranchSnapshot) (rows : gmap N PullRequestSnapshot).

(** A caravan of a derived fleet: every member is a known row. *)
Definition known (c : Caravan) : Prop :=
  caravan_head c = Some (cv_id c) ∧ ∀ n, n ∈ cv_members c → is_Some (rows !! n).

Lemma adjacent_tasks_spec edges :
  (∀ x y, (x, y) ∈ edges → is_Some (rows !! x) ∧ is_Some (rows !! y)) →
  ∃ tasks, adjacent_tasks rows edges = Some tasks ∧
    ∀ t, t ∈ tasks ↔ ∃ x y px py, (x, y) ∈ edges ∧ rows !! x = Some px ∧ rows !! y = Some py ∧
      t = TaskFleet (fmt ["adjacent:pr#"; show_pr y; "->pr#"; show_pr x]) (pr_head py) (pr_head px)
            [x; y] "adjacent caravan PRs are not mechanically compatible".
Proof.
  induction edges as [|[x y] edges IH]; intros Hall; cbn.
  { exists []. split; [done|]. intros t. rewrite elem_of_nil. split; [done|].
    by intros (x & y & px & py & ?%elem_of_nil & _). }
  destruct (Hall x y ltac:(by left)) as [[px Hx] [py Hy]]. unfold head_branch. rewrite Hx, Hy.
  destruct IH as (tasks & -> & Ht); [intros x' y' Hxy; apply Hall; by right|].
  eexists. split; [done|]. intros t. rewrite elem_of_cons, Ht. split.
  - intros [->|(x' & y' & px' & py' & Hin & H)].
    + exists x, y, px, py. split_and!; [by left|done..].
    + exists x', y', px', py'. split; [by right|done].
  - intros (x' & y' & px' & py' & [[= -> ->]|Hin]%elem_of_cons & Hx' & Hy' & ->).
    + left. rewrite Hx in Hx'. rewrite Hy in Hy'. by injection Hx' as ->; injection Hy' as ->.
    + right. eauto 10.
Qed.

Lemma known_head c : known c → is_Some (rows !! cv_id c).
Proof.
  intros [Hh Hk]. apply Hk. unfold caravan_head in Hh. destruct (cv_members c); [done|].
  cbn in Hh. injection Hh as ->. by left.
Qed.

Lemma caravan_tasks_spec c :
  known c →
  ∃ tasks adjacent ph, caravan_tasks default_branch rows c = Some tasks ∧
    rows !! cv_id c = Some ph ∧ adjacent_tasks rows (pairs (cv_members c)) = Some adjacent ∧
    tasks = TaskFleet (fmt ["head_to_default:pr#"; show_pr (cv_id c)]) (pr_head ph) default_branch
              [cv_id c] "caravan head does not merge cleanly into the current default branch"
            :: TaskCumulativeTree (fmt ["cumulative_tree:pr#"; show_pr (cv_id c)]) (pr_head ph)
                 default_branch
            :: adjacent.
Proof.
  intros Hkn. destruct (known_head c Hkn) as [ph Hph]. destruct Hkn as [Hh Hk].
  unfold caravan_tasks, head_branch. rewrite Hh.
  destruct (adjacent_tasks_spec (pairs (cv_members c))) as (adjacent & Ha & _).
  { intros x y [Hx Hy]%pairs_elem_of. split; by apply Hk. }
  rewrite Hph, Ha. cbn. eauto 8.
Qed.

Lemma known_tail c : known c → ∃ t, caravan_tail c = Some t ∧ t ∈ cv_members c.
Proof.
  intros [Hh _]. unfold caravan_head, caravan_tail in *. destruct (cv_members c) as [|x l] eqn:E; [done|].
  destruct (last (x :: l)) as [t|] eqn:Hl; [|by apply last_None in Hl].
  exists t. split; [done|]. apply last_Some in Hl as [l' ->]. rewrite elem_of_app. right. by left.
Qed.

Lemma cross_task_spec c o :
  known c → known o →
  ∃ ph pt t, cross_task rows c o = Some
    [TaskFleet (fmt ["cross_caravan:pr#"; show_pr (cv_id c); "->pr#"; show_pr t]) (pr_head ph)
       (pr_head pt) [cv_id c; t] "one caravan head cannot be attached after another caravan tail"] ∧
    rows !! cv_id c = Some ph ∧ caravan_tail o = Some t ∧ rows !! t = Some pt.
Proof.
  intros Hc Ho. destruct (known_head c Hc) as [ph Hph].
  destruct (known_tail o Ho) as (t & Ht & Hin). destruct Ho as [_ Ho]. destruct (Ho t Hin) as [pt Hpt].
  destruct Hc as [Hh _].
  exists ph, pt, t. unfold cross_task, head_branch. rewrite Hh, Ht, Hph, Hpt. done.
Qed.

Lemma elem_of_indexed (caravans : list Caravan) i c :
  (i, c) ∈ List.filter (λ p : nat * Caravan, negb (cv_parked p.2)) (imap pair caravans) ↔
  caravans !! i = Some c ∧ cv_parked c = false.
Proof.
  rewrite elem_of_list_filter_b, negb_true_iff. cbn. rewrite elem_of_lookup_imap. split.
  - intros [(j & d & [= <- <-] & Hj) Hp]. done.
  - intros [Hi Hp]. split; [|done]. exists i, c. done.
Qed.

Lemma cross_tasks_spec caravans :
  (∀ c, c ∈ caravans → known c) →
  ∃ tasks, cross_tasks rows caravans = Some tasks ∧
    ∀ t, t ∈ tasks ↔ ∃ i j c o ts, i ≠ j ∧ caravans !! i = Some c ∧ caravans !! j = Some o ∧
      cv_parked c = false ∧ cv_parked o = false ∧ cross_task rows c o = Some ts ∧ t ∈ ts.
Proof.
  intros Hk. unfold cross_tasks.
  set (unparked := List.filter _ _).
  assert (∀ i c, (i, c) ∈ unparked → known c) as Hku.
  { intros i c [Hi _]%elem_of_indexed. apply Hk. by eapply list_elem_of_lookup_2. }
  assert (∀ i c, (i, c) ∈ unparked → ∃ r,
    flat_map_opt (λ '(other_index, other), if i =? other_index then Some [] else cross_task rows c other)
      unparked = Some r ∧
    ∀ t, t ∈ r ↔ ∃ j o ts, i ≠ j ∧ (j, o) ∈ unparked ∧ cross_task rows c o = Some ts ∧ t ∈ ts) as Hinner.
  { intros i c Hic. destruct (flat_map_opt_spec (λ '(other_index, other),
      if i =? other_index then Some [] else cross_task rows c other) unparked) as (r & Hr & Hspec).
    { intros [j o] Hjo. destruct (i =? j); [eauto|].
      destruct (cross_task_spec c o) as (? & ? & ? & -> & _); eauto. }
    exists r. split; [done|]. intros t. rewrite Hspec. split.
    - intros ([j o] & ts & Hjo & Hts & Ht). destruct (Nat.eqb_spec i j).
      + injection Hts as <-. by apply elem_of_nil in Ht.
      + eauto 8.
    - intros (j & o & ts & Hne & Hjo & Hts & Ht). exists (j, o), ts. split_and!; [done| |done].
      by destruct (Nat.eqb_spec i j). }
  destruct (flat_map_opt_spec (λ '(index, caravan),
    flat_map_opt (λ '(other_index, other),
      if index =? other_index then Some [] else cross_task rows caravan other) unparked) unparked)
    as (r & Hr & Hspec).
  { intros [i c] Hic. destruct (Hinner i c Hic) as (ts & -> & _). eauto. }
  exists r. split; [done|]. intros t. rewrite Hspec. split.
  - intros ([i c] & ts & Hic & Hts & Ht). destruct (Hinner i c Hic) as (ts' & Hts' & Hin).
    assert (ts' = ts) as -> by congruence. apply Hin in Ht as (j & o & us & Hne & Hjo & Hus & Htu).
    apply elem_of_indexed in Hic as [Hi Hp], Hjo as [Hj Hq]. exists i, j, c, o, us. done.
  - intros (i & j & c & o & us & Hne & Hi & Hj & Hp & Hq & Hus & Ht).
    assert ((i, c) ∈ unparked) as Hic by (by apply elem_of_indexed).
    destruct (Hinner i c Hic) as (ts & Hts & Hin). exists (i, c), ts. split_and!; [done|done|].
    apply Hin. exists j, o, us. split_and!; [done| |done|done]. by apply elem_of_indexed.
Qed.

(** A candidate that may be proven. *)
Definition provable (unqueued : list N) (t : CompatibilityAnalysisTask) : Prop :=
  ∃ n row, n ∈ unqueued ∧ rows !! n = Some row ∧ has_label row "caravan-join-skipped" = false ∧
    pr_cross_repository row = false ∧ pr_draft row = false ∧
    t = TaskAdmissionCandidate (fmt ["candidate_to_default:pr#"; show_pr n]) (pr_head row) default_branch n.

Lemma candidate_tasks_spec unqueued selected skipped :
  length (candidate_tasks default_branch rows unqueued selected skipped).1
    ≤ LEADING_CANDIDATE_COMPATIBILITY_BOUND - selected ∧
  ∀ t, t ∈ (candidate_tasks default_branch rows unqueued selected skipped).1 → provable unqueued t.
Proof.
  revert selected skipped. induction unqueued as [|n unqueued IH]; intros selected skipped; cbn.
  { split; [lia|]. by intros t ?%elem_of_nil. }
  assert (∀ t, provable unqueued t → provable (n :: unqueued) t) as Hmono.
  { intros t (m & row & Hm & H). exists m, row. split; [by right|done]. }
  destruct (rows !! n) as [row|] eqn:Hrow.
  2:{ destruct (IH selected skipped) as [H1 H2]. split; [done|]. auto. }
  unfold candidate_reason.
  destruct (has_label row "caravan-join-skipped") eqn:Hskip.
  { match goal with |- context [candidate_tasks _ _ _ _ ?s] => destruct (IH selected s) as [H1 H2] end. auto. }
  destruct (Nat.leb_spec LEADING_CANDIDATE_COMPATIBILITY_BOUND selected).
  { match goal with |- context [candidate_tasks _ _ _ _ ?s] => destruct (IH selected s) as [H1 H2] end. auto. }
  destruct (pr_cross_repository row) eqn:Hcross.
  { match goal with |- context [candidate_tasks _ _ _ _ ?s] => destruct (IH (S selected) s) as [H1 H2] end.
    split; [lia|auto]. }
  destruct (pr_draft row) eqn:Hdraft.
  { match goal with |- context [candidate_tasks _ _ _ _ ?s] => destruct (IH (S selected) s) as [H1 H2] end.
    split; [lia|auto]. }
  destruct (IH (S selected) skipped) as [H1 H2].
  destruct (candidate_tasks _ _ _ _ _) as [tasks sk]; cbn in *. split; [lia|].
  intros t [->|Ht]%elem_of_cons; [|auto]. exists n, row. split; [by left|done].
Qed.

(** The comparison a fleet task asks for, as its pull requests. *)
Definition fleet_prs (t : CompatibilityAnalysisTask) : option (list N) :=
  match t with TaskFleet _ _ _ prs _ => Some prs | _ => None end.
Definition is_admission (t : CompatibilityAnalysisTask) : bool :=
  match t with TaskAdmissionCandidate _ _ _ _ => true | _ => false end.

Lemma caravan_tasks_prs c tasks :
  known c → caravan_tasks default_branch rows c = Some tasks →
  (∀ t, t ∈ tasks → is_admission t = false) ∧
  ∀ prs, (∃ t, t ∈ tasks ∧ fleet_prs t = Some prs) ↔
    prs = [cv_id c] ∨ ∃ x y, (x, y) ∈ pairs (cv_members c) ∧ prs = [x; y].
Proof.
  intros Hk Ht. destruct (caravan_tasks_spec c Hk) as (ts & adj & ph & Hts & _ & Hadj & ->).
  rewrite Hts in Ht. injection Ht as <-.
  destruct (adjacent_tasks_spec (pairs (cv_members c))) as (adj' & Hadj' & Hspec).
  { intros x y [Hx Hy]%pairs_elem_of. destruct Hk. auto. }
  assert (adj' = adj) as -> by congruence. split.
  - intros t. rewrite !elem_of_cons. intros [->|[->|Hin]]; [done..|].
    by apply Hspec in Hin as (x & y & px & py & _ & _ & _ & ->).
  - intros prs. setoid_rewrite elem_of_cons. setoid_rewrite elem_of_cons. split.
    + intros (t & [->|[->|Hin]] & Hp); [left; by injection Hp as <-|done|right].
      apply Hspec in Hin as (x & y & px & py & Hxy & _ & _ & ->). injection Hp as <-. eauto.
    + intros [->|(x & y & Hxy & ->)]; [eexists; split; [by left|done]|].
      pose proof (pairs_elem_of _ _ _ Hxy) as [Hx Hy]. destruct Hk as [_ Hm].
      destruct (Hm x Hx) as [px Hpx], (Hm y Hy) as [py Hpy].
      eexists. split; [do 2 right; apply Hspec; exists x, y, px, py; done|done].
Qed.

Lemma own_tasks_prs caravans own :
  (∀ c, c ∈ caravans → known c) →
  flat_map_opt (caravan_tasks default_branch rows) caravans = Some own →
  (∀ t, t ∈ own → is_admission t = false) ∧
  ∀ prs, (∃ t, t ∈ own ∧ fleet_prs t = Some prs) ↔
    (∃ c, c ∈ caravans ∧ prs = [cv_id c]) ∨
    (∃ c x y, c ∈ caravans ∧ (x, y) ∈ pairs (cv_members c) ∧ prs = [x; y]).
Proof.
  intros Hk Ho. destruct (flat_map_opt_spec (caravan_tasks default_branch rows) caravans)
    as (own' & Ho' & Hown).
  { intros c Hc. destruct (caravan_tasks_spec c (Hk c Hc)) as (ts & _ & _ & -> & _). eauto. }
  assert (own' = own) as -> by congruence. split.
  - intros t (c & ts & Hc & Hts & Ht)%Hown. by eapply (caravan_tasks_prs c ts (Hk c Hc) Hts).
  - intros prs. split.
    + intros (t & (c & ts & Hc & Hts & Ht)%Hown & Hp).
      destruct (proj1 (proj2 (caravan_tasks_prs c ts (Hk c Hc) Hts) prs)) as [->|(x & y & Hxy & ->)];
        [eauto|left; eauto|right; eauto 8].
    + assert (∀ c, c ∈ caravans → (prs = [cv_id c] ∨ ∃ x y, (x, y) ∈ pairs (cv_members c) ∧ prs = [x; y]) →
        ∃ t, t ∈ own ∧ fleet_prs t = Some prs) as Hgo.
      { intros c Hc Hp. destruct (caravan_tasks_spec c (Hk c Hc)) as (ts & _ & _ & Hts & _).
        destruct (proj2 (proj2 (caravan_tasks_prs c ts (Hk c Hc) Hts) prs) Hp) as (t & Ht & Htp).
        exists t. split; [|done]. apply Hown. eauto. }
      intros [(c & Hc & ->)|(c & x & y & Hc & Hxy & ->)]; apply (Hgo c Hc); eauto.
Qed.

Lemma cross_tasks_prs caravans cross :
  (∀ c, c ∈ caravans → known c) → cross_tasks rows caravans = Some cross →
  (∀ t, t ∈ cross → is_admission t = false) ∧
  ∀ prs, (∃ t, t ∈ cross ∧ fleet_prs t = Some prs) ↔
    ∃ i j c o t, i ≠ j ∧ caravans !! i = Some c ∧ caravans !! j = Some o ∧
      cv_parked c = false ∧ cv_parked o = false ∧ caravan_tail o = Some t ∧ prs = [cv_id c; t].
Proof.
  intros Hk Hc. destruct (cross_tasks_spec caravans Hk) as (cross' & Hc' & Hspec).
  assert (cross' = cross) as -> by congruence.
  assert (∀ i c, caravans !! i = Some c → known c) as Hki.
  { intros i c Hi. apply Hk. by eapply list_elem_of_lookup_2. }
  assert (∀ t, t ∈ cross ↔ ∃ i j c o tl ph pt, i ≠ j ∧ caravans !! i = Some c ∧ caravans !! j = Some o ∧
      cv_parked c = false ∧ cv_parked o = false ∧ caravan_tail o = Some tl ∧
      rows !! cv_id c = Some ph ∧ rows !! tl = Some pt ∧
      t = TaskFleet (fmt ["cross_caravan:pr#"; show_pr (cv_id c); "->pr#"; show_pr tl]) (pr_head ph)
       (pr_head pt) [cv_id c; tl] "one caravan head cannot be attached after another caravan tail") as Hin.
  { intros t. rewrite Hspec. split.
    - intros (i & j & c & o & ts & Hne & Hi & Hj & Hp & Hq & Hts & Ht).
      destruct (cross_task_spec c o (Hki i c Hi) (Hki j o Hj)) as (ph & pt & tl & Hts' & Hph & Htl & Hpt).
      rewrite Hts in Hts'. injection Hts' as ->. apply list_elem_of_singleton in Ht as ->.
      exists i, j, c, o, tl, ph, pt. done.
    - intros (i & j & c & o & tl & ph & pt & Hne & Hi & Hj & Hp & Hq & Htl & Hph & Hpt & ->).
      destruct (cross_task_spec c o (Hki i c Hi) (Hki j o Hj)) as (ph' & pt' & tl' & Hts & Hph' & Htl' & Hpt').
      exists i, j, c, o. eexists. split_and!; [done..|exact Hts|]. simplify_eq. by left. }
  split.
  - by intros t (i & j & c & o & tl & ph & pt & _ & _ & _ & _ & _ & _ & _ & _ & ->)%Hin.
  - intros prs. split.
    + intros (t & (i & j & c & o & tl & ph & pt & ? & ? & ? & ? & ? & ? & _ & _ & ->)%Hin & [= <-]).
      exists i, j, c, o, tl. done.
    + intros (i & j & c & o & tl & Hne & Hi & Hj & Hp & Hq & Htl & ->).
      destruct (cross_task_spec c o (Hki i c Hi) (Hki j o Hj)) as (ph & pt & tl' & _ & Hph & Htl' & Hpt).
      assert (tl' = tl) as -> by congruence.
      eexists. split; [apply Hin; exists i, j, c, o, tl, ph, pt; done|done].
Qed.
End plan.

(** ** The plan of a derived fleet *)

Lemma derived_known snapshot actor a c :
  derive_for_actor snapshot actor = Some a → c ∈ fl_caravans (ga_fleet a) →
  known (ga_pull_requests a) c.
Proof.
  intros Ha Hc. destruct (caravans_of_derived snapshot actor a Ha) as [Hh Hm].
  split; [by apply Hh|]. intros n Hn. by apply (Hm c).
Qed.

Lemma compatibility_tasks_total snapshot actor a progress :
  derive_for_actor snapshot actor = Some a →
  ∃ own cross,
    flat_map_opt (caravan_tasks (rs_default_branch snapshot) (ga_pull_requests a))
      (fl_caravans (ga_fleet a)) = Some own ∧
    cross_tasks (ga_pull_requests a) (fl_caravans (ga_fleet a)) = Some cross ∧
    compatibility_tasks snapshot a progress =
      Some (own ++ cross ++
              (candidate_tasks (rs_default_branch snapshot) (ga_pull_requests a)
                 (fl_unqueued (ga_fleet a)) 0
                 (cp_skipped_analyses progress, cp_skipped_analyses_truncated progress)).1,
            set_skipped progress
              (candidate_tasks (rs_default_branch snapshot) (ga_pull_requests a)
                 (fl_unqueued (ga_fleet a)) 0
                 (cp_skipped_analyses progress, cp_skipped_analyses_truncated progress)).2).
Proof.
  intros Ha. pose proof (derived_known snapshot actor a) as Hk. specialize (λ c, Hk c Ha).
  destruct (flat_map_opt_spec (caravan_tasks (rs_default_branch snapshot) (ga_pull_requests a))
    (fl_caravans (ga_fleet a))) as (own & Ho & _).
  { intros c Hc. destruct (caravan_tasks_spec (rs_default_branch snapshot) _ c (Hk c Hc))
      as (ts & _ & _ & -> & _). eauto. }
  destruct (cross_tasks_spec (ga_pull_requests a) (fl_caravans (ga_fleet a)) Hk) as (cross & Hcr & _).
  exists own, cross. unfold compatibility_tasks. rewrite Ho, Hcr.
  split_and!; [done..|]. by destruct (candidate_tasks _ _ _ _ _).
Qed.

(** The plan compares what it should and nothing else. Fleet comparisons
    are exactly: each caravan head with the default branch, each adjacent pair,
    and each unparked head with the tail of each other unparked caravan; at most
    three admission candidates are proven, each an unqueued, unskipped,
    same-repository, non-draft row. *)
Theorem plan_is_exact snapshot actor a progress tasks progress' :
  derive_for_actor snapshot actor = Some a →
  compatibility_tasks snapshot a progress = Some (tasks, progress') →
  (∀ prs, (∃ t, t ∈ tasks ∧ fleet_prs t = Some prs) ↔
     (∃ c, c ∈ fl_caravans (ga_fleet a) ∧ prs = [cv_id c]) ∨
     (∃ c x y, c ∈ fl_caravans (ga_fleet a) ∧ (x, y) ∈ pairs (cv_members c) ∧ prs = [x; y]) ∨
     (∃ i j c o t, i ≠ j ∧ fl_caravans (ga_fleet a) !! i = Some c ∧
        fl_caravans (ga_fleet a) !! j = Some o ∧ cv_parked c = false ∧ cv_parked o = false ∧
        caravan_tail o = Some t ∧ prs = [cv_id c; t])) ∧
  length (List.filter is_admission tasks) ≤ 3 ∧
  ∀ t, t ∈ tasks → is_admission t = true →
    provable (rs_default_branch snapshot) (ga_pull_requests a) (fl_unqueued (ga_fleet a)) t.
Proof.
  intros Ha Ht. pose proof (derived_known snapshot actor a) as Hk. specialize (λ c, Hk c Ha).
  destruct (compatibility_tasks_total snapshot actor a progress Ha) as (own & cross & Ho & Hc & Hr).
  rewrite Hr in Ht. injection Ht as <- <-.
  destruct (candidate_tasks_spec (rs_default_branch snapshot) (ga_pull_requests a)
    (fl_unqueued (ga_fleet a)) 0
    (cp_skipped_analyses progress, cp_skipped_analyses_truncated progress)) as [Hlen Hprov].
  set (admission := (candidate_tasks _ _ _ _ _).1) in *.
  destruct (own_tasks_prs _ _ _ own Hk Ho) as [Hoa Hop].
  destruct (cross_tasks_prs _ _ cross Hk Hc) as [Hca Hcp].
  split_and!.
  - intros prs. specialize (Hop prs). specialize (Hcp prs).
    assert ((∃ t, t ∈ own ++ cross ++ admission ∧ fleet_prs t = Some prs) ↔
      (∃ t, t ∈ own ∧ fleet_prs t = Some prs) ∨ (∃ t, t ∈ cross ∧ fleet_prs t = Some prs)) as ->.
    { setoid_rewrite elem_of_app. setoid_rewrite elem_of_app. split.
      - intros (t & [Hin|[Hin|Hin]] & Hp); [left; eauto|right; eauto|].
        by apply Hprov in Hin as (n & row & _ & _ & _ & _ & _ & ->).
      - intros [(t & ? & ?)|(t & ? & ?)]; eauto. }
    rewrite Hop, Hcp. tauto.
  - rewrite !List.filter_app.
    rewrite (filter_ext_elem_of is_admission (λ _, false) own Hoa).
    rewrite (filter_ext_elem_of is_admission (λ _, false) cross Hca).
    rewrite !filter_b_false. cbn. etrans; [apply filter_b_length|].
    unfold LEADING_CANDIDATE_COMPATIBILITY_BOUND in Hlen. lia.
  - intros t [Hin|[Hin|Hin]%elem_of_app]%elem_of_app Hadm; [|  |by apply Hprov].
    + by rewrite (Hoa t Hin) in Hadm.
    + by rewrite (Hca t Hin) in Hadm.
Qed.

(** ** Running the plan *)

Lemma samples_spec (ds : list string) samples :
  length samples.1 ≤ MAX_ANALYSIS_PROGRESS_SAMPLES →
  foldl push_progress_sample samples ds =
    (take MAX_ANALYSIS_PROGRESS_SAMPLES (samples.1 ++ ds),
     samples.2 + (length samples.1 + length ds - MAX_ANALYSIS_PROGRESS_SAMPLES)).
Proof.
  revert samples. induction ds as [|d ds IH]; intros [s k] Hlen; cbn in *.
  { rewrite app_nil_r, take_ge by done. f_equal. lia. }
  unfold push_progress_sample at 2; cbn.
  destruct (Nat.ltb_spec (length s) MAX_ANALYSIS_PROGRESS_SAMPLES) as [Hlt|Hge]; rewrite IH; cbn.
  - rewrite length_app, <-app_assoc; cbn. f_equal. lia.
  - rewrite length_app; cbn. lia.
  - rewrite !take_app_le by lia. f_equal. lia.
  - done.
Qed.

Lemma defer_tasks_spec p tasks :
  cp_deferred_analyses p = [] → cp_deferred_analyses_truncated p = 0 →
  defer_tasks p tasks = set_deferred p
    (take MAX_ANALYSIS_PROGRESS_SAMPLES (description <$> tasks),
     length tasks - MAX_ANALYSIS_PROGRESS_SAMPLES).
Proof.
  intros Hd Ht. unfold defer_tasks. rewrite Hd, Ht. f_equal.
  assert (∀ s, foldl (λ samples task, push_progress_sample samples (description task)) s tasks
    = foldl push_progress_sample s (description <$> tasks)) as ->.
  { induction tasks as [|t tasks IH]; intros s; cbn; [done|apply IH]. }
  rewrite samples_spec by (cbn; unfold MAX_ANALYSIS_PROGRESS_SAMPLES; lia). cbn.
  by rewrite length_fmap.
Qed.

(** Whether a task leaves a compatibility report, and the problem a report is
    recorded with. *)
Definition reports (t : CompatibilityAnalysisTask) : bool :=
  match t with TaskCumulativeTree _ _ _ => false | _ => true end.
Definition evidence (e : CompatibilityAnalysisTask * CompatibilityReport) : list GraphProblem :=
  if is_clean e.2 then [] else
  match e.1 with
  | TaskFleet _ _ _ prs message => [mkGraphProblem Incompatible prs message]
  | TaskAdmissionCandidate _ _ _ pr => [mkGraphProblem CandidateIncompatible [pr] candidate_message]
  | TaskCumulativeTree _ _ _ => []
  end.

(** [a'] is [a] with the evidence [R] and then the problems [extra]. *)
Record extends (a a' : GraphAnalysis) (R : list (CompatibilityAnalysisTask * CompatibilityReport))
    (extra : list GraphProblem) : Prop := {
  ex_reports : ga_compatibility a' = ga_compatibility a ++ R.*2;
  ex_problems : fl_problems (ga_fleet a') = fl_problems (ga_fleet a) ++ flat_map evidence R ++ extra;
  ex_rows : ga_pull_requests a' = ga_pull_requests a;
  ex_caravans : fl_caravans (ga_fleet a') = fl_caravans (ga_fleet a);
  ex_unqueued : fl_unqueued (ga_fleet a') = fl_unqueued (ga_fleet a) }.

Lemma extends_refl a : extends a a [] [].
Proof. split; try done; by rewrite !app_nil_r. Qed.

Lemma extends_trans a a' a'' R R' extra :
  extends a a' R [] → extends a' a'' R' extra → extends a a'' (R ++ R') extra.
Proof.
  intros [H1 H2 H3 H4 H5] [K1 K2 K3 K4 K5]. split; try congruence.
  - by rewrite K1, H1, fmap_app, <-app_assoc.
  - by rewrite K2, H2, flat_map_app, app_nil_r, <- !app_assoc.
Qed.

Section run.
Context {W E : Type} `{CompatibilityChecker W E} (now : W → N * W) (analysis_timed_out : E → bool).

Lemma execute_spec task a w r a' w' :
  execute task a w = (r, a', w') →
  match r with
  | Ok _ => ∃ R, R.*1 = List.filter reports [task] ∧ extends a a' R []
  | Err _ => ∃ extra, length extra ≤ 1 ∧ extends a a' [] extra
  end.
Proof.
  assert (∃ extra, length extra ≤ 1 ∧ extends a a [] extra) as Hnone.
  { exists []. split; [cbn; lia|apply extends_refl]. }
  destruct task as [d c t prs m|d c t|d c t n]; cbn.
  - destruct (check c t w) as [[report|e] w1]; [|by intros [= <- <- <-]].
    unfold record_compatibility. destruct (is_clean report) eqn:Hcl; cbn.
    + intros [= <- <- <-]. exists [(TaskFleet d c t prs m, report)]. split; [done|].
      split; cbn; try done. unfold evidence; cbn. rewrite Hcl. by rewrite !app_nil_r.
    + destruct (squash_equivalence _ _ w1) as [[[q|]|e] w2]; intros [= <- <- <-].
      * exists [(TaskFleet d c t prs m, report)]. split; [done|]. split; cbn; try done.
        unfold evidence; cbn. by rewrite Hcl.
      * exists [(TaskFleet d c t prs m, report)]. split; [done|]. split; cbn; try done.
        unfold evidence; cbn. by rewrite Hcl.
      * exists [mkGraphProblem Incompatible prs m]. split; [cbn; lia|]. split; cbn; try done.
        by rewrite app_nil_r.
  - destruct (cumulative_tree c t w) as [[[q|]|e] w1]; intros [= <- <- <-]; [| |done].
    + exists []. split; [done|]. split; cbn; try done; by rewrite !app_nil_r.
    + exists []. split; [done|apply extends_refl].
  - destruct (check c t w) as [[report|e] w1]; intros [= <- <- <-]; [|done].
    exists [(TaskAdmissionCandidate d c t n, report)]. split; [done|].
    unfold record_candidate_compatibility. destruct (is_clean report) eqn:Hcl; cbn;
      split; cbn; try done; unfold evidence; cbn; rewrite Hcl; by rewrite ?app_nil_r.
Qed.

(** The fields a run leaves alone. *)
Definition same_plan (p p' : CompatibilityAnalysisProgress) : Prop :=
  cp_planned_analyses p' = cp_planned_analyses p.

(** How a run of [tasks] ended. *)
Record run_outcome (deadline : option N) (tasks : list CompatibilityAnalysisTask) (a : GraphAnalysis)
    (p : CompatibilityAnalysisProgress) (b : BoundedGraphAnalysis)
    (done rest : list CompatibilityAnalysisTask) : Prop := {
  ro_split : tasks = done ++ rest;
  ro_planned : cp_planned_analyses (bd_progress b) = cp_planned_analyses p;
  ro_completed : cp_completed_analyses (bd_progress b) = cp_completed_analyses p + length done;
  ro_deferred : cp_deferred_analyses (bd_progress b) =
    take MAX_ANALYSIS_PROGRESS_SAMPLES (description <$> rest);
  ro_truncated : cp_deferred_analyses_truncated (bd_progress b) =
    length rest - MAX_ANALYSIS_PROGRESS_SAMPLES;
  ro_complete : cp_complete (bd_progress b) = true → rest = [];
  ro_unbounded : deadline = None → cp_complete (bd_progress b) = true;
  ro_evidence : ∃ R extra, R.*1 = List.filter reports done ∧ extends a (bd_analysis b) R extra ∧
    length extra ≤ 1 ∧ (rest = [] → extra = []) }.

Lemma run_tasks_spec deadline tasks a p w b w' :
  cp_complete p = false → cp_deferred_analyses p = [] → cp_deferred_analyses_truncated p = 0 →
  run_tasks now analysis_timed_out deadline tasks a p w = (Ok b, w') →
  ∃ done rest, run_outcome deadline tasks a p b done rest.
Proof.
  revert a p w. induction tasks as [|task tasks IH]; intros a p w Hc Hd Ht; cbn.
  { intros [= <- <-]. exists [], []. split; cbn; try done.
    exists [], []. split_and!; [done|apply extends_refl|cbn; lia|done]. }
  destruct (past_deadline now deadline w) as [past w1] eqn:Hpast. destruct past.
  { intros [= <- <-]. exists [], (task :: tasks). rewrite defer_tasks_spec by done.
    split; cbn; try done; [congruence| |].
    - intros ->. cbn in Hpast. congruence.
    - exists [], []. split_and!; [done|apply extends_refl|cbn; lia|done]. }
  destruct (execute task a w1) as [[r a1] w2] eqn:Hex. apply execute_spec in Hex.
  destruct r as [[]|e].
  - intros Hr. destruct (IH a1 (completed_one p) w2 Hc Hd Ht Hr) as (done & rest & []).
    destruct Hex as (R1 & HR1 & Hext1). destruct ro_evidence0 as (R & extra & HR & Hext & Hlen & Hex0).
    exists (task :: done), rest. split; cbn in *; try done; [by rewrite ro_split0|lia|].
    exists (R1 ++ R), extra. rewrite fmap_app, HR1, HR. split_and!; [|by eapply extends_trans|done|done].
    by destruct (reports task).
  - destruct (is_some_b deadline && analysis_timed_out e) eqn:Hto; [|done].
    intros [= <- <-]. exists [], (task :: tasks). rewrite defer_tasks_spec by done.
    destruct Hex as (extra & Hlen & Hext). split; cbn; try done; [congruence| |].
    + by intros ->.
    + exists [], extra. done.
Qed.

Lemma run_outcome_start deadline tasks a p b :
  cp_complete p = false → cp_completed_analyses p = 0 → cp_deferred_analyses p = [] →
  cp_deferred_analyses_truncated p = 0 → is_Some deadline →
  b = mkBounded a (defer_tasks p tasks) → run_outcome deadline tasks a p b [] tasks.
Proof.
  intros Hc Hz Hd Ht [dl ->] ->. rewrite defer_tasks_spec by done.
  split; cbn; try done; [congruence|].
  exists [], []. split_and!; [done|apply extends_refl|cbn; lia|done].
Qed.

Lemma internal_outcome snapshot actor deadline w :
  ∃ a tasks p', derive_for_actor snapshot actor = Some a ∧
    compatibility_tasks snapshot a (initial_progress snapshot a) = Some (tasks, p') ∧
    ∃ r w', analyze_for_actor_internal now analysis_timed_out snapshot actor deadline w = Some (r, w') ∧
      ∀ b, r = Ok b → ∃ done rest p, cp_completed_analyses p = 0 ∧
        cp_planned_analyses p = length tasks ∧ run_outcome deadline tasks a p b done rest.
Proof.
  destruct (derive_for_actor_some snapshot actor) as [a Ha].
  destruct (compatibility_tasks_total snapshot actor a (initial_progress snapshot a) Ha)
    as (own & cross & _ & _ & Ht).
  set (tasks := own ++ cross ++ _) in Ht. set (p' := set_skipped _ _) in Ht.
  exists a, tasks, p'. split_and!; [done..|].
  unfold analyze_for_actor_internal. rewrite Ha, Ht.
  destruct (past_deadline now deadline w) as [past w1] eqn:Hpast. destruct past.
  { do 2 eexists. split; [done|]. intros b [= <-].
    exists [], tasks, (set_planned p' (length tasks)). split_and!; [done..|].
    apply run_outcome_start; try done. destruct deadline; [eauto|]. cbn in Hpast. congruence. }
  destruct (prepare (prepared_branches snapshot a) w1) as [[[]|e] w2].
  - destruct (run_tasks _ _ _ _ _ _ w2) as [r w3] eqn:Hrun. do 2 eexists. split; [done|].
    intros b ->. destruct (run_tasks_spec deadline tasks a
      (mark_prepared (set_planned p' (length tasks))) w2 b w3 eq_refl eq_refl eq_refl Hrun)
      as (done & rest & Ho).
    exists done, rest. eexists. split_and!; [| |exact Ho]; done.
  - destruct (is_some_b deadline && analysis_timed_out e) eqn:Hto; (do 2 eexists; split; [done|]); [|done].
    intros b [= <-]. exists [], tasks, (set_planned p' (length tasks)). split_and!; [done..|].
    apply run_outcome_start; try done. destruct deadline; [eauto|done].
Qed.
End run.

(** Every planned proof is accounted for, whatever the checker answers and
    whenever the clock runs out: the analysis never panics, and a returned
    receipt splits the plan into the tasks that ran and the tasks named as
    deferred (the first 64 by name, the rest by count). A receipt that says
    complete deferred nothing, and without a deadline a receipt is complete. *)
Theorem analysis_accounts_for_every_task {W E} `{CompatibilityChecker W E} (now : W → N * W)
    (timed_out : E → bool) snapshot actor deadline w :
  ∃ a tasks p', derive_for_actor snapshot actor = Some a ∧
    compatibility_tasks snapshot a (initial_progress snapshot a) = Some (tasks, p') ∧
    ∃ r w', analyze_for_actor_internal now timed_out snapshot actor deadline w = Some (r, w') ∧
      ∀ b, r = Ok b → ∃ done rest, tasks = done ++ rest ∧
        cp_planned_analyses (bd_progress b) = length tasks ∧
        cp_completed_analyses (bd_progress b) = length done ∧
        cp_deferred_analyses (bd_progress b) = take 64 (description <$> rest) ∧
        cp_deferred_analyses_truncated (bd_progress b) = length rest - 64 ∧
        (cp_complete (bd_progress b) = true → rest = []) ∧
        (deadline = None → cp_complete (bd_progress b) = true).
Proof.
  destruct (internal_outcome now timed_out snapshot actor deadline w)
    as (a & tasks & p' & Ha & Ht & r & w' & Hr & Hout).
  exists a, tasks, p'. split_and!; [done..|]. exists r, w'. split; [done|].
  intros b Hb. destruct (Hout b Hb) as (done & rest & p & Hz & Hp & []).
  exists done, rest. rewrite ro_planned0, ro_completed0, Hz, Hp. done.
Qed.

(** A complete analysis carries one report per comparison of the plan, in
    plan order, and its problems are those of the derivation followed by one
    problem per report that is not clean, of the kind that fits the task; the
    caravans themselves are untouched. *)
Theorem complete_analysis_evidence {W E} `{CompatibilityChecker W E} (now : W → N * W)
    (timed_out : E → bool) snapshot actor deadline w b w' :
  analyze_for_actor_internal now timed_out snapshot actor deadline w = Some (Ok b, w') →
  cp_complete (bd_progress b) = true →
  ∃ a tasks p' R, derive_for_actor snapshot actor = Some a ∧
    compatibility_tasks snapshot a (initial_progress snapshot a) = Some (tasks, p') ∧
    R.*1 = List.filter reports tasks ∧
    ga_compatibility (bd_analysis b) = R.*2 ∧
    fl_problems (ga_fleet (bd_analysis b)) = fl_problems (ga_fleet a) ++ flat_map evidence R ∧
    fl_caravans (ga_fleet (bd_analysis b)) = fl_caravans (ga_fleet a) ∧
    ga_pull_requests (bd_analysis b) = ga_pull_requests a.
Proof.
  intros Hb Hc. destruct (internal_outcome now timed_out snapshot actor deadline w)
    as (a & tasks & p' & Ha & Ht & r & w'' & Hr & Hout).
  rewrite Hb in Hr. injection Hr as <- <-.
  destruct (Hout b eq_refl) as (done & rest & p & _ & _ & []).
  specialize (ro_complete0 Hc). subst rest. rewrite app_nil_r in ro_split0. subst done.
  destruct ro_evidence0 as (R & extra & HR & [X1 X2 X3 X4 X5] & _ & Hex). specialize (Hex eq_refl).
  subst extra. exists a, tasks, p', R. rewrite app_nil_r in X2. split_and!; try done.
  rewrite X1. replace (ga_compatibility a) with (@nil CompatibilityReport); [done|].
  symmetry. by eapply derived_evidence_empty.
Qed.

(** ** A concrete run *)

(** A checker with no state whose comparisons conflict exactly for candidate
    branch [b]; it proves no trees and finds no reconciliation. *)
Definition sample_report (c t : BranchSnapshot) : CompatibilityReport :=
  mkCompatibilityReport c t (if String.eqb (br_name c) "b" then Conflict else Clean) [] None.
#[local] Instance sample_checker : CompatibilityChecker N string := {
  prepare := λ _ w, (Ok tt, w);
  check := λ c t w, (Ok (sample_report c t), (w + 1)%N);
  cumulative_tree := λ _ _ w, (Ok None, w);
  squash_equivalence := λ _ _ w, (Ok None, w) }.

(** The clock is the number of comparisons so far. *)
Definition sample_now (w : N) : N * N := (w, w).

Definition sample_bounded (r : option (result BoundedGraphAnalysis string * N)) : BoundedGraphAnalysis :=
  match r with
  | Some (Ok b, _) => b
  | _ => mkBounded (analysis_of chain_rows) (initial_progress (sample_snapshot chain_rows) (analysis_of chain_rows))
  end.

Definition full_run : option (result BoundedGraphAnalysis string * N) :=
  analyze_for_actor_internal sample_now (λ _ : string, false) (sample_snapshot chain_rows) actor_default None 0%N.

Example full_run_problems :
  gp_prs <$> fl_problems (ga_fleet (bd_analysis (sample_bounded full_run))) = [[1%N; 2%N]].
Proof. vm_compute. reflexivity. Qed.

Example interrupted_run :
  let p := bd_progress (sample_bounded
    (analyze_for_actor_internal sample_now (λ _, false) (sample_snapshot chain_rows) actor_default
       (Some 2%N) 0%N)) in
  (cp_complete p, cp_planned_analyses p, cp_completed_analyses p, cp_deferred_analyses p)
  = (false, 4, 3, ["candidate_to_default:pr#9"]).
Proof. vm_compute. reflexivity. Qed.

Lemma complete_analysis_evidence_witness :
  ∃ a tasks p' R, derive_for_actor (sample_snapshot chain_rows) actor_default = Some a ∧
    compatibility_tasks (sample_snapshot chain_rows) a
      (initial_progress (sample_snapshot chain_rows) a) = Some (tasks, p') ∧
    R.*1 = List.filter reports tasks ∧
    ga_compatibility (bd_analysis (sample_bounded full_run)) = R.*2.
Proof.
  assert (analyze_for_actor_internal sample_now (λ _ : string, false) (sample_snapshot chain_rows)
    actor_default None 0%N = Some (Ok (sample_bounded full_run), 3%N)) as Hrun by (vm_compute; reflexivity).
  destruct (complete_analysis_evidence sample_now (λ _ : string, false) (sample_snapshot chain_rows)
    actor_default None 0%N (sample_bounded full_run) 3%N Hrun) as (a & tasks & p' & R & H1 & H2 & H3 & H4 & _).
  - vm_compute. reflexivity.
  - exists a, tasks, p', R. split; [exact H1|]. split; [exact H2|]. split; [exact H3|exact H4].
Defined.

Lemma plan_is_exact_witness :
  ∃ tasks progress', compatibility_tasks (sample_snapshot chain_rows) (analysis_of chain_rows)
      (initial_progress (sample_snapshot chain_rows) (analysis_of chain_rows)) = Some (tasks, progress') ∧
    length (List.filter is_admission tasks) ≤ 3.
Proof.
  destruct (compatibility_tasks_total (sample_snapshot chain_rows) actor_default (analysis_of chain_rows)
    (initial_progress (sample_snapshot chain_rows) (analysis_of chain_rows)) (analysis_of_derived chain_rows))
    as (own & cross & _ & _ & Ht).
  do 2 eexists. split; [exact Ht|].
  exact (proj1 (proj2 (plan_is_exact (sample_snapshot chain_rows) actor_default (analysis_of chain_rows)
    _ _ _ (analysis_of_derived chain_rows) Ht))).
Defined.
