(* ===== verification/Generation.v ===== *)
(** Cacophony generation integrity: src/src/generation.rs.

    The facts parsed from open pull requests ([parse_generation_fact]), the
    links comments add to them, the grouping of facts into streams and the
    classification of each stream by bounded provider comparisons ([analyze]),
    the lifecycle policy and the admission guard. The comparison is an effect
    on a world. The debug text of a string (whose escapes depend on Unicode
    tables) and the serializer are parameters. *)

From Stdlib Require Import Ascii String.
From S2P Require Import Prelude Text Model.

#[local] Open Scope string_scope.
#[local] Open Scope list_scope.
#[local] Open Scope nat_scope.

Definition MAX_STREAM_COMPARISONS : nat := 64.
#[global] Arguments MAX_STREAM_COMPARISONS : simpl never.

Inductive CommitRelation :=
| Ahead | Behind | Identical | Diverged | UnknownRelation (reason : string).
Inductive GenerationDisposition :=
| CurrentGeneration | SupersededGeneration | AmbiguousGeneration | InvalidGenerationMetadata.
Inductive GenerationLifecycleDisposition :=
| LifecycleActive | TemporaryDeferral | DurableSupersession | InvalidMetadata.
Inductive SupersededGenerationAction := Preserve | ProposeClosure | CloseAction.
#[export] Instance CommitRelation_eq_dec : EqDecision CommitRelation.
Proof. solve_decision. Defined.
#[export] Instance GenerationDisposition_eq_dec : EqDecision GenerationDisposition.
Proof. solve_decision. Defined.
#[export] Instance GenerationLifecycle_eq_dec : EqDecision GenerationLifecycleDisposition.
Proof. solve_decision. Defined.
#[export] Instance SupersededGenerationAction_eq_dec : EqDecision SupersededGenerationAction.
Proof. solve_decision. Defined.

Record GenerationSupersessionEvidence := mkSupersession {
  se_superseded_pr : PrNumber;
  se_superseded_provider_head : CommitOid;
  se_canonical_pr : PrNumber;
  se_canonical_provider_head : CommitOid;
  se_authority : string;
  se_closure_eligible : bool }.

Record GenerationFinding := mkGenerationFinding {
  gn_pr : PrNumber;
  gn_disposition : GenerationDisposition;
  gn_lifecycle : GenerationLifecycleDisposition;
  gn_lifecycle_action : SupersededGenerationAction;
  gn_supersession : option GenerationSupersessionEvidence;
  gn_canonical_pr : option PrNumber;
  gn_related_prs : list PrNumber;
  gn_agent : option string;
  gn_bead_ids : gset string;
  gn_reason : string;
  gn_safe_next_action : string }.

Record GenerationIntegrityStatus := mkGenerationIntegrity {
  gi_schema_version : nat;
  gi_fingerprint : string;
  gi_findings : list GenerationFinding;
  gi_comparisons_used : nat;
  gi_comparisons_truncated : bool }.

(** [impl Default]: the fingerprint of [b"[]"]. *)
Definition integrity_default : GenerationIntegrityStatus :=
  mkGenerationIntegrity 1 (fnv1a64 [91; 93]%N) [] 0 false.

Definition finding (s : GenerationIntegrityStatus) (pr : PrNumber) : option GenerationFinding :=
  List.find (λ f, N.eqb (gn_pr f) pr) (gi_findings s).

(** ** Parsing *)

Definition is_oid (value : string) : bool :=
  (String.length value =? 40) && all_bytes is_ascii_hexdigit value.

Definition safe_identity (value : string) : bool :=
  negb (str_is_empty value)
  && all_bytes (λ c, is_ascii_alphanumeric c || mem c ["/"; "."; "_"; "-"; ":"; "@"]%char) value.

Definition backtick : ascii := "`"%char.

Definition unquote (value : string) : string :=
  match strip_prefix (String backtick EmptyString) value with
  | Some inner =>
      match strip_suffix (String backtick EmptyString) inner with
      | Some inner => inner
      | None => value
      end
  | None => value
  end.

Definition metadata_value (body name : string) : option string :=
  find_map (λ line,
    match strip_prefix (name +:+ ":") (trim line) with
    | None => None
    | Some value =>
        let value := trim (unquote (trim value)) in
        if str_is_empty value then None else Some value
    end) (lines body).

Definition is_bead_id (value : string) : bool :=
  match strip_prefix "bd-" value with
  | Some suffix => (String.length suffix =? 6) && all_bytes is_ascii_hexdigit suffix
  | None => false
  end.

Definition parse_beads (body : string) : gset string :=
  match find_map (λ line,
          opt_filter (λ v, negb (str_is_empty v)) (trim <$> strip_prefix "Beads:" (trim line)))
        (lines body) with
  | None => ∅
  | Some value =>
      list_to_set (to_ascii_lowercase <$>
        take 32 (List.filter is_bead_id
          (trim_matches backtick <$>
             split_on (λ c, Ascii.eqb c ","%char || is_ascii_whitespace c) value)))
  end.

Definition invalid_fact (pr : PrNumber) (provider_head : CommitOid) (created_at : option string)
    (message : string) : PullRequestGenerationFact :=
  mkGenerationFact pr provider_head created_at None (Some message) ∅.

Definition marker_prefixes : list string :=
  ["Cacophony-Generation:"; "Cacophony-Agent:"; "Cacophony-Head:"; "Cacophony-Stack-Base:";
   "Cacophony-Stack-State:"].

Definition has_marker (body : string) : bool :=
  existsb (λ line, existsb (λ m, starts_with m (trim_start line)) marker_prefixes) (lines body).

Definition shaped_branch (head_ref : string) : bool :=
  match rsplit_once "-pr-g" head_ref with
  | Some (_, suffix) => is_oid suffix
  | None => false
  end.

(** The [for] loop over the named values, then [Beads]. *)
Definition missing_fields (named : list (string * option string)) (beads : gset string) : list string :=
  (List.filter (λ nv, is_none_or nv.2 str_is_empty) named).*1
    ++ (if bool_decide (beads = ∅) then ["Beads"] else []).

Definition parse_generation_fact (pr : PrNumber) (provider_head : CommitOid) (head_ref : string)
    (created_at : option string) (body : string) : PullRequestGenerationFact :=
  let invalid := invalid_fact pr provider_head created_at in
  if negb (shaped_branch head_ref) && negb (has_marker body)
  then mkGenerationFact pr provider_head created_at None None ∅
  else
    let generation := metadata_value body "Cacophony-Generation" in
    let agent := metadata_value body "Cacophony-Agent" in
    let source_head := metadata_value body "Cacophony-Head" in
    let stack_base := metadata_value body "Cacophony-Stack-Base" in
    let stack_state := metadata_value body "Cacophony-Stack-State" in
    let bead_ids := parse_beads body in
    let missing := missing_fields
      [("Cacophony-Generation", generation); ("Cacophony-Agent", agent);
       ("Cacophony-Head", source_head); ("Cacophony-Stack-Base", stack_base);
       ("Cacophony-Stack-State", stack_state)] bead_ids in
    match missing, generation, agent, source_head, stack_base, stack_state with
    | [], Some generation, Some agent, Some source_head, Some stack_base, Some stack_state =>
        if (512 <? String.length generation) || (256 <? String.length agent)
           || (512 <? String.length stack_base) || (64 <? String.length stack_state)
           || negb (safe_identity generation) || negb (safe_identity agent)
           || negb (safe_identity stack_base) || negb (safe_identity stack_state)
        then invalid "generation metadata contains an oversized or unsafe identity"
        else if negb (is_oid source_head)
        then invalid "Cacophony-Head is not one exact 40-character OID"
        else if negb (ends_with source_head generation) || negb (String.eqb generation head_ref)
        then invalid "Cacophony-Generation must equal the provider head ref and end in Cacophony-Head"
        else if negb (mem stack_state ["root"; "blocked_on_parent"])
        then invalid "Cacophony-Stack-State must be root or blocked_on_parent"
        else mkGenerationFact pr provider_head created_at
               (Some (mkProvenance generation agent source_head bead_ids stack_base stack_state))
               None ∅
    | _, _, _, _, _, _ => invalid (fmt ["missing exact generation metadata: "; join ", " missing])
    end.

(** ** Streams *)

Definition same_stream_slot (left right : CacophonyGenerationProvenance) : bool :=
  if negb (String.eqb (gp_agent left) (gp_agent right))
     || bool_decide (gp_bead_ids left ∩ gp_bead_ids right = ∅) then false
  else if String.eqb (gp_generation left) (gp_stack_base right)
          || String.eqb (gp_generation right) (gp_stack_base left) then false
  else if (String.eqb (gp_stack_state left) "root" && String.eqb (gp_stack_state right) "root")
          || (String.eqb (gp_stack_state left) "blocked_on_parent"
              && String.eqb (gp_stack_state right) "blocked_on_parent")
  then String.eqb (gp_stack_base left) (gp_stack_base right)
  else false.

(** [for (index, left) in l.iter().enumerate() { for right in l.iter().skip(index + 1) ..}]. *)
Fixpoint ordered_pairs {A} (l : list A) : list (A * A) :=
  match l with
  | [] => []
  | x :: l' => (pair x <$> l') ++ ordered_pairs l'
  end.

Definition valid_of_fact (fact : PullRequestGenerationFact)
    : option (PrNumber * CacophonyGenerationProvenance) :=
  pair (gf_pr fact) <$> gf_provenance fact.

Definition duplicate_stream_prs (facts : list PullRequestGenerationFact) : gset PrNumber :=
  foldl (λ duplicates '(l, r),
           if same_stream_slot l.2 r.2 then {[ r.1 ]} ∪ ({[ l.1 ]} ∪ duplicates)
           else duplicates) ∅ (ordered_pairs (omap valid_of_fact facts)).

(** ** Declared supersession *)

Definition nl : string := String line_feed EmptyString.

Definition supersession_marker (canonical : PrNumber) (canonical_head : CommitOid) : string :=
  fmt ["<!-- caravan-generation-supersession:v1:"; show_pr canonical; ":"; canonical_head; " -->"].

Definition supersession_body (canonical : PrNumber) (canonical_head : CommitOid)
    (superseded : gset PrNumber) (actor reason : string) : string :=
  let list := join ", " ((λ pr, fmt ["#"; show_pr pr]) <$> bs_elems superseded) in
  fmt [supersession_marker canonical canonical_head; nl; nl;
       "**Caravan canonical generation declared.**"; nl; nl;
       "- **Canonical:** #"; show_pr canonical; " at `"; canonical_head; "`"; nl;
       "- **Superseded:** "; list; nl; "- **Actor:** "; actor; nl; "- **Reason:** "; reason; nl].

(** The digits of a line, other than zero and the canonical request. *)
Definition named_numbers (canonical_pr : PrNumber) (line : string) : gset PrNumber :=
  list_to_set (List.filter (λ n, negb (N.eqb n 0) && negb (N.eqb n canonical_pr))
    (omap parse_u64 (split_on (λ c, negb (is_ascii_digit c)) line))).

Definition nonempty_set (s : gset PrNumber) : option (gset PrNumber) :=
  if bool_decide (s = ∅) then None else Some s.

Definition declared_supersessions (canonical_pr : PrNumber) (canonical_head : CommitOid)
    (comment_bodies : list string) : option (gset PrNumber) :=
  let marker := supersession_marker canonical_pr canonical_head in
  body ← List.find (contains_str marker) (reverse comment_bodies);
  line ← find_map (λ line, strip_prefix "- **Superseded:**" (trim line)) (lines body);
  nonempty_set (named_numbers canonical_pr line).

Definition set_supersedes (fact : PullRequestGenerationFact) (supersedes : gset PrNumber)
    : PullRequestGenerationFact :=
  mkGenerationFact (gf_pr fact) (gf_provider_head fact) (gf_created_at fact) (gf_provenance fact)
    (gf_metadata_error fact) supersedes.

(** [facts.iter_mut().find(|fact| fact.pr == pr)] and the assignment. *)
Fixpoint update_first (pr : PrNumber) (supersedes : gset PrNumber)
    (facts : list PullRequestGenerationFact) : list PullRequestGenerationFact :=
  match facts with
  | [] => []
  | fact :: rest =>
      if N.eqb (gf_pr fact) pr then set_supersedes fact supersedes :: rest
      else fact :: update_first pr supersedes rest
  end.

Definition priority_supersessions (canonical_pr : PrNumber) (comment_bodies : list string)
    : option (gset PrNumber) :=
  let marker := fmt ["<!-- caravan-control-label-audit:v2:priority_set:"; show_pr canonical_pr; ":"] in
  body ← List.find (contains_str "<!-- caravan-control-label-audit:v2:priority_")
           (reverse comment_bodies);
  if negb (contains_str marker body)
     || negb (contains_str "- **Actor/source:** caravan-dogfood-controller" body) then None
  else
    reason ← find_map (λ line, trim <$> strip_prefix "- **Reason:**" (trim line)) (lines body);
    suffix ← snd <$> split_once "superseding PRs " reason;
    nonempty_set (named_numbers canonical_pr suffix).

Definition attach_reviewed_supersession_links (facts : list PullRequestGenerationFact)
    (canonical_pr : PrNumber) (comment_bodies : list string) : list PullRequestGenerationFact :=
  let declared :=
    head ← gf_provider_head <$> List.find (λ fact, N.eqb (gf_pr fact) canonical_pr) facts;
    declared_supersessions canonical_pr head comment_bodies in
  match declared with
  | Some declared => update_first canonical_pr declared facts
  | None =>
      match priority_supersessions canonical_pr comment_bodies with
      | Some supersedes => update_first canonical_pr supersedes facts
      | None => facts
      end
  end.

(** ** Classification *)

Abbreviation ValidMap := (gmap PrNumber (PullRequestGenerationFact * CacophonyGenerationProvenance))
  (only parsing).
Abbreviation FindingMap := (gmap PrNumber GenerationFinding) (only parsing).

Definition invalid_finding (fact : PullRequestGenerationFact) (error : string) : GenerationFinding :=
  mkGenerationFinding (gf_pr fact) InvalidGenerationMetadata InvalidMetadata Preserve None None
    [gf_pr fact] None ∅ error
    "repair exact Cacophony PR metadata or close the stale PR after owner review; Cara never auto-closes it".

Definition current_finding (fact : PullRequestGenerationFact)
    (provenance : CacophonyGenerationProvenance) (related_prs : list PrNumber) : GenerationFinding :=
  mkGenerationFinding (gf_pr fact) CurrentGeneration LifecycleActive Preserve None
    (Some (gf_pr fact)) related_prs (Some (gp_agent provenance)) (gp_bead_ids provenance)
    "unique newest contained generation for this exact Cacophony agent/bead/stack slot"
    "normal admission preflight may continue under immediate generation revalidation".

Definition with_reason (f : GenerationFinding) (reason : string) : GenerationFinding :=
  mkGenerationFinding (gn_pr f) (gn_disposition f) (gn_lifecycle f) (gn_lifecycle_action f)
    (gn_supersession f) (gn_canonical_pr f) (gn_related_prs f) (gn_agent f) (gn_bead_ids f) reason
    (gn_safe_next_action f).

(** [for pr in component { findings.insert(pr, ..) }]; [None] is a panic. *)
Fixpoint insert_each (f : PrNumber → option GenerationFinding) (prs : list PrNumber)
    (findings : FindingMap) : option FindingMap :=
  match prs with
  | [] => Some findings
  | pr :: rest => v ← f pr; insert_each f rest (<[pr := v]> findings)
  end.

(** [for fact in facts]: the findings of malformed facts and the valid facts. *)
Definition sort_facts (facts : list PullRequestGenerationFact) : FindingMap * ValidMap :=
  foldl (λ '(findings, valid) fact,
    match gf_metadata_error fact with
    | Some error => (<[gf_pr fact := invalid_finding fact error]> findings, valid)
    | None =>
        match gf_provenance fact with
        | Some provenance => (findings, <[gf_pr fact := (fact, provenance)]> valid)
        | None => (findings, valid)
        end
    end) (∅, ∅) facts.

Section valid.
Context (valid : ValidMap).

Definition peers_of (provenance : CacophonyGenerationProvenance) (unseen : list PrNumber)
    : option (list PrNumber) :=
  (λ keyed, (List.filter (λ p, same_stream_slot provenance p.2) keyed).*1)
    <$> mapM (λ peer, (λ v, (peer, v.2)) <$> valid !! peer) unseen.

(** The breadth-first walk; [unseen] is the set's ascending list of elements.
    Each step consumes one queued request, and a request is queued once. *)
Fixpoint grow (fuel : nat) (queue unseen component : list PrNumber)
    : option (list PrNumber * list PrNumber) :=
  match queue with
  | [] => Some (component, unseen)
  | current :: queue =>
      match fuel with
      | 0 => None
      | S fuel =>
          provenance ← snd <$> valid !! current;
          peers ← peers_of provenance unseen;
          grow fuel (queue ++ peers) (List.filter (λ p, negb (mem p peers)) unseen)
            (component ++ [current])
      end
  end.

(** [while let Some(start) = unseen.pop_first()]. *)
Fixpoint components_fuel (fuel : nat) (unseen : list PrNumber) : option (list (list PrNumber)) :=
  match unseen with
  | [] => Some []
  | start :: unseen =>
      match fuel with
      | 0 => None
      | S fuel =>
          '(component, unseen) ← grow (S (length unseen)) [start] unseen [];
          (vec_sort component ::.) <$> components_fuel fuel unseen
      end
  end.

Definition components : option (list (list PrNumber)) :=
  components_fuel (size valid) (bt_keys valid).

(** Requests whose links name every other request of the component. *)
Definition linked (component : list PrNumber) (candidate : PrNumber) : option bool :=
  fact ← fst <$> valid !! candidate;
  Some (forallb (λ other, N.eqb other candidate || bool_decide (other ∈ gf_supersedes fact)) component).

Fixpoint filter_opt (p : PrNumber → option bool) (l : list PrNumber) : option (list PrNumber) :=
  match l with
  | [] => Some []
  | x :: l' => b ← p x; (if (b : bool) then cons x else id) <$> filter_opt p l'
  end.

Definition canonical_finding (component : list PrNumber) (canonical : PrNumber) (authority : string)
    (pr : PrNumber) : option GenerationFinding :=
  '(fact, provenance) ← valid !! pr;
  if N.eqb pr canonical then
    Some (with_reason (current_finding fact provenance component)
      (fmt ["unique canonical generation for this exact Cacophony agent/bead/stack slot ("; authority; ")"]))
  else
    '(canonical_fact, _) ← valid !! canonical;
    Some (mkGenerationFinding pr SupersededGeneration DurableSupersession Preserve
      (Some (mkSupersession pr (gf_provider_head fact) canonical (gf_provider_head canonical_fact)
               authority true))
      (Some canonical) component (Some (gp_agent provenance)) (gp_bead_ids provenance)
      (fmt ["generation "; gp_generation provenance; " is superseded by canonical open PR #";
            show_pr canonical; " ("; authority; ")"])
      (fmt ["preserve PR #"; show_pr canonical;
            "; exact evidence permits a configured closure proposal for PR #"; show_pr pr;
            ", but no provider mutation occurs without reviewed policy"])).

Definition record_canonical_component (findings : FindingMap) (component : list PrNumber)
    (canonical : PrNumber) (authority : string) : option FindingMap :=
  insert_each (canonical_finding component canonical authority) component findings.

Definition ambiguous_finding (component : list PrNumber) (reason safe_next_action : string)
    (pr : PrNumber) : option GenerationFinding :=
  '(_, provenance) ← valid !! pr;
  Some (mkGenerationFinding pr AmbiguousGeneration TemporaryDeferral Preserve None None component
    (Some (gp_agent provenance)) (gp_bead_ids provenance) reason safe_next_action).

(** ** Comparisons *)

Abbreviation RelationMap := (gmap (PrNumber * PrNumber) CommitRelation) (only parsing).

Record Counters := mkCounters { ct_used : nat; ct_truncated : bool }.

Context {W : Type} (compare : CommitOid → CommitOid → W → CommitRelation * W).

Definition bound_exhausted : CommitRelation :=
  UnknownRelation (fmt ["generation comparison bound "; show_nat MAX_STREAM_COMPARISONS; " exhausted"]).

Fixpoint compare_pairs (ps : list (PrNumber * PrNumber)) (relations : RelationMap) (c : Counters)
    (w : W) : option (RelationMap * Counters * W) :=
  match ps with
  | [] => Some (relations, c, w)
  | (l, r) :: rest =>
      if MAX_STREAM_COMPARISONS <=? ct_used c
      then compare_pairs rest (<[(l, r) := bound_exhausted]> relations) (mkCounters (ct_used c) true) w
      else
        '(_, lp) ← valid !! l;
        '(_, rp) ← valid !! r;
        let '(relation, w) := compare (gp_source_head lp) (gp_source_head rp) w in
        compare_pairs rest (<[(l, r) := relation]> relations)
          (mkCounters (S (ct_used c)) (ct_truncated c)) w
  end.

Definition contains (relations : RelationMap) (candidate other : PrNumber) : bool :=
  if N.eqb candidate other then true
  else
    let '(low, high, reversed) :=
      if N.ltb other candidate then (other, candidate, false) else (candidate, other, true) in
    match relations !! (low, high) with
    | Some Identical => true
    | Some Ahead => negb reversed
    | Some Behind => reversed
    | _ => false
    end.

(** The newest creation key among several identical sources. *)
Definition created_key (pr : PrNumber) : option (string * N * PrNumber) :=
  '(fact, _) ← valid !! pr;
  Some (match gf_created_at fact with Some c => c | None => EmptyString end, pr, pr).

Definition choose_maximum (maxima : list PrNumber) : option (list PrNumber) :=
  if 1 <? length maxima then
    keyed ← mapM created_key maxima;
    newest ← last (sort_by_key fst keyed);
    Some [newest.2]
  else Some maxima.
End valid.

Section analysis.
(** [format!("{text:?}")], and [serde_json::to_vec] of the sorted facts and the
    findings; [None] is the serializer's error. *)
Context (debug_str : string → string).
Context (generation_json : list PullRequestGenerationFact → list GenerationFinding → option (list N)).
Context {W : Type} (compare : CommitOid → CommitOid → W → CommitRelation * W).

Definition debug_relation (r : option CommitRelation) : string :=
  match r with
  | None => "None"
  | Some Ahead => "Some(Ahead)"
  | Some Behind => "Some(Behind)"
  | Some Identical => "Some(Identical)"
  | Some Diverged => "Some(Diverged)"
  | Some (UnknownRelation reason) => fmt ["Some(Unknown { reason: "; debug_str reason; " })"]
  end.

Definition debug_prs (prs : list PrNumber) : string :=
  fmt ["["; join ", " ((λ pr, fmt ["PrNumber("; show_pr pr; ")"]) <$> prs); "]"].

Definition relation_row (relations : gmap (PrNumber * PrNumber) CommitRelation)
    (p : PrNumber * PrNumber) : string :=
  fmt [show_pr p.1; "..."; show_pr p.2; "="; debug_relation (relations !! p)].

Definition unproved_pair (relations : gmap (PrNumber * PrNumber) CommitRelation)
    (p : PrNumber * PrNumber) : option string :=
  match relations !! p with
  | Some (UnknownRelation reason) =>
      Some (fmt ["#"; show_pr p.1; "...#"; show_pr p.2; " ("; reason; ")"])
  | _ => None
  end.

(** The reason and the next action of a stream no generation of which is proven newest. *)
Definition ambiguity (relations : gmap (PrNumber * PrNumber) CommitRelation)
    (component : list PrNumber) : string * string :=
  let rows := relation_row relations <$> ordered_pairs component in
  let unproved_pairs := omap (unproved_pair relations) (ordered_pairs component) in
  let diverged := existsb (λ p, bool_decide (relations !! p = Some Diverged)) (ordered_pairs component) in
  let relation_evidence := join ", " rows in
  if diverged || bool_decide (unproved_pairs = []) then
    (fmt ["same-stream open generations are divergent or unproved: "; relation_evidence],
     "the owning agent/controller must choose one exact canonical generation; do not admit, close, or rewrite any sibling automatically")
  else
    (fmt ["same-stream ancestry is unproved because "; show_nat (length unproved_pairs);
          " provider comparison(s) were unreachable: "; join ", " unproved_pairs],
     "no divergence was observed; re-run discovery once the referenced commits are reachable, or declare the exact canonical generation. Cara excludes these rows without wedging selection").

Definition link_authority : string := "reviewed provider-visible canonical supersession link".
Definition containment_authority : string := "exact source containment".

(** A component no link decides. *)
Definition classify_compared (valid : ValidMap) (component : list PrNumber) (findings : FindingMap)
    (c : Counters) (w : W) : option (FindingMap * Counters * W) :=
  '(relations, c, w) ← compare_pairs valid compare (ordered_pairs component) ∅ c w;
  let maxima := List.filter (λ candidate, forallb (contains relations candidate) component) component in
  maxima ← choose_maximum valid maxima;
  findings ← match maxima with
             | [canonical] =>
                 record_canonical_component valid findings component canonical containment_authority
             | _ =>
                 let '(reason, safe_next_action) := ambiguity relations component in
                 insert_each (ambiguous_finding valid component reason safe_next_action) component findings
             end;
  Some (findings, c, w).

(** A component of several requests. *)
Definition classify_stream (valid : ValidMap) (component : list PrNumber) (findings : FindingMap)
    (c : Counters) (w : W) : option (FindingMap * Counters * W) :=
  linked_canonicals ← filter_opt (linked valid component) component;
  match linked_canonicals with
  | [canonical] =>
      findings ← record_canonical_component valid findings component canonical link_authority;
      Some (findings, c, w)
  | _ :: _ :: _ =>
      findings ← insert_each (ambiguous_finding valid component
        (fmt ["conflicting reviewed canonical-generation links name PRs "; debug_prs linked_canonicals])
        "the owning controller must revoke the conflicting links and select one exact canonical generation")
        component findings;
      Some (findings, c, w)
  | [] => classify_compared valid component findings c w
  end.

(** One round of the loop over the components. *)
Definition classify (valid : ValidMap) (component : list PrNumber) (findings : FindingMap)
    (c : Counters) (w : W) : option (FindingMap * Counters * W) :=
  match component with
  | [pr] =>
      '(fact, provenance) ← valid !! pr;
      Some (<[pr := current_finding fact provenance [pr]]> findings, c, w)
  | _ => classify_stream valid component findings c w
  end.

Fixpoint classify_all (valid : ValidMap) (comps : list (list PrNumber)) (findings : FindingMap)
    (c : Counters) (w : W) : option (FindingMap * Counters * W) :=
  match comps with
  | [] => Some (findings, c, w)
  | component :: rest =>
      '(findings, c, w) ← classify valid component findings c w;
      classify_all valid rest findings c w
  end.

Definition analyze (facts : list PullRequestGenerationFact) (w : W)
    : option (GenerationIntegrityStatus * W) :=
  let '(findings, valid) := sort_facts facts in
  comps ← components valid;
  '(findings, c, w) ← classify_all valid comps findings (mkCounters 0 false) w;
  let findings := bt_values findings in
  material ← generation_json (sort_by_key gf_pr facts) findings;
  Some (mkGenerationIntegrity 1 (fnv1a64 material) findings (ct_used c) (ct_truncated c), w).
End analysis.

(** ** Lifecycle policy and the admission guard *)

Definition lifecycle_exact (f : GenerationFinding) : bool :=
  bool_decide (gn_lifecycle f = DurableSupersession)
  && is_some_and (gn_supersession f) se_closure_eligible.

Definition lifecycle_next_action (action : SupersededGenerationAction) (pr : PrNumber) : string :=
  match action with
  | Preserve => fmt ["preserve PR #"; show_pr pr;
      " and its exact provider head; repository policy does not authorize a closure proposal"]
  | ProposeClosure => fmt ["propose closure of PR #"; show_pr pr;
      " using its exact supersession evidence; do not mutate provider state"]
  | CloseAction => fmt ["close PR #"; show_pr pr;
      " only after fresh exact-head and canonical-generation revalidation"]
  end.

Definition apply_lifecycle_finding (action : SupersededGenerationAction) (f : GenerationFinding)
    : GenerationFinding :=
  let exact := lifecycle_exact f in
  mkGenerationFinding (gn_pr f) (gn_disposition f) (gn_lifecycle f)
    (if exact then action else Preserve) (gn_supersession f) (gn_canonical_pr f) (gn_related_prs f)
    (gn_agent f) (gn_bead_ids f) (gn_reason f)
    (if exact then lifecycle_next_action action (gn_pr f) else gn_safe_next_action f).

Definition apply_lifecycle_policy (integrity : GenerationIntegrityStatus)
    (action : SupersededGenerationAction) : GenerationIntegrityStatus :=
  mkGenerationIntegrity (gi_schema_version integrity) (gi_fingerprint integrity)
    (apply_lifecycle_finding action <$> gi_findings integrity)
    (gi_comparisons_used integrity) (gi_comparisons_truncated integrity).

(** The refusal of [require_admissible]: a validation error with its code, its
    message and the values of its details. *)
Record GenerationRefusal := mkGenerationRefusal {
  gr_code : string;
  gr_message : string;
  gr_pr : PrNumber;
  gr_integrity : GenerationIntegrityStatus;
  gr_finding : GenerationFinding;
  gr_mutated : bool;
  gr_safe_next_action : string }.

Definition refusal_text (d : GenerationDisposition) : option (string * string) :=
  match d with
  | CurrentGeneration => None
  | SupersededGeneration =>
      Some ("superseded_generation", "selected PR is an older contained Cacophony generation")
  | AmbiguousGeneration =>
      Some ("ambiguous_generation",
            "selected PR has divergent or unproved same-stream Cacophony siblings")
  | InvalidGenerationMetadata =>
      Some ("invalid_generation_metadata",
            "selected PR has incomplete or invalid Cacophony generation metadata")
  end.

Definition require_admissible (integrity : GenerationIntegrityStatus) (pr : PrNumber)
    : result unit GenerationRefusal :=
  match finding integrity pr with
  | None => Ok tt
  | Some f =>
      match refusal_text (gn_disposition f) with
      | None => Ok tt
      | Some (code, message) =>
          Err (mkGenerationRefusal code message pr integrity f false (gn_safe_next_action f))
      end
  end.
