(* ===== verification/GenerationProofs.v ===== *)
(** What the generation analysis promises: streams are the classes of the
    same-slot relation, each stream has at most one current generation, and a
    supersession rests on a reviewed link or on the provider's comparisons. *)

From Stdlib Require Import Ascii String.
From S2P Require Import Prelude Text TextProofs Model Generation.

#[local] Open Scope string_scope.
#[local] Open Scope list_scope.
#[local] Open Scope nat_scope.

(** ** Facts by request *)

(** The last fact with a number and provenance but no error is the valid one. *)
Definition declares (fact : PullRequestGenerationFact) : bool :=
  is_some_b (gf_metadata_error fact) || is_some_b (gf_provenance fact).

Record facts_sorted (facts : list PullRequestGenerationFact) (findings : FindingMap)
    (valid : ValidMap) : Prop := {
  fs_covered p : is_Some (findings !! p) ∨ is_Some (valid !! p) ↔
    ∃ fact, fact ∈ facts ∧ gf_pr fact = p ∧ declares fact = true;
  fs_valid p fact prov : valid !! p = Some (fact, prov) →
    fact ∈ facts ∧ gf_pr fact = p ∧ gf_metadata_error fact = None ∧ gf_provenance fact = Some prov;
  fs_invalid p g : findings !! p = Some g → ∃ fact error, fact ∈ facts ∧ gf_pr fact = p ∧
    gf_metadata_error fact = Some error ∧ g = invalid_finding fact error }.

Lemma sort_facts_spec facts :
  facts_sorted facts (sort_facts facts).1 (sort_facts facts).2.
Proof.
  unfold sort_facts. induction facts as [|fact facts IH] using rev_ind.
  { cbn. split.
    - intros p. rewrite !lookup_empty. split; [intros [[? [=]]|[? [=]]]|].
      intros (f & Hf & _). by apply elem_of_nil in Hf.
    - intros p f prov. by rewrite lookup_empty.
    - intros p g. by rewrite lookup_empty. }
  rewrite foldl_app. destruct (foldl _ _ facts) as [findings valid]. cbn in *.
  destruct IH as [Hc Hv Hi].
  assert (∀ p, (∃ f, f ∈ facts ++ [fact] ∧ gf_pr f = p ∧ declares f = true) ↔
    (is_Some (findings !! p) ∨ is_Some (valid !! p)) ∨ (gf_pr fact = p ∧ declares fact = true)) as Hsplit.
  { intros p. rewrite Hc. split.
    - intros (f & [Hf|Hf%list_elem_of_singleton]%elem_of_app & Hp & Hd); [left; eauto|]. subst. auto.
    - intros [(f & Hf & Hp)|Hp].
      + exists f. split; [apply elem_of_app; by left|done].
      + exists fact. split; [apply elem_of_app; right; by apply list_elem_of_singleton|done]. }
  unfold declares in *.
  destruct (gf_metadata_error fact) as [error|] eqn:He; [|destruct (gf_provenance fact) as [prov|] eqn:Hp];
    cbn in *; split.
  - intros p. rewrite Hsplit. destruct (decide (gf_pr fact = p)) as [<-|Hne].
    + rewrite lookup_insert_eq. split; [auto|]. intros _. left. eauto.
    + rewrite lookup_insert_ne by done. naive_solver.
  - intros p f prov Hf. destruct (Hv p f prov Hf) as (? & ? & ?). split; [apply elem_of_app; by left|done].
  - intros p g. destruct (decide (gf_pr fact = p)) as [<-|Hne].
    + rewrite lookup_insert_eq. intros [= <-]. exists fact, error. split_and!; try done.
      apply elem_of_app. right. by apply list_elem_of_singleton.
    + rewrite lookup_insert_ne by done. intros (f & e & ? & ?)%Hi. exists f, e.
      split; [apply elem_of_app; by left|done].
  - intros p. rewrite Hsplit. destruct (decide (gf_pr fact = p)) as [<-|Hne].
    + rewrite lookup_insert_eq. split; [auto|]. intros _. right. eauto.
    + rewrite lookup_insert_ne by done. naive_solver.
  - intros p f q. destruct (decide (gf_pr fact = p)) as [<-|Hne].
    + rewrite lookup_insert_eq. intros [= <- <-]. split_and!; try done.
      apply elem_of_app. right. by apply list_elem_of_singleton.
    + rewrite lookup_insert_ne by done. intros (? & ?)%Hv. split; [apply elem_of_app; by left|done].
  - intros p g (f & e & ? & ?)%Hi. exists f, e. split; [apply elem_of_app; by left|done].
  - intros p. rewrite Hsplit. naive_solver.
  - intros p f q (? & ?)%Hv. split; [apply elem_of_app; by left|done].
  - intros p g (f & e & ? & ?)%Hi. exists f, e. split; [apply elem_of_app; by left|done].
Qed.

(** ** Streams *)

Lemma same_stream_slot_sym l r : same_stream_slot l r = same_stream_slot r l.
Proof.
  unfold same_stream_slot.
  rewrite (String.eqb_sym (gp_agent l)), (String.eqb_sym (gp_stack_base l)).
  assert (bool_decide (gp_bead_ids l ∩ gp_bead_ids r = ∅) = bool_decide (gp_bead_ids r ∩ gp_bead_ids l = ∅))
    as -> by (apply bool_decide_ext; by rewrite (intersection_comm_L (gp_bead_ids l))).
  rewrite (orb_comm (String.eqb (gp_generation l) _)), (andb_comm (String.eqb (gp_stack_state l) "root")),
    (andb_comm (String.eqb (gp_stack_state l) "blocked_on_parent")). done.
Qed.

Section streams.
Context (valid : ValidMap).

(** Two valid requests in one stream slot. *)
Definition slot (p q : PrNumber) : Prop :=
  ∃ vp vq, valid !! p = Some vp ∧ valid !! q = Some vq ∧ same_stream_slot vp.2 vq.2 = true.

Lemma slot_sym p q : slot p q → slot q p.
Proof. intros (vp & vq & Hp & Hq & Hs). exists vq, vp. by rewrite same_stream_slot_sym. Qed.

Definition all_valid (l : list PrNumber) : Prop := ∀ p, p ∈ l → is_Some (valid !! p).

Lemma peers_of_spec current provenance unseen :
  snd <$> valid !! current = Some provenance → all_valid unseen →
  ∃ peers, peers_of valid provenance unseen = Some peers ∧
    peers `sublist_of` unseen ∧ ∀ p, p ∈ unseen → p ∈ peers ↔ slot current p.
Proof.
  intros Hcur Hall. unfold peers_of.
  assert (∃ keyed, mapM (λ peer, (λ v, (peer, v.2)) <$> valid !! peer) unseen = Some keyed ∧
    keyed.*1 = unseen ∧ ∀ p prov, (p, prov) ∈ keyed → ∃ f, valid !! p = Some (f, prov)) as
    (keyed & -> & <- & Hk).
  { induction unseen as [|p unseen IH]; cbn.
    - exists []. split_and!; [done|done|]. intros ? ? Hn. by apply elem_of_nil in Hn.
    - destruct (Hall p) as [[f prov] Hp]; [by left|]. rewrite Hp; cbn.
      destruct IH as (keyed & -> & Hf & Hk); [intros q Hq; apply Hall; by right|].
      exists ((p, prov) :: keyed). cbn. split_and!; [done|by rewrite Hf|].
      intros q pr [[= -> ->]|Hin]%elem_of_cons; eauto. }
  cbn. eexists. split; [done|]. split.
  - induction keyed as [|[p prov] keyed IH]; cbn; [done|].
    assert ((List.filter (λ q, same_stream_slot provenance q.2) keyed).*1 `sublist_of` keyed.*1) as Hs.
    { apply IH.
      - intros q Hq. apply Hall. cbn. by right.
      - intros q pr Hq. apply Hk. by right. }
    destruct (same_stream_slot provenance prov); cbn; by constructor.
  - intros p Hp. rewrite list_elem_of_fmap. split.
    + intros ([q prov] & -> & [Hin Hs]%elem_of_list_filter_b).
      destruct (Hk _ _ Hin) as [f Hf]. destruct (valid !! current) as [[f' pc]|] eqn:Hc; [|done].
      injection Hcur as ->. exists (f', provenance), (f, prov). done.
    + intros (vc & vp & Hc & Hvp & Hs). rewrite Hc in Hcur. injection Hcur as Hcur.
      apply list_elem_of_fmap in Hp as ([q prov] & -> & Hin). exists (q, prov). split; [done|].
      apply elem_of_list_filter_b. split; [done|]. destruct (Hk _ _ Hin) as [f Hf].
      cbn in *. rewrite Hf in Hvp. injection Hvp as <-. by rewrite <-Hcur.
Qed.

(** What a walk returns: the requests it met, and those out of its reach. *)
Record grown (queue unseen component comp' unseen' : list PrNumber) : Prop := {
  gr_perm : comp' ++ unseen' ≡ₚ component ++ queue ++ unseen;
  gr_sub : unseen' `sublist_of` unseen;
  gr_closed : (∀ c u, c ∈ component → u ∈ unseen → ¬ slot c u) →
    ∀ c u, c ∈ comp' → u ∈ unseen' → ¬ slot c u;
  gr_reach x : x ∈ comp' → x ∈ component ∨ ∃ q, q ∈ queue ∧ rtc slot q x }.

Lemma filter_sublist_rest (peers unseen : list PrNumber) :
  NoDup unseen → peers `sublist_of` unseen →
  peers ++ List.filter (λ p, negb (mem p peers)) unseen ≡ₚ unseen.
Proof.
  intros Hnd Hsub. etrans; [|apply (filter_split_Permutation (λ p, mem p peers))].
  apply Permutation_app_tail. apply NoDup_Permutation.
  - by eapply sublist_NoDup.
  - by apply NoDup_filter_b.
  - intros x. rewrite elem_of_list_filter_b, mem_true. split; [|tauto].
    intros Hx. split; [by eapply elem_of_sublist|done].
Qed.

Lemma grow_spec fuel queue unseen component :
  all_valid (queue ++ unseen) → NoDup unseen → length queue + length unseen ≤ fuel →
  ∃ comp' unseen', grow valid fuel queue unseen component = Some (comp', unseen') ∧
    grown queue unseen component comp' unseen'.
Proof.
  revert queue unseen component. induction fuel as [|fuel IH]; intros queue unseen component Hall Hnd Hf.
  all: destruct queue as [|current queue]; cbn.
  1,3: exists component, unseen; split; [done|]; split; [done|done|done|by left].
  { cbn in Hf; lia. }
  destruct (Hall current) as [[f prov] Hcur]; [by left|]. rewrite Hcur; cbn.
  destruct (peers_of_spec current prov unseen) as (peers & -> & Hsub & Hpeers).
  { by rewrite Hcur. } { intros p Hp. apply Hall. right. by apply elem_of_app; right. }
  cbn. set (rest := List.filter _ unseen).
  assert (peers ++ rest ≡ₚ unseen) as Hperm by by apply filter_sublist_rest.
  destruct (IH (queue ++ peers) rest (component ++ [current])) as (comp' & unseen' & -> & [P1 P2 P3 P4]).
  - intros p Hp. apply Hall. right. rewrite <-app_assoc, Hperm in Hp. done.
  - by apply NoDup_filter_b.
  - apply Permutation_length in Hperm. rewrite !length_app in *. cbn in Hf. lia.
  - exists comp', unseen'. split; [done|]. split.
    + rewrite P1, <-!app_assoc, Hperm. cbn. done.
    + etrans; [exact P2|]. apply filter_b_sublist.
    + intros Hno. apply P3. intros c u Hc [Hu Hn]%elem_of_list_filter_b.
      apply elem_of_app in Hc as [Hc| ->%list_elem_of_singleton]; [by apply Hno|].
      intros Hs%Hpeers; [|done]. apply negb_true_iff, mem_false in Hn. done.
    + intros x [[Hx| ->%list_elem_of_singleton]%elem_of_app|(q & [Hq|Hq]%elem_of_app & Hr)]%P4.
      * by left.
      * right. exists current. split; [by left|done].
      * right. exists q. split; [by right|done].
      * right. exists current. split; [by left|]. eapply rtc_l; [|exact Hr].
        apply Hpeers; [by eapply elem_of_sublist|done].
Qed.

(** The components: a partition into classes of the slot relation. *)
Record partitioned (unseen : list PrNumber) (comps : list (list PrNumber)) : Prop := {
  pa_perm : concat comps ≡ₚ unseen;
  pa_class comp : comp ∈ comps → ∃ start, start ∈ comp ∧ ∀ x, x ∈ comp → rtc slot start x;
  pa_closed comp x y : comp ∈ comps → x ∈ comp → y ∈ unseen → slot x y → y ∈ comp;
  pa_sorted comp : comp ∈ comps → StronglySorted (key_le id) comp }.

Lemma components_spec fuel unseen :
  all_valid unseen → NoDup unseen → length unseen ≤ fuel →
  ∃ comps, components_fuel valid fuel unseen = Some comps ∧ partitioned unseen comps.
Proof.
  revert unseen. induction fuel as [|fuel IH]; intros unseen Hall Hnd Hf.
  all: destruct unseen as [|start unseen]; cbn.
  1,3: exists []; split; [done|]; split; [done|..]; intros comp; [|intros x y|];
       intros Hc; by apply elem_of_nil in Hc.
  { cbn in Hf; lia. }
  apply NoDup_cons in Hnd as [Hstart Hnd].
  destruct (grow_spec (S (length unseen)) [start] unseen []) as (comp & rest & Hg & [P1 P2 P3 P4]);
    [done|done|cbn; lia|].
  cbn in Hg. rewrite Hg. cbn in *.
  assert (length (comp ++ rest) = S (length unseen)) as Hlen by (rewrite P1; done).
  assert (start ∈ comp) as Hsc.
  { assert (start ∈ comp ++ rest) as [?|Hr]%elem_of_app by (rewrite P1; by left); [done|].
    destruct Hstart. by eapply elem_of_sublist. }
  assert (NoDup (comp ++ rest)) as Hnd' by (rewrite P1; by constructor).
  destruct (IH rest) as (comps & -> & [Q1 Q2 Q3 Q4]).
  - intros p Hp. apply Hall. right. by eapply elem_of_sublist.
  - by apply NoDup_app in Hnd' as (_ & _ & ?).
  - rewrite length_app in Hlen. destruct comp as [|c comp]; [by apply elem_of_nil in Hsc|]. cbn in *. lia.
  - cbn. exists (vec_sort comp :: comps). split; [done|]. unfold vec_sort.
    assert (∀ c u, c ∈ comp → u ∈ rest → ¬ slot c u) as Hno.
    { apply P3. intros c u Hc. by apply elem_of_nil in Hc. }
    split.
    + cbn. rewrite sort_by_key_Permutation, Q1, P1. done.
    + intros c [->|Hc]%elem_of_cons; [|by apply Q2]. exists start.
      split; [by apply elem_of_sort_by_key|]. intros x Hx%elem_of_sort_by_key.
      destruct (P4 x Hx) as [Hn|(q & ->%list_elem_of_singleton & Hr)]; [by apply elem_of_nil in Hn|done].
    + intros c x y [->|Hc]%elem_of_cons Hx Hy Hs.
      * apply elem_of_sort_by_key in Hx. apply elem_of_sort_by_key.
        assert (y ∈ comp ++ rest) as [?|Hr]%elem_of_app by (by rewrite P1); [done|].
        by destruct (Hno x y).
      * assert (x ∈ rest) as Hxr by (rewrite <-Q1; apply list_elem_of_In, in_concat;
          exists c; rewrite <-!list_elem_of_In; done).
        assert (y ∈ comp ++ rest) as [Hyc|Hr]%elem_of_app by (by rewrite P1); [|by eapply Q3].
        destruct (Hno y x Hyc Hxr). by apply slot_sym.
    + intros c [->|Hc]%elem_of_cons; [apply sort_by_key_sorted|by apply Q4].
Qed.
End streams.

(** ** One stream *)

Lemma insert_each_spec f prs (findings : FindingMap) :
  (∀ p, p ∈ prs → is_Some (f p)) →
  ∃ findings', insert_each f prs findings = Some findings' ∧
    ∀ p, findings' !! p = if decide (p ∈ prs) then f p else findings !! p.
Proof.
  revert findings. induction prs as [|pr prs IH]; intros findings Hf; cbn.
  - exists findings. split; [done|]. intros p. by rewrite decide_False by apply not_elem_of_nil.
  - destruct (Hf pr) as [v Hv]; [by left|]. rewrite Hv; cbn.
    destruct (IH (<[pr := v]> findings)) as (m & -> & Hm); [intros p Hp; apply Hf; by right|].
    exists m. split; [done|]. intros p. rewrite Hm. destruct (decide (p ∈ prs)) as [Hp|Hp].
    + by rewrite decide_True by by right.
    + destruct (decide (p = pr)) as [->|Hne].
      * rewrite lookup_insert_eq, decide_True by by left. done.
      * rewrite lookup_insert_ne by done. rewrite decide_False; [done|].
        by intros [?|?]%elem_of_cons.
Qed.

Lemma filter_opt_spec (p : PrNumber → option bool) l :
  (∀ x, x ∈ l → is_Some (p x)) →
  ∃ l', filter_opt p l = Some l' ∧ l' `sublist_of` l ∧ ∀ x, x ∈ l' ↔ x ∈ l ∧ p x = Some true.
Proof.
  induction l as [|x l IH]; intros Hp; cbn.
  - exists []. split_and!; [done|done|]. intros x. split; [|tauto]. intros Hx. by apply elem_of_nil in Hx.
  - destruct (Hp x) as [b Hb]; [by left|]. rewrite Hb; cbn.
    destruct IH as (l' & -> & Hsub & Hl'); [intros y Hy; apply Hp; by right|]. cbn.
    eexists. split; [done|]. split; [destruct b; by constructor|]. intros y. destruct b; cbn; rewrite ?elem_of_cons, Hl'; naive_solver.
Qed.

Lemma elem_of_ordered_pairs {A} (l : list A) x y :
  (x, y) ∈ ordered_pairs l → x ∈ l ∧ y ∈ l.
Proof.
  induction l as [|z l IH]; cbn; [intros Hn; by apply elem_of_nil in Hn|].
  intros [(y' & [= -> ->] & Hy)%list_elem_of_fmap|[Hx Hy]%IH]%elem_of_app;
    rewrite !elem_of_cons; auto.
Qed.

Lemma ordered_pairs_covers (l : list PrNumber) x y :
  StronglySorted (key_le id) l → x ∈ l → y ∈ l → (x < y)%N → (x, y) ∈ ordered_pairs l.
Proof.
  induction 1 as [|z l Hl IH Hz]; cbn; [intros Hn; by apply elem_of_nil in Hn|].
  rewrite Forall_forall in Hz. rewrite !elem_of_cons, elem_of_app, list_elem_of_fmap.
  intros [->|Hx] [->|Hy] Hlt.
  - lia.
  - left. by exists y.
  - specialize (Hz x Hx). apply N.leb_le in Hz. unfold id in Hz. lia.
  - right. by apply IH.
Qed.

Section verdicts.
Context (valid : ValidMap) {W : Type} (compare : CommitOid → CommitOid → W → CommitRelation * W).

(** [a] is what the provider once answered about the sources of [l] and [r]. *)
Definition answered (l r : PrNumber) (a : CommitRelation) : Prop :=
  ∃ vl vr w, valid !! l = Some vl ∧ valid !! r = Some vr ∧
    a = (compare (gp_source_head vl.2) (gp_source_head vr.2) w).1.

Definition answers (relations : gmap (PrNumber * PrNumber) CommitRelation) : Prop :=
  ∀ l r a, relations !! (l, r) = Some a → a = bound_exhausted ∨ answered l r a.

Definition bounded_counters (c : Counters) : Prop :=
  ct_used c ≤ MAX_STREAM_COMPARISONS ∧
  (ct_truncated c = true → ct_used c = MAX_STREAM_COMPARISONS).

Lemma compare_pairs_spec ps relations c w :
  (∀ l r, (l, r) ∈ ps → is_Some (valid !! l) ∧ is_Some (valid !! r)) →
  answers relations → bounded_counters c →
  ∃ relations' c' w', compare_pairs valid compare ps relations c w = Some (relations', c', w') ∧
    answers relations' ∧ bounded_counters c' ∧
    (∀ p, is_Some (relations' !! p) ↔ p ∈ ps ∨ is_Some (relations !! p)).
Proof.
  revert relations c w. induction ps as [|[l r] ps IH]; intros relations c w Hps Ha [Hc Ht]; cbn.
  { exists relations, c, w. split_and!; try done. intros p. split; [auto|].
    intros [Hp|?]; [by apply elem_of_nil in Hp|done]. }
  assert (∀ a, a = bound_exhausted ∨ answered l r a → answers (<[(l, r) := a]> relations)) as Hins.
  { intros a Haa l' r' a'. destruct (decide ((l, r) = (l', r'))) as [[= <- <-]|Hne].
    - by rewrite lookup_insert_eq; intros [= <-].
    - rewrite lookup_insert_ne by done. apply Ha. }
  assert (∀ a (m : gmap (PrNumber * PrNumber) CommitRelation),
    (∀ p, is_Some (m !! p) ↔ p ∈ ps ∨ is_Some (<[(l, r) := a]> relations !! p)) →
    ∀ p, is_Some (m !! p) ↔ p ∈ (l, r) :: ps ∨ is_Some (relations !! p)) as Hdom.
  { intros a m Hm p. rewrite Hm, elem_of_cons, lookup_insert_is_Some'. naive_solver. }
  assert (∀ l' r', (l', r') ∈ ps → is_Some (valid !! l') ∧ is_Some (valid !! r')) as Hps'
    by (intros; apply Hps; by right).
  destruct (Nat.leb_spec MAX_STREAM_COMPARISONS (ct_used c)) as [Hge|Hlt].
  - edestruct (IH (<[(l, r) := bound_exhausted]> relations) (mkCounters (ct_used c) true) w) as
      (m & c' & w' & -> & ? & ? & Hm); [done|by apply Hins; left| |].
    { split; cbn; [done|]. intros _. lia. }
    exists m, c', w'. split_and!; try done. by eapply Hdom.
  - destruct (Hps l r) as [[[fl vl] Hl] [[fr vr] Hr]]; [by left|]. rewrite Hl, Hr; cbn.
    destruct (compare (gp_source_head vl) (gp_source_head vr) w) as [a w1] eqn:Hcmp.
    edestruct (IH (<[(l, r) := a]> relations) (mkCounters (S (ct_used c)) (ct_truncated c)) w1) as
      (m & c' & w' & -> & ? & ? & Hm); [done| | |].
    { apply Hins. right. exists (fl, vl), (fr, vr), w. cbn. by rewrite Hcmp. }
    { split; cbn; [lia|]. intros Htr. specialize (Ht Htr). lia. }
    exists m, c', w'. split_and!; try done. by eapply Hdom.
Qed.

(** The order among identical sources: creation time, then number. *)
Definition newest_key (p : PrNumber) : string * N :=
  (match valid !! p with
   | Some (fact, _) => match gf_created_at fact with Some t => t | None => EmptyString end
   | None => EmptyString
   end, p).

Lemma last_sorted_max {A K} `{RustOrd K, !RustOrdLaws K} (key : A → K) (l : list A) m :
  StronglySorted (key_le key) l → last l = Some m → m ∈ l ∧ ∀ x, x ∈ l → ord_le (key x) (key m) = true.
Proof.
  induction 1 as [|x l Hl IH Hx]; [done|]. destruct l as [|y l].
  - cbn. intros [= <-]. split; [by left|]. intros z ->%list_elem_of_singleton. apply ord_refl.
  - cbn [last]. intros Hm. destruct (IH Hm) as [Hin Hmax]. split; [by right|].
    intros z [->|Hz]%elem_of_cons; [|by apply Hmax].
    rewrite Forall_forall in Hx. by apply Hx.
Qed.

Lemma choose_maximum_spec maxima :
  (∀ p, p ∈ maxima → is_Some (valid !! p)) →
  (maxima = [] ∧ choose_maximum valid maxima = Some []) ∨
  ∃ c, choose_maximum valid maxima = Some [c] ∧ c ∈ maxima ∧
    ∀ m, m ∈ maxima → ord_le (newest_key m) (newest_key c) = true.
Proof.
  intros Hv. unfold choose_maximum. destruct (Nat.ltb_spec 1 (length maxima)) as [Hlt|Hge].
  - right. assert (mapM (created_key valid) maxima = Some ((λ p, (newest_key p, p)) <$> maxima)) as Hk.
    { apply mapM_Some_2, Forall2_fmap_r, Forall_Forall2_diag. rewrite Forall_forall. intros p Hp. cbn.
      destruct (Hv p Hp) as [[f v] Hf]. unfold created_key, newest_key. by rewrite Hf. }
    rewrite Hk; cbn. set (keyed := sort_by_key fst _).
    assert (length keyed = length maxima) as Hlen by (unfold keyed; by rewrite length_sort_by_key, length_fmap).
    destruct (last keyed) as [[k c]|] eqn:Hl; [|apply last_None in Hl; rewrite Hl in Hlen; cbn in Hlen; lia].
    cbn. exists c. split; [done|].
    destruct (last_sorted_max fst keyed (k, c)) as [Hin Hmax]; [apply sort_by_key_sorted|done|].
    unfold keyed in Hin, Hmax. setoid_rewrite elem_of_sort_by_key in Hmax.
    apply elem_of_sort_by_key, list_elem_of_fmap in Hin as (c' & [= -> ->] & Hc).
    split; [done|]. intros m Hm. apply (Hmax (newest_key m, m)).
    apply list_elem_of_fmap. by exists m.
  - destruct maxima as [|c [|? ?]]; cbn in Hge; [by left| |lia]. right. exists c.
    split_and!; [done|by left|]. intros m ->%list_elem_of_singleton. apply ord_refl.
Qed.

Definition links (comp : list PrNumber) (c : PrNumber) : Prop :=
  ∃ fact prov, valid !! c = Some (fact, prov) ∧ ∀ p, p ∈ comp → p ≠ c → p ∈ gf_supersedes fact.

Lemma linked_spec comp c : is_Some (valid !! c) →
  ∃ b, linked valid comp c = Some b ∧ (b = true ↔ links comp c).
Proof.
  intros [[fact prov] Hc]. unfold linked. rewrite Hc; cbn. eexists. split; [done|].
  rewrite forallb_elem_of. unfold links. setoid_rewrite Hc. split.
  - intros H. exists fact, prov. split; [done|]. intros p Hp Hne. specialize (H p Hp).
    apply orb_true_iff in H as [Hpc%N.eqb_eq|H]; [done|]. by apply bool_decide_eq_true in H.
  - intros (f & q & [= <- <-] & H) p Hp. destruct (decide (p = c)) as [->|Hne]; [by rewrite N.eqb_refl|].
    apply orb_true_iff. right. apply bool_decide_eq_true. by apply H.
Qed.

(** ** The verdict on a stream *)

(** What the code may have concluded about a component, and why. *)
Inductive stream_verdict (comp : list PrNumber) (f : FindingMap) : Prop :=
| verdict_single pr fact prov : comp = [pr] → valid !! pr = Some (fact, prov) →
    f !! pr = Some (current_finding fact prov [pr]) → stream_verdict comp f
| verdict_linked c : c ∈ comp → links comp c → (∀ c', c' ∈ comp → links comp c' → c' = c) →
    (∀ p, p ∈ comp → f !! p = canonical_finding valid comp c link_authority p) → stream_verdict comp f
| verdict_contained relations c : c ∈ comp → answers relations →
    (∀ p, p ∈ comp → contains relations c p = true) →
    (∀ c', c' ∈ comp → (∀ p, p ∈ comp → contains relations c' p = true) →
       ord_le (newest_key c') (newest_key c) = true) →
    (∀ c', c' ∈ comp → ¬ links comp c') →
    (∀ p, p ∈ comp → f !! p = canonical_finding valid comp c containment_authority p) → stream_verdict comp f
| verdict_conflict c c' reason action : c ∈ comp → c' ∈ comp → c ≠ c' → links comp c → links comp c' →
    (∀ p, p ∈ comp → f !! p = ambiguous_finding valid comp reason action p) → stream_verdict comp f
| verdict_unproven relations reason action : answers relations →
    (∀ c, c ∈ comp → ∃ p, p ∈ comp ∧ contains relations c p = false) →
    (∀ c', c' ∈ comp → ¬ links comp c') →
    (∀ p, p ∈ comp → f !! p = ambiguous_finding valid comp reason action p) → stream_verdict comp f.

Lemma verdict_ext comp f g : (∀ p, p ∈ comp → f !! p = g !! p) → stream_verdict comp f → stream_verdict comp g.
Proof.
  intros Hext Hv.
  assert (∀ h, (∀ p, p ∈ comp → f !! p = h p) → ∀ p, p ∈ comp → g !! p = h p) as Hcopy.
  { intros h Hh p Hp. by rewrite <-Hext, Hh. }
  destruct Hv.
  - eapply verdict_single; [done|done|]. rewrite <-Hext; [done|]. subst. by left.
  - by eapply verdict_linked; eauto; apply Hcopy.
  - by eapply verdict_contained; eauto; apply Hcopy.
  - eapply (verdict_conflict _ _ c c'); try done. by apply Hcopy.
  - by eapply verdict_unproven; eauto; apply Hcopy.
Qed.

Lemma canonical_finding_total comp c authority p :
  is_Some (valid !! c) → is_Some (valid !! p) → is_Some (canonical_finding valid comp c authority p).
Proof.
  intros [[fc vc] Hc] [[fp vp] Hp]. unfold canonical_finding. rewrite Hp, Hc; cbn.
  destruct (p =? c)%N; eauto.
Qed.

Lemma ambiguous_finding_total comp reason action p :
  is_Some (valid !! p) → is_Some (ambiguous_finding valid comp reason action p).
Proof. intros [[fp vp] Hp]. unfold ambiguous_finding. rewrite Hp. eauto. Qed.

Context (debug_str : string → string).

(** One component: its findings are a verdict, the others are untouched. *)
Definition classified (comp : list PrNumber) (f : FindingMap) (c : Counters)
    (r : option (FindingMap * Counters * W)) : Prop :=
  ∃ f' c' w', r = Some (f', c', w') ∧ stream_verdict comp f' ∧
    (∀ p, p ∉ comp → f' !! p = f !! p) ∧ bounded_counters c'.

Lemma insert_each_classified comp f g c c' w' :
  (∀ p, p ∈ comp → is_Some (g p)) → bounded_counters c' →
  (∀ f', (∀ p, p ∈ comp → f' !! p = g p) → stream_verdict comp f') →
  classified comp f c (findings ← insert_each g comp f; Some (findings, c', w')).
Proof.
  intros Hg Hc Hv. destruct (insert_each_spec g comp f Hg) as (f' & -> & Hf'); cbn.
  exists f', c', w'. split_and!; [done| | |done].
  - apply Hv. intros p Hp. by rewrite Hf', decide_True by done.
  - intros p Hp. by rewrite Hf', decide_False by done.
Qed.

Lemma classify_compared_spec comp f c w :
  StronglySorted (key_le id) comp → (∀ p, p ∈ comp → is_Some (valid !! p)) → bounded_counters c →
  (∀ p, p ∈ comp → ¬ links comp p) →
  classified comp f c (classify_compared debug_str compare valid comp f c w).
Proof.
  intros Hs Hv Hc Hnl. unfold classify_compared.
  destruct (compare_pairs_spec (ordered_pairs comp) ∅ c w) as (relations & c' & w' & -> & Ha & Hc' & _).
  { intros l r [? ?]%elem_of_ordered_pairs. auto. } { intros l r a. by rewrite lookup_empty. } { done. }
  cbn. set (maxima := List.filter _ comp).
  assert (∀ x, x ∈ maxima ↔ x ∈ comp ∧ ∀ p, p ∈ comp → contains relations x p = true) as Hmax.
  { intros x. unfold maxima. rewrite elem_of_list_filter_b, forallb_elem_of. done. }
  destruct (choose_maximum_spec maxima) as [[Hnil ->]|(m & -> & Hm & Hnew)].
  { intros p [Hp _]%Hmax. auto. }
  - cbn. destruct (ambiguity debug_str relations comp) as [reason action]. cbn.
    apply insert_each_classified; [intros; by apply ambiguous_finding_total, Hv|done|].
    intros f' Hf'. eapply verdict_unproven; [done| |done|done]. intros x Hx.
    destruct (forallb (contains relations x) comp) eqn:Hall.
    + assert (x ∈ maxima) as Hxm by (apply Hmax; split; [done|by apply forallb_elem_of]).
      rewrite Hnil in Hxm. by apply elem_of_nil in Hxm.
    + apply Bool.not_true_iff_false in Hall. rewrite forallb_elem_of in Hall.
      destruct (existsb (λ p, negb (contains relations x p)) comp) eqn:E.
      * apply existsb_elem_of in E as (p & Hp & Hn). exists p. split; [done|]. by apply negb_true_iff.
      * destruct Hall. intros p Hp. rewrite existsb_false_elem_of in E. by apply negb_false_iff, E.
  - cbn. apply Hmax in Hm as [Hmc Hmall].
    apply insert_each_classified; [intros; apply canonical_finding_total; auto|done|].
    intros f' Hf'. eapply verdict_contained; [exact Hmc|done|done| |done|done].
    intros x Hx Hxall. apply Hnew, Hmax. done.
Qed.

Lemma classify_stream_spec comp f c w :
  StronglySorted (key_le id) comp → NoDup comp →
  (∀ p, p ∈ comp → is_Some (valid !! p)) → bounded_counters c →
  classified comp f c (classify_stream debug_str compare valid comp f c w).
Proof.
  intros Hs Hnd Hv Hc. unfold classify_stream.
  destruct (filter_opt_spec (linked valid comp) comp) as (l & -> & Hsub & Hl).
  { intros p Hp. destruct (linked_spec comp p) as (b & -> & _); eauto. }
  assert (∀ p, p ∈ l ↔ p ∈ comp ∧ links comp p) as Hlinks.
  { intros p. rewrite Hl. split; intros [Hp Hb]; (split; [done|]);
      destruct (linked_spec comp p) as (b & Heq & Hiff); auto.
    - rewrite Heq in Hb. injection Hb as ->. by apply Hiff.
    - rewrite Heq. f_equal. by apply Hiff. }
  cbn. destruct l as [|z [|z' l]].
  - apply classify_compared_spec; [done|done|done|]. intros p Hp Hk.
    assert (p ∈ @nil PrNumber) as Hn by (apply Hlinks; done). by apply elem_of_nil in Hn.
  - destruct (proj1 (Hlinks z)) as [Hz Hzl]; [by left|].
    apply insert_each_classified; [intros; apply canonical_finding_total; auto|done|].
    intros f' Hf'. eapply verdict_linked; [exact Hz|done| |done].
    intros q Hq Hql. assert (q ∈ [z]) as ->%list_elem_of_singleton by (apply Hlinks; done). done.
  - destruct (proj1 (Hlinks z)) as [Hz Hzl]; [by left|].
    destruct (proj1 (Hlinks z')) as [Hz' Hzl']; [right; by left|].
    apply insert_each_classified; [intros; by apply ambiguous_finding_total, Hv|done|].
    intros f' Hf'. eapply (verdict_conflict _ _ z z'); try done.
    intros ->. apply (sublist_NoDup _ _ Hnd) in Hsub. apply NoDup_cons in Hsub as [Hn _].
    apply Hn. by left.
Qed.

Lemma classify_spec comp f c w :
  StronglySorted (key_le id) comp → NoDup comp →
  (∀ p, p ∈ comp → is_Some (valid !! p)) → bounded_counters c →
  classified comp f c (classify debug_str compare valid comp f c w).
Proof.
  intros Hs Hnd Hv Hc. unfold classify.
  destruct comp as [|x [|y comp]]; [by apply classify_stream_spec| |by apply classify_stream_spec].
  destruct (Hv x) as [[fact prov] Hx]; [by left|]. rewrite Hx; cbn.
  eexists _, c, w. split; [done|]. split_and!; [| |done].
  - eapply verdict_single; [done|done|]. by rewrite lookup_insert_eq.
  - intros p Hp. rewrite lookup_insert_ne; [done|]. intros ->. apply Hp. by left.
Qed.

Lemma classify_all_spec comps f c w :
  Forall (StronglySorted (key_le id)) comps → NoDup (concat comps) →
  (∀ p, p ∈ concat comps → is_Some (valid !! p)) → bounded_counters c →
  ∃ f' c' w', classify_all debug_str compare valid comps f c w = Some (f', c', w') ∧
    (∀ comp, comp ∈ comps → stream_verdict comp f') ∧
    (∀ p, p ∉ concat comps → f' !! p = f !! p) ∧ bounded_counters c'.
Proof.
  intros Hs. revert f c w. induction Hs as [|comp comps Hs _ IH]; cbn; intros f c w Hnd Hv Hc.
  { exists f, c, w. split_and!; try done. intros comp Hn. by apply elem_of_nil in Hn. }
  apply NoDup_app in Hnd as (Hn1 & Hdis & Hn2).
  destruct (classify_spec comp f c w) as (f1 & c1 & w1 & -> & Hv1 & Ho1 & Hc1);
    [done|done|intros; apply Hv, elem_of_app; by left|done|]. cbn.
  destruct (IH f1 c1 w1) as (f2 & c2 & w2 & -> & Hv2 & Ho2 & Hc2);
    [done|intros; apply Hv, elem_of_app; by right|done|].
  exists f2, c2, w2. split_and!; [done| | |done].
  - intros x [->|Hx]%elem_of_cons; [|by apply Hv2].
    eapply verdict_ext; [|exact Hv1]. intros p Hp. symmetry. apply Ho2. by apply Hdis.
  - intros p Hp. rewrite elem_of_app in Hp. rewrite Ho2, Ho1 by tauto. done.
Qed.
End verdicts.

(** ** The whole analysis *)

Section analysed.
Context (debug_str : string → string).
Context (generation_json : list PullRequestGenerationFact → list GenerationFinding → option (list N)).
Context {W : Type} (compare : CommitOid → CommitOid → W → CommitRelation * W).
Context (facts : list PullRequestGenerationFact).

Abbreviation valid := (sort_facts facts).2 (only parsing).
Abbreviation invalid := (sort_facts facts).1 (only parsing).

(** Requests joined by a chain of same-slot siblings. *)
Definition stream (p q : PrNumber) : Prop := rtc (slot valid) p q.

Record analysed (status : GenerationIntegrityStatus) (f : FindingMap) (comps : list (list PrNumber))
    : Prop := {
  ay_parts : partitioned valid (bt_keys valid) comps;
  ay_verdict comp : comp ∈ comps → stream_verdict valid compare comp f;
  ay_other p : valid !! p = None → f !! p = invalid !! p;
  ay_findings : gi_findings status = bt_values f;
  ay_bound : bounded_counters (mkCounters (gi_comparisons_used status)
    (gi_comparisons_truncated status)) }.

Lemma analyze_outcome w :
  ∃ f comps c w', analysed (mkGenerationIntegrity 1 EmptyString (bt_values f) (ct_used c) (ct_truncated c))
    f comps ∧
  analyze debug_str generation_json compare facts w =
    (material ← generation_json (sort_by_key gf_pr facts) (bt_values f);
     Some (mkGenerationIntegrity 1 (fnv1a64 material) (bt_values f) (ct_used c) (ct_truncated c), w')).
Proof.
  unfold analyze. destruct (sort_facts facts) as [inv val] eqn:Hs.
  assert (all_valid val (bt_keys val)) as Hall by (intros p; apply elem_of_bt_keys).
  destruct (components_spec val (size val) (bt_keys val)) as (comps & Hc & Hp);
    [done|apply NoDup_bt_keys|by rewrite length_bt_keys|].
  unfold components. rewrite Hc; cbn.
  assert (∀ p, p ∈ concat comps ↔ is_Some (val !! p)) as Hdom.
  { intros p. destruct Hp as [-> _ _ _]. by apply elem_of_bt_keys. }
  destruct (classify_all_spec val compare debug_str comps inv (mkCounters 0 false) w) as
    (f & c & w' & Hr & Hv & Ho & Hb).
  - rewrite Forall_forall. by apply (pa_sorted val _ _ Hp).
  - destruct Hp as [-> _ _ _]. apply NoDup_bt_keys.
  - intros p. by apply Hdom.
  - split; cbn; [lia|done].
  - rewrite Hr; cbn. exists f, comps, c, w'. split; [|done].
    split; rewrite ?Hs; cbn; try done.
    intros p Hn. apply Ho. rewrite Hdom, Hn. by intros [? [=]].
Qed.

(** Every result comes from such an outcome. *)
Lemma analyze_analysed w status w' :
  analyze debug_str generation_json compare facts w = Some (status, w') →
  ∃ f comps, analysed status f comps.
Proof.
  destruct (analyze_outcome w) as (f & comps & c & w1 & [A1 A2 A3 _ A5] & ->).
  destruct (generation_json _ _) as [material|]; [|done]. cbn. intros [= <- _].
  exists f, comps. by split.
Qed.

Section outcome.
Context (status : GenerationIntegrityStatus) (f : FindingMap) (comps : list (list PrNumber)).
Context (Ha : analysed status f comps).

Lemma component_of p v : valid !! p = Some v → ∃ comp, comp ∈ comps ∧ p ∈ comp.
Proof.
  intros Hp. assert (p ∈ concat comps) as Hin.
  { rewrite (pa_perm _ _ _ (ay_parts _ _ _ Ha)). apply elem_of_bt_keys. eauto. }
  apply list_elem_of_In, in_concat in Hin as (comp & ? & ?). exists comp.
  by rewrite !list_elem_of_In.
Qed.

Lemma component_valid comp p : comp ∈ comps → p ∈ comp → is_Some (valid !! p).
Proof.
  intros Hc Hp. apply elem_of_bt_keys. rewrite <-(pa_perm _ _ _ (ay_parts _ _ _ Ha)).
  apply list_elem_of_In, in_concat. exists comp. by rewrite <-!list_elem_of_In.
Qed.

Lemma slot_valid p q : slot valid p q → is_Some (valid !! q).
Proof. intros (? & ? & _ & ? & _). eauto. Qed.

Lemma stream_sym p q : stream p q → stream q p.
Proof.
  unfold stream. induction 1 as [|x y z Hs _ IH]; [done|]. eapply rtc_r; [exact IH|].
  by apply slot_sym.
Qed.

(** The members of a component are one stream. *)
Lemma component_stream comp p q : comp ∈ comps → p ∈ comp → q ∈ comp ↔ stream p q.
Proof.
  intros Hc Hp. destruct (ay_parts _ _ _ Ha) as [_ Hclass Hclosed _]. split.
  - intros Hq. destruct (Hclass comp Hc) as (start & _ & Hreach).
    unfold stream. etrans; [apply stream_sym|]; by apply Hreach.
  - intros Hr. induction Hr as [|x y z Hs Hr IH]; [done|]. apply IH.
    eapply Hclosed; [done|exact Hp| |exact Hs]. apply elem_of_bt_keys. by eapply slot_valid.
Qed.

(** One finding of a verdict. *)
Definition member_finding (comp : list PrNumber) (p : PrNumber) (g : GenerationFinding) : Prop :=
  gn_pr g = p ∧ gn_lifecycle_action g = Preserve ∧
  match gn_disposition g with
  | CurrentGeneration => gn_canonical_pr g = Some p ∧ gn_supersession g = None
  | SupersededGeneration => ∃ c, gn_canonical_pr g = Some c ∧ c ≠ p ∧ c ∈ comp
  | AmbiguousGeneration => gn_canonical_pr g = None ∧ gn_supersession g = None
  | InvalidGenerationMetadata => False
  end.

Lemma canonical_finding_member comp c authority p g :
  c ∈ comp → canonical_finding valid comp c authority p = Some g →
  member_finding comp p g ∧
  (p = c → gn_disposition g = CurrentGeneration) ∧
  (p ≠ c → gn_disposition g = SupersededGeneration ∧ gn_canonical_pr g = Some c).
Proof.
  intros Hc. unfold canonical_finding. destruct (valid !! p) as [[fp vp]|] eqn:Hp; [cbn|done].
  assert (gf_pr fp = p) as Hfp by by eapply fs_valid in Hp as (_ & ? & _); [|apply sort_facts_spec].
  destruct (N.eqb_spec p c) as [->|Hne].
  - intros [= <-]. unfold member_finding; cbn. rewrite Hfp. by repeat split.
  - destruct (valid !! c) as [[fc vc]|]; [cbn|done]. intros [= <-]. unfold member_finding; cbn.
    split_and!; try done. by exists c.
Qed.

Lemma ambiguous_finding_member comp reason action p g :
  ambiguous_finding valid comp reason action p = Some g →
  member_finding comp p g ∧ gn_disposition g = AmbiguousGeneration.
Proof.
  unfold ambiguous_finding. destruct (valid !! p) as [[fp vp]|]; [cbn|done]. by intros [= <-].
Qed.

(** The two shapes of a verdict: one canonical request, or none. *)
Lemma verdict_shape comp : comp ∈ comps →
  (∃ c, c ∈ comp ∧ ∀ p, p ∈ comp → ∃ g, f !! p = Some g ∧ member_finding comp p g ∧
    (p = c → gn_disposition g = CurrentGeneration) ∧
    (p ≠ c → gn_disposition g = SupersededGeneration ∧ gn_canonical_pr g = Some c)) ∨
  (∀ p, p ∈ comp → ∃ g, f !! p = Some g ∧ member_finding comp p g ∧
    gn_disposition g = AmbiguousGeneration).
Proof.
  intros Hc.
  assert (∀ c authority p, c ∈ comp → p ∈ comp → f !! p = canonical_finding valid comp c authority p →
    ∃ g, f !! p = Some g ∧ canonical_finding valid comp c authority p = Some g) as Hcan.
  { intros c a p Hin Hp Hf. destruct (canonical_finding_total valid comp c a p) as [g Hg];
      [by eapply component_valid..|]. exists g. by rewrite Hf, Hg. }
  assert (∀ reason action p, p ∈ comp → f !! p = ambiguous_finding valid comp reason action p →
    ∃ g, f !! p = Some g ∧ ambiguous_finding valid comp reason action p = Some g) as Hamb.
  { intros r a p Hp Hf. destruct (ambiguous_finding_total valid comp r a p) as [g Hg];
      [by eapply component_valid|]. exists g. by rewrite Hf, Hg. }
  destruct (ay_verdict _ _ _ Ha comp Hc) as
    [pr fact prov -> Hpr Hf|c Hin _ _ Hf|rels c Hin _ _ _ _ Hf|c c' r a _ _ _ _ _ Hf|rels r a _ _ _ Hf].
  - left. exists pr. split; [by left|]. intros p ->%list_elem_of_singleton. eexists. split; [exact Hf|].
    assert (gf_pr fact = pr) as Hfp by by eapply fs_valid in Hpr as (_ & ? & _); [|apply sort_facts_spec].
    unfold member_finding; cbn. rewrite Hfp. by repeat split.
  - left. exists c. split; [done|]. intros p Hp.
    destruct (Hcan c _ p Hin Hp (Hf p Hp)) as (g & Hg & Hg'). exists g. split; [done|].
    by eapply canonical_finding_member.
  - left. exists c. split; [done|]. intros p Hp.
    destruct (Hcan c _ p Hin Hp (Hf p Hp)) as (g & Hg & Hg'). exists g. split; [done|].
    by eapply canonical_finding_member.
  - right. intros p Hp. destruct (Hamb r a p Hp (Hf p Hp)) as (g & Hg & Hg'). exists g.
    split; [done|]. by eapply ambiguous_finding_member.
  - right. intros p Hp. destruct (Hamb r a p Hp (Hf p Hp)) as (g & Hg & Hg'). exists g.
    split; [done|]. by eapply ambiguous_finding_member.
Qed.

Lemma verdict_finding p v : valid !! p = Some v → ∃ comp g, comp ∈ comps ∧ p ∈ comp ∧
  f !! p = Some g ∧ member_finding comp p g.
Proof.
  intros Hp. destruct (component_of p v Hp) as (comp & Hc & Hin). exists comp.
  destruct (verdict_shape comp Hc) as [(c & _ & Hs)|Hs];
    destruct (Hs p Hin) as (g & ? & ? & _); by exists g.
Qed.

Lemma invalid_lookup p g : valid !! p = None → f !! p = Some g →
  gn_pr g = p ∧ gn_disposition g = InvalidGenerationMetadata.
Proof.
  intros Hn. rewrite (ay_other _ _ _ Ha p Hn). intros Hg.
  destruct (fs_invalid _ _ _ (sort_facts_spec facts) p g Hg) as (fact & error & _ & <- & _ & ->). done.
Qed.

Lemma findings_keyed p g : f !! p = Some g → gn_pr g = p.
Proof.
  intros Hg. destruct (valid !! p) as [v|] eqn:Hp.
  - destruct (verdict_finding p v Hp) as (comp & g' & _ & _ & Hg' & Hm).
    rewrite Hg' in Hg. injection Hg as ->. apply Hm.
  - by apply invalid_lookup.
Qed.

Lemma finding_lookup p : finding status p = f !! p.
Proof.
  unfold finding. rewrite (ay_findings _ _ _ Ha). destruct (f !! p) as [g|] eqn:Hg.
  - destruct (List.find _ _) as [h|] eqn:Hf.
    + apply find_some_iff in Hf as [Hh Hp]. apply N.eqb_eq in Hp.
      apply elem_of_bt_values in Hh as [k Hk]. pose proof (findings_keyed k h Hk). subst. congruence.
    + assert ((gn_pr g =? p)%N = false) as Hn.
      { apply (find_none_iff _ _ Hf), elem_of_bt_values. eauto. }
      by rewrite (findings_keyed p g Hg), N.eqb_refl in Hn.
  - destruct (List.find _ _) as [h|] eqn:Hf; [|done].
    apply find_some_iff in Hf as [[k Hk]%elem_of_bt_values Hp]. apply N.eqb_eq in Hp.
    pose proof (findings_keyed k h Hk). subst. congruence.
Qed.
End outcome.
End analysed.

(** ** What the analysis guarantees *)

Lemma bt_values_keys {V} (m : gmap N V) (key : V → N) :
  (∀ k v, m !! k = Some v → key v = k) → key <$> bt_values m = bt_keys m.
Proof.
  intros Hk. unfold bt_values, bt_keys. rewrite <-list_fmap_compose.
  apply list_fmap_ext. intros i [k v] Hi. cbn. apply Hk.
  by apply elem_of_bt_entries, list_elem_of_lookup_2 with i.
Qed.

(** The world after these comparisons, each asked of the provider once. *)
Definition compared_by {W} (compare : CommitOid → CommitOid → W → CommitRelation * W)
    (calls : list (CommitOid * CommitOid)) (w : W) : W :=
  foldl (λ w '(a, b), (compare a b w).2) w calls.

Section counted.
Context {W : Type} (compare : CommitOid → CommitOid → W → CommitRelation * W).
Implicit Types w : W.

(** The counter advances by the calls that are made. *)
Definition counted (c : Counters) w (c' : Counters) w' : Prop :=
  ∃ calls, w' = compared_by compare calls w ∧ ct_used c' = ct_used c + length calls.
Lemma counted_refl c w : counted c w c w.
Proof. exists []. split; [done | cbn; lia]. Qed.
Lemma counted_trans c1 w1 c2 w2 c3 w3 : counted c1 w1 c2 w2 → counted c2 w2 c3 w3 → counted c1 w1 c3 w3.
Proof.
  intros (k1 & -> & H1) (k2 & -> & H2). exists (k1 ++ k2). unfold compared_by. rewrite foldl_app, length_app. split; [done | lia].
Qed.

Lemma compare_pairs_counted valid ps relations c w relations' c' w' :
  compare_pairs valid compare ps relations c w = Some (relations', c', w') → counted c w c' w'.
Proof.
  revert relations c w. induction ps as [| [l r] ps IH]; intros relations c w; cbn.
  { intros [= _ <- <-]. apply counted_refl. }
  destruct (_ <=? _).
  - intros (calls & -> & Hc)%IH. by exists calls.
  - destruct (valid !! l) as [[lf lp] |]; [cbn | done]. destruct (valid !! r) as [[rf rp] |]; [cbn | done].
    destruct (compare _ _ w) as [relation w1] eqn:Hcmp. intros Hr%IH. eapply counted_trans; [| exact Hr].
    exists [(gp_source_head lp, gp_source_head rp)]. cbn. rewrite Hcmp. split; [done | cbn; lia].
Qed.

(** One component, and all of them. *)
Lemma classify_counted debug_str valid component findings c w findings' c' w' :
  classify debug_str compare valid component findings c w = Some (findings', c', w') → counted c w c' w'.
Proof.
  assert (classify_stream debug_str compare valid component findings c w = Some (findings', c', w') → counted c w c' w') as Hs.
  { unfold classify_stream, classify_compared. intros Hr.
    destruct (filter_opt _ _) as [linked |]; [cbn in Hr | done]. destruct linked as [| canonical [| ? ?]].
    - destruct (compare_pairs _ _ _ _ _ _) as [[[relations c1] w1] |] eqn:Hp; [cbn in Hr | done].
      apply compare_pairs_counted in Hp. simplify_option_eq. by repeat case_match; simplify_option_eq.
    - destruct (record_canonical_component _ _ _ _ _); [cbn in Hr | done]. injection Hr as _ <- <-. apply counted_refl.
    - destruct (insert_each _ _ _); [cbn in Hr | done]. injection Hr as _ <- <-. apply counted_refl. }
  unfold classify. destruct component as [| pr [| ? ?]]; [exact Hs | | exact Hs].
  destruct (valid !! pr) as [[fact provenance] |]; [cbn | done]. intros [= _ <- <-]. apply counted_refl.
Qed.
Lemma classify_all_counted debug_str valid comps findings c w findings' c' w' :
  classify_all debug_str compare valid comps findings c w = Some (findings', c', w') → counted c w c' w'.
Proof.
  revert findings c w. induction comps as [| component comps IH]; intros findings c w; cbn.
  { intros [= _ <- <-]. apply counted_refl. }
  destruct (classify _ _ _ _ _ _ _) as [[[findings1 c1] w1] |] eqn:Hc; [cbn | done].
  intros Hr%IH. eapply counted_trans; [by eapply classify_counted | exact Hr].
Qed.
Lemma analyze_counted debug_str generation_json facts w status w' :
  analyze debug_str generation_json compare facts w = Some (status, w') →
  ∃ calls, w' = compared_by compare calls w ∧ gi_comparisons_used status = length calls.
Proof.
  unfold analyze. destruct (sort_facts facts) as [findings valid]. destruct (components valid) as [comps |]; [cbn | done].
  destruct (classify_all _ _ _ _ _ _ _) as [[[findings1 c1] w1] |] eqn:Hc; [cbn | done].
  destruct (generation_json _ _); [cbn | done]. intros [= <- <-]. by apply classify_all_counted in Hc.
Qed.
End counted.

(** C36. The analysis never panics and classifies every open request that carries
    Cacophony markers exactly once, whatever the provider answers: one finding
    per request with metadata or with a metadata error, in ascending number
    order, and no finding for other requests. The provider is asked for at most
    64 comparisons, exactly as many as the status reports, and truncation is
    reported only when all of them were asked for. *)
Theorem generation_analysis_total {W} debug_str generation_json
    (compare : CommitOid → CommitOid → W → CommitRelation * W) facts w :
  (∀ fs gs, is_Some (generation_json fs gs)) →
  ∃ status w', analyze debug_str generation_json compare facts w = Some (status, w') ∧
    (∀ p, is_Some (finding status p) ↔ ∃ fact, fact ∈ facts ∧ gf_pr fact = p ∧ declares fact = true) ∧
    StronglySorted N.lt (gn_pr <$> gi_findings status) ∧
    ∃ calls, w' = compared_by compare calls w ∧ gi_comparisons_used status = length calls ∧
      length calls ≤ 64 ∧ (gi_comparisons_truncated status = true → length calls = 64).
Proof.
  intros Hjson. destruct (analyze_outcome debug_str generation_json compare facts w)
    as (f & comps & c & w' & Ha & Hr). rewrite Hr.
  pose proof (analyze_counted compare debug_str generation_json facts w) as Hcount. rewrite Hr in Hcount.
  destruct (Hjson (sort_by_key gf_pr facts) (bt_values f)) as [material Hm]. rewrite Hm in *. cbn in *.
  destruct Ha as [A1 A2 A3 _ A5].
  set (status := mkGenerationIntegrity 1 _ _ _ _).
  assert (analysed compare facts status f comps) as Ha by by split.
  exists status, w'. split; [done|]. split; [|split].
  - intros p. rewrite (finding_lookup compare facts status f comps Ha).
    rewrite <-(fs_covered _ _ _ (sort_facts_spec facts)).
    destruct ((sort_facts facts).2 !! p) as [v|] eqn:Hv.
    + destruct (verdict_finding compare facts status f comps Ha p v Hv) as (comp & g & _ & _ & Hg & _).
      rewrite Hg. split; eauto.
    + rewrite (ay_other _ _ _ _ _ Ha p Hv). split; [auto|]. by intros [?|[? [=]]].
  - cbn. rewrite (bt_values_keys f gn_pr) by apply (findings_keyed compare facts status f comps Ha).
    pose proof (bt_keys_sorted f) as Hs. pose proof (NoDup_bt_keys f) as Hnd.
    induction Hs as [|k l Hs IH Hk]; [constructor|]. apply NoDup_cons in Hnd as [Hn Hnd].
    constructor; [by apply IH|]. rewrite Forall_forall in *. intros x Hx. specialize (Hk x Hx).
    apply N.leb_le in Hk. unfold id in Hk. assert (k ≠ x) by (intros ->; done). lia.
  - destruct (Hcount _ _ eq_refl) as (calls & Hw & Hu). cbn in Hu, A5. exists calls. cbn. rewrite Hu in *. by split_and!; try apply A5.
Qed.

(** A stream never has two current generations, and its requests are
    settled together: of two requests joined by same-slot siblings at most one
    is current; a superseded one names the current request of its own stream;
    and if one is ambiguous or has no canonical request, so does the other. *)
Theorem one_current_generation_per_stream {W} debug_str generation_json
    (compare : CommitOid → CommitOid → W → CommitRelation * W) facts w status w' p q g h :
  analyze debug_str generation_json compare facts w = Some (status, w') →
  stream facts p q → finding status p = Some g → finding status q = Some h →
  (gn_disposition g = CurrentGeneration → gn_disposition h = CurrentGeneration → p = q) ∧
  (gn_disposition g = SupersededGeneration → ∃ c k, gn_canonical_pr g = Some c ∧ c ≠ p ∧
     stream facts p c ∧ finding status c = Some k ∧ gn_disposition k = CurrentGeneration) ∧
  (gn_disposition g = AmbiguousGeneration → gn_disposition h = AmbiguousGeneration) ∧
  gn_canonical_pr g = gn_canonical_pr h.
Proof.
  intros Hr Hpq Hg Hh. destruct (analyze_analysed _ _ _ _ _ _ _ Hr) as (f & comps & Ha).
  rewrite (finding_lookup _ _ _ _ _ Ha) in Hg, Hh.
  destruct ((sort_facts facts).2 !! p) as [v|] eqn:Hv.
  - destruct (component_of _ _ _ _ _ Ha p v Hv) as (comp & Hc & Hp).
    assert (q ∈ comp) as Hq by by apply (component_stream _ _ _ _ _ Ha comp p q Hc Hp).
    destruct (verdict_shape _ _ _ _ _ Ha comp Hc) as [(c & Hcin & Hs)|Hs].
    + destruct (Hs p Hp) as (g' & Hg' & Mg & Cg & Sg). destruct (Hs q Hq) as (h' & Hh' & Mh & Ch & Sh).
      destruct (Hs c Hcin) as (k & Hk & _ & Ck & _).
      rewrite Hg in Hg'. injection Hg' as <-. rewrite Hh in Hh'. injection Hh' as <-.
      assert (∀ x gx, (x = c → gn_disposition gx = CurrentGeneration) →
        (x ≠ c → gn_disposition gx = SupersededGeneration ∧ gn_canonical_pr gx = Some c) →
        member_finding comp x gx → gn_canonical_pr gx = Some c) as Hcanon.
      { intros x gx Hx1 Hx2 (_ & _ & Hm). destruct (decide (x = c)) as [->|Hne]; [|by apply Hx2].
        rewrite Hx1 in Hm by done. apply Hm. }
      split_and!.
      * destruct (decide (p = c)) as [->|Hne]; [|by destruct (Sg Hne) as [-> _]].
        destruct (decide (q = c)) as [->|Hne]; [done|by destruct (Sh Hne) as [-> _]].
      * intros Hd. assert (p ≠ c) as Hne by (intros ->; rewrite Cg in Hd; done).
        exists c, k. split; [by apply Sg|]. split; [done|].
        split; [by apply (component_stream _ _ _ _ _ Ha comp p c Hc Hp)|].
        rewrite (finding_lookup _ _ _ _ _ Ha). auto.
      * intros Hd. exfalso. destruct (decide (p = c)) as [->|Hne]; [by rewrite Cg in Hd|].
        by destruct (Sg Hne) as [? _]; congruence.
      * rewrite (Hcanon p g), (Hcanon q h); done.
    + destruct (Hs p Hp) as (g' & Hg' & Mg & Dg). destruct (Hs q Hq) as (h' & Hh' & Mh & Dh).
      rewrite Hg in Hg'. injection Hg' as <-. rewrite Hh in Hh'. injection Hh' as <-.
      rewrite Dg, Dh. split_and!; try done. destruct Mg as (_ & _ & Mg), Mh as (_ & _ & Mh).
      rewrite Dg in Mg. rewrite Dh in Mh. destruct Mg as [-> _], Mh as [-> _]. done.
  - assert (p = q) as <-.
    { destruct Hpq as [|x y z (vx & _ & Hx & _)]; [done|]. rewrite Hv in Hx. done. }
    rewrite Hg in Hh. injection Hh as <-.
    destruct (invalid_lookup _ _ _ _ _ Ha p g Hv Hg) as [_ ->]. split_and!; done.
Qed.

(** The provider's answer puts the source of [p] inside the source of [c]. *)
Definition proven_inside {W} (compare : CommitOid → CommitOid → W → CommitRelation * W)
    (valid : ValidMap) (c p : PrNumber) : Prop :=
  ((p < c)%N ∧ (answered valid compare p c Identical ∨ answered valid compare p c Ahead)) ∨
  ((c < p)%N ∧ (answered valid compare c p Identical ∨ answered valid compare c p Behind)).

Lemma contains_proven {W} (compare : CommitOid → CommitOid → W → CommitRelation * W) valid relations c p :
  answers valid compare relations → c ≠ p → contains relations c p = true →
  proven_inside compare valid c p.
Proof.
  intros Ha Hne. unfold contains, proven_inside.
  destruct (N.eqb_spec c p) as [|_]; [done|].
  assert (∀ l r a, relations !! (l, r) = Some a → a ≠ bound_exhausted → answered valid compare l r a) as Hans.
  { intros l r a Hl Hb. by destruct (Ha l r a Hl). }
  destruct (N.ltb_spec p c) as [Hlt|Hge].
  - destruct (relations !! (p, c)) as [[| | | |]|] eqn:Hr; cbn; try done; intros _; left; (split; [done|]);
      [right|left]; by apply Hans.
  - destruct (relations !! (c, p)) as [[| | | |]|] eqn:Hr; cbn; try done; intros _; right;
      (split; [lia|]); [right|left]; by apply Hans.
Qed.

(** A supersession is never inferred: its evidence names the exact heads of
    the superseded and of the canonical request, and rests either on the
    canonical request's reviewed links, which name every other request of the
    stream, or on the provider's own answers, each placing another request's
    source inside the canonical source. *)
Theorem supersession_is_proven {W} debug_str generation_json
    (compare : CommitOid → CommitOid → W → CommitRelation * W) facts w status w' p g :
  analyze debug_str generation_json compare facts w = Some (status, w') →
  finding status p = Some g → gn_disposition g = SupersededGeneration →
  ∃ c fp vp fc vc authority,
    (sort_facts facts).2 !! p = Some (fp, vp) ∧ (sort_facts facts).2 !! c = Some (fc, vc) ∧
    gn_canonical_pr g = Some c ∧
    gn_supersession g =
      Some (mkSupersession p (gf_provider_head fp) c (gf_provider_head fc) authority true) ∧
    ((authority = link_authority ∧
      ∀ q, stream facts c q → q ≠ c → q ∈ gf_supersedes fc) ∨
     (authority = containment_authority ∧
      ∀ q, stream facts c q → q ≠ c → proven_inside compare (sort_facts facts).2 c q)).
Proof.
  intros Hr Hg Hd. destruct (analyze_analysed _ _ _ _ _ _ _ Hr) as (f & comps & Ha).
  rewrite (finding_lookup _ _ _ _ _ Ha) in Hg.
  destruct ((sort_facts facts).2 !! p) as [v|] eqn:Hv.
  2: { destruct (invalid_lookup _ _ _ _ _ Ha p g Hv Hg) as [_ Hn]. congruence. }
  destruct (component_of _ _ _ _ _ Ha p v Hv) as (comp & Hc & Hp).
  assert (∀ c authority, c ∈ comp → f !! p = canonical_finding (sort_facts facts).2 comp c authority p →
    ∃ fp vp fc vc, (sort_facts facts).2 !! p = Some (fp, vp) ∧
      (sort_facts facts).2 !! c = Some (fc, vc) ∧ gn_canonical_pr g = Some c ∧
      gn_supersession g =
        Some (mkSupersession p (gf_provider_head fp) c (gf_provider_head fc) authority true)) as Hev.
  { intros c a Hcin Hf. rewrite Hg in Hf. symmetry in Hf. unfold canonical_finding in Hf.
    rewrite Hv in Hf. cbn in Hf. destruct v as [fp vp].
    destruct (N.eqb_spec p c) as [->|Hne]; [injection Hf as <-; done|].
    destruct ((sort_facts facts).2 !! c) as [[fc vc]|] eqn:Hcv; [|done]. cbn in Hf. injection Hf as <-.
    by exists fp, vp, fc, vc. }
  destruct (ay_verdict _ _ _ _ _ Ha comp Hc) as
    [pr fact prov -> Hpr Hf|c Hin Hl _ Hf|rels c Hin Hans Hall _ _ Hf|c c' r a _ _ _ _ _ Hf|rels r a _ _ _ Hf].
  - apply list_elem_of_singleton in Hp as ->. rewrite Hg in Hf. injection Hf as ->. done.
  - destruct (Hev c _ Hin (Hf p Hp)) as (fp & vp & fc & vc & E1 & E2 & E3 & E4).
    exists c, fp, vp, fc, vc, link_authority. rewrite <-Hv, E1. split_and!; try done. left. split; [done|].
    intros q Hq Hne. destruct Hl as (fact & prov & Hfc & Hl). rewrite E2 in Hfc. injection Hfc as <- <-.
    apply Hl; [|done]. by apply (component_stream _ _ _ _ _ Ha comp c q Hc Hin).
  - destruct (Hev c _ Hin (Hf p Hp)) as (fp & vp & fc & vc & E1 & E2 & E3 & E4).
    exists c, fp, vp, fc, vc, containment_authority. rewrite <-Hv, E1. split_and!; try done.
    right. split; [done|]. intros q Hq Hne. eapply contains_proven; [done|done|]. apply Hall.
    by apply (component_stream _ _ _ _ _ Ha comp c q Hc Hin).
  - specialize (Hf p Hp). rewrite Hg in Hf. symmetry in Hf.
    apply ambiguous_finding_member in Hf as [_ Hn]. congruence.
  - specialize (Hf p Hp). rewrite Hg in Hf. symmetry in Hf.
    apply ambiguous_finding_member in Hf as [_ Hn]. congruence.
Qed.

(** ** A concrete fleet: two generations of one stream and a malformed request *)

Definition sample_provenance (generation source : string) : CacophonyGenerationProvenance :=
  mkProvenance generation "agent" source {[ "bd-00000a" ]} "main" "root".
Definition sample_facts : list PullRequestGenerationFact :=
  [mkGenerationFact 9 "h9" (Some "2026-01-02") (Some (sample_provenance "g9" "s9")) None ∅;
   mkGenerationFact 7 "h7" (Some "2026-01-01") (Some (sample_provenance "g7" "s7")) None ∅;
   mkGenerationFact 11 "h11" None None (Some "missing") ∅;
   mkGenerationFact 12 "h12" None None None ∅]%N.
Definition sample_compare (a b : CommitOid) (w : N) : CommitRelation * N := (Ahead, (w + 1)%N).
Definition sample_json (_ : list PullRequestGenerationFact) (gs : list GenerationFinding)
    : option (list N) := Some (gn_pr <$> gs).

Definition sample_status : GenerationIntegrityStatus :=
  match analyze id sample_json sample_compare sample_facts 0%N with
  | Some (s, _) => s
  | None => integrity_default
  end.

Example sample_dispositions :
  (λ g, (gn_pr g, gn_disposition g, gn_canonical_pr g)) <$> gi_findings sample_status =
    [(7%N, SupersededGeneration, Some 9%N); (9%N, CurrentGeneration, Some 9%N);
     (11%N, InvalidGenerationMetadata, None)].
Proof. vm_compute. reflexivity. Qed.

Definition sample_finding (p : N) : GenerationFinding :=
  match finding sample_status p with
  | Some g => g
  | None => invalid_finding (mkGenerationFact p EmptyString None None None ∅) EmptyString
  end.

Lemma sample_analyzed : analyze id sample_json sample_compare sample_facts 0%N = Some (sample_status, 1%N).
Proof. vm_compute. reflexivity. Qed.

Lemma sample_found (p : N) : p = 7%N ∨ p = 9%N → finding sample_status p = Some (sample_finding p).
Proof. intros [-> | ->]; vm_compute; reflexivity. Qed.

Lemma sample_slot : slot (sort_facts sample_facts).2 7%N 9%N.
Proof.
  eexists _, _. split; [vm_compute; reflexivity|]. split; [vm_compute; reflexivity|].
  vm_compute. reflexivity.
Qed.

Lemma generation_analysis_total_witness :
  ∃ status w', analyze id sample_json sample_compare sample_facts 0%N = Some (status, w') ∧
    is_Some (finding status 11%N).
Proof.
  destruct (generation_analysis_total id sample_json sample_compare sample_facts 0%N) as
    (status & w' & Hr & Hf & _).
  - intros fs gs. by eexists.
  - exists status, w'. split; [exact Hr|]. apply Hf.
    exists (mkGenerationFact 11 "h11" None None (Some "missing") ∅)%N. split; [|done].
    right. right. left.
Defined.

Lemma one_current_generation_per_stream_witness :
  ∃ c k, gn_canonical_pr (sample_finding 7%N) = Some c ∧ finding sample_status c = Some k ∧
    gn_disposition k = CurrentGeneration.
Proof.
  destruct (one_current_generation_per_stream id sample_json sample_compare sample_facts 0%N sample_status
    1%N 7%N 9%N (sample_finding 7%N) (sample_finding 9%N) sample_analyzed
    (rtc_once _ _ sample_slot) (sample_found _ (or_introl eq_refl)) (sample_found _ (or_intror eq_refl)))
    as (_ & Hs & _).
  destruct Hs as (c & k & H1 & _ & _ & H2 & H3); [vm_compute; reflexivity|].
  exists c, k. split; [exact H1|]. split; [exact H2|exact H3].
Defined.

Lemma supersession_is_proven_witness :
  ∃ c fc, gn_canonical_pr (sample_finding 7%N) = Some c ∧
    se_canonical_pr <$> gn_supersession (sample_finding 7%N) = Some c ∧ gf_pr fc = c.
Proof.
  destruct (supersession_is_proven id sample_json sample_compare sample_facts 0%N sample_status 1%N 7%N
    (sample_finding 7%N) sample_analyzed (sample_found _ (or_introl eq_refl)))
    as (c & fp & vp & fc & vc & a & _ & Hc & H1 & H2 & _); [vm_compute; reflexivity|].
  exists c, fc. split; [exact H1|]. split; [by rewrite H2|].
  exact (proj1 (proj2 (fs_valid _ _ _ (sort_facts_spec sample_facts) c fc vc Hc))).
Defined.

(** ** Lifecycle and admission *)

Lemma finding_apply s action p :
  finding (apply_lifecycle_policy s action) p = apply_lifecycle_finding action <$> finding s p.
Proof.
  unfold finding, apply_lifecycle_policy; cbn. induction (gi_findings s) as [|g gs IH]; cbn; [done|].
  by destruct (gn_pr g =? p)%N.
Qed.

Lemma lifecycle_exact_apply action g :
  lifecycle_exact (apply_lifecycle_finding action g) = lifecycle_exact g.
Proof. done. Qed.

(** Policy never widens evidence, and admission does not depend on it: a
    request passes the guard exactly when it has no finding or is a current
    generation; the lifecycle policy leaves dispositions, evidence and the guard
    as they are; a finding carries a closing action only with an exact, closure
    eligible supersession; and the policy applied last is the one in force. *)
Theorem lifecycle_policy_is_conservative s action p :
  (require_admissible s p = Ok tt ↔
     ∀ g, finding s p = Some g → gn_disposition g = CurrentGeneration) ∧
  is_ok (require_admissible (apply_lifecycle_policy s action) p) = is_ok (require_admissible s p) ∧
  (∀ g, finding (apply_lifecycle_policy s action) p = Some g → gn_lifecycle_action g ≠ Preserve →
     gn_lifecycle g = DurableSupersession ∧ gn_lifecycle_action g = action ∧
     ∃ ev, gn_supersession g = Some ev ∧ se_closure_eligible ev = true) ∧
  (∀ earlier, apply_lifecycle_policy (apply_lifecycle_policy s earlier) action
     = apply_lifecycle_policy s action).
Proof.
  split_and!.
  - unfold require_admissible. destruct (finding s p) as [g|]; [|split; [done|done]].
    destruct (gn_disposition g) eqn:Hd; cbn; split; try done.
    all: try (intros H; specialize (H g eq_refl); congruence).
    by intros _ h [= <-].
  - unfold require_admissible. rewrite finding_apply. destruct (finding s p) as [g|]; [|done]. cbn.
    by destruct (gn_disposition g).
  - intros g. rewrite finding_apply. destruct (finding s p) as [g0|]; [|done]. cbn. intros [= <-].
    unfold apply_lifecycle_finding; cbn. destruct (lifecycle_exact g0) eqn:He; [|done]. intros _.
    unfold lifecycle_exact, is_some_and in He. apply andb_true_iff in He as [Hl He].
    apply bool_decide_eq_true in Hl. split; [done|]. split; [done|].
    destruct (gn_supersession g0) as [ev|]; [by exists ev|done].
  - intros earlier. unfold apply_lifecycle_policy; cbn. f_equal.
    rewrite <-list_fmap_compose. apply list_fmap_ext. intros i g _. cbn.
    unfold apply_lifecycle_finding, lifecycle_exact. cbn.
    by destruct (bool_decide (gn_lifecycle g = DurableSupersession) && is_some_and (gn_supersession g) se_closure_eligible).
Qed.

(** ** Declared supersessions *)

#[local] Arguments String.append : simpl nomatch.
#[local] Arguments show_pr : simpl never.
#[local] Arguments parse_u64 : simpl never.

Lemma show_pr_number n : (n ≤ u64_max)%N → parse_u64 (show_pr n) = Some n.
Proof. apply parse_u64_pretty. Qed.
Lemma show_pr_digits n : all_digits (show_pr n) = true.
Proof. apply all_digits_pretty. Qed.
Lemma show_pr_snoc n : ∃ a d, show_pr n = a +:+ String d EmptyString ∧ is_ascii_digit d = true.
Proof. apply pretty_snoc. Qed.

Lemma digit_not_sep (s : string) :
  all_digits s = true → all_bytes (λ c, negb (negb (is_ascii_digit c))) s = true.
Proof. apply all_bytes_impl. intros c ->. done. Qed.

Abbreviation numbers_in s := (omap parse_u64 (split_on (λ c, negb (is_ascii_digit c)) s)) (only parsing).

Lemma numbers_skip c s : is_ascii_digit c = false → numbers_in (String c s) = numbers_in s.
Proof. intros Hc. cbn [split_on]. rewrite Hc. done. Qed.

Lemma numbers_number n c s : (n ≤ u64_max)%N → is_ascii_digit c = false →
  numbers_in (show_pr n +:+ String c s) = n :: numbers_in s.
Proof.
  intros Hn Hc. rewrite split_on_app; [|by apply digit_not_sep, show_pr_digits|by rewrite Hc].
  cbn [omap list_omap]. by rewrite show_pr_number.
Qed.

Lemma numbers_last n : (n ≤ u64_max)%N → numbers_in (show_pr n) = [n].
Proof.
  intros Hn. rewrite split_on_none by apply digit_not_sep, show_pr_digits.
  cbn [omap list_omap]. by rewrite show_pr_number.
Qed.

Definition printed (l : list PrNumber) : string := join ", " ((λ pr, fmt ["#"; show_pr pr]) <$> l).

Lemma printed_cons n m l :
  printed (n :: m :: l) = String "#" (show_pr n +:+ String "," (String " " (printed (m :: l)))).
Proof.
  unfold printed. cbn [fmap list_fmap join]. unfold fmt at 1. cbn [foldr].
  rewrite str_app_nil_r, !str_app_assoc. done.
Qed.

(** The numbers of a printed list. *)
Lemma printed_numbers l : (∀ n, n ∈ l → (n ≤ u64_max)%N) → numbers_in (printed l) = l.
Proof.
  induction l as [|n l IH]; intros Hl; [done|].
  assert (n ≤ u64_max)%N as Hn by (apply Hl; by left).
  destruct l as [|m l].
  - change (printed [n]) with (String "#" (show_pr n +:+ EmptyString)).
    rewrite str_app_nil_r, numbers_skip by done. by apply numbers_last.
  - rewrite printed_cons, numbers_skip, numbers_number, numbers_skip by done. f_equal.
    apply IH. intros k Hk. apply Hl. by right.
Qed.

Lemma printed_snoc n l : ∃ a d, printed (n :: l) = a +:+ String d EmptyString ∧ is_ascii_digit d = true.
Proof.
  revert n. induction l as [|m l IH]; intros n.
  - destruct (show_pr_snoc n) as (a & d & Hn & Hd). exists (String "#" a), d. split; [|done].
    change (printed [n]) with (String "#" (show_pr n +:+ EmptyString)). by rewrite str_app_nil_r, Hn.
  - destruct (IH m) as (a & d & Hm & Hd). rewrite printed_cons, Hm.
    exists (String "#" (show_pr n +:+ String "," (String " " a))), d. split; [|done].
    cbn. by rewrite str_app_assoc.
Qed.

(** A line the code writes: no line feed, and a visible last byte. *)
Definition line_ok (l : string) : Prop :=
  no_line_feed l = true ∧ ∃ a c, l = a +:+ String c EmptyString ∧ c ≠ carriage_return.

Lemma lines_line l b : line_ok l → lines (l +:+ String line_feed b) = l :: lines b.
Proof. intros [Hl (a & c & -> & Hc)]. by apply lines_app. Qed.

Lemma no_line_feed_app a b : no_line_feed (a +:+ b) = no_line_feed a && no_line_feed b.
Proof. apply all_bytes_app. Qed.

Lemma no_line_feed_digits s : all_digits s = true → no_line_feed s = true.
Proof.
  apply all_bytes_impl. intros c Hc. destruct (digit_visible c Hc) as (_ & _ & Hl).
  apply negb_true_iff, Ascii.eqb_neq. congruence.
Qed.

Lemma no_line_feed_show n : no_line_feed (show_pr n) = true.
Proof. apply no_line_feed_digits, show_pr_digits. Qed.

Lemma no_line_feed_oid s : is_oid s = true → no_line_feed s = true.
Proof.
  unfold is_oid. intros [_ H]%andb_true_iff. revert H. apply all_bytes_impl.
  intros [[] [] [] [] [] [] [] []]; vm_compute; done.
Qed.

Lemma no_line_feed_printed l : no_line_feed (printed l) = true.
Proof.
  induction l as [|n l IH]; [done|]. pose proof (no_line_feed_digits _ (show_pr_digits n)) as Hn.
  destruct l as [|m l].
  - change (printed [n]) with (String "#" (show_pr n +:+ EmptyString)).
    rewrite str_app_nil_r. exact Hn.
  - rewrite printed_cons. unfold no_line_feed in *. cbn [all_bytes]. rewrite all_bytes_app, Hn.
    cbn [all_bytes]. rewrite IH. done.
Qed.

Section declaration.
Context (canonical : PrNumber) (head : CommitOid) (superseded : gset PrNumber) (actor reason : string).
Context (Hoid : is_oid head = true) (Hne : superseded ≠ ∅).
Context (Hsup : ∀ n, n ∈ superseded → n ≠ 0%N ∧ n ≠ canonical ∧ (n ≤ u64_max)%N).

Definition superseded_key : string := "- **Superseded:**".
Definition list_line : string := superseded_key +:+ String " " (printed (bs_elems superseded)).
Definition canonical_line : string :=
  "- **Canonical:** #" +:+ show_pr canonical +:+ " at `" +:+ head +:+ "`".
Definition body_tail : string :=
  fmt ["- **Actor:** "; actor; nl; "- **Reason:** "; reason; nl].

Lemma body_lines : supersession_body canonical head superseded actor reason =
  supersession_marker canonical head +:+ String line_feed (String line_feed
    ("**Caravan canonical generation declared.**" +:+ String line_feed (String line_feed
       (canonical_line +:+ String line_feed (list_line +:+ String line_feed body_tail))))).
Proof.
  unfold canonical_line, list_line, superseded_key, body_tail.
  rewrite !str_app_assoc. reflexivity.
Qed.

Lemma marker_ok : line_ok (supersession_marker canonical head).
Proof.
  unfold supersession_marker, fmt. cbn [foldr]. split.
  - rewrite !no_line_feed_app, no_line_feed_show, (no_line_feed_oid head Hoid).
    reflexivity.
  - exists ("<!-- caravan-generation-supersession:v1:" +:+ show_pr canonical +:+ ":" +:+ head +:+ " --"),
      ">"%char. split; [|done]. rewrite !str_app_assoc. reflexivity.
Qed.

Lemma canonical_ok : line_ok canonical_line.
Proof.
  unfold canonical_line. split.
  - rewrite !no_line_feed_app, no_line_feed_show, (no_line_feed_oid head Hoid).
    reflexivity.
  - exists ("- **Canonical:** #" +:+ show_pr canonical +:+ " at `" +:+ head), "`"%char.
    split; [|done]. rewrite !str_app_assoc. reflexivity.
Qed.

Lemma printed_superseded_snoc : ∃ a d, printed (bs_elems superseded) = a +:+ String d EmptyString ∧
  is_ascii_digit d = true.
Proof.
  destruct (bs_elems superseded) as [|n l] eqn:E; [|apply printed_snoc].
  exfalso. apply Hne, set_eq. intros x. rewrite <-elem_of_bs_elems, E. set_solver.
Qed.

Lemma list_ok : line_ok list_line.
Proof.
  unfold list_line. split.
  - rewrite no_line_feed_app. change (no_line_feed (String " " ?s)) with (no_line_feed s).
    by rewrite no_line_feed_printed.
  - destruct printed_superseded_snoc as (a & d & -> & Hd).
    exists (superseded_key +:+ String " " a), d. split; [by rewrite str_app_assoc|].
    by apply digit_visible.
Qed.

(** Lines that open with another visible text carry no list. *)
Lemma other_line q c d s e : ws_byte q = false → c ≠ d → ws_byte e = false → ∀ p a t,
  superseded_key = p +:+ String c s →
  String q a = p +:+ String d t → ∀ r,
  strip_prefix superseded_key (trim (String q (a +:+ r +:+ String e EmptyString))) = None.
Proof.
  intros Hq Hcd He p a t Hp Hqa r.
  assert (String q (a +:+ r +:+ String e EmptyString) = p +:+ String d (t +:+ r +:+ String e EmptyString))
    as Heq.
  { change (String q (a +:+ ?x)) with (String q a +:+ x). rewrite Hqa, str_app_assoc. done. }
  rewrite <-str_app_assoc, trim_visible, str_app_assoc, Heq, Hp, strip_prefix_common by done.
  by apply strip_prefix_other.
Qed.

Lemma list_line_found : strip_prefix superseded_key (trim list_line) =
  Some (String " " (printed (bs_elems superseded))).
Proof.
  destruct printed_superseded_snoc as (a & d & Hp & Hd).
  assert (trim list_line = list_line) as ->.
  { unfold list_line. rewrite Hp.
    change (superseded_key +:+ String " " (a +:+ String d EmptyString)) with
      (String "-" (" **Superseded:** " +:+ (a +:+ String d EmptyString))).
    rewrite <-str_app_assoc. apply trim_visible; [done|]. by apply digit_visible. }
  unfold list_line. apply strip_prefix_app.
Qed.

Lemma marker_skipped : strip_prefix superseded_key (trim (supersession_marker canonical head)) = None.
Proof.
  assert (supersession_marker canonical head = String "<" ("!-- caravan-generation-supersession:v1:" +:+
    (show_pr canonical +:+ ":" +:+ head +:+ " --") +:+ String ">" EmptyString)) as ->
    by (unfold supersession_marker; rewrite !str_app_assoc; reflexivity).
  by apply (other_line "<" "-" "<" " **Superseded:**" ">" eq_refl ltac:(done) eq_refl EmptyString
    "!-- caravan-generation-supersession:v1:" "!-- caravan-generation-supersession:v1:" eq_refl eq_refl).
Qed.

Lemma canonical_skipped : strip_prefix superseded_key (trim canonical_line) = None.
Proof.
  assert (canonical_line = String "-" (" **Canonical:** #" +:+
    (show_pr canonical +:+ " at `" +:+ head) +:+ String "`" EmptyString)) as ->
    by (unfold canonical_line; rewrite !str_app_assoc; reflexivity).
  by apply (other_line "-" "S" "C" "uperseded:**" "`" eq_refl ltac:(done) eq_refl "- **"
    " **Canonical:** #" "anonical:** #" eq_refl eq_refl).
Qed.

Lemma declared_line : find_map (λ line, strip_prefix "- **Superseded:**" (trim line))
    (lines (supersession_body canonical head superseded actor reason)) =
  Some (String " " (printed (bs_elems superseded))).
Proof.
  rewrite body_lines, lines_line, lines_empty by exact marker_ok.
  rewrite (lines_line "**Caravan canonical generation declared.**"), lines_empty.
  2: { split; [reflexivity|]. by exists "**Caravan canonical generation declared.*", "*"%char. }
  rewrite lines_line by exact canonical_ok. rewrite lines_line by exact list_ok.
  change "- **Superseded:**" with superseded_key. cbn [find_map].
  rewrite marker_skipped, canonical_skipped, list_line_found. reflexivity.
Qed.

Lemma declared_numbers : named_numbers canonical (String " " (printed (bs_elems superseded))) = superseded.
Proof.
  unfold named_numbers. rewrite numbers_skip, printed_numbers by
    (done || (intros n Hn%elem_of_bs_elems; by apply Hsup)).
  apply set_eq. intros n. rewrite elem_of_list_to_set, elem_of_list_filter_b, elem_of_bs_elems.
  split; [tauto|]. intros Hn. split; [done|]. destruct (Hsup n Hn) as (H0 & Hc & _).
  apply andb_true_iff. by rewrite !negb_true_iff, !N.eqb_neq.
Qed.
End declaration.

(** A declaration is read back as it was written: rendering the supersession
    of some requests by a canonical one and reading the comments of that request
    afterwards gives exactly those requests, whatever the actor and the reason
    say and whatever the earlier comments were. *)
Theorem supersession_declaration_roundtrip canonical head superseded actor reason earlier :
  is_oid head = true → superseded ≠ ∅ →
  (∀ n, n ∈ superseded → n ≠ 0%N ∧ n ≠ canonical ∧ (n ≤ u64_max)%N) →
  declared_supersessions canonical head
    (earlier ++ [supersession_body canonical head superseded actor reason]) = Some superseded.
Proof.
  intros Hoid Hne Hsup. unfold declared_supersessions.
  rewrite reverse_app. cbn [reverse rev_append app List.find].
  assert (contains_str (supersession_marker canonical head)
    (supersession_body canonical head superseded actor reason) = true) as Hm
    by (rewrite body_lines; apply contains_str_prefix).
  change (reverse [supersession_body canonical head superseded actor reason]) with
    [supersession_body canonical head superseded actor reason].
  cbn [app List.find]. rewrite Hm. cbn [mbind option_bind].
  rewrite declared_line by done. cbn [mbind option_bind].
  rewrite declared_numbers by done. unfold nonempty_set. by rewrite bool_decide_eq_false_2.
Qed.

Lemma supersession_declaration_roundtrip_witness :
  declared_supersessions 9%N "0123456789abcdef0123456789abcdef01234567"
    (["- **Superseded:** #1"] ++ [supersession_body 9%N "0123456789abcdef0123456789abcdef01234567"
      {[ 7%N; 8%N ]} "owner" "diverged stream"]) = Some {[ 7%N; 8%N ]}.
Proof.
  apply (supersession_declaration_roundtrip 9%N "0123456789abcdef0123456789abcdef01234567" {[ 7%N; 8%N ]}).
  - vm_compute. reflexivity.
  - intros He. assert (7%N ∈ (∅ : gset N)) as Hn by (rewrite <-He; apply elem_of_union_l, elem_of_singleton_2; reflexivity).
    by apply not_elem_of_empty in Hn.
  - intros n [Hn%elem_of_singleton|Hn%elem_of_singleton]%elem_of_union; subst n; vm_compute; by split_and!.
Defined.

(** ** Parsed facts *)

Lemma ascii_lower_facts c :
  ascii_lower (ascii_lower c) = ascii_lower c ∧
  (is_ascii_hexdigit c = true → is_ascii_hexdigit (ascii_lower c) = true).
Proof. destruct c as [[] [] [] [] [] [] [] []]; vm_compute; done. Qed.

Lemma to_ascii_lowercase_idem s : to_ascii_lowercase (to_ascii_lowercase s) = to_ascii_lowercase s.
Proof. induction s as [|c s IH]; cbn; [done|]. by rewrite IH, (proj1 (ascii_lower_facts c)). Qed.

Lemma is_bead_id_lower v : is_bead_id v = true → is_bead_id (to_ascii_lowercase v) = true.
Proof.
  unfold is_bead_id. destruct (strip_prefix "bd-" v) as [s|] eqn:E; [|done].
  apply strip_prefix_spec in E as ->.
  change (to_ascii_lowercase ("bd-" +:+ s)) with ("bd-" +:+ to_ascii_lowercase s).
  rewrite strip_prefix_app. intros [Hl Hh]%andb_true_iff. apply andb_true_iff. split.
  - rewrite <-Hl. f_equal. clear. induction s as [|c s IH]; cbn; [done|by rewrite IH].
  - clear Hl. revert Hh. induction s as [|c s IH]; cbn; [done|]. intros [Hc Hs]%andb_true_iff.
    rewrite (proj2 (ascii_lower_facts c) Hc). by apply IH.
Qed.

Lemma parse_beads_spec body :
  size (parse_beads body) ≤ 32 ∧
  ∀ b, b ∈ parse_beads body → is_bead_id b = true ∧ to_ascii_lowercase b = b.
Proof.
  unfold parse_beads. destruct (find_map _ (lines body)) as [value|].
  2: { split; [rewrite size_empty; lia|]. intros b Hb. by apply not_elem_of_empty in Hb. }
  set (l := List.filter is_bead_id _). split.
  - assert (∀ k : list string, size (list_to_set k : gset string) ≤ length k) as Hsize.
    { intros k. induction k as [|x k IH]; cbn; [by rewrite size_empty|].
      rewrite size_union_alt, size_singleton.
      assert (size ((list_to_set k : gset string) ∖ {[x]}) ≤ size (list_to_set k : gset string))
        by (apply subseteq_size, subseteq_difference_l; reflexivity). lia. }
    etrans; [apply Hsize|]. rewrite length_fmap, length_take. lia.
  - intros b. rewrite elem_of_list_to_set, list_elem_of_fmap. intros (v & -> & Hv).
    apply elem_of_take in Hv as (i & Hi & _). apply list_elem_of_lookup_2 in Hi.
    apply elem_of_list_filter_b in Hi as [_ Hb].
    split; [by apply is_bead_id_lower|apply to_ascii_lowercase_idem].
Qed.

(** What a parsed provenance guarantees. *)
Record exact_provenance (head_ref : string) (prov : CacophonyGenerationProvenance) : Prop := {
  xp_generation : gp_generation prov = head_ref;
  xp_source : is_oid (gp_source_head prov) = true;
  xp_suffix : ∃ p, head_ref = p +:+ gp_source_head prov;
  xp_state : gp_stack_state prov = "root" ∨ gp_stack_state prov = "blocked_on_parent";
  xp_identities : safe_identity (gp_generation prov) = true ∧ safe_identity (gp_agent prov) = true ∧
    safe_identity (gp_stack_base prov) = true;
  xp_sizes : String.length (gp_generation prov) ≤ 512 ∧ String.length (gp_agent prov) ≤ 256 ∧
    String.length (gp_stack_base prov) ≤ 512;
  xp_beads : gp_bead_ids prov ≠ ∅ ∧ size (gp_bead_ids prov) ≤ 32 ∧
    ∀ b, b ∈ gp_bead_ids prov → is_bead_id b = true ∧ to_ascii_lowercase b = b }.

Lemma exact_provenance_intro head_ref body agent source base state :
  (if bool_decide (parse_beads body = ∅) then ["Beads"] else []) = [] →
  String.length head_ref ≤ 512 ∧ String.length agent ≤ 256 ∧ String.length base ≤ 512 →
  safe_identity head_ref = true ∧ safe_identity agent = true ∧ safe_identity base = true →
  is_oid source = true → ends_with source head_ref = true →
  mem state ["root"; "blocked_on_parent"] = true →
  exact_provenance head_ref (mkProvenance head_ref agent source (parse_beads body) base state).
Proof.
  intros Hb Hsizes Hsafe Hoid Hend Hstate. split; cbn; try done.
  - unfold ends_with, is_some_b in Hend. destruct (strip_suffix source head_ref) as [p|] eqn:E; [|done].
    exists p. by apply strip_suffix_spec.
  - apply mem_true in Hstate. rewrite !elem_of_cons in Hstate. destruct Hstate as [?|[?|Hn]]; [auto..|].
    by apply elem_of_nil in Hn.
  - split; [|apply parse_beads_spec]. case_bool_decide; done.
Qed.

(** Generation metadata is taken whole or refused. A parsed fact keeps the
    request, the head and the creation time it was given; it declares something
    exactly when the branch is generation shaped or the body has a marker line;
    it never has both metadata and an error; and the metadata it has is exact:
    the generation is the head branch and ends in the 40-digit source commit,
    the identities are safe and bounded, the stack state is one of the two known
    ones, and there are between one and 32 well-formed lower-case beads. *)
Theorem parsed_fact_is_exact pr provider_head head_ref created_at body :
  let fact := parse_generation_fact pr provider_head head_ref created_at body in
  gf_pr fact = pr ∧ gf_provider_head fact = provider_head ∧ gf_created_at fact = created_at ∧
  gf_supersedes fact = ∅ ∧
  declares fact = shaped_branch head_ref || has_marker body ∧
  (gf_metadata_error fact = None ∨ gf_provenance fact = None) ∧
  ∀ prov, gf_provenance fact = Some prov → exact_provenance head_ref prov.
Proof.
  unfold parse_generation_fact.
  assert (shaped_branch head_ref || has_marker body =
    negb (negb (shaped_branch head_ref) && negb (has_marker body))) as ->
    by (by destruct (shaped_branch head_ref), (has_marker body)).
  destruct (negb (shaped_branch head_ref) && negb (has_marker body)).
  { split_and!; done || by left. }
  all: destruct (missing_fields _ _) as [|m ms] eqn:Hm; [|split_and!; try done; by right].
  all: apply app_nil in Hm as [_ Hb].
  all: repeat match goal with
    |- context [match ?v with Some _ => _ | None => invalid_fact _ _ _ _ end] =>
      destruct v; [|split_and!; try done; by right]
    end.
  all: repeat match goal with
    |- context [if ?b then invalid_fact _ _ _ _ else _] =>
      destruct b eqn:?; [split_and!; try done; by right|]
    end.
  all: split_and!; try done; [by left|].
  all: intros prov [= <-]; repeat rewrite orb_false_iff in *; destruct_and!; bool_prop.
  all: match goal with H : (_ =? _)%string = true |- _ => apply String.eqb_eq in H; subst end.
  all: by apply exact_provenance_intro.
Qed.
