(* ===== verification/Selection.v ===== *)
(** Admission selection: [resolve_admission] and the helpers it calls, of
    src/src/read.rs, with [dependency_prs] and the sort key of
    src/src/admission.rs.

    Every unqueued request becomes a candidate, a skipped row or a rejected row;
    the rows are sorted by rank, creation time and number, and the first attempt
    that may not be passed is the next candidate. *)

From Stdlib Require Import Ascii String.
From S2P Require Import Prelude Text Model Lineage RequiredRuns Graph Generation.

#[local] Open Scope string_scope.
#[local] Open Scope list_scope.
#[local] Open Scope nat_scope.

Inductive CiAdmissionGateMode := CaravanLabel.
Record CiAdmissionGateConfig := mkGateConfig {
  gc_mode : CiAdmissionGateMode;
  gc_context : string;
  gc_member_label : string }.

Record AdmissionCandidate := mkAdmissionCandidate {
  ac_pr : PrNumber;
  ac_priority_label : option string;
  ac_priority_rank : option nat;
  ac_created_at : option string;
  ac_reason : string }.

Record SkippedAdmissionCandidate := mkSkippedCandidate {
  sk_pr : PrNumber;
  sk_priority_label : option string;
  sk_priority_rank : option nat;
  sk_created_at : option string;
  sk_reason : string }.

Record RejectedAdmissionCandidate := mkRejectedCandidate {
  rj_pr : PrNumber;
  rj_priority_rank : option nat;
  rj_created_at : option string;
  rj_blocks_order : bool;
  rj_reason : string }.

Record AdmissionStatus := mkAdmissionStatus {
  as_policy : string;
  as_priority_labels : list string;
  as_generation_integrity : GenerationIntegrityStatus;
  as_candidates : list AdmissionCandidate;
  as_skipped : list SkippedAdmissionCandidate;
  as_rejected : list RejectedAdmissionCandidate;
  as_next_candidate : option PrNumber }.

(** ** Base-chain dependencies (admission.rs) *)

Definition MAX_DEPENDENCY_DEPTH : nat := 64.
#[global] Arguments MAX_DEPENDENCY_DEPTH : simpl never.

Definition is_parent (repository : RepositoryId) (branch : string) (candidate : PrNumber)
    (pr : PullRequestSnapshot) : bool :=
  state_is pr Open && negb (pr_cross_repository pr)
  && bool_decide (br_repository (pr_head pr) = repository)
  && String.eqb (br_name (pr_head pr)) branch
  && negb (N.eqb (pr_number pr) candidate).

(** [pull_requests.values().find(..)]: the first in ascending order. *)
Definition find_parent (analysis : GraphAnalysis) (repository : RepositoryId) (branch : string)
    (candidate : PrNumber) : option PullRequestSnapshot :=
  List.find (is_parent repository branch candidate) (bt_values (ga_pull_requests analysis)).

Fixpoint dependency_walk (analysis : GraphAnalysis) (repository : RepositoryId)
    (candidate : PrNumber) (depth : nat) (branch : string) (dependencies : gset PrNumber)
    : gset PrNumber :=
  match depth with
  | 0 => dependencies
  | S depth =>
      match find_parent analysis repository branch candidate with
      | None => dependencies
      | Some parent =>
          if bool_decide (pr_number parent ∈ dependencies) then dependencies
          else dependency_walk analysis repository candidate depth (br_name (pr_base parent))
                 ({[ pr_number parent ]} ∪ dependencies)
      end
  end.

Definition dependency_prs (analysis : GraphAnalysis) (candidate : PullRequestSnapshot)
    : list PrNumber :=
  bs_elems (dependency_walk analysis (br_repository (pr_base candidate)) (pr_number candidate)
    MAX_DEPENDENCY_DEPTH (br_name (pr_base candidate)) ∅).

(** ** Required checks of a candidate *)

Definition with_checks (p : PullRequestSnapshot) (checks : list CheckSnapshot) : PullRequestSnapshot :=
  mkPullRequestSnapshot (pr_number p) (pr_title p) (pr_url p) (pr_state p) (pr_draft p) (pr_head p)
    (pr_base p) (pr_cross_repository p) (pr_labels p) (pr_auto_merge p) checks (pr_created_at p)
    (pr_merged_at p) (pr_updated_at p) (pr_merge_state_status p).

Definition required_check_snapshot (pull : PullRequestSnapshot)
    (policy : option RequiredContextsRead) : PullRequestSnapshot :=
  match opt_filter rr_complete policy with
  | Some policy => with_checks pull (required_checks policy (pr_checks pull) (br_oid (pr_head pull)))
  | None => pull
  end.

Definition failing_state (s : CheckState) : bool :=
  match s with
  | CheckFailure | CheckCancelled | CheckTimedOut | CheckActionRequired => true
  | _ => false
  end.

Definition has_failing_check (pull_request : PullRequestSnapshot) : bool :=
  existsb (λ check, failing_state (ck_state check)) (latest_checks_per_identity (pr_checks pull_request)).1.

Definition candidate_may_have_deferred_gate (pull_request : PullRequestSnapshot)
    (gate : CiAdmissionGateConfig) : bool :=
  if has_label pull_request (gc_member_label gate) then false
  else
    let failures := List.filter (λ check, failing_state (ck_state check))
                      (latest_checks_per_identity (pr_checks pull_request)).1 in
    negb (bool_decide (length failures = 0))
    && forallb (λ check, String.eqb (ck_name check) (gc_context gate)
                         && bool_decide (ck_state check = CheckFailure)) failures.

(** ** One row *)

(** [enumerate().map(|(rank, label)| (label, rank)).collect::<BTreeMap>()]: the
    last rank of a repeated label. *)
Definition ranks_of (priority_labels : list string) : gmap string nat :=
  foldl (λ m '(rank, label), <[label := rank]> m) ∅ (imap pair priority_labels).

Definition priority_namespace (pull_request : PullRequestSnapshot) : list string :=
  List.filter (starts_with "caravan-priority:") (bs_elems (pr_labels pull_request)).

Definition configured_of (ranks : gmap string nat) (pull_request : PullRequestSnapshot)
    : list (string * nat) :=
  omap (λ label, pair label <$> ranks !! label) (priority_namespace pull_request).

Definition invalid_of (ranks : gmap string nat) (pull_request : PullRequestSnapshot) : list string :=
  List.filter (λ label, is_none_b (ranks !! label)) (priority_namespace pull_request).

(** The reason of a rejection and whether it blocks the order. *)
Definition rejection_of (ranks : gmap string nat) (generation_integrity : GenerationIntegrityStatus)
    (pull_request : PullRequestSnapshot) (number : PrNumber) : option (string * bool) :=
  let configured := configured_of ranks pull_request in
  let invalid := invalid_of ranks pull_request in
  match opt_filter (λ f, negb (bool_decide (gn_disposition f = CurrentGeneration)))
          (finding generation_integrity number) with
  | Some f => Some (fmt ["fail closed: "; gn_reason f], false)
  | None =>
      if negb (bool_decide (invalid = [])) then
        Some (fmt ["fail closed: unknown priority label(s): "; join ", " invalid], true)
      else if 1 <? length configured then
        Some (fmt ["fail closed: conflicting priority labels: "; join ", " configured.*1], true)
      else if pr_draft pull_request then
        Some ("not an admission attempt: draft PR must be marked ready first", false)
      else if pr_cross_repository pull_request then
        Some ("not an admission attempt: fork-only PR cannot be admitted to a caravan", false)
      else if am_enabled (pr_auto_merge pull_request) then
        Some ("not an admission attempt: candidate already has externally enabled auto-merge", false)
      else None
  end.

Inductive AdmissionRow :=
| RowCandidate (c : AdmissionCandidate)
| RowSkipped (s : SkippedAdmissionCandidate)
| RowRejected (r : RejectedAdmissionCandidate).

Definition RED_ROOT_REASON : string :=
  "candidate has a failing required check and unjoined descendants depend on its base chain; descendants cannot be admitted or retargeted past an unjoined ancestor".
Definition UNKNOWN_POLICY_REASON : string :=
  "effective landing-target required-check policy or a required provider state is unknown".
Definition RED_REASON : string :=
  "candidate has a failing required check; queueing behind red only guarantees a later rebase, so the queue advances until it is fixed".
Definition SKIP_LABEL_REASON : string :=
  "carries the automatic skip label; Cara removes it only where it can prove it wrote it, so a label with no receipt stays skipped until removed by hand".
Definition INCOMPATIBLE_REASON : string :=
  "proven mechanically incompatible with the exact current default branch; the owner must reconcile it, and no rerun changes that".
#[global] Arguments RED_ROOT_REASON : simpl never.
#[global] Arguments UNKNOWN_POLICY_REASON : simpl never.
#[global] Arguments RED_REASON : simpl never.
#[global] Arguments SKIP_LABEL_REASON : simpl never.
#[global] Arguments INCOMPATIBLE_REASON : simpl never.

(** [configured.len() == 1] gives the rank; [configured.first()] gives the
    label and the rank. *)
Definition single_rank (configured : list (string * nat)) : option nat :=
  if length configured =? 1 then (λ c, c.2 + 1) <$> head configured else None.
Definition first_rank (configured : list (string * nat)) : option nat := (λ c, c.2 + 1) <$> head configured.
Definition first_label (configured : list (string * nat)) : option string := fst <$> head configured.

Definition unknown_policy (policy : option RequiredContextsRead) (ci_candidate : PullRequestSnapshot)
    : bool :=
  is_some_and policy (λ policy,
    negb (rr_complete policy)
    || existsb (λ check, bool_decide (ck_state check = CheckUnknown)) (pr_checks ci_candidate)).

(** A failing candidate that is neither forced nor possibly deferred by its gate. *)
Definition blocked_by_red (pull_request ci_candidate : PullRequestSnapshot)
    (admission_gate : option CiAdmissionGateConfig) : bool :=
  negb (has_label pull_request "caravan-force")
  && has_failing_check ci_candidate
  && negb (is_some_and admission_gate (candidate_may_have_deferred_gate ci_candidate)).

Definition proven_incompatible (analysis : GraphAnalysis) (number : PrNumber) : bool :=
  existsb (λ problem, is_candidate_scoped (gp_kind problem) && mem number (gp_prs problem))
    (fl_problems (ga_fleet analysis)).

Definition candidate_text (configured : list (string * nat)) (created_at : option string)
    (number : PrNumber) : string :=
  let fifo_reason :=
    match created_at with
    | None => fmt ["provider created_at missing; deterministic PR number #"; show_pr number; " fallback"]
    | Some created_at =>
        fmt ["immutable provider created_at "; created_at; ", PR number #"; show_pr number; " tie-break"]
    end in
  match configured with
  | [] => fmt ["no explicit agent priority; FIFO by "; fifo_reason;
               "; selection only, check/new preflight required"]
  | (label, rank) :: _ =>
      fmt ["explicit agent priority `"; label; "` (rank "; show_nat (rank + 1); "); FIFO by ";
           fifo_reason; " within this priority; selection only, check/new preflight required"]
  end.

Definition ADMISSION_POLICY : string :=
  "Cacophony-shaped PRs first require unique current generation integrity. Structurally ineligible PRs (draft, fork-only, externally enabled auto-merge, superseded/ambiguous/invalid generation) are reported with exact reasons and excluded from ordering rather than wedging the queue, while unknown or conflicting configured priority labels block because canonical rank cannot be computed. Remaining attempts use explicit agent priority label (configured high to low), then FIFO by immutable provider created_at ascending with PR number ascending as equal-time tie-break; missing created_at falls back deterministically to PR number after timestamped peers; never LIFO; check/new preflight required and an eligible candidate whose exact mechanical attempt fails never causes automatic leapfrogging. This ordering binds automatic selection for both new-caravan and join intent; explicit owner intent naming one exact PR is evaluated separately and may attach ahead of unrelated unjoined rows without changing their canonical order".
#[global] Arguments ADMISSION_POLICY : simpl never.

(** The body of the loop over [fleet.unqueued]; [None] is [continue] on a number
    with no pull request. *)
Definition admission_row (analysis : GraphAnalysis) (ranks : gmap string nat)
    (generation_integrity : GenerationIntegrityStatus) (admission_gate : option CiAdmissionGateConfig)
    (unjoined_parent_dependencies : gset PrNumber) (number : PrNumber) : option AdmissionRow :=
  match ga_pull_requests analysis !! number with
  | None => None
  | Some pull_request =>
      let configured := configured_of ranks pull_request in
      let created_at := pr_created_at pull_request in
      let skip := λ reason,
        RowSkipped (mkSkippedCandidate number (first_label configured) (first_rank configured)
                      created_at reason) in
      Some (match rejection_of ranks generation_integrity pull_request number with
      | Some (reason, blocks_order) =>
          RowRejected (mkRejectedCandidate number (single_rank configured) created_at blocks_order reason)
      | None =>
          let has_unjoined_descendants := bool_decide (number ∈ unjoined_parent_dependencies) in
          let ci_candidate := required_check_snapshot pull_request (ga_required_policy analysis) in
          if unknown_policy (ga_required_policy analysis) ci_candidate then
            RowRejected (mkRejectedCandidate number (first_rank configured) created_at true
                           UNKNOWN_POLICY_REASON)
          else if blocked_by_red pull_request ci_candidate admission_gate then
            (if has_unjoined_descendants
             then RowRejected (mkRejectedCandidate number (single_rank configured) created_at true
                                 RED_ROOT_REASON)
             else skip RED_REASON)
          else if has_label pull_request "caravan-join-skipped" then skip SKIP_LABEL_REASON
          else if proven_incompatible analysis number then skip INCOMPATIBLE_REASON
          else RowCandidate (mkAdmissionCandidate number (first_label configured) (first_rank configured)
                 created_at (candidate_text configured created_at number))
      end)
  end.

Definition row_candidate (r : AdmissionRow) : option AdmissionCandidate :=
  match r with RowCandidate c => Some c | _ => None end.
Definition row_skipped (r : AdmissionRow) : option SkippedAdmissionCandidate :=
  match r with RowSkipped s => Some s | _ => None end.
Definition row_rejected (r : AdmissionRow) : option RejectedAdmissionCandidate :=
  match r with RowRejected r => Some r | _ => None end.

(** ** The whole order *)

(** The sort key; admission.rs [key]. *)
Definition key (priority_rank : option nat) (created_at : option string) (pr : PrNumber)
    (unranked : nat) : nat * bool * string * PrNumber :=
  (match priority_rank with Some r => r | None => unranked end, is_none_b created_at,
   match created_at with Some c => c | None => EmptyString end, pr).

Definition candidate_key (unranked : nat) (c : AdmissionCandidate) :=
  key (ac_priority_rank c) (ac_created_at c) (ac_pr c) unranked.
Definition skipped_key (unranked : nat) (c : SkippedAdmissionCandidate) :=
  key (sk_priority_rank c) (sk_created_at c) (sk_pr c) unranked.
Definition rejected_key (unranked : nat) (c : RejectedAdmissionCandidate) :=
  key (rj_priority_rank c) (rj_created_at c) (rj_pr c) unranked.

Definition unjoined_parents (analysis : GraphAnalysis) : gset PrNumber :=
  list_to_set (flat_map (λ num,
    match ga_pull_requests analysis !! num with
    | Some pr => dependency_prs analysis pr
    | None => []
    end) (fl_unqueued (ga_fleet analysis))).

Definition is_blocked_root (candidate : RejectedAdmissionCandidate) : bool :=
  rj_blocks_order candidate
  && starts_with "candidate has a failing required check and unjoined descendants" (rj_reason candidate).

Definition blocked_roots_of (rejected : list RejectedAdmissionCandidate) : gset PrNumber :=
  list_to_set (rj_pr <$> List.filter is_blocked_root rejected).

Definition blocked_by (analysis : GraphAnalysis) (blocked_roots : gset PrNumber)
    (candidate : AdmissionCandidate) : list PrNumber :=
  List.filter (λ dependency, bool_decide (dependency ∈ blocked_roots))
    (match ga_pull_requests analysis !! ac_pr candidate with
     | Some pull => dependency_prs analysis pull
     | None => []
     end).

Definition domain_skip (candidate : AdmissionCandidate) (blocked : list PrNumber)
    : SkippedAdmissionCandidate :=
  mkSkippedCandidate (ac_pr candidate) (ac_priority_label candidate) (ac_priority_rank candidate)
    (ac_created_at candidate)
    (fmt ["preserved behind temporarily blocked dependency domain rooted at ";
          join "," ((λ pr, fmt ["#"; show_pr pr]) <$> blocked);
          "; unrelated ready candidates may proceed without bypassing or retargeting this chain"]).

(** Candidates outside every blocked domain, and the skipped list with the others appended. *)
Definition split_blocked (analysis : GraphAnalysis) (blocked_roots : gset PrNumber)
    (candidates : list AdmissionCandidate) (skipped : list SkippedAdmissionCandidate)
    : list AdmissionCandidate * list SkippedAdmissionCandidate :=
  if bool_decide (blocked_roots = ∅) then (candidates, skipped)
  else
    foldl (λ '(independent, skipped) candidate,
      match blocked_by analysis blocked_roots candidate with
      | [] => (independent ++ [candidate], skipped)
      | blocked => (independent, skipped ++ [domain_skip candidate blocked])
      end) ([], skipped) candidates.

(** Rejected attempts that stand in the order. *)
Definition stands (candidates : list AdmissionCandidate) (blocked_roots : gset PrNumber)
    (r : RejectedAdmissionCandidate) : bool :=
  rj_blocks_order r
  && (bool_decide (length candidates = 0) || negb (bool_decide (rj_pr r ∈ blocked_roots))).

Definition next_of (unranked : nat) (candidates : list AdmissionCandidate)
    (rejected : list RejectedAdmissionCandidate) (blocked_roots : gset PrNumber) : option PrNumber :=
  snd <$> list_min ((candidate_key unranked <$> candidates)
            ++ (rejected_key unranked <$> List.filter (stands candidates blocked_roots) rejected)).

Definition resolve_admission_with_generation_and_gate (analysis : GraphAnalysis)
    (priority_labels : list string) (generation_integrity : GenerationIntegrityStatus)
    (admission_gate : option CiAdmissionGateConfig) : AdmissionStatus :=
  let ranks := ranks_of priority_labels in
  let unranked := length priority_labels + 1 in
  let rows := omap (admission_row analysis ranks generation_integrity admission_gate
                      (unjoined_parents analysis)) (fl_unqueued (ga_fleet analysis)) in
  let rejected := omap row_rejected rows in
  let blocked_roots := blocked_roots_of rejected in
  let '(candidates, skipped) :=
    split_blocked analysis blocked_roots (omap row_candidate rows) (omap row_skipped rows) in
  let candidates := sort_by_key (candidate_key unranked) candidates in
  let skipped := sort_by_key (skipped_key unranked) skipped in
  let rejected := sort_by_key (rejected_key unranked) rejected in
  mkAdmissionStatus ADMISSION_POLICY priority_labels generation_integrity candidates skipped rejected
    (next_of unranked candidates rejected blocked_roots).

Definition resolve_admission_with_generation (analysis : GraphAnalysis) (priority_labels : list string)
    (generation_integrity : GenerationIntegrityStatus) : AdmissionStatus :=
  resolve_admission_with_generation_and_gate analysis priority_labels generation_integrity None.

Definition resolve_admission (analysis : GraphAnalysis) (priority_labels : list string) : AdmissionStatus :=
  resolve_admission_with_generation analysis priority_labels integrity_default.
