(* ===== verification/SelectionProofs.v ===== *)
(** What admission selection promises: the three lists partition the unqueued
    requests, candidates satisfy every eligibility rule, and the next candidate
    is the first attempt that may not be passed. *)

From Stdlib Require Import Ascii String.
From S2P Require Import Prelude Text TextProofs Model Lineage RequiredRuns Graph GraphProofs Generation Selection.

#[local] Open Scope string_scope.
#[local] Open Scope list_scope.
#[local] Open Scope nat_scope.

(** ** Rows and lists *)

Definition row_pr (r : AdmissionRow) : PrNumber :=
  match r with RowCandidate c => ac_pr c | RowSkipped s => sk_pr s | RowRejected r => rj_pr r end.

Lemma admission_row_pr analysis ranks gi gate parents number row :
  admission_row analysis ranks gi gate parents number = Some row → row_pr row = number.
Proof.
  unfold admission_row. destruct (ga_pull_requests analysis !! number) as [pr|]; [|done].
  intros [= <-]. destruct (rejection_of ranks gi pr number) as [[reason b]|]; [done|].
  by repeat case_match.
Qed.

Lemma admission_row_some analysis ranks gi gate parents number :
  is_some_b (admission_row analysis ranks gi gate parents number) =
  is_some_b (ga_pull_requests analysis !! number).
Proof. unfold admission_row. by destruct (ga_pull_requests analysis !! number). Qed.

Lemma rows_prs analysis ranks gi gate parents unqueued :
  row_pr <$> omap (admission_row analysis ranks gi gate parents) unqueued =
  List.filter (λ n, is_some_b (ga_pull_requests analysis !! n)) unqueued.
Proof.
  induction unqueued as [|n l IH]; cbn; [done|].
  rewrite <-(admission_row_some analysis ranks gi gate parents).
  destruct (admission_row analysis ranks gi gate parents n) as [row|] eqn:Hr; cbn; [|done].
  f_equal; [by eapply admission_row_pr|done].
Qed.

Lemma rows_split rows :
  (ac_pr <$> omap row_candidate rows) ++ (sk_pr <$> omap row_skipped rows)
    ++ (rj_pr <$> omap row_rejected rows) ≡ₚ row_pr <$> rows.
Proof.
  induction rows as [|[c|s|r] rows IH]; cbn; [done|by rewrite IH| |].
  - rewrite <-Permutation_middle, IH. done.
  - rewrite app_assoc, <-Permutation_middle, <-app_assoc, IH. done.
Qed.

Lemma split_blocked_spec analysis roots candidates skipped :
  split_blocked analysis roots candidates skipped =
  (List.filter (λ c, bool_decide (blocked_by analysis roots c = [])) candidates,
   skipped ++ ((λ c, domain_skip c (blocked_by analysis roots c)) <$>
     List.filter (λ c, negb (bool_decide (blocked_by analysis roots c = []))) candidates)).
Proof.
  unfold split_blocked. case_bool_decide as Hr.
  - subst roots. assert (∀ c, blocked_by analysis ∅ c = []) as Hb.
    { intros c. unfold blocked_by. etrans; [|apply filter_b_false].
      apply filter_ext_elem_of. intros d _. by apply bool_decide_eq_false, not_elem_of_empty. }
    assert (∀ l : list AdmissionCandidate,
      List.filter (λ c, bool_decide (blocked_by analysis ∅ c = [])) l = l ∧
      List.filter (λ c, negb (bool_decide (blocked_by analysis ∅ c = []))) l = []) as Hl.
    { induction l as [|c l [IH1 IH2]]; [done|]. cbn. rewrite Hb. cbn. by rewrite IH1, IH2. }
    destruct (Hl candidates) as [-> ->]. by rewrite app_nil_r.
  - assert (∀ independent sk,
      foldl (λ '(independent, skipped) candidate,
        match blocked_by analysis roots candidate with
        | [] => (independent ++ [candidate], skipped)
        | blocked => (independent, skipped ++ [domain_skip candidate blocked])
        end) (independent, sk) candidates =
      (independent ++ List.filter (λ c, bool_decide (blocked_by analysis roots c = [])) candidates,
       sk ++ ((λ c, domain_skip c (blocked_by analysis roots c)) <$>
         List.filter (λ c, negb (bool_decide (blocked_by analysis roots c = []))) candidates))) as Hf.
    { induction candidates as [|c l IH]; intros ind sk; cbn; [by rewrite !app_nil_r|].
      destruct (blocked_by analysis roots c) as [|b bs] eqn:E; cbn; rewrite IH.
      - by rewrite <-app_assoc.
      - cbn. by rewrite E, <-app_assoc. }
    by rewrite Hf.
Qed.

(** Moving the blocked part of a list behind another list. *)
Lemma split_moved (f : AdmissionCandidate → PrNumber) l (p : AdmissionCandidate → bool)
    (k : list PrNumber) :
  (f <$> List.filter p l) ++ (k ++ (f <$> List.filter (λ c, negb (p c)) l)) ≡ₚ (f <$> l) ++ k.
Proof.
  rewrite (Permutation_app_comm k), app_assoc. apply Permutation_app_tail.
  rewrite <-fmap_app. apply fmap_Permutation, filter_split_Permutation.
Qed.

Section resolved.
Context (analysis : GraphAnalysis) (priority_labels : list string).
Context (gi : GenerationIntegrityStatus) (gate : option CiAdmissionGateConfig).

Abbreviation status :=
  (resolve_admission_with_generation_and_gate analysis priority_labels gi gate) (only parsing).
Abbreviation rows := (omap (admission_row analysis (ranks_of priority_labels) gi gate
  (unjoined_parents analysis)) (fl_unqueued (ga_fleet analysis))) (only parsing).
Abbreviation unranked := (length priority_labels + 1) (only parsing).

Definition roots : gset PrNumber := blocked_roots_of (omap row_rejected rows).

(** The lists of the result, before sorting. *)
Lemma resolved_lists :
  as_candidates status = sort_by_key (candidate_key unranked)
    (List.filter (λ c, bool_decide (blocked_by analysis roots c = [])) (omap row_candidate rows)) ∧
  as_skipped status = sort_by_key (skipped_key unranked)
    (omap row_skipped rows ++ ((λ c, domain_skip c (blocked_by analysis roots c)) <$>
      List.filter (λ c, negb (bool_decide (blocked_by analysis roots c = []))) (omap row_candidate rows))) ∧
  as_rejected status = sort_by_key (rejected_key unranked) (omap row_rejected rows) ∧
  as_next_candidate status = next_of unranked (as_candidates status) (as_rejected status) roots.
Proof.
  unfold resolve_admission_with_generation_and_gate. rewrite split_blocked_spec.
  split_and!; reflexivity.
Qed.

Lemma elem_of_candidates c :
  c ∈ as_candidates status ↔ blocked_by analysis roots c = [] ∧
    admission_row analysis (ranks_of priority_labels) gi gate (unjoined_parents analysis) (ac_pr c)
      = Some (RowCandidate c) ∧ ac_pr c ∈ fl_unqueued (ga_fleet analysis).
Proof.
  destruct resolved_lists as (-> & _). rewrite elem_of_sort_by_key, elem_of_list_filter_b.
  rewrite bool_decide_eq_true, list_elem_of_omap. setoid_rewrite list_elem_of_omap. split.
  - intros [(row & (n & Hn & Hrow) & Hc) Hb]. destruct row as [c'| |]; [|done..]. injection Hc as ->.
    pose proof (admission_row_pr _ _ _ _ _ _ _ Hrow) as Hpr. cbn in Hpr. by subst n.
  - intros (Hb & Hr & Hin). split; [|done]. exists (RowCandidate c). split; [|done]. by exists (ac_pr c).
Qed.

Lemma elem_of_rejected r :
  r ∈ as_rejected status ↔
    admission_row analysis (ranks_of priority_labels) gi gate (unjoined_parents analysis) (rj_pr r)
      = Some (RowRejected r) ∧ rj_pr r ∈ fl_unqueued (ga_fleet analysis).
Proof.
  destruct resolved_lists as (_ & _ & -> & _). rewrite elem_of_sort_by_key, list_elem_of_omap.
  setoid_rewrite list_elem_of_omap. split.
  - intros (row & (n & Hn & Hrow) & Hc). destruct row as [| |r']; [done..|]. injection Hc as ->.
    pose proof (admission_row_pr _ _ _ _ _ _ _ Hrow) as Hpr. cbn in Hpr. by subst n.
  - intros (Hr & Hin). exists (RowRejected r). split; [|done]. by exists (rj_pr r).
Qed.
End resolved.

(** Every unqueued request is accounted for exactly once: the candidates,
    the skipped rows and the rejected rows are together a permutation of the
    unqueued requests the analysis has data for, and each list is ordered by
    rank, then creation time with missing times last, then number. *)
Theorem admission_lists_partition analysis priority_labels gi gate :
  let s := resolve_admission_with_generation_and_gate analysis priority_labels gi gate in
  let unranked := length priority_labels + 1 in
  (ac_pr <$> as_candidates s) ++ (sk_pr <$> as_skipped s) ++ (rj_pr <$> as_rejected s)
    ≡ₚ List.filter (λ n, is_some_b (ga_pull_requests analysis !! n)) (fl_unqueued (ga_fleet analysis)) ∧
  StronglySorted (key_le (candidate_key unranked)) (as_candidates s) ∧
  StronglySorted (key_le (skipped_key unranked)) (as_skipped s) ∧
  StronglySorted (key_le (rejected_key unranked)) (as_rejected s).
Proof.
  cbv zeta. destruct (resolved_lists analysis priority_labels gi gate) as (-> & -> & -> & _).
  split; [|split_and!; apply sort_by_key_sorted].
  rewrite <-(rows_prs analysis (ranks_of priority_labels) gi gate (unjoined_parents analysis)).
  set (rs := omap _ _) at 6. fold rs.
  rewrite !sort_by_key_Permutation, fmap_app, <-(rows_split rs).
  rewrite <-list_fmap_compose, app_assoc, (app_assoc (ac_pr <$> omap row_candidate rs)).
  apply Permutation_app_tail, (split_moved ac_pr).
Qed.

(** ** Eligibility *)

Lemma opt_filter_None {A} (f : A → bool) o : opt_filter f o = None ↔ ∀ x, o = Some x → f x = false.
Proof.
  destruct o as [x|]; cbn; [|by split]. destruct (f x) eqn:E; split; try done.
  - intros H. by rewrite (H x eq_refl) in E.
  - by intros _ y [= <-].
Qed.

Lemma elem_of_namespace pr l :
  l ∈ priority_namespace pr ↔ l ∈ pr_labels pr ∧ starts_with "caravan-priority:" l = true.
Proof. unfold priority_namespace. by rewrite elem_of_list_filter_b, elem_of_bs_elems. Qed.

Lemma configured_namespace ranks pr : invalid_of ranks pr = [] →
  (configured_of ranks pr).*1 = priority_namespace pr.
Proof.
  unfold invalid_of, configured_of. induction (priority_namespace pr) as [|l ls IH]; cbn; [done|].
  destruct (ranks !! l) as [r|] eqn:Hr; cbn; [|done]. intros H. f_equal. by apply IH.
Qed.

(** What a candidate has shown. *)
Record eligible (analysis : GraphAnalysis) (priority_labels : list string)
    (gi : GenerationIntegrityStatus) (gate : option CiAdmissionGateConfig) (n : PrNumber)
    (pr : PullRequestSnapshot) : Prop := {
  el_generation f : finding gi n = Some f → gn_disposition f = CurrentGeneration;
  el_labels l : l ∈ pr_labels pr → starts_with "caravan-priority:" l = true →
    is_Some (ranks_of priority_labels !! l);
  el_one_label l l' : l ∈ pr_labels pr → l' ∈ pr_labels pr →
    starts_with "caravan-priority:" l = true → starts_with "caravan-priority:" l' = true → l = l';
  el_ready : pr_draft pr = false ∧ pr_cross_repository pr = false ∧ am_enabled (pr_auto_merge pr) = false;
  el_policy policy : ga_required_policy analysis = Some policy → rr_complete policy = true ∧
    ∀ c, c ∈ required_checks policy (pr_checks pr) (br_oid (pr_head pr)) → ck_state c ≠ CheckUnknown;
  el_green : has_label pr "caravan-force" = true ∨
    has_failing_check (required_check_snapshot pr (ga_required_policy analysis)) = false ∨
    ∃ g, gate = Some g ∧
      candidate_may_have_deferred_gate (required_check_snapshot pr (ga_required_policy analysis)) g = true;
  el_unskipped : has_label pr "caravan-join-skipped" = false;
  el_compatible problem : problem ∈ fl_problems (ga_fleet analysis) →
    is_candidate_scoped (gp_kind problem) = true → n ∉ gp_prs problem }.

Lemma rejection_none ranks gi pr n : rejection_of ranks gi pr n = None →
  (∀ f, finding gi n = Some f → gn_disposition f = CurrentGeneration) ∧
  invalid_of ranks pr = [] ∧ length (configured_of ranks pr) ≤ 1 ∧
  pr_draft pr = false ∧ pr_cross_repository pr = false ∧ am_enabled (pr_auto_merge pr) = false.
Proof.
  unfold rejection_of. destruct (opt_filter _ _) as [f|] eqn:Hf; [done|].
  rewrite opt_filter_None in Hf. case_bool_decide as Hi; cbn [negb]; [|done].
  destruct (Nat.ltb_spec 1 (length (configured_of ranks pr))); [done|].
  destruct (pr_draft pr), (pr_cross_repository pr), (am_enabled (pr_auto_merge pr)); try done.
  intros _. split_and!; try done. intros f Hfind. specialize (Hf f Hfind).
  apply negb_false_iff, bool_decide_eq_true in Hf. done.
Qed.

Lemma candidate_eligible analysis priority_labels gi gate parents n pr c :
  ga_pull_requests analysis !! n = Some pr →
  admission_row analysis (ranks_of priority_labels) gi gate parents n = Some (RowCandidate c) →
  eligible analysis priority_labels gi gate n pr.
Proof.
  intros Hpr. unfold admission_row. rewrite Hpr.
  destruct (rejection_of _ gi pr n) as [[? ?]|] eqn:Hrej; [done|].
  destruct (unknown_policy _ _) eqn:Hpol; [done|].
  destruct (blocked_by_red _ _ _) eqn:Hred; [by case_match|].
  destruct (has_label pr "caravan-join-skipped") eqn:Hskip; [done|].
  destruct (proven_incompatible analysis n) eqn:Hinc; [done|]. intros _.
  apply rejection_none in Hrej as (Hgen & Hinv & Hone & Hready).
  pose proof (configured_namespace _ _ Hinv) as Hns.
  split; try done.
  - intros l Hl Hp. destruct (ranks_of priority_labels !! l) eqn:Hr; [eauto|].
    assert (l ∈ invalid_of (ranks_of priority_labels) pr) as Hin.
    { apply elem_of_list_filter_b. by rewrite elem_of_namespace, Hr. }
    rewrite Hinv in Hin. by apply elem_of_nil in Hin.
  - intros l l' Hl Hl' Hp Hp'.
    assert (length (priority_namespace pr) ≤ 1) as Hlen by (rewrite <-Hns, length_fmap; done).
    assert (l ∈ priority_namespace pr) as H1 by by apply elem_of_namespace.
    assert (l' ∈ priority_namespace pr) as H2 by by apply elem_of_namespace.
    destruct (priority_namespace pr) as [|x [|? ?]]; cbn in Hlen; [by apply elem_of_nil in H1| |lia].
    apply list_elem_of_singleton in H1, H2. congruence.
  - intros policy Hp. unfold unknown_policy, required_check_snapshot, opt_filter, is_some_and in Hpol.
    rewrite Hp in Hpol. apply orb_false_iff in Hpol as [Hc Hu]. apply negb_false_iff in Hc.
    rewrite Hc in Hu. cbn in Hu. split; [done|]. intros check Hck Heq.
    rewrite existsb_false_elem_of in Hu. specialize (Hu check Hck). rewrite Heq in Hu. done.
  - unfold blocked_by_red in Hred. apply andb_false_iff in Hred as [Hred|Hred].
    + apply andb_false_iff in Hred as [Hf|Hf]; [left; by apply negb_false_iff|right; by left].
    + right; right. apply negb_false_iff in Hred. unfold is_some_and in Hred.
      destruct gate as [g|]; [by exists g|done].
  - intros problem Hin Hs Hn. unfold proven_incompatible in Hinc.
    rewrite existsb_false_elem_of in Hinc. specialize (Hinc problem Hin). rewrite Hs in Hinc.
    cbn in Hinc. by apply mem_false in Hinc.
Qed.

(** Only an eligible request is a candidate. Its generation is current, it
    carries at most one priority label and that label is configured, it is
    ready, of this repository and without auto-merge, the required-check policy
    and its required checks are known, it is not red unless forced or deferred
    by the configured gate, it carries no skip label, no candidate-scoped
    problem names it, and no blocked red root is in its base chain. *)
Theorem candidates_are_eligible analysis priority_labels gi gate c :
  c ∈ as_candidates (resolve_admission_with_generation_and_gate analysis priority_labels gi gate) →
  ac_pr c ∈ fl_unqueued (ga_fleet analysis) ∧
  ∃ pr, ga_pull_requests analysis !! ac_pr c = Some pr ∧
    eligible analysis priority_labels gi gate (ac_pr c) pr ∧
    ac_created_at c = pr_created_at pr ∧
    (∀ l, l ∈ pr_labels pr → starts_with "caravan-priority:" l = true →
       ac_priority_label c = Some l ∧ ac_priority_rank c = S <$> ranks_of priority_labels !! l) ∧
    ∀ r, r ∈ as_rejected (resolve_admission_with_generation_and_gate analysis priority_labels gi gate) →
      is_blocked_root r = true → rj_pr r ∉ dependency_prs analysis pr.
Proof.
  intros Hc. pose proof Hc as (Hb & Hrow & Hin)%elem_of_candidates. split; [done|].
  assert (∃ pr, ga_pull_requests analysis !! ac_pr c = Some pr) as [pr Hpr].
  { unfold admission_row in Hrow. destruct (ga_pull_requests analysis !! ac_pr c); [eauto|done]. }
  exists pr. split; [done|].
  pose proof (candidate_eligible _ _ _ _ _ _ _ _ Hpr Hrow) as Hel. split; [done|].
  assert (c = mkAdmissionCandidate (ac_pr c) (first_label (configured_of (ranks_of priority_labels) pr))
    (first_rank (configured_of (ranks_of priority_labels) pr)) (pr_created_at pr)
    (candidate_text (configured_of (ranks_of priority_labels) pr) (pr_created_at pr) (ac_pr c))) as Heq.
  { unfold admission_row in Hrow. rewrite Hpr in Hrow.
    destruct (rejection_of _ gi pr (ac_pr c)) as [[? ?]|]; [done|].
    destruct (unknown_policy _ _); [done|]. destruct (blocked_by_red _ _ _); [by case_match|].
    destruct (has_label pr _); [done|]. destruct (proven_incompatible _ _); [done|].
    by injection Hrow as Hrow. }
  split; [by rewrite Heq|]. split.
  - intros l Hl Hp. rewrite Heq; cbn.
    assert (l ∈ priority_namespace pr) as Hns by by apply elem_of_namespace.
    destruct (el_labels _ _ _ _ _ _ Hel l Hl Hp) as [rank Hrank].
    assert ((l, rank) ∈ configured_of (ranks_of priority_labels) pr) as Hcf.
    { apply list_elem_of_omap. exists l. by rewrite Hrank. }
    assert (∀ e, e ∈ configured_of (ranks_of priority_labels) pr → e = (l, rank)) as Hall.
    { intros [l' r'] He. apply list_elem_of_omap in He as (l'' & Hl'' & He).
      destruct (ranks_of priority_labels !! l'') eqn:E; [|done]. cbn in He. injection He as <- <-.
      apply elem_of_namespace in Hl'' as [H1 H2].
      assert (l'' = l) as -> by by eapply el_one_label. congruence. }
    destruct (configured_of _ pr) as [|e es]; [by apply elem_of_nil in Hcf|].
    rewrite (Hall e) by by left. unfold first_label, first_rank; cbn. rewrite Hrank; cbn.
    split; [done|]. f_equal. lia.
  - intros r Hr Hroot Hd.
    assert (rj_pr r ∈ blocked_by analysis (roots analysis priority_labels gi gate) c) as Hin'.
    { unfold blocked_by. rewrite Hpr. apply elem_of_list_filter_b. split; [done|].
      apply bool_decide_eq_true, elem_of_list_to_set, list_elem_of_fmap. exists r. split; [done|].
      apply elem_of_list_filter_b. split; [|done].
      destruct (resolved_lists analysis priority_labels gi gate) as (_ & _ & Hrj & _).
      rewrite Hrj in Hr. by apply elem_of_sort_by_key in Hr. }
    rewrite Hb in Hin'. by apply elem_of_nil in Hin'.
Qed.

(** Nothing is leapfrogged. The next candidate is a candidate or a rejected
    attempt that holds its place, and no candidate and no other attempt holding
    its place sorts before it; the only attempts that lose their place are red
    roots with unjoined descendants, and only while some candidate outside
    their base chains exists. Without a next candidate there is no candidate
    and no attempt holds its place. *)
Theorem nothing_is_leapfrogged analysis priority_labels gi gate :
  let s := resolve_admission_with_generation_and_gate analysis priority_labels gi gate in
  let unranked := length priority_labels + 1 in
  match as_next_candidate s with
  | None => as_candidates s = [] ∧ ∀ r, r ∈ as_rejected s → rj_blocks_order r = false
  | Some n => ∃ k,
      ((∃ c, c ∈ as_candidates s ∧ ac_pr c = n ∧ candidate_key unranked c = k) ∨
       (∃ r, r ∈ as_rejected s ∧ rj_blocks_order r = true ∧ rj_pr r = n ∧ rejected_key unranked r = k)) ∧
      (∀ c, c ∈ as_candidates s → ord_le k (candidate_key unranked c) = true) ∧
      (∀ r, r ∈ as_rejected s → rj_blocks_order r = true →
         (as_candidates s = [] ∨ is_blocked_root r = false) →
         ord_le k (rejected_key unranked r) = true)
  end.
Proof.
  cbv zeta. destruct (resolved_lists analysis priority_labels gi gate) as (_ & _ & Hrj & ->).
  set (s := resolve_admission_with_generation_and_gate analysis priority_labels gi gate) in *.
  set (roots := roots analysis priority_labels gi gate) in *.
  set (u := length priority_labels + 1) in *.
  assert (∀ r, r ∈ as_rejected s → rj_blocks_order r = true →
    (as_candidates s = [] ∨ is_blocked_root r = false) → stands (as_candidates s) roots r = true) as Hstands.
  { intros r Hr Hb Hor. unfold stands. rewrite Hb. cbn.
    destruct Hor as [->|Hroot]; [done|]. apply orb_true_iff. right.
    apply negb_true_iff, bool_decide_eq_false. intros Hin.
    apply elem_of_list_to_set, list_elem_of_fmap in Hin as (r' & Hpr & [Hr' Hroot']%elem_of_list_filter_b).
    assert (r' ∈ as_rejected s) as Hr'' by (rewrite Hrj; by apply elem_of_sort_by_key).
    apply elem_of_rejected in Hr as [Hr1 _]. apply elem_of_rejected in Hr'' as [Hr2 _].
    rewrite <-Hpr in Hr2. rewrite Hr1 in Hr2. injection Hr2 as ->. congruence. }
  unfold next_of. destruct (list_min _) as [[k n]|] eqn:Hmin; cbn.
  - apply list_min_spec in Hmin as [Hin Hle]. exists (k, n). split_and!.
    + apply elem_of_app in Hin as [(c & Hk & Hc)%list_elem_of_fmap|(r & Hk & Hr)%list_elem_of_fmap].
      * left. exists c. split; [done|]. split; [|done]. unfold candidate_key, key in Hk. by injection Hk.
      * right. apply elem_of_list_filter_b in Hr as [Hr Hs]. exists r. split; [done|].
        unfold stands in Hs. apply andb_true_iff in Hs as [Hs _]. split; [done|]. split; [|done].
        unfold rejected_key, key in Hk. by injection Hk.
    + intros c Hc. apply Hle, elem_of_app. left. apply list_elem_of_fmap. by exists c.
    + intros r Hr Hb Hor. apply Hle, elem_of_app. right. apply list_elem_of_fmap. exists r.
      split; [done|]. apply elem_of_list_filter_b. split; [done|]. by apply Hstands.
  - apply list_min_None, app_nil in Hmin as [Hc Hr]. apply fmap_nil_inv in Hc, Hr. split; [done|].
    intros r Hin. destruct (rj_blocks_order r) eqn:Hb; [|done].
    assert (r ∈ List.filter (stands (as_candidates s) roots) (as_rejected s)) as Hf.
    { apply elem_of_list_filter_b. split; [done|]. apply Hstands; [done|done|by left]. }
    rewrite Hr in Hf. by apply elem_of_nil in Hf.
Qed.

(** ** A concrete queue *)

(** Two independent requests #4 and #7, and #6 stacked on #5, which carries the
    skip label. *)
Definition queue_rows : list PullRequestSnapshot :=
  [sample_row 4 "d" "main" Open [] false; sample_row 5 "p" "main" Open ["caravan-join-skipped"] false;
   sample_row 6 "c" "p" Open [] false; sample_row 7 "e" "main" Open [] false].
Definition queue_admission : AdmissionStatus := resolve_admission (analysis_of queue_rows) [].

Example queue_order :
  (ac_pr <$> as_candidates queue_admission, sk_pr <$> as_skipped queue_admission,
   as_next_candidate queue_admission) = ([4; 6; 7], [5], Some 4)%N.
Proof. vm_compute. reflexivity. Qed.

Lemma candidates_are_eligible_witness :
  ∃ c pr, ac_pr c = 4%N ∧ ga_pull_requests (analysis_of queue_rows) !! 4%N = Some pr ∧
    eligible (analysis_of queue_rows) [] integrity_default None 4%N pr.
Proof.
  assert (∃ c, c ∈ as_candidates queue_admission ∧ ac_pr c = 4%N) as (c & Hc & Hn).
  { assert (4%N ∈ ac_pr <$> as_candidates queue_admission) as Hin
      by (apply mem_true; vm_compute; reflexivity).
    apply list_elem_of_fmap in Hin as (c & Hc & Hin). exists c. split; [exact Hin|by symmetry]. }
  destruct (candidates_are_eligible (analysis_of queue_rows) [] integrity_default None c Hc)
    as (_ & pr & Hpr & Hel & _).
  rewrite Hn in Hpr, Hel. exists c, pr. split; [exact Hn|]. split; [exact Hpr|exact Hel].
Defined.
