(* ===== verification/Intent.v ===== *)
(** Explicit owner intent against automatic order: src/src/admission.rs.

    [evaluate] decides, for one request and the admission lists, whether the
    order permits admitting it now; [record_preflight] and [record_execution]
    bind later evidence to the decision. The properties follow: the order permits
    exactly what the lists determine, a bypass is justified, and a binding only
    narrows the decision. *)

From Stdlib Require Import Ascii String.
From S2P Require Import Prelude Text Model Graph Generation Selection GraphProofs SelectionProofs.

#[local] Open Scope string_scope.
#[local] Open Scope list_scope.
#[local] Open Scope nat_scope.

Definition ADMISSION_INTENT_POLICY : string :=
  "Priority/FIFO order binds automatic admission selection for both `new` and `join` intent, without exception. Explicit owner intent — an operator or agent naming one exact remote candidate with `cara check --pr N`, optionally `--tail-pr`/`--head-pr` — is resolved before FIFO canonical-candidate rejection for both `new` and `join`, and may attach ahead of earlier rows only while every bypassed row is an unrelated unjoined first-admission attempt; a joined row, a base-chain dependency of the candidate, a rank-indeterminate row, a candidate that is not itself a current ordered admission attempt, or an unresolved/ambiguous join target fails closed on canonical order. An owner operating on their own checked-out PR (local check, membership, renew/rejoin) reports canonical position as evidence only, exactly as before. Ordering never substitutes for compatibility, dependency, policy, freshness, generation integrity, or provider preflight.".
#[global] Arguments ADMISSION_INTENT_POLICY : simpl never.

Inductive AdmissionIntent := IntentNew | IntentJoin.
Definition intent_name (i : AdmissionIntent) : string :=
  match i with IntentNew => "new" | IntentJoin => "join" end.

Inductive AdmissionSelection := Automatic | Explicit | CheckedOut.
#[export] Instance AdmissionSelection_eq_dec : EqDecision AdmissionSelection.
Proof. solve_decision. Defined.
Definition selection_name (s : AdmissionSelection) : string :=
  match s with Automatic => "automatic" | Explicit => "explicit" | CheckedOut => "checked_out" end.
Definition relaxes_order (s : AdmissionSelection) : bool :=
  match s with Explicit | CheckedOut => true | Automatic => false end.
Definition is_checked_out (s : AdmissionSelection) : bool :=
  match s with CheckedOut => true | _ => false end.

Inductive OrderedRowDisposition :=
| BypassedUnjoined | BlockedJoined | BlockedDependency | BlockedRankIndeterminate
| BlockedAutomaticOrder.
#[export] Instance OrderedRowDisposition_eq_dec : EqDecision OrderedRowDisposition.
Proof. solve_decision. Defined.
Definition bypassed (d : OrderedRowDisposition) : bool :=
  match d with BypassedUnjoined => true | _ => false end.
(** [Debug]. *)
Definition debug_disposition (d : OrderedRowDisposition) : string :=
  match d with
  | BypassedUnjoined => "BypassedUnjoined"
  | BlockedJoined => "BlockedJoined"
  | BlockedDependency => "BlockedDependency"
  | BlockedRankIndeterminate => "BlockedRankIndeterminate"
  | BlockedAutomaticOrder => "BlockedAutomaticOrder"
  end.

Record OrderedRow := mkOrderedRow {
  or_pr : PrNumber;
  or_disposition : OrderedRowDisposition;
  or_joined : bool;
  or_reason : string }.

Inductive AdmissionOrderOutcome :=
| Canonical | ExplicitAheadOfUnjoined | BlockedByOrder | BlockedByPreflight | AlreadyEnrolled
| OwnerSelected.
#[export] Instance AdmissionOrderOutcome_eq_dec : EqDecision AdmissionOrderOutcome.
Proof. solve_decision. Defined.
Definition admits_ahead_of_fifo (o : AdmissionOrderOutcome) : bool :=
  match o with ExplicitAheadOfUnjoined => true | _ => false end.

Record AdmissionIntentDecision := mkDecision {
  ad_schema_version : N;
  ad_intent : AdmissionIntent;
  ad_selection : AdmissionSelection;
  ad_outcome : AdmissionOrderOutcome;
  ad_candidate_pr : PrNumber;
  ad_canonical_candidate_pr : option PrNumber;
  ad_target_caravan : option PrNumber;
  ad_target_tail : option PrNumber;
  ad_ordered_rows_ahead : list OrderedRow;
  ad_bypassed_unjoined_prs : list PrNumber;
  ad_blocking_prs : list PrNumber;
  ad_dependency_prs : list PrNumber;
  ad_compatibility_clean : bool;
  ad_preflight_clean : bool;
  ad_provider_mutated : bool;
  ad_idempotent : bool;
  ad_reason : string;
  ad_policy : string }.

Definition order_permits_admission (d : AdmissionIntentDecision) : bool :=
  match ad_outcome d with
  | Canonical | ExplicitAheadOfUnjoined | AlreadyEnrolled | OwnerSelected => true
  | BlockedByOrder | BlockedByPreflight => false
  end.
Definition bypasses_fifo (d : AdmissionIntentDecision) : bool := admits_ahead_of_fifo (ad_outcome d).

(** The fields the methods assign. *)
Definition set_outcome (d : AdmissionIntentDecision) (o : AdmissionOrderOutcome) (reason : string)
    : AdmissionIntentDecision :=
  mkDecision (ad_schema_version d) (ad_intent d) (ad_selection d) o (ad_candidate_pr d)
    (ad_canonical_candidate_pr d) (ad_target_caravan d) (ad_target_tail d) (ad_ordered_rows_ahead d)
    (ad_bypassed_unjoined_prs d) (ad_blocking_prs d) (ad_dependency_prs d) (ad_compatibility_clean d)
    (ad_preflight_clean d) (ad_provider_mutated d) (ad_idempotent d) reason (ad_policy d).
Definition set_preflight (d : AdmissionIntentDecision) (compatibility preflight : bool)
    : AdmissionIntentDecision :=
  mkDecision (ad_schema_version d) (ad_intent d) (ad_selection d) (ad_outcome d) (ad_candidate_pr d)
    (ad_canonical_candidate_pr d) (ad_target_caravan d) (ad_target_tail d) (ad_ordered_rows_ahead d)
    (ad_bypassed_unjoined_prs d) (ad_blocking_prs d) (ad_dependency_prs d) compatibility
    preflight (ad_provider_mutated d) (ad_idempotent d) (ad_reason d) (ad_policy d).
Definition set_rows (d : AdmissionIntentDecision) (rows : list OrderedRow) : AdmissionIntentDecision :=
  mkDecision (ad_schema_version d) (ad_intent d) (ad_selection d) (ad_outcome d) (ad_candidate_pr d)
    (ad_canonical_candidate_pr d) (ad_target_caravan d) (ad_target_tail d) rows
    (or_pr <$> List.filter (λ row, bypassed (or_disposition row)) rows)
    (or_pr <$> List.filter (λ row, negb (bypassed (or_disposition row))) rows)
    (ad_dependency_prs d) (ad_compatibility_clean d)
    (ad_preflight_clean d) (ad_provider_mutated d) (ad_idempotent d) (ad_reason d) (ad_policy d).

Definition record_preflight (self : AdmissionIntentDecision) (compatibility_clean preflight_clean : bool)
    : AdmissionIntentDecision :=
  let self := set_preflight self compatibility_clean preflight_clean in
  if negb preflight_clean && admits_ahead_of_fifo (ad_outcome self) then
    set_outcome self BlockedByPreflight
      (fmt ["explicit "; intent_name (ad_intent self);
            " intent cleared canonical order, but exact preflight rejected the attach; "; ad_reason self])
  else self.

Definition record_execution (self : AdmissionIntentDecision) (provider_mutated : bool)
    : AdmissionIntentDecision :=
  mkDecision (ad_schema_version self) (ad_intent self) (ad_selection self) (ad_outcome self)
    (ad_candidate_pr self) (ad_canonical_candidate_pr self) (ad_target_caravan self)
    (ad_target_tail self) (ad_ordered_rows_ahead self) (ad_bypassed_unjoined_prs self)
    (ad_blocking_prs self) (ad_dependency_prs self) (ad_compatibility_clean self)
    (ad_preflight_clean self) provider_mutated (negb provider_mutated) (ad_reason self) (ad_policy self).

(** ** Evaluation *)

Definition joined (analysis : GraphAnalysis) (n : PrNumber) : bool :=
  is_some_b (containing (ga_fleet analysis) n).

(** The decision before any row is considered. *)
Definition initial_decision (admission : AdmissionStatus) (analysis : GraphAnalysis)
    (candidate : PullRequestSnapshot) (target : option Caravan) (selection : AdmissionSelection)
    : AdmissionIntentDecision :=
  mkDecision 1 (match target with Some _ => IntentJoin | None => IntentNew end) selection BlockedByOrder
    (pr_number candidate) (as_next_candidate admission) (cv_id <$> target)
    (target ≫= caravan_tail) [] [] [] (dependency_prs analysis candidate) false false false
    false EmptyString ADMISSION_INTENT_POLICY.

Section rows_ahead.
Context (analysis : GraphAnalysis) (unranked : nat) (selection : AdmissionSelection).
Context (dependency_set : gset PrNumber) (candidate : PrNumber).
Context (candidate_row_key : nat * bool * string * PrNumber).

Definition candidate_disposition (n : PrNumber) : OrderedRowDisposition :=
  if joined analysis n then BlockedJoined
  else if bool_decide (n ∈ dependency_set) then BlockedDependency
  else if relaxes_order selection then BypassedUnjoined
  else BlockedAutomaticOrder.

Definition rejected_disposition (n : PrNumber) : OrderedRowDisposition :=
  if joined analysis n then BlockedJoined
  else if bool_decide (n ∈ dependency_set) then BlockedDependency
  else BlockedRankIndeterminate.

Definition candidate_row_ahead (row : AdmissionCandidate) : option OrderedRow :=
  if N.eqb (ac_pr row) candidate then None
  else if ord_le candidate_row_key (candidate_key unranked row) then None
  else Some (mkOrderedRow (ac_pr row) (candidate_disposition (ac_pr row))
               (joined analysis (ac_pr row)) (ac_reason row)).

Definition rejected_row_ahead (row : RejectedAdmissionCandidate) : option OrderedRow :=
  if negb (rj_blocks_order row) || N.eqb (rj_pr row) candidate then None
  else if ord_le candidate_row_key (rejected_key unranked row) then None
  else Some (mkOrderedRow (rj_pr row) (rejected_disposition (rj_pr row))
               (joined analysis (rj_pr row)) (rj_reason row)).

Definition rows_ahead (admission : AdmissionStatus) : list OrderedRow :=
  sort_by_key or_pr (omap candidate_row_ahead (as_candidates admission)
                       ++ omap rejected_row_ahead (as_rejected admission)).
End rows_ahead.

Definition show_prs (prs : list PrNumber) : string := join ", " ((λ pr, fmt ["#"; show_pr pr]) <$> prs).

(** The outcome once the rows ahead are known. *)
Definition conclude (admission : AdmissionStatus) (selection : AdmissionSelection)
    (decision : AdmissionIntentDecision) : AdmissionIntentDecision :=
  let intent := intent_name (ad_intent decision) in
  if negb (relaxes_order selection) then
    set_outcome decision (ad_outcome decision)
      (match as_next_candidate admission with
       | None => "automatic admission is not selectable because no canonical attempt exists"
       | Some canonical =>
           fmt ["priority/FIFO binds automatic selection for "; intent;
                " intent; fail closed on canonical PR #"; show_pr canonical]
       end)
  else
    let target_text :=
      match ad_target_caravan decision with
      | None => "forming a new caravan"
      | Some id => fmt ["to caravan #"; show_pr id]
      end in
    match ad_blocking_prs decision with
    | [] =>
        set_outcome decision ExplicitAheadOfUnjoined
          (match ad_bypassed_unjoined_prs decision with
           | [] => fmt ["explicit "; intent; " intent "; target_text; "; no earlier ordered row exists"]
           | prs => fmt ["explicit "; intent; " intent "; target_text; "; earlier row(s) "; show_prs prs;
               " bypassed only because they are unrelated unjoined first-admission attempts and keep their canonical order"]
           end)
    | _ =>
        let blocking := join ", "
          ((λ row, fmt ["#"; show_pr (or_pr row); " ("; debug_disposition (or_disposition row); ")"])
             <$> List.filter (λ row, negb (bypassed (or_disposition row))) (ad_ordered_rows_ahead decision)) in
        if is_checked_out selection then
          set_outcome decision OwnerSelected
            (fmt ["owner is operating on this exact checked-out PR; canonical order is evidence only; a remote explicit ";
                  intent; " request would fail closed on earlier row(s) "; blocking])
        else
          set_outcome decision (ad_outcome decision)
            (fmt ["explicit "; intent; " intent "; target_text; " fails closed: earlier row(s) "; blocking;
                  " are not unrelated unjoined attempts"])
    end.

(** A request without a candidate row. *)
Definition unordered (admission : AdmissionStatus) (selection : AdmissionSelection)
    (candidate : PrNumber) (decision : AdmissionIntentDecision) : AdmissionIntentDecision :=
  match selection with
  | CheckedOut =>
      set_outcome decision OwnerSelected
        "owner is operating on this exact checked-out PR; canonical order is evidence only"
  | _ =>
      set_outcome decision (ad_outcome decision)
        (match List.find (λ row, N.eqb (rj_pr row) candidate) (as_rejected admission) with
         | None => "candidate is not a current ordered admission attempt; explicit intent cannot relax canonical order"
         | Some row => fmt ["candidate is not a current ordered admission attempt: "; rj_reason row]
         end)
  end.

Definition evaluate (admission : AdmissionStatus) (analysis : GraphAnalysis)
    (candidate : PullRequestSnapshot) (target : option Caravan) (selection : AdmissionSelection)
    : AdmissionIntentDecision :=
  let unranked := length (as_priority_labels admission) + 1 in
  let decision := initial_decision admission analysis candidate target selection in
  if joined analysis (pr_number candidate) then
    set_outcome decision AlreadyEnrolled
      "candidate is already an active caravan member; admission ordering does not apply"
  else if bool_decide (as_next_candidate admission = Some (pr_number candidate)) then
    set_outcome decision Canonical
      (fmt ["candidate is the canonical first ordered "; intent_name (ad_intent decision);
            " admission attempt"])
  else
    match List.find (λ row, N.eqb (ac_pr row) (pr_number candidate)) (as_candidates admission) with
    | None => unordered admission selection (pr_number candidate) decision
    | Some candidate_row =>
        conclude admission selection
          (set_rows decision
             (rows_ahead analysis unranked selection (list_to_set (dependency_prs analysis candidate))
                (pr_number candidate) (candidate_key unranked candidate_row) admission))
    end.

(** * Properties *)

(** A key strictly ahead of another. *)
Definition ahead_of (k k' : nat * bool * string * PrNumber) : Prop := ord_le k' k = false.

Section decisions.
Context (admission : AdmissionStatus) (analysis : GraphAnalysis) (candidate : PullRequestSnapshot).

Abbreviation unranked := (length (as_priority_labels admission) + 1) (only parsing).

(** The candidate row of the request. *)
Definition own_row : option AdmissionCandidate :=
  List.find (λ row, N.eqb (ac_pr row) (pr_number candidate)) (as_candidates admission).

(** No row ahead of [c] forbids passing it. *)
Definition passable (c : AdmissionCandidate) : Prop :=
  (∀ row, row ∈ as_candidates admission → ac_pr row ≠ pr_number candidate →
     ahead_of (candidate_key unranked row) (candidate_key unranked c) →
     joined analysis (ac_pr row) = false ∧ ac_pr row ∉ dependency_prs analysis candidate) ∧
  (∀ row, row ∈ as_rejected admission → rj_blocks_order row = true → rj_pr row ≠ pr_number candidate →
     ¬ ahead_of (rejected_key unranked row) (candidate_key unranked c)).

Abbreviation rows_of selection c :=
  (rows_ahead analysis unranked selection (list_to_set (dependency_prs analysis candidate))
     (pr_number candidate) (candidate_key unranked c) admission) (only parsing).

Lemma elem_of_rows_ahead selection c row :
  row ∈ rows_of selection c ↔
  (∃ r, r ∈ as_candidates admission ∧ ac_pr r ≠ pr_number candidate ∧
     ahead_of (candidate_key unranked r) (candidate_key unranked c) ∧
     row = mkOrderedRow (ac_pr r)
       (candidate_disposition analysis selection (list_to_set (dependency_prs analysis candidate)) (ac_pr r))
       (joined analysis (ac_pr r)) (ac_reason r)) ∨
  (∃ r, r ∈ as_rejected admission ∧ rj_blocks_order r = true ∧ rj_pr r ≠ pr_number candidate ∧
     ahead_of (rejected_key unranked r) (candidate_key unranked c) ∧
     row = mkOrderedRow (rj_pr r)
       (rejected_disposition analysis (list_to_set (dependency_prs analysis candidate)) (rj_pr r))
       (joined analysis (rj_pr r)) (rj_reason r)).
Proof.
  unfold rows_ahead, ahead_of. rewrite elem_of_sort_by_key, elem_of_app, !list_elem_of_omap.
  enough (∀ A B C D : Prop, (A ↔ C) → (B ↔ D) → (A ∨ B ↔ C ∨ D)) as Hor; [|tauto].
  apply Hor; split; intros (r & Hr & H).
  - exists r. unfold candidate_row_ahead in H.
    destruct (N.eqb_spec (ac_pr r) (pr_number candidate)); [done|].
    destruct (ord_le _ _) eqn:E; [done|]. by injection H as <-.
  - exists r. destruct H as (Hne & Ha & ->). split; [done|]. unfold candidate_row_ahead.
    apply N.eqb_neq in Hne. by rewrite Hne, Ha.
  - exists r. unfold rejected_row_ahead in H.
    destruct (rj_blocks_order r); [cbn in H|done].
    destruct (N.eqb_spec (rj_pr r) (pr_number candidate)); [done|].
    destruct (ord_le _ _) eqn:E; [done|]. by injection H as <-.
  - exists r. destruct H as (Hb & Hne & Ha & ->). split; [done|]. unfold rejected_row_ahead.
    apply N.eqb_neq in Hne. by rewrite Hb, Hne, Ha.
Qed.

Lemma candidate_disposition_bypassed selection n :
  bypassed (candidate_disposition analysis selection (list_to_set (dependency_prs analysis candidate)) n) = true ↔
  relaxes_order selection = true ∧ joined analysis n = false ∧ n ∉ dependency_prs analysis candidate.
Proof.
  unfold candidate_disposition. destruct (joined analysis n); [by split; [|intros (_ & ? & _)]|].
  case_bool_decide as Hd; rewrite elem_of_list_to_set in Hd.
  - split; [done|]. by intros (_ & _ & ?).
  - destruct (relaxes_order selection); split; done || by intros (? & _).
Qed.

Lemma rejected_disposition_blocks deps n : bypassed (rejected_disposition analysis deps n) = false.
Proof. unfold rejected_disposition. by repeat case_match. Qed.

(** Under a relaxing selection nothing blocks exactly when the row is passable. *)
Lemma blocking_rows selection c : relaxes_order selection = true →
  List.filter (λ row, negb (bypassed (or_disposition row))) (rows_of selection c) = [] ↔ passable c.
Proof.
  intros Hrel. set (blocking := List.filter _ _).
  assert (blocking = [] ↔ ∀ row, row ∈ rows_of selection c → bypassed (or_disposition row) = true) as ->.
  { unfold blocking. split.
    - intros Hnil row Hrow. destruct (bypassed (or_disposition row)) eqn:E; [done|].
      assert (row ∈ List.filter (λ row, negb (bypassed (or_disposition row))) (rows_of selection c)) as Hin
        by (apply elem_of_list_filter_b; by rewrite E).
      rewrite Hnil in Hin. by apply elem_of_nil in Hin.
    - intros Hall. rewrite <-(filter_b_false (rows_of selection c)). apply filter_ext_elem_of.
      intros row Hrow. by rewrite Hall. }
  split.
  - intros Hall. split.
    + intros row Hrow Hne Ha. specialize (Hall _ (proj2 (elem_of_rows_ahead selection c _)
        (or_introl (ex_intro _ row (conj Hrow (conj Hne (conj Ha eq_refl))))))).
      by apply candidate_disposition_bypassed in Hall as (_ & ? & ?).
    + intros row Hrow Hb Hne Ha. specialize (Hall _ (proj2 (elem_of_rows_ahead selection c _)
        (or_intror (ex_intro _ row (conj Hrow (conj Hb (conj Hne (conj Ha eq_refl)))))))).
      cbn in Hall. by rewrite rejected_disposition_blocks in Hall.
  - intros [Hc Hr] row [(r & Hin & Hne & Ha & ->)|(r & Hin & Hb & Hne & Ha & ->)]%elem_of_rows_ahead; cbn.
    + apply candidate_disposition_bypassed. split; [done|]. by apply Hc.
    + by destruct (Hr r Hin Hb Hne).
Qed.
End decisions.

(** The order permits an admission exactly when the request is already a
    member, or is the canonical next attempt, or is the owner's own checked-out
    request, or was named explicitly, has a candidate row, and every row ahead
    of it may be passed: no row ahead is a live member, a base-chain dependency
    of the request, or a rejected attempt that holds its place. An automatic
    selection therefore permits only members and the canonical attempt. *)
Theorem order_permits_exactly admission analysis candidate target selection :
  order_permits_admission (evaluate admission analysis candidate target selection) = true ↔
  joined analysis (pr_number candidate) = true ∨
  as_next_candidate admission = Some (pr_number candidate) ∨
  selection = CheckedOut ∨
  (selection = Explicit ∧ ∃ c, own_row admission candidate = Some c ∧
     passable admission analysis candidate c).
Proof.
  unfold evaluate. destruct (joined analysis (pr_number candidate)); [cbn; tauto|].
  case_bool_decide as Hnext; [cbn; tauto|]. fold (own_row admission candidate).
  destruct (own_row admission candidate) as [c|] eqn:Hrow.
  - set (rows := rows_ahead _ _ _ _ _ _ _). unfold conclude.
    destruct (relaxes_order selection) eqn:Hrel; cbn [negb].
    + pose proof (blocking_rows admission analysis candidate selection c Hrel) as Hbl. fold rows in Hbl.
      cbn [ad_blocking_prs set_rows].
      destruct (or_pr <$> List.filter _ rows) as [|b bs] eqn:Hblock.
      * apply fmap_nil_inv in Hblock. cbn. split; [intros _|done].
        destruct selection; [done| |by right; right; left].
        right; right; right. split; [done|]. exists c. split; [done|]. by apply Hbl.
      * assert (¬ passable admission analysis candidate c) as Hnp
          by (intros Hp%Hbl; rewrite Hp in Hblock; done).
        destruct selection; cbn; [done| |tauto].
        split; [done|]. intros [?|[?|[?|(_ & c' & [= <-] & ?)]]]; done.
    + destruct selection; [|done..]. cbn. split; [done|].
      intros [?|[?|[?|[? _]]]]; done.
  - unfold unordered. destruct selection; cbn; try tauto.
    + split; [done|]. intros [?|[?|[?|[? _]]]]; done.
    + split; [done|]. intros [?|[?|[?|(_ & c & [=] & _)]]]; done.
Qed.

(** What an explicit admission passed is on the record: a decision that
    bypasses the order comes from an owner's selection of an ordered request
    that is neither a member nor canonical; nothing blocks it; and the bypassed
    requests are exactly the candidate rows ahead, in ascending order, none a
    member and none a base-chain dependency. *)
Theorem bypass_is_justified admission analysis candidate target selection :
  let d := evaluate admission analysis candidate target selection in
  bypasses_fifo d = true →
  selection ≠ Automatic ∧ joined analysis (pr_number candidate) = false ∧
  as_next_candidate admission ≠ Some (pr_number candidate) ∧
  ad_blocking_prs d = [] ∧
  ∃ c, own_row admission candidate = Some c ∧
    StronglySorted (key_le id) (ad_bypassed_unjoined_prs d) ∧
    ∀ n, n ∈ ad_bypassed_unjoined_prs d ↔
      (n ≠ pr_number candidate ∧ joined analysis n = false ∧ (n ∉ dependency_prs analysis candidate) ∧
       ∃ row, row ∈ as_candidates admission ∧ ac_pr row = n ∧
         ahead_of (candidate_key (length (as_priority_labels admission) + 1) row)
           (candidate_key (length (as_priority_labels admission) + 1) c)).
Proof.
  cbv zeta. unfold evaluate. destruct (joined analysis (pr_number candidate)) eqn:Hj; [done|].
  case_bool_decide as Hnext; [done|]. fold (own_row admission candidate).
  destruct (own_row admission candidate) as [c|] eqn:Hrow; [|by destruct selection].
  set (rows := rows_ahead _ _ _ _ _ _ _). unfold conclude.
  destruct (relaxes_order selection) eqn:Hrel; cbn [negb]; [|done].
  cbn [ad_blocking_prs set_rows]. destruct (or_pr <$> List.filter _ rows) as [|b bs] eqn:Hblock;
    [|by destruct selection]. intros _.
  apply fmap_nil_inv in Hblock.
  pose proof (proj1 (blocking_rows admission analysis candidate selection c Hrel) Hblock) as [Hp1 Hp2].
  assert (List.filter (λ row, bypassed (or_disposition row)) rows = rows) as Hall.
  { clear -Hblock. induction rows as [|r rows IH]; [done|]. cbn in *.
    destruct (bypassed (or_disposition r)); cbn in *; [by rewrite IH|done]. }
  assert (ad_blocking_prs (set_rows (initial_decision admission analysis candidate target selection) rows) = [])
    as Hbl by (cbn; by rewrite Hblock).
  cbn [ad_bypassed_unjoined_prs set_outcome set_rows ad_blocking_prs].
  rewrite Hall. split_and!; [by destruct selection|done|done|by rewrite Hblock|].
  exists c. split; [done|]. split.
  - unfold rows, rows_ahead. generalize (sort_by_key_sorted or_pr
      (omap (candidate_row_ahead analysis (length (as_priority_labels admission) + 1) selection
        (list_to_set (dependency_prs analysis candidate)) (pr_number candidate)
        (candidate_key (length (as_priority_labels admission) + 1) c)) (as_candidates admission) ++
       omap (rejected_row_ahead analysis (length (as_priority_labels admission) + 1)
        (list_to_set (dependency_prs analysis candidate)) (pr_number candidate)
        (candidate_key (length (as_priority_labels admission) + 1) c)) (as_rejected admission))).
    induction 1 as [|r l Hl IH Hr]; cbn; constructor; [done|]. by rewrite Forall_fmap.
  - intros n. rewrite list_elem_of_fmap. split.
    + intros (row & -> & [(r & Hin & Hne & Ha & ->)|(r & Hin & Hb & Hne & Ha & ->)]%elem_of_rows_ahead); cbn.
      * destruct (Hp1 r Hin Hne Ha) as [? ?]. split_and!; try done. by exists r.
      * by destruct (Hp2 r Hin Hb Hne).
    + intros (Hne & Hjn & Hd & row & Hin & <- & Ha). eexists. split; [|apply elem_of_rows_ahead; left;
        exists row; split_and!; done]. done.
Qed.

(** Later evidence only narrows a decision. After the preflight is bound,
    the order permits the admission exactly when it did before and, for a
    bypass, the preflight was clean; a bypass rejected once stays rejected
    whatever is recorded later; and execution evidence changes neither the
    outcome nor its reason. *)
Theorem preflight_only_narrows d compatibility preflight :
  order_permits_admission (record_preflight d compatibility preflight) =
    (order_permits_admission d && (preflight || negb (bypasses_fifo d)))%bool ∧
  (∀ compatibility' preflight' mutated,
     bypasses_fifo d = true → preflight = false →
     ad_outcome (record_preflight (record_execution (record_preflight d compatibility preflight) mutated)
       compatibility' preflight') = BlockedByPreflight) ∧
  (∀ mutated, ad_outcome (record_execution d mutated) = ad_outcome d ∧
     ad_reason (record_execution d mutated) = ad_reason d ∧
     ad_idempotent (record_execution d mutated) = negb mutated).
Proof.
  split_and!.
  - unfold record_preflight, order_permits_admission, bypasses_fifo.
    destruct preflight, (ad_outcome d) eqn:E; cbn; rewrite ?E; cbn; by rewrite ?E.
  - intros c' p' m Hb ->. unfold bypasses_fifo in Hb. unfold record_preflight at 2. cbn.
    rewrite Hb. unfold record_preflight. cbn. by rewrite andb_false_r.
  - done.
Qed.

(** ** Concrete decisions *)

Definition explicit_decision (n : PrNumber) : option AdmissionIntentDecision :=
  (λ pr, evaluate queue_admission (analysis_of queue_rows) pr None Explicit)
    <$> ga_pull_requests (analysis_of queue_rows) !! n.

(** An explicit request passes its own base-chain dependency when that
    dependency is a skipped row, although no dependency may be passed. *)
Lemma skipped_dependency_is_passed :
  (λ d, (ad_outcome d, ad_dependency_prs d, ad_blocking_prs d, order_permits_admission d))
    <$> explicit_decision 6 = Some (ExplicitAheadOfUnjoined, [5%N], [], true).
Proof. vm_compute. reflexivity. Qed.

Lemma bypass_is_justified_witness :
  let d := evaluate queue_admission (analysis_of queue_rows) (sample_row 7 "e" "main" Open [] false)
             None Explicit in
  ad_blocking_prs d = [] ∧ StronglySorted (key_le id) (ad_bypassed_unjoined_prs d) ∧
  ad_bypassed_unjoined_prs d = [4%N; 6%N].
Proof.
  destruct (bypass_is_justified queue_admission (analysis_of queue_rows)
    (sample_row 7 "e" "main" Open [] false) None Explicit) as (_ & _ & _ & Hb & c & _ & Hs & _);
    [vm_compute; reflexivity|].
  split; [exact Hb|]. split; [exact Hs|]. vm_compute. reflexivity.
Defined.
