(* ===== verification/RemoteLease.v ===== *)
(** The remote writer lease and its fencing guard: src/src/remote_lease.rs.

    Validation of keys, requests and grants, the broker adapter
    ([CommandRemoteWriterLease]) with its recovery from ambiguous failures, and
    the guard's life cycle. A backend is a class of operations on a world; the
    guard is written against the class and the adapter is an instance of it.
    The broker process, and the JSON encoder and decoder, are parameters. *)

From Stdlib Require Import Ascii String.
From S2P Require Import Prelude Text Model.

#[local] Open Scope string_scope.
#[local] Open Scope list_scope.
#[local] Open Scope nat_scope.
#[local] Open Scope caravan_scope.

Definition LEASE_SCHEMA_VERSION : N := 1.
Definition MAX_PROTOCOL_BYTES : nat := Nat.mul 16 1024.
Definition MAX_IDENTITY_BYTES : nat := 256.
Definition MAX_LEASE_TTL_MS : N := 60 * 60 * 1000.
#[global] Arguments MAX_PROTOCOL_BYTES : simpl never.

Record RemoteLeaseKey := mkLeaseKey {
  lk_host : string;
  lk_owner : string;
  lk_repository : string;
  lk_installation_id : option N }.
#[export] Instance RemoteLeaseKey_eq_dec : EqDecision RemoteLeaseKey.
Proof. solve_decision. Defined.

Record RemoteLeaseAcquire := mkLeaseAcquire {
  la_key : RemoteLeaseKey;
  la_writer_owner : string;
  la_operation_id : string;
  la_now_unix_ms : N;
  la_ttl_ms : N;
  la_heartbeat_ms : N }.

Record RemoteLeaseGrant := mkLeaseGrant {
  lg_schema_version : N;
  lg_key : RemoteLeaseKey;
  lg_writer_owner : string;
  lg_operation_id : string;
  lg_fencing_token : N;
  lg_heartbeat_due_unix_ms : N;
  lg_expires_unix_ms : N;
  lg_backend_revision : string }.
#[export] Instance RemoteLeaseGrant_eq_dec : EqDecision RemoteLeaseGrant.
Proof. solve_decision. Defined.

Inductive RemoteLeaseError :=
| Invalid (message : string)
| Contended (writer_owner operation_id : string) (fencing_token expires_unix_ms : N)
| Execution (message : string)
| Lost (message : string)
| Indeterminate (message : string).

(** [Display]. *)
Definition lease_error_text (e : RemoteLeaseError) : string :=
  match e with
  | Invalid message => fmt ["invalid remote lease data: "; message]
  | Contended writer_owner operation_id fencing_token expires_unix_ms =>
      fmt ["remote lease held by "; writer_owner; "/"; operation_id; " at fence ";
           show_N fencing_token; " until "; show_N expires_unix_ms]
  | Execution message => fmt ["remote lease backend failed: "; message]
  | Lost message => fmt ["remote writer fence lost: "; message]
  | Indeterminate message => fmt ["remote lease outcome is indeterminate: "; message]
  end.

(** ** Validation *)

Definition validate_identity (name value : string) : result unit RemoteLeaseError :=
  if str_is_empty value || (MAX_IDENTITY_BYTES <? String.length value)
     || negb (is_trimmed value) || has_control value
  then Err (Invalid (fmt [name; " must be bounded, non-empty, trimmed, and single-line"]))
  else Ok tt.

Definition validate_key (self : RemoteLeaseKey) : result unit RemoteLeaseError :=
  do? validate_identity "host" (lk_host self);;
  do? validate_identity "owner" (lk_owner self);;
  do? validate_identity "repository" (lk_repository self);;
  if opt_eqb (lk_installation_id self) (Some 0%N)
  then Err (Invalid "installation ID must be positive") else Ok tt.

Definition validate_request (self : RemoteLeaseAcquire) : result unit RemoteLeaseError :=
  do? validate_key (la_key self);;
  do? validate_identity "writer owner" (la_writer_owner self);;
  do? validate_identity "operation ID" (la_operation_id self);;
  if N.eqb (la_ttl_ms self) 0 || (MAX_LEASE_TTL_MS <? la_ttl_ms self)%N
     || N.eqb (la_heartbeat_ms self) 0 || (la_ttl_ms self <=? la_heartbeat_ms self)%N
     || is_none_b (checked_add (la_now_unix_ms self) (la_ttl_ms self))
     || is_none_b (checked_add (la_now_unix_ms self) (la_heartbeat_ms self))
  then Err (Invalid "lease TTL/heartbeat bounds are invalid") else Ok tt.

Definition validate_grant (self : RemoteLeaseGrant) : result unit RemoteLeaseError :=
  if negb (N.eqb (lg_schema_version self) LEASE_SCHEMA_VERSION)
  then Err (Invalid "unsupported remote lease schema version")
  else
    do? validate_key (lg_key self);;
    do? validate_identity "writer owner" (lg_writer_owner self);;
    do? validate_identity "operation ID" (lg_operation_id self);;
    do? validate_identity "backend revision" (lg_backend_revision self);;
    if N.eqb (lg_fencing_token self) 0
       || (lg_expires_unix_ms self <=? lg_heartbeat_due_unix_ms self)%N
    then Err (Invalid "remote lease grant has invalid fence or expiry") else Ok tt.

Definition same_holder (self : RemoteLeaseGrant) (request : RemoteLeaseAcquire) : bool :=
  bool_decide (lg_key self = la_key request)
  && String.eqb (lg_writer_owner self) (la_writer_owner request)
  && String.eqb (lg_operation_id self) (la_operation_id request).

Definition exact_fence (self other : RemoteLeaseGrant) : bool :=
  bool_decide (lg_key self = lg_key other)
  && String.eqb (lg_writer_owner self) (lg_writer_owner other)
  && String.eqb (lg_operation_id self) (lg_operation_id other)
  && N.eqb (lg_fencing_token self) (lg_fencing_token other).

Definition live_at (self : RemoteLeaseGrant) (now_unix_ms : N) : bool :=
  (now_unix_ms <? lg_expires_unix_ms self)%N.

Definition validate_renewed_grant (previous : RemoteLeaseGrant) (renewed : option RemoteLeaseGrant)
    : result RemoteLeaseGrant RemoteLeaseError :=
  renewed <-? ok_or renewed (Invalid "renew response omitted grant");;
  do? validate_grant renewed;;
  if negb (exact_fence renewed previous)
     || (lg_expires_unix_ms renewed <=? lg_expires_unix_ms previous)%N
  then Err (Lost "renew changed the fence or failed to advance expiry") else Ok renewed.

(** ** The backend interface *)

Class RemoteWriterLease (W : Type) := {
  lease_acquire : RemoteLeaseAcquire → W → result RemoteLeaseGrant RemoteLeaseError * W;
  lease_inspect : RemoteLeaseKey → W → result (option RemoteLeaseGrant) RemoteLeaseError * W;
  lease_renew : RemoteLeaseGrant → N → N → N → W → result RemoteLeaseGrant RemoteLeaseError * W;
  lease_release : RemoteLeaseGrant → W → result bool RemoteLeaseError * W }.

(** ** The broker adapter *)

Inductive BrokerOperation := OpAcquire | OpInspect | OpRenew | OpRelease.
#[export] Instance BrokerOperation_eq_dec : EqDecision BrokerOperation.
Proof. solve_decision. Defined.
Definition operation_code (o : BrokerOperation) : string :=
  match o with
  | OpAcquire => "acquire" | OpInspect => "inspect" | OpRenew => "renew" | OpRelease => "release"
  end.

Inductive BrokerRequest :=
| ReqAcquire (schema_version : N) (request : RemoteLeaseAcquire)
| ReqInspect (schema_version : N) (key : RemoteLeaseKey)
| ReqRenew (schema_version : N) (grant : RemoteLeaseGrant) (now_unix_ms ttl_ms heartbeat_ms : N)
| ReqRelease (schema_version : N) (grant : RemoteLeaseGrant).

Record BrokerResponse := mkBrokerResponse {
  bp_schema_version : N;
  bp_operation : BrokerOperation;
  bp_grant : option RemoteLeaseGrant;
  bp_released : bool;
  bp_contended : bool }.

Definition validate_shape (self : BrokerResponse) : result unit RemoteLeaseError :=
  let valid :=
    match bp_operation self with
    | OpAcquire => is_some_b (bp_grant self) && negb (bp_released self)
    | OpRenew => is_some_b (bp_grant self) && negb (bp_released self) && negb (bp_contended self)
    | OpInspect => negb (bp_released self) && negb (bp_contended self)
    | OpRelease => is_none_b (bp_grant self) && negb (bp_contended self)
    end in
  if valid then Ok tt else Err (Invalid "broker response fields do not match the operation").

Record CommandRemoteWriterLease := mkCommandLease { cl_command : string }.

(** [CommandRemoteWriterLease::new]. *)
Definition command_lease_new (command : string) : result CommandRemoteWriterLease RemoteLeaseError :=
  if str_is_empty (trim command) then Err (Invalid "remote lease broker command is empty")
  else Ok (mkCommandLease command).

Section broker.
(** [serde_json] on requests and responses, and one run of the broker command
    with the operation in its environment and the request on its input: whether
    it succeeded and what it printed, or [None] when it did not complete. *)
Context (encode : BrokerRequest → option string) (decode : string → option BrokerResponse).
Context {W : Type} (run : string → string → string → W → option (bool * string) * W).
Context (self : CommandRemoteWriterLease).

(** What [invoke] makes of the output of the command. *)
Definition read_response (operation : BrokerOperation) (output : option (bool * string))
    : result BrokerResponse RemoteLeaseError :=
  match output with
  | None => Err (Execution "broker command did not complete")
  | Some (false, _) => Err (Execution "broker command returned a nonzero status")
  | Some (true, stdout) =>
      if MAX_PROTOCOL_BYTES <? String.length stdout
      then Err (Invalid "remote lease response exceeds protocol bound")
      else
        response <-? ok_or (decode stdout) (Invalid "broker returned invalid strict JSON");;
        if negb (N.eqb (bp_schema_version response) LEASE_SCHEMA_VERSION)
           || negb (bool_decide (bp_operation response = operation))
        then Err (Invalid "broker response operation/schema mismatch")
        else
          do? validate_shape response;;
          do? match bp_grant response with Some grant => validate_grant grant | None => Ok tt end;;
          Ok response
  end.

Definition invoke (operation : BrokerOperation) (request : BrokerRequest) (w : W)
    : result BrokerResponse RemoteLeaseError * W :=
  match encode request with
  | None => (Err (Invalid "could not encode lease request"), w)
  | Some input =>
      if MAX_PROTOCOL_BYTES <? String.length input
      then (Err (Invalid "remote lease request exceeds protocol bound"), w)
      else
        let '(output, w) := run (cl_command self) (operation_code operation) input w in
        (read_response operation output, w)
  end.

Definition inspect_once (key : RemoteLeaseKey) (w : W)
    : result (option RemoteLeaseGrant) RemoteLeaseError * W :=
  match validate_key key with
  | Err e => (Err e, w)
  | Ok _ =>
      let '(r, w) := invoke OpInspect (ReqInspect LEASE_SCHEMA_VERSION key) w in
      (response <-? r;; Ok (bp_grant response), w)
  end.

Definition accept_acquired (request : RemoteLeaseAcquire) (response : BrokerResponse)
    : result RemoteLeaseGrant RemoteLeaseError :=
  grant <-? ok_or (bp_grant response) (Invalid "acquire response omitted grant");;
  if bp_contended response then
    if negb (live_at grant (la_now_unix_ms request))
    then Err (Invalid "contention response named an expired holder")
    else Err (Contended (lg_writer_owner grant) (lg_operation_id grant) (lg_fencing_token grant)
                (lg_expires_unix_ms grant))
  else if negb (same_holder grant request) || negb (live_at grant (la_now_unix_ms request))
  then Err (Lost "acquire returned wrong or expired ownership")
  else Ok grant.

Definition command_acquire (request : RemoteLeaseAcquire) (w : W)
    : result RemoteLeaseGrant RemoteLeaseError * W :=
  match validate_request request with
  | Err e => (Err e, w)
  | Ok _ =>
      match invoke OpAcquire (ReqAcquire LEASE_SCHEMA_VERSION request) w with
      | (Ok response, w) => (accept_acquired request response, w)
      | (Err (Execution _), w) =>
          let '(r, w) := inspect_once (la_key request) w in
          (observed <-? r;;
           ok_or (opt_filter (λ grant, same_holder grant request && live_at grant (la_now_unix_ms request))
                    observed)
             (Indeterminate "acquire failed and exact ownership was not rediscovered"), w)
      | (Err error, w) => (Err error, w)
      end
  end.

Definition renew_request (grant : RemoteLeaseGrant) (now_unix_ms ttl_ms heartbeat_ms : N)
    : RemoteLeaseAcquire :=
  mkLeaseAcquire (lg_key grant) (lg_writer_owner grant) (lg_operation_id grant) now_unix_ms ttl_ms
    heartbeat_ms.

Definition command_renew (grant : RemoteLeaseGrant) (now_unix_ms ttl_ms heartbeat_ms : N) (w : W)
    : result RemoteLeaseGrant RemoteLeaseError * W :=
  match (do? validate_grant grant;; validate_request (renew_request grant now_unix_ms ttl_ms heartbeat_ms)) with
  | Err e => (Err e, w)
  | Ok _ =>
      match invoke OpRenew (ReqRenew LEASE_SCHEMA_VERSION grant now_unix_ms ttl_ms heartbeat_ms) w with
      | (Ok response, w) => (validate_renewed_grant grant (bp_grant response), w)
      | (Err (Execution _), w) =>
          let '(r, w) := inspect_once (lg_key grant) w in
          (observed <-? r;;
           match validate_renewed_grant grant observed with
           | Ok renewed => Ok renewed
           | Err _ => Err (Indeterminate "renew failed and exact ownership was not rediscovered")
           end, w)
      | (Err error, w) => (Err error, w)
      end
  end.

Definition command_release (grant : RemoteLeaseGrant) (w : W) : result bool RemoteLeaseError * W :=
  match validate_grant grant with
  | Err e => (Err e, w)
  | Ok _ =>
      match invoke OpRelease (ReqRelease LEASE_SCHEMA_VERSION grant) w with
      | (Ok response, w) => (Ok (bp_released response), w)
      | (Err (Execution _), w) =>
          let '(r, w) := inspect_once (lg_key grant) w in
          (observed <-? r;;
           match observed with
           | None => Ok true
           | Some observed =>
               if exact_fence observed grant
               then Err (Indeterminate "release failed and ownership remains")
               else Err (Lost "release ambiguity observed a replacement fence")
           end, w)
      | (Err error, w) => (Err error, w)
      end
  end.

(** The adapter as a backend. *)
#[local] Instance command_backend : RemoteWriterLease W := {
  lease_acquire := command_acquire;
  lease_inspect := inspect_once;
  lease_renew := command_renew;
  lease_release := command_release }.
End broker.

(** ** The guard *)

Record RemoteLeaseGuard := mkLeaseGuard {
  gd_grant : RemoteLeaseGrant;
  gd_ttl_ms : N;
  gd_heartbeat_ms : N;
  gd_released : bool }.

Definition set_grant (g : RemoteLeaseGuard) (grant : RemoteLeaseGrant) : RemoteLeaseGuard :=
  mkLeaseGuard grant (gd_ttl_ms g) (gd_heartbeat_ms g) (gd_released g).
Definition set_released (g : RemoteLeaseGuard) (released : bool) : RemoteLeaseGuard :=
  mkLeaseGuard (gd_grant g) (gd_ttl_ms g) (gd_heartbeat_ms g) released.

Section guard.
Context {W : Type} `{RemoteWriterLease W}.

(** [RemoteLeaseGuard::acquire]. *)
Definition guard_acquire (request : RemoteLeaseAcquire) (w : W)
    : result RemoteLeaseGuard RemoteLeaseError * W :=
  match lease_acquire request w with
  | (Err e, w) => (Err e, w)
  | (Ok grant, w) =>
      (if negb (same_holder grant request) || negb (live_at grant (la_now_unix_ms request))
       then Err (Lost "acquire returned wrong or expired ownership")
       else Ok (mkLeaseGuard grant (la_ttl_ms request) (la_heartbeat_ms request) false), w)
  end.

(** The shared inspection: an exact live fence, or the fence is lost. *)
Definition observe_exact (grant : RemoteLeaseGrant) (now_unix_ms : N) (w : W)
    : result unit RemoteLeaseError * W :=
  match lease_inspect (lg_key grant) w with
  | (Err e, w) => (Err e, w)
  | (Ok (Some observed), w) =>
      (if exact_fence observed grant && live_at observed now_unix_ms then Ok tt
       else Err (Lost "exact live fencing token was not observed"), w)
  | (Ok None, w) => (Err (Lost "exact live fencing token was not observed"), w)
  end.

Definition revalidate (self : RemoteLeaseGuard) (now_unix_ms : N) (w : W)
    : result unit RemoteLeaseError * W :=
  if gd_released self then (Err (Lost "lease guard is released"), w)
  else observe_exact (gd_grant self) now_unix_ms w.

(** The renewal both writers perform, with the guard afterwards. *)
Definition renew_grant (self : RemoteLeaseGuard) (now_unix_ms : N) (w : W)
    : result unit RemoteLeaseError * RemoteLeaseGuard * W :=
  match lease_renew (gd_grant self) now_unix_ms (gd_ttl_ms self) (gd_heartbeat_ms self) w with
  | (Err e, w) => (Err e, self, w)
  | (Ok renewed, w) =>
      match validate_renewed_grant (gd_grant self) (Some renewed) with
      | Err e => (Err e, self, w)
      | Ok grant => (Ok tt, set_grant self grant, w)
      end
  end.

Definition renew (self : RemoteLeaseGuard) (now_unix_ms : N) (w : W)
    : result unit RemoteLeaseError * RemoteLeaseGuard * W :=
  if gd_released self then (Err (Lost "lease guard is released"), self, w)
  else if negb (live_at (gd_grant self) now_unix_ms)
  then (Err (Lost "lease expired before heartbeat renewal"), self, w)
  else renew_grant self now_unix_ms w.

Definition before_write_at (self : RemoteLeaseGuard) (now_unix_ms : N) (w : W)
    : result unit RemoteLeaseError * RemoteLeaseGuard * W :=
  if gd_released self then (Err (Lost "lease guard is released"), self, w)
  else if negb (live_at (gd_grant self) now_unix_ms)
  then (Err (Lost "lease expired before write revalidation"), self, w)
  else if (lg_heartbeat_due_unix_ms (gd_grant self) <=? now_unix_ms)%N
  then renew_grant self now_unix_ms w
  else let '(r, w) := observe_exact (gd_grant self) now_unix_ms w in (r, self, w).

(** [Drop]: an unreleased guard tries to release and ignores the outcome. *)
Definition guard_drop (self : RemoteLeaseGuard) (w : W) : W :=
  if gd_released self then w else (lease_release (gd_grant self) w).2.

(** [release(self)] consumes the guard, so it is dropped on every path. *)
Definition guard_release (self : RemoteLeaseGuard) (w : W) : result bool RemoteLeaseError * W :=
  match lease_release (gd_grant self) w with
  | (Err e, w) => (Err e, guard_drop self w)
  | (Ok released, w) => (Ok released, guard_drop (set_released self released) w)
  end.

(** [CommandMutationFence::before_write]; [clock] is the time since the epoch in
    milliseconds, or [None] before it. *)
Definition before_write (self : RemoteLeaseGuard) (clock : option N) (w : W)
    : result unit string * RemoteLeaseGuard * W :=
  match clock with
  | None => (Err "system clock is before the Unix epoch", self, w)
  | Some now =>
      if (u64_max <? now)%N then (Err "system clock exceeds remote lease range", self, w)
      else
        match before_write_at self now w with
        | (Ok _, self, w) => (Ok tt, self, w)
        | (Err e, self, w) => (Err (lease_error_text e), self, w)
        end
  end.
End guard.
