(* ===== verification/RemoteLeaseProofs.v ===== *)
(** What the lease protocol promises: a write passes only behind the exact live
    fence, a guard never changes its fence and never loses time, of all writers
    only those of the newest acquisition of a key pass, and the broker adapter turns
    an ambiguous failure into success only by rediscovering the exact holder. *)

From Stdlib Require Import Ascii String.
From S2P Require Import Prelude Text Model RemoteLease.

#[local] Open Scope string_scope.
#[local] Open Scope list_scope.
#[local] Open Scope nat_scope.

(** ** Fences *)

(** Two grants of one fence. *)
Definition same_fence (a b : RemoteLeaseGrant) : Prop :=
  lg_key a = lg_key b ∧ lg_writer_owner a = lg_writer_owner b ∧
  lg_operation_id a = lg_operation_id b ∧ lg_fencing_token a = lg_fencing_token b.

#[export] Instance same_fence_equiv : Equivalence same_fence.
Proof.
  split; unfold same_fence.
  - done.
  - intros a b (? & ? & ? & ?). by split_and!.
  - intros a b c (-> & -> & -> & ->) (? & ? & ? & ?). by split_and!.
Qed.

Lemma exact_fence_iff a b : exact_fence a b = true ↔ same_fence a b.
Proof.
  unfold exact_fence, same_fence.
  rewrite !andb_true_iff, bool_decide_eq_true, !String.eqb_eq, N.eqb_eq. tauto.
Qed.

Definition holds (a : RemoteLeaseGrant) (request : RemoteLeaseAcquire) : Prop :=
  lg_key a = la_key request ∧ lg_writer_owner a = la_writer_owner request ∧
  lg_operation_id a = la_operation_id request.

Lemma same_holder_iff a request : same_holder a request = true ↔ holds a request.
Proof.
  unfold same_holder, holds. rewrite !andb_true_iff, bool_decide_eq_true, !String.eqb_eq. tauto.
Qed.

Lemma live_at_iff a now : live_at a now = true ↔ (now < lg_expires_unix_ms a)%N.
Proof. apply N.ltb_lt. Qed.

Lemma validate_renewed_grant_ok previous renewed grant :
  validate_renewed_grant previous renewed = Ok grant ↔
  renewed = Some grant ∧ validate_grant grant = Ok tt ∧ same_fence grant previous ∧
  (lg_expires_unix_ms previous < lg_expires_unix_ms grant)%N.
Proof.
  unfold validate_renewed_grant. destruct renewed as [r|]; cbn; [|by split; [|intros [? _]]].
  destruct (validate_grant r) as [[]|e] eqn:Hv.
  2: { split; [done|]. intros ([= ->] & Hg & _). congruence. }
  destruct (exact_fence r previous) eqn:Hf; cbn.
  - apply exact_fence_iff in Hf. destruct (N.leb_spec (lg_expires_unix_ms r) (lg_expires_unix_ms previous)).
    + split; [done|]. intros ([= ->] & _ & _ & ?). lia.
    + split; [by intros [= <-]|]. by intros ([= ->] & _).
  - split; [done|]. intros ([= ->] & _ & Hs & _). apply exact_fence_iff in Hs. congruence.
Qed.

(** ** The guard over any backend *)

Section guard.
Context {W : Type} `{RemoteWriterLease W}.
Implicit Types (g : RemoteLeaseGuard) (w : W).

Lemma observe_exact_ok grant now w w' :
  observe_exact grant now w = (Ok tt, w') →
  ∃ observed, lease_inspect (lg_key grant) w = (Ok (Some observed), w') ∧
    same_fence observed grant ∧ (now < lg_expires_unix_ms observed)%N.
Proof.
  unfold observe_exact. destruct (lease_inspect (lg_key grant) w) as [[[observed|]|e] w1]; [|done..].
  destruct (exact_fence observed grant && live_at observed now) eqn:Hb; [|done].
  intros [= <-]. exists observed. apply andb_true_iff in Hb as [Hf Hl].
  by rewrite exact_fence_iff in Hf; rewrite live_at_iff in Hl.
Qed.

(** What a renewal may do to the guard. *)
Definition renewed g g' : Prop :=
  same_fence (gd_grant g') (gd_grant g) ∧
  (lg_expires_unix_ms (gd_grant g) < lg_expires_unix_ms (gd_grant g'))%N ∧
  validate_grant (gd_grant g') = Ok tt ∧
  gd_ttl_ms g' = gd_ttl_ms g ∧ gd_heartbeat_ms g' = gd_heartbeat_ms g ∧ gd_released g' = gd_released g.

Lemma renew_grant_spec g now w r g' w' :
  renew_grant g now w = (r, g', w') →
  (r = Ok tt ∧ renewed g g') ∨ ((∃ e, r = Err e) ∧ g' = g).
Proof.
  unfold renew_grant. destruct (lease_renew _ _ _ _ w) as [[grant|e] w1].
  - destruct (validate_renewed_grant (gd_grant g) (Some grant)) as [grant'|e] eqn:Hv.
    + intros [= <- <- _]. left. split; [done|].
      apply validate_renewed_grant_ok in Hv as (_ & ? & ? & ?). by split_and!.
    + intros [= <- <- _]. right. split; [by exists e|done].
  - intros [= <- <- _]. right. split; [by exists e|done].
Qed.

(** The backend confirmed the fence of a guard: the heartbeat was due and it
    renewed this very fence, or it showed a live record of this very fence. *)
Definition confirmed g (now : N) w g' w' : Prop :=
  gd_released g = false ∧ (now < lg_expires_unix_ms (gd_grant g))%N ∧
  same_fence (gd_grant g') (gd_grant g) ∧ (now < lg_expires_unix_ms (gd_grant g'))%N ∧
  (((lg_heartbeat_due_unix_ms (gd_grant g) <= now)%N ∧ renewed g g') ∨
   ((now < lg_heartbeat_due_unix_ms (gd_grant g))%N ∧ g' = g ∧
    ∃ observed, lease_inspect (lg_key (gd_grant g)) w = (Ok (Some observed), w') ∧
      same_fence observed (gd_grant g) ∧ (now < lg_expires_unix_ms observed)%N)).

Lemma before_write_confirmed g now w r g' w' :
  before_write_at g now w = (r, g', w') →
  match r with Ok _ => confirmed g now w g' w' | Err _ => g' = g end.
Proof.
  unfold before_write_at. destruct (gd_released g) eqn:Hrel; [by intros [= <- <- _]|].
  destruct (live_at (gd_grant g) now) eqn:Hlive; cbn [negb]; [|by intros [= <- <- _]].
  rewrite live_at_iff in Hlive.
  destruct (N.leb_spec (lg_heartbeat_due_unix_ms (gd_grant g)) now) as [Hdue|Hdue].
  - intros [[-> Hren]|[[e ->] ->]]%renew_grant_spec; [|done].
    pose proof Hren as (Hf & He & _). unfold confirmed. split_and!; [done|done|done|lia|by left].
  - destruct (observe_exact (gd_grant g) now w) as [[[]|e] w1] eqn:Hobs; intros [= <- <- <-]; [|done].
    apply observe_exact_ok in Hobs. unfold confirmed. by split_and!; [..|right].
Qed.

(** ** Reachable guards *)

(** One use of the guard, by any caller at any time. *)
Inductive guard_step : RemoteLeaseGuard * W → RemoteLeaseGuard * W → Prop :=
| step_write g w now r g' w' : before_write_at g now w = (r, g', w') → guard_step (g, w) (g', w')
| step_renew g w now r g' w' : renew g now w = (r, g', w') → guard_step (g, w) (g', w')
| step_revalidate g w now r w' : revalidate g now w = (r, w') → guard_step (g, w) (g, w')
| step_world g w w' : guard_step (g, w) (g, w').

(** What every use preserves. *)
Definition kept g g' : Prop :=
  same_fence (gd_grant g') (gd_grant g) ∧
  (lg_expires_unix_ms (gd_grant g) <= lg_expires_unix_ms (gd_grant g'))%N ∧
  gd_released g' = gd_released g ∧ gd_ttl_ms g' = gd_ttl_ms g ∧ gd_heartbeat_ms g' = gd_heartbeat_ms g.

#[export] Instance kept_preorder : PreOrder kept.
Proof.
  split; unfold kept.
  - intros g. split_and!; done || apply N.le_refl.
  - intros g1 g2 g3 (F1 & E1 & R1 & T1 & H1) (F2 & E2 & R2 & T2 & H2).
    split_and!; [by etrans|lia|congruence..].
Qed.

Lemma renew_grant_keeps g now w r g' w' : renew_grant g now w = (r, g', w') → kept g g'.
Proof.
  intros [[_ (? & ? & _ & ? & ? & ?)]|[_ ->]]%renew_grant_spec; [|done].
  unfold kept. split_and!; done || lia.
Qed.

Lemma guard_step_keeps gw gw' : guard_step gw gw' → kept gw.1 gw'.1.
Proof.
  intros [g w now r g' w' Hb|g w now r g' w' Hb|g w now r w' Hb|g w w']; cbn; [| |done|done].
  - unfold before_write_at in Hb. destruct (gd_released g); [by injection Hb as _ <- _|].
    destruct (negb _); [by injection Hb as _ <- _|].
    destruct (_ <=? _)%N; [by eapply renew_grant_keeps|].
    destruct (observe_exact _ _ _). by injection Hb as _ <- _.
  - unfold renew in Hb. destruct (gd_released g); [by injection Hb as _ <- _|].
    destruct (negb _); [by injection Hb as _ <- _|]. by eapply renew_grant_keeps.
Qed.

(** A guard never changes hands. Whatever is called on an acquired guard, at
    whatever times, and whatever happens to the backend in between, the guard
    still holds the fence it acquired for the holder that asked for it, with the
    same interval settings, an expiry no earlier than before, and unreleased. *)
Theorem guard_never_changes_hands request w g w1 g' w' :
  guard_acquire request w = (Ok g, w1) → rtc guard_step (g, w1) (g', w') →
  holds (gd_grant g') request ∧ same_fence (gd_grant g') (gd_grant g) ∧
  (la_now_unix_ms request < lg_expires_unix_ms (gd_grant g))%N ∧
  (lg_expires_unix_ms (gd_grant g) <= lg_expires_unix_ms (gd_grant g'))%N ∧
  gd_released g' = false ∧ gd_ttl_ms g' = la_ttl_ms request ∧ gd_heartbeat_ms g' = la_heartbeat_ms request.
Proof.
  unfold guard_acquire. destruct (lease_acquire request w) as [[grant|e] w2]; [|done].
  destruct (same_holder grant request) eqn:Hh; [|done].
  destruct (live_at grant (la_now_unix_ms request)) eqn:Hl; [|done]. cbn. intros [= <- <-] Hr.
  apply same_holder_iff in Hh as (Hk & Hw & Ho). rewrite live_at_iff in Hl.
  assert (∀ gw gw', rtc guard_step gw gw' → kept gw.1 gw'.1) as Hkept.
  { induction 1 as [|x y z Hs _ IH]; [done|]. etrans; [by eapply guard_step_keeps|done]. }
  apply Hkept in Hr as ((F1 & F2 & F3 & F4) & He & Hrel & Ht & Hb). cbn in *.
  split_and!; try done. unfold holds. by rewrite F1, F2, F3.
Qed.
End guard.

(** ** Many writers over one store *)

(** A store of leases keeps at most one record per key, and the last token it
    issued for the key. This is the contract of the broker in
    src/docs/remote-writer-lease.md: an acquisition creates a record or takes
    over with a token greater than every token issued before, and nothing else
    changes the fence of a record. A call may also fail after it took effect, and
    records may disappear. *)
Class LeaseRecords (W : Type) := {
  record_of : W → RemoteLeaseKey → option RemoteLeaseGrant;
  last_token : W → RemoteLeaseKey → N }.

(** The fence of [key] stays, or its record is gone. *)
Definition fence_kept `{LeaseRecords W} (w w' : W) (key : RemoteLeaseKey) : Prop :=
  last_token w' key = last_token w key
  ∧ (record_of w' key = None
     ∨ ∃ a b, record_of w key = Some a ∧ record_of w' key = Some b ∧ same_fence b a).

(** [key] has a fence that is newer than all before. *)
Definition fence_issued `{LeaseRecords W} (w w' : W) (key : RemoteLeaseKey) : Prop :=
  ∃ grant, record_of w' key = Some grant ∧ lg_key grant = key
  ∧ lg_fencing_token grant = last_token w' key ∧ (last_token w key < last_token w' key)%N.

(** The answers are the records the calls left; whether they are of the fence
    that was asked for is for the caller to find out. *)
Class LeaseStore (W : Type) `{RemoteWriterLease W, !LeaseRecords W} := {
  acquire_law request w r w' : lease_acquire request w = (r, w') →
    (∀ key, fence_kept w w' key ∨ (key = la_key request ∧ fence_issued w w' key))
    ∧ ∀ grant, r = Ok grant → record_of w' (la_key request) = Some grant;
  inspect_law key w r w' : lease_inspect key w = (r, w') →
    (∀ key', fence_kept w w' key') ∧ ∀ observed, r = Ok observed → record_of w' key = observed;
  renew_law grant now ttl heartbeat w r w' : lease_renew grant now ttl heartbeat w = (r, w') →
    (∀ key, fence_kept w w' key) ∧ ∀ renewed, r = Ok renewed → record_of w' (lg_key grant) = Some renewed;
  release_law grant w r w' : lease_release grant w = (r, w') → ∀ key, fence_kept w w' key }.

(** Every record is of its key, with the last token of the key. *)
Definition sound `{LeaseRecords W} (w : W) : Prop :=
  ∀ key r, record_of w key = Some r → lg_key r = key ∧ lg_fencing_token r = last_token w key.

(** Writers on any hosts, each with its guard, and the grants that were acquired,
    the oldest first. *)
Record Writers (W : Type) := mkWriters {
  ws_guards : gmap nat RemoteLeaseGuard;
  ws_acquired : list RemoteLeaseGrant;
  ws_store : W }.
#[global] Arguments mkWriters {W} _ _ _.
#[global] Arguments ws_guards {W} _.
#[global] Arguments ws_acquired {W} _.
#[global] Arguments ws_store {W} _.

Section writers.
Context {W : Type} `{LeaseStore W}.
Implicit Types (w : W) (s : Writers W) (key : RemoteLeaseKey).

(** One call of one writer, at a time of its own; a writer may also disappear
    with its guard, and the store may lose records. *)
Inductive writer_step : Writers W → Writers W → Prop :=
| ws_acquire i request g guards acquired w w' :
    guards !! i = None → guard_acquire request w = (Ok g, w') →
    writer_step (mkWriters guards acquired w) (mkWriters (<[i := g]> guards) (acquired ++ [gd_grant g]) w')
| ws_refused request e guards acquired w w' :
    guard_acquire request w = (Err e, w') → writer_step (mkWriters guards acquired w) (mkWriters guards acquired w')
| ws_write i g now r g' guards acquired w w' :
    guards !! i = Some g → before_write_at g now w = (r, g', w') →
    writer_step (mkWriters guards acquired w) (mkWriters (<[i := g']> guards) acquired w')
| ws_renew i g now r g' guards acquired w w' :
    guards !! i = Some g → renew g now w = (r, g', w') →
    writer_step (mkWriters guards acquired w) (mkWriters (<[i := g']> guards) acquired w')
| ws_revalidate i g now r guards acquired w w' :
    guards !! i = Some g → revalidate g now w = (r, w') →
    writer_step (mkWriters guards acquired w) (mkWriters guards acquired w')
| ws_release i g r guards acquired w w' :
    guards !! i = Some g → guard_release g w = (r, w') →
    writer_step (mkWriters guards acquired w) (mkWriters (delete i guards) acquired w')
| ws_drop i g guards acquired w :
    guards !! i = Some g → writer_step (mkWriters guards acquired w) (mkWriters (delete i guards) acquired (guard_drop g w))
| ws_gone i guards acquired w : writer_step (mkWriters guards acquired w) (mkWriters (delete i guards) acquired w)
| ws_lost guards acquired w w' :
    (∀ key, fence_kept w w' key) → writer_step (mkWriters guards acquired w) (mkWriters guards acquired w').

(** The acquisitions of a key, and the newest of them. *)
Definition acquired_for key (acquired : list RemoteLeaseGrant) : list RemoteLeaseGrant :=
  List.filter (λ h, bool_decide (lg_key h = key)) acquired.
Definition newest key (acquired : list RemoteLeaseGrant) : option RemoteLeaseGrant := last (acquired_for key acquired).
#[local] Arguments acquired_for : simpl never.
#[local] Arguments newest : simpl never.

(** An acquisition is not newer than the one [n]. *)
Definition not_newer (h n : RemoteLeaseGrant) : Prop :=
  (lg_fencing_token h ≤ lg_fencing_token n)%N ∧ (lg_fencing_token h = lg_fencing_token n → same_fence h n).

(** No acquisition has a token that was not issued, and those of the last token
    have the fence of the record. *)
Definition covered w (h : RemoteLeaseGrant) : Prop :=
  (lg_fencing_token h ≤ last_token w (lg_key h))%N
  ∧ ∀ r, record_of w (lg_key h) = Some r → not_newer h r.

Definition ordered s : Prop :=
  sound (ws_store s) ∧ Forall (covered (ws_store s)) (ws_acquired s)
  ∧ (∀ key n, newest key (ws_acquired s) = Some n → Forall (λ h, not_newer h n) (acquired_for key (ws_acquired s)))
  ∧ map_Forall (λ _ g, ∃ h, h ∈ ws_acquired s ∧ same_fence (gd_grant g) h) (ws_guards s).

Lemma kept_here w key : sound w → fence_kept w w key.
Proof.
  intros Hw. split; [done |]. destruct (record_of w key) as [a |]; [right; by exists a, a | by left].
Qed.
Lemma kept_trans w1 w2 w3 : (∀ key, fence_kept w1 w2 key) → (∀ key, fence_kept w2 w3 key) → ∀ key, fence_kept w1 w3 key.
Proof.
  intros H1 H2 key. destruct (H1 key) as [E1 R1], (H2 key) as [E2 R2]. split; [congruence |].
  destruct R2 as [| (b & c & Hb & Hc & Hf)]; [by left |]. destruct R1 as [| (a & b' & Ha & Hb' & Hf')]; [congruence |].
  right. exists a, c. simplify_eq. split_and!; [done | done | by etrans].
Qed.

Lemma sound_kept w w' : sound w → (∀ key, fence_kept w w' key ∨ fence_issued w w' key) → sound w'.
Proof.
  intros Hw Hk key r Hr. destruct (Hk key) as [[E [Hn | (a & b & Ha & Hb & (Hf1 & _ & _ & Hf2))]] | (g & Hg & Hkey & Ht & _)];
    [congruence | | by simplify_eq].
  simplify_eq. destruct (Hw _ _ Ha) as [<- Ht]. rewrite Hf1, Hf2, E. done.
Qed.

Lemma covered_kept w w' h : covered w h → fence_kept w w' (lg_key h) ∨ fence_issued w w' (lg_key h) → covered w' h.
Proof.
  intros [Hle Hr] [[E [Hn | (a & b & Ha & Hb & Hf)]] | (g & Hg & Hkey & Ht & Hlt)]; (split; [lia |]); intros r Hr'; simplify_eq.
  - destruct (Hr _ Ha) as [H1 H2]. unfold not_newer. pose proof Hf as (_ & _ & _ & ->).
    split; [done |]. intros Heq. etrans; [by apply H2 | done].
  - unfold not_newer. split; lia.
Qed.

Lemma ordered_store guards acquired w w' :
  ordered (mkWriters guards acquired w) → (∀ key, fence_kept w w' key ∨ fence_issued w w' key) →
  ordered (mkWriters guards acquired w').
Proof.
  intros (Hw & Hc & Hn & Hg) Hk. split_and!; cbn in *; [by eapply sound_kept | | done | done].
  eapply Forall_impl; [exact Hc |]. intros h Hh. by eapply covered_kept.
Qed.
Lemma ordered_kept guards acquired w w' :
  ordered (mkWriters guards acquired w) → (∀ key, fence_kept w w' key) → ordered (mkWriters guards acquired w').
Proof. intros Ho Hk. eapply ordered_store; [exact Ho | by left]. Qed.
Lemma ordered_guard guards acquired w i g g' :
  ordered (mkWriters guards acquired w) → guards !! i = Some g → same_fence (gd_grant g') (gd_grant g) →
  ordered (mkWriters (<[i := g']> guards) acquired w).
Proof.
  intros (Hw & Hc & Hn & Hg) Hi Hf. split_and!; try done. cbn in *. apply map_Forall_insert_2; [| done].
  destruct (Hg _ _ Hi) as (h & Hin & Hh). exists h. split; [done | by etrans].
Qed.
Lemma ordered_delete guards acquired w i :
  ordered (mkWriters guards acquired w) → ordered (mkWriters (delete i guards) acquired w).
Proof. intros (Hw & Hc & Hn & Hg). split_and!; try done. by apply map_Forall_delete. Qed.

Lemma acquired_for_snoc key acquired h :
  acquired_for key (acquired ++ [h]) = acquired_for key acquired ++ (if bool_decide (lg_key h = key) then [h] else []).
Proof. unfold acquired_for. by rewrite List.filter_app. Qed.

(** What the store left is the record of a guard that was just acquired. *)
Lemma ordered_acquired guards acquired w i g :
  ordered (mkWriters guards acquired w) → record_of w (lg_key (gd_grant g)) = Some (gd_grant g) →
  ordered (mkWriters (<[i := g]> guards) (acquired ++ [gd_grant g]) w).
Proof.
  intros (Hw & Hc & Hn & Hg) Hr. split_and!; cbn in *; [done | | |].
  - apply Forall_app. split; [done |]. apply Forall_singleton. destruct (Hw _ _ Hr) as [_ Ht]. split; [lia |].
    intros r Hr'. by simplify_eq.
  - intros key n. unfold newest. rewrite acquired_for_snoc. case_bool_decide as Hkey; [| rewrite app_nil_r; apply Hn].
    rewrite last_snoc. intros [= <-]. apply Forall_app. split; [| by apply Forall_singleton].
    apply Forall_forall. intros h [Hin Hh]%list_elem_of_In%List.filter_In. apply bool_decide_eq_true in Hh.
    rewrite Forall_forall in Hc. apply list_elem_of_In, Hc in Hin as [_ Hcov]. apply Hcov. congruence.
  - apply map_Forall_insert_2; [exists (gd_grant g); split; [set_solver | done] |].
    eapply map_Forall_impl; [exact Hg |]. cbn. intros _ g0 (h & Hin & Hh). exists h. split; [set_solver | done].
Qed.

Lemma renew_kept g now w r g' w' : renew_grant g now w = (r, g', w') → ∀ key, fence_kept w w' key.
Proof.
  unfold renew_grant. destruct (lease_renew _ _ _ _ w) as [[grant | e] w1] eqn:Hr; apply renew_law in Hr as [Hr _];
    [case_match |]; by intros [= _ _ <-].
Qed.
Lemma observe_kept grant now w r w' : observe_exact grant now w = (r, w') → ∀ key, fence_kept w w' key.
Proof.
  unfold observe_exact. destruct (lease_inspect _ w) as [[[observed |] | e] w1] eqn:Hi; apply inspect_law in Hi as [Hi _];
    by intros [= _ <-].
Qed.
Lemma drop_kept g w : sound w → ∀ key, fence_kept w (guard_drop g w) key.
Proof.
  intros Hw. unfold guard_drop. destruct (gd_released g); [intros key; by apply kept_here |].
  destruct (lease_release _ w) as [r w1] eqn:Hr. by eapply release_law.
Qed.

Lemma writer_step_ordered s s' : writer_step s s' → ordered s → ordered s'.
Proof.
  intros Hs Ho. destruct Hs as [i request g guards acquired w w' Hi Ha | request e guards acquired w w' Ha
    | i g now r g' guards acquired w w' Hi Hb | i g now r g' guards acquired w w' Hi Hb | i g now r guards acquired w w' Hi Hb
    | i g r guards acquired w w' Hi Hb | i g guards acquired w Hi | i guards acquired w | guards acquired w w' Hk].
  - unfold guard_acquire in Ha. destruct (lease_acquire request w) as [[grant | e] w1] eqn:Hl; [| done].
    destruct (same_holder grant request) eqn:Hh; [| done]. destruct (live_at _ _); [| done]. cbn in Ha. injection Ha as <- <-.
    apply acquire_law in Hl as [Hk Hr]. apply same_holder_iff in Hh as (Hkey & _). apply ordered_acquired.
    + eapply ordered_store; [exact Ho |]. intros key. destruct (Hk key) as [| [_ ?]]; auto.
    + cbn. rewrite Hkey. by apply Hr.
  - eapply ordered_store; [exact Ho |]. unfold guard_acquire in Ha.
    destruct (lease_acquire request w) as [[grant | e'] w1] eqn:Hl; apply acquire_law in Hl as [Hk _]; injection Ha as _ <-;
      intros key; destruct (Hk key) as [| [_ ?]]; auto.
  - assert (∀ key, fence_kept w w' key) as Hk.
    { unfold before_write_at in Hb. pose proof (λ key, kept_here w key (proj1 Ho)) as Hhere.
      destruct (gd_released g); [by injection Hb as _ _ <- |]. destruct (negb _); [by injection Hb as _ _ <- |].
      destruct (_ <=? _)%N; [by eapply renew_kept |].
      destruct (observe_exact _ _ w) as [r0 w1] eqn:Hob. injection Hb as _ _ <-. by eapply observe_kept. }
    eapply ordered_guard; [by eapply ordered_kept | done |]. by destruct (guard_step_keeps _ _ (step_write _ _ _ _ _ _ Hb)).
  - assert (∀ key, fence_kept w w' key) as Hk.
    { unfold renew in Hb. pose proof (λ key, kept_here w key (proj1 Ho)) as Hhere.
      destruct (gd_released g); [by injection Hb as _ _ <- |]. destruct (negb _); [by injection Hb as _ _ <- |].
      by eapply renew_kept. }
    eapply ordered_guard; [by eapply ordered_kept | done |]. by destruct (guard_step_keeps _ _ (step_renew _ _ _ _ _ _ Hb)).
  - eapply ordered_kept; [exact Ho |]. unfold revalidate in Hb.
    destruct (gd_released g); [injection Hb as _ <-; intros key; apply kept_here, Ho | by eapply observe_kept].
  - apply ordered_delete. eapply ordered_kept; [exact Ho |]. unfold guard_release in Hb.
    destruct (lease_release (gd_grant g) w) as [r0 w1] eqn:Hl. pose proof (release_law _ _ _ _ Hl) as Hk.
    assert (sound w1) as Hw1 by (eapply sound_kept; [apply Ho | by left]).
    destruct r0; injection Hb as _ <-; (eapply kept_trans; [exact Hk |]); by apply drop_kept.
  - apply ordered_delete. eapply ordered_kept; [exact Ho |]. apply drop_kept, Ho.
  - by apply ordered_delete.
  - by eapply ordered_kept.
Qed.

(** A guard that is let through is the one of the record. *)
Lemma passed_write_owns g now w g' w' : before_write_at g now w = (Ok tt, g', w') →
  ∃ current, record_of w (lg_key (gd_grant g)) = Some current ∧ same_fence current (gd_grant g).
Proof.
  intros Hb.
  assert ((∀ key, fence_kept w w' key)
    ∧ ∃ after, record_of w' (lg_key (gd_grant g)) = Some after ∧ same_fence after (gd_grant g)) as [Hk (b & Hb' & Hf)].
  { unfold before_write_at in Hb. destruct (gd_released g); [done |]. destruct (negb _); [done |]. destruct (_ <=? _)%N.
    - split; [by eapply renew_kept |]. unfold renew_grant in Hb.
      destruct (lease_renew _ _ _ _ w) as [[grant | e] w1] eqn:Hr; [| done].
      destruct (validate_renewed_grant (gd_grant g) (Some grant)) as [grant' | e] eqn:Hv; [| done].
      injection Hb as _ <-. apply renew_law in Hr as [_ Hr].
      apply validate_renewed_grant_ok in Hv as ([= ->] & _ & Hf & _). exists grant'. split; [by apply Hr | done].
    - destruct (observe_exact (gd_grant g) now w) as [[[] | e] w1] eqn:Hobs; [| done]. injection Hb as _ <-.
      split; [by eapply observe_kept |]. apply observe_exact_ok in Hobs as (observed & Hi & Hf & _).
      apply inspect_law in Hi as [_ Hi]. exists observed. split; [by apply Hi | done]. }
  destruct (Hk (lg_key (gd_grant g))) as [_ [Hn | (a & b' & Ha & Hb2 & Hba)]]; [congruence |].
  simplify_eq. exists a. split; [done |]. by rewrite <- Hba.
Qed.

Lemma run_ordered s s' : rtc writer_step s s' → ordered s → ordered s'.
Proof. induction 1 as [| s1 s2 s3 Hs _ IH]; [done |]. intros Ho. by eapply IH, writer_step_ordered. Qed.

(** C37. Writers exclude each other. Any number of writers acquire, renew, check,
    release and lose guards of any keys, in any order and with any clocks, over
    a store that issues a greater token whenever a key gets a new fence, but may
    fail after a call took effect and may lose records. Then a guard is let
    through to a write only if its fence, owner, operation and token, is that of
    the newest acquisition of its key; every guard of a fence that was acquired
    for the key before is refused from the next acquisition on. *)
Theorem writers_exclude_each_other w0 s i g now g' w' :
  sound w0 → rtc writer_step (mkWriters ∅ [] w0) s →
  ws_guards s !! i = Some g → before_write_at g now (ws_store s) = (Ok tt, g', w') →
  ∃ n, newest (lg_key (gd_grant g)) (ws_acquired s) = Some n ∧ same_fence (gd_grant g) n.
Proof.
  intros Hw0 Hrun Hi Hb.
  assert (ordered (mkWriters ∅ [] w0)) as Ho by (split_and!; [done | constructor | intros key n; done | apply map_Forall_empty]).
  apply run_ordered in Hrun as (Hw & Hc & Hn & Hg); [| done].
  apply passed_write_owns in Hb as (current & Hr & Hf). destruct (Hg _ _ Hi) as (h & Hin & Hh).
  assert (h ∈ acquired_for (lg_key (gd_grant g)) (ws_acquired s)) as Hfor.
  { apply list_elem_of_In, List.filter_In. split; [by apply list_elem_of_In |]. apply bool_decide_eq_true. by destruct Hh as (-> & _). }
  destruct (newest (lg_key (gd_grant g)) (ws_acquired s)) as [n |] eqn:Hnew.
  2: { apply last_None in Hnew. rewrite Hnew in Hfor. by apply elem_of_nil in Hfor. }
  exists n. split; [done |]. etrans; [exact Hh |]. pose proof (Hn _ _ Hnew) as Hall. rewrite Forall_forall in Hall.
  destruct (Hall _ Hfor) as [Hle Heq]. apply Heq. apply N.le_antisymm; [done |].
  apply last_Some_elem_of in Hnew. apply list_elem_of_In, List.filter_In in Hnew as [Hin' Hkey].
  apply bool_decide_eq_true in Hkey. rewrite Forall_forall in Hc. apply list_elem_of_In, Hc in Hin' as [_ Hcov].
  rewrite Hkey in Hcov. destruct (Hcov _ Hr) as [Hle' _]. destruct Hf as (_ & _ & _ & Hf), Hh as (_ & _ & _ & Hh). lia.
Qed.
End writers.

(** ** The broker adapter *)

Section broker.
Context (encode : BrokerRequest → option string) (decode : string → option BrokerResponse).
Context {W : Type} (run : string → string → string → W → option (bool * string) * W).
Context (self : CommandRemoteWriterLease).

Lemma read_response_ok operation output response :
  read_response decode operation output = Ok response →
  validate_shape response = Ok tt ∧ bp_operation response = operation ∧
  ∀ grant, bp_grant response = Some grant → validate_grant grant = Ok tt.
Proof.
  unfold read_response. destruct output as [[[] stdout]|]; [|done..].
  destruct (_ <? _); [done|]. destruct (decode stdout) as [resp|]; cbn; [|done].
  destruct (_ || _) eqn:Hs; [done|]. apply orb_false_iff in Hs as [_ Hop].
  apply negb_false_iff, bool_decide_eq_true in Hop.
  destruct (validate_shape resp) as [[]|e] eqn:Hv; [|done].
  destruct (bp_grant resp) as [grant|] eqn:Hg.
  - destruct (validate_grant grant) as [[]|e2] eqn:Hvg; [|done]. intros [= <-].
    rewrite Hg. by split_and!; [..|intros g [= <-]].
  - intros [= <-]. by rewrite Hg.
Qed.

Lemma invoke_ok operation request w response w' :
  invoke encode decode run self operation request w = (Ok response, w') →
  validate_shape response = Ok tt ∧ bp_operation response = operation ∧
  ∀ grant, bp_grant response = Some grant → validate_grant grant = Ok tt.
Proof.
  unfold invoke. destruct (encode request) as [input|]; [|done]. destruct (_ <? _); [done|].
  destruct (run _ _ input w) as [output w1]. intros [= Hr _]. by eapply read_response_ok.
Qed.

Lemma inspect_once_ok key w observed w' :
  inspect_once encode decode run self key w = (Ok observed, w') →
  ∀ grant, observed = Some grant → validate_grant grant = Ok tt.
Proof.
  unfold inspect_once. destruct (validate_key key); [|done].
  destruct (invoke _ _ _ _ _ _ w) as [[response|e] w1] eqn:Hi; intros [= <- _].
  by apply invoke_ok in Hi as (_ & _ & ?).
Qed.

(** The adapter's successes are exact, also after an ambiguous failure. A
    successful acquisition is a valid, live grant of the holder that asked; a
    successful renewal is a valid grant of the same fence with a strictly later
    expiry; a successful release means the broker said so, or that its command
    failed and the following inspection found no holder. *)
Theorem broker_successes_are_exact :
  (∀ request w grant w',
     command_acquire encode decode run self request w = (Ok grant, w') →
     validate_request request = Ok tt ∧ validate_grant grant = Ok tt ∧ holds grant request ∧
     (la_now_unix_ms request < lg_expires_unix_ms grant)%N) ∧
  (∀ grant now ttl heartbeat w renewed w',
     command_renew encode decode run self grant now ttl heartbeat w = (Ok renewed, w') →
     validate_grant renewed = Ok tt ∧ same_fence renewed grant ∧
     (lg_expires_unix_ms grant < lg_expires_unix_ms renewed)%N) ∧
  (∀ grant w w', command_release encode decode run self grant w = (Ok true, w') →
     (∃ response, invoke encode decode run self OpRelease (ReqRelease LEASE_SCHEMA_VERSION grant) w
        = (Ok response, w') ∧ bp_released response = true) ∨
     (∃ message w1, invoke encode decode run self OpRelease (ReqRelease LEASE_SCHEMA_VERSION grant) w
        = (Err (Execution message), w1) ∧
        inspect_once encode decode run self (lg_key grant) w1 = (Ok None, w'))).
Proof.
  split_and!.
  - intros request w grant w'. unfold command_acquire.
    destruct (validate_request request) as [[]|e]; [|done].
    destruct (invoke _ _ _ _ _ _ w) as [[response|e] w1] eqn:Hi.
    + apply invoke_ok in Hi as (_ & _ & Hv). unfold accept_acquired.
      destruct (bp_grant response) as [g|]; cbn; [|done].
      destruct (bp_contended response); [by destruct (negb _)|].
      destruct (same_holder g request) eqn:Hh; cbn; [|done].
      destruct (live_at g (la_now_unix_ms request)) eqn:Hl; cbn; [|done]. intros [= <- _].
      rewrite same_holder_iff in Hh. rewrite live_at_iff in Hl. split_and!; try done. by apply Hv.
    + destruct e; try done. destruct (inspect_once _ _ _ _ _ w1) as [[observed|e] w2] eqn:Ho; [|done].
      destruct observed as [g|]; cbn; [|done].
      destruct (same_holder g request) eqn:Hh; cbn; [|done].
      destruct (live_at g (la_now_unix_ms request)) eqn:Hl; cbn; [|done]. intros [= <- _].
      rewrite same_holder_iff in Hh. rewrite live_at_iff in Hl. split_and!; try done.
      by eapply inspect_once_ok.
  - intros grant now ttl heartbeat w renewed w'. unfold command_renew.
    destruct (validate_grant grant) as [[]|e]; [|done].
    destruct (validate_request _) as [[]|e]; [|done].
    destruct (invoke _ _ _ _ _ _ w) as [[response|e] w1].
    + intros [= Hv _]. by apply validate_renewed_grant_ok in Hv as (_ & ? & ? & ?).
    + destruct e; try done. destruct (inspect_once _ _ _ _ _ w1) as [[observed|e] w2]; [|done].
      destruct (validate_renewed_grant grant observed) as [r|e] eqn:Hv; [|done]. intros [= <- _].
      by apply validate_renewed_grant_ok in Hv as (_ & ? & ? & ?).
  - intros grant w w'. unfold command_release. destruct (validate_grant grant) as [[]|e]; [|done].
    destruct (invoke _ _ _ _ _ _ w) as [[response|e] w1].
    + intros [= Hb <-]. left. by exists response.
    + destruct e as [| |message| |]; try done.
      destruct (inspect_once _ _ _ _ _ w1) as [[observed|e] w2] eqn:Ho; [|done].
      destruct observed as [g|]; [by destruct (exact_fence g grant)|]. intros [= <-].
      right. by exists message, w1.
Qed.
End broker.

(** ** A reference store *)

(** The store of the tests of src/src/remote_lease.rs, [FakeCas]: of each key
    its record and its last fence. *)
Record FenceEntry := mkFenceEntry { fe_grant : option RemoteLeaseGrant; fe_last_fence : N }.
Definition FenceStore : Type := RemoteLeaseKey → FenceEntry.
Definition empty_store : FenceStore := λ _, mkFenceEntry None 0.
Definition set_entry (key : RemoteLeaseKey) (entry : FenceEntry) (w : FenceStore) : FenceStore := λ key',
  if bool_decide (key' = key) then entry else w key'.
Definition set_record (key : RemoteLeaseKey) (grant : option RemoteLeaseGrant) (w : FenceStore) : FenceStore :=
  set_entry key (mkFenceEntry grant (fe_last_fence (w key))) w.

Definition replacement (request : RemoteLeaseAcquire) (w : FenceStore) : RemoteLeaseGrant :=
  mkLeaseGrant LEASE_SCHEMA_VERSION (la_key request) (la_writer_owner request)
    (la_operation_id request) (fe_last_fence (w (la_key request)) + 1)
    (la_now_unix_ms request + la_heartbeat_ms request) (la_now_unix_ms request + la_ttl_ms request) "r".
Definition install (request : RemoteLeaseAcquire) (w : FenceStore) : FenceStore :=
  let grant := replacement request w in
  set_entry (la_key request) (mkFenceEntry (Some grant) (lg_fencing_token grant)) w.

#[local] Instance store_backend : RemoteWriterLease FenceStore := {
  lease_acquire := λ request w,
    match fe_grant (w (la_key request)) with
    | Some g => if live_at g (la_now_unix_ms request)
                then (Err (Contended (lg_writer_owner g) (lg_operation_id g) (lg_fencing_token g)
                             (lg_expires_unix_ms g)), w)
                else (Ok (replacement request w), install request w)
    | None => (Ok (replacement request w), install request w)
    end;
  lease_inspect := λ key w, (Ok (fe_grant (w key)), w);
  lease_renew := λ grant now ttl heartbeat w,
    match fe_grant (w (lg_key grant)) with
    | Some g =>
        if exact_fence g grant && live_at g now then
          let renewed := mkLeaseGrant LEASE_SCHEMA_VERSION (lg_key g) (lg_writer_owner g)
            (lg_operation_id g) (lg_fencing_token g) (now + heartbeat) (now + ttl) "r" in
          (Ok renewed, set_record (lg_key grant) (Some renewed) w)
        else (Err (Lost "renew did not match a live exact fence"), w)
    | None => (Err (Lost "lease is absent"), w)
    end;
  lease_release := λ grant w,
    match fe_grant (w (lg_key grant)) with
    | Some g =>
        if exact_fence g grant then (Ok true, set_record (lg_key grant) None w)
        else (Err (Lost "release did not match current fence"), w)
    | None => (Ok true, w)
    end }.

#[local] Instance store_records : LeaseRecords FenceStore := {
  record_of := λ w key, fe_grant (w key);
  last_token := λ w key, fe_last_fence (w key) }.

Lemma store_here (w : FenceStore) key : fence_kept w w key.
Proof. split; [done |]. destruct (record_of w key) as [a |]; [right; by exists a, a | by left]. Qed.

Lemma set_entry_eq key entry w : set_entry key entry w key = entry.
Proof. unfold set_entry. by rewrite bool_decide_true. Qed.
Lemma set_entry_ne key entry w key' : key' ≠ key → fence_kept w (set_entry key entry w) key'.
Proof.
  intros Hne. pose proof (store_here w key') as Hk. unfold fence_kept, set_entry in *. cbn in *. by rewrite bool_decide_false.
Qed.

Lemma install_issues request w key :
  fence_kept w (install request w) key ∨ (key = la_key request ∧ fence_issued w (install request w) key).
Proof.
  destruct (decide (key = la_key request)) as [-> | Hne]; [| left; by apply set_entry_ne].
  right. split; [done |]. exists (replacement request w). unfold install. cbn. rewrite set_entry_eq. cbn. split_and!; try done. lia.
Qed.

#[local] Instance store_laws : LeaseStore FenceStore.
Proof.
  split.
  - intros request w r w' Ha. cbn in Ha.
    assert ((r = Ok (replacement request w) ∧ w' = install request w) ∨ (is_ok r = false ∧ w' = w)) as [[-> ->] | [Hr ->]].
    { repeat case_match; injection Ha as <- <-; auto. }
    + split; [apply install_issues |]. intros grant [= <-]. unfold install. cbn. by rewrite set_entry_eq.
    + split; [left; apply store_here | by intros grant ->].
  - intros key w r w' [= <- <-]. split; [intros key'; apply store_here | by intros observed [= <-]].
  - intros grant now ttl heartbeat w r w'. cbn. destruct (fe_grant (w (lg_key grant))) as [g |] eqn:Hg.
    2: { intros [= <- <-]. split; [intros key; apply store_here | done]. }
    destruct (_ && _) eqn:Hf; intros [= <- <-]; [| split; [intros key; apply store_here | done]].
    split; [| intros renewed [= <-]; unfold set_record; cbn; by rewrite set_entry_eq].
    intros key. destruct (decide (key = lg_key grant)) as [-> | Hne]; [| by apply set_entry_ne].
    unfold fence_kept, set_record. cbn. rewrite set_entry_eq. split; [done |]. right. by exists g; eexists.
  - intros grant w r w'. cbn. destruct (fe_grant (w (lg_key grant))) as [g |].
    2: { intros [= <- <-]. apply store_here. }
    destruct (exact_fence g grant); intros [= <- <-]; [| apply store_here].
    intros key. destruct (decide (key = lg_key grant)) as [-> | Hne]; [| by apply set_entry_ne].
    unfold fence_kept, set_record. cbn. rewrite set_entry_eq. by split; [| left].
Defined.

(** Host a acquires and lets its lease expire, host b takes over; the guard of
    host a is refused, that of host b is let through. *)
Definition sample_key : RemoteLeaseKey := mkLeaseKey "github.com" "o" "r" None.
Definition sample_request : RemoteLeaseAcquire := mkLeaseAcquire sample_key "host-a" "op-1" 100 50 20.
Definition sample_takeover : RemoteLeaseAcquire := mkLeaseAcquire sample_key "host-b" "op-2" 160 50 20.
Definition sample_guard : RemoteLeaseGuard :=
  mkLeaseGuard (mkLeaseGrant 1 sample_key "host-a" "op-1" 1 120 150 "r") 50 20 false.
Definition sample_renewed : RemoteLeaseGuard :=
  mkLeaseGuard (mkLeaseGrant 1 sample_key "host-a" "op-1" 1 150 180 "r") 50 20 false.
Definition sample_next : RemoteLeaseGuard :=
  mkLeaseGuard (mkLeaseGrant 1 sample_key "host-b" "op-2" 2 180 210 "r") 50 20 false.
Definition sample_store : FenceStore := install sample_request empty_store.
Definition sample_taken : FenceStore := install sample_takeover sample_store.

Lemma sample_acquired : guard_acquire sample_request empty_store = (Ok sample_guard, sample_store).
Proof. vm_compute. reflexivity. Qed.
Lemma sample_written : ∃ w, before_write_at sample_guard 130 sample_store = (Ok tt, sample_renewed, w).
Proof. eexists. vm_compute. reflexivity. Qed.
Lemma sample_taken_over : guard_acquire sample_takeover sample_store = (Ok sample_next, sample_taken).
Proof. vm_compute. reflexivity. Qed.
Example sample_refused :
  (before_write_at sample_guard 149 sample_taken).1.1 = Err (Lost "renew did not match a live exact fence")
  ∧ (before_write_at sample_guard 110 sample_taken).1.1 = Err (Lost "exact live fencing token was not observed").
Proof. vm_compute. auto. Qed.

Lemma guard_never_changes_hands_witness :
  holds (gd_grant sample_renewed) sample_request ∧ gd_released sample_renewed = false.
Proof.
  destruct sample_written as [w Hw].
  destruct (guard_never_changes_hands sample_request empty_store sample_guard sample_store
    sample_renewed w sample_acquired (rtc_once _ _ (step_write _ _ _ _ _ _ Hw))) as (H1 & _ & _ & _ & H2 & _).
  split; [exact H1|exact H2].
Defined.

Lemma writers_exclude_each_other_witness :
  ∃ n, newest sample_key [gd_grant sample_guard; gd_grant sample_next] = Some n ∧ same_fence (gd_grant sample_next) n.
Proof.
  apply (writers_exclude_each_other empty_store
    (mkWriters {[1 := sample_next; 0 := sample_guard]} [gd_grant sample_guard; gd_grant sample_next] sample_taken)
    1 sample_next 170 sample_next sample_taken).
  - by intros key r Hr.
  - apply (rtc_l _ _ (mkWriters {[0 := sample_guard]} [gd_grant sample_guard] sample_store)).
    + apply (ws_acquire 0 sample_request sample_guard ∅ []); [apply lookup_empty | exact sample_acquired].
    + apply rtc_once. apply (ws_acquire 1 sample_takeover sample_next {[0 := sample_guard]} [gd_grant sample_guard]);
        [by rewrite lookup_singleton_ne | exact sample_taken_over].
  - vm_compute. reflexivity.
  - vm_compute. reflexivity.
Defined.
