(* ===== verification/Budget.v ===== *)
(** The physical-apply reserve: src/src/sync/budget.rs, with the constants it
    takes from src/src/sync.rs and the configuration methods it calls in
    src/src/config.rs.

    A [Duration] is its number of nanoseconds, with the saturation of the
    standard library; a count of command slots is a [u64] with saturating
    arithmetic. The vectors indexed by chain have one entry per chain. *)

From Stdlib Require Import String.
From S2P Require Import Prelude Text Model Graph Selection.

#[local] Open Scope string_scope.
#[local] Open Scope list_scope.
#[local] Open Scope N_scope.

(** ** Configuration and durations *)

Inductive StackType := StackCaravan | StackGithub.
#[export] Instance StackType_eq_dec : EqDecision StackType.
Proof. solve_decision. Defined.

(** The fields of the configuration the reserve reads. *)
Record BudgetConfig := mkBudgetConfig {
  bc_command_timeout_secs : N;
  bc_reserve_secs_per_command : N;
  bc_max_duration_secs : N;
  bc_rebase_on_join : bool;
  bc_stack_type : StackType;
  bc_max_caravan_length : option N }.

Definition DEFAULT_GITHUB_MAX_CARAVAN_LENGTH : N := 8.
Definition MAX_SYNC_OPERATION_SECS : N := 3600.

Definition effective_max_caravan_length (c : BudgetConfig) : option N :=
  match bc_max_caravan_length c, bc_stack_type c with
  | Some limit, _ => Some limit
  | None, StackGithub => Some DEFAULT_GITHUB_MAX_CARAVAN_LENGTH
  | None, StackCaravan => None
  end.

Definition physical_branch_rewrites_enabled (c : BudgetConfig) : bool :=
  bc_rebase_on_join c && bool_decide (bc_stack_type c = StackCaravan).

(** [Duration]: nanoseconds, at most [u64::MAX] seconds and a rest. *)
Definition DURATION_MAX : N := u64_max * 1000000000 + 999999999.
Definition from_secs (secs : N) : N := secs * 1000000000.
Definition as_secs (d : N) : N := d / 1000000000.
Definition duration_add (a b : N) : N := N.min DURATION_MAX (a + b).
Definition duration_millis (d : N) : N := N.min u64_max (d / 1000000).

Definition sync_operation_budget (c : BudgetConfig) : N :=
  from_secs (N.min (bc_max_duration_secs c) MAX_SYNC_OPERATION_SECS).

Definition MAX_PARALLEL_REBASE_CHAINS : nat := 2.
Definition APPLY_SLOTS_PER_PENDING : N := 3.
Definition APPLY_SLOTS_PER_RETAINED : N := 2.
Definition RECONCILIATION_SLOTS_PER_MEMBER : N := 1.
Definition RECONCILIATION_SLOTS_PER_CARAVAN : N := 2.
Definition FIXED_POST_WRITE_SLOTS : N := 2.
Definition MAX_CAPACITY_SEARCH_MEMBERS : N := 4096.
Definition MINIMUM_SOUND_CAPACITY : N := 2.
Definition ADMISSION_GUARD : N := from_secs 1.
#[global] Arguments MAX_CAPACITY_SEARCH_MEMBERS : simpl never.
#[global] Arguments ADMISSION_GUARD : simpl never.
#[global] Arguments DURATION_MAX : simpl never.

(** ** Costs *)

Record MemberCost := mkMemberCost { mc_pr : PrNumber; mc_pending : bool; mc_auto_merge_enabled : bool }.

Definition worst_case (pr : PrNumber) (auto_merge_enabled : bool) : MemberCost :=
  mkMemberCost pr true auto_merge_enabled.

Definition apply_slots (m : MemberCost) : N :=
  if mc_pending m then APPLY_SLOTS_PER_PENDING else APPLY_SLOTS_PER_RETAINED.
Definition control_slots (m : MemberCost) : N :=
  if negb (mc_pending m) then 0 else if mc_auto_merge_enabled m then 1 else 0.
Definition control_mutations (m : MemberCost) : N :=
  if negb (mc_pending m) then 0
  else sat_add (if mc_auto_merge_enabled m then 1 else 0) 1.

Record ChainCost := mkChainCost {
  cc_caravan_id : PrNumber;
  cc_members : list MemberCost;
  cc_externally_armed_non_roots : N }.

(** [u64::try_from(n).unwrap_or(u64::MAX)] on a [usize]. *)
Definition count_u64 (n : nat) : N := N.min u64_max (N.of_nat n).

Definition reconciliation_slots (c : ChainCost) : N :=
  sat_add (sat_add (sat_mul (count_u64 (length (cc_members c))) RECONCILIATION_SLOTS_PER_MEMBER)
             (cc_externally_armed_non_roots c))
    RECONCILIATION_SLOTS_PER_CARAVAN.

Record PhysicalCommitBudget := mkCommitBudget {
  pb_command_slots : N;
  pb_required : N;
  pb_mutation_reserve : N }.

Inductive ReserveScope := CompleteScope | BoundedPrefix.

Record PhysicalApplyAdmission := mkApplyAdmission {
  pa_admitted : list nat;
  pa_admitted_prs : list PrNumber;
  pa_deferred : list PrNumber;
  pa_budget : PhysicalCommitBudget;
  pa_complete_budget : PhysicalCommitBudget;
  pa_deferred_convergence : bool;
  pa_pending_admitted : N }.

Definition makes_progress (a : PhysicalApplyAdmission) : bool :=
  (0 <? pa_pending_admitted a) || bool_decide (pa_deferred a = []).

Section context.
Context (context : BudgetConfig).

Definition reserve_secs_per_command : N :=
  N.min (bc_command_timeout_secs context) (bc_reserve_secs_per_command context).
Definition slots_to_duration (slots : N) : N := from_secs (sat_mul reserve_secs_per_command slots).
Definition slots_to_worst_case_duration (slots : N) : N :=
  from_secs (sat_mul (bc_command_timeout_secs context) slots).

Definition deadline_command_slots (deadline : N) : N :=
  let secs_per_slot := reserve_secs_per_command in
  if N.eqb secs_per_slot 0 then u64_max else as_secs deadline / secs_per_slot.

(** ** Prefixes of the chains *)

Definition admitted_at (admitted : list nat) (index : nat) : nat := default O (admitted !! index).

(** [f] on the admitted part of each chain, in order. *)
Definition per_chain {A} (f : ChainCost → nat → A) (chains : list ChainCost) (admitted : list nat) : list A :=
  imap (λ index chain, f chain (admitted_at admitted index)) chains.

Definition admitted_costs (chains : list ChainCost) (admitted : list nat) : list MemberCost :=
  concat (per_chain (λ chain n, take n (cc_members chain)) chains admitted).

(** [chunks(MAX_PARALLEL_REBASE_CHAINS)] and the maximum of each chunk. *)
Fixpoint round_maxima (l : list N) : list N :=
  match l with
  | [] => []
  | [a] => [a]
  | a :: b :: l' => N.max a b :: round_maxima l'
  end.

Definition apply_rounds (chains : list ChainCost) (admitted : list nat) : N :=
  sat_sum (round_maxima (per_chain (λ chain n, sat_sum (apply_slots <$> take n (cc_members chain)))
                           chains admitted)).

Definition budget_for (chains : list ChainCost) (admitted : list nat) (scope : ReserveScope)
    : PhysicalCommitBudget :=
  let members := admitted_costs chains admitted in
  let control := sat_sum (control_slots <$> members) in
  let mutations := sat_sum (control_mutations <$> members) in
  let pending_writes := count_u64 (length (List.filter mc_pending members)) in
  let reconciliation :=
    match scope with
    | CompleteScope => sat_sum (reconciliation_slots <$> chains)
    | BoundedPrefix => 0
    end in
  let command_slots :=
    sat_add (sat_add (sat_add control (apply_rounds chains admitted)) reconciliation)
      FIXED_POST_WRITE_SLOTS in
  let mutation_reserve := sat_add (sat_add mutations pending_writes) reconciliation in
  mkCommitBudget command_slots (slots_to_duration command_slots) (N.min u32_max mutation_reserve).

Definition complete_prefix (chains : list ChainCost) : list nat := (λ c, length (cc_members c)) <$> chains.
Definition complete_budget (chains : list ChainCost) : PhysicalCommitBudget :=
  budget_for chains (complete_prefix chains) CompleteScope.

Definition deferred_members (chains : list ChainCost) (admitted : list nat) : list PrNumber :=
  concat (per_chain (λ chain n, mc_pr <$> drop n (cc_members chain)) chains admitted).
Definition admitted_members (chains : list ChainCost) (admitted : list nat) : list PrNumber :=
  concat (per_chain (λ chain n, mc_pr <$> take n (cc_members chain)) chains admitted).
Definition pending_in_prefix (chains : list ChainCost) (admitted : list nat) : N :=
  sat_sum (per_chain (λ chain n, count_u64 (length (List.filter mc_pending (take n (cc_members chain)))))
             chains admitted).

Definition fits (budget : PhysicalCommitBudget) (remaining : N) : bool :=
  duration_add (pb_required budget) ADMISSION_GUARD <? remaining.

(** ** Admission of a prefix *)

(** The loop's variables. *)
Record Growth := mkGrowth {
  gw_admitted : list nat;
  gw_saturated : list bool;
  gw_budget : PhysicalCommitBudget }.

Definition saturate (index : nat) (g : Growth) : Growth :=
  mkGrowth (gw_admitted g) (<[index := true]> (gw_saturated g)) (gw_budget g).

(** One turn of the [for] loop. *)
Definition visit (chains : list ChainCost) (remaining : N) (g : Growth) (index : nat) : Growth :=
  if default true (gw_saturated g !! index) then g
  else
    let n := admitted_at (gw_admitted g) index in
    if (match chains !! index with Some chain => length (cc_members chain) | None => O end <=? n)%nat
    then saturate index g
    else
      let admitted := <[index := S n]> (gw_admitted g) in
      let candidate := budget_for chains admitted BoundedPrefix in
      if fits candidate remaining then mkGrowth admitted (gw_saturated g) candidate
      else saturate index g.

Definition sweep (chains : list ChainCost) (remaining : N) (g : Growth) : Growth :=
  foldl (visit chains remaining) g (seq 0 (length chains)).

(** [while saturated.iter().any(|done| !done)]; [None] when the fuel is spent. *)
Fixpoint grow_prefix (fuel : nat) (chains : list ChainCost) (remaining : N) (g : Growth) : option Growth :=
  if existsb negb (gw_saturated g) then
    match fuel with
    | O => None
    | S fuel => grow_prefix fuel chains remaining (sweep chains remaining g)
    end
  else Some g.

(** A chain is saturated at the latest one sweep after all its members. *)
Definition growth_fuel (chains : list ChainCost) : nat :=
  S (foldr Nat.max O (complete_prefix chains)).

Definition initial_growth (chains : list ChainCost) : Growth :=
  let admitted := replicate (length chains) O in
  mkGrowth admitted (replicate (length chains) false) (budget_for chains admitted BoundedPrefix).

Definition admit_physical_prefix (chains : list ChainCost) (remaining : N)
    : option PhysicalApplyAdmission :=
  let complete := complete_budget chains in
  let full := complete_prefix chains in
  if fits complete remaining then
    Some (mkApplyAdmission full (admitted_members chains full) [] complete complete false
            (pending_in_prefix chains full))
  else
    (λ g,
       let admitted := gw_admitted g in
       let deferred := deferred_members chains admitted in
       let pending_admitted := pending_in_prefix chains admitted in
       mkApplyAdmission admitted (admitted_members chains admitted) deferred (gw_budget g) complete
         (negb (bool_decide (deferred = [])) || (0 <? pending_admitted)) pending_admitted)
      <$> grow_prefix (growth_fuel chains) chains remaining (initial_growth chains).

(** ** Capacity *)

Definition capacity_command_slots (size : N) : N :=
  sat_add (sat_add (sat_add (sat_mul (sat_sub size 1) APPLY_SLOTS_PER_RETAINED) APPLY_SLOTS_PER_PENDING) 1)
    FIXED_POST_WRITE_SLOTS.

(** [while size <= MAX_CAPACITY_SEARCH_MEMBERS]: at most 4096 turns. *)
Fixpoint capacity_search (fuel : nat) (slots admissible size : N) : N :=
  match fuel with
  | O => admissible
  | S fuel =>
      if size <=? MAX_CAPACITY_SEARCH_MEMBERS then
        if slots <=? capacity_command_slots size then admissible
        else capacity_search fuel slots size (size + 1)
      else admissible
  end.

Definition computed_capacity (deadline : N) : N :=
  capacity_search (N.to_nat MAX_CAPACITY_SEARCH_MEMBERS) (deadline_command_slots deadline) 0 1.

Definition minimum_sound_deadline : N :=
  from_secs (sat_mul (sat_add (capacity_command_slots MINIMUM_SOUND_CAPACITY) 1) reserve_secs_per_command).

Record CapacityDefect := mkCapacityDefect {
  cd_code : string;
  cd_computed_bound : N;
  cd_minimum_sound_bound : N;
  cd_deadline_ms : N;
  cd_command_timeout_ms : N;
  cd_reserve_ms_per_command : N;
  cd_minimum_chain_command_slots : N;
  cd_minimum_deadline_ms : N;
  cd_safe_next_action : string }.

Definition capacity_defect (deadline computed_bound : N) : CapacityDefect :=
  let minimum_deadline := minimum_sound_deadline in
  mkCapacityDefect "sync_budget_capacity_unsound" computed_bound MINIMUM_SOUND_CAPACITY
    (duration_millis deadline) (sat_mul (bc_command_timeout_secs context) 1000)
    (sat_mul reserve_secs_per_command 1000) (capacity_command_slots MINIMUM_SOUND_CAPACITY)
    (duration_millis minimum_deadline)
    (fmt ["raise sync.max_duration_secs to at least "; show_N (as_secs minimum_deadline);
          "s (currently "; show_N (as_secs deadline); "s), or lower sync.reserve_secs_per_command (currently ";
          show_N reserve_secs_per_command; "s) to a proven-safe value: the configured deadline implies a ";
          show_N computed_bound; "-member bound, below the "; show_N MINIMUM_SOUND_CAPACITY;
          "-member floor admission can enforce, and draining a caravan can never raise a bound derived from configuration alone"]).

Definition capacity_contradiction (deadline members bound : N) : CapacityDefect :=
  let d := capacity_defect deadline bound in
  mkCapacityDefect "sync_budget_capacity_contradiction" (cd_computed_bound d) (cd_minimum_sound_bound d)
    (cd_deadline_ms d) (cd_command_timeout_ms d) (cd_reserve_ms_per_command d)
    (cd_minimum_chain_command_slots d) (cd_minimum_deadline_ms d)
    (fmt ["admission reported a "; show_N members; "-member caravan at a "; show_N bound;
          "-member bound, which no drain can ever clear; treat this as a defect and raise sync.max_duration_secs to at least ";
          show_N (as_secs minimum_sound_deadline);
          "s, or lower sync.reserve_secs_per_command (currently "; show_N reserve_secs_per_command;
          "s), before relying on capacity gating"]).

Definition admission_capacity (deadline : N) : result N CapacityDefect :=
  let computed := computed_capacity deadline in
  if computed <? MINIMUM_SOUND_CAPACITY then Err (capacity_defect deadline computed) else Ok computed.

Definition capacity_evidence (deadline : N) : option N * option CapacityDefect :=
  match admission_capacity deadline with
  | Ok bound => (Some bound, None)
  | Err defect => (None, Some defect)
  end.

Inductive CapacityGate :=
| GateOpen (bound : N)
| GateAtCapacity (bound : N)
| GateDefect (defect : CapacityDefect).

Definition configured_batch_bound : option N := effective_max_caravan_length context.

Definition gate_for_bound (deadline members bound : N) : CapacityGate :=
  let dynamic :=
    if members <? bound then GateOpen bound
    else if members <? MINIMUM_SOUND_CAPACITY
    then GateDefect (capacity_contradiction deadline members bound)
    else GateAtCapacity bound in
  match configured_batch_bound with
  | Some batch => if batch <=? members then GateAtCapacity (N.min batch bound) else dynamic
  | None => dynamic
  end.

Definition capacity_gate (deadline members : N) : CapacityGate :=
  match admission_capacity deadline with
  | Ok bound => gate_for_bound deadline members bound
  | Err defect => GateDefect defect
  end.
End context.

(** ** Projection of a status *)

Inductive PauseState := PauseActive | PauseExpired | PauseStale | PauseRecovering | PauseRecoveryDrift | PauseRetired.
Definition is_effective (s : PauseState) : bool :=
  match s with
  | PauseActive | PauseExpired | PauseRecovering | PauseRecoveryDrift => true
  | PauseStale | PauseRetired => false
  end.

(** What the projection reads of a [StatusOutput]: the analysis, each pause's
    state and caravan head, and the admission status. *)
Record BudgetStatusInput := mkBudgetInput {
  bi_analysis : GraphAnalysis;
  bi_pauses : list (PauseState * PrNumber);
  bi_admission : AdmissionStatus }.

Definition armed_in (status : BudgetStatusInput) (number : PrNumber) : bool :=
  is_some_and (ga_pull_requests (bi_analysis status) !! number) (λ pr, am_enabled (pr_auto_merge pr)).

Definition externally_armed_non_roots (status : BudgetStatusInput) (caravan : Caravan) : N :=
  count_u64 (length (List.filter (armed_in status) (drop 1 (cv_members caravan)))).

Definition chain_costs_from_status (status : BudgetStatusInput) (selected : list Caravan) : list ChainCost :=
  (λ caravan, mkChainCost (cv_id caravan)
     ((λ number, worst_case number (armed_in status number)) <$> cv_members caravan)
     (externally_armed_non_roots status caravan)) <$> selected.

Definition retained_chain (c : ChainCost) : ChainCost :=
  mkChainCost (cc_caravan_id c)
    ((λ m, mkMemberCost (mc_pr m) false (mc_auto_merge_enabled m)) <$> cc_members c)
    (cc_externally_armed_non_roots c).

Record CaravanBudgetProjection := mkProjection {
  bj_caravan_id : PrNumber;
  bj_members : list PrNumber;
  bj_required_command_slots : N;
  bj_required_ms : N;
  bj_retained_command_slots : N;
  bj_retained_ms : N;
  bj_processable_prefix : list PrNumber;
  bj_deferred : list PrNumber;
  bj_deferred_convergence : bool;
  bj_at_capacity : bool;
  bj_safe_next_action : string }.

Record SyncBudgetStatus := mkSyncBudget {
  sb_schema_version : N;
  sb_rebase_on_join : bool;
  sb_deadline_ms : N;
  sb_command_timeout_ms : N;
  sb_reserve_ms_per_command : N;
  sb_deadline_command_slots : N;
  sb_max_admissible_members : option N;
  sb_capacity_defect : option CapacityDefect;
  sb_caravans : list CaravanBudgetProjection;
  sb_blocked_candidate : option PrNumber;
  sb_safe_next_action : string }.

Section projection.
Context (context : BudgetConfig).

Definition caravan_next_action (deadline members : N) (gate : CapacityGate)
    (admission : PhysicalApplyAdmission) : string :=
  if negb (physical_branch_rewrites_enabled context)
  then "physical chain rebuilding is disabled; no apply reserve applies"
  else
    let admitted := show_nat (length (pa_admitted_prs admission)) in
    match gate with
    | GateDefect defect =>
        fmt ["admission capacity is unsound and no drain can repair it: "; cd_safe_next_action defect]
    | GateAtCapacity bound =>
        fmt ["let this caravan drain before admitting another member: "; show_N members;
             " members already reach the "; show_N bound;
             "-member bound implied by sync.max_duration_secs="; show_N (as_secs deadline);
             "s and sync.reserve_secs_per_command="; show_N (reserve_secs_per_command context); "s"]
    | GateOpen _ =>
        if negb (makes_progress admission) then
          "no member can drain inside the configured deadline: raise sync.max_duration_secs or lower a proven-safe sync.reserve_secs_per_command before the next tick"
        else if negb (pa_deferred_convergence admission) then
          "one `cara sync --all` tick can apply and converge this caravan"
        else if bool_decide (pa_deferred admission = []) then
          fmt ["run `cara sync --all`; one tick applies all "; admitted;
               " member(s) and converges them on the next tick without replaying completed rewrites"]
        else
          fmt ["run `cara sync --all`; one tick applies "; admitted; " of "; show_N members;
               " member(s) and resumes the rest next tick without replaying completed rewrites"]
    end.

(** The body of the loop over the selected caravans. *)
Definition project_caravan (status : BudgetStatusInput) (deadline : N) (caravan : Caravan)
    : option CaravanBudgetProjection :=
  let chains := chain_costs_from_status status [caravan] in
  let worst := complete_budget context chains in
  let retained_budget := complete_budget context (retained_chain <$> chains) in
  admission ← admit_physical_prefix context chains deadline;
  let members := count_u64 (length (cv_members caravan)) in
  let gate := capacity_gate context deadline members in
  Some (mkProjection (cv_id caravan) (cv_members caravan) (pb_command_slots worst)
    (duration_millis (pb_required worst)) (pb_command_slots retained_budget)
    (duration_millis (pb_required retained_budget)) (pa_admitted_prs admission) (pa_deferred admission)
    (pa_deferred_convergence admission)
    (match gate with GateAtCapacity _ => true | _ => false end)
    (caravan_next_action deadline members gate admission)).

Definition budget_next_action (deadline : N) (blocked_candidate : option PrNumber)
    (projections : list CaravanBudgetProjection) : string :=
  let capacity := admission_capacity context deadline in
  match opt_filter (λ _, is_some_b blocked_candidate) (configured_batch_bound context) with
  | Some bound =>
      fmt ["every caravan holds the configured "; show_N bound;
           "-member batch bound (max_caravan_length); admission opens another caravan rather than extending a full batch"]
  | None =>
      if negb (physical_branch_rewrites_enabled context)
      then "physical chain rebuilding is disabled; no apply reserve applies"
      else
        match capacity with
        | Err defect =>
            fmt ["admission capacity is unsound, so joins fail loudly with "; cd_code defect;
                 " instead of being quietly gated; draining cannot repair it: "; cd_safe_next_action defect]
        | Ok bound =>
            if is_some_b blocked_candidate then
              fmt ["every caravan holds the "; show_N bound;
                   "-member bound implied by the configured deadline; admission stays closed with caravan_budget_capacity_exhausted until a caravan drains"]
            else if existsb bj_deferred_convergence projections then
              "run `cara sync --all`; bounded prefixes apply now and the remaining members plus ordinary convergence resume on the next tick"
            else "run `cara sync --all`; every selected caravan fits one tick"
        end
  end.

Definition project (status : BudgetStatusInput) (selected : list Caravan) (deadline : N)
    : option SyncBudgetStatus :=
  let rebase_on_join := physical_branch_rewrites_enabled context in
  let batch_bound := configured_batch_bound context in
  let capacity := admission_capacity context deadline in
  projections ← mapM (project_caravan status deadline) selected;
  let blocked_candidate :=
    opt_filter (λ _, (rebase_on_join || is_some_b batch_bound) && negb (bool_decide (length projections = O))
                     && forallb bj_at_capacity projections)
      (as_next_candidate (bi_admission status)) in
  Some (mkSyncBudget 2 rebase_on_join (duration_millis deadline)
    (sat_mul (bc_command_timeout_secs context) 1000)
    (sat_mul (reserve_secs_per_command context) 1000) (deadline_command_slots context deadline)
    (match batch_bound, capacity with
     | Some batch, Ok dynamic => if rebase_on_join then Some (N.min batch dynamic) else Some batch
     | Some batch, Err _ => Some batch
     | None, Ok dynamic => Some dynamic
     | None, Err _ => None
     end)
    (match capacity with Err defect => if rebase_on_join then Some defect else None | Ok _ => None end)
    projections blocked_candidate (budget_next_action deadline blocked_candidate projections)).

Definition project_status (status : BudgetStatusInput) : option SyncBudgetStatus :=
  let deadline := sync_operation_budget context in
  let selected :=
    List.filter (λ caravan, negb (existsb (λ pause, is_effective pause.1 && N.eqb pause.2 (cv_id caravan))
                                    (bi_pauses status)))
      (List.filter (λ caravan, negb (cv_parked caravan)) (fl_caravans (ga_fleet (bi_analysis status)))) in
  project status selected deadline.
End projection.
