(* ===== verification/BudgetProofs.v ===== *)
(** What the apply reserve promises: the admitted prefix fits, nothing more of
    any chain would fit, the admission bound is the exact capacity of the
    deadline, and the gate never refuses what no drain could cure. *)

From Stdlib Require Import String.
From S2P Require Import Prelude Text Model Graph Selection Budget.

#[local] Open Scope string_scope.
#[local] Open Scope list_scope.
#[local] Open Scope N_scope.

(** ** Saturating sums *)

Definition sumN (l : list N) : N := foldr N.add 0 l.

Lemma sat_sum_min l : sat_sum l = N.min u64_max (sumN l).
Proof.
  unfold sat_sum. assert (∀ a, a ≤ u64_max → foldl sat_add a l = N.min u64_max (a + sumN l)) as H.
  { induction l as [|x l IH]; intros a Ha; cbn [foldl sumN]; [unfold sumN; cbn; lia|].
    change (sumN (x :: l)) with (x + sumN l).
    rewrite IH by apply N.le_min_l. unfold sat_add. clear IH. lia. }
  rewrite H by lia. by rewrite N.add_0_l.
Qed.

Lemma sumN_sublist l k : l `sublist_of` k → sumN l ≤ sumN k.
Proof. unfold sumN. induction 1; cbn; lia. Qed.

Lemma sumN_Forall2 l k : Forall2 N.le l k → sumN l ≤ sumN k.
Proof. unfold sumN. induction 1; cbn; lia. Qed.

Lemma sat_sum_sublist l k : l `sublist_of` k → sat_sum l ≤ sat_sum k.
Proof. intros H%sumN_sublist. rewrite !sat_sum_min. lia. Qed.

Lemma sat_sum_Forall2 l k : Forall2 N.le l k → sat_sum l ≤ sat_sum k.
Proof. intros H%sumN_Forall2. rewrite !sat_sum_min. lia. Qed.

Lemma sublist_fmap {A B} (f : A → B) l k : l `sublist_of` k → (f <$> l) `sublist_of` (f <$> k).
Proof. induction 1; cbn; by constructor. Qed.

Lemma sublist_concat {A} (ls ks : list (list A)) : Forall2 sublist ls ks → concat ls `sublist_of` concat ks.
Proof. induction 1; cbn; [constructor|]. by apply sublist_app. Qed.

Lemma take_sublist {A} n m (l : list A) : (n ≤ m)%nat → take n l `sublist_of` take m l.
Proof.
  revert m l. induction n as [|n IH]; intros m l Hle; [apply sublist_nil_l|].
  destruct m as [|m]; [lia|]. destruct l as [|x l]; cbn; [constructor|].
  constructor. apply IH. lia.
Qed.

Lemma round_maxima_mono_aux n l k : (length l ≤ n)%nat →
  Forall2 N.le l k → Forall2 N.le (round_maxima l) (round_maxima k).
Proof.
  revert l k. induction n as [|n IH]; intros l k Hlen H.
  { destruct H; [constructor|cbn in Hlen; lia]. }
  destruct H as [|a b l k Hab H]; [constructor|]. destruct H as [|a' b' l k Hab' H].
  - cbn. by constructor.
  - cbn. constructor; [lia|]. apply IH; [cbn in Hlen; lia|done].
Qed.

Lemma round_maxima_mono l k : Forall2 N.le l k → Forall2 N.le (round_maxima l) (round_maxima k).
Proof. by apply (round_maxima_mono_aux (length l)). Qed.

(** ** The reserve grows with the prefix *)

Section context.
Context (context : BudgetConfig).
Implicit Types (chains : list ChainCost) (admitted : list nat) (g : Growth).

Definition below (a b : list nat) : Prop := ∀ i, (admitted_at a i ≤ admitted_at b i)%nat.

#[local] Instance below_preorder : PreOrder below.
Proof.
  split; [intros a i; done|]. intros a b c Hab Hbc i. specialize (Hab i). specialize (Hbc i). lia.
Qed.

Lemma per_chain_Forall2 {A} (R : A → A → Prop) (f : ChainCost → nat → A) chains a b :
  (∀ c n m, (n ≤ m)%nat → R (f c n) (f c m)) → below a b →
  Forall2 R (per_chain f chains a) (per_chain f chains b).
Proof.
  intros Hf Hab. unfold per_chain. apply Forall2_same_length_lookup_2.
  - by rewrite !length_imap.
  - intros i x y. rewrite !list_lookup_imap. destruct (chains !! i) as [c|]; cbn; [|done].
    intros [= <-] [= <-]. apply Hf, Hab.
Qed.

Lemma budget_mono chains a b : below a b →
  pb_required (budget_for context chains a BoundedPrefix) ≤
  pb_required (budget_for context chains b BoundedPrefix).
Proof.
  intros Hab. cbn. unfold slots_to_duration, from_secs. apply N.mul_le_mono_r, sat_mul_mono; [done|].
  apply sat_add_mono; [|done]. apply sat_add_mono; [|done]. apply sat_add_mono.
  - apply sat_sum_sublist, sublist_fmap, sublist_concat.
    apply per_chain_Forall2; [|done]. intros c n m. apply take_sublist.
  - apply sat_sum_Forall2, round_maxima_mono, per_chain_Forall2; [|done].
    intros c n m Hle. by apply sat_sum_sublist, sublist_fmap, take_sublist.
Qed.

Lemma fits_mono chains a b remaining : below a b →
  fits (budget_for context chains b BoundedPrefix) remaining = true →
  fits (budget_for context chains a BoundedPrefix) remaining = true.
Proof.
  intros Hab%(budget_mono chains). unfold fits, duration_add. rewrite !N.ltb_lt. lia.
Qed.

(** ** The growth loop *)

Lemma admitted_at_insert admitted i n j : (i < length admitted)%nat →
  admitted_at (<[i := n]> admitted) j = if decide (i = j) then n else admitted_at admitted j.
Proof.
  intros Hi. unfold admitted_at. case_decide as Hij; [subst|].
  - by rewrite list_lookup_insert_eq.
  - by rewrite list_lookup_insert_ne.
Qed.

Definition chain_length chains (i : nat) : nat :=
  match chains !! i with Some chain => length (cc_members chain) | None => O end.

(** The invariant of the loop. *)
Record growing chains (remaining : N) g : Prop := {
  gr_admitted : length (gw_admitted g) = length chains;
  gr_saturated : length (gw_saturated g) = length chains;
  gr_prefix i : (admitted_at (gw_admitted g) i ≤ chain_length chains i)%nat;
  gr_budget : gw_budget g = budget_for context chains (gw_admitted g) BoundedPrefix;
  gr_fits : (∀ i, admitted_at (gw_admitted g) i = O) ∨ fits (gw_budget g) remaining = true;
  gr_maximal i : gw_saturated g !! i = Some true →
    admitted_at (gw_admitted g) i = chain_length chains i ∨
    fits (budget_for context chains (<[i := S (admitted_at (gw_admitted g) i)]> (gw_admitted g))
            BoundedPrefix) remaining = false }.

Lemma initial_growing chains remaining : growing chains remaining (initial_growth context chains).
Proof.
  assert (∀ i, admitted_at (replicate (length chains) O) i = O) as H0.
  { intros i. unfold admitted_at. destruct (_ !! i) as [n|] eqn:E; [|done].
    by apply lookup_replicate in E as [-> _]. }
  split; cbn; try done; try by rewrite length_replicate.
  - intros i. rewrite H0. lia.
  - by left.
  - intros i [? _]%lookup_replicate. done.
Qed.

Lemma insert_below admitted admitted' i : below admitted admitted' →
  length admitted = length admitted' → admitted_at admitted i = admitted_at admitted' i →
  below (<[i := S (admitted_at admitted i)]> admitted) (<[i := S (admitted_at admitted' i)]> admitted').
Proof.
  intros Hb Hl Hi j. destruct (decide (i < length admitted)%nat) as [Hlt|Hge].
  - rewrite !admitted_at_insert by lia. case_decide; [lia|apply Hb].
  - rewrite !list_insert_ge by lia. apply Hb.
Qed.

(** One turn: the invariant holds, and the chain is saturated or grew by one. *)
Lemma visit_growing chains remaining g i : (i < length chains)%nat → growing chains remaining g →
  let g' := visit context chains remaining g i in
  growing chains remaining g' ∧
  (gw_saturated g' !! i = Some true ∨
   admitted_at (gw_admitted g') i = S (admitted_at (gw_admitted g) i)) ∧
  (gw_saturated g !! i = Some true → gw_saturated g' !! i = Some true) ∧
  (∀ j, j ≠ i → gw_saturated g' !! j = gw_saturated g !! j ∧
     admitted_at (gw_admitted g') j = admitted_at (gw_admitted g) j).
Proof.
  intros Hi Hg. pose proof Hg as [L1 L2 Hp Hb Hf Hm]. cbv zeta. unfold visit.
  destruct (gw_saturated g !! i) as [s|] eqn:Hs; cbn [default].
  2: { apply lookup_ge_None in Hs. lia. }
  destruct s; cbn.
  { split_and!; try done. by left. }
  assert (∀ P, growing chains remaining g →
    (admitted_at (gw_admitted g) i = chain_length chains i ∨
     fits (budget_for context chains (<[i := S (admitted_at (gw_admitted g) i)]> (gw_admitted g))
       BoundedPrefix) remaining = false) → P = saturate i g →
    growing chains remaining P ∧ (gw_saturated P !! i = Some true ∨
      admitted_at (gw_admitted P) i = S (admitted_at (gw_admitted g) i)) ∧
    (Some false = Some true → gw_saturated P !! i = Some true) ∧
    (∀ j, j ≠ i → gw_saturated P !! j = gw_saturated g !! j ∧
       admitted_at (gw_admitted P) j = admitted_at (gw_admitted g) j)) as Hsat.
  { intros P _ Hmax ->. split_and!.
    - split; cbn; try done; [by rewrite length_insert|]. intros j Hj.
      destruct (decide (i = j)) as [<-|Hne]; [done|]. rewrite list_lookup_insert_ne in Hj by done. by apply Hm.
    - left. cbn. apply list_lookup_insert_eq. lia.
    - done.
    - intros j Hj. cbn. by rewrite list_lookup_insert_ne. }
  fold (chain_length chains i).
  destruct (Nat.leb_spec (chain_length chains i) (admitted_at (gw_admitted g) i)) as [Hge|Hlt].
  { apply Hsat; [done| |done]. left. specialize (Hp i). lia. }
  destruct (fits (budget_for _ _ (<[i := _]> _) _) remaining) eqn:Hfit; [|apply Hsat; [done|by right|done]].
  assert (below (gw_admitted g) (<[i := S (admitted_at (gw_admitted g) i)]> (gw_admitted g))) as Hbelow.
  { intros j. rewrite admitted_at_insert by lia. case_decide; [subst; lia|lia]. }
  split_and!.
  - split; cbn; try done; [by rewrite length_insert| |by right|].
    + intros j. rewrite admitted_at_insert by lia. case_decide; [subst; lia|apply Hp].
    + intros j Hj. destruct (decide (i = j)) as [<-|Hne]; [congruence|].
      assert (admitted_at (<[i := S (admitted_at (gw_admitted g) i)]> (gw_admitted g)) j =
        admitted_at (gw_admitted g) j) as Heq by (rewrite admitted_at_insert by lia; by rewrite decide_False).
      destruct (Hm j Hj) as [Hfull|Hno]; [left; congruence|right].
      apply Bool.not_true_iff_false. intros Hyes. apply Bool.not_true_iff_false in Hno. apply Hno.
      eapply fits_mono; [|exact Hyes]. apply insert_below; [done|by rewrite length_insert|done].
  - right. cbn. rewrite admitted_at_insert by lia. by rewrite decide_True.
  - done.
  - intros j Hj. cbn. split; [done|]. rewrite admitted_at_insert by lia. by rewrite decide_False by congruence.
Qed.

(** After [k] sweeps an unsaturated chain has [k] members admitted. *)
Definition swept g (k : nat) : Prop :=
  ∀ i, (i < length (gw_saturated g))%nat → gw_saturated g !! i = Some true ∨ admitted_at (gw_admitted g) i = k.

Lemma foldl_visit chains remaining g k l : NoDup l → (∀ i, i ∈ l → (i < length chains)%nat) →
  growing chains remaining g →
  (∀ i, i ∈ l → gw_saturated g !! i = Some true ∨ admitted_at (gw_admitted g) i = k) →
  let g' := foldl (visit context chains remaining) g l in
  growing chains remaining g' ∧
  (∀ i, i ∈ l → gw_saturated g' !! i = Some true ∨ admitted_at (gw_admitted g') i = S k) ∧
  (∀ j, j ∉ l → gw_saturated g' !! j = gw_saturated g !! j ∧
     admitted_at (gw_admitted g') j = admitted_at (gw_admitted g) j).
Proof.
  revert g. induction l as [|i l IH]; intros g Hnd Hl Hg Hk; cbn.
  { split_and!; try done. intros i Hi. by apply elem_of_nil in Hi. }
  apply NoDup_cons in Hnd as [Hni Hnd].
  destruct (visit_growing chains remaining g i (Hl i ltac:(by left)) Hg) as (Hg1 & Hi & Hkeep & Hother).
  destruct (IH (visit context chains remaining g i) Hnd) as (Hg2 & Hin & Hout).
  - intros j Hj. apply Hl. by right.
  - done.
  - intros j Hj. assert (j ≠ i) as Hji by (intros ->; done).
    destruct (Hother j Hji) as [-> ->]. apply Hk. by right.
  - split_and!; [done| |].
    + intros j [->|Hj]%elem_of_cons; [|by apply Hin].
      destruct (Hout i Hni) as [-> ->]. destruct Hi as [?|Hi]; [by left|].
      destruct (Hk i ltac:(by left)) as [Hsat|<-]; [left; by apply Hkeep|by right].
    + intros j Hj. rewrite elem_of_cons in Hj.
      destruct (Hout j ltac:(tauto)) as [-> ->]. apply Hother. tauto.
Qed.

Lemma sweep_growing chains remaining g k : growing chains remaining g → swept g k →
  growing chains remaining (sweep context chains remaining g) ∧ swept (sweep context chains remaining g) (S k).
Proof.
  intros Hg Hk. unfold sweep.
  destruct (foldl_visit chains remaining g k (seq 0 (length chains))) as (Hg' & Hin & _).
  - apply NoDup_seq.
  - intros i Hi%elem_of_seq. lia.
  - done.
  - intros i Hi%elem_of_seq. apply Hk. rewrite (gr_saturated _ _ _ Hg). lia.
  - split; [done|]. intros i Hi. apply Hin, elem_of_seq. rewrite (gr_saturated _ _ _ Hg') in Hi. lia.
Qed.

Lemma chain_length_max chains i : (chain_length chains i ≤ foldr Nat.max O (complete_prefix chains))%nat.
Proof.
  unfold chain_length. revert i. induction chains as [|c chains IH]; intros i; [apply Nat.le_0_l|].
  change (complete_prefix (c :: chains)) with (length (cc_members c) :: complete_prefix chains).
  cbn [foldr]. destruct i as [|i]; [cbn; lia|]. specialize (IH i).
  change ((c :: chains) !! S i) with (chains !! i). lia.
Qed.

Lemma all_saturated chains remaining g i : growing chains remaining g →
  existsb negb (gw_saturated g) = false → (i < length chains)%nat → gw_saturated g !! i = Some true.
Proof.
  intros Hg Hex Hi. destruct (gw_saturated g !! i) as [[]|] eqn:E; [done| |].
  - assert (existsb negb (gw_saturated g) = true) as Hyes; [|congruence].
    apply existsb_elem_of. exists false. split; [by eapply list_elem_of_lookup_2|done].
  - apply lookup_ge_None in E. rewrite (gr_saturated _ _ _ Hg) in E. lia.
Qed.

Lemma grow_prefix_total chains remaining fuel k g : growing chains remaining g → swept g k →
  (growth_fuel chains ≤ fuel + k)%nat →
  ∃ g', grow_prefix context fuel chains remaining g = Some g' ∧ growing chains remaining g' ∧
    ∀ i, (i < length chains)%nat → gw_saturated g' !! i = Some true.
Proof.
  revert k g. induction fuel as [|fuel IH]; intros k g Hg Hk Hfuel; cbn [grow_prefix].
  all: destruct (existsb negb (gw_saturated g)) eqn:Hex.
  - exfalso. apply existsb_elem_of in Hex as (b & Hb & Hneg). destruct b; [done|].
    apply list_elem_of_lookup in Hb as [i Hi].
    destruct (Hk i) as [Ht|Ha]; [by apply lookup_lt_Some in Hi|congruence|].
    pose proof (gr_prefix _ _ _ Hg i) as Hp. pose proof (chain_length_max chains i) as Hm.
    unfold growth_fuel in Hfuel. lia.
  - exists g. split; [done|]. split; [done|]. intros i. by apply (all_saturated chains remaining).
  - destruct (sweep_growing chains remaining g k Hg Hk) as [Hg' Hk'].
    apply (IH (S k)); [done|done|lia].
  - exists g. split; [done|]. split; [done|]. intros i. by apply (all_saturated chains remaining).
Qed.

(** ** The admitted prefix *)

Lemma admitted_full chains i : admitted_at (complete_prefix chains) i = chain_length chains i.
Proof.
  unfold admitted_at, complete_prefix, chain_length. rewrite list_lookup_fmap. by destruct (chains !! i).
Qed.

Lemma concat_imap_perm {A B} (f g : nat → A → list B) (h : A → list B) l :
  (∀ i x, f i x ++ g i x = h x) → concat (imap f l) ++ concat (imap g l) ≡ₚ concat (h <$> l).
Proof.
  revert f g. induction l as [|x l IH]; intros f g Hfg; [done|].
  rewrite !imap_cons, fmap_cons. cbn [concat]. rewrite <- (Hfg O x), <- (IH (f ∘ S) (g ∘ S)) by (intros; apply Hfg).
  solve_Permutation.
Qed.

Lemma admitted_deferred_perm chains admitted :
  admitted_members chains admitted ++ deferred_members chains admitted ≡ₚ
  mc_pr <$> concat (cc_members <$> chains).
Proof.
  unfold admitted_members, deferred_members, per_chain.
  rewrite (concat_imap_perm _ _ (λ c, mc_pr <$> cc_members c)).
  - change (mc_pr <$> concat (cc_members <$> chains)) with (map mc_pr (concat (map cc_members chains))).
    by rewrite concat_map, map_map.
  - intros i c. by rewrite <- fmap_app, take_drop.
Qed.

Lemma deferred_full chains : deferred_members chains (complete_prefix chains) = [].
Proof.
  unfold deferred_members, per_chain. apply concat_nil_Forall, Forall_lookup_2. intros i l.
  rewrite list_lookup_imap, admitted_full. unfold chain_length. destruct (chains !! i) as [c|]; cbn; [|done].
  intros [= <-]. by rewrite drop_all.
Qed.

Lemma admitted_none chains admitted : (∀ i, admitted_at admitted i = O) → admitted_members chains admitted = [].
Proof.
  intros H0. unfold admitted_members, per_chain. apply concat_nil_Forall, Forall_lookup_2. intros i l.
  rewrite list_lookup_imap. destruct (chains !! i) as [c|]; cbn; [|done]. rewrite H0. by intros [= <-].
Qed.

Lemma initial_swept chains : swept (initial_growth context chains) 0.
Proof.
  intros i Hi. right. unfold admitted_at. cbn. destruct (_ !! i) as [n|] eqn:E; [|done].
  by apply lookup_replicate in E as [-> _].
Qed.

Lemma grown_maximal chains remaining g b i : growing chains remaining g →
  gw_saturated g !! i = Some true → below (gw_admitted g) b → (admitted_at b i ≤ chain_length chains i)%nat →
  fits (budget_for context chains b BoundedPrefix) remaining = true →
  admitted_at b i = admitted_at (gw_admitted g) i.
Proof.
  intros Hg Hsat Hb Hlen Hfit. destruct (gr_maximal _ _ _ Hg i Hsat) as [Hfull|Hno]; [specialize (Hb i); lia|].
  destruct (decide (admitted_at b i = admitted_at (gw_admitted g) i)) as [|Hne]; [done|]. exfalso.
  apply Bool.not_true_iff_false in Hno. apply Hno. eapply fits_mono; [|exact Hfit].
  assert (i < length (gw_admitted g))%nat as Hi.
  { rewrite (gr_admitted _ _ _ Hg), <- (gr_saturated _ _ _ Hg). by eapply lookup_lt_Some. }
  intros j. rewrite admitted_at_insert by done. case_decide as Hij; [subst j|apply Hb].
  specialize (Hb i). lia.
Qed.

(** C38. For every list of chains and every remaining time the admission
    terminates and admits, of each chain, a prefix from the root: admitted and
    deferred members are together exactly the members. When the complete
    reserve fits, everything is admitted under it. Otherwise the admitted
    prefix is charged its own reserve, which fits unless nothing is admitted,
    and it is maximal: no pointwise larger prefix of the chains would fit. *)
Theorem admitted_prefix_is_maximal chains remaining :
  ∃ a, admit_physical_prefix context chains remaining = Some a ∧
    length (pa_admitted a) = length chains ∧
    pa_admitted_prs a = concat (per_chain (λ chain n, mc_pr <$> take n (cc_members chain)) chains (pa_admitted a)) ∧
    pa_admitted_prs a ++ pa_deferred a ≡ₚ mc_pr <$> concat (cc_members <$> chains) ∧
    if fits (complete_budget context chains) remaining
    then pa_deferred a = [] ∧ pa_budget a = complete_budget context chains
    else pa_budget a = budget_for context chains (pa_admitted a) BoundedPrefix ∧
      (pa_admitted_prs a = [] ∨ fits (pa_budget a) remaining = true) ∧
      ∀ b, below (pa_admitted a) b → (∀ i, (admitted_at b i ≤ chain_length chains i)%nat) →
        fits (budget_for context chains b BoundedPrefix) remaining = true →
        ∀ i, admitted_at b i = admitted_at (pa_admitted a) i.
Proof.
  unfold admit_physical_prefix. destruct (fits (complete_budget context chains) remaining).
  { eexists. split; [done|]. cbn [pa_admitted pa_admitted_prs pa_deferred pa_budget]. split_and!; try done.
    - unfold complete_prefix. by rewrite length_fmap.
    - by rewrite <- (deferred_full chains), admitted_deferred_perm. }
  destruct (grow_prefix_total chains remaining (growth_fuel chains) 0 (initial_growth context chains))
    as (g & -> & Hg & Hsat); [apply initial_growing|apply initial_swept|lia|].
  eexists. split; [done|]. cbn [pa_admitted pa_admitted_prs pa_deferred pa_budget]. split_and!.
  - apply (gr_admitted _ _ _ Hg).
  - done.
  - apply admitted_deferred_perm.
  - apply (gr_budget _ _ _ Hg).
  - destruct (gr_fits _ _ _ Hg) as [H0|Hf]; [left; by apply admitted_none|by right].
  - intros b Hb Hlen Hfit i. destruct (decide (i < length chains)%nat) as [Hi|Hi].
    + by eapply grown_maximal; eauto.
    + specialize (Hlen i). specialize (Hb i). unfold chain_length in Hlen.
      rewrite (proj2 (lookup_ge_None chains i)) in Hlen by lia. lia.
Qed.
End context.

(** ** Capacity *)

Lemma capacity_slots_linear n : 1 ≤ n → n ≤ MAX_CAPACITY_SEARCH_MEMBERS → capacity_command_slots n = 2 * n + 4.
Proof.
  unfold MAX_CAPACITY_SEARCH_MEMBERS, capacity_command_slots, sat_add, sat_mul, sat_sub,
    APPLY_SLOTS_PER_RETAINED, APPLY_SLOTS_PER_PENDING, FIXED_POST_WRITE_SLOTS, u64_max. lia.
Qed.

Lemma capacity_search_spec fuel slots size : 1 ≤ size →
  N.of_nat fuel + size = MAX_CAPACITY_SEARCH_MEMBERS + 1 →
  let r := capacity_search fuel slots (size - 1) size in
  size - 1 ≤ r ∧ r ≤ MAX_CAPACITY_SEARCH_MEMBERS ∧
  ∀ n, size ≤ n → n ≤ MAX_CAPACITY_SEARCH_MEMBERS → (n ≤ r ↔ capacity_command_slots n < slots).
Proof.
  revert size. induction fuel as [|fuel IH]; intros size H1 Hfuel; cbn [capacity_search].
  { split_and!; lia. }
  rewrite (proj2 (N.leb_le size MAX_CAPACITY_SEARCH_MEMBERS)) by lia.
  destruct (N.leb_spec slots (capacity_command_slots size)) as [Hle|Hlt].
  { cbv zeta. split_and!; [lia|lia|]. intros n Hn Hmax.
    rewrite capacity_slots_linear in * by lia. lia. }
  destruct (IH (size + 1)) as (Hlow & Hhigh & Hexact); [lia|lia|].
  rewrite N.add_sub in *. cbv zeta. split_and!; [lia|done|]. intros n Hn Hmax.
  destruct (N.eq_dec n size) as [->|Hne]; [lia|apply Hexact; lia].
Qed.

Section capacity.
Context (context : BudgetConfig).

Lemma computed_capacity_spec deadline :
  computed_capacity context deadline ≤ MAX_CAPACITY_SEARCH_MEMBERS ∧
  ∀ n, 1 ≤ n → n ≤ MAX_CAPACITY_SEARCH_MEMBERS →
    (n ≤ computed_capacity context deadline ↔ capacity_command_slots n < deadline_command_slots context deadline).
Proof.
  unfold computed_capacity.
  destruct (capacity_search_spec (N.to_nat MAX_CAPACITY_SEARCH_MEMBERS)
    (deadline_command_slots context deadline) 1) as (_ & H & Hexact); [lia|rewrite N2Nat.id; lia|done].
Qed.

(** The largest chain still guaranteed to drain is [n] members long. *)
Definition drains (deadline n : N) : Prop := capacity_command_slots n < deadline_command_slots context deadline.

(** The admission gate is exact for the configured deadline. It is open at
    a bound only when the caravan is under the bound and under the configured
    batch bound, and the caravan with one member more still drains within the
    deadline. It closes on an ordinary bound only when the batch bound is
    reached, or when the caravan has at least two members and one more would
    not drain or would pass the search limit: so no drain-proof closure is
    ever reported as fullness. It reports a defect exactly when a two-member
    chain does not drain; the self-contradictory gate is unreachable. *)
Theorem capacity_gate_is_exact deadline members :
  match capacity_gate context deadline members with
  | GateOpen bound =>
      members < bound ∧ drains deadline (members + 1) ∧ drains deadline MINIMUM_SOUND_CAPACITY ∧
      ∀ batch, configured_batch_bound context = Some batch → members < batch
  | GateAtCapacity bound =>
      bound ≤ members ∧ drains deadline MINIMUM_SOUND_CAPACITY ∧
      ((∃ batch, configured_batch_bound context = Some batch ∧ batch ≤ members) ∨
       2 ≤ members ∧ (¬ drains deadline (members + 1) ∨ MAX_CAPACITY_SEARCH_MEMBERS ≤ members))
  | GateDefect defect =>
      cd_code defect = "sync_budget_capacity_unsound" ∧ ¬ drains deadline MINIMUM_SOUND_CAPACITY
  end.
Proof.
  destruct (computed_capacity_spec deadline) as [Hmax Hexact]. unfold capacity_gate, admission_capacity, drains.
  assert (2 ≤ computed_capacity context deadline ↔ capacity_command_slots 2 < deadline_command_slots context deadline)
    as H2 by (apply Hexact; [lia|unfold MAX_CAPACITY_SEARCH_MEMBERS; lia]).
  unfold MINIMUM_SOUND_CAPACITY.
  destruct (N.ltb_spec (computed_capacity context deadline) 2) as [Hlow|Hok]; [split; [done|lia]|].
  set (bound := computed_capacity context deadline) in *. unfold gate_for_bound, MINIMUM_SOUND_CAPACITY.
  destruct (configured_batch_bound context) as [batch|]; [destruct (N.leb_spec batch members)|].
  { split_and!; [lia|by apply H2|left; by eauto]. }
  all: destruct (N.ltb_spec members bound) as [Hin|Hout];
    [split_and!; [done|apply Hexact; lia|by apply H2|congruence || (intros ? [= <-]; done)]|].
  all: destruct (N.ltb_spec members 2); [lia|]; split_and!; [done|by apply H2|right; split; [done|]].
  all: destruct (N.le_gt_cases MAX_CAPACITY_SEARCH_MEMBERS members); [by right|left].
  all: rewrite <- Hexact; lia.
Qed.

(** The deadline a capacity defect advises is exactly the least one: a
    deadline has a sound admission bound if and only if it reaches
    [minimum_sound_deadline], provided nine reserved commands do not overflow
    a 64-bit number of seconds. *)
Theorem advised_deadline_is_the_least deadline :
  9 * reserve_secs_per_command context ≤ u64_max →
  (∃ bound, admission_capacity context deadline = Ok bound) ↔ minimum_sound_deadline context ≤ deadline.
Proof.
  intros Hr. destruct (computed_capacity_spec deadline) as [_ Hexact].
  specialize (Hexact 2 ltac:(lia) ltac:(unfold MAX_CAPACITY_SEARCH_MEMBERS; lia)).
  transitivity (2 ≤ computed_capacity context deadline).
  { unfold admission_capacity, MINIMUM_SOUND_CAPACITY. destruct (N.ltb_spec (computed_capacity context deadline) 2).
    - split; [by intros [? [=]]|lia].
    - split; [done|by eauto]. }
  rewrite Hexact. unfold minimum_sound_deadline, deadline_command_slots, as_secs, from_secs, MINIMUM_SOUND_CAPACITY.
  change (capacity_command_slots 2) with 8. change (sat_add 8 1) with 9.
  unfold sat_mul. rewrite N.min_r by done. set (r := reserve_secs_per_command context) in *.
  destruct (N.eqb_spec r 0) as [->|Hne].
  { rewrite N.mul_0_r, N.mul_0_l. unfold u64_max. lia. }
  rewrite N.Div0.div_div.
  transitivity (9 ≤ deadline / (1000000000 * r)); [lia|].
  split; intros H.
  - etrans; [|apply (N.Div0.mul_div_le deadline (1000000000 * r))]. nia.
  - apply N.div_le_lower_bound; [lia|]. lia.
Qed.

End capacity.

(** A deadline of eight seconds is too short for commands reserved at one
    second, one of nine seconds suffices. *)
Definition one_second_commands : BudgetConfig := mkBudgetConfig 30 1 600 true StackCaravan None.

Lemma advised_deadline_is_the_least_witness :
  (∃ bound, admission_capacity one_second_commands (from_secs 9) = Ok bound) ↔
  minimum_sound_deadline one_second_commands ≤ from_secs 9.
Proof. apply (advised_deadline_is_the_least one_second_commands (from_secs 9)). vm_compute. discriminate. Defined.

(** ** Where the documentation and the code differ *)

(** The advised deadline can lie beyond every deadline the configuration
    accepts: with commands reserved at ten minutes the longest run permitted
    is refused, and the advice is to raise it to 5400 seconds. *)
Lemma advice_beyond_the_limit :
  let c := mkBudgetConfig 600 600 MAX_SYNC_OPERATION_SECS true StackCaravan None in
  (∃ d, admission_capacity c (sync_operation_budget c) = Err d) ∧
  from_secs MAX_SYNC_OPERATION_SECS < minimum_sound_deadline c.
Proof. cbv zeta. split; [|done]. eexists. by vm_compute. Qed.

(** Completing a prefix does not always make the next tick cheaper: with two
    chains in one parallel round, the longer chain decides the cost. *)
Lemma completed_prefix_same_cost :
  let c := mkBudgetConfig 30 1 600 true StackCaravan None in
  let long := mkChainCost 1 [mkMemberCost 1 true false; mkMemberCost 2 true false] 0 in
  let short b := mkChainCost 3 [mkMemberCost 3 b false] 0 in
  pb_required (complete_budget c [long; short false]) = pb_required (complete_budget c [long; short true]).
Proof. reflexivity. Qed.
