(* ===== verification/Mutations.v ===== *)
(** The records of primitive mutations: the step kinds and operation receipts
    of src/src/model.rs, and the provider receipt of src/src/github.rs. *)

From Stdlib Require Import String.
From S2P Require Import Prelude Text Model.

Inductive MutationKind :=
| CreatePullRequest | SetBase | AddLabel | RemoveLabel | SetLabels | ForceIntentTransaction | Comment
| EnableAutoMerge | DisableAutoMerge | RebaseBranch | RerunChecks | RequestCheckSuite | SquashMerge
| NativeStackLand | Checkout.
Inductive MutationStepState := StepCompleted | StepAlreadySatisfied.
#[export] Instance MutationStepState_eq_dec : EqDecision MutationStepState.
Proof. solve_decision. Defined.

Record MutationStep := mkMutationStep {
  ms_kind : MutationKind;
  ms_state : MutationStepState;
  ms_pr : option PrNumber;
  ms_summary : string }.
Record OperationReceipt := mkOperationReceipt {
  or_operation_id : string;
  or_operation : string;
  or_completed_steps : list MutationStep;
  or_changed : bool }.
Record GitHubMutationReceipt := mkMutationReceipt {
  gm_kind : MutationKind;
  gm_before : option PullRequestSnapshot;
  gm_after : PullRequestSnapshot;
  gm_provider_output : option string }.
