(* ===== verification/RootMerge.v ===== *)
(** The records and the gate of the caravan-owned merge:
    src/src/root_merge.rs. The serializers of the two receipts are parameters;
    the transaction that uses them is [Landing]. *)

From Stdlib Require Import Ascii String.
From S2P Require Import Prelude Text Model Generation.

#[local] Open Scope string_scope.
#[local] Open Scope list_scope.
#[local] Open Scope nat_scope.

Definition ROOT_PROMOTION_RECEIPT_SCHEMA_VERSION : N := 1.
Definition ROOT_MERGE_RECEIPT_SCHEMA_VERSION : N := 1.
Definition ROOT_MERGE_CONFIRMATION_READS : nat := 3.
Definition ROOT_MERGE_OWNER : string := "caravan-scheduler".
Definition ROOT_MERGE_COMPONENT : string := "cara sync".

Definition dquote : string := String (char_of 34) EmptyString.

(** ** Promotion triggers and failures *)

Inductive RootPromotionTrigger :=
  AlreadyOnDefaultBranch | MergedPredecessorRetarget | NonDefaultBaseRetarget.
#[export] Instance RootPromotionTrigger_eq_dec : EqDecision RootPromotionTrigger.
Proof. solve_decision. Defined.

Definition trigger_reason (self : RootPromotionTrigger) : string :=
  match self with
  | AlreadyOnDefaultBranch =>
      "exact current caravan root already targets the default branch"
  | MergedPredecessorRetarget =>
      "caravan root still targeted an already-merged predecessor branch; the default branch is the only valid merge target"
  | NonDefaultBaseRetarget =>
      "caravan root targeted a non-default branch intended only for child stacking"
  end.

Definition requires_write (self : RootPromotionTrigger) : bool :=
  match self with AlreadyOnDefaultBranch => false | _ => true end.

Inductive RootPromotionFailureCause :=
  BaseRetargetNotObserved | RootHeadMovedDuringPromotion | StaleProviderView.

Definition promotion_failure_code (self : RootPromotionFailureCause) : string :=
  match self with
  | BaseRetargetNotObserved =>
      "base_retarget_not_observed"
  | RootHeadMovedDuringPromotion =>
      "root_head_moved_during_promotion"
  | StaleProviderView =>
      "stale_provider_view"
  end.

Definition promotion_failure_next (self : RootPromotionFailureCause) : string :=
  match self with
  | BaseRetargetNotObserved =>
      "rerun the same idempotent bounded sync tick; root promotion converges without operator action"
  | RootHeadMovedDuringPromotion =>
      "rerun the same idempotent bounded sync tick against the fresh root generation"
  | StaleProviderView =>
      "rerun the same idempotent bounded sync tick once provider reads agree"
  end.

(** ** Waits and refusals of the merge *)

Inductive RootMergeBlock :=
  ChecksNotPassing | RequiredRunsNotSatisfied | NotOpen | NotConflictFreeWithDefault
| AlreadyMerged | CumulativeTreeUnproven | CumulativeTreeChanged | MergeBudgetReached.

Definition block_code (self : RootMergeBlock) : string :=
  match self with
  | ChecksNotPassing =>
      "checks_not_passing"
  | RequiredRunsNotSatisfied =>
      "required_runs_not_satisfied"
  | NotOpen =>
      "not_open"
  | NotConflictFreeWithDefault =>
      "not_conflict_free_with_default"
  | AlreadyMerged =>
      "already_merged"
  | CumulativeTreeUnproven =>
      "cumulative_tree_unproven"
  | CumulativeTreeChanged =>
      "cumulative_tree_changed"
  | MergeBudgetReached =>
      "merge_budget_reached"
  end.

Definition block_reason (self : RootMergeBlock) : string :=
  match self with
  | ChecksNotPassing =>
      "exact current root head has no complete successful check set yet"
  | RequiredRunsNotSatisfied =>
      "required contexts for the root's exact current base are not satisfied yet"
  | NotOpen =>
      "caravan root is not an open, non-draft pull request"
  | NotConflictFreeWithDefault =>
      "exact root head is not proven conflict-free with the exact default branch"
  | AlreadyMerged =>
      "caravan root is already merged; the next tick advances the root"
  | CumulativeTreeUnproven =>
      "no exact cumulative-tree proof for this root generation; the squash is not shown to land the already-validated tree"
  | CumulativeTreeChanged =>
      "the default branch gained content this generation never validated; the caravan must revalidate before landing"
  | MergeBudgetReached =>
      "bounded caravan-owned merges per tick reached; the next tick continues from fresh provider facts"
  end.

Inductive RootMergeFailureCause :=
  BaseNotDefaultBranch | RootHeadMovedBeforeMerge | ForeignAutoMergeActor
| ProviderDidNotPersistMerge | MergedIntoUnexpectedBase | MergeNotReachableFromDefault
| DefaultBranchDivergedFromRetainedPatchSet | UnmergedAncestorContainedByRoot | ForgeRefusesMerge.

Definition merge_failure_code (self : RootMergeFailureCause) : string :=
  match self with
  | BaseNotDefaultBranch =>
      "base_not_default_branch"
  | RootHeadMovedBeforeMerge =>
      "root_head_moved_before_merge"
  | ForeignAutoMergeActor =>
      "foreign_auto_merge_actor"
  | ProviderDidNotPersistMerge =>
      "provider_did_not_persist_merge"
  | MergedIntoUnexpectedBase =>
      "merged_into_unexpected_base"
  | MergeNotReachableFromDefault =>
      "merge_not_reachable_from_default"
  | DefaultBranchDivergedFromRetainedPatchSet =>
      "default_branch_diverged_from_retained_patch_set"
  | UnmergedAncestorContainedByRoot =>
      "unmerged_ancestor_contained_by_root"
  | ForgeRefusesMerge =>
      "forge_refuses_merge"
  end.

Definition resumable (self : RootMergeFailureCause) : bool :=
  match self with
  | MergedIntoUnexpectedBase | MergeNotReachableFromDefault
  | DefaultBranchDivergedFromRetainedPatchSet | UnmergedAncestorContainedByRoot => false
  | _ => true
  end.

Definition merge_failure_next (self : RootMergeFailureCause) : string :=
  match self with
  | BaseNotDefaultBranch =>
      "rerun the same idempotent bounded sync tick; promotion retargets the root to the default branch before any merge"
  | RootHeadMovedBeforeMerge =>
      "rerun the same idempotent bounded sync tick against the fresh root generation"
  | ForeignAutoMergeActor =>
      fmt ["disable the foreign auto-merge request, or set sync.external_auto_merge_policy="; dquote; "disable"; dquote; " so cara converges it, then rerun the same bounded sync tick"]
  | ProviderDidNotPersistMerge =>
      "rerun the same idempotent bounded sync tick; an already-merged root is observed as such and advances the caravan"
  | ForgeRefusesMerge =>
      "the forge still refuses this exact head even though required checks are green: inspect branch protection for an unsatisfied rule or a required review, then rerun the same bounded sync tick"
  | MergedIntoUnexpectedBase =>
      "inspect the provider merge receipt: the root landed on a branch other than the exact default branch and the caravan must be reconciled before further merges"
  | MergeNotReachableFromDefault =>
      "inspect the typed unreachable-merge evidence: the claimed merge commit is not contained by the fetched default branch, so the pull request stays open and recoverable rather than counted as delivered"
  | DefaultBranchDivergedFromRetainedPatchSet =>
      "prove or rescope this caravan's content against the exact default branch before it may land: an already-landed ancestor was reverted or discarded, so this generation still carries content the default branch deliberately no longer has"
  | UnmergedAncestorContainedByRoot =>
      "retire, merge, or remove the unmerged ancestor patch from this root and obtain fresh CI before retrying; never land a descendant that silently carries an evicted parent"
  end.

Inductive RootMergeGate :=
| Eligible
| Wait (block : RootMergeBlock)
| Refuse (cause : RootMergeFailureCause).

Inductive ExternalAutoMergePolicy := PolicyDisable | PolicyRefuse.
#[export] Instance ExternalAutoMergePolicy_eq_dec : EqDecision ExternalAutoMergePolicy.
Proof. solve_decision. Defined.
Definition external_policy_code (self : ExternalAutoMergePolicy) : string :=
  match self with PolicyDisable => "disable" | PolicyRefuse => "refuse" end.

(** ** Receipts *)

Record RootMergeProvenance := mkRootProvenance {
  rv_owner : string;
  rv_component : string;
  rv_operation_id : OperationId;
  rv_reason : string;
  rv_engine_mutated : bool;
  rv_observed_auto_merge : AutoMergeState }.

Record RootPromotionReceipt := mkPromotionReceipt {
  po_schema_version : N;
  po_repository : RepositoryId;
  po_caravan_id : PrNumber;
  po_pr : PrNumber;
  po_head : BranchSnapshot;
  po_base_before : BranchSnapshot;
  po_base_after : BranchSnapshot;
  po_default_branch : string;
  po_predecessor : option PrNumber;
  po_predecessor_merged : bool;
  po_trigger : RootPromotionTrigger;
  po_confirmation_reads : nat;
  po_provenance : RootMergeProvenance;
  po_evidence_hash : string }.

Definition with_promotion_hash (r : RootPromotionReceipt) (hash : string) : RootPromotionReceipt :=
  mkPromotionReceipt (po_schema_version r) (po_repository r) (po_caravan_id r) (po_pr r) (po_head r)
    (po_base_before r) (po_base_after r) (po_default_branch r) (po_predecessor r)
    (po_predecessor_merged r) (po_trigger r) (po_confirmation_reads r) (po_provenance r) hash.

Definition proves_default_base (self : RootPromotionReceipt) : bool :=
  String.eqb (br_name (po_base_after self)) (po_default_branch self).

Record RootAncestorContainmentEvidence := mkContainmentEvidence {
  an_pr : PrNumber;
  an_state : PullRequestState;
  an_head : BranchSnapshot;
  an_relation_to_root : CommitRelation;
  an_relation_to_default : CommitRelation }.

Record RootMergeAncestry := mkRootMergeAncestry {
  ay_default_before : BranchSnapshot;
  ay_default_after : BranchSnapshot;
  ay_merge_commit : option CommitOid;
  ay_cumulative_tree : option CumulativeTreeProof;
  ay_ancestor_containment : list RootAncestorContainmentEvidence;
  ay_predecessor : option PrNumber;
  ay_remaining_members : list PrNumber;
  ay_next_root : option PrNumber;
  ay_next_root_base_before : option string;
  ay_next_root_base_after : option string }.

Record RootMergeReceipt := mkRootMergeReceipt {
  ro_schema_version : N;
  ro_repository : RepositoryId;
  ro_caravan_id : PrNumber;
  ro_pr : PrNumber;
  ro_head : BranchSnapshot;
  ro_base : BranchSnapshot;
  ro_default_branch : string;
  ro_merge_method : MergeMethod;
  ro_merged : bool;
  ro_merged_at : option string;
  ro_ancestry : RootMergeAncestry;
  ro_confirmation_reads : nat;
  ro_provenance : RootMergeProvenance;
  ro_evidence_hash : string }.

Definition with_merge_hash (r : RootMergeReceipt) (hash : string) : RootMergeReceipt :=
  mkRootMergeReceipt (ro_schema_version r) (ro_repository r) (ro_caravan_id r) (ro_pr r) (ro_head r)
    (ro_base r) (ro_default_branch r) (ro_merge_method r) (ro_merged r) (ro_merged_at r)
    (ro_ancestry r) (ro_confirmation_reads r) (ro_provenance r) hash.

Definition proves_default_branch_landing (self : RootMergeReceipt) : bool :=
  ro_merged self && String.eqb (br_name (ro_base self)) (ro_default_branch self).

(** ** Decisions *)

Definition retained_patch_set_holds (default_branch_reachable_from_head
    default_branch_landed_by_this_tick : bool) : bool :=
  default_branch_reachable_from_head || default_branch_landed_by_this_tick.

Definition promotion_trigger (observed_base default_branch : string) (predecessor_merged : bool)
    : RootPromotionTrigger :=
  if String.eqb observed_base default_branch then AlreadyOnDefaultBranch
  else if predecessor_merged then MergedPredecessorRetarget
  else NonDefaultBaseRetarget.

Record RootMergeFacts := mkRootMergeFacts {
  rf_default_branch : string;
  rf_checks_passing : bool;
  rf_required_runs_satisfied : bool;
  rf_conflict_free_with_default : bool;
  rf_external_auto_merge : ExternalAutoMergePolicy }.

Definition merge_gate (observed : PullRequestSnapshot) (facts : RootMergeFacts) : RootMergeGate :=
  if state_is observed Merged then Wait AlreadyMerged
  else if negb (String.eqb (br_name (pr_base observed)) (rf_default_branch facts))
  then Refuse BaseNotDefaultBranch
  else if am_enabled (pr_auto_merge observed)
          && bool_decide (rf_external_auto_merge facts = PolicyRefuse)
  then Refuse ForeignAutoMergeActor
  else if negb (state_is observed Open) || pr_draft observed then Wait NotOpen
  else if negb (rf_conflict_free_with_default facts) then Wait NotConflictFreeWithDefault
  else if negb (rf_checks_passing facts) then Wait ChecksNotPassing
  else if negb (rf_required_runs_satisfied facts) then Wait RequiredRunsNotSatisfied
  else Eligible.

(** [provenance]. *)
Definition root_provenance (operation_id : OperationId) (reason : string) (engine_mutated : bool)
    (observed_auto_merge : AutoMergeState) : RootMergeProvenance :=
  mkRootProvenance ROOT_MERGE_OWNER ROOT_MERGE_COMPONENT operation_id reason engine_mutated
    observed_auto_merge.

Section serialized.
(** [serde_json::to_vec] on the receipts; [None] is a serializer error. *)
Context (promotion_json : RootPromotionReceipt → option (list N)).
Context (merge_json : RootMergeReceipt → option (list N)).

(** [RootPromotionReceipt::finalize_hash] and [hash_is_valid]; [None] is the
    panic of [expect]. *)
Definition finalize_promotion (self : RootPromotionReceipt) : option RootPromotionReceipt :=
  let cleared := with_promotion_hash self EmptyString in
  (λ material, with_promotion_hash cleared (fnv1a64 material)) <$> promotion_json cleared.

Definition promotion_hash_is_valid (self : RootPromotionReceipt) : bool :=
  is_some_and (promotion_json (with_promotion_hash self EmptyString))
    (λ bytes, String.eqb (fnv1a64 bytes) (po_evidence_hash self)).

(** [RootMergeReceipt::finalize_hash] and [hash_is_valid]. *)
Definition finalize_merge (self : RootMergeReceipt) : option RootMergeReceipt :=
  let cleared := with_merge_hash self EmptyString in
  (λ material, with_merge_hash cleared (fnv1a64 material)) <$> merge_json cleared.

Definition merge_hash_is_valid (self : RootMergeReceipt) : bool :=
  is_some_and (merge_json (with_merge_hash self EmptyString))
    (λ bytes, String.eqb (fnv1a64 bytes) (ro_evidence_hash self)).

Definition promotion_receipt (repository : RepositoryId) (caravan_id : PrNumber)
    (observed : PullRequestSnapshot) (base_before : BranchSnapshot) (default_branch : string)
    (predecessor : option PrNumber) (predecessor_merged : bool) (trigger : RootPromotionTrigger)
    (confirmation_reads : nat) (provenance : RootMergeProvenance) : option RootPromotionReceipt :=
  finalize_promotion (mkPromotionReceipt ROOT_PROMOTION_RECEIPT_SCHEMA_VERSION repository caravan_id
    (pr_number observed) (pr_head observed) base_before (pr_base observed) default_branch predecessor
    predecessor_merged trigger confirmation_reads provenance EmptyString).

Definition merge_receipt (repository : RepositoryId) (caravan_id : PrNumber)
    (observed : PullRequestSnapshot) (default_branch : string) (ancestry : RootMergeAncestry)
    (confirmation_reads : nat) (provenance : RootMergeProvenance) : option RootMergeReceipt :=
  finalize_merge (mkRootMergeReceipt ROOT_MERGE_RECEIPT_SCHEMA_VERSION repository caravan_id
    (pr_number observed) (pr_head observed) (pr_base observed) default_branch Squash
    (state_is observed Merged) (pr_merged_at observed) ancestry confirmation_reads provenance EmptyString).

(** ** Lemmas *)

Lemma with_promotion_hash_twice r a b :
  with_promotion_hash (with_promotion_hash r a) b = with_promotion_hash r b.
Proof. reflexivity. Qed.

Lemma with_merge_hash_twice r a b : with_merge_hash (with_merge_hash r a) b = with_merge_hash r b.
Proof. reflexivity. Qed.

Lemma promotion_receipt_spec repository caravan_id observed base_before default_branch predecessor
    merged trigger reads provenance r :
  promotion_receipt repository caravan_id observed base_before default_branch predecessor merged
    trigger reads provenance = Some r →
  promotion_hash_is_valid r = true ∧ po_pr r = pr_number observed ∧ po_head r = pr_head observed
  ∧ po_base_after r = pr_base observed ∧ po_default_branch r = default_branch
  ∧ po_base_before r = base_before ∧ po_provenance r = provenance.
Proof.
  unfold promotion_receipt, finalize_promotion, promotion_hash_is_valid. intros Hr.
  apply fmap_Some in Hr as (bytes & Hb & ->). rewrite !with_promotion_hash_twice in *.
  split; [rewrite Hb; cbn [is_some_and]; apply String.eqb_refl | done].
Qed.

Lemma merge_receipt_spec repository caravan_id observed default_branch ancestry reads provenance r :
  merge_receipt repository caravan_id observed default_branch ancestry reads provenance = Some r →
  merge_hash_is_valid r = true ∧ ro_pr r = pr_number observed ∧ ro_head r = pr_head observed
  ∧ ro_base r = pr_base observed ∧ ro_default_branch r = default_branch
  ∧ ro_merged r = state_is observed Merged ∧ ro_ancestry r = ancestry.
Proof.
  unfold merge_receipt, finalize_merge, merge_hash_is_valid. intros Hr.
  apply fmap_Some in Hr as (bytes & Hb & ->). rewrite !with_merge_hash_twice in *.
  split; [rewrite Hb; cbn [is_some_and]; apply String.eqb_refl | done].
Qed.
End serialized.

Lemma merge_gate_eligible observed facts :
  merge_gate observed facts = Eligible ↔
  pr_state observed = Open ∧ pr_draft observed = false
  ∧ br_name (pr_base observed) = rf_default_branch facts
  ∧ (am_enabled (pr_auto_merge observed) = true → rf_external_auto_merge facts = PolicyDisable)
  ∧ rf_conflict_free_with_default facts = true ∧ rf_checks_passing facts = true
  ∧ rf_required_runs_satisfied facts = true.
Proof.
  unfold merge_gate. split.
  - destruct (state_is observed Merged); [done |].
    destruct (String.eqb_spec (br_name (pr_base observed)) (rf_default_branch facts)) as [Hb |]; [| done].
    cbn [negb]. destruct (am_enabled _ && _) eqn:Ha; [done |].
    destruct (state_is observed Open) eqn:Ho; [| done]. apply state_is_true in Ho.
    destruct (pr_draft observed); [done |]. cbn [negb orb].
    destruct (rf_conflict_free_with_default facts); [| done].
    destruct (rf_checks_passing facts); [| done].
    destruct (rf_required_runs_satisfied facts); [| done]. intros _. repeat split; try done.
    intros He. rewrite He in Ha. cbn [andb] in Ha. apply bool_decide_eq_false in Ha.
    by destruct (rf_external_auto_merge facts).
  - intros (Ho & Hd & Hb & Hp & Hc & Hp1 & Hr).
    unfold state_is. rewrite Ho, Hd, Hb, String.eqb_refl, Hc, Hp1, Hr.
    destruct (am_enabled _); [by rewrite Hp | done].
Qed.
