(* ===== verification/Effects.v ===== *)
(** A state and error monad for the code that threads an effectful world and
    propagates errors with [?]: [M W E A] runs in a world [W], and returns a
    value or an error with the world it leaves. An error keeps the effects
    made before it, as in the source. *)

From S2P Require Import Prelude.

#[local] Open Scope caravan_scope.

Definition M (W E A : Type) : Type := W → result A E * W.

Section monad.
Context {W E : Type}.

Definition ret {A} (a : A) : M W E A := λ w, (Ok a, w).
Definition throw {A} (e : E) : M W E A := λ w, (Err e, w).
Definition bind {A B} (m : M W E A) (f : A → M W E B) : M W E B := λ w,
  match m w with
  | (Ok a, w) => f a w
  | (Err e, w) => (Err e, w)
  end.
(** A result computed without effects, and the [?] on it. *)
Definition lift {A} (r : result A E) : M W E A := λ w, (r, w).
(** An early return of an error. *)
Definition ensure (b : bool) (e : E) : M W E unit := λ w, (if b then Ok () else Err e, w).
(** A call whose outcome the caller inspects, and a read of the world. *)
Definition capture {A} (m : M W E A) : M W E (result A E) := λ w, let (r, w) := m w in (Ok r, w).
Definition ask {A} (f : W → A) : M W E A := λ w, (Ok (f w), w).
End monad.

Declare Scope effect_scope.
Delimit Scope effect_scope with effect.
Notation "'let*' x ':=' m 'in' k" := (bind m (λ x, k))
  (at level 10, x binder, m at level 100, k at level 200) : effect_scope.
Notation "'do*' m 'in' k" := (bind m (λ _, k))
  (at level 10, m at level 100, k at level 200) : effect_scope.

(** ** How a computation that returned got there *)

Section laws.
Context {W E : Type}.
Implicit Types w : W.

Lemma bind_ok_inv {A B} (m : M W E A) (f : A → M W E B) w b w' :
  bind m f w = (Ok b, w') → ∃ a w1, m w = (Ok a, w1) ∧ f a w1 = (Ok b, w').
Proof. unfold bind. destruct (m w) as [[a | e] w1]; intros Hb; [eauto | congruence]. Qed.

Lemma bind_err_inv {A B} (m : M W E A) (f : A → M W E B) w e w' :
  bind m f w = (Err e, w') →
  m w = (Err e, w') ∨ ∃ a w1, m w = (Ok a, w1) ∧ f a w1 = (Err e, w').
Proof.
  unfold bind. destruct (m w) as [[a | e'] w1]; intros Hb; [right; eauto | left; congruence].
Qed.

Lemma bind_cases {A B} (m : M W E A) (f : A → M W E B) w r w' :
  bind m f w = (r, w') →
  (∃ e, m w = (Err e, w') ∧ r = Err e) ∨ ∃ a w1, m w = (Ok a, w1) ∧ f a w1 = (r, w').
Proof.
  unfold bind. destruct (m w) as [[a | e] w1]; [right; eauto | intros [= <- <-]; left; eauto].
Qed.

Lemma bind_ok {A B} (m : M W E A) (f : A → M W E B) w a w1 :
  m w = (Ok a, w1) → bind m f w = f a w1.
Proof. unfold bind. by intros ->. Qed.

Lemma bind_err {A B} (m : M W E A) (f : A → M W E B) w e w1 :
  m w = (Err e, w1) → bind m f w = (Err e, w1).
Proof. unfold bind. by intros ->. Qed.

Lemma bind_lift_ok {A B} (a : A) (f : A → M W E B) w : bind (lift (Ok a)) f w = f a w.
Proof. done. Qed.

Lemma bind_ensure_true {B} (e : E) (f : unit → M W E B) w : bind (ensure true e) f w = f () w.
Proof. done. Qed.

Lemma ensure_ok b (e : E) w u w' : ensure b e w = (Ok u, w') → b = true ∧ w' = w.
Proof. unfold ensure. destruct b; intros Hb; by simplify_eq. Qed.

Lemma lift_ok {A} (r : result A E) w a w' : lift r w = (Ok a, w') → r = Ok a ∧ w' = w.
Proof. unfold lift. intros Hb. by simplify_eq. Qed.

(** A call returned without an error: the world it left is one of [Q]'s; it
    returned an error: the world is one of [R]'s. *)
Definition triple {A} (P : W → Prop) (m : M W E A) (Q : A → W → Prop) (R : E → W → Prop) : Prop :=
  ∀ w, P w → match m w with (Ok a, w') => Q a w' | (Err e, w') => R e w' end.

Lemma triple_bind {A B} P (m : M W E A) (f : A → M W E B) Q Q' R :
  triple P m Q R → (∀ a, triple (Q a) (f a) Q' R) → triple P (bind m f) Q' R.
Proof.
  unfold triple, bind. intros Hm Hf w Hw. specialize (Hm w Hw).
  destruct (m w) as [[a | e] w1]; [by apply Hf | done].
Qed.

Lemma triple_weaken {A} (P P' : W → Prop) (m : M W E A) (Q Q' : A → W → Prop) (R R' : E → W → Prop) :
  triple P' m Q' R' → (∀ w, P w → P' w) → (∀ a w, Q' a w → Q a w) → (∀ e w, R' e w → R e w) →
  triple P m Q R.
Proof.
  unfold triple. intros Hm HP HQ HR w Hw. specialize (Hm w (HP w Hw)).
  destruct (m w) as [[a | e] w1]; auto.
Qed.

Lemma triple_ret {A} (P : W → Prop) (a : A) (Q : A → W → Prop) R :
  (∀ w, P w → Q a w) → triple P (ret (E := E) a) Q R.
Proof. intros H w. apply H. Qed.

Lemma triple_throw {A} (P : W → Prop) e (Q : A → W → Prop) (R : E → W → Prop) :
  (∀ w, P w → R e w) → triple P (throw e) Q R.
Proof. intros H w. apply H. Qed.

(** A call without effects only learns something of its value. *)
Lemma triple_lift {A} (P : W → Prop) (r : result A E) (R : E → W → Prop) :
  (∀ e w, r = Err e → P w → R e w) → triple P (lift r) (λ a w, P w ∧ r = Ok a) R.
Proof. intros HR w Hw. unfold lift. destruct r; [done | by apply HR]. Qed.

Lemma triple_ensure (P : W → Prop) b (e : E) (R : E → W → Prop) :
  (∀ w, P w → R e w) → triple P (ensure b e) (λ _ w, P w ∧ b = true) R.
Proof. intros HR w Hw. unfold ensure. destruct b; [done | by apply HR]. Qed.

Lemma triple_ask {A} (P : W → Prop) (f : W → A) (R : E → W → Prop) :
  triple P (ask f) (λ a w, P w ∧ a = f w) R.
Proof. by intros w Hw. Qed.

Lemma triple_if {A} (P : W → Prop) (b : bool) (m k : M W E A) Q R :
  (b = true → triple P m Q R) → (b = false → triple P k Q R) → triple P (if b then m else k) Q R.
Proof. destruct b; auto. Qed.

(** A side condition that does not mention the world. *)
Lemma triple_pre {A} (P : W → Prop) (φ : Prop) (m : M W E A) Q R :
  (φ → triple P m Q R) → triple (λ w, P w ∧ φ) m Q R.
Proof. intros H w [Hw Hφ]. by apply H. Qed.
End laws.

(** Splits the hypothesis that a bind returned a value. *)
Ltac bind_inv H :=
  let a := fresh "a" in let w := fresh "w" in let Hm := fresh "Hm" in
  apply bind_ok_inv in H as (a & w & Hm & H).
