(* ===== verification/Landing.v ===== *)
(** The landing transaction of a tick: [promote_root], [merge_root] and
    [drain_caravan_roots] of src/src/sync.rs with the helpers they call.

    A tick threads its progress, a log of the provider calls it made with their
    answers, and the world of the provider. The provider is the class
    [LandingProvider]; an error keeps the progress and the log it left, which
    is the evidence the code puts into the error details. The serializers, the
    CI diagnosis of [observe_ci] and the text of provider errors are
    operations of the class. *)

From Stdlib Require Import Ascii String.
From S2P Require Import Prelude Text Model Events Mutations Lineage RequiredRuns Generation Graph RootMerge Effects.

#[local] Open Scope string_scope.
#[local] Open Scope list_scope.
#[local] Open Scope nat_scope.
#[local] Open Scope effect_scope.

(** ** The provider and its log *)

#[export] Instance RequiredContextsRead_eq_dec : EqDecision RequiredContextsRead.
Proof. solve_decision. Defined.

Inductive CiDisposition := CiPassing | CiWaiting | CiFailed | CiForced.
#[export] Instance CiDisposition_eq_dec : EqDecision CiDisposition.
Proof. solve_decision. Defined.

(** What the diagnosis reads, its verdict, and the rest of the observation. *)
Class LandingProvider (W E Diag : Type) := {
  refetch_pull_request : RepositoryId → PrNumber → W → result PullRequestSnapshot E * W;
  branch_head_oid : RepositoryId → string → W → result CommitOid E * W;
  compare_commits : RepositoryId → CommitOid → CommitOid → W → result CommitRelation E * W;
  branch_required_contexts : RepositoryId → string → W → result RequiredContextsRead E * W;
  head_run_lineage : RepositoryId → PullRequestPrecondition → W → result HeadRunLineage E * W;
  verify_pull_request_with_checks : RepositoryId → PullRequestPrecondition →
    W → result PullRequestSnapshot E * W;
  verify_branch_head : RepositoryId → string → CommitOid → W → result unit E * W;
  merge_commit_oid : RepositoryId → PrNumber → W → result (option CommitOid) E * W;
  ensure_marked_comment : RepositoryId → PullRequestPrecondition → string → string →
    W → result GitHubMutationReceipt E * W;
  set_base : RepositoryId → PullRequestPrecondition → string → W → result GitHubMutationReceipt E * W;
  squash_merge : RepositoryId → PullRequestPrecondition → W → result GitHubMutationReceipt E * W;
  disable_auto_merge : RepositoryId → PullRequestPrecondition → W → result GitHubMutationReceipt E * W;
  rerequest_check_suite : RepositoryId → PullRequestPrecondition → N →
    W → result GitHubMutationReceipt E * W;
  diagnose_ci : PullRequestSnapshot → RequiredContextsRead → option HeadRunLineage → CiDisposition →
    W → result (CiDisposition * Diag) E * W;
  now_unix : W → N * W;
  sleep : W → W;
  show_mutation_error : E → string;
  required_runs_json : RequiredRunsReceipt → option (list N);
  problem_json : string → PrNumber → string → list string → option (list N);
  promotion_json : RootPromotionReceipt → option (list N);
  merge_json : RootMergeReceipt → option (list N);
  (** The evidence a merge comment is fingerprinted by. *)
  merge_audit_json : RepositoryId → PrNumber → PrNumber → BranchSnapshot → BranchSnapshot →
    BranchSnapshot → CumulativeTreeProof → list RootAncestorContainmentEvidence → list PrNumber → list N }.

(** A provider call and its answer. *)
Inductive Call (E : Type) :=
| CallRefetch (number : PrNumber) (answer : result PullRequestSnapshot E)
| CallBranchHead (branch : string) (answer : result CommitOid E)
| CallCompare (base head : CommitOid) (answer : result CommitRelation E)
| CallContexts (branch : string) (answer : result RequiredContextsRead E)
| CallLineage (expected : PullRequestPrecondition) (answer : result HeadRunLineage E)
| CallVerify (expected : PullRequestPrecondition) (answer : result PullRequestSnapshot E)
| CallVerifyBranch (branch : string) (expected : CommitOid) (answer : result unit E)
| CallMergeCommit (number : PrNumber) (answer : result (option CommitOid) E)
| CallComment (expected : PullRequestPrecondition) (marker : string)
    (answer : result GitHubMutationReceipt E)
| CallSetBase (expected : PullRequestPrecondition) (base : string)
    (answer : result GitHubMutationReceipt E)
| CallSquash (expected : PullRequestPrecondition) (answer : result GitHubMutationReceipt E)
| CallDisable (expected : PullRequestPrecondition) (answer : result GitHubMutationReceipt E)
| CallRerequest (expected : PullRequestPrecondition) (suite : N)
    (answer : result GitHubMutationReceipt E)
| CallDiagnose (number : PrNumber).
#[global] Arguments CallRefetch {E} _ _.
#[global] Arguments CallBranchHead {E} _ _.
#[global] Arguments CallCompare {E} _ _ _.
#[global] Arguments CallContexts {E} _ _.
#[global] Arguments CallLineage {E} _ _.
#[global] Arguments CallVerify {E} _ _.
#[global] Arguments CallVerifyBranch {E} _ _ _.
#[global] Arguments CallMergeCommit {E} _ _.
#[global] Arguments CallComment {E} _ _ _.
#[global] Arguments CallSetBase {E} _ _ _.
#[global] Arguments CallSquash {E} _ _.
#[global] Arguments CallDisable {E} _ _.
#[global] Arguments CallRerequest {E} _ _ _.
#[global] Arguments CallDiagnose {E} _.

(** ** The progress of a tick *)

(** The fields of [SyncProgress] that a tick never changes. *)
Record SyncSettings := mkSyncSettings {
  se_operation_id : OperationId;
  se_repository : RepositoryId;
  se_default_branch : string;
  se_head_merge_actor : HeadMergeActor;
  se_external_auto_merge_policy : ExternalAutoMergePolicy;
  se_max_root_merges : N;
  se_required_runs_grace_secs : N;
  se_required_runs_retrigger_enabled : bool;
  se_mutation_limit : N }.

Record CiObservation (Diag : Type) := mkCiObservation {
  ob_pr : PrNumber;
  ob_disposition : CiDisposition;
  ob_checks : list CheckSnapshot;
  ob_generation_lineage : option HeadRunLineage;
  ob_diagnosis : Diag }.
#[global] Arguments mkCiObservation {Diag} _ _ _ _ _.
#[global] Arguments ob_pr {Diag} _.
#[global] Arguments ob_disposition {Diag} _.
#[global] Arguments ob_checks {Diag} _.
#[global] Arguments ob_generation_lineage {Diag} _.
#[global] Arguments ob_diagnosis {Diag} _.

Record HeadAdvancement := mkHeadAdvancement {
  ha_merged_predecessor : PrNumber;
  ha_new_head : PrNumber;
  ha_previous_caravan_id : PrNumber;
  ha_new_caravan_id : PrNumber }.

(** An event of src/src/model.rs without the identifiers, the time stamp and
    the JSON metadata; of the metadata, the key its kind is deduplicated by. *)
Record CaravanEvent := mkCaravanEvent {
  ev_kind : EventKind;
  ev_caravan_id : option PrNumber;
  ev_prs : list PrNumber;
  ev_reason : option string;
  ev_dedupe_key : option string }.

Record SyncProgress (Diag : Type) := mkSyncProgress {
  pg_settings : SyncSettings;
  pg_steps : list MutationStep;
  pg_provider_receipts : list GitHubMutationReceipt;
  pg_root_promotion : list RootPromotionReceipt;
  pg_root_merge : list RootMergeReceipt;
  pg_required_runs : list RequiredRunsReceipt;
  pg_missing_required_runs : list MissingRequiredRunsProblem;
  pg_required_contexts : gmap string RequiredContextsRead;
  pg_head_advancements : list HeadAdvancement;
  pg_ci : list (CiObservation Diag);
  pg_events : list CaravanEvent;
  pg_current : gmap PrNumber PullRequestSnapshot }.
#[global] Arguments mkSyncProgress {Diag} _ _ _ _ _ _ _ _ _ _ _ _.
#[global] Arguments pg_settings {Diag} _.
#[global] Arguments pg_steps {Diag} _.
#[global] Arguments pg_provider_receipts {Diag} _.
#[global] Arguments pg_root_promotion {Diag} _.
#[global] Arguments pg_root_merge {Diag} _.
#[global] Arguments pg_required_runs {Diag} _.
#[global] Arguments pg_missing_required_runs {Diag} _.
#[global] Arguments pg_required_contexts {Diag} _.
#[global] Arguments pg_head_advancements {Diag} _.
#[global] Arguments pg_ci {Diag} _.
#[global] Arguments pg_events {Diag} _.
#[global] Arguments pg_current {Diag} _.

(** The fields of the status the transaction reads. *)
Record LandingStatus := mkLandingStatus {
  ls_repository : RepositoryId;
  ls_default_branch : string;
  ls_analysis : GraphAnalysis }.

Inductive SyncError (E : Type) :=
| Panicked (message : string)
| ProviderFailed (error : E) (affected : option PrNumber)
| StaleGeneration (expected actual : PullRequestPrecondition) (changed_fields : list string)
    (affected : PrNumber)
| OperationCommentFailed (error : E) (affected : PrNumber) (operation marker : string)
| StackMembershipDetected (error : E) (caravan_id affected : PrNumber)
| MutationBudgetExhausted (used limit required : N)
| RootPromotionIncomplete (cause : RootPromotionFailureCause) (caravan_id number : PrNumber)
    (trigger : RootPromotionTrigger) (observed : PullRequestSnapshot)
    (expected_head : option CommitOid) (confirmation_reads : nat)
| RootMergeRefused (cause : RootMergeFailureCause) (caravan_id number : PrNumber)
    (observed : PullRequestSnapshot) (expected_head : option CommitOid).
#[global] Arguments Panicked {E} _.
#[global] Arguments ProviderFailed {E} _ _.
#[global] Arguments StaleGeneration {E} _ _ _ _.
#[global] Arguments OperationCommentFailed {E} _ _ _ _.
#[global] Arguments StackMembershipDetected {E} _ _ _.
#[global] Arguments MutationBudgetExhausted {E} _ _ _.
#[global] Arguments RootPromotionIncomplete {E} _ _ _ _ _ _ _.
#[global] Arguments RootMergeRefused {E} _ _ _ _ _.

Record Tick (W E Diag : Type) := mkTick {
  tk_progress : SyncProgress Diag;
  tk_log : list (Call E);
  tk_host : W }.
#[global] Arguments mkTick {W E Diag} _ _ _.
#[global] Arguments tk_progress {W E Diag} _.
#[global] Arguments tk_log {W E Diag} _.
#[global] Arguments tk_host {W E Diag} _.

(** ** Updates of the progress *)

Section progress.
Context {Diag : Type}.
Implicit Types p : SyncProgress Diag.

Definition with_steps (x : list MutationStep) p : SyncProgress Diag :=
  mkSyncProgress (pg_settings p) x (pg_provider_receipts p) (pg_root_promotion p) (pg_root_merge
    p) (pg_required_runs p) (pg_missing_required_runs p) (pg_required_contexts p)
    (pg_head_advancements p) (pg_ci p) (pg_events p) (pg_current p).
Definition with_provider_receipts (x : list GitHubMutationReceipt) p : SyncProgress Diag :=
  mkSyncProgress (pg_settings p) (pg_steps p) x (pg_root_promotion p) (pg_root_merge p)
    (pg_required_runs p) (pg_missing_required_runs p) (pg_required_contexts p)
    (pg_head_advancements p) (pg_ci p) (pg_events p) (pg_current p).
Definition with_root_promotion (x : list RootPromotionReceipt) p : SyncProgress Diag :=
  mkSyncProgress (pg_settings p) (pg_steps p) (pg_provider_receipts p) x (pg_root_merge p)
    (pg_required_runs p) (pg_missing_required_runs p) (pg_required_contexts p)
    (pg_head_advancements p) (pg_ci p) (pg_events p) (pg_current p).
Definition with_root_merge (x : list RootMergeReceipt) p : SyncProgress Diag :=
  mkSyncProgress (pg_settings p) (pg_steps p) (pg_provider_receipts p) (pg_root_promotion p) x
    (pg_required_runs p) (pg_missing_required_runs p) (pg_required_contexts p)
    (pg_head_advancements p) (pg_ci p) (pg_events p) (pg_current p).
Definition with_required_runs (x : list RequiredRunsReceipt) p : SyncProgress Diag :=
  mkSyncProgress (pg_settings p) (pg_steps p) (pg_provider_receipts p) (pg_root_promotion p)
    (pg_root_merge p) x (pg_missing_required_runs p) (pg_required_contexts p)
    (pg_head_advancements p) (pg_ci p) (pg_events p) (pg_current p).
Definition with_missing_required_runs (x : list MissingRequiredRunsProblem) p : SyncProgress Diag :=
  mkSyncProgress (pg_settings p) (pg_steps p) (pg_provider_receipts p) (pg_root_promotion p)
    (pg_root_merge p) (pg_required_runs p) x (pg_required_contexts p) (pg_head_advancements p)
    (pg_ci p) (pg_events p) (pg_current p).
Definition with_required_contexts (x : gmap string RequiredContextsRead) p : SyncProgress Diag :=
  mkSyncProgress (pg_settings p) (pg_steps p) (pg_provider_receipts p) (pg_root_promotion p)
    (pg_root_merge p) (pg_required_runs p) (pg_missing_required_runs p) x (pg_head_advancements
    p) (pg_ci p) (pg_events p) (pg_current p).
Definition with_head_advancements (x : list HeadAdvancement) p : SyncProgress Diag :=
  mkSyncProgress (pg_settings p) (pg_steps p) (pg_provider_receipts p) (pg_root_promotion p)
    (pg_root_merge p) (pg_required_runs p) (pg_missing_required_runs p) (pg_required_contexts p)
    x (pg_ci p) (pg_events p) (pg_current p).
Definition with_ci (x : list (CiObservation Diag)) p : SyncProgress Diag :=
  mkSyncProgress (pg_settings p) (pg_steps p) (pg_provider_receipts p) (pg_root_promotion p)
    (pg_root_merge p) (pg_required_runs p) (pg_missing_required_runs p) (pg_required_contexts p)
    (pg_head_advancements p) x (pg_events p) (pg_current p).
Definition with_events (x : list CaravanEvent) p : SyncProgress Diag :=
  mkSyncProgress (pg_settings p) (pg_steps p) (pg_provider_receipts p) (pg_root_promotion p)
    (pg_root_merge p) (pg_required_runs p) (pg_missing_required_runs p) (pg_required_contexts p)
    (pg_head_advancements p) (pg_ci p) x (pg_current p).
Definition with_current (x : gmap PrNumber PullRequestSnapshot) p : SyncProgress Diag :=
  mkSyncProgress (pg_settings p) (pg_steps p) (pg_provider_receipts p) (pg_root_promotion p)
    (pg_root_merge p) (pg_required_runs p) (pg_missing_required_runs p) (pg_required_contexts p)
    (pg_head_advancements p) (pg_ci p) (pg_events p) x.

Definition record (receipt : GitHubMutationReceipt) (summary : string) p : SyncProgress Diag :=
  let number := pr_number (gm_after receipt) in
  with_provider_receipts (pg_provider_receipts p ++ [receipt])
    (with_steps (pg_steps p ++ [mkMutationStep (gm_kind receipt) StepCompleted (Some number) summary])
       (with_current (<[number := gm_after receipt]> (pg_current p)) p)).

Definition already (kind : MutationKind) (number : PrNumber) (summary : string) p : SyncProgress Diag :=
  with_steps (pg_steps p ++ [mkMutationStep kind StepAlreadySatisfied (Some number) summary]) p.

Definition push_event (e : CaravanEvent) p : SyncProgress Diag := with_events (pg_events p ++ [e]) p.
Definition insert_current (number : PrNumber) (pr : PullRequestSnapshot) p : SyncProgress Diag :=
  with_current (<[number := pr]> (pg_current p)) p.

Definition completed_mutation_count p : N :=
  N.min u32_max (N.of_nat (length
    (List.filter (λ s, bool_decide (ms_state s = StepCompleted)) (pg_steps p)))).

Definition record_head_advancement (predecessor new_head : PrNumber) p : SyncProgress Diag :=
  push_event (mkCaravanEvent HeadAdvanced (Some new_head) [predecessor; new_head]
                (Some "merged predecessor advanced the rolling caravan head") None)
    (with_head_advancements
       (pg_head_advancements p ++ [mkHeadAdvancement predecessor new_head predecessor new_head]) p).

(** [retain] the others, then [push]. *)
Definition replace_by {A} (key : A → PrNumber) (x : A) (l : list A) : list A :=
  List.filter (λ y, negb (N.eqb (key y) (key x))) l ++ [x].

Definition record_merge_wait (number : PrNumber) (block : RootMergeBlock) (detail : option string) p
    : SyncProgress Diag :=
  already SquashMerge number
    (match detail with
     | None => block_reason block
     | Some detail => fmt [block_reason block; ": "; detail]
     end) p.

(** [upsert_ci_observation] is not used here: the drain replaces. *)
Definition ci_of p (number : PrNumber) : option (CiObservation Diag) :=
  List.find (λ o, N.eqb (ob_pr o) number) (reverse (pg_ci p)).
End progress.

(** Of src/src/root_auto_merge.rs. *)
Definition ROOT_AUTO_MERGE_CONFIRMATION_READS : nat := 3.

Definition REQUIRED_RUNS_RETRIGGER_ATTEMPTS : N := 1.
Definition REQUIRED_RUNS_CONVERGENCE_REASON : string :=
  "bounded scheduler verification that every required context has reporting run lineage on the exact current head".

(** ** Pure helpers *)

(** [CumulativeTreeProof::reason] of src/src/model.rs. *)
Definition tree_reason (t : CumulativeTreeProof) : string :=
  let merging := ["merging "; br_name (ct_candidate t); "@"; br_oid (ct_candidate t); " into ";
                  br_name (ct_target t); "@"; br_oid (ct_target t)] in
  if ct_identical t
  then fmt (merging ++ [" yields the exact already-validated head tree "; ct_candidate_tree t])
  else fmt (merging ++ [" yields tree "; ct_merge_result_tree t;
                        " instead of the already-validated head tree "; ct_candidate_tree t]).

(** [changed_precondition_fields] of src/src/github.rs. *)
Definition changed_precondition_fields (expected actual : PullRequestPrecondition) : list string :=
  (if N.eqb (pc_number expected) (pc_number actual) then [] else ["number"])
  ++ (if bool_decide (pc_state expected = pc_state actual) then [] else ["state"])
  ++ (if opt_eqb (pc_merged_at expected) (pc_merged_at actual) then [] else ["merged_at"])
  ++ (if String.eqb (pc_head_oid expected) (pc_head_oid actual) then [] else ["head_oid"])
  ++ (if String.eqb (pc_base_ref expected) (pc_base_ref actual) then [] else ["base_ref"])
  ++ (if String.eqb (pc_base_oid expected) (pc_base_oid actual) then [] else ["base_oid"])
  ++ (if bool_decide (pc_labels expected = pc_labels actual) then [] else ["labels"])
  ++ (if auto_merge_eqb (pc_auto_merge expected) (pc_auto_merge actual) then [] else ["auto_merge"]).

Definition CARAVAN_CONTROL_LABELS : list string := ["caravan"; "caravan-evicted"].

(** The fields whose change stops the read of a root. *)
Definition root_changed_fields (default_branch : string) (previous observed : PullRequestSnapshot)
    : list string :=
  List.filter (λ field,
      negb (String.eqb field "auto_merge") && negb (String.eqb field "labels")
      && (negb (mem field ["base_ref"; "base_oid"])
          || negb (String.eqb (br_name (pr_base observed)) default_branch)))
    (changed_precondition_fields (precondition_of previous) (precondition_of observed))
  ++ ((λ label, fmt ["labels."; label]) <$>
      List.filter (λ label, negb (Bool.eqb (has_label previous label) (has_label observed label)))
        CARAVAN_CONTROL_LABELS).

Definition head_is_conflict_free_with_default (status : LandingStatus) (head : PullRequestSnapshot) : bool :=
  existsb (λ report,
      bool_decide (cr_candidate report = pr_head head)
      && bool_decide (cr_target report = fl_default_branch (ga_fleet (ls_analysis status)))
      && bool_decide (cr_outcome report = Clean))
    (ga_compatibility (ls_analysis status)).

(** The generations whose content a root may not carry. *)
Definition unmerged_ancestors (status : LandingStatus) (number : PrNumber) : list PullRequestSnapshot :=
  List.filter (λ candidate,
      negb (N.eqb (pr_number candidate) number) && negb (state_is candidate Merged)
      && (has_label candidate "caravan-evicted" || has_label candidate "caravan-parked"
          || (state_is candidate Closed && has_label candidate "caravan")))
    (bt_values (ga_pull_requests (ls_analysis status))).

Definition contains_base (relation : CommitRelation) : bool :=
  match relation with Ahead | Identical => true | _ => false end.

(** The proof of exactly this head on exactly this default branch. *)
Definition find_tree_proof (status : LandingStatus) (head : BranchSnapshot) (observed_default : CommitOid)
    : option CumulativeTreeProof :=
  List.find (λ proof,
      bool_decide (ct_candidate proof = head)
      && String.eqb (br_name (ct_target proof)) (ls_default_branch status)
      && String.eqb (br_oid (ct_target proof)) observed_default)
    (ga_cumulative_trees (ls_analysis status)).

Definition required_green (default_branch : string) (policy : RequiredContextsRead)
    (assessment : RequiredRunsAssessment) : bool :=
  rr_complete policy && String.eqb (rr_branch policy) default_branch
  && match ra_status assessment with Satisfied | NotRequired => true | _ => false end.

(** The forge still refuses the exact head. *)
Definition forge_refuses (observed : PullRequestSnapshot) : bool :=
  is_some_and (pr_merge_state_status observed) (λ s, mem s ["BLOCKED"; "DIRTY"; "DRAFT"]).

Definition provider_requires_native_stack_merge (diagnostic : string) : bool :=
  let diagnostic := to_ascii_lowercase diagnostic in
  contains_str "part of a stack" diagnostic || contains_str "use the stack api" diagnostic
  || contains_str "use stack api" diagnostic.

(** [head_published_at]: the later of the commit and the update. *)
Definition head_published_at (current : PullRequestSnapshot) (lineage : option HeadRunLineage)
    : option string :=
  match lineage ≫= hl_head_committed_at, pr_updated_at current with
  | Some committed, Some updated =>
      match rfc3339_to_unix_secs committed, rfc3339_to_unix_secs updated with
      | Some committed_secs, Some updated_secs => Some (if (committed_secs <? updated_secs)%N then updated else committed)
      | Some _, None => Some committed
      | None, Some _ => Some updated
      | None, None => None
      end
  | Some committed, None => Some committed
  | None, updated => updated
  end.

(** [required_ci_disposition]. *)
Definition failing_report (coverage : RequiredContextCoverage) : bool :=
  negb (bool_decide (cov_current_reporting_checks coverage = []))
  && match cov_state coverage with
     | CtxFailing | CtxCancelledSuperseded | CtxUnknown => true
     | _ => false
     end.
Definition required_ci_disposition (assessment : RequiredRunsAssessment) (forced : bool) : CiDisposition :=
  if forced then CiForced
  else if is_some_and (ra_required_policy assessment) rr_complete
          && existsb failing_report (ra_coverage assessment)
  then CiFailed
  else match ra_status assessment with
       | Satisfied | NotRequired => CiPassing
       | Failing | CancelledSuperseded => CiFailed
       | _ => CiWaiting
       end.

(** ** The steps of a tick *)

Section tick.
Context {W E Diag : Type} `{!LandingProvider W E Diag}.

#[local] Abbreviation State := (Tick W E Diag).
#[local] Abbreviation Eff A := (M (Tick W E Diag) (SyncError E) A).

Definition progress : Eff (SyncProgress Diag) := ask tk_progress.
Definition modify (f : SyncProgress Diag → SyncProgress Diag) : Eff unit := λ s,
  (Ok (), mkTick (f (tk_progress s)) (tk_log s) (tk_host s)).
(** A provider call, logged with its answer. *)
Definition request {A} (op : W → result A E * W) (entry : result A E → Call E) : Eff (result A E) := λ s,
  let (r, w) := op (tk_host s) in (Ok r, mkTick (tk_progress s) (tk_log s ++ [entry r]) w).
Definition call_or {A} (op : W → result A E * W) (entry : result A E → Call E) (err : E → SyncError E)
    : Eff A :=
  let* r := request op entry in
  match r with Ok a => ret a | Err e => throw (err e) end.
(** [map_err(|error| mutation_error(&error, self, Some(number)))]. *)
Definition call {A} (op : W → result A E * W) (entry : result A E → Call E) (number : PrNumber) : Eff A :=
  call_or op entry (λ e, ProviderFailed e (Some number)).
Definition pause : Eff unit := λ s, (Ok (), mkTick (tk_progress s) (tk_log s) (sleep (tk_host s))).
Definition clock : Eff N := λ s,
  let (now, w) := now_unix (tk_host s) in (Ok now, mkTick (tk_progress s) (tk_log s) w).
Definition expect {A} (o : option A) (message : string) : Eff A := lift (ok_or o (Panicked message)).
Definition setting {A} (f : SyncSettings → A) : Eff A := ask (λ s, f (pg_settings (tk_progress s))).

Definition current_of (number : PrNumber) : Eff PullRequestSnapshot :=
  let* p := progress in expect (pg_current p !! number) "sync member".
Definition precondition (number : PrNumber) : Eff PullRequestPrecondition :=
  let* p := progress in
  let* pr := expect (pg_current p !! number) "sync member has current PR facts" in
  ret (precondition_of pr).

Definition ensure_mutation_capacity (reserve : N) : Eff unit :=
  let* p := progress in
  let used := completed_mutation_count p in
  let limit := se_mutation_limit (pg_settings p) in
  ensure (N.min u32_max (used + reserve) <=? limit)%N (MutationBudgetExhausted used limit reserve).

Definition refetch (repository : RepositoryId) (number : PrNumber) : Eff PullRequestSnapshot :=
  call (refetch_pull_request repository number) (CallRefetch number) number.

(** *** Reading and promoting the root *)

(** The re-reads of [read_exact_root_generation]; [left] of the three remain. *)
Fixpoint reread_head (repository : RepositoryId) (number : PrNumber) (expected : option CommitOid)
    (left_ : nat) (observed : PullRequestSnapshot) (reads : nat) : Eff (PullRequestSnapshot * nat) :=
  match left_ with
  | O => ret (observed, reads)
  | S left_ =>
      if is_some_and expected (λ oid, negb (String.eqb (br_oid (pr_head observed)) oid))
      then
        do* pause in
        let* observed := refetch repository number in
        reread_head repository number expected left_ observed (S reads)
      else ret (observed, reads)
  end.

Definition read_exact_root_generation (repository : RepositoryId) (caravan_id number : PrNumber)
    (previous : option PullRequestSnapshot) (default_branch : string) : Eff (PullRequestSnapshot * nat) :=
  let expected_head := (λ s, br_oid (pr_head s)) <$> previous in
  let* first := refetch repository number in
  let* read := reread_head repository number expected_head (ROOT_AUTO_MERGE_CONFIRMATION_READS - 1) first 1 in
  let '(observed, reads) := read in
  do* ensure (negb (is_some_and expected_head (λ oid, negb (String.eqb (br_oid (pr_head observed)) oid))))
        (RootPromotionIncomplete StaleProviderView caravan_id number AlreadyOnDefaultBranch observed
           expected_head reads) in
  do* match previous with
      | None => ret ()
      | Some previous =>
          let changed := root_changed_fields default_branch previous observed in
          ensure (bool_decide (changed = []))
            (StaleGeneration (precondition_of previous) (precondition_of observed) changed number)
      end in
  do* modify (insert_current number observed) in
  ret (observed, reads).

Definition push_root_promotion (caravan_id : PrNumber) (observed : PullRequestSnapshot)
    (base_before : BranchSnapshot) (default_branch : string) (predecessor : option PrNumber)
    (predecessor_merged : bool) (trigger : RootPromotionTrigger) (reads : nat) (engine_retargeted : bool)
    : Eff unit :=
  let* settings := setting id in
  let* receipt := expect
    (promotion_receipt promotion_json (se_repository settings) caravan_id observed base_before
       default_branch predecessor predecessor_merged trigger reads
       (root_provenance (se_operation_id settings) (trigger_reason trigger) engine_retargeted
          (pr_auto_merge observed))) "root promotion receipt serializes" in
  do* (if engine_retargeted
       then modify (push_event (mkCaravanEvent RootPromoted (Some caravan_id) [pr_number observed]
                                  (Some (trigger_reason trigger)) None))
       else ret ()) in
  modify (λ p, with_root_promotion (replace_by po_pr receipt (pg_root_promotion p)) p).

(** The confirmation reads after the retarget. *)
Fixpoint confirm_base (repository : RepositoryId) (number : PrNumber) (default_branch : string)
    (expected_head : CommitOid) (left_ : nat) (observed : PullRequestSnapshot) (reads : nat)
    : Eff (PullRequestSnapshot * nat) :=
  match left_ with
  | O => ret (observed, reads)
  | S left_ =>
      if negb (String.eqb (br_name (pr_base observed)) default_branch)
         || negb (String.eqb (br_oid (pr_head observed)) expected_head)
      then
        do* pause in
        let* observed := refetch repository number in
        do* modify (insert_current number observed) in
        confirm_base repository number default_branch expected_head left_ observed (S reads)
      else ret (observed, reads)
  end.

Definition promote_root (status : LandingStatus) (caravan_id number : PrNumber)
    (predecessor : option PrNumber) (predecessor_merged : bool) : Eff unit :=
  let repository := ls_repository status in
  let default_branch := ls_default_branch status in
  let* p := progress in
  let* read := read_exact_root_generation repository caravan_id number (pg_current p !! number)
                 default_branch in
  let '(observed, reads) := read in
  let base_before := pr_base observed in
  let expected_head := br_oid (pr_head observed) in
  let trigger := promotion_trigger (br_name base_before) default_branch predecessor_merged in
  if negb (requires_write trigger)
  then
    do* modify (already SetBase number "promoted caravan root already targets the exact default branch") in
    push_root_promotion caravan_id observed base_before default_branch predecessor predecessor_merged
      trigger reads false
  else
    do* ensure_mutation_capacity 1 in
    let* expected := precondition number in
    let* receipt := call (set_base repository expected default_branch)
                      (CallSetBase expected default_branch) number in
    do* modify (record receipt "retargeted the promoted caravan root to the exact default branch") in
    let* p := progress in
    let* observed := expect (pg_current p !! number) "set-base receipt records current facts" in
    let* read := confirm_base repository number default_branch expected_head
                   (ROOT_MERGE_CONFIRMATION_READS - reads) observed reads in
    let '(observed, reads) := read in
    do* ensure (String.eqb (br_oid (pr_head observed)) expected_head)
          (RootPromotionIncomplete RootHeadMovedDuringPromotion caravan_id number trigger observed
             (Some expected_head) reads) in
    do* ensure (String.eqb (br_name (pr_base observed)) default_branch)
          (RootPromotionIncomplete BaseRetargetNotObserved caravan_id number trigger observed
             (Some expected_head) reads) in
    push_root_promotion caravan_id observed base_before default_branch predecessor predecessor_merged
      trigger reads true.

(** Converges or refuses a merge actor beside Cara. *)
Definition ensure_no_foreign_auto_merge (repository : RepositoryId) (caravan_id number : PrNumber)
    : Eff unit :=
  let* observed := current_of number in
  let* settings := setting id in
  let caravan := actor_caravan (se_head_merge_actor settings) in
  if negb (am_enabled (pr_auto_merge observed))
  then modify (already DisableAutoMerge number
         (if caravan then "no provider auto-merge request; cara is the single merge actor"
          else "non-head auto-merge already disabled"))
  else if caravan && bool_decide (se_external_auto_merge_policy settings = PolicyRefuse)
  then throw (RootMergeRefused ForeignAutoMergeActor caravan_id number observed None)
  else
    do* ensure_mutation_capacity 1 in
    let* expected := precondition number in
    let* receipt := call (disable_auto_merge repository expected) (CallDisable expected) number in
    modify (record receipt
      (if caravan then "disabled a foreign provider auto-merge request; cara is the single merge actor"
       else "disabled auto-merge on non-head PR")).

(** *** Required runs *)

Definition assess_with_lineage (current : PullRequestSnapshot) (contexts : RequiredContextsRead)
    (lineage : option HeadRunLineage) (checks : list CheckSnapshot) : Eff RequiredRunsAssessment :=
  let* now := clock in
  let* grace := setting se_required_runs_grace_secs in
  ret (assess (mkRequiredRunsInput (pr_number current) (pr_head current) (pr_base current) contexts
                 lineage checks (head_published_at current lineage) (mkRequiredRunsClock now grace))).

(** A required check no current row reports. *)
Definition required_absent (current : PullRequestSnapshot) (contexts : RequiredContextsRead) : bool :=
  existsb (λ required,
      negb (existsb (λ check, matches required check (br_oid (pr_head current))
                              && negb (bool_decide (ck_state check = CheckExpected)))
              (latest_checks_per_identity (pr_checks current)).1))
    (rr_checks (normalized contexts)).

Definition read_lineage (repository : RepositoryId) (current : PullRequestSnapshot) : Eff HeadRunLineage :=
  call (head_run_lineage repository (precondition_of current)) (CallLineage (precondition_of current))
    (pr_number current).

Definition assess_required_runs (repository : RepositoryId) (current : PullRequestSnapshot)
    (contexts : RequiredContextsRead) : Eff RequiredRunsAssessment :=
  let* p := progress in
  let observed_lineage := ci_of p (pr_number current) ≫= ob_generation_lineage in
  let* lineage :=
    (if required_absent current contexts && rr_complete contexts
        && negb (bool_decide (rr_contexts contexts = []))
     then match observed_lineage with
          | Some lineage => ret (Some lineage)
          | None => let* lineage := read_lineage repository current in ret (Some lineage)
          end
     else ret observed_lineage) in
  assess_with_lineage current contexts lineage (pr_checks current).

(** One protection read per branch and tick. *)
Definition discover_required_contexts (repository : RepositoryId) (branch : string) (number : PrNumber)
    : Eff RequiredContextsRead :=
  let* p := progress in
  match pg_required_contexts p !! branch with
  | Some cached => ret cached
  | None =>
      let* read := call (branch_required_contexts repository branch) (CallContexts branch) number in
      let read := normalized read in
      let read := if String.eqb (rr_branch read) branch then read
                  else mkRequiredContextsRead (rr_branch read) (rr_protected read) (rr_contexts read)
                         (rr_checks read) false in
      do* modify (λ p, with_required_contexts (<[branch := read]> (pg_required_contexts p)) p) in
      ret read
  end.

Definition push_required_runs (caravan_id : PrNumber) (assessment : RequiredRunsAssessment)
    (retrigger : option RequiredRunsRetrigger) : Eff unit :=
  let number := ra_pr assessment in
  let* settings := setting id in
  let* found := expect (problem problem_json caravan_id assessment retrigger)
                  "fingerprint material serializes" in
  do* match found with
      | None => ret ()
      | Some found =>
          modify (λ p,
            let (kept, problems) := push_problem (pg_missing_required_runs p) found in
            let p := with_missing_required_runs problems p in
            if kept
            then push_event (mkCaravanEvent RequiredRunsMissing (Some caravan_id) [number]
                               (Some (mp_message found)) (Some (mp_fingerprint found))) p
            else p)
      end in
  do* match opt_filter rt_requested retrigger with
      | None => ret ()
      | Some retrigger =>
          modify (push_event (mkCaravanEvent RequiredRunsRetriggered (Some caravan_id) [number]
            (Some (fmt ["requested check suite "; show_N (rt_check_suite_id retrigger);
                        " again on unchanged head "; rt_head_oid retrigger])) None))
      end in
  let* sealed := expect
    (receipt required_runs_json (se_repository settings) caravan_id assessment retrigger
       (provenance (se_operation_id settings) REQUIRED_RUNS_CONVERGENCE_REASON))
    "required runs receipt serializes" in
  modify (λ p, with_required_runs
    (List.filter (λ r, negb (N.eqb (rp_pr r) number)) (pg_required_runs p) ++ [sealed]) p).

Record RequiredRunsRetriggerOutcome := mkRetriggerOutcome {
  ou_receipt : RequiredRunsRetrigger;
  ou_assessment : RequiredRunsAssessment;
  ou_rediscovered : bool }.

(** The rerequest, and one rediscovery on the unchanged head. *)
Definition retrigger_required_runs (repository : RepositoryId) (number : PrNumber) (check_suite_id : N)
    (contexts : RequiredContextsRead) (before_recovery : RequiredRunsAssessment)
    : Eff RequiredRunsRetriggerOutcome :=
  let* before := current_of number in
  let head_oid := br_oid (pr_head before) in
  let outcome requested rediscovered assessment failure :=
    mkRetriggerOutcome
      (mkRequiredRunsRetrigger check_suite_id head_oid REQUIRED_RUNS_RETRIGGER_ATTEMPTS requested
         rediscovered (ra_status assessment) failure) assessment rediscovered in
  do* ensure_mutation_capacity 1 in
  let* expected := precondition number in
  let* requested := request (rerequest_check_suite repository expected check_suite_id)
                      (CallRerequest expected check_suite_id) in
  match requested with
  | Err error => ret (outcome false false before_recovery (Some (show_mutation_error error)))
  | Ok receipt =>
      do* modify (record receipt (fmt ["requested check suite "; show_N check_suite_id;
                                       " again on unchanged head "; head_oid])) in
      let* refreshed := refetch repository number in
      if negb (String.eqb (br_oid (pr_head refreshed)) head_oid)
      then ret (outcome true false before_recovery
             (Some (fmt ["head moved from "; head_oid; " to "; br_oid (pr_head refreshed);
                         " during recovery"])))
      else
        do* modify (insert_current number refreshed) in
        let* lineage := call (head_run_lineage repository (precondition_of refreshed))
                          (CallLineage (precondition_of refreshed)) number in
        let* assessment := assess_with_lineage refreshed contexts (Some lineage) (pr_checks refreshed) in
        ret (outcome true true assessment None)
  end.

Definition verify_required_runs (repository : RepositoryId) (caravan_id number : PrNumber) : Eff unit :=
  let* current := current_of number in
  let* settings := setting id in
  let* contexts := discover_required_contexts repository (se_default_branch settings) number in
  let* assessment := assess_required_runs repository current contexts in
  let* outcome :=
    match ra_recovery assessment with
    | RerequestCheckSuite check_suite_id =>
        if se_required_runs_retrigger_enabled settings
        then let* outcome := retrigger_required_runs repository number check_suite_id contexts assessment in
             ret (Some outcome)
        else ret None
    | _ => ret None
    end in
  let '(assessment, retrigger) :=
    match outcome with
    | Some outcome =>
        if ou_rediscovered outcome then (ou_assessment outcome, Some (ou_receipt outcome))
        else (assessment, Some (ou_receipt outcome))
    | None => (assessment, None)
    end in
  push_required_runs caravan_id assessment retrigger.

(** *** Observing CI *)

Definition refetch_ci_snapshot (repository : RepositoryId) (number : PrNumber) : Eff PullRequestSnapshot :=
  let* expected := precondition number in
  let* observed := refetch repository number in
  let actual := precondition_of observed in
  do* ensure (mutation_identity_eq actual expected)
        (StaleGeneration expected actual ["ci_refetch_mutation_identity"] number) in
  do* modify (insert_current number observed) in
  ret observed.

Definition observe_ci (repository : RepositoryId) (number : PrNumber) : Eff (CiObservation Diag) :=
  let* current := refetch_ci_snapshot repository number in
  let forced := has_label current "caravan-force" in
  let* default_branch := setting se_default_branch in
  let* policy := discover_required_contexts repository default_branch number in
  let* assessment := assess_with_lineage current policy None (pr_checks current) in
  let* read :=
    (if bool_decide (required_ci_disposition assessment forced = CiFailed)
     then
       let* current := refetch_ci_snapshot repository number in
       let* assessment := assess_with_lineage current policy None (pr_checks current) in
       if bool_decide (required_ci_disposition assessment forced = CiFailed)
       then
         let* expected := precondition number in
         let* lineage := call (head_run_lineage repository expected) (CallLineage expected) number in
         ret (current, Some lineage)
       else ret (current, None)
     else ret (current, None)) in
  let '(current, lineage) := read in
  let* assessment := assess_with_lineage current policy lineage (pr_checks current) in
  let disposition := required_ci_disposition assessment forced in
  let* verdict := call (diagnose_ci current policy lineage disposition) (λ _, CallDiagnose number) number in
  let '(disposition, diagnosis) := verdict in
  ret (mkCiObservation number disposition (pr_checks current) (bounded <$> lineage) diagnosis).

(** *** The merge *)

Definition refuse_merge {A} (cause : RootMergeFailureCause) (caravan_id number : PrNumber)
    (observed : PullRequestSnapshot) (expected_head : CommitOid) : Eff A :=
  throw (RootMergeRefused cause caravan_id number observed (Some expected_head)).

Definition wait_merge (number : PrNumber) (block : RootMergeBlock) (detail : option string) : Eff bool :=
  do* modify (record_merge_wait number block detail) in ret false.

(** No unmerged ancestor is contained; the evidence of each comparison. *)
Fixpoint check_ancestors (repository : RepositoryId) (caravan_id number : PrNumber)
    (observed : PullRequestSnapshot) (observed_default : CommitOid)
    (candidates : list PullRequestSnapshot) : Eff (list RootAncestorContainmentEvidence) :=
  match candidates with
  | [] => ret []
  | candidate :: rest =>
      let oid := br_oid (pr_head candidate) in
      let head := br_oid (pr_head observed) in
      let* to_root := call (compare_commits repository oid head) (CallCompare oid head) number in
      let* to_default := call (compare_commits repository oid observed_default)
                           (CallCompare oid observed_default) number in
      let evidence := mkContainmentEvidence (pr_number candidate) (pr_state candidate)
                        (pr_head candidate) to_root to_default in
      if contains_base to_root
      then refuse_merge UnmergedAncestorContainedByRoot caravan_id number observed head
      else
        let* more := check_ancestors repository caravan_id number observed observed_default rest in
        ret (evidence :: more)
  end.

(** The verdict on the facts read so far: a wait, or the proof that
    authorizes the landing. *)
Inductive Authorization :=
| AuthWait (block : RootMergeBlock) (detail : option string)
| AuthRefuse (cause : RootMergeFailureCause)
| AuthProof (proof : CumulativeTreeProof).

Definition authorize (status : LandingStatus) (observed : PullRequestSnapshot)
    (observed_default : CommitOid) (green : bool) (policy : ExternalAutoMergePolicy)
    (landed_default : option CommitOid) (stackless_native_singleton : bool) : Authorization :=
  let tree_proof := find_tree_proof status (pr_head observed) observed_default in
  let facts := mkRootMergeFacts (ls_default_branch status) green green
    (is_some_and tree_proof ct_identical || head_is_conflict_free_with_default status observed) policy in
  match merge_gate observed facts with
  | Refuse cause => AuthRefuse cause
  | Wait block => AuthWait block None
  | Eligible =>
      match tree_proof with
      | None => AuthWait CumulativeTreeUnproven None
      | Some proof =>
          if negb (ct_identical proof) && negb stackless_native_singleton
          then AuthWait CumulativeTreeChanged (Some (tree_reason proof))
          else if negb stackless_native_singleton
                  && negb (retained_patch_set_holds (ct_target_reachable_from_candidate proof)
                             (is_some_and landed_default (λ oid, String.eqb oid observed_default)))
          then AuthRefuse DefaultBranchDivergedFromRetainedPatchSet
          else if forge_refuses observed then AuthRefuse ForgeRefusesMerge
          else AuthProof proof
      end
  end.

Definition ensure_operation_comment (repository : RepositoryId) (number : PrNumber)
    (operation marker body : string) : Eff unit :=
  do* ensure_mutation_capacity 1 in
  let* expected := precondition number in
  let* receipt := call_or (ensure_marked_comment repository expected marker body)
                    (CallComment expected marker)
                    (λ e, OperationCommentFailed e number operation marker) in
  if is_some_and (gm_provider_output receipt) (starts_with "existing GitHub comment")
  then modify (λ p, insert_current number (gm_after receipt)
         (already Comment number (fmt [operation; " audit comment already present"]) p))
  else modify (record receipt (fmt ["posted durable "; operation; " audit comment"])).

Definition line : string := String line_feed EmptyString.
Definition merge_marker (number : PrNumber) (head : CommitOid) (fingerprint : string) : string :=
  fmt ["<!-- cara-merge-transition:v1:"; "squash:"; show_pr number; ":"; head; ":"; fingerprint; " -->"].
Definition merge_comment (marker : string) (number : PrNumber) (head : CommitOid) (default_branch : string)
    (default_oid : CommitOid) (proof : CumulativeTreeProof) (fingerprint : string) : string :=
  fmt [marker; line; "### Cara authorized this merge"; line; line;
       "- **Exact generation:** PR #"; show_pr number; " at `"; head; "`"; line;
       "- **Target:** `"; default_branch; "` at `"; default_oid; "`"; line;
       "- **Why:** current checks and protection-required contexts are green, provider mergeability is clean, and ";
       tree_reason proof; "."; line;
       "- **Operation:** Cara is the single merge actor and will now squash-merge this exact generation. This audit is posted before the irreversible provider write; exact retries reuse it without duplication.";
       line; "- **Evidence fingerprint:** `"; fingerprint; "`"; line].

(** The confirmation reads after the squash. *)
Fixpoint confirm_merged (repository : RepositoryId) (number : PrNumber) (left_ : nat)
    (observed : PullRequestSnapshot) (reads : nat) : Eff (PullRequestSnapshot * nat) :=
  match left_ with
  | O => ret (observed, reads)
  | S left_ =>
      if negb (state_is observed Merged)
      then
        do* pause in
        let* observed := refetch repository number in
        do* modify (insert_current number observed) in
        confirm_merged repository number left_ observed (S reads)
      else ret (observed, reads)
  end.

(** The reads until the default branch contains the merge commit; [left_] more
    may follow this one. *)
Fixpoint confirm_reachable (repository : RepositoryId) (caravan_id number : PrNumber)
    (default_branch : string) (observed : PullRequestSnapshot) (expected_head : CommitOid)
    (merge_commit : option CommitOid) (left_ reads : nat) : Eff (CommitOid * nat) :=
  let* default_after := call (branch_head_oid repository default_branch)
                          (CallBranchHead default_branch) number in
  let reads := S reads in
  match merge_commit with
  | None => ret (default_after, reads)
  | Some commit =>
      let* comparison := call (compare_commits repository commit default_after)
                           (CallCompare commit default_after) number in
      if contains_base comparison then ret (default_after, reads)
      else
        match left_ with
        | O => refuse_merge MergeNotReachableFromDefault caravan_id number observed expected_head
        | S left_ =>
            do* pause in
            confirm_reachable repository caravan_id number default_branch observed expected_head
              merge_commit left_ reads
        end
  end.

Definition push_root_merge (caravan_id : PrNumber) (observed : PullRequestSnapshot)
    (default_branch : string) (ancestry : RootMergeAncestry) (reads : nat) : Eff unit :=
  let* settings := setting id in
  let* receipt := expect
    (merge_receipt merge_json (se_repository settings) caravan_id observed default_branch ancestry reads
       (root_provenance (se_operation_id settings)
          "caravan-owned squash merge of the exact promoted root head" true (pr_auto_merge observed)))
    "root merge receipt serializes" in
  do* modify (push_event (mkCaravanEvent RootMerged (Some caravan_id) [pr_number observed]
        (Some (fmt ["squash-merged caravan root #"; show_pr (pr_number observed); " into ";
                    default_branch])) None)) in
  modify (λ p, with_root_merge (replace_by ro_pr receipt (pg_root_merge p)) p).

(** What the merge was decided on. *)
Record MergeDecision := mkMergeDecision {
  md_observed : PullRequestSnapshot;
  md_reads : nat;
  md_default_before : BranchSnapshot;
  md_proof : CumulativeTreeProof;
  md_containment : list RootAncestorContainmentEvidence;
  md_policy : RequiredContextsRead }.

(** The postflight of the squash, and the receipt. *)
Definition conclude_merge (status : LandingStatus) (caravan_id number : PrNumber)
    (remaining : list PrNumber) (next_root_base_before : option string) (d : MergeDecision) : Eff bool :=
  let repository := ls_repository status in
  let default_branch := ls_default_branch status in
  let expected_head := br_oid (pr_head (md_observed d)) in
  let* p := progress in
  let* observed := expect (pg_current p !! number) "merge receipt records current facts" in
  let* read := confirm_merged repository number (ROOT_MERGE_CONFIRMATION_READS - md_reads d) observed
                 (md_reads d) in
  let '(observed, reads) := read in
  do* ensure (state_is observed Merged)
        (RootMergeRefused ProviderDidNotPersistMerge caravan_id number observed (Some expected_head)) in
  do* ensure (String.eqb (br_name (pr_base observed)) default_branch)
        (RootMergeRefused MergedIntoUnexpectedBase caravan_id number observed (Some expected_head)) in
  let* merge_commit := call (merge_commit_oid repository number) (CallMergeCommit number) number in
  let* reached := confirm_reachable repository caravan_id number default_branch observed expected_head
                    merge_commit (ROOT_MERGE_CONFIRMATION_READS - 1) 0 in
  let '(default_after, reachability_reads) := reached in
  let* p := progress in
  let ancestry := mkRootMergeAncestry (md_default_before d)
    (mkBranchSnapshot repository default_branch default_after) merge_commit (Some (md_proof d))
    (md_containment d)
    (ha_merged_predecessor <$>
       List.find (λ a, N.eqb (ha_new_head a) number) (reverse (pg_head_advancements p)))
    (drop 1 remaining) (remaining !! 1) next_root_base_before
    ((λ _, default_branch) <$> remaining !! 1) in
  do* push_root_merge caravan_id observed default_branch ancestry (reads + reachability_reads) in
  ret true.

(** The squash on the current facts. *)
Definition send_squash (status : LandingStatus) (caravan_id number : PrNumber)
    (remaining : list PrNumber) (next_root_base_before : option string) (d : MergeDecision) : Eff bool :=
  do* ensure_mutation_capacity 1 in
  let* expected := precondition number in
  let* receipt := call_or (squash_merge (ls_repository status) expected) (CallSquash expected)
    (λ e, if provider_requires_native_stack_merge (show_mutation_error e)
          then StackMembershipDetected e caravan_id number
          else ProviderFailed e (Some number)) in
  do* modify (record receipt
        "squash-merged the promoted caravan root into the exact default branch") in
  conclude_merge status caravan_id number remaining next_root_base_before d.

(** The audit comment, the last verification, and the squash. *)
Definition submit_merge (status : LandingStatus) (caravan_id number : PrNumber)
    (remaining : list PrNumber) (d : MergeDecision) : Eff bool :=
  let repository := ls_repository status in
  let default_branch := ls_default_branch status in
  let observed := md_observed d in
  let default_before := md_default_before d in
  let* p := progress in
  let next_root_base_before :=
    (λ next, br_name (pr_base next)) <$> (remaining !! 1 ≫= λ next, pg_current p !! next) in
  let fingerprint := fnv1a64 (merge_audit_json repository caravan_id number (pr_head observed)
    (pr_base observed) default_before (md_proof d) (md_containment d) remaining) in
  let marker := merge_marker number (br_oid (pr_head observed)) fingerprint in
  do* ensure_operation_comment repository number "squash merge" marker
        (merge_comment marker number (br_oid (pr_head observed)) default_branch (br_oid default_before)
           (md_proof d) fingerprint) in
  do* call (verify_pull_request_with_checks repository (precondition_of observed))
        (CallVerify (precondition_of observed)) number in
  do* call (verify_branch_head repository default_branch (br_oid default_before))
        (CallVerifyBranch default_branch (br_oid default_before)) number in
  let* read := call (branch_required_contexts repository default_branch)
                 (CallContexts default_branch) number in
  let final_policy := normalized read in
  if negb (rr_complete final_policy) || negb (bool_decide (final_policy = md_policy d))
  then wait_merge number RequiredRunsNotSatisfied
         (Some "landing-target required policy changed during merge preflight; rediscover before submitting")
  else
    send_squash status caravan_id number remaining next_root_base_before d.

Definition merge_root (status : LandingStatus) (caravan_id number : PrNumber) (remaining : list PrNumber)
    (landed_default : option CommitOid) (stackless_native_singleton : bool) : Eff bool :=
  let repository := ls_repository status in
  let default_branch := ls_default_branch status in
  let* p := progress in
  let* read := read_exact_root_generation repository caravan_id number (pg_current p !! number)
                 default_branch in
  let '(observed, reads) := read in
  let expected_head := br_oid (pr_head observed) in
  let* observed_default := call (branch_head_oid repository default_branch)
                             (CallBranchHead default_branch) number in
  let* containment := check_ancestors repository caravan_id number observed observed_default
                        (unmerged_ancestors status number) in
  let* read := call (branch_required_contexts repository default_branch)
                 (CallContexts default_branch) number in
  let root_policy := normalized read in
  let* assessment := assess_required_runs repository observed root_policy in
  let green := required_green default_branch root_policy assessment in
  do* push_required_runs caravan_id assessment None in
  let* policy := setting se_external_auto_merge_policy in
  match authorize status observed observed_default green policy landed_default
          stackless_native_singleton with
  | AuthRefuse cause => refuse_merge cause caravan_id number observed expected_head
  | AuthWait block detail => wait_merge number block detail
  | AuthProof proof =>
      submit_merge status caravan_id number remaining
        (mkMergeDecision observed reads (mkBranchSnapshot repository default_branch observed_default)
           proof containment root_policy)
  end.

(** *** Draining a caravan *)

(** One landed root: its successor is promoted and observed again. *)
Definition advance_root (status : LandingStatus) (caravan_id root next : PrNumber) : Eff unit :=
  do* promote_root status caravan_id next (Some root) true in
  do* modify (record_head_advancement root next) in
  let* observation := observe_ci (ls_repository status) next in
  do* modify (λ p, with_ci (replace_by ob_pr observation (pg_ci p)) p) in
  verify_required_runs (ls_repository status) caravan_id next.

(** The default branch the landing of [root] produced. *)
Definition landed_default_of (p : SyncProgress Diag) (root : PrNumber) : option CommitOid :=
  (λ r, br_oid (ay_default_after (ro_ancestry r))) <$>
    List.find (λ r, N.eqb (ro_pr r) root) (reverse (pg_root_merge p)).

(** The loop on the members that remain. *)
Fixpoint drain_roots (status : LandingStatus) (caravan_id : PrNumber) (singleton : bool) (merged : N)
    (landed_default : option CommitOid) (remaining : list PrNumber) : Eff unit :=
  match remaining with
  | [] => ret ()
  | root :: rest =>
      let* limit := setting se_max_root_merges in
      if (limit <=? merged)%N then modify (record_merge_wait root MergeBudgetReached None)
      else
        let* landed := merge_root status caravan_id root remaining landed_default singleton in
        if negb landed then ret ()
        else
          let* p := progress in
          match rest with
          | [] => ret ()
          | next :: _ =>
              do* advance_root status caravan_id root next in
              drain_roots status caravan_id singleton (N.min u32_max (merged + 1))
                (landed_default_of p root) rest
          end
  end.

Definition drain_caravan_roots (status : LandingStatus) (caravan : Caravan)
    (stackless_native_singleton : bool) : Eff unit :=
  drain_roots status (cv_id caravan) stackless_native_singleton 0 None (cv_members caravan).
End tick.
