(* ===== verification/LandingProofs.v ===== *)
(** What the landing transaction guarantees, as properties of the log of its
    provider calls and of the receipts it keeps: a squash is one fenced step
    of a merge, a landing receipt was proved, and a caravan lands in order. *)

From Stdlib Require Import Ascii String.
From S2P Require Import Prelude Text Model Mutations Lineage RequiredRuns Generation Graph RootMerge Effects Landing.

#[local] Open Scope string_scope.
#[local] Open Scope list_scope.
#[local] Open Scope nat_scope.
#[local] Open Scope effect_scope.

(** ** The authorization *)

(** C5. A landing is authorized exactly when the root is open, ready, on the
    default branch and conflict-free there, its required contexts are green,
    no foreign merge actor is armed under a refusing policy, the forge does
    not object, and a cumulative-tree proof of this head on this default
    branch exists whose result is the validated tree and whose target the head
    contains, or is what this tick landed. The last two are waived for a
    singleton without a stack only. *)
Theorem landing_is_authorized_exactly status observed observed_default green policy landed singleton proof :
  authorize status observed observed_default green policy landed singleton = AuthProof proof ↔
  find_tree_proof status (pr_head observed) observed_default = Some proof
  ∧ pr_state observed = Open ∧ pr_draft observed = false
  ∧ br_name (pr_base observed) = ls_default_branch status ∧ green = true
  ∧ (am_enabled (pr_auto_merge observed) = true → policy = PolicyDisable)
  ∧ (ct_identical proof = true ∨ head_is_conflict_free_with_default status observed = true)
  ∧ (singleton = true ∨ ct_identical proof = true
     ∧ (ct_target_reachable_from_candidate proof = true ∨ landed = Some observed_default))
  ∧ forge_refuses observed = false.
Proof.
  unfold authorize. set (facts := mkRootMergeFacts _ _ _ _ _).
  assert (is_some_and landed (λ oid, String.eqb oid observed_default) = true ↔ landed = Some observed_default)
    as Hlanded.
  { destruct landed; simpl; [rewrite String.eqb_eq; naive_solver | done]. }
  split.
  - destruct (merge_gate observed facts) as [| block | cause] eqn:Hg; [| done..].
    apply merge_gate_eligible in Hg as (Ho & Hd & Hb & Hp & Hc & Hg & _).
    destruct (find_tree_proof _ _ _) as [proof' |] eqn:Ht; [| done].
    destruct (ct_identical proof') eqn:Hi, singleton; cbn [negb andb]; try done;
      [| destruct (negb (retained_patch_set_holds _ _)) eqn:Hr; [done |] |];
      (destruct (forge_refuses observed) eqn:Hf; [done |]); intros [= <-]; repeat split; try done; auto.
    + right. split; [done |]. apply negb_false_iff, orb_true_iff in Hr. naive_solver.
    + right. subst facts. simpl in Hc. by rewrite Hi in Hc.
  - intros (Ht & Ho & Hd & Hb & Hg & Hp & Hc & Hs & Hf).
    assert (merge_gate observed facts = Eligible) as ->.
    { apply merge_gate_eligible. subst facts. rewrite Ht. simpl. repeat split; try done.
      destruct Hc as [-> | ->]; [done | by rewrite orb_true_r]. }
    rewrite Ht, Hf. destruct Hs as [-> | [Hi Hr]]; [by rewrite andb_false_r |].
    rewrite Hi. cbn [negb andb]. unfold retained_patch_set_holds.
    destruct Hr as [-> | Hr%Hlanded]; [by rewrite andb_false_r |]. by rewrite Hr, orb_true_r, andb_false_r.
Qed.

(** ** What every part of the transaction keeps *)

Section moves.
Context {W E Diag : Type} `{!LandingProvider W E Diag}.

#[local] Abbreviation State := (Tick W E Diag).
#[local] Abbreviation Eff A := (M (Tick W E Diag) (SyncError E) A).
Implicit Types s : State.
Implicit Types p : SyncProgress Diag.

Definition not_squash (c : Call E) : Prop := match c with CallSquash _ _ => False | _ => True end.

(** The provider answers about the pull request it was asked about. *)
Definition exact (c : Call E) : Prop :=
  match c with
  | CallRefetch number (Ok pr) => pr_number pr = number
  | CallComment expected _ (Ok receipt) => pr_number (gm_after receipt) = pc_number expected
  | _ => True
  end.

(** The current facts are filed under their own number. *)
Definition filed (s : State) : Prop :=
  map_Forall (λ number pr, pr_number pr = number) (pg_current (tk_progress s)).

(** The provider answered these facts: to a read, or to the retarget. *)
Definition shown (log : list (Call E)) (number : PrNumber) (pr : PullRequestSnapshot) : Prop :=
  CallRefetch number (Ok pr) ∈ log
  ∨ ∃ expected branch receipt, CallSetBase expected branch (Ok receipt) ∈ log ∧ gm_after receipt = pr.

(** What a promotion rests on: the facts [before] it were read, those [after]
    it, on the same head, were answered, and when Cara retargeted the base, the
    provider accepted the retarget of exactly the facts that were read. *)
Definition promotion_answered (log : list (Call E)) (number : PrNumber) (before after : PullRequestSnapshot)
    (default_branch : string) (retargeted : bool) : Prop :=
  CallRefetch number (Ok before) ∈ log ∧ shown log number after
  ∧ br_oid (pr_head after) = br_oid (pr_head before) ∧ br_name (pr_base after) = default_branch
  ∧ if retargeted then ∃ receipt, CallSetBase (precondition_of before) default_branch (Ok receipt) ∈ log
    else after = before.

(** A receipt of a promotion: sealed, and of facts the provider answered. *)
Definition promotion_proved (log : list (Call E)) (r : RootPromotionReceipt) : Prop :=
  promotion_hash_is_valid promotion_json r = true ∧ proves_default_base r = true
  ∧ ∃ number before after,
      promotion_answered log number before after (po_default_branch r) (rv_engine_mutated (po_provenance r))
      ∧ po_base_before r = pr_base before
      ∧ po_pr r = pr_number after ∧ po_head r = pr_head after ∧ po_base_after r = pr_base after.

(** The merged facts were answered by the provider: to a read, by the squash, or
    they are those the accepted squash was sent on. *)
Definition landed_answered (log : list (Call E)) (number : PrNumber) (landed : PullRequestSnapshot) : Prop :=
  ∃ expected receipt, CallSquash expected (Ok receipt) ∈ log
    ∧ (landed = gm_after receipt ∨ expected = precondition_of landed ∨ CallRefetch number (Ok landed) ∈ log).

(** A receipt of a landing: sealed, of facts the provider answered, merged into
    the default branch, and the default branch after it was read to contain the
    commit of the merge of this pull request. *)
Definition merge_proved (log : list (Call E)) (r : RootMergeReceipt) : Prop :=
  merge_hash_is_valid merge_json r = true ∧ proves_default_branch_landing r = true
  ∧ CallBranchHead (ro_default_branch r) (Ok (br_oid (ay_default_after (ro_ancestry r)))) ∈ log
  ∧ (∃ number landed, landed_answered log number landed
       ∧ ro_pr r = pr_number landed ∧ ro_head r = pr_head landed ∧ ro_base r = pr_base landed
       ∧ CallMergeCommit number (Ok (ay_merge_commit (ro_ancestry r))) ∈ log)
  ∧ (∀ commit, ay_merge_commit (ro_ancestry r) = Some commit →
       ∃ relation, contains_base relation = true
         ∧ CallCompare commit (br_oid (ay_default_after (ro_ancestry r))) (Ok relation) ∈ log).

Definition proved (s : State) : Prop :=
  Forall (promotion_proved (tk_log s)) (pg_root_promotion (tk_progress s))
  ∧ Forall (merge_proved (tk_log s)) (pg_root_merge (tk_progress s)).

(** From [s] to [s'] the log grew by [new]. *)
Definition moved (new : list (Call E)) (s s' : State) : Prop :=
  tk_log s' = tk_log s ++ new
  ∧ pg_settings (tk_progress s') = pg_settings (tk_progress s)
  ∧ (Forall exact new → filed s → filed s')
  ∧ (proved s → proved s').

Definition moves (P : Call E → Prop) (s s' : State) : Prop := ∃ new, moved new s s' ∧ Forall P new.
Definition steps {A} (R : State → State → Prop) (m : Eff A) : Prop := ∀ s, R s (m s).2.

Lemma moved_trans n1 n2 a b c : moved n1 a b → moved n2 b c → moved (n1 ++ n2) a c.
Proof.
  intros (L1 & S1 & F1 & P1) (L2 & S2 & F2 & P2). split_and!.
  - by rewrite L2, L1, app_assoc.
  - by rewrite S2.
  - intros [? ?]%Forall_app ?. auto.
  - auto.
Qed.

Lemma moved_refl s : moved [] s s.
Proof. split_and!; [by rewrite app_nil_r | done..]. Qed.

#[export] Instance moves_preorder P : PreOrder (moves P).
Proof.
  split.
  - intros s. exists []. split; [apply moved_refl | constructor].
  - intros a b c (n1 & H1 & F1) (n2 & H2 & F2). exists (n1 ++ n2).
    split; [by eapply moved_trans | by apply Forall_app].
Qed.

Lemma merge_proved_mono log new r : merge_proved log r → merge_proved (log ++ new) r.
Proof.
  intros (H1 & H2 & H3 & (n & landed & (e & g & Hs & Hl) & Hn & Hh & Hb & Hmc) & H6). split_and!; try done.
  - set_solver.
  - exists n, landed. split_and!; [| done.. | set_solver]. exists e, g. set_solver.
  - intros commit Hc. destruct (H6 commit Hc) as (rel & ? & ?). exists rel. set_solver.
Qed.

Lemma promotion_proved_mono log new r : promotion_proved log r → promotion_proved (log ++ new) r.
Proof.
  intros (H1 & H2 & number & before & after & (Hb & Ha & Hh & Hn & Hr) & Hrest). split_and!; [done.. |].
  exists number, before, after. split; [| done]. split_and!; [set_solver | | done | done |].
  - destruct Ha as [Ha | (e & b & g & Ha & Hg)]; [left; set_solver | right; exists e, b, g; set_solver].
  - case_match; [| done]. destruct Hr as [g Hr]. exists g. set_solver.
Qed.

(** A provider call: only the log and the provider change. *)
Lemma moved_call s c w : moved [c] s (mkTick (tk_progress s) (tk_log s ++ [c]) w).
Proof.
  split_and!; [done | done | done |]. intros [Hp Hm]. split; cbn.
  - eapply Forall_impl; [exact Hp |]. intros r. apply promotion_proved_mono.
  - eapply Forall_impl; [exact Hm |]. intros r. apply merge_proved_mono.
Qed.

(** An update of the progress beside the receipts. *)
Lemma moved_progress s p w :
  pg_settings p = pg_settings (tk_progress s) →
  pg_root_promotion p = pg_root_promotion (tk_progress s) →
  pg_root_merge p = pg_root_merge (tk_progress s) →
  (filed s → map_Forall (λ number pr, pr_number pr = number) (pg_current p)) →
  moved [] s (mkTick p (tk_log s) w).
Proof.
  intros Hs Hp Hm Hc. split_and!; cbn; [by rewrite app_nil_r | done | by intros _ | ].
  unfold proved. cbn. by rewrite Hp, Hm.
Qed.

Lemma moved_insert new s s1 number pr :
  moved new s s1 → CallRefetch number (Ok pr) ∈ new →
  moved new s (mkTick (insert_current number pr (tk_progress s1)) (tk_log s1) (tk_host s1)).
Proof.
  intros (Hl & Hs & Hf & Hp) Hin. split_and!; [done | done | | done]. intros Hx Hw.
  apply map_Forall_insert_2; [exact (proj1 (Forall_forall _ _) Hx _ Hin) | by apply Hf].
Qed.

Lemma moved_record s receipt summary :
  moved [] s (mkTick (record receipt summary (tk_progress s)) (tk_log s) (tk_host s)).
Proof. apply moved_progress; [done..|]. intros Hf. by apply map_Forall_insert_2. Qed.

Lemma moved_then_record new s s1 receipt summary :
  moved new s s1 →
  moved new s (mkTick (record receipt summary (tk_progress s1)) (tk_log s1) (tk_host s1)).
Proof. intros Hm. rewrite <- (app_nil_r new). eapply moved_trans; [exact Hm | apply moved_record]. Qed.

(** *** The monad *)

(** One stage of a computation: it stops here, or the rest runs. *)
Lemma stage {A B} R (m : Eff A) (f : A → Eff B) s :
  steps R m →
  (∃ e s1, bind m f s = (Err e, s1) ∧ R s s1)
  ∨ ∃ a s1, m s = (Ok a, s1) ∧ R s s1 ∧ bind m f s = f a s1.
Proof.
  intros Hm. specialize (Hm s). unfold bind. destruct (m s) as [[a | e] s1]; [right | left]; eauto.
Qed.

Lemma steps_out {A} (R : State → State → Prop) (m : Eff A) s r s1 : steps R m → m s = (r, s1) → R s s1.
Proof. intros Hm Hr. specialize (Hm s). by rewrite Hr in Hm. Qed.

Lemma steps_bind {A B} R `{!Transitive R} (m : Eff A) (f : A → Eff B) :
  steps R m → (∀ a, steps R (f a)) → steps R (bind m f).
Proof.
  intros Hm Hf s. destruct (stage R m f s Hm) as [(e & s1 & -> & Hx) | (a & s1 & _ & Hx & ->)];
    [done |]. etrans; [exact Hx | apply Hf].
Qed.

Lemma steps_same {A} P (m : Eff A) : (∀ s, (m s).2 = s) → steps (moves P) m.
Proof. intros Hm s. by rewrite Hm. Qed.

Lemma steps_ret {A} P (a : A) : steps (moves P) (ret a).
Proof. by apply steps_same. Qed.
Lemma steps_throw {A} P (e : SyncError E) : steps (moves P) (throw (A := A) e).
Proof. by apply steps_same. Qed.
Lemma steps_ask {A} P (f : State → A) : steps (moves P) (ask f).
Proof. by apply steps_same. Qed.
Lemma steps_setting {A} P (f : SyncSettings → A) : steps (moves P) (setting f).
Proof. by apply steps_same. Qed.
Lemma steps_progress P : steps (moves P) progress.
Proof. by apply steps_same. Qed.
Lemma steps_ensure P b e : steps (moves P) (ensure b e).
Proof. by apply steps_same. Qed.
Lemma steps_expect {A} P (o : option A) message : steps (moves P) (expect o message).
Proof. by apply steps_same. Qed.
Lemma steps_clock P : steps (moves P) clock.
Proof.
  intros s. unfold clock. destruct (now_unix _) as [n w]. exists [].
  split; [by apply moved_progress | constructor].
Qed.
Lemma steps_pause P : steps (moves P) pause.
Proof. intros s. exists []. split; [by apply moved_progress | constructor]. Qed.

Lemma steps_request {A} (P : Call E → Prop) (op : W → result A E * W) entry :
  (∀ r, P (entry r)) → steps (moves P) (request op entry).
Proof.
  intros Hp s. unfold request. destruct (op (tk_host s)) as [r w]. exists [entry r].
  split; [apply moved_call | by constructor].
Qed.

Lemma steps_call_or {A} (P : Call E → Prop) (op : W → result A E * W) entry err :
  (∀ r, P (entry r)) → steps (moves P) (call_or op entry err).
Proof.
  intros Hp. unfold call_or. apply steps_bind; [apply _ | by apply steps_request |].
  intros [a | e]; [apply steps_ret | apply steps_throw].
Qed.
Lemma steps_call {A} (P : Call E → Prop) (op : W → result A E * W) entry number :
  (∀ r, P (entry r)) → steps (moves P) (call op entry number).
Proof. apply steps_call_or. Qed.

(** An update of the fields that are neither receipts nor current facts. *)
Lemma steps_modify P f :
  (∀ p, pg_settings (f p) = pg_settings p ∧ pg_root_promotion (f p) = pg_root_promotion p
        ∧ pg_root_merge (f p) = pg_root_merge p ∧ pg_current (f p) = pg_current p) →
  steps (moves P) (modify f).
Proof.
  intros Hf s. destruct (Hf (tk_progress s)) as (? & ? & ? & Hc). exists [].
  split; [apply moved_progress; try done; by rewrite Hc | constructor].
Qed.

Lemma steps_record P receipt summary : steps (moves P) (modify (record receipt summary)).
Proof. intros s. exists []. split; [apply moved_record | constructor]. Qed.

(** A call that returned. *)
Lemma call_ok {A} (op : W → result A E * W) entry err s a s1 :
  call_or op entry err s = (Ok a, s1) →
  moved [entry (Ok a)] s s1 ∧ tk_progress s1 = tk_progress s.
Proof.
  unfold call_or, bind, request. destruct (op (tk_host s)) as [[b | e] w]; intros [= <- <-].
  split; [apply moved_call | done].
Qed.

(** What a test lets through knows that it passed. *)
Lemma steps_ensure_then {B} P b e (f : unit → Eff B) :
  (b = true → ∀ u, steps (moves P) (f u)) → steps (moves P) (bind (ensure b e) f).
Proof. intros Hf s. unfold bind, ensure. destruct b; [by apply Hf | reflexivity]. Qed.

Lemma ensure_run {B} b e (f : unit → Eff B) s r s1 :
  bind (ensure b e) f s = (r, s1) → (b = false ∧ r = Err e ∧ s1 = s) ∨ (b = true ∧ f () s = (r, s1)).
Proof. unfold bind, ensure. destruct b; [right | intros [= <- <-]; left]; done. Qed.

(** A stage from a given state. *)
Lemma bind_at {A B} R `{!Transitive R} (m : Eff A) (f : A → Eff B) s :
  steps R m → (∀ a s1, m s = (Ok a, s1) → R s s1 → R s1 (f a s1).2) → R s (bind m f s).2.
Proof.
  intros Hm Hf. destruct (stage R m f s Hm) as [(e & s1 & -> & Hx) | (a & s1 & Ha & Hx & ->)]; [done |].
  etrans; [exact Hx | by apply Hf].
Qed.

Lemma bind_here {A B} R `{!Transitive R} (m : Eff A) (f : A → Eff B) s :
  R s (m s).2 → (∀ a s1, R s1 (f a s1).2) → R s (bind m f s).2.
Proof.
  intros Hm Hf. unfold bind. destruct (m s) as [[a | e] s1]; [| done]. etrans; [exact Hm | apply Hf].
Qed.

Lemma moves_log P s s1 c : moves P s s1 → c ∈ tk_log s → c ∈ tk_log s1.
Proof. intros (new & (-> & _) & _) Hc. set_solver. Qed.

Lemma moved_log new s s1 c : moved new s s1 → c ∈ new → c ∈ tk_log s1.
Proof. intros (-> & _) Hc. set_solver. Qed.

(** The rest of a run. *)
Lemma steps_run {A} R `{!Transitive R} (m : Eff A) s s1 : steps R m → R s s1 → R s (m s1).2.
Proof. intros Hm Hs. etrans; [exact Hs | apply Hm]. Qed.

(** A refetch, with what is known when the rest runs. *)
Lemma steps_refetch {B} (P : Call E → Prop) repository number (f : PullRequestSnapshot → Eff B) :
  (∀ r, P (CallRefetch number r)) →
  (∀ pr s s1, moved [CallRefetch number (Ok pr)] s s1 → moves P s (f pr s1).2) →
  steps (moves P) (bind (refetch repository number) f).
Proof.
  intros Hp Hf s. destruct (stage (moves P) (refetch repository number) f s) as
    [(e & s1 & -> & Hx) | (pr & s1 & Hr & _ & ->)]; [by apply steps_call | done |].
  apply call_ok in Hr as [Hm _]. by apply Hf.
Qed.

(** Its answer becomes the current fact. *)
Lemma insert_seen P s s1 number pr :
  (∀ r, P (CallRefetch number r)) → moved [CallRefetch number (Ok pr)] s s1 →
  moves P s (modify (insert_current number pr) s1).2.
Proof.
  intros Hp Hm. exists [CallRefetch number (Ok pr)]. split; [| by constructor].
  apply moved_insert; [done | by left].
Qed.

Lemma steps_refetch_insert {B} P repository number (f : PullRequestSnapshot → Eff B) :
  (∀ r, P (CallRefetch number r)) → (∀ pr, steps (moves P) (f pr)) →
  steps (moves P) (bind (refetch repository number)
                     (λ pr, bind (modify (insert_current number pr)) (λ _, f pr))).
Proof.
  intros Hp Hf. apply steps_refetch; [done |]. intros pr s s1 Hm. unfold bind at 1. cbn.
  etrans; [by apply (insert_seen P s s1 number pr) | apply Hf].
Qed.
End moves.

Create HintDb moves.
#[global] Hint Resolve steps_ret steps_throw steps_ask steps_setting steps_progress steps_ensure
  steps_expect steps_clock steps_pause steps_record : moves.
#[global] Hint Extern 1 (steps (moves _) (call _ _ _)) => (apply steps_call; intros ?; exact I) : moves.
#[global] Hint Extern 1 (steps (moves _) (call_or _ _ _)) => (apply steps_call_or; intros ?; exact I) : moves.
#[global] Hint Extern 1 (steps (moves _) (request _ _)) => (apply steps_request; intros ?; exact I) : moves.
#[global] Hint Extern 1 (steps (moves _) (refetch _ _)) => (apply steps_call; intros ?; exact I) : moves.
#[global] Hint Extern 1 (steps (moves _) (modify _)) =>
  (apply steps_modify; intros ?; repeat case_match; done) : moves.

(** Walks through a computation, one call, test or return at a time. *)
Ltac walk :=
  repeat first
    [ match goal with |- ∀ _, _ => intros ? end
    | solve [auto with nocore moves]
    | apply steps_refetch_insert; [intros ?; exact I |]
    | apply steps_ensure_then
    | apply steps_bind; [apply _ | |]
    | case_match; simplify_eq ].

(** Enters the first stage of the run from a given state. *)
Tactic Notation "stage_at" simple_intropattern(a) simple_intropattern(s) simple_intropattern(H)
    simple_intropattern(R) :=
  apply (bind_at (moves not_squash)); [solve [walk] | intros a s H R].

(** ** The helpers *)

Section helpers.
Context {W E Diag : Type} `{!LandingProvider W E Diag}.

#[local] Abbreviation State := (Tick W E Diag).
#[local] Abbreviation Eff A := (M (Tick W E Diag) (SyncError E) A).
#[local] Abbreviation calm m := (steps (moves not_squash) m).
Implicit Types s : State.

Lemma steps_current_of number : calm (current_of number).
Proof. unfold current_of. walk. Qed.
Lemma steps_precondition number : calm (precondition number).
Proof. unfold precondition. walk. Qed.
Lemma steps_capacity n : calm (ensure_mutation_capacity n).
Proof. unfold ensure_mutation_capacity. walk. Qed.
#[local] Hint Resolve steps_current_of steps_precondition steps_capacity : moves.

Lemma steps_reread_head repository number expected left_ observed reads :
  calm (reread_head repository number expected left_ observed reads).
Proof. revert observed reads. induction left_ as [| n IH]; intros observed reads; cbn; walk; apply IH. Qed.

Lemma steps_confirm_base repository number default_branch head left_ observed reads :
  calm (confirm_base repository number default_branch head left_ observed reads).
Proof. revert observed reads. induction left_ as [| n IH]; intros observed reads; cbn; walk; apply IH. Qed.

Lemma steps_confirm_merged repository number left_ observed reads :
  calm (confirm_merged repository number left_ observed reads).
Proof. revert observed reads. induction left_ as [| n IH]; intros observed reads; cbn; walk; apply IH. Qed.

Lemma steps_refuse {A} cause caravan_id number observed head :
  calm (refuse_merge (A := A) cause caravan_id number observed head).
Proof. unfold refuse_merge. walk. Qed.
Lemma steps_wait number block detail : calm (wait_merge number block detail).
Proof. unfold wait_merge. walk. Qed.
#[local] Hint Resolve steps_refuse steps_wait : moves.

Lemma steps_confirm_reachable repository caravan_id number default_branch observed head commit left_ reads :
  calm (confirm_reachable repository caravan_id number default_branch observed head commit left_ reads).
Proof. revert reads. induction left_ as [| n IH]; intros reads; cbn; walk; apply IH. Qed.

Lemma steps_check_ancestors repository caravan_id number observed oid candidates :
  calm (check_ancestors repository caravan_id number observed oid candidates).
Proof. induction candidates as [| c rest IH]; cbn; walk; apply IH. Qed.

Lemma steps_assess_with_lineage current contexts lineage checks :
  calm (assess_with_lineage current contexts lineage checks).
Proof. unfold assess_with_lineage. walk. Qed.
#[local] Hint Resolve steps_assess_with_lineage : moves.

Lemma steps_assess_required_runs repository current contexts :
  calm (assess_required_runs repository current contexts).
Proof. unfold assess_required_runs, read_lineage. walk. Qed.

Lemma steps_discover repository branch number : calm (discover_required_contexts repository branch number).
Proof. unfold discover_required_contexts. walk. Qed.

Lemma steps_push_required_runs caravan_id assessment retrigger :
  calm (push_required_runs caravan_id assessment retrigger).
Proof. unfold push_required_runs. walk. Qed.
#[local] Hint Resolve steps_assess_required_runs steps_discover steps_push_required_runs : moves.

(** Refetches with tests between the read and the update. *)
Lemma steps_ci_snapshot repository number : calm (refetch_ci_snapshot repository number).
Proof.
  unfold refetch_ci_snapshot. apply steps_bind; [apply _ | walk |]. intros expected.
  apply steps_refetch; [done |]. intros pr s s1 Hm. unfold bind, ensure.
  destruct (mutation_identity_eq _ _); [by apply (insert_seen not_squash s s1 number pr) |].
  exists [CallRefetch number (Ok pr)]. split; [done | by constructor].
Qed.

Lemma steps_retrigger repository number suite contexts before :
  calm (retrigger_required_runs repository number suite contexts before).
Proof.
  unfold retrigger_required_runs. do 4 (apply steps_bind; [apply _ | solve [walk] | intros ?]).
  case_match; [| walk]. apply steps_bind; [apply _ | walk |]. intros _.
  apply steps_refetch; [done |]. intros pr s s1 Hm. case_match.
  - exists [CallRefetch number (Ok pr)]. split; [done | by constructor].
  - unfold bind at 1. unfold modify at 1. eapply steps_run;
      [apply _ | walk | by apply (insert_seen not_squash s s1 number pr)].
Qed.
#[local] Hint Resolve steps_ci_snapshot steps_retrigger : moves.

Lemma steps_verify_runs repository caravan_id number :
  calm (verify_required_runs repository caravan_id number).
Proof. unfold verify_required_runs. walk. Qed.

Lemma steps_observe_ci repository number : calm (observe_ci repository number).
Proof. unfold observe_ci. walk. Qed.

Lemma steps_foreign repository caravan_id number :
  calm (ensure_no_foreign_auto_merge repository caravan_id number).
Proof. unfold ensure_no_foreign_auto_merge. walk. Qed.

#[local] Hint Resolve steps_reread_head steps_confirm_base steps_confirm_merged
  steps_confirm_reachable steps_check_ancestors steps_verify_runs steps_observe_ci : moves.

(** *** The read of the root *)

Lemma reread_head_ok repository number expected left_ observed reads s o n s1 :
  reread_head repository number expected left_ observed reads s = (Ok (o, n), s1) →
  ∃ new, moved new s s1 ∧ Forall not_squash new ∧ (o = observed ∨ CallRefetch number (Ok o) ∈ new)
    ∧ tk_progress s1 = tk_progress s.
Proof.
  revert observed reads s. induction left_ as [| k IH]; intros observed reads s; cbn.
  - intros [= <- <- <-]. exists []. split_and!; [apply moved_refl | constructor | by left | done].
  - destruct (is_some_and _ _).
    + intros Hr. bind_inv Hr. injection Hm as <- <-. bind_inv Hr.
      apply call_ok in Hm as [Hm Hp]. apply IH in Hr as (new & Hn & Hf & Ho & Hp1).
      exists ([] ++ [CallRefetch number (Ok a)] ++ new). split_and!.
      * eapply moved_trans; [by apply moved_progress |]. by eapply moved_trans.
      * by constructor.
      * right. destruct Ho as [-> |]; set_solver.
      * rewrite Hp1, Hp. done.
    + intros [= <- <- <-]. exists []. split_and!; [apply moved_refl | constructor | by left | done].
Qed.

Lemma read_exact_ok repository caravan_id number previous default_branch s o n s1 :
  read_exact_root_generation repository caravan_id number previous default_branch s = (Ok (o, n), s1) →
  ∃ new, moved new s s1 ∧ Forall not_squash new ∧ CallRefetch number (Ok o) ∈ new
    ∧ pg_current (tk_progress s1) = <[number := o]> (pg_current (tk_progress s))
    ∧ pg_head_advancements (tk_progress s1) = pg_head_advancements (tk_progress s).
Proof.
  unfold read_exact_root_generation. intros Hr. bind_inv Hr. apply call_ok in Hm as [Hm Hp].
  bind_inv Hr. destruct a0 as [o' n']. apply reread_head_ok in Hm0 as (new & Hn & Hf & Ho & Hp1).
  bind_inv Hr. apply ensure_ok in Hm0 as [_ ->]. bind_inv Hr.
  assert (w1 = w0) as ->. { destruct previous; [by apply ensure_ok in Hm0 as [_ ->] | by injection Hm0]. }
  injection Hr as <- <- <-.
  exists ([CallRefetch number (Ok a)] ++ new). split_and!; [| by constructor | | by cbn; rewrite Hp1, Hp..].
  - apply moved_insert; [by eapply moved_trans | destruct Ho as [-> |]; set_solver].
  - destruct Ho as [-> |]; set_solver.
Qed.

Lemma steps_read_exact repository caravan_id number previous default_branch :
  calm (read_exact_root_generation repository caravan_id number previous default_branch).
Proof.
  unfold read_exact_root_generation. apply steps_refetch; [done |]. intros pr s s1 Hm.
  match goal with |- context [bind (reread_head ?r ?n ?x ?k ?f ?d) ?g s1] =>
    destruct (stage (moves not_squash) (reread_head r n x k f d) g s1) as
      [(e & s2 & -> & Hx) | ([o n'] & s2 & Hr & _ & ->)]; [apply steps_reread_head | |] end.
  - cbn. etrans; [exists [CallRefetch number (Ok pr)]; split; [done | by constructor] | done].
  - apply reread_head_ok in Hr as (new & Hn & Hf & Ho & _).
    assert (moved (CallRefetch number (Ok pr) :: new) s s2) as Hs by by eapply (moved_trans [_]).
    assert (moves not_squash s s2) as Hq by (eexists; split; [done | by constructor]).
    destruct previous as [previous |]; unfold bind, ensure;
      repeat (match goal with |- context [if ?b then Ok () else _] => destruct b end; [| exact Hq]);
      (exists (CallRefetch number (Ok pr) :: new); split; [| by constructor]);
      (apply moved_insert; [exact Hs | destruct Ho as [-> |]; set_solver]).
Qed.
#[local] Hint Resolve steps_read_exact : moves.

(** *** Receipts *)

Lemma replace_by_Forall {A} (P : A → Prop) key x l : Forall P l → P x → Forall P (replace_by key x l).
Proof.
  intros Hl Hx. apply Forall_app. split; [| by constructor].
  eapply List.incl_Forall; [apply List.incl_filter | exact Hl].
Qed.

Lemma capacity_cases n s r s1 : ensure_mutation_capacity n s = (r, s1) → s1 = s.
Proof. unfold ensure_mutation_capacity, progress, bind, ask, ensure. by intros [= _ <-]. Qed.

Lemma precondition_cases number s r s1 :
  precondition number s = (r, s1) →
  s1 = s ∧ (∀ pr, pg_current (tk_progress s) !! number = Some pr → r = Ok (precondition_of pr)).
Proof.
  unfold precondition, progress, bind, ask, expect, lift, ok_or.
  destruct (pg_current _ !! number); intros [= <- <-]; split; try done; by intros ? [= <-].
Qed.

Lemma expect_ok {A} (o : option A) message s a s1 : expect o message s = (Ok a, s1) → o = Some a ∧ s1 = s.
Proof. unfold expect, ok_or. intros [Ho ->]%lift_ok. by destruct o; simplify_eq. Qed.

Lemma push_promotion_at caravan_id number before observed default_branch predecessor merged trigger reads
    retargeted s :
  promotion_answered (tk_log s) number before observed default_branch retargeted →
  moves not_squash s (push_root_promotion caravan_id observed (pr_base before) default_branch predecessor merged
                        trigger reads retargeted s).2.
Proof.
  intros Hans. unfold push_root_promotion, bind, setting, ask, expect, lift, ok_or.
  destruct (promotion_receipt _ _ _ _ _ _ _ _ _ _ _) as [r |] eqn:Hr; [| reflexivity].
  apply promotion_receipt_spec in Hr as (Hv & Hn & Hh & Ha & Hd & Hbb & Hpv).
  exists []. split; [| constructor].
  assert (promotion_proved (tk_log s) r) as Hproved.
  { split; [done |]. split; [unfold proves_default_base; by rewrite Ha, Hd, (proj1 (proj2 (proj2 (proj2 Hans)))), String.eqb_refl |].
    exists number, before, observed. rewrite Hd, Hpv. by split_and!. }
  assert (proved s → Forall (promotion_proved (tk_log s)) (replace_by po_pr r (pg_root_promotion (tk_progress s)))) as Hp.
  { intros [Hs _]. by apply replace_by_Forall. }
  destruct retargeted; (split_and!; [by rewrite app_nil_r | done | done |]); intros Hs; pose proof Hs as [_ ?];
    (split; [by apply Hp | done]).
Qed.

Lemma confirm_base_ok repository number default_branch expected_head left_ observed reads s o n s1 :
  confirm_base repository number default_branch expected_head left_ observed reads s = (Ok (o, n), s1) →
  o = observed ∨ CallRefetch number (Ok o) ∈ tk_log s1.
Proof.
  revert observed reads s. induction left_ as [| k IH]; intros observed reads s; cbn.
  - intros [= <- <- <-]. by left.
  - destruct (_ || _); [| intros [= <- <- <-]; by left].
    intros Hr. bind_inv Hr. injection Hm as <- <-. bind_inv Hr. apply call_ok in Hm as [Hm _].
    bind_inv Hr. injection Hm0 as <- <-. pose proof Hr as Hr2. apply IH in Hr as [-> | Hr]; [| by right]. right.
    eapply moves_log; [eapply steps_out; [| exact Hr2]; apply steps_confirm_base |]. cbn.
    eapply moved_log; [exact Hm | by left].
Qed.

Lemma requires_write_already observed_base default_branch merged :
  negb (requires_write (promotion_trigger observed_base default_branch merged)) = true →
  observed_base = default_branch.
Proof.
  unfold promotion_trigger. destruct (String.eqb_spec observed_base default_branch); [done |].
  by destruct merged.
Qed.

Lemma steps_promote_root status caravan_id number predecessor merged :
  calm (promote_root status caravan_id number predecessor merged).
Proof.
  intros s. unfold promote_root. stage_at p s0 [= <- <-] _. stage_at [before reads] s2 Hr _.
  apply read_exact_ok in Hr as (new & Hm & _ & Hin & Hcur & _).
  assert (CallRefetch number (Ok before) ∈ tk_log s2) as Hb by by eapply moved_log.
  destruct (negb (requires_write _)) eqn:Hw.
  - apply requires_write_already in Hw. stage_at u s3 [= <- <-] _.
    apply (push_promotion_at _ number). by split_and!; [| left | | |].
  - stage_at u s3 Hcap _. apply capacity_cases in Hcap as ->.
    stage_at expected s3 Hpre _. apply precondition_cases in Hpre as [-> Hpre].
    rewrite Hcur, lookup_insert_eq in Hpre. specialize (Hpre _ eq_refl) as [= ->].
    stage_at receipt s4 Hset _. apply call_ok in Hset as [Hset Hp4].
    stage_at u2 s5 [= <- <-] _. stage_at p5 s5 [= <- <-] _. stage_at observed s5 Hobs _.
    apply expect_ok in Hobs as [Hobs ->]. stage_at [after more] s6 Hconf Hmoves. apply confirm_base_ok in Hconf.
    stage_at u3 s7 [Hhead%String.eqb_eq ->]%ensure_ok _. stage_at u4 s8 [Hbase%String.eqb_eq ->]%ensure_ok _.
    assert (∀ c, c ∈ tk_log s4 → c ∈ tk_log s6) as Hlog by (intros c Hc; eapply moves_log; [exact Hmoves | exact Hc]).
    assert (CallSetBase (precondition_of before) (ls_default_branch status) (Ok receipt) ∈ tk_log s6) as Hs6.
    { apply Hlog. eapply moved_log; [exact Hset | by left]. }
    assert (CallRefetch number (Ok before) ∈ tk_log s6) as Hb6.
    { apply Hlog. destruct Hset as (-> & _). set_solver. }
    apply (push_promotion_at _ number). split_and!; [done | | done | done | by eexists].
    destruct Hconf as [-> | Hc]; [| by left]. cbn in Hobs. rewrite Hp4, Hcur in Hobs.
    destruct (decide (pr_number (gm_after receipt) = number)) as [Heq | Hne].
    + rewrite Heq, lookup_insert_eq in Hobs. injection Hobs as <-. right. by eexists _, _, receipt.
    + rewrite lookup_insert_ne, lookup_insert_eq in Hobs by done. injection Hobs as <-. by left.
Qed.

Lemma steps_advance_root status caravan_id root next : calm (advance_root status caravan_id root next).
Proof.
  unfold advance_root. apply steps_bind; [apply _ | apply steps_promote_root |]. intros _. walk.
Qed.

Lemma confirm_reachable_ok repository caravan_id number default_branch observed head commit left_ reads
    s oid n s1 :
  confirm_reachable repository caravan_id number default_branch observed head commit left_ reads s
    = (Ok (oid, n), s1) →
  CallBranchHead default_branch (Ok oid) ∈ tk_log s1
  ∧ ∀ c, commit = Some c →
      ∃ relation, contains_base relation = true ∧ CallCompare c oid (Ok relation) ∈ tk_log s1.
Proof.
  revert reads s. induction left_ as [| k IH]; intros reads s; cbn; intros Hr; bind_inv Hr;
    apply call_ok in Hm as [Hm _]; (assert (CallBranchHead default_branch (Ok a) ∈ tk_log w) as Hb
      by (eapply moved_log; [exact Hm | by left]));
    (destruct commit as [c |]; [| injection Hr as <- <- <-; split; [done | by intros ? [=]]]);
    bind_inv Hr; apply call_ok in Hm0 as [Hm0 _];
    (destruct (contains_base a0) eqn:Hc;
     [injection Hr as <- <- <-; split;
        [by destruct Hm0 as (-> & _); set_solver
        | intros ? [= <-]; exists a0; split; [done | by eapply moved_log; [exact Hm0 | left]]] |]).
  - done.
  - bind_inv Hr. by apply IH in Hr.
Qed.

Lemma push_merge_at caravan_id observed default_branch ancestry reads s :
  state_is observed Merged = true → br_name (pr_base observed) = default_branch →
  CallBranchHead default_branch (Ok (br_oid (ay_default_after ancestry))) ∈ tk_log s →
  (∃ number, landed_answered (tk_log s) number observed
     ∧ CallMergeCommit number (Ok (ay_merge_commit ancestry)) ∈ tk_log s) →
  (∀ commit, ay_merge_commit ancestry = Some commit → ∃ relation, contains_base relation = true
     ∧ CallCompare commit (br_oid (ay_default_after ancestry)) (Ok relation) ∈ tk_log s) →
  moves not_squash s (push_root_merge caravan_id observed default_branch ancestry reads s).2.
Proof.
  intros Hs Hb H1 (number & H2 & H3) H4. unfold push_root_merge, bind, setting, ask, expect, lift, ok_or.
  destruct (merge_receipt _ _ _ _ _ _ _ _) as [r |] eqn:Hr; [| reflexivity].
  apply merge_receipt_spec in Hr as (Hv & Hrn & Hrh & Hrb & Hrd & Hrm & Hra).
  exists []. split; [| constructor]. split_and!; [by rewrite app_nil_r | done | done |].
  intros [Hp Hm]. split; [done |]. apply replace_by_Forall; [done |].
  unfold merge_proved, proves_default_branch_landing.
  rewrite Hra, Hrd, Hrm, Hs, Hrb, Hb, String.eqb_refl. split_and!; [done.. | | done].
  exists number, observed. by split_and!.
Qed.

Lemma confirm_merged_ok repository number left_ observed reads s o n s1 :
  confirm_merged repository number left_ observed reads s = (Ok (o, n), s1) →
  o = observed ∨ CallRefetch number (Ok o) ∈ tk_log s1.
Proof.
  revert observed reads s. induction left_ as [| k IH]; intros observed reads s; cbn.
  - intros [= <- <- <-]. by left.
  - destruct (negb _); [| intros [= <- <- <-]; by left].
    intros Hr. bind_inv Hr. injection Hm as <- <-. bind_inv Hr. apply call_ok in Hm as [Hm _].
    bind_inv Hr. injection Hm0 as <- <-. pose proof Hr as Hr2. apply IH in Hr as [-> | Hr]; [| by right]. right.
    eapply moves_log; [eapply steps_out; [| exact Hr2]; apply steps_confirm_merged |]. cbn.
    eapply moved_log; [exact Hm | by left].
Qed.

Lemma conclude_merge_at status caravan_id number remaining base d s :
  (∃ expected receipt, CallSquash expected (Ok receipt) ∈ tk_log s
     ∧ ∀ pr, pg_current (tk_progress s) !! number = Some pr → pr = gm_after receipt ∨ expected = precondition_of pr) →
  moves not_squash s (conclude_merge status caravan_id number remaining base d s).2.
Proof.
  intros (e0 & r0 & Hsq & Hcur). unfold conclude_merge.
  stage_at p s1 [= <- <-] _. stage_at pr s1 Ha H1. apply expect_ok in Ha as [Ha ->]. apply Hcur in Ha.
  stage_at [observed reads] s2 Hc H2. apply confirm_merged_ok in Hc.
  stage_at u s3 [Hst ->]%ensure_ok _. stage_at u' s3 [Hb ->]%ensure_ok _.
  stage_at commit s4 [Hc4 _]%call_ok H4. stage_at [oid k] s5 Hr H5.
  apply confirm_reachable_ok in Hr as [Ho Hrel]. stage_at p5 s6 [= <- <-] _.
  apply bind_here; [apply _ | | intros; reflexivity].
  apply push_merge_at; [done | by apply String.eqb_eq | done | | done].
  assert (∀ c, c ∈ tk_log s2 → c ∈ tk_log s5) as Hlog by (intros c Hin; do 2 (eapply moves_log; [eassumption |]); exact Hin).
  exists number. split.
  - exists e0, r0. split; [apply Hlog; by eapply moves_log |].
    destruct Hc as [-> | Hc]; [destruct Ha as [-> | ->]; auto |]. right. right. by apply Hlog.
  - eapply moves_log; [exact H5 |]. eapply moved_log; [exact Hc4 | by left].
Qed.

Lemma conclude_merge_true status caravan_id number remaining base d s b s1 :
  conclude_merge status caravan_id number remaining base d s = (Ok b, s1) → b = true.
Proof.
  unfold conclude_merge. intros Hr. do 3 (bind_inv Hr). destruct a1. do 4 (bind_inv Hr). destruct a4.
  do 2 (bind_inv Hr). by injection Hr.
Qed.

(** *** Before the squash *)

Lemma check_ancestors_ok repository caravan_id number observed oid candidates s evidence s1 :
  check_ancestors repository caravan_id number observed oid candidates s = (Ok evidence, s1) →
  tk_progress s1 = tk_progress s
  ∧ ∃ new, moved new s s1 ∧ Forall not_squash new
    ∧ ∀ c, c ∈ candidates → ∃ relation, contains_base relation = false
        ∧ CallCompare (br_oid (pr_head c)) (br_oid (pr_head observed)) (Ok relation) ∈ new.
Proof.
  revert s evidence. induction candidates as [| c rest IH]; intros s evidence; cbn; intros Hr.
  - injection Hr as <- <-. split; [done |]. exists []. split_and!; [apply moved_refl | constructor | set_solver].
  - bind_inv Hr. apply call_ok in Hm as [H1 P1]. bind_inv Hr. apply call_ok in Hm as [H2 P2].
    destruct (contains_base a) eqn:Hc; [done |]. bind_inv Hr. injection Hr as <- <-.
    apply IH in Hm as (P3 & new & H3 & Hf & Hall). split; [by rewrite P3, P2, P1 |].
    eexists. split_and!; [eapply moved_trans; [exact H1 |]; by eapply moved_trans | by repeat constructor |].
    intros x [-> | Hx]%elem_of_cons; [exists a; split; [done | by left] |].
    destruct (Hall x Hx) as (rel & ? & ?). exists rel. set_solver.
Qed.

(** The assessment is one of these facts, at some time and with some lineage. *)
Definition assessed (observed : PullRequestSnapshot) (policy : RequiredContextsRead)
    (assessment : RequiredRunsAssessment) : Prop :=
  ∃ lineage now grace, assessment = assess (mkRequiredRunsInput (pr_number observed) (pr_head observed)
    (pr_base observed) policy lineage (pr_checks observed) (head_published_at observed lineage)
    (mkRequiredRunsClock now grace)).

Lemma assess_required_runs_ok repository observed policy s assessment s1 :
  assess_required_runs repository observed policy s = (Ok assessment, s1) →
  tk_progress s1 = tk_progress s ∧ assessed observed policy assessment.
Proof.
  assert (∀ lineage s assessment s1,
    assess_with_lineage observed policy lineage (pr_checks observed) s = (Ok assessment, s1) →
    tk_progress s1 = tk_progress s ∧ assessed observed policy assessment) as Ha.
  { intros lineage s0 a s2. unfold assess_with_lineage, bind, clock. destruct (now_unix _) as [now w].
    intros [= <- <-]. split; [done | by eexists _, _, _]. }
  unfold assess_required_runs, read_lineage. intros Hr. bind_inv Hr. injection Hm as <- <-. bind_inv Hr.
  apply Ha in Hr as [Hp ?]. split; [| done]. rewrite Hp. clear -Hm. case_match; [| by injection Hm as _ <-].
  case_match; [by injection Hm as _ <- |]. bind_inv Hm. apply call_ok in Hm0 as [_ <-].
  by injection Hm as _ <-.
Qed.

Definition same_current (s s' : State) : Prop :=
  pg_current (tk_progress s') = pg_current (tk_progress s).
#[local] Instance same_current_preorder : PreOrder same_current.
Proof. split; unfold same_current; [by intros s | intros a b c H1 H2; exact (eq_trans H2 H1)]. Qed.

Lemma push_required_runs_current caravan_id assessment retrigger :
  steps same_current (push_required_runs caravan_id assessment retrigger).
Proof.
  unfold push_required_runs.
  repeat (apply steps_bind; [apply _ | | intros ?]); intros s; unfold same_current; repeat case_match;
    try done; cbn; repeat case_match; done.
Qed.

(** The audit comment: one call on the current facts, whose answer becomes current. *)
Lemma comment_cases repository number operation marker body s r s1 :
  ensure_operation_comment repository number operation marker body s = (r, s1) →
  (∃ e, r = Err e ∧ moves not_squash s s1)
  ∨ ∃ pr receipt sq, r = Ok () ∧ pg_current (tk_progress s) !! number = Some pr
      ∧ moved [CallComment (precondition_of pr) marker (Ok receipt)] s s1
      ∧ pg_current (tk_progress s1) !! number = Some sq
      ∧ (sq = gm_after receipt ∨ sq = pr ∧ pr_number (gm_after receipt) ≠ number).
Proof.
  unfold ensure_operation_comment. intros Hr.
  destruct (ensure_mutation_capacity 1 s) as [[u | e] s2] eqn:Hc.
  2: { rewrite (bind_err _ _ _ _ _ Hc) in Hr. injection Hr as <- <-. left. eexists. split; [done |].
       pose proof (steps_capacity 1 s) as Hs. by rewrite Hc in Hs. }
  rewrite (bind_ok _ _ _ _ _ Hc) in Hr. unfold ensure_mutation_capacity in Hc. bind_inv Hc.
  injection Hm as <- <-. apply ensure_ok in Hc as [_ ->].
  unfold precondition, progress, bind, ask, expect, lift, ok_or in Hr.
  destruct (pg_current (tk_progress s) !! number) as [pr |] eqn:Hp; cbn in Hr.
  2: { injection Hr as <- <-. left. by eexists. }
  unfold call_or, bind, request in Hr.
  destruct (ensure_marked_comment _ _ _ _ _) as [[receipt | e] w]; cbn in Hr.
  2: { injection Hr as <- <-. left. eexists. split; [done |]. eexists. split; [apply moved_call | by constructor]. }
  right. exists pr, receipt.
  pose proof (moved_call s (CallComment (precondition_of pr) marker (Ok receipt)) w) as Hm.
  destruct (is_some_and _ _); injection Hr as <- <-.
  - exists (gm_after receipt). split_and!; try done; [| by apply lookup_insert_eq | by left].
    destruct Hm as (Hl & Hs & Hf & Hp'). split_and!; [done.. | | done]. intros Hx Hw.
    apply map_Forall_insert_2; [| by apply Hw]. apply Forall_cons in Hx as [Hx _].
    exact (eq_trans Hx (Hw _ _ Hp)).
  - destruct (decide (pr_number (gm_after receipt) = number)) as [Heq | Hne].
    + exists (gm_after receipt). split_and!; try done; [| | by left].
      * exact (moved_then_record _ _ _ _ _ Hm).
      * cbn. rewrite Heq. apply lookup_insert_eq.
    + exists pr. split_and!; try done; [| | by right].
      * exact (moved_then_record _ _ _ _ _ Hm).
      * cbn. by rewrite lookup_insert_ne.
Qed.

(** *** The fence of the squash *)

(** The calls from the audit comment to the squash. *)
Definition fence_calls (number : PrNumber) (observed : PullRequestSnapshot) (default_branch : string)
    (oid : CommitOid) (fingerprint : string) (comment : GitHubMutationReceipt)
    (verified : PullRequestSnapshot) (policy : RequiredContextsRead) (squashed : PullRequestSnapshot)
    (answer : result GitHubMutationReceipt E) : list (Call E) :=
  [CallComment (precondition_of observed) (merge_marker number (br_oid (pr_head observed)) fingerprint)
     (Ok comment);
   CallVerify (precondition_of observed) (Ok verified);
   CallVerifyBranch default_branch oid (Ok ());
   CallContexts default_branch (Ok policy);
   CallSquash (precondition_of squashed) answer].

(** The facts the squash is sent on: those the comment answered. *)
Definition sent_on (number : PrNumber) (observed : PullRequestSnapshot) (comment : GitHubMutationReceipt)
    (squashed : PullRequestSnapshot) : Prop :=
  squashed = gm_after comment ∨ squashed = observed ∧ pr_number (gm_after comment) ≠ number.

Lemma send_squash_run status caravan_id number remaining base d sq s r s1 :
  send_squash status caravan_id number remaining base d s = (r, s1) →
  pg_current (tk_progress s) !! number = Some sq →
  (moves not_squash s s1 ∧ r ≠ Ok true)
  ∨ ∃ answer after, moved (CallSquash (precondition_of sq) answer :: after) s s1
      ∧ Forall not_squash after ∧ (r = Ok true → ∃ receipt, answer = Ok receipt).
Proof.
  unfold send_squash. intros Hr Hcur.
  apply bind_cases in Hr as [(e & ->%capacity_cases & ->) | (u & s2 & ->%capacity_cases & Hr)];
    [by left |].
  apply bind_cases in Hr as [(e & [-> Hp]%precondition_cases & ->) | (pc & s2 & [-> Hp]%precondition_cases & Hr)];
    [by left |].
  specialize (Hp _ Hcur) as [= ->]. right.
  apply bind_cases in Hr as [(e & He & ->) | (receipt & s2 & [Hm Hp2]%call_ok & Hr)].
  - unfold call_or, bind, request in He. destruct (squash_merge _ _ _) as [[a | e'] w]; [done |].
    injection He as _ <-. exists (Err e'), []. split_and!; [apply moved_call | constructor | done].
  - apply bind_cases in Hr as [(e & [=] & _) | (u' & s3 & [= _ <-] & Hr)].
    pose proof (moved_then_record _ _ _ receipt
      "squash-merged the promoted caravan root into the exact default branch" Hm) as Hm'.
    match type of Hr with _ ?s3 = _ => set (s3' := s3) in * end.
    destruct (conclude_merge_at status caravan_id number remaining base d s3') as (after & Ha & Hf).
    { exists (precondition_of sq), receipt. split; [eapply (moved_log _ s s3'); [exact Hm' | by left] |].
      cbn. rewrite Hp2. intros pr Hpr. destruct (decide (pr_number (gm_after receipt) = number)) as [Heq | Hne].
      - rewrite Heq, lookup_insert_eq in Hpr. injection Hpr as <-. by left.
      - rewrite lookup_insert_ne, Hcur in Hpr by done. injection Hpr as <-. by right. }
    rewrite Hr in Ha. exists (Ok receipt), after. split_and!; [| done | by exists receipt].
    exact (moved_trans _ _ _ _ _ Hm' Ha).
Qed.

Lemma wait_merge_run number block detail s r s1 :
  wait_merge number block detail s = (r, s1) → moves not_squash s s1 ∧ r ≠ Ok true.
Proof.
  intros Hr. split; [exact (steps_out _ _ _ _ _ (steps_wait number block detail) Hr) |].
  unfold wait_merge, bind, modify, ret in Hr. by simplify_eq.
Qed.

Lemma submit_merge_run status caravan_id number remaining d s r s1 :
  submit_merge status caravan_id number remaining d s = (r, s1) →
  pg_current (tk_progress s) !! number = Some (md_observed d) →
  (moves not_squash s s1 ∧ r ≠ Ok true)
  ∨ ∃ fingerprint comment verified policy squashed answer after,
      moved (fence_calls number (md_observed d) (ls_default_branch status) (br_oid (md_default_before d))
               fingerprint comment verified policy squashed answer ++ after) s s1
      ∧ Forall not_squash after ∧ sent_on number (md_observed d) comment squashed
      ∧ normalized policy = md_policy d ∧ rr_complete (normalized policy) = true
      ∧ (r = Ok true → ∃ receipt, answer = Ok receipt)
      ∧ (Forall exact (fence_calls number (md_observed d) (ls_default_branch status)
           (br_oid (md_default_before d)) fingerprint comment verified policy squashed answer) →
         filed s → pr_number squashed = number).
Proof.
  intros Hr Hcur. unfold submit_merge in Hr.
  match type of Hr with context [merge_marker _ _ (fnv1a64 ?x)] => set (fp := fnv1a64 x) in Hr end.
  apply bind_cases in Hr as [(e & [=] & _) | (p & s0 & [= <- <-] & Hr)].
  apply bind_cases in Hr as [(e & Hm & ->) | (u & s2 & Hm & Hr)];
    apply comment_cases in Hm as [(e' & He & Hq) | (pr & comment & sq & He & Hp & Hm & Hsq & Hs)];
    try done; [by left |].
  rewrite Hcur in Hp. injection Hp as <-.
  assert (moves not_squash s s2) as Hq by (eexists; split; [exact Hm | by constructor]).
  apply bind_cases in Hr as [(e & He1 & ->) | (verified & s3 & [Hm3 P3]%call_ok & Hr)].
  { left. split; [| done]. etrans; [exact Hq |]. eapply steps_out; [| exact He1]. walk. }
  eapply moved_trans in Hm3; [| exact Hm]. clear Hq.
  assert (moves not_squash s s3) as Hq by (eexists; split; [exact Hm3 | by repeat constructor]).
  apply bind_cases in Hr as [(e & He1 & ->) | ([] & s4 & [Hm4 P4]%call_ok & Hr)].
  { left. split; [| done]. etrans; [exact Hq |]. eapply steps_out; [| exact He1]. walk. }
  eapply moved_trans in Hm4; [| exact Hm3]. clear Hq.
  assert (moves not_squash s s4) as Hq by (eexists; split; [exact Hm4 | by repeat constructor]).
  apply bind_cases in Hr as [(e & He1 & ->) | (policy & s5 & [Hm5 P5]%call_ok & Hr)].
  { left. split; [| done]. etrans; [exact Hq |]. eapply steps_out; [| exact He1]. walk. }
  eapply moved_trans in Hm5; [| exact Hm4]. clear Hq.
  assert (moves not_squash s s5) as Hq by (eexists; split; [exact Hm5 | by repeat constructor]).
  destruct (negb (rr_complete (normalized policy)) || _) eqn:Hpol.
  { left. apply wait_merge_run in Hr as [Hw ?]. split; [by etrans | done]. }
  apply orb_false_iff in Hpol as [Hcomplete%negb_false_iff Hpolicy%negb_false_iff%bool_decide_eq_true].
  assert (pg_current (tk_progress s5) !! number = Some sq) as Hsq5 by by rewrite P5, P4, P3.
  apply (send_squash_run _ _ _ _ _ _ _ _ _ _ Hr) in Hsq5 as [[Hw ?] | (answer & after & Hm6 & Hf & Ht)].
  { left. split; [by etrans | done]. }
  right. exists fp, comment, verified, policy, sq, answer, after. split_and!; try done.
  - exact (moved_trans _ _ _ _ _ Hm5 Hm6).
  - intros Hx Hw. destruct Hm as (_ & _ & Hfile & _).
    apply (Hfile ltac:(apply Forall_cons in Hx as [Hx _]; by constructor) Hw _ _ Hsq).
Qed.

(** A run with one squash, sent on [squashed] and answered by [answer]. *)
Definition fenced (status : LandingStatus) (number : PrNumber) (landed : option CommitOid)
    (singleton : bool) (external : ExternalAutoMergePolicy) (squashed : PullRequestSnapshot)
    (answer : result GitHubMutationReceipt E) (new : list (Call E)) : Prop :=
  ∃ before observed oid read assessment proof fingerprint comment verified last after,
    new = before ++ fence_calls number observed (ls_default_branch status) oid fingerprint comment
                      verified last squashed answer ++ after
    ∧ Forall not_squash before ∧ Forall not_squash after
    ∧ sent_on number observed comment squashed
    ∧ CallRefetch number (Ok observed) ∈ before
    ∧ CallBranchHead (ls_default_branch status) (Ok oid) ∈ before
    ∧ (∀ ancestor, ancestor ∈ unmerged_ancestors status number →
         ∃ relation, contains_base relation = false
           ∧ CallCompare (br_oid (pr_head ancestor)) (br_oid (pr_head observed)) (Ok relation) ∈ before)
    ∧ CallContexts (ls_default_branch status) (Ok read) ∈ before
    ∧ normalized last = normalized read ∧ rr_complete (normalized last) = true
    ∧ assessed observed (normalized read) assessment
    ∧ authorize status observed oid (required_green (ls_default_branch status) (normalized read) assessment)
        external landed singleton = AuthProof proof.

Lemma merge_root_run status caravan_id number remaining landed singleton s r s1 :
  merge_root status caravan_id number remaining landed singleton s = (r, s1) →
  (moves not_squash s s1 ∧ r ≠ Ok true)
  ∨ ∃ new squashed answer, moved new s s1
      ∧ fenced status number landed singleton
          (se_external_auto_merge_policy (pg_settings (tk_progress s))) squashed answer new
      ∧ (r = Ok true → ∃ receipt, answer = Ok receipt)
      ∧ (Forall exact new → filed s → pr_number squashed = number).
Proof.
  intros Hr. unfold merge_root in Hr.
  apply bind_cases in Hr as [(e & [=] & _) | (p & s0 & [= <- <-] & Hr)].
  apply bind_cases in Hr as [(e & He & ->) | ([observed reads] & s2 & Hm & Hr)].
  { left. split; [| done]. eapply steps_out; [| exact He]. walk. }
  apply read_exact_ok in Hm as (n2 & Hm2 & Hf2 & Hin & Hcur & _).
  assert (pg_current (tk_progress s2) !! number = Some observed) as Hobs by (rewrite Hcur; apply lookup_insert_eq).
  assert (moves not_squash s s2) as Hq by by exists n2.
  apply bind_cases in Hr as [(e & He & ->) | (oid & s3 & [Hm3 P3]%call_ok & Hr)].
  { left. split; [| done]. etrans; [exact Hq |]. eapply steps_out; [| exact He]. walk. }
  eapply moved_trans in Hm3; [| exact Hm2].
  apply bind_cases in Hr as [(e & He & ->) | (containment & s4 & Hm & Hr)].
  { left. split; [| done]. etrans; [exists (n2 ++ [CallBranchHead (ls_default_branch status) (Ok oid)]);
      split; [exact Hm3 |]; apply Forall_app; split; [done | by constructor] |].
    eapply steps_out; [| exact He]. walk. }
  apply check_ancestors_ok in Hm as [P4 (n4 & Hm4 & Hf4 & Hanc)].
  eapply moved_trans in Hm4; [| exact Hm3].
  set (before4 := (n2 ++ [CallBranchHead _ _]) ++ n4) in Hm4.
  assert (Forall not_squash before4) as Hf4'.
  { unfold before4. repeat (apply Forall_app; split); try done. by constructor. }
  assert (moves not_squash s s4) as Hq4 by by exists before4.
  apply bind_cases in Hr as [(e & He & ->) | (read & s5 & [Hm5 P5]%call_ok & Hr)].
  { left. split; [| done]. etrans; [exact Hq4 |]. eapply steps_out; [| exact He]. walk. }
  eapply moved_trans in Hm5; [| exact Hm4].
  assert (moves not_squash s s5) as Hq5.
  { eexists. split; [exact Hm5 |]. apply Forall_app. split; [done | by constructor]. }
  apply bind_cases in Hr as [(e & He & ->) | (assessment & s6 & Hm & Hr)].
  { left. split; [| done]. etrans; [exact Hq5 |]. eapply steps_out; [| exact He]. walk. }
  pose proof (steps_out _ _ _ _ _ (steps_assess_required_runs _ _ _) Hm) as (n6 & Hm6 & Hf6).
  apply assess_required_runs_ok in Hm as [P6 Hassessed].
  apply bind_cases in Hr as [(e & He & ->) | (u & s7 & Hm & Hr)].
  { left. split; [| done]. etrans; [exact Hq5 |]. etrans; [by exists n6 |].
    eapply steps_out; [| exact He]. walk. }
  pose proof (steps_out _ _ _ _ _ (steps_push_required_runs _ _ _) Hm) as (n7 & Hm7 & Hf7).
  apply (steps_out _ _ _ _ _ (push_required_runs_current _ _ _)) in Hm.
  eapply moved_trans in Hm7; [| exact Hm6]. eapply moved_trans in Hm7; [| exact Hm5].
  apply bind_cases in Hr as [(e & [=] & _) | (external & s8 & [= <- <-] & Hr)].
  set (before := (before4 ++ _) ++ n6 ++ n7) in Hm7.
  assert (Forall not_squash before) as Hf.
  { unfold before. repeat (apply Forall_app; split); first [done | by constructor]. }
  assert (moves not_squash s s7) as Hq7 by by exists before.
  assert (pg_current (tk_progress s7) !! number = Some observed) as Hobs7.
  { rewrite Hm, P6, P5, P4, P3. exact Hobs. }
  rewrite (proj1 (proj2 Hm7)) in Hr.
  destruct (authorize _ _ _ _ _ _ _) as [block detail | cause | proof] eqn:Hauth.
  - left. apply wait_merge_run in Hr as [Hw ?]. split; [by etrans | done].
  - left. unfold refuse_merge, throw in Hr. injection Hr as <- <-. by split.
  - apply submit_merge_run in Hr as [[Hw ?] | Hr]; [left; split; [by etrans | done] | | done].
    destruct Hr as (fp & comment & verified & last & sq & answer & after & Hm8 & Hfa & Hs & Hp & Hc & Hok & Hn).
    cbn [md_observed md_default_before md_policy br_oid] in *.
    right. exists (before ++ fence_calls number observed (ls_default_branch status) oid fp comment verified
      last sq answer ++ after), sq, answer. split_and!.
    + eapply moved_trans; [exact Hm7 | exact Hm8].
    + exists before, observed, oid, read, assessment, proof, fp, comment, verified, last, after.
      split_and!; try done.
      * unfold before, before4. set_solver.
      * unfold before, before4. set_solver.
      * intros a (rel & ? & ?)%Hanc. exists rel. unfold before, before4. set_solver.
      * unfold before. set_solver.
    + done.
    + intros [Hx1 [Hx2 _]%Forall_app]%Forall_app Hw. apply Hn; [done |].
      destruct Hm7 as (_ & _ & Hfile & _). by apply Hfile.
Qed.

(** *** Draining a caravan *)

(** The squashes of a log: the pull request, and whether it was accepted. *)
Definition squash_of (c : Call E) : option (PrNumber * bool) :=
  match c with
  | CallSquash expected answer => Some (pc_number expected, match answer with Ok _ => true | Err _ => false end)
  | _ => None
  end.
Definition squashes (log : list (Call E)) : list (PrNumber * bool) := omap squash_of log.

Lemma squashes_app a b : squashes (a ++ b) = squashes a ++ squashes b.
Proof. apply omap_app. Qed.

Lemma squashes_quiet new : Forall not_squash new → squashes new = [].
Proof. induction 1 as [| c l Hc _ IH]; [done |]. destruct c; done. Qed.

Lemma squashes_fenced status number landed singleton external squashed answer new :
  fenced status number landed singleton external squashed answer new →
  squashes new = [(pr_number squashed, match answer with Ok _ => true | Err _ => false end)].
Proof.
  intros (before & observed & oid & read & assessment & proof & fp & comment & verified & last & after &
          -> & Hb & Ha & _).
  by rewrite !squashes_app, (squashes_quiet before Hb), (squashes_quiet after Ha).
Qed.

(** What a drain does with its first member: nothing lands, or the squash of
    the member ends it, or the member landed and the drain goes on. *)
Lemma drain_cases status caravan_id singleton merged landed root rest s r s' :
  drain_roots status caravan_id singleton merged landed (root :: rest) s = (r, s') →
  moves not_squash s s'
  ∨ ((merged < se_max_root_merges (pg_settings (tk_progress s)))%N
     ∧ ∃ fence quiet squashed answer s2,
         fenced status root landed singleton (se_external_auto_merge_policy (pg_settings (tk_progress s)))
           squashed answer fence
         ∧ (Forall exact fence → filed s → pr_number squashed = root)
         ∧ Forall not_squash quiet ∧ moved (fence ++ quiet) s s2
         ∧ (s' = s2
            ∨ (∃ receipt, answer = Ok receipt)
              ∧ ∃ landed', drain_roots status caravan_id singleton (N.min u32_max (merged + 1)) landed' rest s2
                           = (r, s'))).
Proof.
  cbn [drain_roots]. intros Hd. apply bind_cases in Hd as [(e & [=] & _) | (limit & s0 & [= <- <-] & Hd)].
  destruct (N.leb_spec (se_max_root_merges (pg_settings (tk_progress s))) merged) as [Hle | Hlt].
  { left. pose proof (steps_modify (W := W) (E := E) not_squash (record_merge_wait root MergeBudgetReached None)
      ltac:(done)) as Hs. exact (steps_out _ _ _ _ _ Hs Hd). }
  apply bind_cases in Hd as [(e & Hr & ->) | (b & s1 & Hr & Hd)];
    apply merge_root_run in Hr as [[Hq Hne] | (fence & sq & answer & Hm & Hfe & Hok & Hn)].
  - by left.
  - right. split; [exact Hlt |]. exists fence, [], sq, answer, s'. rewrite app_nil_r.
    split_and!; try done; first [by constructor | by left].
  - left. destruct b; [done |]. by injection Hd as _ <-.
  - right. split; [exact Hlt |]. destruct b.
    2: { injection Hd as _ <-. exists fence, [], sq, answer, s1. rewrite app_nil_r.
         split_and!; try done; first [by constructor | by left]. }
    cbn [negb] in Hd. apply bind_cases in Hd as [(e & [=] & _) | (p & s3 & [= <- <-] & Hd)].
    destruct rest as [| next rest'].
    { injection Hd as _ <-. exists fence, [], sq, answer, s1. rewrite app_nil_r.
      split_and!; try done; first [by constructor | by left]. }
    apply bind_cases in Hd as [(e & Ha & ->) | (u & s2 & Ha & Hd)];
      destruct (steps_out _ _ _ _ _ (steps_advance_root _ _ _ _) Ha) as (quiet & Hm2 & Hf2);
      pose proof (moved_trans _ _ _ _ _ Hm Hm2) as Hm12; exists fence, quiet, sq, answer; eexists;
      (split_and!; [done.. | exact Hm12 |]).
    + by left.
    + right. split; [by apply Hok | by eexists].
Qed.

Lemma drain_roots_run status caravan_id singleton remaining : ∀ merged landed s,
  (se_max_root_merges (pg_settings (tk_progress s)) <= u32_max)%N →
  ∃ new, moved new s (drain_roots status caravan_id singleton merged landed remaining s).2
    ∧ (Forall exact new → filed s →
       ∃ k, (N.of_nat k <= se_max_root_merges (pg_settings (tk_progress s)) - merged)%N
         ∧ (squashes new).*1 = take k remaining
         ∧ Forall (λ x, x.2 = true) (take (k - 1) (squashes new))).
Proof.
  induction remaining as [| root rest IH]; intros merged landed s Hlimit.
  { exists []. split; [apply moved_refl |]. intros _ _. exists 0. split_and!; [lia | done | constructor]. }
  destruct (drain_roots status caravan_id singleton merged landed (root :: rest) s) as [r s'] eqn:Hd.
  cbn. apply drain_cases in Hd as [(new & Hm & Hf) | (Hlt & fence & quiet & sq & answer & s2 & Hfe & Hn & Hq & Hm & Hgo)].
  { exists new. split; [exact Hm |]. intros _ _. exists 0.
    rewrite (squashes_quiet new Hf). split_and!; [lia | done | constructor]. }
  destruct Hgo as [-> | [[receipt ->] [landed' Hrest]]].
  { exists (fence ++ quiet). split; [exact Hm |]. intros [Hx _]%Forall_app Hw. exists 1.
    rewrite squashes_app, (squashes_fenced _ _ _ _ _ _ _ _ Hfe), (squashes_quiet quiet Hq). cbn.
    rewrite (Hn Hx Hw). split_and!; [lia | done | constructor]. }
  destruct (IH (N.min u32_max (merged + 1)) landed' s2) as (new & Hm3 & H3).
  { by rewrite (proj1 (proj2 Hm)). }
  rewrite Hrest in Hm3. exists ((fence ++ quiet) ++ new). split; [by eapply moved_trans |]. intros [Hx12 Hx3]%Forall_app Hw.
  pose proof Hx12 as [Hx _]%Forall_app.
  destruct (H3 Hx3) as (k & Hk & Htake & Hall); [by apply (proj1 (proj2 (proj2 Hm))) |].
  rewrite (proj1 (proj2 Hm)) in Hk. exists (S k).
  rewrite !squashes_app, (squashes_fenced _ _ _ _ _ _ _ _ Hfe), (squashes_quiet quiet Hq). cbn.
  rewrite (Hn Hx Hw). split_and!; [unfold u32_max in *; lia | by f_equal |].
  rewrite Nat.sub_0_r. destruct k as [| k]; [constructor |]. constructor; [done |].
  by replace k with (S k - 1) by lia.
Qed.

(** *** Landing again on a default branch only the discovery knew *)

(** A landing needs a proof on the default branch it read. *)
Lemma fenced_reads_default status number landed singleton external squashed answer new discovered :
  Forall (λ proof, br_oid (ct_target proof) = discovered) (ga_cumulative_trees (ls_analysis status)) →
  fenced status number landed singleton external squashed answer new →
  CallBranchHead (ls_default_branch status) (Ok discovered) ∈ new.
Proof.
  intros Hall (before & observed & oid & read & assessment & proof & fp & comment & verified & last & after &
          -> & _ & _ & _ & _ & Hin & _ & _ & _ & _ & _ & Hauth).
  apply elem_of_app. left. replace discovered with oid; [done |].
  unfold authorize in Hauth. destruct (merge_gate _ _); [| done..].
  destruct (find_tree_proof _ _ _) as [p |] eqn:Hfind; [| done]. clear Hauth.
  unfold find_tree_proof in Hfind. apply List.find_some in Hfind as [Hp Hb].
  apply andb_true_iff in Hb as [_ Hb%String.eqb_eq].
  apply (proj1 (List.Forall_forall _ _) Hall) in Hp. congruence.
Qed.

Lemma drain_needs_discovered status caravan_id singleton remaining merged landed discovered s :
  Forall (λ proof, br_oid (ct_target proof) = discovered) (ga_cumulative_trees (ls_analysis status)) →
  ∃ new, moved new s (drain_roots status caravan_id singleton merged landed remaining s).2
    ∧ (CallBranchHead (ls_default_branch status) (Ok discovered) ∉ new → squashes new = []).
Proof.
  intros Hall. revert merged landed s. induction remaining as [| root rest IH]; intros merged landed s.
  { exists []. split; [apply moved_refl | done]. }
  destruct (drain_roots status caravan_id singleton merged landed (root :: rest) s) as [r s'] eqn:Hd.
  cbn. apply drain_cases in Hd as [(new & Hm & Hf) | (Hlt & fence & quiet & sq & answer & s2 & Hfe & Hn & Hq & Hm & Hgo)].
  { exists new. split; [exact Hm |]. intros _. by apply squashes_quiet. }
  pose proof (fenced_reads_default _ _ _ _ _ _ _ _ _ Hall Hfe) as Hin.
  destruct Hgo as [-> | [_ [landed' Hrest]]].
  - exists (fence ++ quiet). split; [exact Hm |]. set_solver.
  - destruct (IH (N.min u32_max (merged + 1)) landed' s2) as (new & Hm3 & _).
    rewrite Hrest in Hm3.
    exists ((fence ++ quiet) ++ new). split; [by eapply moved_trans |]. set_solver.
Qed.

Lemma drain_lands_once status caravan_id singleton remaining merged landed discovered s :
  Forall (λ proof, br_oid (ct_target proof) = discovered) (ga_cumulative_trees (ls_analysis status)) →
  ∃ new, moved new s (drain_roots status caravan_id singleton merged landed remaining s).2
    ∧ ((∀ before expected receipt after, new = before ++ CallSquash expected (Ok receipt) :: after →
          CallBranchHead (ls_default_branch status) (Ok discovered) ∉ after) →
       length (squashes new) ≤ 1).
Proof.
  intros Hall. destruct remaining as [| root rest].
  { exists []. split; [apply moved_refl | cbn; lia]. }
  destruct (drain_roots status caravan_id singleton merged landed (root :: rest) s) as [r s'] eqn:Hd.
  cbn. apply drain_cases in Hd as [(new & Hm & Hf) | (Hlt & fence & quiet & sq & answer & s2 & Hfe & Hn & Hq & Hm & Hgo)].
  { exists new. split; [exact Hm |]. intros _. rewrite (squashes_quiet new Hf). cbn. lia. }
  destruct Hgo as [-> | [[receipt ->] [landed' Hrest]]].
  { exists (fence ++ quiet). split; [exact Hm |]. intros _.
    rewrite squashes_app, (squashes_fenced _ _ _ _ _ _ _ _ Hfe), (squashes_quiet quiet Hq). cbn. lia. }
  destruct (drain_needs_discovered status caravan_id singleton rest (N.min u32_max (merged + 1)) landed'
    discovered s2 Hall) as (new & Hm3 & Hnone). rewrite Hrest in Hm3.
  exists ((fence ++ quiet) ++ new). split; [by eapply moved_trans |]. intros Hmoves.
  rewrite !squashes_app, (squashes_fenced _ _ _ _ _ _ _ _ Hfe), (squashes_quiet quiet Hq), Hnone; [cbn; lia |].
  destruct Hfe as (before & observed & oid & read & assessment & proof & fp & comment & verified & last & after &
          -> & _).
  intros Hin. unfold fence_calls in Hmoves.
  match type of Hmoves with context [[?a; ?b; ?c; ?d; ?e] ++ after] =>
    refine (Hmoves (before ++ [a; b; c; d]) (precondition_of sq) receipt (after ++ quiet ++ new) _ _) end.
  - by rewrite <- !app_assoc.
  - apply elem_of_app. right. apply elem_of_app. by right.
Qed.

End helpers.
