(* ===== verification/LandingSample.v ===== *)
(** What the landing transaction guarantees: a squash is fenced, the receipts
    are proved, and a caravan lands in order within the budget. The sample
    forge lands a caravan of two. *)

From Stdlib Require Import Ascii String.
From S2P Require Import Prelude Text Model Mutations Lineage RequiredRuns Generation Graph GraphProofs RootMerge Effects Landing LandingProofs.

#[local] Open Scope string_scope.
#[local] Open Scope list_scope.
#[local] Open Scope nat_scope.
#[local] Open Scope effect_scope.

(** ** A sample forge *)

(** Its pull requests, its default branch, and what the next answer of a
    comment shows as the head. *)
Record LandingForge := mkLandingForge {
  lf_rows : gmap PrNumber PullRequestSnapshot;
  lf_default : CommitOid;
  lf_stale_head : option CommitOid }.

Definition land_row (pr : PullRequestSnapshot) (state : PullRequestState) (head : CommitOid) (base : string)
    : PullRequestSnapshot :=
  mkPullRequestSnapshot (pr_number pr) (pr_title pr) (pr_url pr) state (pr_draft pr)
    (mkBranchSnapshot (br_repository (pr_head pr)) (br_name (pr_head pr)) head)
    (mkBranchSnapshot (br_repository (pr_base pr)) base base) (pr_cross_repository pr) (pr_labels pr)
    (pr_auto_merge pr) (pr_checks pr) (pr_created_at pr) (pr_merged_at pr) (pr_updated_at pr)
    (pr_merge_state_status pr).

Definition squash_oid (number : PrNumber) : CommitOid := fmt ["m"; show_pr number].

(** A write on the pull request of a precondition that still holds. *)
Definition forge_write (kind : MutationKind) (expected : PullRequestPrecondition)
    (update : PullRequestSnapshot → PullRequestSnapshot) (default_after : CommitOid) (w : LandingForge)
    : result GitHubMutationReceipt string * LandingForge :=
  match lf_rows w !! pc_number expected with
  | Some pr =>
      if mutation_identity_eq (precondition_of pr) expected
      then (Ok (mkMutationReceipt kind (Some pr) (update pr) None),
            mkLandingForge (<[pc_number expected := update pr]> (lf_rows w)) default_after (lf_stale_head w))
      else (Err "stale", w)
  | None => (Err "missing", w)
  end.

#[local] Instance sample_forge : LandingProvider LandingForge string () := {
  refetch_pull_request _ n w := (ok_or (lf_rows w !! n) "missing", w);
  branch_head_oid _ _ w := (Ok (lf_default w), w);
  compare_commits _ a b w := (Ok (if String.eqb a b then Identical else Diverged), w);
  branch_required_contexts _ branch w := (Ok (unprotected branch), w);
  head_run_lineage _ _ w := (Err "no lineage", w);
  verify_pull_request_with_checks _ expected w :=
    (match lf_rows w !! pc_number expected with
     | Some pr => if mutation_identity_eq (precondition_of pr) expected then Ok pr else Err "stale"
     | None => Err "missing"
     end, w);
  verify_branch_head _ _ oid w := (if String.eqb (lf_default w) oid then Ok () else Err "moved", w);
  merge_commit_oid _ n w := (Ok (Some (squash_oid n)), w);
  ensure_marked_comment _ expected _ _ w :=
    (match lf_rows w !! pc_number expected with
     | Some pr =>
         Ok (mkMutationReceipt Comment (Some pr)
               (match lf_stale_head w with
                | Some head => land_row pr (pr_state pr) head (br_name (pr_base pr))
                | None => pr
                end) None)
     | None => Err "missing"
     end, w);
  set_base _ expected base w :=
    forge_write SetBase expected (λ pr, land_row pr (pr_state pr) (br_oid (pr_head pr)) base) (lf_default w) w;
  squash_merge _ expected w :=
    forge_write SquashMerge expected
      (λ pr, land_row pr Merged (br_oid (pr_head pr)) (br_name (pr_base pr)))
      (squash_oid (pc_number expected)) w;
  disable_auto_merge _ _ w := (Err "unused", w);
  rerequest_check_suite _ _ _ w := (Err "unused", w);
  diagnose_ci _ _ _ disposition w := (Ok (disposition, ()), w);
  now_unix w := (0%N, w);
  sleep w := w;
  show_mutation_error e := e;
  required_runs_json _ := Some [];
  problem_json _ _ _ _ := Some [];
  promotion_json r := Some [po_pr r];
  merge_json r := Some [ro_pr r];
  merge_audit_json _ _ _ _ _ _ _ _ remaining := remaining }.

(** #1 on the default branch and #2 on it; each head is proved on the default
    branch it lands on. *)
Definition sample_pr (number : PrNumber) (head base : string) : PullRequestSnapshot :=
  sample_row number head base Open ["caravan"] false.

Definition landing_rows : gmap PrNumber PullRequestSnapshot :=
  list_to_map [(1%N, sample_pr 1 "a" "main"); (2%N, sample_pr 2 "b" "a")].

Definition landing_proof (number : PrNumber) (head default_oid : CommitOid) (reachable : bool)
    : CumulativeTreeProof :=
  mkCumulativeTreeProof (sample_branch head head) (sample_branch "main" default_oid) head head true reachable.

Definition landing_status : LandingStatus :=
  let a := analysis_of [sample_pr 2 "b" "a"; sample_pr 1 "a" "main"] in
  mkLandingStatus sample_repo "main"
    (mkGraphAnalysis (ga_fleet a) (ga_required_policy a) (ga_pull_requests a) (ga_compatibility a)
       [landing_proof 1 "a" "d0" true; landing_proof 2 "b" (squash_oid 1) false]
       (ga_squash_reconciliations a)).

Definition landing_tick (limit : N) (stale : option CommitOid) : Tick LandingForge string () :=
  mkTick
    (mkSyncProgress (mkSyncSettings "op" sample_repo "main" ActorCaravan PolicyDisable limit 0 false 100)
       [] [] [] [] [] [] ∅ [] [] [] landing_rows)
    [] (mkLandingForge landing_rows "d0" stale).

Definition landing_run (limit : N) (stale : option CommitOid) : result () (SyncError string) * Tick LandingForge string () :=
  drain_caravan_roots landing_status (mkCaravan 1 [1%N; 2%N] false) false (landing_tick limit stale).

Example both_land :
  ((landing_run 2 None).1, squashes (tk_log (landing_run 2 None).2)) = (Ok (), [(1%N, true); (2%N, true)]).
Proof. vm_compute. reflexivity. Qed.

Example one_lands_within_the_budget :
  ((landing_run 1 None).1, squashes (tk_log (landing_run 1 None).2)) = (Ok (), [(1%N, true)]).
Proof. vm_compute. reflexivity. Qed.

(** The squash follows the answer of the comment: a head shown there only is
    the one the squash expects, although another was verified after it. *)
Definition squash_heads (log : list (Call string)) : list CommitOid :=
  omap (λ c, match c with CallSquash expected _ => Some (pc_head_oid expected) | _ => None end) log.
Definition verified_heads (log : list (Call string)) : list CommitOid :=
  omap (λ c, match c with CallVerify expected (Ok _) => Some (pc_head_oid expected) | _ => None end) log.

Example squash_expects_the_commented_head :
  verified_heads (tk_log (landing_run 1 (Some "other")).2) = ["a"]
  ∧ squash_heads (tk_log (landing_run 1 (Some "other")).2) = ["other"].
Proof. split; vm_compute; reflexivity. Qed.

(** ** The properties *)

Section properties.
Context {W E Diag : Type} `{!LandingProvider W E Diag}.
Implicit Types s : Tick W E Diag.

(** C1. A merge sends at most one squash, and only behind its fence: the calls
    before it hold the read of the root, of the default branch and of its
    required contexts, and a comparison that clears every unmerged ancestor;
    on those facts the landing is authorized with a complete required policy
    that the assessment of this head satisfies; and the squash is preceded
    immediately by the audit comment on the head, the verification of the
    same facts with their checks, the verification of the same default branch,
    and a second read of the required contexts that changed nothing. A landing
    is reported only when the provider accepted that squash. *)
Theorem landing_is_fenced status caravan_id number remaining landed singleton s :
  let '(r, s') := merge_root status caravan_id number remaining landed singleton s in
  ∃ new, tk_log s' = tk_log s ++ new
    ∧ (squashes new = [] ∧ r ≠ Ok true
       ∨ ∃ squashed answer,
           fenced status number landed singleton
             (se_external_auto_merge_policy (pg_settings (tk_progress s))) squashed answer new
           ∧ (r = Ok true → ∃ receipt, answer = Ok receipt)).
Proof.
  destruct (merge_root _ _ _ _ _ _ s) as [r s1] eqn:Hr.
  apply merge_root_run in Hr as [[(new & (Hl & _) & Hf) Hne] | (new & sq & answer & (Hl & _) & Hfe & Hok & _)].
  - exists new. split; [exact Hl | left]. split; [by apply squashes_quiet | exact Hne].
  - exists new. split; [exact Hl | right; by exists sq, answer].
Qed.


(** C3. A caravan lands from its root in the order of its members: the
    squashes of a drain are those of a prefix of the members, one each, no more
    than the budget of the tick, and each but the last was accepted. This asks
    of the provider that it answers about the pull request it was asked about. *)
Theorem caravan_lands_in_order status caravan singleton s :
  (se_max_root_merges (pg_settings (tk_progress s)) <= u32_max)%N → filed s →
  let s' := (drain_caravan_roots status caravan singleton s).2 in
  ∃ new, tk_log s' = tk_log s ++ new
    ∧ (Forall exact new →
       ∃ k, (N.of_nat k <= se_max_root_merges (pg_settings (tk_progress s)))%N
         ∧ (squashes new).*1 = take k (cv_members caravan)
         ∧ Forall (λ x, x.2 = true) (take (k - 1) (squashes new))).
Proof.
  intros Hlimit Hf. cbn zeta. unfold drain_caravan_roots.
  destruct (drain_roots_run status (cv_id caravan) singleton (cv_members caravan) 0 None s Hlimit)
    as (new & (Hl & _) & Hk). exists new. split; [exact Hl |]. intros Hx.
  destruct (Hk Hx Hf) as (k & ? & ?). exists k. by rewrite N.sub_0_r in *.
Qed.
End properties.

(** *** Witnesses *)


Lemma landing_tick_filed limit stale : filed (landing_tick limit stale).
Proof.
  unfold filed. cbn. apply map_Forall_insert_2; [done |]. apply map_Forall_insert_2; [done |].
  apply map_Forall_empty.
Qed.

Lemma caravan_lands_in_order_witness :
  Forall exact (tk_log (landing_run 2 None).2)
  ∧ ∃ k, (squashes (tk_log (landing_run 2 None).2)).*1 = take k [1%N; 2%N].
Proof.
  assert (Forall exact (tk_log (landing_run 2 None).2)) as Hx.
  { vm_compute. repeat constructor. }
  split; [exact Hx |].
  destruct (caravan_lands_in_order landing_status (mkCaravan 1 [1%N; 2%N] false) false (landing_tick 2 None))
    as (new & Hl & Hk); [by vm_compute | apply landing_tick_filed |].
  rewrite app_nil_l in Hl. change (tk_log (landing_run 2 None).2 = new) in Hl. rewrite Hl in *.
  destruct (Hk Hx) as (k & _ & H & _). by exists k.
Defined.
