(* ===== verification/LandingOnce.v ===== *)
(** How many roots a drain can land: the analysis proves cumulative trees on
    the default branch it was derived from, so the proofs a tick holds authorize
    no landing on the default branch its first landing leaves. *)

From Stdlib Require Import Ascii String.
From S2P Require Import Prelude Text Model Mutations Lineage RequiredRuns Generation Graph GraphProofs Analysis AnalysisProofs RootMerge Effects Landing LandingProofs LandingSample.

#[local] Open Scope string_scope.
#[local] Open Scope list_scope.
#[local] Open Scope nat_scope.

(** ** The trees an analysis proves *)

(** A task that proves a tree proves it on this branch. *)
Definition aims (target : BranchSnapshot) (task : CompatibilityAnalysisTask) : Prop :=
  match task with TaskCumulativeTree _ _ t => t = target | _ => True end.
Definition proves_on (target : BranchSnapshot) (a : GraphAnalysis) : Prop :=
  Forall (λ proof, ct_target proof = target) (ga_cumulative_trees a).

Section plan.
Context (default_branch : BranchSnapshot) (rows : gmap PrNumber PullRequestSnapshot).

Lemma flat_map_opt_Forall {A B} (P : B → Prop) (f : A → option (list B)) l r :
  (∀ x y, f x = Some y → Forall P y) → flat_map_opt f l = Some r → Forall P r.
Proof.
  intros Hf. revert r. induction l as [| x l IH]; intros r; cbn; [by intros [= <-] |].
  destruct (f x) as [a |] eqn:Hx; [| done]. destruct (flat_map_opt f l) as [b |]; [| done].
  intros [= <-]. apply Forall_app. split; [by eapply Hf | by apply IH].
Qed.

Lemma adjacent_aims edges tasks : adjacent_tasks rows edges = Some tasks → Forall (aims default_branch) tasks.
Proof.
  revert tasks. induction edges as [| [x y] edges IH]; intros tasks; cbn; [by intros [= <-] |].
  destruct (head_branch rows x), (head_branch rows y); try done.
  intros (more & Hm & ->)%fmap_Some. constructor; [done | by apply IH].
Qed.

Lemma caravan_aims c tasks :
  caravan_tasks default_branch rows c = Some tasks → Forall (aims default_branch) tasks.
Proof.
  unfold caravan_tasks. destruct (caravan_head c); [| by intros [= <-]].
  destruct (head_branch rows _); [| done]. destruct (adjacent_tasks rows _) as [adjacent |] eqn:Ha; [| done].
  intros [= <-]. constructor; [done |]. constructor; [done | by eapply adjacent_aims].
Qed.

Lemma cross_aims caravans tasks : cross_tasks rows caravans = Some tasks → Forall (aims default_branch) tasks.
Proof.
  apply flat_map_opt_Forall. intros [i c] y. apply flat_map_opt_Forall. intros [j o] z.
  destruct (i =? j); [by intros [= <-] |]. unfold cross_task.
  intros Hz. repeat case_match; simplify_eq; by repeat constructor.
Qed.

Lemma candidate_aims unqueued selected skipped :
  Forall (aims default_branch) (candidate_tasks default_branch rows unqueued selected skipped).1.
Proof.
  revert selected skipped. induction unqueued as [| n l IH]; intros selected skipped; cbn; [constructor |].
  destruct (rows !! n) as [pr |]; [| apply IH].
  destruct (candidate_reason selected pr) as [[reason |] k]; [apply IH |].
  specialize (IH k skipped). destruct (candidate_tasks _ _ _ _ _) as [tasks s]. by constructor.
Qed.
End plan.

Lemma plan_aims snapshot analysis progress tasks progress' :
  compatibility_tasks snapshot analysis progress = Some (tasks, progress') →
  Forall (aims (rs_default_branch snapshot)) tasks.
Proof.
  unfold compatibility_tasks. destruct (flat_map_opt _ _) as [own |] eqn:Ho; [| done].
  destruct (cross_tasks _ _) as [cross |] eqn:Hc; [| done].
  pose proof (candidate_aims (rs_default_branch snapshot) (ga_pull_requests analysis)
    (fl_unqueued (ga_fleet analysis)) 0
    (cp_skipped_analyses progress, cp_skipped_analyses_truncated progress)) as Hcand.
  destruct (candidate_tasks _ _ _ _ _) as [admission skipped]. intros [= <- <-].
  apply Forall_app. split; [| apply Forall_app; split; [by eapply cross_aims | exact Hcand]].
  eapply flat_map_opt_Forall; [| exact Ho]. intros c y. apply caravan_aims.
Qed.

Section run.
Context {W E : Type} `{CompatibilityChecker W E} (now : W → N * W) (analysis_timed_out : E → bool).

(** A proof is about the merge that was asked for. *)
Definition proof_answers_question : Prop := ∀ candidate target w proof w',
  cumulative_tree candidate target w = (Ok (Some proof), w') → ct_target proof = target.

Lemma execute_proves target task a w r a' w' :
  proof_answers_question → aims target task → Analysis.execute task a w = (r, a', w') →
  proves_on target a → proves_on target a'.
Proof.
  intros Hlaw Haim He Ha. destruct task as [d c t prs m | d c t | d c t n]; cbn in He.
  - destruct (check c t w) as [[report | e] w1]; [| by simplify_eq].
    unfold record_compatibility in He. destruct (negb _); [| by simplify_eq].
    destruct (squash_equivalence _ _ w1) as [[[q |] | e] w2]; by simplify_eq.
  - destruct (cumulative_tree c t w) as [[[proof |] | e] w1] eqn:Hc; simplify_eq; try done.
    apply Forall_app. split; [exact Ha |]. cbn in Haim. subst t. constructor; [by eapply Hlaw | constructor].
  - destruct (check c t w) as [[report | e] w1]; simplify_eq; [| done].
    unfold record_candidate_compatibility. by destruct (negb _).
Qed.

Lemma run_tasks_proves target deadline tasks a progress w b w' :
  proof_answers_question → Forall (aims target) tasks → proves_on target a →
  run_tasks now analysis_timed_out deadline tasks a progress w = (Ok b, w') →
  proves_on target (bd_analysis b).
Proof.
  intros Hlaw. revert a progress w. induction tasks as [| task rest IH]; intros a progress w Haim Ha; cbn.
  { intros [= <- <-]. exact Ha. }
  apply Forall_cons in Haim as [Ht Hrest].
  destruct (past_deadline now deadline w) as [[] w1]; [by intros [= <- <-] |].
  destruct (Analysis.execute task a w1) as [[[u | e] a'] w2] eqn:He;
    pose proof (execute_proves target _ _ _ _ _ _ Hlaw Ht He Ha) as Ha'.
  - by apply IH.
  - destruct (_ && _); [by intros [= <- <-] | done].
Qed.

Lemma analysis_proves snapshot actor deadline w b w' :
  proof_answers_question →
  analyze_for_actor_internal now analysis_timed_out snapshot actor deadline w = Some (Ok b, w') →
  proves_on (rs_default_branch snapshot) (bd_analysis b).
Proof.
  intros Hlaw. unfold analyze_for_actor_internal.
  destruct (derive_for_actor snapshot actor) as [a |] eqn:Hd; [| done].
  assert (proves_on (rs_default_branch snapshot) a) as Ha.
  { destruct (derive_spec snapshot actor) as (? & ? & ? & ? & ? & ? & Hspec & _).
    rewrite Hspec in Hd. injection Hd as <-. constructor. }
  destruct (compatibility_tasks _ _ _) as [[tasks progress] |] eqn:Hp; [| done].
  apply plan_aims in Hp. intros [= Hrun].
  destruct (past_deadline now deadline w) as [[] w1]; [by injection Hrun as <- _ |].
  destruct (prepare _ w1) as [[u | e] w2]; [by eapply run_tasks_proves |].
  destruct (_ && _); [by injection Hrun as <- _ | done].
Qed.
End run.

(** ** One landing per drain *)

Section once.
Context {WL EL Diag : Type} `{!LandingProvider WL EL Diag}.

Definition reads_default (branch : string) (oid : CommitOid) (c : Call EL) : bool :=
  match c with CallBranchHead b (Ok o) => String.eqb b branch && String.eqb o oid | _ => false end.

(** An accepted squash moves the default branch: no later read shows [oid]. *)
Fixpoint default_moves (branch : string) (oid : CommitOid) (log : list (Call EL)) : bool :=
  match log with
  | [] => true
  | c :: rest =>
      (match c with CallSquash _ (Ok _) => negb (existsb (reads_default branch oid) rest) | _ => true end)
      && default_moves branch oid rest
  end.

Lemma default_moves_spec branch oid before expected receipt after :
  default_moves branch oid (before ++ CallSquash expected (Ok receipt) :: after) = true →
  CallBranchHead branch (Ok oid) ∉ after.
Proof.
  induction before as [| c before IH]; cbn; intros [H1 H2]%andb_true_iff; [| by apply IH].
  intros Hin. apply negb_true_iff in H1. rewrite (existsb_false_elem_of _ _) in H1.
  specialize (H1 _ Hin). cbn in H1. by rewrite !String.eqb_refl in H1.
Qed.

(** C4. A drain lands at most one root, whatever [sync.max_root_merges_per_tick]
    allows: the analysis of a tick proves cumulative trees on the default branch
    it was derived from, and a merge needs a proof on the default branch it reads,
    so once a squash has moved that branch the drain only waits. *)
Theorem one_root_lands_per_drain {W E} `{!CompatibilityChecker W E} now timed_out snapshot actor deadline w b w'
    status caravan singleton (s : Tick WL EL Diag) :
  proof_answers_question (W := W) (E := E) →
  analyze_for_actor_internal now timed_out snapshot actor deadline w = Some (Ok b, w') →
  ls_analysis status = bd_analysis b →
  let s' := (drain_caravan_roots status caravan singleton s).2 in
  ∃ new, tk_log s' = tk_log s ++ new
    ∧ (default_moves (ls_default_branch status) (br_oid (rs_default_branch snapshot)) new = true →
       length (squashes new) ≤ 1).
Proof.
  intros Hlaw Hrun Hstatus. cbn zeta. apply analysis_proves in Hrun; [| exact Hlaw].
  destruct (drain_lands_once status (cv_id caravan) singleton (cv_members caravan) 0 None
    (br_oid (rs_default_branch snapshot)) s) as (new & (Hl & _) & Hone).
  { rewrite Hstatus. eapply Forall_impl; [exact Hrun |]. by intros proof ->. }
  exists new. split; [exact Hl |]. intros Hmoves. apply Hone. intros before expected receipt after Hnew.
  subst new. by eapply default_moves_spec.
Qed.
End once.

(** ** A tick that stops after its first root *)

#[local] Existing Instance sample_forge.

Definition tree_checker : CompatibilityChecker () () := {|
  prepare := λ _ w, (Ok (), w);
  check := λ c t w, (Ok (mkCompatibilityReport c t Clean [] None), w);
  cumulative_tree := λ c t w, (Ok (Some (mkCumulativeTreeProof c t "tree" "tree" true true)), w);
  squash_equivalence := λ _ _ w, (Ok None, w) |}.
#[local] Existing Instance tree_checker.

Definition once_snapshot : RepositorySnapshot := sample_snapshot [sample_pr 2 "b" "a"; sample_pr 1 "a" "main"].
Definition once_analysis : option (result BoundedGraphAnalysis () * ()) :=
  analyze_for_actor_internal (λ w, (0%N, w)) (λ _, false) once_snapshot ActorCaravan None ().
Definition once_bounded : BoundedGraphAnalysis :=
  match once_analysis with
  | Some (Ok b, _) => b
  | _ => mkBounded (analysis_of []) (initial_progress once_snapshot (analysis_of []))
  end.
Definition once_status : LandingStatus := mkLandingStatus sample_repo "main" (bd_analysis once_bounded).
Definition once_tick : Tick LandingForge string () :=
  mkTick (tk_progress (landing_tick 8 None)) [] (mkLandingForge landing_rows "main" None).
Definition once_run : result () (SyncError string) * Tick LandingForge string () :=
  drain_caravan_roots once_status (mkCaravan 1 [1%N; 2%N] false) false once_tick.

Example second_root_waits :
  (once_run.1, squashes (tk_log once_run.2), ms_summary <$> last (pg_steps (tk_progress once_run.2)))
  = (Ok (), [(1%N, true)], Some (block_reason NotConflictFreeWithDefault)).
Proof. vm_compute. reflexivity. Qed.

Lemma one_root_lands_per_drain_witness :
  default_moves "main" "main" (tk_log once_run.2) = true ∧ length (squashes (tk_log once_run.2)) ≤ 1.
Proof.
  assert (default_moves "main" "main" (tk_log once_run.2) = true) as Hmoves by (vm_compute; reflexivity).
  split; [exact Hmoves |].
  destruct (one_root_lands_per_drain (λ w, (0%N, w)) (λ _, false) once_snapshot ActorCaravan None ()
    once_bounded () once_status (mkCaravan 1 [1%N; 2%N] false) false once_tick) as (new & Hl & Hone).
  - intros candidate target w proof w' Hp. by injection Hp as <- _.
  - vm_compute. reflexivity.
  - reflexivity.
  - rewrite app_nil_l in Hl. change (tk_log once_run.2 = new) in Hl. rewrite Hl in *. by apply Hone.
Defined.
