(* ===== verification/Files.v ===== *)
(** The file system as the code uses it through [std::fs] and [std::path].

    A file system maps absolute locations to nodes and carries a schedule of
    faults: each operation consumes one entry, and [Some n] makes it fail, a
    write after [n] bytes. An exhausted schedule is a file system that works.
    Symbolic links are followed at the last component; the components above
    it are taken as they are written. *)

From Stdlib Require Import String.
From S2P Require Import Prelude Text Effects.

#[local] Open Scope string_scope.
#[local] Open Scope list_scope.
#[local] Open Scope nat_scope.
#[local] Open Scope caravan_scope.

(** ** [std::path] *)

Record Path := mkPath {
  pa_absolute : bool;
  pa_components : list string }.
#[export] Instance Path_eq_dec : EqDecision Path.
Proof. solve_decision. Defined.

Definition parent (p : Path) : option Path :=
  match pa_components p with
  | [] => None
  | cs => Some (mkPath (pa_absolute p) (removelast cs))
  end.

(** A path that ends with [..] has no file name. *)
Definition file_name (p : Path) : option string :=
  opt_filter (λ c, negb (String.eqb c "..")) (last (pa_components p)).

Definition file_stem (name : string) : string :=
  match rsplit_once "." name with
  | Some (EmptyString, _) | None => name
  | Some (stem, _) => stem
  end.

Definition with_extension (extension : string) (p : Path) : Path :=
  match file_name p with
  | None => p
  | Some name =>
      mkPath (pa_absolute p)
        (removelast (pa_components p) ++ [fmt [file_stem name; "."; extension]])
  end.

#[export] Instance Path_countable : Countable Path.
Proof.
  refine (inj_countable' (λ p, (pa_absolute p, pa_components p)) (λ '(a, c), mkPath a c) _). by intros [].
Defined.

(** [Path::join] of a relative component. *)
Definition path_join (component : string) (p : Path) : Path :=
  mkPath (pa_absolute p) (pa_components p ++ [component]).

(** The [io::ErrorKind]s the code tells apart. *)
Inductive IoError := NotFound | AlreadyExists | InvalidData | OtherIo.
#[export] Instance IoError_eq_dec : EqDecision IoError.
Proof. solve_decision. Defined.

(** ** Nodes *)

Abbreviation Location := (list string) (only parsing).

Inductive Node :=
| File (mode : N) (bytes : list N)
| Dir (mode : N)
| Symlink (target : Location).

Record FileSystem := mkFileSystem {
  fs_cwd : Location;
  fs_nodes : gmap Location Node;
  fs_faults : list (option nat) }.

Definition with_nodes (nodes : gmap Location Node) (fs : FileSystem) : FileSystem :=
  mkFileSystem (fs_cwd fs) nodes (fs_faults fs).

(** The empty path denotes nothing. *)
Definition locate (fs : FileSystem) (p : Path) : option Location :=
  if pa_absolute p then Some (pa_components p)
  else match pa_components p with [] => None | cs => Some (fs_cwd fs ++ cs) end.

(** Links at the last component, at most [ELOOP] of them. *)
Fixpoint follow (links : nat) (nodes : gmap Location Node) (l : Location) : option Location :=
  match nodes !! l with
  | Some (Symlink target) =>
      match links with O => None | S links' => follow links' nodes target end
  | _ => Some l
  end.
Definition MAX_LINKS : nat := 40.

Definition node_at (fs : FileSystem) (p : Path) : option Node :=
  match locate fs p with
  | None => None
  | Some l => match follow MAX_LINKS (fs_nodes fs) l with
              | None => None
              | Some l => fs_nodes fs !! l
              end
  end.

Definition is_dir_location (fs : FileSystem) (l : Location) : bool :=
  match l with
  | [] => true
  | _ => match follow MAX_LINKS (fs_nodes fs) l with
         | None => false
         | Some l => match fs_nodes fs !! l with Some (Dir _) => true | _ => false end
         end
  end.

(** ** Operations: [None] is an [io::Error] *)

Definition FsOp (A : Type) : Type := FileSystem → option A * FileSystem.

Definition fs_op {A} (partial : nat → FileSystem → FileSystem) (op : FsOp A) : FsOp A := λ fs,
  match fs_faults fs with
  | [] => op fs
  | None :: faults => op (mkFileSystem (fs_cwd fs) (fs_nodes fs) faults)
  | Some n :: faults => (None, partial n (mkFileSystem (fs_cwd fs) (fs_nodes fs) faults))
  end.
Definition fs_read_op {A} (read : FileSystem → option A) : FsOp A :=
  fs_op (λ _ fs, fs) (λ fs, (read fs, fs)).

(** [fs::metadata(path).len()]; the length of a directory is unspecified. *)
Definition DIRECTORY_LEN : N := 4096.
Definition fs_metadata_len (p : Path) : FsOp N := fs_read_op (λ fs,
  match node_at fs p with
  | Some (File _ bytes) => Some (N.of_nat (length bytes))
  | Some (Dir _) => Some DIRECTORY_LEN
  | _ => None
  end).

Definition fs_read (p : Path) : FsOp (list N) := fs_read_op (λ fs,
  match node_at fs p with Some (File _ bytes) => Some bytes | _ => None end).

(** [Path::exists]: false when the metadata cannot be read. *)
Definition fs_exists (p : Path) : FsOp unit := fs_read_op (λ fs,
  match node_at fs p with Some _ => Some () | None => None end).

(** [fs::symlink_metadata]: the node itself. *)
Definition fs_symlink_metadata (p : Path) : FsOp Node := fs_read_op (λ fs,
  match locate fs p with Some l => fs_nodes fs !! l | None => None end).

Fixpoint make_dirs (done todo : Location) (nodes : gmap Location Node) : option (gmap Location Node) :=
  match todo with
  | [] => Some nodes
  | c :: todo' =>
      let here := done ++ [c] in
      match nodes !! here with
      | None => make_dirs here todo' (<[here := Dir 493]> nodes)
      | Some (File _ _) => None
      | Some _ => make_dirs here todo' nodes
      end
  end.

(** [fs::create_dir_all]: the empty path is accepted without an effect. *)
Definition fs_create_dir_all (p : Path) : FsOp unit := fs_op (λ _ fs, fs) (λ fs,
  match locate fs p with
  | None => (Some (), fs)
  | Some l =>
      match make_dirs [] l (fs_nodes fs) with
      | Some nodes => (Some (), with_nodes nodes fs)
      | None => (None, fs)
      end
  end).

Definition fs_set_permissions (p : Path) (mode : N) : FsOp unit := fs_op (λ _ fs, fs) (λ fs,
  match match locate fs p with
        | None => None
        | Some l => follow MAX_LINKS (fs_nodes fs) l
        end with
  | None => (None, fs)
  | Some l =>
      match fs_nodes fs !! l with
      | Some (File _ bytes) => (Some (), with_nodes (<[l := File mode bytes]> (fs_nodes fs)) fs)
      | Some (Dir _) => (Some (), with_nodes (<[l := Dir mode]> (fs_nodes fs)) fs)
      | _ => (None, fs)
      end
  end).

(** [OpenOptions::new().write(true).create_new(true).mode(mode).open(path)]. *)
Definition fs_create_new (p : Path) (mode : N) : FsOp unit := fs_op (λ _ fs, fs) (λ fs,
  match locate fs p with
  | None => (None, fs)
  | Some l =>
      match fs_nodes fs !! l with
      | None =>
          if is_dir_location fs (removelast l) && negb (bool_decide (l = []))
          then (Some (), with_nodes (<[l := File mode []]> (fs_nodes fs)) fs)
          else (None, fs)
      | Some _ => (None, fs)
      end
  end).

Definition put_bytes (p : Path) (bytes : list N) (fs : FileSystem) : FileSystem :=
  match locate fs p with
  | None => fs
  | Some l =>
      match fs_nodes fs !! l with
      | Some (File mode _) => with_nodes (<[l := File mode bytes]> (fs_nodes fs)) fs
      | _ => fs
      end
  end.

(** [file.write_all(bytes)] then [file.sync_all()], on the file just created. *)
Definition fs_write_sync (p : Path) (bytes : list N) : FsOp unit :=
  fs_op (λ n fs, put_bytes p (take n bytes) fs) (λ fs, (Some (), put_bytes p bytes fs)).

(** [fs::rename] of a file: the destination is replaced in one step. *)
Definition fs_rename (source destination : Path) : FsOp unit := fs_op (λ _ fs, fs) (λ fs,
  match locate fs source, locate fs destination with
  | Some s, Some d =>
      match fs_nodes fs !! s, fs_nodes fs !! d with
      | Some (File mode bytes), Some (Dir _) => (None, fs)
      | Some (File mode bytes), _ =>
          if is_dir_location fs (removelast d) && negb (bool_decide (d = []))
          then (Some (), with_nodes (<[d := File mode bytes]> (delete s (fs_nodes fs))) fs)
          else (None, fs)
      | _, _ => (None, fs)
      end
  | _, _ => (None, fs)
  end).

(** ** Lemmas *)

Lemma locate_nodes fs fs' p : fs_cwd fs = fs_cwd fs' → locate fs p = locate fs' p.
Proof. unfold locate. by intros ->. Qed.

Lemma follow_here links nodes l :
  (∀ target, nodes !! l ≠ Some (Symlink target)) → follow links nodes l = Some l.
Proof. destruct links; simpl; destruct (nodes !! l) as [[] |] eqn:Hl; naive_solver. Qed.

(** Whether an operation keeps the content at a location: everything of the
    node but its permissions. *)
Definition content (n : option Node) : option Node :=
  match n with
  | Some (File _ bytes) => Some (File 0 bytes)
  | Some (Dir _) => Some (Dir 0)
  | _ => n
  end.

Definition keeps (l : Location) (fs fs' : FileSystem) : Prop :=
  fs_cwd fs' = fs_cwd fs ∧ content (fs_nodes fs' !! l) = content (fs_nodes fs !! l).

#[export] Instance keeps_preorder l : PreOrder (keeps l).
Proof.
  split; [done |]. intros a b c [H1 H2] [H3 H4]. split; congruence.
Qed.

Lemma keeps_same l fs fs' : fs_cwd fs' = fs_cwd fs → fs_nodes fs' !! l = fs_nodes fs !! l → keeps l fs fs'.
Proof. unfold keeps. by intros -> ->. Qed.

(** An operation runs, or a fault stops it, once its entry is consumed. *)
Definition spend (faults : list (option nat)) (fs : FileSystem) : FileSystem :=
  mkFileSystem (fs_cwd fs) (fs_nodes fs) faults.

Lemma fs_op_outcome {A : Type} partial (op : FsOp A) fs :
  ∃ faults, fs_op partial op fs = op (spend faults fs)
            ∨ ∃ n, fs_op partial op fs = (None, partial n (spend faults fs)).
Proof.
  unfold fs_op. destruct fs as [cwd nodes [| [n |] faults]]; simpl; eexists; [by left | | by left].
  right. by exists n.
Qed.

Lemma fs_read_op_same {A : Type} (read : FileSystem → option A) fs :
  fs_cwd (fs_read_op read fs).2 = fs_cwd fs ∧ fs_nodes (fs_read_op read fs).2 = fs_nodes fs.
Proof.
  unfold fs_read_op. by edestruct (fs_op_outcome (λ _ fs, fs) (λ fs, (read fs, fs)) fs)
    as (faults & [-> | [n ->]]).
Qed.

Lemma fs_read_op_keeps {A : Type} l (read : FileSystem → option A) fs :
  keeps l fs (fs_read_op read fs).2.
Proof. destruct (fs_read_op_same read fs) as [H1 H2]. apply keeps_same; [done | by rewrite H2]. Qed.

Lemma make_dirs_lookup todo done nodes nodes' l :
  make_dirs done todo nodes = Some nodes' → length done + length todo < length l →
  nodes' !! l = nodes !! l.
Proof.
  revert done nodes. induction todo as [| c todo IH]; intros done nodes Hm Hl; simpl in *; [congruence |].
  destruct (nodes !! (done ++ [c])) as [[mode bytes | mode | target] |] eqn:Hn; try done;
    apply IH in Hm; try (rewrite length_app; simpl; lia); try exact Hm.
  rewrite Hm, lookup_insert_ne; [done |]. intros <-. rewrite length_app in Hl. simpl in Hl. lia.
Qed.

Lemma fs_create_dir_all_keeps p fs l :
  (∀ k, locate fs p = Some k → length k < length l) → keeps l fs (fs_create_dir_all p fs).2.
Proof.
  intros Hl. unfold fs_create_dir_all.
  edestruct (fs_op_outcome (A := unit)) as (faults & [-> | [n ->]]); [| by apply keeps_same].
  change (locate (spend faults fs) p) with (locate fs p).
  destruct (locate fs p) as [k |]; [| by apply keeps_same].
  destruct (make_dirs _ _ _) as [nodes |] eqn:Hm; [| by apply keeps_same].
  apply keeps_same; [done |]. simpl. eapply make_dirs_lookup; [done |]. simpl. by apply Hl.
Qed.

Lemma fs_set_permissions_keeps p mode fs l : keeps l fs (fs_set_permissions p mode fs).2.
Proof.
  unfold fs_set_permissions.
  edestruct (fs_op_outcome (A := unit)) as (faults & [-> | [n ->]]); [| by apply keeps_same].
  case_on_goal; [| by apply keeps_same].
  destruct (fs_nodes (spend faults fs) !! l0) as [[m b | m | t] |] eqn:Hn; try by apply keeps_same.
  all: split; [done |]; simpl; destruct (decide (l = l0)) as [<- | Hne];
    [by rewrite lookup_insert_eq; simpl in Hn; rewrite Hn | by rewrite lookup_insert_ne].
Qed.

Lemma fs_create_new_spec p mode fs l k :
  locate fs p = Some k → k ≠ l →
  keeps l fs (fs_create_new p mode fs).2
  ∧ ((fs_create_new p mode fs).1 = Some () → fs_nodes (fs_create_new p mode fs).2 !! k = Some (File mode [])).
Proof.
  intros Hk Hne. unfold fs_create_new.
  edestruct (fs_op_outcome (A := unit)) as (faults & [-> | [n ->]]); [| split; [by apply keeps_same | done]].
  change (locate (spend faults fs) p) with (locate fs p). rewrite Hk.
  destruct (fs_nodes _ !! k) eqn:Hn; [split; [by apply keeps_same | done] |].
  destruct (_ && _); [| split; [by apply keeps_same | done]].
  split; [apply keeps_same; [done |]; simpl; by rewrite lookup_insert_ne |].
  intros _. simpl. by rewrite lookup_insert_eq.
Qed.

Lemma fs_write_sync_spec p bytes mode old fs l k :
  locate fs p = Some k → k ≠ l → fs_nodes fs !! k = Some (File mode old) →
  keeps l fs (fs_write_sync p bytes fs).2
  ∧ ((fs_write_sync p bytes fs).1 = Some () →
     fs_nodes (fs_write_sync p bytes fs).2 !! k = Some (File mode bytes)).
Proof.
  intros Hk Hne Hn. unfold fs_write_sync.
  assert (∀ faults bytes, put_bytes p bytes (spend faults fs)
    = with_nodes (<[k := File mode bytes]> (fs_nodes fs)) (spend faults fs)) as Hput.
  { intros faults b. unfold put_bytes. change (locate (spend faults fs) p) with (locate fs p).
    rewrite Hk. simpl. by rewrite Hn. }
  edestruct (fs_op_outcome (A := unit)) as (faults & [-> | [n ->]]); rewrite Hput; simpl;
    (split; [apply keeps_same; [done |]; simpl; by rewrite lookup_insert_ne |]); [| done].
  intros _. by rewrite lookup_insert_eq.
Qed.

Lemma fs_rename_spec source destination mode bytes fs k l :
  locate fs source = Some k → locate fs destination = Some l → fs_nodes fs !! k = Some (File mode bytes) →
  fs_cwd (fs_rename source destination fs).2 = fs_cwd fs
  ∧ match (fs_rename source destination fs).1 with
    | Some _ => fs_nodes (fs_rename source destination fs).2
                = <[l := File mode bytes]> (delete k (fs_nodes fs))
    | None => fs_nodes (fs_rename source destination fs).2 = fs_nodes fs
    end.
Proof.
  intros Hk Hl Hn. unfold fs_rename.
  edestruct (fs_op_outcome (A := unit)) as (faults & [-> | [n ->]]); [| done].
  change (locate (spend faults fs) source) with (locate fs source).
  change (locate (spend faults fs) destination) with (locate fs destination). rewrite Hk, Hl.
  change (fs_nodes (spend faults fs)) with (fs_nodes fs). rewrite Hn.
  destruct (fs_nodes fs !! l) as [[| |] |]; try done; by destruct (_ && _).
Qed.

(** An operation on a file system without faults. *)
Lemma fs_op_works {A} partial (op : FsOp A) fs : fs_faults fs = [] → fs_op partial op fs = op fs.
Proof. unfold fs_op. by intros ->. Qed.

Example bare_name_has_an_empty_parent :
  parent (mkPath false ["recovery-ledger.json"]) = Some (mkPath false []).
Proof. reflexivity. Qed.

Example with_extension_example :
  with_extension "1.tmp" (mkPath true ["var"; "recovery-ledger.json"])
  = mkPath true ["var"; "recovery-ledger.1.tmp"].
Proof. reflexivity. Qed.
