(* ===== verification/Programs.v ===== *)
(** Programs of effectful operations: a program is a tree of operations of a
    signature, each with the program that goes on with its answer. A machine
    answers one operation at a time, by a choice of the environment; where the
    choices end, the process was killed. *)

From S2P Require Import Prelude.

Inductive Prog (Op : Type → Type) (A : Type) : Type :=
| Ret (a : A)
| Vis {R : Type} (op : Op R) (k : R → Prog Op A).
#[global] Arguments Ret {Op A} _.
#[global] Arguments Vis {Op A R} _ _.

Fixpoint pbind {Op A B} (p : Prog Op A) (f : A → Prog Op B) : Prog Op B :=
  match p with
  | Ret a => f a
  | Vis op k => Vis op (λ r, pbind (k r) f)
  end.
Definition perform {Op : Type → Type} {R} (op : Op R) : Prog Op R := Vis op Ret.

(** [?] on a program whose result may be an error. *)
Definition ebind {Op A B E} (p : Prog Op (result A E)) (f : A → Prog Op (result B E))
    : Prog Op (result B E) :=
  pbind p (λ r, match r with Ok a => f a | Err e => Ret (Err e) end).
Definition map_err {Op A E F} (p : Prog Op (result A E)) (f : E → F) : Prog Op (result A F) :=
  pbind p (λ r, Ret (match r with Ok a => Ok a | Err e => Err (f e) end)).

(** A loop of at most [n] rounds, which [inr] leaves. *)
Fixpoint repeat_up_to {Op A B} (n : positive) (body : A → Prog Op (A + B)) (a : A) : Prog Op (A + B) :=
  let again (k : A → Prog Op (A + B)) (r : A + B) := match r with inl a => k a | inr b => Ret (inr b) end in
  match n with
  | xH => body a
  | xO n => pbind (repeat_up_to n body a) (again (repeat_up_to n body))
  | xI n => pbind (body a) (again (λ a, pbind (repeat_up_to n body a) (again (repeat_up_to n body))))
  end.

(** A program of a smaller signature. *)
Fixpoint embed {Op Op' : Type → Type} {A} (f : ∀ R, Op R → Op' R) (p : Prog Op A) : Prog Op' A :=
  match p with
  | Ret a => Ret a
  | Vis op k => Vis (f _ op) (λ r, embed f (k r))
  end.

(** Every operation carried out by a program of another signature. *)
Fixpoint interp {Op Op' : Type → Type} {A} (f : ∀ R, Op R → Prog Op' R) (p : Prog Op A) : Prog Op' A :=
  match p with
  | Ret a => Ret a
  | Vis op k => pbind (f _ op) (λ r, interp f (k r))
  end.

Declare Scope prog_scope.
Delimit Scope prog_scope with prog.
Notation "'let!' x ':=' m 'in' k" := (pbind m (λ x, k))
  (at level 10, x binder, m at level 100, k at level 200) : prog_scope.
Notation "'let?' x ':=' m 'in' k" := (ebind m (λ x, k))
  (at level 10, x binder, m at level 100, k at level 200) : prog_scope.
Notation "'run!' m 'in' k" := (pbind m (λ _, k))
  (at level 10, m at level 100, k at level 200) : prog_scope.
Notation "'run?' m 'in' k" := (ebind m (λ _, k))
  (at level 10, m at level 100, k at level 200) : prog_scope.

(** ** Machines *)

Section machine.
Context {Op : Type → Type} {C S : Type} (exec : ∀ R, C → Op R → S → R * S).

(** Every operation consumes one choice. *)
Fixpoint drive {A} (choices : list C) (p : Prog Op A) (s : S) {struct p} : option A * S :=
  match p with
  | Ret a => (Some a, s)
  | Vis op k =>
      match choices with
      | [] => (None, s)
      | c :: choices => let (r, s) := exec _ c op s in drive choices (k r) s
      end
  end.

(** [I] holds after every operation, whatever the choices, and [Q] of the
    value a program returns with the state it leaves. *)
Fixpoint holds {A} (I : S → Prop) (p : Prog Op A) (Q : A → S → Prop) (s : S) : Prop :=
  match p with
  | Ret a => Q a s
  | Vis op k => ∀ c, let (r, s') := exec _ c op s in I s' ∧ holds I (k r) Q s'
  end.

Lemma drive_holds {A} I (p : Prog Op A) Q choices s :
  I s → holds I p Q s →
  I (drive choices p s).2 ∧ ∀ a, (drive choices p s).1 = Some a → Q a (drive choices p s).2.
Proof.
  revert choices s. induction p as [a | R op k IH]; intros choices s Hs; cbn.
  - intros HQ. split; [done |]. by intros ? [= <-].
  - intros Hk. destruct choices as [| c choices]; cbn; [by split |].
    specialize (Hk c). destruct (exec R c op s) as [r s']. destruct Hk as [Hs' Hk]. by apply IH.
Qed.

Lemma holds_mono {A} I (p : Prog Op A) (Q Q' : A → S → Prop) s :
  (∀ a s, Q a s → Q' a s) → holds I p Q s → holds I p Q' s.
Proof.
  intros HQ. revert s. induction p as [a | R op k IH]; intros s; cbn; [apply HQ |].
  intros H c. specialize (H c). destruct (exec R c op s) as [r s']. destruct H as [HI H]. split; [done |].
  by apply IH.
Qed.

Lemma holds_bind {A B} I (p : Prog Op A) (f : A → Prog Op B) Q s :
  holds I p (λ a s, holds I (f a) Q s) s → holds I (pbind p f) Q s.
Proof.
  revert s. induction p as [a | R op k IH]; intros s; cbn; [done |].
  intros H c. specialize (H c). destruct (exec R c op s) as [r s']. destruct H as [HI H]. split; [done |].
  by apply IH.
Qed.

Lemma holds_try {A B E} I (p : Prog Op (result A E)) (f : A → Prog Op (result B E)) Q s :
  holds I p (λ r s, match r with Ok a => holds I (f a) Q s | Err e => Q (Err e) s end) s →
  holds I (ebind p f) Q s.
Proof. intros H. apply holds_bind. eapply holds_mono; [| exact H]. by intros [a | e] s'. Qed.

Lemma holds_map_err {A E F} I (p : Prog Op (result A E)) (f : E → F) Q s :
  holds I p (λ r s, Q (match r with Ok a => Ok a | Err e => Err (f e) end) s) s → holds I (map_err p f) Q s.
Proof. intros H. apply holds_bind. eapply holds_mono; [| exact H]. done. Qed.

Lemma holds_repeat {A B} I (body : A → Prog Op (A + B)) (J : A → S → Prop) (Q : A + B → S → Prop) n a s :
  J a s → (∀ a s, J a s → holds I (body a) (λ r s, match r with inl a => J a s ∧ Q r s | inr _ => Q r s end) s) →
  holds I (repeat_up_to n body a) (λ r s, match r with inl a => J a s ∧ Q r s | inr _ => Q r s end) s.
Proof.
  intros HJ Hbody. revert a s HJ. induction n as [n IH | n IH |]; intros a s HJ; cbn; [| | by apply Hbody].
  - apply holds_bind. eapply holds_mono; [| by apply Hbody]. intros [a1 | b] s1; [| done]. intros [HJ1 _].
    apply holds_bind. eapply holds_mono; [| by apply IH]. intros [a2 | b] s2; [| done]. intros [HJ2 _]. by apply IH.
  - apply holds_bind. eapply holds_mono; [| by apply IH]. intros [a2 | b] s2; [| done]. intros [HJ2 _]. by apply IH.
Qed.

(** Every operation answered by the same choice: a run to the end. *)
Fixpoint run {A} (c : C) (p : Prog Op A) (s : S) : A * S :=
  match p with
  | Ret a => (a, s)
  | Vis op k => let (r, s) := exec _ c op s in run c (k r) s
  end.

Lemma run_drive {A} c (p : Prog Op A) s :
  ∃ n, drive (repeat c n) p s = (Some (run c p s).1, (run c p s).2).
Proof.
  revert s. induction p as [a | R op k IH]; intros s; cbn; [by exists 0 |].
  destruct (exec R c op s) as [r s'] eqn:He. destruct (IH r s') as [n Hn]. exists (1 + n). cbn. by rewrite He.
Qed.

Lemma holds_run {A} I (p : Prog Op A) Q c s : holds I p Q s → Q (run c p s).1 (run c p s).2.
Proof.
  revert s. induction p as [a | R op k IH]; intros s; cbn; [done |]. intros Hk. specialize (Hk c).
  destruct (exec R c op s) as [r s']. apply IH, Hk.
Qed.

(** A program that ran to its end. *)
Lemma drive_bind {A B} choices (p : Prog Op A) (f : A → Prog Op B) s a s' :
  drive choices (pbind p f) s = (Some a, s') →
  ∃ first b s1 rest, choices = first ++ rest
  ∧ drive first p s = (Some b, s1) ∧ drive rest (f b) s1 = (Some a, s').
Proof.
  revert choices s. induction p as [b | R op k IH]; intros choices s; cbn.
  - intros H. by exists [], b, s, choices.
  - destruct choices as [| c choices]; [done |]. destruct (exec R c op s) as [r s1] eqn:He.
    intros (first & b & s2 & rest & -> & H1 & H2)%IH.
    exists (c :: first), b, s2, rest. cbn. by rewrite He.
Qed.
End machine.

Lemma run_ext {Op : Type → Type} {C S A} (exec exec' : ∀ R, C → Op R → S → R * S) c (p : Prog Op A) s :
  (∀ R op s, exec R c op s = exec' R c op s) → run exec c p s = run exec' c p s.
Proof.
  intros Hexec. revert s. induction p as [a | R op k IH]; intros s; cbn; [done |]. rewrite Hexec.
  destruct (exec' R c op s). apply IH.
Qed.
