(* ===== verification/Store.v ===== *)
(** The private directory Caravan keeps under the Git directory of a
    repository, as programs of file operations: its files, what an operation
    does to them, and how an operation fails. One writer uses it at a time:
    the callers hold the operation lock or an advisory lock on a file. *)

From Stdlib Require Import String.
From S2P Require Import Prelude Text Model Files Programs.

#[local] Open Scope string_scope.
#[local] Open Scope list_scope.
#[local] Open Scope nat_scope.

(** The answer of [git rev-parse --git-common-dir]. *)
Inductive GitAnswer := GitDir (path : Path) | GitFailed | GitNotStarted.

Inductive FileOp : Type → Type :=
| FsCommonDir : FileOp GitAnswer
| FsMetadataLen (path : Path) : FileOp (result N IoError)
| FsExists (path : Path) : FileOp bool
| FsRead (path : Path) : FileOp (result (list N) IoError)
| FsCreateDirs (path : Path) : FileOp (result unit IoError)
(** [File::create]: an existing file is truncated. *)
| FsCreate (path : Path) : FileOp (result unit IoError)
(** Opened with [create(true)], without truncation. *)
| FsOpen (path : Path) : FileOp (result unit IoError)
(** [write_all] and [sync_all] on the file just created. *)
| FsWriteSync (path : Path) (bytes : list N) : FileOp (result unit IoError)
(** [write_all] and [sync_data] on a file opened with [append(true)]. *)
| FsAppendSync (path : Path) (bytes : list N) : FileOp (result unit IoError)
| FsSetLen (path : Path) (len : nat) : FileOp (result unit IoError)
| FsRename (source target : Path) : FileOp (result unit IoError)
| FsSyncDir (path : Path) : FileOp (result unit IoError)
| FsRemove (path : Path) : FileOp (result unit IoError)
(** Advisory locks; the second is released when the process ends. *)
| FsLock (path : Path) : FileOp (result unit IoError)
| FsUnlock (path : Path) : FileOp unit.

(** ** The files *)

Abbreviation Disk := (gmap Path (list N)) (only parsing).

(** How the environment answers an operation: it may fail, where a write has
    put a part of its bytes. A fault is never reported as a missing file. *)
Inductive Fault := NotStarted | Refused.
Record FileChoice := mkFileChoice {
  fc_fault : option Fault;
  fc_torn : nat }.
Definition works : FileChoice := mkFileChoice None 0.

Section files.
(** The directory Git reports. *)
Context (common_dir : Path).

Definition faulty {A} (c : FileChoice) (r : result A IoError) : result A IoError :=
  match fc_fault c with Some _ => Err OtherIo | None => r end.

(** An effect that a fault prevents. *)
Definition effect {A} (c : FileChoice) (d : Disk) (r : result A IoError) (d' : Disk) : result A IoError * Disk :=
  match fc_fault c, r with
  | Some _, _ => (Err OtherIo, d)
  | None, Ok a => (Ok a, d')
  | None, Err e => (Err e, d)
  end.

Definition written (c : FileChoice) (bytes : list N) : list N :=
  match fc_fault c with Some _ => take (fc_torn c) bytes | None => bytes end.

Definition exec_file (R : Type) (c : FileChoice) (op : FileOp R) (d : Disk) : R * Disk :=
  match op in FileOp R return R * Disk with
  | FsCommonDir =>
      (match fc_fault c with None => GitDir common_dir | Some Refused => GitFailed | Some NotStarted => GitNotStarted end, d)
  | FsMetadataLen path =>
      (faulty c (match d !! path with Some bytes => Ok (N.of_nat (length bytes)) | None => Err NotFound end), d)
  | FsExists path => (match fc_fault c with None => bool_decide (is_Some (d !! path)) | Some _ => false end, d)
  | FsRead path => (faulty c (ok_or (d !! path) NotFound), d)
  | FsCreateDirs _ => (faulty c (Ok ()), d)
  | FsCreate path => effect c d (Ok ()) (<[path := []]> d)
  | FsOpen path => effect c d (Ok ()) (match d !! path with Some _ => d | None => <[path := []]> d end)
  | FsWriteSync path bytes =>
      (faulty c (Ok ()), match d !! path with Some _ => <[path := written c bytes]> d | None => d end)
  | FsAppendSync path bytes =>
      (faulty c (Ok ()), match d !! path with Some old => <[path := old ++ written c bytes]> d | None => d end)
  | FsSetLen path len =>
      match d !! path with
      | Some old => effect c d (Ok ()) (<[path := take len old]> d)
      | None => effect c d (Err NotFound) d
      end
  | FsRename source target =>
      match d !! source with
      | Some bytes => effect c d (Ok ()) (<[target := bytes]> (delete source d))
      | None => effect c d (Err NotFound) d
      end
  | FsSyncDir _ => (faulty c (Ok ()), d)
  | FsRemove path =>
      match d !! path with
      | Some _ => effect c d (Ok ()) (delete path d)
      | None => effect c d (Err NotFound) d
      end
  | FsLock _ => (faulty c (Ok ()), d)
  | FsUnlock _ => ((), d)
  end.

(** ** Lemmas *)

Lemma faulty_cases {A} c (r : result A IoError) : faulty c r = r ∨ faulty c r = Err OtherIo.
Proof. unfold faulty. destruct (fc_fault c); auto. Qed.

Lemma effect_cases {A} c (d d' : Disk) (r : result A IoError) :
  effect c d r d' = (Err OtherIo, d) ∨ effect c d r d' = (r, match r with Ok _ => d' | Err _ => d end).
Proof. unfold effect. destruct (fc_fault c); [by left | right]. by destruct r. Qed.
End files.

(** ** A machine that may be without faults *)

Section working.
Context (common_dir : Path) (faults : bool).
Definition answered (c : FileChoice) : FileChoice := if faults then c else works.
Definition exec_files (R : Type) (c : FileChoice) (op : FileOp R) (d : Disk) : R * Disk :=
  exec_file common_dir R (answered c) op d.

Lemma answered_fault c : fc_fault (answered c) = None ∨ faults = true.
Proof. unfold answered. destruct faults; [by right | by left]. Qed.
Lemma answered_faulty {A} c (r : result A IoError) :
  faulty (answered c) r = r ∨ faults = true ∧ faulty (answered c) r = Err OtherIo.
Proof. unfold faulty. destruct (answered_fault c) as [-> | ->]; [by left |]. destruct (fc_fault _); auto. Qed.
Lemma answered_effect {A} c (d d' : Disk) (r : result A IoError) :
  effect (answered c) d r d' = (r, match r with Ok _ => d' | Err _ => d end)
  ∨ faults = true ∧ effect (answered c) d r d' = (Err OtherIo, d).
Proof.
  unfold effect. destruct (answered_fault c) as [-> | ->]; [left; by destruct r |].
  destruct (fc_fault _); [by right | left; by destruct r].
Qed.

(** Rules for the operations, by what they do when they work. *)
Section rules.
Context (I : Disk → Prop).
#[local] Abbreviation holds := (holds exec_files I).

Lemma holds_answer {A B} (op : FileOp (result A IoError)) r (k : result A IoError → Prog FileOp B) Q d :
  (∀ c, exec_files _ c op d = (faulty (answered c) r, d)) →
  I d → (faults = true → holds (k (Err OtherIo)) Q d) → holds (k r) Q d → holds (pbind (perform op) k) Q d.
Proof.
  intros Hop HI He Ho c. rewrite Hop. split; [done |]. cbn [pbind].
  destruct (answered_faulty c r) as [-> | [Hf ->]]; auto.
Qed.

Lemma holds_effect {A B} (op : FileOp (result A IoError)) r d' (k : result A IoError → Prog FileOp B) Q d :
  (∀ c, exec_files _ c op d = effect (answered c) d r d') →
  I d → (faults = true → holds (k (Err OtherIo)) Q d) →
  (let d2 := match r with Ok _ => d' | Err _ => d end in I d2 ∧ holds (k r) Q d2) →
  holds (pbind (perform op) k) Q d.
Proof.
  intros Hop HI He Ho c. rewrite Hop. cbn [pbind].
  destruct (answered_effect c d d' r) as [-> | [Hf ->]]; [done | split; [done | by apply He]].
Qed.

Lemma holds_common_dir {B} (k : GitAnswer → Prog FileOp B) Q d :
  I d → (faults = true → holds (k GitFailed) Q d ∧ holds (k GitNotStarted) Q d) → holds (k (GitDir common_dir)) Q d →
  holds (pbind (perform FsCommonDir) k) Q d.
Proof.
  intros HI He Ho c. change (I d ∧ holds (k (match fc_fault (answered c) with
    None => GitDir common_dir | Some Refused => GitFailed | Some NotStarted => GitNotStarted end)) Q d).
  split; [done |]. destruct (answered_fault c) as [-> | Hf]; [done |].
  destruct (fc_fault _) as [[] |]; [by apply He.. | done].
Qed.

Lemma holds_exists {B} path (k : bool → Prog FileOp B) Q d :
  I d → holds (k (bool_decide (is_Some (d !! path)))) Q d → (faults = true → holds (k false) Q d) →
  holds (pbind (perform (FsExists path)) k) Q d.
Proof.
  intros HI Ho He c. change (I d ∧ holds (k (match fc_fault (answered c) with
    None => bool_decide (is_Some (d !! path)) | Some _ => false end)) Q d).
  split; [done |]. destruct (answered_fault c) as [-> | Hf]; [done |]. destruct (fc_fault _); auto.
Qed.
End rules.
End working.

(** ** Signatures with file operations *)

(** A machine whose state holds a disk that the file operations act on. *)
Section embedding.
Context {Op : Type → Type} {C S : Type} (exec : ∀ R, C → Op R → S → R * S).
Context (file : ∀ R, FileOp R → Op R) (common_dir : Path).
Context (disk : S → Disk) (set_disk : Disk → S → S) (choice : C → FileChoice).
Context (exec_file_op : ∀ R c (op : FileOp R) s,
  exec R c (file R op) s
  = let (r, d) := exec_file common_dir R (choice c) op (disk s) in (r, set_disk d s)).
Context (disk_set : ∀ d s, disk (set_disk d s) = d) (set_set : ∀ d d' s, set_disk d (set_disk d' s) = set_disk d s).

Lemma holds_embed_at {A} (I : S → Prop) (p : Prog FileOp A) Q s d :
  holds (exec_file common_dir) (λ d, I (set_disk d s)) p (λ a d, Q a (set_disk d s)) d →
  holds exec I (embed file p) Q (set_disk d s).
Proof.
  revert d. induction p as [a | R op k IH]; intros d; cbn; [done |].
  intros H c. specialize (H (choice c)). rewrite exec_file_op, disk_set.
  destruct (exec_file common_dir R (choice c) op d) as [r d']. rewrite set_set.
  destruct H as [HI H]. split; [done | by apply IH].
Qed.

Lemma holds_embed {A} (I : S → Prop) (p : Prog FileOp A) Q s :
  set_disk (disk s) s = s →
  holds (exec_file common_dir) (λ d, I (set_disk d s)) p (λ a d, Q a (set_disk d s)) (disk s) →
  holds exec I (embed file p) Q s.
Proof. intros Hs H. rewrite <- Hs. by apply holds_embed_at. Qed.
End embedding.

(** The next operation of a program of file operations. *)
Ltac file_step := cbn [pbind ebind map_err perform holds exec_file].
