(* ===== verification/Checkpoints.v ===== *)
(** Durable checkpoints of transactions of several provider calls:
    src/src/stack_checkpoint.rs. A checkpoint is replaced by the rename of a
    complete temporary file. The directory listing [list_keys] is in
    [StackLand]. *)

From Stdlib Require Import Ascii String.
From S2P Require Import Prelude Text TextProofs Model Files Programs Store.

#[local] Open Scope string_scope.
#[local] Open Scope list_scope.
#[local] Open Scope nat_scope.
#[local] Open Scope prog_scope.

Definition MAX_CHECKPOINT_BYTES : nat := 1024 * 1024.
#[global] Arguments MAX_CHECKPOINT_BYTES : simpl never.

(** [AppError] by its code; every storage error says that nothing mutated. *)
Record StorageError := mkStorageError { sg_code : string }.
#[export] Instance StorageError_eq_dec : EqDecision StorageError.
Proof. solve_decision. Defined.

(** The text of one value, and its parser. *)
Class Codec (T : Type) := {
  encode_value : T → option (list N);
  decode_value : list N → option T }.
(** What is written is read back. *)
Class CodecLaws (T : Type) `{!Codec T} := {
  codec_roundtrip : ∀ value bytes, encode_value value = Some bytes → decode_value bytes = Some value }.

Definition valid_key (key : string) : bool :=
  negb (str_is_empty key) && negb (128 <? String.length key)
  && all_bytes (λ c, is_ascii_alphanumeric c || Ascii.eqb c "-" || Ascii.eqb c "_") key.

Definition directory_under (common_dir : Path) : Path :=
  path_join "native-stack" (path_join "caravan" common_dir).

Definition checkpoint_path (key : string) : Prog FileOp (result Path StorageError) :=
  if negb (valid_key key) then Ret (Err (mkStorageError "native_stack_checkpoint_key_invalid"))
  else
    let! answer := perform FsCommonDir in
    match answer with
    | GitNotStarted => Ret (Err (mkStorageError "native_stack_checkpoint_storage_discovery_failed"))
    | GitFailed => Ret (Err (mkStorageError "git_repository_not_found"))
    | GitDir common_dir => Ret (Ok (path_join (fmt [key; ".json"]) (directory_under common_dir)))
    end.

Definition too_large : StorageError := mkStorageError "native_stack_checkpoint_too_large".
Definition write_failed : StorageError := mkStorageError "native_stack_checkpoint_write_failed".

Section checkpoints.
Context {T : Type} `{!Codec T}.

Definition load (key : string) : Prog FileOp (result (option T) StorageError) :=
  let? path := checkpoint_path key in
  let! metadata := perform (FsMetadataLen path) in
  match metadata with
  | Err NotFound => Ret (Ok None)
  | Err _ => Ret (Err (mkStorageError "native_stack_checkpoint_read_failed"))
  | Ok len =>
      if (N.of_nat MAX_CHECKPOINT_BYTES <? len)%N then Ret (Err too_large)
      else
        let? bytes := map_err (perform (FsRead path)) (λ _, mkStorageError "native_stack_checkpoint_read_failed") in
        Ret (match decode_value bytes with
             | Some value => Ok (Some value)
             | None => Err (mkStorageError "native_stack_checkpoint_invalid")
             end)
  end.

(** [path.with_extension("json.tmp-" + pid)]. *)
Definition checkpoint_temporary (pid : N) (path : Path) : Path :=
  with_extension (fmt ["json.tmp-"; show_N pid]) path.

Definition write (pid : N) (key : string) (value : T) : Prog FileOp (result unit StorageError) :=
  let? path := checkpoint_path key in
  match encode_value value with
  | None => Ret (Err (mkStorageError "native_stack_checkpoint_encode_failed"))
  | Some bytes =>
      if MAX_CHECKPOINT_BYTES <? length bytes then Ret (Err too_large)
      else
        let directory := default path (parent path) in
        run? map_err (perform (FsCreateDirs directory)) (λ _, write_failed) in
        let temporary := checkpoint_temporary pid path in
        run? map_err (let? _ := perform (FsCreate temporary) in perform (FsWriteSync temporary bytes))
               (λ _, write_failed) in
        let! replaced := (let? _ := perform (FsRename temporary path) in perform (FsSyncDir directory)) in
        match replaced with
        | Ok _ => Ret (Ok ())
        | Err _ => run! perform (FsRemove temporary) in Ret (Err write_failed)
        end
  end.

Definition remove (key : string) : Prog FileOp (result unit StorageError) :=
  let? path := checkpoint_path key in
  let! removed := perform (FsRemove path) in
  match removed with
  | Ok _ | Err NotFound => Ret (Ok ())
  | Err _ => Ret (Err (mkStorageError "native_stack_checkpoint_remove_failed"))
  end.
End checkpoints.

(** ** The files of the checkpoints *)

Section files.
Context (common_dir : Path).

Definition file_of (key : string) : Path := path_join (fmt [key; ".json"]) (directory_under common_dir).

Lemma file_of_inj key key' : file_of key = file_of key' → key = key'.
Proof.
  unfold file_of, path_join, directory_under. cbn. intros [= H]. apply app_inj_tail in H as [_ H].
  rewrite !str_app_nil_r in H. by apply str_app_inj_r in H.
Qed.

Lemma valid_key_dots key :
  valid_key key = true → key ≠ "" ∧ all_bytes (λ c, negb (Ascii.eqb "." c)) key = true.
Proof.
  unfold valid_key. intros [[Hne _]%andb_true_iff Hall]%andb_true_iff. split; [by intros -> |].
  revert Hall. apply all_bytes_impl. intros c. by destruct (Ascii.eqb_spec "." c) as [<- |].
Qed.

(** The temporary file of a checkpoint is no checkpoint. *)
Lemma temporary_not_file pid key key' :
  valid_key key = true → valid_key key' = true → checkpoint_temporary pid (file_of key) ≠ file_of key'.
Proof.
  intros [Hne Hk]%valid_key_dots [_ Hk']%valid_key_dots.
  unfold checkpoint_temporary, with_extension, file_name, file_of, path_join, directory_under. cbn.
  rewrite last_snoc. cbn. rewrite str_app_nil_r.
  destruct (String.eqb_spec (key +:+ ".json") "..") as [Heq | _].
  { apply (f_equal String.length) in Heq. rewrite str_length_app in Heq. destruct key; cbn in Heq; lia. }
  cbn. unfold file_stem. rewrite rsplit_char by done. destruct key as [| c key]; [done |]. cbn.
  rewrite removelast_last. intros [= H]. apply app_inj_tail in H as [_ H].
  rewrite !str_app_nil_r in H.
  apply (first_char "." (String c key) key' ("json.tmp-" +:+ show_N pid) "json") in H as [_ H]; [| done | done].
  discriminate.
Qed.

(** ** What the programs do to the files *)

(** Every checkpoint is as it was, or one was replaced. *)
Definition same_saved (d d' : Disk) : Prop := ∀ key, valid_key key = true → d' !! file_of key = d !! file_of key.
Definition saves (key : string) (content : option (list N)) (d d' : Disk) : Prop :=
  ∀ key', valid_key key' = true →
    d' !! file_of key' = if decide (key' = key) then content else d !! file_of key'.

#[export] Instance same_saved_refl : Reflexive same_saved.
Proof. by intros d key. Qed.
Lemma same_saved_trans d1 d2 d3 : same_saved d1 d2 → same_saved d2 d3 → same_saved d1 d3.
Proof. intros H1 H2 key Hk. by rewrite H2, H1. Qed.

Lemma same_saved_temporary pid key content d :
  valid_key key = true → same_saved d (partial_alter (λ _, content) (checkpoint_temporary pid (file_of key)) d).
Proof. intros Hk key' Hk'. rewrite lookup_partial_alter_ne; [done |]. by apply temporary_not_file. Qed.

Section rules.
Context {T : Type} `{!Codec T, !CodecLaws T} (I : Disk → Prop).
#[local] Abbreviation holds := (holds (exec_file common_dir) I).

Lemma holds_path key (Q : result Path StorageError → Disk → Prop) d :
  I d → (∀ e, Q (Err e) d) → (valid_key key = true → Q (Ok (file_of key)) d) → holds (checkpoint_path key) Q d.
Proof.
  intros HI He Ho. unfold checkpoint_path. destruct (valid_key key); cbn; [| apply He].
  intros c. split; [done |]. destruct (fc_fault c) as [[] |]; [apply He | apply He | by apply Ho].
Qed.

Lemma holds_load key (Q : result (option T) StorageError → Disk → Prop) d :
  I d → (∀ e, Q (Err e) d) → (valid_key key = true → d !! file_of key = None → Q (Ok None) d) →
  (∀ bytes value, valid_key key = true → d !! file_of key = Some bytes → decode_value bytes = Some value →
    Q (Ok (Some value)) d) →
  holds (load key) Q d.
Proof.
  intros HI He Hn Hs. unfold load. apply holds_try, holds_path; [done | done |]. intros Hk. cbn. intros c.
  split; [done |]. unfold faulty. destruct (fc_fault c); [apply He |].
  destruct (d !! file_of key) as [bytes |] eqn:Hd; [| by apply Hn].
  destruct (_ <? _)%N; [apply He |]. cbn. intros c'. split; [done |].
  unfold faulty. destruct (fc_fault c'); [apply He |]. rewrite Hd. cbn.
  destruct (decode_value bytes) as [value |] eqn:Hv; [by eapply Hs | apply He].
Qed.

Lemma holds_write pid key (value : T) (Q : result unit StorageError → Disk → Prop) d :
  (∀ d', same_saved d d' → I d' ∧ ∀ e, Q (Err e) d') →
  (∀ bytes d', valid_key key = true → encode_value value = Some bytes → saves key (Some bytes) d d' →
    I d' ∧ Q (Ok ()) d' ∧ ∀ e, Q (Err e) d') →
  holds (write pid key value) Q d.
Proof.
  intros Hsame Hsaves. assert (I d ∧ ∀ e, Q (Err e) d) as [HI He] by by apply Hsame.
  unfold write. apply holds_try, holds_path; [done | done |]. intros Hk.
  destruct (encode_value value) as [bytes |] eqn:Hb; [| apply He].
  destruct (_ <? _); [apply He |]. set (temporary := checkpoint_temporary pid (file_of key)).
  assert (∀ content, same_saved d (partial_alter (λ _, content) temporary d)) as Htemp.
  { intros content. by apply same_saved_temporary. }
  assert (∀ d', same_saved d d' → I d') as HIs by by intros; apply Hsame.
  assert (∀ d' e, same_saved d d' → Q (Err e) d') as HQs by by intros; apply Hsame.
  file_step. intros c1. split; [done |]. destruct (faulty_cases c1 (Ok () : result unit IoError)) as [-> | ->]; [| apply He].
  file_step. intros c2. destruct (effect_cases c2 d (<[temporary := []]> d) (Ok () : result unit IoError)) as [-> | ->];
    [by split; [| apply He] |].
  split; [apply HIs, (Htemp (Some [])) |]. file_step. intros c3. rewrite lookup_insert_eq, insert_insert_eq.
  split; [apply HIs, (Htemp (Some (written c3 bytes))) |]. unfold faulty, written.
  destruct (fc_fault c3); [apply HQs, (Htemp (Some (take (fc_torn c3) bytes))) |].
  file_step. intros c4. rewrite lookup_insert_eq, delete_insert_eq.
  set (d' := <[file_of key := bytes]> (delete temporary d)).
  assert (saves key (Some bytes) d d') as Hd'.
  { intros key' Hk'. unfold d'. destruct (decide (key' = key)) as [-> |]; [apply lookup_insert_eq |].
    rewrite lookup_insert_ne by (intros H%file_of_inj; congruence). by apply (Htemp None). }
  destruct (Hsaves bytes d' Hk eq_refl Hd') as (HId' & HQd' & HEd').
  destruct (effect_cases c4 (<[temporary := bytes]> d) d' (Ok () : result unit IoError)) as [-> | ->].
  - split; [apply HIs, (Htemp (Some bytes)) |]. file_step. intros c5. rewrite lookup_insert_eq, delete_insert_eq.
    destruct (effect_cases c5 (<[temporary := bytes]> d) (delete temporary d) (Ok () : result unit IoError)) as [-> | ->].
    + split; [apply HIs, (Htemp (Some bytes)) | apply HQs, (Htemp (Some bytes))].
    + split; [apply HIs, (Htemp None) | apply HQs, (Htemp None)].
  - split; [done |]. file_step. intros c5. split; [done |].
    destruct (faulty_cases c5 (Ok () : result unit IoError)) as [-> | ->]; [done |]. file_step. intros c6.
    assert (d' !! temporary = None) as ->.
    { unfold d'. rewrite lookup_insert_ne; [apply lookup_delete_eq |]. symmetry. by apply temporary_not_file. }
    by destruct (effect_cases c6 d' d' (Err NotFound : result unit IoError)) as [-> | ->].
Qed.

Lemma holds_remove key (Q : result unit StorageError → Disk → Prop) d :
  I d → (∀ r, Q r d) → (∀ d', valid_key key = true → saves key None d d' → I d' ∧ Q (Ok ()) d') →
  holds (remove key) Q d.
Proof.
  intros HI Hr Hs. unfold remove. apply holds_try, holds_path; [done | auto |]. intros Hk. cbn. intros c.
  destruct (d !! file_of key) as [bytes |] eqn:Hd.
  - destruct (effect_cases c d (delete (file_of key) d) (Ok () : result unit IoError)) as [-> | ->];
      [split; [done | apply Hr] |].
    apply Hs; [done |]. intros key' _. destruct (decide (key' = key)) as [-> |]; [apply lookup_delete_eq |].
    apply lookup_delete_ne. intros H%file_of_inj. congruence.
  - destruct (effect_cases c d d (Err NotFound : result unit IoError)) as [-> | ->]; (split; [done | apply Hr]).
Qed.
End rules.
End files.
