(* ===== verification/CiDispatch.v ===== *)
(** The selection and the durable start of CI executions after a queue
    mutation: src/src/ci_dispatch.rs. *)

From Stdlib Require Import Ascii String.
From S2P Require Import Prelude Text Model Lineage RequiredRuns Mutations Files Programs Store Checkpoints.

#[local] Open Scope string_scope.
#[local] Open Scope list_scope.
#[local] Open Scope nat_scope.
#[local] Open Scope caravan_scope.

(** ** Executions *)

Record CiExecution := mkCiExecution {
  ce_app_id : N;
  ce_app_slug : string;
  ce_workflow_id : N;
  ce_workflow_name : string;
  ce_contexts : list string;
  ce_restart_required : bool;
  ce_run_id : N;
  ce_run_attempt : N;
  ce_check_suite_id : N;
  ce_pull_request : WorkflowPullRequestBinding;
  ce_event : string;
  ce_status : string;
  ce_conclusion : string }.
#[export] Instance WorkflowPullRequestBinding_eq_dec : EqDecision WorkflowPullRequestBinding.
Proof. solve_decision. Defined.
#[export] Instance CiExecution_eq_dec : EqDecision CiExecution.
Proof. solve_decision. Defined.

(** The error of a forge operation: its code, and whether it says that a write
    was attempted ([details.provider_write_attempted]). *)
Record ProviderError := mkProviderError {
  pe_code : string;
  pe_write_attempted : option bool }.

(** [AppError] by its cause. *)
Inductive CiError :=
| CiUnavailable (reason : string)
| CiIndeterminate (key : string)
| CiStorage (error : StorageError)
| CiProvider (error : ProviderError).
Definition unavailable {A} (reason : string) : result A CiError := Err (CiUnavailable reason).

Definition opt_positive (id : option N) : option N := opt_filter (λ n, 0 <? n)%N id.

Definition active_status (status : string) : bool :=
  mem status ["queued"; "requested"; "waiting"; "pending"; "in_progress"].
Definition terminal_conclusion (conclusion : string) : bool :=
  mem conclusion ["success"; "failure"; "cancelled"; "timed_out"; "action_required"; "neutral"; "skipped"].
Definition restartable_conclusion (conclusion : string) : bool :=
  mem conclusion ["failure"; "cancelled"; "timed_out"; "action_required"; "neutral"; "skipped"].

Definition reusable (e : CiExecution) : bool :=
  (active_status (ce_status e) && str_is_empty (ce_conclusion e))
  || (String.eqb (ce_status e) "completed" && negb (ce_restart_required e)
      && terminal_conclusion (ce_conclusion e)).
Definition requestable (e : CiExecution) : bool :=
  ce_restart_required e && String.eqb (ce_status e) "completed" && restartable_conclusion (ce_conclusion e).

Definition same_execution (e other : CiExecution) : bool :=
  (ce_app_id e =? ce_app_id other)%N && String.eqb (ce_app_slug e) (ce_app_slug other)
  && (ce_workflow_id e =? ce_workflow_id other)%N && (ce_run_id e =? ce_run_id other)%N
  && (ce_run_attempt e =? ce_run_attempt other)%N && (ce_check_suite_id e =? ce_check_suite_id other)%N
  && bool_decide (ce_pull_request e = ce_pull_request other) && String.eqb (ce_event e) (ce_event other).

Definition succeeds (e old : CiExecution) : bool :=
  (ce_app_id e =? ce_app_id old)%N && String.eqb (ce_app_slug e) (ce_app_slug old)
  && (ce_workflow_id e =? ce_workflow_id old)%N
  && bool_decide (ce_pull_request e = ce_pull_request old) && String.eqb (ce_event e) (ce_event old)
  && ((ce_run_id old <? ce_run_id e)%N
      || ((ce_run_id e =? ce_run_id old)%N && (ce_run_attempt old <? ce_run_attempt e)%N
          && (ce_check_suite_id e =? ce_check_suite_id old)%N)).

(** The generation of a pull request an execution must be bound to. *)
Definition expected_binding (pull : PullRequestSnapshot) : WorkflowPullRequestBinding :=
  mkWorkflowPullRequestBinding (pr_number pull) (br_oid (pr_head pull)) (br_name (pr_head pull))
    (br_oid (pr_base pull)) (br_name (pr_base pull)).

Definition failed_state (s : CheckState) : bool :=
  match s with CheckFailure | CheckCancelled | CheckTimedOut | CheckActionRequired => true | _ => false end.

(** A current report of an applicable context that failed in this run. *)
Definition demands_restart (pull : PullRequestSnapshot) (app_id : N) (contexts : list string)
    (suite : CheckSuiteLineage) (run : WorkflowRunLineage) (check : CheckSnapshot) : bool :=
  mem (ck_name check) contexts && bool_decide (ck_app_id check = Some app_id)
  && bool_decide (ck_check_suite_id check = Some (cs_id suite))
  && bool_decide (ck_head_oid check = Some (br_oid (pr_head pull)))
  && bool_decide (details_run_id check = Some (wr_run_id run)) && failed_state (ck_state check).

Definition run_is_bound (pull : PullRequestSnapshot) (run : WorkflowRunLineage) (suite : CheckSuiteLineage)
    (execution : WorkflowExecutionIdentity) (app_id : N) : bool :=
  let expected := expected_binding pull in
  negb ((app_id =? 0)%N || (we_workflow_id execution =? 0)%N || (we_run_attempt execution =? 0)%N
        || (wr_run_id run =? 0)%N || (wr_check_suite_id run =? 0)%N
        || str_is_empty (wr_workflow_name run) || str_is_empty (wr_event run)
        || negb (String.eqb (wr_head_sha run) (wb_head_sha expected))
        || negb (String.eqb (cs_head_sha suite) (wb_head_sha expected))
        || negb (cs_id suite =? wr_check_suite_id run)%N
        || negb (String.eqb (cs_app_slug suite) "github-actions")
        || negb (bool_decide (List.filter (λ binding, (wb_number binding =? pr_number pull)%N)
                                (we_pull_requests execution) = [expected]))).

Definition from_run (pull : PullRequestSnapshot) (run : WorkflowRunLineage) (suite : CheckSuiteLineage)
    (app_id : N) (contexts : list string) : result CiExecution CiError :=
  match wr_execution run with
  | None => unavailable "workflow ID or run attempt is absent"
  | Some execution =>
      if negb (run_is_bound pull run suite execution app_id)
      then unavailable "App/workflow/run/suite/head/base/PR binding is absent, ambiguous or stale"
      else
        let current := (latest_checks_per_identity (pr_checks pull)).1 in
        let selected := mkCiExecution app_id (cs_app_slug suite) (we_workflow_id execution) (wr_workflow_name run)
          contexts (existsb (demands_restart pull app_id contexts suite run) current)
          (wr_run_id run) (we_run_attempt execution) (cs_id suite) (expected_binding pull)
          (wr_event run) (wr_status run) (wr_conclusion run) in
        if negb (reusable selected) && negb (requestable selected)
        then unavailable "workflow state is unknown"
        else Ok selected
  end.

(** ** Selection *)

Definition validate_lineage (pull : PullRequestSnapshot) (lineage : HeadRunLineage) : result unit CiError :=
  if negb (hl_complete lineage) || negb (String.eqb (hl_head_sha lineage) (br_oid (pr_head pull)))
     || has_duplicate_ids (wr_run_id <$> hl_workflow_runs lineage)
     || has_duplicate_ids (cs_id <$> hl_check_suites lineage)
  then unavailable "workflow lineage is incomplete, duplicated or belongs to another head"
  else Ok ().

Record WorkflowAnchor := mkAnchor {
  wa_app_id : N;
  wa_workflow_id : N;
  wa_run : WorkflowRunLineage;
  wa_contexts : gset string }.

Definition identified_execution (run : WorkflowRunLineage) : option WorkflowExecutionIdentity :=
  opt_filter (λ e, (0 <? we_workflow_id e) && (0 <? we_run_attempt e))%N (wr_execution run).

(** The workflow behind a report; a report that Actions did not make has none. *)
Definition check_anchor (pull : PullRequestSnapshot) (check : CheckSnapshot) (lineage : HeadRunLineage)
    : result (option WorkflowAnchor) CiError :=
  let head := br_oid (pr_head pull) in
  if bool_decide (ck_provider_kind check = Some "StatusContext") then Ok None
  else if negb (bool_decide (ck_provider_kind check = Some "CheckRun"))
  then unavailable "only a real provider check run can identify an applicable workflow"
  else
    suite <-? ok_or (List.find (λ suite, bool_decide (Some (cs_id suite) = ck_check_suite_id check)
                                         && String.eqb (cs_head_sha suite) head) (hl_check_suites lineage))
                (CiUnavailable "reporting check has no exact owning suite") ;;
    if negb (String.eqb (cs_app_slug suite) "github-actions") then Ok None
    else
      app_id <-? ok_or (opt_positive (ck_app_id check)) (CiUnavailable "reporting check has no App identity") ;;
      if negb (bool_decide (ck_head_oid check = Some head))
      then unavailable "reporting check lacks current-head proof"
      else
        id <-? ok_or (details_run_id check) (CiUnavailable "reporting check has no workflow run identity") ;;
        run <-? ok_or (List.find (λ run, (wr_run_id run =? id)%N && (wr_check_suite_id run =? cs_id suite)%N
                                         && String.eqb (wr_head_sha run) head) (hl_workflow_runs lineage))
                  (CiUnavailable "reporting check and workflow suite disagree") ;;
        execution <-? ok_or (identified_execution run)
                        (CiUnavailable "reporting check has no actual workflow/attempt identity") ;;
        if negb (bool_decide (ck_workflow_name check = Some (wr_workflow_name run)))
           || str_is_empty (wr_workflow_name run)
        then unavailable "reporting check and workflow identity disagree"
        else Ok (Some (mkAnchor app_id (we_workflow_id execution) run ∅)).

(** [Iterator::max_by_key]: the last of the greatest. *)
Definition max_by_key {A K} `{RustOrd K} (key : A → K) (l : list A) : option A :=
  foldl (λ best x, match best with
                   | Some b => if ord_le (key b) (key x) then Some x else Some b
                   | None => Some x
                   end) None l.

Definition attempt_of (run : WorkflowRunLineage) : N :=
  match wr_execution run with Some e => we_run_attempt e | None => 0 end.
Definition runs_workflow (head : CommitOid) (workflow_id : N) (run : WorkflowRunLineage) : bool :=
  String.eqb (wr_head_sha run) head
  && match wr_execution run with Some e => (we_workflow_id e =? workflow_id)%N | None => false end.

Definition newest_execution (pull : PullRequestSnapshot) (anchor : WorkflowAnchor) (lineage : HeadRunLineage)
    : result CiExecution CiError :=
  let head := br_oid (pr_head pull) in
  if existsb (λ run, String.eqb (wr_head_sha run) head
                     && (wr_run_id (wa_run anchor) <=? wr_run_id run)%N
                     && is_none_b (wr_execution run)) (hl_workflow_runs lineage)
  then unavailable "a newer workflow has unknown execution identity"
  else
    newest <-? ok_or (max_by_key (λ run, (wr_run_id run, attempt_of run))
                        (List.filter (runs_workflow head (wa_workflow_id anchor)) (hl_workflow_runs lineage)))
                 (CiUnavailable "applicable workflow disappeared") ;;
    suite <-? ok_or (List.find (λ suite, (cs_id suite =? wr_check_suite_id newest)%N) (hl_check_suites lineage))
                (CiUnavailable "current execution has no suite") ;;
    from_run pull newest suite (wa_app_id anchor) (bs_elems (wa_contexts anchor)).

(** The reports that count for a context: those its declarations match, or all
    of a context the policy does not declare. *)
Definition applicable (pull : PullRequestSnapshot) (policy : RequiredContextsRead) (checks : list CheckSnapshot)
    (name : string) : list CheckSnapshot :=
  let declared := List.filter (λ required, String.eqb (rc_context required) name) (rr_checks policy) in
  List.filter (λ check, String.eqb (ck_name check) name
    && (forallb (λ required, negb (String.eqb (rc_context required) name)) (rr_checks policy)
        || existsb (λ required, matches required check (br_oid (pr_head pull))) declared)) checks.

Abbreviation Anchors := (gmap N WorkflowAnchor) (only parsing).

Definition add_context (name : string) (a : WorkflowAnchor) : WorkflowAnchor :=
  mkAnchor (wa_app_id a) (wa_workflow_id a) (wa_run a) ({[name]} ∪ wa_contexts a).

Definition anchor_check (pull : PullRequestSnapshot) (lineage : HeadRunLineage)
    (anchors : result Anchors CiError) (check : CheckSnapshot) : result Anchors CiError :=
  anchors <-? anchors ;;
  anchor <-? check_anchor pull check lineage ;;
  match anchor with
  | None => Ok anchors
  | Some anchor =>
      let entry := default anchor (anchors !! wa_workflow_id anchor) in
      if negb (wa_app_id entry =? wa_app_id anchor)%N
      then unavailable "one workflow has conflicting App identities"
      else Ok (<[wa_workflow_id anchor := add_context (ck_name check) entry]> anchors)
  end.

Definition anchor_context (pull : PullRequestSnapshot) (policy : RequiredContextsRead) (lineage : HeadRunLineage)
    (checks : list CheckSnapshot) (anchors : result Anchors CiError) (name : string) : result Anchors CiError :=
  anchors <-? anchors ;;
  match applicable pull policy checks name with
  | [] => unavailable "applicable context has no current reporting identity"
  | reports => foldl (anchor_check pull lineage) (Ok anchors) reports
  end.

(** [collect::<Result<Vec<_>, _>>]. *)
Fixpoint collect {A E} (l : list (result A E)) : result (list A) E :=
  match l with
  | [] => Ok []
  | r :: l => x <-? r ;; rest <-? collect l ;; Ok (x :: rest)
  end.

Definition context_names (policy : RequiredContextsRead) (gate : option string) : list string :=
  match gate with
  | Some name => [name]
  | None => bs_elems (list_to_set (rc_context <$> rr_checks policy) : gset string)
  end.

Definition select (pull : PullRequestSnapshot) (policy : RequiredContextsRead) (gate : option string)
    (lineage : HeadRunLineage) : result (list CiExecution) CiError :=
  let policy := normalized policy in
  if negb (rr_complete policy) then unavailable "effective landing-target policy is incomplete"
  else if is_none_b gate && bool_decide (rr_checks policy = []) then Ok []
  else
    do? validate_lineage pull lineage ;;
    let checks := (latest_checks_per_identity (pr_checks pull)).1 in
    anchors <-? foldl (anchor_context pull policy lineage checks) (Ok ∅) (context_names policy gate) ;;
    collect ((λ anchor, newest_execution pull anchor lineage) <$> bt_values anchors).

(** ** The durable start *)

Inductive DispatchDisposition := Requested | Reused | SuccessorObserved.
#[export] Instance DispatchDisposition_eq_dec : EqDecision DispatchDisposition.
Proof. solve_decision. Defined.

Record DispatchBinding := mkDispatchBinding {
  db_repository : RepositoryId;
  db_pull_request : WorkflowPullRequestBinding;
  db_caravan_members : list PrNumber;
  db_workflow_id : N }.
#[export] Instance DispatchBinding_eq_dec : EqDecision DispatchBinding.
Proof. solve_decision. Defined.

Record DispatchCheckpoint := mkDispatchCheckpoint {
  dc_schema_version : N;
  dc_binding : DispatchBinding;
  dc_selected : CiExecution;
  dc_operation_id : OperationId;
  dc_disposition : DispatchDisposition;
  dc_provider_receipt : option GitHubMutationReceipt;
  dc_observed_successor : option CiExecution;
  dc_rejected_before_write : option string }.

Definition with_receipt (receipt : GitHubMutationReceipt) (c : DispatchCheckpoint) : DispatchCheckpoint :=
  mkDispatchCheckpoint (dc_schema_version c) (dc_binding c) (dc_selected c) (dc_operation_id c)
    (dc_disposition c) (Some receipt) (dc_observed_successor c) (dc_rejected_before_write c).
Definition with_successor (successor : CiExecution) (c : DispatchCheckpoint) : DispatchCheckpoint :=
  mkDispatchCheckpoint (dc_schema_version c) (dc_binding c) (dc_selected c) (dc_operation_id c)
    (dc_disposition c) (dc_provider_receipt c) (Some successor) (dc_rejected_before_write c).
Definition with_rejection (code : string) (c : DispatchCheckpoint) : DispatchCheckpoint :=
  mkDispatchCheckpoint (dc_schema_version c) (dc_binding c) (dc_selected c) (dc_operation_id c)
    (dc_disposition c) (dc_provider_receipt c) (dc_observed_successor c) (Some code).

Record DispatchResult := mkDispatchResult {
  dr_disposition : DispatchDisposition;
  dr_operation_id : OperationId;
  dr_provider_receipt : option GitHubMutationReceipt }.

(** The caller's two closures beside the files. *)
Inductive CiOp : Type → Type :=
| CiFile {R : Type} (op : FileOp R) : CiOp R
| CiPreflight : CiOp (result unit ProviderError)
| CiRequest (binding : DispatchBinding) (selected : CiExecution) : CiOp (result GitHubMutationReceipt ProviderError).

(** [serde_json] on a binding, and SHA-256 in hexadecimal of a text and of a
    checkpoint's text. *)
Class CiCodec := {
  encode_binding : DispatchBinding → option (list N);
  sha256_hex : list N → string;
  ci_checkpoint_codec :: Codec DispatchCheckpoint;
  encode_compact : DispatchCheckpoint → option (list N) }.

Section dispatch.
Context `{!CiCodec}.
(** [std::process::id()]. *)
Context (pid : N).
#[local] Open Scope prog_scope.
#[local] Abbreviation CiProg A := (Prog CiOp (result A CiError)).

Definition stored {A} (p : Prog FileOp (result A StorageError)) : CiProg A :=
  map_err (embed (λ R, CiFile) p) CiStorage.

(** A durable observation decides what a repeated start returns; it never
    writes to the provider. *)
Definition reconcile (key : string) (saved : DispatchCheckpoint) (selected : CiExecution) : CiProg DispatchResult :=
  if match dc_observed_successor saved with
     | Some observed => negb (same_execution selected observed) && negb (succeeds selected observed)
     | None => false
     end
  then Ret (unavailable "provider execution regressed behind a durably observed successor")
  else if succeeds selected (dc_selected saved) then
    run? stored (write pid key (with_successor selected saved)) in
    Ret (Ok (mkDispatchResult SuccessorObserved (dc_operation_id saved) None))
  else if same_execution selected (dc_selected saved)
          && (is_some_b (dc_provider_receipt saved) || bool_decide (dc_disposition saved = Reused))
  then Ret (Ok (mkDispatchResult (dc_disposition saved) (dc_operation_id saved) None))
  else Ret (Err (CiIndeterminate key)).

Definition choose_disposition (selected : CiExecution) : CiProg DispatchDisposition :=
  if reusable selected then Ret (Ok Reused)
  else if negb (requestable selected) then Ret (unavailable "execution is not restartable")
  else run? map_err (perform CiPreflight) CiProvider in Ret (Ok Requested).

(** The intent is durable before the request, and its answer after. *)
Definition commit (key : string) (binding : DispatchBinding) (selected : CiExecution) (operation_id : OperationId)
    (disposition : DispatchDisposition) : CiProg DispatchResult :=
  let checkpoint := mkDispatchCheckpoint 1 binding selected operation_id disposition None None None in
  run? stored (write pid key checkpoint) in
  if bool_decide (disposition = Reused) then Ret (Ok (mkDispatchResult disposition operation_id None))
  else
    let! answer := perform (CiRequest binding selected) in
    match answer with
    | Err error =>
        if bool_decide (pe_write_attempted error = Some false)
        then
          run? stored (write pid key (with_rejection (pe_code error) checkpoint)) in
          Ret (Err (CiProvider error))
        else Ret (Err (CiProvider error))
    | Ok receipt =>
        run? stored (write pid key (with_receipt receipt checkpoint)) in
        Ret (Ok (mkDispatchResult disposition operation_id (Some receipt)))
    end.

Definition start (key : string) (binding : DispatchBinding) (selected : CiExecution) (operation_id : OperationId)
    : CiProg DispatchResult :=
  let? disposition := choose_disposition selected in
  commit key binding selected operation_id disposition.

Definition dispatch_key (encoded : list N) : string := fmt ["ci-start-"; sha256_hex encoded].
Definition archive_key (encoded : list N) : string := fmt ["ci-refused-"; sha256_hex encoded].

Definition dispatch (binding : DispatchBinding) (selected : CiExecution) (operation_id : OperationId)
    : CiProg DispatchResult :=
  if negb (bool_decide (db_pull_request binding = ce_pull_request selected))
     || negb (db_workflow_id binding =? ce_workflow_id selected)%N
  then Ret (unavailable "CI-start binding does not match its selected execution")
  else
    match encode_binding binding with
    | None => Ret (unavailable "serialization")
    | Some encoded =>
        let key := dispatch_key encoded in
        let? loaded := stored (load key) in
        match loaded with
        | None => start key binding selected operation_id
        | Some saved =>
            if negb (dc_schema_version saved =? 1)%N || negb (bool_decide (dc_binding saved = binding))
               || bool_decide (dc_disposition saved = SuccessorObserved)
            then Ret (unavailable "CI dispatch checkpoint identity is invalid")
            else if is_none_b (dc_rejected_before_write saved) then reconcile key saved selected
            else
              match encode_compact saved with
              | None => Ret (unavailable "serialization")
              | Some bytes =>
                  run? stored (write pid (archive_key bytes) saved) in
                  run? stored (remove key) in
                  start key binding selected operation_id
              end
        end
    end.
End dispatch.
