(* ===== verification/CiDispatchProofs.v ===== *)
(** A CI start is requested at most once: the machine the dispatch runs on, and
    the invariant of its checkpoints under kills and faults at any point. *)

From Stdlib Require Import Ascii String.
From S2P Require Import Prelude Text TextProofs Model RequiredRuns Mutations Files Programs Store Checkpoints CiDispatch.

#[local] Open Scope string_scope.
#[local] Open Scope list_scope.
#[local] Open Scope nat_scope.
#[local] Open Scope prog_scope.

(** ** The machine *)

Record CiRequestLog := mkRequestLog {
  rq_binding : DispatchBinding;
  rq_selected : CiExecution;
  rq_answer : result GitHubMutationReceipt ProviderError }.

(** The files, and the requests made so far. *)
Record CiWorld := mkCiWorld {
  cw_disk : gmap Path (list N);
  cw_requests : list CiRequestLog }.
Definition set_disk (d : gmap Path (list N)) (w : CiWorld) : CiWorld := mkCiWorld d (cw_requests w).

Record CiChoice := mkCiChoice {
  cc_file : FileChoice;
  cc_preflight : result unit ProviderError;
  cc_request : result GitHubMutationReceipt ProviderError }.

Lemma set_disk_same w : set_disk (cw_disk w) w = w.
Proof. by destruct w. Qed.

Section machine.
Context (common_dir : Path).

Definition exec_ci (R : Type) (c : CiChoice) (op : CiOp R) (w : CiWorld) : R * CiWorld :=
  match op in CiOp R return R * CiWorld with
  | CiFile op => let (r, d) := exec_file common_dir _ (cc_file c) op (cw_disk w) in (r, set_disk d w)
  | CiPreflight => (cc_preflight c, w)
  | CiRequest binding selected =>
      (cc_request c, mkCiWorld (cw_disk w) (cw_requests w ++ [mkRequestLog binding selected (cc_request c)]))
  end.

(** Calls one after the other: each finishes, or is killed where its choices
    end; the next one finds the files as they are. *)
Record CiCall := mkCiCall {
  cl_pid : N;
  cl_binding : DispatchBinding;
  cl_selected : CiExecution;
  cl_operation_id : OperationId;
  cl_choices : list CiChoice }.

Fixpoint run_calls `{!CiCodec} (calls : list CiCall) (w : CiWorld) : CiWorld :=
  match calls with
  | [] => w
  | c :: calls =>
      run_calls calls
        (drive exec_ci (cl_choices c)
           (dispatch (cl_pid c) (cl_binding c) (cl_selected c) (cl_operation_id c)) w).2
  end.
End machine.

(** A refusal the provider adapter gives before it writes. *)
Definition refused (e : CiRequestLog) : bool :=
  match rq_answer e with
  | Err error => bool_decide (pe_write_attempted error = Some false)
  | Ok _ => false
  end.
Definition requests_for (b : DispatchBinding) (w : CiWorld) : list CiRequestLog :=
  List.filter (λ e, bool_decide (rq_binding e = b)) (cw_requests w).

(** ** The invariant *)

Section invariant.
Context `{!CiCodec, !CodecLaws DispatchCheckpoint} (common_dir : Path) (pid : N).
Implicit Types (w : CiWorld) (d : gmap Path (list N)) (b : DispatchBinding).

Definition key_of b : option string := dispatch_key <$> encode_binding b.

(** The checkpoint forbids a request for [b]. *)
Definition forbids d b : Prop :=
  ∃ key bytes c, key_of b = Some key ∧ valid_key key = true ∧ d !! file_of common_dir key = Some bytes
    ∧ decode_value bytes = Some c ∧ dc_binding c = b ∧ dc_rejected_before_write c = None.

Definition all_refused b w : Prop := Forall (λ e, refused e = true) (requests_for b w).

Definition once w : Prop := ∀ b,
  all_refused b w
  ∨ forbids (cw_disk w) b ∧ ∃ before last, requests_for b w = before ++ [last] ∧ Forall (λ e, refused e = true) before.

(** Nothing was started under this key. *)
Definition idle key w : Prop := ∀ b, key_of b = Some key → all_refused b w.

(** A change of the files keeps the invariant where a key is left alone, is
    idle, or forbids as before. *)
Lemma once_disk w d :
  once w →
  (∀ b key, key_of b = Some key → valid_key key = true →
    d !! file_of common_dir key = cw_disk w !! file_of common_dir key ∨ all_refused b w
    ∨ (forbids (cw_disk w) b → forbids d b)) →
  once (set_disk d w).
Proof.
  intros Hw Hd b. destruct (Hw b) as [Hall | [Hf Hr]]; [by left |].
  pose proof Hf as (key & bytes & c & Hk & Hv & Hb & Hc). destruct (Hd b key Hk Hv) as [Hsame | [Hall | Hkeep]].
  - right. split; [| done]. exists key, bytes, c. split; [done |]. split; [done |]. split; [cbn; by rewrite Hsame | done].
  - by left.
  - right. split; [by apply Hkeep | done].
Qed.

Lemma once_same w d : once w → same_saved common_dir (cw_disk w) d → once (set_disk d w).
Proof. intros Hw Hs. apply once_disk; [done |]. intros b key _ Hv. left. by apply Hs. Qed.

Lemma key_prefix b key : key_of b = Some key → starts_with "ci-start-" key = true.
Proof. unfold key_of. destruct (encode_binding b) as [e |]; [| done]. cbn. intros [= <-]. apply starts_with_app. Qed.

Lemma archive_not_key bytes b : key_of b ≠ Some (archive_key bytes).
Proof. intros Hk%key_prefix. discriminate. Qed.

(** An archive is beside every key. *)
Lemma once_archive w d bytes content :
  once w → saves common_dir (archive_key bytes) content (cw_disk w) d → once (set_disk d w).
Proof.
  intros Hw Hs. apply once_disk; [done |]. intros b key Hk Hv. left. rewrite (Hs key Hv).
  rewrite decide_False; [done |]. intros ->. by apply archive_not_key in Hk.
Qed.

(** A key that is idle may get any content. *)
Lemma once_idle w d key content :
  once w → idle key w → saves common_dir key content (cw_disk w) d → once (set_disk d w).
Proof.
  intros Hw Hi Hs. apply once_disk; [done |]. intros b key' Hk Hv.
  destruct (decide (key' = key)) as [-> | Hne]; [right; left; by apply Hi |].
  left. by rewrite (Hs key' Hv), decide_False.
Qed.

(** A checkpoint that forbids may be replaced by one that forbids. *)
Lemma once_rewrite w d key b old bytes c value :
  once w → key_of b = Some key → cw_disk w !! file_of common_dir key = Some old → decode_value old = Some c →
  dc_binding c = b → dc_binding value = b → dc_rejected_before_write value = None →
  encode_value value = Some bytes → saves common_dir key (Some bytes) (cw_disk w) d → once (set_disk d w).
Proof.
  intros Hw Hkey Hold Hc Hcb Hvb Hvr He Hs. apply once_disk; [done |]. intros b' key' Hk Hv.
  destruct (decide (key' = key)) as [-> | Hne]; [| left; by rewrite (Hs key' Hv), decide_False].
  right. right. intros (k & bytes' & c' & Hk' & _ & Hb' & Hc' & Hcb' & _).
  assert (k = key) as -> by congruence. rewrite Hold in Hb'. injection Hb' as <-. rewrite Hc in Hc'. injection Hc' as <-.
  exists key, bytes, value. split; [done |]. split; [done |]. split; [by rewrite (Hs key Hv), decide_True |].
  split; [by apply codec_roundtrip |]. split; [congruence | done].
Qed.

(** A key is idle where the files show no checkpoint, or one that was refused. *)
Lemma idle_absent w key : once w → cw_disk w !! file_of common_dir key = None → idle key w.
Proof.
  intros Hw Hn b Hk. destruct (Hw b) as [Hall | [(k & bytes & c & Hk' & _ & Hb & _) _]]; [done |]. congruence.
Qed.
Lemma idle_rejected w key bytes c :
  once w → cw_disk w !! file_of common_dir key = Some bytes → decode_value bytes = Some c →
  dc_rejected_before_write c ≠ None → idle key w.
Proof.
  intros Hw Hb Hc Hr b Hk. destruct (Hw b) as [Hall | [(k & bytes' & c' & Hk' & _ & Hb' & Hc' & _ & Hr') _]]; [done |].
  congruence.
Qed.

Lemma idle_disk w d key : idle key w → idle key (set_disk d w).
Proof. done. Qed.

(** ** The programs keep it *)

#[local] Abbreviation keeps p := (holds (exec_ci common_dir) once p (λ _, once)).

Lemma holds_stored {A} (p : Prog FileOp (result A StorageError)) (Q : result A CiError → CiWorld → Prop) w :
  holds (exec_file common_dir) (λ d, once (set_disk d w)) p
    (λ r d, Q (match r with Ok a => Ok a | Err e => Err (CiStorage e) end) (set_disk d w)) (cw_disk w) →
  holds (exec_ci common_dir) once (stored p) Q w.
Proof.
  intros Hp. unfold stored. apply holds_map_err.
  eapply (holds_embed (exec_ci common_dir) (λ R, CiFile) common_dir cw_disk set_disk cc_file); try done.
  by destruct w.
Qed.

(** A write whose success keeps the invariant. *)
Lemma holds_stored_write key value (Q : result unit CiError → CiWorld → Prop) w :
  once w → (∀ e w', once w' → Q (Err e) w') →
  (∀ bytes d, encode_value value = Some bytes → valid_key key = true →
    saves common_dir key (Some bytes) (cw_disk w) d → once (set_disk d w) ∧ Q (Ok ()) (set_disk d w)) →
  holds (exec_ci common_dir) once (stored (write pid key value)) Q w.
Proof.
  intros Hw He Hs. apply holds_stored, holds_write.
  - intros d Hsame. assert (once (set_disk d w)) by by apply once_same. split; [done |]. auto.
  - intros bytes d Hv Hb Hd. destruct (Hs bytes d Hb Hv Hd) as [H1 H2]. split_and!; [done | done | auto].
Qed.

Lemma request_other b e d w : rq_binding e ≠ b → requests_for b (mkCiWorld d (cw_requests w ++ [e])) = requests_for b w.
Proof. intros Hne. unfold requests_for. cbn. rewrite List.filter_app. cbn. rewrite bool_decide_false by done. apply app_nil_r. Qed.
Lemma request_own b e d w :
  rq_binding e = b → requests_for b (mkCiWorld d (cw_requests w ++ [e])) = requests_for b w ++ [e].
Proof. intros <-. unfold requests_for. cbn. rewrite List.filter_app. cbn. by rewrite bool_decide_true. Qed.

(** A request under a forbidding intent that was idle before. *)
Lemma once_request w e key :
  once w → key_of (rq_binding e) = Some key → idle key w → forbids (cw_disk w) (rq_binding e) →
  once (mkCiWorld (cw_disk w) (cw_requests w ++ [e])).
Proof.
  intros Hw Hk Hi Hf b. destruct (decide (rq_binding e = b)) as [<- | Hne].
  - right. split; [done |]. exists (requests_for (rq_binding e) w), e. split; [by rewrite request_own |]. by apply Hi.
  - unfold all_refused. rewrite !request_other by done. apply Hw.
Qed.

Lemma idle_refused w e key :
  key_of (rq_binding e) = Some key → idle key w → refused e = true →
  idle key (mkCiWorld (cw_disk w) (cw_requests w ++ [e])).
Proof.
  intros Hk Hi He b Hb. unfold all_refused. destruct (decide (rq_binding e = b)) as [<- | Hne].
  - rewrite request_own by done. apply Forall_app. split; [by apply Hi | by repeat constructor].
  - rewrite request_other by done. by apply Hi.
Qed.

Lemma commit_once key b selected operation_id disposition w :
  once w → idle key w → key_of b = Some key → keeps (commit pid key b selected operation_id disposition) w.
Proof.
  intros Hw Hi Hk. unfold commit. set (checkpoint := mkDispatchCheckpoint _ _ _ _ _ _ _ _).
  apply holds_try, holds_stored_write; [done | done |]. intros bytes d Hb Hv Hs.
  assert (once (set_disk d w)) as Hw' by by eapply once_idle. split; [done |].
  destruct (bool_decide _); [done |]. cbn [pbind perform holds]. intros c. cbn [exec_ci].
  set (e := mkRequestLog b selected (cc_request c)).
  assert (forbids (cw_disk (set_disk d w)) b) as Hf.
  { exists key, bytes, checkpoint. split; [done |]. split; [done |]. split; [cbn; by rewrite (Hs key Hv), decide_True |].
    split; [by apply codec_roundtrip | done]. }
  assert (once (mkCiWorld (cw_disk (set_disk d w)) (cw_requests (set_disk d w) ++ [e]))) as Hw2.
  { by eapply (once_request _ e key). }
  split; [done |]. destruct (cc_request c) as [receipt | error].
  - apply holds_try, holds_stored_write; [done | done |]. intros bytes' d' Hb' _ Hs'.
    assert (once (set_disk d' (mkCiWorld (cw_disk (set_disk d w)) (cw_requests (set_disk d w) ++ [e])))); [| done].
    eapply (once_rewrite _ _ key b bytes _ checkpoint (with_receipt receipt checkpoint));
      [exact Hw2 | exact Hk | cbn; by rewrite (Hs key Hv), decide_True | by apply codec_roundtrip | done | | | exact Hb' | exact Hs'];
      done.
  - case_bool_decide as Herr; [| done]. apply holds_try, holds_stored_write; [done | done |]. intros bytes' d' Hb' _ Hs'.
    assert (once (set_disk d' (mkCiWorld (cw_disk (set_disk d w)) (cw_requests (set_disk d w) ++ [e])))); [| done].
    eapply once_idle; [done | | done]. eapply (idle_refused (set_disk d w) e); [done | done |].
    unfold refused. cbn. by apply bool_decide_eq_true.
Qed.

Lemma start_once key b selected operation_id w :
  once w → idle key w → key_of b = Some key → keeps (start pid key b selected operation_id) w.
Proof.
  intros Hw Hi Hk. unfold start, choose_disposition. apply holds_try.
  destruct (reusable selected); [by apply commit_once |]. destruct (negb _); [done |].
  apply holds_try, holds_map_err. cbn. intros c. split; [done |]. destruct (cc_preflight c); [| done].
  by apply commit_once.
Qed.

Lemma reconcile_once key saved selected bytes w :
  once w → key_of (dc_binding saved) = Some key → cw_disk w !! file_of common_dir key = Some bytes →
  decode_value bytes = Some saved → dc_rejected_before_write saved = None →
  keeps (reconcile pid key saved selected) w.
Proof.
  intros Hw Hk Hb Hd Hr. unfold reconcile. destruct (match dc_observed_successor saved with Some _ => _ | None => _ end); [done |].
  destruct (succeeds _ _).
  - apply holds_try, holds_stored_write; [done | done |]. intros bytes' d Hb' _ Hs.
    assert (once (set_disk d w)); [| done]. eapply (once_rewrite _ _ key (dc_binding saved) bytes _ saved (with_successor selected saved));
      [exact Hw | exact Hk | exact Hb | exact Hd | done | done | done | exact Hb' | exact Hs].
  - by destruct (_ && _).
Qed.

Lemma dispatch_once b selected operation_id w : once w → keeps (dispatch pid b selected operation_id) w.
Proof.
  intros Hw. unfold dispatch. destruct (_ || _); [done |].
  destruct (encode_binding b) as [encoded |] eqn:He; [| done]. set (key := dispatch_key encoded).
  assert (key_of b = Some key) as Hk by (unfold key_of; by rewrite He).
  apply holds_try, holds_stored, holds_load; rewrite ?set_disk_same; [done | done | |].
  - intros _ Hn. apply start_once; [done | by apply idle_absent | done].
  - intros bytes saved _ Hb Hd.
    destruct (_ || bool_decide (_ = SuccessorObserved)) eqn:Hg; [done |].
    apply orb_false_iff in Hg as [[_ Hg]%orb_false_iff _]. apply negb_false_iff, bool_decide_eq_true in Hg.
    destruct (dc_rejected_before_write saved) as [code |] eqn:Hr; cbn [is_none_b is_some_b negb].
    + destruct (encode_compact saved) as [compact |]; [| done].
      apply holds_try, holds_stored_write; [done | done |]. intros bytes' d _ _ Hs.
      assert (once (set_disk d w)) as Hw' by by eapply once_archive. split; [done |].
      assert (idle key w) as Hi by (eapply idle_rejected; [done | done | done | by rewrite Hr]).
      apply holds_try, holds_stored, holds_remove.
      * done.
      * intros [[] | e]; [| done]. by apply start_once.
      * intros d' Hv Hs'. assert (once (set_disk d' (set_disk d w))) as Hw2.
        { by apply (once_idle (set_disk d w) d' key None). }
        split; [done |]. by apply start_once.
    + eapply reconcile_once; [done | by rewrite Hg | done | done | done].
Qed.

End invariant.

Section calls.
Context `{!CiCodec, !CodecLaws DispatchCheckpoint} (common_dir : Path).

Lemma calls_once calls w : once common_dir w → once common_dir (run_calls common_dir calls w).
Proof.
  revert w. induction calls as [| c calls IH]; intros w Hw; cbn; [done |]. apply IH.
  by apply (drive_holds _ _ _ (λ _, once common_dir) (cl_choices c) w Hw), dispatch_once.
Qed.

(** C28. A CI start is requested at most once: over any number of calls for any
    bindings, each killed or failing at any operation, every request for a
    binding but the last was refused by the provider before it wrote. *)
Theorem ci_start_requested_at_most_once disk calls b :
  ∃ before last, requests_for b (run_calls common_dir calls (mkCiWorld disk [])) = before ++ last
  ∧ Forall (λ e, refused e = true) before ∧ length last ≤ 1.
Proof.
  assert (once common_dir (mkCiWorld disk [])) as H0 by (intros b'; left; constructor).
  destruct (calls_once calls _ H0 b) as [Hall | [_ (before & last & Heq & Hb)]].
  - exists (requests_for b (run_calls common_dir calls (mkCiWorld disk []))), []. rewrite app_nil_r.
    split_and!; [done | exact Hall | cbn; lia].
  - exists before, [last]. split_and!; [done | done | cbn; lia].
Qed.

(** What a dispatch that returned did. *)
Definition dispatched (b : DispatchBinding) (selected : CiExecution) (w : CiWorld)
    (r : result DispatchResult CiError) (w' : CiWorld) : Prop :=
  cw_requests w' = cw_requests w
    ∧ match r with Ok r => dr_provider_receipt r = None | Err _ => True end
  ∨ ∃ answer, cw_requests w' = cw_requests w ++ [mkRequestLog b selected answer]
    ∧ reusable selected = false ∧ requestable selected = true
    ∧ match r with
      | Ok r => ∃ receipt, answer = Ok receipt ∧ dr_provider_receipt r = Some receipt ∧ dr_disposition r = Requested
      | Err (CiProvider error) => answer = Err error
      | Err _ => True
      end.

Lemma no_requests {A} (p : Prog FileOp (result A StorageError)) (Q : result A CiError → CiWorld → Prop) w :
  (∀ r w', cw_requests w' = cw_requests w → match r with Err (CiStorage _) | Ok _ => True | _ => False end → Q r w') →
  holds (exec_ci common_dir) (λ _, True) (stored p) Q w.
Proof.
  intros HQ. unfold stored. apply holds_map_err.
  eapply (holds_embed (exec_ci common_dir) (λ R, CiFile) common_dir cw_disk set_disk cc_file); try done; [by destruct w |].
  generalize (cw_disk w). induction p as [a | R op k IH]; intros d; cbn.
  - apply HQ; [done | by destruct a].
  - intros c. destruct (exec_file common_dir R c op d) as [r d']. split; [done |]. apply IH.
Qed.

Lemma commit_dispatched key b selected operation_id disposition w :
  (disposition = Reused ∨ reusable selected = false ∧ requestable selected = true ∧ disposition = Requested) →
  ∀ pid, holds (exec_ci common_dir) (λ _, True) (commit pid key b selected operation_id disposition)
    (dispatched b selected w) w.
Proof.
  intros Hd pid. unfold commit. apply holds_try, no_requests. intros [[] | [| | |]] w1 Hw1 Hr; try done; [| by left].
  case_bool_decide as Hreused; [left; by rewrite Hw1 |].
  destruct Hd as [Hd | (Hre & Hrq & ->)]; [done |]. cbn [pbind perform holds]. intros c. split; [done |]. cbn [exec_ci].
  destruct (cc_request c) as [receipt | error] eqn:Ha.
  - apply holds_try, no_requests. intros [[] | [| | |]] w2 Hw2 Hr2; try done;
      (right; exists (Ok receipt); split; [by rewrite Hw2; cbn; rewrite Hw1 | by eauto 10]).
  - case_bool_decide as Hrej; [apply holds_try, no_requests; intros [[] | [| | |]] w2 Hw2 Hr2; try done |];
      (right; exists (Err error); split; [rewrite ?Hw2; cbn; by rewrite Hw1 | by split_and!]).
Qed.

(** What a dispatch reports is what it did: a receipt is the answer of the
    one request it made, for an execution that may be restarted and not
    reused; without a receipt it made none, and an error of the provider is
    the answer of its request. *)
Theorem dispatch_reports_its_request pid b selected operation_id choices w r w' :
  drive (exec_ci common_dir) choices (dispatch pid b selected operation_id) w = (Some r, w') →
  dispatched b selected w r w'.
Proof.
  intros Hrun. apply (f_equal fst) in Hrun as Hr. apply (f_equal snd) in Hrun as Hw'. cbn in Hr, Hw'.
  assert (holds (exec_ci common_dir) (λ _, True) (dispatch pid b selected operation_id) (dispatched b selected w) w) as Hh.
  2: { destruct (drive_holds _ _ _ _ choices w I Hh) as [_ H']. rewrite <- Hw'. by apply H'. }
  clear Hrun Hr Hw'.
  assert (∀ key w1, cw_requests w1 = cw_requests w →
    holds (exec_ci common_dir) (λ _, True) (start pid key b selected operation_id) (dispatched b selected w) w1) as Hstart.
  { intros key w1 Hw1. unfold start, choose_disposition. apply holds_try.
    assert (∀ r w2, dispatched b selected w1 r w2 → dispatched b selected w r w2) as Hsame
      by (unfold dispatched; by rewrite Hw1).
    destruct (reusable selected) eqn:Hre.
    { cbn [holds]. eapply holds_mono; [exact Hsame |]. apply commit_dispatched. by left. }
    destruct (negb _) eqn:Hrq; [by left |]. apply negb_false_iff in Hrq.
    apply holds_try, holds_map_err. cbn. intros c. split; [done |]. destruct (cc_preflight c).
    - eapply holds_mono; [exact Hsame |]. apply commit_dispatched. by right.
    - left. by rewrite Hw1. }
  unfold dispatch. destruct (_ || _); [by left |]. destruct (encode_binding b) as [encoded |]; [| by left].
  apply holds_try, no_requests. intros [[saved |] | [| | |]] w1 Hw1 Hr; try done; [| by apply Hstart | by left].
  destruct (_ || bool_decide _); [by left |]. destruct (is_none_b _).
  - unfold reconcile. destruct (match dc_observed_successor saved with Some _ => _ | None => _ end); [by left |].
    destruct (succeeds _ _); [| by destruct (_ && _); left].
    apply holds_try, no_requests. intros [[] | [| | |]] w2 Hw2 Hr2; try done; left; by rewrite Hw2, Hw1.
  - destruct (encode_compact saved); [| by left].
    apply holds_try, no_requests. intros [[] | [| | |]] w2 Hw2 Hr2; try done; [| by left; rewrite Hw2, Hw1].
    apply holds_try, no_requests. intros [[] | [| | |]] w3 Hw3 Hr3; try done; [| by left; rewrite Hw3, Hw2, Hw1].
    apply Hstart. by rewrite Hw3, Hw2, Hw1.
Qed.
End calls.
