(* ===== verification/CiSelectProofs.v ===== *)
(** Which CI executions the selection of src/src/ci_dispatch.rs returns. *)

From Stdlib Require Import Ascii String.
From S2P Require Import Prelude Text Model Lineage RequiredRuns Mutations Files Programs Store Checkpoints CiDispatch.

#[local] Open Scope string_scope.
#[local] Open Scope list_scope.
#[local] Open Scope nat_scope.

Section select.
Context (pull : PullRequestSnapshot) (lineage : HeadRunLineage).
#[local] Abbreviation head := (br_oid (pr_head pull)).
Implicit Types (m : Anchors) (c : CheckSnapshot).

(** The report [c] has its workflow among the anchors, with its context. *)
Definition covered m c : Prop :=
  match check_anchor pull c lineage with
  | Ok (Some a) => ∃ x, m !! wa_workflow_id a = Some x ∧ wa_app_id x = wa_app_id a ∧ ck_name c ∈ wa_contexts x
  | Ok None => True
  | Err _ => False
  end.

(** Every anchor is a workflow some report of [reports] names. *)
Definition sound (reports : list CheckSnapshot) m : Prop :=
  ∀ id x, m !! id = Some x → wa_workflow_id x = id
    ∧ (∃ c a, c ∈ reports ∧ check_anchor pull c lineage = Ok (Some a)
         ∧ wa_workflow_id a = id ∧ wa_app_id a = wa_app_id x ∧ wa_run a = wa_run x)
    ∧ ∀ name, name ∈ wa_contexts x → ∃ c a, c ∈ reports ∧ ck_name c = name
         ∧ check_anchor pull c lineage = Ok (Some a) ∧ wa_workflow_id a = id.

Lemma check_anchor_empty c a : check_anchor pull c lineage = Ok (Some a) → wa_contexts a = ∅.
Proof. unfold check_anchor. repeat case_match; try done. by intros [= <-]. Qed.

Lemma sound_mono reports reports' m : reports ⊆ reports' → sound reports m → sound reports' m.
Proof.
  intros Hsub Hm id x Hx. destruct (Hm id x Hx) as (H1 & (c & a & Hc & H2) & H3).
  split; [done |]. split; [exists c, a; split; [by apply Hsub | done] |].
  intros name Hname. destruct (H3 name Hname) as (c' & a' & Hc' & H4). exists c', a'. split; [by apply Hsub | done].
Qed.

Lemma anchor_check_step m c m' reports :
  anchor_check pull lineage (Ok m) c = Ok m' → sound reports m →
  covered m' c ∧ (∀ c', covered m c' → covered m' c') ∧ sound (reports ++ [c]) m'.
Proof.
  unfold anchor_check. destruct (check_anchor pull c lineage) as [[a |] | e] eqn:Ha; [| | done].
  2: { intros [= <-] Hm. split; [unfold covered; by rewrite Ha |]. split; [done |].
       eapply sound_mono; [| done]. set_solver. }
  pose proof (check_anchor_empty _ _ Ha) as Hempty.
  destruct (negb _) eqn:Happ; [done |]. apply negb_false_iff, N.eqb_eq in Happ. intros [= <-] Hm.
  set (entry := default a (m !! wa_workflow_id a)) in *.
  assert (wa_workflow_id entry = wa_workflow_id a) as Hid.
  { unfold entry. destruct (m !! wa_workflow_id a) as [x |] eqn:Hx; [| done]. by apply Hm in Hx as [? _]. }
  split; [| split].
  - unfold covered. rewrite Ha. eexists. split; [apply lookup_insert_eq |]. cbn. split; [done | set_solver].
  - intros c'. unfold covered. destruct (check_anchor pull c' lineage) as [[a' |] |]; [| done | done].
    intros (x & Hx & Hxa & Hn). destruct (decide (wa_workflow_id a' = wa_workflow_id a)) as [Heq | Hne].
    + rewrite Heq in Hx |- *. exists (add_context (ck_name c) entry). split; [apply lookup_insert_eq |].
      unfold entry. rewrite Hx. cbn. split; [done | set_solver].
    + exists x. by rewrite lookup_insert_ne by done.
  - intros id x Hx. apply lookup_insert_Some in Hx as [[<- <-] | [Hne Hx]].
    + cbn. split; [done |]. unfold entry in *. destruct (m !! wa_workflow_id a) as [x |] eqn:Hx; cbn in *.
      * destruct (Hm _ _ Hx) as (_ & (c' & a' & Hc' & H2) & H3). split.
        { exists c', a'. split; [set_solver | done]. }
        intros name [->%elem_of_singleton | Hname]%elem_of_union; [exists c, a; split; [set_solver | done] |].
        destruct (H3 name Hname) as (c'' & a'' & Hc'' & H4). exists c'', a''. split; [set_solver | done].
      * split; [exists c, a; split; [set_solver | done] |].
        intros name [->%elem_of_singleton | Hname]%elem_of_union; [exists c, a; split; [set_solver | done] |].
        by rewrite Hempty in Hname.
    + eapply sound_mono; [| done | done]. set_solver.
Qed.

Lemma anchor_check_err reports e : foldl (anchor_check pull lineage) (Err e) reports = Err e.
Proof. by induction reports. Qed.

Lemma anchor_checks reports before m m' :
  foldl (anchor_check pull lineage) (Ok m) reports = Ok m' → sound before m →
  (∀ c, c ∈ reports → covered m' c) ∧ (∀ c, covered m c → covered m' c) ∧ sound (before ++ reports) m'.
Proof.
  revert before m. induction reports as [| c reports IH]; intros before m; cbn [foldl].
  - intros [= <-] Hm. rewrite app_nil_r. split; [set_solver | done].
  - destruct (anchor_check pull lineage (Ok m) c) as [m1 | e] eqn:Hc; [| by rewrite anchor_check_err].
    intros Hm' Hm. destruct (anchor_check_step _ _ _ before Hc Hm) as (H1 & H2 & H3).
    destruct (IH (before ++ [c]) m1 Hm' H3) as (H4 & H5 & H6). rewrite <- app_assoc in H6.
    split; [| split; [auto | done]]. intros c' [-> | Hc']%elem_of_cons; auto.
Qed.

Context (policy : RequiredContextsRead) (checks : list CheckSnapshot).

Lemma anchor_context_err names e : foldl (anchor_context pull policy lineage checks) (Err e) names = Err e.
Proof. by induction names. Qed.

(** The reports that count for these contexts. *)
Definition reports_for (names : list string) : list CheckSnapshot :=
  names ≫= applicable pull policy checks.

Lemma anchor_contexts names before m m' :
  foldl (anchor_context pull policy lineage checks) (Ok m) names = Ok m' → sound before m →
  (∀ c, c ∈ reports_for names → covered m' c) ∧ (∀ c, covered m c → covered m' c)
  ∧ (∀ name, name ∈ names → applicable pull policy checks name ≠ []) ∧ sound (before ++ reports_for names) m'.
Proof.
  revert before m. induction names as [| name names IH]; intros before m; cbn [foldl].
  - intros [= <-] Hm. unfold reports_for. cbn. rewrite app_nil_r. split_and!; [set_solver | done | set_solver | done].
  - unfold anchor_context at 2. destruct (applicable pull policy checks name) as [| c0 rest] eqn:Hr;
      [unfold unavailable; by rewrite anchor_context_err |].
    destruct (foldl (anchor_check pull lineage) (Ok m) (c0 :: rest)) as [m1 | e] eqn:Hc; [| by rewrite anchor_context_err].
    intros Hm' Hm. rewrite <- Hr in Hc. destruct (anchor_checks _ before _ _ Hc Hm) as (H1 & H2 & H3).
    destruct (IH _ m1 Hm' H3) as (H4 & H5 & H6 & H7). unfold reports_for in *. cbn. rewrite app_assoc.
    split_and!; [| auto | | done].
    + intros c [Hc' | Hc']%elem_of_app; auto.
    + intros name' [-> | Hn]%elem_of_cons; [by rewrite Hr | auto].
Qed.
End select.

(** ** The newest execution *)

Lemma max_by_key_spec {A K} `{RustOrd K, !RustOrdLaws K} (key : A → K) l x :
  max_by_key key l = Some x → x ∈ l ∧ ∀ y, y ∈ l → ord_le (key y) (key x) = true.
Proof.
  unfold max_by_key. set (f := λ best x, _).
  assert (∀ l best, (foldl f best l = None → best = None ∧ l = []) ∧
    ∀ x, foldl f best l = Some x → (best = Some x ∨ x ∈ l)
      ∧ (∀ b, best = Some b → ord_le (key b) (key x) = true) ∧ ∀ y, y ∈ l → ord_le (key y) (key x) = true) as Hfold.
  { clear l x. induction l as [| z l IH]; intros best; cbn [foldl].
    - split; [done |]. intros x ->. split; [by left |]. split; [intros b [= ->]; apply ord_refl | set_solver].
    - destruct (IH (f best z)) as [Hn Hs]. split.
      + intros H1%Hn. destruct best as [b |]; cbn in H1; [by destruct (ord_le (key b) (key z)), H1 | by destruct H1].
      + intros x Hx. destruct (Hs x Hx) as (H1 & H2 & H3). unfold f in H1, H2. destruct best as [b |].
        * destruct (ord_le (key b) (key z)) eqn:Hle.
          -- specialize (H2 z eq_refl). split; [right; destruct H1 as [[= ->] |]; set_solver |].
             split; [intros b' [= <-]; by eapply ord_trans |]. intros y [-> | Hy]%elem_of_cons; auto.
          -- specialize (H2 b eq_refl). split; [destruct H1 as [[= ->] |]; [by left | right; set_solver] |].
             split; [by intros b' [= <-] |]. intros y [-> | Hy]%elem_of_cons; [| auto].
             destruct (ord_total (key b) (key z)) as [Hb | Hb]; [congruence | by eapply ord_trans].
        * specialize (H2 z eq_refl). split; [right; destruct H1 as [[= ->] |]; set_solver |].
          split; [done |]. intros y [-> | Hy]%elem_of_cons; auto. }
  intros Hx. destruct (Hfold l None) as [_ Hs]. destruct (Hs x Hx) as ([? | ?] & _ & ?); done.
Qed.

(** An execution of this pull request: its run is proved for the App, the head,
    the base and the number, it is the newest run of its workflow on the head,
    and it may be reused or restarted. *)
Definition exact_execution (pull : PullRequestSnapshot) (lineage : HeadRunLineage) (e : CiExecution) : Prop :=
  ∃ run suite execution,
    run ∈ hl_workflow_runs lineage ∧ suite ∈ hl_check_suites lineage ∧ wr_execution run = Some execution
    ∧ run_is_bound pull run suite execution (ce_app_id e) = true
    ∧ ce_pull_request e = expected_binding pull ∧ ce_run_id e = wr_run_id run
    ∧ ce_workflow_id e = we_workflow_id execution ∧ ce_check_suite_id e = cs_id suite
    ∧ (reusable e || requestable e) = true
    ∧ ∀ other, other ∈ hl_workflow_runs lineage →
        runs_workflow (br_oid (pr_head pull)) (ce_workflow_id e) other = true → (wr_run_id other ≤ ce_run_id e)%N.

Lemma from_run_ok pull run suite app_id contexts e :
  from_run pull run suite app_id contexts = Ok e →
  ∃ execution, wr_execution run = Some execution ∧ run_is_bound pull run suite execution app_id = true
  ∧ ce_app_id e = app_id ∧ ce_pull_request e = expected_binding pull ∧ ce_run_id e = wr_run_id run
  ∧ ce_workflow_id e = we_workflow_id execution ∧ ce_check_suite_id e = cs_id suite ∧ ce_contexts e = contexts
  ∧ (reusable e || requestable e) = true.
Proof.
  unfold from_run. destruct (wr_execution run) as [execution |]; [| done].
  destruct (run_is_bound _ _ _ _ _) eqn:Hb; [| done]. cbn [negb].
  destruct (negb _ && negb _) eqn:Hr; [done |]. intros [= <-]. exists execution. cbn.
  split_and!; try done. apply andb_false_iff in Hr as [Hr | Hr]; apply negb_false_iff in Hr; rewrite Hr; [done |].
  apply orb_true_r.
Qed.

Lemma newest_execution_ok pull anchor lineage e :
  newest_execution pull anchor lineage = Ok e →
  exact_execution pull lineage e ∧ ce_workflow_id e = wa_workflow_id anchor ∧ ce_app_id e = wa_app_id anchor
  ∧ ∀ name, name ∈ ce_contexts e ↔ name ∈ wa_contexts anchor.
Proof.
  unfold newest_execution. destruct (existsb _ _); [done |].
  destruct (max_by_key _ _) as [run |] eqn:Hmax; [| done]. cbn [ok_or].
  destruct (List.find _ _) as [suite |] eqn:Hsuite; [| done]. cbn [ok_or]. intros He.
  apply max_by_key_spec in Hmax as [Hin Hnewest]. apply List.find_some in Hsuite as [Hsuite _].
  apply elem_of_list_filter_b in Hin as [Hin Hw]. apply from_run_ok in He
    as (execution & Hx & Hb & Happ & Hpull & Hrun & Hid & Hcs & Hctx & Hr).
  assert (ce_workflow_id e = wa_workflow_id anchor) as Hwid.
  { unfold runs_workflow in Hw. rewrite Hx in Hw. apply andb_true_iff in Hw as [_ Hw]. apply N.eqb_eq in Hw. congruence. }
  split; [| split; [done |]; split; [done |]; intros name; rewrite Hctx; apply elem_of_bs_elems].
  exists run, suite, execution. rewrite Happ. split_and!; try done; [by apply list_elem_of_In |].
  intros other Ho How. rewrite Hwid in How.
  assert (ord_le (wr_run_id other, attempt_of other) (wr_run_id run, attempt_of run) = true) as Hle.
  { apply Hnewest, elem_of_list_filter_b. done. }
  rewrite Hrun. unfold ord_le, ord_prod in Hle. cbn [fst snd] in Hle. case_decide as Heq; [lia |]. by apply N.leb_le in Hle.
Qed.

Lemma collect_ok {A B E} (f : A → result B E) l ys :
  collect (f <$> l) = Ok ys → Forall2 (λ x y, f x = Ok y) l ys.
Proof.
  revert ys. induction l as [| x l IH]; intros ys; cbn; [by intros [= <-] |].
  destruct (f x) as [y |] eqn:Hf; [| done]. destruct (collect (f <$> l)) as [rest |]; [| done].
  intros [= <-]. constructor; [done | by apply IH].
Qed.

(** What a selection that returned has selected. *)
Record selection (pull : PullRequestSnapshot) (policy : RequiredContextsRead) (gate : option string)
    (lineage : HeadRunLineage) (es : list CiExecution) : Prop := {
  sl_exact : ∀ e, e ∈ es → exact_execution pull lineage e;
  sl_distinct : NoDup (ce_workflow_id <$> es);
  (** Every report that counts for a context was made by Actions, and then its
      workflow is selected with the context, or by another system. *)
  sl_complete : ∀ name c, name ∈ context_names (normalized policy) gate →
    c ∈ applicable pull (normalized policy) (latest_checks_per_identity (pr_checks pull)).1 name →
    check_anchor pull c lineage = Ok None
    ∨ ∃ a e, check_anchor pull c lineage = Ok (Some a) ∧ e ∈ es ∧ ce_workflow_id e = wa_workflow_id a
        ∧ ce_app_id e = wa_app_id a ∧ ck_name c ∈ ce_contexts e;
  sl_reported : ∀ name, name ∈ context_names (normalized policy) gate →
    ∃ c, c ∈ applicable pull (normalized policy) (latest_checks_per_identity (pr_checks pull)).1 name;
  (** Nothing else is selected. *)
  sl_sound : ∀ e name, e ∈ es → name ∈ ce_contexts e → ∃ c a,
    c ∈ applicable pull (normalized policy) (latest_checks_per_identity (pr_checks pull)).1 name
    ∧ name ∈ context_names (normalized policy) gate
    ∧ check_anchor pull c lineage = Ok (Some a) ∧ ce_workflow_id e = wa_workflow_id a }.

Lemma Forall2_elem_r {A B} (P : A → B → Prop) l k y : Forall2 P l k → y ∈ k → ∃ x, x ∈ l ∧ P x y.
Proof. intros HP (i & Hi)%list_elem_of_lookup. destruct (Forall2_lookup_r _ _ _ _ _ HP Hi) as (x & Hx & H). exists x. by eauto using list_elem_of_lookup_2. Qed.
Lemma Forall2_elem_l {A B} (P : A → B → Prop) l k x : Forall2 P l k → x ∈ l → ∃ y, y ∈ k ∧ P x y.
Proof. intros HP%Forall2_flip Hx. by apply (Forall2_elem_r _ _ _ _ HP). Qed.

Lemma anchor_ids (m : Anchors) :
  (∀ id x, m !! id = Some x → wa_workflow_id x = id) → wa_workflow_id <$> bt_values m = bt_keys m.
Proof.
  intros Hm. unfold bt_values, bt_keys. rewrite <- list_fmap_compose. apply list_fmap_ext.
  intros i [id x] Hi. cbn. apply Hm. apply elem_of_bt_entries. by eapply list_elem_of_lookup_2.
Qed.

Lemma applicable_name pull policy checks name c : c ∈ applicable pull policy checks name → ck_name c = name.
Proof.
  unfold applicable. intros [_ [Hn _]%andb_true_iff]%elem_of_list_filter_b. by apply String.eqb_eq.
Qed.

(** The selection is exact: on an enforced policy it returns one execution
    per workflow that a current report of an applicable context names, each
    the newest run of its workflow, proved for this generation of the pull
    request; no report that counts is left out, and without one it fails. *)
Theorem select_is_exact pull policy gate lineage es :
  select pull policy gate lineage = Ok es →
  (gate ≠ None ∨ rr_checks (normalized policy) ≠ []) →
  rr_complete (normalized policy) = true ∧ hl_complete lineage = true ∧ selection pull policy gate lineage es.
Proof.
  unfold select. intros Hsel Hgate. destruct (rr_complete (normalized policy)) eqn:Hcomplete; [| done]. cbn [negb] in Hsel.
  assert (is_none_b gate && bool_decide (rr_checks (normalized policy) = []) = false) as Hcond.
  { apply andb_false_iff. destruct gate as [g |]; [by left | right]. apply bool_decide_eq_false. naive_solver. }
  rewrite Hcond in Hsel. unfold validate_lineage in Hsel.
  destruct (_ || has_duplicate_ids (cs_id <$> _)) eqn:Hv; [done |]. split; [done |].
  apply orb_false_iff in Hv as [[[Hlc _]%orb_false_iff _]%orb_false_iff _]. apply negb_false_iff in Hlc. split; [done |].
  set (checks := (latest_checks_per_identity (pr_checks pull)).1) in *.
  set (names := context_names (normalized policy) gate) in *.
  destruct (foldl _ _ names) as [m | e0] eqn:Hfold; [| done].
  apply collect_ok in Hsel.
  destruct (anchor_contexts pull lineage (normalized policy) checks names [] ∅ m Hfold) as (Hcov & _ & Hne & Hsound).
  { intros id x Hx. by rewrite lookup_empty in Hx. }
  assert (∀ e, e ∈ es → ∃ id x, m !! id = Some x ∧ newest_execution pull x lineage = Ok e) as Hfrom.
  { intros e He. destruct (Forall2_elem_r _ _ _ _ Hsel He) as (x & Hx & Hnew). apply elem_of_bt_values in Hx as [id Hx].
    by exists id, x. }
  assert (∀ name c, name ∈ names → c ∈ applicable pull (normalized policy) checks name →
    c ∈ reports_for pull (normalized policy) checks names) as Hreport.
  { intros name c Hname Hc. apply list_elem_of_bind. by exists name. }
  split.
  - intros e (id & x & _ & Hx)%Hfrom. by eapply newest_execution_ok.
  - assert (ce_workflow_id <$> es = wa_workflow_id <$> bt_values m) as ->.
    { symmetry. apply list_eq_Forall2, Forall2_fmap. eapply Forall2_impl; [exact Hsel |].
      intros x e He%newest_execution_ok. by symmetry; apply He. }
    rewrite anchor_ids; [apply NoDup_bt_keys |]. intros id x Hx. by apply (Hsound id x Hx).
  - intros name c Hname Hc. specialize (Hcov c (Hreport name c Hname Hc)). unfold covered in Hcov.
    destruct (check_anchor pull c lineage) as [[a |] |] eqn:Ha; [| by left | done]. right.
    destruct Hcov as (x & Hx & Happ & Hctx).
    destruct (Forall2_elem_l _ _ _ x Hsel) as (e & He & Hnew); [apply elem_of_bt_values; by eexists |].
    apply newest_execution_ok in Hnew as (_ & Hid & Happ' & Hnames). exists a, e.
    destruct (Hsound _ _ Hx) as [Hxid _]. split_and!; [done | done | congruence | congruence | by apply Hnames].
  - intros name Hname. destruct (applicable pull (normalized policy) checks name) as [| c rest] eqn:Hc;
      [by apply Hne in Hname | exists c; fold checks; rewrite Hc; by left].
  - intros e name (id & x & Hx & Hnew)%Hfrom Hctx. apply newest_execution_ok in Hnew as (_ & Hid & _ & Hnames).
    destruct (Hsound _ _ Hx) as (Hxid & _ & Hctxs). apply Hnames in Hctx.
    destruct (Hctxs name Hctx) as (c & a & Hc & Hcn & Ha & Haid). cbn in Hc.
    apply list_elem_of_bind in Hc as (name' & Hc & Hname'). apply applicable_name in Hc as Hcn'. simplify_eq.
    exists c, a. split_and!; try done; congruence.
Qed.
