(* ===== verification/CiSample.v ===== *)
(** A codec to run CI dispatches with, and runs of them: the witnesses of the
    properties, and a start that is repeated under another binding. *)

From Stdlib Require Import Ascii String.
From S2P Require Import Prelude Text Model Lineage RequiredRuns Mutations Files Programs Store Checkpoints.
From S2P Require Import CiDispatch CiDispatchProofs CiSelectProofs.

#[local] Open Scope string_scope.
#[local] Open Scope list_scope.
#[local] Open Scope nat_scope.

(** ** A codec: a value is a list of numbers, read from the front *)

Definition put {A} `{Countable A} (x : A) : N := Npos (encode x).
Definition get {A} `{Countable A} (n : N) : option A := match n with Npos p => decode p | N0 => None end.
#[local] Arguments put : simpl never.
#[local] Arguments get : simpl never.
Lemma get_put {A} `{Countable A} (x : A) : get (put x) = Some x.
Proof. apply decode_encode. Qed.

Definition put_wb (b : WorkflowPullRequestBinding) : list N :=
  [wb_number b; put (wb_head_sha b); put (wb_head_ref b); put (wb_base_sha b); put (wb_base_ref b)].
Definition get_wb (l : list N) : option (WorkflowPullRequestBinding * list N) :=
  match l with
  | n :: a :: b :: c :: d :: rest =>
      a ← get a; b ← get b; c ← get c; d ← get d; Some (mkWorkflowPullRequestBinding n a b c d, rest)
  | _ => None
  end.
Lemma get_put_wb b rest : get_wb (put_wb b ++ rest) = Some (b, rest).
Proof. destruct b. cbn. by rewrite !get_put. Qed.

Definition put_binding (b : DispatchBinding) : list N :=
  [put (repo_owner (db_repository b)); put (repo_name (db_repository b)); put (db_caravan_members b); db_workflow_id b]
  ++ put_wb (db_pull_request b).
Definition get_binding (l : list N) : option (DispatchBinding * list N) :=
  match l with
  | o :: n :: m :: w :: rest =>
      o ← get o; n ← get n; m ← get m; '(p, rest) ← get_wb rest;
      Some (mkDispatchBinding (mkRepositoryId o n) p m w, rest)
  | _ => None
  end.
Lemma get_put_binding b rest : get_binding (put_binding b ++ rest) = Some (b, rest).
Proof. destruct b as [[o n] [] m w]. cbn. by rewrite !get_put. Qed.

Definition put_execution (e : CiExecution) : list N :=
  [ce_app_id e; put (ce_app_slug e); ce_workflow_id e; put (ce_workflow_name e); put (ce_contexts e);
   put (ce_restart_required e); ce_run_id e; ce_run_attempt e; ce_check_suite_id e;
   put (ce_event e); put (ce_status e); put (ce_conclusion e)] ++ put_wb (ce_pull_request e).
Definition get_execution (l : list N) : option (CiExecution * list N) :=
  match l with
  | app :: slug :: wf :: name :: ctx :: restart :: run :: attempt :: suite :: event :: status :: concl :: rest =>
      slug ← get slug; name ← get name; ctx ← get ctx; restart ← get restart; event ← get event;
      status ← get status; concl ← get concl; '(p, rest) ← get_wb rest;
      Some (mkCiExecution app slug wf name ctx restart run attempt suite p event status concl, rest)
  | _ => None
  end.
Lemma get_put_execution e rest : get_execution (put_execution e ++ rest) = Some (e, rest).
Proof. destruct e as [? ? ? ? ? ? ? ? ? [] ? ? ?]. cbn. by rewrite !get_put. Qed.

#[local] Arguments put_binding : simpl never.
#[local] Arguments put_execution : simpl never.

Definition sample_repository : RepositoryId := mkRepositoryId "o" "r".
Definition sample_branch (name oid : string) : BranchSnapshot := mkBranchSnapshot sample_repository name oid.
Definition sample_pull (checks : list CheckSnapshot) : PullRequestSnapshot :=
  mkPullRequestSnapshot 1 "t" "u" Open false (sample_branch "feature" "h1") (sample_branch "main" "b1") false ∅
    auto_merge_disabled checks None None None None.
Definition sample_receipt : GitHubMutationReceipt :=
  mkMutationReceipt EnableAutoMerge None (sample_pull []) None.

Definition disposition_number (d : DispatchDisposition) : N :=
  match d with Requested => 0 | Reused => 1 | SuccessorObserved => 2 end.
Definition disposition_of (n : N) : option DispatchDisposition :=
  match n with 0%N => Some Requested | 1%N => Some Reused | 2%N => Some SuccessorObserved | _ => None end.

#[local] Instance CheckSnapshot_eq_dec : EqDecision CheckSnapshot.
Proof. solve_decision. Defined.
#[local] Instance AutoMergeState_eq_dec : EqDecision AutoMergeState.
Proof. solve_decision. Defined.
#[local] Instance PullRequestSnapshot_eq_dec : EqDecision PullRequestSnapshot.
Proof. solve_decision. Defined.
#[local] Instance MutationKind_eq_dec : EqDecision MutationKind.
Proof. solve_decision. Defined.
#[local] Instance GitHubMutationReceipt_eq_dec : EqDecision GitHubMutationReceipt.
Proof. solve_decision. Defined.

(** Of the receipts only the sample can be written. *)
Definition put_checkpoint (c : DispatchCheckpoint) : option (list N) :=
  flag ← match dc_provider_receipt c with
         | None => Some 0%N
         | Some r => if decide (r = sample_receipt) then Some 1%N else None
         end;
  Some ([dc_schema_version c; put (dc_operation_id c); disposition_number (dc_disposition c); flag;
         put (dc_rejected_before_write c)]
        ++ put_binding (dc_binding c) ++ put_execution (dc_selected c)
        ++ match dc_observed_successor c with None => [] | Some e => put_execution e end).
Definition get_checkpoint (l : list N) : option DispatchCheckpoint :=
  match l with
  | version :: op :: d :: flag :: rejected :: rest =>
      op ← get op; d ← disposition_of d; rejected ← get rejected;
      '(b, rest) ← get_binding rest; '(e, rest) ← get_execution rest;
      successor ← match rest with
                  | [] => Some None
                  | _ => '(x, _) ← get_execution rest; Some (Some x)
                  end;
      Some (mkDispatchCheckpoint version b e op d (if (flag =? 0)%N then None else Some sample_receipt) successor rejected)
  | _ => None
  end.

Lemma get_put_checkpoint c l : put_checkpoint c = Some l → get_checkpoint l = Some c.
Proof.
  destruct c as [version b e op d receipt successor rejected]. unfold put_checkpoint.
  cbn [dc_schema_version dc_binding dc_selected dc_operation_id dc_disposition dc_provider_receipt
       dc_observed_successor dc_rejected_before_write].
  intros (flag & Hflag & Hl)%bind_Some. apply (inj Some) in Hl as <-. cbn [app get_checkpoint].
  rewrite !get_put. cbn [mbind option_bind].
  assert (disposition_of (disposition_number d) = Some d) as -> by by destruct d.
  cbn [mbind option_bind]. rewrite get_put_binding. cbn [mbind option_bind]. rewrite get_put_execution.
  cbn [mbind option_bind].
  assert ((if (flag =? 0)%N then None else Some sample_receipt) = receipt) as ->.
  { destruct receipt as [r |]; [case_decide as Hr; simplify_eq; done | by simplify_eq]. }
  destruct successor as [x |]; [| done].
  pose proof (get_put_execution x []) as Hx. rewrite app_nil_r in Hx. by rewrite Hx.
Qed.

#[local] Instance sample_ci_codec : CiCodec := {
  encode_binding b := Some (put_binding b);
  sha256_hex l := show_N (foldl (λ h x, (h * 31 + x) mod 1000000007)%N 7%N l);
  ci_checkpoint_codec := {| encode_value := put_checkpoint; decode_value := get_checkpoint |};
  encode_compact := put_checkpoint }.
#[local] Instance sample_codec_laws : CodecLaws DispatchCheckpoint.
Proof. split. apply get_put_checkpoint. Qed.

(** ** Runs *)

Definition git_dir : Path := mkPath true ["repo"; ".git"].
Definition failed_run : CiExecution :=
  mkCiExecution 15368 "github-actions" 7 "CI" ["build"] true 100 1 5 (expected_binding (sample_pull []))
    "pull_request" "completed" "failure".
Definition sample_binding (members : list PrNumber) : DispatchBinding :=
  mkDispatchBinding sample_repository (expected_binding (sample_pull [])) members 7.

Definition accepts : CiChoice := mkCiChoice works (Ok ()) (Ok sample_receipt).
Definition refuses : CiChoice := mkCiChoice works (Ok ()) (Err (mkProviderError "stale" (Some false))).
Definition loses_the_answer : CiChoice := mkCiChoice works (Ok ()) (Err (mkProviderError "timeout" None)).
(** A call of so many operations. *)
Definition sample_call (members : list PrNumber) (n : nat) (c : CiChoice) : CiCall :=
  mkCiCall 1 (sample_binding members) failed_run "op" (replicate n c).
Definition sample_calls (calls : list CiCall) : CiWorld := run_calls git_dir calls (mkCiWorld ∅ []).

(** The first call is killed when the request was made, the second is refused;
    a start that was refused is requested again. *)
Lemma ci_start_requested_at_most_once_witness :
  length (requests_for (sample_binding [1%N])
            (sample_calls [sample_call [1%N] 10 accepts; sample_call [1%N] 40 accepts])) = 1
  ∧ length (requests_for (sample_binding [1%N])
            (sample_calls [sample_call [1%N] 40 refuses; sample_call [1%N] 40 accepts; sample_call [1%N] 40 accepts])) = 2
  ∧ ∃ before last,
      requests_for (sample_binding [1%N])
        (sample_calls [sample_call [1%N] 40 refuses; sample_call [1%N] 40 accepts; sample_call [1%N] 40 accepts])
      = before ++ last ∧ Forall (λ e, refused e = true) before ∧ length last ≤ 1.
Proof.
  split; [vm_compute; reflexivity |]. split; [vm_compute; reflexivity |].
  apply (ci_start_requested_at_most_once git_dir ∅).
Defined.

Lemma dispatch_reports_its_request_witness :
  ∃ r w', drive (exec_ci git_dir) (replicate 40 accepts)
            (dispatch 1 (sample_binding [1%N]) failed_run "op") (mkCiWorld ∅ []) = (Some r, w')
  ∧ dispatched (sample_binding [1%N]) failed_run (mkCiWorld ∅ []) r w'
  ∧ r = Ok (mkDispatchResult Requested "op" (Some sample_receipt)).
Proof.
  destruct (drive (exec_ci git_dir) (replicate 40 accepts)
              (dispatch 1 (sample_binding [1%N]) failed_run "op") (mkCiWorld ∅ [])) as [[r |] w'] eqn:Hrun.
  - exists r, w'. split; [done |]. split; [by eapply dispatch_reports_its_request |].
    apply (f_equal fst) in Hrun. vm_compute in Hrun. by injection Hrun.
  - apply (f_equal fst) in Hrun. vm_compute in Hrun. discriminate.
Defined.

(** The intent names the members of the caravan: when another pull request
    joins, the same run is requested again although the answer to the first
    request was lost. *)
Example joining_repeats_the_request :
  rq_selected <$> cw_requests (sample_calls [sample_call [1%N] 40 loses_the_answer; sample_call [1%N; 2%N] 40 accepts])
  = [failed_run; failed_run].
Proof. by vm_compute. Qed.

(** ** A selection *)

Definition failed_check : CheckSnapshot :=
  mkCheckSnapshot "build" CheckFailure None (Some "https://github.com/o/r/actions/runs/100/job/7") (Some "CheckRun")
    (Some "CI") (Some 15368%N) (Some 5%N) (Some "h1") None None false.
Definition requires_build : RequiredContextsRead := mkRequiredContextsRead "main" true ["build"] [] true.
Definition build_lineage : HeadRunLineage :=
  mkHeadRunLineage "h1" [mkCheckSuiteLineage 5 "h1" "completed" "failure" "github-actions" true]
    [mkWorkflowRunLineage 100 5 "CI"
       (Some (mkWorkflowExecutionIdentity 7 1 [expected_binding (sample_pull [])])) "h1" "completed" "failure" "pull_request"]
    None true.

Lemma select_is_exact_witness :
  select (sample_pull [failed_check]) requires_build None build_lineage = Ok [failed_run]
  ∧ selection (sample_pull [failed_check]) requires_build None build_lineage [failed_run].
Proof.
  assert (select (sample_pull [failed_check]) requires_build None build_lineage = Ok [failed_run]) as Hsel
    by (vm_compute; reflexivity).
  split; [exact Hsel |]. apply (select_is_exact _ _ _ _ _ Hsel). right. vm_compute. discriminate.
Defined.
