(* ===== verification/Command.v ===== *)
(** Subprocess requests and the runners that stand between Caravan and the
    processes: the command data, the classification of writes and the fenced
    runner of src/src/command.rs, and the writer runner of
    src/src/writer_guard.rs. What the runners promise follows: a write reaches the
    process only behind its fence, and a planning operation runs no write at all. *)

From Stdlib Require Import Ascii String.
From S2P Require Import Prelude Text RemoteLease RemoteLeaseProofs Programs.

#[local] Open Scope string_scope.
#[local] Open Scope list_scope.
#[local] Open Scope nat_scope.
#[local] Open Scope caravan_scope.

(** ** Commands *)

Inductive CommandIntent := IntentRead | ProviderWrite | GitWrite.
#[export] Instance CommandIntent_eq_dec : EqDecision CommandIntent.
Proof. solve_decision. Defined.
Definition is_write (intent : CommandIntent) : bool := negb (bool_decide (intent = IntentRead)).

Record CommandIo := mkCommandIo {
  io_env : gmap string string;
  io_stdin : option string;
  io_intent : CommandIntent }.
#[export] Instance CommandIo_eq_dec : EqDecision CommandIo.
Proof. solve_decision. Defined.
Definition io_default : CommandIo := mkCommandIo ∅ None IntentRead.

Record CommandSpec := mkCommandSpec {
  cm_program : string;
  cm_args : list string;
  cm_io : option CommandIo }.
#[export] Instance CommandSpec_eq_dec : EqDecision CommandSpec.
Proof. solve_decision. Defined.

Definition new_command (program : string) : CommandSpec := mkCommandSpec program [] None.
Definition arg (c : CommandSpec) (argument : string) : CommandSpec :=
  mkCommandSpec (cm_program c) (cm_args c ++ [argument]) (cm_io c).
Definition args (c : CommandSpec) (arguments : list string) : CommandSpec :=
  mkCommandSpec (cm_program c) (cm_args c ++ arguments) (cm_io c).
(** [get_or_insert_with] and a change of one field. *)
Definition set_io (f : CommandIo → CommandIo) (c : CommandSpec) : CommandSpec :=
  mkCommandSpec (cm_program c) (cm_args c) (Some (f (default io_default (cm_io c)))).
Definition env (c : CommandSpec) (name value : string) : CommandSpec :=
  set_io (λ io, mkCommandIo (<[name := value]> (io_env io)) (io_stdin io) (io_intent io)) c.
Definition provider_write (c : CommandSpec) : CommandSpec :=
  set_io (λ io, mkCommandIo (io_env io) (io_stdin io) ProviderWrite) c.
Definition git_write (c : CommandSpec) : CommandSpec :=
  set_io (λ io, mkCommandIo (io_env io) (io_stdin io) GitWrite) c.
Definition stdin (c : CommandSpec) (input : string) : CommandSpec :=
  set_io (λ io, mkCommandIo (io_env io) (Some input) (io_intent io)) c.
Definition intent_of (c : CommandSpec) : CommandIntent :=
  match cm_io c with Some io => io_intent io | None => IntentRead end.

(** [Path::file_name]: the last component, a name. *)
Definition program_name (path : string) : option string :=
  name ← last (List.filter (λ piece, negb (str_is_empty piece) && negb (String.eqb piece "."))
                 (split_on (Ascii.eqb "/") path));
  if String.eqb name ".." then None else Some name.

Definition provider_verb (first second : option string) : bool :=
  match first, second with
  | Some "pr", Some verb => mem verb ["create"; "edit"; "merge"; "comment"; "close"; "reopen"]
  | Some "label", Some verb => mem verb ["create"; "edit"; "delete"]
  | Some "run", Some verb => mem verb ["rerun"; "cancel"; "delete"]
  | Some "repo", Some verb => String.eqb verb "edit"
  | _, _ => false
  end.
Definition method_pair (pair : string * string) : bool :=
  String.eqb pair.1 "--method" && mem pair.2 ["POST"; "PATCH"; "PUT"; "DELETE"].
Definition query_mutates (argument : string) : bool :=
  is_some_and (strip_prefix "query=" argument) (λ query, starts_with "mutation" (trim_start query)).

(** The semantic classification of a command. *)
Definition inferred_write_intent (c : CommandSpec) : option CommandIntent :=
  program ← program_name (cm_program c);
  if String.eqb program "git" then
    if mem "push" (cm_args c) && negb (mem "--dry-run" (cm_args c)) then Some GitWrite else None
  else if negb (String.eqb program "gh") then None
  else if provider_verb (cm_args c !! 0) (cm_args c !! 1) then Some ProviderWrite
  else if negb (bool_decide (cm_args c !! 0 = Some "api")) then None
  else if existsb method_pair (pairs (cm_args c)) || existsb query_mutates (cm_args c) then Some ProviderWrite
  else None.

Record CommandOutput := mkCommandOutput {
  out_code : option Z;
  out_stdout : string;
  out_stderr : string }.
#[export] Instance CommandOutput_eq_dec : EqDecision CommandOutput.
Proof. solve_decision. Defined.
Definition is_success (out : CommandOutput) : bool := bool_decide (out_code out = Some 0%Z).

(** Without the captured evidence and the refusals of the GitHub App. *)
Inductive CommandRunError :=
| GithubRequestBudgetExceeded (command : CommandSpec) (limit used : N)
| GithubAppAuthRefused (command : CommandSpec)
| GithubAppGitTransportRefused (command : CommandSpec)
| MutationFenceRefused (command : CommandSpec) (intent : CommandIntent) (message : string)
| Spawn (command : CommandSpec) (message : string)
| InvalidUtf8 (command : CommandSpec) (stream message : string)
| OutputLimit (command : CommandSpec) (code : option Z)
| Timeout (command : CommandSpec) (timeout_ms : N).
#[export] Instance CommandRunError_eq_dec : EqDecision CommandRunError.
Proof. solve_decision. Defined.

(** ** Runners *)

(** What the code asks of a [CommandRunner]. *)
Inductive CommandOp : Type → Type :=
| RunCommand (c : CommandSpec) : CommandOp (result CommandOutput CommandRunError).
Abbreviation Ran := (result CommandOutput CommandRunError).

(** What a [FencedCommandRunner] asks: its fence, and the runner inside. *)
Inductive FencedOp : Type → Type :=
| BeforeWrite (intent : CommandIntent) : FencedOp (result unit string)
| RunInner (c : CommandSpec) : FencedOp Ran.

#[local] Open Scope prog_scope.

(** A write whose explicit marker is missing or another. *)
Definition unmarked_write (c : CommandSpec) : option CommandIntent :=
  opt_filter (λ inferred, negb (bool_decide (intent_of c = inferred))) (inferred_write_intent c).
Definition fenced_run (c : CommandSpec) : Prog FencedOp Ran :=
  match unmarked_write c with
  | Some inferred =>
      Ret (Err (MutationFenceRefused c inferred "write command is missing its explicit mutation-intent marker"))
  | None =>
      let! fence := if is_write (intent_of c) then perform (BeforeWrite (intent_of c)) else Ret (Ok ()) in
      match fence with
      | Err message => Ret (Err (MutationFenceRefused c (intent_of c) message))
      | Ok _ => perform (RunInner c)
      end
  end.
Definition fenced_op (R : Type) (op : CommandOp R) : Prog FencedOp R :=
  match op in CommandOp R return Prog FencedOp R with RunCommand c => fenced_run c end.
(** A program whose commands go through a fenced runner. *)
Definition fenced {A} (p : Prog CommandOp A) : Prog FencedOp A := interp fenced_op p.

(** ** The writer runner *)

(** [WriterCommandRunner]: the authority of an operation. *)
Inductive WriterCommandRunner := WriterLocal | WriterReadOnly | WriterRemote.

(** What the machine below is asked: the process runner and the lease. *)
Inductive WriterOp : Type → Type :=
| RunProcess (c : CommandSpec) : WriterOp Ran
| LeaseBeforeWrite (intent : CommandIntent) : WriterOp (result unit string).

Definition deny_before_write (_ : CommandIntent) : result unit string :=
  Err "read-only planning authority forbids mutation".
Definition under_fence (before_write : CommandIntent → Prog WriterOp (result unit string)) (R : Type) (op : FencedOp R)
    : Prog WriterOp R :=
  match op in FencedOp R return Prog WriterOp R with
  | BeforeWrite intent => before_write intent
  | RunInner c => perform (RunProcess c)
  end.
Definition writer_run (runner : WriterCommandRunner) (c : CommandSpec) : Prog WriterOp Ran :=
  match runner with
  | WriterLocal => perform (RunProcess c)
  | WriterReadOnly => interp (under_fence (λ intent, Ret (deny_before_write intent))) (fenced_run c)
  | WriterRemote => interp (under_fence (λ intent, perform (LeaseBeforeWrite intent))) (fenced_run c)
  end.
(** [WriterOperationGuard::runner]. *)
Definition guard_runner (read_only remote : bool) : WriterCommandRunner :=
  if read_only then WriterReadOnly else if remote then WriterRemote else WriterLocal.
Definition writer_op (runner : WriterCommandRunner) (R : Type) (op : CommandOp R) : Prog WriterOp R :=
  match op in CommandOp R return Prog WriterOp R with RunCommand c => writer_run runner c end.
(** A program of an operation that holds this authority. *)
Definition as_writer {A} (runner : WriterCommandRunner) (p : Prog CommandOp A) : Prog WriterOp A :=
  interp (writer_op runner) p.

(** * Properties *)

(** A command that is marked or recognised as a write. *)
Definition writes (c : CommandSpec) : Prop := is_write (intent_of c) = true ∨ is_Some (inferred_write_intent c).

Lemma inferred_is_write c inferred : inferred_write_intent c = Some inferred → is_write inferred = true.
Proof.
  unfold inferred_write_intent. destruct (program_name _) as [program |]; cbn; [| done].
  repeat case_match; by intros [= <-].
Qed.

(** A write that carries its own marker. *)
Lemma marked_write c : unmarked_write c = None → writes c → is_write (intent_of c) = true.
Proof.
  unfold unmarked_write. intros Hmarked [? | [inferred Hinf]]; [done |]. rewrite Hinf in Hmarked. cbn in Hmarked.
  destruct (bool_decide_reflect (intent_of c = inferred)) as [-> |]; [| done]. by eapply inferred_is_write.
Qed.

(** ** The machine *)

Section writer.
Context {W : Type} `{!RemoteWriterLease W}.

(** A command that reached a process, and a question to the lease guard with the
    guard and the backend before and after it. *)
Inductive WriterEvent :=
| EvProcess (c : CommandSpec)
| EvFence (intent : CommandIntent) (g : RemoteLeaseGuard) (clock : option N) (w : W)
    (answer : result unit string) (g' : RemoteLeaseGuard) (w' : W).
Record WriterWorld := mkWriterWorld {
  ww_guard : RemoteLeaseGuard;
  ww_trace : list WriterEvent }.
(** The environment: what a process answers, the clock, and the backend, which
    others use meanwhile. *)
Record WriterChoice := mkWriterChoice {
  wc_answer : Ran;
  wc_clock : option N;
  wc_backend : W }.

Definition exec_writer (R : Type) (c : WriterChoice) (op : WriterOp R) (s : WriterWorld) : R * WriterWorld :=
  match op in WriterOp R return R * WriterWorld with
  | RunProcess command => (wc_answer c, mkWriterWorld (ww_guard s) (ww_trace s ++ [EvProcess command]))
  | LeaseBeforeWrite intent =>
      let '(answer, g, w) := before_write (ww_guard s) (wc_clock c) (wc_backend c) in
      (answer, mkWriterWorld g
         (ww_trace s ++ [EvFence intent (ww_guard s) (wc_clock c) (wc_backend c) answer g w]))
  end.

(** Every write in the trace stands right behind the confirmation of the fence
    of [g0]. *)
Definition fenced_trace (g0 : RemoteLeaseGuard) (trace : list WriterEvent) : Prop :=
  ∀ i c, trace !! i = Some (EvProcess c) → writes c →
  ∃ j g now w g' w', i = S j ∧ trace !! j = Some (EvFence (intent_of c) g (Some now) w (Ok ()) g' w')
  ∧ confirmed g now w g' w' ∧ same_fence (gd_grant g) (gd_grant g0).

Definition under_guard (g0 : RemoteLeaseGuard) (s : WriterWorld) : Prop :=
  kept g0 (ww_guard s) ∧ fenced_trace g0 (ww_trace s).

Lemma fenced_snoc g0 trace event :
  fenced_trace g0 trace →
  (∀ c, event = EvProcess c → writes c →
     ∃ before g now w g' w', trace = before ++ [EvFence (intent_of c) g (Some now) w (Ok ()) g' w']
     ∧ confirmed g now w g' w' ∧ same_fence (gd_grant g) (gd_grant g0)) →
  fenced_trace g0 (trace ++ [event]).
Proof.
  intros Htrace Hlast i c [Hi | [-> Heq]]%lookup_snoc_Some Hw.
  - destruct Hi as [Hlt Hi]. destruct (Htrace i c Hi Hw) as (j & g & now & w & g' & w' & -> & Hj & Hrest).
    exists j, g, now, w, g', w'. split; [done |]. split; [| done]. by rewrite lookup_app_l by lia.
  - destruct (Hlast c Heq Hw) as (before & g & now & w & g' & w' & -> & Hrest).
    exists (length before), g, now, w, g', w'. rewrite length_app. cbn. split; [lia |]. split; [| done].
    rewrite lookup_app_l by (rewrite length_app; cbn; lia). by apply list_lookup_middle.
Qed.

Lemma before_write_kept (g : RemoteLeaseGuard) clock (w : W) r g' w' :
  before_write g clock w = (r, g', w') →
  kept g g' ∧ (r = Ok () → ∃ now, clock = Some now ∧ confirmed g now w g' w').
Proof.
  unfold before_write. destruct clock as [now |]; [| by intros [= <- <- <-]].
  destruct (u64_max <? now)%N; [by intros [= <- <- <-] |].
  destruct (before_write_at g now w) as [[answer g1] w1] eqn:Hb.
  pose proof (guard_step_keeps _ _ (step_write _ _ _ _ _ _ Hb)) as Hkept. cbn in Hkept.
  apply before_write_confirmed in Hb. destruct answer as [[] | e]; intros [= <- <- <-]; [| done]. eauto.
Qed.

Lemma process_holds g0 c s (Q : Ran → WriterWorld → Prop) :
  under_guard g0 s →
  (writes c → ∃ before g now w g' w', ww_trace s = before ++ [EvFence (intent_of c) g (Some now) w (Ok ()) g' w']
     ∧ confirmed g now w g' w' ∧ same_fence (gd_grant g) (gd_grant g0)) →
  (∀ r s', under_guard g0 s' → Q r s') → holds exec_writer (under_guard g0) (perform (RunProcess c)) Q s.
Proof.
  intros [Hkept Htrace] Hfence HQ choice. cbn.
  assert (under_guard g0 (mkWriterWorld (ww_guard s) (ww_trace s ++ [EvProcess c]))) as Hs.
  { split; [done |]. apply fenced_snoc; [done |]. by intros c' [= <-]. }
  split; [done | by apply HQ].
Qed.

Lemma remote_run_holds g0 c s :
  under_guard g0 s → holds exec_writer (under_guard g0) (writer_run WriterRemote c) (λ _, under_guard g0) s.
Proof.
  intros Hs. unfold writer_run, fenced_run. destruct (unmarked_write c) eqn:Hmarked; [done |].
  destruct (is_write (intent_of c)) eqn:Hwrite; cbn [pbind interp perform].
  - intros choice. cbn. destruct (before_write _ _ _) as [[answer g'] w'] eqn:Hb.
    apply before_write_kept in Hb as [Hkept Hok]. destruct Hs as [Hkept0 Htrace].
    assert (under_guard g0 (mkWriterWorld g' (ww_trace s ++
      [EvFence (intent_of c) (ww_guard s) (wc_clock choice) (wc_backend choice) answer g' w']))) as Hs'.
    { split; [by etrans |]. apply fenced_snoc; [done |]. done. }
    split; [done |]. destruct answer as [[] | message]; [| done].
    destruct (Hok eq_refl) as (now & Hclock & Hconfirmed).
    apply (process_holds g0 c _ (λ _, under_guard g0) Hs'); [| done].
    intros _. cbn. rewrite Hclock. exists (ww_trace s), (ww_guard s), now, (wc_backend choice), g', w'.
    split_and!; [done.. |]. by destruct Hkept0.
  - apply (process_holds g0 c s (λ _, under_guard g0) Hs); [| done]. intros Hw. pose proof (marked_write c Hmarked Hw). congruence.
Qed.

Lemma remote_holds {A} g0 (p : Prog CommandOp A) s :
  under_guard g0 s → holds exec_writer (under_guard g0) (as_writer WriterRemote p) (λ _, under_guard g0) s.
Proof.
  revert s. induction p as [a | R op k IH]; intros s Hs; [done |]. destruct op. cbn.
  apply holds_bind. eapply holds_mono; [| by apply remote_run_holds]. intros r s' Hs'. by apply IH.
Qed.

(** No event of the trace is a write. *)
Definition only_reads (s : WriterWorld) : Prop := ∀ c, EvProcess c ∈ ww_trace s → ¬ writes c.

Lemma read_only_holds {A} (p : Prog CommandOp A) s :
  only_reads s → holds exec_writer only_reads (as_writer WriterReadOnly p) (λ _, only_reads) s.
Proof.
  revert s. induction p as [a | R op k IH]; intros s Hs; [done |]. destruct op. cbn.
  apply holds_bind. unfold fenced_run. destruct (unmarked_write c) eqn:Hmarked; [by apply IH |].
  destruct (is_write (intent_of c)) eqn:Hwrite; cbn [pbind interp perform]; [by apply IH |].
  intros choice. cbn.
  assert (only_reads (mkWriterWorld (ww_guard s) (ww_trace s ++ [EvProcess c]))) as Hs'.
  { intros c'. cbn. rewrite elem_of_app, list_elem_of_singleton. intros [Hin | [= ->]]; [by apply Hs |].
    intros Hw. pose proof (marked_write c Hmarked Hw). congruence. }
  split; [done | by apply IH].
Qed.

(** C25. Writes are fenced, whatever an operation does. Under the runner of a
    remote lease every command that is marked or recognised as a write reaches a
    process only directly behind a question to the guard in which the lease
    backend confirmed the live fence the operation acquired, by its renewal or by
    showing its record, at any answers of the processes, the clock and the
    backend. Under the runner of a planning operation no such command reaches a
    process at all. *)
Theorem writes_are_fenced {A} (p : Prog CommandOp A) g0 choices :
  let w0 := mkWriterWorld g0 [] in
  (∀ i c, ww_trace (drive exec_writer choices (as_writer WriterRemote p) w0).2 !! i = Some (EvProcess c) → writes c →
     ∃ j g now w g' w', i = S j
     ∧ ww_trace (drive exec_writer choices (as_writer WriterRemote p) w0).2 !! j
       = Some (EvFence (intent_of c) g (Some now) w (Ok ()) g' w')
     ∧ confirmed g now w g' w' ∧ same_fence (gd_grant g) (gd_grant g0))
  ∧ (∀ c, EvProcess c ∈ ww_trace (drive exec_writer choices (as_writer WriterReadOnly p) w0).2 → ¬ writes c).
Proof.
  intros w0. split.
  - assert (under_guard g0 w0) as H0 by (by split; [| intros ? ? ?]).
    by destruct (drive_holds exec_writer (under_guard g0) (as_writer WriterRemote p) (λ _, under_guard g0) choices w0 H0
      (remote_holds g0 p w0 H0)) as [[_ Htrace] _].
  - assert (only_reads w0) as H0 by (intros c Hc; by apply elem_of_nil in Hc).
    by destruct (drive_holds exec_writer only_reads (as_writer WriterReadOnly p) (λ _, only_reads) choices w0 H0
      (read_only_holds p w0 H0)).
Qed.
End writer.

(** ** A concrete run *)

#[local] Existing Instance store_backend.

Definition sample_write : CommandSpec := provider_write (args (new_command "gh") ["api"; "--method"; "POST"; "repos/o/r/labels"]).
Definition sample_program : Prog CommandOp Ran := perform (RunCommand sample_write).
Definition sample_choice : WriterChoice := mkWriterChoice (Ok (mkCommandOutput (Some 0%Z) "" "")) (Some 130%N) sample_store.

(** The same request without its marker is refused before the fence is asked. *)
Example unmarked_is_refused :
  (drive exec_writer [sample_choice] (as_writer WriterRemote
     (perform (RunCommand (args (new_command "gh") ["api"; "--method"; "POST"; "repos/o/r/labels"]))))
     (mkWriterWorld sample_guard [])).2 = mkWriterWorld sample_guard [].
Proof. vm_compute. reflexivity. Qed.

Lemma writes_are_fenced_witness :
  ww_trace (drive exec_writer [sample_choice; sample_choice] (as_writer WriterRemote sample_program)
     (mkWriterWorld sample_guard [])).2 !! 1 = Some (EvProcess sample_write)
  ∧ ∃ g, same_fence (gd_grant g) (gd_grant sample_guard) ∧ gd_released g = false.
Proof.
  split; [vm_compute; reflexivity |].
  destruct (proj1 (writes_are_fenced sample_program sample_guard [sample_choice; sample_choice]) 1 sample_write)
    as (j & g & now & w & g' & w' & _ & _ & (Hrel & _) & Hsame);
    [vm_compute; reflexivity | left; vm_compute; reflexivity | by exists g].
Defined.
