(* ===== verification/CiEvidence.v ===== *)
(** The structured evidence about failed GitHub Actions runs: src/src/ci.rs.

    Runs, jobs and steps are read by commands; of a job log only two strict
    machine receipts are kept. Nothing here decides whether a run is restarted. *)

From Stdlib Require Import Ascii String.
From S2P Require Import Prelude Text Model Programs Command.

#[local] Open Scope string_scope.
#[local] Open Scope list_scope.
#[local] Open Scope nat_scope.
#[local] Open Scope caravan_scope.

Definition MAX_DIAGNOSTIC_RUNS : nat := 10.
Definition MAX_FAILED_JOBS : nat := 25.
Definition MAX_FAILED_STEPS : nat := 25.
Definition MAX_LINEAGE_LOG_JOBS : nat := 5.
Definition MAX_LINEAGE_LOG_BODY_BYTES : N := 60 * 1024.
Definition MAX_EVIDENCE_EDGE_BYTES : nat := Nat.mul 4 1024.
#[global] Arguments MAX_EVIDENCE_EDGE_BYTES : simpl never.

(** ** Data *)

Record WorkflowRunPullRequestAssociation := mkAssociation {
  as_pr : PrNumber;
  as_head_oid : option CommitOid;
  as_base_oid : option CommitOid }.

Record WorkflowStepFailureDiagnostic := mkStepDiagnostic {
  sd_number : N;
  sd_name : string;
  sd_status : string;
  sd_conclusion : string }.

Record SelectedRefLineageReceipt := mkSelectedLineage {
  sl_event : string;
  sl_head_ref : string;
  sl_selected_ref : string;
  sl_selected_commit : CommitOid;
  sl_actual_head : CommitOid;
  sl_expected_head : CommitOid;
  sl_expected_base : CommitOid;
  sl_parents : list CommitOid }.

Inductive LineageEvidenceStatus :=
| LineageNotRequested | LineageParsed | LineageMissing | LineageTruncated | LineageUnavailable.

Inductive DeferredAdmissionReason := Unjoined | MembershipChanged | ReasonDraft | ReasonRunUnproven | UnknownMembership.
#[export] Instance DeferredAdmissionReason_eq_dec : EqDecision DeferredAdmissionReason.
Proof. solve_decision. Defined.
Definition is_unjoined (r : DeferredAdmissionReason) : bool := bool_decide (r = Unjoined).
Definition parse_reason (value : string) : option DeferredAdmissionReason :=
  if String.eqb value "membership_changed" then Some MembershipChanged
  else if String.eqb value "draft" then Some ReasonDraft
  else if String.eqb value "run_unproven" then Some ReasonRunUnproven
  else if String.eqb value "unknown_membership" then Some UnknownMembership
  else None.

Record DeferredAdmissionReceipt := mkDeferredAdmission {
  da_pr : PrNumber;
  da_head_oid : CommitOid;
  da_base_oid : CommitOid;
  da_reason : DeferredAdmissionReason }.

Record WorkflowJobFailureDiagnostic := mkJobDiagnostic {
  jd_job_id : N;
  jd_name : string;
  jd_status : string;
  jd_conclusion : string;
  jd_url : string;
  jd_runner_name : option string;
  jd_runner_labels : list string;
  jd_failed_steps : list WorkflowStepFailureDiagnostic;
  jd_steps_truncated : bool;
  jd_selected_lineage : option SelectedRefLineageReceipt;
  jd_lineage_evidence_status : LineageEvidenceStatus;
  jd_deferred_admission : option DeferredAdmissionReceipt }.

Record WorkflowRunFailureDiagnostic := mkRunDiagnostic {
  rd_run_id : N;
  rd_attempt : N;
  rd_workflow_id : N;
  rd_check_suite_id : N;
  rd_workflow_name : string;
  rd_event : string;
  rd_status : string;
  rd_conclusion : string;
  rd_head_branch : string;
  rd_head_sha : CommitOid;
  rd_expected_pr : PrNumber;
  rd_expected_head_oid : CommitOid;
  rd_expected_base_oid : CommitOid;
  rd_pull_requests : list WorkflowRunPullRequestAssociation;
  rd_failed_jobs : list WorkflowJobFailureDiagnostic;
  rd_jobs_total : N;
  rd_jobs_truncated : bool }.

Record WorkflowFailureDiagnostics := mkFailureDiagnostics {
  fd_requested_run_ids : list N;
  fd_runs : list WorkflowRunFailureDiagnostic;
  fd_runs_truncated : bool }.

(** ** Receipts in a job log *)

Definition is_admission_step (name : string) : bool :=
  mem name ["Defer unjoined PR or require protected CI"; "Defer unjoined PR or require every pinned gate"].
Definition is_lineage_step (name : string) : bool :=
  contains_str "lineage" (to_ascii_lowercase name) || contains_str "selected ref" (to_ascii_lowercase name).

Definition split_ascii_whitespace (s : string) : list string :=
  List.filter (λ piece, negb (str_is_empty piece)) (split_on is_ascii_whitespace s).

Definition parse_full_oid (value : string) : option CommitOid :=
  if (40 <=? String.length value) && (String.length value <=? 64) && all_bytes is_ascii_hexdigit value
  then Some (to_ascii_lowercase value) else None.

Definition is_safe_byte (c : ascii) : bool :=
  is_ascii_alphanumeric c || mem c ["/"; "."; "_"; "-"; ":"]%char.
Definition parse_safe_text (value : string) (max_len : nat) : option string :=
  if negb (str_is_empty value) && (String.length value <=? max_len) && all_bytes is_safe_byte value
  then Some value else None.

(** A line without the time stamp a log puts before it. *)
Definition log_body (line : string) : string :=
  trim (match opt_filter (λ '(stamp, _), ends_with "Z" stamp) (split_once " " line) with
        | Some (_, body) => body
        | None => line
        end).

Definition EXIT_LINE : string := "##[error]Process completed with exit code 78.".
Definition with_prefix (prefix : string) (lines : list string) : list string := omap (strip_prefix prefix) lines.

(** The fields [key=value] of a receipt, and the first of a key. *)
Definition receipt_fields (receipt : string) : list (string * string) :=
  omap (split_once "=") (split_ascii_whitespace receipt).
Definition field (fields : list (string * string)) (key : string) : option string :=
  find_map (λ '(name, value), if String.eqb name key then Some value else None) fields.

Definition parse_compact_receipt (receipt : string) (unevaluated : bool) : option DeferredAdmissionReceipt :=
  let fields := receipt_fields receipt in
  reason ← (if unevaluated then reason ← field fields "reason"; parse_reason reason
            else decision ← field fields "decision";
                 if String.eqb decision "deferred_unjoined" then Some Unjoined else None);
  if negb (length fields =? 5) then None else
  exit ← field fields "exit";
  if negb (String.eqb exit "78") then None else
  pr ← field fields "pr"; pr ← parse_u64 pr;
  head ← field fields "head"; head ← parse_full_oid head;
  base ← field fields "base"; base ← parse_full_oid base;
  Some (mkDeferredAdmission pr head base reason).

(** The line the workflows of the repository print for a receipt. *)
Definition reason_text (r : DeferredAdmissionReason) : string :=
  match r with
  | Unjoined => "deferred_unjoined" | MembershipChanged => "membership_changed" | ReasonDraft => "draft"
  | ReasonRunUnproven => "run_unproven" | UnknownMembership => "unknown_membership"
  end.
Definition receipt_body (r : DeferredAdmissionReceipt) : string :=
  fmt ["pr="; pretty (da_pr r); " head="; da_head_oid r; " base="; da_base_oid r;
       if is_unjoined (da_reason r) then " decision=" else " reason="; reason_text (da_reason r); " exit=78"].
Definition receipt_line (r : DeferredAdmissionReceipt) : string :=
  (if is_unjoined (da_reason r) then "cara-deferred-admission " else "cara-admission-unevaluated ") +:+ receipt_body r.

(** The value every line of a key agrees on. *)
Definition agreed_value (lines : list string) (key : string) : option string :=
  match with_prefix key lines with
  | [] => None
  | first :: rest => if forallb (String.eqb first) rest then Some first else None
  end.
Definition agrees (lines : list string) (key expected : string) : bool :=
  is_some_and (agreed_value lines key) (String.eqb expected).

(** The sentinel of an older workflow. *)
Definition parse_sentinel (lines : list string) : option DeferredAdmissionReceipt :=
  if mem "Caravan admission deferred until exact PR membership (decision=deferred_unjoined)" lines
     && mem EXIT_LINE lines
     && agrees lines "ADMISSION_DECISION: " "deferred_unjoined" && agrees lines "DEFERRED_UNJOINED: " "true"
     && agrees lines "RUN_CI: " "false" && agrees lines "ADMISSION_RESULT: " "success"
     && agrees lines "CACO_CI_EVENT_NAME: " "pull_request"
  then
    pr ← agreed_value lines "CACO_CI_PR_NUMBER: "; pr ← parse_u64 pr;
    head ← agreed_value lines "CACO_CI_EXPECTED_HEAD: "; head ← parse_full_oid head;
    base ← agreed_value lines "CACO_CI_EXPECTED_BASE: "; base ← parse_full_oid base;
    Some (mkDeferredAdmission pr head base Unjoined)
  else None.

Definition parse_deferred_admission_receipt (output : string) : option DeferredAdmissionReceipt :=
  let lines := log_body <$> lines output in
  if negb (mem EXIT_LINE lines) then None else
  match with_prefix "cara-deferred-admission " lines, with_prefix "cara-admission-unevaluated " lines with
  | [], [] => parse_sentinel lines
  | [receipt], [] => parse_compact_receipt receipt false
  | [], [receipt] => parse_compact_receipt receipt true
  | _, _ => None
  end.

(** The parents that follow the first one, up to the next field. *)
Fixpoint more_parents (tokens : list string) : option (list CommitOid) :=
  match tokens with
  | [] => Some []
  | token :: rest =>
      if contains_str "=" token then Some []
      else parent ← parse_full_oid token; parents ← more_parents rest; Some (parent :: parents)
  end.
Definition token_value (tokens : list string) (key : string) : option string :=
  find_map (λ token, snd <$> opt_filter (λ '(candidate, _), String.eqb candidate key) (split_once "=" token)) tokens.

Definition parse_selected_lineage_receipt (output : string) : option SelectedRefLineageReceipt :=
  body ← find_map (λ line, snd <$> split_once "ci-selected-ref-receipt " line) (lines output);
  let tokens := split_ascii_whitespace body in
  parents_index ← list_find (λ token, starts_with "parents=" token = true) tokens;
  first_parent ← split_once "=" parents_index.2;
  first_parent ← parse_full_oid first_parent.2;
  more ← more_parents (take 3 (drop (parents_index.1 + 1) tokens));
  let parents := first_parent :: more in
  if negb (length parents =? 2) then None else
  event ← token_value tokens "event"; event ← parse_safe_text event 64;
  head_ref ← token_value tokens "head_ref"; head_ref ← parse_safe_text head_ref 512;
  selected_ref ← token_value tokens "selected_ref"; selected_ref ← parse_safe_text selected_ref 512;
  selected_commit ← token_value tokens "selected_commit"; selected_commit ← parse_full_oid selected_commit;
  actual_head ← token_value tokens "actual_head"; actual_head ← parse_full_oid actual_head;
  expected_head ← token_value tokens "expected_head"; expected_head ← parse_full_oid expected_head;
  expected_base ← token_value tokens "expected_base"; expected_base ← parse_full_oid expected_base;
  Some (mkSelectedLineage event head_ref selected_ref selected_commit actual_head expected_head expected_base parents).

(** The answer covers the requested range, and does not cover the whole log. *)
Definition HEADER_LINES : nat := 40.
Definition range_was_honored (output : string) : bool :=
  let head := take HEADER_LINES (lines output) in
  existsb (λ line, starts_with "HTTP/" line && bool_decide (split_ascii_whitespace line !! 1 = Some "206")) head
  && existsb (λ line, starts_with "content-range: bytes " (to_ascii_lowercase line)) head.
Definition range_is_short (line : string) : bool :=
  is_some_and
    (range ← strip_prefix "content-range: bytes " (to_ascii_lowercase line);
     covered ← split_once "/" (trim range);
     bounds ← split_once "-" covered.1;
     last ← parse_u64 bounds.2;
     total ← parse_u64 covered.2;
     Some (sat_add last 1 <? total)%N) (λ short, short).
Definition response_range_is_truncated (output : string) : bool :=
  existsb range_is_short (take HEADER_LINES (lines output)) || contains_str "...[truncated]" output.

(** ** A proven deferral *)

Definition association_matches (receipt : DeferredAdmissionReceipt) (association : WorkflowRunPullRequestAssociation) : bool :=
  (as_pr association =? da_pr receipt)%N && opt_eqb (as_head_oid association) (Some (da_head_oid receipt))
  && opt_eqb (as_base_oid association) (Some (da_base_oid receipt)).

Definition proven_deferred_job (d : WorkflowRunFailureDiagnostic) : option WorkflowJobFailureDiagnostic :=
  match rd_failed_jobs d with
  | [job] =>
      receipt ← jd_deferred_admission job;
      match jd_failed_steps job with
      | [step] =>
          if String.eqb (rd_status d) "completed" && String.eqb (rd_conclusion d) "failure"
             && String.eqb (rd_event d) "pull_request" && negb (rd_jobs_truncated d) && (0 <? rd_jobs_total d)%N
             && negb (jd_steps_truncated job) && String.eqb (jd_status job) "completed"
             && String.eqb (jd_conclusion job) "failure" && String.eqb (sd_status step) "completed"
             && String.eqb (sd_conclusion step) "failure" && is_admission_step (sd_name step)
             && (da_pr receipt =? rd_expected_pr d)%N && String.eqb (da_head_oid receipt) (rd_expected_head_oid d)
             && String.eqb (da_head_oid receipt) (rd_head_sha d)
             && String.eqb (da_base_oid receipt) (rd_expected_base_oid d)
             && forallb (association_matches receipt) (rd_pull_requests d)
          then Some job else None
      | _ => None
      end
  | _ => None
  end.

(** ** What the provider answers *)

Record WorkflowRefJson := mkRefJson { rj_sha : string }.
Record WorkflowRunPullRequestJson := mkPullRequestJson {
  pj_number : N;
  pj_head : option WorkflowRefJson;
  pj_base : option WorkflowRefJson }.
Record WorkflowRunApiJson := mkRunJson {
  aj_id : N;
  aj_run_attempt : N;
  aj_workflow_id : N;
  aj_check_suite_id : N;
  aj_name : string;
  aj_event : string;
  aj_status : string;
  aj_conclusion : option string;
  aj_head_branch : string;
  aj_head_sha : string;
  aj_pull_requests : list WorkflowRunPullRequestJson }.
Record WorkflowStepJson := mkStepJson {
  sj_number : N;
  sj_name : string;
  sj_status : string;
  sj_conclusion : option string }.
Record WorkflowJobJson := mkJobJson {
  jj_id : N;
  jj_run_id : N;
  jj_head_sha : string;
  jj_name : string;
  jj_status : string;
  jj_conclusion : option string;
  jj_html_url : string;
  jj_runner_name : option string;
  jj_labels : list string;
  jj_steps : list WorkflowStepJson }.
Record WorkflowJobsApiJson := mkJobsJson {
  wj_total_count : N;
  wj_jobs : list WorkflowJobJson }.

Definition failure_conclusion (conclusion : string) : bool :=
  negb (mem (to_ascii_lowercase conclusion) ["success"; "neutral"; "skipped"]).

Definition step_diagnostic (j : WorkflowStepJson) : WorkflowStepFailureDiagnostic :=
  mkStepDiagnostic (sj_number j) (sj_name j) (sj_status j) (default "" (sj_conclusion j)).
Definition job_diagnostic (j : WorkflowJobJson) : WorkflowJobFailureDiagnostic :=
  let failed_steps := step_diagnostic <$>
    List.filter (λ step, failure_conclusion (default "" (sj_conclusion step))) (jj_steps j) in
  mkJobDiagnostic (jj_id j) (jj_name j) (jj_status j) (default "" (jj_conclusion j)) (jj_html_url j)
    (jj_runner_name j) (jj_labels j) (take MAX_FAILED_STEPS failed_steps) (MAX_FAILED_STEPS <? length failed_steps)
    None LineageNotRequested None.
Definition into_association (j : WorkflowRunPullRequestJson) : WorkflowRunPullRequestAssociation :=
  mkAssociation (pj_number j) (rj_sha <$> pj_head j) (rj_sha <$> pj_base j).
Definition run_diagnostic (j : WorkflowRunApiJson) (expected : PullRequestPrecondition) (jobs : WorkflowJobsApiJson)
    : WorkflowRunFailureDiagnostic :=
  let jobs_total := wj_total_count jobs in
  let incomplete_inventory := negb (jobs_total =? N.of_nat (length (wj_jobs jobs)))%N in
  let failed_jobs := job_diagnostic <$>
    List.filter (λ job, failure_conclusion (default "" (jj_conclusion job))) (wj_jobs jobs) in
  let jobs_truncated := incomplete_inventory || (MAX_FAILED_JOBS <? length failed_jobs) || (100 <? jobs_total)%N in
  mkRunDiagnostic (aj_id j) (aj_run_attempt j) (aj_workflow_id j) (aj_check_suite_id j) (aj_name j) (aj_event j)
    (aj_status j) (default "" (aj_conclusion j)) (aj_head_branch j) (aj_head_sha j) (pc_number expected)
    (pc_head_oid expected) (pc_base_oid expected) (into_association <$> aj_pull_requests j)
    (take MAX_FAILED_JOBS failed_jobs) jobs_total jobs_truncated.

(** ** Commands *)

Definition workflow_run_command (repository : RepositoryId) (run_id : N) : CommandSpec :=
  args (new_command "gh") ["api"; fmt ["repos/"; slug repository; "/actions/runs/"; pretty run_id]].
Definition workflow_jobs_command (repository : RepositoryId) (run_id attempt : N) : CommandSpec :=
  args (new_command "gh") ["api"; "--method"; "GET";
    fmt ["repos/"; slug repository; "/actions/runs/"; pretty run_id; "/attempts/"; pretty attempt; "/jobs"];
    "-f"; "per_page=100"].
Definition workflow_job_log_command (repository : RepositoryId) (job_id : N) : CommandSpec :=
  args (new_command "gh") ["api"; "--include"; "-H";
    fmt ["Range: bytes=0-"; pretty (MAX_LINEAGE_LOG_BODY_BYTES - 1)%N];
    fmt ["repos/"; slug repository; "/actions/jobs/"; pretty job_id; "/logs"]].

(** [DiscoveryError], as far as this module makes it, without the evidence. *)
Inductive DiscoveryError :=
| Runner (error : CommandRunError)
| CommandFailed (command : CommandSpec) (code : option Z) (stderr : string)
| InvalidJson (command : CommandSpec) (message : string).

(** An index between two characters of a UTF-8 text. *)
Definition is_char_boundary (value : string) (index : nat) : bool :=
  match String.get index value with
  | Some c => negb (between 128 191 c)
  | None => index =? String.length value
  end.
Fixpoint boundary_before (value : string) (index : nat) : nat :=
  if is_char_boundary value index then index
  else match index with O => O | S index' => boundary_before value index' end.
Fixpoint boundary_after (fuel : nat) (value : string) (index : nat) : nat :=
  if is_char_boundary value index then index
  else match fuel with O => index | S fuel' => boundary_after fuel' value (index + 1) end.
Definition evidence_excerpt (value : string) : string :=
  if String.length value <=? MAX_EVIDENCE_EDGE_BYTES * 2 then value
  else
    let prefix_end := boundary_before value MAX_EVIDENCE_EDGE_BYTES in
    let suffix_start := boundary_after (String.length value) value (String.length value - MAX_EVIDENCE_EDGE_BYTES) in
    fmt [String.substring 0 prefix_end value; String line_feed "..."; "["; pretty (N.of_nat (suffix_start - prefix_end));
         " bytes omitted]..."; String line_feed ""; str_drop suffix_start value].

Class CiJson := {
  decode_run : string → result WorkflowRunApiJson string;
  decode_jobs : string → result WorkflowJobsApiJson string }.

Section diagnosis.
Context `{!CiJson}.
#[local] Open Scope prog_scope.

Definition checked_json {T} (decode : string → result T string) (command : CommandSpec)
    : Prog CommandOp (result T DiscoveryError) :=
  let? output := map_err (perform (RunCommand command)) Runner in
  Ret (if negb (is_success output)
       then Err (CommandFailed command (out_code output) (evidence_excerpt (out_stderr output)))
       else match decode (out_stdout output) with
            | Ok value => Ok value
            | Err message => Err (InvalidJson command message)
            end).

(** What a log adds to its job. *)
Definition set_evidence (job : WorkflowJobFailureDiagnostic) (status : LineageEvidenceStatus)
    (lineage : option SelectedRefLineageReceipt) (deferred : option DeferredAdmissionReceipt) : WorkflowJobFailureDiagnostic :=
  mkJobDiagnostic (jd_job_id job) (jd_name job) (jd_status job) (jd_conclusion job) (jd_url job) (jd_runner_name job)
    (jd_runner_labels job) (jd_failed_steps job) (jd_steps_truncated job) lineage status deferred.
Definition without_log (job : WorkflowJobFailureDiagnostic) (status : LineageEvidenceStatus) : WorkflowJobFailureDiagnostic :=
  set_evidence job status (jd_selected_lineage job) (jd_deferred_admission job).

Definition is_lineage_job (job : WorkflowJobFailureDiagnostic) : bool :=
  existsb (λ step, is_lineage_step (sd_name step)) (jd_failed_steps job).
Definition is_admission_job (job : WorkflowJobFailureDiagnostic) : bool :=
  existsb (λ step, is_admission_step (sd_name step)) (jd_failed_steps job).

Definition read_log (repository : RepositoryId) (job : WorkflowJobFailureDiagnostic)
    : Prog CommandOp WorkflowJobFailureDiagnostic :=
  let command := workflow_job_log_command repository (jd_job_id job) in
  let! first := perform (RunCommand command) in
  match first with
  | Err _ => Ret (without_log job LineageUnavailable)
  | Ok output =>
      let! output :=
        if negb (is_success output) && contains_str "--allow-escape-sequences" (out_stderr output)
        then
          let! retry := perform (RunCommand (arg command "--allow-escape-sequences")) in
          Ret (match retry with Ok retry => retry | Err _ => output end)
        else Ret output in
      let text := out_stdout output in
      Ret (if negb (is_success output) || negb (range_was_honored text) then without_log job LineageUnavailable
           else
             let truncated := response_range_is_truncated text in
             let deferred := if is_admission_job job && negb truncated then parse_deferred_admission_receipt text
                             else jd_deferred_admission job in
             let lineage := parse_selected_lineage_receipt text in
             set_evidence job
               (if is_some_b lineage then LineageParsed else if truncated then LineageTruncated else LineageMissing)
               lineage deferred)
  end.

(** [requested] counts the logs read for this run. *)
Fixpoint enrich_jobs (repository : RepositoryId) (requested : nat) (jobs : list WorkflowJobFailureDiagnostic)
    : Prog CommandOp (list WorkflowJobFailureDiagnostic) :=
  match jobs with
  | [] => Ret []
  | job :: rest =>
      if negb (is_lineage_job job) && negb (is_admission_job job)
      then let! rest := enrich_jobs repository requested rest in Ret (job :: rest)
      else if MAX_LINEAGE_LOG_JOBS <=? requested
      then let! rest := enrich_jobs repository requested rest in Ret (without_log job LineageTruncated :: rest)
      else
        let! job := read_log repository job in
        let! rest := enrich_jobs repository (requested + 1) rest in
        Ret (job :: rest)
  end.
Definition set_jobs (d : WorkflowRunFailureDiagnostic) (jobs : list WorkflowJobFailureDiagnostic) : WorkflowRunFailureDiagnostic :=
  mkRunDiagnostic (rd_run_id d) (rd_attempt d) (rd_workflow_id d) (rd_check_suite_id d) (rd_workflow_name d) (rd_event d)
    (rd_status d) (rd_conclusion d) (rd_head_branch d) (rd_head_sha d) (rd_expected_pr d) (rd_expected_head_oid d)
    (rd_expected_base_oid d) (rd_pull_requests d) jobs (rd_jobs_total d) (rd_jobs_truncated d).
Definition enrich_lineage_receipts (repository : RepositoryId) (d : WorkflowRunFailureDiagnostic)
    : Prog CommandOp WorkflowRunFailureDiagnostic :=
  let! jobs := enrich_jobs repository 0 (rd_failed_jobs d) in Ret (set_jobs d jobs).

(** The jobs belong to the observed run, each once; the search stops at the
    first job that does not. *)
Fixpoint foreign_job (run : WorkflowRunApiJson) (seen : gset N) (jobs : list WorkflowJobJson) : bool :=
  match jobs with
  | [] => false
  | job :: rest =>
      (jj_id job =? 0)%N || negb (jj_run_id job =? aj_id run)%N
      || negb (eq_ignore_ascii_case (jj_head_sha job) (aj_head_sha run))
      || bool_decide (jj_id job ∈ seen)
      || foreign_job run ({[ jj_id job ]} ∪ seen) rest
  end.

Definition diagnose_run (repository : RepositoryId) (expected : PullRequestPrecondition) (run_id : N)
    : Prog CommandOp (result WorkflowRunFailureDiagnostic DiscoveryError) :=
  let run_command := workflow_run_command repository run_id in
  let? run := checked_json decode_run run_command in
  if (aj_id run =? 0)%N || negb (aj_id run =? run_id)%N || (aj_run_attempt run =? 0)%N || str_is_empty (aj_head_sha run)
  then Ret (Err (InvalidJson run_command "workflow run identity or attempt is unproved"))
  else
    let jobs_command := workflow_jobs_command repository run_id (aj_run_attempt run) in
    let? jobs := checked_json decode_jobs jobs_command in
    if foreign_job run ∅ (wj_jobs jobs)
    then Ret (Err (InvalidJson jobs_command "job identities do not match the observed workflow run"))
    else
      let! diagnostic := enrich_lineage_receipts repository (run_diagnostic run expected jobs) in
      Ret (Ok diagnostic).

Fixpoint diagnose_runs (repository : RepositoryId) (expected : PullRequestPrecondition) (run_ids : list N)
    : Prog CommandOp (result (list WorkflowRunFailureDiagnostic) DiscoveryError) :=
  match run_ids with
  | [] => Ret (Ok [])
  | run_id :: rest =>
      let? run := diagnose_run repository expected run_id in
      let? runs := diagnose_runs repository expected rest in
      Ret (Ok (run :: runs))
  end.

Definition diagnose_failed_runs (repository : RepositoryId) (expected : PullRequestPrecondition) (run_ids : list N)
    : Prog CommandOp (result WorkflowFailureDiagnostics DiscoveryError) :=
  let requested_run_ids := bs_elems (list_to_set run_ids : gset N) in
  let? runs := diagnose_runs repository expected (take MAX_DIAGNOSTIC_RUNS requested_run_ids) in
  Ret (Ok (mkFailureDiagnostics requested_run_ids runs (MAX_DIAGNOSTIC_RUNS <? length requested_run_ids))).
End diagnosis.
