(* ===== verification/CiReceiptProofs.v ===== *)
(** Receipts in a job log are read back as the workflows print them. *)

From Stdlib Require Import Ascii String.
From S2P Require Import Prelude Text TextProofs Model Command CiEvidence.

#[local] Open Scope string_scope.
#[local] Open Scope list_scope.
#[local] Open Scope nat_scope.
#[local] Open Scope caravan_scope.

(** ** Words *)

Definition is_word (s : string) : bool := negb (str_is_empty s) && all_bytes (λ c, negb (is_ascii_whitespace c)) s.

Lemma split_whitespace_word w rest :
  is_word w = true → split_ascii_whitespace (w +:+ String " " rest) = w :: split_ascii_whitespace rest.
Proof.
  unfold is_word, split_ascii_whitespace. intros [Hne Hw]%andb_true_iff. rewrite split_on_app by done. cbn. by rewrite Hne.
Qed.
Lemma split_whitespace_last w : is_word w = true → split_ascii_whitespace w = [w].
Proof.
  unfold is_word, split_ascii_whitespace. intros [Hne Hw]%andb_true_iff. rewrite split_on_none by done. cbn. by rewrite Hne.
Qed.
Lemma is_word_app a b : is_word a = true → all_bytes (λ c, negb (is_ascii_whitespace c)) b = true → is_word (a +:+ b) = true.
Proof.
  unfold is_word. intros [Hne Ha]%andb_true_iff Hb. rewrite all_bytes_app, Ha, Hb. by destruct a.
Qed.

Lemma hex_not_space c : is_ascii_hexdigit c = true → negb (is_ascii_whitespace c) = true.
Proof. destruct c as [[] [] [] [] [] [] [] []]; vm_compute; done. Qed.
Lemma digit_not_space c : is_ascii_digit c = true → negb (is_ascii_whitespace c) = true.
Proof. destruct c as [[] [] [] [] [] [] [] []]; vm_compute; done. Qed.
Lemma digits_no_space s : all_digits s = true → all_bytes (λ c, negb (is_ascii_whitespace c)) s = true.
Proof. apply all_bytes_impl, digit_not_space. Qed.

Lemma split_once_pair key value :
  all_bytes (λ c, negb (Ascii.eqb "=" c)) key = true → split_once "=" (key +:+ String "=" value) = Some (key, value).
Proof.
  induction key as [| c key IH]; cbn [all_bytes].
  - intros _. change ("" +:+ String "=" value) with (String "=" value). cbn. by destruct value.
  - intros [Hc Hkey]%andb_true_iff. change (String c key +:+ String "=" value) with (String c (key +:+ String "=" value)).
    cbn [split_once]. rewrite (IH Hkey), starts_with_char. by destruct (Ascii.eqb "=" c).
Qed.

(** ** The receipt *)

(** A text the parser takes for a full object id. *)
Definition full_oid (s : string) : bool :=
  (40 <=? String.length s) && (String.length s <=? 64) && all_bytes is_ascii_hexdigit s.
Lemma full_oid_no_space s : full_oid s = true → all_bytes (λ c, negb (is_ascii_whitespace c)) s = true.
Proof. intros [_ Hs]%andb_true_iff. revert Hs. apply all_bytes_impl, hex_not_space. Qed.
Lemma parse_full_oid_ok s : full_oid s = true → parse_full_oid s = Some (to_ascii_lowercase s).
Proof. unfold full_oid, parse_full_oid. by intros ->. Qed.

Lemma receipt_body_words r :
  receipt_body r =
    ("pr=" +:+ pretty (da_pr r)) +:+ String " " (("head=" +:+ da_head_oid r) +:+ String " "
    (("base=" +:+ da_base_oid r) +:+ String " "
    (((if is_unjoined (da_reason r) then "decision=" else "reason=") +:+ reason_text (da_reason r)) +:+ String " " "exit=78"))).
Proof. unfold receipt_body, fmt. cbn [foldr]. rewrite !str_app_assoc. by destruct (da_reason r). Qed.

Lemma receipt_body_fields r :
  full_oid (da_head_oid r) = true → full_oid (da_base_oid r) = true →
  receipt_fields (receipt_body r) =
    [("pr", pretty (da_pr r)); ("head", da_head_oid r); ("base", da_base_oid r);
     (if is_unjoined (da_reason r) then "decision" else "reason", reason_text (da_reason r)); ("exit", "78")].
Proof.
  intros Hhead%full_oid_no_space Hbase%full_oid_no_space. pose proof (digits_no_space _ (all_digits_pretty (da_pr r))) as Hpr.
  unfold receipt_fields. rewrite receipt_body_words, !split_whitespace_word, split_whitespace_last; try (by apply is_word_app); try done.
  2: by destruct (da_reason r).
  change ("pr=" +:+ pretty (da_pr r)) with ("pr" +:+ String "=" (pretty (da_pr r))).
  change ("head=" +:+ da_head_oid r) with ("head" +:+ String "=" (da_head_oid r)).
  change ("base=" +:+ da_base_oid r) with ("base" +:+ String "=" (da_base_oid r)).
  cbn [omap list_omap]. rewrite !split_once_pair by done. by destruct (da_reason r).
Qed.

Lemma parse_receipt_body r :
  (da_pr r ≤ u64_max)%N → full_oid (da_head_oid r) = true → full_oid (da_base_oid r) = true →
  parse_compact_receipt (receipt_body r) (negb (is_unjoined (da_reason r))) =
    Some (mkDeferredAdmission (da_pr r) (to_ascii_lowercase (da_head_oid r)) (to_ascii_lowercase (da_base_oid r)) (da_reason r)).
Proof.
  intros Hpr Hhead Hbase. unfold parse_compact_receipt. rewrite receipt_body_fields by done.
  destruct r as [pr head base []]; cbn in *; rewrite parse_u64_pretty by done; cbn; by rewrite !parse_full_oid_ok.
Qed.

(** ** The log *)

Definition deferred_prefix : string := "cara-deferred-admission ".
Definition unevaluated_prefix : string := "cara-admission-unevaluated ".
(** A line that is no receipt. *)
Definition no_receipt (line : string) : Prop :=
  strip_prefix deferred_prefix line = None ∧ strip_prefix unevaluated_prefix line = None.

Lemma with_prefix_none prefix l : (∀ line, line ∈ l → strip_prefix prefix line = None) → with_prefix prefix l = [].
Proof.
  induction l as [| line l IH]; intros Hl; [done |]. unfold with_prefix in *. cbn. rewrite (Hl line) by apply list_elem_of_here.
  apply IH. intros line' Hin. apply Hl. by right.
Qed.

Lemma with_prefix_app prefix a b : with_prefix prefix (a ++ b) = with_prefix prefix a ++ with_prefix prefix b.
Proof. apply omap_app. Qed.

(** The receipts among lines. *)
Definition receipts (l : list string) : nat := length (with_prefix deferred_prefix l) + length (with_prefix unevaluated_prefix l).
Lemma receipts_app a b : receipts (a ++ b) = receipts a + receipts b.
Proof. unfold receipts. rewrite !with_prefix_app, !length_app. lia. Qed.
Lemma receipts_one line l : line ∈ l → ¬ no_receipt line → 1 ≤ receipts l.
Proof.
  intros (a & b & ->)%list_elem_of_split Hline. rewrite receipts_app. change (line :: b) with ([line] ++ b). rewrite receipts_app.
  enough (1 ≤ receipts [line]) by lia. unfold receipts, with_prefix, no_receipt in *. cbn.
  destruct (strip_prefix deferred_prefix line), (strip_prefix unevaluated_prefix line); cbn; try lia. by destruct Hline.
Qed.

Lemma receipt_line_prefixes r :
  strip_prefix deferred_prefix (receipt_line r) = (if is_unjoined (da_reason r) then Some (receipt_body r) else None)
  ∧ strip_prefix unevaluated_prefix (receipt_line r) = (if is_unjoined (da_reason r) then None else Some (receipt_body r)).
Proof. unfold receipt_line. destruct (is_unjoined _); split; try apply strip_prefix_app; done. Qed.

(** A deferral receipt is read back exactly. In a log whose lines, without
    their time stamps, are the line a workflow prints for a receipt, the line of
    exit code 78 and any lines that are no receipts, the parser finds this very
    receipt, the ids in lower case; beside a second receipt it finds none. *)
Theorem deferral_receipt_roundtrip output before after r :
  (da_pr r ≤ u64_max)%N → full_oid (da_head_oid r) = true → full_oid (da_base_oid r) = true →
  log_body <$> lines output = before ++ receipt_line r :: after →
  EXIT_LINE ∈ before ++ after →
  ((∀ line, line ∈ before ++ after → no_receipt line) →
   parse_deferred_admission_receipt output =
     Some (mkDeferredAdmission (da_pr r) (to_ascii_lowercase (da_head_oid r)) (to_ascii_lowercase (da_base_oid r)) (da_reason r)))
  ∧ (∀ line, line ∈ before ++ after → ¬ no_receipt line → parse_deferred_admission_receipt output = None).
Proof.
  intros Hpr Hhead Hbase Hlines Hexit. unfold parse_deferred_admission_receipt. rewrite Hlines.
  assert (mem EXIT_LINE (before ++ receipt_line r :: after) = true) as ->.
  { apply mem_true. rewrite elem_of_app in *. destruct Hexit; [by left | right; by right]. }
  cbn [negb]. fold deferred_prefix unevaluated_prefix. destruct (receipt_line_prefixes r) as [Hd Hu]. split.
  - intros Hnone. change (receipt_line r :: after) with ([receipt_line r] ++ after). rewrite !with_prefix_app.
    assert (∀ p, with_prefix p [receipt_line r] = match strip_prefix p (receipt_line r) with Some b => [b] | None => [] end) as Hone.
    { intros p. unfold with_prefix. cbn. by destruct (strip_prefix p _). }
    rewrite !Hone, Hd, Hu.
    rewrite !(with_prefix_none _ before), !(with_prefix_none _ after) by
      (intros line Hin; destruct (Hnone line); [apply elem_of_app; auto | done]).
    pose proof (parse_receipt_body r Hpr Hhead Hbase) as Hparse. by destruct (is_unjoined (da_reason r)).
  - intros line Hin Hline. assert (2 ≤ receipts (before ++ receipt_line r :: after)) as Htwo.
    { change (receipt_line r :: after) with ([receipt_line r] ++ after). rewrite !receipts_app.
      apply receipts_one in Hin; [| done]. rewrite receipts_app in Hin.
      enough (1 ≤ receipts [receipt_line r]) by lia. eapply receipts_one; [apply list_elem_of_here |].
      unfold no_receipt. rewrite Hd, Hu. by destruct (is_unjoined _); intros []. }
    unfold receipts in Htwo. destruct (with_prefix deferred_prefix _) as [| ? [|]], (with_prefix unevaluated_prefix _) as [| ? [|]];
      cbn in Htwo; done || lia.
Qed.

(** ** A concrete log *)

Definition sample_oid : string := "0123456789abcdef0123456789abcdef01234567".
Definition sample_receipt : DeferredAdmissionReceipt := mkDeferredAdmission 12 sample_oid sample_oid ReasonDraft.
Definition log_line (text : string) : string := fmt ["2026-10-01T00:00:00.0Z "; text; String line_feed ""].
Definition sample_log : string :=
  fmt [log_line "##[group]Run gate"; log_line (receipt_line sample_receipt); log_line EXIT_LINE].

Lemma deferral_receipt_roundtrip_witness :
  log_body <$> lines sample_log = ["##[group]Run gate"] ++ receipt_line sample_receipt :: [EXIT_LINE]
  ∧ parse_deferred_admission_receipt sample_log = Some sample_receipt.
Proof.
  assert (log_body <$> lines sample_log = ["##[group]Run gate"] ++ receipt_line sample_receipt :: [EXIT_LINE]) as Hlines
    by (vm_compute; reflexivity).
  split; [exact Hlines |].
  apply (deferral_receipt_roundtrip sample_log ["##[group]Run gate"] [EXIT_LINE] sample_receipt);
    [done | vm_compute; reflexivity | vm_compute; reflexivity | exact Hlines | right; apply list_elem_of_here |].
  intros line. rewrite elem_of_app, !list_elem_of_singleton. intros [-> | ->]; by split; vm_compute.
Defined.
