(* ===== verification/CiEvidenceProofs.v ===== *)
(** What the evidence about failed runs rests on. *)

From Stdlib Require Import Ascii String.
From S2P Require Import Prelude Text Model Programs RemoteLease Command CiEvidence.

#[local] Open Scope string_scope.
#[local] Open Scope list_scope.
#[local] Open Scope nat_scope.
#[local] Open Scope caravan_scope.

(** ** Commands and their answers *)

(** The commands with their answers, in order; the environment answers freely. *)
Definition CommandLog := list (CommandSpec * Ran).
Definition exec_commands (R : Type) (answer : Ran) (op : CommandOp R) (log : CommandLog) : R * CommandLog :=
  match op in CommandOp R return R * CommandLog with RunCommand c => (answer, log ++ [(c, answer)]) end.

(** A command succeeded with this output. *)
Definition printed (log : CommandLog) (c : CommandSpec) (text : string) : Prop :=
  ∃ out, (c, Ok out) ∈ log ∧ is_success out = true ∧ out_stdout out = text.
Lemma printed_mono log more c text : printed log c text → printed (log ++ more) c text.
Proof. intros (out & Hin & Hrest). exists out. split; [| done]. apply elem_of_app. by left. Qed.

Section log.
Context (I : CommandLog → Prop).

(** The rule for one command. *)
Lemma holds_command {B} c (k : Ran → Prog CommandOp B) Q log :
  (∀ answer, I (log ++ [(c, answer)]) ∧ holds exec_commands I (k answer) Q (log ++ [(c, answer)])) →
  holds exec_commands I (pbind (perform (RunCommand c)) k) Q log.
Proof. intros H answer. exact (H answer). Qed.
End log.

(** Only appends: the log a program started from stays a prefix. *)
Definition extends (log log' : CommandLog) : Prop := ∃ more, log' = log ++ more.
Lemma extends_snoc log log' x : extends log log' → extends log (log' ++ [x]).
Proof. intros [more ->]. exists (more ++ [x]). by rewrite app_assoc. Qed.
Lemma printed_extends log log' c text : extends log log' → printed log c text → printed log' c text.
Proof. intros [more ->]. apply printed_mono. Qed.
Lemma log_extends_refl log : extends log log.
Proof. exists []. by rewrite app_nil_r. Qed.
Lemma log_extends_trans log1 log2 log3 : extends log1 log2 → extends log2 log3 → extends log1 log3.
Proof. intros [more ->] [more' ->]. exists (more ++ more'). by rewrite app_assoc. Qed.
#[export] Instance extends_preorder : PreOrder extends.
Proof. split; [intros ?; apply log_extends_refl | intros ? ? ?; apply log_extends_trans]. Qed.
#[export] Hint Resolve log_extends_refl extends_snoc : caravan.

(** ** Bounds and reads *)

(** A program of at most [n] commands, all of them reads. *)
Definition op_reads {R} (op : CommandOp R) : Prop := match op with RunCommand c => ¬ writes c end.
Fixpoint reads_within {A} (n : nat) (p : Prog CommandOp A) {struct p} : Prop :=
  match p with
  | Ret _ => True
  | Vis op k => match n with O => False | S n => op_reads op ∧ ∀ r, reads_within n (k r) end
  end.

Lemma reads_mono {A} n m (p : Prog CommandOp A) : n ≤ m → reads_within n p → reads_within m p.
Proof.
  revert n m. induction p as [a | R op k IH]; intros n m Hle; [done |].
  destruct n as [| n]; [done |]. destruct m as [| m]; [lia |].
  intros [Hop Hk]. split; [done |]. intros r. eapply IH; [| apply Hk]. lia.
Qed.
Lemma reads_bind {A B} n m (p : Prog CommandOp A) (f : A → Prog CommandOp B) :
  reads_within n p → (∀ a, reads_within m (f a)) → reads_within (n + m) (pbind p f).
Proof.
  revert n. induction p as [a | R op k IH]; intros n; cbn.
  - intros _ Hf. eapply reads_mono; [| apply Hf]. lia.
  - destruct n as [| n]; [done |]. cbn. intros [Hop Hk] Hf. split; [done |]. intros r. by apply IH.
Qed.
Lemma reads_try {A B E} n m (p : Prog CommandOp (result A E)) (f : A → Prog CommandOp (result B E)) :
  reads_within n p → (∀ a, reads_within m (f a)) → reads_within (n + m) (ebind p f).
Proof. intros Hp Hf. apply reads_bind; [done |]. by intros [a | e]. Qed.
Lemma reads_command c : ¬ writes c → reads_within 1 (perform (RunCommand c)).
Proof. by intros Hc. Qed.

Lemma reads_drive {A} n (p : Prog CommandOp A) choices log :
  reads_within n p →
  ∃ more, (drive exec_commands choices p log).2 = log ++ more ∧ length more ≤ n ∧ ∀ c answer, (c, answer) ∈ more → ¬ writes c.
Proof.
  revert n choices log. induction p as [a | R op k IH]; intros n choices log.
  { intros _. exists []. rewrite app_nil_r. split_and!; [done | cbn; lia | by intros ? ? ?%elem_of_nil]. }
  destruct n as [| n]; [done |]. intros [Hop Hk]. destruct choices as [| answer choices]; cbn.
  { exists []. rewrite app_nil_r. split_and!; [done | cbn; lia | by intros ? ? ?%elem_of_nil]. }
  destruct op as [c]. cbn. destruct (IH answer n choices (log ++ [(c, answer)]) (Hk answer)) as (more & -> & Hlen & Hreads).
  exists ((c, answer) :: more). rewrite <- app_assoc. split_and!; [done | cbn; lia |].
  intros c' answer' [[= -> ->] | Hin]%elem_of_cons; [done | by eapply Hreads].
Qed.

(** A request of the API that is not marked and names no method but GET. *)
Lemma api_read arguments :
  existsb method_pair (pairs ("api" :: arguments)) = false → existsb query_mutates ("api" :: arguments) = false →
  ¬ writes (args (new_command "gh") ("api" :: arguments)).
Proof.
  intros Hm Hq [Hw | [intent Hw]]; [done |]. revert Hw. unfold inferred_write_intent.
  change (cm_args _) with ("api" :: arguments). rewrite Hm, Hq. done.
Qed.

Section diagnosis.
Context `{!CiJson} (repository : RepositoryId) (expected : PullRequestPrecondition).

Lemma run_command_reads run_id : ¬ writes (workflow_run_command repository run_id).
Proof. by apply api_read. Qed.
Lemma jobs_command_reads run_id attempt : ¬ writes (workflow_jobs_command repository run_id attempt).
Proof. by apply api_read. Qed.
Lemma log_command_reads job_id : ¬ writes (workflow_job_log_command repository job_id).
Proof. by apply api_read. Qed.
Lemma retried_command_reads job_id : ¬ writes (arg (workflow_job_log_command repository job_id) "--allow-escape-sequences").
Proof. by apply api_read. Qed.

Lemma checked_reads {T} (decode : string → result T string) c : ¬ writes c → reads_within 1 (checked_json decode c).
Proof. intros Hc. split; [done |]. by intros [out | e]. Qed.

Lemma read_log_reads job : reads_within 2 (read_log repository job).
Proof.
  split; [apply log_command_reads |]. intros [out | e]; [| done]. cbn [pbind perform].
  destruct (_ && _); [| done]. split; [apply retried_command_reads |]. done.
Qed.

Lemma enrich_reads requested jobs :
  reads_within (2 * (MAX_LINEAGE_LOG_JOBS - requested)) (enrich_jobs repository requested jobs).
Proof.
  revert requested. induction jobs as [| job jobs IH]; intros requested; [done |]. cbn [enrich_jobs].
  destruct (_ && _).
  { rewrite <- (Nat.add_0_r (2 * _)). by apply reads_bind. }
  destruct (Nat.leb_spec MAX_LINEAGE_LOG_JOBS requested).
  { rewrite <- (Nat.add_0_r (2 * _)). by apply reads_bind. }
  eapply reads_mono; [| apply (reads_bind 2 (2 * (MAX_LINEAGE_LOG_JOBS - (requested + 1)) + 0)); [apply read_log_reads |]].
  - lia.
  - intros job'. by apply reads_bind.
Qed.

Definition RUN_COMMANDS : nat := 12.
Lemma run_reads run_id : reads_within RUN_COMMANDS (diagnose_run repository expected run_id).
Proof.
  apply (reads_try 1 11); [apply checked_reads, run_command_reads |]. intros run. destruct (_ || _); [done |].
  apply (reads_try 1 10); [apply checked_reads, jobs_command_reads |]. intros jobs. destruct (foreign_job _ _ _); [done |].
  apply (reads_bind 10 0); [| done]. apply (reads_bind 10 0); [apply (enrich_reads 0) | done].
Qed.

Lemma runs_reads run_ids : reads_within (length run_ids * RUN_COMMANDS) (diagnose_runs repository expected run_ids).
Proof.
  induction run_ids as [| run_id run_ids IH]; [done |]. cbn [diagnose_runs length Nat.mul].
  apply reads_try; [apply run_reads |]. intros run. rewrite <- (Nat.add_0_r (_ * _)). by apply reads_try.
Qed.

(** A diagnosis only reads, and reads a bounded amount. Whatever the
    commands answer, it runs at most two requests for each of the ten runs it
    looks at and two for each of their five logs, none of them a command that is
    marked or recognised as a write. *)
Theorem diagnosis_is_bounded_and_reads run_ids choices :
  let log := (drive exec_commands choices (diagnose_failed_runs repository expected run_ids) []).2 in
  length log ≤ MAX_DIAGNOSTIC_RUNS * (2 + 2 * MAX_LINEAGE_LOG_JOBS)
  ∧ ∀ c answer, (c, answer) ∈ log → ¬ writes c.
Proof.
  cbn zeta. destruct (reads_drive (MAX_DIAGNOSTIC_RUNS * RUN_COMMANDS) (diagnose_failed_runs repository expected run_ids) choices [])
    as (more & -> & Hlen & Hreads); [| done].
  unfold diagnose_failed_runs. rewrite <- (Nat.add_0_r (_ * _)). apply reads_try; [| done].
  eapply reads_mono; [| apply runs_reads]. rewrite length_take. unfold MAX_DIAGNOSTIC_RUNS, RUN_COMMANDS. lia.
Qed.

(** ** What the evidence rests on *)

Definition reads_log_of (job : WorkflowJobFailureDiagnostic) (c : CommandSpec) : Prop :=
  let command := workflow_job_log_command repository (jd_job_id job) in
  c = command ∨ c = arg command "--allow-escape-sequences".

(** A receipt was read in the whole log of a job that failed an admission step. *)
Definition receipt_read (log : CommandLog) (job : WorkflowJobFailureDiagnostic) (receipt : DeferredAdmissionReceipt) : Prop :=
  ∃ c text, reads_log_of job c ∧ printed log c text ∧ is_admission_job job = true
  ∧ range_was_honored text = true ∧ response_range_is_truncated text = false
  ∧ parse_deferred_admission_receipt text = Some receipt.

(** [job] is [read] with what the log of the job adds. *)
Definition job_evidence (log : CommandLog) (read job : WorkflowJobFailureDiagnostic) : Prop :=
  ∃ status lineage deferred, job = set_evidence read status lineage deferred
  ∧ ∀ receipt, deferred = Some receipt → jd_deferred_admission read = Some receipt ∨ receipt_read log read receipt.

Definition run_evidence (log : CommandLog) (run_id : N) (d : WorkflowRunFailureDiagnostic) : Prop :=
  ∃ run jobs run_text jobs_text,
    printed log (workflow_run_command repository run_id) run_text ∧ decode_run run_text = Ok run ∧ aj_id run = run_id
    ∧ printed log (workflow_jobs_command repository run_id (aj_run_attempt run)) jobs_text ∧ decode_jobs jobs_text = Ok jobs
    ∧ foreign_job run ∅ (wj_jobs jobs) = false
    ∧ ∃ failed, Forall2 (job_evidence log) (rd_failed_jobs (run_diagnostic run expected jobs)) failed
    ∧ d = set_jobs (run_diagnostic run expected jobs) failed.

Lemma job_evidence_extends log log' read job : extends log log' → job_evidence log read job → job_evidence log' read job.
Proof.
  intros Hext (status & lineage & deferred & -> & Hreceipt). exists status, lineage, deferred. split; [done |].
  intros receipt [? | (c & text & Hc & Hp & Hrest)]%Hreceipt; [by left | right].
  exists c, text. split; [done |]. split; [by eapply printed_extends | done].
Qed.
Lemma run_evidence_extends log log' run_id d : extends log log' → run_evidence log run_id d → run_evidence log' run_id d.
Proof.
  intros Hext (run & jobs & run_text & jobs_text & Hr & ? & ? & Hj & ? & ? & failed & Hfailed & ->).
  exists run, jobs, run_text, jobs_text. split_and!; try done; [by eapply printed_extends.. |].
  exists failed. split; [| done]. eapply Forall2_impl; [exact Hfailed |]. intros ? ?. by apply job_evidence_extends.
Qed.

(** A program from [log] that only appends, with what holds of its result. *)
Definition leaves {A} (log : CommandLog) (R : A → CommandLog → Prop) (p : Prog CommandOp A) : Prop :=
  holds exec_commands (λ _, True) p (λ a log', extends log log' ∧ R a log') log.

Lemma leaves_bind {A B} log (R : A → CommandLog → Prop) (R' : B → CommandLog → Prop) (p : Prog CommandOp A) f :
  leaves log R p → (∀ a log', extends log log' → R a log' → leaves log' R' (f a)) → leaves log R' (pbind p f).
Proof.
  intros Hp Hf. apply holds_bind. eapply holds_mono; [| exact Hp]. cbn. intros a log' [Hext Ha].
  eapply holds_mono; [| by apply Hf]. cbn. intros b log'' [Hext' Hb]. split; [by etrans | done].
Qed.
Lemma leaves_try {A B E} log (R : A → CommandLog → Prop) (R' : result B E → CommandLog → Prop)
    (p : Prog CommandOp (result A E)) f :
  (∀ e log', R' (Err e) log') →
  leaves log (λ r log', match r with Ok a => R a log' | Err _ => True end) p →
  (∀ a log', extends log log' → R a log' → leaves log' R' (f a)) → leaves log R' (ebind p f).
Proof.
  intros He Hp Hf. eapply leaves_bind; [exact Hp |]. intros [a | e] log' Hext Ha; [by apply Hf |]. by split.
Qed.
Lemma leaves_ret {A} log (R : A → CommandLog → Prop) a : R a log → leaves log R (Ret a).
Proof. by split. Qed.
Lemma leaves_mono {A} log (R R' : A → CommandLog → Prop) p :
  (∀ a log', extends log log' → R a log' → R' a log') → leaves log R p → leaves log R' p.
Proof. intros HR. apply holds_mono. cbn. intros a log' [? ?]. auto. Qed.

Lemma checked_leaves {T} (decode : string → result T string) c log :
  leaves log (λ r log', match r with
                        | Ok value => ∃ text, printed log' c text ∧ decode text = Ok value
                        | Err _ => True
                        end) (checked_json decode c).
Proof.
  intros [out | e]; (split; [done |]); (split; [eauto with caravan |]); [| done].
  destruct (is_success out) eqn:Hok; [| done]. cbn. destruct (decode (out_stdout out)) eqn:Hd; [| done].
  exists (out_stdout out). split; [| done]. exists out. split_and!; [| done | done].
  apply elem_of_app. right. by apply list_elem_of_singleton.
Qed.

Lemma log_leaves job log : leaves log (λ job' log', job_evidence log' job job') (read_log repository job).
Proof.
  assert (∀ log' status, job_evidence log' job (without_log job status)) as Hwithout.
  { intros log' status. by exists status, (jd_selected_lineage job), (jd_deferred_admission job); auto. }
  assert (∀ c out log', reads_log_of job c → (c, Ok out) ∈ log' →
    job_evidence log' job
      (if negb (is_success out) || negb (range_was_honored (out_stdout out)) then without_log job LineageUnavailable
       else set_evidence job
         (if is_some_b (parse_selected_lineage_receipt (out_stdout out)) then LineageParsed
          else if response_range_is_truncated (out_stdout out) then LineageTruncated else LineageMissing)
         (parse_selected_lineage_receipt (out_stdout out))
         (if is_admission_job job && negb (response_range_is_truncated (out_stdout out))
          then parse_deferred_admission_receipt (out_stdout out) else jd_deferred_admission job))) as Hread.
  { intros c out log' Hc Hin. destruct (is_success out) eqn:Hok; [| apply Hwithout].
    destruct (range_was_honored (out_stdout out)) eqn:Hrange; [| apply Hwithout]. cbn.
    eexists _, _, _. split; [done |]. intros receipt.
    destruct (is_admission_job job) eqn:Hadmission; cbn; [| by left].
    destruct (response_range_is_truncated (out_stdout out)) eqn:Htrunc; cbn; [by left |].
    intros Hparse. right. exists c, (out_stdout out). split_and!; try done. by exists out. }
  unfold leaves, read_log. intros [out | e]; (split; [done |]); cbn [pbind perform].
  2: { split; [eauto with caravan | apply Hwithout]. }
  destruct (negb (is_success out) && _).
  - intros [out' | e]; (split; [done |]); (split; [eauto with caravan |]).
    + eapply Hread; [by right |]. apply elem_of_app. right. by apply list_elem_of_singleton.
    + eapply Hread; [by left |]. rewrite !elem_of_app. left. right. by apply list_elem_of_singleton.
  - split; [eauto with caravan |]. eapply Hread; [by left |]. apply elem_of_app. right. by apply list_elem_of_singleton.
Qed.

Lemma enrich_leaves requested jobs log :
  leaves log (λ jobs' log', Forall2 (job_evidence log') jobs jobs') (enrich_jobs repository requested jobs).
Proof.
  revert requested log. induction jobs as [| job jobs IH]; intros requested log; [by apply leaves_ret |].
  assert (∀ log' job' requested', job_evidence log' job job' →
    leaves log' (λ jobs' log'', Forall2 (job_evidence log'') (job :: jobs) jobs')
      (pbind (enrich_jobs repository requested' jobs) (λ rest, Ret (job' :: rest)))) as Hcons.
  { intros log' job' requested' Hjob. eapply leaves_bind; [apply IH |]. intros rest log'' Hext Hrest.
    apply leaves_ret. constructor; [by eapply job_evidence_extends | done]. }
  assert (∀ log' status, job_evidence log' job (without_log job status)) as Hwithout.
  { intros log' status. by exists status, (jd_selected_lineage job), (jd_deferred_admission job); auto. }
  cbn [enrich_jobs]. destruct (_ && _).
  { apply Hcons. exists (jd_lineage_evidence_status job), (jd_selected_lineage job), (jd_deferred_admission job).
    split; [by destruct job | auto]. }
  destruct (_ <=? _); [apply Hcons, Hwithout |].
  eapply leaves_bind; [apply log_leaves |]. intros job' log' _ Hjob. by apply Hcons.
Qed.

Lemma run_leaves run_id log :
  leaves log (λ r log', match r with Ok d => run_evidence log' run_id d | Err _ => True end)
    (diagnose_run repository expected run_id).
Proof.
  unfold diagnose_run. eapply leaves_try; [done | apply checked_leaves |].
  intros run log1 _ (run_text & Hrun & Hdrun). destruct (_ || _) eqn:Hid; [by apply leaves_ret |].
  apply orb_false_iff in Hid as [[[_ Hid]%orb_false_iff _]%orb_false_iff _]. apply negb_false_iff, N.eqb_eq in Hid.
  eapply leaves_try; [done | apply checked_leaves |]. intros jobs log2 Hext2 (jobs_text & Hjobs & Hdjobs).
  destruct (foreign_job run ∅ (wj_jobs jobs)) eqn:Hforeign; [by apply leaves_ret |].
  eapply (leaves_bind _ (λ d log', run_evidence log' run_id d)); [| intros d log3 _ Hd; by apply leaves_ret].
  unfold enrich_lineage_receipts. eapply leaves_bind; [apply enrich_leaves |].
  intros failed log3 Hext3 Hfailed. apply leaves_ret. exists run, jobs, run_text, jobs_text.
  split_and!; try done; [eapply printed_extends; [| exact Hrun]; by etrans | by eapply printed_extends |]. by exists failed.
Qed.

Lemma runs_leaves run_ids log :
  leaves log (λ r log', match r with Ok ds => Forall2 (run_evidence log') run_ids ds | Err _ => True end)
    (diagnose_runs repository expected run_ids).
Proof.
  revert log. induction run_ids as [| run_id run_ids IH]; intros log; [by apply leaves_ret |]. cbn [diagnose_runs].
  eapply leaves_try; [done | apply run_leaves |]. intros d log1 _ Hd.
  eapply leaves_try; [done | apply IH |]. intros ds log2 Hext Hds. apply leaves_ret.
  constructor; [by eapply run_evidence_extends | done].
Qed.

Lemma diagnosis_evidence run_ids choices response log :
  drive exec_commands choices (diagnose_failed_runs repository expected run_ids) [] = (Some (Ok response), log) →
  ∀ d, d ∈ fd_runs response → ∃ run_id, run_id ∈ run_ids ∧ run_evidence log run_id d.
Proof.
  intros Hrun d Hd.
  destruct (drive_holds exec_commands (λ _, True) (diagnose_failed_runs repository expected run_ids)
    (λ r log', match r with
               | Ok response => Forall2 (run_evidence log') (take MAX_DIAGNOSTIC_RUNS (bs_elems (list_to_set run_ids))) (fd_runs response)
               | Err _ => True
               end) choices []) as [_ Hall]; [done | |].
  - eapply holds_mono; [| eapply (leaves_try [] _ (λ r log', match r with Ok response => _ | Err _ => True end));
      [done | apply runs_leaves |]].
    + cbn. intros r log' [_ HR]. exact HR.
    + intros ds log' _ Hds. by apply leaves_ret.
  - rewrite Hrun in Hall. specialize (Hall _ eq_refl). cbn in Hall.
    apply list_elem_of_lookup in Hd as [i Hi]. destruct (Forall2_lookup_r _ _ _ _ _ Hall Hi) as (run_id & Hid & Hevidence).
    exists run_id. split; [| done]. apply list_elem_of_lookup_2, elem_of_take in Hid as (j & Hid & _).
    apply (elem_of_list_to_set (C := gset N)), elem_of_bs_elems. by eapply list_elem_of_lookup_2.
Qed.

Lemma proven_deferred_facts d job :
  proven_deferred_job d = Some job →
  ∃ receipt, rd_failed_jobs d = [job] ∧ jd_deferred_admission job = Some receipt
  ∧ rd_status d = "completed" ∧ rd_conclusion d = "failure" ∧ rd_event d = "pull_request" ∧ rd_jobs_truncated d = false
  ∧ da_pr receipt = rd_expected_pr d ∧ da_head_oid receipt = rd_expected_head_oid d
  ∧ da_head_oid receipt = rd_head_sha d ∧ da_base_oid receipt = rd_expected_base_oid d.
Proof.
  unfold proven_deferred_job. destruct (rd_failed_jobs d) as [| job' [|]]; [done | | done].
  destruct (jd_deferred_admission job') as [receipt |] eqn:Hreceipt; [cbn [mbind option_bind] | done].
  destruct (jd_failed_steps job') as [| step [|]]; [done | | done].
  destruct (_ && _) eqn:Hall; [intros [= ->] | done]. bool_prop. exists receipt.
  repeat match goal with H : String.eqb _ _ = true |- _ => apply String.eqb_eq in H end. by split_and!.
Qed.

(** The job of a run that did not succeed, by the listing of its jobs. *)
Definition failed_of (jobs : WorkflowJobsApiJson) : list WorkflowJobJson :=
  List.filter (λ job, failure_conclusion (default "" (jj_conclusion job))) (wj_jobs jobs).

(** C27. A deferral is proven by what was read. Whatever the commands answered, a
    run of a diagnosis that counts as a proven deferral is one of the requested
    runs; its reading shows a completed, failed pull-request run of the expected
    head; the listing of the jobs of that attempt is whole, belongs to the run
    and has one job that did not succeed; and the log of that job, answered as
    the requested range and not cut short, holds the receipt of exactly the
    expected pull request, head and base. *)
Theorem deferral_is_proven run_ids choices response log d job :
  drive exec_commands choices (diagnose_failed_runs repository expected run_ids) [] = (Some (Ok response), log) →
  d ∈ fd_runs response → proven_deferred_job d = Some job →
  rd_run_id d ∈ run_ids ∧
  ∃ run jobs run_text jobs_text failed c text receipt,
    printed log (workflow_run_command repository (rd_run_id d)) run_text ∧ decode_run run_text = Ok run
    ∧ aj_id run = rd_run_id d ∧ aj_status run = "completed" ∧ aj_conclusion run = Some "failure"
    ∧ aj_event run = "pull_request" ∧ aj_head_sha run = pc_head_oid expected
    ∧ printed log (workflow_jobs_command repository (rd_run_id d) (aj_run_attempt run)) jobs_text
    ∧ decode_jobs jobs_text = Ok jobs ∧ foreign_job run ∅ (wj_jobs jobs) = false
    ∧ wj_total_count jobs = N.of_nat (length (wj_jobs jobs)) ∧ (wj_total_count jobs ≤ 100)%N
    ∧ failed_of jobs = [failed] ∧ jj_id failed = jd_job_id job ∧ jj_name failed = jd_name job
    ∧ reads_log_of job c ∧ printed log c text ∧ range_was_honored text = true ∧ response_range_is_truncated text = false
    ∧ parse_deferred_admission_receipt text = Some receipt ∧ da_pr receipt = pc_number expected
    ∧ da_head_oid receipt = pc_head_oid expected ∧ da_base_oid receipt = pc_base_oid expected.
Proof.
  intros Hrun Hd Hjob. destruct (diagnosis_evidence _ _ _ _ Hrun d Hd)
    as (run_id & Hid & run & jobs & run_text & jobs_text & Hr & Hdr & Hrid & Hj & Hdj & Hforeign & failed & Hfailed & ->).
  apply proven_deferred_facts in Hjob as (receipt & Hone & Hreceipt & Hstatus & Hconclusion & Hevent & Hwhole & Hpr & Hhead & Hsha & Hbase).
  cbn in *. subst failed run_id. apply Forall2_cons_inv_r in Hfailed as (read & rest & (status & lineage & deferred & -> & Hlog) & Hrest & Heq).
  apply Forall2_nil_inv_r in Hrest as ->.
  apply orb_false_iff in Hwhole as [[Htotal Hmany]%orb_false_iff Hhundred].
  apply negb_false_iff, N.eqb_eq in Htotal. apply N.ltb_ge in Hhundred. apply Nat.ltb_ge in Hmany.
  rewrite take_ge in Heq by done.
  destruct (List.filter _ (wj_jobs jobs)) as [| failed [|]] eqn:Hfilter; [done | | done]. injection Heq as <-.
  destruct (Hlog receipt Hreceipt) as [Hnone | (c & text & Hc & Hp & _ & Hrange & Htrunc & Hparse)]; [done |].
  split; [done |]. exists run, jobs, run_text, jobs_text, failed, c, text, receipt.
  split_and!; try done; try congruence. destruct (aj_conclusion run); cbn in Hconclusion; [by subst | done].
Qed.
End diagnosis.

(** ** A concrete diagnosis *)

Definition sample_oid : string := "0123456789abcdef0123456789abcdef01234567".
Definition sample_expected : PullRequestPrecondition :=
  mkPullRequestPrecondition 12 Open None sample_oid "main" sample_oid ∅ [] auto_merge_disabled.
Definition sample_run : WorkflowRunApiJson :=
  mkRunJson 7 1 3 5 "CI" "pull_request" "completed" (Some "failure") "feature" sample_oid [].
Definition sample_step : WorkflowStepJson :=
  mkStepJson 1 "Defer unjoined PR or require protected CI" "completed" (Some "failure").
Definition sample_jobs : WorkflowJobsApiJson :=
  mkJobsJson 2
    [mkJobJson 8 7 sample_oid "build" "completed" (Some "skipped") "u" None [] [];
     mkJobJson 9 7 sample_oid "gate" "completed" (Some "failure") "u" None [] [sample_step]].
#[local] Instance sample_json : CiJson := {
  decode_run _ := Ok sample_run;
  decode_jobs _ := Ok sample_jobs }.

Definition text_lines (l : list string) : string := fmt ((λ line, line +:+ String line_feed "") <$> l).
Definition sample_text : string :=
  text_lines ["HTTP/2 206 Partial"; "Content-Range: bytes 0-99/100"; "";
    receipt_line (mkDeferredAdmission 12 sample_oid sample_oid Unjoined); EXIT_LINE].
Definition answer (text : string) : Ran := Ok (mkCommandOutput (Some 0%Z) text "").
Definition sample_answers : list Ran := [answer ""; answer ""; answer sample_text].
Definition sample_diagnosis : option (result WorkflowFailureDiagnostics DiscoveryError) * CommandLog :=
  drive exec_commands sample_answers (diagnose_failed_runs (mkRepositoryId "o" "r") sample_expected [7%N]) [].

Lemma deferral_is_proven_witness :
  ∃ response log d job, sample_diagnosis = (Some (Ok response), log)
  ∧ d ∈ fd_runs response ∧ proven_deferred_job d = Some job ∧ rd_run_id d ∈ [7%N].
Proof.
  destruct sample_diagnosis as [[[response | e] |] log] eqn:Hrun; [| vm_compute in Hrun; discriminate..].
  destruct response as [ids [| d [|]] truncated]; [vm_compute in Hrun; discriminate | | vm_compute in Hrun; discriminate].
  assert (is_some_b (proven_deferred_job d) = true) as Hsome.
  { assert (existsb (λ d, is_some_b (proven_deferred_job d))
      (match sample_diagnosis.1 with Some (Ok r) => fd_runs r | _ => [] end) = true) as Hx by (vm_compute; reflexivity).
    rewrite Hrun in Hx. cbn in Hx. by rewrite orb_false_r in Hx. }
  destruct (proven_deferred_job d) as [job |] eqn:Hjob; [| done].
  exists (mkFailureDiagnostics ids [d] truncated), log, d, job. split_and!; [done | apply list_elem_of_here | done |].
  apply (deferral_is_proven (mkRepositoryId "o" "r") sample_expected [7%N] sample_answers
    (mkFailureDiagnostics ids [d] truncated) log d job Hrun); [apply list_elem_of_here | done].
Defined.
