(* ===== verification/CiClassify.v ===== *)
(** The verdict on the CI of one pull request: the diagnosis of failed runs and
    the reduction of check rows to workflow generations in src/src/sync.rs.

    [diagnose] is what [observe_ci] does after the required checks were assessed;
    the landing takes it as the operation [diagnose_ci] of its provider. *)

From Stdlib Require Import Ascii String.
From S2P Require Import Prelude Text Model Lineage RequiredRuns Landing CiEvidence.

#[local] Open Scope string_scope.
#[local] Open Scope list_scope.
#[local] Open Scope nat_scope.
#[local] Open Scope caravan_scope.

#[export] Instance check_snapshot_eq_dec : EqDecision CheckSnapshot.
Proof. solve_decision. Defined.

(** ** Data *)

Inductive WorkflowRunGeneration := RunCurrent | RunStaleHead | RunStaleBase | RunStaleHeadAndBase | MissingAssociation.
#[export] Instance WorkflowRunGeneration_eq_dec : EqDecision WorkflowRunGeneration.
Proof. solve_decision. Defined.
Inductive WorkflowFailureClass :=
| StaleGenerationClass | RetryableInfrastructure | SourceOrTestFailure | DeferredAdmission | CancelledClass | UnknownClass.
#[export] Instance WorkflowFailureClass_eq_dec : EqDecision WorkflowFailureClass.
Proof. solve_decision. Defined.
Inductive WorkflowFailureAction := FreshCandidateTrigger | RerunFailedJobs | RepairSource | WaitOrInspect.
#[export] Instance WorkflowFailureAction_eq_dec : EqDecision WorkflowFailureAction.
Proof. solve_decision. Defined.

Record ClassifiedWorkflowRunFailure := mkClassified {
  cf_diagnostic : WorkflowRunFailureDiagnostic;
  cf_generation : WorkflowRunGeneration;
  cf_classification : WorkflowFailureClass;
  cf_action : WorkflowFailureAction;
  cf_reasons : list string }.

Record CiGenerationSelection := mkSelection {
  sel_workflow_run : WorkflowRunLineage;
  sel_check_suite : CheckSuiteLineage }.

Record CiCancellationSummary := mkCancellation {
  cc_cancelled_checks : list string;
  cc_failures_without_failing_step : list string;
  cc_cancellation_only : bool }.
Definition cancellation_observed (s : CiCancellationSummary) : bool :=
  negb (bool_decide (cc_cancelled_checks s = [])) || negb (bool_decide (cc_failures_without_failing_step s = [])).

(** Of a workflow run of the provider's listing. *)
Record WorkflowRunSnapshot := mkRunSnapshot {
  ws_database_id : N;
  ws_pull_requests : list PrNumber;
  ws_head_sha : string;
  ws_status : string;
  ws_conclusion : string;
  ws_event : string;
  ws_name : string;
  ws_workflow_name : string;
  ws_url : string }.

(** ** Failed runs *)

Definition stale_generation (stale_head stale_base : bool) : WorkflowRunGeneration :=
  match stale_head, stale_base with
  | true, true => RunStaleHeadAndBase | true, false => RunStaleHead | false, true => RunStaleBase | false, false => RunCurrent
  end.

Definition workflow_run_generation (d : WorkflowRunFailureDiagnostic) : WorkflowRunGeneration * list string :=
  match List.find (λ association, (as_pr association =? rd_expected_pr d)%N) (rd_pull_requests d) with
  | None => (MissingAssociation, ["run has no immutable association for the expected PR"])
  | Some association =>
      let stale_head := is_some_and (as_head_oid association) (λ oid, negb (String.eqb oid (rd_expected_head_oid d))) in
      let stale_base := is_some_and (as_base_oid association) (λ oid, negb (String.eqb oid (rd_expected_base_oid d))) in
      (stale_generation stale_head stale_base,
       (if stale_head then [fmt ["run PR head "; default "missing" (as_head_oid association);
                                 " does not match current head "; rd_expected_head_oid d]] else [])
       ++ (if stale_base then [fmt ["run PR base "; default "missing" (as_base_oid association);
                                    " does not match current base "; rd_expected_base_oid d]] else []))
  end.

Definition has_completed_failing_step (d : WorkflowRunFailureDiagnostic) : bool :=
  existsb (λ job, eq_ignore_ascii_case (jd_status job) "completed" && eq_ignore_ascii_case (jd_conclusion job) "failure"
    && existsb (λ step, eq_ignore_ascii_case (sd_status step) "completed"
                        && eq_ignore_ascii_case (sd_conclusion step) "failure") (jd_failed_steps job)) (rd_failed_jobs d).

Definition INFRA_CONCLUSIONS : list string :=
  ["timed_out"; "startup_failure"; "stale"; "action_required"; "cancelled"; "canceled"].
Definition conclusion_is_infra (value : string) : bool := existsb (eq_ignore_ascii_case value) INFRA_CONCLUSIONS.
Definition retryable_infrastructure (d : WorkflowRunFailureDiagnostic) : bool :=
  if has_completed_failing_step d then false
  else
    let failed_without_a_failing_job :=
      negb (0 =? length (rd_failed_jobs d)) || (rd_jobs_total d =? 0)%N || rd_jobs_truncated d in
    if negb failed_without_a_failing_job then true
    else conclusion_is_infra (rd_conclusion d) || existsb (λ job, conclusion_is_infra (jd_conclusion job)) (rd_failed_jobs d).

(** The lineage receipt of a job, when one was read: the generation it shows and
    the reason it adds. *)
Definition apply_selected_lineage_receipt (d : WorkflowRunFailureDiagnostic) (generation : WorkflowRunGeneration)
    : bool * WorkflowRunGeneration * list string :=
  match find_map jd_selected_lineage (rd_failed_jobs d) with
  | None => (false, generation, [])
  | Some receipt =>
      let stale_base := negb (opt_eqb (sl_parents receipt !! 0) (Some (rd_expected_base_oid d)))
                        || negb (String.eqb (sl_expected_base receipt) (rd_expected_base_oid d)) in
      let stale_head := negb (opt_eqb (sl_parents receipt !! 1) (Some (rd_expected_head_oid d)))
                        || negb (String.eqb (sl_expected_head receipt) (rd_expected_head_oid d)) in
      (true, if stale_base || stale_head then stale_generation stale_head stale_base else generation,
       [fmt ["bounded lineage receipt selected ref "; sl_selected_ref receipt; " commit "; sl_selected_commit receipt;
             " with parents ["; join ", " (sl_parents receipt); "]"]])
  end.

(** What the merge candidate says of the generation: the generation, whether its
    lineage is unknown, and reasons. *)
Definition candidate_generation (d : WorkflowRunFailureDiagnostic) (candidate : option MergeCandidateIdentity)
    (generation : WorkflowRunGeneration) : WorkflowRunGeneration * bool * list string :=
  match candidate with
  | None => (generation, false, [])
  | Some candidate =>
      if negb (mc_pr candidate =? rd_expected_pr d)%N then
        (MissingAssociation, false,
         [fmt ["candidate identity belongs to PR "; pretty (mc_pr candidate); ", expected "; pretty (rd_expected_pr d)]])
      else if mc_stale_head candidate || mc_stale_base candidate then
        (stale_generation (mc_stale_head candidate) (mc_stale_base candidate), false,
         (λ reason, "current synthetic candidate is stale: " +:+ reason) <$> mc_stale_reasons candidate)
      else match mc_freshness candidate with
           | MissingCandidate | UnknownFreshness =>
               (generation, true, ["current synthetic candidate lineage is missing or unknown"])
           | _ => (generation, false, [])
           end
  end.

(** The class of a run of the current generation, with its reason. *)
Definition classify_current (d : WorkflowRunFailureDiagnostic) (deferred unknown_lineage lineage_receipt : bool)
    : WorkflowFailureClass * WorkflowFailureAction * string :=
  let failed_lineage_step :=
    existsb (λ job, existsb (λ step, is_lineage_step (sd_name step)) (jd_failed_steps job)) (rd_failed_jobs d) in
  if deferred && negb unknown_lineage then
    (DeferredAdmission, WaitOrInspect, "exact gate-only deferral: CI is unevaluated until membership")
  else if failed_lineage_step && negb lineage_receipt then
    (UnknownClass, FreshCandidateTrigger,
     "lineage verification failed while " +:+
     (if unknown_lineage then "current candidate identity and bounded lineage receipt are unavailable"
      else "bounded lineage receipt is unavailable"))
  else if has_completed_failing_step d then
    (SourceOrTestFailure, RepairSource, "a completed failing job/step vetoes infrastructure recovery")
  else if eq_ignore_ascii_case (rd_conclusion d) "cancelled" then
    (CancelledClass, FreshCandidateTrigger, "current-generation run was cancelled")
  else if (rd_jobs_total d =? 0)%N || rd_jobs_truncated d || existsb jd_steps_truncated (rd_failed_jobs d) then
    (UnknownClass, WaitOrInspect, "incomplete job/step evidence cannot prove pure infrastructure failure")
  else if retryable_infrastructure d then
    (RetryableInfrastructure, RerunFailedJobs, "structured job conclusion indicates retryable infrastructure")
  else if 0 =? length (rd_failed_jobs d) then
    (UnknownClass, WaitOrInspect, "provider exposed no bounded failed job/step evidence")
  else (SourceOrTestFailure, RepairSource, "current-generation jobs contain source or test failures").

Definition classify_workflow_failure (d : WorkflowRunFailureDiagnostic) (candidate : option MergeCandidateIdentity)
    : ClassifiedWorkflowRunFailure :=
  let '(generation, reasons) := workflow_run_generation d in
  let deferred := is_some_b (proven_deferred_job d) in
  let generation := if deferred && bool_decide (generation = MissingAssociation) then RunCurrent else generation in
  let '(generation, unknown_lineage, candidate_reasons) := candidate_generation d candidate generation in
  let '(lineage_receipt, generation, receipt_reasons) := apply_selected_lineage_receipt d generation in
  let reasons := reasons ++ candidate_reasons ++ receipt_reasons in
  if negb (bool_decide (generation = RunCurrent)) then
    mkClassified d generation StaleGenerationClass FreshCandidateTrigger reasons
  else
    let '(classification, action, reason) := classify_current d deferred unknown_lineage lineage_receipt in
    mkClassified d generation classification action (reasons ++ [reason]).

(** The runs a restart of failed jobs may recover. *)
Definition infrastructure_recovery_run_ids (diagnostics : list ClassifiedWorkflowRunFailure) : list N :=
  if existsb (λ d, match cf_classification d with SourceOrTestFailure | UnknownClass => true | _ => false end) diagnostics
  then []
  else bs_elems (list_to_set ((λ d, rd_run_id (cf_diagnostic d)) <$>
         List.filter (λ d, bool_decide (cf_action d = RerunFailedJobs)) diagnostics) : gset N).

(** ** Check rows *)

Definition check_is_failure (check : CheckSnapshot) : bool :=
  match ck_state check with
  | CheckFailure | CheckCancelled | CheckTimedOut | CheckActionRequired | CheckUnknown => true
  | _ => false
  end.
Definition check_is_pending (check : CheckSnapshot) : bool :=
  match ck_state check with CheckExpected | CheckQueued | CheckInProgress => true | _ => false end.

Definition classify_checks (checks : list CheckSnapshot) (forced : bool) : CiDisposition :=
  if forced then CiForced
  else
    let current := (latest_checks_per_identity checks).1 in
    if existsb check_is_failure current then CiFailed
    else if (0 =? length current) || existsb check_is_pending current then CiWaiting
    else CiPassing.

Definition select_rerunnable_run_ids (checks : list CheckSnapshot) (runs : list WorkflowRunSnapshot) : list N :=
  let failed_run_ids : gset N := list_to_set (ws_database_id <$> runs) in
  bs_elems (list_to_set (List.filter (λ run_id, bool_decide (run_id ∈ failed_run_ids))
    (omap details_run_id (List.filter check_is_failure checks))) : gset N).

Definition stepless (d : ClassifiedWorkflowRunFailure) : bool :=
  forallb (λ job, 0 =? length (jd_failed_steps job)) (rd_failed_jobs (cf_diagnostic d)).
Definition classify_cancellation (checks : list CheckSnapshot) (diagnostics : list ClassifiedWorkflowRunFailure)
    : CiCancellationSummary :=
  let current := (latest_checks_per_identity checks).1 in
  let cancelled_checks := ck_name <$> List.filter (λ check, bool_decide (ck_state check = CheckCancelled)) current in
  let failures_without_failing_step := (λ d, rd_workflow_name (cf_diagnostic d)) <$> List.filter stepless diagnostics in
  let judged_failure_exists := existsb (λ check, bool_decide (ck_state check = CheckFailure)) current
                               && existsb (λ d, negb (stepless d)) diagnostics in
  mkCancellation cancelled_checks failures_without_failing_step
    (negb judged_failure_exists
     && (negb (0 =? length cancelled_checks) || negb (0 =? length failures_without_failing_step))).

(** ** Generations *)

Definition provider_generation_is_complete (status : string) : bool := eq_ignore_ascii_case status "completed".
Definition successful_generation_conclusion (conclusion : string) : bool :=
  existsb (eq_ignore_ascii_case conclusion) ["success"; "neutral"; "skipped"].

Definition generation_check_state (run : WorkflowRunLineage) (suite : CheckSuiteLineage) : CheckState :=
  let either conclusion := eq_ignore_ascii_case (wr_conclusion run) conclusion
                           || eq_ignore_ascii_case (cs_conclusion suite) conclusion in
  if negb (provider_generation_is_complete (wr_status run)) || negb (provider_generation_is_complete (cs_status suite))
  then CheckInProgress
  else if successful_generation_conclusion (wr_conclusion run) && successful_generation_conclusion (cs_conclusion suite)
  then CheckSuccess
  else if either "cancelled" || either "stale" then CheckCancelled
  else if either "timed_out" then CheckTimedOut
  else if either "action_required" then CheckActionRequired
  else if str_is_empty (wr_conclusion run) || str_is_empty (cs_conclusion suite) then CheckUnknown
  else CheckFailure.

Definition has_exact_unambiguous_lineage (lineage : HeadRunLineage) (head_oid : string) : bool :=
  hl_complete lineage && String.eqb (hl_head_sha lineage) head_oid
  && negb (has_duplicate_ids (wr_run_id <$> hl_workflow_runs lineage))
  && negb (has_duplicate_ids (cs_id <$> hl_check_suites lineage)).

Record CiGenerationEvidence := mkGenerationEvidence {
  ge_effective_checks : list CheckSnapshot;
  ge_superseded_checks : list CheckSnapshot;
  ge_selected_generations : list CiGenerationSelection }.

Abbreviation Selected := (gmap string (WorkflowRunLineage * CheckSuiteLineage)).
Definition own_runs (lineage : HeadRunLineage) (head_oid : string) : list WorkflowRunLineage :=
  List.filter (λ run, String.eqb (wr_head_sha run) head_oid && negb (str_is_empty (wr_workflow_name run)))
    (hl_workflow_runs lineage).
Definition suites_by_id (lineage : HeadRunLineage) (head_oid : string) : gmap N CheckSuiteLineage :=
  foldl (λ m suite, <[cs_id suite := suite]> m) ∅
    (List.filter (λ suite, String.eqb (cs_head_sha suite) head_oid) (hl_check_suites lineage)).
Definition select_run (suites : gmap N CheckSuiteLineage) (newest : Selected) (run : WorkflowRunLineage) : Selected :=
  match suites !! wr_check_suite_id run with
  | None => newest
  | Some suite =>
      match newest !! wr_workflow_name run with
      | Some current => if (wr_run_id current.1 <? wr_run_id run)%N
                        then <[wr_workflow_name run := (run, suite)]> newest else newest
      | None => <[wr_workflow_name run := (run, suite)]> newest
      end
  end.
Definition newest_by_workflow (lineage : HeadRunLineage) (head_oid : string) : Selected :=
  foldl (select_run (suites_by_id lineage head_oid)) ∅ (own_runs lineage head_oid).
Definition workflow_by_run (lineage : HeadRunLineage) (head_oid : string) : gmap N string :=
  foldl (λ m run, <[wr_run_id run := wr_workflow_name run]> m) ∅ (own_runs lineage head_oid).

(** The workflow a check row belongs to. *)
Definition workflow_of (by_run : gmap N string) (check : CheckSnapshot) : option string :=
  match ck_workflow_name check with
  | Some workflow => Some workflow
  | None => id ← details_run_id check; by_run !! id
  end.
(** The workflow whose selected generation replaces a row. *)
Definition owner_of (newest : Selected) (by_run : gmap N string) (check : CheckSnapshot) : option string :=
  workflow ← workflow_of by_run check;
  selected ← newest !! workflow;
  id ← details_run_id check;
  if (id <=? wr_run_id selected.1)%N then Some workflow else None.

Abbreviation Names := (gmap string (gset (string * option N))).
Record Sorted := mkSorted {
  so_effective : list CheckSnapshot;
  so_superseded : list CheckSnapshot;
  so_names : Names }.
Definition sort_check (newest : Selected) (by_run : gmap N string) (s : Sorted) (check : CheckSnapshot) : Sorted :=
  match owner_of newest by_run check with
  | Some workflow =>
      mkSorted (so_effective s)
        (if bool_decide (check ∈ so_superseded s) then so_superseded s else so_superseded s ++ [check])
        (<[workflow := {[ (ck_name check, ck_app_id check) ]} ∪ default ∅ (so_names s !! workflow)]> (so_names s))
  | None => mkSorted (so_effective s ++ [check]) (so_superseded s) (so_names s)
  end.

(** The row that stands for a generation under one name. *)
Definition generation_vote (head_oid workflow_name : string) (run : WorkflowRunLineage) (suite : CheckSuiteLineage)
    (name : string) (app_id : option N) : CheckSnapshot :=
  mkCheckSnapshot name (generation_check_state run suite)
    (Some (fmt ["run="; wr_status run; "/"; wr_conclusion run; " suite="; cs_status suite; "/"; cs_conclusion suite]))
    (Some ("/actions/runs/" +:+ pretty (wr_run_id run))) (Some "WorkflowRunLineage") (Some workflow_name)
    app_id (Some (cs_id suite)) (Some head_oid) None None false.
Definition generation_votes (head_oid : string) (names : Names) (entry : string * (WorkflowRunLineage * CheckSuiteLineage))
    : list CheckSnapshot :=
  let '(workflow_name, (run, suite)) := entry in
  let names := default {[ ("workflow generation: " +:+ workflow_name, None) ]} (names !! workflow_name) in
  (λ '(name, app_id), generation_vote head_oid workflow_name run suite name app_id) <$> bs_elems names.

Definition ci_generation_evidence (checks : list CheckSnapshot) (head_oid : string) (lineage : option HeadRunLineage)
    : CiGenerationEvidence :=
  let raw := mkGenerationEvidence checks (latest_checks_per_identity checks).2 [] in
  match lineage with
  | None => raw
  | Some lineage =>
      if negb (has_exact_unambiguous_lineage lineage head_oid) then raw
      else
        let newest := newest_by_workflow lineage head_oid in
        if bool_decide (newest = ∅) then raw
        else
          let sorted := foldl (sort_check newest (workflow_by_run lineage head_oid))
                          (mkSorted [] (ge_superseded_checks raw) ∅) checks in
          mkGenerationEvidence
            (so_effective sorted ++ (bt_entries newest ≫= generation_votes head_oid (so_names sorted)))
            (so_superseded sorted)
            ((λ entry, mkSelection entry.2.1 entry.2.2) <$> bt_entries newest)
  end.

(** ** Proven deferrals *)

Definition UNEVALUATED : string := "unevaluated: deferred_unjoined; awaiting membership".
Definition is_vote (check : CheckSnapshot) : bool := opt_eqb (ck_provider_kind check) (Some "WorkflowRunLineage").
Definition of_run (run_id : N) (check : CheckSnapshot) : bool := opt_eqb (details_run_id check) (Some run_id).

Definition selects_run (d : WorkflowRunFailureDiagnostic) (selection : CiGenerationSelection) : bool :=
  let run := sel_workflow_run selection in
  (wr_run_id run =? rd_run_id d)%N && (wr_check_suite_id run =? rd_check_suite_id d)%N
  && String.eqb (wr_head_sha run) (rd_head_sha d) && String.eqb (wr_workflow_name run) (rd_workflow_name d)
  && String.eqb (wr_event run) (rd_event d)
  && bool_decide (generation_check_state run (sel_check_suite selection) = CheckFailure).

(** The deferral of [diagnostic] may replace the votes of its run. *)
Definition deferral_stands (evidence : CiGenerationEvidence) (raw : list CheckSnapshot)
    (diagnostics : list ClassifiedWorkflowRunFailure) (diagnostic : ClassifiedWorkflowRunFailure) : bool :=
  let d := cf_diagnostic diagnostic in
  bool_decide (cf_classification diagnostic = DeferredAdmission)
  && match proven_deferred_job d with
     | None => false
     | Some job =>
         (length (List.filter (selects_run d) (ge_selected_generations evidence)) =? 1)
         && (length (List.filter (λ other, (rd_run_id (cf_diagnostic other) =? rd_run_id d)%N) diagnostics) =? 1)
         && existsb (λ check, String.eqb (ck_name check) (jd_name job) && bool_decide (ck_state check = CheckFailure)
                              && negb (is_vote check) && of_run (rd_run_id d) check) raw
         && negb (existsb (λ check, negb (is_vote check) && of_run (rd_run_id d) check
                                    && negb (String.eqb (ck_name check) (jd_name job)) && check_is_failure check) raw)
     end.

Definition unevaluate (run_id : N) (check : CheckSnapshot) : CheckSnapshot :=
  if is_vote check && of_run run_id check
  then mkCheckSnapshot (ck_name check) CheckInProgress (Some UNEVALUATED) (ck_details_url check) (ck_provider_kind check)
         (ck_workflow_name check) (ck_app_id check) (ck_check_suite_id check) (ck_head_oid check) (ck_started_at check)
         (ck_completed_at check) (ck_superseded check)
  else check.
Definition reduce_proven_deferred_generations (evidence : CiGenerationEvidence) (raw : list CheckSnapshot)
    (diagnostics : list ClassifiedWorkflowRunFailure) : CiGenerationEvidence :=
  foldl (λ evidence diagnostic,
    if deferral_stands evidence raw diagnostics diagnostic
    then mkGenerationEvidence (unevaluate (rd_run_id (cf_diagnostic diagnostic)) <$> ge_effective_checks evidence)
           (ge_superseded_checks evidence) (ge_selected_generations evidence)
    else evidence) evidence diagnostics.

(** ** The diagnosis *)

Record CiDiagnosis := mkDiagnosis {
  dg_effective_checks : list CheckSnapshot;
  dg_superseded_checks : list CheckSnapshot;
  dg_selected_generations : list CiGenerationSelection;
  dg_failed_runs : list WorkflowRunSnapshot;
  dg_failure_diagnostics : list ClassifiedWorkflowRunFailure;
  dg_rerunnable_run_ids : list N;
  dg_cancellation : CiCancellationSummary }.

(** The two reads of the forge. *)
Class CiProvider (W E : Type) := {
  failed_runs_for_pull_request : RepositoryId → PullRequestPrecondition → W → result (list WorkflowRunSnapshot) E * W;
  failed_run_diagnostics : RepositoryId → PullRequestPrecondition → list N → W → result WorkflowFailureDiagnostics E * W }.

Definition truncate_jobs (d : WorkflowRunFailureDiagnostic) : WorkflowRunFailureDiagnostic :=
  mkRunDiagnostic (rd_run_id d) (rd_attempt d) (rd_workflow_id d) (rd_check_suite_id d) (rd_workflow_name d) (rd_event d)
    (rd_status d) (rd_conclusion d) (rd_head_branch d) (rd_head_sha d) (rd_expected_pr d) (rd_expected_head_oid d)
    (rd_expected_base_oid d) (rd_pull_requests d) (rd_failed_jobs d) (rd_jobs_total d) true.

(** The verdict when the reads were made: a failed disposition becomes a wait
    only for a proven deferral. *)
Definition conclude_ci (checks : list CheckSnapshot) (head_oid : string) (lineage : option HeadRunLineage)
    (disposition : CiDisposition) (failed_runs : list WorkflowRunSnapshot)
    (failure_diagnostics : list ClassifiedWorkflowRunFailure) : CiDisposition * CiDiagnosis :=
  let generation := reduce_proven_deferred_generations (ci_generation_evidence checks head_oid lineage) checks failure_diagnostics in
  let effective := ge_effective_checks generation in
  let deferred :=
    bool_decide (disposition = CiFailed) && bool_decide (classify_checks effective false = CiWaiting)
    && existsb (λ d, bool_decide (cf_classification d = DeferredAdmission)) failure_diagnostics in
  (if deferred then CiWaiting else disposition,
   mkDiagnosis effective (ge_superseded_checks generation) (ge_selected_generations generation) failed_runs failure_diagnostics
     (infrastructure_recovery_run_ids failure_diagnostics) (classify_cancellation effective failure_diagnostics)).

Definition diagnose {W E} `{!CiProvider W E} (repository : RepositoryId) (candidates : gmap PrNumber MergeCandidateIdentity)
    (current : PullRequestSnapshot) (policy : RequiredContextsRead) (lineage : option HeadRunLineage)
    (disposition : CiDisposition) (w : W) : result (CiDisposition * CiDiagnosis) E * W :=
  let head := br_oid (pr_head current) in
  let checks := required_checks policy (pr_checks current) head in
  let expected := precondition_of current in
  let '(failed_runs, w) :=
    match disposition with
    | CiFailed | CiForced => failed_runs_for_pull_request repository expected w
    | _ => (Ok [], w)
    end in
  match failed_runs with
  | Err e => (Err e, w)
  | Ok failed_runs =>
      let failed_runs := dedup_by_key ws_database_id (sort_by_key ws_database_id failed_runs) in
      let selected := select_rerunnable_run_ids checks failed_runs in
      let '(response, w) :=
        if 0 =? length selected then (Ok (mkFailureDiagnostics [] [] false), w)
        else failed_run_diagnostics repository expected selected w in
      match response with
      | Err e => (Err e, w)
      | Ok response =>
          let runs := if fd_runs_truncated response then truncate_jobs <$> fd_runs response else fd_runs response in
          (Ok (conclude_ci checks head lineage disposition failed_runs
                 ((λ d, classify_workflow_failure d (candidates !! pr_number current)) <$> runs)), w)
      end
  end.

(** ** The deferred gate of an observation *)

Record GateObservation := mkGateObservation {
  go_checks : list CheckSnapshot;
  go_lineage : option HeadRunLineage;
  go_diagnosis : CiDiagnosis }.

(** The report of the gate is backed by its Actions suite, when an app is named. *)
Definition gate_report_backed (lineage : option HeadRunLineage) (run_id : N) (check : CheckSnapshot) : bool :=
  match ck_app_id check with
  | None => true
  | Some _ =>
      is_some_and lineage (λ lineage, existsb (λ run,
        (wr_run_id run =? run_id)%N && opt_eqb (ck_check_suite_id check) (Some (wr_check_suite_id run))
        && is_some_and (ck_head_oid check) (String.eqb (wr_head_sha run))
        && existsb (λ suite, (cs_id suite =? wr_check_suite_id run)%N && String.eqb (cs_head_sha suite) (wr_head_sha run)
                             && String.eqb (cs_app_slug suite) "github-actions") (hl_check_suites lineage))
        (hl_workflow_runs lineage))
  end.

Definition observation_has_proven_deferred_gate (context : string) (o : GateObservation) : bool :=
  let effective := dg_effective_checks (go_diagnosis o) in
  let unevaluated check := opt_eqb (ck_provider_state check) (Some UNEVALUATED) in
  bool_decide (classify_checks effective false = CiWaiting)
  && existsb (λ diagnostic,
       let run_id := rd_run_id (cf_diagnostic diagnostic) in
       bool_decide (cf_classification diagnostic = DeferredAdmission)
       && is_some_and (proven_deferred_job (cf_diagnostic diagnostic)) (λ job, String.eqb (jd_name job) context)
       && existsb (λ check,
            String.eqb (ck_name check) context && bool_decide (ck_state check = CheckFailure)
            && existsb (λ other, String.eqb (ck_name other) (ck_name check) && opt_eqb (ck_app_id other) (ck_app_id check)
                                 && unevaluated other) effective
            && of_run run_id check && gate_report_backed (go_lineage o) run_id check) (go_checks o)
       && existsb (λ check, String.eqb (ck_name check) context && unevaluated check && of_run run_id check) effective)
     (dg_failure_diagnostics (go_diagnosis o)).
