(* ===== verification/CiClassifyProofs.v ===== *)
(** What the CI verdict of a tick rests on. *)

From Stdlib Require Import Ascii String.
From S2P Require Import Prelude Text Model Lineage RequiredRuns Landing CiEvidence CiClassify.

#[local] Open Scope string_scope.
#[local] Open Scope list_scope.
#[local] Open Scope nat_scope.
#[local] Open Scope caravan_scope.

(** ** Restarts *)

(** Evidence that only the infrastructure failed: the run is of the current
    generation, its listing is whole, no step was judged to fail, it was not
    cancelled, and no job failed or a conclusion names the infrastructure. *)
Record infrastructure_failure (d : WorkflowRunFailureDiagnostic) : Prop := {
  if_whole : rd_jobs_truncated d = false ∧ rd_jobs_total d ≠ 0%N
             ∧ ∀ job, job ∈ rd_failed_jobs d → jd_steps_truncated job = false;
  if_unjudged : has_completed_failing_step d = false;
  if_finished : eq_ignore_ascii_case (rd_conclusion d) "cancelled" = false;
  if_infra : rd_failed_jobs d = [] ∨ conclusion_is_infra (rd_conclusion d) = true
             ∨ ∃ job, job ∈ rd_failed_jobs d ∧ conclusion_is_infra (jd_conclusion job) = true }.

Lemma classify_current_rerun d deferred unknown receipt classification reason :
  classify_current d deferred unknown receipt = (classification, RerunFailedJobs, reason) →
  classification = RetryableInfrastructure ∧ infrastructure_failure d.
Proof.
  unfold classify_current. destruct (deferred && _); [done |]. destruct (existsb _ _ && _); [done |].
  destruct (has_completed_failing_step d) eqn:Hstep; [done |]. destruct (eq_ignore_ascii_case _ _) eqn:Hcancel; [done |].
  destruct ((rd_jobs_total d =? 0)%N || _ || _) eqn:Hwhole; [done |].
  apply orb_false_iff in Hwhole as [[Htotal Htrunc]%orb_false_iff Hsteps].
  destruct (retryable_infrastructure d) eqn:Hretry; [| by case_match].
  intros [= <- _]. split; [done |]. split; [split_and!; [done | by apply N.eqb_neq |] | done | done |].
  - intros job Hjob. by apply (proj1 (existsb_false_elem_of _ _) Hsteps).
  - revert Hretry. unfold retryable_infrastructure. rewrite Hstep, Htotal, Htrunc, !orb_false_r, negb_involutive. intros Hretry.
    destruct (rd_failed_jobs d) as [| job jobs]; [by left | right]. cbn [length Nat.eqb negb] in Hretry.
    apply orb_true_iff in Hretry as [? | Hjob]; [by left | right]. apply existsb_elem_of in Hjob as (job' & ? & ?). eauto.
Qed.

(** A classification is of its diagnostic; one that is not stale was made by
    [classify_current]. *)
Lemma classify_failure_cases d candidate :
  let c := classify_workflow_failure d candidate in
  cf_diagnostic c = d ∧
  (cf_classification c = StaleGenerationClass ∧ cf_action c = FreshCandidateTrigger ∧ cf_generation c ≠ RunCurrent
   ∨ cf_generation c = RunCurrent ∧ ∃ unknown receipt reason,
     classify_current d (is_some_b (proven_deferred_job d)) unknown receipt = (cf_classification c, cf_action c, reason)).
Proof.
  cbn zeta. unfold classify_workflow_failure. destruct (workflow_run_generation d) as [generation reasons].
  destruct (candidate_generation _ _ _) as [[generation1 unknown] reasons1].
  destruct (apply_selected_lineage_receipt _ _) as [[receipt generation2] reasons2].
  destruct (bool_decide_reflect (generation2 = RunCurrent)) as [-> |]; cbn; [| by split; [| left]].
  destruct (classify_current _ _ _ _) as [[classification action] reason] eqn:Hc. cbn. split; [done |]. right. eauto.
Qed.

(** Only infrastructure failures are restarted. Of the classified failures of
    a pull request the runs selected for a restart are listed once each;
    each is a run of the current generation whose whole listing shows
    no step that was judged to fail, and that the infrastructure ended; and none
    is selected beside a run that failed by its source or by an unknown cause. *)
Theorem reruns_are_infrastructure runs candidate :
  let diagnostics := (λ d, classify_workflow_failure d candidate) <$> runs in
  let ids := infrastructure_recovery_run_ids diagnostics in
  NoDup ids
  ∧ ∀ id, id ∈ ids →
    (∀ c, c ∈ diagnostics → cf_classification c ≠ SourceOrTestFailure ∧ cf_classification c ≠ UnknownClass)
    ∧ ∃ d, d ∈ runs ∧ rd_run_id d = id ∧ cf_generation (classify_workflow_failure d candidate) = RunCurrent
      ∧ infrastructure_failure d.
Proof.
  cbn zeta. unfold infrastructure_recovery_run_ids. destruct (existsb _ _) eqn:Hveto.
  { split; [constructor | by intros id Hid%elem_of_nil]. }
  split; [apply NoDup_bs_elems |]. intros id Hid. split.
  - intros c Hc. apply (proj1 (existsb_false_elem_of _ _) Hveto) in Hc. by destruct (cf_classification c).
  - apply elem_of_bs_elems, elem_of_list_to_set, list_elem_of_fmap in Hid as (c & -> & Hc).
    apply elem_of_list_filter_b in Hc as [Hc Haction]. apply bool_decide_eq_true in Haction.
    apply list_elem_of_fmap in Hc as (d & -> & Hd). destruct (classify_failure_cases d candidate) as [Hdiag Hcases].
    rewrite Hdiag. exists d. destruct Hcases as [(_ & ? & _) | (Hgen & unknown & receipt & reason & Hc)]; [congruence |].
    rewrite Haction in Hc. by apply classify_current_rerun in Hc as [_ Hinfra].
Qed.

(** ** Generations *)

Section lineage.
Context (lineage : HeadRunLineage) (head : string).

(** A run of the exact head with its suite there. *)
Definition paired (run : WorkflowRunLineage) (suite : CheckSuiteLineage) : Prop :=
  run ∈ hl_workflow_runs lineage ∧ wr_head_sha run = head ∧ suite ∈ hl_check_suites lineage ∧ cs_head_sha suite = head
  ∧ cs_id suite = wr_check_suite_id run.
(** The newest of its workflow among them. *)
Definition newest_generation (run : WorkflowRunLineage) (suite : CheckSuiteLineage) : Prop :=
  paired run suite ∧ ∀ other other_suite, paired other other_suite → wr_workflow_name other = wr_workflow_name run →
    (wr_run_id other ≤ wr_run_id run)%N.

Lemma suites_by_id_Some id suite :
  suites_by_id lineage head !! id = Some suite →
  suite ∈ hl_check_suites lineage ∧ cs_head_sha suite = head ∧ cs_id suite = id.
Proof.
  unfold suites_by_id. assert (∀ l, foldl (λ m suite, <[cs_id suite := suite]> m) (∅ : gmap N _) l !! id = Some suite →
    suite ∈ l ∧ cs_id suite = id) as Hfold.
  { induction l as [| s l IH] using rev_ind; [done |]. rewrite foldl_app. cbn. intros [[<- <-] | [_ Hl]]%lookup_insert_Some.
    - split; [| done]. apply elem_of_app. right. by apply list_elem_of_singleton.
    - apply IH in Hl as [? ?]. split; [| done]. apply elem_of_app. by left. }
  intros [[? Hhead%String.eqb_eq]%elem_of_list_filter_b ?]%Hfold. done.
Qed.
Lemma suites_by_id_is_Some suite :
  suite ∈ hl_check_suites lineage → cs_head_sha suite = head → is_Some (suites_by_id lineage head !! cs_id suite).
Proof.
  intros Hin Hhead. unfold suites_by_id.
  assert (∀ l, suite ∈ l → is_Some (foldl (λ m suite, <[cs_id suite := suite]> m) (∅ : gmap N _) l !! cs_id suite)) as Hfold.
  { induction l as [| s l IH] using rev_ind; [by intros ?%elem_of_nil |]. rewrite foldl_app. cbn.
    intros [Hl | ->%list_elem_of_singleton]%elem_of_app; [| by rewrite lookup_insert_eq].
    destruct (decide (cs_id s = cs_id suite)) as [-> |]; [by rewrite lookup_insert_eq | rewrite lookup_insert_ne by done]. auto. }
  apply Hfold, elem_of_list_filter_b. split; [done | by apply String.eqb_eq].
Qed.

Lemma own_runs_spec run :
  run ∈ own_runs lineage head ↔ run ∈ hl_workflow_runs lineage ∧ wr_head_sha run = head ∧ wr_workflow_name run ≠ "".
Proof.
  unfold own_runs. rewrite elem_of_list_filter_b, andb_true_iff, String.eqb_eq, negb_true_iff.
  destruct (wr_workflow_name run); cbn; naive_solver.
Qed.

(** [o] is the newest run of a workflow among those of [P] that have a suite. *)
Definition newest_of (P : WorkflowRunLineage → Prop) (workflow : string) (o : option (WorkflowRunLineage * CheckSuiteLineage)) : Prop :=
  let suites := suites_by_id lineage head in
  match o with
  | Some (run, suite) =>
      P run ∧ wr_workflow_name run = workflow ∧ suites !! wr_check_suite_id run = Some suite
      ∧ ∀ other, P other → wr_workflow_name other = workflow → is_Some (suites !! wr_check_suite_id other) →
        (wr_run_id other ≤ wr_run_id run)%N
  | None => ∀ other, P other → wr_workflow_name other = workflow → suites !! wr_check_suite_id other = None
  end.
Lemma newest_of_ext P Q workflow o : (∀ run, P run ↔ Q run) → newest_of P workflow o → newest_of Q workflow o.
Proof. unfold newest_of. destruct o as [[run suite] |]; naive_solver. Qed.

Lemma newest_fold l workflow :
  newest_of (λ run, run ∈ l) workflow (foldl (select_run (suites_by_id lineage head)) ∅ l !! workflow).
Proof.
  revert workflow. induction l as [| r l IH] using rev_ind; intros workflow.
  { cbn. rewrite lookup_empty. by intros ? ?%elem_of_nil. }
  apply (newest_of_ext (λ run, run ∈ l ∨ run = r)); [intros run; by rewrite elem_of_app, list_elem_of_singleton |].
  rewrite foldl_app. cbn. set (before := foldl _ ∅ l) in *. unfold select_run.
  assert (wr_workflow_name r ≠ workflow ∨ suites_by_id lineage head !! wr_check_suite_id r = None →
    newest_of (λ run, run ∈ l ∨ run = r) workflow (before !! workflow)) as Hother.
  { intros Hr. specialize (IH workflow). unfold newest_of in *. destruct (before !! workflow) as [[run suite] |].
    - destruct IH as (? & ? & ? & Hmax). split_and!; [by left | done | done |]. intros other [Hin | ->] Hw [s Hs]; [by eapply Hmax |].
      destruct Hr; congruence.
    - intros other [Hin | ->] Hw; [by apply IH |]. by destruct Hr. }
  destruct (suites_by_id lineage head !! wr_check_suite_id r) as [s |] eqn:Hs; [| by apply Hother; right].
  destruct (decide (wr_workflow_name r = workflow)) as [<- | Hne].
  2: { destruct (before !! wr_workflow_name r) as [current |]; [destruct (_ <? _)%N |];
       rewrite ?lookup_insert_ne by done; apply Hother; by left. }
  specialize (IH (wr_workflow_name r)). unfold newest_of in *.
  assert (∀ other, (other ∈ l → is_Some (suites_by_id lineage head !! wr_check_suite_id other) →
      wr_workflow_name other = wr_workflow_name r → (wr_run_id other ≤ wr_run_id r)%N) →
    other ∈ l ∨ other = r → wr_workflow_name other = wr_workflow_name r →
    is_Some (suites_by_id lineage head !! wr_check_suite_id other) → (wr_run_id other ≤ wr_run_id r)%N) as Hnew.
  { intros other Hl [Hin | ->] Hw Hsome; [by apply Hl | done]. }
  destruct (before !! wr_workflow_name r) as [[current cs] |] eqn:Hb; cbn.
  - destruct IH as (? & ? & ? & Hmax). destruct (N.ltb_spec (wr_run_id current) (wr_run_id r)).
    + rewrite lookup_insert_eq. split_and!; [by right | done | done |]. intros other. apply Hnew. intros Hin Hsome Hw.
      specialize (Hmax other Hin Hw Hsome). lia.
    + rewrite Hb. split_and!; [by left | done | done |]. intros other [Hin | ->] Hw Hsome; [by apply Hmax | done].
  - rewrite lookup_insert_eq. split_and!; [by right | done | done |]. intros other. apply Hnew. intros Hin [s' Hs'] Hw.
    rewrite (IH other Hin Hw) in Hs'. done.
Qed.

Lemma newest_by_workflow_spec workflow run suite :
  newest_by_workflow lineage head !! workflow = Some (run, suite) →
  wr_workflow_name run = workflow ∧ workflow ≠ "" ∧ newest_generation run suite.
Proof.
  intros Hw. pose proof (newest_fold (own_runs lineage head) workflow) as Hfold.
  unfold newest_by_workflow in Hw. rewrite Hw in Hfold. unfold newest_of in Hfold. destruct Hfold as ((Hin & Hhead & Hne)%own_runs_spec & <- & Hs & Hmax).
  pose proof (suites_by_id_Some _ _ Hs) as (? & ? & ?). split_and!; [done | done |]. split; [by split_and! |].
  intros other other_suite (Hoin & Hohead & Hsin & Hshead & Hid) Hname. apply Hmax; [| done |].
  - apply own_runs_spec. split_and!; [done | done | congruence].
  - rewrite <- Hid. by apply suites_by_id_is_Some.
Qed.

Lemma workflow_by_run_spec id workflow :
  workflow_by_run lineage head !! id = Some workflow →
  ∃ run, run ∈ hl_workflow_runs lineage ∧ wr_head_sha run = head ∧ wr_run_id run = id ∧ wr_workflow_name run = workflow.
Proof.
  unfold workflow_by_run. assert (∀ l, foldl (λ m run, <[wr_run_id run := wr_workflow_name run]> m) (∅ : gmap N _) l !! id = Some workflow →
    ∃ run, run ∈ l ∧ wr_run_id run = id ∧ wr_workflow_name run = workflow) as Hfold.
  { induction l as [| r l IH] using rev_ind; [done |]. rewrite foldl_app. cbn. setoid_rewrite elem_of_app.
    intros [[<- <-] | [_ Hl]]%lookup_insert_Some.
    - exists r. split; [right; by apply list_elem_of_singleton | done].
    - apply IH in Hl as (run & ? & ?). eauto. }
  intros (run & (? & ? & _)%own_runs_spec & ? & ?)%Hfold. by exists run.
Qed.

(** A row belongs to the workflow of a run, by its own name or by the run its
    link names, and its run is not newer. *)
Definition reports_on (check : CheckSnapshot) (run : WorkflowRunLineage) : Prop :=
  (∃ id, details_run_id check = Some id ∧ (id ≤ wr_run_id run)%N)
  ∧ (ck_workflow_name check = Some (wr_workflow_name run)
     ∨ ck_workflow_name check = None ∧ ∃ own, own ∈ hl_workflow_runs lineage ∧ wr_head_sha own = head
       ∧ details_run_id check = Some (wr_run_id own) ∧ wr_workflow_name own = wr_workflow_name run).

Lemma owner_of_spec check workflow :
  owner_of (newest_by_workflow lineage head) (workflow_by_run lineage head) check = Some workflow →
  ∃ run suite, newest_by_workflow lineage head !! workflow = Some (run, suite) ∧ newest_generation run suite ∧ reports_on check run.
Proof.
  unfold owner_of, workflow_of. intros Hown.
  destruct (match ck_workflow_name check with Some w => Some w | None => _ end) as [workflow' |] eqn:Hworkflow; [cbn in Hown | done].
  destruct (newest_by_workflow lineage head !! workflow') as [[run suite] |] eqn:Hnewest; [cbn in Hown | done].
  destruct (details_run_id check) as [id |] eqn:Hid; [cbn in Hown | done].
  destruct (N.leb_spec id (wr_run_id run)); [injection Hown as <- | done].
  pose proof (newest_by_workflow_spec _ _ _ Hnewest) as (Hname & _ & Hgeneration).
  exists run, suite. split_and!; [done | done |]. split; [by exists id |].
  destruct (ck_workflow_name check) as [w |]; [left; congruence | right]. split; [done |]. cbn in Hworkflow.
  apply workflow_by_run_spec in Hworkflow as (own & ? & ? & <- & ?). exists own. split_and!; congruence || done.
Qed.
End lineage.

(** A row [v] that stands for [check]: the vote of the newest generation on the
    exact head of its workflow, under its name. *)
Definition stands_for (lineage : HeadRunLineage) (head : string) (check v : CheckSnapshot) : Prop :=
  ∃ run suite, newest_generation lineage head run suite ∧ reports_on lineage head check run
  ∧ v = generation_vote head (wr_workflow_name run) run suite (ck_name check) (ck_app_id check).

(** Where the row of a check is found in the evidence. *)
Definition accounted (lineage : option HeadRunLineage) (head : string) (check v : CheckSnapshot) : Prop :=
  v = check ∨ ∃ known, lineage = Some known ∧ has_exact_unambiguous_lineage known head = true ∧ stands_for known head check v.

Lemma sort_checks_spec newest by_run superseded checks :
  let sorted := foldl (sort_check newest by_run) (mkSorted [] superseded ∅) checks in
  ∀ check, check ∈ checks →
  match owner_of newest by_run check with
  | None => check ∈ so_effective sorted
  | Some workflow => ∃ names, so_names sorted !! workflow = Some names ∧ (ck_name check, ck_app_id check) ∈ names
  end.
Proof.
  cbn zeta. induction checks as [| c checks IH] using rev_ind; intros check; [by intros ?%elem_of_nil |].
  rewrite foldl_app. cbn. set (before := foldl _ _ checks) in *. unfold sort_check.
  intros [Hin | ->%list_elem_of_singleton]%elem_of_app.
  - specialize (IH check Hin). destruct (owner_of newest by_run check) as [workflow |].
    + destruct IH as (names & Hnames & Hname). destruct (owner_of newest by_run c) as [w |]; cbn; [| by exists names].
      destruct (decide (w = workflow)) as [-> |]; [| rewrite lookup_insert_ne by done; by exists names].
      rewrite lookup_insert_eq, Hnames. eexists. split; [done |]. set_solver.
    + destruct (owner_of newest by_run c); cbn; [done |]. apply elem_of_app. by left.
  - destruct (owner_of newest by_run c) as [w |]; cbn.
    + rewrite lookup_insert_eq. eexists. split; [done |]. set_solver.
    + apply elem_of_app. right. by apply list_elem_of_singleton.
Qed.

Lemma every_check_is_accounted checks head lineage check :
  check ∈ checks →
  ∃ v, v ∈ ge_effective_checks (ci_generation_evidence checks head lineage) ∧ accounted lineage head check v.
Proof.
  intros Hin. unfold ci_generation_evidence.
  destruct lineage as [lineage |]; [| by exists check; split; [| left]].
  destruct (has_exact_unambiguous_lineage lineage head) eqn:Hexact; cbn [negb]; [| by exists check; split; [| left]].
  case_bool_decide as Hempty; [by exists check; split; [| left] |]. cbn [ge_effective_checks ge_superseded_checks].
  pose proof (sort_checks_spec (newest_by_workflow lineage head) (workflow_by_run lineage head)
    (latest_checks_per_identity checks).2 checks check Hin) as Hsorted. cbn zeta in Hsorted.
  set (sorted := foldl _ _ checks) in *. destruct (owner_of _ _ check) as [workflow |] eqn:Howner.
  - destruct Hsorted as (names & Hnames & Hname).
    destruct (owner_of_spec _ _ _ _ Howner) as (run & suite & Hnewest & Hgeneration & Hreports).
    pose proof (newest_by_workflow_spec _ _ _ _ _ Hnewest) as (<- & _ & _).
    exists (generation_vote head (wr_workflow_name run) run suite (ck_name check) (ck_app_id check)). split.
    + apply elem_of_app. right. apply list_elem_of_bind. exists (wr_workflow_name run, (run, suite)). split.
      * unfold generation_votes. rewrite Hnames. cbn. apply list_elem_of_fmap. exists (ck_name check, ck_app_id check).
        split; [done |]. by apply elem_of_bs_elems.
      * by apply elem_of_bt_entries.
    + right. exists lineage. split_and!; [done | done |]. by exists run, suite.
  - exists check. split; [| by left]. apply elem_of_app. by left.
Qed.

(** ** Proven deferrals *)

(** [y] is what the standing deferrals make of the row [x]. *)
Definition after_deferrals (evidence : CiGenerationEvidence) (raw : list CheckSnapshot)
    (diagnostics : list ClassifiedWorkflowRunFailure) (x y : CheckSnapshot) : Prop :=
  y = x ∨ ∃ diagnostic, diagnostic ∈ diagnostics ∧ deferral_stands evidence raw diagnostics diagnostic = true
    ∧ is_vote x = true ∧ of_run (rd_run_id (cf_diagnostic diagnostic)) x = true
    ∧ y = unevaluate (rd_run_id (cf_diagnostic diagnostic)) x.

Lemma deferral_stands_selected evidence evidence' raw diagnostics diagnostic :
  ge_selected_generations evidence = ge_selected_generations evidence' →
  deferral_stands evidence raw diagnostics diagnostic = deferral_stands evidence' raw diagnostics diagnostic.
Proof. unfold deferral_stands. by intros ->. Qed.

Lemma unevaluate_again id id' x :
  is_vote x = true → of_run id x = true → unevaluate id' (unevaluate id x) = unevaluate id x.
Proof.
  intros Hvote Hrun. unfold unevaluate at 2 3. rewrite Hvote, Hrun. cbn [andb].
  unfold unevaluate. by destruct (is_vote _ && of_run _ _).
Qed.

Lemma reduce_spec evidence raw diagnostics :
  let evidence' := reduce_proven_deferred_generations evidence raw diagnostics in
  ge_superseded_checks evidence' = ge_superseded_checks evidence
  ∧ ge_selected_generations evidence' = ge_selected_generations evidence
  ∧ Forall2 (after_deferrals evidence raw diagnostics) (ge_effective_checks evidence) (ge_effective_checks evidence').
Proof.
  cbn zeta. unfold reduce_proven_deferred_generations. 
  enough (∀ done, done ⊆ diagnostics →
    let evidence' := foldl (λ evidence diagnostic,
      if deferral_stands evidence raw diagnostics diagnostic
      then mkGenerationEvidence (unevaluate (rd_run_id (cf_diagnostic diagnostic)) <$> ge_effective_checks evidence)
             (ge_superseded_checks evidence) (ge_selected_generations evidence)
      else evidence) evidence done in
    ge_superseded_checks evidence' = ge_superseded_checks evidence
    ∧ ge_selected_generations evidence' = ge_selected_generations evidence
    ∧ Forall2 (after_deferrals evidence raw diagnostics) (ge_effective_checks evidence) (ge_effective_checks evidence')) as H
    by (by apply H).
  induction done as [| d l IH] using rev_ind; intros Hsub; cbn zeta.
  { split_and!; [done | done |]. cbn. induction (ge_effective_checks evidence); constructor; [by left | done]. }
  rewrite foldl_app. cbn. destruct IH as (Hsuper & Hsel & Hall); [set_solver |]. set (before := foldl _ evidence l) in *.
  rewrite (deferral_stands_selected before evidence) by done.
  destruct (deferral_stands evidence raw diagnostics d) eqn:Hstands; [| done]. cbn. split_and!; [done | done |].
  apply Forall2_fmap_r. eapply Forall2_impl; [exact Hall |]. cbn. intros x y [-> | (d' & Hd' & Hstands' & Hvote & Hrun & ->)].
  - destruct (is_vote x && of_run (rd_run_id (cf_diagnostic d)) x) eqn:Happlies.
    + apply andb_true_iff in Happlies as [? ?]. right. exists d. split_and!; try done. set_solver.
    + left. unfold unevaluate. by rewrite Happlies.
  - right. exists d'. split_and!; try done. by apply unevaluate_again.
Qed.

(** ** The diagnosis *)

Lemma classify_failure_deferred d candidate :
  cf_classification (classify_workflow_failure d candidate) = DeferredAdmission → is_Some (proven_deferred_job d).
Proof.
  intros Hclass. destruct (classify_failure_cases d candidate) as [_ [(Hstale & _) | (_ & unknown & receipt & reason & Hc)]].
  { congruence. }
  rewrite Hclass in Hc. unfold classify_current in Hc. destruct (proven_deferred_job d); [by eexists |].
  cbn in Hc. by repeat case_match.
Qed.

Lemma waiting_has_no_failure checks :
  classify_checks checks false = CiWaiting →
  ∀ check, check ∈ (latest_checks_per_identity checks).1 → check_is_failure check = false.
Proof.
  unfold classify_checks. cbv iota. destruct (existsb check_is_failure _) eqn:Hfail; [done |]. intros _.
  by apply existsb_false_elem_of.
Qed.

(** A failing required row and what became of it: the row that accounts for it
    is among the effective rows, as it is or unevaluated by a proven deferral. *)
Definition not_hidden (head : string) (lineage : option HeadRunLineage) (raw : list CheckSnapshot) (dg : CiDiagnosis)
    (check : CheckSnapshot) : Prop :=
  ∃ x y, accounted lineage head check x
  ∧ after_deferrals (ci_generation_evidence raw head lineage) raw (dg_failure_diagnostics dg) x y
  ∧ y ∈ dg_effective_checks dg
  ∧ (y ∈ (latest_checks_per_identity (dg_effective_checks dg)).1 → check_is_failure y = false).

Lemma conclude_ci_spec checks head lineage disposition runs diagnostics d' dg :
  conclude_ci checks head lineage disposition runs diagnostics = (d', dg) →
  dg_failure_diagnostics dg = diagnostics ∧
  (d' = disposition ∨
   disposition = CiFailed ∧ d' = CiWaiting
   ∧ (∃ d, d ∈ diagnostics ∧ cf_classification d = DeferredAdmission)
   ∧ ∀ check, check ∈ checks → not_hidden head lineage checks dg check).
Proof.
  unfold conclude_ci. intros [= <- <-]. cbn. split; [done |].
  destruct (_ && _ && _) eqn:Hdeferred; [right | by left]. apply andb_true_iff in Hdeferred as [[Hfailed Hwaiting]%andb_true_iff Hd].
  apply bool_decide_eq_true in Hfailed, Hwaiting. split_and!; [done | done | |].
  - apply existsb_elem_of in Hd as (d & ? & ?%bool_decide_eq_true). by exists d.
  - intros check Hin. destruct (every_check_is_accounted checks head lineage check Hin) as (x & Hx & Haccounted).
    destruct (reduce_spec (ci_generation_evidence checks head lineage) checks diagnostics) as (_ & _ & Hall).
    apply list_elem_of_lookup in Hx as [i Hi]. destruct (Forall2_lookup_l _ _ _ _ _ Hall Hi) as (y & Hy & Hafter).
    apply list_elem_of_lookup_2 in Hy. exists x, y. split_and!; [done | done | done |]. by apply waiting_has_no_failure.
Qed.

Section diagnosis.
Context {W E : Type} `{!CiProvider W E}.

(** C26. A wait hides no failure. The diagnosis keeps the disposition it was
    given, or it makes a failed one a wait. It does the latter only with a
    diagnostic whose run is a proven deferral; and then every required
    row, the failing ones included, is still in the effective evidence, as it
    is, or as the vote of the newest run of its workflow on the exact head,
    or unevaluated because a deferral stands for its very run; and no row
    that counts there is a failure. *)
Theorem waiting_hides_no_failure repository candidates current policy lineage disposition w d' dg w' :
  let head := br_oid (pr_head current) in
  let raw := required_checks policy (pr_checks current) head in
  diagnose repository candidates current policy lineage disposition w = (Ok (d', dg), w') →
  d' = disposition ∨
  disposition = CiFailed ∧ d' = CiWaiting
  ∧ (∃ d, d ∈ dg_failure_diagnostics dg ∧ cf_classification d = DeferredAdmission
          ∧ is_Some (proven_deferred_job (cf_diagnostic d)))
  ∧ ∀ check, check ∈ raw → not_hidden head lineage raw dg check.
Proof.
  cbn zeta. unfold diagnose. destruct (match disposition with CiFailed | CiForced => _ | _ => _ end) as [[runs | e] w1]; [| done].
  destruct (if 0 =? _ then _ else _) as [[response | e] w2]; [| done].
  destruct (conclude_ci _ _ _ _ _ _) as [d'' dg''] eqn:Hconclude. intros [= <- <- <-].
  apply conclude_ci_spec in Hconclude as (Hdiagnostics & [-> | (-> & -> & (d & Hd & Hclass) & Hall)]); [by left | right].
  split_and!; try done. exists d. rewrite Hdiagnostics. split_and!; [done | done |].
  apply list_elem_of_fmap in Hd as (run & -> & _). rewrite (proj1 (classify_failure_cases _ _)).
  by apply classify_failure_deferred in Hclass.
Qed.
End diagnosis.

(** ** Concrete verdicts *)

Definition sample_oid : string := "0123456789abcdef0123456789abcdef01234567".
Definition failed_run (conclusion : string) (jobs : list WorkflowJobFailureDiagnostic) : WorkflowRunFailureDiagnostic :=
  mkRunDiagnostic 7 1 3 5 "CI" "pull_request" "completed" conclusion "feature" sample_oid 12 sample_oid sample_oid
    [mkAssociation 12 (Some sample_oid) (Some sample_oid)] jobs 2 false.
Definition sample_failed_job (conclusion : string) (steps : list WorkflowStepFailureDiagnostic)
    (receipt : option DeferredAdmissionReceipt) : WorkflowJobFailureDiagnostic :=
  mkJobDiagnostic 9 "gate" "completed" conclusion "u" None [] steps false None LineageNotRequested receipt.
Definition lost_runner : WorkflowRunFailureDiagnostic := failed_run "failure" [sample_failed_job "timed_out" [] None].
Definition deferred_run : WorkflowRunFailureDiagnostic :=
  failed_run "failure" [sample_failed_job "failure"
    [mkStepDiagnostic 1 "Defer unjoined PR or require protected CI" "completed" "failure"]
    (Some (mkDeferredAdmission 12 sample_oid sample_oid Unjoined))].

Lemma reruns_are_infrastructure_witness :
  infrastructure_recovery_run_ids ((λ d, classify_workflow_failure d None) <$> [lost_runner]) = [7%N]
  ∧ infrastructure_failure lost_runner.
Proof.
  split; [vm_compute; reflexivity |].
  destruct (reruns_are_infrastructure [lost_runner] None) as [_ Hids]. destruct (Hids 7%N) as [_ (d & Hd & _ & _ & Hinfra)].
  - vm_compute. apply list_elem_of_here.
  - apply list_elem_of_singleton in Hd as ->. exact Hinfra.
Defined.

Definition gate_row : CheckSnapshot :=
  mkCheckSnapshot "gate" CheckFailure None (Some "/actions/runs/7/job/9") (Some "CheckRun") (Some "CI") None (Some 5%N)
    (Some sample_oid) None None false.
Definition sample_pull_request : PullRequestSnapshot :=
  let branch name := mkBranchSnapshot (mkRepositoryId "o" "r") name sample_oid in
  mkPullRequestSnapshot 12 "t" "u" Open false (branch "feature") (branch "main") false ∅ auto_merge_disabled [gate_row]
    None None None None.
Definition sample_policy : RequiredContextsRead := mkRequiredContextsRead "main" true [] [mkRequiredCheck "gate" None] true.
Definition sample_lineage : HeadRunLineage :=
  mkHeadRunLineage sample_oid [mkCheckSuiteLineage 5 sample_oid "completed" "failure" "github-actions" true]
    [mkWorkflowRunLineage 7 5 "CI" None sample_oid "completed" "failure" "pull_request"] None true.
#[local] Instance sample_provider : CiProvider unit unit := {
  failed_runs_for_pull_request _ _ w := (Ok [mkRunSnapshot 7 [12%N] sample_oid "completed" "failure" "pull_request" "t" "CI" "u"], w);
  failed_run_diagnostics _ _ ids w := (Ok (mkFailureDiagnostics ids [deferred_run] false), w) }.
Definition sample_verdict : result (CiDisposition * CiDiagnosis) unit * unit :=
  diagnose (mkRepositoryId "o" "r") ∅ sample_pull_request sample_policy (Some sample_lineage) CiFailed tt.

Lemma waiting_hides_no_failure_witness :
  ∃ dg, sample_verdict = (Ok (CiWaiting, dg), tt)
  ∧ required_checks sample_policy (pr_checks sample_pull_request) sample_oid = [gate_row]
  ∧ not_hidden sample_oid (Some sample_lineage) [gate_row] dg gate_row.
Proof.
  destruct sample_verdict as [[[verdict dg] | e] []] eqn:Hrun; [| vm_compute in Hrun; discriminate]. exists dg.
  assert (verdict = CiWaiting) as -> by (vm_compute in Hrun; congruence).
  assert (required_checks sample_policy (pr_checks sample_pull_request) sample_oid = [gate_row]) as Hraw by (vm_compute; reflexivity).
  split; [done |]. split; [exact Hraw |].
  destruct (waiting_hides_no_failure (mkRepositoryId "o" "r") ∅ sample_pull_request sample_policy (Some sample_lineage)
    CiFailed tt CiWaiting dg tt Hrun) as [Hsame | (_ & _ & _ & Hall)]; [discriminate |].
  cbn [sample_pull_request pr_head br_oid] in Hall. rewrite Hraw in Hall. apply Hall, list_elem_of_here.
Defined.

(** The reason of a receipt is not shown: a run deferred for a draft reads as one
    that waits for membership. *)
Definition draft_run : WorkflowRunFailureDiagnostic :=
  failed_run "failure" [sample_failed_job "failure"
    [mkStepDiagnostic 1 "Defer unjoined PR or require protected CI" "completed" "failure"]
    (Some (mkDeferredAdmission 12 sample_oid sample_oid ReasonDraft))].
Example draft_reported_as_unjoined :
  omap ck_provider_state
    (dg_effective_checks (conclude_ci [gate_row] sample_oid (Some sample_lineage) CiFailed [] [classify_workflow_failure draft_run None]).2)
  = ["unevaluated: deferred_unjoined; awaiting membership"].
Proof. vm_compute. reflexivity. Qed.
