(* ===== verification/StackLock.v ===== *)
(** The branch lock of a native Stack: src/src/github/stack_lock.rs. One active
    repository ruleset without bypass covers the source branches of a Stack
    while its merge is in flight. With it the data of src/src/github/stack.rs
    and the operations a native Stack transaction performs. *)

From Stdlib Require Import Ascii String.
From S2P Require Import Prelude Text Json Model Generation Programs RemoteLease Command CiEvidence.

#[local] Open Scope string_scope.
#[local] Open Scope list_scope.
#[local] Open Scope nat_scope.
#[local] Open Scope caravan_scope.

(** ** Stacks *)

Record GitHubStackEntryGeneration := mkStackEntry {
  en_position : N;
  en_pr : PrNumber;
  en_stack_state : string;
  en_state : PullRequestState;
  en_draft : bool;
  en_merged_at : option string;
  en_base : BranchSnapshot;
  en_head : BranchSnapshot }.
#[export] Instance GitHubStackEntryGeneration_eq_dec : EqDecision GitHubStackEntryGeneration.
Proof. solve_decision. Defined.

Record GitHubStackTopology := mkTopology {
  tp_base : BranchSnapshot;
  tp_entries : list GitHubStackEntryGeneration }.
#[export] Instance GitHubStackTopology_eq_dec : EqDecision GitHubStackTopology.
Proof. solve_decision. Defined.

Record GitHubStackGeneration := mkStackGeneration {
  gn_id : N;
  gn_number : N;
  gn_node_id : string;
  gn_open : bool;
  gn_created_at : string;
  gn_topology : GitHubStackTopology }.
#[export] Instance GitHubStackGeneration_eq_dec : EqDecision GitHubStackGeneration.
Proof. solve_decision. Defined.

(** ** Operations *)

Record GitHubStackBranchLockPlan := mkLockPlan {
  lp_operation_id : string;
  lp_actor : string;
  lp_stack_number : N;
  lp_selected : list GitHubStackEntryGeneration }.

Record GitHubStackBranchLockGeneration := mkLock {
  lk_id : N;
  lk_node_id : string;
  lk_name : string;
  lk_repository : RepositoryId;
  lk_source : string;
  lk_source_type : string;
  lk_target : string;
  lk_enforcement : string;
  lk_selected_pull_requests : list PrNumber;
  lk_selected_refs : list string;
  lk_current_user_can_bypass : string;
  lk_created_at : string;
  lk_updated_at : string }.
#[export] Instance GitHubStackBranchLockGeneration_eq_dec : EqDecision GitHubStackBranchLockGeneration.
Proof. solve_decision. Defined.

Inductive GitHubStackBranchLockOperation := LockAcquire | LockRelease.
#[export] Instance GitHubStackBranchLockOperation_eq_dec : EqDecision GitHubStackBranchLockOperation.
Proof. solve_decision. Defined.
Inductive GitHubStackBranchLockDisposition := LockCompleted | RecoveredAfterAmbiguousResponse | LockAlreadySatisfied.
#[export] Instance GitHubStackBranchLockDisposition_eq_dec : EqDecision GitHubStackBranchLockDisposition.
Proof. solve_decision. Defined.

Record GitHubStackBranchLockReceipt := mkLockReceipt {
  lr_schema_version : N;
  lr_operation_id : string;
  lr_actor : string;
  lr_repository : RepositoryId;
  lr_operation : GitHubStackBranchLockOperation;
  lr_disposition : GitHubStackBranchLockDisposition;
  lr_request_method : string;
  lr_request_path : string;
  lr_github_request_id : option string;
  lr_lock : option GitHubStackBranchLockGeneration;
  lr_evidence_hash : string }.
#[export] Instance GitHubStackBranchLockReceipt_eq_dec : EqDecision GitHubStackBranchLockReceipt.
Proof. solve_decision. Defined.

Inductive GitHubStackBranchLockError :=
| LockInvalidPlan (code message : string)
| LockProvider (error : DiscoveryError)
| InventoryTruncated
| NameCollision (name : string)
| StaleLock (expected : GitHubStackBranchLockGeneration) (actual : option GitHubStackBranchLockGeneration)
| LockAmbiguous (operation : GitHubStackBranchLockOperation) (diagnostic : string) (rediscovery : option string)
| LockPostconditionFailed (operation : GitHubStackBranchLockOperation).

(** What the provider answers. *)
Record RulesetSummary := mkRulesetSummary { rs_id : N; rs_name : string }.
Record RulesetResponse := mkRuleset {
  rl_id : N;
  rl_node_id : string;
  rl_name : string;
  rl_target : string;
  rl_source_type : string;
  rl_source : string;
  rl_enforcement : string;
  rl_include : list string;
  rl_exclude : list string;
  rl_rules : list string;
  rl_bypass_actors : list Value;
  rl_current_user_can_bypass : string;
  rl_created_at : string;
  rl_updated_at : string }.

(** What a native Stack transaction asks of the provider adapter: a command, and
    the reads other modules make of it, which fail with a message. *)
Inductive StackOp : Type → Type :=
| StackRun (c : CommandSpec) : StackOp Ran
(** The command that submits a merge, noted with the operation it belongs to. *)
| StackSubmit (operation_id : string) (c : CommandSpec) : StackOp Ran
| StackGeneration (number : N) : StackOp (result (option GitHubStackGeneration) string)
| StackPullRequest (number : PrNumber) : StackOp (result PullRequestSnapshot string)
| StackMergeCommit (number : PrNumber) : StackOp (result (option CommitOid) string)
| StackCompare (base head : CommitOid) : StackOp (result CommitRelation string).

(** ** Commands *)

Definition ACCEPT : string := "Accept: application/vnd.github+json".
Definition API_VERSION : string := "X-GitHub-Api-Version: 2026-03-10".
Definition LOCK_SCHEMA_VERSION : N := 1.
Definition RULESET_PAGE_SIZE : nat := 100.
Definition NAME_PREFIX : string := "cara-stack-merge-lock-".

Definition rulesets_path (repository : RepositoryId) : string := fmt ["repos/"; slug repository; "/rulesets"].
Definition ruleset_path (repository : RepositoryId) (id : N) : string := fmt [rulesets_path repository; "/"; pretty id].
Definition ruleset_api_command (method path : string) (include : bool) : CommandSpec :=
  let command := args (new_command "gh") ["api"; "--method"; method; "-H"; ACCEPT; "-H"; API_VERSION] in
  let command := if include then arg command "--include" else command in
  let command := arg command path in
  if String.eqb method "GET" then command else provider_write command.
Definition list_rulesets_command (repository : RepositoryId) : CommandSpec :=
  ruleset_api_command "GET" (fmt [rulesets_path repository; "?per_page="; pretty (N.of_nat RULESET_PAGE_SIZE)]) false.
Definition read_ruleset_command (repository : RepositoryId) (id : N) : CommandSpec :=
  ruleset_api_command "GET" (ruleset_path repository id) false.
Definition delete_ruleset_command (repository : RepositoryId) (id : N) : CommandSpec :=
  ruleset_api_command "DELETE" (ruleset_path repository id) true.

(** The parsers and serializers, the texts of provider errors. *)
Class LockHost := {
  decode_summaries : string → result (list RulesetSummary) string;
  decode_ruleset : string → result RulesetResponse string;
  to_json : Value → string;
  lock_identity_json : RepositoryId → string → N → list N;
  lock_receipt_json : GitHubStackBranchLockReceipt → list N;
  show_discovery_error : DiscoveryError → string }.

Section lock.
Context `{!LockHost}.
#[local] Open Scope prog_scope.

Definition create_ruleset_body (expected : GitHubStackBranchLockGeneration) : Value :=
  VObject [("bypass_actors", VArray []);
           ("conditions", VObject [("ref_name", VObject [("exclude", VArray []);
                                                         ("include", VArray (VString <$> lk_selected_refs expected))])]);
           ("enforcement", VString "active"); ("name", VString (lk_name expected));
           ("rules", VArray [VObject [("parameters", VObject [("update_allows_fetch_and_merge", VBool false)]); ("type", VString "update")];
                             VObject [("type", VString "deletion")]]);
           ("target", VString "branch")].
Definition create_ruleset_command (repository : RepositoryId) (expected : GitHubStackBranchLockGeneration) : CommandSpec :=
  stdin (args (ruleset_api_command "POST" (rulesets_path repository) true) ["--input"; "-"])
    (to_json (create_ruleset_body expected)).

(** ** Locks *)

Definition validate_lock_plan (repository : RepositoryId) (plan : GitHubStackBranchLockPlan)
    : result unit GitHubStackBranchLockError :=
  if str_is_empty (trim (lp_operation_id plan)) || str_is_empty (trim (lp_actor plan)) || (0 =? length (lp_selected plan))
  then Err (LockInvalidPlan "github_stack_lock_identity_missing" "branch lock requires operation, actor, and selected entries")
  else
    let fix distinct (refs : gset string) entries :=
      match entries with
      | [] => Ok ()
      | entry :: entries =>
          let name := br_name (en_head entry) in
          if negb (bool_decide (br_repository (en_head entry) = repository)) || str_is_empty (trim name)
             || bool_decide (name ∈ refs)
          then Err (LockInvalidPlan "github_stack_lock_ref_invalid" "selected branches must be unique same-repository refs")
          else distinct ({[ name ]} ∪ refs) entries
      end in
    distinct ∅ (lp_selected plan).

Definition head_ref (entry : GitHubStackEntryGeneration) : string := "refs/heads/" +:+ br_name (en_head entry).
Definition lock_name (repository : RepositoryId) (plan : GitHubStackBranchLockPlan) : string :=
  NAME_PREFIX +:+ fnv1a64 (lock_identity_json repository (lp_operation_id plan) (lp_stack_number plan)).
Definition expected_lock (repository : RepositoryId) (plan : GitHubStackBranchLockPlan)
    : result GitHubStackBranchLockGeneration GitHubStackBranchLockError :=
  match validate_lock_plan repository plan with
  | Err e => Err e
  | Ok _ =>
      Ok (mkLock 0 "" (lock_name repository plan) repository (slug repository) "Repository" "branch" "active"
            (en_pr <$> lp_selected plan) (vec_sort (head_ref <$> lp_selected plan)) "never" "" "")
  end.

Definition observed_lock (repository : RepositoryId) (response : RulesetResponse)
    : result GitHubStackBranchLockGeneration GitHubStackBranchLockError :=
  if negb (0 =? length (rl_exclude response)) || negb (0 =? length (rl_bypass_actors response))
  then Err (LockInvalidPlan "github_stack_lock_bypass_detected" "Stack lock ruleset must have no exclusions or bypass actors")
  else if negb (bool_decide ((list_to_set (rl_rules response) : gset string) = list_to_set ["deletion"; "update"]))
  then Err (LockInvalidPlan "github_stack_lock_rules_invalid" "Stack lock ruleset requires exactly update and deletion rules")
  else
    Ok (mkLock (rl_id response) (rl_node_id response) (rl_name response) repository (rl_source response)
          (rl_source_type response) (rl_target response) (rl_enforcement response) [] (vec_sort (rl_include response))
          (rl_current_user_can_bypass response) (rl_created_at response) (rl_updated_at response)).

Definition set_pull_requests (numbers : list PrNumber) (lock : GitHubStackBranchLockGeneration) : GitHubStackBranchLockGeneration :=
  mkLock (lk_id lock) (lk_node_id lock) (lk_name lock) (lk_repository lock) (lk_source lock) (lk_source_type lock)
    (lk_target lock) (lk_enforcement lock) numbers (lk_selected_refs lock) (lk_current_user_can_bypass lock)
    (lk_created_at lock) (lk_updated_at lock).
Definition bind_selected_pull_requests (lock : GitHubStackBranchLockGeneration) (plan : GitHubStackBranchLockPlan)
    : GitHubStackBranchLockGeneration := set_pull_requests (en_pr <$> lp_selected plan) lock.

Definition same_lock_policy (actual expected : GitHubStackBranchLockGeneration) : bool :=
  String.eqb (lk_name actual) (lk_name expected) && bool_decide (lk_repository actual = lk_repository expected)
  && String.eqb (lk_source actual) (lk_source expected) && String.eqb (lk_source_type actual) "Repository"
  && String.eqb (lk_target actual) "branch" && String.eqb (lk_enforcement actual) "active"
  && bool_decide (lk_selected_refs actual = lk_selected_refs expected)
  && String.eqb (lk_current_user_can_bypass actual) "never".

(** ** Receipts *)

Definition set_lock_hash (hash : string) (r : GitHubStackBranchLockReceipt) : GitHubStackBranchLockReceipt :=
  mkLockReceipt (lr_schema_version r) (lr_operation_id r) (lr_actor r) (lr_repository r) (lr_operation r) (lr_disposition r)
    (lr_request_method r) (lr_request_path r) (lr_github_request_id r) (lr_lock r) hash.
Definition lock_receipt_seal (r : GitHubStackBranchLockReceipt) : GitHubStackBranchLockReceipt :=
  let cleared := set_lock_hash "" r in set_lock_hash (fnv1a64 (lock_receipt_json cleared)) cleared.
Definition lock_receipt_verify (r : GitHubStackBranchLockReceipt) : bool :=
  String.eqb (fnv1a64 (lock_receipt_json (set_lock_hash "" r))) (lr_evidence_hash r).
Definition lock_receipt (plan : GitHubStackBranchLockPlan) (repository : RepositoryId)
    (operation : GitHubStackBranchLockOperation) (disposition : GitHubStackBranchLockDisposition) (method path : string)
    (request_id : option string) (lock : option GitHubStackBranchLockGeneration) : GitHubStackBranchLockReceipt :=
  lock_receipt_seal (mkLockReceipt LOCK_SCHEMA_VERSION (lp_operation_id plan) (lp_actor plan) repository operation disposition
    method path request_id lock "").

Definition show_operation (operation : GitHubStackBranchLockOperation) : string :=
  match operation with LockAcquire => "Acquire" | LockRelease => "Release" end.
Definition show_lock_error (e : GitHubStackBranchLockError) : string :=
  match e with
  | LockInvalidPlan code message => fmt [code; ": "; message]
  | LockProvider error => show_discovery_error error
  | InventoryTruncated => "repository ruleset inventory is truncated"
  | NameCollision name => fmt ["ruleset `"; name; "` exists with different lock policy"]
  | StaleLock _ _ => "Stack branch-lock generation changed"
  | LockAmbiguous operation diagnostic _ => fmt ["Stack branch-lock "; show_operation operation; " is ambiguous: "; diagnostic]
  | LockPostconditionFailed operation => fmt ["Stack branch-lock "; show_operation operation; " postcondition failed"]
  end.

Definition github_request_id (out : CommandOutput) : option string :=
  find_map (λ line,
    '(name, value) ← split_once ":" line;
    if eq_ignore_ascii_case (trim name) "x-github-request-id" then Some (trim value) else None)
    (lines (out_stdout out) ++ lines (out_stderr out)).
Definition show_code (code : option Z) : string :=
  match code with Some code => fmt ["Some("; pretty code; ")"] | None => "None" end.
Definition response_diagnostic (response : Ran) : string :=
  match response with
  | Ok out => fmt ["provider exited "; show_code (out_code out); ": "; trim (out_stderr out)]
  | Err error => show_discovery_error (Runner error)
  end.
Definition ambiguous (operation : GitHubStackBranchLockOperation) (diagnostic : string)
    (r : result (option GitHubStackBranchLockGeneration) GitHubStackBranchLockError) : GitHubStackBranchLockError :=
  LockAmbiguous operation diagnostic (match r with Ok _ => None | Err error => Some (show_lock_error error) end).

Definition response_id (response : Ran) : option string :=
  match response with Ok out => github_request_id out | Err _ => None end.
Definition response_ok (response : Ran) : bool :=
  match response with Ok out => is_success out | Err _ => false end.

(** ** Reads *)

(** [self.checked] and [self.json]. *)
Definition checked (command : CommandSpec) : Prog StackOp (result CommandOutput DiscoveryError) :=
  let? output := map_err (perform (StackRun command)) Runner in
  Ret (if is_success output then Ok output else Err (CommandFailed command (out_code output) (trim (out_stderr output)))).
Definition json {T} (decode : string → result T string) (command : CommandSpec) : Prog StackOp (result T DiscoveryError) :=
  let? output := checked command in
  Ret (match decode (out_stdout output) with Ok value => Ok value | Err message => Err (InvalidJson command message) end).

Definition read_stack_branch_lock (repository : RepositoryId) (id : N)
    : Prog StackOp (result (option GitHubStackBranchLockGeneration) GitHubStackBranchLockError) :=
  let command := read_ruleset_command repository id in
  let? output := map_err (perform (StackRun command)) (λ error, LockProvider (Runner error)) in
  Ret (if is_success output then
         match decode_ruleset (out_stdout output) with
         | Err message => Err (LockInvalidPlan "github_stack_lock_provider_json_invalid" message)
         | Ok response => match observed_lock repository response with Ok lock => Ok (Some lock) | Err e => Err e end
         end
       else if contains_str "HTTP 404" (out_stderr output) then Ok None
       else Err (LockProvider (CommandFailed command (out_code output) (out_stderr output)))).

Definition find_stack_branch_lock (repository : RepositoryId) (name : string)
    : Prog StackOp (result (option GitHubStackBranchLockGeneration) GitHubStackBranchLockError) :=
  let? summaries := map_err (json decode_summaries (list_rulesets_command repository)) LockProvider in
  match List.filter (λ ruleset, String.eqb (rs_name ruleset) name) summaries with
  | _ :: _ :: _ => Ret (Err (NameCollision name))
  | [found] => read_stack_branch_lock repository (rs_id found)
  | [] => Ret (if length summaries =? RULESET_PAGE_SIZE then Err InventoryTruncated else Ok None)
  end.

(** ** The lock *)

Definition native_stack_branch_lock_acquire (repository : RepositoryId) (plan : GitHubStackBranchLockPlan)
    : Prog StackOp (result GitHubStackBranchLockReceipt GitHubStackBranchLockError) :=
  match expected_lock repository plan with
  | Err e => Ret (Err e)
  | Ok expected =>
      let receipt disposition request_id lock :=
        lock_receipt plan repository LockAcquire disposition "POST" (rulesets_path repository) request_id
          (Some (bind_selected_pull_requests lock plan)) in
      let? existing := find_stack_branch_lock repository (lk_name expected) in
      match existing with
      | Some existing =>
          Ret (if same_lock_policy existing expected then Ok (receipt LockAlreadySatisfied None existing)
               else Err (NameCollision (lk_name expected)))
      | None =>
          let! response := perform (StackRun (create_ruleset_command repository expected)) in
          let! rediscovered := find_stack_branch_lock repository (lk_name expected) in
          let unproved := if response_ok response && is_ok rediscovered then LockPostconditionFailed LockAcquire
                          else ambiguous LockAcquire (response_diagnostic response) rediscovered in
          Ret (match rediscovered with
               | Ok (Some actual) =>
                   if same_lock_policy actual expected
                   then Ok (receipt (if response_ok response then LockCompleted else RecoveredAfterAmbiguousResponse)
                              (response_id response) actual)
                   else Err unproved
               | _ => Err unproved
               end)
      end
  end.

Definition native_stack_branch_lock_verify (repository : RepositoryId) (expected : GitHubStackBranchLockGeneration)
    : Prog StackOp (result GitHubStackBranchLockGeneration GitHubStackBranchLockError) :=
  let? actual := read_stack_branch_lock repository (lk_id expected) in
  let actual := set_pull_requests (lk_selected_pull_requests expected) <$> actual in
  Ret (match actual with
       | Some lock => if bool_decide (lock = expected) then Ok lock else Err (StaleLock expected actual)
       | None => Err (StaleLock expected actual)
       end).

Definition native_stack_branch_lock_release (repository : RepositoryId) (plan : GitHubStackBranchLockPlan)
    (expected : GitHubStackBranchLockGeneration)
    : Prog StackOp (result GitHubStackBranchLockReceipt GitHubStackBranchLockError) :=
  let receipt disposition request_id :=
    lock_receipt plan repository LockRelease disposition "DELETE" (ruleset_path repository (lk_id expected)) request_id None in
  match validate_lock_plan repository plan with
  | Err e => Ret (Err e)
  | Ok _ =>
      let? before := read_stack_branch_lock repository (lk_id expected) in
      match set_pull_requests (lk_selected_pull_requests expected) <$> before with
      | None =>
          let? actual := find_stack_branch_lock repository (lk_name expected) in
          Ret (match actual with
               | Some actual => Err (StaleLock expected (Some actual))
               | None => Ok (receipt LockAlreadySatisfied None)
               end)
      | Some before =>
          if negb (bool_decide (before = expected)) then Ret (Err (StaleLock expected (Some before)))
          else
            let! response := perform (StackRun (delete_ruleset_command repository (lk_id expected))) in
            let! after := read_stack_branch_lock repository (lk_id expected) in
            let! after := match after with
                          | Ok None => find_stack_branch_lock repository (lk_name expected)
                          | other => Ret other
                          end in
            Ret (match after with
                 | Ok None => Ok (receipt (if response_ok response then LockCompleted else RecoveredAfterAmbiguousResponse)
                                    (response_id response))
                 | _ => Err (if response_ok response && is_ok after then LockPostconditionFailed LockRelease
                             else ambiguous LockRelease (response_diagnostic response) after)
                 end)
      end
  end.

(** ** Abandoned locks *)

Fixpoint read_active_locks (repository : RepositoryId) (summaries : list RulesetSummary)
    : Prog StackOp (result (list GitHubStackBranchLockGeneration) GitHubStackBranchLockError) :=
  match summaries with
  | [] => Ret (Ok [])
  | summary :: rest =>
      if starts_with NAME_PREFIX (rs_name summary)
      then
        let? lock := read_stack_branch_lock repository (rs_id summary) in
        let? locks := read_active_locks repository rest in
        Ret (Ok (match lock with Some lock => lock :: locks | None => locks end))
      else read_active_locks repository rest
  end.
Definition list_active_stack_branch_locks (repository : RepositoryId)
    : Prog StackOp (result (list GitHubStackBranchLockGeneration) GitHubStackBranchLockError) :=
  let? summaries := map_err (json decode_summaries (list_rulesets_command repository)) LockProvider in
  read_active_locks repository summaries.

Definition delete_stack_branch_lock (repository : RepositoryId) (lock : GitHubStackBranchLockGeneration)
    : Prog StackOp (result unit GitHubStackBranchLockError) :=
  let command := delete_ruleset_command repository (lk_id lock) in
  let? output := map_err (perform (StackRun command)) (λ error, LockProvider (Runner error)) in
  Ret (if is_success output || contains_str "HTTP 404" (out_stderr output) then Ok ()
       else Err (LockProvider (CommandFailed command (out_code output) (out_stderr output)))).
End lock.
