(* ===== verification/StackLockProofs.v ===== *)
(** The machine a native Stack transaction runs on, whose environment answers
    freely, and what the branch lock rests on. *)

From Stdlib Require Import Ascii String.
From S2P Require Import Prelude Text Json Model Generation Programs RemoteLease Command CiEvidence StackLock.

#[local] Open Scope string_scope.
#[local] Open Scope list_scope.
#[local] Open Scope nat_scope.
#[local] Open Scope caravan_scope.

(** ** The machine *)

Inductive StackEvent :=
| EvRun (c : CommandSpec) (answer : Ran)
| EvSubmit (operation_id : string) (c : CommandSpec) (answer : Ran)
| EvGeneration (number : N) (answer : result (option GitHubStackGeneration) string)
| EvPullRequest (number : PrNumber) (answer : result PullRequestSnapshot string)
| EvMergeCommit (number : PrNumber) (answer : result (option CommitOid) string)
| EvCompare (base head : CommitOid) (answer : result CommitRelation string).
Record StackChoice := mkStackChoice {
  sc_ran : Ran;
  sc_generation : result (option GitHubStackGeneration) string;
  sc_pull_request : result PullRequestSnapshot string;
  sc_merge_commit : result (option CommitOid) string;
  sc_relation : result CommitRelation string }.
Abbreviation StackLog := (list StackEvent).

Definition exec_stack (R : Type) (c : StackChoice) (op : StackOp R) (log : StackLog) : R * StackLog :=
  match op in StackOp R return R * StackLog with
  | StackRun command => (sc_ran c, log ++ [EvRun command (sc_ran c)])
  | StackSubmit id command => (sc_ran c, log ++ [EvSubmit id command (sc_ran c)])
  | StackGeneration number => (sc_generation c, log ++ [EvGeneration number (sc_generation c)])
  | StackPullRequest number => (sc_pull_request c, log ++ [EvPullRequest number (sc_pull_request c)])
  | StackMergeCommit number => (sc_merge_commit c, log ++ [EvMergeCommit number (sc_merge_commit c)])
  | StackCompare base head => (sc_relation c, log ++ [EvCompare base head (sc_relation c)])
  end.

(** The event of a write. *)
Definition stack_write (e : StackEvent) : Prop :=
  match e with EvRun c _ => writes c | EvSubmit _ _ _ => True | _ => False end.

(** A program that writes nothing. *)
Definition stack_reads {R} (op : StackOp R) : Prop :=
  match op with StackRun c => ¬ writes c | StackSubmit _ _ => False | _ => True end.
Fixpoint reads_only {A} (p : Prog StackOp A) : Prop :=
  match p with
  | Ret _ => True
  | Vis op k => stack_reads op ∧ ∀ r, reads_only (k r)
  end.

Lemma reads_only_bind {A B} (p : Prog StackOp A) (f : A → Prog StackOp B) :
  reads_only p → (∀ a, reads_only (f a)) → reads_only (pbind p f).
Proof. induction p as [a | R op k IH]; cbn; [auto |]. intros [Hop Hk] Hf. split; [done |]. auto. Qed.
Lemma reads_only_try {A B E} (p : Prog StackOp (result A E)) (f : A → Prog StackOp (result B E)) :
  reads_only p → (∀ a, reads_only (f a)) → reads_only (ebind p f).
Proof. intros Hp Hf. apply reads_only_bind; [done |]. by intros [a | e]. Qed.
Lemma reads_only_map_err {A E F} (p : Prog StackOp (result A E)) (f : E → F) : reads_only p → reads_only (map_err p f).
Proof. intros Hp. by apply reads_only_bind. Qed.

Lemma holds_and {A} (I J : StackLog → Prop) (p : Prog StackOp A) (P Q : A → StackLog → Prop) log :
  holds exec_stack I p P log → holds exec_stack J p Q log →
  holds exec_stack J p (λ a log, P a log ∧ Q a log) log.
Proof.
  revert log. induction p as [a | R op k IH]; intros log; [done |]. intros HP HQ c. specialize (HP c). specialize (HQ c).
  destruct (exec_stack R c op log) as [r log']. destruct HP, HQ. split; [done |]. by apply IH.
Qed.

(** Such a program keeps what further reads keep. *)
Lemma reads_keep {A} (I : StackLog → Prop) (p : Prog StackOp A) log :
  (∀ log e, I log → ¬ stack_write e → I (log ++ [e])) → reads_only p → I log → holds exec_stack I p (λ _, I) log.
Proof.
  intros Hsnoc. revert log. induction p as [a | R op k IH]; intros log; [done |]. intros [Hop Hk] HI c. cbn.
  destruct (exec_stack R c op log) as [r log'] eqn:Hexec.
  assert (I log') as HI' by (destruct op; injection Hexec as <- <-; (apply Hsnoc; [done |]); cbn in *; tauto). split; [done |]. by apply IH.
Qed.

(** ** The requests of the lock *)

Section lock.
Context `{!LockHost}.

Lemma api_get arguments :
  existsb method_pair (pairs ("api" :: arguments)) = false → existsb query_mutates ("api" :: arguments) = false →
  ¬ writes (args (new_command "gh") ("api" :: arguments)).
Proof.
  intros Hm Hq [Hw | [intent Hw]]; [done |]. revert Hw. unfold inferred_write_intent.
  change (cm_args _) with ("api" :: arguments). rewrite Hm, Hq. done.
Qed.
Lemma ruleset_get_reads path : query_mutates path = false → ¬ writes (ruleset_api_command "GET" path false).
Proof.
  intros Hpath. change (ruleset_api_command "GET" path false)
    with (args (new_command "gh") ["api"; "--method"; "GET"; "-H"; ACCEPT; "-H"; API_VERSION; path]).
  apply api_get; [done |]. change (false || (false || (false || (false || (false || (false || (false || (query_mutates path || false))))))) = false)%bool.
  by rewrite Hpath.
Qed.
Lemma list_rulesets_reads repository : ¬ writes (list_rulesets_command repository).
Proof. by apply ruleset_get_reads. Qed.
Lemma read_ruleset_reads repository id : ¬ writes (read_ruleset_command repository id).
Proof. by apply ruleset_get_reads. Qed.

Lemma read_lock_reads repository id : reads_only (read_stack_branch_lock repository id).
Proof. apply reads_only_try; [apply reads_only_map_err; split; [apply read_ruleset_reads | done] |]. done. Qed.
Lemma json_reads {T} (decode : string → result T string) c : ¬ writes c → reads_only (json decode c).
Proof.
  intros Hc. apply reads_only_try; [| done]. apply reads_only_try; [| done]. by apply reads_only_map_err.
Qed.
Lemma find_lock_reads repository name : reads_only (find_stack_branch_lock repository name).
Proof.
  apply reads_only_try; [apply reads_only_map_err, json_reads, list_rulesets_reads |]. intros summaries.
  destruct (List.filter _ summaries) as [| found [|]]; [by case_match | apply read_lock_reads | done].
Qed.
Lemma verify_reads repository lock : reads_only (native_stack_branch_lock_verify repository lock).
Proof. apply reads_only_try; [apply read_lock_reads |]. done. Qed.

(** ** What a ruleset protects *)

(** The ruleset is active, nobody passes it, and it forbids updates and deletions
    of exactly these refs. *)
Record protects (response : RulesetResponse) (refs : list string) : Prop := {
  pt_active : rl_enforcement response = "active";
  pt_target : rl_target response = "branch";
  pt_bypass : rl_bypass_actors response = [] ∧ rl_current_user_can_bypass response = "never";
  pt_exclude : rl_exclude response = [];
  pt_refs : rl_include response ≡ₚ refs;
  pt_rules : ∀ rule, rule ∈ rl_rules response ↔ rule = "deletion" ∨ rule = "update" }.

(** The ruleset of this id was shown to be the lock. *)
Definition shown (e : StackEvent) (repository : RepositoryId) (lock : GitHubStackBranchLockGeneration) : Prop :=
  ∃ out response, e = EvRun (read_ruleset_command repository (lk_id lock)) (Ok out) ∧ is_success out = true
  ∧ decode_ruleset (out_stdout out) = Ok response
  ∧ observed_lock repository response = Ok (set_pull_requests [] lock).
Definition absent_by_id (e : StackEvent) (repository : RepositoryId) (id : N) : Prop :=
  ∃ out, e = EvRun (read_ruleset_command repository id) (Ok out) ∧ is_success out = false
  ∧ contains_str "HTTP 404" (out_stderr out) = true.
Definition absent_by_name (e : StackEvent) (repository : RepositoryId) (name : string) : Prop :=
  ∃ out summaries, e = EvRun (list_rulesets_command repository) (Ok out) ∧ is_success out = true
  ∧ decode_summaries (out_stdout out) = Ok summaries ∧ length summaries ≠ RULESET_PAGE_SIZE
  ∧ ∀ summary, summary ∈ summaries → rs_name summary ≠ name.

Lemma observed_protects repository response lock :
  observed_lock repository response = Ok lock → lk_enforcement lock = "active" → lk_target lock = "branch" →
  lk_current_user_can_bypass lock = "never" → protects response (lk_selected_refs lock).
Proof.
  unfold observed_lock. destruct (rl_exclude response) eqn:Hexclude, (rl_bypass_actors response) eqn:Hactors; [| done..]. cbn [length Nat.eqb negb orb].
  destruct (bool_decide_reflect ((list_to_set (rl_rules response) : gset string) = list_to_set ["deletion"; "update"]))
    as [Hrules |]; [cbn [negb] | done]. intros [= <-] Hactive Htarget Hbypass. cbn in Hactive, Htarget, Hbypass |- *.
  split; try done.
  - symmetry. apply sort_by_key_Permutation.
  - intros rule. rewrite <- (elem_of_list_to_set (C := gset string)), Hrules, elem_of_list_to_set.
    rewrite elem_of_cons, list_elem_of_singleton. done.
Qed.

(** ** Reads of the lock *)

#[local] Abbreviation runs p := (holds exec_stack (λ _, True) p).

Lemma read_lock_spec (I : StackLog → Prop) repository id log (Q : result (option GitHubStackBranchLockGeneration) GitHubStackBranchLockError → StackLog → Prop) :
  (∀ answer, I (log ++ [EvRun (read_ruleset_command repository id) answer])) →
  (∀ e answer, Q (Err e) (log ++ [EvRun (read_ruleset_command repository id) answer])) →
  (∀ out, absent_by_id (EvRun (read_ruleset_command repository id) (Ok out)) repository id →
     Q (Ok None) (log ++ [EvRun (read_ruleset_command repository id) (Ok out)])) →
  (∀ out response lock, is_success out = true → decode_ruleset (out_stdout out) = Ok response →
     observed_lock repository response = Ok lock →
     Q (Ok (Some lock)) (log ++ [EvRun (read_ruleset_command repository id) (Ok out)])) →
  holds exec_stack I (read_stack_branch_lock repository id) Q log.
Proof.
  intros HI He Hn Hs. unfold read_stack_branch_lock. apply holds_try, holds_map_err. intros c. cbn.
  split; [done |]. destruct (sc_ran c) as [out | e]; [| done]. cbn.
  destruct (is_success out) eqn:Hok.
  - destruct (decode_ruleset _) as [response | m] eqn:Hd; [| done].
    destruct (observed_lock repository response) as [lock | e] eqn:Ho; [| done]. by eapply Hs.
  - destruct (contains_str _ _) eqn:H404; [| done]. apply Hn. by exists out.
Qed.

Lemma list_spec (I : StackLog → Prop) repository log (Q : result (list RulesetSummary) GitHubStackBranchLockError → StackLog → Prop) :
  (∀ answer, I (log ++ [EvRun (list_rulesets_command repository) answer])) →
  (∀ e answer, Q (Err e) (log ++ [EvRun (list_rulesets_command repository) answer])) →
  (∀ out summaries, is_success out = true → decode_summaries (out_stdout out) = Ok summaries →
     Q (Ok summaries) (log ++ [EvRun (list_rulesets_command repository) (Ok out)])) →
  holds exec_stack I (map_err (json decode_summaries (list_rulesets_command repository)) LockProvider) Q log.
Proof.
  intros HI He Hs. apply holds_map_err. unfold json, checked. apply holds_try, holds_try, holds_map_err. intros c. cbn.
  split; [done |]. destruct (sc_ran c) as [out | e]; [| done]. cbn. destruct (is_success out) eqn:Hok; [| done]. cbn.
  destruct (decode_summaries _) as [summaries | m] eqn:Hd; [by eapply Hs | done].
Qed.

(** The lock was found by its name, or is absent: [J] is what reads keep, and
    has the invariant [I]. *)
Lemma find_lock_spec (I J : StackLog → Prop) repository name log
    (Q : result (option GitHubStackBranchLockGeneration) GitHubStackBranchLockError → StackLog → Prop) :
  (∀ log e, J log → ¬ stack_write e → J (log ++ [e])) → (∀ log, J log → I log) → J log →
  (∀ e log', J log' → Q (Err e) log') →
  (∀ before e, absent_by_name e repository name ∨ (∃ id, absent_by_id e repository id) → J (before ++ [e]) →
     Q (Ok None) (before ++ [e])) →
  (∀ before out response lock id, is_success out = true → decode_ruleset (out_stdout out) = Ok response →
     observed_lock repository response = Ok lock → J (before ++ [EvRun (read_ruleset_command repository id) (Ok out)]) →
     Q (Ok (Some lock)) (before ++ [EvRun (read_ruleset_command repository id) (Ok out)])) →
  holds exec_stack I (find_stack_branch_lock repository name) Q log.
Proof.
  intros Hsnoc HJI HJ He Hn Hs. unfold find_stack_branch_lock. apply holds_try.
  assert (∀ answer, J (log ++ [EvRun (list_rulesets_command repository) answer])) as HJ1
    by (intros answer; apply Hsnoc; [done | apply list_rulesets_reads]).
  apply list_spec; [auto | by intros; apply He |]. intros out summaries Hok Hd.
  destruct (List.filter _ summaries) as [| found [|]] eqn:Hfilter; [| | by apply He].
  - cbn. destruct (Nat.eqb_spec (length summaries) RULESET_PAGE_SIZE); [by apply He |]. apply Hn; [left | done].
    exists out, summaries. split_and!; try done. intros summary Hin Hname.
    assert (summary ∈ List.filter (λ ruleset, String.eqb (rs_name ruleset) name) summaries) as Hf
      by (apply elem_of_list_filter_b; split; [done | by apply String.eqb_eq]).
    rewrite Hfilter in Hf. by apply elem_of_nil in Hf.
  - set (log1 := log ++ [EvRun (list_rulesets_command repository) (Ok out)]).
    assert (∀ answer, J (log1 ++ [EvRun (read_ruleset_command repository (rs_id found)) answer])) as HJ2
      by (intros answer; apply Hsnoc; [apply HJ1 | apply read_ruleset_reads]).
    apply read_lock_spec; intros; eauto.
Qed.

(** ** One write *)

Definition quiet (log : StackLog) : Prop := ∀ e, e ∈ log → ¬ stack_write e.
(** A write of the log stands where [W] allows it, and is the only one. *)
Definition only_write (W : StackLog → StackEvent → Prop) (log : StackLog) : Prop :=
  ∀ i e, log !! i = Some e → stack_write e → W (take i log) e ∧ quiet (take i log).

Lemma quiet_snoc log e : quiet log → ¬ stack_write e → quiet (log ++ [e]).
Proof. intros Hq He e' [Hin | ->%list_elem_of_singleton]%elem_of_app; auto. Qed.
Lemma quiet_only W log : quiet log → only_write W log.
Proof. intros Hq i e Hi Hw. destruct (Hq e); [by eapply list_elem_of_lookup_2 | done]. Qed.
Lemma only_write_snoc W log e :
  only_write W log → (stack_write e → W log e ∧ quiet log) → only_write W (log ++ [e]).
Proof.
  intros Hlog He i e' [[Hlt Hi] | [-> <-]]%lookup_snoc_Some Hw.
  - rewrite take_app_le by lia. by apply Hlog.
  - rewrite take_app_length. by apply He.
Qed.
Lemma quiet_nil : quiet [].
Proof. by intros e ?%elem_of_nil. Qed.

(** ** The lock *)

Lemma drive_proves {A E} I (p : Prog StackOp (result A E)) (Q : A → StackLog → Prop) choices log :
  I log → holds exec_stack I p (λ r log, ∀ a, r = Ok a → Q a log) log →
  I (drive exec_stack choices p log).2 ∧
  ∀ a, (drive exec_stack choices p log).1 = Some (Ok a) → Q a (drive exec_stack choices p log).2.
Proof. intros HI Hp. destruct (drive_holds _ _ _ _ choices _ HI Hp) as [H1 H2]. split; [done |]. intros a Ha. by eapply H2. Qed.

Lemma validated_quiet_find W repository name log (Q : result (option GitHubStackBranchLockGeneration) GitHubStackBranchLockError → StackLog → Prop) :
  quiet log → (∀ e log', quiet log' → Q (Err e) log') →
  (∀ before e, absent_by_name e repository name ∨ (∃ id, absent_by_id e repository id) → quiet (before ++ [e]) →
     Q (Ok None) (before ++ [e])) →
  (∀ before out response lock id, is_success out = true → decode_ruleset (out_stdout out) = Ok response →
     observed_lock repository response = Ok lock → quiet (before ++ [EvRun (read_ruleset_command repository id) (Ok out)]) →
     Q (Ok (Some lock)) (before ++ [EvRun (read_ruleset_command repository id) (Ok out)])) →
  holds exec_stack (only_write W) (find_stack_branch_lock repository name) Q log.
Proof. apply find_lock_spec; [apply quiet_snoc | apply quiet_only]. Qed.

(** The rule for one command. *)
Lemma holds_stack_run {B} I c (k : Ran → Prog StackOp B) Q log :
  (∀ answer, I (log ++ [EvRun c answer]) ∧ holds exec_stack I (k answer) Q (log ++ [EvRun c answer])) →
  holds exec_stack I (pbind (perform (StackRun c)) k) Q log.
Proof. intros Hrun answer. exact (Hrun (sc_ran answer)). Qed.

(** What a receipt of an acquired lock shows: the last read of the log. *)
Definition acquired (repository : RepositoryId) (plan : GitHubStackBranchLockPlan) (receipt : GitHubStackBranchLockReceipt)
    (log : StackLog) : Prop :=
  lock_receipt_verify receipt = true ∧
  ∃ before id out response lock, log = before ++ [EvRun (read_ruleset_command repository id) (Ok out)]
  ∧ is_success out = true ∧ decode_ruleset (out_stdout out) = Ok response
  ∧ observed_lock repository response = Ok lock ∧ lr_lock receipt = Some (bind_selected_pull_requests lock plan)
  ∧ lk_name lock = lock_name repository plan ∧ protects response (head_ref <$> lp_selected plan).

(** Where the creation of a ruleset may stand. *)
Definition creates (repository : RepositoryId) (plan : GitHubStackBranchLockPlan) (before : StackLog) (e : StackEvent) : Prop :=
  ∃ expected answer, expected_lock repository plan = Ok expected
  ∧ e = EvRun (create_ruleset_command repository expected) answer
  ∧ ∃ before' last, before = before' ++ [last]
    ∧ (absent_by_name last repository (lk_name expected) ∨ ∃ id, absent_by_id last repository id).

Lemma sealed_verifies r : lock_receipt_verify (lock_receipt_seal r) = true.
Proof. unfold lock_receipt_verify, lock_receipt_seal. apply String.eqb_refl. Qed.

Lemma expected_lock_facts repository plan expected :
  expected_lock repository plan = Ok expected →
  lk_name expected = lock_name repository plan ∧ lk_selected_refs expected = vec_sort (head_ref <$> lp_selected plan).
Proof. unfold expected_lock. destruct (validate_lock_plan _ _); [| done]. by intros [= <-]. Qed.

Lemma same_policy_acquired repository plan expected before id out response lock disposition request_id :
  expected_lock repository plan = Ok expected → is_success out = true → decode_ruleset (out_stdout out) = Ok response →
  observed_lock repository response = Ok lock → same_lock_policy lock expected = true →
  acquired repository plan
    (lock_receipt plan repository LockAcquire disposition "POST" (rulesets_path repository) request_id
       (Some (bind_selected_pull_requests lock plan)))
    (before ++ [EvRun (read_ruleset_command repository id) (Ok out)]).
Proof.
  intros Hexpected Hok Hd Ho Hsame. split; [apply sealed_verifies |]. exists before, id, out, response, lock.
  unfold same_lock_policy in Hsame. bool_prop.
  repeat match goal with H : String.eqb _ _ = true |- _ => apply String.eqb_eq in H end.
  apply expected_lock_facts in Hexpected as [Hname Hrefs]. split_and!; try done; [congruence |].
  pose proof (observed_protects _ _ _ Ho) as Hp. destruct Hp as [? ? ? ? Hperm ?]; [done.. |]. split; try done.
  rewrite Hperm. replace (lk_selected_refs lock) with (vec_sort (head_ref <$> lp_selected plan)) by congruence.
  apply sort_by_key_Permutation.
Qed.

(** C20. A branch lock is proved by a read. Whatever the provider answers, an
    acquisition writes at most once, the creation of the expected ruleset, and
    only directly behind the proof that no ruleset has its name; and a receipt
    verifies and names the ruleset that the last read showed: active, without
    bypass or exclusion, and with exactly the rules against updates and
    deletions of exactly the source branches of the plan. *)
Theorem lock_acquisition_is_proved repository plan choices :
  let run := drive exec_stack choices (native_stack_branch_lock_acquire repository plan) [] in
  only_write (creates repository plan) run.2
  ∧ ∀ receipt, run.1 = Some (Ok receipt) → acquired repository plan receipt run.2.
Proof.
  cbn zeta. apply drive_proves; [apply quiet_only, quiet_nil |].
  unfold native_stack_branch_lock_acquire. destruct (expected_lock repository plan) as [expected | e] eqn:Hexpected; [| done].
  apply holds_try, validated_quiet_find; [apply quiet_nil | done | |].
  - intros before last Habsent Hq. cbv iota beta. apply holds_stack_run. intros answer.
    set (log1 := before ++ [last]) in *.
    assert (only_write (creates repository plan) (log1 ++ [EvRun (create_ruleset_command repository expected) answer])) as H1.
    { apply only_write_snoc; [by apply quiet_only |]. intros _. split; [| done]. exists expected, answer.
      split_and!; [done | done |]. by exists before, last. }
    split; [done |]. apply holds_bind.
    apply (find_lock_spec _ (only_write (creates repository plan))); [| done | done | | |].
    + intros log e Hlog He. apply only_write_snoc; done.
    + done.
    + by intros before' e' _ _ receipt.
    + intros before' out response lock id Hok Hd Ho _. cbn. destruct (same_lock_policy lock expected) eqn:Hsame; [| done].
      intros receipt [= <-]. by eapply same_policy_acquired.
  - intros before out response lock id Hok Hd Ho _. cbn. destruct (same_lock_policy lock expected) eqn:Hsame; [| done].
    intros receipt [= <-]. by eapply same_policy_acquired.
Qed.

(** Where the deletion of a ruleset may stand. *)
Definition deletes (repository : RepositoryId) (lock : GitHubStackBranchLockGeneration) (before : StackLog) (e : StackEvent) : Prop :=
  ∃ answer, e = EvRun (delete_ruleset_command repository (lk_id lock)) answer
  ∧ ∃ before' last, before = before' ++ [last] ∧ shown last repository lock.

Lemma read_is_shown repository out response lock expected :
  is_success out = true → decode_ruleset (out_stdout out) = Ok response → observed_lock repository response = Ok lock →
  set_pull_requests (lk_selected_pull_requests expected) lock = expected →
  shown (EvRun (read_ruleset_command repository (lk_id expected)) (Ok out)) repository expected.
Proof.
  intros Hok Hd Ho Heq. exists out, response. split_and!; try done. rewrite Ho, <- Heq. f_equal.
  unfold observed_lock in Ho. destruct (_ || _); [done |]. destruct (negb _); [done |]. by injection Ho as <-.
Qed.

(** Only the exact lock is released. Whatever the provider answers, a release
    writes at most once, the deletion of the ruleset, and only directly behind a
    read that showed exactly the expected generation of the lock; a receipt
    verifies and its log ends with the proof that no ruleset has the id or the
    name of the lock. *)
Theorem lock_release_is_exact repository plan lock choices :
  let run := drive exec_stack choices (native_stack_branch_lock_release repository plan lock) [] in
  only_write (deletes repository lock) run.2
  ∧ ∀ receipt, run.1 = Some (Ok receipt) →
    lock_receipt_verify receipt = true
    ∧ (∃ out, EvRun (read_ruleset_command repository (lk_id lock)) (Ok out) ∈ run.2
        ∧ absent_by_id (EvRun (read_ruleset_command repository (lk_id lock)) (Ok out)) repository (lk_id lock))
    ∧ ∃ before e, run.2 = before ++ [e] ∧ (absent_by_name e repository (lk_name lock) ∨ ∃ id, absent_by_id e repository id).
Proof.
  cbn zeta. apply (drive_proves _ _ (λ receipt log, lock_receipt_verify receipt = true
    ∧ (∃ out, EvRun (read_ruleset_command repository (lk_id lock)) (Ok out) ∈ log
        ∧ absent_by_id (EvRun (read_ruleset_command repository (lk_id lock)) (Ok out)) repository (lk_id lock))
    ∧ ∃ before e, log = before ++ [e] ∧ (absent_by_name e repository (lk_name lock) ∨ ∃ id, absent_by_id e repository id)));
    [apply quiet_only, quiet_nil |].
  unfold native_stack_branch_lock_release. destruct (validate_lock_plan repository plan); [| done].
  assert (∀ log answer, quiet log → quiet (log ++ [EvRun (read_ruleset_command repository (lk_id lock)) answer])) as Hread
    by (intros log answer Hq; apply quiet_snoc; [done | apply read_ruleset_reads]).
  assert (∀ log e, only_write (deletes repository lock) log → ¬ stack_write e → only_write (deletes repository lock) (log ++ [e])) as Hkeep
    by (intros log e Hlog He; by apply only_write_snoc).
  apply holds_try, read_lock_spec.
  - intros answer. apply quiet_only, Hread, quiet_nil.
  - done.
  - intros out Habsent. cbv iota beta. cbn [fmap option_fmap option_map]. set (log1 := [] ++ [_]).
    apply holds_try, (find_lock_spec _ (λ log, quiet log ∧ EvRun (read_ruleset_command repository (lk_id lock)) (Ok out) ∈ log)).
    + intros log e [Hq Hin] He. split; [by apply quiet_snoc | apply elem_of_app; by left].
    + intros log [Hq _]. by apply quiet_only.
    + split; [apply Hread, quiet_nil | apply list_elem_of_here].
    + done.
    + intros before e He [_ Hin] receipt [= <-]. split; [apply sealed_verifies |]. split; [by exists out | by exists before, e].
    + done.
  - intros out response actual Hok Hd Ho. cbv iota beta. cbn [fmap option_fmap option_map].
    destruct (bool_decide_reflect (set_pull_requests (lk_selected_pull_requests lock) actual = lock)) as [Hsame |]; [cbn [negb] | done].
    set (log1 := [] ++ [_]). apply holds_stack_run. intros answer.
    assert (only_write (deletes repository lock) (log1 ++ [EvRun (delete_ruleset_command repository (lk_id lock)) answer])) as H1.
    { apply only_write_snoc; [apply quiet_only, Hread, quiet_nil |]. intros _. split; [| apply Hread, quiet_nil].
      exists answer. split; [done |]. eexists [], _. split; [done |]. by eapply read_is_shown. }
    split; [done |]. apply holds_bind, read_lock_spec.
    + intros answer'. apply Hkeep; [done | apply read_ruleset_reads].
    + intros e answer' receipt. cbn. by destruct (response_ok answer).
    + intros out' Habsent. cbv iota beta. set (log2 := (log1 ++ _) ++ _). apply holds_bind.
      apply (find_lock_spec _ (λ log, only_write (deletes repository lock) log ∧ EvRun (read_ruleset_command repository (lk_id lock)) (Ok out') ∈ log)).
      * intros log e [Hq Hin] He. split; [by apply Hkeep | apply elem_of_app; by left].
      * by intros log [Hq _].
      * split; [apply Hkeep; [done | apply read_ruleset_reads] | apply elem_of_app; right; apply list_elem_of_here].
      * done.
      * intros before e He [_ Hin] receipt [= <-]. split; [apply sealed_verifies |]. split; [by exists out' | by exists before, e].
      * done.
    + intros out' response' actual' _ _ _ receipt. done.
Qed.
End lock.
