(* ===== verification/StackMerge.v ===== *)
(** The merge of a native Stack: src/src/github/stack_merge.rs. The ready prefix
    of a Stack, its submission as one asynchronous merge under the branch lock,
    the polls of its identifier, and the fresh truth that proves its outcome. *)

From Stdlib Require Import Ascii String.
From S2P Require Import Prelude Text Json Model Generation Programs RemoteLease Command CiEvidence StackLock.

#[local] Open Scope string_scope.
#[local] Open Scope list_scope.
#[local] Open Scope nat_scope.
#[local] Open Scope caravan_scope.

(** ** The ready prefix *)

Inductive GitHubStackMergeBlocker :=
| StackClosed | PullRequestNotOpen | DraftEntry | StackEntryNotOpen | GraphInexact | SyntheticCandidateMissing
| SyntheticCandidateStale | SyntheticCandidateTopologyMismatch | HeldEntry | MechanicallyBlocked | RequiredChecksNotReady
| ForceUnsupported.
#[export] Instance GitHubStackMergeBlocker_eq_dec : EqDecision GitHubStackMergeBlocker.
Proof. solve_decision. Defined.

Record GitHubStackMergeEntryEvidence := mkEntryEvidence {
  ev_generation : GitHubStackEntryGeneration;
  ev_blockers : list GitHubStackMergeBlocker }.
Record GitHubStackBlockedEntry := mkBlockedEntry {
  bl_pr : PrNumber;
  bl_position : N;
  bl_blockers : list GitHubStackMergeBlocker }.
Record GitHubStackReadyPrefix := mkReadyPrefix {
  rp_stack : GitHubStackGeneration;
  rp_selected : list GitHubStackEntryGeneration;
  rp_first_blocked : option GitHubStackBlockedEntry }.

Inductive GitHubStackMergeMethod := SquashMethod.
Inductive GitHubStackMergeAction := DirectMerge.
#[export] Instance GitHubStackMergeMethod_eq_dec : EqDecision GitHubStackMergeMethod.
Proof. solve_decision. Defined.
#[export] Instance GitHubStackMergeAction_eq_dec : EqDecision GitHubStackMergeAction.
Proof. solve_decision. Defined.
Definition method_value (m : GitHubStackMergeMethod) : string := match m with SquashMethod => "squash" end.
Definition action_value (a : GitHubStackMergeAction) : string := match a with DirectMerge => "direct_merge" end.

Record GitHubStackAsyncMergePlan := mkMergePlan {
  mp_operation_id : string;
  mp_actor : string;
  mp_before : GitHubStackGeneration;
  mp_selected : list GitHubStackEntryGeneration;
  mp_merge_method : GitHubStackMergeMethod;
  mp_merge_action : GitHubStackMergeAction }.
#[export] Instance GitHubStackAsyncMergePlan_eq_dec : EqDecision GitHubStackAsyncMergePlan.
Proof. solve_decision. Defined.

Definition entries_of (stack : GitHubStackGeneration) : list GitHubStackEntryGeneration := tp_entries (gn_topology stack).
Definition entry_is_open (entry : GitHubStackEntryGeneration) : bool := bool_decide (en_state entry = Open).
(** The position of the first open entry, or the end. *)
Definition first_open (stack : GitHubStackGeneration) : nat :=
  default (length (entries_of stack)) (position entry_is_open (entries_of stack)).

Definition branch_lock_plan (plan : GitHubStackAsyncMergePlan) : GitHubStackBranchLockPlan :=
  mkLockPlan (mp_operation_id plan) (mp_actor plan) (gn_number (mp_before plan)) (entries_of (mp_before plan)).

Inductive GitHubStackMergeError :=
| MergeInvalidPlan (code message : string)
| StaleGeneration (expected : GitHubStackGeneration) (actual : option GitHubStackGeneration)
| InvalidCheckpoint (diagnostic : string)
| MergeStack (message : string)
| MergeLock (error : GitHubStackBranchLockError).

Definition direct_squash_plan (prefix : GitHubStackReadyPrefix) (operation_id actor : string)
    : result GitHubStackAsyncMergePlan GitHubStackMergeError :=
  if 0 =? length (rp_selected prefix)
  then Err (MergeInvalidPlan "github_stack_no_ready_prefix" "native Stack merge requires at least one ready bottom entry")
  else Ok (mkMergePlan operation_id actor (rp_stack prefix) (rp_selected prefix) SquashMethod DirectMerge).

Definition entry_blockers (stack : GitHubStackGeneration) (item : GitHubStackMergeEntryEvidence) : list GitHubStackMergeBlocker :=
  let entry := ev_generation item in
  (if gn_open stack then [] else [StackClosed])
  ++ (if entry_is_open entry then [] else [PullRequestNotOpen])
  ++ (if en_draft entry then [DraftEntry] else [])
  ++ (if eq_ignore_ascii_case (en_stack_state entry) "open" then [] else [StackEntryNotOpen])
  ++ ev_blockers item.
Fixpoint grow_ready (stack : GitHubStackGeneration) (evidence : list GitHubStackMergeEntryEvidence)
    : list GitHubStackEntryGeneration * option GitHubStackBlockedEntry :=
  match evidence with
  | [] => ([], None)
  | item :: rest =>
      match entry_blockers stack item with
      | [] => let '(selected, blocked) := grow_ready stack rest in (ev_generation item :: selected, blocked)
      | blockers => ([], Some (mkBlockedEntry (en_pr (ev_generation item)) (en_position (ev_generation item)) blockers))
      end
  end.
Fixpoint misaligned (index : nat) (entries : list GitHubStackEntryGeneration) (evidence : list GitHubStackMergeEntryEvidence)
    : option nat :=
  match entries, evidence with
  | entry :: entries, item :: evidence =>
      if bool_decide (entry = ev_generation item) then misaligned (index + 1) entries evidence else Some index
  | _, _ => None
  end.
Definition plan_github_stack_ready_prefix (stack : GitHubStackGeneration) (evidence : list GitHubStackMergeEntryEvidence)
    : result GitHubStackReadyPrefix GitHubStackMergeError :=
  if negb (length evidence =? length (entries_of stack))
  then Err (MergeInvalidPlan "github_stack_merge_evidence_incomplete" "merge readiness evidence must cover every Stack entry")
  else match misaligned 0 (entries_of stack) evidence with
       | Some index =>
           Err (MergeInvalidPlan "github_stack_merge_evidence_stale"
                  (fmt ["merge readiness evidence at position "; pretty (N.of_nat index); " is not the exact Stack generation"]))
       | None =>
           let '(selected, blocked) := grow_ready stack (drop (first_open stack) evidence) in
           Ok (mkReadyPrefix stack selected blocked)
       end.

(** ** Receipts *)

Record GitHubStackMergeRequestIdentity := mkMergeRequest {
  mq_method : string;
  mq_path : string;
  mq_selected_top : PrNumber;
  mq_selected_top_sha : CommitOid;
  mq_ordered_pull_requests : list PrNumber;
  mq_ordered_heads : list CommitOid;
  mq_github_request_id : option string }.
#[export] Instance GitHubStackMergeRequestIdentity_eq_dec : EqDecision GitHubStackMergeRequestIdentity.
Proof. solve_decision. Defined.

Record GitHubStackMergeCheckpoint := mkMergeCheckpoint {
  mk_schema_version : N;
  mk_repository : RepositoryId;
  mk_plan : GitHubStackAsyncMergePlan;
  mk_request : GitHubStackMergeRequestIdentity;
  mk_uuid : string;
  mk_initial_provider_status : string;
  mk_evidence_hash : string }.
#[export] Instance GitHubStackMergeCheckpoint_eq_dec : EqDecision GitHubStackMergeCheckpoint.
Proof. solve_decision. Defined.

Inductive GitHubStackMergeStatus := MergeSubmitted | MergePending | MergeEnqueued | MergeMerged | MergeFailed | MergeIndeterminate.
#[export] Instance GitHubStackMergeStatus_eq_dec : EqDecision GitHubStackMergeStatus.
Proof. solve_decision. Defined.

Record GitHubStackMergePullRequestObservation := mkMergeObserved {
  mo_pr : PrNumber;
  mo_state : PullRequestState;
  mo_draft : bool;
  mo_base : BranchSnapshot;
  mo_head : BranchSnapshot;
  mo_merged_at : option string;
  mo_merge_commit : option CommitOid }.
#[export] Instance GitHubStackMergePullRequestObservation_eq_dec : EqDecision GitHubStackMergePullRequestObservation.
Proof. solve_decision. Defined.
Definition observation_of (pr : PullRequestSnapshot) (merge_commit : option CommitOid) : GitHubStackMergePullRequestObservation :=
  mkMergeObserved (pr_number pr) (pr_state pr) (pr_draft pr) (pr_base pr) (pr_head pr) (pr_merged_at pr) merge_commit.

Inductive GitHubStackMergeCommitEvidence := CommitsMissing | CompleteUnordered | CompleteOrdered.
#[export] Instance GitHubStackMergeCommitEvidence_eq_dec : EqDecision GitHubStackMergeCommitEvidence.
Proof. solve_decision. Defined.

Record GitHubStackMergeObservation := mkMergeObservation {
  ob_default_branch : BranchSnapshot;
  ob_selected : list GitHubStackMergePullRequestObservation;
  ob_remaining : list GitHubStackMergePullRequestObservation;
  ob_stack_after : option GitHubStackGeneration;
  ob_selected_merged : nat;
  ob_selected_commit_evidence : GitHubStackMergeCommitEvidence;
  ob_selected_heads_exact : bool;
  ob_changed_selected_heads : list PrNumber;
  ob_remaining_order_exact : bool }.
#[export] Instance GitHubStackMergeObservation_eq_dec : EqDecision GitHubStackMergeObservation.
Proof. solve_decision. Defined.

Record GitHubStackMergeReceipt := mkMergeReceipt {
  mr_schema_version : N;
  mr_repository : RepositoryId;
  mr_plan : GitHubStackAsyncMergePlan;
  mr_request : GitHubStackMergeRequestIdentity;
  mr_checkpoint : option GitHubStackMergeCheckpoint;
  mr_status : GitHubStackMergeStatus;
  mr_provider_status : option string;
  mr_provider_message : option string;
  mr_provider_sha : option CommitOid;
  mr_observation : option GitHubStackMergeObservation;
  mr_evidence_hash : string }.
#[export] Instance GitHubStackMergeReceipt_eq_dec : EqDecision GitHubStackMergeReceipt.
Proof. solve_decision. Defined.

Record GitHubStackLockedMergeCheckpoint := mkLockedCheckpoint {
  lc_schema_version : N;
  lc_repository : RepositoryId;
  lc_merge : GitHubStackMergeCheckpoint;
  lc_branch_lock : GitHubStackBranchLockGeneration;
  lc_evidence_hash : string }.
#[export] Instance GitHubStackLockedMergeCheckpoint_eq_dec : EqDecision GitHubStackLockedMergeCheckpoint.
Proof. solve_decision. Defined.

Record GitHubStackLockedMergeReceipt := mkLockedReceipt {
  lm_schema_version : N;
  lm_merge : GitHubStackMergeReceipt;
  lm_branch_lock : GitHubStackBranchLockGeneration;
  lm_branch_lock_verified : bool;
  lm_checkpoint : option GitHubStackLockedMergeCheckpoint;
  lm_evidence_hash : string }.
#[export] Instance GitHubStackLockedMergeReceipt_eq_dec : EqDecision GitHubStackLockedMergeReceipt.
Proof. solve_decision. Defined.

(** What the provider answers to a submission or a poll. *)
Record ProviderAsyncMergeResult := mkAsyncResult {
  ar_uuid : option string;
  ar_status : option string;
  ar_message : option string;
  ar_sha : option CommitOid;
  ar_expected_head_sha : option CommitOid;
  ar_merge_method : option string;
  ar_merge_action : option string }.
Definition no_result : ProviderAsyncMergeResult := mkAsyncResult None None None None None None None.

Class MergeHost := {
  parse_value : string → option Value;
  decode_ref_sha : string → result string string;
  merge_checkpoint_json : GitHubStackMergeCheckpoint → list N;
  merge_receipt_json : GitHubStackMergeReceipt → list N;
  locked_checkpoint_json : GitHubStackLockedMergeCheckpoint → list N;
  locked_receipt_json : GitHubStackLockedMergeReceipt → list N }.

Section merge.
Context `{!LockHost, !MergeHost}.
#[local] Open Scope prog_scope.

Definition MERGE_SCHEMA_VERSION : N := 1.

Definition set_checkpoint_hash (hash : string) (c : GitHubStackMergeCheckpoint) : GitHubStackMergeCheckpoint :=
  mkMergeCheckpoint (mk_schema_version c) (mk_repository c) (mk_plan c) (mk_request c) (mk_uuid c)
    (mk_initial_provider_status c) hash.
Definition checkpoint_seal (c : GitHubStackMergeCheckpoint) : GitHubStackMergeCheckpoint :=
  let cleared := set_checkpoint_hash "" c in set_checkpoint_hash (fnv1a64 (merge_checkpoint_json cleared)) cleared.
Definition checkpoint_verify (c : GitHubStackMergeCheckpoint) : bool :=
  String.eqb (fnv1a64 (merge_checkpoint_json (set_checkpoint_hash "" c))) (mk_evidence_hash c).

Definition set_receipt_hash (hash : string) (r : GitHubStackMergeReceipt) : GitHubStackMergeReceipt :=
  mkMergeReceipt (mr_schema_version r) (mr_repository r) (mr_plan r) (mr_request r) (mr_checkpoint r) (mr_status r)
    (mr_provider_status r) (mr_provider_message r) (mr_provider_sha r) (mr_observation r) hash.
Definition receipt_seal (r : GitHubStackMergeReceipt) : GitHubStackMergeReceipt :=
  let cleared := set_receipt_hash "" r in set_receipt_hash (fnv1a64 (merge_receipt_json cleared)) cleared.
Definition receipt_verify (r : GitHubStackMergeReceipt) : bool :=
  String.eqb (fnv1a64 (merge_receipt_json (set_receipt_hash "" r))) (mr_evidence_hash r).

Definition set_locked_hash (hash : string) (c : GitHubStackLockedMergeCheckpoint) : GitHubStackLockedMergeCheckpoint :=
  mkLockedCheckpoint (lc_schema_version c) (lc_repository c) (lc_merge c) (lc_branch_lock c) hash.
Definition locked_checkpoint_seal (c : GitHubStackLockedMergeCheckpoint) : GitHubStackLockedMergeCheckpoint :=
  let cleared := set_locked_hash "" c in set_locked_hash (fnv1a64 (locked_checkpoint_json cleared)) cleared.
Definition locked_checkpoint_verify (c : GitHubStackLockedMergeCheckpoint) : bool :=
  String.eqb (fnv1a64 (locked_checkpoint_json (set_locked_hash "" c))) (lc_evidence_hash c).

Definition set_locked_receipt_hash (hash : string) (r : GitHubStackLockedMergeReceipt) : GitHubStackLockedMergeReceipt :=
  mkLockedReceipt (lm_schema_version r) (lm_merge r) (lm_branch_lock r) (lm_branch_lock_verified r) (lm_checkpoint r) hash.
Definition locked_receipt_seal (r : GitHubStackLockedMergeReceipt) : GitHubStackLockedMergeReceipt :=
  let cleared := set_locked_receipt_hash "" r in set_locked_receipt_hash (fnv1a64 (locked_receipt_json cleared)) cleared.
Definition locked_receipt_verify (r : GitHubStackLockedMergeReceipt) : bool :=
  String.eqb (fnv1a64 (locked_receipt_json (set_locked_receipt_hash "" r))) (lm_evidence_hash r).

Definition locked_merge_receipt (repository : RepositoryId) (merge : GitHubStackMergeReceipt)
    (branch_lock : GitHubStackBranchLockGeneration) (verified : bool) : GitHubStackLockedMergeReceipt :=
  let checkpoint := (λ merge, locked_checkpoint_seal (mkLockedCheckpoint MERGE_SCHEMA_VERSION repository merge branch_lock ""))
                    <$> mr_checkpoint merge in
  locked_receipt_seal (mkLockedReceipt MERGE_SCHEMA_VERSION merge branch_lock verified checkpoint "").

(** ** Validation *)

Definition validate_merge_plan (repository : RepositoryId) (plan : GitHubStackAsyncMergePlan) : result unit GitHubStackMergeError :=
  let before := mp_before plan in
  let invalid code message := Err (MergeInvalidPlan code message) in
  let start := first_open before in
  let stop := start + length (mp_selected plan) in
  if str_is_empty (trim (mp_operation_id plan)) then
    invalid "github_stack_merge_operation_id_missing" "native Stack merge requires a non-empty operation identity"
  else if str_is_empty (trim (mp_actor plan)) then
    invalid "github_stack_merge_actor_missing" "native Stack merge requires a non-empty actor"
  else if negb (bool_decide (br_repository (tp_base (gn_topology before)) = repository)) then
    invalid "github_stack_merge_repository_mismatch" "native Stack merge generation belongs to another repository"
  else if (0 =? length (mp_selected plan)) || (length (entries_of before) <? length (mp_selected plan)) then
    invalid "github_stack_merge_prefix_invalid" "selected Stack merge prefix must be non-empty and bounded by the Stack"
  else if existsb (λ entry, negb (bool_decide (en_state entry = Merged)) || is_none_b (en_merged_at entry))
            (take start (entries_of before)) then
    invalid "github_stack_merge_prefix_invalid" "only a freshly proven merged prefix may precede selected open entries"
  else if negb (gn_open before) || (length (entries_of before) <? stop)
          || negb (bool_decide (mp_selected plan = take (length (mp_selected plan)) (drop start (entries_of before)))) then
    invalid "github_stack_merge_prefix_invalid"
      "selected entries must be the exact first remaining open prefix of one open Stack generation"
  else if existsb (λ entry, negb (entry_is_open entry) || en_draft entry
                            || negb (eq_ignore_ascii_case (en_stack_state entry) "open")) (mp_selected plan) then
    invalid "github_stack_merge_entry_ineligible" "every selected Stack entry must be open and non-draft"
  else Ok ().

Definition valid_async_uuid (value : string) : bool :=
  negb (str_is_empty value) && (String.length value <=? 128)
  && all_bytes (λ c, is_ascii_alphanumeric c || Ascii.eqb c "-") value.

(** [selected.last().expect(...)]: the plans are validated, and not empty. *)
Definition no_entry : GitHubStackEntryGeneration :=
  let branch := mkBranchSnapshot (mkRepositoryId "" "") "" "" in mkStackEntry 0 0 "" Open false None branch branch.
Definition selected_top (plan : GitHubStackAsyncMergePlan) : GitHubStackEntryGeneration := default no_entry (last (mp_selected plan)).
Definition merge_path (repository : RepositoryId) (top : PrNumber) : string :=
  fmt ["repos/"; slug repository; "/pulls/"; pretty top; "/merge-async"].
Definition merge_request_identity (repository : RepositoryId) (plan : GitHubStackAsyncMergePlan) : GitHubStackMergeRequestIdentity :=
  let top := selected_top plan in
  mkMergeRequest "PUT" (merge_path repository (en_pr top)) (en_pr top) (br_oid (en_head top))
    (en_pr <$> mp_selected plan) ((λ entry, br_oid (en_head entry)) <$> mp_selected plan) None.

Definition validate_checkpoint (repository : RepositoryId) (c : GitHubStackMergeCheckpoint) : result unit GitHubStackMergeError :=
  if negb (mk_schema_version c =? MERGE_SCHEMA_VERSION)%N then
    Err (InvalidCheckpoint (fmt ["schema version "; pretty (mk_schema_version c); " is unsupported"]))
  else if negb (checkpoint_verify c) then Err (InvalidCheckpoint "evidence hash does not match")
  else if negb (bool_decide (mk_repository c = repository)) || negb (valid_async_uuid (mk_uuid c)) then
    Err (InvalidCheckpoint "repository or UUID does not match the persisted intent")
  else match validate_merge_plan repository (mk_plan c) with
       | Err e => Err e
       | Ok _ =>
           let expected := merge_request_identity repository (mk_plan c) in
           let request := mk_request c in
           if negb (String.eqb (mq_method request) (mq_method expected)) || negb (String.eqb (mq_path request) (mq_path expected))
              || negb (mq_selected_top request =? mq_selected_top expected)%N
              || negb (String.eqb (mq_selected_top_sha request) (mq_selected_top_sha expected))
              || negb (bool_decide (mq_ordered_pull_requests request = mq_ordered_pull_requests expected))
              || negb (bool_decide (mq_ordered_heads request = mq_ordered_heads expected))
           then Err (InvalidCheckpoint "request identity does not match the sealed merge plan")
           else Ok ()
       end.

Definition validate_merge_lock (plan : GitHubStackAsyncMergePlan) (lock : GitHubStackBranchLockGeneration)
    : result unit GitHubStackMergeError :=
  let entries := entries_of (mp_before plan) in
  if negb (bool_decide (lk_repository lock = br_repository (tp_base (gn_topology (mp_before plan)))))
     || negb (bool_decide (lk_selected_pull_requests lock = en_pr <$> entries))
     || negb (bool_decide (lk_selected_refs lock = vec_sort (head_ref <$> entries)))
     || negb (String.eqb (lk_enforcement lock) "active") || negb (String.eqb (lk_current_user_can_bypass lock) "never")
  then Err (MergeInvalidPlan "github_stack_merge_lock_mismatch"
              "branch lock does not bind every exact source ref in the immutable Stack generation")
  else Ok ().

Definition validate_locked_checkpoint (repository : RepositoryId) (c : GitHubStackLockedMergeCheckpoint)
    : result unit GitHubStackMergeError :=
  if negb (lc_schema_version c =? MERGE_SCHEMA_VERSION)%N || negb (bool_decide (lc_repository c = repository))
     || negb (locked_checkpoint_verify c)
  then Err (InvalidCheckpoint "locked checkpoint schema, repository, or hash is invalid")
  else match validate_checkpoint repository (lc_merge c) with
       | Err e => Err e
       | Ok _ => validate_merge_lock (mk_plan (lc_merge c)) (lc_branch_lock c)
       end.

(** ** Requests and answers *)

Definition stack_merge_api_command (method path : string) : CommandSpec :=
  let command := args (new_command "gh") ["api"; "--method"; method; "-H"; ACCEPT; "-H"; API_VERSION; "--include"; path] in
  if String.eqb method "GET" then command else provider_write command.
Definition submit_body (plan : GitHubStackAsyncMergePlan) : Value :=
  VObject [("merge_action", VString (action_value (mp_merge_action plan)));
           ("merge_method", VString (method_value (mp_merge_method plan)));
           ("sha", VString (br_oid (en_head (selected_top plan))))].
Definition native_stack_merge_submit_command (repository : RepositoryId) (plan : GitHubStackAsyncMergePlan) : CommandSpec :=
  stdin (args (stack_merge_api_command "PUT" (merge_path repository (en_pr (selected_top plan)))) ["--input"; "-"])
    (to_json (submit_body plan)).
Definition poll_path (repository : RepositoryId) (c : GitHubStackMergeCheckpoint) : string :=
  fmt [merge_path repository (mq_selected_top (mk_request c)); "/"; mk_uuid c].
Definition native_stack_merge_poll_command (repository : RepositoryId) (c : GitHubStackMergeCheckpoint) : CommandSpec :=
  stack_merge_api_command "GET" (poll_path repository c).

Definition upper_hex (n : N) : string := String (char_of (if (n <? 10)%N then n + 48 else n + 55)%N) "".
Definition encode_path_segment (value : string) : string :=
  fmt ((λ c, if is_ascii_alphanumeric c || mem c ["-"; "."; "_"; "~"]%char then String c ""
             else fmt ["%"; upper_hex (byte_of c / 16)%N; upper_hex (byte_of c `mod` 16)%N]) <$> list_ascii_of_string value).
Definition git_ref_command (repository : RepositoryId) (branch : string) : CommandSpec :=
  args (new_command "gh") ["api"; fmt ["repos/"; slug repository; "/git/ref/heads/"; encode_path_segment branch]].

Definition included_json (stdout : string) : option Value :=
  match parse_value (trim stdout) with
  | Some value => Some value
  | None =>
      let crlf := fmt [String carriage_return ""; String line_feed ""] in
      parse_value (trim (match split_once (crlf +:+ crlf) stdout, split_once (String line_feed (String line_feed "")) stdout with
                         | Some (_, body), _ | None, Some (_, body) => body
                         | None, None => stdout
                         end))
  end.
Definition parse_async_merge_response (output : CommandOutput) : option ProviderAsyncMergeResult :=
  value ← included_json (out_stdout output);
  let text name := opt_or (v ← get name value; as_str v) (d ← get "details" value; v ← get name d; as_str v) in
  Some (mkAsyncResult (text "uuid") (text "status") (text "message") (text "sha") (text "expected_head_sha")
          (text "merge_method") (text "merge_action")).
Definition parsed_response (response : Ran) : ProviderAsyncMergeResult :=
  default no_result (match response with Ok out => parse_async_merge_response out | Err _ => None end).

Definition normalized_provider_status (status : option string) : option GitHubStackMergeStatus :=
  status ← status;
  let status := to_ascii_lowercase status in
  if String.eqb status "pending" then Some MergePending
  else if String.eqb status "enqueued" then Some MergeEnqueued
  else if String.eqb status "merged" then Some MergeMerged
  else if String.eqb status "failed" then Some MergeFailed
  else None.

Definition provider_request_matches_plan (provider : ProviderAsyncMergeResult) (plan : GitHubStackAsyncMergePlan) : bool :=
  match last (mp_selected plan) with
  | None => false
  | Some top =>
      opt_eqb (ar_expected_head_sha provider) (Some (br_oid (en_head top)))
      && opt_eqb (ar_merge_method provider) (Some (method_value (mp_merge_method plan)))
      && opt_eqb (ar_merge_action provider) (Some (action_value (mp_merge_action plan)))
  end.

(** [super::diagnostic_excerpt] is [evidence_excerpt] with the same bounds. *)
Definition provider_diagnostic (output : CommandOutput) : option string :=
  let value := if str_is_empty (trim (out_stderr output)) then trim (out_stdout output) else trim (out_stderr output) in
  if str_is_empty value then None else Some (evidence_excerpt value).
Definition response_message (parsed : ProviderAsyncMergeResult) (response : Ran) : option string :=
  opt_or (ar_message parsed)
    (match response with Err error => Some (show_discovery_error (Runner error)) | Ok out => provider_diagnostic out end).
Definition append_rediscovery_error (message error : option string) : option string :=
  match error with
  | None => message
  | Some error =>
      Some (match message with
            | Some message => fmt [message; "; provider rediscovery failed: "; error]
            | None => fmt ["provider rediscovery failed: "; error]
            end)
  end.

Definition stack_merge_checkpoint (repository : RepositoryId) (plan : GitHubStackAsyncMergePlan)
    (request : GitHubStackMergeRequestIdentity) (provider : ProviderAsyncMergeResult) : option GitHubStackMergeCheckpoint :=
  (λ uuid, checkpoint_seal (mkMergeCheckpoint MERGE_SCHEMA_VERSION repository plan request uuid
             (default "unknown" (ar_status provider)) "")) <$> opt_filter valid_async_uuid (ar_uuid provider).

(** ** The fresh truth *)

Fixpoint observe_entries (entries : list GitHubStackEntryGeneration)
    : Prog StackOp (result (list GitHubStackMergePullRequestObservation) string) :=
  match entries with
  | [] => Ret (Ok [])
  | entry :: rest =>
      let? pr := perform (StackPullRequest (en_pr entry)) in
      let? commit := (if bool_decide (pr_state pr = Merged) then perform (StackMergeCommit (en_pr entry)) else Ret (Ok None)) in
      let? observed := observe_entries rest in
      Ret (Ok (observation_of pr commit :: observed))
  end.
(** Each merge commit is ahead of the one before; a failed comparison ends it. *)
Fixpoint compare_commit_pairs (commits : list (CommitOid * CommitOid)) : Prog StackOp (result bool string) :=
  match commits with
  | [] => Ret (Ok true)
  | (before, after) :: rest =>
      let? relation := perform (StackCompare before after) in
      let? ordered := compare_commit_pairs rest in
      Ret (Ok (bool_decide (relation = Ahead) && ordered))
  end.
Definition is_landed (o : GitHubStackMergePullRequestObservation) : bool :=
  bool_decide (mo_state o = Merged) && is_some_b (mo_merged_at o).

(** The slices are in range for the plans the planner makes and for validated
    ones. *)
Definition observe_stack_merge (repository : RepositoryId) (plan : GitHubStackAsyncMergePlan)
    : Prog StackOp (result GitHubStackMergeObservation string) :=
  let base := tp_base (gn_topology (mp_before plan)) in
  let entries := entries_of (mp_before plan) in
  let? sha := map_err (json decode_ref_sha (git_ref_command repository (br_name base))) show_discovery_error in
  let default_branch := mkBranchSnapshot repository (br_name base) sha in
  let? observed := observe_entries entries in
  let start := first_open (mp_before plan) in
  let stop := start + length (mp_selected plan) in
  let selected := take (length (mp_selected plan)) (drop start observed) in
  let remaining := drop stop observed in
  let complete := forallb (λ o, is_landed o && is_some_b (mo_merge_commit o)) selected in
  let? ordered :=
    (if complete && opt_eqb (o ← last selected; mo_merge_commit o) (Some (br_oid default_branch))
     then compare_commit_pairs (pairs (omap mo_merge_commit selected)) else Ret (Ok false)) in
  let changed := (λ '(actual, _), mo_pr actual) <$>
    List.filter (λ '(actual, expected), negb (bool_decide (mo_head actual = en_head expected))) (zip selected (mp_selected plan)) in
  let? stack_after := perform (StackGeneration (gn_number (mp_before plan))) in
  let expected_remaining := en_pr <$> drop stop entries in
  let order_exact := match stack_after with
                     | Some stack => bool_decide (en_pr <$> List.filter entry_is_open (entries_of stack) = expected_remaining)
                     | None => 0 =? length expected_remaining
                     end in
  Ret (Ok (mkMergeObservation default_branch selected remaining stack_after (length (List.filter is_landed selected))
             (if negb complete then CommitsMissing else if ordered then CompleteOrdered else CompleteUnordered)
             (0 =? length changed) changed order_exact)).

Definition classify_observation (plan : GitHubStackAsyncMergePlan) (o : GitHubStackMergeObservation) : GitHubStackMergeStatus :=
  if (ob_selected_merged o =? length (mp_selected plan)) && bool_decide (ob_selected_commit_evidence o = CompleteOrdered)
     && ob_selected_heads_exact o && ob_remaining_order_exact o then MergeMerged
  else if ob_selected_merged o =? 0 then MergeFailed
  else MergeIndeterminate.

(** ** Submission *)

Record StackMergeReceiptInput := mkReceiptInput {
  ri_repository : RepositoryId;
  ri_plan : GitHubStackAsyncMergePlan;
  ri_request : GitHubStackMergeRequestIdentity;
  ri_checkpoint : option GitHubStackMergeCheckpoint;
  ri_status : GitHubStackMergeStatus;
  ri_provider_status : option string;
  ri_provider_message : option string;
  ri_provider_sha : option CommitOid;
  ri_observation : option GitHubStackMergeObservation }.
Definition stack_merge_receipt (i : StackMergeReceiptInput) : GitHubStackMergeReceipt :=
  receipt_seal (mkMergeReceipt MERGE_SCHEMA_VERSION (ri_repository i) (ri_plan i) (ri_request i) (ri_checkpoint i) (ri_status i)
    (ri_provider_status i) (ri_provider_message i) (ri_provider_sha i) (ri_observation i) "").
(** An input with another status, message and observation. *)
Definition with_outcome (i : StackMergeReceiptInput) (status : GitHubStackMergeStatus) (message : option string)
    (observation : option GitHubStackMergeObservation) : StackMergeReceiptInput :=
  mkReceiptInput (ri_repository i) (ri_plan i) (ri_request i) (ri_checkpoint i) status (ri_provider_status i) message
    (ri_provider_sha i) observation.

Definition terminal_stack_merge_receipt (i : StackMergeReceiptInput) : Prog StackOp GitHubStackMergeReceipt :=
  let! observed := observe_stack_merge (ri_repository i) (ri_plan i) in
  Ret (stack_merge_receipt
    match observed with
    | Err error => with_outcome i MergeIndeterminate (append_rediscovery_error (ri_provider_message i) (Some error)) (ri_observation i)
    | Ok observation =>
        let observed_status := classify_observation (ri_plan i) observation in
        let provider_result_exact := is_none_or (ri_provider_sha i) (String.eqb (br_oid (ob_default_branch observation))) in
        with_outcome i
          (if bool_decide (observed_status = MergeMerged) && provider_result_exact then MergeMerged
           else if bool_decide (observed_status = MergeIndeterminate) then MergeIndeterminate
           else if is_some_and (ri_provider_status i) (λ status, eq_ignore_ascii_case status "failed") then MergeFailed
           else MergeIndeterminate)
          (ri_provider_message i) (Some observation)
    end).

Definition set_request_id (id : option string) (r : GitHubStackMergeRequestIdentity) : GitHubStackMergeRequestIdentity :=
  mkMergeRequest (mq_method r) (mq_path r) (mq_selected_top r) (mq_selected_top_sha r) (mq_ordered_pull_requests r)
    (mq_ordered_heads r) id.

(** A submission without a usable answer: fresh truth can prove it, and nothing
    else about it. *)
Definition resolved_by_truth (i : StackMergeReceiptInput) (observed : result GitHubStackMergeObservation string)
    : GitHubStackMergeReceipt :=
  let '(observation, error) := match observed with Ok o => (Some o, None) | Err e => (None, Some e) end in
  let status := match observation with
                | Some o => if bool_decide (classify_observation (ri_plan i) o = MergeMerged) then MergeMerged else MergeIndeterminate
                | None => MergeIndeterminate
                end in
  stack_merge_receipt (with_outcome i status (append_rediscovery_error (ri_provider_message i) error) observation).

(** What the answer to a submission says: the rest of [native_stack_merge_submit_unlocked]. *)
Definition submission_outcome (repository : RepositoryId) (plan : GitHubStackAsyncMergePlan) (response : Ran)
    : Prog StackOp (result GitHubStackMergeReceipt GitHubStackMergeError) :=
  let request := set_request_id (response_id response) (merge_request_identity repository plan) in
  let parsed := parsed_response response in
  let checkpoint := stack_merge_checkpoint repository plan request parsed in
  let input status := mkReceiptInput repository plan request checkpoint status (ar_status parsed)
                        (response_message parsed response) (ar_sha parsed) None in
  match normalized_provider_status (ar_status parsed) with
  | Some (MergeMerged | MergeFailed) =>
      let! receipt := terminal_stack_merge_receipt (input MergeIndeterminate) in Ret (Ok receipt)
  | status =>
      if bool_decide (status = Some MergeEnqueued) && is_some_b checkpoint
      then Ret (Ok (stack_merge_receipt (input MergeEnqueued)))
      else if bool_decide (status = Some MergePending) && is_some_b checkpoint
              && (response_ok response || provider_request_matches_plan parsed plan)
      then Ret (Ok (stack_merge_receipt (input MergeSubmitted)))
      else
        let! observed := observe_stack_merge repository plan in
        Ret (Ok (resolved_by_truth (input MergeIndeterminate) observed))
  end.

Definition native_stack_merge_submit_unlocked (repository : RepositoryId) (plan : GitHubStackAsyncMergePlan)
    : Prog StackOp (result GitHubStackMergeReceipt GitHubStackMergeError) :=
  match validate_merge_plan repository plan with
  | Err e => Ret (Err e)
  | Ok _ =>
      let? actual := map_err (perform (StackGeneration (gn_number (mp_before plan)))) MergeStack in
      if negb (bool_decide (actual = Some (mp_before plan))) then Ret (Err (StaleGeneration (mp_before plan) actual))
      else
        let! response := perform (StackSubmit (mp_operation_id plan) (native_stack_merge_submit_command repository plan)) in
        submission_outcome repository plan response
  end.

Definition native_stack_merge_poll_unlocked (repository : RepositoryId) (checkpoint : GitHubStackMergeCheckpoint)
    : Prog StackOp (result GitHubStackMergeReceipt GitHubStackMergeError) :=
  match validate_checkpoint repository checkpoint with
  | Err e => Ret (Err e)
  | Ok _ =>
      let saved := mk_request checkpoint in
      let! response := perform (StackRun (native_stack_merge_poll_command repository checkpoint)) in
      let request := mkMergeRequest "GET" (poll_path repository checkpoint) (mq_selected_top saved) (mq_selected_top_sha saved)
                       (mq_ordered_pull_requests saved) (mq_ordered_heads saved) (response_id response) in
      let parsed := parsed_response response in
      let input status := mkReceiptInput repository (mk_plan checkpoint) request (Some checkpoint) status (ar_status parsed)
                            (response_message parsed response) (ar_sha parsed) None in
      let terminal := (let! receipt := terminal_stack_merge_receipt (input MergeIndeterminate) in Ret (Ok receipt)) in
      if negb (response_ok response) then terminal
      else
        match normalized_provider_status (ar_status parsed) with
        | Some (MergeMerged | MergeFailed) | None => terminal
        | Some status => Ret (Ok (stack_merge_receipt (input status)))
        end
  end.

(** ** Under the lock *)

Definition native_stack_merge_submit_locked (repository : RepositoryId) (plan : GitHubStackAsyncMergePlan)
    (branch_lock : GitHubStackBranchLockGeneration)
    : Prog StackOp (result GitHubStackLockedMergeReceipt GitHubStackMergeError) :=
  match validate_merge_lock plan branch_lock with
  | Err e => Ret (Err e)
  | Ok _ =>
      let? branch_lock := map_err (native_stack_branch_lock_verify repository branch_lock) MergeLock in
      let? merge := native_stack_merge_submit_unlocked repository plan in
      Ret (Ok (locked_merge_receipt repository merge branch_lock true))
  end.

Definition lock_lost (merge : GitHubStackMergeReceipt) (error : GitHubStackBranchLockError) : GitHubStackMergeReceipt :=
  let message := match mr_provider_message merge with
                 | Some message => fmt [message; "; selected branch lock lost: "; show_lock_error error]
                 | None => fmt ["selected branch lock lost: "; show_lock_error error]
                 end in
  receipt_seal (mkMergeReceipt (mr_schema_version merge) (mr_repository merge) (mr_plan merge) (mr_request merge)
    (mr_checkpoint merge) MergeIndeterminate (mr_provider_status merge) (Some message) (mr_provider_sha merge)
    (mr_observation merge) (mr_evidence_hash merge)).
Definition native_stack_merge_poll_locked (repository : RepositoryId) (checkpoint : GitHubStackLockedMergeCheckpoint)
    : Prog StackOp (result GitHubStackLockedMergeReceipt GitHubStackMergeError) :=
  match validate_locked_checkpoint repository checkpoint with
  | Err e => Ret (Err e)
  | Ok _ =>
      let! lock_result := native_stack_branch_lock_verify repository (lc_branch_lock checkpoint) in
      let? merge := native_stack_merge_poll_unlocked repository (lc_merge checkpoint) in
      let merge := match lock_result with Ok _ => merge | Err error => lock_lost merge error end in
      Ret (Ok (locked_merge_receipt repository merge (lc_branch_lock checkpoint) (is_ok lock_result)))
  end.

Definition native_stack_merge_reobserve_released (repository : RepositoryId) (checkpoint : GitHubStackLockedMergeCheckpoint)
    : Prog StackOp (result GitHubStackLockedMergeReceipt GitHubStackMergeError) :=
  match validate_locked_checkpoint repository checkpoint with
  | Err e => Ret (Err e)
  | Ok _ =>
      let? merge := native_stack_merge_poll_unlocked repository (lc_merge checkpoint) in
      Ret (Ok (locked_merge_receipt repository merge (lc_branch_lock checkpoint) false))
  end.

Definition native_stack_merge_reobserve_unidentified (repository : RepositoryId) (plan : GitHubStackAsyncMergePlan)
    (branch_lock : GitHubStackBranchLockGeneration) : Prog StackOp GitHubStackLockedMergeReceipt :=
  let! merge := terminal_stack_merge_receipt
    (mkReceiptInput repository plan (merge_request_identity repository plan) None MergeIndeterminate None
       (Some "submission response lost; read-only exact-generation reconciliation") None None) in
  Ret (locked_merge_receipt repository merge branch_lock false).
End merge.
