(* ===== verification/StackMergeProofs.v ===== *)
(** What the merge of a native Stack promises: the ready prefix is maximal and
    submittable, the submission is fenced, and a merge is reported by fresh
    truth alone. *)

From Stdlib Require Import Ascii String.
From S2P Require Import Prelude Text Json Model Generation Programs RemoteLease Command CiEvidence StackLock StackLockProofs StackMerge.

#[local] Open Scope string_scope.
#[local] Open Scope list_scope.
#[local] Open Scope nat_scope.
#[local] Open Scope caravan_scope.

(** ** Lists *)

Lemma position_None {A} (p : A → bool) l : position p l = None → ∀ x, x ∈ l → p x = false.
Proof.
  induction l as [| y l IH]; cbn; [by intros _ x ?%elem_of_nil |]. destruct (p y) eqn:Hy; [done |].
  destruct (position p l); [done |]. intros _ x [-> | Hin]%elem_of_cons; auto.
Qed.
Lemma position_Some {A} (p : A → bool) l i :
  position p l = Some i → i < length l ∧ (∀ x, x ∈ take i l → p x = false) ∧ ∃ x, l !! i = Some x ∧ p x = true.
Proof.
  revert i. induction l as [| y l IH]; cbn; [done |]. intros i. destruct (p y) eqn:Hy.
  - intros [= <-]. split; [lia |]. split; [by intros x ?%elem_of_nil | by exists y].
  - destruct (position p l) as [j |]; [| done]. intros [= <-]. destruct (IH j eq_refl) as (Hlt & Hbefore & Hat).
    split; [lia |]. split; [| done]. cbn. intros x [-> | Hin]%elem_of_cons; auto.
Qed.
Lemma pairs_lookup {A} (l : list A) i x y : l !! i = Some x → l !! S i = Some y → (x, y) ∈ pairs l.
Proof.
  revert i. induction l as [| a [| b l] IH]; intros [| i]; try done.
  - cbn. intros [= ->] [= ->]. apply list_elem_of_here.
  - intros Hx Hy. apply elem_of_cons. right. by eapply IH.
Qed.

(** ** The ready prefix *)

Lemma first_open_le stack : first_open stack ≤ length (entries_of stack).
Proof. unfold first_open. destruct (position _ _) eqn:Hp; cbn; [apply position_Some in Hp; lia | lia]. Qed.

Lemma misaligned_None index entries evidence :
  length entries = length evidence → misaligned index entries evidence = None → entries = ev_generation <$> evidence.
Proof.
  revert index evidence. induction entries as [| entry entries IH]; intros index [| item evidence]; try done. cbn.
  intros [= Hlen]. destruct (bool_decide_reflect (entry = ev_generation item)) as [-> |]; [| done]. intros Hrest.
  f_equal. by eapply IH.
Qed.

(** The selection ends at the first entry with a blocker. *)
Lemma grow_ready_spec stack evidence selected blocked :
  grow_ready stack evidence = (selected, blocked) →
  ∃ ready rest, evidence = ready ++ rest ∧ selected = ev_generation <$> ready
  ∧ (∀ item, item ∈ ready → entry_blockers stack item = [])
  ∧ match blocked with
    | None => rest = []
    | Some b => ∃ item, head rest = Some item ∧ entry_blockers stack item ≠ []
        ∧ b = mkBlockedEntry (en_pr (ev_generation item)) (en_position (ev_generation item)) (entry_blockers stack item)
    end.
Proof.
  revert selected blocked. induction evidence as [| item evidence IH]; intros selected blocked; cbn.
  - intros [= <- <-]. exists [], []. split_and!; [done.. | by intros ? ?%elem_of_nil | done].
  - destruct (entry_blockers stack item) as [| b bs] eqn:Hb.
    + destruct (grow_ready stack evidence) as [selected' blocked'] eqn:Hrec. intros [= <- <-].
      destruct (IH _ _ eq_refl) as (ready & rest & -> & -> & Hready & Hrest).
      exists (item :: ready), rest. split_and!; [done.. | | done]. intros x [-> | Hin]%elem_of_cons; auto.
    + intros [= <- <-]. exists [], (item :: evidence). split_and!; [done.. | by intros ? ?%elem_of_nil |].
      exists item. rewrite Hb. done.
Qed.

Lemma no_blockers stack item :
  entry_blockers stack item = [] →
  gn_open stack = true ∧ en_state (ev_generation item) = Open ∧ en_draft (ev_generation item) = false
  ∧ eq_ignore_ascii_case (en_stack_state (ev_generation item)) "open" = true ∧ ev_blockers item = [].
Proof.
  unfold entry_blockers. destruct (gn_open stack); [| done]. unfold entry_is_open.
  destruct (bool_decide_reflect (en_state (ev_generation item) = Open)); [| done].
  destruct (en_draft _); [done |]. by destruct (eq_ignore_ascii_case _ _).
Qed.

(** The plan of a ready prefix selects the first remaining open entries. *)
Definition selects_prefix (stack : GitHubStackGeneration) (selected : list GitHubStackEntryGeneration) : Prop :=
  selected = take (length selected) (drop (first_open stack) (entries_of stack))
  ∧ first_open stack + length selected ≤ length (entries_of stack).

Lemma ready_prefix_spec stack evidence prefix :
  plan_github_stack_ready_prefix stack evidence = Ok prefix →
  rp_stack prefix = stack ∧ entries_of stack = ev_generation <$> evidence
  ∧ grow_ready stack (drop (first_open stack) evidence) = (rp_selected prefix, rp_first_blocked prefix).
Proof.
  unfold plan_github_stack_ready_prefix. destruct (Nat.eqb_spec (length evidence) (length (entries_of stack))) as [Hlen |]; [cbn [negb] | done].
  destruct (misaligned _ _ _) eqn:Hm; [done |]. apply misaligned_None in Hm; [| done].
  destruct (grow_ready _ _) as [selected blocked] eqn:Hg. intros [= <-]. done.
Qed.

Lemma ready_prefix_selects stack evidence prefix :
  plan_github_stack_ready_prefix stack evidence = Ok prefix → selects_prefix stack (rp_selected prefix).
Proof.
  intros (_ & Hentries & Hg)%ready_prefix_spec. apply grow_ready_spec in Hg as (ready & rest & Hdrop & Hsel & _).
  assert (drop (first_open stack) (entries_of stack) = rp_selected prefix ++ (ev_generation <$> rest)) as Hd
    by (by rewrite Hentries, <- fmap_drop, Hdrop, fmap_app, Hsel).
  split; [by rewrite Hd, take_app_length |]. pose proof (first_open_le stack).
  assert (length (drop (first_open stack) (entries_of stack)) = length (rp_selected prefix) + length (ev_generation <$> rest)) as Hl
    by (by rewrite Hd, length_app). rewrite length_drop in Hl. lia.
Qed.

(** The ready prefix is maximal: the planner selects the first remaining open
    entries, each with exact evidence and without a blocker, and stops only at
    the end of the Stack or at the first entry that has one, which it names. *)
Theorem ready_prefix_is_maximal stack evidence prefix
    (Hplan : plan_github_stack_ready_prefix stack evidence = Ok prefix) :
  let stop := first_open stack + length (rp_selected prefix) in
  selects_prefix stack (rp_selected prefix)
  ∧ (∀ i item, first_open stack ≤ i < stop → evidence !! i = Some item → entry_blockers stack item = [])
  ∧ match rp_first_blocked prefix with
    | None => stop = length (entries_of stack)
    | Some b => ∃ item, evidence !! stop = Some item ∧ entries_of stack !! stop = Some (ev_generation item)
        ∧ entry_blockers stack item ≠ []
        ∧ b = mkBlockedEntry (en_pr (ev_generation item)) (en_position (ev_generation item)) (entry_blockers stack item)
    end.
Proof.
  cbn zeta. split; [by eapply ready_prefix_selects |]. pose proof (ready_prefix_selects _ _ _ Hplan) as [_ Hle].
  apply ready_prefix_spec in Hplan as (_ & Hentries & Hg).
  apply grow_ready_spec in Hg as (ready & rest & Hdrop & Hsel & Hready & Hrest). rewrite Hsel, length_fmap.
  assert (∀ i, evidence !! (first_open stack + i) = (ready ++ rest) !! i) as Hat by (intros i; by rewrite <- Hdrop, lookup_drop).
  split.
  - intros i item Hi Hitem. apply Hready. apply (list_elem_of_lookup_2 _ (i - first_open stack)).
    rewrite <- (lookup_app_l _ rest) by lia. rewrite <- Hat. by replace (first_open stack + (i - first_open stack)) with i by lia.
  - destruct (rp_first_blocked prefix) as [b |].
    + destruct Hrest as (item & Hhead & Hb & ->). exists item.
      assert (evidence !! (first_open stack + length ready) = Some item) as Hitem
        by (rewrite Hat, lookup_app_r, Nat.sub_diag by lia; by destruct rest).
      split_and!; [done | | done | done]. by rewrite Hentries, list_lookup_fmap, Hitem.
    + assert (length (drop (first_open stack) evidence) = length ready + length rest) as Hl by (by rewrite Hdrop, length_app).
      pose proof (first_open_le stack) as Hfo. rewrite length_drop in Hl. subst rest.
      rewrite Hentries, length_fmap in *. cbn in *. lia.
Qed.

(** ** Validated plans *)

Section merge.
Context `{!LockHost, !MergeHost}.

Lemma validate_merge_plan_selects repository plan :
  validate_merge_plan repository plan = Ok () →
  selects_prefix (mp_before plan) (mp_selected plan) ∧ mp_selected plan ≠ []
  ∧ br_repository (tp_base (gn_topology (mp_before plan))) = repository.
Proof.
  unfold validate_merge_plan. destruct (str_is_empty _); [done |]. destruct (str_is_empty _); [done |].
  destruct (bool_decide_reflect (br_repository (tp_base (gn_topology (mp_before plan))) = repository)); [cbn [negb] | done].
  destruct (Nat.eqb_spec 0 (length (mp_selected plan))) as [| Hne]; [done |]. cbn [orb].
  destruct (Nat.ltb_spec (length (entries_of (mp_before plan))) (length (mp_selected plan))); [done |].
  destruct (existsb _ (take _ _)); [done |]. destruct (gn_open _); [cbn [negb orb] | done].
  destruct (Nat.ltb_spec (length (entries_of (mp_before plan))) (first_open (mp_before plan) + length (mp_selected plan))); [done |].
  cbn [orb]. destruct (bool_decide_reflect (mp_selected plan = take (length (mp_selected plan)) (drop (first_open (mp_before plan)) (entries_of (mp_before plan)))));
    [| done]. intros _. split_and!; [by split | | done]. intros Hnil. by rewrite Hnil in Hne.
Qed.

(** What the planner selects can be submitted: the plan of a ready prefix
    passes the validation of the submission, whenever it selects an entry, the
    operation and the actor are named, and what precedes the first open entry
    has merged. *)
Theorem ready_prefix_is_submittable repository stack evidence prefix operation_id actor
    (Hplan : plan_github_stack_ready_prefix stack evidence = Ok prefix) (Hsome : rp_selected prefix ≠ [])
    (Hid : str_is_empty (trim operation_id) = false) (Hactor : str_is_empty (trim actor) = false)
    (Hrepository : br_repository (tp_base (gn_topology stack)) = repository)
    (Hmerged : ∀ entry, entry ∈ take (first_open stack) (entries_of stack) → en_state entry = Merged ∧ is_Some (en_merged_at entry)) :
  ∃ plan, direct_squash_plan prefix operation_id actor = Ok plan ∧ validate_merge_plan repository plan = Ok ().
Proof.
  pose proof (ready_prefix_selects _ _ _ Hplan) as [Htake Hle].
  apply ready_prefix_spec in Hplan as (Hstack & Hentries & Hg).
  apply grow_ready_spec in Hg as (ready & rest & _ & Hsel & Hready & _).
  assert (length (rp_selected prefix) ≠ 0) as Hlen by (by destruct (rp_selected prefix)).
  unfold direct_squash_plan. destruct (Nat.eqb_spec 0 (length (rp_selected prefix))) as [| _]; [done |].
  eexists. split; [done |]. unfold validate_merge_plan. cbn [mp_operation_id mp_actor mp_before mp_selected]. rewrite Hstack, Hid, Hactor.
  rewrite bool_decide_true by done. cbn [negb].
  destruct (Nat.eqb_spec 0 (length (rp_selected prefix))) as [| _]; [done |].
  destruct (Nat.ltb_spec (length (entries_of stack)) (length (rp_selected prefix))); [lia |]. cbn [orb].
  destruct (existsb _ (take _ _)) eqn:Hbefore.
  { apply existsb_elem_of in Hbefore as (entry & Hin & Hbad). destruct (Hmerged _ Hin) as [Hstate [at_ Hat]].
    rewrite Hstate, Hat in Hbad. done. }
  assert (gn_open stack = true) as ->.
  { rewrite Hsel in Hsome. destruct ready as [| item ready]; [done |]. by destruct (no_blockers stack item) as (? & _); [apply Hready; apply list_elem_of_here |]. }
  destruct (Nat.ltb_spec (length (entries_of stack)) (first_open stack + length (rp_selected prefix))); [lia |]. cbn [negb orb].
  rewrite bool_decide_true by done. cbn [negb].
  destruct (existsb _ (rp_selected prefix)) eqn:Hbad; [| done].
  apply existsb_elem_of in Hbad as (entry & Hin & Hbad). rewrite Hsel in Hin. apply list_elem_of_fmap in Hin as (item & -> & Hitem).
  apply Hready, no_blockers in Hitem as (_ & Hopen & Hdraft & Hstate & _). unfold entry_is_open in Hbad.
  by rewrite Hopen, Hdraft, Hstate in Hbad.
Qed.

(** ** Fresh truth *)

(** What a program adds to the log. *)
Definition adds {A} (p : Prog StackOp A) (Q : A → StackLog → Prop) : Prop :=
  ∀ log, holds exec_stack (λ _, True) p (λ a log', ∃ fresh, log' = log ++ fresh ∧ Q a fresh) log.

Lemma adds_ret {A} (a : A) (Q : A → StackLog → Prop) : Q a [] → adds (Ret a) Q.
Proof. intros HQ log. exists []. by rewrite app_nil_r. Qed.
Lemma adds_bind {A B} (p : Prog StackOp A) (f : A → Prog StackOp B) (P : A → StackLog → Prop) (Q : B → StackLog → Prop) :
  adds p P → (∀ a fresh, P a fresh → adds (f a) (λ b more, Q b (fresh ++ more))) → adds (pbind p f) Q.
Proof.
  intros Hp Hf log. apply holds_bind. eapply holds_mono; [| apply Hp]. cbn. intros a log' (fresh & -> & Ha).
  eapply holds_mono; [| by apply Hf]. cbn. intros b log' (more & -> & Hb). exists (fresh ++ more). by rewrite app_assoc.
Qed.
Lemma adds_try {A B E} (p : Prog StackOp (result A E)) (f : A → Prog StackOp (result B E)) (P : A → StackLog → Prop)
    (Q : B → StackLog → Prop) :
  adds p (λ r fresh, ∀ a, r = Ok a → P a fresh) →
  (∀ a fresh, P a fresh → adds (f a) (λ r more, ∀ b, r = Ok b → Q b (fresh ++ more))) →
  adds (ebind p f) (λ r fresh, ∀ b, r = Ok b → Q b fresh).
Proof.
  intros Hp Hf. eapply adds_bind; [exact Hp |]. intros [a | e] fresh Ha; [by apply Hf, Ha | by apply adds_ret].
Qed.
Lemma adds_mono {A} (p : Prog StackOp A) (P Q : A → StackLog → Prop) :
  (∀ a fresh, P a fresh → Q a fresh) → adds p P → adds p Q.
Proof.
  intros HQ Hp log. eapply holds_mono; [| apply Hp]. cbn. intros a log' (fresh & -> & Ha). exists fresh. auto.
Qed.
Lemma adds_perform {R} (op : StackOp R) (Q : R → StackLog → Prop) :
  (∀ c log, ∃ e, (exec_stack R c op log).2 = log ++ [e] ∧ Q (exec_stack R c op log).1 [e]) → adds (perform op) Q.
Proof.
  intros HQ log c. cbn. destruct (HQ c log) as (e & Hlog & He). destruct (exec_stack R c op log) as [r log'].
  split; [done |]. exists [e]. done.
Qed.

Lemma adds_map_err {A E F} (p : Prog StackOp (result A E)) (f : E → F) (Q : A → StackLog → Prop) :
  adds p (λ r fresh, ∀ a, r = Ok a → Q a fresh) → adds (map_err p f) (λ r fresh, ∀ a, r = Ok a → Q a fresh).
Proof.
  intros Hp. eapply adds_bind; [exact Hp |]. intros [a | e] fresh Ha; apply adds_ret; [| done].
  rewrite app_nil_r. intros ? [= <-]. by apply Ha.
Qed.
Lemma adds_run c : adds (perform (StackRun c)) (λ r log, EvRun c r ∈ log).
Proof. apply adds_perform. intros choice log. eexists. split; [done |]. apply list_elem_of_here. Qed.
Lemma adds_json {T} (decode : string → result T string) c :
  adds (json decode c)
    (λ r log, ∀ value, r = Ok value → ∃ out, EvRun c (Ok out) ∈ log ∧ is_success out = true ∧ decode (out_stdout out) = Ok value).
Proof.
  apply (adds_try _ _ (λ out log, EvRun c (Ok out) ∈ log ∧ is_success out = true)).
  - apply (adds_try _ _ (λ out log, EvRun c (Ok out) ∈ log)).
    + apply adds_map_err. eapply adds_mono; [| apply adds_run]. cbn. by intros r log Hin out ->.
    + intros out log Hin. apply adds_ret. rewrite app_nil_r. destruct (is_success out) eqn:Hok; [| done]. by intros ? [= <-].
  - intros out log [Hin Hok]. apply adds_ret. rewrite app_nil_r. destruct (decode _) eqn:Hd; [| done]. intros ? [= <-]. by exists out.
Qed.

Lemma adds_any {A} (p : Prog StackOp A) : adds p (λ _ _, True).
Proof.
  induction p as [a | R op k IH]; [by apply adds_ret |]. apply (adds_bind (perform op) k (λ _ _, True)).
  - apply adds_perform. intros c log. destruct op; by eexists.
  - intros r fresh _. eapply adds_mono; [| apply IH]. done.
Qed.

(** What one observed entry shows. *)
Definition entry_shown (entry : GitHubStackEntryGeneration) (o : GitHubStackMergePullRequestObservation) (log : StackLog) : Prop :=
  ∃ pr commit, EvPullRequest (en_pr entry) (Ok pr) ∈ log ∧ o = observation_of pr commit
  ∧ (commit ≠ None → EvMergeCommit (en_pr entry) (Ok commit) ∈ log).
Lemma entry_shown_app entry o log more : entry_shown entry o log → entry_shown entry o (log ++ more).
Proof. intros (pr & commit & Hpr & -> & Hcommit). exists pr, commit. rewrite !elem_of_app. auto. Qed.
Lemma entry_shown_app_r entry o log more : entry_shown entry o more → entry_shown entry o (log ++ more).
Proof. intros (pr & commit & Hpr & -> & Hcommit). exists pr, commit. rewrite !elem_of_app. auto. Qed.

Lemma observe_entries_spec entries :
  adds (observe_entries entries)
    (λ r log, ∀ observed, r = Ok observed → Forall2 (λ entry o, entry_shown entry o log) entries observed).
Proof.
  induction entries as [| entry entries IH]; cbn [observe_entries];
    [apply adds_ret; intros observed [= <-]; constructor |].
  apply (adds_try _ _ (λ pr log, EvPullRequest (en_pr entry) (Ok pr) ∈ log)).
  { apply adds_perform. intros c log. eexists. split; [done |]. cbn. intros pr ->. apply list_elem_of_here. }
  intros pr log1 Hpr. apply (adds_try _ _ (λ commit log, commit ≠ None → EvMergeCommit (en_pr entry) (Ok commit) ∈ log)).
  { destruct (bool_decide _); [| by apply adds_ret; intros commit [= <-]].
    apply adds_perform. intros c log. eexists. split; [done |]. cbn. intros commit -> _. apply list_elem_of_here. }
  intros commit log2 Hcommit. eapply (adds_try _ _ (λ observed log, Forall2 (λ entry o, entry_shown entry o log) entries observed)).
  { eapply adds_mono; [| exact IH]. auto. }
  intros observed log3 Hobserved. apply adds_ret. intros ? [= <-]. rewrite app_nil_r. constructor.
  - exists pr, commit. split_and!; [apply elem_of_app; by left | done |]. intros Hne. rewrite !elem_of_app. auto.
  - eapply Forall2_impl; [exact Hobserved |]. cbn. intros entry' o Ho. by apply entry_shown_app_r, entry_shown_app_r.
Qed.

Lemma compare_pairs_shown commits :
  adds (compare_commit_pairs commits) (λ r log, r = Ok true → ∀ a b, (a, b) ∈ commits → EvCompare a b (Ok Ahead) ∈ log).
Proof.
  induction commits as [| [before after] commits IH]; cbn [compare_commit_pairs]; [apply adds_ret; by intros _ a b ?%elem_of_nil |].
  apply (adds_mono _ (λ r log, ∀ ok, r = Ok ok → ok = true → ∀ a b, (a, b) ∈ (before, after) :: commits → EvCompare a b (Ok Ahead) ∈ log));
    [by eauto |].
  apply (adds_try _ _ (λ relation log, EvCompare before after (Ok relation) ∈ log)).
  { apply adds_perform. intros c log. eexists. split; [done |]. cbn. intros relation ->. apply list_elem_of_here. }
  intros relation log1 Hrelation. apply (adds_try _ _ (λ ordered log, ordered = true → ∀ a b, (a, b) ∈ commits → EvCompare a b (Ok Ahead) ∈ log)).
  { eapply adds_mono; [| exact IH]. cbn. intros r log Hr ordered -> ->. auto. }
  intros ordered log2 Hordered. apply adds_ret. intros ok [= <-] Hok. apply andb_prop in Hok as [Hahead ->].
  apply bool_decide_eq_true in Hahead as ->. rewrite app_nil_r.
  intros a b [[= -> ->] | Hin]%elem_of_cons; rewrite elem_of_app; auto.
Qed.

(** The entry was shown merged, with its sealed head, as this commit. *)
Definition merged_as (log : StackLog) (entry : GitHubStackEntryGeneration) (commit : CommitOid) : Prop :=
  ∃ pr, EvPullRequest (en_pr entry) (Ok pr) ∈ log ∧ pr_state pr = Merged ∧ is_Some (pr_merged_at pr)
  ∧ pr_head pr = en_head entry ∧ EvMergeCommit (en_pr entry) (Ok (Some commit)) ∈ log.

(** The log shows that the plan has landed: the default branch is at [tip], the
    commit of the last selected entry, every selected entry merged with its
    sealed head, each commit ahead of the one before, and the entries that stay
    open are the others, in their order. *)
Record landed (repository : RepositoryId) (plan : GitHubStackAsyncMergePlan) (tip : CommitOid) (log : StackLog) : Prop := {
  ld_tip : ∃ out, EvRun (git_ref_command repository (br_name (tp_base (gn_topology (mp_before plan))))) (Ok out) ∈ log
             ∧ is_success out = true ∧ decode_ref_sha (out_stdout out) = Ok tip;
  ld_commits : ∃ commits, Forall2 (merged_as log) (mp_selected plan) commits ∧ last commits = Some tip
                 ∧ ∀ a b, (a, b) ∈ pairs commits → EvCompare a b (Ok Ahead) ∈ log;
  ld_remaining : ∃ after, EvGeneration (gn_number (mp_before plan)) (Ok after) ∈ log
                   ∧ en_pr <$> drop (first_open (mp_before plan) + length (mp_selected plan)) (entries_of (mp_before plan))
                     = match after with Some stack => en_pr <$> List.filter entry_is_open (entries_of stack) | None => [] end }.

Lemma merged_as_mono log log' entry commit : log ⊆ log' → merged_as log entry commit → merged_as log' entry commit.
Proof. intros Hin (pr & ? & ? & ? & ? & ?). exists pr. split_and!; auto. Qed.

Lemma commits_of_observed log entries observed :
  Forall2 (λ entry o, entry_shown entry o log) entries observed →
  forallb (λ o, is_landed o && is_some_b (mo_merge_commit o)) observed = true →
  List.filter (λ '(actual, expected), negb (bool_decide (mo_head actual = en_head expected))) (zip observed entries) = [] →
  Forall2 (merged_as log) entries (omap mo_merge_commit observed)
  ∧ last (omap mo_merge_commit observed) = (o ← last observed; mo_merge_commit o).
Proof.
  induction 1 as [| entry o entries observed Ho Hrest IH]; [done |]. cbn.
  intros [[Hlanded Hcommit]%andb_prop Hall]%andb_prop.
  destruct (bool_decide_reflect (mo_head o = en_head entry)) as [Hhead |]; [cbn [negb] | done]. intros Hheads.
  destruct Ho as (pr & [commit |] & Hpr & -> & Hshown); [| done]. destruct (IH Hall Hheads) as [IH1 IH2]. cbn in *. split.
  - constructor; [| done]. unfold is_landed in Hlanded. cbn in Hlanded. apply andb_prop in Hlanded as [Hmerged Hat].
    apply bool_decide_eq_true in Hmerged. exists pr. split_and!; auto. destruct (pr_merged_at pr); [done | done].
  - rewrite !last_cons, IH2. destruct (last observed) as [o' |] eqn:Hlast; [| done]. cbn.
    destruct (mo_merge_commit o') eqn:Hc; [done |]. exfalso.
    apply forallb_elem_of with (x := o') in Hall; [| by apply last_Some_elem_of]. rewrite Hc in Hall. cbn in Hall. by destruct (is_landed o').
Qed.

Lemma observe_landed repository plan :
  selects_prefix (mp_before plan) (mp_selected plan) →
  adds (observe_stack_merge repository plan)
    (λ r log, ∀ o, r = Ok o → classify_observation plan o = MergeMerged → landed repository plan (br_oid (ob_default_branch o)) log).
Proof.
  intros [Htake _]. unfold observe_stack_merge.
  apply (adds_try _ _ (λ sha log, ∃ out, EvRun (git_ref_command repository (br_name (tp_base (gn_topology (mp_before plan))))) (Ok out) ∈ log
             ∧ is_success out = true ∧ decode_ref_sha (out_stdout out) = Ok sha)).
  { apply adds_map_err, adds_json. }
  intros sha log1 Hsha. eapply adds_try; [apply observe_entries_spec |]. intros observed log2 Hobserved.
  set (selected := take _ (drop _ observed)). set (complete := forallb _ _).
  apply (adds_try _ _ (λ ordered log, ordered = true → (complete && opt_eqb (o ← last selected; mo_merge_commit o) (Some sha)) = true
     ∧ ∀ a b, (a, b) ∈ pairs (omap mo_merge_commit selected) → EvCompare a b (Ok Ahead) ∈ log)).
  { destruct (complete && _) eqn:Hc; [| by apply adds_ret; intros ? [= <-]].
    eapply adds_mono; [| apply compare_pairs_shown]. cbn. intros r log Hr ordered -> ->. auto. }
  intros ordered log3 Hordered.
  apply (adds_try _ _ (λ after log, EvGeneration (gn_number (mp_before plan)) (Ok after) ∈ log)).
  { apply adds_perform. intros c log. eexists. split; [done |]. cbn. intros after ->. apply list_elem_of_here. }
  intros after log4 Hafter. apply adds_ret. rewrite app_nil_r.
  intros o [= <-]. unfold classify_observation. cbn.
  destruct (_ && bool_decide _ && _ && _) eqn:Hmerged; [intros _ | by destruct (_ =? 0)]. bool_prop.
  destruct complete eqn:Hcomplete; [| done]. destruct ordered; [| done]. cbn in *.
  destruct (Hordered eq_refl) as [Htip Hpairs]. apply bool_decide_eq_true in Htip.
  assert (Forall2 (λ entry o, entry_shown entry o log2) (mp_selected plan) selected) as Hselected
    by (rewrite Htake; by apply Forall2_take, Forall2_drop).
  destruct (commits_of_observed log2 (mp_selected plan) selected) as [Hcommits Hlast]; [done | done | |].
  { by destruct (List.filter _ (zip _ _)). }
  split.
  - destruct Hsha as (out & Hin & Hout). exists out. split; [| done]. apply elem_of_app. by left.
  - exists (omap mo_merge_commit selected). split_and!; [| by rewrite Hlast |].
    + eapply Forall2_impl; [exact Hcommits |]. intros entry commit. apply merged_as_mono. intros e He. rewrite !elem_of_app. auto.
    + intros a b Hab. rewrite !elem_of_app. auto.
  - exists after. split; [rewrite !elem_of_app; auto |]. destruct after as [stack |]; [by bool_prop |].
    by destruct (en_pr <$> drop _ _).
Qed.

(** ** The programs write once at most *)

Lemma observe_entries_reads entries : reads_only (observe_entries entries).
Proof.
  induction entries as [| entry entries IH]; cbn [observe_entries]; [done |].
  apply reads_only_try; [by split |]. intros pr. apply reads_only_try; [by destruct (bool_decide _) |].
  intros commit. by apply reads_only_try.
Qed.
Lemma compare_pairs_reads commits : reads_only (compare_commit_pairs commits).
Proof.
  induction commits as [| [before after] commits IH]; cbn [compare_commit_pairs]; [done |].
  apply reads_only_try; [by split |]. intros relation. by apply reads_only_try.
Qed.
Lemma git_ref_reads repository branch : ¬ writes (git_ref_command repository branch).
Proof. by apply api_get. Qed.
Lemma poll_command_reads repository checkpoint : ¬ writes (native_stack_merge_poll_command repository checkpoint).
Proof. by apply api_get. Qed.
Lemma observe_reads repository plan : reads_only (observe_stack_merge repository plan).
Proof.
  apply reads_only_try; [apply reads_only_map_err, json_reads, git_ref_reads |]. intros sha.
  apply reads_only_try; [apply observe_entries_reads |]. intros observed.
  apply reads_only_try; [by destruct (_ && _); [apply compare_pairs_reads |] |]. intros ordered.
  by apply reads_only_try.
Qed.
Lemma terminal_reads input : reads_only (terminal_stack_merge_receipt input).
Proof. apply reads_only_bind; [apply observe_reads | done]. Qed.
Lemma poll_unlocked_reads repository checkpoint : reads_only (native_stack_merge_poll_unlocked repository checkpoint).
Proof.
  unfold native_stack_merge_poll_unlocked. destruct (validate_checkpoint _ _); [| done].
  cbv zeta. apply reads_only_bind; [split; [apply poll_command_reads | done] |]. intros response.
  assert (∀ input, reads_only (pbind (terminal_stack_merge_receipt input) (λ receipt, Ret (@Ok _ GitHubStackMergeError receipt)))) as Hterminal
    by (intros input; apply reads_only_bind; [apply terminal_reads | done]).
  destruct (negb (response_ok response)); [apply Hterminal |]. destruct (normalized_provider_status _) as [[] |]; done || apply Hterminal.
Qed.

(** What a program that only reads adds is quiet. *)
Lemma adds_quiet {A} (p : Prog StackOp A) (Q : A → StackLog → Prop) :
  reads_only p → adds p Q → adds p (λ a log, quiet log ∧ Q a log).
Proof.
  intros Hp HQ log.
  assert (holds exec_stack (λ log', ∃ fresh, log' = log ++ fresh ∧ quiet fresh) p (λ _ log', ∃ fresh, log' = log ++ fresh ∧ quiet fresh) log) as Hquiet.
  { apply (reads_keep (λ log', ∃ fresh, log' = log ++ fresh ∧ quiet fresh)); [| done |].
    - intros log' e (fresh & -> & Hq) He. exists (fresh ++ [e]). split; [by rewrite app_assoc | by apply quiet_snoc].
    - exists []. split; [by rewrite app_nil_r | apply quiet_nil]. }
  eapply holds_mono; [| exact (holds_and _ _ _ _ _ _ Hquiet (HQ log))]. cbn.
  intros a log' [(fresh & -> & Hq) (fresh' & Heq & Ha)]. apply app_inv_head in Heq as <-. by exists fresh.
Qed.

(** ** The submission *)

(** Where the submission may stand: directly behind the read that showed the
    lock over every source branch of the Stack and the read that showed exactly
    the planned generation. *)
Definition submits (repository : RepositoryId) (plan : GitHubStackAsyncMergePlan) (lock : GitHubStackBranchLockGeneration)
    (before : StackLog) (e : StackEvent) : Prop :=
  validate_merge_plan repository plan = Ok ()
  ∧ (∃ answer, e = EvSubmit (mp_operation_id plan) (native_stack_merge_submit_command repository plan) answer)
  ∧ ∃ out response, before = [EvRun (read_ruleset_command repository (lk_id lock)) (Ok out);
                              EvGeneration (gn_number (mp_before plan)) (Ok (Some (mp_before plan)))]
  ∧ is_success out = true ∧ decode_ruleset (out_stdout out) = Ok response
  ∧ observed_lock repository response = Ok (set_pull_requests [] lock)
  ∧ (lk_target lock = "branch" → protects response (head_ref <$> entries_of (mp_before plan))).

Lemma validate_merge_lock_facts plan lock :
  validate_merge_lock plan lock = Ok () →
  lk_selected_pull_requests lock = en_pr <$> entries_of (mp_before plan)
  ∧ lk_selected_refs lock = vec_sort (head_ref <$> entries_of (mp_before plan))
  ∧ lk_enforcement lock = "active" ∧ lk_current_user_can_bypass lock = "never".
Proof.
  unfold validate_merge_lock. destruct (negb _ || _ || _ || _ || _) eqn:Hb; [done |]. intros _. bool_prop.
  repeat match goal with H : String.eqb _ _ = true |- _ => apply String.eqb_eq in H end. done.
Qed.

Lemma only_write_reads {A} W (p : Prog StackOp A) log :
  reads_only p → only_write W log → holds exec_stack (only_write W) p (λ _, only_write W) log.
Proof. intros Hp Hlog. apply reads_keep; [| done..]. intros log' e Hlog' He. by apply only_write_snoc. Qed.

(** The rules of the two operations. *)
Lemma holds_generation I number (Q : result (option GitHubStackGeneration) string → StackLog → Prop) log :
  (∀ answer, I (log ++ [EvGeneration number answer]) ∧ Q answer (log ++ [EvGeneration number answer])) →
  holds exec_stack I (perform (StackGeneration number)) Q log.
Proof. intros HQ c. exact (HQ (sc_generation c)). Qed.
Lemma holds_submit {B} I id c (k : Ran → Prog StackOp B) Q log :
  (∀ answer, I (log ++ [EvSubmit id c answer]) ∧ holds exec_stack I (k answer) Q (log ++ [EvSubmit id c answer])) →
  holds exec_stack I (pbind (perform (StackSubmit id c)) k) Q log.
Proof. intros Hrun choice. exact (Hrun (sc_ran choice)). Qed.

(** The read of the lock, and the submission behind it. *)
Lemma verified_is_fenced repository plan lock out response actual :
  validate_merge_lock plan lock = Ok () → validate_merge_plan repository plan = Ok () →
  is_success out = true → decode_ruleset (out_stdout out) = Ok response → observed_lock repository response = Ok actual →
  set_pull_requests (lk_selected_pull_requests lock) actual = lock → ∀ answer,
  submits repository plan lock
    [EvRun (read_ruleset_command repository (lk_id lock)) (Ok out);
     EvGeneration (gn_number (mp_before plan)) (Ok (Some (mp_before plan)))]
    (EvSubmit (mp_operation_id plan) (native_stack_merge_submit_command repository plan) answer).
Proof.
  intros (_ & Hrefs & Hactive & Hbypass)%validate_merge_lock_facts Hplan Hok Hd Ho Hsame answer.
  split; [done |]. split; [by exists answer |]. exists out, response. split_and!; try done.
  - assert (lk_selected_pull_requests actual = []) as Hnil
      by (unfold observed_lock in Ho; destruct (_ || _); [done |]; destruct (negb _); [done |]; by injection Ho as <-).
    rewrite Ho, <- Hsame. f_equal. destruct actual. cbn in Hnil. by subst.
  - intros Htarget. rewrite <- Hsame in Hrefs, Hactive, Hbypass, Htarget. cbn in Hrefs, Hactive, Hbypass, Htarget.
    destruct (observed_protects _ _ _ Ho Hactive Htarget Hbypass) as [? ? ? ? Hperm ?]. split; try done.
    rewrite Hperm, Hrefs. apply sort_by_key_Permutation.
Qed.

Lemma submission_outcome_reads repository plan response : reads_only (submission_outcome repository plan response).
Proof.
  unfold submission_outcome. cbv zeta.
  assert (∀ input, reads_only (pbind (terminal_stack_merge_receipt input) (λ receipt, Ret (@Ok _ GitHubStackMergeError receipt)))) as Hterminal
    by (intros input; apply reads_only_bind; [apply terminal_reads | done]).
  assert (∀ f : result GitHubStackMergeObservation string → Prog StackOp (result GitHubStackMergeReceipt GitHubStackMergeError),
    (∀ r, reads_only (f r)) → reads_only (pbind (observe_stack_merge repository plan) f)) as Hobserve
    by (intros f Hf; apply reads_only_bind; [apply observe_reads | done]).
  destruct (normalized_provider_status _) as [[] |]; try apply Hterminal;
    repeat (match goal with |- reads_only (if ?b then _ else _) => destruct b end; try done);
    apply Hobserve; done.
Qed.

Lemma submit_unlocked_fenced repository plan (W : StackLog → StackEvent → Prop) log :
  quiet log →
  (validate_merge_plan repository plan = Ok () → ∀ answer,
     W (log ++ [EvGeneration (gn_number (mp_before plan)) (Ok (Some (mp_before plan)))])
       (EvSubmit (mp_operation_id plan) (native_stack_merge_submit_command repository plan) answer)) →
  holds exec_stack (only_write W) (native_stack_merge_submit_unlocked repository plan) (λ _ _, True) log.
Proof.
  intros Hq HW. unfold native_stack_merge_submit_unlocked. destruct (validate_merge_plan repository plan) as [[] |]; [| done].
  apply holds_try, holds_map_err, holds_generation. intros stack.
  assert (quiet (log ++ [EvGeneration (gn_number (mp_before plan)) stack])) as Hq1 by (apply quiet_snoc; [done | intros []]).
  split; [by apply quiet_only |]. destruct stack as [stack |]; [| done].
  destruct (bool_decide_reflect (stack = Some (mp_before plan))) as [-> |]; [cbn [negb] | done].
  apply holds_submit. intros answer.
  match goal with |- _ ?log ∧ _ => assert (only_write W log) as Hlog by (apply only_write_snoc; [by apply quiet_only | auto]) end.
  split; [done |]. eapply holds_mono; [| apply only_write_reads; [| done]]; [done |]. apply submission_outcome_reads.
Qed.

(** C18. A submission is fenced. Whatever the provider answers, submitting writes
    at most once, the submission of exactly the validated plan under its
    operation id, and only directly behind two reads: the ruleset of the lock,
    active and without bypass over exactly the source branches of the Stack, and
    the Stack, in exactly the planned generation. *)
Theorem submission_is_fenced repository plan lock choices :
  only_write (submits repository plan lock)
    (drive exec_stack choices (native_stack_merge_submit_locked repository plan lock) []).2.
Proof.
  apply (drive_holds exec_stack (only_write (submits repository plan lock)) _ (λ _ _, True)); [apply quiet_only, quiet_nil |].
  unfold native_stack_merge_submit_locked. destruct (validate_merge_lock plan lock) as [[] |] eqn:Hlock; [| done].
  apply holds_try, holds_map_err. unfold native_stack_branch_lock_verify. apply holds_try, read_lock_spec; [| done | done |].
  { intros answer. apply quiet_only, quiet_snoc; [apply quiet_nil | apply read_ruleset_reads]. }
  intros out response actual Hok Hd Ho. cbn [fmap option_fmap option_map].
  destruct (bool_decide_reflect (set_pull_requests (lk_selected_pull_requests lock) actual = lock)) as [Hsame |]; [| done].
  apply holds_try. eapply holds_mono; [| apply submit_unlocked_fenced].
  - by intros [merge | e] log Hlog.
  - apply quiet_snoc; [apply quiet_nil | apply read_ruleset_reads].
  - intros Hplan answer. by eapply verified_is_fenced.
Qed.

(** ** A reported merge *)

(** What the log of a program that reports a merge ends with. *)
Definition landed_last (repository : RepositoryId) (plan : GitHubStackAsyncMergePlan) (terminal : bool)
    (merge : GitHubStackMergeReceipt) (log : StackLog) : Prop :=
  mr_status merge = MergeMerged →
  mr_plan merge = plan ∧ ∃ before fresh tip, log = before ++ fresh ∧ quiet fresh ∧ landed repository plan tip fresh
  ∧ (terminal = true → mr_provider_sha merge = None ∨ mr_provider_sha merge = Some tip).

Lemma landed_last_app repository plan terminal merge log more :
  landed_last repository plan terminal merge more → landed_last repository plan terminal merge (log ++ more).
Proof.
  intros Hlast Hstatus. destruct (Hlast Hstatus) as (Hplan & before & fresh & tip & -> & Hrest). split; [done |].
  exists (log ++ before), fresh, tip. by rewrite app_assoc.
Qed.

Lemma observe_landed_quiet repository plan :
  selects_prefix (mp_before plan) (mp_selected plan) →
  adds (observe_stack_merge repository plan) (λ r log, quiet log ∧
    ∀ o, r = Ok o → classify_observation plan o = MergeMerged → landed repository plan (br_oid (ob_default_branch o)) log).
Proof. intros Hsel. apply adds_quiet; [apply observe_reads | by apply observe_landed]. Qed.

Lemma terminal_landed input :
  selects_prefix (mp_before (ri_plan input)) (mp_selected (ri_plan input)) →
  adds (terminal_stack_merge_receipt input) (landed_last (ri_repository input) (ri_plan input) true).
Proof.
  intros Hsel. eapply adds_bind; [by apply observe_landed_quiet |]. intros [o | e] log [Hquiet Hlanded]; apply adds_ret; [| done].
  rewrite app_nil_r. intros Hstatus. split; [done |]. exists [], log, (br_oid (ob_default_branch o)).
  unfold stack_merge_receipt, receipt_seal in Hstatus |- *. cbn in Hstatus |- *.
  destruct (bool_decide_reflect (classify_observation (ri_plan input) o = MergeMerged)) as [Hmerged |]; cbn [andb] in Hstatus.
  - split_and!; [done | done | by apply Hlanded |]. intros _.
    destruct (is_none_or _ _) eqn:Hsha; [| by repeat case_match].
    destruct (ri_provider_sha input) as [sha |]; [right | by left]. cbn in Hsha. apply String.eqb_eq in Hsha. by rewrite Hsha.
  - destruct (bool_decide _); [done |]. by destruct (is_some_and _ _).
Qed.

(** The programs that report the outcome of a plan; all but the submission hold
    the tip the provider names against the default branch. *)
Inductive merge_call (repository : RepositoryId) (plan : GitHubStackAsyncMergePlan)
    : bool → Prog StackOp (result GitHubStackLockedMergeReceipt GitHubStackMergeError) → Prop :=
| CallSubmit lock : merge_call repository plan false (native_stack_merge_submit_locked repository plan lock)
| CallPoll checkpoint : mk_plan (lc_merge checkpoint) = plan →
    merge_call repository plan true (native_stack_merge_poll_locked repository checkpoint)
| CallReobserve checkpoint : mk_plan (lc_merge checkpoint) = plan →
    merge_call repository plan true (native_stack_merge_reobserve_released repository checkpoint)
| CallUnidentified lock : validate_merge_plan repository plan = Ok () →
    merge_call repository plan true
      (pbind (native_stack_merge_reobserve_unidentified repository plan lock) (λ receipt, Ret (Ok receipt))).

Lemma terminal_ok_landed input :
  selects_prefix (mp_before (ri_plan input)) (mp_selected (ri_plan input)) →
  adds (pbind (terminal_stack_merge_receipt input) (λ receipt, Ret (@Ok _ GitHubStackMergeError receipt)))
    (λ r log, ∀ merge, r = Ok merge → landed_last (ri_repository input) (ri_plan input) true merge log).
Proof.
  intros Hsel. eapply adds_bind; [by apply terminal_landed |]. intros merge log Hm. apply adds_ret. rewrite app_nil_r. by intros ? [= <-].
Qed.

Lemma poll_unlocked_landed repository checkpoint :
  adds (native_stack_merge_poll_unlocked repository checkpoint)
    (λ r log, ∀ merge, r = Ok merge → landed_last repository (mk_plan checkpoint) true merge log).
Proof.
  unfold native_stack_merge_poll_unlocked. destruct (validate_checkpoint repository checkpoint) as [[] |] eqn:Hvalid; [| by apply adds_ret].
  assert (validate_merge_plan repository (mk_plan checkpoint) = Ok ()) as [Hsel _]%validate_merge_plan_selects.
  { unfold validate_checkpoint in Hvalid. destruct (negb _); [done |]. destruct (negb _); [done |]. destruct (_ || _); [done |].
    by destruct (validate_merge_plan _ _) as [[] |]. }
  cbv zeta. eapply adds_bind; [apply adds_run |]. intros response log _.
  eapply (adds_mono _ (λ r more, ∀ merge, r = Ok merge → landed_last repository (mk_plan checkpoint) true merge more)).
  { intros r more Hr merge Hmerge. by apply landed_last_app, Hr. }
  destruct (negb (response_ok response)); [by apply (terminal_ok_landed (mkReceiptInput repository (mk_plan checkpoint) _ _ _ _ _ _ _)) |].
  destruct (normalized_provider_status _) as [status |] eqn:Hstatus;
    [| by apply (terminal_ok_landed (mkReceiptInput repository (mk_plan checkpoint) _ _ _ _ _ _ _))].
  destruct status; (by apply (terminal_ok_landed (mkReceiptInput repository (mk_plan checkpoint) _ _ _ _ _ _ _))) || (apply adds_ret; by intros merge [= <-]).
Qed.

Lemma resolved_landed input r log :
  quiet log →
  (∀ o, r = Ok o → classify_observation (ri_plan input) o = MergeMerged →
     landed (ri_repository input) (ri_plan input) (br_oid (ob_default_branch o)) log) →
  landed_last (ri_repository input) (ri_plan input) false (resolved_by_truth input r) log.
Proof.
  intros Hq Hr. unfold resolved_by_truth. destruct r as [o | e]; [| done].
  destruct (bool_decide_reflect (classify_observation (ri_plan input) o = MergeMerged)) as [Hm |]; [| done]. intros _.
  split; [done |]. exists [], log, (br_oid (ob_default_branch o)). split_and!; [done | done | by apply Hr | done].
Qed.

Lemma submit_unlocked_landed repository plan :
  adds (native_stack_merge_submit_unlocked repository plan)
    (λ r log, ∀ merge, r = Ok merge → landed_last repository plan false merge log).
Proof.
  unfold native_stack_merge_submit_unlocked. destruct (validate_merge_plan repository plan) as [[] |] eqn:Hplan; [| by apply adds_ret].
  apply validate_merge_plan_selects in Hplan as [Hsel _].
  apply (adds_try _ _ (λ _ _, True)).
  { apply adds_map_err, adds_perform. intros c log. by eexists. }
  intros actual log1 _.
  eapply (adds_mono _ (λ r more, ∀ merge, r = Ok merge → landed_last repository plan false merge more)).
  { intros r more Hr merge Hmerge. by apply landed_last_app, Hr. }
  destruct (negb _); [by apply adds_ret |].
  apply (adds_bind _ _ (λ _ _, True)); [apply adds_perform; intros c log; by eexists |]. intros response log2 _.
  eapply (adds_mono _ (λ r more, ∀ merge, r = Ok merge → landed_last repository plan false merge more)).
  { intros r more Hr merge Hmerge. by apply landed_last_app, Hr. }
  assert (∀ input, ri_plan input = plan → ri_repository input = repository →
    adds (pbind (terminal_stack_merge_receipt input) (λ receipt, Ret (@Ok _ GitHubStackMergeError receipt)))
      (λ r log, ∀ merge, r = Ok merge → landed_last repository plan false merge log)) as Hterminal.
  { intros input <- <-. eapply adds_mono; [| by apply terminal_ok_landed]. cbn. intros r log Hr merge Hm Hs.
    destruct (Hr merge Hm Hs) as (Hp & before & fresh & tip & ? & ? & ? & _). split; [done |]. by exists before, fresh, tip. }
  unfold submission_outcome. cbv zeta. destruct (normalized_provider_status _) as [[] |]; try by apply Hterminal.
  all: repeat (match goal with |- adds (if ?b then _ else _) _ => destruct b end; [apply adds_ret; by intros merge [= <-] |]).
  all: eapply adds_bind; [by apply observe_landed_quiet |]; intros r more [Hq Hr]; apply adds_ret; rewrite app_nil_r.
  all: intros merge [= <-]; by apply resolved_landed.
Qed.

Lemma merge_call_landed repository plan terminal p :
  merge_call repository plan terminal p →
  adds p (λ r log, ∀ receipt, r = Ok receipt → landed_last repository plan terminal (lm_merge receipt) log).
Proof.
  destruct 1 as [lock | checkpoint <- | checkpoint <- | lock Hplan].
  - unfold native_stack_merge_submit_locked. destruct (validate_merge_lock plan lock); [| by apply adds_ret].
    apply (adds_try _ _ (λ _ _, True)); [eapply adds_mono; [| apply adds_any]; done |]. intros lock' log1 _.
    eapply adds_try; [apply submit_unlocked_landed |]. intros merge log2 Hm. apply adds_ret. rewrite app_nil_r.
    intros receipt [= <-]. by apply landed_last_app.
  - unfold native_stack_merge_poll_locked. destruct (validate_locked_checkpoint repository checkpoint); [| by apply adds_ret].
    apply (adds_bind _ _ (λ _ _, True)); [apply adds_any |]. intros lock log1 _.
    eapply adds_try; [apply poll_unlocked_landed |]. intros merge log2 Hm. apply adds_ret. rewrite app_nil_r.
    intros receipt [= <-]. apply landed_last_app. by destruct lock.
  - unfold native_stack_merge_reobserve_released. destruct (validate_locked_checkpoint repository checkpoint); [| by apply adds_ret].
    eapply adds_try; [apply poll_unlocked_landed |]. intros merge log Hm. apply adds_ret. rewrite app_nil_r. by intros receipt [= <-].
  - apply validate_merge_plan_selects in Hplan as [Hsel _].
    apply (adds_bind _ _ (λ receipt log, landed_last repository plan true (lm_merge receipt) log)).
    + eapply adds_bind; [by apply terminal_landed |]. intros merge log Hm. apply adds_ret. by rewrite app_nil_r.
    + intros receipt log Hm. apply adds_ret. rewrite app_nil_r. by intros ? [= <-].
Qed.

(** C17. A reported merge is proved by fresh truth. Whatever the provider answers
    to a submission, a poll or a later observation, and whatever status it
    claims, a receipt says merged only when the reads that end the log, behind
    the last write, show it: every selected entry merged with its sealed head,
    the commits in order, the default branch at the last of them, and the rest
    of the Stack open in its order; and, but for the submission, the tip the
    provider names is the default branch. *)
Theorem reported_merge_is_proved repository plan terminal p choices receipt
    (Hcall : merge_call repository plan terminal p)
    (Hreceipt : (drive exec_stack choices p []).1 = Some (Ok receipt)) (Hmerged : mr_status (lm_merge receipt) = MergeMerged) :
  mr_plan (lm_merge receipt) = plan
  ∧ ∃ before fresh tip, (drive exec_stack choices p []).2 = before ++ fresh ∧ quiet fresh
    ∧ landed repository plan tip fresh
    ∧ (terminal = true → mr_provider_sha (lm_merge receipt) = None ∨ mr_provider_sha (lm_merge receipt) = Some tip).
Proof.
  pose proof (merge_call_landed _ _ _ _ Hcall []) as Hholds.
  destruct (drive_holds _ _ _ _ choices [] I Hholds) as [_ Hpost]. destruct (Hpost _ Hreceipt) as (fresh & -> & Hlast).
  by apply Hlast.
Qed.
End merge.
