(* ===== verification/StackPolicy.v ===== *)
(** The bridge from the facts of the status to the landing of a native Stack:
    src/src/stack_policy.rs. The evidence of each entry, and the path a caravan
    lands by; the properties follow, the exact conditions of each route first. *)

From Stdlib Require Import Ascii String.
From S2P Require Import Prelude Text Model Generation Budget StackLock StackMerge StackMergeProofs.

#[local] Open Scope string_scope.
#[local] Open Scope list_scope.
#[local] Open Scope nat_scope.
#[local] Open Scope caravan_scope.

(** ** Evidence *)

Inductive StackEntryCi := CiReady | CiNotReady.
#[export] Instance StackEntryCi_eq_dec : EqDecision StackEntryCi.
Proof. solve_decision. Defined.
#[export] Instance MergeCandidateFreshness_eq_dec : EqDecision MergeCandidateFreshness.
Proof. solve_decision. Defined.

Record StackPolicyFacts := mkPolicyFacts {
  pf_pull_requests : gmap PrNumber PullRequestSnapshot;
  pf_merge_candidates : gmap PrNumber MergeCandidateIdentity;
  pf_compatibility : list CompatibilityReport;
  pf_held_members : gset PrNumber }.

(** A pause is its state and the head of its caravan. *)
Definition held_caravan_members (pauses : list (PauseState * PrNumber)) (fleet : CaravanFleet) : gset PrNumber :=
  foldl (λ held pause, match fleet_caravan fleet pause.2 with
                       | Some caravan => held ∪ list_to_set (cv_members caravan)
                       | None => held
                       end) ∅ (List.filter (λ pause, is_effective pause.1) pauses).

Definition mechanically_blocked (facts : StackPolicyFacts) (entry : GitHubStackEntryGeneration) : bool :=
  existsb (λ report, bool_decide (cr_candidate report = en_head entry) && bool_decide (cr_target report = en_base entry)
                     && negb (bool_decide (cr_outcome report = Clean))) (pf_compatibility facts).

Definition is_root (stack : GitHubStackGeneration) (entry : GitHubStackEntryGeneration) : bool :=
  (en_position entry =? 0)%N && bool_decide (head (entries_of stack) = Some entry).
(** The base a candidate is compared against, where the root has the fresh base
    of the Stack. *)
Definition effective_base (stack : GitHubStackGeneration) (entry : GitHubStackEntryGeneration) : option BranchSnapshot :=
  if is_root stack entry then
    let base := tp_base (gn_topology stack) in
    if negb (bool_decide (br_repository (en_base entry) = br_repository base)) || negb (String.eqb (br_name (en_base entry)) (br_name base))
    then None else Some base
  else Some (en_base entry).

Definition synthetic_candidate_blocker (facts : StackPolicyFacts) (stack : GitHubStackGeneration)
    (entry : GitHubStackEntryGeneration) (previous_candidate : option CommitOid) : option GitHubStackMergeBlocker :=
  match pf_merge_candidates facts !! en_pr entry with
  | None => Some SyntheticCandidateMissing
  | Some candidate =>
      if negb (bool_decide (mc_base candidate = en_base entry)) || negb (bool_decide (mc_head candidate = en_head entry))
      then Some SyntheticCandidateStale
      else match mc_synthetic candidate with
      | None => Some SyntheticCandidateMissing
      | Some synthetic =>
          match effective_base stack entry with
          | None => Some SyntheticCandidateStale
          | Some effective_base =>
              if mc_stale_head candidate || negb (bool_decide (mc_compared_base candidate = Some effective_base))
              then Some SyntheticCandidateStale
              else
                let ordinary_parents := bool_decide (sm_parents synthetic = [br_oid effective_base; br_oid (en_head entry)]) in
                let projection_only := is_root stack entry && negb (String.eqb (br_oid (en_base entry)) (br_oid effective_base))
                                       && mc_stale_base candidate && bool_decide (mc_freshness candidate = StaleBase) in
                if ordinary_parents && negb (bool_decide (mc_freshness candidate = Fresh)) && negb projection_only
                then Some SyntheticCandidateStale
                else
                  let cumulative := is_some_and previous_candidate
                    (λ parent, bool_decide (sm_parents synthetic = [parent; br_oid (en_head entry)])) in
                  if negb ordinary_parents && negb cumulative then Some SyntheticCandidateTopologyMismatch else None
          end
      end
  end.

Definition policy_blockers (facts : StackPolicyFacts) (stack : GitHubStackGeneration) (entry : GitHubStackEntryGeneration)
    (ci : StackEntryCi) (previous_candidate : option CommitOid) : list GitHubStackMergeBlocker :=
  (if gn_open stack then [] else [StackClosed])
  ++ (if eq_ignore_ascii_case (en_stack_state entry) "open" then [] else [StackEntryNotOpen])
  ++ match pf_pull_requests facts !! en_pr entry with
     | None => [GraphInexact]
     | Some pull =>
         (if bool_decide (pr_state pull = Open) then [] else [PullRequestNotOpen])
         ++ (if pr_draft pull then [DraftEntry] else [])
         ++ (if negb (bool_decide (pr_head pull = en_head entry)) || negb (bool_decide (pr_base pull = en_base entry))
             then [GraphInexact] else [])
         ++ (if has_label pull "caravan-force" then [ForceUnsupported] else [])
     end
  ++ match synthetic_candidate_blocker facts stack entry previous_candidate with Some blocker => [blocker] | None => [] end
  ++ (if bool_decide (en_pr entry ∈ pf_held_members facts) then [HeldEntry] else [])
  ++ (if mechanically_blocked facts entry then [MechanicallyBlocked] else [])
  ++ (if bool_decide (ci = CiNotReady) then [RequiredChecksNotReady] else []).

Definition candidate_blocker (blocker : GitHubStackMergeBlocker) : bool :=
  match blocker with
  | SyntheticCandidateMissing | SyntheticCandidateStale | SyntheticCandidateTopologyMismatch => true
  | _ => false
  end.
Definition candidate_oid (facts : StackPolicyFacts) (entry : GitHubStackEntryGeneration) : option CommitOid :=
  candidate ← pf_merge_candidates facts !! en_pr entry;
  synthetic ← mc_synthetic candidate;
  Some (sm_oid synthetic).

Fixpoint evidence_of (facts : StackPolicyFacts) (stack : GitHubStackGeneration) (ci : PrNumber → StackEntryCi)
    (previous_candidate : option CommitOid) (entries : list GitHubStackEntryGeneration) : list GitHubStackMergeEntryEvidence :=
  match entries with
  | [] => []
  | entry :: entries =>
      let blockers := policy_blockers facts stack entry (ci (en_pr entry)) previous_candidate in
      let next := if existsb candidate_blocker blockers then None else candidate_oid facts entry in
      mkEntryEvidence entry blockers :: evidence_of facts stack ci next entries
  end.
Definition stack_merge_evidence (facts : StackPolicyFacts) (stack : GitHubStackGeneration) (ci : PrNumber → StackEntryCi)
    : list GitHubStackMergeEntryEvidence := evidence_of facts stack ci None (entries_of stack).

(** ** Routes *)

Record NativeStackMemberIdentity := mkMemberIdentity { ni_pr : PrNumber; ni_head : BranchSnapshot }.
Definition member_identity (entry : GitHubStackEntryGeneration) : NativeStackMemberIdentity :=
  mkMemberIdentity (en_pr entry) (en_head entry).
Inductive NativeStackRoutingClassification :=
| ExactStack
| MergedPredecessorBaseCollapsed (merged_predecessors current_members : list NativeStackMemberIdentity).
Inductive StackLandingRoute :=
| CaravanOwned
| SingletonCaravanOwned
| NativeStack (stack_number : N) (classification : NativeStackRoutingClassification).

Inductive StackCapability := NotProbed | Available | Unavailable | UnknownCapability.
#[export] Instance StackCapability_eq_dec : EqDecision StackCapability.
Proof. solve_decision. Defined.

(** What the route reads of the configuration and of the backend's status. *)
Record RouteFacts := mkRouteFacts {
  rf_stack_type : StackType;
  rf_mutations_opt_in : bool;
  rf_capability : StackCapability;
  rf_provider_stacks_truncated : bool }.

(** Refusals by their code; the last two carry the generations in question. *)
Inductive RouteRefusal :=
| CapabilityNotProven (capability : StackCapability)
| RepositoryNotOptedIn
| InventoryIsTruncated
| MappingAmbiguous (caravan : Caravan) (stack_numbers : list N)
| GenerationDrifted (caravan : Caravan) (generation : GitHubStackGeneration) (changed_fields : list string).

Definition entry_drift (pull_requests : gmap PrNumber PullRequestSnapshot) (entry : GitHubStackEntryGeneration) : list string :=
  let field name := fmt ["pr_"; show_pr (en_pr entry); "_"; name] in
  match pull_requests !! en_pr entry with
  | None => [field "missing"]
  | Some current =>
      (if bool_decide (en_state entry = pr_state current) then [] else [field "state"])
      ++ (if Bool.eqb (en_draft entry) (pr_draft current) then [] else [field "draft"])
      ++ (if opt_eqb (en_merged_at entry) (pr_merged_at current) then [] else [field "merged_at"])
      ++ (if bool_decide (en_base entry = pr_base current) then [] else [field "base"])
      ++ (if bool_decide (en_head entry = pr_head current) then [] else [field "head"])
  end.
Definition generation_drift_fields (generation : GitHubStackGeneration) (pull_requests : gmap PrNumber PullRequestSnapshot)
    (start : nat) (current_members : list PrNumber) (caravan : Caravan) : list string :=
  (if existsb (λ entry, negb (bool_decide (en_state entry = Merged)) || is_none_b (en_merged_at entry))
        (take start (entries_of generation)) then ["merged_prefix_state"] else [])
  ++ (if bool_decide (current_members = cv_members caravan) then [] else ["ordered_members"])
  ++ (if gn_open generation then [] else ["stack_open"])
  ++ (drop start (entries_of generation) ≫= entry_drift pull_requests).

Definition route_native_generation (caravan : Caravan) (generation : GitHubStackGeneration)
    (pull_requests : gmap PrNumber PullRequestSnapshot) : result StackLandingRoute RouteRefusal :=
  let start := first_open generation in
  let current := drop start (entries_of generation) in
  let classification :=
    if start =? 0 then ExactStack
    else MergedPredecessorBaseCollapsed (member_identity <$> take start (entries_of generation)) (member_identity <$> current) in
  let changed_fields :=
    vec_dedup (vec_sort (generation_drift_fields generation pull_requests start (en_pr <$> current) caravan)) in
  if 0 =? length changed_fields then Ok (NativeStack (gn_number generation) classification)
  else Err (GenerationDrifted caravan generation changed_fields).

Definition route_landing (facts : RouteFacts) (caravan : Caravan) (intersections : list GitHubStackGeneration)
    (pull_requests : gmap PrNumber PullRequestSnapshot) : result StackLandingRoute RouteRefusal :=
  if negb (bool_decide (rf_stack_type facts = StackGithub)) then Ok CaravanOwned
  else if negb (bool_decide (rf_capability facts = Available)) then Err (CapabilityNotProven (rf_capability facts))
  else if negb (rf_mutations_opt_in facts) then Err RepositoryNotOptedIn
  else if rf_provider_stacks_truncated facts then Err InventoryIsTruncated
  else if (length (cv_members caravan) =? 1) && (length intersections =? 0) then Ok SingletonCaravanOwned
  else match intersections with
       | [generation] => route_native_generation caravan generation pull_requests
       | _ => Err (MappingAmbiguous caravan (gn_number <$> intersections))
       end.

(** * Properties *)

(** ** Entries *)

(** The provider's merge candidate of the entry: of exactly its generation,
    compared against the base it lands on, and the merge of its head with that
    base or with the candidate of the entry before it. *)
Record current_candidate (facts : StackPolicyFacts) (stack : GitHubStackGeneration) (before : option GitHubStackEntryGeneration)
    (entry : GitHubStackEntryGeneration) (candidate : MergeCandidateIdentity) (synthetic : SyntheticMergeCandidate)
    (base : BranchSnapshot) : Prop := {
  cc_known : pf_merge_candidates facts !! en_pr entry = Some candidate;
  cc_generation : mc_head candidate = en_head entry ∧ mc_base candidate = en_base entry;
  cc_synthetic : mc_synthetic candidate = Some synthetic;
  cc_base : effective_base stack entry = Some base;
  cc_compared : mc_compared_base candidate = Some base ∧ mc_stale_head candidate = false;
  cc_parents : sm_parents synthetic = [br_oid base; br_oid (en_head entry)]
    ∨ ∃ previous parent, before = Some previous ∧ candidate_oid facts previous = Some parent
      ∧ sm_parents synthetic = [parent; br_oid (en_head entry)] }.

(** Everything the landing of one entry needs. *)
Record authorized (facts : StackPolicyFacts) (stack : GitHubStackGeneration) (ci : PrNumber → StackEntryCi)
    (before : option GitHubStackEntryGeneration) (entry : GitHubStackEntryGeneration) : Prop := {
  au_pull : ∃ pull, pf_pull_requests facts !! en_pr entry = Some pull ∧ pr_state pull = Open ∧ pr_draft pull = false
      ∧ pr_head pull = en_head entry ∧ pr_base pull = en_base entry ∧ has_label pull "caravan-force" = false;
  au_free : en_pr entry ∉ pf_held_members facts;
  au_clean : ∀ report, report ∈ pf_compatibility facts → cr_candidate report = en_head entry → cr_target report = en_base entry →
      cr_outcome report = Clean;
  au_ci : ci (en_pr entry) = CiReady;
  au_candidate : ∃ candidate synthetic base, current_candidate facts stack before entry candidate synthetic base }.

Lemma no_candidate_blocker facts stack before entry previous :
  (∀ parent, previous = Some parent → ∃ e, before = Some e ∧ candidate_oid facts e = Some parent) →
  synthetic_candidate_blocker facts stack entry previous = None →
  ∃ candidate synthetic base, current_candidate facts stack before entry candidate synthetic base.
Proof.
  intros Hprevious. unfold synthetic_candidate_blocker.
  destruct (pf_merge_candidates facts !! en_pr entry) as [candidate |] eqn:Hcandidate; [| done].
  destruct (negb _ || negb _) eqn:Hgeneration; [done |]. bool_prop.
  destruct (mc_synthetic candidate) as [synthetic |] eqn:Hsynthetic; [| done].
  destruct (effective_base stack entry) as [base |] eqn:Hbase; [| done].
  destruct (mc_stale_head candidate || _) eqn:Hcompared; [done |]. bool_prop.
  destruct (_ && _ && negb _); [done |].
  destruct (negb _ && negb _) eqn:Hparents; [done |]. intros _.
  exists candidate, synthetic, base. split; try done.
  apply andb_false_iff in Hparents as [Hp | Hp]; bool_prop; [by left | right].
  destruct previous as [parent |]; [| done]. destruct (Hprevious parent eq_refl) as (e & -> & He).
  cbn in Hp. bool_prop. by exists e, parent.
Qed.

Lemma no_policy_blockers facts stack ci before entry previous :
  (∀ parent, previous = Some parent → ∃ e, before = Some e ∧ candidate_oid facts e = Some parent) →
  policy_blockers facts stack entry (ci (en_pr entry)) previous = [] → authorized facts stack ci before entry.
Proof.
  intros Hprevious Hnone. unfold policy_blockers in Hnone.
  repeat match type of Hnone with _ ++ _ = [] => apply app_eq_nil in Hnone as [? Hnone] end.
  split.
  - destruct (pf_pull_requests facts !! en_pr entry) as [pull |]; [| done]. exists pull.
    repeat match goal with H : _ ++ _ = [] |- _ => apply app_eq_nil in H as [? ?] end.
    repeat match goal with H : (if ?b then _ else _) = [] |- _ => destruct b eqn:?; [done |] || (destruct b eqn:?; [| done]) end.
    bool_prop. split_and!; done.
  - intros Hheld. match goal with H : (if bool_decide (_ ∈ _) then _ else _) = [] |- _ => by rewrite bool_decide_true in H end.
  - intros report Hin Hcandidate Htarget. destruct (mechanically_blocked facts entry) eqn:Hm; [done |].
    unfold mechanically_blocked in Hm. rewrite existsb_false_elem_of in Hm. specialize (Hm report Hin). cbn in Hm.
    rewrite Hcandidate, Htarget, !bool_decide_true in Hm by done. cbn in Hm. by bool_prop.
  - destruct (ci (en_pr entry)); [done |]. by rewrite bool_decide_true in Hnone.
  - eapply no_candidate_blocker; [exact Hprevious |]. by destruct (synthetic_candidate_blocker _ _ _ _).
Qed.

Lemma evidence_generations facts stack ci previous entries :
  ev_generation <$> evidence_of facts stack ci previous entries = entries.
Proof. revert previous. induction entries as [| entry entries IH]; intros previous; cbn; [done |]. by rewrite IH. Qed.

(** The evidence of an entry knows the candidate of the entry before it. *)
Lemma evidence_lookup facts stack ci previous entries i item :
  evidence_of facts stack ci previous entries !! i = Some item →
  ∃ entry known, entries !! i = Some entry ∧ item = mkEntryEvidence entry (policy_blockers facts stack entry (ci (en_pr entry)) known)
  ∧ match i with
    | 0 => known = previous
    | S j => ∀ parent, known = Some parent → ∃ e, entries !! j = Some e ∧ candidate_oid facts e = Some parent
    end.
Proof.
  revert previous i. induction entries as [| entry entries IH]; intros previous [| i]; cbn; try done.
  - intros [= <-]. by exists entry, previous.
  - intros (e & known & He & -> & Hknown)%IH. exists e, known. split_and!; [done | done |].
    destruct i as [| i]; [| done]. intros parent Hparent. exists entry. split; [done |].
    destruct (existsb _ _); congruence.
Qed.

(** C21. What lands is authorized: every entry the ready prefix selects on the
    evidence of the status is an open pull request in exactly its generation,
    not forced, not held, without a conflict, with its checks ready, and with a
    current merge candidate on the base it lands on or on the candidate of the
    entry below it. *)
Theorem ready_entries_are_authorized facts stack ci prefix i entry
    (Hprefix : plan_github_stack_ready_prefix stack (stack_merge_evidence facts stack ci) = Ok prefix)
    (Hentry : rp_selected prefix !! i = Some entry) :
  let position := first_open stack + i in
  entries_of stack !! position = Some entry
  ∧ authorized facts stack ci (match position with 0 => None | S j => entries_of stack !! j end) entry.
Proof.
  cbn zeta. pose proof (ready_prefix_selects _ _ _ Hprefix) as [Htake _].
  apply ready_prefix_spec in Hprefix as (_ & _ & Hg). apply grow_ready_spec in Hg as (ready & rest & Hdrop & Hsel & Hready & _).
  assert (entries_of stack !! (first_open stack + i) = Some entry) as Hat.
  { rewrite Htake, lookup_take_Some in Hentry. destruct Hentry as [Hentry _]. by rewrite lookup_drop in Hentry. }
  split; [done |]. rewrite Hsel, list_lookup_fmap, fmap_Some in Hentry. destruct Hentry as (item & Hitem & Heq).
  assert (stack_merge_evidence facts stack ci !! (first_open stack + i) = Some item) as Hevidence.
  { rewrite <- lookup_drop, Hdrop. by apply lookup_app_l_Some. }
  apply evidence_lookup in Hevidence as (e & known & He & -> & Hknown). cbn in Heq. subst e.
  assert (entry_blockers stack (mkEntryEvidence entry (policy_blockers facts stack entry (ci (en_pr entry)) known)) = []) as Hnone
    by (apply Hready; by eapply list_elem_of_lookup_2).
  apply no_blockers in Hnone as (_ & _ & _ & _ & Hnone). eapply no_policy_blockers; [| exact Hnone].
  intros parent Hparent. destruct (first_open stack + i) as [| j]; [congruence | by apply Hknown].
Qed.

(** ** Routes *)

(** The Stack is the caravan: open, its merged prefix proven, its open entries
    the members in their order, each exactly as discovery saw it. *)
Record exact_stack (caravan : Caravan) (generation : GitHubStackGeneration) (pull_requests : gmap PrNumber PullRequestSnapshot) : Prop := {
  xs_open : gn_open generation = true;
  xs_members : en_pr <$> drop (first_open generation) (entries_of generation) = cv_members caravan;
  xs_merged : ∀ entry, entry ∈ take (first_open generation) (entries_of generation) →
      en_state entry = Merged ∧ is_Some (en_merged_at entry);
  xs_current : ∀ entry, entry ∈ drop (first_open generation) (entries_of generation) →
      ∃ current, pull_requests !! en_pr entry = Some current ∧ en_state entry = pr_state current
      ∧ en_draft entry = pr_draft current ∧ en_merged_at entry = pr_merged_at current
      ∧ en_base entry = pr_base current ∧ en_head entry = pr_head current }.

Definition classification_of (generation : GitHubStackGeneration) : NativeStackRoutingClassification :=
  if first_open generation =? 0 then ExactStack
  else MergedPredecessorBaseCollapsed (member_identity <$> take (first_open generation) (entries_of generation))
         (member_identity <$> drop (first_open generation) (entries_of generation)).

Lemma entry_drift_nil pull_requests entry :
  entry_drift pull_requests entry = [] ↔
  ∃ current, pull_requests !! en_pr entry = Some current ∧ en_state entry = pr_state current
      ∧ en_draft entry = pr_draft current ∧ en_merged_at entry = pr_merged_at current
      ∧ en_base entry = pr_base current ∧ en_head entry = pr_head current.
Proof.
  unfold entry_drift. destruct (pull_requests !! en_pr entry) as [current |]; [| by split; [| intros (? & ? & _)]]. split.
  - intros Hnone. repeat match type of Hnone with _ ++ _ = [] => apply app_eq_nil in Hnone as [? Hnone] end.
    exists current. unfold opt_eqb in *.
    repeat match goal with H : (if ?b then _ else _) = [] |- _ => destruct b eqn:?; [| done] end.
    bool_prop. split_and!; try done. by apply Bool.eqb_prop.
  - intros (? & [= <-] & -> & -> & -> & -> & ->). unfold opt_eqb. rewrite !bool_decide_true, Bool.eqb_reflx by done. done.
Qed.

Lemma drift_nil generation pull_requests caravan :
  generation_drift_fields generation pull_requests (first_open generation)
    (en_pr <$> drop (first_open generation) (entries_of generation)) caravan = []
  ↔ exact_stack caravan generation pull_requests.
Proof.
  unfold generation_drift_fields. split.
  - intros Hnone. repeat match type of Hnone with _ ++ _ = [] => apply app_eq_nil in Hnone as [? Hnone] end. split.
    + by destruct (gn_open generation).
    + by case_bool_decide.
    + intros entry Hin. destruct (existsb _ _) eqn:Hbad; [done |]. rewrite existsb_false_elem_of in Hbad.
      specialize (Hbad entry Hin). cbn in Hbad. bool_prop. split; [done |]. by destruct (en_merged_at entry).
    + intros entry Hin. apply entry_drift_nil. destruct (entry_drift pull_requests entry) as [| field fields] eqn:Hd; [done |].
      exfalso. assert (field ∈ (drop (first_open generation) (entries_of generation) ≫= entry_drift pull_requests)) as Hf.
      { apply list_elem_of_bind. exists entry. rewrite Hd. split; [apply list_elem_of_here | done]. }
      rewrite Hnone in Hf. by apply elem_of_nil in Hf.
  - intros [Hopen Hmembers Hmerged Hcurrent]. rewrite Hopen, bool_decide_true by done. cbn.
    destruct (existsb _ _) eqn:Hbad.
    { apply existsb_elem_of in Hbad as (entry & Hin & Hbad). destruct (Hmerged _ Hin) as [Hs [at_ Ha]]. by rewrite Hs, Ha in Hbad. }
    cbn. induction (drop (first_open generation) (entries_of generation)) as [| entry entries IH] in Hcurrent |- *; [done |]. cbn.
    rewrite (proj2 (entry_drift_nil pull_requests entry)) by (apply Hcurrent, list_elem_of_here).
    cbn. apply IH. intros e He. apply Hcurrent. by apply elem_of_cons; right.
Qed.

(** A caravan lands natively only as its exact Stack: the route names the
    native Stack if and only if the backend is configured, proven, opted in and
    read in full, exactly one Stack intersects the caravan, and that Stack is
    the caravan, open entry by open entry. *)
Theorem native_route_is_exact facts caravan intersections pull_requests number classification :
  route_landing facts caravan intersections pull_requests = Ok (NativeStack number classification) ↔
  rf_stack_type facts = StackGithub ∧ rf_capability facts = Available ∧ rf_mutations_opt_in facts = true
  ∧ rf_provider_stacks_truncated facts = false
  ∧ ∃ generation, intersections = [generation] ∧ gn_number generation = number
    ∧ classification_of generation = classification ∧ exact_stack caravan generation pull_requests.
Proof.
  unfold route_landing. 
  destruct (bool_decide_reflect (rf_stack_type facts = StackGithub)); [cbn [negb] | by split; [| intros (? & _)]].
  destruct (bool_decide_reflect (rf_capability facts = Available)); [cbn [negb] | by split; [| intros (_ & ? & _)]].
  destruct (rf_mutations_opt_in facts); [cbn [negb] | by split; [| intros (_ & _ & ? & _)]].
  destruct (rf_provider_stacks_truncated facts); [by split; [| intros (_ & _ & _ & ? & _)] |].
  destruct intersections as [| generation [| other rest]]; cbn [length Nat.eqb andb].
  - split; [by case_match | by intros (_ & _ & _ & _ & ? & ? & _)].
  - rewrite andb_false_r. unfold route_native_generation.
    set (fields := generation_drift_fields _ _ _ _ _).
    assert (vec_dedup (vec_sort fields) = [] ↔ fields = []) as Hfields.
    { split; [| by intros ->]. intros Hnil. destruct fields as [| f fs]; [done |]. exfalso.
      assert (f ∈ vec_dedup (vec_sort (f :: fs))) as Hf
        by (rewrite elem_of_vec_dedup; apply elem_of_sort_by_key, list_elem_of_here).
      rewrite Hnil in Hf. by apply elem_of_nil in Hf. }
    fold (classification_of generation).
    destruct (Nat.eqb_spec 0 (length (vec_dedup (vec_sort fields)))) as [Hlen | Hlen].
    + symmetry in Hlen. apply length_zero_iff_nil, Hfields, drift_nil in Hlen. split.
      * intros [= <- <-]. split_and!; try done. by exists generation.
      * by intros (_ & _ & _ & _ & ? & [= <-] & <- & <- & _).
    + split; [done |]. intros (_ & _ & _ & _ & ? & [= <-] & _ & _ & Hexact%drift_nil). fold fields in Hexact.
      by rewrite Hexact in Hlen.
  - rewrite andb_false_r. by split; [| intros (_ & _ & _ & _ & ? & ? & _)].
Qed.
