(* ===== verification/StackLand.v ===== *)
(** The landing of a native Stack: src/src/github/stack_land.rs, the archive of
    src/src/sync/receipt.rs, and the two loops of src/src/sync.rs that drive it.
    The durable checkpoint orders lock, submission, polls and release, and each
    step is saved before the next write. *)

From Stdlib Require Import Ascii String.
From S2P Require Import Prelude Text Model RequiredRuns Generation Budget Files Programs Store Checkpoints Command StackLock StackMerge StackPolicy.

#[local] Open Scope string_scope.
#[local] Open Scope list_scope.
#[local] Open Scope nat_scope.
#[local] Open Scope caravan_scope.

(** ** The checkpoint *)

Inductive GitHubStackLandPhase := LandPlanned | LandLocked | LandSubmitting | LandSubmitted | LandTerminal | LandReleased.
#[export] Instance GitHubStackLandPhase_eq_dec : EqDecision GitHubStackLandPhase.
Proof. solve_decision. Defined.
(** The derived order. *)
Definition phase_index (p : GitHubStackLandPhase) : nat :=
  match p with
  | LandPlanned => 0 | LandLocked => 1 | LandSubmitting => 2 | LandSubmitted => 3 | LandTerminal => 4 | LandReleased => 5
  end.
Definition phase_ge (p q : GitHubStackLandPhase) : bool := phase_index q <=? phase_index p.

Record GitHubStackLandCheckpoint := mkLand {
  ld_schema_version : N;
  ld_repository : RepositoryId;
  ld_plan : GitHubStackAsyncMergePlan;
  ld_phase : GitHubStackLandPhase;
  ld_provider_atomic : bool;
  ld_branch_lock : option GitHubStackBranchLockGeneration;
  ld_merge : option GitHubStackLockedMergeCheckpoint;
  ld_terminal_status : option GitHubStackMergeStatus;
  ld_terminal_receipt : option GitHubStackLockedMergeReceipt;
  ld_lock_release : option GitHubStackBranchLockReceipt;
  ld_convergence_observations : N;
  ld_convergence_last_problem : option string;
  ld_evidence_hash : string }.
#[export] Instance GitHubStackLandCheckpoint_eq_dec : EqDecision GitHubStackLandCheckpoint.
Proof. solve_decision. Defined.

(** Each field replaced. *)
Definition set_phase p (c : GitHubStackLandCheckpoint) : GitHubStackLandCheckpoint :=
  mkLand (ld_schema_version c) (ld_repository c) (ld_plan c) p (ld_provider_atomic c) (ld_branch_lock c) (ld_merge c)
    (ld_terminal_status c) (ld_terminal_receipt c) (ld_lock_release c) (ld_convergence_observations c)
    (ld_convergence_last_problem c) (ld_evidence_hash c).
Definition set_lock lock (c : GitHubStackLandCheckpoint) : GitHubStackLandCheckpoint :=
  mkLand (ld_schema_version c) (ld_repository c) (ld_plan c) (ld_phase c) (ld_provider_atomic c) lock (ld_merge c)
    (ld_terminal_status c) (ld_terminal_receipt c) (ld_lock_release c) (ld_convergence_observations c)
    (ld_convergence_last_problem c) (ld_evidence_hash c).
Definition set_merge merge (c : GitHubStackLandCheckpoint) : GitHubStackLandCheckpoint :=
  mkLand (ld_schema_version c) (ld_repository c) (ld_plan c) (ld_phase c) (ld_provider_atomic c) (ld_branch_lock c) merge
    (ld_terminal_status c) (ld_terminal_receipt c) (ld_lock_release c) (ld_convergence_observations c)
    (ld_convergence_last_problem c) (ld_evidence_hash c).
Definition set_terminal status receipt (c : GitHubStackLandCheckpoint) : GitHubStackLandCheckpoint :=
  mkLand (ld_schema_version c) (ld_repository c) (ld_plan c) (ld_phase c) (ld_provider_atomic c) (ld_branch_lock c) (ld_merge c)
    status receipt (ld_lock_release c) (ld_convergence_observations c) (ld_convergence_last_problem c) (ld_evidence_hash c).
Definition set_release release (c : GitHubStackLandCheckpoint) : GitHubStackLandCheckpoint :=
  mkLand (ld_schema_version c) (ld_repository c) (ld_plan c) (ld_phase c) (ld_provider_atomic c) (ld_branch_lock c) (ld_merge c)
    (ld_terminal_status c) (ld_terminal_receipt c) release (ld_convergence_observations c)
    (ld_convergence_last_problem c) (ld_evidence_hash c).
Definition set_convergence n problem (c : GitHubStackLandCheckpoint) : GitHubStackLandCheckpoint :=
  mkLand (ld_schema_version c) (ld_repository c) (ld_plan c) (ld_phase c) (ld_provider_atomic c) (ld_branch_lock c) (ld_merge c)
    (ld_terminal_status c) (ld_terminal_receipt c) (ld_lock_release c) n problem (ld_evidence_hash c).
Definition set_land_hash hash (c : GitHubStackLandCheckpoint) : GitHubStackLandCheckpoint :=
  mkLand (ld_schema_version c) (ld_repository c) (ld_plan c) (ld_phase c) (ld_provider_atomic c) (ld_branch_lock c) (ld_merge c)
    (ld_terminal_status c) (ld_terminal_receipt c) (ld_lock_release c) (ld_convergence_observations c)
    (ld_convergence_last_problem c) hash.

Record GitHubStackFailureHandoff := mkHandoff {
  fh_id : string;
  fh_classification : string;
  fh_failed_operation : string;
  fh_failed_uuid : option string;
  fh_root : option PrNumber;
  fh_root_head : option CommitOid;
  fh_provider_message : option string;
  fh_root_only_revalidation_candidate : bool;
  fh_automatic_retry : bool }.

Inductive GitHubStackLandError :=
| InvalidLandCheckpoint (diagnostic : string)
| OutOfOrder (expected : string) (actual : GitHubStackLandPhase)
| LandLockError (error : GitHubStackBranchLockError)
| LandMergeError (error : GitHubStackMergeError).

Record NativeReceipt := mkNativeReceipt {
  nr_operation_id : string;
  nr_outcome : string;
  nr_request : GitHubStackMergeRequestIdentity;
  nr_checkpoint : GitHubStackLandCheckpoint }.

Abbreviation LandResult := (result GitHubStackLandCheckpoint GitHubStackLandError).

Class LandHost := {
  land_checkpoint_json : GitHubStackLandCheckpoint → list N;
  handoff_json : RepositoryId → GitHubStackAsyncMergePlan → option string → option string → string → list N;
  land_codec :: Codec GitHubStackLandCheckpoint;
  native_receipt_codec :: Codec NativeReceipt }.

Section land.
Context `{!LockHost, !MergeHost, !LandHost}.
#[local] Open Scope prog_scope.

Definition LAND_SCHEMA_VERSION : N := 2.

Definition land_seal (c : GitHubStackLandCheckpoint) : GitHubStackLandCheckpoint :=
  let cleared := set_land_hash "" c in set_land_hash (fnv1a64 (land_checkpoint_json cleared)) cleared.

Definition phase_shape (c : GitHubStackLandCheckpoint) : bool :=
  let lock := is_some_b (ld_branch_lock c) in
  let merge := is_some_b (ld_merge c) in
  let status := is_some_b (ld_terminal_status c) in
  let release := is_some_b (ld_lock_release c) in
  match ld_phase c with
  | LandPlanned => negb lock && negb merge && negb status && negb release
  | LandLocked | LandSubmitting => lock && negb merge && negb status && negb release
  | LandSubmitted => lock && merge && negb status && negb release
  | LandTerminal => lock && status && negb release
  | LandReleased => lock && status && release
  end.
Definition land_verify (c : GitHubStackLandCheckpoint) : bool :=
  (ld_schema_version c =? LAND_SCHEMA_VERSION)%N && negb (ld_provider_atomic c) && phase_shape c
  && is_none_or (ld_terminal_receipt c) (λ receipt,
       locked_receipt_verify receipt && bool_decide (mr_repository (lm_merge receipt) = ld_repository c)
       && bool_decide (mr_plan (lm_merge receipt) = ld_plan c)
       && bool_decide (Some (mr_status (lm_merge receipt)) = ld_terminal_status c))
  && String.eqb (fnv1a64 (land_checkpoint_json (set_land_hash "" c))) (ld_evidence_hash c).

(** ["<n> of <total> required status checks are expected."] *)
Definition parse_u32 (s : string) : option N := opt_filter (λ n, n <=? 4294967295)%N (parse_u64 s).
(** [split_whitespace]: every step consumes a byte. *)
Fixpoint words_fuel (fuel : nat) (word s : string) : list string :=
  let found := if str_is_empty word then [] else [word] in
  match fuel, s with
  | S fuel, String c rest =>
      match strip_ws_prefix s with
      | Some rest => found ++ words_fuel fuel "" rest
      | None => words_fuel fuel (word +:+ String c "") rest
      end
  | _, _ => found
  end.
Definition words (message : string) : list string := words_fuel (String.length message) "" message.
Definition expected_check_rejection (message : string) : bool :=
  match words message with
  | [n; "of"; total; "required"; "status"; "checks"; "are"; "expected."] =>
      is_some_and (parse_u32 n) (λ n, (0 <? n)%N && is_some_and (parse_u32 total) (λ total, n <=? total)%N)
  | _ => false
  end.

Definition failure_handoff (c : GitHubStackLandCheckpoint) : option GitHubStackFailureHandoff :=
  if negb (land_verify c) || negb (bool_decide (ld_phase c = LandReleased))
     || negb (bool_decide (ld_terminal_status c = Some MergeFailed)) then None
  else
    let receipt := ld_terminal_receipt c in
    let message := receipt ← receipt; mr_provider_message (lm_merge receipt) in
    let expected := is_some_and message expected_check_rejection in
    let root := head (mp_selected (ld_plan c)) in
    let classification := if expected then "required_check_context_mismatch"
                          else if is_none_b receipt then "terminal_evidence_missing" else "provider_rejected" in
    let uuid := (λ merge, mk_uuid (lc_merge merge)) <$> ld_merge c in
    let identity := fnv1a64 (handoff_json (ld_repository c) (ld_plan c) uuid (lm_evidence_hash <$> receipt) classification) in
    Some (mkHandoff (fmt ["native-rejection:"; identity]) classification (mp_operation_id (ld_plan c)) uuid
            (en_pr <$> root) ((λ root, br_oid (en_head root)) <$> root) message
            (expected && (1 <? length (mp_selected (ld_plan c)))) false).

Definition outstanding_lock (c : GitHubStackLandCheckpoint) : option GitHubStackBranchLockGeneration :=
  match ld_phase c with
  | LandPlanned | LandReleased => None
  | LandLocked | LandSubmitting | LandSubmitted | LandTerminal => ld_branch_lock c
  end.

Definition observe_convergence_pending (problem : string) (c : GitHubStackLandCheckpoint) : GitHubStackLandCheckpoint :=
  land_seal (set_convergence (N.min (ld_convergence_observations c + 1) 4294967295) (Some problem) c).

(** ** The steps *)

Definition native_stack_land_begin (repository : RepositoryId) (plan : GitHubStackAsyncMergePlan) : GitHubStackLandCheckpoint :=
  land_seal (mkLand LAND_SCHEMA_VERSION repository plan LandPlanned false None None None None None 0 None "").

Definition land_validate (repository : RepositoryId) (c : GitHubStackLandCheckpoint) : result unit GitHubStackLandError :=
  if negb (bool_decide (ld_repository c = repository)) || negb (land_verify c)
  then Err (InvalidLandCheckpoint "schema, repository, phase evidence, or hash is invalid") else Ok ().

Definition native_stack_land_lock (repository : RepositoryId) (c : GitHubStackLandCheckpoint) : Prog StackOp LandResult :=
  match land_validate repository c with
  | Err e => Ret (Err e)
  | Ok _ =>
      if phase_ge (ld_phase c) LandLocked then Ret (Ok c)
      else
        let? receipt := map_err (native_stack_branch_lock_acquire repository (branch_lock_plan (ld_plan c))) LandLockError in
        Ret (match lr_lock receipt with
             | None => Err (InvalidLandCheckpoint "lock acquisition returned no exact ruleset generation")
             | Some lock => Ok (land_seal (set_lock (Some lock) (set_phase LandLocked c)))
             end)
  end.

Definition native_stack_land_mark_submitting (repository : RepositoryId) (c : GitHubStackLandCheckpoint) : LandResult :=
  match land_validate repository c with
  | Err e => Err e
  | Ok _ =>
      if phase_ge (ld_phase c) LandSubmitting then Ok c
      else if negb (bool_decide (ld_phase c = LandLocked)) then Err (OutOfOrder "an acquired complete-group lock" (ld_phase c))
      else Ok (land_seal (set_phase LandSubmitting c))
  end.

Definition native_stack_land_abandon_uncertain_submission (repository : RepositoryId) (c : GitHubStackLandCheckpoint) : LandResult :=
  match land_validate repository c with
  | Err e => Err e
  | Ok _ =>
      if negb (bool_decide (ld_phase c = LandSubmitting))
      then Err (OutOfOrder "a durable pre-submit marker with no UUID" (ld_phase c))
      else Ok (land_seal (set_terminal (Some MergeIndeterminate) (ld_terminal_receipt c) (set_phase LandTerminal c)))
  end.

Definition advance (c : GitHubStackLandCheckpoint) (receipt : GitHubStackLockedMergeReceipt) : GitHubStackLandCheckpoint :=
  let next := set_merge (lm_checkpoint receipt) (set_lock (Some (lm_branch_lock receipt)) c) in
  land_seal
    match mr_status (lm_merge receipt) with
    | MergeMerged | MergeFailed | MergeIndeterminate =>
        set_terminal (Some (mr_status (lm_merge receipt))) (Some receipt) (set_phase LandTerminal next)
    | MergeSubmitted | MergePending | MergeEnqueued => set_phase LandSubmitted next
    end.

(** [expect]: a verified checkpoint in this phase carries its lock. *)
Definition no_lock : GitHubStackBranchLockGeneration := mkLock 0 "" "" (mkRepositoryId "" "") "" "" "" "" [] [] "" "" "".

Definition native_stack_land_submit (repository : RepositoryId) (c : GitHubStackLandCheckpoint) : Prog StackOp LandResult :=
  match land_validate repository c with
  | Err e => Ret (Err e)
  | Ok _ =>
      if phase_ge (ld_phase c) LandSubmitted then Ret (Ok c)
      else if negb (bool_decide (ld_phase c = LandSubmitting))
      then Ret (Err (OutOfOrder "an acquired complete-group lock" (ld_phase c)))
      else
        let lock := default no_lock (ld_branch_lock c) in
        let? receipt := map_err (native_stack_merge_submit_locked repository (ld_plan c) lock) LandMergeError in
        Ret (Ok (advance c receipt))
  end.

Definition native_stack_land_poll (repository : RepositoryId) (c : GitHubStackLandCheckpoint) : Prog StackOp LandResult :=
  match land_validate repository c with
  | Err e => Ret (Err e)
  | Ok _ =>
      if phase_ge (ld_phase c) LandTerminal then Ret (Ok c)
      else match ld_phase c, ld_merge c with
           | LandSubmitted, Some merge =>
               let? receipt := map_err (native_stack_merge_poll_locked repository merge) LandMergeError in
               Ret (Ok (advance c receipt))
           | actual, _ => Ret (Err (OutOfOrder "a submitted merge with a durable UUID checkpoint" actual))
           end
  end.

Definition native_stack_land_reobserve_released (repository : RepositoryId) (c : GitHubStackLandCheckpoint)
    : Prog StackOp LandResult :=
  match land_validate repository c with
  | Err e => Ret (Err e)
  | Ok _ =>
      if negb (bool_decide (ld_phase c = LandReleased)) || negb (bool_decide (ld_terminal_status c = Some MergeIndeterminate))
      then Ret (Err (OutOfOrder "a released indeterminate checkpoint" (ld_phase c)))
      else
        let? receipt :=
          (match ld_merge c with
           | Some merge => map_err (native_stack_merge_reobserve_released repository merge) LandMergeError
           | None =>
               let! receipt := native_stack_merge_reobserve_unidentified repository (ld_plan c) (default no_lock (ld_branch_lock c)) in
               Ret (Ok receipt)
           end) in
        Ret (Ok (land_seal
          match mr_status (lm_merge receipt) with
          | MergeMerged | MergeFailed =>
              set_terminal (Some (mr_status (lm_merge receipt))) (Some receipt) (set_merge (lm_checkpoint receipt) c)
          | MergeIndeterminate => set_terminal (ld_terminal_status c) (Some receipt) c
          | _ => c
          end))
  end.

Definition native_stack_land_release (repository : RepositoryId) (c : GitHubStackLandCheckpoint) : Prog StackOp LandResult :=
  match land_validate repository c with
  | Err e => Ret (Err e)
  | Ok _ =>
      if bool_decide (ld_phase c = LandReleased) then Ret (Ok c)
      else match ld_phase c, ld_branch_lock c with
           | LandTerminal, Some lock =>
               let? receipt := map_err (native_stack_branch_lock_release repository (branch_lock_plan (ld_plan c)) lock) LandLockError in
               Ret (Ok (land_seal (set_release (Some receipt) (set_phase LandReleased c))))
           | actual, _ => Ret (Err (OutOfOrder "terminal provider proof for every selected entry" actual))
           end
  end.
End land.

(** ** The drivers *)

(** What the loops leave in the report of the tick. *)
Inductive LandNote :=
| NoteStackWait (caravan : Caravan) (stack_number : N) (blocking_pr : PrNumber) (blockers : list GitHubStackMergeBlocker)
| NoteRegeneration (caravan : PrNumber) (blocked : PrNumber)
| NoteRequiredRuns (root : PrNumber) (status : RequiredRunsStatus)
| NoteNotQualified (caravan : PrNumber) (phase : GitHubStackLandPhase)
| NoteLand (checkpoint : GitHubStackLandCheckpoint)
| NoteAdvanced (stack_number : N) (before after : GitHubStackLandPhase)
| NoteMerged (stack_number : N) (number : PrNumber).

(** The code of an error another module raised. *)
Abbreviation Code := string.

Inductive LandOp : Type → Type :=
| LandFile {R : Type} (op : FileOp R) : LandOp R
| LandStack {R : Type} (op : StackOp R) : LandOp R
(** The entries of a directory, or that it is none. *)
| LandReadDir (path : Path) : LandOp (option (result (list string) unit))
(** The operation is listed in the receipt of the tick. *)
| LandListOperation (operation_id : string) : LandOp (result unit Code)
| LandCapacity (required : nat) : LandOp (result unit Code)
| LandPolicy (branch : string) : LandOp (result RequiredContextsRead Code)
| LandSnapshot (number : PrNumber) : LandOp (result PullRequestSnapshot Code)
| LandAssess (current : PullRequestSnapshot) (policy : RequiredContextsRead) : LandOp (result RequiredRunsStatus Code)
| LandAudit (checkpoint : GitHubStackLandCheckpoint) (entry : GitHubStackEntryGeneration) : LandOp (result unit Code)
| LandReport (note : LandNote) : LandOp unit.

Inductive LandFault :=
| LandStale
| LandStorage (error : StorageError)
| LandForeign (code : Code)
| LandStackMissing
| LandRead (message : string)
| LandPlan (error : GitHubStackMergeError)
| LandStep (error : GitHubStackLandError)
| LandFailed (handoff : option GitHubStackFailureHandoff) (checkpoint : GitHubStackLandCheckpoint)
| LandIndeterminate (checkpoint : GitHubStackLandCheckpoint)
| LandStatusInvalid (checkpoint : GitHubStackLandCheckpoint).
Abbreviation LandProg A := (Prog LandOp (result A LandFault)).

Section drivers.
Context `{!LockHost, !MergeHost, !LandHost}.
(** [std::process::id()]. *)
Context (pid : N).
#[local] Open Scope prog_scope.

Definition from_store {A} (p : Prog FileOp (result A StorageError)) : LandProg A := map_err (embed (λ R, LandFile) p) LandStorage.
Definition on_stack {A E} (p : Prog StackOp (result A E)) (f : E → LandFault) : LandProg A :=
  map_err (embed (λ R, LandStack) p) f.
Definition stepped (p : Prog StackOp LandResult) : LandProg GitHubStackLandCheckpoint := on_stack p LandStep.
Definition from_host {A} (op : LandOp (result A Code)) : LandProg A := map_err (perform op) LandForeign.
Definition report (note : LandNote) : Prog LandOp unit := perform (LandReport note).

(** [replace(':', "-")]. *)
Definition dashed (s : string) : string :=
  string_of_list_ascii ((λ c, if Ascii.eqb c ":" then "-"%char else c) <$> list_ascii_of_string s).
Definition string_bytes (s : string) : list N := byte_of <$> list_ascii_of_string s.
Definition native_key (operation_id : string) : string := fmt ["receipt-land-"; dashed (fnv1a64 (string_bytes operation_id))].

Definition native_outcome (c : GitHubStackLandCheckpoint) : string :=
  match ld_terminal_status c with
  | Some MergeMerged => "applied"
  | Some MergeFailed => "not_applied"
  | _ => if negb (phase_ge (ld_phase c) LandSubmitting) then "not_attempted" else "unknown"
  end.
Definition native_receipt (c : GitHubStackLandCheckpoint) : NativeReceipt :=
  mkNativeReceipt (mp_operation_id (ld_plan c)) (native_outcome c)
    (match ld_terminal_receipt c, ld_merge c with
     | Some receipt, _ => mr_request (lm_merge receipt)
     | None, Some merge => mk_request (lc_merge merge)
     | None, None => merge_request_identity (ld_repository c) (ld_plan c)
     end) c.

(** The archive, the receipt of the tick, then the cursor. *)
Definition save_native (key : string) (c : GitHubStackLandCheckpoint) : LandProg unit :=
  run? from_store (write pid (native_key (mp_operation_id (ld_plan c))) (native_receipt c)) in
  run? from_host (LandListOperation (mp_operation_id (ld_plan c))) in
  from_store (write pid key c).

(** ** Requalification *)

#[local] Instance required_read_eq_dec : EqDecision RequiredContextsRead.
Proof. solve_decision. Defined.

Definition qualifies (status : RequiredRunsStatus) : bool :=
  bool_decide (status = Satisfied) || bool_decide (status = NotRequired).

Fixpoint entries_ready (root : PrNumber) (held : gset PrNumber) (policy : RequiredContextsRead)
    (entries : list GitHubStackEntryGeneration) : LandProg bool :=
  match entries with
  | [] => Ret (Ok true)
  | entry :: entries =>
      let? current := from_host (LandSnapshot (en_pr entry)) in
      if negb (bool_decide (pr_head current = en_head entry)) || negb (bool_decide (pr_base current = en_base entry))
         || negb (bool_decide (pr_state current = Open)) || pr_draft current || negb (is_active_caravan_member current)
         || bool_decide (en_pr entry ∈ held) || has_label current "caravan-force"
      then Ret (Ok false)
      else
        let? status := from_host (LandAssess current policy) in
        run! report (NoteRequiredRuns root status) in
        if qualifies status
        then entries_ready root held policy entries else Ret (Ok false)
  end.
(** The root's number is that of the first selected entry. *)
Definition native_required_ready (default_branch : string) (held : gset PrNumber) (c : GitHubStackLandCheckpoint) : LandProg bool :=
  let target := br_name (tp_base (gn_topology (mp_before (ld_plan c)))) in
  if negb (String.eqb target default_branch) then Ret (Ok false)
  else
    let? policy := from_host (LandPolicy target) in
    let policy := normalized policy in
    if negb (rr_complete policy) || negb (String.eqb (rr_branch policy) target) then Ret (Ok false)
    else
      let root := match head (mp_selected (ld_plan c)) with Some entry => en_pr entry | None => 0%N end in
      let? ready := entries_ready root held policy (mp_selected (ld_plan c)) in
      if negb ready then Ret (Ok false)
      else
        let? after := from_host (LandPolicy target) in
        let after := normalized after in
        Ret (Ok (rr_complete after && bool_decide (after = policy))).

(** ** One tick of a caravan's native Stack: [drain_native_stack] *)

Definition native_prefix_waits_for_provider_regeneration (prefix : GitHubStackReadyPrefix) (current_open : nat) : bool :=
  negb (length (rp_selected prefix) =? current_open)
  && is_some_and (rp_first_blocked prefix) (λ blocked,
       negb (length (bl_blockers blocked) =? 0)
       && forallb (λ blocker, bool_decide (blocker = SyntheticCandidateStale)) (bl_blockers blocked)).

(** What a tick knows: the status, the fields of its progress and the reviewer
    of the configuration; a receipt of the required runs is its assessment. *)
Record LandTick := mkLandTick {
  lt_repository : RepositoryId;
  lt_operation_id : string;
  lt_reviewed_by : string;
  lt_default_branch : string;
  lt_pauses : list (PauseState * PrNumber);
  lt_fleet : CaravanFleet;
  lt_compatibility : list CompatibilityReport;
  lt_current : gmap PrNumber PullRequestSnapshot;
  lt_merge_candidates : gmap PrNumber MergeCandidateIdentity;
  lt_required_runs : list RequiredRunsAssessment }.
Definition lt_held (t : LandTick) : gset PrNumber := held_caravan_members (lt_pauses t) (lt_fleet t).
Definition lt_facts (t : LandTick) (held : gset PrNumber) : StackPolicyFacts :=
  mkPolicyFacts (lt_current t) (lt_merge_candidates t) (lt_compatibility t) held.

Definition native_member_required_ready (t : LandTick) (number : PrNumber) : bool :=
  is_some_and (List.find (λ receipt, ra_pr receipt =? number)%N (rev (lt_required_runs t))) (λ receipt,
    is_some_and (lt_current t !! number) (λ current,
      bool_decide (pr_head current = ra_head receipt) && bool_decide (pr_base current = ra_base receipt))
    && is_some_and (ra_required_policy receipt) (λ policy, rr_complete policy && String.eqb (rr_branch policy) (lt_default_branch t))
    && qualifies (ra_status receipt)).
Definition lt_ci (t : LandTick) (number : PrNumber) : StackEntryCi :=
  if native_member_required_ready t number then CiReady else CiNotReady.

Definition land_key (stack_number : N) : string := fmt ["land-"; show_N stack_number].
Definition land_operation_id (t : LandTick) (stack_number : N) : string :=
  fmt [lt_operation_id t; ":stack:"; show_N stack_number].

(** The saved checkpoint, or a new one, saved before the first write; [None]
    where the tick waits. *)
Definition begin_landing (t : LandTick) (caravan : Caravan) (stack_number : N) : LandProg (option GitHubStackLandCheckpoint) :=
  let root := default 0%N (caravan_head caravan) in
  if negb (native_member_required_ready t root) then
    run! report (NoteStackWait caravan stack_number root [RequiredChecksNotReady]) in Ret (Ok None)
  else
    let? stack := on_stack (perform (StackGeneration stack_number)) LandRead in
    match stack with
    | None => Ret (Err LandStackMissing)
    | Some stack =>
        match plan_github_stack_ready_prefix stack (stack_merge_evidence (lt_facts t (lt_held t)) stack (lt_ci t)) with
        | Err e => Ret (Err (LandPlan e))
        | Ok prefix =>
            if length (rp_selected prefix) =? 0 then
              match rp_first_blocked prefix with
              | Some blocked =>
                  run! report (NoteStackWait caravan stack_number (bl_pr blocked) (bl_blockers blocked)) in Ret (Ok None)
              | None => Ret (Ok None)
              end
            else if native_prefix_waits_for_provider_regeneration prefix (length (List.filter entry_is_open (entries_of stack))) then
              let blocked := match rp_first_blocked prefix with Some blocked => bl_pr blocked | None => 0%N end in
              run! report (NoteRegeneration root blocked) in Ret (Ok None)
            else
              match direct_squash_plan prefix (land_operation_id t stack_number) (lt_reviewed_by t) with
              | Err e => Ret (Err (LandPlan e))
              | Ok plan =>
                  let checkpoint := native_stack_land_begin (lt_repository t) plan in
                  run? save_native (land_key stack_number) checkpoint in
                  Ret (Ok (Some checkpoint))
              end
        end
    end.

(** One step of the transaction: the next checkpoint and whether this process
    marked the submission, or that the tick stops. *)
Inductive LandMove := MoveTo (checkpoint : GitHubStackLandCheckpoint) (marked : bool) | MoveHeld | MoveDone.

Fixpoint audit_all (c : GitHubStackLandCheckpoint) (entries : list GitHubStackEntryGeneration) : LandProg unit :=
  match entries with
  | [] => Ret (Ok ())
  | entry :: entries => run? from_host (LandAudit c entry) in audit_all c entries
  end.
Definition hold_back (caravan : Caravan) (c : GitHubStackLandCheckpoint) : LandProg LandMove :=
  run! report (NoteLand c) in
  run! report (NoteNotQualified (cv_id caravan) (ld_phase c)) in
  Ret (Ok MoveHeld).
Definition move (t : LandTick) (caravan : Caravan) (marked : bool) (c : GitHubStackLandCheckpoint) : LandProg LandMove :=
  let pure (r : LandResult) marked := match r with Ok next => Ok (MoveTo next marked) | Err e => Err (LandStep e) end in
  let continue (p : Prog StackOp LandResult) : LandProg LandMove := (let? next := stepped p in Ret (Ok (MoveTo next marked))) in
  match ld_phase c with
  | LandPlanned =>
      let? ready := native_required_ready (lt_default_branch t) (lt_held t) c in
      if negb ready then hold_back caravan c else continue (native_stack_land_lock (lt_repository t) c)
  | LandLocked =>
      run? audit_all c (mp_selected (ld_plan c)) in
      let? ready := native_required_ready (lt_default_branch t) (lt_held t) c in
      if negb ready then hold_back caravan c
      else Ret (pure (native_stack_land_mark_submitting (lt_repository t) c) true)
  | LandSubmitting =>
      if marked then continue (native_stack_land_submit (lt_repository t) c)
      else Ret (pure (native_stack_land_abandon_uncertain_submission (lt_repository t) c) marked)
  | LandSubmitted => continue (native_stack_land_poll (lt_repository t) c)
  | LandTerminal => continue (native_stack_land_release (lt_repository t) c)
  | LandReleased => Ret (Ok MoveDone)
  end.

(** A round of the loop; it leaves with the checkpoint to report, or with none
    where the tick already reported. *)
Definition land_round (t : LandTick) (caravan : Caravan) (stack_number : N) (state : GitHubStackLandCheckpoint * bool)
    : Prog LandOp ((GitHubStackLandCheckpoint * bool) + result (option GitHubStackLandCheckpoint) LandFault) :=
  let '(c, marked) := state in
  let! moved := move t caravan marked c in
  match moved with
  | Err e => Ret (inr (Err e))
  | Ok MoveHeld => Ret (inr (Ok None))
  | Ok MoveDone => Ret (inr (Ok (Some c)))
  | Ok (MoveTo next marked) =>
      let! saved := save_native (land_key stack_number) next in
      match saved with
      | Err e => Ret (inr (Err e))
      | Ok _ =>
          if bool_decide (ld_phase next = ld_phase c) then Ret (inr (Ok (Some next)))
          else
            run! (if mem (ld_phase next) [LandLocked; LandSubmitted; LandReleased]
                  then report (NoteAdvanced stack_number (ld_phase c) (ld_phase next)) else Ret ()) in
            Ret (inl (next, marked))
      end
  end.

Fixpoint report_merged (stack_number : N) (entries : list GitHubStackEntryGeneration) : Prog LandOp unit :=
  match entries with
  | [] => Ret ()
  | entry :: entries => run! report (NoteMerged stack_number (en_pr entry)) in report_merged stack_number entries
  end.
Definition finish_landing (stack_number : N) (c : GitHubStackLandCheckpoint) : LandProg unit :=
  run! report (NoteLand c) in
  if negb (bool_decide (ld_phase c = LandReleased)) then Ret (Ok ())
  else match ld_terminal_status c with
       | Some MergeMerged => run! report_merged stack_number (mp_selected (ld_plan c)) in Ret (Ok ())
       | Some MergeFailed => Ret (Err (LandFailed (failure_handoff c) c))
       | Some MergeIndeterminate => Ret (Err (LandIndeterminate c))
       | _ => Ret (Err (LandStatusInvalid c))
       end.

Definition land_from (t : LandTick) (caravan : Caravan) (stack_number : N) (c : GitHubStackLandCheckpoint) : LandProg unit :=
  run? from_host (LandCapacity 3) in
  let! ended := repeat_up_to 5 (land_round t caravan stack_number) (c, false) in
  match ended with
  | inl (c, _) | inr (Ok (Some c)) => finish_landing stack_number c
  | inr (Ok None) => Ret (Ok ())
  | inr (Err e) => Ret (Err e)
  end.

Definition drain_native_stack (t : LandTick) (caravan : Caravan) (stack_number : N) : LandProg unit :=
  let? saved := from_store (load (T := GitHubStackLandCheckpoint) (land_key stack_number)) in
  match saved with
  | Some c =>
      if negb (land_verify c) || negb (bool_decide (ld_repository c = lt_repository t))
         || negb (gn_number (mp_before (ld_plan c)) =? stack_number)%N
      then Ret (Err LandStale)
      else land_from t caravan stack_number c
  | None =>
      let? begun := begin_landing t caravan stack_number in
      match begun with
      | None => Ret (Ok ())
      | Some c => land_from t caravan stack_number c
      end
  end.

(** ** Saved checkpoints at the start of a tick *)

(** [trim_end_matches]. *)
Fixpoint trim_end_str (fuel : nat) (suffix s : string) : string :=
  match fuel, strip_suffix suffix s with
  | S fuel, Some rest => trim_end_str fuel suffix rest
  | _, _ => s
  end.
Definition list_keys (prefix : string) : LandProg (list string) :=
  let! answer := perform (LandFile FsCommonDir) in
  match answer with
  | GitNotStarted => Ret (Err (LandStorage (mkStorageError "native_stack_checkpoint_storage_discovery_failed")))
  | GitFailed => Ret (Err (LandStorage (mkStorageError "git_repository_not_found")))
  | GitDir common_dir =>
      let! names := perform (LandReadDir (directory_under common_dir)) in
      Ret (match names with
           | None => Ok []
           | Some (Err _) => Err (LandStorage (mkStorageError "native_stack_checkpoint_read_failed"))
           | Some (Ok names) =>
               Ok (vec_sort ((λ name, trim_end_str (String.length name) ".json" name)
                               <$> List.filter (λ name, starts_with prefix name && ends_with ".json" name) names))
           end)
  end.

(** What the pass reads of the status of the native Stacks. *)
Record NativeStackEntry := mkNativeEntry { ne_number : N; ne_state : string; ne_merged_at : option string }.
Inductive StackConsistency := ConsistencyExact | Drifted | Orphaned | UnknownConsistency.
#[export] Instance StackConsistency_eq_dec : EqDecision StackConsistency.
Proof. solve_decision. Defined.
Record NativeStackStatus := mkNativeStackStatus {
  ns_number : N;
  ns_pull_requests : list NativeStackEntry;
  ns_consistency : StackConsistency;
  ns_ancestry_linear : list bool }.
Record LandStatus := mkLandStatus {
  ls_repository : RepositoryId;
  ls_pull_requests : gmap PrNumber PullRequestSnapshot;
  ls_fleet : CaravanFleet;
  ls_native_stacks : list NativeStackStatus;
  ls_github_stacks : bool;
  ls_mutations_opt_in : bool }.

Definition landed_entry (status : LandStatus) (stack_number : N) (number : PrNumber) : bool :=
  is_some_and (ls_pull_requests status !! number) is_merged
  || is_some_and (List.find (λ native, ns_number native =? stack_number)%N (ls_native_stacks status)) (λ native,
       existsb (λ entry, (ne_number entry =? number)%N && is_some_b (ne_merged_at entry)
                         && (eq_ignore_ascii_case (ne_state entry) "closed" || eq_ignore_ascii_case (ne_state entry) "merged"))
         (ns_pull_requests native)).
Fixpoint take_while {A} (p : A → bool) (l : list A) : list A :=
  match l with [] => [] | x :: l => if p x then x :: take_while p l else [] end.
Definition open_entry (entry : NativeStackEntry) : bool := eq_ignore_ascii_case (ne_state entry) "open".
Definition same_branch (base head : BranchSnapshot) : bool :=
  bool_decide (br_repository base = br_repository head) && String.eqb (br_name base) (br_name head).
(** The rows hang one on the other, the first on the default branch. *)
Fixpoint linear_from (target : BranchSnapshot) (pulls : list PullRequestSnapshot) : bool :=
  match pulls with
  | [] => true
  | pull :: pulls => same_branch (pr_base pull) target && linear_from (pr_head pull) pulls
  end.
Fixpoint collect_some {A B} (f : A → option B) (l : list A) : option (list B) :=
  match l with
  | [] => Some []
  | x :: l => y ← f x; rest ← collect_some f l; Some (y :: rest)
  end.

Definition suffix_converged (status : LandStatus) (surviving : list PrNumber) : bool :=
  match surviving with
  | [] => true
  | _ =>
      match collect_some (λ number, ls_pull_requests status !! number) surviving with
      | None => false
      | Some pulls =>
          if existsb (λ pull, negb (bool_decide (pr_state pull = Open))) pulls
             || negb (linear_from (fl_default_branch (ls_fleet status)) pulls) then false
          else if negb (existsb (λ caravan, bool_decide (cv_members caravan = surviving) && negb (cv_parked caravan))
                          (fl_caravans (ls_fleet status))) then false
          else match surviving with
               | [only] =>
                   negb (existsb (λ native,
                     existsb (λ entry, (ne_number entry =? only)%N && open_entry entry) (ns_pull_requests native)
                     && negb (bool_decide (ns_consistency native = ConsistencyExact))) (ls_native_stacks status))
               | _ =>
                   existsb (λ native, bool_decide (ns_consistency native = ConsistencyExact)
                     && forallb (λ linear, linear) (ns_ancestry_linear native)
                     && bool_decide (ne_number <$> List.filter open_entry (ns_pull_requests native) = surviving))
                     (ls_native_stacks status)
               end
      end
  end.
Definition native_stack_landing_converged (status : LandStatus) (c : GitHubStackLandCheckpoint) : bool :=
  if negb (bool_decide (ld_phase c = LandReleased)) || is_none_b (ld_lock_release c)
     || negb (bool_decide (ld_terminal_status c = Some MergeMerged) || bool_decide (ld_terminal_status c = Some MergeFailed))
  then false
  else
    let selected : gset PrNumber := list_to_set (en_pr <$> mp_selected (ld_plan c)) in
    let merged := landed_entry status (gn_number (mp_before (ld_plan c))) in
    let ordered := en_pr <$> entries_of (mp_before (ld_plan c)) in
    let prefix := take_while merged ordered in
    let surviving := drop (length prefix) ordered in
    if (length prefix =? 0) || existsb merged surviving
       || existsb (λ number, negb (bool_decide (number ∈ selected))) prefix
       || (bool_decide (ld_terminal_status c = Some MergeMerged) && existsb (λ number, negb (merged number)) (en_pr <$> mp_selected (ld_plan c)))
    then false
    else suffix_converged status surviving.

(** A round of the finalization of a saved checkpoint. *)
Definition finalize_round (repository : RepositoryId) (key : string) (c : GitHubStackLandCheckpoint)
    : Prog LandOp (GitHubStackLandCheckpoint + result GitHubStackLandCheckpoint LandFault) :=
  let! next := (match ld_phase c with
                | LandSubmitting =>
                    Ret (match native_stack_land_abandon_uncertain_submission repository c with
                         | Ok next => Ok (Some next) | Err e => Err (LandStep e) end)
                | LandSubmitted => let? next := stepped (native_stack_land_poll repository c) in Ret (Ok (Some next))
                | LandTerminal => let? next := stepped (native_stack_land_release repository c) in Ret (Ok (Some next))
                | _ => Ret (Ok None)
                end) in
  match next with
  | Err e => Ret (inr (Err e))
  | Ok None => Ret (inr (Ok c))
  | Ok (Some next) =>
      let! saved := save_native key next in
      Ret (match saved with
           | Err e => inr (Err e)
           | Ok _ => if bool_decide (ld_phase next = ld_phase c) || bool_decide (ld_phase next = LandReleased)
                     then inr (Ok next) else inl next
           end)
  end.

Definition convergence_problem : string :=
  "fresh provider status has not yet proven merged prefix, promoted linear suffix, and exact Stack membership".
(** A released checkpoint is retired where it has converged; [changed] tells. *)
Definition settle_released (status : LandStatus) (key : string) (c : GitHubStackLandCheckpoint) : LandProg bool :=
  let? observed :=
    (if bool_decide (ld_terminal_status c = Some MergeIndeterminate) then
       let? observed := stepped (native_stack_land_reobserve_released (ls_repository status) c) in
       if negb (bool_decide (observed = c)) then run? save_native key observed in Ret (Ok (observed, true)) else Ret (Ok (c, false))
     else Ret (Ok (c, false))) in
  let '(c, changed) := observed in
  if native_stack_landing_converged status c then
    run? save_native (fmt ["retired-"; key; "-"; dashed (ld_evidence_hash c)]) c in
    run? from_store (remove key) in
    Ret (Ok true)
  else
    run? save_native key (observe_convergence_pending convergence_problem c) in
    Ret (Ok changed).

Definition reconcile_key (status : LandStatus) (key : string) : LandProg bool :=
  let? saved := from_store (load (T := GitHubStackLandCheckpoint) key) in
  match saved with
  | None => Ret (Ok false)
  | Some c =>
      if negb (land_verify c) || negb (bool_decide (ld_repository c = ls_repository status)) then Ret (Ok false)
      else
        run? save_native key c in
        let! ended := repeat_up_to 5 (finalize_round (ls_repository status) key) c in
        match ended with
        | inr (Err e) => Ret (Err e)
        | inl c | inr (Ok c) =>
            if bool_decide (ld_phase c = LandReleased) then settle_released status key c else Ret (Ok false)
        end
  end.
Fixpoint reconcile_keys (status : LandStatus) (changed : bool) (keys : list string) : LandProg bool :=
  match keys with
  | [] => Ret (Ok changed)
  | key :: keys =>
      let? here := reconcile_key status key in
      reconcile_keys status (changed || here) keys
  end.

Fixpoint live_locks (keys : list string) : LandProg (gset string) :=
  match keys with
  | [] => Ret (Ok ∅)
  | key :: keys =>
      let? saved := from_store (load (T := GitHubStackLandCheckpoint) key) in
      let? rest := live_locks keys in
      Ret (Ok (match c ← saved; outstanding_lock c with Some lock => {[ lk_name lock ]} ∪ rest | None => rest end))
  end.
Fixpoint delete_orphans (repository : RepositoryId) (live : gset string) (changed : bool)
    (locks : list GitHubStackBranchLockGeneration) : LandProg bool :=
  match locks with
  | [] => Ret (Ok changed)
  | lock :: locks =>
      if bool_decide (lk_name lock ∈ live) then delete_orphans repository live changed locks
      else
        run? on_stack (delete_stack_branch_lock repository lock) (λ e, LandStep (LandLockError e)) in
        delete_orphans repository live true locks
  end.

Definition reconcile_pending_native_stack_landing_checkpoints (status : LandStatus) : LandProg bool :=
  if negb (ls_github_stacks status) then Ret (Ok false)
  else
    let? keys := list_keys "land-" in
    let? changed := reconcile_keys status false keys in
    if negb (ls_mutations_opt_in status) then Ret (Ok changed)
    else
      let? locks := on_stack (list_active_stack_branch_locks (ls_repository status)) (λ e, LandStep (LandLockError e)) in
      let? keys := list_keys "land-" in
      let? live := live_locks keys in
      delete_orphans (ls_repository status) live changed locks.
End drivers.
