(* ===== verification/StackLandProofs.v ===== *)
(** A native Stack merge is submitted at most once: the machine the landing runs
    on, and the invariant of its checkpoints under kills and faults at any
    point. *)

From Stdlib Require Import Ascii String.
From S2P Require Import Prelude Text TextProofs Model RequiredRuns Generation Budget Files Programs Store Checkpoints Command StackLock StackLockProofs StackMerge StackMergeProofs StackPolicy StackLand.

#[local] Open Scope string_scope.
#[local] Open Scope list_scope.
#[local] Open Scope nat_scope.
#[local] Open Scope prog_scope.

(** ** Programs by what they return and submit *)

(** Whatever is answered, what is returned has [P]. *)
Fixpoint returns {A} (P : A → Prop) (p : Prog StackOp A) : Prop :=
  match p with Ret a => P a | Vis _ k => ∀ r, returns P (k r) end.

Lemma returns_bind {A B} (P : A → Prop) (Q : B → Prop) (p : Prog StackOp A) (f : A → Prog StackOp B) :
  returns P p → (∀ a, P a → returns Q (f a)) → returns Q (pbind p f).
Proof. intros Hp Hf. induction p as [a | R op k IH]; cbn in *; [by apply Hf |]. intros r. by apply IH. Qed.
Lemma returns_mono {A} (P Q : A → Prop) (p : Prog StackOp A) : (∀ a, P a → Q a) → returns P p → returns Q p.
Proof. intros HQ Hp. induction p as [a | R op k IH]; cbn in *; [by apply HQ |]. intros r. by apply IH. Qed.
Lemma returns_any {A} (p : Prog StackOp A) : returns (λ _, True) p.
Proof. induction p as [a | R op k IH]; cbn; auto. Qed.
(** A step that keeps what holds of every value. *)
Definition ok_returns {A E} (P : A → Prop) (p : Prog StackOp (result A E)) : Prop := returns (λ r, ∀ a, r = Ok a → P a) p.
Lemma ok_returns_try {A B E} (P : A → Prop) (Q : B → Prop) (p : Prog StackOp (result A E)) (f : A → Prog StackOp (result B E)) :
  ok_returns P p → (∀ a, P a → ok_returns Q (f a)) → ok_returns Q (ebind p f).
Proof. intros Hp Hf. eapply returns_bind; [exact Hp |]. intros [a | e] Ha; [by apply Hf, Ha | by intros ? [=]]. Qed.
Lemma ok_leaves_map_err {A E F} (P : A → Prop) (p : Prog StackOp (result A E)) (f : E → F) :
  ok_returns P p → ok_returns P (map_err p f).
Proof. intros Hp. eapply returns_bind; [exact Hp |]. intros [a | e] Ha; intros ? [= <-]. by apply Ha. Qed.
Lemma ok_returns_any {A E} (p : Prog StackOp (result A E)) : ok_returns (λ _, True) p.
Proof. eapply returns_mono; [| apply returns_any]. done. Qed.

(** The program submits at most once, and only this operation. *)
Definition submit_of {R} (op : StackOp R) : option string := match op with StackSubmit id _ => Some id | _ => None end.
Fixpoint may_submit {A} (id : option string) (p : Prog StackOp A) : Prop :=
  match p with
  | Ret _ => True
  | Vis op k =>
      match submit_of op with
      | Some i => id = Some i ∧ ∀ r, may_submit None (k r)
      | None => ∀ r, may_submit id (k r)
      end
  end.

Lemma may_submit_none {A} id (p : Prog StackOp A) : may_submit None p → may_submit id p.
Proof. induction p as [a | R op k IH]; cbn; [done |]. destruct (submit_of op); [by intros [[=] _] | auto]. Qed.
Lemma may_submit_before {A B} id (p : Prog StackOp A) (f : A → Prog StackOp B) :
  may_submit id p → (∀ a, may_submit None (f a)) → may_submit id (pbind p f).
Proof.
  revert id. induction p as [a | R op k IH]; intros id; cbn; [intros _ Hf; by apply may_submit_none |].
  destruct (submit_of op); [intros [-> Hk] Hf; split; [done |] |]; eauto.
Qed.
Lemma may_submit_after {A B} id (p : Prog StackOp A) (f : A → Prog StackOp B) :
  may_submit None p → (∀ a, may_submit id (f a)) → may_submit id (pbind p f).
Proof.
  induction p as [a | R op k IH]; cbn; [auto |]. destruct (submit_of op); [by intros [[=] _] | auto].
Qed.
Lemma may_submit_perform {R B} id (op : StackOp R) (k : R → Prog StackOp B) :
  submit_of op = None → (∀ r, may_submit id (k r)) → may_submit id (pbind (perform op) k).
Proof. intros Hop Hk. cbn. by rewrite Hop. Qed.
Lemma reads_submit {A} (p : Prog StackOp A) : reads_only p → may_submit None p.
Proof. induction p as [a | R op k IH]; cbn; [done |]. destruct op; cbn; [| by intros [[] _] | intros [_ Hk]; auto..]. intros [_ Hk]. auto. Qed.

Definition submitted (log : StackLog) : list string :=
  omap (λ e, match e with EvSubmit id _ _ => Some id | _ => None end) log.
Lemma submitted_app log log' : submitted (log ++ log') = submitted log ++ submitted log'.
Proof. apply omap_app. Qed.

Lemma submits_spec {A} I id (p : Prog StackOp A) (P : A → Prop) (Q : A → StackLog → Prop) log :
  may_submit id p → returns P p →
  (∀ log', submitted log' = submitted log ∨ (∃ i, id = Some i ∧ submitted log' = submitted log ++ [i]) → I log') →
  (∀ a log', P a → submitted log' = submitted log ∨ (∃ i, id = Some i ∧ submitted log' = submitted log ++ [i]) → Q a log') →
  holds exec_stack I p Q log.
Proof.
  revert id log. induction p as [a | R op k IH]; intros id log Hp HP HI HQ; [by apply HQ; [| left] |]. cbn in Hp, HP. intros c.
  assert (∃ e, exec_stack R c op log = ((exec_stack R c op log).1, log ++ [e])
    ∧ submitted [e] = match submit_of op with Some i => [i] | None => [] end) as (e & -> & He) by (destruct op; eexists; done).
  destruct (submit_of op) as [i |].
  - destruct Hp as [-> Hk]. split; [apply HI; right; exists i; by rewrite submitted_app, He |].
    apply (IH _ None); [apply Hk | apply HP | |].
    + intros log' Hlog'. rewrite submitted_app, He in Hlog'. destruct Hlog' as [Heq | (? & [=] & _)]. apply HI. right. by exists i.
    + intros a log' Ha Hlog'. rewrite submitted_app, He in Hlog'. destruct Hlog' as [Heq | (? & [=] & _)]. apply HQ; [done |]. right. by exists i.
  - assert (submitted (log ++ [e]) = submitted log) as Hsame by (by rewrite submitted_app, He, app_nil_r).
    split; [apply HI; by left |]. apply (IH _ id); [apply Hp | apply HP | |].
    + intros log' Hlog'. rewrite Hsame in Hlog'. by apply HI.
    + intros a log' Ha Hlog'. rewrite Hsame in Hlog'. by apply HQ.
Qed.

Section steps.
Context `{!LockHost, !MergeHost, !LandHost}.

Lemma acquire_no_submit repository plan : may_submit None (native_stack_branch_lock_acquire repository plan).
Proof.
  unfold native_stack_branch_lock_acquire. destruct (expected_lock repository plan) as [expected |]; [| done].
  apply may_submit_after; [apply reads_submit, find_lock_reads |]. intros [[existing |] |]; [done | | done].
  apply may_submit_perform; [done |]. intros response. apply may_submit_after; [apply reads_submit, find_lock_reads | done].
Qed.
Lemma release_no_submit repository plan lock : may_submit None (native_stack_branch_lock_release repository plan lock).
Proof.
  unfold native_stack_branch_lock_release. destruct (validate_lock_plan repository plan); [| done].
  apply may_submit_after; [apply reads_submit, read_lock_reads |]. intros [before |]; [| done]. cbv iota beta.
  destruct (set_pull_requests _ <$> before) as [before' |].
  - destruct (negb _); [done |]. apply may_submit_perform; [done |]. intros response. apply may_submit_after; [apply reads_submit, read_lock_reads |].
    intros after. apply may_submit_after; [| done]. destruct after as [[] |]; try done. apply reads_submit, find_lock_reads.
  - apply may_submit_after; [apply reads_submit, find_lock_reads | by intros []].
Qed.
Lemma submit_locked_once repository plan lock :
  may_submit (Some (mp_operation_id plan)) (native_stack_merge_submit_locked repository plan lock).
Proof.
  unfold native_stack_merge_submit_locked. destruct (validate_merge_lock plan lock); [| done].
  apply may_submit_after; [apply reads_submit, reads_only_map_err, verify_reads |]. intros [lock' |]; [| done].
  apply may_submit_before; [| by intros []].
  unfold native_stack_merge_submit_unlocked. destruct (validate_merge_plan repository plan); [| done].
  intros stack. destruct stack as [stack |]; [| done]. cbn [pbind ebind]. destruct (negb _); [done |].
  split; [done |]. intros response. cbn [pbind]. apply reads_submit, submission_outcome_reads.
Qed.

(** A step keeps the operation and never moves back. *)
Definition op_of (c : GitHubStackLandCheckpoint) : string := mp_operation_id (ld_plan c).
Definition onward (c next : GitHubStackLandCheckpoint) : Prop :=
  op_of next = op_of c ∧ phase_index (ld_phase c) ≤ phase_index (ld_phase next).

Lemma onward_refl c : onward c c.
Proof. done. Qed.
Lemma land_lock_onward repository c : ok_returns (onward c) (native_stack_land_lock repository c).
Proof.
  unfold native_stack_land_lock. destruct (land_validate repository c); [| by intros ? [=]].
  unfold phase_ge. destruct (Nat.leb_spec (phase_index LandLocked) (phase_index (ld_phase c))) as [_ | Hlt]; [by intros ? [= <-] |].
  eapply ok_returns_try; [apply ok_returns_any |]. intros receipt _ next. destruct (lr_lock receipt); [| done]. intros [= <-].
  split; [done |]. cbn in *. lia.
Qed.
Lemma mark_onward repository c next :
  native_stack_land_mark_submitting repository c = Ok next →
  onward c next ∧ 2 ≤ phase_index (ld_phase next).
Proof.
  unfold native_stack_land_mark_submitting. destruct (land_validate repository c); [| done].
  unfold phase_ge. destruct (Nat.leb_spec (phase_index LandSubmitting) (phase_index (ld_phase c))) as [Hle |]; [intros [= <-]; by split |]. destruct (bool_decide_reflect (ld_phase c = LandLocked)) as [Hp |]; [cbn [negb] | done].
  intros [= <-]. unfold onward. cbn. rewrite Hp. cbn. auto with lia.
Qed.
Lemma abandon_onward repository c next : native_stack_land_abandon_uncertain_submission repository c = Ok next → onward c next.
Proof.
  unfold native_stack_land_abandon_uncertain_submission. destruct (land_validate repository c); [| done].
  destruct (bool_decide_reflect (ld_phase c = LandSubmitting)) as [Hp |]; [cbn [negb] | done].
  intros [= <-]. unfold onward. cbn. rewrite Hp. cbn. auto.
Qed.
Lemma advance_onward c receipt :
  phase_index (ld_phase c) ≤ 3 → onward c (advance c receipt) ∧ 3 ≤ phase_index (ld_phase (advance c receipt)).
Proof. intros Hp. unfold onward, advance. destruct (mr_status (lm_merge receipt)); cbn; split_and!; done || lia. Qed.
Lemma land_submit_onward repository c :
  ok_returns (λ next, onward c next ∧ 3 ≤ phase_index (ld_phase next)) (native_stack_land_submit repository c).
Proof.
  unfold native_stack_land_submit. destruct (land_validate repository c); [| by intros ? [=]].
  unfold phase_ge. destruct (Nat.leb_spec (phase_index LandSubmitted) (phase_index (ld_phase c))) as [Hle | Hlt]; [intros ? [= <-]; by split |].
  destruct (negb _); [by intros ? [=] |]. eapply ok_returns_try; [apply ok_returns_any |]. intros receipt _ next [= <-].
  apply advance_onward. cbn in Hlt. lia.
Qed.
Lemma land_poll_onward repository c : ok_returns (onward c) (native_stack_land_poll repository c).
Proof.
  unfold native_stack_land_poll. destruct (land_validate repository c); [| by intros ? [=]].
  unfold phase_ge. destruct (Nat.leb_spec (phase_index LandTerminal) (phase_index (ld_phase c))) as [Hle | Hlt]; [by intros ? [= <-] |].
  destruct (ld_phase c) eqn:Hp; try (by intros ? [=]). destruct (ld_merge c); [| by intros ? [=]].
  eapply ok_returns_try; [apply ok_returns_any |]. intros receipt _ next [= <-]. apply advance_onward. rewrite Hp. cbn. lia.
Qed.
Lemma land_reobserve_onward repository c : ok_returns (onward c) (native_stack_land_reobserve_released repository c).
Proof.
  unfold native_stack_land_reobserve_released. destruct (land_validate repository c); [| by intros ? [=]].
  destruct (_ || _); [by intros ? [=] |]. eapply ok_returns_try; [apply ok_returns_any |]. intros receipt _ next [= <-].
  by destruct (mr_status (lm_merge receipt)).
Qed.
Lemma land_release_onward repository c : ok_returns (onward c) (native_stack_land_release repository c).
Proof.
  unfold native_stack_land_release. destruct (land_validate repository c); [| by intros ? [=]].
  destruct (bool_decide_reflect (ld_phase c = LandReleased)); [by intros ? [= <-] |].
  destruct (ld_phase c) eqn:Hp; try (by intros ? [=]). destruct (ld_branch_lock c); [| by intros ? [=]].
  eapply ok_returns_try; [apply ok_returns_any |]. intros receipt _ next [= <-]. unfold onward. rewrite Hp. cbn. auto.
Qed.

Lemma land_lock_no_submit repository c : may_submit None (native_stack_land_lock repository c).
Proof.
  unfold native_stack_land_lock. destruct (land_validate repository c); [| done]. destruct (phase_ge _ _); [done |].
  apply may_submit_after; [apply may_submit_after; [apply acquire_no_submit | done] |]. by intros [].
Qed.
Lemma land_submit_once repository c : may_submit (Some (op_of c)) (native_stack_land_submit repository c).
Proof.
  unfold native_stack_land_submit. destruct (land_validate repository c); [| done]. destruct (phase_ge _ _); [done |].
  destruct (negb _); [done |]. apply may_submit_before; [apply may_submit_before; [apply submit_locked_once | done] | by intros []].
Qed.
Lemma poll_locked_no_submit repository merge : may_submit None (native_stack_merge_poll_locked repository merge).
Proof.
  unfold native_stack_merge_poll_locked. destruct (validate_locked_checkpoint repository merge); [| done].
  apply may_submit_after; [apply reads_submit, verify_reads |]. intros lock.
  apply may_submit_after; [apply reads_submit, poll_unlocked_reads | by intros []].
Qed.
Lemma land_poll_no_submit repository c : may_submit None (native_stack_land_poll repository c).
Proof.
  unfold native_stack_land_poll. destruct (land_validate repository c); [| done]. destruct (phase_ge _ _); [done |].
  destruct (ld_phase c), (ld_merge c); try done.
  apply may_submit_after; [apply may_submit_after; [apply poll_locked_no_submit | done] | by intros []].
Qed.
Lemma land_reobserve_no_submit repository c : may_submit None (native_stack_land_reobserve_released repository c).
Proof.
  unfold native_stack_land_reobserve_released. destruct (land_validate repository c); [| done]. destruct (_ || _); [done |].
  apply may_submit_after; [| by intros []]. destruct (ld_merge c) as [merge |].
  - apply may_submit_after; [| done]. unfold native_stack_merge_reobserve_released.
    destruct (validate_locked_checkpoint repository merge); [| done].
    apply may_submit_after; [apply reads_submit, poll_unlocked_reads | by intros []].
  - apply may_submit_after; [| done]. apply may_submit_after; [apply reads_submit, terminal_reads | done].
Qed.
Lemma land_release_no_submit repository c : may_submit None (native_stack_land_release repository c).
Proof.
  unfold native_stack_land_release. destruct (land_validate repository c); [| done]. destruct (bool_decide _); [done |].
  destruct (ld_phase c), (ld_branch_lock c); try done.
  apply may_submit_after; [apply may_submit_after; [apply release_no_submit | done] | by intros []].
Qed.
End steps.

(** ** The machine *)

(** The files, and what was asked of the provider so far. *)
Record LandWorld := mkLandWorld {
  lw_disk : gmap Path (list N);
  lw_log : StackLog }.
Definition set_disk (d : gmap Path (list N)) (w : LandWorld) : LandWorld := mkLandWorld d (lw_log w).
Definition set_log (log : StackLog) (w : LandWorld) : LandWorld := mkLandWorld (lw_disk w) log.

Record LandChoice := mkLandChoice {
  lch_file : FileChoice;
  lch_stack : StackChoice;
  lch_names : option (result (list string) unit);
  lch_done : result unit Code;
  lch_policy : result RequiredContextsRead Code;
  lch_snapshot : result PullRequestSnapshot Code;
  lch_status : result RequiredRunsStatus Code }.

Section machine.
Context `{!LockHost, !MergeHost, !LandHost} (common_dir : Path).

Definition exec_land (R : Type) (c : LandChoice) (op : LandOp R) (w : LandWorld) : R * LandWorld :=
  match op in LandOp R return R * LandWorld with
  | LandFile op => let (r, d) := exec_file common_dir _ (lch_file c) op (lw_disk w) in (r, set_disk d w)
  | LandStack op => let (r, log) := exec_stack _ (lch_stack c) op (lw_log w) in (r, set_log log w)
  | LandReadDir _ => (lch_names c, w)
  | LandListOperation _ | LandCapacity _ | LandAudit _ _ => (lch_done c, w)
  | LandPolicy _ => (lch_policy c, w)
  | LandSnapshot _ => (lch_snapshot c, w)
  | LandAssess _ _ => (lch_status c, w)
  | LandReport _ => (tt, w)
  end.

(** Ticks one after the other: each pass finishes, or is killed where its
    choices end; the next one finds the files as they are. *)
Inductive LandCall :=
| CallDrain (pid : N) (t : LandTick) (caravan : Caravan) (stack_number : N) (choices : list LandChoice)
| CallReconcile (pid : N) (status : LandStatus) (choices : list LandChoice).
Definition run_call (call : LandCall) (w : LandWorld) : LandWorld :=
  match call with
  | CallDrain pid t caravan stack_number choices => (drive exec_land choices (drain_native_stack pid t caravan stack_number) w).2
  | CallReconcile pid status choices =>
      (drive exec_land choices (reconcile_pending_native_stack_landing_checkpoints pid status) w).2
  end.
Definition run_land (calls : list LandCall) (w : LandWorld) : LandWorld := foldl (λ w call, run_call call w) w calls.
(** The operation a call may begin. *)
Definition call_operation (call : LandCall) : option string :=
  match call with
  | CallDrain _ t _ stack_number _ => Some (land_operation_id t stack_number)
  | CallReconcile _ _ _ => None
  end.

(** ** The invariant *)

(** The active cursor of a landing. *)
Definition cursor (key : string) : Prop := valid_key key = true ∧ starts_with "land-" key = true.
#[local] Instance cursor_dec key : Decision (cursor key) := ltac:(unfold cursor; apply _).
Definition saved_at (d : gmap Path (list N)) (key : string) (c : GitHubStackLandCheckpoint) : Prop :=
  ∃ bytes, d !! file_of common_dir key = Some bytes ∧ decode_value bytes = Some c.

Record once (used : list string) (w : LandWorld) : Prop := {
  on_nodup : NoDup (submitted (lw_log w));
  on_used : ∀ id, id ∈ submitted (lw_log w) → id ∈ used;
  on_saved : ∀ key c, cursor key → saved_at (lw_disk w) key c →
    op_of c ∈ used ∧ (op_of c ∈ submitted (lw_log w) → 2 ≤ phase_index (ld_phase c));
  on_apart : ∀ key key' c c', cursor key → cursor key' → saved_at (lw_disk w) key c → saved_at (lw_disk w) key' c' →
    op_of c = op_of c' → key = key' }.

Lemma saved_at_fun d key c c' : saved_at d key c → saved_at d key c' → c = c'.
Proof. intros (bytes & Hb & Hc) (bytes' & Hb' & Hc'). congruence. Qed.

Lemma saved_at_same d d' key c : same_saved common_dir d d' → valid_key key = true → saved_at d' key c → saved_at d key c.
Proof. intros Hs Hk (bytes & Hb & Hc). exists bytes. by rewrite <- (Hs key Hk). Qed.
Lemma once_kept used w d : once used w → same_saved common_dir (lw_disk w) d → once used (set_disk d w).
Proof.
  intros [Hnd Hus Hsv Hap] Hs. split; try done.
  - intros key c Hk Hc. apply (Hsv key c Hk). eapply saved_at_same; [done | apply Hk | done].
  - intros key key' c c' Hk Hk' Hc Hc'. eapply (Hap key key' c c'); try done; (eapply saved_at_same; [done | apply Hk || apply Hk' | done]).
Qed.

Lemma saves_other key content d d' key' c :
  saves common_dir key content d d' → valid_key key' = true → key' ≠ key → saved_at d' key' c → saved_at d key' c.
Proof. intros Hs Hk Hne (bytes & Hb & Hc). exists bytes. by rewrite (Hs key' Hk), decide_False in Hb. Qed.

(** What is no cursor may get any content, and a cursor may be removed. *)
Lemma once_aside used w d key content :
  once used w → saves common_dir key content (lw_disk w) d → ¬ cursor key ∨ content = None → once used (set_disk d w).
Proof.
  intros [Hnd Hus Hsv Hap] Hs Hk.
  assert (∀ key' c, cursor key' → saved_at d key' c → saved_at (lw_disk w) key' c) as Hold.
  { intros key' c Hk' Hc. destruct (decide (key' = key)) as [-> | Hne]; [| by eapply saves_other; [| apply Hk' | |]].
    destruct Hk as [Hk | ->]; [done |]. destruct Hc as (bytes & Hb & _). rewrite (Hs key (proj1 Hk')), decide_True in Hb by done. done. }
  split; try done; eauto.
Qed.

(** The one cursor of its operation may be moved on. *)
Lemma once_cursor used w d key bytes c :
  once used w → cursor key → saves common_dir key (Some bytes) (lw_disk w) d → decode_value bytes = Some c →
  op_of c ∈ used → (op_of c ∈ submitted (lw_log w) → 2 ≤ phase_index (ld_phase c)) →
  (∀ key' c', cursor key' → saved_at (lw_disk w) key' c' → op_of c' = op_of c → key' = key) →
  once used (set_disk d w) ∧ saved_at d key c.
Proof.
  intros [Hnd Hus Hsv Hap] Hk Hs Hd Hused Hphase Hapart.
  assert (saved_at d key c) as Hc by (exists bytes; by rewrite (Hs key (proj1 Hk)), decide_True).
  split; [| done]. split; try done; cbn.
  - intros key' c' Hk' Hc'. destruct (decide (key' = key)) as [-> | Hne]; [by rewrite (saved_at_fun _ _ _ _ Hc' Hc) |].
    apply (Hsv key'); [done |]. by eapply saves_other; [| apply Hk' | |].
  - intros key1 key2 c1 c2 Hk1 Hk2 Hc1 Hc2 Heq.
    destruct (decide (key1 = key)) as [-> | Hne1], (decide (key2 = key)) as [-> | Hne2]; [done | | |].
    + rewrite (saved_at_fun _ _ _ _ Hc1 Hc) in Heq. symmetry. eapply Hapart; [exact Hk2 | | done]. by eapply saves_other; [| apply Hk2 | |].
    + rewrite (saved_at_fun _ _ _ _ Hc2 Hc) in Heq. eapply Hapart; [exact Hk1 | | done]. by eapply saves_other; [| apply Hk1 | |].
    + eapply (Hap key1 key2 c1 c2); try done; [by eapply saves_other; [| apply Hk1 | |] | by eapply saves_other; [| apply Hk2 | |]].
Qed.

Lemma once_log used w log : once used w → submitted log = submitted (lw_log w) → once used (set_log log w).
Proof. intros [Hnd Hus Hsv Hap] Heq. split; cbn [lw_log lw_disk set_log]; [by rewrite Heq | by rewrite Heq | | done]. intros key c. rewrite Heq. apply Hsv. Qed.
Lemma once_submit used w log key c :
  once used w → cursor key → saved_at (lw_disk w) key c → 2 ≤ phase_index (ld_phase c) → op_of c ∉ submitted (lw_log w) →
  submitted log = submitted (lw_log w) ++ [op_of c] → once used (set_log log w).
Proof.
  intros [Hnd Hus Hsv Hap] Hk Hc Hphase Hfresh Heq. split; cbn [lw_log lw_disk set_log]; [rewrite Heq | rewrite Heq | | done].
  - apply NoDup_app. split_and!; [done | | by apply NoDup_singleton]. intros id Hid ->%list_elem_of_singleton. done.
  - intros id [Hid | ->%list_elem_of_singleton]%elem_of_app; [auto |]. by apply (Hsv key c).
  - intros key' c' Hk' Hc'. destruct (Hsv key' c' Hk' Hc') as [Hused Hold]. split; [done |]. rewrite Heq.
    intros [Hid | Hid%list_elem_of_singleton]%elem_of_app; [auto |].
    assert (key' = key) as -> by (by eapply (Hap key' key)). by rewrite (saved_at_fun _ _ _ _ Hc' Hc).
Qed.
Lemma once_used used used' w : once used w → used ⊆ used' → once used' w.
Proof. intros [Hnd Hus Hsv Hap] Hsub. split; try done; [auto |]. intros key c Hk Hc. destruct (Hsv key c Hk Hc). auto. Qed.

(** ** Rules *)

Section rules.
Context `{!CodecLaws GitHubStackLandCheckpoint} (pid : N) (used : list string).
#[local] Abbreviation keeps p := (holds exec_land (once used) p).

Lemma set_log_same w : set_log (lw_log w) w = w.
Proof. by destruct w. Qed.

Lemma holds_stack {A} id (p : Prog StackOp A) (P : A → Prop) (Q : A → LandWorld → Prop) w :
  may_submit id p → returns P p →
  (∀ log, submitted log = submitted (lw_log w) ∨ (∃ i, id = Some i ∧ submitted log = submitted (lw_log w) ++ [i]) →
    once used (set_log log w) ∧ ∀ a, P a → Q a (set_log log w)) →
  keeps (embed (λ R, LandStack) p) Q w.
Proof.
  intros Hp HP HQ.
  assert (holds exec_stack (λ log, once used (set_log log w)) p (λ a log, Q a (set_log log w)) (lw_log w)) as Hh
    by (eapply submits_spec; [done | done | |]; intros; by apply HQ).
  assert (∀ log, holds exec_stack (λ log, once used (set_log log w)) p (λ a log, Q a (set_log log w)) log →
    keeps (embed (λ R, LandStack) p) Q (set_log log w)) as Hembed.
  { clear. induction p as [a | R op k IH]; intros log; cbn; [done |].
    intros Hh c. specialize (Hh (lch_stack c)). destruct (exec_stack R (lch_stack c) op log) as [r log'].
    destruct Hh as [HI Hh]. split; [done | by apply IH]. }
  apply Hembed in Hh. by rewrite set_log_same in Hh.
Qed.
(** A step that submits nothing. *)
Lemma holds_step {A} (p : Prog StackOp A) (P : A → Prop) (Q : A → LandWorld → Prop) w :
  once used w → may_submit None p → returns P p →
  (∀ a w', once used w' → lw_disk w' = lw_disk w → submitted (lw_log w') = submitted (lw_log w) → P a → Q a w') →
  keeps (embed (λ R, LandStack) p) Q w.
Proof.
  intros Hw Hp HP HQ. eapply holds_stack; [done | done |]. intros log [Heq | (? & [=] & _)].
  assert (once used (set_log log w)) by by apply once_log. split; [done |]. intros a Ha. by apply HQ.
Qed.

Lemma holds_file {A} (p : Prog FileOp (result A StorageError)) (Q : result A LandFault → LandWorld → Prop) w :
  holds (exec_file common_dir) (λ d, once used (set_disk d w)) p
    (λ r d, Q (match r with Ok a => Ok a | Err e => Err (LandStorage e) end) (set_disk d w)) (lw_disk w) →
  keeps (from_store p) Q w.
Proof.
  intros Hp. unfold from_store. apply holds_map_err.
  eapply (holds_embed exec_land (λ R, LandFile) common_dir lw_disk set_disk lch_file); try done. by destruct w.
Qed.
Lemma set_disk_id w : set_disk (lw_disk w) w = w.
Proof. by destruct w. Qed.

(** The operations that leave the files and the provider alone. *)
Fixpoint only_asks {A} (p : Prog LandOp A) : Prop :=
  match p with
  | Ret _ => True
  | Vis op k => match op with LandFile _ | LandStack _ => False | _ => True end ∧ ∀ r, only_asks (k r)
  end.
Lemma only_asks_bind {A B} (p : Prog LandOp A) (f : A → Prog LandOp B) :
  only_asks p → (∀ a, only_asks (f a)) → only_asks (pbind p f).
Proof. intros Hp Hf. induction p as [a | R op k IH]; cbn in *; [done |]. destruct Hp as [Hop Hk]. split; auto. Qed.
Lemma only_asks_try {A B} (p : LandProg A) (f : A → LandProg B) :
  only_asks p → (∀ a, only_asks (f a)) → only_asks (ebind p f).
Proof. intros Hp Hf. apply only_asks_bind; [done |]. by intros []. Qed.
Lemma holds_asks {A} (p : Prog LandOp A) (Q : A → LandWorld → Prop) w :
  only_asks p → once used w → (∀ a, Q a w) → keeps p Q w.
Proof.
  intros Hp Hw HQ. induction p as [a | R op k IH]; cbn; [done |]. destruct Hp as [Hop Hk]. intros c.
  destruct op; try done; (split; [done | apply IH, Hk]).
Qed.

Lemma land_key_cursor n : valid_key (land_key n) = true → cursor (land_key n).
Proof. intros Hk. split; [done |]. apply starts_with_app. Qed.
Lemma native_key_aside id : ¬ cursor (native_key id).
Proof. by intros [_ Hprefix]. Qed.

Lemma holds_write_aside {T} `{!Codec T} key (value : T) (Q : result unit LandFault → LandWorld → Prop) w :
  once used w → ¬ cursor key → (∀ r d, once used (set_disk d w) →
    (∀ key' c, cursor key' → saved_at d key' c ↔ saved_at (lw_disk w) key' c) → Q r (set_disk d w)) →
  keeps (from_store (write pid key value)) Q w.
Proof.
  intros Hw Hk HQ. apply holds_file, holds_write.
  - intros d Hs. assert (once used (set_disk d w)) as Hd by by apply once_kept. split; [done |]. intros e. apply HQ; [done |].
    intros key' c [Hv _]. unfold saved_at. by rewrite (Hs key' Hv).
  - intros bytes d Hv _ Hs. assert (once used (set_disk d w)) as Hd by (eapply once_aside; [done | done | by left]).
    assert (∀ key' c, cursor key' → saved_at d key' c ↔ saved_at (lw_disk w) key' c) as Hsame.
    { intros key' c Hk'. unfold saved_at. rewrite (Hs key' (proj1 Hk')), decide_False; [done |]. by intros ->. }
    split_and!; [done | by apply HQ | intros e; by apply HQ].
Qed.

(** What a save needs, and what it gives. *)
Definition may_save (key : string) (c : GitHubStackLandCheckpoint) (w : LandWorld) : Prop :=
  cursor key →
  op_of c ∈ used ∧ (op_of c ∈ submitted (lw_log w) → 2 ≤ phase_index (ld_phase c))
  ∧ ∀ key' c', cursor key' → saved_at (lw_disk w) key' c' → op_of c' = op_of c → key' = key.

Lemma holds_save key c (Q : result unit LandFault → LandWorld → Prop) w :
  once used w → may_save key c w → (∀ e w', once used w' → Q (Err e) w') →
  (∀ w', once used w' → lw_log w' = lw_log w → valid_key key = true → (cursor key → saved_at (lw_disk w') key c) → Q (Ok ()) w') →
  keeps (save_native pid key c) Q w.
Proof.
  intros Hw Hmay He Ho. unfold save_native. apply holds_try, holds_write_aside; [done | apply native_key_aside |].
  intros [[] | e] d Hd Hsame; [| by apply He]. set (w1 := set_disk d w) in *. apply holds_try.
  apply holds_asks; [done | done |]. intros [[] | e]; [| by apply He].
  apply holds_file, holds_write.
  - intros d' Hs. assert (once used (set_disk d' w1)) by by apply once_kept. split; [done |]. intros e. by apply He.
  - intros bytes d' Hv Hb Hs. destruct (decide (cursor key)) as [Hk | Hk].
    + destruct (Hmay Hk) as (Hused & Hphase & Hapart).
      destruct (once_cursor used w1 d' key bytes c) as [Hd' Hc]; try done; [by apply codec_roundtrip | |].
      { intros key' c' Hk' Hc'. by apply Hapart, Hsame. }
      split_and!; [done | by apply Ho | intros e; by apply He].
    + assert (once used (set_disk d' w1)) by (eapply once_aside; [done | done | by left]).
      split_and!; [done | by apply Ho | intros e; by apply He].
Qed.

(** ** The drivers keep the invariant *)

Lemma required_ready_asks branch held c : only_asks (native_required_ready branch held c).
Proof.
  unfold native_required_ready. destruct (negb _); [done |]. apply only_asks_try; [done |]. intros policy. cbv zeta.
  destruct (_ || _); [done |]. apply only_asks_try.
  - generalize (match head (mp_selected (ld_plan c)) with Some entry => en_pr entry | None => 0%N end). intros root.
    induction (mp_selected (ld_plan c)) as [| entry entries IH]; [done |]. cbn [entries_ready].
    apply only_asks_try; [done |]. intros current. destruct (_ || _); [done |].
    apply only_asks_try; [done |]. intros status. apply only_asks_bind; [done |]. intros _. by destruct (qualifies status).
  - intros ready. destruct (negb ready); [done |]. by apply only_asks_try.
Qed.
Lemma audit_asks c entries : only_asks (audit_all c entries).
Proof. induction entries as [| entry entries IH]; cbn [audit_all]; [done |]. by apply only_asks_try. Qed.

(** A loop holds a saved checkpoint; one it marked itself was not submitted. *)
Definition holds_saved (key : string) (state : GitHubStackLandCheckpoint * bool) (w : LandWorld) : Prop :=
  once used w ∧ saved_at (lw_disk w) key state.1 ∧ (state.2 = true → 2 ≤ phase_index (ld_phase state.1))
  ∧ (state.2 = true → ld_phase state.1 = LandSubmitting → op_of state.1 ∉ submitted (lw_log w)).

Lemma saved_may_save key c next w :
  once used w → cursor key → saved_at (lw_disk w) key c → onward c next → may_save key next w.
Proof.
  intros [Hnd Hus Hsv Hap] Hk Hc [Hop Hphase] _. destruct (Hsv key c Hk Hc) as [Hused Hold]. rewrite Hop. split_and!; [done | |].
  - intros Hin. specialize (Hold Hin). lia.
  - intros key' c' Hk' Hc' Heq. by apply (Hap key' key c' c).
Qed.

(** A step continued with the files as they were. *)
Definition moved (c : GitHubStackLandCheckpoint) (d : gmap Path (list N)) (r : result LandMove LandFault) (w : LandWorld) : Prop :=
  once used w ∧ lw_disk w = d
  ∧ match r with
    | Ok (MoveTo next marked) =>
        onward c next ∧ (marked = true → 2 ≤ phase_index (ld_phase next)) ∧ (marked = true → ld_phase next = LandSubmitting → op_of next ∉ submitted (lw_log w))
    | _ => True
    end.

Lemma continue_moved (p : Prog StackOp LandResult) c marked w :
  once used w → may_submit None p → ok_returns (onward c) p →
  (marked = true → ld_phase c = LandSubmitting → op_of c ∉ submitted (lw_log w)) → marked = false ∨ ld_phase c ≠ LandSubmitting →
  (marked = true → 2 ≤ phase_index (ld_phase c)) →
  keeps (let? next := stepped p in Ret (Ok (MoveTo next marked))) (moved c (lw_disk w)) w.
Proof.
  intros Hw Hp HP Hfresh Hnot Hlow. apply holds_try, holds_map_err. eapply holds_step; [done | done | exact HP |].
  intros [next | e] w' Hw' Hd Hsub Hnext; [| by split_and!]. destruct (Hnext next eq_refl) as [Hop Hphase].
  split_and!; [done | done | done | |]; intros ->; [specialize (Hlow eq_refl); lia |]. intros Hsubmitting.
  destruct Hnot as [| Hnot]; [done |]. specialize (Hlow eq_refl). rewrite Hsubmitting in Hphase. destruct (ld_phase c); cbn in *; try done; lia.
Qed.

Lemma move_keeps t caravan key c marked w :
  holds_saved key (c, marked) w → cursor key →
  keeps (move t caravan marked c) (moved c (lw_disk w)) w.
Proof.
  intros (Hw & Hc & Hmarked & Hfresh) Hk. cbn [fst snd] in Hc, Hmarked, Hfresh. unfold move. cbv zeta.
  assert (∀ r, match r with Ok (MoveTo _ _) => False | _ => True end → moved c (lw_disk w) r w) as Hstop
    by (intros [[] |]; done).
  assert (keeps (hold_back caravan c) (moved c (lw_disk w)) w) as Hhold
    by (apply holds_bind, holds_asks; [done | done |]; intros _; apply holds_bind, holds_asks; [done | done |]; intros _; by apply Hstop).
  destruct (ld_phase c) eqn:Hphase.
  - apply holds_try, holds_asks; [apply required_ready_asks | done |]. intros [ready | e]; [| by apply Hstop].
    destruct (negb ready); [done |]. apply continue_moved; rewrite ?Hphase; try done; [apply land_lock_no_submit | apply land_lock_onward | by right].
  - apply holds_try, holds_asks; [apply audit_asks | done |]. intros [[] | e]; [| by apply Hstop].
    apply holds_try, holds_asks; [apply required_ready_asks | done |]. intros [ready | e]; [| by apply Hstop].
    destruct (negb ready); [done |]. destruct (native_stack_land_mark_submitting (lt_repository t) c) as [next | e] eqn:Hmark; [| by apply Hstop].
    apply mark_onward in Hmark as [Hon Hge]. split_and!; [done | done | done | done |]. intros _ _. rewrite (proj1 Hon).
    intros Hin. destruct (on_saved _ _ Hw key c Hk Hc) as [_ Hold]. specialize (Hold Hin). rewrite Hphase in Hold. cbn in Hold. lia.
  - destruct marked.
    + apply holds_try, holds_map_err. eapply holds_stack; [apply land_submit_once | apply land_submit_onward |].
      intros log Hlog. assert (once used (set_log log w)) as Hw'.
      { destruct Hlog as [Heq | (i & [= <-] & Heq)]; [by apply once_log |].
        eapply once_submit; [done | exact Hk | done | rewrite Hphase; cbn; lia | by apply Hfresh | done]. }
      split; [done |]. intros [next | e] Hnext; [| by split_and!]. destruct (Hnext next eq_refl) as [Hon Hge].
      split_and!; [done | done | done | lia |]. intros _ Hs. rewrite Hs in Hge. cbn in Hge. lia.
    + destruct (native_stack_land_abandon_uncertain_submission (lt_repository t) c) as [next | e] eqn:Habandon; [| by apply Hstop].
      apply abandon_onward in Habandon. by split_and!.
  - apply continue_moved; rewrite ?Hphase; try done; [apply land_poll_no_submit | apply land_poll_onward | by right].
  - apply continue_moved; rewrite ?Hphase; try done; [apply land_release_no_submit | apply land_release_onward | by right].
  - by apply Hstop.
Qed.

Lemma round_keeps t caravan n state w :
  holds_saved (land_key n) state w → cursor (land_key n) →
  keeps (land_round pid t caravan n state)
    (λ r w', match r with inl state => holds_saved (land_key n) state w' ∧ once used w' | inr _ => once used w' end) w.
Proof.
  destruct state as [c marked]. intros Hs Hk. pose proof Hs as (Hw & Hc & _). unfold land_round.
  apply holds_bind. eapply holds_mono; [| by eapply move_keeps].
  intros [[next marked' | |] | e] w1 (Hw1 & Hd & Hmove); [| exact Hw1 | exact Hw1 | exact Hw1]. destruct Hmove as (Hon & Hlow & Hfresh).
  cbn [fst] in Hc. rewrite <- Hd in Hc. apply holds_bind, holds_save; [done | by eapply saved_may_save | done |].
  intros w2 Hw2 Hlog _ Hsaved. cbv iota beta. destruct (bool_decide _); [exact Hw2 |].
  apply holds_bind, holds_asks; [by destruct (mem _ _) | done |]. intros [].
  split; [| done]. split_and!; [done | by apply Hsaved | done | by rewrite Hlog].
Qed.

Lemma land_from_keeps t caravan n c w :
  once used w → saved_at (lw_disk w) (land_key n) c → cursor (land_key n) → keeps (land_from pid t caravan n c) (λ _, once used) w.
Proof.
  intros Hw Hc Hk. unfold land_from. apply holds_try, holds_asks; [done | done |]. intros [[] | e]; [| done].
  apply holds_bind. eapply holds_mono; [| eapply (holds_repeat exec_land (once used) _ (holds_saved (land_key n)) (λ _, once used))].
  - assert (∀ c w, once used w → keeps (finish_landing n c) (λ _, once used) w) as Hfinish.
    { intros c' w' Hw'. apply holds_asks; [| done | done]. apply only_asks_bind; [done |]. intros _.
      destruct (negb _); [done |]. destruct (ld_terminal_status c') as [[] |]; try done. apply only_asks_bind; [| done].
      induction (mp_selected (ld_plan c')) as [| entry entries IH]; [done |]. by apply only_asks_bind. }
    cbn. intros [[c' marked] | [[c' |] | e]] w' Hw'; [by apply Hfinish, Hw' | by apply Hfinish | done | done].
  - by split_and!.
  - intros state w' Hs. eapply holds_mono; [| by apply round_keeps]. cbn. intros [state' | r] w'' Hr; [| done]. split; by apply Hr.
Qed.

Lemma holds_load_land key (Q : result (option GitHubStackLandCheckpoint) LandFault → LandWorld → Prop) w :
  once used w → (∀ e, Q (Err e) w) → (valid_key key = true → lw_disk w !! file_of common_dir key = None → Q (Ok None) w) →
  (∀ c, valid_key key = true → saved_at (lw_disk w) key c → Q (Ok (Some c)) w) →
  keeps (from_store (load key)) Q w.
Proof.
  intros Hw He Hn Hs. apply holds_file, holds_load; rewrite ?set_disk_id; [done | done | done |].
  intros bytes c Hv Hb Hc. apply Hs; [done | by exists bytes].
Qed.

(** A new operation: nothing is saved or submitted under its id. *)
Definition unknown_id (id : string) (w : LandWorld) : Prop :=
  id ∉ submitted (lw_log w) ∧ ∀ key c, cursor key → saved_at (lw_disk w) key c → op_of c ≠ id.

Lemma begin_keeps t caravan n w :
  once used w → unknown_id (land_operation_id t n) w → land_operation_id t n ∈ used → cursor (land_key n) →
  keeps (begin_landing pid t caravan n)
    (λ r w', once used w' ∧ match r with Ok (Some c) => saved_at (lw_disk w') (land_key n) c | _ => True end) w.
Proof.
  intros Hw [Hfresh Hunknown] Hused Hk. unfold begin_landing.
  assert (∀ note w', once used w' → keeps (run! report note in Ret (Ok None))
    (λ (r : result (option GitHubStackLandCheckpoint) LandFault) w', once used w' ∧ match r with Ok (Some c) => saved_at (lw_disk w') (land_key n) c | _ => True end) w') as Hwait
    by (intros note w' Hw'; apply holds_bind, holds_asks; [done | done |]; intros _; by split).
  destruct (negb _); [by apply Hwait |].
  apply holds_try, holds_map_err. eapply holds_step; [done | done | apply returns_any |].
  intros [[stack |] | e] w1 Hw1 Hd Hsub _; [| by split..].
  destruct (plan_github_stack_ready_prefix _ _) as [prefix | e]; [| by split].
  destruct (length (rp_selected prefix) =? 0); [destruct (rp_first_blocked prefix); [by apply Hwait | by split] |].
  destruct (native_prefix_waits_for_provider_regeneration _ _); [by apply Hwait |].
  unfold direct_squash_plan. destruct (0 =? _); [by split |]. cbv iota beta.
  set (c := native_stack_land_begin _ _). assert (op_of c = land_operation_id t n) as Hop by done.
  apply holds_try, holds_save; [done | | by split |].
  - intros _. rewrite Hop, Hsub. split_and!; [done | done |]. intros key' c' Hk' Hc' Heq.
    rewrite Hd in Hc'. by destruct (Hunknown key' c' Hk' Hc').
  - intros w2 Hw2 _ _ Hc. split; [done | by apply Hc].
Qed.

Lemma drain_keeps t caravan n w :
  once used w → unknown_id (land_operation_id t n) w → land_operation_id t n ∈ used →
  keeps (drain_native_stack pid t caravan n) (λ _, once used) w.
Proof.
  intros Hw Hunknown Hused. unfold drain_native_stack. apply holds_try, holds_load_land; [done | done | |].
  - intros Hv _. apply holds_try. eapply holds_mono; [| apply begin_keeps; [done | done | done | by apply land_key_cursor]].
    intros [[c |] | e] w' [Hw' Hc]; [| done | done]. apply land_from_keeps; [done | done | by apply land_key_cursor].
  - intros c Hv Hc. destruct (_ || _); [done |]. apply land_from_keeps; [done | done | by apply land_key_cursor].
Qed.

(** *** The pass over the saved checkpoints *)

Lemma finalize_keeps repository key c w :
  once used w ∧ saved_at (lw_disk w) key c → cursor key →
  keeps (finalize_round pid repository key c)
    (λ r w', once used w' ∧ match r with inl c | inr (Ok c) => saved_at (lw_disk w') key c | inr (Err _) => True end) w.
Proof.
  intros [Hw Hc] Hk. unfold finalize_round. apply holds_bind.
  apply (holds_mono _ _ _ (λ r w', once used w' ∧ lw_disk w' = lw_disk w
    ∧ match r with Ok (Some next) => onward c next | _ => True end)).
  - intros [[next |] | e] w1 (Hw1 & Hd & Hon); [| split; [done | by rewrite Hd] | by split].
    rewrite <- Hd in Hc. apply holds_bind, holds_save; [done | by eapply saved_may_save | by split |].
    intros w2 Hw2 _ _ Hsaved. specialize (Hsaved Hk). by destruct (_ || _).
  - assert (∀ p, may_submit None p → ok_returns (onward c) p →
      keeps (let? next := stepped p in Ret (Ok (Some next))) (λ r w', once used w' ∧ lw_disk w' = lw_disk w
        ∧ match r with Ok (Some next) => onward c next | _ => True end) w) as Hstep.
    { intros p Hp HP. apply holds_try, holds_map_err. eapply holds_step; [done | done | exact HP |].
      intros [next | e] w' Hw' Hd _ Hnext; split_and!; try done. by apply Hnext. }
    destruct (ld_phase c); try by split_and!.
    + destruct (native_stack_land_abandon_uncertain_submission repository c) as [next | e] eqn:Habandon; [| by split_and!].
      apply abandon_onward in Habandon. by split_and!.
    + apply Hstep; [apply land_poll_no_submit | apply land_poll_onward].
    + apply Hstep; [apply land_release_no_submit | apply land_release_onward].
Qed.

Lemma settle_keeps status key c w :
  once used w → saved_at (lw_disk w) key c → cursor key → keeps (settle_released pid status key c) (λ _, once used) w.
Proof.
  intros Hw Hc Hk. unfold settle_released. apply holds_try.
  apply (holds_mono _ _ _ (λ r w', once used w' ∧ match r with Ok (c, _) => saved_at (lw_disk w') key c | Err _ => True end)).
  - intros [[c1 changed] | e] w1 [Hw1 Hc1]; [| done]. destruct (native_stack_landing_converged status c1).
    + apply holds_try, holds_save; [done | by intros [_ Hprefix] | done |]. intros w2 Hw2 _ _ _.
      apply holds_try, holds_file, holds_remove; rewrite ?set_disk_id; [done | by intros [[] | e]; cbn |].
      intros d Hv Hs. assert (once used (set_disk d w2)) by (eapply once_aside; [done | done | by right]). done.
    + apply holds_try, holds_save; [done | | done |].
      * eapply saved_may_save; [done | done | exact Hc1 | done].
      * done.
  - destruct (bool_decide _); [| by split]. apply holds_try, holds_map_err. eapply holds_step; [done | apply land_reobserve_no_submit | apply land_reobserve_onward |].
    intros [observed | e] w1 Hw1 Hd _ Hon; [| by split]. specialize (Hon observed eq_refl). rewrite <- Hd in Hc.
    destruct (negb _); [| by split]. apply holds_try, holds_save; [done | by eapply saved_may_save | by split |].
    intros w2 Hw2 _ _ Hsaved. split; [done | by apply Hsaved].
Qed.

Lemma reconcile_key_keeps status key w :
  once used w → starts_with "land-" key = true → keeps (reconcile_key pid status key) (λ _, once used) w.
Proof.
  intros Hw Hprefix. unfold reconcile_key. apply holds_try, holds_load_land; [done | done | done |].
  intros c Hv Hc. destruct (_ || _); [done |]. assert (cursor key) as Hk by done.
  apply holds_try, holds_save; [done | by eapply saved_may_save | done |]. intros w1 Hw1 _ _ Hsaved. specialize (Hsaved Hk).
  apply holds_bind. eapply holds_mono; [| eapply (holds_repeat exec_land (once used) _ (λ c w, once used w ∧ saved_at (lw_disk w) key c)
    (λ r w, once used w ∧ match r with inl c | inr (Ok c) => saved_at (lw_disk w) key c | inr (Err _) => True end))].
  - intros [c' | [c' | e]] w2 Hs2; [destruct Hs2 as [_ [Hw2 Hc2]] | destruct Hs2 as [Hw2 Hc2] | exact (proj1 Hs2)];
      (destruct (bool_decide (ld_phase c' = LandReleased)); [by apply settle_keeps | done]).
  - by split.
  - intros c' w2 Hs. eapply holds_mono; [| by apply finalize_keeps]. cbn. intros [c'' | [c'' | e]] w3 [Hw3 Hc3]; by split_and!.
Qed.

(** The listed keys are cursors: no suffix reaches into the prefix. *)
Lemma trim_end_land fuel key : starts_with "land-" key = true → starts_with "land-" (trim_end_str fuel ".json" key) = true.
Proof.
  revert key. induction fuel as [| fuel IH]; intros key; cbn [trim_end_str]; [done |].
  destruct (strip_suffix ".json" key) as [rest |] eqn:Hsuffix; [| done]. intros Hprefix. apply IH.
  apply strip_suffix_spec in Hsuffix as ->. revert Hprefix. unfold starts_with.
  do 5 (destruct rest as [| a rest]; [done |]; change (String a rest +:+ ".json") with (String a (rest +:+ ".json"));
        cbn [String.prefix]; destruct (ascii_dec _ a) as [_ |]; [clear a | done]).
  by destruct rest.
Qed.

Lemma list_keys_spec (Q : result (list string) LandFault → LandWorld → Prop) w :
  once used w → (∀ e, Q (Err e) w) → (∀ keys, (∀ key, key ∈ keys → starts_with "land-" key = true) → Q (Ok keys) w) →
  keeps (list_keys "land-") Q w.
Proof.
  intros Hw He Ho. unfold list_keys. intros c. cbn [perform pbind exec_land].
  destruct (exec_file common_dir GitAnswer (lch_file c) FsCommonDir (lw_disk w)) as [answer d] eqn:Hfile.
  assert (set_disk d w = w) as -> by (injection Hfile as _ <-; apply set_disk_id). split; [done |].
  destruct answer as [dir | |]; [| apply He | apply He]. intros c'. split; [done |]. cbn.
  destruct (lch_names c') as [[names | []] |]; [| apply He | apply Ho; by intros key ?%elem_of_nil].
  apply Ho. intros key Hin. apply elem_of_sort_by_key, list_elem_of_fmap in Hin as (name & -> & Hname).
  apply elem_of_list_filter_b in Hname as [_ [Hp _]%andb_prop]. by apply trim_end_land.
Qed.

Lemma reconcile_keys_keeps status changed keys w :
  once used w → (∀ key, key ∈ keys → starts_with "land-" key = true) → keeps (reconcile_keys pid status changed keys) (λ _, once used) w.
Proof.
  revert changed w. induction keys as [| key keys IH]; intros changed w Hw Hkeys; cbn [reconcile_keys]; [done |].
  apply holds_try. eapply holds_mono; [| apply reconcile_key_keeps; [done | apply Hkeys, list_elem_of_here]].
  intros [here | e] w' Hw'; [| done]. apply IH; [done |]. intros key' Hin. apply Hkeys. by apply elem_of_cons; right.
Qed.
Lemma live_locks_keeps keys w : once used w → keeps (live_locks keys) (λ _, once used) w.
Proof.
  revert w. induction keys as [| key keys IH]; intros w Hw; cbn [live_locks]; [done |].
  assert (∀ saved, keeps (let? rest := live_locks keys in
    Ret (Ok (match c ← saved; outstanding_lock c with Some lock => {[ lk_name lock ]} ∪ rest | None => rest end))) (λ _, once used) w) as Hrest.
  { intros saved. apply holds_try. eapply holds_mono; [| by apply IH]. by intros []. }
  apply holds_try, holds_load_land; [done | done | intros _ _; apply (Hrest None) | intros c _ _; apply (Hrest (Some c))].
Qed.
Lemma no_submit_keeps {A E} (p : Prog StackOp (result A E)) f (k : A → LandProg bool) w :
  once used w → may_submit None p → (∀ a w', once used w' → keeps (k a) (λ _, once used) w') →
  keeps (ebind (on_stack p f) k) (λ _, once used) w.
Proof.
  intros Hw Hp Hk. apply holds_try, holds_map_err. eapply holds_step; [done | done | apply returns_any |].
  intros [a | e] w' Hw' _ _ _; [by apply Hk | done].
Qed.
Lemma delete_lock_no_submit repository lock : may_submit None (delete_stack_branch_lock repository lock).
Proof. intros answer. by destruct answer. Qed.
Lemma list_locks_no_submit repository : may_submit None (list_active_stack_branch_locks repository).
Proof.
  apply reads_submit, reads_only_try; [apply reads_only_map_err, json_reads, list_rulesets_reads |]. intros summaries.
  induction summaries as [| summary summaries IH]; cbn [read_active_locks]; [done |].
  destruct (starts_with _ _); [| done]. apply reads_only_try; [apply read_lock_reads |]. intros lock. by apply reads_only_try.
Qed.
Lemma delete_orphans_keeps repository live changed locks w : once used w → keeps (delete_orphans repository live changed locks) (λ _, once used) w.
Proof.
  revert changed w. induction locks as [| lock locks IH]; intros changed w Hw; cbn [delete_orphans]; [done |].
  destruct (bool_decide _); [by apply IH |]. apply no_submit_keeps; [done | apply delete_lock_no_submit |]. intros _ w' Hw'. by apply IH.
Qed.

Lemma reconcile_keeps status w : once used w → keeps (reconcile_pending_native_stack_landing_checkpoints pid status) (λ _, once used) w.
Proof.
  intros Hw. unfold reconcile_pending_native_stack_landing_checkpoints. destruct (negb _); [done |].
  apply holds_try, list_keys_spec; [done | done |]. intros keys Hkeys. apply holds_try.
  eapply holds_mono; [| by apply reconcile_keys_keeps]. intros [changed | e] w1 Hw1; [| done].
  destruct (negb _); [done |]. apply no_submit_keeps; [done | apply list_locks_no_submit |]. intros locks w2 Hw2.
  apply holds_try, list_keys_spec; [done | done |]. intros keys' _. apply holds_try.
  eapply holds_mono; [| by apply live_locks_keeps]. intros [live | e] w3 Hw3; [| done]. by apply delete_orphans_keeps.
Qed.
End rules.

Lemma run_land_once `{!CodecLaws GitHubStackLandCheckpoint} calls used w :
  once used w → NoDup (omap call_operation calls) → (∀ id, id ∈ omap call_operation calls → id ∉ used) →
  ∃ used', once used' (run_land calls w).
Proof.
  revert used w. induction calls as [| call calls IH]; intros used w Hw Hdup Hnew; [by exists used |].
  change (run_land (call :: calls) w) with (run_land calls (run_call call w)).
  destruct call as [pid t caravan n choices | pid status choices]; cbn [run_call].
  - change (omap call_operation (CallDrain pid t caravan n choices :: calls)) with (land_operation_id t n :: omap call_operation calls) in Hdup, Hnew.
    apply NoDup_cons in Hdup as [Hout Hdup].
    assert (land_operation_id t n ∉ used) as Hid by (apply Hnew, list_elem_of_here).
    assert (once (land_operation_id t n :: used) w) as Hw' by (apply (once_used used); [done | by intros x; rewrite elem_of_cons; right]).
    apply (IH (land_operation_id t n :: used)); [| done | intros id' Hin].
    + apply (drive_holds exec_land (once (land_operation_id t n :: used)) _ (λ _, once (land_operation_id t n :: used)) choices w); [done |].
      apply drain_keeps; [done | | apply list_elem_of_here]. split; [by intros Hin%(on_used _ _ Hw) |].
      intros key c Hk Hc Heq. apply Hid. rewrite <- Heq. by eapply (on_saved _ _ Hw).
    + intros [-> | Hin']%elem_of_cons; [done |]. apply (Hnew id'); [by apply elem_of_cons; right | done].
  - apply (IH used); [| done | done].
    by apply (drive_holds exec_land (once used) _ (λ _, once used) choices w), reconcile_keeps.
Qed.

(** C16. A native Stack merge is submitted at most once: over any number of ticks,
    each begun under its own operation, driving any Stacks or finalizing any
    saved checkpoints, and each killed or failing at any operation, no operation
    submits twice. *)
Theorem native_merge_submitted_at_most_once `{!CodecLaws GitHubStackLandCheckpoint} calls disk
    (Hfresh : ∀ key, cursor key → disk !! file_of common_dir key = None) (Hdup : NoDup (omap call_operation calls)) :
  NoDup (submitted (lw_log (run_land calls (mkLandWorld disk [])))).
Proof.
  destruct (run_land_once calls [] (mkLandWorld disk [])) as [used Hw]; [| done | by intros id _ ?%elem_of_nil | apply Hw].
  split; cbn; [constructor | by intros id ?%elem_of_nil | |].
  - intros key c Hk (bytes & Hb & _). by rewrite Hfresh in Hb.
  - intros key key' c c' Hk _ (bytes & Hb & _). by rewrite Hfresh in Hb.
Qed.
End machine.
