(* ===== verification/StackLandValid.v ===== *)
(** The checkpoint of a landing stays valid: every step leads from a valid
    checkpoint to a valid one, and a valid checkpoint can always go on. *)

From Stdlib Require Import Ascii String.
From S2P Require Import Prelude Text TextProofs Model RequiredRuns Generation Budget Files Programs Store Checkpoints Command StackLock StackLockProofs StackMerge StackMergeProofs StackPolicy StackLand StackLandProofs.

#[local] Open Scope string_scope.
#[local] Open Scope list_scope.
#[local] Open Scope nat_scope.
#[local] Open Scope prog_scope.

Section valid.
Context `{!LockHost, !MergeHost, !LandHost}.

(** ** Receipts *)

Definition in_flight (status : GitHubStackMergeStatus) : Prop :=
  status = MergeSubmitted ∨ status = MergePending ∨ status = MergeEnqueued.

(** The receipt belongs to the plan, and what it saves can be polled. *)
Record good_merge (repository : RepositoryId) (plan : GitHubStackAsyncMergePlan) (r : GitHubStackMergeReceipt) : Prop := {
  gm_repository : mr_repository r = repository;
  gm_plan : mr_plan r = plan;
  gm_checkpoint : ∀ m, mr_checkpoint r = Some m → validate_checkpoint repository m = Ok () ∧ mk_plan m = plan;
  gm_in_flight : in_flight (mr_status r) → is_Some (mr_checkpoint r) }.
Record good_locked (repository : RepositoryId) (plan : GitHubStackAsyncMergePlan) (r : GitHubStackLockedMergeReceipt) : Prop := {
  gl_verify : locked_receipt_verify r = true;
  gl_merge : good_merge repository plan (lm_merge r);
  gl_checkpoint : ∀ m, lm_checkpoint r = Some m → validate_locked_checkpoint repository m = Ok () ∧ mk_plan (lc_merge m) = plan;
  gl_in_flight : in_flight (mr_status (lm_merge r)) → is_Some (lm_checkpoint r) }.

Lemma sealed_merge_verifies c : checkpoint_verify (checkpoint_seal c) = true.
Proof. unfold checkpoint_verify, checkpoint_seal. apply String.eqb_refl. Qed.
Lemma sealed_locked_verifies c : locked_checkpoint_verify (locked_checkpoint_seal c) = true.
Proof. unfold locked_checkpoint_verify, locked_checkpoint_seal. apply String.eqb_refl. Qed.
Lemma sealed_receipt_verifies r : locked_receipt_verify (locked_receipt_seal r) = true.
Proof. unfold locked_receipt_verify, locked_receipt_seal. apply String.eqb_refl. Qed.

Lemma locked_receipt_good repository plan merge lock verified :
  good_merge repository plan merge → validate_merge_lock plan lock = Ok () ∨ mr_checkpoint merge = None →
  good_locked repository plan (locked_merge_receipt repository merge lock verified).
Proof.
  intros [Hr Hp Hc Hf] Hlock. split; [apply sealed_receipt_verifies | by split | |]; cbn.
  - destruct (mr_checkpoint merge) as [m |] eqn:Hm; [| done]. destruct Hlock as [Hlock |]; [| done].
    destruct (Hc m eq_refl) as [Hvalid Hplan]. intros ? [= <-]. split; [| done].
    unfold validate_locked_checkpoint. rewrite sealed_locked_verifies. cbn.
    rewrite bool_decide_true by done. cbn. by rewrite Hvalid, Hplan.
  - intros [m ->]%Hf. by eexists.
Qed.

(** A saved submission can be polled. *)
Lemma submission_checkpoint_valid repository plan id parsed m :
  validate_merge_plan repository plan = Ok () →
  stack_merge_checkpoint repository plan (set_request_id id (merge_request_identity repository plan)) parsed = Some m →
  validate_checkpoint repository m = Ok () ∧ mk_plan m = plan.
Proof.
  intros Hplan. unfold stack_merge_checkpoint. destruct (ar_uuid parsed) as [uuid |]; [| done]. cbn.
  destruct (valid_async_uuid uuid) eqn:Huuid; [| done]. intros [= <-]. split; [| done].
  unfold validate_checkpoint. rewrite sealed_merge_verifies. cbn. rewrite bool_decide_true, Huuid, Hplan by done. cbn.
  rewrite !String.eqb_refl, N.eqb_refl, !bool_decide_true by done. done.
Qed.

(** What an input says of itself. *)
Definition good_input (repository : RepositoryId) (plan : GitHubStackAsyncMergePlan) (i : StackMergeReceiptInput) : Prop :=
  ri_repository i = repository ∧ ri_plan i = plan
  ∧ ∀ m, ri_checkpoint i = Some m → validate_checkpoint repository m = Ok () ∧ mk_plan m = plan.

Lemma receipt_good repository plan i :
  good_input repository plan i → (in_flight (ri_status i) → is_Some (ri_checkpoint i)) →
  good_merge repository plan (stack_merge_receipt i).
Proof. intros (Hr & Hp & Hc) Hf. by split. Qed.
Lemma terminal_good repository plan i :
  good_input repository plan i → returns (good_merge repository plan) (terminal_stack_merge_receipt i).
Proof.
  intros Hi. eapply returns_bind; [apply returns_any |]. intros observed _. apply receipt_good.
  - destruct observed; by destruct Hi as (? & ? & ?).
  - destruct observed as [o |]; cbn; [| by intros [| []]]. intros Hf. exfalso. revert Hf.
    destruct (_ && _); [by intros [| []] |]. destruct (bool_decide _); [by intros [| []] |]. destruct (is_some_and _ _); by intros [| []].
Qed.
Lemma terminal_ok_good repository plan i :
  good_input repository plan i →
  ok_returns (good_merge repository plan) (pbind (terminal_stack_merge_receipt i) (λ r, Ret (@Ok _ GitHubStackMergeError r))).
Proof. intros Hi. eapply returns_bind; [by apply terminal_good |]. by intros r Hr ? [= <-]. Qed.

Lemma submit_unlocked_good repository plan : ok_returns (good_merge repository plan) (native_stack_merge_submit_unlocked repository plan).
Proof.
  unfold native_stack_merge_submit_unlocked. destruct (validate_merge_plan repository plan) as [[] |] eqn:Hplan; [| by intros ? [=]].
  eapply ok_returns_try; [apply ok_returns_any |]. intros actual _. destruct (negb _); [by intros ? [=] |].
  eapply returns_bind; [apply returns_any |]. intros response _. unfold submission_outcome. cbv zeta.
  set (checkpoint := stack_merge_checkpoint _ _ _ _).
  assert (∀ status code message sha o, good_input repository plan
    (mkReceiptInput repository plan (set_request_id (response_id response) (merge_request_identity repository plan)) checkpoint
       status code message sha o)) as Hinput.
  { intros. split; [done |]. split; [done |]. intros m Hm. by eapply submission_checkpoint_valid. }
  assert (∀ i observed, good_input repository plan i → good_merge repository plan (resolved_by_truth i observed)) as Hresolved.
  { intros i observed Hi. unfold resolved_by_truth. destruct observed as [o |]; cbn; apply receipt_good; try (by destruct Hi as (? & ? & ?)); cbn.
    - destruct (bool_decide _); by intros [| []].
    - by intros [| []]. }
  assert (is_some_b checkpoint = true → is_Some checkpoint) as Hsome by (by destruct checkpoint).
  destruct (normalized_provider_status _) as [[] |]; try (by apply terminal_ok_good).
  all: repeat match goal with |- returns _ (if ?b && ?c then _ else _) =>
    destruct (b && c) eqn:?; [intros ? [= <-]; apply receipt_good; [apply Hinput | intros _; bool_prop; apply Hsome; done] |] end.
  all: eapply returns_bind; [apply returns_any |]; intros observed _ ? [= <-]; apply Hresolved, Hinput.
Qed.

Lemma poll_unlocked_good repository c :
  ok_returns (good_merge repository (mk_plan c)) (native_stack_merge_poll_unlocked repository c).
Proof.
  unfold native_stack_merge_poll_unlocked. destruct (validate_checkpoint repository c) as [[] |] eqn:Hvalid; [| by intros ? [=]].
  cbv zeta. eapply returns_bind; [apply returns_any |]. intros response _.
  assert (∀ request status code message sha o, good_input repository (mk_plan c)
    (mkReceiptInput repository (mk_plan c) request (Some c) status code message sha o)) as Hinput
    by (intros; split; [done |]; split; [done |]; by intros m [= <-]).
  destruct (negb (response_ok response)); [by apply terminal_ok_good |].
  destruct (normalized_provider_status _) as [[] |]; try (by apply terminal_ok_good);
    (intros ? [= <-]; apply receipt_good; [apply Hinput | by eexists]).
Qed.

Lemma verify_returns repository lock : ok_returns (λ lock', lock' = lock) (native_stack_branch_lock_verify repository lock).
Proof.
  eapply ok_returns_try; [apply ok_returns_any |]. intros actual _ lock'.
  destruct (set_pull_requests _ <$> actual) as [l |]; [| done]. cbn. destruct (bool_decide_reflect (l = lock)); [| done]. congruence.
Qed.
Lemma submit_locked_good repository plan lock :
  ok_returns (good_locked repository plan) (native_stack_merge_submit_locked repository plan lock).
Proof.
  unfold native_stack_merge_submit_locked. destruct (validate_merge_lock plan lock) as [[] |] eqn:Hlock; [| by intros ? [=]].
  eapply ok_returns_try; [apply ok_leaves_map_err, verify_returns |]. intros lock' ->.
  eapply ok_returns_try; [apply submit_unlocked_good |]. intros merge Hm ? [= <-]. apply locked_receipt_good; auto.
Qed.

Lemma locked_checkpoint_facts repository m :
  validate_locked_checkpoint repository m = Ok () →
  validate_checkpoint repository (lc_merge m) = Ok () ∧ validate_merge_lock (mk_plan (lc_merge m)) (lc_branch_lock m) = Ok ().
Proof.
  unfold validate_locked_checkpoint. destruct (_ || _); [done |]. by destruct (validate_checkpoint repository (lc_merge m)) as [[] |].
Qed.
(** A valid saved submission is polled to a receipt, whatever is answered. *)
Lemma poll_unlocked_total repository c :
  validate_checkpoint repository c = Ok () → returns (λ r, ∃ merge, r = Ok merge) (native_stack_merge_poll_unlocked repository c).
Proof.
  intros Hvalid. unfold native_stack_merge_poll_unlocked. rewrite Hvalid. cbv zeta.
  eapply returns_bind; [apply returns_any |]. intros response _.
  assert (∀ i, returns (λ r, ∃ merge, r = Ok merge) (pbind (terminal_stack_merge_receipt i) (λ r, Ret (@Ok _ GitHubStackMergeError r)))) as Hterminal
    by (intros i; eapply returns_bind; [apply returns_any |]; intros r _; by exists r).
  destruct (negb (response_ok response)); [apply Hterminal |].
  destruct (normalized_provider_status _) as [[] |]; (apply Hterminal || by eexists).
Qed.
Lemma returns_and {A} (P Q : A → Prop) (p : Prog StackOp A) : returns P p → returns Q p → returns (λ a, P a ∧ Q a) p.
Proof. induction p as [a | R op k IH]; cbn; auto. Qed.

Lemma poll_locked_good repository m :
  validate_locked_checkpoint repository m = Ok () →
  returns (λ r, ∃ receipt, r = Ok receipt ∧ good_locked repository (mk_plan (lc_merge m)) receipt) (native_stack_merge_poll_locked repository m).
Proof.
  intros Hvalid. unfold native_stack_merge_poll_locked. rewrite Hvalid. apply locked_checkpoint_facts in Hvalid as [Hmerge Hlock].
  eapply returns_bind; [apply returns_any |]. intros lock _.
  eapply returns_bind; [exact (returns_and _ _ _ (poll_unlocked_total _ _ Hmerge) (poll_unlocked_good _ _)) |].
  intros r [[merge ->] Hm]. specialize (Hm merge eq_refl). eexists. split; [done |]. apply locked_receipt_good; [| by left].
  destruct lock; [done |]. destruct Hm as [Hr Hp Hc Hf]. split; try done. by intros [| []].
Qed.
Lemma reobserve_released_good repository m :
  validate_locked_checkpoint repository m = Ok () →
  returns (λ r, ∃ receipt, r = Ok receipt ∧ good_locked repository (mk_plan (lc_merge m)) receipt) (native_stack_merge_reobserve_released repository m).
Proof.
  intros Hvalid. unfold native_stack_merge_reobserve_released. rewrite Hvalid. apply locked_checkpoint_facts in Hvalid as [Hmerge Hlock].
  eapply returns_bind; [exact (returns_and _ _ _ (poll_unlocked_total _ _ Hmerge) (poll_unlocked_good _ _)) |].
  intros r [[merge ->] Hm]. eexists. split; [done |]. apply locked_receipt_good; [by apply Hm | by left].
Qed.
Lemma reobserve_unidentified_good repository plan lock :
  returns (good_locked repository plan) (native_stack_merge_reobserve_unidentified repository plan lock).
Proof.
  set (i := mkReceiptInput repository plan (merge_request_identity repository plan) None MergeIndeterminate None
    (Some "submission response lost; read-only exact-generation reconciliation") None None).
  eapply (returns_bind (λ merge, good_merge repository plan merge ∧ mr_checkpoint merge = None)).
  - apply returns_and; [by apply terminal_good |]. eapply returns_bind; [apply returns_any |]. by intros [o | e] _.
  - intros merge [Hm Hnone]. apply locked_receipt_good; [done | by right].
Qed.

(** ** Checkpoints *)

(** A checkpoint that validates, whose saved submission is of its plan and can
    be polled. *)
Record sound (repository : RepositoryId) (c : GitHubStackLandCheckpoint) : Prop := {
  sd_repository : ld_repository c = repository;
  sd_verify : land_verify c = true;
  sd_merge : ∀ m, ld_merge c = Some m → validate_locked_checkpoint repository m = Ok () ∧ mk_plan (lc_merge m) = ld_plan c }.

(** What [verify] checks, but for the hash, which [seal] gives. *)
Record shaped (c : GitHubStackLandCheckpoint) : Prop := {
  sh_version : ld_schema_version c = LAND_SCHEMA_VERSION;
  sh_separate : ld_provider_atomic c = false;
  sh_phase : phase_shape c = true;
  sh_receipt : ∀ receipt, ld_terminal_receipt c = Some receipt → locked_receipt_verify receipt = true
      ∧ mr_repository (lm_merge receipt) = ld_repository c ∧ mr_plan (lm_merge receipt) = ld_plan c
      ∧ Some (mr_status (lm_merge receipt)) = ld_terminal_status c }.

Lemma verify_shaped c : land_verify c = true → shaped c.
Proof.
  unfold land_verify. intros Hv. bool_prop. split; try done.
  match goal with H : is_none_or _ _ = true |- _ => rename H into Hr end.
  intros receipt Hreceipt. rewrite Hreceipt in Hr. cbn in Hr. bool_prop. done.
Qed.
Lemma seal_verifies c : shaped c → land_verify (land_seal c) = true.
Proof.
  intros [Hversion Hatomic Hphase Hreceipt]. unfold land_verify. cbn. rewrite Hversion, Hatomic. cbn.
  assert (phase_shape (land_seal c) = true) as -> by done. rewrite String.eqb_refl, andb_true_r. cbn.
  destruct (ld_terminal_receipt c) as [receipt |]; [| done]. cbn.
  destruct (Hreceipt receipt eq_refl) as (-> & -> & -> & ->). by rewrite !bool_decide_true.
Qed.
Lemma seal_sound repository c :
  ld_repository c = repository → shaped c →
  (∀ m, ld_merge c = Some m → validate_locked_checkpoint repository m = Ok () ∧ mk_plan (lc_merge m) = ld_plan c) →
  sound repository (land_seal c).
Proof. intros Hr Hs Hm. split; [done | by apply seal_verifies | done]. Qed.

Lemma sound_validates repository c : sound repository c → land_validate repository c = Ok ().
Proof. intros [Hr Hv _]. unfold land_validate. by rewrite bool_decide_true, Hv. Qed.

(** What each phase carries. *)
Lemma shape_facts c :
  phase_shape c = true →
  match ld_phase c with
  | LandPlanned => ld_branch_lock c = None ∧ ld_merge c = None ∧ ld_terminal_status c = None ∧ ld_lock_release c = None
  | LandLocked | LandSubmitting =>
      is_Some (ld_branch_lock c) ∧ ld_merge c = None ∧ ld_terminal_status c = None ∧ ld_lock_release c = None
  | LandSubmitted => is_Some (ld_branch_lock c) ∧ is_Some (ld_merge c) ∧ ld_terminal_status c = None ∧ ld_lock_release c = None
  | LandTerminal => is_Some (ld_branch_lock c) ∧ is_Some (ld_terminal_status c) ∧ ld_lock_release c = None
  | LandReleased => is_Some (ld_branch_lock c) ∧ is_Some (ld_terminal_status c) ∧ is_Some (ld_lock_release c)
  end.
Proof.
  unfold phase_shape. destruct (ld_phase c), (ld_branch_lock c), (ld_merge c), (ld_terminal_status c), (ld_lock_release c); cbn;
    intros Hshape; try done; split_and!; done || by eexists.
Qed.
Lemma no_receipt c : shaped c → ld_terminal_status c = None → ld_terminal_receipt c = None.
Proof.
  intros Hs Hnone. destruct (ld_terminal_receipt c) as [receipt |] eqn:Hr; [| done].
  destruct (sh_receipt _ Hs receipt Hr) as (_ & _ & _ & Hstatus). congruence.
Qed.

(** The refusals of a step by its own checkpoint. *)
Definition refused (e : GitHubStackLandError) : bool :=
  match e with InvalidLandCheckpoint _ | OutOfOrder _ _ | LandMergeError (InvalidCheckpoint _) => true | _ => false end.
Definition proceeds (repository : RepositoryId) (p : Prog StackOp LandResult) : Prop :=
  returns (λ r, match r with Ok next => sound repository next | Err e => refused e = false end) p.

Lemma begin_sound repository plan : sound repository (native_stack_land_begin repository plan).
Proof. by apply seal_sound. Qed.

Lemma acquire_locks repository plan : ok_returns (λ receipt, is_Some (lr_lock receipt)) (native_stack_branch_lock_acquire repository plan).
Proof.
  unfold native_stack_branch_lock_acquire. destruct (expected_lock repository plan) as [expected |]; [| by intros ? [=]].
  eapply ok_returns_try; [apply ok_returns_any |]. intros [existing |] _.
  - destruct (same_lock_policy _ _); intros ? [= <-]. by eexists.
  - eapply returns_bind; [apply returns_any |]. intros response _. eapply returns_bind; [apply returns_any |].
    intros [[actual |] | e] _ receipt; try done. destruct (same_lock_policy _ _); [| done]. intros [= <-]. by eexists.
Qed.

Lemma returns_proceed {A E} (P : A → Prop) (p : Prog StackOp (result A E)) (f : E → GitHubStackLandError) :
  ok_returns P p → returns (λ r, ∀ e, r = Err e → refused (f e) = false) p →
  returns (λ r, match r with Ok a => P a | Err e => refused e = false end) (map_err p f).
Proof.
  intros Hp Hf. eapply returns_bind; [exact (returns_and _ _ _ Hp Hf) |].
  intros [a | e] [Ha He]; [by apply Ha | by apply He].
Qed.
Lemma lock_errors {A} (p : Prog StackOp (result A GitHubStackBranchLockError)) :
  returns (λ r, ∀ e, r = Err e → refused (LandLockError e) = false) p.
Proof. eapply returns_mono; [| apply returns_any]. done. Qed.
Lemma proceeds_try {A} repository (P : A → Prop) (p : Prog StackOp (result A GitHubStackLandError)) (f : A → Prog StackOp LandResult) :
  returns (λ r, match r with Ok a => P a | Err e => refused e = false end) p → (∀ a, P a → proceeds repository (f a)) →
  proceeds repository (ebind p f).
Proof. intros Hp Hf. eapply returns_bind; [exact Hp |]. intros [a | e] Ha; [by apply Hf | exact Ha]. Qed.

(** A valid checkpoint in this phase. *)
Ltac in_phase Hs Hp :=
  rewrite (sound_validates _ _ Hs), Hp; cbn [phase_ge phase_index Nat.leb];
  let Hr := fresh "Hr" in let Hv := fresh "Hv" in let Hm := fresh "Hm" in destruct Hs as [Hr Hv Hm];
  let Hshaped := fresh "Hshaped" in pose proof (verify_shaped _ Hv) as Hshaped;
  let Hf := fresh "Hf" in pose proof (shape_facts _ (sh_phase _ Hshaped)) as Hf; rewrite Hp in Hf.

Lemma lock_proceeds repository c : sound repository c → ld_phase c = LandPlanned → proceeds repository (native_stack_land_lock repository c).
Proof.
  intros Hs Hp. unfold native_stack_land_lock. in_phase Hs Hp. destruct Hf as (Hlock & Hmerge & Hstatus & Hrelease).
  eapply proceeds_try; [apply returns_proceed; [apply acquire_locks | apply lock_errors] |]. intros receipt [lock ->].
  apply seal_sound; [done | | cbn; by rewrite Hmerge].
  pose proof (no_receipt _ Hshaped Hstatus) as Hnone. destruct Hshaped as [Hversion Hatomic _ _].
  split; cbn; try done; [| by rewrite Hnone]. unfold phase_shape. cbn. by rewrite Hmerge, Hstatus, Hrelease.
Qed.

Lemma mark_proceeds repository c :
  sound repository c → ld_phase c = LandLocked → proceeds repository (Ret (native_stack_land_mark_submitting repository c)).
Proof.
  intros Hs Hp. unfold native_stack_land_mark_submitting. in_phase Hs Hp. destruct Hf as ([lock Hlock] & Hmerge & Hstatus & Hrelease).
  rewrite bool_decide_true by done. apply seal_sound; [done | | cbn; by rewrite Hmerge].
  pose proof (no_receipt _ Hshaped Hstatus) as Hnone. destruct Hshaped as [Hversion Hatomic _ _].
  split; cbn; try done; [| by rewrite Hnone]. unfold phase_shape. cbn. by rewrite Hlock, Hmerge, Hstatus, Hrelease.
Qed.

Lemma abandon_proceeds repository c :
  sound repository c → ld_phase c = LandSubmitting → proceeds repository (Ret (native_stack_land_abandon_uncertain_submission repository c)).
Proof.
  intros Hs Hp. unfold native_stack_land_abandon_uncertain_submission. in_phase Hs Hp. destruct Hf as ([lock Hlock] & Hmerge & Hstatus & Hrelease).
  rewrite bool_decide_true by done. apply seal_sound; [done | | cbn; by rewrite Hmerge].
  pose proof (no_receipt _ Hshaped Hstatus) as Hnone. destruct Hshaped as [Hversion Hatomic _ _].
  split; cbn; try done; [| by rewrite Hnone]. unfold phase_shape. cbn. by rewrite Hlock, Hrelease.
Qed.

Lemma advance_sound repository c receipt :
  ld_repository c = repository → shaped c → ld_terminal_status c = None → ld_lock_release c = None →
  good_locked repository (ld_plan c) receipt → sound repository (advance c receipt).
Proof.
  intros Hr Hshaped Hstatus Hrelease [Hverify Hmerge Hcheckpoint Hflight].
  pose proof (no_receipt _ Hshaped Hstatus) as Hnone. destruct Hshaped as [Hversion Hatomic _ _].
  unfold advance. apply seal_sound; [by destruct (mr_status _) | | by destruct (mr_status _)].
  destruct Hmerge as [Hmr Hmp _ _].
  destruct (mr_status (lm_merge receipt)) eqn:Hs; split; cbn; try done; try (by rewrite Hnone);
    try (intros ? [= <-]; by rewrite Hr, Hs); unfold phase_shape; cbn; rewrite ?Hstatus, ?Hrelease; try done;
    (destruct (lm_checkpoint receipt); [done |]); destruct Hflight as [? [=]]; unfold in_flight; auto.
Qed.

(** A submission is not refused for its checkpoint: it has none yet. *)
Definition no_checkpoint (e : GitHubStackMergeError) : Prop := refused (LandMergeError e) = false.
Lemma merge_plan_error repository plan e : validate_merge_plan repository plan = Err e → no_checkpoint e.
Proof. unfold validate_merge_plan. repeat case_match; try done; by intros [= <-]. Qed.
Lemma leaves_err_try {A B} (p : Prog StackOp (result A GitHubStackMergeError)) (f : A → Prog StackOp (result B GitHubStackMergeError)) :
  returns (λ r, ∀ e, r = Err e → no_checkpoint e) p → (∀ a, returns (λ r, ∀ e, r = Err e → no_checkpoint e) (f a)) →
  returns (λ r, ∀ e, r = Err e → no_checkpoint e) (ebind p f).
Proof. intros Hp Hf. eapply returns_bind; [exact Hp |]. intros [a | e] Ha; [apply Hf |]. intros ? [= <-]. by apply Ha. Qed.
Lemma leaves_err_map {A E} (p : Prog StackOp (result A E)) (f : E → GitHubStackMergeError) :
  (∀ e, no_checkpoint (f e)) → returns (λ r, ∀ e, r = Err e → no_checkpoint e) (map_err p f).
Proof. intros Hf. eapply returns_bind; [apply returns_any |]. intros [a | e] _; [done |]. intros ? [= <-]. apply Hf. Qed.
Lemma submit_errors repository plan lock :
  returns (λ r, ∀ e, r = Err e → no_checkpoint e) (native_stack_merge_submit_locked repository plan lock).
Proof.
  unfold native_stack_merge_submit_locked. destruct (validate_merge_lock plan lock) as [[] | e] eqn:Hlock.
  - apply leaves_err_try; [by apply leaves_err_map |]. intros lock'. apply leaves_err_try; [| done].
    unfold native_stack_merge_submit_unlocked. destruct (validate_merge_plan repository plan) as [[] | e] eqn:Hplan.
    + apply leaves_err_try; [by apply leaves_err_map |]. intros actual. destruct (negb _); [by intros ? [= <-] |].
      eapply returns_bind; [apply returns_any |]. intros response _. unfold submission_outcome. cbv zeta.
      assert (∀ i, returns (λ r, ∀ e, r = Err e → no_checkpoint e) (pbind (terminal_stack_merge_receipt i) (λ r, Ret (@Ok _ GitHubStackMergeError r)))) as Hterminal
        by (intros i; eapply returns_bind; [apply returns_any |]; by intros r _ ? [=]).
      destruct (normalized_provider_status _) as [[] |]; try apply Hterminal;
        repeat (match goal with |- returns _ (if ?b then _ else _) => destruct b end; [by intros ? [=] |]);
        (eapply returns_bind; [apply returns_any |]; by intros r _ ? [=]).
    + intros ? [= <-]. by eapply merge_plan_error.
  - intros ? [= <-]. revert Hlock. unfold validate_merge_lock. destruct (_ || _); [by intros [= <-] | done].
Qed.

Lemma submit_proceeds repository c :
  sound repository c → ld_phase c = LandSubmitting → proceeds repository (native_stack_land_submit repository c).
Proof.
  intros Hs Hp. unfold native_stack_land_submit. in_phase Hs Hp. destruct Hf as (_ & Hmerge & Hstatus & Hrelease).
  rewrite bool_decide_true by done. cbn [negb].
  eapply proceeds_try; [apply returns_proceed; [apply submit_locked_good | apply submit_errors] |].
  intros receipt Hgood. by apply advance_sound.
Qed.

Lemma poll_proceeds repository c : sound repository c → ld_phase c = LandSubmitted → proceeds repository (native_stack_land_poll repository c).
Proof.
  intros Hs Hp. unfold native_stack_land_poll. in_phase Hs Hp. destruct Hf as (_ & [m Hmerge] & Hstatus & Hrelease).
  destruct (Hm m Hmerge) as [Hvalid Hplan]. rewrite Hmerge.
  eapply (returns_bind (λ r, ∃ receipt, r = Ok receipt ∧ good_locked repository (mk_plan (lc_merge m)) receipt)).
  - eapply returns_bind; [by apply poll_locked_good |]. by intros r (receipt & -> & Hgood); exists receipt.
  - intros r (receipt & -> & Hgood). rewrite Hplan in Hgood. by apply advance_sound.
Qed.

Lemma release_proceeds repository c :
  sound repository c → ld_phase c = LandTerminal → proceeds repository (native_stack_land_release repository c).
Proof.
  intros Hs Hp. unfold native_stack_land_release. in_phase Hs Hp. destruct Hf as ([lock Hlock] & [status Hstatus] & Hrelease).
  rewrite bool_decide_false by done. rewrite Hlock.
  eapply (proceeds_try _ (λ _, True)); [apply returns_proceed; [apply ok_returns_any | apply lock_errors] |].
  intros receipt _. apply seal_sound; [done | | done]. destruct Hshaped as [Hversion Hatomic _ Hreceipt].
  split; cbn; try done. unfold phase_shape. cbn. by rewrite Hlock, Hstatus.
Qed.

Lemma reobserve_proceeds repository c :
  sound repository c → ld_phase c = LandReleased → ld_terminal_status c = Some MergeIndeterminate →
  proceeds repository (native_stack_land_reobserve_released repository c).
Proof.
  intros Hs Hp Hi. unfold native_stack_land_reobserve_released. in_phase Hs Hp. destruct Hf as ([lock Hlock] & _ & [release Hrelease]).
  rewrite Hi, !bool_decide_true by done. cbn [negb orb].
  eapply (returns_bind (λ r, ∃ receipt, r = Ok receipt ∧ good_locked repository (ld_plan c) receipt)).
  - destruct (ld_merge c) as [m |] eqn:Hmerge.
    + destruct (Hm m eq_refl) as [Hvalid Hplan]. eapply returns_bind; [by apply reobserve_released_good |].
      intros r (receipt & -> & Hgood). rewrite Hplan in Hgood. by exists receipt.
    + eapply returns_bind; [apply reobserve_unidentified_good |]. intros receipt Hgood. by exists receipt.
  - intros r (receipt & -> & [Hverify [Hmr Hmp _ _] Hcheckpoint _]). destruct Hshaped as [Hversion Hatomic Hphase Hreceipt].
    apply seal_sound; destruct (mr_status (lm_merge receipt)) eqn:Hstatus; try done;
      split; cbn; try done; try (unfold phase_shape; cbn; by rewrite Hp, Hlock, Hrelease, ?Hi); try (intros ? [= <-]; by rewrite Hr, Hstatus, ?Hi).
Qed.

(** The step of a phase. *)
Inductive land_step (repository : RepositoryId) (c : GitHubStackLandCheckpoint) : Prog StackOp LandResult → Prop :=
| StepLock : ld_phase c = LandPlanned → land_step repository c (native_stack_land_lock repository c)
| StepMark : ld_phase c = LandLocked → land_step repository c (Ret (native_stack_land_mark_submitting repository c))
| StepSubmit : ld_phase c = LandSubmitting → land_step repository c (native_stack_land_submit repository c)
| StepAbandon : ld_phase c = LandSubmitting → land_step repository c (Ret (native_stack_land_abandon_uncertain_submission repository c))
| StepPoll : ld_phase c = LandSubmitted → land_step repository c (native_stack_land_poll repository c)
| StepRelease : ld_phase c = LandTerminal → land_step repository c (native_stack_land_release repository c)
| StepReobserve : ld_phase c = LandReleased → ld_terminal_status c = Some MergeIndeterminate →
    land_step repository c (native_stack_land_reobserve_released repository c).

Lemma returns_drive {A} (P : A → Prop) (p : Prog StackOp A) choices log a :
  returns P p → (drive exec_stack choices p log).1 = Some a → P a.
Proof.
  revert choices log. induction p as [b | R op k IH]; intros choices log; cbn; [by intros HP [= <-] |].
  intros HP. destruct choices as [| c choices]; [done |]. destruct (exec_stack R c op log) as [r log']. by apply IH.
Qed.

(** C19. A valid checkpoint stays valid and can always go on: the step of its
    phase, whatever the provider answers, is never refused for the checkpoint
    or its order, and what it leads to validates again, with a saved submission
    of the same plan that can be polled. *)
Theorem land_steps_keep_checkpoints_valid repository c p choices log r
    (Hsound : sound repository c) (Hstep : land_step repository c p)
    (Hr : (drive exec_stack choices p log).1 = Some r) :
  match r with Ok next => sound repository next | Err e => refused e = false end.
Proof.
  refine (returns_drive (λ r : LandResult, match r with Ok next => sound repository next | Err e => refused e = false end) p choices log r _ Hr).
  destruct Hstep; [by apply lock_proceeds | by apply mark_proceeds | by apply submit_proceeds | by apply abandon_proceeds
    | by apply poll_proceeds | by apply release_proceeds | by apply reobserve_proceeds].
Qed.
End valid.
