(* ===== verification/StackSample.v ===== *)
(** A native Stack to land, runs over it, and the witnesses of the properties of
    its landing. *)

From Stdlib Require Import Ascii String.
From S2P Require Import Prelude Text TextProofs Model Json RequiredRuns Generation Budget Files Programs Store Checkpoints Command CiEvidence StackLock StackLockProofs StackMerge StackMergeProofs StackPolicy StackLand StackLandProofs StackLandValid.

#[local] Open Scope string_scope.
#[local] Open Scope list_scope.
#[local] Open Scope nat_scope.

(** ** A provider's texts *)

Definition sample_repository : RepositoryId := mkRepositoryId "o" "r".
Definition sample_branch (name oid : string) : BranchSnapshot := mkBranchSnapshot sample_repository name oid.
Definition sample_entry (position number : N) (state : PullRequestState) (merged_at : option string) (base head : BranchSnapshot)
    : GitHubStackEntryGeneration := mkStackEntry position number "open" state false merged_at base head.
Definition main_branch : BranchSnapshot := sample_branch "main" "m0".
Definition merged_entry := sample_entry 0 100 Merged (Some "t0") main_branch (sample_branch "f100" "h100").
Definition bottom_entry := sample_entry 1 101 Open None main_branch (sample_branch "f101" "h101").
Definition top_entry := sample_entry 2 102 Open None (sample_branch "f101" "h101") (sample_branch "f102" "h102").
Definition sample_stack : GitHubStackGeneration :=
  mkStackGeneration 5 42 "S" true "t" (mkTopology main_branch [merged_entry; bottom_entry; top_entry]).
Definition sample_plan : GitHubStackAsyncMergePlan :=
  mkMergePlan "tick:stack:42" "reviewer" sample_stack [bottom_entry; top_entry] SquashMethod DirectMerge.

Definition sample_lock_name : string := NAME_PREFIX +:+ fnv1a64 [].
Definition sample_ruleset : RulesetResponse :=
  mkRuleset 7 "R" sample_lock_name "branch" "Repository" "o/r" "active"
    ["refs/heads/f102"; "refs/heads/f100"; "refs/heads/f101"] [] ["update"; "deletion"] [] "never" "t" "t".
Definition sample_lock : GitHubStackBranchLockGeneration :=
  mkLock 7 "R" sample_lock_name sample_repository "o/r" "Repository" "branch" "active" [100; 101; 102]%N
    ["refs/heads/f100"; "refs/heads/f101"; "refs/heads/f102"] "never" "t" "t".

#[local] Instance sample_lock_host : LockHost := {|
  decode_summaries text := if String.eqb text "listed" then Ok [mkRulesetSummary 7 sample_lock_name] else Ok [];
  decode_ruleset text := if String.eqb text "ruleset" then Ok sample_ruleset else Err "text";
  to_json _ := "";
  lock_identity_json _ _ _ := [];
  lock_receipt_json _ := [];
  show_discovery_error _ := "error" |}.
#[local] Instance sample_merge_host : MergeHost := {|
  parse_value text :=
    if String.eqb text "pending" then Some (VObject [("uuid", VString "u-1"); ("status", VString "pending")])
    else if String.eqb text "merged" then Some (VObject [("uuid", VString "u-1"); ("status", VString "merged"); ("sha", VString "m2")])
    else None;
  decode_ref_sha text := Ok text;
  merge_checkpoint_json _ := [];
  merge_receipt_json _ := [];
  locked_checkpoint_json _ := [];
  locked_receipt_json _ := [] |}.

(** ** Answers *)

Definition said (code : Z) (text : string) : Ran := Ok (mkCommandOutput (Some code) text "").
Definition snapshot_of (state : PullRequestState) (merged_at : option string) (entry : GitHubStackEntryGeneration) : PullRequestSnapshot :=
  mkPullRequestSnapshot (en_pr entry) "t" "u" state false (en_head entry) (en_base entry) false {[ "caravan" ]}
    auto_merge_disabled [] None merged_at None None.
Definition quiet_choice : StackChoice := mkStackChoice (said 1 "") (Ok None) (Err "") (Ok None) (Ok Ahead).
Definition ran (r : Ran) : StackChoice := mkStackChoice r (Ok None) (Err "") (Ok None) (Ok Ahead).
Definition read_stack (stack : option GitHubStackGeneration) : StackChoice := mkStackChoice (said 1 "") (Ok stack) (Err "") (Ok None) (Ok Ahead).
Definition read_pull (pull : PullRequestSnapshot) : StackChoice := mkStackChoice (said 1 "") (Ok None) (Ok pull) (Ok None) (Ok Ahead).
Definition read_commit (commit : CommitOid) : StackChoice := mkStackChoice (said 1 "") (Ok None) (Err "") (Ok (Some commit)) (Ok Ahead).

(** Everything has landed: the tip, the entries with their commits, the order,
    and the Stack without open entries. *)
Definition landed_truth : list StackChoice :=
  [ran (said 0 "m2");
   read_pull (snapshot_of Merged (Some "t0") merged_entry); read_commit "m0";
   read_pull (snapshot_of Merged (Some "t1") bottom_entry); read_commit "m1";
   read_pull (snapshot_of Merged (Some "t1") top_entry); read_commit "m2";
   quiet_choice; read_stack None].
(** Nothing has landed yet. *)
Definition open_truth : list StackChoice :=
  [ran (said 0 "m0");
   read_pull (snapshot_of Merged (Some "t0") merged_entry); read_commit "m0";
   read_pull (snapshot_of Open None bottom_entry);
   read_pull (snapshot_of Open None top_entry);
   read_stack (Some sample_stack)].

Definition lock_answers : list StackChoice :=
  [ran (said 0 "empty"); ran (said 0 ""); ran (said 0 "listed"); ran (said 0 "ruleset")].
Definition submit_answers : list StackChoice := [ran (said 0 "ruleset"); read_stack (Some sample_stack)].
Definition merged_answers : list StackChoice := submit_answers ++ [ran (said 0 "merged")] ++ landed_truth.

Definition merged_run :=
  drive exec_stack merged_answers (native_stack_merge_submit_locked sample_repository sample_plan sample_lock) [].
Example merged_run_merges :
  match merged_run.1 with Some (Ok receipt) => mr_status (lm_merge receipt) | _ => MergeFailed end = MergeMerged.
Proof. vm_compute. reflexivity. Qed.

(** ** Landings *)

(** What a checkpoint is hashed as is not told apart here. *)
#[local] Instance sample_receipt_codec : Codec NativeReceipt := {| encode_value _ := Some []; decode_value _ := None |}.
Definition plain_host : LandHost := {|
  land_checkpoint_json _ := [];
  handoff_json _ _ _ _ _ := [];
  land_codec := {| encode_value _ := None; decode_value _ := None |};
  native_receipt_codec := sample_receipt_codec |}.

Section checkpoints.
#[local] Existing Instance plain_host.

(** The checkpoints of a landing, and of the one that is given up after its
    submission is marked. *)
Definition step_of (p : Prog StackOp LandResult) (answers : list StackChoice) (c : GitHubStackLandCheckpoint) : GitHubStackLandCheckpoint :=
  match (drive exec_stack answers p []).1 with Some (Ok next) => next | _ => c end.
Definition released_answers : list StackChoice := [ran (said 0 "ruleset"); ran (said 0 ""); ran (Ok (mkCommandOutput (Some 1%Z) "" "HTTP 404")); ran (said 0 "empty")].
Definition begun_land : GitHubStackLandCheckpoint := native_stack_land_begin sample_repository sample_plan.
Definition locked_land : GitHubStackLandCheckpoint :=
  step_of (native_stack_land_lock sample_repository begun_land) lock_answers begun_land.
Definition submitting_land : GitHubStackLandCheckpoint :=
  match native_stack_land_mark_submitting sample_repository locked_land with Ok c => c | Err _ => locked_land end.
Definition merged_land : GitHubStackLandCheckpoint :=
  step_of (native_stack_land_submit sample_repository submitting_land) merged_answers submitting_land.
Definition pending_answers : list StackChoice := submit_answers ++ [ran (said 0 "pending")].
Definition submitted_land : GitHubStackLandCheckpoint :=
  step_of (native_stack_land_submit sample_repository submitting_land) pending_answers submitting_land.
Definition abandoned_land : GitHubStackLandCheckpoint :=
  match native_stack_land_abandon_uncertain_submission sample_repository submitting_land with
  | Ok c => c | Err _ => submitting_land
  end.
Definition release_of (c : GitHubStackLandCheckpoint) : GitHubStackLandCheckpoint :=
  step_of (native_stack_land_release sample_repository c) released_answers c.
(** A poll that gets no answer, while nothing has landed. *)
Definition lost_poll_answers : list StackChoice := [ran (said 0 "ruleset"); ran (said 1 "")] ++ open_truth.
Definition doubted_land : GitHubStackLandCheckpoint :=
  step_of (native_stack_land_poll sample_repository submitted_land) lost_poll_answers submitted_land.
Example sample_landing_phases :
  ld_phase <$> [begun_land; locked_land; submitting_land; submitted_land; merged_land; release_of merged_land; abandoned_land; release_of abandoned_land; doubted_land; release_of doubted_land]
  = [LandPlanned; LandLocked; LandSubmitting; LandSubmitted; LandTerminal; LandReleased; LandTerminal; LandReleased; LandTerminal; LandReleased].
Proof. vm_compute. reflexivity. Qed.
End checkpoints.

(** A file holds the position of its checkpoint in the table. *)
Definition table : list GitHubStackLandCheckpoint :=
  [begun_land; locked_land; submitting_land; submitted_land; merged_land; release_of merged_land; abandoned_land; release_of abandoned_land;
   doubted_land; release_of doubted_land].
#[local] Instance sample_land_codec : Codec GitHubStackLandCheckpoint := {|
  encode_value c := (λ found, [N.of_nat found.1]) <$> list_find (λ saved, saved = c) table;
  decode_value bytes := match bytes with [n] => table !! N.to_nat n | _ => None end |}.
#[local] Instance sample_land_laws : CodecLaws GitHubStackLandCheckpoint.
Proof.
  split. intros value bytes (found & Hfound & ->)%fmap_Some. destruct found as [n saved].
  apply list_find_Some in Hfound as (Hat & -> & _). cbn. by rewrite Nat2N.id.
Qed.
#[local] Instance sample_land_host : LandHost := {|
  land_checkpoint_json _ := [];
  handoff_json _ _ _ _ _ := [] |}.

(** The facts of a status in which the Stack may land. *)
Definition candidate_of (entry : GitHubStackEntryGeneration) (oid base : string) : MergeCandidateIdentity :=
  mkMergeCandidateIdentity (en_pr entry) "t" "t" (en_base entry) (en_head entry)
    (Some (mkSyntheticMergeCandidate "refs" oid "tree" [base; br_oid (en_head entry)])) (mkNativeAutoMergeState false None None) Fresh
    (Some (en_base entry)) false false [].
Definition sample_facts : StackPolicyFacts := mkPolicyFacts
  (list_to_map ((λ entry, (en_pr entry, snapshot_of (en_state entry) (en_merged_at entry) entry)) <$> entries_of sample_stack))
  (list_to_map [(101%N, candidate_of bottom_entry "c101" "m0"); (102%N, candidate_of top_entry "c102" "c101")])
  [] ∅.
Definition sample_caravan : Caravan := mkCaravan 101 [101; 102]%N false.
Definition sample_fleet : CaravanFleet := mkCaravanFleet sample_repository main_branch [sample_caravan] [] [] (mkCaravanHistory 0 None None 0).
Definition qualified (entry : GitHubStackEntryGeneration) : RequiredRunsAssessment :=
  mkRequiredRunsAssessment (en_pr entry) (en_head entry) (en_base entry) NotRequired [] (Some (unprotected "main")) [] [] 0 0 0 true
    None 0 true RecoveryNone "".
Definition tick_named (name : string) : LandTick :=
  mkLandTick sample_repository name "reviewer" "main" [] sample_fleet [] (pf_pull_requests sample_facts)
    (pf_merge_candidates sample_facts) (qualified <$> [bottom_entry; top_entry]).

(** ** Runs of the drivers *)

Definition common_dir : Path := mkPath true ["repo"; ".git"].
Definition sample_snapshot (number : PrNumber) : result PullRequestSnapshot string :=
  ok_or (pf_pull_requests sample_facts !! number) "none".
(** Everything works, and the provider gives these answers one by one. *)
Definition choice_for {R} (op : LandOp R) (answers : list StackChoice) : LandChoice * list StackChoice :=
  let calm answer := mkLandChoice works answer None (Ok ()) (Ok (unprotected "main")) in
  match op with
  | LandStack _ => (calm (hd quiet_choice answers) (Err "") (Ok Satisfied), tl answers)
  | LandSnapshot number => (calm quiet_choice (sample_snapshot number) (Ok Satisfied), answers)
  | _ => (calm quiet_choice (Err "") (Ok Satisfied), answers)
  end.
Fixpoint choices_for {A} (p : Prog LandOp A) (answers : list StackChoice) (w : LandWorld) : list LandChoice :=
  match p with
  | Ret _ => []
  | Vis op k =>
      let '(choice, answers) := choice_for op answers in
      let '(r, w) := exec_land common_dir _ choice op w in
      choice :: choices_for (k r) answers w
  end.
Definition drain_choices (name : string) (answers : list StackChoice) (w : LandWorld) : list LandChoice :=
  choices_for (drain_native_stack 1 (tick_named name) sample_caravan 42) answers w.
Definition drain (name : string) (choices : list LandChoice) : LandCall := CallDrain 1 (tick_named name) sample_caravan 42 choices.

Definition begin_answers : list StackChoice := [read_stack (Some sample_stack)].
Definition fresh_world : LandWorld := mkLandWorld ∅ [].
Definition whole_tick : LandCall := drain "tick" (drain_choices "tick" (begin_answers ++ lock_answers ++ merged_answers ++ released_answers) fresh_world).
Example tick_lands :
  (drive (exec_land common_dir) (drain_choices "tick" (begin_answers ++ lock_answers ++ merged_answers ++ released_answers) fresh_world)
    (drain_native_stack 1 (tick_named "tick") sample_caravan 42) fresh_world).1 = Some (Ok ())
  ∧ submitted (lw_log (run_land common_dir [whole_tick] fresh_world)) = ["tick:stack:42"].
Proof. vm_compute. split; reflexivity. Qed.

(** One failed poll ends the landing: nothing has landed, and the lock that keeps
    the branches still is deleted in the same tick. *)
Definition submitted_world : LandWorld := mkLandWorld {[ file_of common_dir (land_key 42) := [3%N] ]} [].
Definition doubted_tick :=
  drive (exec_land common_dir) (drain_choices "later" (lost_poll_answers ++ released_answers) submitted_world)
    (drain_native_stack 1 (tick_named "later") sample_caravan 42) submitted_world.
Example lost_poll_releases_the_lock :
  doubted_tick.1 = Some (Err (LandIndeterminate (release_of doubted_land)))
  ∧ lw_log doubted_tick.2 !! 5 = Some (EvPullRequest 101 (Ok (snapshot_of Open None bottom_entry)))
  ∧ lw_log doubted_tick.2 !! 6 = Some (EvPullRequest 102 (Ok (snapshot_of Open None top_entry)))
  ∧ lw_log doubted_tick.2 !! 9 = Some (EvRun (delete_ruleset_command sample_repository 7) (said 0 "")).
Proof. vm_compute. repeat split. Qed.

(** ** The properties at these inputs *)

Lemma reported_merge_is_proved_witness :
  ∃ before fresh tip, merged_run.2 = before ++ fresh ∧ quiet fresh ∧ landed sample_repository sample_plan tip fresh.
Proof.
  assert (∃ receipt, merged_run.1 = Some (Ok receipt) ∧ mr_status (lm_merge receipt) = MergeMerged) as (receipt & Hreceipt & Hmerged)
    by (eexists; split; vm_compute; reflexivity).
  destruct (reported_merge_is_proved sample_repository sample_plan false _ merged_answers receipt
    (CallSubmit sample_repository sample_plan sample_lock) Hreceipt Hmerged) as (_ & before & fresh & tip & Hlog & Hquiet & Hlanded & _).
  exists before, fresh, tip. split_and!; [exact Hlog | exact Hquiet | exact Hlanded].
Defined.

(** A tick that is killed right behind the submission, and one that finds its
    checkpoint: the operation was submitted, and is given up. *)
Definition killed_tick : LandCall :=
  drain "tick" (take 69 (drain_choices "tick" (begin_answers ++ lock_answers ++ merged_answers) fresh_world)).
Definition after_kill : LandWorld := run_land common_dir [killed_tick] fresh_world.
Definition next_tick : LandCall := drain "next" (drain_choices "next" released_answers after_kill).
Lemma native_merge_submitted_at_most_once_witness :
  NoDup (submitted (lw_log (run_land common_dir [killed_tick; next_tick] fresh_world)))
  ∧ submitted (lw_log (run_land common_dir [killed_tick; next_tick] fresh_world)) = ["tick:stack:42"].
Proof.
  split; [| vm_compute; reflexivity].
  apply (native_merge_submitted_at_most_once common_dir [killed_tick; next_tick] ∅); [intros key _; apply lookup_empty |].
  apply (bool_decide_unpack _). vm_compute. exact I.
Defined.

Lemma land_steps_keep_checkpoints_valid_witness :
  let begun := native_stack_land_begin sample_repository sample_plan in
  ∃ next, (drive exec_stack lock_answers (native_stack_land_lock sample_repository begun) []).1 = Some (Ok next)
    ∧ sound sample_repository next.
Proof.
  intros begun. exists locked_land.
  assert ((drive exec_stack lock_answers (native_stack_land_lock sample_repository begun) []).1 = Some (Ok locked_land)) as Hr
    by (vm_compute; reflexivity). split; [exact Hr |].
  assert (sound sample_repository begun) as Hsound by apply begin_sound.
  assert (land_step sample_repository begun (native_stack_land_lock sample_repository begun)) as Hstep by by apply StepLock.
  apply (land_steps_keep_checkpoints_valid sample_repository begun _ lock_answers [] _ Hsound Hstep Hr).
Defined.

Lemma ready_entries_are_authorized_witness :
  ∃ prefix, plan_github_stack_ready_prefix sample_stack (stack_merge_evidence sample_facts sample_stack (λ _, CiReady)) = Ok prefix
    ∧ authorized sample_facts sample_stack (λ _, CiReady) (Some bottom_entry) top_entry.
Proof.
  eexists. assert (∀ prefix, plan_github_stack_ready_prefix sample_stack (stack_merge_evidence sample_facts sample_stack (λ _, CiReady)) = Ok prefix →
    rp_selected prefix !! 1 = Some top_entry →
    authorized sample_facts sample_stack (λ _, CiReady) (Some bottom_entry) top_entry) as Hready.
  { intros prefix Hprefix Hentry. apply (ready_entries_are_authorized _ _ _ _ 1 _ Hprefix Hentry). }
  split; [vm_compute; reflexivity |]. eapply Hready; vm_compute; reflexivity.
Defined.

Lemma ready_prefix_is_submittable_witness :
  ∃ prefix plan, direct_squash_plan prefix "tick:stack:42" "reviewer" = Ok plan ∧ validate_merge_plan sample_repository plan = Ok ()
    ∧ mp_selected plan = [bottom_entry; top_entry].
Proof.
  assert (∃ prefix, plan_github_stack_ready_prefix sample_stack (stack_merge_evidence sample_facts sample_stack (λ _, CiReady)) = Ok prefix
    ∧ rp_selected prefix = [bottom_entry; top_entry]) as (prefix & Hplan & Hselected) by (eexists; split; vm_compute; reflexivity).
  destruct (ready_prefix_is_submittable sample_repository sample_stack _ prefix "tick:stack:42" "reviewer" Hplan) as (plan & Hdirect & Hvalid).
  - by rewrite Hselected.
  - reflexivity.
  - reflexivity.
  - reflexivity.
  - intros entry Hin. assert (entry = merged_entry) as -> by (by apply elem_of_cons in Hin as [? | []%elem_of_nil]). by split; [| eexists].
  - exists prefix, plan. split_and!; [done | done |]. revert Hdirect. unfold direct_squash_plan. rewrite Hselected. by intros [= <-].
Defined.
