(* ===== verification/Hooks.v ===== *)
(** Errors with JSON details, and the delivery of events to the configured
    hooks: src/src/hooks.rs, with the errors of src/src/lib.rs.

    An event is journaled before its hook runs, and the delivery is journaled
    after it. What fails in a hook is reported; it fails the operation only
    when the hook blocks. The properties of a dispatch follow the definitions. *)

From Stdlib Require Import Ascii String.
From S2P Require Import Prelude Text Model Json Events Programs Command TextProofs.

#[local] Open Scope string_scope.
#[local] Open Scope list_scope.
#[local] Open Scope nat_scope.

(** ** JSON objects *)

(** [Map::insert]: the fields stay in ascending order of their keys. *)
Fixpoint map_insert (key : string) (v : Value) (fields : list (string * Value)) : list (string * Value) :=
  match fields with
  | [] => [(key, v)]
  | (k, x) :: rest =>
      if String.eqb k key then (key, v) :: rest
      else if ord_lt key k then (key, v) :: fields
      else (k, x) :: map_insert key v rest
  end.
(** The [json!] of an object, its fields in the order of the source. *)
Definition json_object (fields : list (string * Value)) : Value :=
  VObject (foldl (λ m f, map_insert f.1 f.2 m) [] fields).

Definition json_N (n : N) : Value := VNumber (PosInt n).
Definition json_option {A} (f : A → Value) (o : option A) : Value := match o with Some a => f a | None => VNull end.
Definition json_repository (r : RepositoryId) : Value :=
  json_object [("owner", VString (repo_owner r)); ("name", VString (repo_name r))].

(** [from_value] of a [PrNumber]: a number, or the text of one. *)
Definition pr_from_value (v : Value) : option PrNumber :=
  match v with
  | VNumber (PosInt n) => Some n
  | VString s => parse_u64 s
  | _ => None
  end.
Definition prs_from_value (v : Value) : option (list PrNumber) :=
  match v with VArray items => mapM pr_from_value items | _ => None end.
(** [Value::get] along keys; [None] anywhere is none. *)
Definition get_in (keys : list string) (v : Value) : option Value :=
  foldl (λ at_ key, match at_ with Some v => get key v | None => None end) (Some v) keys.
Definition as_array (v : Value) : option (list Value) := match v with VArray items => Some items | _ => None end.
Definition operation_id_from_value (v : Value) : option OperationId := as_str v.

(** ** Errors *)

Inductive ErrorCategory :=
  Validation | ExecutionFailure | CategoryTimeout | SerializationError | TargetNotFound | MissingPermission | ConfigError.
#[export] Instance ErrorCategory_eq_dec : EqDecision ErrorCategory.
Proof. solve_decision. Defined.

Record AppError := mkAppError {
  er_category : ErrorCategory;
  er_code : string;
  er_message : string;
  er_details : option Value }.
#[export] Instance AppError_eq_dec : EqDecision AppError.
Proof. solve_decision. Defined.

Definition details_or_empty (error : AppError) : Value := default (VObject []) (er_details error).

(** The details with one more field; details that are no object are kept
    beside it. *)
Definition attach_field (key : string) (v : Value) (error : AppError) : AppError :=
  mkAppError (er_category error) (er_code error) (er_message error)
    (Some match details_or_empty error with
          | VObject fields => VObject (map_insert key v fields)
          | details => json_object [("original_details", details); (key, v)]
          end).

(** ** Events *)

Definition HOOK_EVENT_VERSION : N := 1.
Definition MAX_EVENT_BYTES : N := 1024 * 1024.

(** [serde_json] on events and deliveries; [event_json] is [None] when the
    event cannot be encoded. *)
Class HookCodec := {
  event_json : CaravanEvent → option string;
  event_value : CaravanEvent → Value;
  event_from_value : Value → option CaravanEvent;
  delivery_value : HookDelivery → Value }.

(** What a run of a hook came to; any other error of the runner is
    [HookNotRun]. *)
Inductive HookRun :=
| HookExited (output : CommandOutput)
| HookTimedOut (stdout stderr : string)
| HookNotRun.

Record HookConfig := mkHookConfig {
  hk_command : string;
  hk_timeout_secs : N;
  hk_blocking : bool }.

Definition bytes_of (s : string) : N := N.of_nat (String.length s).

Definition delivery_succeeded (event : CaravanEvent) (hook : HookConfig) (output : CommandOutput) : HookDelivery :=
  mkHookDelivery (cv_event_id event) (cv_kind event) DeliverySucceeded (hk_blocking hook) (out_code output)
    (bytes_of (out_stdout output)) (bytes_of (out_stderr output)).
Definition delivery_failed (event : CaravanEvent) (hook : HookConfig) (state : HookDeliveryState) (exit_code : option Z)
    (stdout_bytes stderr_bytes : N) : HookDelivery :=
  mkHookDelivery (cv_event_id event) (cv_kind event) state (hk_blocking hook) exit_code stdout_bytes stderr_bytes.

(** The identifier and the time are fresh ones. *)
Definition new_event (event_id : EventId) (unix_millis : string) (kind : EventKind) (operation_id : OperationId)
    (repository : RepositoryId) (caravan_id : option PrNumber) (prs : list PrNumber) (fleet : option CaravanFleet)
    (reason : option string) (metadata : gmap string Value) : CaravanEvent :=
  mkEvent HOOK_EVENT_VERSION event_id operation_id kind repository caravan_id prs fleet reason metadata unix_millis.

Definition validate_event (event : CaravanEvent) : result unit AppError :=
  if negb (N.eqb (cv_version event) HOOK_EVENT_VERSION) then
    Err (mkAppError Validation "unsupported_hook_event_version"
           (fmt ["hook event version "; show_N (cv_version event); " is unsupported; expected "; show_N HOOK_EVENT_VERSION])
           (Some (json_object [("event_id", VString (cv_event_id event)); ("found", json_N (cv_version event));
                               ("supported", json_N HOOK_EVENT_VERSION)])))
  else Ok ().

Definition event_kind_name (kind : EventKind) : string :=
  default EmptyString (fst <$> List.find (λ k, bool_decide (snd k = kind)) kind_names).
(** The name [Debug] prints. *)
Definition kind_debug (kind : EventKind) : string :=
  match kind with
  | CaravanCreated => "CaravanCreated" | PrJoined => "PrJoined" | ReadyPrUnqueued => "ReadyPrUnqueued"
  | ConflictDetected => "ConflictDetected" | SyncCompleted => "SyncCompleted" | SyncFailed => "SyncFailed"
  | JoinFailed => "JoinFailed" | AdmissionSkipped => "AdmissionSkipped" | EvictionFailed => "EvictionFailed"
  | HeadAdvanced => "HeadAdvanced" | Evicted => "Evicted" | SplitEvent => "Split"
  | CaravansConcatenated => "CaravansConcatenated" | CaravanParked => "CaravanParked"
  | CaravanUnparked => "CaravanUnparked" | CiFailedEvent => "CiFailed" | ForceMergeAttempted => "ForceMergeAttempted"
  | ForceMergeCompleted => "ForceMergeCompleted" | RootAutoMergeArmed => "RootAutoMergeArmed"
  | RootPromoted => "RootPromoted" | RootMerged => "RootMerged" | RequiredRunsMissing => "RequiredRunsMissing"
  | RequiredRunsRetriggered => "RequiredRunsRetriggered"
  end.

Definition shell_request (command : string) : CommandSpec := args (new_command "sh") ["-c"; command].

Section hooks.
Context `{!HookCodec}.

Definition attach_events (error : AppError) (events : list CaravanEvent) : AppError :=
  match events with
  | [] => error
  | _ => attach_field "events" (VArray (event_value <$> events)) error
  end.

(** [None]: a fresh identifier is made. *)
Definition operation_id_from_error (error : AppError) : option OperationId :=
  details ← er_details error;
  find_map operation_id_from_value
    (omap id [get "operation_id" details; get_in ["operation_receipt"; "operation_id"] details;
              get_in ["decision"; "operation_id"] details]).

Definition attach_deliveries (error : AppError) (deliveries : list HookDelivery) : AppError :=
  match deliveries with
  | [] => error
  | _ => attach_field "hook_deliveries" (VArray (delivery_value <$> deliveries)) error
  end.

(** [filter] with [seen.insert]. *)
Fixpoint unseen (seen : gset EventId) (events : list CaravanEvent) : list CaravanEvent :=
  match events with
  | [] => []
  | event :: events =>
      if bool_decide (cv_event_id event ∈ seen) then unseen seen events
      else event :: unseen ({[cv_event_id event]} ∪ seen) events
  end.

(** The values that may be events: the one of the decision, those of the
    details, those of the decision. *)
Definition embedded_events (details : Value) : list Value :=
  let array (v : option Value) := default [] (v ≫= as_array) in
  option_list (get_in ["decision"; "evidence"; "event"] details)
  ++ array (get "events" details)
  ++ array (get_in ["decision"; "evidence"; "events"] details).
Definition events_from_error (error : AppError) : list CaravanEvent :=
  match er_details error with
  | None => []
  | Some details => unseen ∅ (omap event_from_value (embedded_events details))
  end.

Definition hook_failure (event : CaravanEvent) (delivery : HookDelivery) (deliveries : list HookDelivery) : AppError :=
  mkAppError (if bool_decide (hd_state delivery = DeliveryTimedOut) then CategoryTimeout else ExecutionFailure)
    "hook_failure" (fmt ["blocking "; kind_debug (cv_kind event); " hook delivery failed"])
    (Some (json_object
       [("event", event_value event); ("delivery", delivery_value delivery);
        ("deliveries", VArray (delivery_value <$> deliveries)); ("resumable", VBool true);
        ("next", VString "repair the configured blocking hook, then rerun the same Caravan command");
        ("rollback", VString "remote mutations already recorded by the event are not rolled back")])).

(** ** Delivery *)

(** What the dispatcher asks for: records of the journal, and a process. *)
Inductive HookOp : Type → Type :=
| JournalEvent (event : CaravanEvent) : HookOp (result unit AppError)
| RunHook (timeout_secs : N) (request : CommandSpec) : HookOp HookRun
| JournalDelivery (event : CaravanEvent) (delivery : HookDelivery) : HookOp (result unit AppError).
#[local] Open Scope prog_scope.

Definition hook_request (hook : HookConfig) (event : CaravanEvent) (payload : string) : CommandSpec :=
  stdin
    (env (env (env (env (env (env (shell_request (hk_command hook))
       "CARA_EVENT" (event_kind_name (cv_kind event)))
       "CARA_EVENT_ID" (cv_event_id event))
       "CARA_OPERATION_ID" (cv_operation_id event))
       "CARA_REPOSITORY" (slug (cv_repository event)))
       "CARA_CARAVAN_ID" (from_option show_pr EmptyString (cv_caravan_id event)))
       "CARA_PRS" (join "," (show_pr <$> cv_prs event)))
    (payload +:+ String (char_of 10) EmptyString).

Definition delivery_of (event : CaravanEvent) (hook : HookConfig) (run : HookRun) : HookDelivery :=
  match run with
  | HookExited output =>
      if is_success output then delivery_succeeded event hook output
      else delivery_failed event hook DeliveryFailed (out_code output)
             (bytes_of (out_stdout output)) (bytes_of (out_stderr output))
  | HookTimedOut stdout stderr => delivery_failed event hook DeliveryTimedOut None (bytes_of stdout) (bytes_of stderr)
  | HookNotRun => delivery_failed event hook DeliveryFailed None 0 0
  end.

Definition dispatch_event (hook : HookConfig) (event : CaravanEvent) : Prog HookOp (result HookDelivery AppError) :=
  match validate_event event, event_json event with
  | Err error, _ => Ret (Err error)
  | Ok _, None =>
      Ret (Err (mkAppError SerializationError "hook_event_encode_failed" "could not encode hook event"
                  (Some (json_object [("event_id", VString (cv_event_id event))]))))
  | Ok _, Some payload =>
      if (MAX_EVENT_BYTES <? bytes_of payload)%N then
        Ret (Err (mkAppError Validation "hook_event_too_large"
                    "hook event exceeds the bounded one-megabyte delivery limit"
                    (Some (json_object [("event_id", VString (cv_event_id event)); ("bytes", json_N (bytes_of payload));
                                        ("max_bytes", json_N MAX_EVENT_BYTES)]))))
      else
        let! run := perform (RunHook (hk_timeout_secs hook) (hook_request hook event payload)) in
        Ret (Ok (delivery_of event hook run))
  end.

(** The detection of a conflict never blocks. *)
Definition effective_hook (event : CaravanEvent) (hook : HookConfig) : HookConfig :=
  if bool_decide (cv_kind event = ConflictDetected) then mkHookConfig (hk_command hook) (hk_timeout_secs hook) false
  else hook.

Fixpoint dispatch_from (hooks : EventKind → option HookConfig) (journaled : gset EventId)
    (deliveries : list HookDelivery) (events : list CaravanEvent) : Prog HookOp (result (list HookDelivery) AppError) :=
  match events with
  | [] => Ret (Ok deliveries)
  | event :: events =>
      run? (if bool_decide (cv_event_id event ∈ journaled) then Ret (Ok ()) else perform (JournalEvent event)) in
      let journaled := {[cv_event_id event]} ∪ journaled in
      match hooks (cv_kind event) with
      | None => dispatch_from hooks journaled deliveries events
      | Some configured =>
          let hook := effective_hook event configured in
          let? delivery := dispatch_event hook event in
          run? perform (JournalDelivery event delivery) in
          let deliveries := deliveries ++ [delivery] in
          if negb (bool_decide (hd_state delivery = DeliverySucceeded)) && hk_blocking hook then
            Ret (Err (hook_failure event delivery deliveries))
          else dispatch_from hooks journaled deliveries events
      end
  end.
Definition dispatch_events (hooks : EventKind → option HookConfig) (events : list CaravanEvent)
    : Prog HookOp (result (list HookDelivery) AppError) := dispatch_from hooks ∅ [] events.
End hooks.

(** * Properties *)

(** ** Objects *)

Lemma map_get_cons key k x fields :
  map_get key ((k, x) :: fields) = if String.eqb k key then Some x else map_get key fields.
Proof. unfold map_get. cbn. by destruct (String.eqb k key). Qed.

#[local] Arguments map_get : simpl never.

Lemma map_get_insert key v fields : map_get key (map_insert key v fields) = Some v.
Proof.
  induction fields as [| [k x] fields IH]; cbn; [by rewrite map_get_cons, String.eqb_refl |].
  destruct (String.eqb k key) eqn:Hk; [by rewrite map_get_cons, String.eqb_refl |].
  destruct (ord_lt key k); rewrite map_get_cons; [by rewrite String.eqb_refl | by rewrite Hk].
Qed.

Lemma map_get_insert_ne key key' v fields :
  key' ≠ key → map_get key' (map_insert key v fields) = map_get key' fields.
Proof.
  intros Hne. assert (String.eqb key key' = false) as Hne' by (apply String.eqb_neq; congruence).
  induction fields as [| [k x] fields IH]; cbn; [by rewrite map_get_cons, Hne' |].
  destruct (String.eqb k key) eqn:Hk.
  { apply String.eqb_eq in Hk as ->. by rewrite !map_get_cons, Hne'. }
  destruct (ord_lt key k); rewrite !map_get_cons; [by rewrite Hne' |]. destruct (String.eqb k key'); [done | exact IH].
Qed.

(** The keys of an object ascend. *)
Definition ordered (fields : list (string * Value)) : Prop := StronglySorted (λ a b, ord_lt a.1 b.1 = true) fields.

Lemma elem_of_map_insert key v fields f : f ∈ map_insert key v fields → f = (key, v) ∨ f ∈ fields.
Proof.
  induction fields as [| [k x] fields IH]; cbn; [set_solver |].
  destruct (String.eqb k key); [set_solver |]. destruct (ord_lt key k); set_solver.
Qed.

Lemma map_insert_ordered key v fields : ordered fields → ordered (map_insert key v fields).
Proof.
  intros Hs. induction Hs as [| [k x] fields Hs IH Hall]; cbn; [repeat constructor |].
  destruct (String.eqb k key) eqn:Hk.
  { apply String.eqb_eq in Hk as ->. by constructor. }
  destruct (ord_lt key k) eqn:Hlt; constructor; try done.
  - constructor; done.
  - constructor; [done |]. eapply Forall_impl; [exact Hall |]. intros [k' x'] H'. cbn in *. by eapply ord_lt_trans.
  - apply Forall_forall. intros f [-> | Hf]%elem_of_map_insert; cbn.
    + apply String.eqb_neq in Hk. destruct (ord_lt_gt_cases k key Hk); congruence.
    + rewrite Forall_forall in Hall. by apply Hall in Hf.
Qed.

Lemma map_insert_id key v fields : ordered fields → map_get key fields = Some v → map_insert key v fields = fields.
Proof.
  intros Hs. induction Hs as [| [k x] fields Hs IH Hall]; cbn; [done |]. rewrite map_get_cons.
  destruct (String.eqb k key) eqn:Hk; [apply String.eqb_eq in Hk as ->; by intros [= ->] |].
  intros Hg. destruct (ord_lt key k) eqn:Hlt; [| by rewrite IH]. exfalso.
  unfold map_get in Hg. apply fmap_Some in Hg as ([k' v'] & [Hin Heq]%List.find_some & _).
  apply list_elem_of_In in Hin. cbn in Heq. apply String.eqb_eq in Heq as ->.
  rewrite Forall_forall in Hall. apply Hall in Hin. cbn in Hin.
  assert (ord_lt key key = true) as Hirr by by eapply ord_lt_trans. by rewrite ord_lt_irrefl in Hirr.
Qed.

(** What an attachment inserts into: the object of the details, or one that
    holds them. *)
Definition base_fields (error : AppError) : list (string * Value) :=
  match details_or_empty error with VObject fields => fields | details => [("original_details", details)] end.

Lemma attach_field_object key v error :
  er_details (attach_field key v error) = Some (VObject (map_insert key v (base_fields error))).
Proof. unfold attach_field, base_fields, json_object. by destruct (details_or_empty error). Qed.

Lemma base_fields_get key error :
  key ≠ "original_details" → map_get key (base_fields error) = er_details error ≫= get key.
Proof.
  intros Hne. unfold base_fields, details_or_empty. destruct (er_details error) as [details |]; [| done].
  assert (String.eqb "original_details" key = false) as Hk by (apply String.eqb_neq; congruence).
  destruct details; cbn; rewrite ?map_get_cons, ?Hk; done.
Qed.

(** ** Delivery *)

(** What a dispatch did: its records that were kept, and its runs. *)
Inductive HookEntry :=
| Journaled (event : CaravanEvent) (kept : bool)
| Ran_ (request : CommandSpec) (run : HookRun)
| DeliveryJournaled (event : CaravanEvent) (delivery : HookDelivery) (kept : bool).

Record HookAnswers := mkHookAnswers {
  ha_event : result unit AppError;
  ha_run : HookRun;
  ha_delivery : result unit AppError }.

Definition exec_hook (R : Type) (c : HookAnswers) (op : HookOp R) (log : list HookEntry) : R * list HookEntry :=
  match op in HookOp R return R * list HookEntry with
  | JournalEvent event => (ha_event c, log ++ [Journaled event (is_ok (ha_event c))])
  | RunHook _ request => (ha_run c, log ++ [Ran_ request (ha_run c)])
  | JournalDelivery event delivery => (ha_delivery c, log ++ [DeliveryJournaled event delivery (is_ok (ha_delivery c))])
  end.

Section delivery.
Context `{!HookCodec} (hooks : EventKind → option HookConfig).

Definition journaled_ids (log : list HookEntry) : list EventId :=
  omap (λ x, match x with Journaled e true => Some (cv_event_id e) | _ => None end) log.
Definition attempted_ids (log : list HookEntry) : list EventId :=
  omap (λ x, match x with Journaled e _ => Some (cv_event_id e) | _ => None end) log.

(** The request is that of an event whose record was kept before. *)
Definition run_of (events : list CaravanEvent) (before : list HookEntry) (request : CommandSpec) : Prop :=
  ∃ e configured payload, e ∈ events ∧ hooks (cv_kind e) = Some configured ∧ event_json e = Some payload
  ∧ (bytes_of payload ≤ MAX_EVENT_BYTES)%N
  ∧ request = hook_request configured e payload ∧ cv_event_id e ∈ journaled_ids before.
Definition runs_journaled (events : list CaravanEvent) (log : list HookEntry) : Prop :=
  ∀ before request run after, log = before ++ Ran_ request run :: after → run_of events before request.

(** The hook of an event ran, and the delivery is that of this run. *)
Definition ran_for (e : CaravanEvent) (d : HookDelivery) (x : HookEntry) : Prop :=
  ∃ configured payload run, hooks (cv_kind e) = Some configured ∧ event_json e = Some payload
  ∧ x = Ran_ (hook_request configured e payload) run ∧ d = delivery_of e (effective_hook e configured) run.

(** Every delivery that went to the journal is that of the run directly before. *)
Definition deliveries_ran (log : list HookEntry) : Prop :=
  ∀ before e d kept after, log = before ++ DeliveryJournaled e d kept :: after →
    ∃ earlier x, before = earlier ++ [x] ∧ ran_for e d x.

Definition lawful (events : list CaravanEvent) (log : list HookEntry) : Prop :=
  runs_journaled events log ∧ NoDup (attempted_ids log) ∧ deliveries_ran log.

(** The delivery of an event: the run of its hook, and the record of what the
    run came to, which was kept. *)
Definition delivers (e : CaravanEvent) (d : HookDelivery) (steps : list HookEntry) : Prop :=
  ∃ x, ran_for e d x ∧ steps = [x; DeliveryJournaled e d true].
Definition is_step (x : HookEntry) : bool := match x with Journaled _ _ => false | _ => true end.
(** The runs and the delivery records of a log. *)
Definition hook_steps (log : list HookEntry) : list HookEntry := List.filter is_step log.
Definition configured_events (events : list CaravanEvent) : list CaravanEvent :=
  List.filter (λ e, is_some_b (hooks (cv_kind e))) events.
Definition blocks (d : HookDelivery) : bool := negb (bool_decide (hd_state d = DeliverySucceeded)) && hd_blocking d.

Lemma snoc_split {A} (log : list A) y before x after :
  log ++ [y] = before ++ x :: after →
  (after = [] ∧ before = log ∧ x = y) ∨ ∃ after', after = after' ++ [y] ∧ log = before ++ x :: after'.
Proof.
  destruct after as [| z after' _] using rev_ind.
  - intros [-> [= ->]]%app_inj_tail. by left.
  - rewrite app_comm_cons, (assoc (++)). intros [-> ->]%app_inj_tail. right. by exists after'.
Qed.

Lemma lawful_event events log e kept :
  lawful events log → cv_event_id e ∉ attempted_ids log → lawful events (log ++ [Journaled e kept]).
Proof.
  intros (Hr & Hn & Hd) He. split_and!.
  - intros before request run after [(_ & _ & Hx) | (after' & _ & Hx)]%snoc_split; [done | by eapply Hr].
  - unfold attempted_ids. rewrite omap_app. cbn. apply NoDup_app. split_and!; [done | | apply NoDup_singleton].
    intros x Hx ->%list_elem_of_singleton. by apply He.
  - intros before e' d kept' after [(_ & _ & Hx) | (after' & _ & Hx)]%snoc_split; [done | by eapply Hd].
Qed.

Lemma lawful_run events log request run :
  lawful events log → run_of events log request → lawful events (log ++ [Ran_ request run]).
Proof.
  intros (Hr & Hn & Hd) Hx. split_and!.
  - intros before request' run' after [(_ & -> & [= -> ->]) | (after' & _ & Hx')]%snoc_split; [done | by eapply Hr].
  - unfold attempted_ids. by rewrite omap_app, app_nil_r.
  - intros before e d kept after [(_ & _ & Hy) | (after' & _ & Hy)]%snoc_split; [done | by eapply Hd].
Qed.

Lemma lawful_delivery events log e d x kept :
  lawful events (log ++ [x]) → ran_for e d x → lawful events ((log ++ [x]) ++ [DeliveryJournaled e d kept]).
Proof.
  intros (Hr & Hn & Hd) Hx. split_and!.
  - intros before request' run' after [(_ & _ & Hy) | (after' & _ & Hy)]%snoc_split; [done | by eapply Hr].
  - unfold attempted_ids in *. by rewrite omap_app, app_nil_r.
  - intros before e' d' kept' after [(_ & -> & [= -> -> ->]) | (after' & _ & Hy)]%snoc_split; [by eexists _, _ | by eapply Hd].
Qed.

(** The state of a dispatch: the identifiers it journaled are those of the
    log. *)
Definition at_ (events : list CaravanEvent) (journaled : gset EventId) (log : list HookEntry) : Prop :=
  lawful events log ∧ (∀ id, id ∈ journaled ↔ id ∈ attempted_ids log) ∧ (∀ id, id ∈ journaled → id ∈ journaled_ids log).

(** What a dispatch returns for the events, after deliveries it had already,
    and what it added to the log it began with. *)
Definition returns (events : list CaravanEvent) (deliveries : list HookDelivery) (before : list HookEntry)
    (r : result (list HookDelivery) AppError) (log : list HookEntry) : Prop :=
  match r with
  | Ok deliveries' =>
      ∃ more steps, deliveries' = deliveries ++ more ∧ Forall3 delivers (configured_events events) more steps
      ∧ hook_steps log = hook_steps before ++ concat steps
      ∧ Forall (λ d, blocks d = false) more ∧ (∀ e, e ∈ events → cv_event_id e ∈ journaled_ids log)
  | Err error => True
  end.

Lemma effective_json e hook : hook_request (effective_hook e hook) e = hook_request hook e.
Proof. unfold effective_hook, hook_request. by case_bool_decide. Qed.

Lemma journaled_mono log x id : id ∈ journaled_ids log → id ∈ journaled_ids (log ++ [x]).
Proof. unfold journaled_ids. rewrite omap_app. set_solver. Qed.

Lemma delivery_blocking e hook run : hd_blocking (delivery_of e hook run) = hk_blocking hook.
Proof. destruct run as [output | |]; cbn; [by destruct (is_success output) | done | done]. Qed.

(** Records only add to the log. *)
Definition grows (log log' : list HookEntry) : Prop := ∀ id, id ∈ journaled_ids log → id ∈ journaled_ids log'.
Lemma grows_snoc log x : grows log (log ++ [x]).
Proof. intros id. apply journaled_mono. Qed.

Lemma at_run all journaled log request run :
  at_ all journaled log → run_of all log request → at_ all journaled (log ++ [Ran_ request run]).
Proof.
  intros (Hl & Hj & Hk) Hr. split_and!; [by apply lawful_run | | by intros id Hid; apply journaled_mono, Hk].
  intros id. unfold attempted_ids. by rewrite omap_app, app_nil_r.
Qed.
Lemma at_delivery all journaled log e d x kept :
  at_ all journaled (log ++ [x]) → ran_for e d x → at_ all journaled ((log ++ [x]) ++ [DeliveryJournaled e d kept]).
Proof.
  intros (Hl & Hj & Hk) Hx. split_and!; [by apply lawful_delivery | | by intros id Hid; apply journaled_mono, Hk].
  intros id. unfold attempted_ids in *. by rewrite Hj, (omap_app _ (_ ++ _)), app_nil_r.
Qed.
Lemma hook_steps_app l1 l2 : hook_steps (l1 ++ l2) = hook_steps l1 ++ hook_steps l2.
Proof. apply List.filter_app. Qed.

Lemma holds_journal all journaled e log :
  e ∈ all → at_ all journaled log →
  holds exec_hook (lawful all)
    (if bool_decide (cv_event_id e ∈ journaled) then Ret (Ok ()) else perform (JournalEvent e))
    (λ r log', (grows log log' ∧ hook_steps log' = hook_steps log)
      ∧ match r with Ok _ => at_ all ({[cv_event_id e]} ∪ journaled) log' | Err _ => True end) log.
Proof.
  intros He (Hl & Hj & Hk). case_bool_decide as Hin; cbn.
  - split; [by split; [intros ? |] |]. assert ({[cv_event_id e]} ∪ journaled = journaled) as -> by set_solver. by split_and!.
  - intros c. rewrite Hj in Hin. split; [by apply lawful_event |].
    split; [split; [apply grows_snoc | by rewrite hook_steps_app, app_nil_r] |].
    destruct (ha_event c) as [[] |] eqn:Hc; cbn; [| done]. split_and!; [by apply lawful_event | |].
    + intros id. unfold attempted_ids. rewrite omap_app. cbn. rewrite elem_of_union, elem_of_singleton, Hj.
      rewrite elem_of_app, list_elem_of_singleton. tauto.
    + intros id [->%elem_of_singleton | Hid]%elem_of_union; [| by apply journaled_mono, Hk].
      unfold journaled_ids. rewrite omap_app. cbn. set_solver.
Qed.

Lemma holds_dispatch_event all journaled e configured log :
  e ∈ all → hooks (cv_kind e) = Some configured → cv_event_id e ∈ journaled → at_ all journaled log →
  holds exec_hook (lawful all) (dispatch_event (effective_hook e configured) e)
    (λ r log', grows log log'
      ∧ match r with
        | Ok d => at_ all journaled log' ∧ ∃ x, ran_for e d x ∧ log' = log ++ [x]
        | Err _ => True
        end) log.
Proof.
  intros He Hh Hid Hat. unfold dispatch_event. destruct (validate_event e); [| by split; [intros ? |]].
  destruct (event_json e) as [payload |] eqn:Hj; [| by split; [intros ? |]].
  destruct (MAX_EVENT_BYTES <? bytes_of payload)%N eqn:Hb; [by split; [intros ? |] |]. apply N.ltb_ge in Hb.
  cbn. intros c. rewrite effective_json.
  assert (run_of all log (hook_request configured e payload)) as Hr.
  { exists e, configured, payload. split_and!; try done. by apply Hat. }
  split; [apply lawful_run; [apply Hat | done] |]. split; [apply grows_snoc |]. split; [by apply at_run |].
  eexists. split; [| done]. by eexists configured, payload, _.
Qed.

Lemma holds_dispatch all journaled deliveries events log :
  (∀ e, e ∈ events → e ∈ all) → at_ all journaled log →
  holds exec_hook (lawful all) (dispatch_from hooks journaled deliveries events)
    (λ r log', returns events deliveries log r log' ∧ grows log log') log.
Proof.
  revert journaled deliveries log. induction events as [| e events IH]; intros journaled deliveries log Hall Hat.
  { cbn. split; [| by intros ?]. exists [], []. rewrite !app_nil_r. split_and!; [done | constructor | done | constructor | set_solver]. }
  assert (∀ e, e ∈ events → e ∈ all) as Hall' by set_solver.
  cbn [dispatch_from]. apply holds_try. eapply holds_mono; [| by apply holds_journal; [apply Hall; left |]].
  intros [[] | error] log1 [[Hg1 Hs1] Hat1]; [| done].
  assert (cv_event_id e ∈ journaled_ids log1) as Hid by (apply Hat1; set_solver).
  destruct (hooks (cv_kind e)) as [configured |] eqn:Hh.
  2: { eapply holds_mono; [| by apply IH]. intros r log2 [Hr Hg2]. split; [| by intros ? ?%Hg1%Hg2].
    destruct r as [ds |]; [| done]. destruct Hr as (more & steps & -> & Hm & Hs & Hb & Hall2). exists more, steps. split_and!; try done.
    - unfold configured_events. cbn. by rewrite Hh.
    - by rewrite Hs, Hs1.
    - intros x [-> | Hx]%elem_of_cons; [by apply Hg2 | by apply Hall2]. }
  apply holds_try. eapply holds_mono; [| eapply holds_dispatch_event; [apply Hall; by left | done | | exact Hat1]; set_solver].
  intros [d | error] log2 [Hg2 H2]; [| split; [done | by intros ? ?%Hg1%Hg2]]. destruct H2 as (Hat2 & x & Hx & ->).
  apply holds_try. cbn [holds perform]. intros c. cbn [exec_hook].
  split; [apply lawful_delivery; [apply Hat2 | done] |].
  destruct (ha_delivery c) as [[] |]; cbn [holds]; [| split; [done | by intros id Hin; apply journaled_mono, Hg2, Hg1]].
  destruct (negb _ && _) eqn:Hblock; [split; [done | by intros id Hin; apply journaled_mono, Hg2, Hg1] |].
  eapply holds_mono; [| by apply IH; [| apply at_delivery]]. intros r log4 [Hr Hg4].
  split; [| by intros id Hin; apply Hg4, journaled_mono, Hg2, Hg1].
  destruct r as [ds |]; [| done]. destruct Hr as (more & steps & -> & Hm & Hs & Hb & Hall2).
  eexists (_ :: more), (_ :: steps). rewrite <- (assoc (++)). split_and!; [done | | | |].
  - unfold configured_events. cbn. rewrite Hh. cbn. constructor; [by eexists | done].
  - rewrite Hs, !hook_steps_app, Hs1. destruct Hx as (cfg & payload & run & _ & _ & -> & _). cbn. by rewrite <- !(assoc (++)).
  - constructor; [| done]. unfold blocks. destruct Hx as (cfg & payload & run & Hcfg & _ & _ & ->).
    rewrite Hh in Hcfg. injection Hcfg as <-. by rewrite delivery_blocking.
  - intros y [-> | Hy]%elem_of_cons; [by apply Hg4, journaled_mono, Hg2 | by apply Hall2].
Qed.

(** C24. Whatever the journal, the hooks and the ends of their processes answer,
    also when the dispatch is killed: a hook runs only for an event of the list
    whose record the journal kept, with the payload of that event within the
    bound, no event is journaled twice, and a delivery that goes to the journal
    is what the run directly before it came to. A dispatch that returns journaled
    every event, ran the hook of every event that has one, once and in their
    order, and no other; it answers what these runs came to, keeps a record of
    each, and no blocking hook failed. *)
Theorem dispatch_is_journaled events choices :
  let ran := drive exec_hook choices (dispatch_events hooks events) [] in
  runs_journaled events ran.2 ∧ NoDup (attempted_ids ran.2) ∧ deliveries_ran ran.2
  ∧ ∀ deliveries, ran.1 = Some (Ok deliveries) →
      (∃ steps, Forall3 delivers (configured_events events) deliveries steps ∧ hook_steps ran.2 = concat steps)
      ∧ Forall (λ d, blocks d = false) deliveries
      ∧ ∀ e, e ∈ events → cv_event_id e ∈ journaled_ids ran.2.
Proof.
  assert (at_ events ∅ []) as Hat.
  { split_and!; [split_and!; [by intros [] | constructor | by intros []] | set_solver | set_solver]. }
  pose proof (holds_dispatch events ∅ [] events [] (λ e He, He) Hat) as Hd.
  destruct (drive_holds exec_hook _ _ _ choices [] (proj1 Hat) Hd) as [(H1 & H2 & H3) H4].
  cbn. split_and!; [done | done | done |]. intros deliveries Hr.
  apply H4 in Hr as [(more & steps & -> & Hm & Hs & Hb & Hall) _]. split_and!; [by exists steps | exact Hb | exact Hall].
Qed.

(** The detection of a conflict never fails a dispatch. *)
Lemma conflict_never_blocks e configured run :
  cv_kind e = ConflictDetected → blocks (delivery_of e (effective_hook e configured) run) = false.
Proof.
  intros Hk. unfold blocks. rewrite delivery_blocking. unfold effective_hook.
  rewrite (bool_decide_true (cv_kind e = ConflictDetected)) by done. apply andb_false_r.
Qed.
End delivery.
