(* ===== verification/Scheduler.v ===== *)
(** What a tick tells its scheduler: src/src/sync/decision.rs, with the types
    of src/src/sync.rs and the parts of its outputs that adjust the verdict.

    A successful tick is classified from the graph, the observed checks, the
    holds, the required runs and the quarantined caravans; the front of every
    queue that cannot proceed is named. A failed tick is classified from its
    error, and wakes a repair actor by at most one more event. *)

From Stdlib Require Import Ascii String.
From S2P Require Import Prelude Text Model Json Lineage RequiredRuns Graph Generation Selection Budget Mutations Landing Events Programs Command StackMerge Hooks.

#[local] Open Scope string_scope.
#[local] Open Scope list_scope.
#[local] Open Scope nat_scope.

(** ** Data *)

Inductive SchedulerDisposition := Healthy | WaitingCi | Held | RetryTick | ExternalDecision | OperatorAction.
#[export] Instance SchedulerDisposition_eq_dec : EqDecision SchedulerDisposition.
Proof. solve_decision. Defined.
Inductive SchedulerWakeClass := WakeNone | WakeRetryTick | WakeExternalDecision | WakeOperatorAction.
#[export] Instance SchedulerWakeClass_eq_dec : EqDecision SchedulerWakeClass.
Proof. solve_decision. Defined.

Record SyncMemberGeneration := mkMemberGeneration {
  sg_pr : PrNumber;
  sg_head : BranchSnapshot;
  sg_base : BranchSnapshot;
  sg_candidate : option MergeCandidateIdentity;
  sg_ci : option CiDisposition }.

Record SyncCaravanGeneration := mkCaravanGeneration {
  sc_caravan_id : PrNumber;
  sc_root : PrNumber;
  sc_tail : PrNumber;
  sc_members : list SyncMemberGeneration }.

Inductive HeadOfLineBlockKind := BlockConflict | BlockCiFailure | BlockMissingRequiredRuns | BlockInvalidGraph | BlockAdmissionRejected.
#[export] Instance HeadOfLineBlockKind_eq_dec : EqDecision HeadOfLineBlockKind.
Proof. solve_decision. Defined.
Definition block_kind_code (k : HeadOfLineBlockKind) : string :=
  match k with
  | BlockConflict => "conflict" | BlockCiFailure => "ci_failure"
  | BlockMissingRequiredRuns => "missing_required_runs" | BlockInvalidGraph => "invalid_graph"
  | BlockAdmissionRejected => "admission_rejected"
  end.

Record HeadOfLineStall := mkStall {
  hs_kind : HeadOfLineBlockKind;
  hs_caravan_id : option PrNumber;
  hs_blocking_pr : PrNumber;
  hs_position : nat;
  hs_blocked_prs : list PrNumber;
  hs_evidence : string;
  hs_remedies : list string;
  hs_fingerprint : string }.

Record NativeStackWait := mkNativeStackWait {
  nw_stack_number : N;
  nw_caravan_id : PrNumber;
  nw_blocking_pr : PrNumber;
  nw_blockers : list GitHubStackMergeBlocker;
  nw_deferred_members : list PrNumber }.

Record QuarantinedCaravan := mkQuarantined {
  qc_caravan_id : PrNumber;
  qc_code : string;
  qc_recovery : string }.

Record SyncSchedulerStatus := mkSchedulerStatus {
  ss_schema_version : N;
  ss_disposition : SchedulerDisposition;
  ss_wake_class : SchedulerWakeClass;
  ss_rebase_on_join : bool;
  ss_default_branch : BranchSnapshot;
  ss_caravans : list SyncCaravanGeneration;
  ss_waiting_prs : list PrNumber;
  ss_native_stack_waits : list NativeStackWait;
  ss_held_caravans : list PrNumber;
  ss_missing_required_runs : list MissingRequiredRunsProblem;
  ss_head_of_line : list HeadOfLineStall;
  ss_quarantined_caravans : list QuarantinedCaravan;
  ss_reason : string }.

Record SyncFailureSchedulerStatus := mkFailureStatus {
  sf_schema_version : N;
  sf_disposition : SchedulerDisposition;
  sf_wake_class : SchedulerWakeClass;
  sf_retryable : bool;
  sf_error_code : string }.

(** What the classification reads of a [StatusOutput]. *)
Record SchedulerInput := mkSchedulerInput {
  si_repository : RepositoryId;
  si_analysis : GraphAnalysis;
  si_admission : AdmissionStatus;
  si_merge_candidates : list MergeCandidateIdentity;
  si_quarantined_caravans : list QuarantinedCaravan }.

(** [collect] into a map: the last of several entries stays. *)
Definition collect_map {A} (entries : list (PrNumber * A)) : gmap PrNumber A :=
  foldl (λ m e, <[e.1 := e.2]> m) ∅ entries.

(** ** Head-of-line blocking *)

Definition member_remedies (kind : HeadOfLineBlockKind) (pr : PrNumber) : list string :=
  let release := fmt ["or release the front: `cara evict --pr "; show_pr pr; " --reason <text>`"] in
  match kind with
  | BlockConflict =>
      [fmt ["`cara repair start --pr "; show_pr pr; "` and resolve the exact typed conflict"]; release]
  | BlockCiFailure =>
      [fmt ["inspect the bounded run/job/step evidence for PR #"; show_pr pr; " and repair the source"];
       "or rerun only listed current-generation infrastructure runs with `cara sync --rerun-failed`"; release]
  | BlockMissingRequiredRuns =>
      [fmt ["trigger a fresh exact-head run for PR #"; show_pr pr; "; waiting alone never resolves it"]; release]
  | BlockInvalidGraph =>
      ["repair the reported structural graph problem before any further mutation";
       fmt ["or reshape with `cara split --pr "; show_pr pr; "` / `cara evict --pr "; show_pr pr; " --reason <text>`"]]
  | BlockAdmissionRejected => []
  end.

Section classification.
(** [serde_json::to_vec] on a JSON value. *)
Context (to_vec : Value → list N).
Context {Diag : Type}.
Implicit Types (status : SchedulerInput) (ci : list (CiObservation Diag)).

Definition stall_fingerprint status (caravan_id : option PrNumber) (blocking_pr : PrNumber) (kind : HeadOfLineBlockKind)
    (head_oid : option string) : string :=
  fnv1a64 (to_vec (json_object
    [("schema_version", json_N 1); ("repository", json_repository (si_repository status));
     ("caravan_id", json_option json_N caravan_id); ("blocking_pr", json_N blocking_pr);
     ("kind", VString (block_kind_code kind)); ("head_oid", json_option VString head_oid)])).

Definition is_failed_ci (o : CiObservation Diag) : bool := bool_decide (ob_disposition o = CiFailed).
Definition is_waiting_ci (o : CiObservation Diag) : bool := bool_decide (ob_disposition o = CiWaiting).

(** The problem that names a member, and why it is blocked. *)
Definition naming_problem status (pr : PrNumber) : option GraphProblem :=
  List.find (λ problem, mem pr (gp_prs problem))
    (List.filter (λ problem, negb (bool_decide (gp_prs problem = []))) (fl_problems (ga_fleet (si_analysis status)))).
Definition block_kind status ci (missing : list MissingRequiredRunsProblem) (pr : PrNumber) : option HeadOfLineBlockKind :=
  if mem pr (mp_pr <$> missing) then Some BlockMissingRequiredRuns
  else if mem pr (ob_pr <$> List.filter is_failed_ci ci) then Some BlockCiFailure
  else (λ problem, if bool_decide (gp_kind problem = Incompatible) then BlockConflict else BlockInvalidGraph)
         <$> naming_problem status pr.

(** [enumerate().find_map(..)]. *)
Fixpoint first_blocked (kind_of : PrNumber → option HeadOfLineBlockKind) (index : nat) (members : list PrNumber)
    : option (nat * PrNumber * HeadOfLineBlockKind) :=
  match members with
  | [] => None
  | pr :: members =>
      match kind_of pr with
      | Some kind => Some (index, pr, kind)
      | None => first_blocked kind_of (S index) members
      end
  end.

Definition stall_evidence (kind : HeadOfLineBlockKind) (pr : PrNumber) : string :=
  match kind with
  | BlockCiFailure => fmt ["PR #"; show_pr pr; " has terminal or unknown CI on its exact current head"]
  | BlockMissingRequiredRuns =>
      fmt ["PR #"; show_pr pr; " has required contexts with no reporting run on its exact head"]
  | _ => fmt ["PR #"; show_pr pr; " cannot proceed"]
  end.

Definition caravan_stall status ci (missing : list MissingRequiredRunsProblem) (c : Caravan) : option HeadOfLineStall :=
  match first_blocked (block_kind status ci missing) 0 (cv_members c) with
  | None => None
  | Some (index, blocking_pr, kind) =>
      Some (mkStall kind (Some (cv_id c)) blocking_pr (index + 1) (drop (index + 1) (cv_members c))
              (default (stall_evidence kind blocking_pr) (gp_message <$> naming_problem status blocking_pr))
              (member_remedies kind blocking_pr)
              (stall_fingerprint status (Some (cv_id c)) blocking_pr kind
                 ((λ pull, br_oid (pr_head pull)) <$> ga_pull_requests (si_analysis status) !! blocking_pr)))
  end.

Definition admission_stall status : option HeadOfLineStall :=
  match List.find rj_blocks_order (as_rejected (si_admission status)) with
  | None => None
  | Some rejected =>
      if negb (bool_decide (as_next_candidate (si_admission status) = Some (rj_pr rejected))) then None
      else Some (mkStall BlockAdmissionRejected None (rj_pr rejected) 1 (ac_pr <$> as_candidates (si_admission status))
        (rj_reason rejected)
        [fmt ["resolve the exact reported condition on PR #"; show_pr (rj_pr rejected);
              "; ordering never leapfrogs an eligible attempt"];
         fmt ["or make it ineligible on purpose: `cara priority clear --pr "; show_pr (rj_pr rejected);
              " --actor A --reason R`, close it, or repair its metadata"]]
        (stall_fingerprint status None (rj_pr rejected) BlockAdmissionRejected None))
  end.

Definition head_of_line_stalls status ci (missing : list MissingRequiredRunsProblem) : list HeadOfLineStall :=
  omap (caravan_stall status ci missing) (fl_caravans (ga_fleet (si_analysis status)))
  ++ option_list (admission_stall status).

(** ** A successful tick *)

Definition member_generation status ci (number : PrNumber) : option SyncMemberGeneration :=
  pull_request ← ga_pull_requests (si_analysis status) !! number;
  Some (mkMemberGeneration number (pr_head pull_request) (pr_base pull_request)
          (collect_map ((λ candidate, (Model.mc_pr candidate, candidate)) <$> si_merge_candidates status) !! number)
          (collect_map ((λ o, (ob_pr o, ob_disposition o)) <$> ci) !! number)).
(** [None] is the panic of [expect]. *)
Definition caravan_generation status ci (c : Caravan) : option SyncCaravanGeneration :=
  root ← caravan_head c;
  tail ← caravan_tail c;
  Some (mkCaravanGeneration (cv_id c) root tail (omap (member_generation status ci) (cv_members c))).

Definition push_waiting (waiting : list PrNumber) (receipt : RequiredRunsReceipt) : list PrNumber :=
  if bool_decide (ra_status (rp_assessment receipt) = AwaitingGrace) && negb (mem (rp_pr receipt) waiting)
  then waiting ++ [rp_pr receipt] else waiting.
Definition waiting_prs_of ci (required_runs : list RequiredRunsReceipt) : list PrNumber :=
  vec_dedup (vec_sort (foldl push_waiting (ob_pr <$> List.filter is_waiting_ci ci) required_runs)).

Definition operator_action_reason : string :=
  "one or more caravan members have required contexts with no reporting run on their exact current head; this never resolves by waiting".
Definition quarantined_reason : string :=
  "one or more caravans are quarantined: their native Stack needs repair automatic sync will not perform; other caravans and admission continue, and quarantined_caravans names the exact recovery command".
Definition unknown_provider_reason : string :=
  "required-run coverage could not be proven from a partial provider read; rerun the same bounded tick".
Definition waiting_reason : string :=
  "fresh or pending CI is the only incomplete condition; do not wake a repair actor".
Definition head_of_line_reason : string :=
  "the front of a queue cannot proceed; repair, reshape, or evict the exact blocking member named in head_of_line".
Definition held_reason : string :=
  "one or more caravans are intentionally held; only explicit resume may release them".
Definition healthy_reason : string :=
  "the exact provider graph and selected root-to-tail generations are converged".

Definition is_nil {A} (l : list A) : bool := match l with [] => true | _ => false end.

Definition scheduler_verdict (missing : list MissingRequiredRunsProblem) (quarantined : list QuarantinedCaravan)
    (waiting : list PrNumber) (stalls : list HeadOfLineStall) (held : list PrNumber)
    : SchedulerDisposition * SchedulerWakeClass * string :=
  let operator_action := existsb mp_operator_action_required missing in
  let unknown_provider_state := negb (is_nil missing) && negb operator_action in
  if operator_action then (OperatorAction, WakeOperatorAction, operator_action_reason)
  else if negb (is_nil quarantined) then (ExternalDecision, WakeExternalDecision, quarantined_reason)
  else if unknown_provider_state then (RetryTick, WakeRetryTick, unknown_provider_reason)
  else if negb (is_nil waiting) then (WaitingCi, WakeNone, waiting_reason)
  else if negb (is_nil stalls) then (ExternalDecision, WakeExternalDecision, head_of_line_reason)
  else if negb (is_nil held) then (Held, WakeNone, held_reason)
  else (Healthy, WakeNone, healthy_reason).

Definition successful_scheduler_status status ci (paused : list (PauseState * PrNumber)) (rebase_on_join : bool)
    (required_runs : list RequiredRunsReceipt) (missing : list MissingRequiredRunsProblem) : option SyncSchedulerStatus :=
  caravans ← mapM (caravan_generation status ci) (fl_caravans (ga_fleet (si_analysis status)));
  let waiting := waiting_prs_of ci required_runs in
  let held := snd <$> paused in
  let stalls := head_of_line_stalls status ci missing in
  let '(disposition, wake_class, reason) := scheduler_verdict missing (si_quarantined_caravans status) waiting stalls held in
  Some (mkSchedulerStatus 1 disposition wake_class rebase_on_join (fl_default_branch (ga_fleet (si_analysis status)))
          caravans waiting [] held missing stalls (si_quarantined_caravans status) reason).
End classification.

(** ** The verdicts of the partial ticks *)

Definition with_verdict (disposition : SchedulerDisposition) (wake_class : SchedulerWakeClass) (reason : string)
    (s : SyncSchedulerStatus) : SyncSchedulerStatus :=
  mkSchedulerStatus (ss_schema_version s) disposition wake_class (ss_rebase_on_join s) (ss_default_branch s)
    (ss_caravans s) (ss_waiting_prs s) (ss_native_stack_waits s) (ss_held_caravans s) (ss_missing_required_runs s)
    (ss_head_of_line s) (ss_quarantined_caravans s) reason.
Definition with_native_stack_waits (waits : list NativeStackWait) (s : SyncSchedulerStatus) : SyncSchedulerStatus :=
  mkSchedulerStatus (ss_schema_version s) (ss_disposition s) (ss_wake_class s) (ss_rebase_on_join s) (ss_default_branch s)
    (ss_caravans s) (ss_waiting_prs s) waits (ss_held_caravans s) (ss_missing_required_runs s)
    (ss_head_of_line s) (ss_quarantined_caravans s) (ss_reason s).
Definition is_healthy (s : SyncSchedulerStatus) : bool := bool_decide (ss_disposition s = Healthy).

(** [record_native_stack_wait]: the members behind the blocking one. *)
Fixpoint members_behind (blocking_pr : PrNumber) (members : list PrNumber) : list PrNumber :=
  match members with
  | [] => []
  | pr :: members => if N.eqb pr blocking_pr then members else members_behind blocking_pr members
  end.
Definition native_stack_wait (c : Caravan) (stack_number : N) (blocking_pr : PrNumber)
    (blockers : list GitHubStackMergeBlocker) : NativeStackWait :=
  mkNativeStackWait stack_number (cv_id c) blocking_pr blockers (members_behind blocking_pr (cv_members c)).

(** Of [root_first_output]. *)
Definition waiting_only (native_prefix changed : bool) (landings : nat) : bool :=
  native_prefix && negb changed && (landings =? 0).
Definition root_first_scheduler (native_prefix changed : bool) (landings merges : nat) (waits : list NativeStackWait)
    (s : SyncSchedulerStatus) : SyncSchedulerStatus :=
  let s := with_native_stack_waits waits s in
  if waiting_only native_prefix changed landings then
    let reason := fmt ["native Stack prefix waiting; descendant CI and admission deferred: "; ss_reason s] in
    if is_healthy s then with_verdict RetryTick WakeRetryTick reason s
    else with_verdict (ss_disposition s) (ss_wake_class s) reason s
  else
    with_verdict RetryTick WakeRetryTick
      (if native_prefix
       then "advanced native Stack prefix convergence before descendant replay; rerun the next bounded tick from the durable provider cursor"
       else fmt ["landed "; show_nat merges;
                 " exact green Cara-owned root(s) before whole-fleet analysis; rerun the next bounded tick from the durable provider cursor"]) s.

(** Of [closed_lifecycle_output]. *)
Definition closed_lifecycle_scheduler (transitions : nat) (s : SyncSchedulerStatus) : SyncSchedulerStatus :=
  if is_healthy s then
    with_verdict RetryTick WakeRetryTick
      (fmt ["converged "; show_nat transitions;
            " closed lifecycle row(s); active repair, rebase, admission, and merge work is deferred to the next tick"]) s
  else s.

(** Of the output of a bounded physical prefix. *)
Definition bounded_prefix_scheduler (admitted deferred : nat) (s : SyncSchedulerStatus) : SyncSchedulerStatus :=
  with_verdict RetryTick WakeRetryTick
    (if deferred =? 0
     then fmt ["applied the complete approved graph ("; show_nat admitted;
               " member(s)) and deferred ordinary convergence to the next tick; completed receipts are durable and are never replayed"]
     else fmt ["applied an exact verified prefix of "; show_nat admitted; " member(s) and deferred "; show_nat deferred;
               " member(s) plus ordinary convergence to the next tick; completed receipts are durable and are never replayed"]) s.

(** ** A failed tick *)

Inductive DecisionKind :=
  HeadConflict | LinkConflict | CrossCaravanConflict | CiFailure | InvalidGraph | StalePrecondition | UnsafeCheckout
| HookFailure | ForceMergeDenied.
#[export] Instance DecisionKind_eq_dec : EqDecision DecisionKind.
Proof. solve_decision. Defined.

(** Without the steps, the hints and [resumable], which nothing here reads. *)
Record DecisionPoint := mkDecisionPoint {
  dp_kind : DecisionKind;
  dp_operation_id : OperationId;
  dp_repository : RepositoryId;
  dp_caravan_id : option PrNumber;
  dp_affected_prs : list PrNumber;
  dp_message : string;
  dp_evidence : gmap string Value }.

(** [serde_json] on the data of this module; of the rebase plans and receipts
    only the requests they name are read. *)
Class SchedulerCodec := {
  decision_from_value : Value → option DecisionPoint;
  failure_status_value : SyncFailureSchedulerStatus → Value;
  failure_status_from_value : Value → option SyncFailureSchedulerStatus;
  category_value : ErrorCategory → Value;
  fleet_from_value : Value → option CaravanFleet;
  repository_from_value : Value → option RepositoryId;
  plan_prs_from_value : Value → option (list PrNumber);
  receipt_prs_from_value : Value → option (list PrNumber);
  pull_request_from_value : Value → option PullRequestSnapshot;
  pull_requests_from_value : Value → option (list PullRequestSnapshot) }.

Definition external_codes : list string :=
  ["rebase_conflict"; "rebase_nonlinear_range"; "rebase_range_ambiguous"; "rebase_empty_patch_range";
   "rebase_target_history_changed"; "rebase_repository_not_owned"; "rebase_historical_target_mismatch";
   "rebase_historical_parent_mismatch"; "rebase_historical_source_mismatch"; "rebase_unsupported_octopus";
   "rebase_topology_limit"; "rebase_external_merge_parents"; "rebase_cousin_history"; "rebase_merge_tree_conflict";
   "rebase_merge_replay_conflict"; "rebase_merge_tree_mismatch"; "rebase_topology_changed"; "rebase_midpoint_head_stale";
   "rebase_midpoint_pr_missing"; "rebase_prepared_object_changed"; "rebase_result_invalid"; "rebase_worker_panicked";
   "github_stack_partial_prefix_requires_tail_eviction"; "github_stack_caravan_mapping_ambiguous";
   "github_stack_capability_not_proven"; "github_stack_inventory_truncated"; "github_stack_generation_drifted";
   "github_stack_routing_read_refused"; "github_stack_membership_detected_during_owned_merge";
   "github_stack_auto_recovery_ambiguous"; "github_stack_recovery_source_rewrite_required";
   "github_stack_recovery_backend_unhealthy"].
Definition operator_codes : list string :=
  ["default_branch_not_protected"; "stale_repository_policy"; "invalid_tick_bounds"; "physical_sync_budget_insufficient";
   "rebase_ci_trigger_missing"; "repository_not_initialized"; "squash_merge_not_enabled"; "unsafe_checkout";
   "github_stack_repository_not_opted_in"; "github_stack_convergence_deadline_exceeded"].

Section failure.
Context (to_vec : Value → list N).
Context `{!SchedulerCodec, !HookCodec}.

Definition decision_of (error : AppError) : option DecisionPoint :=
  details ← er_details error;
  v ← get "decision" details;
  decision_from_value v.

Definition retry_class : SchedulerDisposition * SchedulerWakeClass * bool := (RetryTick, WakeRetryTick, true).
Definition external_class : SchedulerDisposition * SchedulerWakeClass * bool := (ExternalDecision, WakeExternalDecision, false).
Definition operator_class : SchedulerDisposition * SchedulerWakeClass * bool := (OperatorAction, WakeOperatorAction, false).

Definition is_resumable (error : AppError) : bool :=
  match er_details error with
  | Some details => default true (match get "resumable" details with Some v => as_bool v | None => None end)
  | None => true
  end.

Definition failure_class (error : AppError) : SchedulerDisposition * SchedulerWakeClass * bool :=
  match dp_kind <$> decision_of error with
  | Some StalePrecondition => retry_class
  | Some UnsafeCheckout | Some HookFailure => operator_class
  | Some _ => external_class
  | None =>
      if mem (er_code error) external_codes then external_class
      else if String.eqb (er_code error) "root_merge_refused" then
        if is_resumable error then retry_class else external_class
      else if mem (er_code error) operator_codes then operator_class
      else retry_class
  end.
Definition scheduler_failure_status (error : AppError) : SyncFailureSchedulerStatus :=
  let '(disposition, wake_class, retryable) := failure_class error in
  mkFailureStatus 1 disposition wake_class retryable (er_code error).

Definition field_or_null (key : string) (details : Value) : Value := default VNull (get key details).
Definition scheduler_decision_fingerprint (error : AppError) : string :=
  let details := details_or_empty error in
  let field key := (key, field_or_null key details) in
  let fingerprint :=
    if String.eqb (er_code error) "ci_failure" then
      opt_filter (starts_with "fnv1a64:")
        (match get_in ["decision"; "evidence"; "force_intent"; "failure_fingerprint"] details with
         | Some v => as_str v
         | None => None
         end)
    else None in
  match fingerprint with
  | Some fingerprint => fingerprint
  | None =>
      fnv1a64 (to_vec (json_object
        [("error_code", VString (er_code error)); field "repository"; field "caravan_id"; field "affected_prs"; field "pr";
         field "merge_oids"; field "rebase_plans"; field "decision"]))
  end.

Definition attach_scheduler_failure (error : AppError) (s : SyncFailureSchedulerStatus) : AppError :=
  mkAppError (er_category error) (er_code error) (er_message error)
    (Some match details_or_empty error with
          | VObject fields =>
              let fields := map_insert "scheduler_status" (failure_status_value s) fields in
              VObject (if bool_decide (sf_wake_class s = WakeExternalDecision)
                       then map_insert "decision_fingerprint" (VString (scheduler_decision_fingerprint error)) fields
                       else fields)
          | details => json_object [("original_details", details); ("scheduler_status", failure_status_value s)]
          end).

(** The event of a failed tick, with the identifier and the time given. *)
Definition event_metadata (fields : list (string * Value)) : gmap string Value := list_to_map fields.

Definition named_prs (details : Value) : list PrNumber :=
  let read {A} (key : string) (decode : Value → option A) : option A :=
    match get key details with Some v => decode v | None => None end in
  bs_elems (list_to_set (option_list (read "pr" pr_from_value))
            ∪ list_to_set (default [] (read "affected_prs" prs_from_value))
            ∪ list_to_set (default [] (read "rebase_plans" plan_prs_from_value))
            ∪ list_to_set (default [] (read "rebase_receipts" receipt_prs_from_value)) : gset PrNumber).

Definition sync_failed_event (error : AppError) (event_id : EventId) (unix_millis : string) (operation_id : OperationId)
    : option CaravanEvent :=
  details ← er_details error;
  match decision_of error return option CaravanEvent with
  | Some decision =>
      Some (new_event event_id unix_millis SyncFailed (dp_operation_id decision) (dp_repository decision)
              (dp_caravan_id decision) (dp_affected_prs decision)
              (match dp_evidence decision !! "fleet" with Some v => fleet_from_value v | None => None end)
              (Some (dp_message decision))
              (event_metadata [("error_code", VString (er_code error));
                               ("scheduler_status", field_or_null "scheduler_status" details);
                               ("decision_fingerprint", field_or_null "decision_fingerprint" details)]))
  | None =>
      v ← get "scheduler_status" details;
      s ← failure_status_from_value v;
      if negb (bool_decide (sf_wake_class s = WakeExternalDecision)) then None
      else
        r ← get "repository" details;
        repository ← repository_from_value r;
        Some (new_event event_id unix_millis SyncFailed (default operation_id (operation_id_from_error error)) repository
                (match get "caravan_id" details with Some v => pr_from_value v | None => None end)
                (named_prs details) None (Some (er_message error))
                (event_metadata [("error_code", VString (er_code error)); ("scheduler_status", failure_status_value s);
                                 ("provider_invariant", VBool (is_some_b (get "rebase_receipts" details)));
                                 ("decision_fingerprint", field_or_null "decision_fingerprint" details)]))
  end.

(** ** The checkout of a decision *)

Definition decision_checkout_target (decision : DecisionPoint) : option PrNumber :=
  match dp_kind decision with
  | HeadConflict | CiFailure => head (dp_affected_prs decision)
  | LinkConflict => last (dp_affected_prs decision)
  | _ => None
  end.

Definition decision_checkout_pull_request (decision : DecisionPoint) (target : PrNumber) : option PullRequestSnapshot :=
  let of_key {A} (key : string) (decode : Value → option A) : option A :=
    match dp_evidence decision !! key with Some v => decode v | None => None end in
  opt_or
    (opt_filter (λ pull_request, N.eqb (pr_number pull_request) target) (of_key "pull_request" pull_request_from_value))
    (match of_key "pull_requests" pull_requests_from_value with
     | Some pull_requests => List.find (λ pull_request, N.eqb (pr_number pull_request) target) pull_requests
     | None => None
     end).

Definition attach_checkout_evidence (error : AppError) (details checkout : Value) : AppError :=
  mkAppError (er_category error) (er_code error) (er_message error)
    (Some match details with
          | VObject fields => VObject (map_insert "checkout" checkout fields)
          | details => details
          end).

(** ** One recorded tick *)

(** What the tick around the transaction asks for: the transaction itself, the
    checkout of the affected request (its answer is the JSON of the recovered
    lock), fresh identifiers and time, and the delivery of events. *)
Inductive TickOp : Type → Type :=
| SyncWithoutHooks : TickOp (result (list CaravanEvent) AppError)
| CheckoutDecision (pull_request : PullRequestSnapshot) : TickOp (result Value AppError)
| FreshEvent : TickOp (EventId * string * OperationId)
| Deliver {R} (op : HookOp R) : TickOp R.
#[local] Open Scope prog_scope.

Definition checkout_for_decision (checkout_on_decision : bool) (error : AppError) : Prog TickOp AppError :=
  match er_details error, decision_of error with
  | Some details, Some decision =>
      match decision_checkout_target decision with
      | None => Ret error
      | Some target =>
          if negb checkout_on_decision then
            Ret (attach_checkout_evidence error details (json_object
              [("state", VString "skipped"); ("pr", json_N target);
               ("reason", VString "sync.checkout_on_decision is disabled, so the working tree is left on its base");
               ("next", VString "check out the affected PR explicitly to repair it, or re-enable sync.checkout_on_decision for interactive use")]))
          else
            match decision_checkout_pull_request decision target with
            | None =>
                Ret (attach_checkout_evidence error details (json_object
                  [("state", VString "skipped"); ("pr", json_N target);
                   ("error", json_object [("category", VString "validation");
                                          ("code", VString "decision_checkout_snapshot_missing");
                                          ("message", VString "the decision did not preserve the affected PR snapshot")]);
                   ("next", VString "rediscover status and check out the affected PR before repairing the decision")]))
            | Some pull_request =>
                let! checkout := perform (CheckoutDecision pull_request) in
                Ret (attach_checkout_evidence error details
                  match checkout with
                  | Ok lock_recovery =>
                      json_object [("state", VString "completed"); ("pr", json_N target);
                                   ("branch", VString (br_name (pr_head pull_request)));
                                   ("oid", VString (br_oid (pr_head pull_request))); ("lock_recovery", lock_recovery)]
                  | Err refused =>
                      json_object [("state", VString "skipped"); ("pr", json_N target);
                                   ("error", json_object [("category", category_value (er_category refused));
                                                          ("code", VString (er_code refused));
                                                          ("message", VString (er_message refused));
                                                          ("details", default VNull (er_details refused))]);
                                   ("next", VString "make the local worktree safe, then check out the affected PR before repairing the decision")]
                  end)
            end
      end
  | _, _ => Ret error
  end.

Definition wakes_repair (event : CaravanEvent) : bool :=
  bool_decide (cv_kind event = CiFailedEvent) || bool_decide (cv_kind event = SyncFailed).

(** The events of a failed tick, and its error. *)
Definition failed_tick (checkout_on_decision : bool) (error : AppError) : Prog TickOp (AppError * list CaravanEvent) :=
  let! error := checkout_for_decision checkout_on_decision error in
  let s := scheduler_failure_status error in
  let error := attach_scheduler_failure error s in
  let events := events_from_error error in
  if negb (existsb wakes_repair events) && bool_decide (sf_wake_class s = WakeExternalDecision) then
    let! fresh := perform FreshEvent in
    let '(event_id, unix_millis, operation_id) := fresh in
    Ret (error, events ++ option_list (sync_failed_event error event_id unix_millis operation_id))
  else Ret (error, events).

Definition deliver {A} (p : Prog HookOp A) : Prog TickOp A := embed (λ R op, Deliver op) p.

(** [sync_recorded] past the validation of its input; [closed_pr] is a
    metadata-only cleanup. *)
Definition sync_recorded (hooks : EventKind → option HookConfig) (checkout_on_decision closed_pr : bool)
    : Prog TickOp (result (list HookDelivery) AppError) :=
  let! outcome := perform SyncWithoutHooks in
  if closed_pr then Ret (match outcome with Ok _ => Ok [] | Err error => Err error end)
  else
    match outcome with
    | Ok events => deliver (dispatch_events hooks events)
    | Err error =>
        let! failed := failed_tick checkout_on_decision error in
        let? deliveries := deliver (dispatch_events hooks failed.2) in
        Ret (Err (attach_deliveries failed.1 deliveries))
    end.
End failure.
