(* ===== verification/SchedulerProofs.v ===== *)
(** What the scheduler is told: when a tick is healthy, which members the
    front of a queue is blocked by, and that the class of a failure is stable. *)

From Stdlib Require Import Ascii String.
From S2P Require Import Prelude Text TextProofs Model Json Lineage RequiredRuns Graph Generation Selection Budget Landing Events Programs Command Hooks Scheduler.

#[local] Open Scope string_scope.
#[local] Open Scope list_scope.
#[local] Open Scope nat_scope.

Lemma is_nil_true {A} (l : list A) : is_nil l = true ↔ l = [].
Proof. by destruct l. Qed.
Lemma not_nil_false {A} (l : list A) : negb (is_nil l) = false ↔ l = [].
Proof. by destruct l. Qed.

Section status.
Context (to_vec : Value → list N).
Context {Diag : Type}.
Implicit Types (status : SchedulerInput) (ci : list (CiObservation Diag)) (missing : list MissingRequiredRunsProblem).

(** ** Why a member is stuck *)

Definition lacks_runs missing (pr : PrNumber) : Prop := ∃ p, p ∈ missing ∧ mp_pr p = pr.
Definition failed_ci ci (pr : PrNumber) : Prop := ∃ o, o ∈ ci ∧ ob_pr o = pr ∧ ob_disposition o = CiFailed.
Definition named_by status (pr : PrNumber) (p : GraphProblem) : Prop :=
  p ∈ fl_problems (ga_fleet (si_analysis status)) ∧ pr ∈ gp_prs p.
Definition stuck status ci missing (pr : PrNumber) : Prop :=
  lacks_runs missing pr ∨ failed_ci ci pr ∨ ∃ p, named_by status pr p.
(** The class of the block: missing runs before failed checks before the
    first problem that names the member. *)
Definition kind_is status ci missing (pr : PrNumber) (k : HeadOfLineBlockKind) : Prop :=
  match k with
  | BlockMissingRequiredRuns => lacks_runs missing pr
  | BlockCiFailure => failed_ci ci pr ∧ ¬ lacks_runs missing pr
  | BlockConflict => (∃ p, named_by status pr p ∧ gp_kind p = Incompatible) ∧ ¬ lacks_runs missing pr ∧ ¬ failed_ci ci pr
  | BlockInvalidGraph => (∃ p, named_by status pr p ∧ gp_kind p ≠ Incompatible) ∧ ¬ lacks_runs missing pr ∧ ¬ failed_ci ci pr
  | BlockAdmissionRejected => False
  end.

Lemma mem_missing missing pr : mem pr (mp_pr <$> missing) = true ↔ lacks_runs missing pr.
Proof. rewrite mem_true, list_elem_of_fmap. unfold lacks_runs. naive_solver. Qed.

Lemma mem_failed ci pr : mem pr (ob_pr <$> List.filter is_failed_ci ci) = true ↔ failed_ci ci pr.
Proof.
  rewrite mem_true, list_elem_of_fmap. unfold failed_ci. setoid_rewrite elem_of_list_filter_b.
  unfold is_failed_ci. setoid_rewrite bool_decide_eq_true. naive_solver.
Qed.

Lemma naming_problem_some status pr p : naming_problem status pr = Some p → named_by status pr p.
Proof.
  intros [[Hin _]%elem_of_list_filter_b Hpr%mem_true]%find_some_iff. by split.
Qed.

Lemma naming_problem_none status pr : naming_problem status pr = None ↔ ∀ p, ¬ named_by status pr p.
Proof.
  split.
  - intros H p [Hin Hpr]. apply (find_none_iff _ _) with (x := p) in H; [by apply mem_false in H |].
    apply elem_of_list_filter_b. split; [done |]. by destruct (gp_prs p); [apply elem_of_nil in Hpr |].
  - intros H. destruct (naming_problem status pr) as [p |] eqn:Hp; [| done].
    apply naming_problem_some in Hp. by destruct (H p).
Qed.

Lemma block_kind_some status ci missing pr k :
  block_kind status ci missing pr = Some k → stuck status ci missing pr ∧ kind_is status ci missing pr k.
Proof.
  unfold block_kind, stuck. destruct (mem pr (mp_pr <$> missing)) eqn:Hm.
  { apply mem_missing in Hm. intros [= <-]. by split; [left |]. }
  assert (¬ lacks_runs missing pr) as Hm' by by rewrite <- mem_missing, Hm.
  destruct (mem pr (ob_pr <$> _)) eqn:Hf.
  { apply mem_failed in Hf. intros [= <-]. by split; [right; left |]. }
  assert (¬ failed_ci ci pr) as Hf' by by rewrite <- mem_failed, Hf.
  intros (p & Hp%naming_problem_some & ->)%fmap_Some. split; [right; right; by exists p |].
  case_bool_decide; cbn; eauto 10.
Qed.

Lemma block_kind_none status ci missing pr : block_kind status ci missing pr = None ↔ ¬ stuck status ci missing pr.
Proof.
  split.
  - unfold block_kind, stuck. destruct (mem pr (mp_pr <$> missing)) eqn:Hm; [done |].
    destruct (mem pr (ob_pr <$> _)) eqn:Hf; [done |].
    intros Hn%fmap_None. rewrite naming_problem_none in Hn. rewrite <- mem_missing, <- mem_failed, Hm, Hf. naive_solver.
  - intros H. destruct (block_kind status ci missing pr) eqn:Hk; [| done]. by apply block_kind_some in Hk as [? _].
Qed.

(** ** The front of a queue *)

Lemma first_blocked_some kind_of i l index pr k :
  first_blocked kind_of i l = Some (index, pr, k) →
  ∃ front behind, l = front ++ pr :: behind ∧ index = i + length front ∧ kind_of pr = Some k
  ∧ Forall (λ x, kind_of x = None) front.
Proof.
  revert i. induction l as [| x l IH]; intros i; cbn; [done |]. destruct (kind_of x) eqn:Hx.
  - intros [= <- <- <-]. exists [], l. cbn. split_and!; [done | lia | done | constructor].
  - intros (front & behind & -> & -> & Hk & Hf)%IH. exists (x :: front), behind. cbn. split_and!; [done | lia | done |].
    by constructor.
Qed.

Lemma first_blocked_app kind_of i front pr behind k :
  Forall (λ x, kind_of x = None) front → kind_of pr = Some k →
  first_blocked kind_of i (front ++ pr :: behind) = Some (i + length front, pr, k).
Proof.
  intros Hf Hk. revert i. induction Hf as [| x front Hx Hf IH]; intros i; cbn; [rewrite Hk | rewrite Hx, IH]; do 3 f_equal; lia.
Qed.

Lemma caravan_stall_some status ci missing c stall :
  caravan_stall to_vec status ci missing c = Some stall →
  hs_caravan_id stall = Some (cv_id c)
  ∧ ∃ front, cv_members c = front ++ hs_blocking_pr stall :: hs_blocked_prs stall
    ∧ hs_position stall = length front + 1
    ∧ Forall (λ pr, ¬ stuck status ci missing pr) front
    ∧ stuck status ci missing (hs_blocking_pr stall) ∧ kind_is status ci missing (hs_blocking_pr stall) (hs_kind stall).
Proof.
  unfold caravan_stall. destruct (first_blocked _ _ _) as [[[index pr] k] |] eqn:Hb; [| done]. intros [= <-]. cbn.
  apply first_blocked_some in Hb as (front & behind & Hm & -> & Hk & Hf). split; [done |]. exists front.
  apply block_kind_some in Hk as [Hs Hk]. split_and!; try done.
  - rewrite Hm. do 2 f_equal. rewrite cons_middle, (assoc (++)). symmetry. apply drop_app_length'.
    rewrite length_app. cbn. lia.
  - eapply Forall_impl; [exact Hf |]. intros x. apply block_kind_none.
Qed.

Lemma caravan_stall_none status ci missing c :
  caravan_stall to_vec status ci missing c = None ↔ ∀ pr, pr ∈ cv_members c → ¬ stuck status ci missing pr.
Proof.
  unfold caravan_stall. destruct (first_blocked _ _ _) as [[[index pr] k] |] eqn:Hb; split; try done.
  - apply first_blocked_some in Hb as (front & behind & Hm & _ & Hk%block_kind_some & _). intros H.
    destruct (H pr); [rewrite Hm; set_solver | tauto].
  - intros _ pr Hpr. apply block_kind_none. destruct (block_kind status ci missing pr) as [k |] eqn:Hk; [| done]. exfalso.
    generalize 0 Hb. clear Hb. induction (cv_members c) as [| x l IH]; [by apply elem_of_nil in Hpr |]. cbn. intros i.
    destruct (block_kind status ci missing x) eqn:Hx; [done |].
    apply elem_of_cons in Hpr as [-> | Hpr]; [congruence |]. by apply IH.
Qed.

Lemma admission_stall_some status stall :
  admission_stall to_vec status = Some stall →
  hs_caravan_id stall = None ∧ hs_kind stall = BlockAdmissionRejected ∧ hs_position stall = 1
  ∧ as_next_candidate (si_admission status) = Some (hs_blocking_pr stall)
  ∧ hs_blocked_prs stall = ac_pr <$> as_candidates (si_admission status)
  ∧ ∃ r, r ∈ as_rejected (si_admission status) ∧ rj_blocks_order r = true ∧ rj_pr r = hs_blocking_pr stall
      ∧ hs_evidence stall = rj_reason r.
Proof.
  unfold admission_stall. destruct (List.find _ _) as [r |] eqn:Hr; [| done]. apply find_some_iff in Hr as [Hin Hb].
  case_bool_decide as Hn; [| done]. intros [= <-]. cbn. eauto 10.
Qed.

Lemma admission_stall_none status :
  admission_stall to_vec status = None ↔
  ∀ r, List.find rj_blocks_order (as_rejected (si_admission status)) = Some r →
       as_next_candidate (si_admission status) ≠ Some (rj_pr r).
Proof. unfold admission_stall. destruct (List.find _ _) as [r |]; [case_bool_decide |]; naive_solver. Qed.

(** A stall of a caravan names its first stuck member, with the class of its
    block, its place and the members behind it; a stall without a caravan is the
    next candidate, whose rejection may not be passed. Every caravan with a
    stuck member has its stall. *)
Theorem head_of_line_is_exact status ci missing :
  let stalls := head_of_line_stalls to_vec status ci missing in
  let caravans := fl_caravans (ga_fleet (si_analysis status)) in
  (∀ stall, stall ∈ stalls →
    (∃ c front, c ∈ caravans ∧ hs_caravan_id stall = Some (cv_id c)
      ∧ cv_members c = front ++ hs_blocking_pr stall :: hs_blocked_prs stall ∧ hs_position stall = length front + 1
      ∧ Forall (λ pr, ¬ stuck status ci missing pr) front ∧ stuck status ci missing (hs_blocking_pr stall)
      ∧ kind_is status ci missing (hs_blocking_pr stall) (hs_kind stall))
    ∨ (hs_caravan_id stall = None ∧ hs_kind stall = BlockAdmissionRejected
      ∧ as_next_candidate (si_admission status) = Some (hs_blocking_pr stall)
      ∧ ∃ r, r ∈ as_rejected (si_admission status) ∧ rj_blocks_order r = true ∧ rj_pr r = hs_blocking_pr stall))
  ∧ (∀ c pr, c ∈ caravans → pr ∈ cv_members c → stuck status ci missing pr →
      ∃ stall, stall ∈ stalls ∧ hs_caravan_id stall = Some (cv_id c)).
Proof.
  cbn. split; [intros stall [Hin | Hin]%elem_of_app |].
  - apply list_elem_of_omap in Hin as (c & Hc & (Hid & front & Hm & Hp & Hf & Hs & Hk)%caravan_stall_some). left. eauto 12.
  - right. destruct (admission_stall to_vec status) as [s |] eqn:Ha; cbn in Hin; [| by apply elem_of_nil in Hin].
    apply list_elem_of_singleton in Hin as ->. apply admission_stall_some in Ha. naive_solver.
  - intros c pr Hc Hpr Hs. destruct (caravan_stall to_vec status ci missing c) as [stall |] eqn:Hstall.
    + exists stall. split; [| by apply caravan_stall_some in Hstall as [? _]].
      apply elem_of_app. left. apply list_elem_of_omap. eauto.
    + by rewrite caravan_stall_none in Hstall; destruct (Hstall pr).
Qed.

Lemma no_stalls status ci missing :
  head_of_line_stalls to_vec status ci missing = [] ↔
  (∀ c pr, c ∈ fl_caravans (ga_fleet (si_analysis status)) → pr ∈ cv_members c → ¬ stuck status ci missing pr)
  ∧ ∀ r, List.find rj_blocks_order (as_rejected (si_admission status)) = Some r →
         as_next_candidate (si_admission status) ≠ Some (rj_pr r).
Proof.
  unfold head_of_line_stalls. rewrite app_nil. rewrite <- admission_stall_none.
  assert (omap (caravan_stall to_vec status ci missing) (fl_caravans (ga_fleet (si_analysis status))) = [] ↔
    ∀ c pr, c ∈ fl_caravans (ga_fleet (si_analysis status)) → pr ∈ cv_members c → ¬ stuck status ci missing pr) as ->.
  { induction (fl_caravans (ga_fleet (si_analysis status))) as [| c l IH]; cbn; [set_solver |].
    destruct (caravan_stall to_vec status ci missing c) as [st |] eqn:Hc.
    - split; [done |]. intros H. apply caravan_stall_some in Hc as (_ & front & Hm & _ & _ & Hs & _).
      destruct (H c (hs_blocking_pr st)); [by left | rewrite Hm; set_solver | done].
    - rewrite IH. rewrite caravan_stall_none in Hc. split; [| set_solver].
      intros H d pr [-> | Hd]%elem_of_cons; [apply Hc | by apply H]. }
  by destruct (admission_stall to_vec status); cbn; intuition congruence.
Qed.

(** ** The waiting members *)

Lemma elem_of_push_waiting receipts waiting pr :
  pr ∈ foldl push_waiting waiting receipts ↔
  pr ∈ waiting ∨ ∃ r, r ∈ receipts ∧ rp_pr r = pr ∧ ra_status (rp_assessment r) = AwaitingGrace.
Proof.
  revert waiting. induction receipts as [| r receipts IH]; intros waiting; cbn; [set_solver |]. rewrite IH.
  unfold push_waiting. case_bool_decide as Ha; cbn.
  - destruct (mem (rp_pr r) waiting) eqn:Hm; cbn.
    + apply mem_true in Hm. set_solver.
    + rewrite elem_of_app, list_elem_of_singleton. set_solver.
  - split; [set_solver |]. intros [? | (r' & [-> | Hin]%elem_of_cons & Hp & Hs)]; [by left | done | right; eauto].
Qed.

Lemma elem_of_waiting ci receipts pr :
  pr ∈ waiting_prs_of ci receipts ↔
  (∃ o, o ∈ ci ∧ ob_pr o = pr ∧ ob_disposition o = CiWaiting)
  ∨ ∃ r, r ∈ receipts ∧ rp_pr r = pr ∧ ra_status (rp_assessment r) = AwaitingGrace.
Proof.
  unfold waiting_prs_of, vec_sort. rewrite elem_of_vec_dedup, elem_of_sort_by_key, elem_of_push_waiting, list_elem_of_fmap.
  setoid_rewrite elem_of_list_filter_b. unfold is_waiting_ci. setoid_rewrite bool_decide_eq_true. naive_solver.
Qed.

Lemma no_waiting ci receipts :
  waiting_prs_of ci receipts = [] ↔
  (∀ o, o ∈ ci → ob_disposition o ≠ CiWaiting) ∧ ∀ r, r ∈ receipts → ra_status (rp_assessment r) ≠ AwaitingGrace.
Proof.
  split.
  - intros H. assert (∀ pr, pr ∉ waiting_prs_of ci receipts) as Hn by (rewrite H; set_solver).
    setoid_rewrite elem_of_waiting in Hn. split; intros x Hx He; eapply Hn; eauto 10.
  - intros [Ho Hr]. destruct (waiting_prs_of ci receipts) as [| pr l] eqn:Hw; [done |]. exfalso.
    assert (pr ∈ waiting_prs_of ci receipts) as Hin by (rewrite Hw; by left).
    apply elem_of_waiting in Hin as [(o & ? & ? & ?) | (r & ? & ? & ?)]; naive_solver.
Qed.

(** ** The verdict *)

Lemma verdict_healthy missing quarantined waiting stalls held :
  (scheduler_verdict missing quarantined waiting stalls held).1.1 = Healthy ↔
  missing = [] ∧ quarantined = [] ∧ waiting = [] ∧ stalls = [] ∧ held = [].
Proof.
  unfold scheduler_verdict. destruct missing as [| p missing]; cbn.
  - destruct quarantined, waiting, stalls, held; cbn; naive_solver.
  - split; [| naive_solver]. destruct (mp_operator_action_required p || _); cbn; [done |].
    by destruct quarantined.
Qed.

(** A repair actor is woken exactly for an external decision, an operator for
    an operator's, and another tick is asked for exactly to retry. *)
Lemma verdict_wakes missing quarantined waiting stalls held :
  let '(disposition, wake, _) := scheduler_verdict missing quarantined waiting stalls held in
  (wake = WakeExternalDecision ↔ disposition = ExternalDecision)
  ∧ (wake = WakeOperatorAction ↔ disposition = OperatorAction) ∧ (wake = WakeRetryTick ↔ disposition = RetryTick).
Proof.
  unfold scheduler_verdict. destruct (existsb _ _); [naive_solver |]. destruct (negb (is_nil quarantined)); [naive_solver |].
  destruct (_ && _); [naive_solver |]. destruct (negb (is_nil waiting)); [naive_solver |].
  destruct (negb (is_nil stalls)); [naive_solver |]. destruct (negb (is_nil held)); naive_solver.
Qed.

(** C22. A tick is healthy exactly when nothing is wrong: no required runs are
    missing, nothing is quarantined or held, no observed member waits for its
    checks and no receipt for its grace, no member of a caravan failed
    or is named by a problem, and the next candidate is not a rejection that
    may not be passed. *)
Theorem healthy_is_exact status ci paused rebase_on_join required_runs missing s :
  successful_scheduler_status to_vec status ci paused rebase_on_join required_runs missing = Some s →
  ss_disposition s = Healthy ↔
  missing = [] ∧ si_quarantined_caravans status = [] ∧ paused = []
  ∧ (∀ o, o ∈ ci → ob_disposition o ≠ CiWaiting)
  ∧ (∀ r, r ∈ required_runs → ra_status (rp_assessment r) ≠ AwaitingGrace)
  ∧ (∀ c pr, c ∈ fl_caravans (ga_fleet (si_analysis status)) → pr ∈ cv_members c →
      ¬ failed_ci ci pr ∧ ∀ p, ¬ named_by status pr p)
  ∧ (∀ r, List.find rj_blocks_order (as_rejected (si_admission status)) = Some r →
      as_next_candidate (si_admission status) ≠ Some (rj_pr r)).
Proof.
  unfold successful_scheduler_status. intros (caravans & _ & Hs)%bind_Some.
  assert (ss_disposition s = Healthy ↔
    (scheduler_verdict missing (si_quarantined_caravans status) (waiting_prs_of ci required_runs)
       (head_of_line_stalls to_vec status ci missing) (snd <$> paused)).1.1 = Healthy) as ->
    by by destruct (scheduler_verdict _ _ _ _ _) as [[d w] r]; injection Hs as <-.
  rewrite verdict_healthy, no_waiting, no_stalls. unfold stuck.
  assert ((snd <$> paused : list PrNumber) = [] ↔ paused = []) as -> by by destruct paused.
  split; [naive_solver |]. intros (-> & Hq & -> & Ho & Hr & Hc & Ha). split_and!; try done.
  intros c pr Hin Hpr. destruct (Hc c pr Hin Hpr) as [Hf Hp]. intros [(p & Hp' & _) | [? | [p ?]]]; [set_solver | done | by apply (Hp p)].
Qed.
End status.

(** ** Failures *)

(** The attached fields are read back. *)
Class SchedulerLaws `{!SchedulerCodec} := {
  failure_status_roundtrip s : failure_status_from_value (failure_status_value s) = Some s }.

Section failures.
Context (to_vec : Value → list N) `{!SchedulerCodec, !HookCodec}.
Implicit Types (error : AppError) (s : SyncFailureSchedulerStatus).

Definition attachment_keys : list string := ["scheduler_status"; "decision_fingerprint"; "original_details"; "checkout"].
(** The same error, but for fields the tick attaches. *)
Definition same_cause error error' : Prop :=
  er_category error' = er_category error ∧ er_code error' = er_code error ∧ er_message error' = er_message error
  ∧ ∀ key, key ∉ attachment_keys → er_details error' ≫= get key = er_details error ≫= get key.

Lemma same_cause_refl error : same_cause error error.
Proof. done. Qed.
Lemma same_cause_trans a b c : same_cause a b → same_cause b c → same_cause a c.
Proof.
  intros (H1 & H2 & H3 & H4) (K1 & K2 & K3 & K4). split_and!; [by rewrite K1 | by rewrite K2 | by rewrite K3 |].
  intros key Hk. by rewrite K4, H4.
Qed.

Lemma decision_of_get error : decision_of error = (er_details error ≫= get "decision") ≫= decision_from_value.
Proof. unfold decision_of. by destruct (er_details error). Qed.

Lemma same_cause_class error error' :
  same_cause error error' → decision_of error' = decision_of error ∧ scheduler_failure_status error' = scheduler_failure_status error.
Proof.
  intros (_ & Hcode & _ & Hget).
  assert (decision_of error' = decision_of error) as Hd by (by rewrite !decision_of_get, Hget by set_solver).
  split; [done |]. unfold scheduler_failure_status, failure_class. rewrite Hd, Hcode.
  assert (is_resumable error' = is_resumable error) as ->; [| done].
  assert (∀ x, is_resumable x = default true ((er_details x ≫= get "resumable") ≫= as_bool)) as Hr.
  { intros x. unfold is_resumable. by destruct (er_details x). }
  by rewrite !Hr, Hget by set_solver.
Qed.

Lemma get_in_cons key keys v :
  get_in (key :: keys) v = match get key v with Some w => get_in keys w | None => None end.
Proof.
  unfold get_in. cbn. destruct (get key v); [done |]. by induction keys.
Qed.

Lemma same_cause_events error error' : same_cause error error' → events_from_error error' = events_from_error error.
Proof.
  intros (_ & _ & _ & Hget).
  assert (∀ x, events_from_error x = unseen ∅ (omap event_from_value
    (let decision := er_details x ≫= get "decision" in
     let array (v : option Value) := default [] (v ≫= as_array) in
     option_list (decision ≫= get_in ["evidence"; "event"])
     ++ array (er_details x ≫= get "events") ++ array (decision ≫= get_in ["evidence"; "events"])))) as He.
  { intros x. unfold events_from_error, embedded_events. destruct (er_details x) as [d |]; [| done]. cbn [mbind option_bind].
    rewrite !(get_in_cons "decision"). by destruct (get "decision" d). }
  by rewrite !He, !Hget by set_solver.
Qed.

Lemma details_or_empty_get error key : get key (details_or_empty error) = er_details error ≫= get key.
Proof. unfold details_or_empty. by destruct (er_details error). Qed.

(** What the attachment inserts into is the object the details are, or hold. *)
Lemma attached_details error s :
  er_details (attach_scheduler_failure to_vec error s) =
  Some (VObject
    (let fields := map_insert "scheduler_status" (failure_status_value s) (base_fields error) in
     if is_object (details_or_empty error) && bool_decide (sf_wake_class s = WakeExternalDecision)
     then map_insert "decision_fingerprint" (VString (scheduler_decision_fingerprint to_vec error)) fields else fields)).
Proof.
  unfold attach_scheduler_failure, base_fields, json_object. cbn. by destruct (details_or_empty error).
Qed.

Lemma attached_same_cause error s : same_cause error (attach_scheduler_failure to_vec error s).
Proof.
  split_and!; try done. intros key Hkey. rewrite attached_details. cbn [mbind option_bind get].
  assert (map_get key (base_fields error) = er_details error ≫= get key) as <- by (apply base_fields_get; set_solver).
  destruct (_ && _); rewrite ?map_get_insert_ne by set_solver; done.
Qed.

Lemma attached_status error s :
  er_details (attach_scheduler_failure to_vec error s) ≫= get "scheduler_status" = Some (failure_status_value s).
Proof.
  rewrite attached_details. cbn [mbind option_bind get].
  destruct (_ && _); rewrite ?map_get_insert_ne by done; by rewrite map_get_insert.
Qed.

(** The fingerprint of a decision depends on the cause only. *)
Lemma same_cause_fingerprint error error' :
  same_cause error error' → scheduler_decision_fingerprint to_vec error' = scheduler_decision_fingerprint to_vec error.
Proof.
  intros (_ & Hcode & _ & Hget). unfold scheduler_decision_fingerprint, field_or_null.
  rewrite Hcode, !details_or_empty_get, !Hget by set_solver.
  rewrite !(get_in_cons "decision"), !details_or_empty_get, Hget by set_solver. done.
Qed.

(** Attaching the class of a failure keeps what it is: its category,
    code and message, and every other field of its details; the class is read back
    and is the class of the attached error; the fingerprint of its decision is that
    of the cause. Attaching again changes nothing. *)
Theorem attached_failure_is_stable `{!SchedulerLaws} error :
  let s := scheduler_failure_status error in
  let attached := attach_scheduler_failure to_vec error s in
  same_cause error attached
  ∧ scheduler_failure_status attached = s
  ∧ (er_details attached ≫= get "scheduler_status") ≫= failure_status_from_value = Some s
  ∧ (∀ fields, details_or_empty error = VObject fields → ordered fields →
      attach_scheduler_failure to_vec attached s = attached
      ∧ (sf_wake_class s = WakeExternalDecision →
          er_details attached ≫= get "decision_fingerprint" = Some (VString (scheduler_decision_fingerprint to_vec error)))).
Proof.
  intros s attached. pose proof (attached_same_cause error s) as Hsame. fold attached in Hsame.
  split_and!; [done | by apply same_cause_class | by unfold attached; rewrite attached_status; cbn; apply failure_status_roundtrip |].
  intros fields Hf Hord. pose proof (same_cause_fingerprint _ _ Hsame) as Hfp.
  assert (base_fields error = fields) as Hbase by (unfold base_fields; by rewrite Hf).
  pose proof (attached_details error s) as Hd. rewrite Hf, Hbase in Hd. cbn [is_object andb] in Hd. fold attached in Hd.
  split.
  - assert (er_details (attach_scheduler_failure to_vec attached s) = er_details attached) as Heq.
    { rewrite attached_details. unfold base_fields, details_or_empty. rewrite Hd. cbn [default from_option id is_object andb].
      rewrite Hfp. case_bool_decide; do 2 f_equal.
      - rewrite (map_insert_id "scheduler_status"); [apply map_insert_id | |];
          repeat apply map_insert_ordered; rewrite ?map_get_insert_ne by done; rewrite ?map_get_insert; done.
      - apply map_insert_id; [by apply map_insert_ordered | by rewrite map_get_insert]. }
    unfold attach_scheduler_failure in Heq |- *. cbn [er_details] in Heq. rewrite Heq. done.
  - intros Hw. rewrite Hd, bool_decide_true by done. cbn [mbind option_bind get]. by rewrite map_get_insert.
Qed.

(** ** The wake-up of a failed tick *)

(** Any answers. *)
Definition exec_tick (R : Type) (answers : ∀ R, TickOp R → R) (op : TickOp R) (s : unit) : R * unit := (answers R op, s).

Lemma checkout_same_cause error details checkout :
  er_details error = Some details → same_cause error (attach_checkout_evidence error details checkout).
Proof.
  intros Hd. split_and!; try done. intros key Hkey. rewrite Hd. cbn. destruct details; try done. cbn.
  by rewrite map_get_insert_ne by set_solver.
Qed.

Lemma holds_checkout on error :
  holds exec_tick (λ _, True) (checkout_for_decision on error) (λ error' _, same_cause error error') ().
Proof.
  unfold checkout_for_decision. destruct (er_details error) as [details |] eqn:Hd; [| done].
  destruct (decision_of error) as [decision |]; [| done]. destruct (decision_checkout_target decision) as [target |]; [| done].
  destruct (negb on); [by apply checkout_same_cause |].
  destruct (decision_checkout_pull_request decision target) as [pr |]; [| by apply checkout_same_cause].
  intros answers. split; [done |]. by apply checkout_same_cause.
Qed.

(** The event of an attached failure exists, unless no decision and no
    repository can be read. *)
Lemma sync_failed_event_exists `{!SchedulerLaws} error id time op :
  let s := scheduler_failure_status error in
  sf_wake_class s = WakeExternalDecision →
  (∃ e, sync_failed_event (attach_scheduler_failure to_vec error s) id time op = Some e ∧ wakes_repair e = true)
  ∨ (decision_of error = None ∧ (er_details error ≫= get "repository") ≫= repository_from_value = None).
Proof.
  intros s Hw. set (attached := attach_scheduler_failure to_vec error s).
  pose proof (attached_same_cause error s) as Hsame. fold attached in Hsame.
  pose proof (attached_status error s) as Hst. fold attached in Hst.
  destruct (same_cause_class _ _ Hsame) as [Hdec _]. destruct Hsame as (_ & _ & _ & Hget).
  specialize (Hget "repository" ltac:(set_solver)). unfold sync_failed_event. rewrite Hdec.
  destruct (er_details attached) as [details |]; [| done]. cbn [mbind option_bind] in *.
  destruct (decision_of error) as [decision |]; [left; eexists; split; reflexivity |].
  rewrite Hst. cbn [mbind option_bind]. rewrite failure_status_roundtrip. cbn [mbind option_bind].
  rewrite bool_decide_true by done. cbn [negb]. rewrite Hget.
  destruct (er_details error ≫= get "repository") as [r |]; [| by right]. cbn [mbind option_bind].
  destruct (repository_from_value r); [left; eexists; split; reflexivity | by right].
Qed.

(** C23. A failed tick keeps the cause of its error. A tick that is no
    external decision delivers the events of the error and no other. An external
    decision adds at most one event, after those, and some delivered event wakes a
    repair actor, unless neither a decision nor a repository can be read from
    the error. *)
Theorem failed_tick_wakes_once `{!SchedulerLaws} on error choices error' events u :
  drive exec_tick choices (failed_tick to_vec on error) () = (Some (error', events), u) →
  let wake := sf_wake_class (scheduler_failure_status error) in
  same_cause error error'
  ∧ (wake ≠ WakeExternalDecision → events = events_from_error error)
  ∧ (∃ more, events = events_from_error error ++ more ∧ length more ≤ 1)
  ∧ (wake = WakeExternalDecision → (∃ e, e ∈ events ∧ wakes_repair e = true)
      ∨ (decision_of error = None ∧ (er_details error ≫= get "repository") ≫= repository_from_value = None)).
Proof.
  intros Hrun wake.
  destruct (drive_holds exec_tick (λ _, True) (failed_tick to_vec on error)
    (λ r _, same_cause error r.1 ∧ (wake ≠ WakeExternalDecision → r.2 = events_from_error error)
      ∧ (∃ more, r.2 = events_from_error error ++ more ∧ length more ≤ 1)
      ∧ (wake = WakeExternalDecision → (∃ e, e ∈ r.2 ∧ wakes_repair e = true)
          ∨ (decision_of error = None ∧ (er_details error ≫= get "repository") ≫= repository_from_value = None)))
    choices () I) as [_ Hq]; [| by apply (Hq (error', events)); rewrite Hrun].
  unfold failed_tick. apply holds_bind. eapply holds_mono; [| apply holds_checkout]. intros checked [] Hsame.
  pose proof (same_cause_class _ _ Hsame) as [Hdec Hst]. rewrite !Hst.
  assert (∀ key, key ∉ attachment_keys → er_details checked ≫= get key = er_details error ≫= get key) as Hget by apply Hsame.
  pose proof (same_cause_trans _ _ _ Hsame (attached_same_cause checked (scheduler_failure_status error))) as Hall.
  assert (events_from_error (attach_scheduler_failure to_vec checked (scheduler_failure_status error)) = events_from_error error) as Hev
    by by apply same_cause_events.
  rewrite Hev. fold wake. destruct (existsb wakes_repair (events_from_error error)) eqn:Hx; cbn [negb andb].
  { cbn [holds fst snd]. split_and!; [done | done | by exists []; rewrite app_nil_r; auto |].
    intros _. left. by apply existsb_elem_of. }
  case_bool_decide as Hw.
  2: { cbn [holds fst snd]. split_and!; [done | done | by exists []; rewrite app_nil_r; auto | done]. }
  cbn [pbind perform holds exec_tick]. intros answers. split; [done |].
  destruct (answers _ FreshEvent) as [[id time] op]. cbn [holds fst snd]. split_and!; [done | done | |].
  - eexists. split; [reflexivity |]. by destruct (sync_failed_event _ _ _ _); cbn; lia.
  - intros _. rewrite <- Hst, <- Hdec, <- (Hget "repository") by set_solver. unfold wake in Hw. rewrite <- Hst in Hw.
    destruct (sync_failed_event_exists checked id time op Hw) as [(e & He & Hwe) | Hn]; [left | by right].
    exists e. split; [| done]. apply elem_of_app. right. rewrite He. by left.
Qed.
End failures.

(** * Runs *)

Definition sample_repository : RepositoryId := mkRepositoryId "owner" "repo".
Definition sample_branch (name oid : string) : BranchSnapshot := mkBranchSnapshot sample_repository name oid.
Definition sample_pr (n : PrNumber) : PullRequestSnapshot :=
  mkPullRequestSnapshot n "title" "url" Open false (sample_branch (fmt ["topic"; show_pr n]) (fmt ["h"; show_pr n]))
    (sample_branch "main" "tip") false ∅ auto_merge_disabled [] None None None None.
Definition sample_fleet (problems : list GraphProblem) : CaravanFleet :=
  mkCaravanFleet sample_repository (sample_branch "main" "tip") [mkCaravan 1 [1; 2; 3]%N false; mkCaravan 5 [5]%N false] [] problems
    (mkCaravanHistory 0 None None 0).
Definition sample_status (problems : list GraphProblem) : SchedulerInput :=
  mkSchedulerInput sample_repository
    (mkGraphAnalysis (sample_fleet problems) None
       (list_to_map ((λ n, (n, sample_pr n)) <$> [1; 2; 3; 5]%N)) [] [] [])
    (mkAdmissionStatus "fifo" [] (mkGenerationIntegrity 1 "" [] 0 false) [] [] [] None) [] [].
Definition sample_ci (n : PrNumber) (disposition : CiDisposition) : CiObservation unit :=
  mkCiObservation n disposition [] None ().
Definition conflict_of (n : PrNumber) : GraphProblem := mkGraphProblem Incompatible [n] "conflicts with main".

Definition sample_verdict (problems : list GraphProblem) (ci : list (CiObservation unit)) : option SyncSchedulerStatus :=
  successful_scheduler_status (λ _, []) (sample_status problems) ci [] true [] [].
Definition shown (s : SyncSchedulerStatus) : SchedulerDisposition * SchedulerWakeClass * list (PrNumber * nat * list PrNumber) :=
  (ss_disposition s, ss_wake_class s, (λ h, (hs_blocking_pr h, hs_position h, hs_blocked_prs h)) <$> ss_head_of_line s).

Example sample_verdicts :
  shown <$> sample_verdict [] [sample_ci 1 CiPassing] = Some (Healthy, WakeNone, [])
  ∧ shown <$> sample_verdict [conflict_of 2] [sample_ci 3 CiFailed]
    = Some (ExternalDecision, WakeExternalDecision, [(2%N, 2, [3%N])])
  ∧ shown <$> sample_verdict [] [sample_ci 5 CiFailed; sample_ci 1 CiWaiting] = Some (WaitingCi, WakeNone, [(5%N, 1, [])]).
Proof. vm_compute. auto. Qed.

Lemma healthy_is_exact_witness :
  ∃ s, sample_verdict [] [sample_ci 1 CiPassing] = Some s ∧ ss_disposition s = Healthy.
Proof.
  destruct (sample_verdict [] [sample_ci 1 CiPassing]) as [s |] eqn:Hs; [| exfalso; vm_compute in Hs; congruence].
  exists s. split; [done |]. apply (healthy_is_exact (λ _, []) (sample_status []) [sample_ci 1 CiPassing] [] true [] [] s Hs).
  split_and!; try done.
  - intros o [= ->]%list_elem_of_singleton. done.
  - intros r []%elem_of_nil.
  - intros c pr _ _. split.
    + intros (o & [= ->]%list_elem_of_singleton & _ & [=]).
    + intros p [[]%elem_of_nil _].
Defined.

Lemma head_of_line_is_exact_witness :
  ∃ stall, stall ∈ head_of_line_stalls (λ _, []) (sample_status [conflict_of 2]) [sample_ci 3 CiFailed] []
  ∧ hs_caravan_id stall = Some 1%N.
Proof.
  destruct (head_of_line_is_exact (λ _, []) (sample_status [conflict_of 2]) [sample_ci 3 CiFailed] []) as [_ H].
  apply (H (mkCaravan 1 [1; 2; 3]%N false) 2%N).
  - by left.
  - by right; left.
  - right. right. exists (conflict_of 2). split; [by left | by left].
Defined.

(** The front of one caravan conflicts and a member of another waits for its
    checks: the tick reports the wait as the only incomplete condition and wakes
    nobody, although it names the stall. *)
Example wait_hides_a_stall :
  ∃ s, sample_verdict [conflict_of 1] [sample_ci 5 CiWaiting] = Some s
  ∧ ss_disposition s = WaitingCi ∧ ss_wake_class s = WakeNone ∧ ss_reason s = waiting_reason
  ∧ (λ h, (hs_kind h, hs_blocking_pr h)) <$> ss_head_of_line s = [(BlockConflict, 1%N)].
Proof. eexists. split; [vm_compute; reflexivity |]. vm_compute. auto. Qed.

(** ** Failed ticks *)

Definition disposition_code (d : SchedulerDisposition) : N :=
  match d with Healthy => 0 | WaitingCi => 1 | Held => 2 | RetryTick => 3 | ExternalDecision => 4 | OperatorAction => 5 end.
Definition wake_code (w : SchedulerWakeClass) : N :=
  match w with WakeNone => 0 | WakeRetryTick => 1 | WakeExternalDecision => 2 | WakeOperatorAction => 3 end.
#[local] Instance sample_codec : SchedulerCodec := {|
  decision_from_value _ := None;
  failure_status_value s :=
    VArray [json_N (sf_schema_version s); json_N (disposition_code (sf_disposition s)); json_N (wake_code (sf_wake_class s));
            VBool (sf_retryable s); VString (sf_error_code s)];
  failure_status_from_value v :=
    match v with
    | VArray [VNumber (PosInt version); VNumber (PosInt d); VNumber (PosInt w); VBool retryable; VString code] =>
        d ← [Healthy; WaitingCi; Held; RetryTick; ExternalDecision; OperatorAction] !! N.to_nat d;
        w ← [WakeNone; WakeRetryTick; WakeExternalDecision; WakeOperatorAction] !! N.to_nat w;
        Some (mkFailureStatus version d w retryable code)
    | _ => None
    end;
  category_value _ := VNull;
  fleet_from_value _ := None;
  repository_from_value v := match v with VString _ => Some sample_repository | _ => None end;
  plan_prs_from_value _ := None;
  receipt_prs_from_value _ := None;
  pull_request_from_value _ := None;
  pull_requests_from_value _ := None |}.
#[local] Instance sample_laws : SchedulerLaws.
Proof. constructor. by intros [version [] [] retryable code]. Qed.
#[local] Instance sample_hook_codec : HookCodec := {|
  event_json e := Some (cv_event_id e);
  event_value e := VString (cv_event_id e);
  event_from_value _ := None;
  delivery_value d := VString (hd_event_id d) |}.

Definition conflict_error : AppError :=
  mkAppError ExecutionFailure "rebase_conflict" "conflict" (Some (VObject [("pr", json_N 7); ("repository", VString "owner/repo")])).
(** The refusal of [auto_recover_missing] of src/src/stack_recovery.rs for two
    missing Stacks. *)
Definition ambiguous_recovery : AppError :=
  mkAppError Validation "github_stack_auto_recovery_ambiguous" "multiple missing provider Stacks require independent fresh ticks"
    (Some (VObject [("caravans", VArray [json_N 1; json_N 5]); ("mutated", VBool false)])).

Definition hook_answer (R : Type) (op : HookOp R) : R :=
  match op in HookOp R return R with
  | JournalEvent _ => Ok ()
  | RunHook _ _ => HookNotRun
  | JournalDelivery _ _ => Ok ()
  end.
Definition fresh_answer (R : Type) (op : TickOp R) : R :=
  match op in TickOp R return R with
  | SyncWithoutHooks => Ok []
  | CheckoutDecision _ => Ok VNull
  | FreshEvent => ("event", "1000", "operation")
  | Deliver op => hook_answer _ op
  end.
Definition failed (error : AppError) : option (AppError * list CaravanEvent) :=
  (drive exec_tick [fresh_answer; fresh_answer] (failed_tick (λ _, []) true error) ()).1.

Definition delivered (r : AppError * list CaravanEvent) : list (EventKind * list PrNumber) :=
  (λ e, (cv_kind e, cv_prs e)) <$> r.2.
Example sample_failures : delivered <$> failed conflict_error = Some [(SyncFailed, [7%N])].
Proof. vm_compute. auto. Qed.

Lemma attached_failure_is_stable_witness :
  let s := scheduler_failure_status conflict_error in
  attach_scheduler_failure (λ _, []) (attach_scheduler_failure (λ _, []) conflict_error s) s
  = attach_scheduler_failure (λ _, []) conflict_error s.
Proof.
  destruct (attached_failure_is_stable (λ _, []) conflict_error) as (_ & _ & _ & H).
  apply (H [("pr", json_N 7); ("repository", VString "owner/repo")]); [done |].
  repeat (constructor; try done).
Defined.

Lemma failed_tick_wakes_once_witness :
  ∃ error events, failed conflict_error = Some (error, events) ∧ ∃ e, e ∈ events ∧ wakes_repair e = true.
Proof.
  destruct (failed conflict_error) as [[error events] |] eqn:Hf; [| exfalso; vm_compute in Hf; congruence].
  exists error, events. split; [done |]. unfold failed in Hf.
  destruct (drive exec_tick [fresh_answer; fresh_answer] (failed_tick (λ _, []) true conflict_error) ()) as [r u] eqn:Hd.
  cbn in Hf. subst r.
  destruct (failed_tick_wakes_once (λ _, []) true conflict_error [fresh_answer; fresh_answer] error events u Hd)
    as (_ & _ & _ & H).
  destruct (H ltac:(vm_compute; reflexivity)) as [He | [_ Hn]]; [exact He |]. exfalso. vm_compute in Hn. congruence.
Defined.

(** An external decision whose error names no repository wakes nobody. *)
Example ambiguous_recovery_wakes_nobody :
  sf_wake_class (scheduler_failure_status ambiguous_recovery) = WakeExternalDecision
  ∧ ∃ error, failed ambiguous_recovery = Some (error, []).
Proof. split; [done |]. eexists. vm_compute. reflexivity. Qed.

(** ** Dispatch *)

Definition sample_event (id : string) (kind : EventKind) : CaravanEvent :=
  new_event id "1000" kind "operation" sample_repository None [1%N] None None ∅.
Definition sample_events : list CaravanEvent := [sample_event "a" SyncFailed; sample_event "b" PrJoined; sample_event "a" SyncFailed].
Definition sample_hooks (kind : EventKind) : option HookConfig :=
  if bool_decide (kind = SyncFailed) then Some (mkHookConfig "notify" 10 true) else None.
Definition hook_works : HookAnswers := mkHookAnswers (Ok ()) (HookExited (mkCommandOutput (Some 0%Z) "" "")) (Ok ()).
Definition dispatched : option (result (list HookDelivery) AppError) * list HookEntry :=
  drive exec_hook (repeat hook_works 10) (dispatch_events sample_hooks sample_events) [].

Example sample_dispatch : attempted_ids dispatched.2 = ["a"; "b"] ∧ length dispatched.2 = 6.
Proof. vm_compute. auto. Qed.

Lemma dispatch_is_journaled_witness :
  ∃ deliveries, dispatched.1 = Some (Ok deliveries) ∧ 
    ∃ steps, Forall3 (delivers sample_hooks) (configured_events sample_hooks sample_events) deliveries steps
      ∧ hook_steps dispatched.2 = concat steps.
Proof.
  destruct dispatched.1 as [[deliveries |] |] eqn:Hd; [| exfalso; vm_compute in Hd; congruence | exfalso; vm_compute in Hd; congruence].
  exists deliveries. split; [done |].
  destruct (dispatch_is_journaled sample_hooks sample_events (repeat hook_works 10)) as (_ & _ & _ & H).
  by destruct (H deliveries Hd) as [Hran _].
Defined.
