(* ===== verification/Pass.v ===== *)
(** What a tick does around the landing, on one state: the provider calls that
    [Landing] does not make, the progress with the receipts it does not keep,
    and one log of all calls in their order. A computation of [Landing] is
    lifted into a pass by [land].

    On this state: the required auto-merge of a root (src/src/root_auto_merge.rs
    and [ensure_root_squash_auto_merge] of src/src/sync.rs), the recovery of a
    deferred admission gate, the restart of failed runs, and the forced merge of
    a head ([force_merge_head]). *)

From Stdlib Require Import Ascii String.
From S2P Require Import Prelude Text Budget StackLock StackMerge StackPolicy StackLand Scheduler CiDispatch CiClassify Model Events Selection Mutations Lineage RequiredRuns Generation Graph RootMerge Effects Landing.

#[local] Open Scope string_scope.
#[local] Open Scope list_scope.
#[local] Open Scope nat_scope.
#[local] Open Scope effect_scope.

(** ** Root auto-merge: data *)

Definition ROOT_AUTO_MERGE_RECEIPT_SCHEMA_VERSION : N := 1.
Definition ROOT_AUTO_MERGE_ARMING_ATTEMPTS : nat := 2.
Definition ROOT_AUTO_MERGE_OWNER : string := "caravan-scheduler".
Definition ROOT_AUTO_MERGE_COMPONENT : string := "cara sync".

Inductive RootAutoMergeTrigger :=
  IdempotentReplay | RootAdmitted | RootHeadRewritten | RootBaseAdvanced | ExternallyDisarmed | NonSquashMethod.
#[export] Instance RootAutoMergeTrigger_eq_dec : EqDecision RootAutoMergeTrigger.
Proof. solve_decision. Defined.

Definition arming_reason (self : RootAutoMergeTrigger) : string :=
  match self with
  | IdempotentReplay => "exact current root head already carries required squash auto-merge"
  | RootAdmitted => "newly admitted caravan root requires squash auto-merge"
  | RootHeadRewritten => "root head generation was rewritten; provider drops auto-merge on rewrite"
  | RootBaseAdvanced => "root base advanced; provider drops auto-merge on base transition"
  | ExternallyDisarmed => "required root auto-merge was disabled outside scheduler convergence"
  | NonSquashMethod => "root auto-merge is armed with a non-squash merge method"
  end.
Definition arming_requires_write (self : RootAutoMergeTrigger) : bool :=
  negb (bool_decide (self = IdempotentReplay)).

Inductive RootAutoMergeFailureCause := ProviderDidNotPersistArming | RootHeadMovedDuringArming | StaleArmingView.
Definition arming_failure_code (self : RootAutoMergeFailureCause) : string :=
  match self with
  | ProviderDidNotPersistArming => "provider_did_not_persist_arming"
  | RootHeadMovedDuringArming => "root_head_moved_during_arming"
  | StaleArmingView => "stale_provider_view"
  end.
Definition arming_failure_next (self : RootAutoMergeFailureCause) : string :=
  match self with
  | ProviderDidNotPersistArming =>
      "rerun the same idempotent bounded sync tick; root arming converges without operator action"
  | RootHeadMovedDuringArming =>
      "rerun the same idempotent bounded sync tick against the fresh root generation"
  | StaleArmingView => "rerun the same idempotent bounded sync tick once provider reads agree"
  end.

Record RootAutoMergeProvenance := mkArmingProvenance {
  av_owner : string;
  av_component : string;
  av_operation_id : OperationId;
  av_trigger : RootAutoMergeTrigger;
  av_reason : string;
  av_observed_before : AutoMergeState;
  av_observed_actor : option string;
  av_engine_armed : bool }.

Record RootAutoMergeReceipt := mkArmingReceipt {
  ar_schema_version : N;
  ar_repository : RepositoryId;
  ar_caravan_id : PrNumber;
  ar_pr : PrNumber;
  ar_head : BranchSnapshot;
  ar_base : BranchSnapshot;
  ar_merge_method : MergeMethod;
  ar_observed_after : AutoMergeState;
  ar_confirmation_reads : nat;
  ar_arming_attempts : nat;
  ar_provenance : RootAutoMergeProvenance;
  ar_evidence_hash : string }.

Definition with_arming_hash (r : RootAutoMergeReceipt) (hash : string) : RootAutoMergeReceipt :=
  mkArmingReceipt (ar_schema_version r) (ar_repository r) (ar_caravan_id r) (ar_pr r) (ar_head r) (ar_base r)
    (ar_merge_method r) (ar_observed_after r) (ar_confirmation_reads r) (ar_arming_attempts r) (ar_provenance r) hash.

Definition squash_armed (snapshot : PullRequestSnapshot) : bool :=
  am_enabled (pr_auto_merge snapshot) && bool_decide (am_merge_method (pr_auto_merge snapshot) = Some Squash).

Definition classify_trigger (discovery : option PullRequestSnapshot) (observed : PullRequestSnapshot)
    (rewritten_head proven_generation : option CommitOid) : RootAutoMergeTrigger :=
  let head := br_oid (pr_head observed) in
  if squash_armed observed then IdempotentReplay
  else if am_enabled (pr_auto_merge observed) then NonSquashMethod
  else if is_some_and rewritten_head (String.eqb head) then RootHeadRewritten
  else match discovery with
       | None => RootAdmitted
       | Some discovery =>
           if negb (String.eqb (br_oid (pr_head discovery)) head) then RootHeadRewritten
           else if negb (String.eqb (br_name (pr_base discovery)) (br_name (pr_base observed)))
                   || negb (String.eqb (br_oid (pr_base discovery)) (br_oid (pr_base observed)))
           then RootBaseAdvanced
           else if is_some_and proven_generation (String.eqb head) || am_enabled (pr_auto_merge discovery)
           then ExternallyDisarmed
           else RootAdmitted
       end.

Definition arming_provenance (operation_id : OperationId) (trigger : RootAutoMergeTrigger)
    (observed_before : AutoMergeState) (engine_armed : bool) : RootAutoMergeProvenance :=
  mkArmingProvenance ROOT_AUTO_MERGE_OWNER ROOT_AUTO_MERGE_COMPONENT operation_id trigger (arming_reason trigger)
    observed_before (am_actor observed_before) engine_armed.

(** ** The audit of a control label *)

Record ControlLabelAudit := mkLabelAudit {
  la_operation : string;
  la_marker : string;
  la_before_labels : gset string;
  la_after_labels : gset string;
  la_actor : string;
  la_reason : string;
  la_reason_source : string;
  la_compatibility_evidence : string;
  la_clean_squash_evidence : string;
  la_admission_priority_basis : string }.

Definition is_control_label (label : string) : bool :=
  mem label ["caravan"; "caravan-evicted"; "caravan-force"; "caravan-join-skipped"]
  || starts_with "caravan-priority:" label.
Definition control_labels (labels : gset string) : string :=
  join "|" (List.filter is_control_label (bs_elems labels)).
(** [{byte:02x}] of every byte. *)
Definition hex_bytes (s : string) : string :=
  fmt ((λ c, hex_go 2 (byte_of c) EmptyString) <$> list_ascii_of_string s).
Definition control_label_marker (operation : string) (number : PrNumber) (head_oid : CommitOid)
    (before after : gset string) : string :=
  fmt ["v2:"; operation; ":"; show_pr number; ":"; head_oid; ":";
       hex_bytes (fmt [control_labels before; "->"; control_labels after])].

(** ** The provider and the log *)

(** The configuration a native pass carries. *)
Record NativeSyncContext := mkNativeContext { nc_stack_type : StackType; nc_mutations_opt_in : bool }.

(** The evidence of native landings in the progress. *)
Record NativeEvidence := mkNativeEvidence {
  ne_land : list GitHubStackLandCheckpoint;
  ne_waits : list NativeStackWait }.

(** [F] is the error of the native operations. [drain_stack] is
    [drain_native_stack], which [StackLand] models: it extends the progress. *)
Class SyncProvider (W E F : Type) := {
  repository_allows_squash_merge : RepositoryId → W → result bool E * W;
  repository_allows_auto_merge : RepositoryId → W → result bool E * W;
  branch_is_protected : RepositoryId → string → W → result bool E * W;
  verify_pull_request : RepositoryId → PullRequestPrecondition → W → result PullRequestSnapshot E * W;
  viewer_permission : RepositoryId → W → result string E * W;
  ensure_control_label_comment : RepositoryId → PullRequestPrecondition → ControlLabelAudit →
    W → result GitHubMutationReceipt E * W;
  admin_squash_merge : RepositoryId → PullRequestPrecondition → W → result GitHubMutationReceipt E * W;
  remove_label : RepositoryId → PullRequestPrecondition → string → W → result GitHubMutationReceipt E * W;
  enable_squash_auto_merge : RepositoryId → PullRequestPrecondition → W → result GitHubMutationReceipt E * W;
  rerun_failed_run : RepositoryId → PullRequestPrecondition → N → W → result GitHubMutationReceipt E * W;
  rerun_workflow_run : RepositoryId → PullRequestPrecondition → N → W → result GitHubMutationReceipt E * W;
  native_stack_intersections : RepositoryId → list PrNumber → W → result (list GitHubStackGeneration) F * W;
  drain_stack : Caravan → N → NativeSyncContext → SyncProgress CiDiagnosis → NativeEvidence →
    W → result unit F * (SyncProgress CiDiagnosis * NativeEvidence) * W;
  (** The variants [PermissionDenied] and [RunNotFailed] of the error. *)
  permission_denied : E → bool;
  run_not_failed : E → option (N * string);
  arming_json : RootAutoMergeReceipt → option (list N);
  checks_json : list CheckSnapshot → string;
  preconditions_json : list PullRequestPrecondition → string;
  (** [receipt::operation_id], which draws a fresh one. *)
  operation_id : W → OperationId * W }.

(** A call of the landing, or one of the pass, with its answer. *)
Inductive Sent (E F : Type) :=
| SentLanding (c : Call E)
| SentAllows (auto_merge : bool) (answer : result bool E)
| SentProtected (branch : string) (answer : result bool E)
| SentVerify (expected : PullRequestPrecondition) (answer : result PullRequestSnapshot E)
| SentPermission (answer : result string E)
| SentAudit (expected : PullRequestPrecondition) (marker : string) (answer : result GitHubMutationReceipt E)
| SentAdminSquash (expected : PullRequestPrecondition) (answer : result GitHubMutationReceipt E)
| SentRemoveLabel (expected : PullRequestPrecondition) (label : string) (answer : result GitHubMutationReceipt E)
| SentArm (expected : PullRequestPrecondition) (answer : result GitHubMutationReceipt E)
| SentRerunFailed (expected : PullRequestPrecondition) (run : N) (answer : result GitHubMutationReceipt E)
| SentRerunWorkflow (expected : PullRequestPrecondition) (run : N) (answer : result GitHubMutationReceipt E)
| SentIntersections (members : list PrNumber) (answer : result (list GitHubStackGeneration) F)
| SentDrain (caravan_id : PrNumber) (stack_number : N).
#[global] Arguments SentLanding {E F} _.
#[global] Arguments SentAllows {E F} _ _.
#[global] Arguments SentProtected {E F} _ _.
#[global] Arguments SentVerify {E F} _ _.
#[global] Arguments SentPermission {E F} _.
#[global] Arguments SentAudit {E F} _ _ _.
#[global] Arguments SentAdminSquash {E F} _ _.
#[global] Arguments SentRemoveLabel {E F} _ _ _.
#[global] Arguments SentArm {E F} _ _.
#[global] Arguments SentRerunFailed {E F} _ _ _.
#[global] Arguments SentRerunWorkflow {E F} _ _ _.
#[global] Arguments SentIntersections {E F} _ _.
#[global] Arguments SentDrain {E F} _ _.

Definition landing_call {E F} (x : Sent E F) : option (Call E) :=
  match x with SentLanding c => Some c | _ => None end.
Definition landing_log {E F} (log : list (Sent E F)) : list (Call E) := omap landing_call log.

Record StackBackendProblem := mkBackendProblem { bp_code : string; bp_message : string }.
#[export] Instance StackBackendProblem_eq_dec : EqDecision StackBackendProblem.
Proof. solve_decision. Defined.

(** A refusal of the gate recovery by its code. *)
Inductive GateRefusal :=
| GateEvidenceInvalid | GateRunAmbiguous | GateLineageIncomplete | GateRunNotFailed | GateSuiteAmbiguous
| GateSuiteUnavailable.

(** What a refused forced merge met. *)
Inductive ForceDenial (E : Type) := DeniedByPolicy | NotAdmin (actual : string) | DeniedByProvider (error : E).
#[global] Arguments DeniedByPolicy {E}.
#[global] Arguments NotAdmin {E} _.
#[global] Arguments DeniedByProvider {E} _.

Inductive PassError (E F : Type) :=
| PassLanding (error : SyncError E)
| SquashMergeNotEnabled
| AutoMergeNotEnabled
| DefaultBranchNotProtected
| HistoricalSuccessorNotFound (predecessor : PrNumber)
| CurrentPrNotFound
| CurrentPrNotInCaravan (current : PrNumber)
| MembershipRepairRequired (caravan : Caravan)
| CaravanParkedRed (caravan : Caravan)
| BackendUnhealthy (problems : list StackBackendProblem)
| GraphDecision (kind : DecisionKind) (caravan_id : option PrNumber) (problem : GraphProblem) (message : string)
| CiDecision (caravan : Caravan) (observation : CiObservation CiDiagnosis)
| ForceDenied (caravan : Caravan) (message : string) (denial : ForceDenial E)
| ForceCommentFailed (error : E) (affected : PrNumber)
| ForceIntentConsumeFailed (error : E) (head : PrNumber)
| RootArmingIncomplete (cause : RootAutoMergeFailureCause) (caravan_id number : PrNumber)
    (trigger : RootAutoMergeTrigger) (observed : PullRequestSnapshot) (expected_head : option CommitOid)
    (attempts reads : nat)
| GateLineageFailed (error : E)
| GateRefused (refusal : GateRefusal)
| NativeReadRefused (error : F) (caravan : Caravan)
| NativeRouteRefused (refusal : RouteRefusal) (caravan : Caravan)
| NativeLandingFailed (error : F).
#[global] Arguments PassLanding {E F} _.
#[global] Arguments SquashMergeNotEnabled {E F}.
#[global] Arguments AutoMergeNotEnabled {E F}.
#[global] Arguments DefaultBranchNotProtected {E F}.
#[global] Arguments HistoricalSuccessorNotFound {E F} _.
#[global] Arguments CurrentPrNotFound {E F}.
#[global] Arguments CurrentPrNotInCaravan {E F} _.
#[global] Arguments MembershipRepairRequired {E F} _.
#[global] Arguments CaravanParkedRed {E F} _.
#[global] Arguments BackendUnhealthy {E F} _.
#[global] Arguments GraphDecision {E F} _ _ _ _.
#[global] Arguments CiDecision {E F} _ _.
#[global] Arguments ForceDenied {E F} _ _ _.
#[global] Arguments ForceCommentFailed {E F} _ _.
#[global] Arguments ForceIntentConsumeFailed {E F} _ _.
#[global] Arguments RootArmingIncomplete {E F} _ _ _ _ _ _ _ _.
#[global] Arguments GateLineageFailed {E F} _.
#[global] Arguments GateRefused {E F} _.
#[global] Arguments NativeReadRefused {E F} _ _.
#[global] Arguments NativeRouteRefused {E F} _ _.
#[global] Arguments NativeLandingFailed {E F} _.

(** ** The state of a pass *)

(** The fields of [SyncProgress] beside those of the landing. *)
Record PassExtra := mkExtra {
  px_root_auto_merge : list RootAutoMergeReceipt;
  px_native : NativeEvidence;
  px_native_stack : option NativeSyncContext;
  px_synchronized_caravans : list PrNumber;
  px_paused_caravans : list (PauseState * PrNumber) }.
Definition extra_new (native : option NativeSyncContext) (synchronized : list PrNumber)
    (paused : list (PauseState * PrNumber)) : PassExtra :=
  mkExtra [] (mkNativeEvidence [] []) native synchronized paused.
Definition with_root_auto_merge (x : list RootAutoMergeReceipt) (p : PassExtra) : PassExtra :=
  mkExtra x (px_native p) (px_native_stack p) (px_synchronized_caravans p) (px_paused_caravans p).
Definition with_native (x : NativeEvidence) (p : PassExtra) : PassExtra :=
  mkExtra (px_root_auto_merge p) x (px_native_stack p) (px_synchronized_caravans p) (px_paused_caravans p).

Record SyncPass (W E F : Type) := mkPass {
  pa_progress : SyncProgress CiDiagnosis;
  pa_extra : PassExtra;
  pa_log : list (Sent E F);
  pa_host : W }.
#[global] Arguments mkPass {W E F} _ _ _ _.
#[global] Arguments pa_progress {W E F} _.
#[global] Arguments pa_extra {W E F} _.
#[global] Arguments pa_log {W E F} _.
#[global] Arguments pa_host {W E F} _.

Section pass.
Context {W E F : Type} `{!LandingProvider W E CiDiagnosis, !SyncProvider W E F}.

#[local] Abbreviation Landing A := (M (Tick W E CiDiagnosis) (SyncError E) A).
#[local] Abbreviation Eff A := (M (SyncPass W E F) (PassError E F) A).
#[local] Abbreviation State := (SyncPass W E F).

(** A computation of the landing, its calls appended to the log. *)
Definition tick_of (s : State) : Tick W E CiDiagnosis := mkTick (pa_progress s) (landing_log (pa_log s)) (pa_host s).
Definition land {A} (m : Landing A) : Eff A := λ s,
  let (r, t) := m (tick_of s) in
  (match r with Ok a => Ok a | Err e => Err (PassLanding e) end,
   mkPass (tk_progress t) (pa_extra s)
     (pa_log s ++ (SentLanding <$> drop (length (landing_log (pa_log s))) (tk_log t))) (tk_host t)).

Definition send {A X} (op : W → result A X * W) (entry : result A X → Sent E F) : Eff (result A X) := λ s,
  let (r, w) := op (pa_host s) in (Ok r, mkPass (pa_progress s) (pa_extra s) (pa_log s ++ [entry r]) w).
Definition send_or {A X} (op : W → result A X * W) (entry : result A X → Sent E F) (err : X → PassError E F) : Eff A :=
  let* r := send op entry in
  match r with Ok a => ret a | Err e => throw (err e) end.
Definition send_for {A} (op : W → result A E * W) (entry : result A E → Sent E F) (affected : option PrNumber) : Eff A :=
  send_or op entry (λ e, PassLanding (ProviderFailed e affected)).

Definition update (f : SyncProgress CiDiagnosis → SyncProgress CiDiagnosis) : Eff unit := land (modify f).
Definition update_extra (f : PassExtra → PassExtra) : Eff unit := λ s,
  (Ok (), mkPass (pa_progress s) (f (pa_extra s)) (pa_log s) (pa_host s)).
Definition extra : Eff PassExtra := ask pa_extra.
Definition the_progress : Eff (SyncProgress CiDiagnosis) := ask pa_progress.
Definition actor : Eff HeadMergeActor := land (setting se_head_merge_actor).

(** ** Arming a root *)

(** [RootAutoMergeReceipt::finalize_hash] and [hash_is_valid]. *)
Definition finalize_arming (self : RootAutoMergeReceipt) : option RootAutoMergeReceipt :=
  let cleared := with_arming_hash self EmptyString in
  (λ material, with_arming_hash cleared (fnv1a64 material)) <$> arming_json cleared.
Definition arming_hash_is_valid (self : RootAutoMergeReceipt) : bool :=
  is_some_and (arming_json (with_arming_hash self EmptyString)) (λ bytes, String.eqb (fnv1a64 bytes) (ar_evidence_hash self)).
Definition arming_receipt (repository : RepositoryId) (caravan_id : PrNumber) (observed : PullRequestSnapshot)
    (provenance : RootAutoMergeProvenance) (reads attempts : nat) : option RootAutoMergeReceipt :=
  finalize_arming (mkArmingReceipt ROOT_AUTO_MERGE_RECEIPT_SCHEMA_VERSION repository caravan_id (pr_number observed)
    (pr_head observed) (pr_base observed) Squash (pr_auto_merge observed) reads attempts provenance EmptyString).

Definition push_root_auto_merge (caravan_id : PrNumber) (observed : PullRequestSnapshot) (trigger : RootAutoMergeTrigger)
    (observed_before : AutoMergeState) (engine_armed : bool) (reads attempts : nat) : Eff unit :=
  let* settings := land (setting id) in
  let* receipt := land (expect (arming_receipt (se_repository settings) caravan_id observed
      (arming_provenance (se_operation_id settings) trigger observed_before engine_armed) reads attempts)
    "root auto-merge receipt serializes") in
  do* (if engine_armed
       then update (push_event (mkCaravanEvent RootAutoMergeArmed (Some caravan_id) [pr_number observed]
                                  (Some (arming_reason trigger)) None))
       else ret ()) in
  update_extra (λ x, with_root_auto_merge (replace_by ar_pr receipt (px_root_auto_merge x)) x).

(** The confirmation reads after an arming. *)
Fixpoint confirm_armed (repository : RepositoryId) (number : PrNumber) (target_head : CommitOid) (left_ : nat)
    (observed : PullRequestSnapshot) (reads : nat) : Landing (PullRequestSnapshot * nat) :=
  match left_ with
  | O => ret (observed, reads)
  | S left_ =>
      if negb (String.eqb (br_oid (pr_head observed)) target_head && squash_armed observed)
      then
        do* pause in
        let* observed := refetch repository number in
        do* modify (insert_current number observed) in
        confirm_armed repository number target_head left_ observed (S reads)
      else ret (observed, reads)
  end.

Definition arm_root_once (repository : RepositoryId) (number : PrNumber) (observed : PullRequestSnapshot)
    (target_head : CommitOid) : Eff (PullRequestSnapshot * nat) :=
  do* (if am_enabled (pr_auto_merge observed) then
         do* land (ensure_mutation_capacity 1) in
         let* expected := land (precondition number) in
         let* receipt := land (call (disable_auto_merge repository expected) (CallDisable expected) number) in
         update (record receipt "disabled non-squash auto-merge on the exact caravan root head")
       else ret ()) in
  do* land (ensure_mutation_capacity 1) in
  let* expected := land (precondition number) in
  let* receipt := send_for (enable_squash_auto_merge repository expected) (SentArm expected) (Some number) in
  do* update (record receipt "armed scheduler-owned squash auto-merge on the exact caravan root head") in
  land (confirm_armed repository number target_head (ROOT_AUTO_MERGE_CONFIRMATION_READS - 1) (gm_after receipt) 1).

(** The attempts; [left_] of them remain. *)
Fixpoint arm_attempts (repository : RepositoryId) (caravan_id number : PrNumber) (trigger : RootAutoMergeTrigger)
    (observed_before : AutoMergeState) (left_ attempts reads : nat) (observed : PullRequestSnapshot) : Eff unit :=
  match left_ with
  | O => throw (RootArmingIncomplete ProviderDidNotPersistArming caravan_id number trigger observed None attempts reads)
  | S left_ =>
      let attempts := S attempts in
      let target_head := br_oid (pr_head observed) in
      let* armed := arm_root_once repository number observed target_head in
      let '(observed, arming_reads) := armed in
      let reads := reads + arming_reads in
      if negb (String.eqb (br_oid (pr_head observed)) target_head)
      then throw (RootArmingIncomplete RootHeadMovedDuringArming caravan_id number trigger observed (Some target_head)
                    attempts reads)
      else if squash_armed observed
      then push_root_auto_merge caravan_id observed trigger observed_before true reads attempts
      else arm_attempts repository caravan_id number trigger observed_before left_ attempts reads observed
  end.

Definition ensure_root_squash_auto_merge (repository : RepositoryId) (caravan_id number : PrNumber)
    (discovery : option PullRequestSnapshot) (rewritten_head : option CommitOid) : Eff unit :=
  let* p := the_progress in
  let* read := land (read_exact_root_generation repository caravan_id number (pg_current p !! number)
                       (se_default_branch (pg_settings p))) in
  let '(observed, reads) := read in
  let* x := extra in
  let proven := (λ receipt, br_oid (ar_head receipt)) <$>
    List.find (λ receipt, N.eqb (ar_pr receipt) number) (reverse (px_root_auto_merge x)) in
  let observed_before := pr_auto_merge observed in
  let trigger := classify_trigger discovery observed rewritten_head proven in
  if negb (arming_requires_write trigger)
  then
    do* update (already EnableAutoMerge number
                  "exact current caravan root head already carries required squash auto-merge") in
    push_root_auto_merge caravan_id observed trigger observed_before false reads 0
  else
    arm_attempts repository caravan_id number trigger observed_before ROOT_AUTO_MERGE_ARMING_ATTEMPTS 0 reads observed.

(** ** Restarts *)

Fixpoint rerun_exact_failed_runs (repository : RepositoryId) (number : PrNumber) (run_ids : list N) : Eff unit :=
  match run_ids with
  | [] => ret ()
  | run_id :: run_ids =>
      do* land (ensure_mutation_capacity 1) in
      let* expected := land (precondition number) in
      let* answer := send (rerun_failed_run repository expected run_id) (SentRerunFailed expected run_id) in
      do* match answer with
          | Ok receipt =>
              update (record receipt (fmt ["reran failed jobs for exact workflow run "; show_N run_id]))
          | Err e =>
              match run_not_failed e with
              | Some (run_id, conclusion) =>
                  update (already RerunChecks number
                            (fmt ["run "; show_N run_id; " is now "; conclusion; "; no failed-job rerun requested"]))
              | None => throw (PassLanding (ProviderFailed e (Some number)))
              end
          end in
      rerun_exact_failed_runs repository number run_ids
  end.

(** ** The deferred admission gate *)

Definition gate_deferral_allows_required_runs (gate : CiAdmissionGateConfig) (required_runs : RequiredRunsAssessment)
    (exact_gate_failure : bool) : result bool GateRefusal :=
  if negb exact_gate_failure then Err GateEvidenceInvalid
  else if 1 <? length (List.filter (λ coverage, String.eqb (cov_context coverage) (gc_context gate))
                         (ra_coverage required_runs))
  then Ok false
  else Ok (forallb (λ coverage,
             String.eqb (cov_context coverage) (gc_context gate)
             || negb match cov_state coverage with CtxFailing | CtxCancelledSuperseded | CtxUnknown => true | _ => false end)
             (ra_coverage required_runs)
           && negb (bool_decide (ra_status required_runs = UnknownProviderState))).

Inductive AdmissionGateRetrigger :=
| ReuseRun (run_id : N)
| CheckSuite (check_suite_id : N)
| GitHubActionsRun (run_id check_suite_id : N).

(** A later run of the gate's workflow, or one that is still running, replaces
    the failed one. *)
Definition admission_gate_replacement_run (lineage : HeadRunLineage) (gate_run_id : N) : result (option N) GateRefusal :=
  match List.filter (λ run, N.eqb (wr_run_id run) gate_run_id && String.eqb (wr_head_sha run) (hl_head_sha lineage))
          (hl_workflow_runs lineage) with
  | [gate] =>
      let latest := default gate (max_by_key wr_run_id (List.filter (λ run,
        String.eqb (wr_head_sha run) (hl_head_sha lineage) && negb (str_is_empty (wr_workflow_name gate))
        && String.eqb (wr_workflow_name run) (wr_workflow_name gate) && String.eqb (wr_event run) (wr_event gate)
        && (gate_run_id <=? wr_run_id run)%N) (hl_workflow_runs lineage))) in
      if (gate_run_id <? wr_run_id latest)%N
         || mem (wr_status latest) ["queued"; "in_progress"; "pending"; "waiting"; "requested"]
      then Ok (Some (wr_run_id latest))
      else if negb (String.eqb (wr_status latest) "completed") || negb (String.eqb (wr_conclusion latest) "failure")
      then Err GateRunNotFailed
      else Ok None
  | _ => Err GateRunAmbiguous
  end.

(** The runs the failing reports of the gate name. *)
Definition gate_run_ids (candidate : PullRequestSnapshot) (gate : CiAdmissionGateConfig) : list N :=
  bs_elems (list_to_set (omap details_run_id (List.filter (λ check,
    String.eqb (ck_name check) (gc_context gate) && bool_decide (ck_state check = CheckFailure))
    (latest_checks_per_identity (pr_checks candidate)).1)) : gset N).

(** What to restart, on a complete lineage of exactly this head. *)
Definition gate_restart (candidate : PullRequestSnapshot) (gate_run_id : N) (lineage : HeadRunLineage)
    : result AdmissionGateRetrigger GateRefusal :=
  let head := br_oid (pr_head candidate) in
  if negb (hl_complete lineage) || negb (String.eqb (hl_head_sha lineage) head) then Err GateLineageIncomplete
  else match admission_gate_replacement_run lineage gate_run_id with
  | Err refusal => Err refusal
  | Ok (Some run_id) => Ok (ReuseRun run_id)
  | Ok None =>
      match bs_elems (list_to_set (wr_check_suite_id <$> List.filter (λ run,
              N.eqb (wr_run_id run) gate_run_id && String.eqb (wr_head_sha run) head) (hl_workflow_runs lineage)) : gset N) with
      | [suite_id] =>
          match List.filter (λ suite, N.eqb (cs_id suite) suite_id && String.eqb (cs_head_sha suite) head
                                      && cs_rerequestable suite) (hl_check_suites lineage) with
          | [suite] =>
              Ok (if eq_ignore_ascii_case (cs_app_slug suite) "github-actions"
                  then GitHubActionsRun gate_run_id suite_id else CheckSuite suite_id)
          | _ => Err GateSuiteUnavailable
          end
      | _ => Err GateSuiteAmbiguous
      end
  end.

Definition gate_result {A} (r : result A GateRefusal) : Eff A :=
  lift match r with Ok a => Ok a | Err refusal => Err (GateRefused refusal) end.

Definition admission_gate_retrigger (repository : RepositoryId) (candidate : PullRequestSnapshot)
    (gate : CiAdmissionGateConfig) : Eff AdmissionGateRetrigger :=
  match gate_run_ids candidate gate with
  | [gate_run_id] =>
      let expected := precondition_of candidate in
      let* answer := land (request (head_run_lineage repository expected) (CallLineage expected)) in
      match answer with
      | Err e => throw (GateLineageFailed e)
      | Ok lineage => gate_result (gate_restart candidate gate_run_id lineage)
      end
  | _ => throw (GateRefused GateRunAmbiguous)
  end.

Definition perform_admission_gate_retrigger (repository : RepositoryId) (candidate_pr : PrNumber)
    (retrigger : AdmissionGateRetrigger) : Eff unit :=
  match retrigger with
  | ReuseRun _ => ret ()
  | CheckSuite suite =>
      do* land (ensure_mutation_capacity 1) in
      let* expected := land (precondition candidate_pr) in
      let* receipt := land (call (rerequest_check_suite repository expected suite) (CallRerequest expected suite)
                              candidate_pr) in
      update (record receipt (fmt ["rerequested admission-gate check suite "; show_N suite; " after membership"]))
  | GitHubActionsRun run suite =>
      do* land (ensure_mutation_capacity 1) in
      let* expected := land (precondition candidate_pr) in
      let* receipt := send_for (rerun_workflow_run repository expected run) (SentRerunWorkflow expected run)
                        (Some candidate_pr) in
      update (record receipt (fmt ["reran GitHub Actions admission-gate workflow "; show_N run; " (suite ";
                                   show_N suite; ") after membership"]))
  end.

Definition gate_observation (o : CiObservation CiDiagnosis) : GateObservation :=
  mkGateObservation (ob_checks o) (ob_generation_lineage o) (ob_diagnosis o).

Definition recover_enrolled_admission_gate (gate : option CiAdmissionGateConfig) (repository : RepositoryId)
    (caravan_id candidate_pr : PrNumber) (observation : CiObservation CiDiagnosis) : Eff bool :=
  let* p := the_progress in
  match gate, pg_current p !! candidate_pr with
  | Some gate, Some candidate =>
      if negb (has_label candidate (gc_member_label gate))
         || negb (observation_has_proven_deferred_gate (gc_context gate) (gate_observation observation))
      then ret false
      else match List.find (λ r, N.eqb (rp_caravan_id r) caravan_id && N.eqb (rp_pr r) candidate_pr)
                   (reverse (pg_required_runs p)) with
      | None => ret false
      | Some receipt =>
          let* allowed := gate_result (gate_deferral_allows_required_runs gate (rp_assessment receipt) true) in
          if negb allowed then ret false
          else
            let* retrigger := admission_gate_retrigger repository candidate gate in
            do* perform_admission_gate_retrigger repository candidate_pr retrigger in
            ret true
      end
  | _, _ => ret false
  end.

Definition verify_required_runs_and_recover_gate (gate : option CiAdmissionGateConfig) (repository : RepositoryId)
    (caravan_id candidate_pr : PrNumber) (observation : CiObservation CiDiagnosis) : Eff bool :=
  do* land (verify_required_runs repository caravan_id candidate_pr) in
  if bool_decide (ob_disposition observation = CiPassing) then ret false
  else recover_enrolled_admission_gate gate repository caravan_id candidate_pr observation.

(** ** The forced merge *)

Definition ensure_auto_merge_disabled (repository : RepositoryId) (number : PrNumber) : Landing unit :=
  let* observed := current_of number in
  if negb (am_enabled (pr_auto_merge observed))
  then modify (already DisableAutoMerge number "non-head auto-merge already disabled")
  else
    do* ensure_mutation_capacity 1 in
    let* expected := precondition number in
    let* receipt := call (disable_auto_merge repository expected) (CallDisable expected) number in
    modify (record receipt "disabled auto-merge on non-head PR").

Fixpoint each {S X A} (f : A → M S X unit) (l : list A) : M S X unit :=
  match l with [] => ret () | a :: l => do* f a in each f l end.

Definition ensure_label_audit (repository : RepositoryId) (number : PrNumber) (audit : ControlLabelAudit) : Eff unit :=
  do* land (ensure_mutation_capacity 1) in
  let* expected := land (precondition number) in
  let* receipt := send_or (ensure_control_label_comment repository expected audit) (SentAudit expected (la_marker audit))
                    (λ e, ForceCommentFailed e number) in
  if is_some_and (gm_provider_output receipt) (starts_with "existing GitHub comment")
  then update (λ p, insert_current number (gm_after receipt)
         (already Comment number "control-label audit comment already present" p))
  else update (record receipt "posted durable force-label audit comment").

Definition outcome_debug (o : CompatibilityOutcome) : string :=
  match o with Clean => "Clean" | Conflict => "Conflict" | UnknownOutcome => "Unknown" end.

Definition force_audit (head : PrNumber) (current : PullRequestSnapshot) (compatibility : CompatibilityReport)
    : ControlLabelAudit :=
  let before_labels := pr_labels current ∖ {["caravan-force"]} in
  mkLabelAudit "force_accept"
    (control_label_marker "force_accept" head (br_oid (pr_head current)) before_labels (pr_labels current))
    before_labels (pr_labels current)
    "authenticated GitHub comment author; cara sync/loop force policy"
    (fmt ["observed durable `caravan-force`; force_merge=true; ADMIN permission confirmed; CI bypassed without waiting; current visible checks: ";
          checks_json (pr_checks current)])
    "deterministic evidence from GitHub checks, external label, repository config, and permission preflight"
    (fmt [br_name (cr_candidate compatibility); "@"; br_oid (cr_candidate compatibility); " -> ";
          br_name (cr_target compatibility); "@"; br_oid (cr_target compatibility); " = ";
          outcome_debug (cr_outcome compatibility)])
    "exact head/default compatibility is clean; ADMIN squash merge is the configured force action"
    "not applicable: force acceptance preserves existing caravan order".

Definition force_candidate (current : PullRequestSnapshot) : bool :=
  state_is current Open && negb (pr_draft current) && has_label current "caravan-force".

(** The next root after a forced merge. *)
Definition advance_after_force (status : LandingStatus) (caravan : Caravan) (head new_head : PrNumber)
    (rewritten_heads : gmap PrNumber CommitOid) : Eff unit :=
  let repository := ls_repository status in
  do* land (promote_root status new_head new_head (Some head) true) in
  do* update (record_head_advancement head new_head) in
  do* land (each (ensure_auto_merge_disabled repository) (drop 2 (cv_members caravan))) in
  let* p := the_progress in
  let successor_forced := is_some_and (pg_current p !! new_head) (λ pull, has_label pull "caravan-force") in
  let* actor := actor in
  if actor_github actor && negb successor_forced
  then ensure_root_squash_auto_merge repository new_head new_head (ga_pull_requests (ls_analysis status) !! new_head)
         (rewritten_heads !! new_head)
  else land (ensure_no_foreign_auto_merge repository new_head new_head).

(** The permission read, the audit, the administrator's squash, and the
    removal of the label. *)
Definition force_with_permission (status : LandingStatus) (caravan : Caravan) (head : PrNumber) : Eff unit :=
  let repository := ls_repository status in
  let* permission := send_for (viewer_permission repository) SentPermission (Some head) in
  do* ensure (String.eqb permission "ADMIN")
        (ForceDenied caravan "authenticated actor cannot perform the required administrator squash merge" (NotAdmin permission)) in
  do* land (ensure_auto_merge_disabled repository head) in
  let* p := the_progress in
  let* current := land (expect (pg_current p !! head) "forced head remains current after auto-merge disarm") in
  do* send_for (verify_pull_request repository (precondition_of current)) (SentVerify (precondition_of current))
        (Some head) in
  let* compatibility := land (expect (List.find (λ report,
      bool_decide (cr_candidate report = pr_head current)
      && bool_decide (cr_target report = fl_default_branch (ga_fleet (ls_analysis status))))
      (ga_compatibility (ls_analysis status))) "force policy requires exact compatibility proof") in
  do* ensure_label_audit repository head (force_audit head current compatibility) in
  do* land (each (ensure_auto_merge_disabled repository) (drop 1 (cv_members caravan))) in
  do* land (ensure_mutation_capacity 2) in
  let* expected := land (precondition head) in
  let* receipt := send_or (admin_squash_merge repository expected) (SentAdminSquash expected)
    (λ e, if permission_denied e
          then ForceDenied caravan "authenticated actor cannot perform the required administrator squash merge" (DeniedByProvider e)
          else PassLanding (ProviderFailed e (Some head))) in
  do* update (record receipt "administrator squash-merged forced caravan head") in
  let* expected := land (precondition head) in
  let* consumed := send_or (remove_label repository expected "caravan-force") (SentRemoveLabel expected "caravan-force")
                     (λ e, ForceIntentConsumeFailed e head) in
  do* update (record consumed "consumed one-shot force intent after successful merge") in
  update (push_event (mkCaravanEvent ForceMergeCompleted (Some (cv_id caravan)) [head]
    (Some "administrator squash merge completed") None)).

Definition force_merge_head (status : LandingStatus) (caravan : Caravan) (force_merge : bool)
    (rewritten_heads : gmap PrNumber CommitOid) : Eff unit :=
  let repository := ls_repository status in
  let* head := land (expect (caravan_head caravan) "caravan head") in
  let* p := the_progress in
  let* current := land (expect (pg_current p !! head) "current head facts") in
  do* ensure force_merge (ForceDenied caravan "repository policy has force_merge=false" DeniedByPolicy) in
  do* ensure (force_candidate current)
        (ForceDenied caravan "forced head must remain open, non-draft, and labelled caravan-force" DeniedByPolicy) in
  do* ensure (head_is_conflict_free_with_default status current)
        (ForceDenied caravan "forced head is not proven conflict-free with the exact default-branch revision" DeniedByPolicy) in
  do* send_for (verify_pull_request repository (precondition_of current)) (SentVerify (precondition_of current))
        (Some head) in
  let default_oid := br_oid (fl_default_branch (ga_fleet (ls_analysis status))) in
  do* land (call (verify_branch_head repository (ls_default_branch status) default_oid)
              (CallVerifyBranch (ls_default_branch status) default_oid) head) in
  do* update (push_event (mkCaravanEvent ForceMergeAttempted (Some (cv_id caravan)) [head]
        (Some "durable caravan-force intent bypassed CI and authorized immediate mechanical/admin merge") None)) in
  do* force_with_permission status caravan head in
  match cv_members caravan !! 1 with
  | None => ret ()
  | Some new_head => advance_after_force status caravan head new_head rewritten_heads
  end.
End pass.
