(* ===== verification/Converge.v ===== *)
(** The passes of a tick over the caravans: of src/src/sync.rs, which caravans
    are selected, what is checked before the first write, and how one caravan
    is reconciled; [execute_root_first], [execute_native_stack_prefix_first] and
    [execute_bounded_with_native] compose them. *)

From Stdlib Require Import Ascii String.
From S2P Require Import Prelude Text Budget StackLock StackMerge StackPolicy StackLand Scheduler CiClassify Model Events Selection Mutations Lineage RequiredRuns Generation Graph RootMerge Effects Landing Pass.

#[local] Open Scope string_scope.
#[local] Open Scope list_scope.
#[local] Open Scope nat_scope.
#[local] Open Scope effect_scope.

(** ** The status a pass works on *)

(** A provider Stack and what is wrong with it; [nt_evidence] is its JSON. *)
Record MappedStack := mkMappedStack {
  nt_number : N;
  nt_open : bool;
  nt_caravan_id : option PrNumber;
  nt_problems : list StackBackendProblem;
  nt_evidence : string }.

Record StackBackend := mkStackBackend {
  sb_configured : StackType;
  sb_capability : StackCapability;
  sb_provider_stacks_truncated : bool;
  sb_native_stacks : list MappedStack;
  sb_problems : list StackBackendProblem }.

Record SyncStatus := mkSyncStatus {
  sy_landing : LandingStatus;
  sy_current_pr : option PrNumber;
  sy_current_branch : option string;
  sy_pauses : list (PauseState * PrNumber);
  sy_head_merge_actor : HeadMergeActor;
  sy_external_auto_merge_policy : ExternalAutoMergePolicy;
  sy_max_root_merges_per_tick : N;
  sy_rebase_on_join : bool;
  sy_admission_gate : option CiAdmissionGateConfig;
  sy_stack_backend : StackBackend }.
Definition sy_analysis (s : SyncStatus) : GraphAnalysis := ls_analysis (sy_landing s).
Definition sy_fleet (s : SyncStatus) : CaravanFleet := ga_fleet (sy_analysis s).
Definition sy_repository (s : SyncStatus) : RepositoryId := ls_repository (sy_landing s).

Record RequiredRunsPolicy := mkRunsPolicy { rq_grace_secs : N; rq_retrigger : bool }.

(** ** Quarantined caravans *)

Definition QUARANTINABLE_STACK_PROBLEMS : list string :=
  ["github_stack_member_order_drift"; "native_stack_rebase_required"; "github_stack_pr_base_drift";
   "github_stack_head_drift"].
Definition native_stack_quarantinable (native : MappedStack) : bool :=
  nt_open native && is_some_b (nt_caravan_id native) && negb (0 =? length (nt_problems native))
  && forallb (λ problem, mem (bp_code problem) QUARANTINABLE_STACK_PROBLEMS) (nt_problems native).

Definition quarantined_native_caravan_ids (status : SyncStatus) : gset PrNumber :=
  list_to_set (omap nt_caravan_id (List.filter native_stack_quarantinable (sb_native_stacks (sy_stack_backend status)))).

Definition blocking_native_stack_problems (status : SyncStatus) : list StackBackendProblem :=
  let isolated := List.filter native_stack_quarantinable (sb_native_stacks (sy_stack_backend status)) ≫= nt_problems in
  List.filter (λ problem, negb (mem problem isolated)) (sb_problems (sy_stack_backend status)).

(** ** Selection *)

Definition checks_have_exact_deferred_gate (gate : CiAdmissionGateConfig) (checks : list CheckSnapshot) : bool :=
  let current := (latest_checks_per_identity checks).1 in
  match List.filter (λ check, String.eqb (ck_name check) (gc_context gate)) current with
  | [matching] =>
      bool_decide (ck_state matching = CheckFailure)
      && forallb (λ check, String.eqb (ck_name check) (gc_context gate)
           || negb match ck_state check with
                   | CheckFailure | CheckTimedOut | CheckActionRequired | CheckUnknown => true
                   | _ => false
                   end) current
  | _ => false
  end.

Definition gate_recoverable (gate : CiAdmissionGateConfig) (candidate : PullRequestSnapshot) : bool :=
  has_label candidate (gc_member_label gate) && checks_have_exact_deferred_gate gate (pr_checks candidate)
  && forallb (λ check, String.eqb (ck_name check) (gc_context gate) && bool_decide (ck_state check = CheckFailure))
       (List.filter check_is_failure (latest_checks_per_identity (pr_checks candidate)).1).
Definition parked_caravan_may_need_gate_recovery (status : SyncStatus) (caravan : Caravan) : bool :=
  is_some_and (sy_admission_gate status) (λ gate,
    existsb (λ number, is_some_and (ga_pull_requests (sy_analysis status) !! number) (gate_recoverable gate))
      (cv_members caravan)).

(** [historical_predecessor] of src/src/read.rs. *)
Definition historical_predecessor (status : SyncStatus) : option PrNumber :=
  branch ← sy_current_branch status;
  match List.filter (λ pull,
          state_is pull Merged && has_label pull "caravan"
          && bool_decide (br_repository (pr_head pull) = sy_repository status) && negb (pr_cross_repository pull)
          && String.eqb (br_name (pr_head pull)) branch) (bt_values (ga_pull_requests (sy_analysis status))) with
  | [pull] => Some (pr_number pull)
  | _ => None
  end.

(** The age of the root: a root without one comes last. *)
Definition fifo_key (status : SyncStatus) (caravan : Caravan) : bool * string * PrNumber :=
  let created_at := ga_pull_requests (sy_analysis status) !! cv_id caravan ≫= pr_created_at in
  (is_none_b created_at, default EmptyString created_at, cv_id caravan).

Definition active_caravan (status : SyncStatus) (caravan : Caravan) : bool :=
  negb (bool_decide (cv_id caravan ∈ quarantined_native_caravan_ids status))
  && (negb (cv_parked caravan) || parked_caravan_may_need_gate_recovery status caravan).

Definition select_caravans {E F} (status : SyncStatus) (all : bool) : result (list Caravan) (PassError E F) :=
  let selected :=
    if all then Ok (List.filter (active_caravan status) (fl_caravans (sy_fleet status)))
    else match sy_current_pr status with
    | None =>
        Err match historical_predecessor status with
            | Some predecessor => HistoricalSuccessorNotFound predecessor
            | None => CurrentPrNotFound
            end
    | Some current =>
        match containing (sy_fleet status) current with
        | None => Err (CurrentPrNotInCaravan current)
        | Some caravan =>
            if bool_decide (cv_id caravan ∈ quarantined_native_caravan_ids status)
            then Err (MembershipRepairRequired caravan)
            else if cv_parked caravan && negb (parked_caravan_may_need_gate_recovery status caravan)
            then Err (CaravanParkedRed caravan)
            else Ok [caravan]
        end
    end in
  match selected with
  | Ok caravans => Ok (sort_by_key (fifo_key status) caravans)
  | Err e => Err e
  end.

Definition paused (status : SyncStatus) (caravan : Caravan) : bool :=
  existsb (λ pause, is_effective pause.1 && N.eqb pause.2 (cv_id caravan)) (sy_pauses status).

(** ** The graph *)

Definition problem_affects_selected_caravans (problem : GraphProblem) (selected : list Caravan) : bool :=
  (0 =? length (gp_prs problem))
  || existsb (λ number, existsb (λ caravan, mem number (cv_members caravan)) selected) (gp_prs problem).

(** A force-labelled head without auto-merge waits for the force path. *)
Definition force_head_auto_merge_gap (status : SyncStatus) (problem : GraphProblem) (force_merge : bool) : option PrNumber :=
  if negb force_merge || negb (bool_decide (gp_kind problem = AutoMergeInvariant)) then None
  else match gp_prs problem with
  | [number] =>
      pull_request ← ga_pull_requests (sy_analysis status) !! number;
      caravan ← containing (sy_fleet status) number;
      then_some (bool_decide (caravan_head caravan = Some number) && state_is pull_request Open
                 && negb (pr_draft pull_request) && has_label pull_request "caravan-force"
                 && negb (am_enabled (pr_auto_merge pull_request))) number
  | _ => None
  end.

(** The merged caravan members whose branch is this one. *)
Definition merged_on_branch (status : SyncStatus) (branch : string) : list PullRequestSnapshot :=
  List.filter (λ candidate, state_is candidate Merged && has_label candidate "caravan"
                            && String.eqb (br_name (pr_head candidate)) branch)
    (bt_values (ga_pull_requests (sy_analysis status))).

Definition recoverable_dangling_problem (status : SyncStatus) (selected : list Caravan) (problem : GraphProblem) : bool :=
  match gp_prs problem with
  | [child; predecessor] =>
      existsb (λ caravan, bool_decide (caravan_head caravan = Some child)) selected
      && match ga_pull_requests (sy_analysis status) !! child, ga_pull_requests (sy_analysis status) !! predecessor with
         | Some child, Some predecessor =>
             state_is predecessor Merged && has_label predecessor "caravan"
             && String.eqb (br_name (pr_base child)) (br_name (pr_head predecessor))
             && (length (merged_on_branch status (br_name (pr_base child))) =? 1)
         | _, _ => false
         end
  | _ => false
  end.

Definition merged_predecessor (status : SyncStatus) (caravan : Caravan) : option PullRequestSnapshot :=
  number ← caravan_head caravan;
  head ← ga_pull_requests (sy_analysis status) !! number;
  if String.eqb (br_name (pr_base head)) (ls_default_branch (sy_landing status)) then None
  else match merged_on_branch status (br_name (pr_base head)) with
       | [predecessor] => Some predecessor
       | _ => None
       end.

Definition is_adjacent_pair (status : SyncStatus) (prs : list PrNumber) : bool :=
  match prs with
  | [first; second] =>
      existsb (λ caravan, existsb (λ pair, bool_decide (pair = (first, second)) || bool_decide (pair = (second, first)))
                            (pairs (cv_members caravan))) (fl_caravans (sy_fleet status))
  | _ => false
  end.

Definition decision_kind (status : SyncStatus) (problem : GraphProblem) : DecisionKind :=
  match gp_kind problem with
  | Incompatible =>
      if length (gp_prs problem) =? 1 then HeadConflict
      else if is_adjacent_pair status (gp_prs problem) then LinkConflict
      else CrossCaravanConflict
  | CandidateIncompatible => InvalidGraph
  | MissingHead | MultipleHeads | Branching | Cycle | DanglingBase | ActiveAndEvicted | DuplicateMember
  | ForkOnlyPredecessor | AutoMergeInvariant | ReusedBranchProvenance | SupersededGenerationKind | DissolvedMember
  | AmbiguousGenerationKind | InvalidGenerationMetadataKind | UnknownKind => InvalidGraph
  end.
(** The message of the decision, and the caravan it is about. *)
Definition decision_message (status : SyncStatus) (problem : GraphProblem) : string :=
  if bool_decide (decision_kind status problem ∈ [HeadConflict; LinkConflict]) && negb (sy_rebase_on_join status)
  then fmt [gp_message problem; "; rebase_on_join=disabled, so Cara will not rewrite the affected branch"]
  else gp_message problem.
Definition decision_for_problem {E F} (problem : GraphProblem) (status : SyncStatus) : PassError E F :=
  GraphDecision (decision_kind status problem)
    (find_map (λ number, cv_id <$> containing (sy_fleet status) number) (gp_prs problem)) problem
    (decision_message status problem).

(** Skipped by the validation: unrelated, or what this pass corrects. *)
Definition passes_over (status : SyncStatus) (selected : list Caravan) (force_merge : bool) (problem : GraphProblem) : bool :=
  let correctable_auto_merge :=
    bool_decide (gp_kind problem = AutoMergeInvariant)
    && forallb (λ number, existsb (λ caravan, mem number (cv_members caravan)) selected) (gp_prs problem) in
  let correctable_advancement :=
    bool_decide (gp_kind problem = DanglingBase) && recoverable_dangling_problem status selected problem in
  let deferred_force_head :=
    is_some_and (force_head_auto_merge_gap status problem force_merge) (λ number,
      negb (existsb (λ caravan, mem number (cv_members caravan)) selected)) in
  negb (blocks_fleet (gp_kind problem)) || negb (problem_affects_selected_caravans problem selected)
  || correctable_auto_merge || correctable_advancement || deferred_force_head.

Definition validate_graph {E F} (status : SyncStatus) (selected : list Caravan) (force_merge : bool)
    : result () (PassError E F) :=
  match List.find (λ problem, negb (passes_over status selected force_merge problem)) (fl_problems (sy_fleet status)) with
  | Some problem => Err (decision_for_problem problem status)
  | None => Ok ()
  end.

(** The first problem that the final rediscovery does not pass over. *)
Definition blocks_completion (status : SyncStatus) (p : SyncProgress CiDiagnosis) (x : PassExtra) (force_merge : bool)
    (problem : GraphProblem) : bool :=
  if negb (blocks_fleet (gp_kind problem)) then false
  else if negb (0 =? length (gp_prs problem))
          && negb (existsb (λ number, is_some_and (containing (sy_fleet status) number) (λ caravan,
                     mem (cv_id caravan) (px_synchronized_caravans x))) (gp_prs problem))
  then false
  else match force_head_auto_merge_gap status problem force_merge with
  | None => true
  | Some number =>
      let attempted := existsb (λ event, bool_decide (ev_kind event = ForceMergeAttempted) && mem number (ev_prs event))
                         (pg_events p) in
      match List.find (λ item, N.eqb (ob_pr item) number) (pg_ci p) with
      | None => false
      | Some item => negb (bool_decide (ob_disposition item = CiForced) && negb attempted)
      end
  end.
Definition first_blocking_completion_problem (status : SyncStatus) (p : SyncProgress CiDiagnosis) (x : PassExtra)
    (force_merge : bool) : option GraphProblem :=
  List.find (blocks_completion status p x force_merge) (fl_problems (sy_fleet status)).

(** ** Conflict events *)

Definition conflict_class (status : SyncStatus) (problem : GraphProblem) : string :=
  match gp_kind problem with
  | CandidateIncompatible => "candidate"
  | Incompatible =>
      if length (gp_prs problem) =? 1 then "head"
      else if is_adjacent_pair status (gp_prs problem) then "link" else "cross_caravan"
  | _ => "unknown"
  end.

(** The event of a conflict report that is about the problem, and its identity. *)
Definition conflict_event (status : SyncStatus) (problem : GraphProblem) (report : CompatibilityReport)
    : option ((string * string * CommitOid) * CaravanEvent) :=
  let pulls := ga_pull_requests (sy_analysis status) in
  '(number, pull_request) ← find_map (λ number,
      pull ← pulls !! number; then_some (bool_decide (pr_head pull = cr_candidate report)) (number, pull)) (gp_prs problem);
  let target_matches :=
    if length (gp_prs problem) =? 1 then bool_decide (cr_target report = fl_default_branch (sy_fleet status))
    else existsb (λ target, negb (N.eqb target number)
           && is_some_and (pulls !! target) (λ target, bool_decide (pr_head target = cr_target report))) (gp_prs problem) in
  if negb (state_is pull_request Open) || negb target_matches then None
  else
    let dedupe_key := fmt [repo_owner (sy_repository status); "/"; repo_name (sy_repository status); "#"; show_pr number; "@";
                           br_oid (pr_head pull_request)] in
    Some ((dedupe_key, conflict_class status problem, br_oid (cr_target report)),
          mkCaravanEvent ConflictDetected (cv_id <$> containing (sy_fleet status) number)
            (number :: List.filter (λ pr, negb (N.eqb pr number)) (gp_prs problem)) (Some (gp_message problem))
            (Some dedupe_key)).

Fixpoint first_of_each {K A} `{Countable K} (seen : gset K) (l : list (K * A)) : list A :=
  match l with
  | [] => []
  | (k, a) :: l => if bool_decide (k ∈ seen) then first_of_each seen l else a :: first_of_each ({[k]} ∪ seen) l
  end.
Definition conflict_detected_events (status : SyncStatus) : list CaravanEvent :=
  first_of_each ∅
    (List.filter (λ problem, bool_decide (gp_kind problem ∈ [Incompatible; CandidateIncompatible])) (fl_problems (sy_fleet status))
     ≫= λ problem, omap (conflict_event status problem)
       (List.filter (λ report, bool_decide (cr_outcome report = Conflict)) (ga_compatibility (sy_analysis status)))).

Definition notified (event : CaravanEvent) : option (bool * string) :=
  match ev_kind event with
  | RequiredRunsMissing => pair true <$> ev_dedupe_key event
  | ConflictDetected => pair false <$> ev_dedupe_key event
  | _ => None
  end.
Fixpoint dedupe_hook_events (seen : gset (bool * string)) (events : list CaravanEvent) : list CaravanEvent :=
  match events with
  | [] => []
  | event :: events =>
      match notified event with
      | None => event :: dedupe_hook_events seen events
      | Some key => if bool_decide (key ∈ seen) then dedupe_hook_events seen events
                    else event :: dedupe_hook_events ({[key]} ∪ seen) events
      end
  end.

(** ** A fresh progress *)

Definition quarantine_step {W E F} `{!SyncProvider W E F} (status : SyncStatus) (native : MappedStack) : MutationStep :=
  let members := default [] (cv_members <$> (nt_caravan_id native ≫= fleet_caravan (sy_fleet status))) in
  let generations := precondition_of <$> omap (λ pr, ga_pull_requests (sy_analysis status) !! pr) members in
  mkMutationStep NativeStackLand StepAlreadySatisfied (nt_caravan_id native)
    (fmt ["topology quarantine receipt: Stack #"; show_N (nt_number native); " provider_before="; nt_evidence native;
          " caravan_members=["; join ", " ((λ n, fmt ["PrNumber("; show_pr n; ")"]) <$> members);
          "] caravan_generations="; preconditions_json generations;
          " mutated=false retryable=false repair=review native-stack recovery-preview and apply only its exact sealed intent; rollback=preserve provider_before byte-for-byte"]).
Definition progress_new {W E F} `{!SyncProvider W E F} (status : SyncStatus) (operation_id : OperationId)
    (mutation_limit : N) (runs : RequiredRunsPolicy) : SyncProgress CiDiagnosis :=
  mkSyncProgress
    (mkSyncSettings operation_id (sy_repository status) (ls_default_branch (sy_landing status))
       (sy_head_merge_actor status) (sy_external_auto_merge_policy status)
       (N.max (sy_max_root_merges_per_tick status) 1) (rq_grace_secs runs) (rq_retrigger runs) mutation_limit)
    (quarantine_step status <$> List.filter (λ native,
       bool_decide (default 0%N (nt_caravan_id native) ∈ quarantined_native_caravan_ids status))
       (sb_native_stacks (sy_stack_backend status)))
    [] [] [] [] [] ∅ [] [] (conflict_detected_events status) (ga_pull_requests (sy_analysis status)).

(** ** Merging the progress of two passes *)

Definition Outcome : Type := SyncProgress CiDiagnosis * PassExtra.

Definition merge_native (target source : NativeEvidence) : NativeEvidence :=
  mkNativeEvidence (ne_land target ++ ne_land source) (ne_waits target ++ ne_waits source).
Definition merge_sync_progress (target source : Outcome) : Outcome :=
  let '(t, tx) := target in
  let '(s, sx) := source in
  (mkSyncProgress (pg_settings t) (pg_steps t ++ pg_steps s) (pg_provider_receipts t ++ pg_provider_receipts s)
     (pg_root_promotion t ++ pg_root_promotion s) (pg_root_merge t ++ pg_root_merge s)
     (foldl (λ l r, replace_by rp_pr r l) (pg_required_runs t) (pg_required_runs s))
     (foldl (λ l p, (push_problem l p).2) (pg_missing_required_runs t) (pg_missing_required_runs s))
     (pg_required_contexts t ∪ pg_required_contexts s)
     (pg_head_advancements t ++ pg_head_advancements s)
     (foldl (λ l o, replace_by ob_pr o l) (pg_ci t) (pg_ci s))
     (dedupe_hook_events ∅ (pg_events t ++ pg_events s)) (pg_current s),
   mkExtra (foldl (λ l r, replace_by ar_pr r l) (px_root_auto_merge tx) (px_root_auto_merge sx))
     (merge_native (px_native tx) (px_native sx)) (px_native_stack tx)
     (vec_dedup (vec_sort (px_synchronized_caravans tx ++ px_synchronized_caravans sx)))
     (px_paused_caravans tx ++ px_paused_caravans sx)).

(** ** Reconciling a caravan *)

Inductive NativeCaravanRoute := RouteCaravanOwned | RouteSingletonCaravanOwned | RouteNativeStack (stack_number : N).
#[export] Instance NativeCaravanRoute_eq_dec : EqDecision NativeCaravanRoute.
Proof. solve_decision. Defined.
Definition is_native (route : NativeCaravanRoute) : bool :=
  match route with RouteNativeStack _ => true | _ => false end.

Definition native_member_required_ready (p : SyncProgress CiDiagnosis) (pr : PrNumber) : bool :=
  is_some_and (List.find (λ receipt, N.eqb (rp_pr receipt) pr) (reverse (pg_required_runs p))) (λ receipt,
    is_some_and (pg_current p !! pr) (λ current,
      bool_decide (pr_head current = ra_head (rp_assessment receipt))
      && bool_decide (pr_base current = ra_base (rp_assessment receipt)))
    && is_some_and (ra_required_policy (rp_assessment receipt)) (λ policy,
         rr_complete policy && String.eqb (rr_branch policy) (se_default_branch (pg_settings p)))
    && bool_decide (ra_status (rp_assessment receipt) ∈ [Satisfied; NotRequired])).

(** The first observation of the pull request is replaced in place. *)
Fixpoint upsert_ci_observation (o : CiObservation CiDiagnosis) (l : list (CiObservation CiDiagnosis))
    : list (CiObservation CiDiagnosis) :=
  match l with
  | [] => [o]
  | x :: l => if N.eqb (ob_pr x) (ob_pr o) then o :: l else x :: upsert_ci_observation o l
  end.

Inductive MemberScan :=
| ScanRestarted
| ScanEnded (ci_failure : option (CiObservation CiDiagnosis)).

(** The flags of the command. *)
Record SyncFlags := mkFlags { fg_rerun_failed : bool; fg_force_merge : bool }.

Section converge.
Context {W E F : Type} `{!LandingProvider W E CiDiagnosis, !SyncProvider W E F}.

#[local] Abbreviation Eff A := (M (SyncPass W E F) (PassError E F) A).

Definition from_result {A} (r : result A (PassError E F)) : Eff A := lift r.

Definition require_native_stack_backend_healthy (status : SyncStatus) : Eff unit :=
  let blocking := blocking_native_stack_problems status in
  ensure (negb (bool_decide (sb_configured (sy_stack_backend status) = StackGithub)) || (0 =? length blocking))
    (BackendUnhealthy blocking).

Definition preflight_repository (status : SyncStatus) : Eff unit :=
  let repository := sy_repository status in
  let branch := ls_default_branch (sy_landing status) in
  let* actor := actor in
  do* (if actor_caravan actor then
         let* allowed := send_for (repository_allows_squash_merge repository) (SentAllows false) None in
         ensure allowed SquashMergeNotEnabled
       else
         let* allowed := send_for (repository_allows_auto_merge repository) (SentAllows true) None in
         ensure allowed AutoMergeNotEnabled) in
  let* protected_ := send_for (branch_is_protected repository branch) (SentProtected branch) None in
  ensure protected_ DefaultBranchNotProtected.

Definition route_facts (status : SyncStatus) (native : NativeSyncContext) : RouteFacts :=
  mkRouteFacts (nc_stack_type native) (nc_mutations_opt_in native) (sb_capability (sy_stack_backend status))
    (sb_provider_stacks_truncated (sy_stack_backend status)).
Definition native_route_for_caravan (status : SyncStatus) (caravan : Caravan) (native : option NativeSyncContext)
    : Eff NativeCaravanRoute :=
  match native with
  | None => ret RouteCaravanOwned
  | Some native =>
      let* intersections := send_or (native_stack_intersections (sy_repository status) (cv_members caravan))
                              (SentIntersections (cv_members caravan)) (λ e, NativeReadRefused e caravan) in
      match route_landing (route_facts status native) caravan intersections (ga_pull_requests (sy_analysis status)) with
      | Err refusal => throw (NativeRouteRefused refusal caravan)
      | Ok (NativeStack stack_number _) => ret (RouteNativeStack stack_number)
      | Ok CaravanOwned => ret RouteCaravanOwned
      | Ok SingletonCaravanOwned => ret RouteSingletonCaravanOwned
      end
  end.

Definition disarm_caravan_members (status : SyncStatus) (caravan : Caravan) : Eff unit :=
  let* actor := actor in
  let members := if actor_caravan actor then cv_members caravan else drop 1 (cv_members caravan) in
  land (each (ensure_no_foreign_auto_merge (sy_repository status) (cv_id caravan)) members).

(** One observation, recorded. *)
Definition observe_member (repository : RepositoryId) (number : PrNumber) : Eff (CiObservation CiDiagnosis) :=
  let* observation := land (observe_ci repository number) in
  do* update (λ p, with_ci (upsert_ci_observation observation (pg_ci p)) p) in
  ret observation.

Fixpoint scan_members (status : SyncStatus) (caravan_id : PrNumber) (rerun_failed native : bool)
    (members : list PrNumber) : Eff MemberScan :=
  match members with
  | [] => ret (ScanEnded None)
  | number :: rest =>
      let repository := sy_repository status in
      let* observation := observe_member repository number in
      let failed := bool_decide (ob_disposition observation = CiFailed) in
      let* restarted := verify_required_runs_and_recover_gate (sy_admission_gate status) repository caravan_id number
                          observation in
      if restarted then ret ScanRestarted
      else
        do* (if failed && rerun_failed
             then rerun_exact_failed_runs repository number (dg_rerunnable_run_ids (ob_diagnosis observation))
             else ret ()) in
        let* p := the_progress in
        if native && negb (native_member_required_ready p number) then ret (ScanEnded None)
        else if failed then
          let* final := observe_member repository number in
          if bool_decide (ob_disposition final = CiFailed) then ret (ScanEnded (Some final))
          else scan_members status caravan_id rerun_failed native rest
        else scan_members status caravan_id rerun_failed native rest
  end.

Definition ci_decision_error {A} (caravan : Caravan) (observation : CiObservation CiDiagnosis) : Eff A :=
  do* update (push_event (mkCaravanEvent CiFailedEvent (Some (cv_id caravan)) [ob_pr observation]
        (Some "unforced terminal or unknown CI state requires a decision") None)) in
  throw (CiDecision caravan observation).

(** The drain does not touch the settings of the progress. *)
Definition keep_settings (old p : SyncProgress CiDiagnosis) : SyncProgress CiDiagnosis :=
  mkSyncProgress (pg_settings old) (pg_steps p) (pg_provider_receipts p) (pg_root_promotion p) (pg_root_merge p)
    (pg_required_runs p) (pg_missing_required_runs p) (pg_required_contexts p) (pg_head_advancements p) (pg_ci p)
    (pg_events p) (pg_current p).
Definition drain_native (caravan : Caravan) (stack_number : N) : Eff unit := λ s,
  match px_native_stack (pa_extra s) with
  | None => (Err (PassLanding (Panicked "native route requires native sync context")), s)
  | Some native =>
      let '(r, (p, x), w) :=
        drain_stack caravan stack_number native (pa_progress s) (px_native (pa_extra s)) (pa_host s) in
      (match r with Ok () => Ok () | Err e => Err (NativeLandingFailed e) end,
       mkPass (keep_settings (pa_progress s) p) (with_native x (pa_extra s)) (pa_log s ++ [SentDrain (cv_id caravan) stack_number]) w)
  end.

(** What follows the observations: the native landing, the arming of the root,
    or the drain. *)
Definition finish_caravan (status : SyncStatus) (caravan : Caravan) (head : PrNumber) (route : NativeCaravanRoute)
    (ci_failure : option (CiObservation CiDiagnosis)) (rewritten_heads : gmap PrNumber CommitOid) : Eff unit :=
  match route with
  | RouteNativeStack stack_number => drain_native caravan stack_number
  | _ =>
      let* actor := actor in
      if actor_github actor then
        do* ensure_root_squash_auto_merge (sy_repository status) (cv_id caravan) head
              (ga_pull_requests (sy_analysis status) !! head) (rewritten_heads !! head) in
        match ci_failure with
        | Some observation => ci_decision_error caravan observation
        | None => ret ()
        end
      else
        match ci_failure with
        | Some observation => ci_decision_error caravan observation
        | None => land (drain_caravan_roots (sy_landing status) caravan (bool_decide (route = RouteSingletonCaravanOwned)))
        end
  end.

(** The reconciliation on a known route. *)
Definition reconcile_routed (status : SyncStatus) (caravan : Caravan) (flags : SyncFlags)
    (rewritten_heads : gmap PrNumber CommitOid) (head : PrNumber) (route : NativeCaravanRoute) : Eff unit :=
  let predecessor := pr_number <$> merged_predecessor status caravan in
  do* land (promote_root (sy_landing status) (cv_id caravan) head predecessor (is_some_b predecessor)) in
  do* match predecessor with
      | Some predecessor => update (record_head_advancement predecessor head)
      | None => ret ()
      end in
  do* disarm_caravan_members status caravan in
  let* p := the_progress in
  if negb (is_native route) && is_some_and (pg_current p !! head) (λ current, has_label current "caravan-force")
  then force_merge_head (sy_landing status) caravan (fg_force_merge flags) rewritten_heads
  else
    let* scan := scan_members status (cv_id caravan) (fg_rerun_failed flags) (is_native route) (cv_members caravan) in
    match scan with
    | ScanRestarted => ret ()
    | ScanEnded ci_failure => finish_caravan status caravan head route ci_failure rewritten_heads
    end.

Definition reconcile_caravan (status : SyncStatus) (caravan : Caravan) (flags : SyncFlags)
    (rewritten_heads : gmap PrNumber CommitOid) : Eff unit :=
  let* head := land (expect (caravan_head caravan) "caravans are non-empty") in
  let* x := extra in
  let* route := native_route_for_caravan status caravan (px_native_stack x) in
  reconcile_routed status caravan flags rewritten_heads head route.

(** ** The passes *)

(** [SyncProgress::new]: the log and the provider go on. *)
Definition start (status : SyncStatus) (synchronized : list PrNumber) (mutation_limit : N) (runs : RequiredRunsPolicy)
    (native : option NativeSyncContext) (paused : list (PauseState * PrNumber)) : Eff unit := λ s,
  let (id, w) := operation_id (pa_host s) in
  (Ok (), mkPass (progress_new status id mutation_limit runs) (extra_new native synchronized paused) (pa_log s) w).
Definition outcome : Eff Outcome := ask (λ s, (pa_progress s, pa_extra s)).

Definition changed (p : SyncProgress CiDiagnosis) : bool :=
  existsb (λ step, bool_decide (ms_state step = StepCompleted)) (pg_steps p).

Definition pause_debug (s : PauseState) : string :=
  match s with
  | PauseActive => "Active" | PauseExpired => "Expired" | PauseStale => "Stale" | PauseRecovering => "Recovering"
  | PauseRecoveryDrift => "RecoveryDrift" | PauseRetired => "Retired"
  end.
Definition paused_step (pause : PauseState * PrNumber) : MutationStep :=
  mkMutationStep DisableAutoMerge StepAlreadySatisfied (Some pause.2)
    (fmt ["caravan #"; show_pr pause.2; " intentionally paused ("; pause_debug pause.1;
          "); no mutation; after recovery explicitly run `cara resume --head-pr "; show_pr pause.2; " --actor <actor>`"]).

Definition execute_bounded_with_native (status : SyncStatus) (all : bool) (flags : SyncFlags) (mutation_limit : N)
    (rewritten_heads : gmap PrNumber CommitOid) (runs : RequiredRunsPolicy) (native : option NativeSyncContext)
    : Eff Outcome :=
  do* (if is_some_b native then require_native_stack_backend_healthy status else ret ()) in
  let* selected := from_result (select_caravans status all) in
  let paused_caravans := List.filter (λ pause, is_effective pause.1
    && existsb (λ caravan, N.eqb (cv_id caravan) pause.2) selected) (sy_pauses status) in
  let caravans := List.filter (λ caravan, negb (existsb (λ pause, N.eqb pause.2 (cv_id caravan)) paused_caravans)) selected in
  do* start status (cv_id <$> caravans) mutation_limit runs native paused_caravans in
  do* update (λ p, with_steps (pg_steps p ++ (paused_step <$> paused_caravans)) p) in
  do* (if 0 =? length caravans then ret ()
       else
         do* preflight_repository status in
         do* from_result (validate_graph status caravans (fg_force_merge flags)) in
         each (λ caravan, reconcile_caravan status caravan flags rewritten_heads) caravans) in
  outcome.

(** The caravans in turn, until one advanced. *)
Fixpoint native_prefix (status : SyncStatus) (flags : SyncFlags) (mutation_limit : N) (runs : RequiredRunsPolicy)
    (native : NativeSyncContext) (waiting : option Outcome) (caravans : list Caravan) : Eff (option Outcome) :=
  match caravans with
  | [] => ret waiting
  | caravan :: rest =>
      do* start status [cv_id caravan] mutation_limit runs (Some native) [] in
      do* preflight_repository status in
      do* from_result (validate_graph status [caravan] (fg_force_merge flags)) in
      do* reconcile_caravan status caravan flags ∅ in
      let* done := outcome in
      let advanced := negb (0 =? length (ne_land (px_native done.2))) || changed done.1 in
      let waiting := Some match waiting with Some previous => merge_sync_progress previous done | None => done end in
      if advanced then ret waiting else native_prefix status flags mutation_limit runs native waiting rest
  end.

Definition execute_native_stack_prefix_first (status : SyncStatus) (all : bool) (flags : SyncFlags) (mutation_limit : N)
    (runs : RequiredRunsPolicy) (native : option NativeSyncContext) : Eff (option Outcome) :=
  match native with
  | None => ret None
  | Some native =>
      do* require_native_stack_backend_healthy status in
      let* selected := from_result (select_caravans status all) in
      native_prefix status flags mutation_limit runs native None
        (List.filter (λ caravan, negb (cv_parked caravan) && negb (paused status caravan)) selected)
  end.

Definition root_first_eligible (status : SyncStatus) (caravan : Caravan) : bool :=
  is_some_and (caravan_head caravan) (λ root,
    is_some_and (ga_pull_requests (sy_analysis status) !! root) (λ observed,
      state_is observed Open && negb (pr_draft observed)
      && String.eqb (br_name (pr_base observed)) (ls_default_branch (sy_landing status))
      && negb (am_enabled (pr_auto_merge observed))
      && bool_decide (classify_checks (pr_checks observed) (has_label observed "caravan-force") = CiPassing)
      && existsb (λ proof, bool_decide (ct_candidate proof = pr_head observed)
                           && bool_decide (ct_target proof = fl_default_branch (sy_fleet status)) && ct_identical proof)
           (ga_cumulative_trees (sy_analysis status)))).

(** [observe_required_runs]: the assessment without a recovery. *)
Definition observe_required_runs (repository : RepositoryId) (number : PrNumber)
    : M (Tick W E CiDiagnosis) (SyncError E) RequiredRunsAssessment :=
  let* current := current_of number in
  let* branch := setting se_default_branch in
  let* contexts := discover_required_contexts repository branch number in
  assess_required_runs repository current contexts.

(** The eligible roots in turn, until one landed. *)
Fixpoint root_first (status : SyncStatus) (caravans : list Caravan) : Eff (option Outcome) :=
  match caravans with
  | [] => ret None
  | caravan :: rest =>
      let repository := sy_repository status in
      let* root := land (expect (caravan_head caravan) "eligible caravan has a root") in
      do* land (promote_root (sy_landing status) (cv_id caravan) root None false) in
      do* land (ensure_no_foreign_auto_merge repository (cv_id caravan) root) in
      let* observation := observe_member repository root in
      let* assessment := land (observe_required_runs repository root) in
      do* land (push_required_runs (cv_id caravan) assessment None) in
      if negb (bool_decide (ob_disposition observation = CiPassing)) then root_first status rest
      else
        let* landed := land (merge_root (sy_landing status) (cv_id caravan) root (cv_members caravan) None false) in
        if landed then let* done := outcome in ret (Some done) else root_first status rest
  end.

Definition execute_root_first (status : SyncStatus) (all : bool) (mutation_limit : N) (runs : RequiredRunsPolicy)
    : Eff (option Outcome) :=
  if negb (actor_caravan (sy_head_merge_actor status)) then ret None
  else
    let* selected := from_result (select_caravans status all) in
    let caravans := List.filter (λ caravan, negb (cv_parked caravan) && negb (paused status caravan)
                                            && root_first_eligible status caravan) selected in
    if 0 =? length caravans then ret None
    else
      do* start status (cv_id <$> caravans) mutation_limit (mkRunsPolicy (rq_grace_secs runs) false) None [] in
      do* preflight_repository status in
      root_first status caravans.
End converge.
