(* ===== verification/ConvergeProofs.v ===== *)
(** What the passes of [Converge] guarantee: nothing is written before the
    preflight, a forced merge is fenced, one actor merges a caravan, the
    root-first pass lands one root, and an arming is bounded and proved. [wp] is
    the calculus they are proved in: the calls a computation adds to the log,
    with its answer and its state. *)

From Stdlib Require Import Ascii String.
From S2P Require Import Prelude Text Budget StackLock StackMerge StackPolicy StackLand Scheduler CiClassify Model Events Selection Mutations Lineage RequiredRuns Generation Graph RootMerge Effects Landing LandingProofs Pass Converge.

#[local] Open Scope string_scope.
#[local] Open Scope list_scope.
#[local] Open Scope nat_scope.
#[local] Open Scope effect_scope.

(** ** What a computation sends *)

Section sends.
Context {W E F : Type} `{!LandingProvider W E CiDiagnosis, !SyncProvider W E F}.

#[local] Abbreviation State := (SyncPass W E F).
#[local] Abbreviation Landing A := (M (Tick W E CiDiagnosis) (SyncError E) A).
#[local] Abbreviation Eff A := (M (SyncPass W E F) (PassError E F) A).
Implicit Types s : State.
Implicit Types P Q : Sent E F → Prop.

(** The log grew by these calls; the settings of the progress stay. *)
Definition sent (new : list (Sent E F)) s s' : Prop :=
  pa_log s' = pa_log s ++ new
  ∧ pg_settings (pa_progress s') = pg_settings (pa_progress s) ∧ px_native_stack (pa_extra s') = px_native_stack (pa_extra s).
(** By calls of this kind. *)
Definition sends P s s' : Prop := ∃ new, sent new s s' ∧ Forall P new.
Definition only {A} P (m : Eff A) : Prop := ∀ s, sends P s (m s).2.

Lemma sent_refl s : sent [] s s.
Proof. split_and!; [by rewrite app_nil_r | done..]. Qed.
Lemma sent_trans n1 n2 a b c : sent n1 a b → sent n2 b c → sent (n1 ++ n2) a c.
Proof. intros (L1 & S1 & X1) (L2 & S2 & X2). split_and!; [by rewrite L2, L1, app_assoc | congruence..]. Qed.

#[export] Instance sends_preorder P : PreOrder (sends P).
Proof.
  split.
  - intros s. exists []. split; [apply sent_refl | constructor].
  - intros a b c (n1 & S1 & F1) (n2 & S2 & F2). exists (n1 ++ n2). split; [by eapply sent_trans | by apply Forall_app].
Qed.

Lemma sends_weaken P Q s s' : sends P s s' → (∀ x, P x → Q x) → sends Q s s'.
Proof. intros (new & ? & Hf) HPQ. exists new. split; [done | by eapply Forall_impl]. Qed.

Lemma only_out {A} P (m : Eff A) s r s' : only P m → m s = (r, s') → sends P s s'.
Proof. intros Hm Hr. specialize (Hm s). by rewrite Hr in Hm. Qed.

Lemma only_weaken {A} P Q (m : Eff A) : only P m → (∀ x, P x → Q x) → only Q m.
Proof. intros Hm HPQ s. by eapply sends_weaken. Qed.

Lemma only_bind {A B} P (m : Eff A) (f : A → Eff B) : only P m → (∀ a, only P (f a)) → only P (bind m f).
Proof.
  intros Hm Hf s. unfold bind. specialize (Hm s). destruct (m s) as [[a | e] s1]; [| done]. etrans; [exact Hm | apply Hf].
Qed.

Lemma only_same {A} P (m : Eff A) : (∀ s, (m s).2 = s) → only P m.
Proof. intros Hm s. by rewrite Hm. Qed.
Lemma only_ret {A} P (a : A) : only P (ret a).
Proof. by apply only_same. Qed.
Lemma only_throw {A} P e : only P (throw (A := A) e).
Proof. by apply only_same. Qed.
Lemma only_ask {A} P (f : State → A) : only P (ask f).
Proof. by apply only_same. Qed.
Lemma only_lift {A} P (r : result A (PassError E F)) : only P (lift r).
Proof. by apply only_same. Qed.
Lemma only_ensure P b e : only P (ensure b e).
Proof. by apply only_same. Qed.
Lemma only_extra P f : (∀ x, px_native_stack (f x) = px_native_stack x) → only P (update_extra f).
Proof. intros Hf s. exists []. split; [| constructor]. split_and!; cbn; [by rewrite app_nil_r | done | apply Hf]. Qed.

Lemma only_send {A X} P (op : W → result A X * W) entry : (∀ r, P (entry r)) → only P (send op entry).
Proof.
  intros Hp s. unfold send. destruct (op (pa_host s)) as [r w]. exists [entry r]. by repeat constructor.
Qed.
Lemma send_or_run {A X} (op : W → result A X * W) entry err s r s' :
  send_or op entry err s = (r, s') →
  ∃ answer, sent [entry answer] s s' ∧ pa_progress s' = pa_progress s
    ∧ r = match answer with Ok a => Ok a | Err e => Err (err e) end.
Proof.
  unfold send_or, bind, send. destruct (op (pa_host s)) as [[a | e] w]; intros [= <- <-];
    [exists (Ok a) | exists (Err e)]; by repeat constructor.
Qed.
Lemma only_send_or {A X} P (op : W → result A X * W) entry err : (∀ r, P (entry r)) → only P (send_or op entry err).
Proof.
  intros Hp. apply only_bind; [by apply only_send |]. intros [a | e]; [apply only_ret | apply only_throw].
Qed.
Lemma only_send_for {A} P (op : W → result A E * W) entry n : (∀ r, P (entry r)) → only P (send_for op entry n).
Proof. apply only_send_or. Qed.

(** A computation of the landing sends what it logs. *)
Definition lifted (Q : Call E → Prop) (x : Sent E F) : Prop := ∃ c, x = SentLanding c ∧ Q c.

Lemma land_sends {A} (Q : Call E → Prop) (m : Landing A) s :
  moves Q (tick_of s) (m (tick_of s)).2 → sends (lifted Q) s (land m s).2.
Proof.
  intros (new & (Hlog & Hset & _) & Hf). unfold land. destruct (m (tick_of s)) as [r t]. cbn in *.
  exists (SentLanding <$> new). split.
  - split_and!; [| done | done]. unfold tick_of in Hlog. cbn in *. by rewrite Hlog, drop_app_length.
  - apply Forall_fmap. eapply Forall_impl; [exact Hf |]. intros c Hc. by exists c.
Qed.

Lemma only_land {A} P (Q : Call E → Prop) (m : Landing A) :
  steps (moves Q) m → (∀ c, Q c → P (SentLanding c)) → only P (land m).
Proof.
  intros Hm HP s. eapply sends_weaken; [by apply land_sends | intros x (c & -> & Hc); auto].
Qed.

(** An update writes nothing. *)
Lemma only_update P f : (∀ p, pg_settings (f p) = pg_settings p) → only P (update f).
Proof.
  intros Hf s. exists []. split; [| constructor]. split_and!; [| by apply Hf | done].
  unfold update, land, tick_of. cbn. by rewrite drop_all.
Qed.

(** A computation of the landing that returned. *)
Lemma land_run {A} (m : Landing A) s r s' :
  land m s = (r, s') →
  ∃ r0 t, m (tick_of s) = (r0, t) ∧ pa_progress s' = tk_progress t
    ∧ r = match r0 with Ok a => Ok a | Err e => Err (PassLanding e) end.
Proof. unfold land. destruct (m (tick_of s)) as [r0 t] eqn:Hm. intros [= <- <-]. by exists r0, t. Qed.
End sends.

Create HintDb pass.
#[global] Hint Resolve only_ret only_throw only_ask only_lift only_ensure : pass.
#[global] Hint Extern 1 (only _ (send _ _)) => (apply only_send; intros ?; exact I) : pass.
#[global] Hint Extern 1 (only _ (send_or _ _ _)) => (apply only_send_or; intros ?; exact I) : pass.
#[global] Hint Extern 1 (only _ (send_for _ _ _)) => (apply only_send_for; intros ?; exact I) : pass.
#[global] Hint Extern 1 (only _ (update _)) => (apply only_update; intros ?; repeat case_match; done) : pass.
#[global] Hint Extern 1 (only _ the_progress) => (apply only_ask) : pass.
#[global] Hint Extern 1 (only _ extra) => (apply only_ask) : pass.
#[global] Hint Extern 1 (only _ outcome) => (apply only_ask) : pass.
#[global] Hint Extern 1 (only _ (from_result _)) => (apply only_lift) : pass.
#[global] Hint Extern 1 (only _ (update_extra _)) => (apply only_extra; done) : pass.

(** Walks through a pass, one call, test or return at a time. *)
Ltac walk_pass :=
  repeat first
    [ match goal with |- ∀ _, _ => intros ? end
    | solve [auto with nocore pass]
    | apply only_bind
    | case_match; simplify_eq ].

(** ** Kinds of calls *)

Section kinds.
Context {W E F : Type} `{!LandingProvider W E CiDiagnosis, !SyncProvider W E F}.

#[local] Abbreviation State := (SyncPass W E F).
#[local] Abbreviation Landing A := (M (Tick W E CiDiagnosis) (SyncError E) A).
#[local] Abbreviation Eff A := (M (SyncPass W E F) (PassError E F) A).
Implicit Types s : State.

(** Neither merges nor arms; may arm; disables an auto-merge. *)
Definition arms (x : Sent E F) : Prop :=
  match x with
  | SentLanding c => not_squash c
  | SentAdminSquash _ _ | SentRemoveLabel _ _ _ | SentDrain _ _ => False
  | _ => True
  end.
Definition still (x : Sent E F) : Prop := match x with SentArm _ _ => False | _ => arms x end.
Definition disables (c : Call E) : Prop := match c with CallDisable _ _ => True | _ => False end.
Lemma still_arms x : still x → arms x.
Proof. by destruct x. Qed.
Lemma lifted_disables_still x : lifted disables x → still x.
Proof. intros (c & -> & Hc). by destruct c. Qed.

Lemma still_land {A} (m : Landing A) : steps (moves not_squash) m → only still (land m).
Proof. intros Hm. by apply (only_land still not_squash). Qed.
Lemma arms_land {A} (m : Landing A) : steps (moves not_squash) m → only arms (land m).
Proof. intros Hm. by apply (only_land arms not_squash). Qed.
End kinds.
#[global] Hint Extern 1 (only still (land _)) => (apply still_land; solve [auto with nocore moves | walk]) : pass.
#[global] Hint Extern 1 (only arms (land _)) => (apply arms_land; solve [auto with nocore moves | walk]) : pass.

(** ** The parts of a pass *)

Section parts.
Context {W E F : Type} `{!LandingProvider W E CiDiagnosis, !SyncProvider W E F}.

#[local] Abbreviation State := (SyncPass W E F).
#[local] Abbreviation Landing A := (M (Tick W E CiDiagnosis) (SyncError E) A).
#[local] Abbreviation Eff A := (M (SyncPass W E F) (PassError E F) A).
Implicit Types s : State.

#[local] Hint Resolve steps_current_of steps_precondition steps_capacity steps_read_exact steps_verify_runs
  steps_observe_ci steps_foreign steps_promote_root steps_push_required_runs steps_assess_required_runs
  steps_discover : moves.

Lemma steps_weaken {A} (P Q : Call E → Prop) (m : Landing A) :
  steps (moves P) m → (∀ c, P c → Q c) → steps (moves Q) m.
Proof. intros Hm HPQ s. destruct (Hm s) as (new & Hn & Hf). exists new. split; [done | by eapply Forall_impl]. Qed.

Lemma steps_each {A} P (f : A → Landing unit) l : (∀ a, steps (moves P) (f a)) → steps (moves P) (each f l).
Proof. intros Hf. induction l as [| a l IH]; cbn; [apply steps_ret | apply steps_bind; [apply _ | done..]]. Qed.
Lemma steps_disabled repository number : steps (moves disables) (ensure_auto_merge_disabled (W := W) (E := E) repository number).
Proof. unfold ensure_auto_merge_disabled, current_of, ensure_mutation_capacity, precondition. walk. Qed.
Lemma disables_calm (c : Call E) : disables c → not_squash c.
Proof. by destruct c. Qed.
Lemma steps_confirm_armed repository number target left_ observed reads :
  steps (moves not_squash) (confirm_armed repository number target left_ observed reads : Landing _).
Proof. revert observed reads. induction left_ as [| n IH]; intros observed reads; cbn; walk; apply IH. Qed.
#[local] Hint Resolve steps_confirm_armed : moves.

Lemma arms_weaken {A} (m : Eff A) : only still m → only arms m.
Proof. intros Hm. by eapply only_weaken, still_arms. Qed.

Lemma push_arming_still caravan_id observed trigger before armed reads attempts :
  only still (push_root_auto_merge (W := W) (E := E) (F := F) caravan_id observed trigger before armed reads attempts).
Proof. unfold push_root_auto_merge. walk_pass. Qed.
Lemma arm_once_arms repository number observed target :
  only arms (arm_root_once (W := W) (E := E) (F := F) repository number observed target).
Proof. unfold arm_root_once. walk_pass. Qed.
Lemma arm_attempts_arms repository caravan_id number trigger before left_ attempts reads observed :
  only arms (arm_attempts (W := W) (E := E) (F := F) repository caravan_id number trigger before left_ attempts reads observed).
Proof.
  revert attempts reads observed. induction left_ as [| n IH]; intros attempts reads observed; cbn; [walk_pass |].
  apply only_bind; [apply arm_once_arms |]. intros [armed more]. case_match; [walk_pass |].
  case_match; [apply arms_weaken, push_arming_still | apply IH].
Qed.
#[local] Hint Resolve arm_attempts_arms : pass.
Lemma arming_arms repository caravan_id number discovery rewritten :
  only arms (ensure_root_squash_auto_merge (W := W) (E := E) (F := F) repository caravan_id number discovery rewritten).
Proof.
  unfold ensure_root_squash_auto_merge. walk_pass.
Qed.

Lemma rerun_still repository number runs :
  only still (rerun_exact_failed_runs (W := W) (E := E) (F := F) repository number runs).
Proof. induction runs as [| run runs IH]; cbn; walk_pass. Qed.
Lemma gate_recovery_still gate repository caravan_id number observation :
  only still (verify_required_runs_and_recover_gate (W := W) (E := E) (F := F) gate repository caravan_id number observation).
Proof.
  unfold verify_required_runs_and_recover_gate, recover_enrolled_admission_gate, admission_gate_retrigger,
    perform_admission_gate_retrigger, gate_result. walk_pass.
Qed.
Lemma observe_member_still repository number :
  only still (observe_member (W := W) (E := E) (F := F) repository number).
Proof. unfold observe_member. walk_pass. Qed.
#[local] Hint Resolve rerun_still gate_recovery_still observe_member_still arming_arms : pass.

Lemma scan_still status caravan_id rerun native members :
  only still (scan_members (W := W) (E := E) (F := F) status caravan_id rerun native members).
Proof. induction members as [| n members IH]; cbn; walk_pass. Qed.
Lemma disarm_still status caravan : only still (disarm_caravan_members (W := W) (E := E) (F := F) status caravan).
Proof. unfold disarm_caravan_members, actor. walk_pass; apply still_land, steps_each; walk. Qed.
Lemma route_still status caravan native :
  only still (native_route_for_caravan (W := W) (E := E) (F := F) status caravan native).
Proof. unfold native_route_for_caravan. walk_pass. Qed.
Lemma ci_decision_still {A} caravan observation :
  only still (ci_decision_error (W := W) (E := E) (F := F) (A := A) caravan observation).
Proof. unfold ci_decision_error. walk_pass. Qed.
Lemma advance_arms status caravan head new_head rewritten :
  only arms (advance_after_force (W := W) (E := E) (F := F) status caravan head new_head rewritten).
Proof.
  assert (steps (moves not_squash) (each (ensure_auto_merge_disabled (W := W) (E := E) (ls_repository status))
    (drop 2 (cv_members caravan)))) as Hd.
  { apply steps_each. intros n. eapply steps_weaken; [apply steps_disabled | apply disables_calm]. }
  unfold advance_after_force, actor. walk_pass.
Qed.
Lemma label_audit_still repository number audit :
  only still (ensure_label_audit (W := W) (E := E) (F := F) repository number audit).
Proof. unfold ensure_label_audit. walk_pass. Qed.
End parts.

(** ** Reading off what was sent *)

Section wp.
Context {W E F : Type} `{!LandingProvider W E CiDiagnosis, !SyncProvider W E F}.

#[local] Abbreviation State := (SyncPass W E F).
#[local] Abbreviation Landing A := (M (Tick W E CiDiagnosis) (SyncError E) A).
#[local] Abbreviation Eff A := (M (SyncPass W E F) (PassError E F) A).
Implicit Types s : State.

(** The calls a run sends, its answer and its state are of [Q]. *)
Definition wp {A} (m : Eff A) s (Q : list (Sent E F) → result A (PassError E F) → State → Prop) : Prop :=
  ∃ new, sent new s (m s).2 ∧ Q new (m s).1 (m s).2.

Lemma wp_out {A} (m : Eff A) s r s' Q : wp m s Q → m s = (r, s') → ∃ new, sent new s s' ∧ Q new r s'.
Proof. unfold wp. intros Hw Hr. by rewrite Hr in Hw. Qed.

Lemma wp_weaken {A} (m : Eff A) s Q Q' : wp m s Q → (∀ new r s', Q new r s' → Q' new r s') → wp m s Q'.
Proof. intros (new & Hs & Hq) HQ. exists new. auto. Qed.

(** What was sent is of the state. *)
Lemma wp_sent {A} (m : Eff A) s Q : wp m s Q → wp m s (λ new r s', sent new s s' ∧ Q new r s').
Proof. intros (new & Hs & Hq). by exists new. Qed.

Lemma wp_then {A B} (m : Eff A) (f : A → Eff B) s Q :
  wp m s (λ new r s1, match r with Ok a => wp (f a) s1 (λ more, Q (new ++ more)) | Err e => Q new (Err e) s1 end) →
  wp (bind m f) s Q.
Proof.
  unfold wp, bind. intros (new & Hs & Hq). destruct (m s) as [[a | e] s1]; cbn in *; [| by exists new].
  destruct Hq as (more & Hm & Hq). exists (new ++ more). split; [by eapply sent_trans | done].
Qed.

Lemma wp_only {A} P (m : Eff A) s (Q : list (Sent E F) → result A (PassError E F) → State → Prop) :
  only P m → (∀ new r s', Forall P new → m s = (r, s') → sent new s s' → Q new r s') → wp m s Q.
Proof.
  intros Hm HQ. destruct (Hm s) as (new & Hs & Hf). exists new. split; [done |]. apply HQ; [done | apply surjective_pairing | done].
Qed.

Lemma wp_send_or {A X} (op : W → result A X * W) entry err s Q :
  (∀ answer s', pa_progress s' = pa_progress s → sent [entry answer] s s' →
     Q [entry answer] match answer with Ok a => Ok a | Err e => Err (err e) end s') →
  wp (send_or op entry err) s Q.
Proof.
  intros HQ. destruct (send_or op entry err s) as [r s'] eqn:Hr. unfold wp. rewrite Hr. cbn.
  apply send_or_run in Hr as (answer & Hs & Hp & ->). exists [entry answer]. auto.
Qed.

Lemma wp_here {A} (r : result A (PassError E F)) s (Q : list (Sent E F) → result A (PassError E F) → State → Prop) m :
  m s = (r, s) → Q [] r s → wp m s Q.
Proof. unfold wp. intros ->. exists []. split; [apply sent_refl | done]. Qed.

Lemma wp_ensure b e s Q :
  (b = true → Q [] (Ok ()) s) → (b = false → Q [] (Err e) s) → wp (ensure b e) s Q.
Proof. intros H1 H2. destruct b; eapply wp_here; eauto; done. Qed.

Lemma wp_ask {A} (f : State → A) s Q : Q [] (Ok (f s)) s → wp (ask f) s Q.
Proof. by apply wp_here. Qed.

(** A computation of the landing that makes no call. *)
Lemma land_here {A} (m : Landing A) r s : m (tick_of s) = (r, tick_of s) →
  land m s = (match r with Ok a => Ok a | Err e => Err (PassLanding e) end, s).
Proof.
  intros Hm. unfold land. rewrite Hm. cbn. rewrite drop_all, app_nil_r. by destruct s, r.
Qed.

Lemma wp_expect {A} (o : option A) message s (Q : list (Sent E F) → result A (PassError E F) → State → Prop) :
  (∀ a, o = Some a → Q [] (Ok a) s) → (o = None → Q [] (Err (PassLanding (Panicked message))) s) →
  wp (land (expect o message)) s Q.
Proof.
  intros H1 H2. destruct o as [a |]; (eapply wp_here; [by apply land_here |]); [by apply H1 | by apply H2].
Qed.

Lemma wp_precondition number s Q :
  (∀ pr, pg_current (pa_progress s) !! number = Some pr → Q [] (Ok (precondition_of pr)) s) →
  (pg_current (pa_progress s) !! number = None →
     Q [] (Err (PassLanding (Panicked "sync member has current PR facts"))) s) →
  wp (land (precondition number)) s Q.
Proof.
  intros H1 H2. destruct (pg_current (pa_progress s) !! number) as [pr |] eqn:Hp.
  - eapply wp_here; [| by apply H1]. apply (land_here (precondition number) (Ok (precondition_of pr))).
    unfold precondition, bind, progress, ask, expect, lift. cbn. by rewrite Hp.
  - eapply wp_here; [| by apply H2]. apply (land_here (precondition number) (Err (Panicked _))).
    unfold precondition, bind, progress, ask, expect, lift. cbn. by rewrite Hp.
Qed.
End wp.

(** ** The forced merge *)

Section force.
Context {W E F : Type} `{!LandingProvider W E CiDiagnosis, !SyncProvider W E F}.

#[local] Abbreviation State := (SyncPass W E F).
#[local] Abbreviation Eff A := (M (SyncPass W E F) (PassError E F) A).
Implicit Types s : State.

Lemma wp_capacity n s (Q : list (Sent E F) → result () (PassError E F) → State → Prop) :
  Q [] (Ok ()) s → (∀ e, Q [] (Err e) s) → wp (land (ensure_mutation_capacity n)) s Q.
Proof.
  intros H1 H2. set (ok := (N.min u32_max (completed_mutation_count (pa_progress s) + n) <=?
    se_mutation_limit (pg_settings (pa_progress s)))%N).
  destruct ok eqn:Hok; (eapply wp_here;
    [apply land_here; unfold ensure_mutation_capacity, bind, progress, ask, ensure; cbn; fold ok; rewrite Hok; reflexivity |]);
    [exact H1 | apply H2].
Qed.

Lemma wp_update f s (Q : list (Sent E F) → result () (PassError E F) → State → Prop) :
  (∀ p, pg_settings (f p) = pg_settings p) →
  Q [] (Ok ()) (mkPass (f (pa_progress s)) (pa_extra s) (pa_log s) (pa_host s)) → wp (update f) s Q.
Proof.
  intros Hf HQ. assert (update f s = (Ok (), mkPass (f (pa_progress s)) (pa_extra s) (pa_log s) (pa_host s))) as Hu.
  { unfold update, land, tick_of, modify. cbn. by rewrite drop_all, app_nil_r. }
  exists []. rewrite Hu. split; [| exact HQ]. split_and!; cbn; [by rewrite app_nil_r | apply Hf | done].
Qed.

(** The current facts after what was sent: a disarm, an audit and a squash that
    were accepted file the pull request they answered, under its own number or,
    for an audit comment already there, under [head]. *)
Definition note_call (facts : gmap PrNumber PullRequestSnapshot) (c : Call E) : gmap PrNumber PullRequestSnapshot :=
  match c with
  | CallDisable _ (Ok receipt) => <[pr_number (gm_after receipt) := gm_after receipt]> facts
  | _ => facts
  end.
Definition audit_key (head : PrNumber) (receipt : GitHubMutationReceipt) : PrNumber :=
  if is_some_and (gm_provider_output receipt) (starts_with "existing GitHub comment") then head
  else pr_number (gm_after receipt).
Definition note_sent (head : PrNumber) (facts : gmap PrNumber PullRequestSnapshot) (x : Sent E F)
    : gmap PrNumber PullRequestSnapshot :=
  match x with
  | SentLanding c => note_call facts c
  | SentAudit _ _ (Ok receipt) => <[audit_key head receipt := gm_after receipt]> facts
  | SentAdminSquash _ (Ok receipt) => <[pr_number (gm_after receipt) := gm_after receipt]> facts
  | _ => facts
  end.
Definition facts_after (head : PrNumber) (log : list (Sent E F)) (facts : gmap PrNumber PullRequestSnapshot)
    : gmap PrNumber PullRequestSnapshot := foldl (note_sent head) facts log.

(** Each of the current facts is filed under its own number. *)
Definition keyed (facts : gmap PrNumber PullRequestSnapshot) : Prop := map_Forall (λ number pr, pr_number pr = number) facts.

Lemma keyed_calls head log facts : Forall (lifted disables) log → keyed facts → keyed (facts_after head log facts).
Proof.
  unfold facts_after. intros Hl. revert facts. induction Hl as [| x l (c & -> & Hc) _ IH]; [done |]. intros facts Hk. cbn.
  apply IH. destruct c as [| | | | | | | | | | | expected [receipt | e] | |]; try done. by apply map_Forall_insert_2.
Qed.

(** Disarms file what they answered. *)
Definition disarms (t t' : Tick W E CiDiagnosis) : Prop :=
  ∃ new, moved new t t' ∧ Forall disables new
    ∧ pg_current (tk_progress t') = foldl note_call (pg_current (tk_progress t)) new.
#[local] Instance disarms_trans : Transitive disarms.
Proof.
  intros a b c (n1 & Hm1 & Hf1 & E1) (n2 & Hm2 & Hf2 & E2). exists (n1 ++ n2).
  split; [by eapply moved_trans |]. split; [by apply Forall_app |]. by rewrite foldl_app, <- E1.
Qed.
Lemma disarms_here t : disarms t t.
Proof. exists []. split; [split_and!; by rewrite ?app_nil_r | by repeat constructor]. Qed.

Lemma disarm_disarms repository number : steps disarms (ensure_auto_merge_disabled repository number).
Proof.
  intros t. unfold ensure_auto_merge_disabled, current_of, ensure_mutation_capacity, precondition, bind, progress, ask, expect, lift.
  destruct (pg_current (tk_progress t) !! number) as [pr |] eqn:Hpr; cbn; [| apply disarms_here].
  destruct (negb (am_enabled (pr_auto_merge pr))).
  { exists []. split; [by apply moved_progress | by repeat constructor]. }
  unfold ensure. case_match; [| apply disarms_here]. rewrite Hpr. cbn.
  unfold call, call_or, bind, request. cbn. destruct (disable_auto_merge repository (precondition_of pr) (tk_host t)) as [answer w].
  exists [CallDisable (precondition_of pr) answer].
  destruct answer as [receipt | e]; (split; [| split; [by repeat constructor | done]]); [apply moved_then_record |]; apply moved_call.
Qed.
Lemma each_disarms repository l : steps disarms (each (ensure_auto_merge_disabled repository) l).
Proof.
  induction l as [| n l IH]; [intros t; apply disarms_here |].
  apply steps_bind; [apply _ | apply disarm_disarms | done].
Qed.

Lemma wp_disables {A} head (m : M (Tick W E CiDiagnosis) (SyncError E) A) s
    (Q : list (Sent E F) → result A (PassError E F) → State → Prop) :
  steps disarms m →
  (∀ new r s', Forall (lifted disables) new →
     pg_current (pa_progress s') = facts_after head new (pg_current (pa_progress s)) → Q new r s') →
  wp (land m) s Q.
Proof.
  intros Hm HQ. destruct (Hm (tick_of s)) as (new & (Hlog & Hset & _) & Hf & Hc). exists (SentLanding <$> new).
  unfold land. destruct (m (tick_of s)) as [r t]. cbn in *. split.
  - split_and!; [| done | done]. unfold tick_of in Hlog. cbn in *. by rewrite Hlog, drop_app_length.
  - apply HQ; cbn.
    + apply Forall_fmap. eapply Forall_impl; [exact Hf |]. intros c Hd. by exists c.
    + rewrite Hc. unfold facts_after. generalize (pg_current (pa_progress s)). clear. 
      induction new as [| c new IH]; [done |]. intros facts. apply IH.
Qed.

(** Closes that a list of calls merges nothing. *)
Ltac stills :=
  repeat first
    [ exact I | done
    | apply Forall_app; split | apply Forall_cons; split | apply Forall_nil
    | eapply Forall_impl; [eassumption | apply lifted_disables_still] ].
Ltac denied := left; split; [stills | done].

Lemma label_audit_run repository number audit s :
  wp (ensure_label_audit repository number audit) s (λ new r s',
    (Forall still new ∧ r ≠ Ok ())
    ∨ ∃ pr note, pg_current (pa_progress s) !! number = Some pr ∧ r = Ok ()
        ∧ new = [SentAudit (precondition_of pr) (la_marker audit) (Ok note)]
        ∧ pg_current (pa_progress s') = facts_after number new (pg_current (pa_progress s))).
Proof.
  unfold ensure_label_audit. apply wp_then, wp_capacity; [| intros e; denied].
  apply wp_then, wp_precondition; [intros pr Hpr | intros _; denied].
  apply wp_then, wp_send_or. intros [note | e] s1 Hp1 _; [| denied].
  case_match eqn:Hkey; (apply wp_update; [done |]); right; exists pr, note; split_and!; try done;
    cbn; unfold audit_key; by rewrite Hkey, Hp1.
Qed.

(** After the answer to the forced merge: nothing when it was refused; when it
    accepted, the label is removed from the head as the last answer showed it,
    and the run goes on only if it was. *)
Definition force_outcome (last : option PullRequestSnapshot) (answer : result GitHubMutationReceipt E)
    (after : list (Sent E F)) (r : result () (PassError E F)) : Prop :=
  match answer with
  | Err _ => after = [] ∧ r ≠ Ok ()
  | Ok _ => ∃ now label rest, last = Some now
      ∧ after = SentRemoveLabel (precondition_of now) "caravan-force" label :: rest ∧ Forall arms rest
      ∧ (is_ok label = false → rest = [] ∧ r ≠ Ok ())
  end.

(** The report of exactly this head on exactly the default branch. *)
Definition compared (status : LandingStatus) (pr : PullRequestSnapshot) (report : CompatibilityReport) : Prop :=
  report ∈ ga_compatibility (ls_analysis status) ∧ cr_candidate report = pr_head pr
  ∧ cr_target report = fl_default_branch (ga_fleet (ls_analysis status)).

(** What precedes the squash: the disarm behind the permission, and from the
    second verification on the audit and the disarms of the other members. *)
Definition disarmed (d1 : list (Sent E F)) : list (Sent E F) := SentPermission (Ok "ADMIN") :: d1.
Definition audited (head : PrNumber) (again w : PullRequestSnapshot) (report : CompatibilityReport)
    (note : GitHubMutationReceipt) (d2 : list (Sent E F)) : list (Sent E F) :=
  SentVerify (precondition_of again) (Ok w)
  :: SentAudit (precondition_of again) (la_marker (force_audit head again report)) (Ok note) :: d2.

(** The squash goes to the head: the second verification and the audit to the
    facts the disarm left of it, the squash to those the audit and the disarms
    left, and so its label's removal to those the squash left. *)
Definition squashed (status : LandingStatus) (head : PrNumber) (facts : gmap PrNumber PullRequestSnapshot)
    (new : list (Sent E F)) (r : result () (PassError E F)) : Prop :=
  ∃ d1 again w report note d2 last answer after,
    let fence := disarmed d1 ++ audited head again w report note d2 in
    let squash := SentAdminSquash (precondition_of last) answer in
    new = fence ++ squash :: after
    ∧ Forall (lifted disables) (d1 ++ d2)
    ∧ facts_after head (disarmed d1) facts !! head = Some again ∧ compared status again report
    ∧ facts_after head fence facts !! head = Some last
    ∧ (keyed facts → pr_number (gm_after note) = head → pr_number last = head)
    ∧ force_outcome (facts_after head (fence ++ [squash]) facts !! head) answer after r.

Lemma facts_app head l1 l2 facts : facts_after head (l1 ++ l2) facts = facts_after head l2 (facts_after head l1 facts).
Proof. apply foldl_app. Qed.

Lemma force_permission_run status caravan head s :
  wp (force_with_permission status caravan head) s (λ new r s',
    (Forall still new ∧ r ≠ Ok ()) ∨ squashed status head (pg_current (pa_progress s)) new r).
Proof.
  unfold force_with_permission, send_for. apply wp_then, wp_send_or. intros [permission | e] s1 Hp1 _; [| denied].
  apply wp_then, wp_ensure; [intros ->%String.eqb_eq | intros _; denied].
  apply wp_then, (wp_disables head); [apply disarm_disarms |]. intros d1 [u | e] s2 Hd1 Hf1; [| denied].
  apply wp_then, wp_ask, wp_then, wp_expect; [intros again Hagain | intros _; denied].
  apply wp_then, wp_send_or. intros [w | e] s3 Hp3 _; [| denied].
  apply wp_then, wp_expect; [intros report [Hin [Hc Ht]%andb_true_iff]%List.find_some | intros _; denied].
  assert (compared status again report) as Hcompared.
  { apply bool_decide_eq_true in Hc, Ht. by apply list_elem_of_In in Hin. }
  apply wp_then. eapply wp_weaken; [apply label_audit_run |].
  intros new r s4 [[Hf Hr] | (at_ & note & Hat & -> & -> & Hf4)]; [destruct r as [[] | e]; [done | denied] |].
  rewrite Hp3, Hagain in Hat. injection Hat as <-.
  apply wp_then, (wp_disables head); [apply each_disarms |]. intros d2 [u' | e] s5 Hd2 Hf5; [| denied].
  apply wp_then, wp_capacity; [| intros e; denied].
  apply wp_then, wp_precondition; [intros last Hlast | intros _; denied].
  set (facts := pg_current (pa_progress s)).
  assert (facts_after head (disarmed d1) facts = pg_current (pa_progress s2)) as Efirst by (rewrite Hf1, Hp1; done).
  assert (facts_after head (disarmed d1 ++ audited head again w report note d2) facts = pg_current (pa_progress s5)) as Efence.
  { rewrite Hf5, Hf4, Hp3, <- Efirst, facts_app. done. }
  assert (keyed facts → pr_number (gm_after note) = head → pr_number last = head) as Hown.
  { intros Hk Hn. assert (keyed (pg_current (pa_progress s5))) as Hk5; [| exact (Hk5 _ _ Hlast)].
    rewrite Hf5, Hf4, Hp3, Hf1, Hp1. apply keyed_calls; [done |]. cbn.
    assert (audit_key head note = head) as -> by (unfold audit_key; by case_match).
    apply map_Forall_insert_2; [done |]. by apply keyed_calls. }
  apply wp_then, wp_send_or. intros [receipt | e] s6 Hp6 _.
  2: { right. exists d1, again, w, report, note, d2, last, (Err e), []. cbv zeta. rewrite Efirst, Efence.
       split; [unfold disarmed, audited; cbn; by rewrite <- !app_assoc |].
       split; [by apply Forall_app |]. by split_and!. }
  apply wp_then, wp_update; [done |]. apply wp_then, wp_precondition.
  2: { cbn. rewrite Hp6. intros [Hnone _]%lookup_insert_None. congruence. }
  intros now Hnow. cbn in Hnow. rewrite Hp6 in Hnow.
  apply wp_then, wp_send_or. intros [consumed | e] s7 _ _; [apply wp_then, wp_update; [done |]; apply wp_update; [done |] |];
    (right; exists d1, again, w, report, note, d2, last, (Ok receipt);
     eexists; cbv zeta; rewrite (facts_app _ (disarmed d1 ++ _) [_]), Efirst, Efence;
     split; [unfold disarmed, audited; cbn; by rewrite <- !app_assoc |];
     split; [by apply Forall_app |]; split_and!; try done; by eexists now, _, []).
Qed.

Lemma wp_land_call {A} (op : W → result A E * W) entry number s (Q : list (Sent E F) → result A (PassError E F) → State → Prop) :
  (∀ answer s', pa_progress s' = pa_progress s →
     Q [SentLanding (entry answer)] match answer with Ok a => Ok a | Err e => Err (PassLanding (ProviderFailed e (Some number))) end s') →
  wp (land (call op entry number)) s Q.
Proof.
  intros HQ. unfold wp, land, call, call_or, bind, request, tick_of. cbn.
  destruct (op (pa_host s)) as [[a | e] w]; cbn; rewrite drop_app_length;
    [exists [SentLanding (entry (Ok a))] | exists [SentLanding (entry (Err e))]];
    (split; [done |]); [by apply (HQ (Ok a)) | by apply (HQ (Err e))].
Qed.

(** The first verifications of a forced merge. *)
Definition force_verified (status : LandingStatus) (current v : PullRequestSnapshot) : list (Sent E F) :=
  [ SentVerify (precondition_of current) (Ok v);
    SentLanding (CallVerifyBranch (ls_default_branch status) (br_oid (fl_default_branch (ga_fleet (ls_analysis status)))) (Ok ())) ].

(** A forced merge was sent, behind everything it needs. *)
Definition forced (status : LandingStatus) (caravan : Caravan) (force_merge : bool) s (new : list (Sent E F))
    (r : result () (PassError E F)) : Prop :=
  ∃ head current v rest,
    new = force_verified status current v ++ rest
    ∧ force_merge = true ∧ caravan_head caravan = Some head ∧ pg_current (pa_progress s) !! head = Some current
    ∧ force_candidate current = true ∧ head_is_conflict_free_with_default status current = true
    ∧ squashed status head (pg_current (pa_progress s)) rest r.

(** More may be sent once the label is removed. *)
Lemma squashed_more status head facts new r rest r' :
  squashed status head facts new r → Forall arms rest → (∀ e, r = Err e → rest = [] ∧ r' = r) →
  squashed status head facts (new ++ rest) r'.
Proof.
  intros (d1 & again & w & report & note & d2 & last & answer & after & -> & Hd & Ha & Hc & Hl & Hk & Ho) Hrest Herr.
  exists d1, again, w, report, note, d2, last, answer, (after ++ rest). split; [by rewrite <- app_assoc |].
  do 5 (split; [done |]). unfold force_outcome in *. destruct answer as [receipt | e].
  - destruct Ho as (now & label & rest0 & Hnow & -> & Hf & Hno). exists now, label, (rest0 ++ rest). split; [done |].
    split; [done |]. split; [by apply Forall_app |]. intros Hlab. destruct (Hno Hlab) as [-> Hne]. destruct r as [[] | e]; [done |].
    by destruct (Herr e eq_refl) as [-> ->].
  - destruct Ho as [-> Hne]. destruct r as [[] | e']; [done |]. by destruct (Herr e' eq_refl) as [-> ->].
Qed.

Lemma force_run status caravan force_merge rewritten s :
  wp (force_merge_head status caravan force_merge rewritten) s (λ new r s',
    (Forall still new ∧ r ≠ Ok ()) ∨ forced status caravan force_merge s new r).
Proof.
  unfold force_merge_head, send_for. apply wp_then, wp_expect; [intros head Hhead | intros _; denied].
  apply wp_then, wp_ask, wp_then, wp_expect; [intros current Hcurrent | intros _; denied].
  do 3 (apply wp_then, wp_ensure; [intros ? | intros _; denied]).
  apply wp_then, wp_send_or. intros [v | e] s1 Hp1 _; [| denied].
  apply wp_then, wp_land_call. intros [[] | e] s2 Hp2; [| denied].
  apply wp_then, wp_update; [done |]. apply wp_then. eapply wp_weaken; [apply force_permission_run |].
  intros new r s3 [[Hf Hr] | Hsent]; [destruct r as [[] | e]; [done | denied] |].
  cbn in Hsent. rewrite Hp2, Hp1 in Hsent.
  assert (∀ rest r', Forall arms rest → (∀ e, r = Err e → rest = [] ∧ r' = r) →
    forced status caravan force_merge s (force_verified status current v ++ (new ++ rest)) r') as Hdone.
  { intros rest r' Hrest Herr. exists head, current, v, (new ++ rest). split; [done |]. do 5 (split; [done |]).
    by eapply squashed_more. }
  destruct r as [[] | e].
  - destruct (cv_members caravan !! 1) as [new_head |].
    + eapply wp_only; [apply advance_arms |]. intros rest r' s4 Hrest _ _. right. by apply (Hdone rest r').
    + eapply wp_here; [reflexivity |]. right. by apply (Hdone [] (Ok ())).
  - right. specialize (Hdone [] (Err e) (List.Forall_nil _)). rewrite app_nil_r in Hdone. apply Hdone. by intros e' [= <-].
Qed.
End force.

(** ** One actor *)

Section actor.
Context {W E F : Type} `{!LandingProvider W E CiDiagnosis, !SyncProvider W E F}.

#[local] Abbreviation State := (SyncPass W E F).
#[local] Abbreviation Eff A := (M (SyncPass W E F) (PassError E F) A).
Implicit Types s : State.

(** How a pass merges: Cara's squash, the administrator's squash of a forced
    head, the landing of a native Stack, or the required auto-merge. *)
Inductive Mechanism := ByCara | ByForce | ByNative | ByArming.
Definition mechanism (x : Sent E F) : option Mechanism :=
  match x with
  | SentLanding (CallSquash _ _) => Some ByCara
  | SentAdminSquash _ _ => Some ByForce
  | SentDrain _ _ => Some ByNative
  | SentArm _ _ => Some ByArming
  | _ => None
  end.
Definition mechanisms (log : list (Sent E F)) : list Mechanism := omap mechanism log.

(** One mechanism, that of the configured actor; a forced merge may be followed
    by the arming of the next root, but under GitHub's actor only. *)
Definition one_actor (a : HeadMergeActor) (used : list Mechanism) : Prop :=
  used = [ByNative]
  ∨ match a with
    | ActorCaravan => used = [ByForce] ∨ Forall (eq ByCara) used
    | ActorGithub => ∃ arming, Forall (eq ByArming) arming ∧ (used = arming ∨ used = ByForce :: arming)
    end.

Definition actor_of (s : State) : HeadMergeActor := se_head_merge_actor (pg_settings (pa_progress s)).
Definition unarmed (x : Sent E F) : Prop := match x with SentArm _ _ => False | _ => True end.
Definition unsquashed (x : Sent E F) : Prop := match x with SentLanding (CallSquash _ _) => False | _ => True end.

(** What a computation sends under one actor. *)
Definition under {A} (a : HeadMergeActor) (P : Sent E F → Prop) (m : Eff A) : Prop :=
  ∀ s, actor_of s = a → sends P s (m s).2.

Lemma under_only {A} a P Q (m : Eff A) : only Q m → (∀ x, Q x → P x) → under a P m.
Proof. intros Hm HQP s _. by eapply sends_weaken. Qed.
Lemma under_bind {A B} a P (m : Eff A) (f : A → Eff B) : under a P m → (∀ x, under a P (f x)) → under a P (bind m f).
Proof.
  intros Hm Hf s Ha. unfold bind. specialize (Hm s Ha). destruct (m s) as [[x | e] s1]; [| done].
  etrans; [exact Hm |]. apply Hf. destruct Hm as (new & (_ & Hset & _) & _). cbn in Hset. unfold actor_of. by rewrite Hset.
Qed.
Lemma actor_run s : actor s = (Ok (actor_of s), s).
Proof. by apply (land_here (setting se_head_merge_actor) (Ok (actor_of s))). Qed.
Lemma under_actor {B} a P (f : HeadMergeActor → Eff B) : under a P (f a) → under a P (bind actor f).
Proof. intros Hf s Ha. unfold bind. rewrite actor_run, Ha. by apply Hf. Qed.

Lemma still_unarmed (x : Sent E F) : still x → unarmed x.
Proof. by destruct x. Qed.
Lemma arms_unsquashed (x : Sent E F) : arms x → unsquashed x.
Proof. by destruct x. Qed.
Lemma still_unsquashed (x : Sent E F) : still x → unsquashed x.
Proof. intros Hx. by apply arms_unsquashed, still_arms. Qed.

(** The calls of a drain are calls of the landing. *)
Lemma drain_moves status caravan_id singleton remaining merged landed :
  steps (moves (λ _ : Call E, True)) (drain_roots (W := W) (Diag := CiDiagnosis) status caravan_id singleton merged landed remaining).
Proof.
  revert merged landed. induction remaining as [| root rest IH]; intros merged landed s; cbn; [reflexivity |].
  destruct (drain_roots status caravan_id singleton merged landed (root :: rest) s) as [r s'] eqn:Hd.
  change (moves (λ _, True) s (drain_roots status caravan_id singleton merged landed (root :: rest) s).2). rewrite Hd. cbn.
  apply drain_cases in Hd as [(new & Hm & Hf) | (_ & fence & quiet & sq & answer & s2 & _ & _ & _ & Hm & Hgo)].
  { exists new. split; [done | by apply Forall_true]. }
  assert (moves (λ _, True) s s2) as Hs2 by (exists (fence ++ quiet); split; [done | by apply Forall_true]).
  destruct Hgo as [-> | [_ [landed' Hrest]]]; [done |]. etrans; [exact Hs2 |].
  specialize (IH (N.min u32_max (merged + 1)) landed' s2). by rewrite Hrest in IH.
Qed.

Lemma mechanisms_still new : Forall still new → mechanisms new = [].
Proof. unfold mechanisms. induction 1 as [| x l Hx _ IH]; [done |]. destruct x as [c | | | | | | | | | | | |]; try done. by destruct c. Qed.
Lemma mechanisms_arms new : Forall arms new → Forall (eq ByArming) (mechanisms new).
Proof.
  unfold mechanisms. induction 1 as [| x l Hx _ IH]; [constructor |].
  destruct x as [c | | | | | | | | | | | |]; try done; try by (cbn; constructor). by destruct c.
Qed.
Lemma mechanisms_landing new : Forall (lifted (λ _, True)) new → Forall (eq ByCara) (mechanisms new).
Proof.
  unfold mechanisms. induction 1 as [| x l (c & -> & _) _ IH]; [constructor |]. destruct c; try done. by constructor.
Qed.
Lemma mechanisms_app a b : mechanisms (a ++ b) = mechanisms a ++ mechanisms b.
Proof. apply omap_app. Qed.

Lemma mechanisms_forced status caravan force_merge s new r :
  forced status caravan force_merge s new r →
  ∃ k, mechanisms new = ByForce :: k ∧ Forall (eq ByArming) k.
Proof.
  intros (head & current & v & rest & -> & _ & _ & _ & _ & _ &
          (d1 & again & w & report & note & d2 & last & answer & after & -> & [H1 H2]%Forall_app & _ & _ & _ & _ & Ho)).
  exists (mechanisms after). split.
  - assert (mechanisms d1 = [] ∧ mechanisms d2 = []) as [E1 E2].
    { split; apply mechanisms_still; (eapply Forall_impl; [eassumption | apply lifted_disables_still]). }
    rewrite !mechanisms_app. unfold mechanisms in *. cbn. by rewrite E1, E2.
  - unfold force_outcome in Ho. destruct answer as [receipt | e]; [| by destruct Ho as [-> _]].
    destruct Ho as (now & label & rest & _ & -> & Hf & _). by apply (mechanisms_arms rest).
Qed.

(** *** Under Cara's actor nothing is armed, under GitHub's Cara squashes nothing *)

Lemma unarmed_land {A} (m : M (Tick W E CiDiagnosis) (SyncError E) A) : steps (moves (λ _, True)) m → only unarmed (land m).
Proof. intros Hm. by apply (only_land unarmed (λ _, True)). Qed.
Lemma calm_true {A} (m : M (Tick W E CiDiagnosis) (SyncError E) A) : steps (moves not_squash) m → steps (moves (λ _, True)) m.
Proof. intros Hm. by eapply steps_weaken. Qed.

Lemma drain_native_run caravan stack_number s :
  wp (drain_native (W := W) (E := E) (F := F) caravan stack_number) s (λ new _ _,
    new = [] ∨ new = [SentDrain (cv_id caravan) stack_number]).
Proof.
  unfold wp, drain_native. destruct (px_native_stack (pa_extra s)) as [native |] eqn:Hn.
  - destruct (drain_stack _ _ _ _ _ _) as [[r [p x]] w]. exists [SentDrain (cv_id caravan) stack_number]. split; [by split_and! | by right].
  - exists []. split; [apply sent_refl | by left].
Qed.
Lemma drain_native_unarmed caravan stack_number : only unarmed (drain_native (W := W) (E := E) (F := F) caravan stack_number).
Proof.
  intros s. destruct (drain_native_run caravan stack_number s) as (new & Hs & Hn). exists new. split; [done |].
  destruct Hn as [-> | ->]; by repeat constructor.
Qed.

#[local] Hint Resolve steps_current_of steps_precondition steps_capacity steps_read_exact steps_verify_runs
  steps_observe_ci steps_foreign steps_promote_root steps_push_required_runs steps_assess_required_runs
  steps_discover : moves.
#[local] Hint Resolve rerun_still gate_recovery_still observe_member_still scan_still disarm_still route_still
  ci_decision_still label_audit_still : pass.

Lemma disables_each repository members :
  steps (moves not_squash) (each (ensure_auto_merge_disabled (W := W) (E := E) repository) members).
Proof. apply steps_each. intros n. eapply steps_weaken; [apply steps_disabled | apply disables_calm]. Qed.
#[local] Hint Resolve disables_each : moves.
Lemma disables_one repository n : steps (moves not_squash) (ensure_auto_merge_disabled (W := W) (E := E) repository n).
Proof. eapply steps_weaken; [apply steps_disabled | apply disables_calm]. Qed.
#[local] Hint Resolve disables_one : moves.

Lemma permission_unarmed status caravan head :
  only unarmed (force_with_permission (W := W) (E := E) (F := F) status caravan head).
Proof.
  pose proof (λ A (m : Eff A) (Hm : only still m), only_weaken still unarmed m Hm still_unarmed) as Hw.
  unfold force_with_permission.
  repeat first
    [ match goal with |- ∀ _, _ => intros ? end
    | solve [auto with nocore pass]
    | apply Hw; solve [auto with nocore pass]
    | apply only_bind ].
Qed.

Lemma advance_unarmed status caravan head new_head rewritten :
  under ActorCaravan unarmed (advance_after_force (W := W) (E := E) (F := F) status caravan head new_head rewritten).
Proof.
  pose proof (λ A (m : Eff A) (Hm : only still m), under_only ActorCaravan unarmed still m Hm still_unarmed) as Hw.
  unfold advance_after_force. do 4 (apply under_bind; [apply Hw; walk_pass | intros ?]).
  apply under_actor. cbn [actor_github andb]. apply Hw. walk_pass.
Qed.

Lemma force_unarmed status caravan force_merge rewritten :
  under ActorCaravan unarmed (force_merge_head (W := W) (E := E) (F := F) status caravan force_merge rewritten).
Proof.
  pose proof (λ A (m : Eff A) (Hm : only still m), under_only ActorCaravan unarmed still m Hm still_unarmed) as Hw.
  unfold force_merge_head. do 9 (apply under_bind; [apply Hw; walk_pass | intros ?]).
  apply under_bind; [by apply (under_only _ _ unarmed); [apply permission_unarmed |] | intros _].
  case_match; [apply advance_unarmed | apply Hw; walk_pass].
Qed.

Lemma finish_unarmed status caravan head route ci_failure rewritten :
  under ActorCaravan unarmed (finish_caravan (W := W) (E := E) (F := F) status caravan head route ci_failure rewritten).
Proof.
  assert (under ActorCaravan unarmed (let* actor := actor in
      if actor_github actor then
        do* ensure_root_squash_auto_merge (sy_repository status) (cv_id caravan) head
              (ga_pull_requests (sy_analysis status) !! head) (rewritten !! head) in
        match ci_failure with Some observation => ci_decision_error caravan observation | None => ret () end
      else match ci_failure with
           | Some observation => ci_decision_error caravan observation
           | None => land (drain_caravan_roots (sy_landing status) caravan (bool_decide (route = RouteSingletonCaravanOwned)))
           end : Eff ())) as Howned.
  { apply under_actor. cbn [actor_github]. destruct ci_failure as [o |].
    - eapply under_only; [apply ci_decision_still | apply still_unarmed].
    - eapply under_only; [apply unarmed_land, drain_moves | done]. }
  unfold finish_caravan. destruct route as [| | n]; [exact Howned.. |].
  by apply (under_only _ _ unarmed); [apply drain_native_unarmed |].
Qed.

Lemma reconcile_unarmed status caravan flags rewritten :
  under ActorCaravan unarmed (reconcile_caravan (W := W) (E := E) (F := F) status caravan flags rewritten).
Proof.
  pose proof (λ A (m : Eff A) (Hm : only still m), under_only ActorCaravan unarmed still m Hm still_unarmed) as Hw.
  unfold reconcile_caravan, reconcile_routed. do 7 (apply under_bind; [apply Hw; walk_pass | intros ?]).
  case_match; [apply force_unarmed |]. apply under_bind; [apply Hw; walk_pass |].
  intros [| ci_failure]; [apply Hw; walk_pass | apply finish_unarmed].
Qed.

(** *** The mechanism a reconciliation uses *)

Definition uses {A} (m : Eff A) s (R : list Mechanism → Prop) : Prop := wp m s (λ new _ _, R (mechanisms new)).

Lemma uses_bind {A B} a (m : Eff A) (f : A → Eff B) s (R : list Mechanism → Prop) :
  actor_of s = a → only still m → R [] → (∀ x s1, actor_of s1 = a → uses (f x) s1 R) → uses (bind m f) s R.
Proof.
  intros Ha Hm Hnil Hf. apply wp_then. destruct (Hm s) as (new & Hs & Hstill). exists new. split; [exact Hs |].
  destruct (m s) as [[x | e] s1]; cbn in *; [| by rewrite mechanisms_still].
  eapply wp_weaken; [apply (Hf x s1); unfold actor_of in *; by rewrite (proj1 (proj2 Hs)) |].
  intros more r s' HR. by rewrite mechanisms_app, (mechanisms_still new Hstill).
Qed.
Lemma uses_only {A} P (m : Eff A) s (R : list Mechanism → Prop) :
  only P m → (∀ new, Forall P new → R (mechanisms new)) → uses m s R.
Proof. intros Hm HR. eapply wp_only; [exact Hm | intros new r s' Hf _ _; by apply HR]. Qed.

(** What a route allows, before it is known that nothing is armed under Cara's
    actor. *)
Definition owned_use (a : HeadMergeActor) (used : list Mechanism) : Prop :=
  (∃ k, used = ByForce :: k ∧ Forall (eq ByArming) k)
  ∨ match a with ActorCaravan => Forall (eq ByCara) used | ActorGithub => Forall (eq ByArming) used end.
Definition routed_use (a : HeadMergeActor) (route : NativeCaravanRoute) (used : list Mechanism) : Prop :=
  used = [] ∨ if is_native route then used = [ByNative] else owned_use a used.
Lemma routed_nil a route : routed_use a route [].
Proof. by left. Qed.
#[local] Hint Resolve routed_nil : core.

Lemma uses_still {A} (m : Eff A) s a route : only still m → uses m s (routed_use a route).
Proof.
  intros Hm. apply (uses_only still); [exact Hm |]. intros new Hf. by rewrite (mechanisms_still new Hf).
Qed.

Lemma wp_actor {B} (f : HeadMergeActor → Eff B) s (Q : list (Sent E F) → result B (PassError E F) → State → Prop) :
  wp (f (actor_of s)) s Q → wp (bind actor f) s Q.
Proof. unfold wp, bind. by rewrite actor_run. Qed.

Lemma owned_uses status caravan head singleton ci_failure (rewritten : gmap PrNumber CommitOid) s :
  uses (let* actor := actor in
      if actor_github actor then
        do* ensure_root_squash_auto_merge (sy_repository status) (cv_id caravan) head
              (ga_pull_requests (sy_analysis status) !! head) (rewritten !! head) in
        match ci_failure with Some observation => ci_decision_error caravan observation | None => ret () end
      else match ci_failure with
           | Some observation => ci_decision_error caravan observation
           | None => land (drain_caravan_roots (sy_landing status) caravan singleton)
           end : Eff ()) s (owned_use (actor_of s)).
Proof.
  apply wp_actor. destruct (actor_of s) eqn:Ha; cbn [actor_github].
  - destruct ci_failure as [o |]; [apply (uses_only still); [apply ci_decision_still |]; intros new Hf; rewrite (mechanisms_still new Hf); by right; constructor |].
    apply (uses_only (lifted (λ _, True))).
    + apply (only_land _ (λ _, True)); [apply drain_moves | intros c _; by exists c].
    + intros new Hf. right. by apply mechanisms_landing.
  - apply (uses_only arms).
    + apply only_bind; [apply arming_arms |]. intros _. destruct ci_failure; [apply arms_weaken, ci_decision_still | apply only_ret].
    + intros new Hf. right. by apply mechanisms_arms.
Qed.

Lemma finish_uses status caravan head route ci_failure rewritten s :
  uses (finish_caravan (W := W) (E := E) (F := F) status caravan head route ci_failure rewritten) s
    (routed_use (actor_of s) route).
Proof.
  unfold finish_caravan. destruct route as [| | n].
  3: { eapply wp_weaken; [apply drain_native_run |]. intros new r s' [-> | ->]; [done | by right]. }
  all: eapply wp_weaken; [apply owned_uses |]; intros new r s' Hused; by right.
Qed.

Lemma routed_uses status caravan flags rewritten head route s :
  uses (reconcile_routed (W := W) (E := E) (F := F) status caravan flags rewritten head route) s
    (routed_use (actor_of s) route).
Proof.
  unfold reconcile_routed.
  do 4 (eapply uses_bind; [eassumption || reflexivity | solve [walk_pass] | done | intros ? ? ?]).
  case_match eqn:Hforce.
  - apply andb_true_iff in Hforce as [Hroute _]. apply negb_true_iff in Hroute.
    eapply wp_weaken; [apply force_run |]. intros new r s' [[Hf _] | Hsent].
    + by rewrite (mechanisms_still new Hf).
    + right. rewrite Hroute. left. by eapply mechanisms_forced.
  - eapply uses_bind; [eassumption | solve [walk_pass] | done |]. intros scan s8 <-.
    destruct scan; [apply uses_still, only_ret | apply finish_uses].
Qed.

(** The route of a caravan, as the pass reads it. *)
Lemma route_run status caravan native s :
  wp (native_route_for_caravan (W := W) (E := E) (F := F) status caravan native) s (λ new r s',
    pa_progress s' = pa_progress s ∧
    match native with
    | None => new = [] ∧ r = Ok RouteCaravanOwned
    | Some native =>
        ∃ answer, new = [SentIntersections (cv_members caravan) answer]
          ∧ ∀ route, r = Ok route → ∃ intersections landing, answer = Ok intersections
            ∧ route_landing (route_facts status native) caravan intersections (ga_pull_requests (sy_analysis status)) = Ok landing
            ∧ is_native route = match landing with NativeStack _ _ => true | _ => false end
    end).
Proof.
  unfold native_route_for_caravan. destruct native as [native |]; [| by apply (wp_here (Ok RouteCaravanOwned))].
  apply wp_then, wp_send_or. intros [intersections | e] s1 Hp _; [| by split; [| eexists]].
  destruct (route_landing _ _ _ _) as [[| | n c] | refusal] eqn:Hroute; (eapply wp_here; [reflexivity |]);
    (split; [exact Hp |]; eexists; split; [done |]); intros route [= <-]; by eexists _, _.
Qed.

Lemma owned_not_native a used : owned_use a used → used ≠ [ByNative].
Proof.
  intros [(k & -> & _) | H] Heq; [done |]. rewrite Heq in H. destruct a; by apply Forall_cons in H as [H _].
Qed.

Lemma reconcile_uses status caravan flags rewritten s :
  wp (reconcile_caravan (W := W) (E := E) (F := F) status caravan flags rewritten) s (λ new _ _,
    mechanisms new = []
    ∨ ∃ route, routed_use (actor_of s) route (mechanisms new)
        ∧ match px_native_stack (pa_extra s) with
          | None => route = RouteCaravanOwned
          | Some native =>
              ∃ intersections landing rest, new = SentIntersections (cv_members caravan) (Ok intersections) :: rest
                ∧ route_landing (route_facts status native) caravan intersections (ga_pull_requests (sy_analysis status)) = Ok landing
                ∧ is_native route = match landing with NativeStack _ _ => true | _ => false end
          end).
Proof.
  unfold reconcile_caravan. apply wp_then, wp_expect; [intros head _ | by left].
  apply wp_then, wp_ask, wp_then. eapply wp_weaken; [apply route_run |]. intros new r s1 [Hp Hroute].
  assert (actor_of s1 = actor_of s) as Ha by (unfold actor_of; by rewrite Hp).
  destruct r as [route | e].
  - eapply wp_weaken; [apply routed_uses |]. intros more r' s2 Hused. rewrite Ha in Hused. right. exists route.
    destruct (px_native_stack (pa_extra s)) as [native |].
    + destruct Hroute as (answer & -> & Hans). destruct (Hans route eq_refl) as (intersections & landing & -> & Hl & Hn).
      split; [exact Hused |]. by exists intersections, landing, more.
    + destruct Hroute as [-> [= ->]]. done.
  - left. destruct (px_native_stack (pa_extra s)); [by destruct Hroute as (answer & -> & _) | by destruct Hroute as [-> _]].
Qed.

(** C6. A caravan is merged by one mechanism: by its native Stack alone where
    the fresh route, read before anything else, says so, and never else; by
    Cara's squashes or one forced squash under Cara's actor, where nothing is
    ever armed; by the required auto-merge or one forced squash under GitHub's,
    where Cara never squashes. *)
Theorem one_actor_merges status caravan flags rewritten s :
  let s' := (reconcile_caravan (W := W) (E := E) (F := F) status caravan flags rewritten s).2 in
  ∃ new, pa_log s' = pa_log s ++ new ∧ one_actor (actor_of s) (mechanisms new)
    ∧ (mechanisms new ≠ [] →
       match px_native_stack (pa_extra s) with
       | None => mechanisms new ≠ [ByNative]
       | Some native =>
           ∃ intersections landing rest, new = SentIntersections (cv_members caravan) (Ok intersections) :: rest
             ∧ route_landing (route_facts status native) caravan intersections (ga_pull_requests (sy_analysis status)) = Ok landing
             ∧ (mechanisms new = [ByNative] ↔ ∃ n c, landing = NativeStack n c)
       end).
Proof.
  cbn zeta. destruct (reconcile_uses status caravan flags rewritten s) as (new & (Hlog & _) & Hused).
  exists new. split; [exact Hlog |].
  assert (∀ k, mechanisms new = ByForce :: k → Forall (eq ByArming) k → actor_of s = ActorCaravan → k = []) as Hno.
  { intros k Hk Harm Ha. destruct (reconcile_unarmed status caravan flags rewritten s Ha) as (new' & (Hlog' & _) & Hun).
    rewrite Hlog in Hlog'. apply app_inv_head in Hlog' as <-. destruct k as [| m k]; [done |].
    apply Forall_cons in Harm as [<- _]. exfalso.
    assert (ByArming ∈ mechanisms new) as Hin by (rewrite Hk; set_solver).
    apply list_elem_of_omap in Hin as (x & Hx & Hm). eapply Forall_forall in Hun; [| exact Hx].
    destruct x as [[] | | | | | | | | | | | |]; done. }
  split.
  - destruct Hused as [-> | (route & [-> | Hused] & _)].
    1, 2: right; destruct (actor_of s); [right; constructor | exists []; by split; [constructor | left]].
    destruct (is_native route); [by left | right]. destruct Hused as [(k & Hk & Harm) | H].
    + destruct (actor_of s) eqn:Ha; [| exists k; eauto]. left. rewrite Hk. f_equal. by apply Hno.
    + destruct (actor_of s); [by right | exists (mechanisms new); eauto].
  - intros Hne. destruct Hused as [? | (route & [? | Hused] & Hroute)]; [done.. |].
    destruct (px_native_stack (pa_extra s)) as [native |].
    + destruct Hroute as (intersections & landing & rest & Hnew & Hl & Hn). exists intersections, landing, rest.
      split; [done |]. split; [done |].
      destruct (is_native route), landing as [| | n c]; try done.
      * split; [intros _; by exists n, c | done].
      * split; [intros Heq; by destruct (owned_not_native _ _ Hused) | by intros (? & ? & ?)].
      * split; [intros Heq; by destruct (owned_not_native _ _ Hused) | by intros (? & ? & ?)].
    + subst route. exact (owned_not_native _ _ Hused).
Qed.
End actor.

(** ** Before the first write *)

Section before.
Context {W E F : Type} `{!LandingProvider W E CiDiagnosis, !SyncProvider W E F}.

#[local] Abbreviation State := (SyncPass W E F).
#[local] Abbreviation Eff A := (M (SyncPass W E F) (PassError E F) A).
Implicit Types s : State.

(** C7. A forced merge sends at most one administrator's squash, and only behind
    its whole fence: the policy, the verification of the head and of the default
    branch, the ADMIN permission, the disarm and the second verification, and the
    audit; otherwise it neither merges nor arms, and fails. The preconditions are
    those of the head: the second verification and the audit carry the facts the
    disarm left, the squash those the audit and the disarms left, and the removal
    of the label those the squash left; the squash is of the head itself when the
    facts are filed by number and the audit answered about the head. *)
Theorem forced_merge_is_fenced status caravan force_merge rewritten s :
  let '(r, s') := force_merge_head (W := W) (E := E) (F := F) status caravan force_merge rewritten s in
  ∃ new, pa_log s' = pa_log s ++ new ∧ ((Forall still new ∧ r ≠ Ok ()) ∨ forced status caravan force_merge s new r).
Proof.
  destruct (force_merge_head _ _ _ _ s) as [r s'] eqn:Hr.
  destruct (wp_out _ _ _ _ _ (force_run status caravan force_merge rewritten s) Hr) as (new & (Hlog & _) & Hq). by exists new.
Qed.

(** The caravans of a pass. *)
Theorem selection_is_exact status all :
  match select_caravans (E := E) (F := F) status all with
  | Ok selected =>
      StronglySorted (key_le (fifo_key status)) selected
      ∧ if all then selected ≡ₚ List.filter (active_caravan status) (fl_caravans (sy_fleet status))
        else ∃ current caravan, sy_current_pr status = Some current
          ∧ containing (sy_fleet status) current = Some caravan ∧ active_caravan status caravan = true ∧ selected = [caravan]
  | Err _ =>
      all = false
      ∧ ∀ current caravan, sy_current_pr status = Some current → containing (sy_fleet status) current = Some caravan →
          active_caravan status caravan = false
  end.
Proof.
  unfold select_caravans. destruct all.
  { split; [apply sort_by_key_sorted | apply sort_by_key_Permutation]. }
  destruct (sy_current_pr status) as [current |]; [| split; [done | by intros ? ? [=]]].
  destruct (containing (sy_fleet status) current) as [caravan |] eqn:Hc; [| split; [done | by intros ? ? [= <-]; rewrite Hc]].
  assert (active_caravan status caravan = negb (bool_decide (cv_id caravan ∈ quarantined_native_caravan_ids status))
    && (negb (cv_parked caravan) || parked_caravan_may_need_gate_recovery status caravan)) as Ha by done.
  destruct (bool_decide (cv_id caravan ∈ _)) eqn:Hq; cbn in Ha.
  { split; [done |]. intros ? ? [= <-]. rewrite Hc. by intros [= <-]. }
  destruct (cv_parked caravan && negb (parked_caravan_may_need_gate_recovery status caravan)) eqn:Hp.
  { split; [done |]. intros ? ? [= <-]. rewrite Hc. intros [= <-]. rewrite Ha.
    by apply andb_true_iff in Hp as [-> ->%negb_true_iff]. }
  split; [apply sort_by_key_sorted |]. exists current, caravan. split_and!; [done.. | | done]. rewrite Ha.
  destruct (cv_parked caravan), (parked_caravan_may_need_gate_recovery status caravan); done.
Qed.

Definition preflight_read (x : Sent E F) : Prop := match x with SentAllows _ _ | SentProtected _ _ => True | _ => False end.

(** The reads of a preflight that passed. *)
Definition preflight_ok (a : HeadMergeActor) (branch : string) : list (Sent E F) :=
  [SentAllows (actor_github a) (Ok true); SentProtected branch (Ok true)].

Lemma preflight_run status s :
  wp (preflight_repository (W := W) (E := E) (F := F) status) s (λ new r s',
    (Forall preflight_read new ∧ r ≠ Ok ())
    ∨ new = preflight_ok (actor_of s) (ls_default_branch (sy_landing status)) ∧ r = Ok ()).
Proof.
  unfold preflight_repository, send_for. apply wp_actor.
  destruct (actor_of s); cbn [actor_caravan].
  all: apply wp_then, wp_then, wp_send_or; intros [allowed | e] s1 _ _; [| left; by repeat constructor].
  all: apply wp_ensure; [intros -> | intros ->; left; by repeat constructor].
  all: apply wp_then, wp_send_or; intros [protected_ | e] s2 _ _; [| left; by repeat constructor].
  all: apply wp_ensure; [intros ->; by right | intros ->; left; by repeat constructor].
Qed.

(** A pass starts with a new progress: of it only the log is read off. *)
Definition logs {A} (m : Eff A) s (Q : list (Sent E F) → result A (PassError E F) → Prop) : Prop :=
  ∃ new, pa_log (m s).2 = pa_log s ++ new ∧ Q new (m s).1.
Lemma logs_wp {A} (m : Eff A) s (Q : list (Sent E F) → result A (PassError E F) → Prop) :
  wp m s (λ new r _, Q new r) → logs m s Q.
Proof. intros (new & (Hlog & _) & HQ). by exists new. Qed.
Lemma logs_bind {A B} (m : Eff A) (f : A → Eff B) s Q :
  wp m s (λ new r s1, match r with Ok a => logs (f a) s1 (λ more, Q (new ++ more)) | Err e => Q new (Err e) end) →
  logs (bind m f) s Q.
Proof.
  unfold wp, logs, bind. intros (new & (Hlog & _) & Hq). destruct (m s) as [[a | e] s1]; cbn in *; [| by exists new].
  destruct Hq as (more & Hm & Hq). exists (new ++ more). split; [by rewrite Hm, Hlog, app_assoc | done].
Qed.
Lemma logs_start {B} status synchronized limit runs native paused_ (f : () → Eff B) s Q :
  (∀ s1, actor_of s1 = sy_head_merge_actor status → px_native_stack (pa_extra s1) = native →
     se_external_auto_merge_policy (pg_settings (pa_progress s1)) = sy_external_auto_merge_policy status →
     logs (f ()) s1 Q) →
  logs (bind (start status synchronized limit runs native paused_) f) s Q.
Proof.
  intros Hf. unfold logs, bind, start. destruct (operation_id (pa_host s)) as [id w].
  set (s1 := mkPass _ _ _ _). destruct (Hf s1) as (new & Hlog & HQ); [done.. |]. by exists new.
Qed.

(** What the pass may reconcile. *)
Definition unpaused (status : SyncStatus) (caravans : list Caravan) : list Caravan :=
  List.filter (λ caravan, negb (paused status caravan)) caravans.

Lemma unpaused_spec status selected :
  List.filter (λ caravan, negb (existsb (λ pause, N.eqb pause.2 (cv_id caravan))
    (List.filter (λ pause, is_effective pause.1 && existsb (λ caravan, N.eqb (cv_id caravan) pause.2) selected)
       (sy_pauses status)))) selected = unpaused status selected.
Proof.
  apply List.filter_ext_in. intros caravan Hin%list_elem_of_In. f_equal. apply eq_true_iff_eq. unfold paused.
  rewrite !existsb_exists. split.
  - intros (pause & [Hp He]%filter_In & Hid). apply andb_true_iff in He as [He _]. exists pause. split; [done |]. by rewrite He.
  - intros (pause & Hp & [He Hid]%andb_true_iff). exists pause. split; [| done]. apply filter_In. split; [done |].
    rewrite He. apply existsb_exists. exists caravan. split; [by apply list_elem_of_In |]. rewrite N.eqb_sym. exact Hid.
Qed.

Lemma validated status selected force_merge :
  validate_graph (E := E) (F := F) status selected force_merge = Ok () →
  Forall (λ problem, passes_over status selected force_merge problem = true) (fl_problems (sy_fleet status)).
Proof.
  unfold validate_graph. destruct (List.find _ _) as [problem |] eqn:Hf; [done |]. intros _.
  apply Forall_forall. intros problem Hin%list_elem_of_In. apply (List.find_none _ _ Hf) in Hin.
  by apply negb_false_iff in Hin.
Qed.

Lemma reconcile_only status caravan flags rewritten :
  only (λ _, True) (reconcile_caravan (W := W) (E := E) (F := F) status caravan flags rewritten).
Proof.
  intros s. destruct (reconcile_uses status caravan flags rewritten s) as (new & Hs & _). exists new.
  split; [exact Hs | by apply Forall_true].
Qed.
Lemma only_each {A} P (f : A → Eff ()) l : (∀ a, only P (f a)) → only P (each f l).
Proof. intros Hf. induction l as [| a l IH]; cbn; [apply only_ret | by apply only_bind]. Qed.

Definition backend_healthy (status : SyncStatus) (native : option NativeSyncContext) : Prop :=
  is_Some native → sb_configured (sy_stack_backend status) = StackGithub → blocking_native_stack_problems status = [].
Lemma healthy_run status native s :
  wp ((if is_some_b native then require_native_stack_backend_healthy status else ret ()) : Eff ()) s (λ new r s',
    new = [] ∧ s' = s ∧ (r = Ok () → backend_healthy status native)).
Proof.
  destruct native as [native |]; cbn [is_some_b]; [| eapply wp_here; [reflexivity |]; split_and!; [done.. |]; by intros _ [? ?]].
  apply wp_ensure; intros Hb; split_and!; try done. intros _ _ Hg. rewrite Hg, bool_decide_eq_true_2 in Hb by done.
  by apply Nat.eqb_eq, symmetry, nil_length_inv in Hb.
Qed.

(** What a pass sent when it sent more than the reads of a preflight. *)
Definition prepared (status : SyncStatus) (all : bool) (flags : SyncFlags) (native : option NativeSyncContext)
    (new : list (Sent E F)) : Prop :=
  ∃ selected rest,
    new = preflight_ok (sy_head_merge_actor status) (ls_default_branch (sy_landing status)) ++ rest
    ∧ select_caravans (E := E) (F := F) status all = Ok selected
    ∧ Forall (λ problem, passes_over status (unpaused status selected) (fg_force_merge flags) problem = true)
        (fl_problems (sy_fleet status))
    ∧ backend_healthy status native.

(** C8. The bounded pass sends nothing but the reads of its preflight, unless
    they passed, the native backend is healthy where one is used, and no problem
    of the graph stops the selected caravans that are not paused. *)
Theorem nothing_before_preflight status all flags limit rewritten runs native s :
  let s' := (execute_bounded_with_native (W := W) (E := E) (F := F) status all flags limit rewritten runs native s).2 in
  ∃ new, pa_log s' = pa_log s ++ new ∧ (Forall preflight_read new ∨ prepared status all flags native new).
Proof.
  cbn zeta. enough (logs (execute_bounded_with_native (W := W) (E := E) (F := F) status all flags limit rewritten runs native) s
    (λ new _, Forall preflight_read new ∨ prepared status all flags native new)) as (new & ? & ?) by by exists new.
  unfold execute_bounded_with_native. apply logs_bind. eapply wp_weaken; [apply healthy_run |].
  intros new r s0 (-> & -> & Hhealthy). destruct r as [[] | e]; [| by left]. specialize (Hhealthy eq_refl).
  apply logs_bind. destruct (select_caravans status all) as [selected | e] eqn:Hselect;
    (eapply wp_here; [reflexivity |]); [| by left].
  cbv beta iota zeta. rewrite unpaused_spec. apply logs_start. intros s1 Ha _ _. apply logs_bind, wp_update; [done |]. apply logs_bind.
  match goal with |- wp _ ?x _ => change (actor_of s1) with (actor_of x) in Ha; set (s2 := x) in * end.
  destruct (0 =? length (unpaused status selected)).
  { eapply wp_here; [reflexivity |]. apply logs_wp, wp_ask. by left. }
  apply wp_then. eapply wp_weaken; [apply preflight_run |]. intros new r s3 [[Hf Hr] | [-> ->]].
  { destruct r as [[] | e]; [done | by left]. }
  rewrite Ha. apply wp_then. destruct (validate_graph _ _ _) as [[] | e] eqn:Hvalid; (eapply wp_here; [reflexivity |]);
    [| left; by repeat constructor].
  eapply wp_only; [apply only_each; intros caravan; apply reconcile_only |].
  intros rest r s4 _ _ _. apply validated in Hvalid.
  assert (prepared status all flags native (preflight_ok (sy_head_merge_actor status) (ls_default_branch (sy_landing status)) ++ rest))
    as Hp by by exists selected, rest.
  destruct r as [[] | e]; [apply logs_wp, wp_ask; right; by rewrite app_nil_r | by right].
Qed.
End before.

(** ** The root-first pass *)

Section first.
Context {W E F : Type} `{!LandingProvider W E CiDiagnosis, !SyncProvider W E F}.

#[local] Abbreviation State := (SyncPass W E F).
#[local] Abbreviation Landing A := (M (Tick W E CiDiagnosis) (SyncError E) A).
#[local] Abbreviation Eff A := (M (SyncPass W E F) (PassError E F) A).
Implicit Types s : State.

#[local] Hint Resolve steps_current_of steps_precondition steps_capacity steps_read_exact steps_verify_runs
  steps_observe_ci steps_foreign steps_promote_root steps_push_required_runs steps_assess_required_runs
  steps_discover steps_check_ancestors steps_refuse steps_wait : moves.

(** A squash that was sent is reported as a landing, or the merge fails. *)
Lemma send_squash_true status caravan_id number remaining base d (t : Tick W E CiDiagnosis) b t' :
  send_squash status caravan_id number remaining base d t = (Ok b, t') → b = true.
Proof. unfold send_squash. intros Hr. do 4 bind_inv Hr. by apply conclude_merge_true in Hr. Qed.

Lemma steps_comment repository number operation marker body :
  steps (moves not_squash) (ensure_operation_comment repository number operation marker body : Landing _).
Proof.
  intros t. destruct (ensure_operation_comment _ _ _ _ _ t) as [r t'] eqn:Hr.
  apply comment_cases in Hr as [(e & _ & Hm) | (pr & receipt & sq & _ & _ & Hm & _)]; [exact Hm |].
  eexists. split; [exact Hm | by repeat constructor].
Qed.
#[local] Hint Resolve steps_comment : moves.

(** A stage without a squash, and what is left to run. *)
Lemma calm_stage {A B} (m : Landing A) (f : A → Landing B) t b t' :
  steps (moves not_squash) m → bind m f t = (Ok b, t') → ∃ a t1, moves not_squash t t1 ∧ f a t1 = (Ok b, t').
Proof. intros Hm Hr. bind_inv Hr. exists a, w. split; [by eapply steps_out | done]. Qed.

(** Walks through the stages of a landing that returned. *)
Ltac calm_stages Hr Hq :=
  repeat (apply calm_stage in Hr as (? & ? & Hq' & Hr); [| solve [walk]]; pose proof (transitivity Hq Hq') as Hq'';
          clear Hq; clear Hq'; rename Hq'' into Hq).

Lemma submit_false status caravan_id number remaining d (t : Tick W E CiDiagnosis) t' :
  submit_merge status caravan_id number remaining d t = (Ok false, t') → moves not_squash t t'.
Proof.
  unfold submit_merge. intros Hr. assert (moves not_squash t t) as Hq by done.
  calm_stages Hr Hq. case_match; [| by apply send_squash_true in Hr].
  etrans; [exact Hq |]. by apply (steps_out _ _ _ _ _ (steps_wait _ _ _)) in Hr.
Qed.

Lemma merge_root_false status caravan_id number remaining landed singleton (t : Tick W E CiDiagnosis) t' :
  merge_root status caravan_id number remaining landed singleton t = (Ok false, t') → moves not_squash t t'.
Proof.
  unfold merge_root. intros Hr. assert (moves not_squash t t) as Hq by done.
  calm_stages Hr Hq. case_match. calm_stages Hr Hq. case_match; [| done |]; (etrans; [exact Hq |]).
  - by apply (steps_out _ _ _ _ _ (steps_wait _ _ _)) in Hr.
  - by apply submit_false in Hr.
Qed.

Lemma wp_merge_root status caravan_id number remaining s
    (Q : list (Sent E F) → result bool (PassError E F) → State → Prop) :
  (∀ new r s', sent new s s' → Forall (lifted not_squash) new → r ≠ Ok true → Q new r s') →
  (∀ new squashed answer r s',
     fenced status number None false (se_external_auto_merge_policy (pg_settings (pa_progress s))) squashed answer new →
     (∀ b, r = Ok b → b = true ∧ ∃ receipt, answer = Ok receipt) → Q (SentLanding <$> new) r s') →
  wp (land (merge_root status caravan_id number remaining None false)) s Q.
Proof.
  intros Hq Hf. destruct (merge_root status caravan_id number remaining None false (tick_of s)) as [r t] eqn:Hm.
  assert (∀ new, moved new (tick_of s) t → sent (SentLanding <$> new) s (land (merge_root status caravan_id number remaining None false) s).2) as Hs.
  { intros new (Hlog & Hset & _). unfold land. rewrite Hm. cbn in *. split_and!; [| done | done].
    cbn. by rewrite Hlog, drop_app_length. }
  assert ((land (merge_root status caravan_id number remaining None false) s).1
    = match r with Ok a => Ok a | Err e => Err (PassLanding e) end) as Hr by (unfold land; by rewrite Hm).
  assert (∀ new, moved new (tick_of s) t → Forall not_squash new → r ≠ Ok true →
    wp (land (merge_root status caravan_id number remaining None false)) s Q) as Hcalm.
  { intros new Hn Hfn Hne. exists (SentLanding <$> new). split; [by apply Hs |]. rewrite Hr. apply Hq; [by apply Hs | |].
    - apply Forall_fmap. eapply Forall_impl; [exact Hfn |]. intros c Hc. by exists c.
    - destruct r; congruence. }
  destruct r as [[] | e].
  2: { pose proof (merge_root_false _ _ _ _ _ _ _ _ Hm) as (new & Hn & Hfn). by apply (Hcalm new). }
  all: apply merge_root_run in Hm as [[(new & Hn & Hfn) Hne] | (new & squashed & answer & Hn & Hfenced & Hok & _)];
    [by apply (Hcalm new) |]; exists (SentLanding <$> new); (split; [by apply Hs |]); rewrite Hr; eapply Hf; [exact Hfenced |].
  - intros b [= <-]. split; [done | by apply Hok].
  - intros b [=].
Qed.

(** How a pass over the eligible roots ends: without a squash, or with the
    fenced squash of one of them, which is the last root it looks at. *)
Definition one_root (status : SyncStatus) (external : ExternalAutoMergePolicy) (caravans : list Caravan)
    (new : list (Sent E F)) (r : result (option Outcome) (PassError E F)) : Prop :=
  (Forall still new ∧ ∀ o, r ≠ Ok (Some o))
  ∨ ∃ caravan root quiet fence squashed answer,
      caravan ∈ caravans ∧ caravan_head caravan = Some root
      ∧ new = quiet ++ (SentLanding <$> fence) ∧ Forall still quiet
      ∧ fenced (sy_landing status) root None false external squashed answer fence
      ∧ ∀ o, r = Ok o → o ≠ None ∧ ∃ receipt, answer = Ok receipt.

Lemma one_root_later status external caravan rest new r :
  one_root status external rest new r → one_root status external (caravan :: rest) new r.
Proof.
  intros [? | (c & root & q & fence & sq & answer & Hin & H)]; [by left | right].
  exists c, root, q, fence, sq, answer. split; [by right | done].
Qed.
Lemma one_root_quiet status external caravans quiet new r :
  Forall still quiet → one_root status external caravans new r → one_root status external caravans (quiet ++ new) r.
Proof.
  intros Hq [[Hn Hr] | (c & root & q & fence & sq & answer & Hin & Hhead & -> & Hs & H)].
  - left. split; [by apply Forall_app | done].
  - right. exists c, root, (quiet ++ q), fence, sq, answer.
    destruct H. split_and!; [done | done | by rewrite app_assoc | by apply Forall_app | done..].
Qed.
Definition external_of s : ExternalAutoMergePolicy := se_external_auto_merge_policy (pg_settings (pa_progress s)).

Lemma one_root_bind {A} status external caravans (m : Eff A) (f : A → Eff (option Outcome)) s :
  only still m → external_of s = external →
  (∀ x s1, external_of s1 = external → wp (f x) s1 (λ new r _, one_root status external caravans new r)) →
  wp (bind m f) s (λ new r _, one_root status external caravans new r).
Proof.
  intros Hm He Hf. apply wp_then. eapply wp_only; [exact Hm |]. intros quiet [x | e] s1 Hq _ (_ & Hset & _); [| by left].
  eapply wp_weaken; [apply Hf; unfold external_of in *; by rewrite Hset |]. intros new r s9. by apply one_root_quiet.
Qed.

#[local] Hint Resolve observe_member_still : pass.
Lemma steps_observe_required repository number :
  steps (moves not_squash) (observe_required_runs (W := W) (E := E) repository number).
Proof. unfold observe_required_runs. walk. Qed.
#[local] Hint Resolve steps_observe_required : moves.

Lemma lifted_still (new : list (Sent E F)) : Forall (lifted not_squash) new → Forall still new.
Proof. intros Hf. eapply Forall_impl; [exact Hf |]. by intros x (c & -> & Hc). Qed.

Lemma root_first_run status caravans s :
  wp (root_first status caravans) s (λ new r _, one_root status (external_of s) caravans new r).
Proof.
  remember (external_of s) as external eqn:He. symmetry in He. revert s He.
  induction caravans as [| caravan rest IH]; intros s He; cbn [root_first].
  { eapply wp_here; [reflexivity |]. by left. }
  apply wp_then, wp_expect; [intros root Hroot | by left].
  do 4 (apply one_root_bind; [solve [walk_pass] | eassumption | intros ? ? ?]).
  apply one_root_bind; [solve [walk_pass] | eassumption | intros ? s5 He5].
  case_match; [by eapply wp_weaken; [apply IH | intros new r s9; apply one_root_later] |].
  apply wp_then, wp_merge_root.
  - intros new [[] | e] s' (_ & Hset & _) Hf%lifted_still Hr; [done | | by left].
    eapply wp_weaken; [apply IH; unfold external_of in *; by rewrite Hset |].
    intros more r s9 Hone. by apply one_root_later, one_root_quiet.
  - intros new squashed answer r s' Hfenced Hok.
    assert (∀ r', (∀ o, r' = Ok o → o ≠ None ∧ ∃ receipt, answer = Ok receipt) →
      one_root status external (caravan :: rest) (SentLanding <$> new) r') as Hone.
    { intros r' Ho. right. exists caravan, root, [], new, squashed, answer.
      split_and!; [by left | done | done | apply Forall_nil_2 | by rewrite <- He5 | exact Ho]. }
    destruct r as [b | e]; [| by apply Hone]. destruct (Hok b eq_refl) as [-> Hreceipt].
    apply wp_then, wp_ask. eapply wp_here; [reflexivity |]. rewrite !app_nil_r. apply Hone. by intros o [= <-].
Qed.

Lemma mechanisms_calm (new : list (Call E)) : Forall not_squash new → mechanisms (F := F) (SentLanding <$> new) = [].
Proof.
  intros Hf. apply mechanisms_still, lifted_still, Forall_fmap. eapply Forall_impl; [exact Hf |]. intros c Hc. by exists c.
Qed.
Lemma mechanisms_fenced status number landed singleton external squashed answer (new : list (Call E)) :
  fenced status number landed singleton external squashed answer new → mechanisms (F := F) (SentLanding <$> new) = [ByCara].
Proof.
  intros (before & observed & oid & read & assessment & proof & fp & comment & verified & last & after & -> & Hb & Ha & _).
  by rewrite !fmap_app, !mechanisms_app, (mechanisms_calm before Hb), (mechanisms_calm after Ha).
Qed.

(** A root the root-first pass may land. *)
Definition root_first_candidate (status : SyncStatus) (all : bool) (caravan : Caravan) : Prop :=
  ∃ selected, select_caravans (E := E) (F := F) status all = Ok selected ∧ caravan ∈ selected
    ∧ cv_parked caravan = false ∧ paused status caravan = false ∧ root_first_eligible status caravan = true.

(** C9. The root-first pass runs under Cara's actor alone, and lands at most
    one root: that of a selected caravan, neither parked nor paused, whose root
    is eligible; behind a passed preflight and the whole fence of a landing, as
    the last thing it sends; a receipt it returns is of an accepted squash, and
    nothing else in it merges or arms. *)
Theorem root_first_lands_one status all limit runs s :
  let '(r, s') := execute_root_first (W := W) status all limit runs s in
  ∃ new, pa_log s' = pa_log s ++ new
    ∧ ((Forall still new ∧ (∀ o, r ≠ Ok (Some o)))
       ∨ actor_caravan (sy_head_merge_actor status) = true
         ∧ ∃ caravan root quiet fence squashed answer,
             root_first_candidate status all caravan ∧ caravan_head caravan = Some root
             ∧ new = preflight_ok ActorCaravan (ls_default_branch (sy_landing status)) ++ quiet ++ (SentLanding <$> fence)
             ∧ Forall still quiet
             ∧ fenced (sy_landing status) root None false (sy_external_auto_merge_policy status) squashed answer fence
             ∧ mechanisms new = [ByCara]
             ∧ (∀ o, r = Ok o → o ≠ None ∧ ∃ receipt, answer = Ok receipt)).
Proof.
  cut (logs (execute_root_first (W := W) status all limit runs) s (λ new r,
    (Forall still new ∧ (∀ o, r ≠ Ok (Some o)))
    ∨ actor_caravan (sy_head_merge_actor status) = true
      ∧ ∃ caravan root quiet fence squashed answer,
          root_first_candidate status all caravan ∧ caravan_head caravan = Some root
          ∧ new = preflight_ok ActorCaravan (ls_default_branch (sy_landing status)) ++ quiet ++ (SentLanding <$> fence)
          ∧ Forall still quiet
          ∧ fenced (sy_landing status) root None false (sy_external_auto_merge_policy status) squashed answer fence
          ∧ mechanisms new = [ByCara]
          ∧ (∀ o, r = Ok o → o ≠ None ∧ ∃ receipt, answer = Ok receipt))).
  { intros (new & Hlog & HQ). destruct (execute_root_first _ _ _ _ s) as [r s']. by exists new. }
  unfold execute_root_first. destruct (actor_caravan _) eqn:Hactor; cbn [negb].
  2: { apply logs_wp. eapply wp_here; [reflexivity |]. by left. }
  apply logs_bind. destruct (select_caravans status all) as [selected | e] eqn:Hselect;
    (eapply wp_here; [reflexivity |]); [| by left].
  cbv beta iota zeta. match goal with |- context [List.filter ?p selected] => set (caravans := List.filter p selected) end. case_match; [apply logs_wp; eapply wp_here; [reflexivity |]; by left |].
  apply logs_start. intros s1 Ha _ Hx. apply logs_bind. eapply wp_weaken; [apply wp_sent, preflight_run |].
  assert (actor_of s1 = ActorCaravan) as Hc by (rewrite Ha; by destruct (sy_head_merge_actor status)).
  rewrite Hc. intros new r s2 [(_ & Hset & _) [[Hf Hr] | [-> ->]]].
  { destruct r as [[] | e]; [done |]. left. split; [| done]. eapply Forall_impl; [exact Hf |]. by intros []. }
  apply logs_wp. eapply wp_weaken; [apply root_first_run |].
  assert (external_of s2 = sy_external_auto_merge_policy status) as -> by (unfold external_of; by rewrite Hset).
  intros more r s3 [[Hf Hr] | (caravan & root & quiet & fence & squashed & answer & Hin & Hroot & -> & Hq & Hfenced & Hok)].
  { left. split; [by repeat constructor | done]. }
  right. split; [done |]. exists caravan, root, quiet, fence, squashed, answer. split_and!; [| done.. | | done].
  - unfold caravans in Hin. apply list_elem_of_In, List.filter_In in Hin as [Hin%list_elem_of_In Hb].
    apply andb_true_iff in Hb as [[Hp%negb_true_iff Hz%negb_true_iff]%andb_true_iff He]. by exists selected.
  - rewrite !mechanisms_app, (mechanisms_still quiet Hq). cbn. by eapply mechanisms_fenced.
Qed.
End first.

(** ** The required auto-merge of a root *)

Section arming.
Context {W E F : Type} `{!LandingProvider W E CiDiagnosis, !SyncProvider W E F}.

#[local] Abbreviation State := (SyncPass W E F).
#[local] Abbreviation Landing A := (M (Tick W E CiDiagnosis) (SyncError E) A).
#[local] Abbreviation Eff A := (M (SyncPass W E F) (PassError E F) A).
Implicit Types s : State.

Definition arming_of (x : Sent E F) : option (PullRequestPrecondition * result GitHubMutationReceipt E) :=
  match x with SentArm expected answer => Some (expected, answer) | _ => None end.
Definition armings (log : list (Sent E F)) : list (PullRequestPrecondition * result GitHubMutationReceipt E) :=
  omap arming_of log.
Lemma armings_app a b : armings (a ++ b) = armings a ++ armings b.
Proof. apply omap_app. Qed.
Lemma armings_still new : Forall still new → armings new = [].
Proof. unfold armings. induction 1 as [| x l Hx _ IH]; [done |]. by destruct x. Qed.

(** The facts were answered by the provider: read back, or by an arming. *)
Definition answered (number : PrNumber) (o : PullRequestSnapshot) (log : list (Sent E F)) : Prop :=
  SentLanding (CallRefetch number (Ok o)) ∈ log
  ∨ ∃ expected receipt, SentArm expected (Ok receipt) ∈ log ∧ gm_after receipt = o.
Lemma answered_app number o a b : answered number o a ∨ answered number o b → answered number o (a ++ b).
Proof. unfold answered. set_solver. Qed.

(** A computation of the landing that is still, and what a result of it says. *)
Lemma wp_landed {A} (R : A → list (Call E) → Prop) (m : Landing A) s (Q : list (Sent E F) → result A (PassError E F) → State → Prop) :
  steps (moves not_squash) m →
  (∀ a t', m (tick_of s) = (Ok a, t') → ∃ new, moved new (tick_of s) t' ∧ R a new) →
  (∀ new r s', sent new s s' → Forall still new →
     (∀ a, r = Ok a → ∃ calls, new = SentLanding <$> calls ∧ R a calls) → Q new r s') →
  wp (land m) s Q.
Proof.
  intros Hm HR HQ. destruct (land_sends not_squash m s (Hm _)) as (new & Hs & Hf). exists new. split; [exact Hs |].
  apply HQ; [exact Hs | by apply lifted_still |]. intros a Ha. unfold land in *.
  destruct (m (tick_of s)) as [[x | e] t] eqn:Hrun; cbn in *; [| done]. injection Ha as ->.
  destruct (HR a t eq_refl) as (calls & (Hlog & _) & Hra). exists calls. split; [| exact Hra].
  destruct Hs as (Hn & _). cbn in Hn. apply app_inv_head in Hn. rewrite <- Hn. unfold tick_of in Hlog. cbn in Hlog.
  by rewrite Hlog, drop_app_length.
Qed.

Lemma confirm_ok repository number target left_ observed reads (t : Tick W E CiDiagnosis) o n t' :
  confirm_armed repository number target left_ observed reads t = (Ok (o, n), t') →
  ∃ new, moved new t t' ∧ (o = observed ∨ CallRefetch number (Ok o) ∈ new).
Proof.
  revert observed reads t. induction left_ as [| k IH]; intros observed reads t; cbn.
  - intros [= <- <- <-]. exists []. split; [apply moved_refl | by left].
  - destruct (negb _).
    + intros Hr. bind_inv Hr. injection Hm as <- <-. bind_inv Hr. apply call_ok in Hm as [Hm _].
      bind_inv Hr. injection Hm0 as <- <-. apply IH in Hr as (new & Hn & Ho).
      assert (moved [CallRefetch number (Ok a)] t (mkTick (insert_current number a (tk_progress w)) (tk_log w) (tk_host w))) as Hi.
      { apply moved_insert; [| by left]. eapply (moved_trans [] _ t); [by apply moved_progress | exact Hm]. }
      exists ([CallRefetch number (Ok a)] ++ new). split; [by eapply moved_trans |]. right. destruct Ho as [-> |]; set_solver.
    + intros [= <- <- <-]. exists []. split; [apply moved_refl | by left].
Qed.

(** Still calls before a run. *)
Lemma wp_quiet {A B} (m : Eff A) (f : A → Eff B) s (Q : list (Sent E F) → result B (PassError E F) → State → Prop) :
  only still m → (∀ e s1, Q [] (Err e) s1) → (∀ quiet new r s1, Forall still quiet → Q new r s1 → Q (quiet ++ new) r s1) →
  (∀ x s1, pg_settings (pa_progress s1) = pg_settings (pa_progress s) → wp (f x) s1 Q) → wp (bind m f) s Q.
Proof.
  intros Hm He Hq Hf. apply wp_then. eapply wp_only; [exact Hm |]. intros quiet [x | e] s1 Hs _ (_ & Hset & _).
  - eapply wp_weaken; [by apply Hf |]. intros new r s2. by apply Hq.
  - rewrite <- (app_nil_r quiet). by apply Hq.
Qed.

(** The calls of an arming: [n] armings at most, the rest is still. *)
Definition arming_calls (n : nat) (new : list (Sent E F)) : Prop := Forall arms new ∧ length (armings new) ≤ n.
Lemma arming_calls_quiet n quiet new : Forall still quiet → arming_calls n new → arming_calls n (quiet ++ new).
Proof.
  intros Hq [Hf Hl]. split; [| by rewrite armings_app, armings_still].
  apply Forall_app. split; [eapply Forall_impl; [exact Hq | apply still_arms] | done].
Qed.
Lemma arming_calls_still n quiet : Forall still quiet → arming_calls n quiet.
Proof. intros Hq. rewrite <- (app_nil_r quiet). apply arming_calls_quiet; [done |]. split; [constructor | cbn; lia]. Qed.

Definition armed_once (number : PrNumber) (new : list (Sent E F)) (r : result (PullRequestSnapshot * nat) (PassError E F))
    (_ : State) : Prop :=
  arming_calls 1 new
  ∧ ∀ o reads, r = Ok (o, reads) → answered number o new ∧ ∃ expected receipt, armings new = [(expected, Ok receipt)].
Lemma armed_once_quiet number quiet new r s : Forall still quiet → armed_once number new r s → armed_once number (quiet ++ new) r s.
Proof.
  intros Hq [Hc Ho]. split; [by apply arming_calls_quiet |]. intros o reads Hr.
  destruct (Ho o reads Hr) as (Ha & Hs). split; [apply answered_app; by right |]. by rewrite armings_app, armings_still.
Qed.
Lemma arm_once_run repository number observed target s :
  wp (arm_root_once (W := W) (F := F) repository number observed target) s (armed_once number).
Proof.
  assert (∀ e s, armed_once number [] (Err e) s) as He by (intros e s'; split; [by apply arming_calls_still, Forall_nil_2 | done]).
  unfold arm_root_once, send_for.
  do 3 (apply wp_quiet; [solve [walk_pass] | exact He | apply armed_once_quiet | intros ? ? _]).
  apply wp_then, wp_send_or. intros [receipt | e] s4 _ _.
  2: { split; [split; [by repeat constructor | done] | done]. }
  apply wp_then, wp_update; [done |].
  eapply (wp_landed (λ o new, o.1 = gm_after receipt ∨ CallRefetch number (Ok o.1) ∈ new)).
  - apply steps_confirm_armed.
  - intros [o n] t' Hr. by apply confirm_ok in Hr.
  - intros new r s' _ Hf Ho. split.
    + split; [by repeat constructor; eapply Forall_impl; [exact Hf | apply still_arms] | cbn; by rewrite armings_still].
    + intros o reads ->. destruct (Ho _ eq_refl) as (calls & -> & Hc). cbn in Hc. split.
      * destruct Hc as [-> | Hc]; [right; eexists _, receipt; split; [by left | done] | left].
        cbn. apply elem_of_cons. right. by apply list_elem_of_fmap_2.
      * eexists _, receipt. cbn. by rewrite armings_still.
Qed.

(** The receipt an arming left, and what it rests on. *)
Definition armed (number : PrNumber) (attempts : nat) (new : list (Sent E F)) s : Prop :=
  ∃ settings caravan_id observed trigger before engine reads receipt rest,
    settings = pg_settings (pa_progress s)
    ∧ arming_receipt (se_repository settings) caravan_id observed
        (arming_provenance (se_operation_id settings) trigger before engine) reads attempts = Some receipt
    ∧ px_root_auto_merge (pa_extra s) = rest ++ [receipt] ∧ Forall (λ r, ar_pr r ≠ ar_pr receipt) rest
    ∧ arming_hash_is_valid receipt = true
    ∧ squash_armed observed = true ∧ answered number observed new
    ∧ engine = negb (attempts =? 0).

Lemma armed_app number attempts quiet new s : armed number attempts new s → armed number attempts (quiet ++ new) s.
Proof.
  intros (x1 & x2 & x3 & x4 & x5 & x6 & x7 & x8 & x9 & H1 & H2 & H3 & H4 & H5 & H6 & H7 & H8).
  exists x1, x2, x3, x4, x5, x6, x7, x8, x9. split_and!; [done | done | done | done | done | done | | done].
  apply answered_app. by right.
Qed.

Lemma arming_receipt_valid repository caravan_id observed provenance reads attempts receipt :
  arming_receipt repository caravan_id observed provenance reads attempts = Some receipt →
  arming_hash_is_valid receipt = true ∧ ar_pr receipt = pr_number observed.
Proof.
  unfold arming_receipt, finalize_arming, arming_hash_is_valid.
  set (cleared := mkArmingReceipt _ _ _ _ _ _ _ _ _ _ _ _). change (with_arming_hash cleared "") with cleared.
  destruct (arming_json cleared) as [material |] eqn:Hj; cbn [fmap option_fmap option_map]; [| intros [=]].
  intros [= <-]. change (with_arming_hash (with_arming_hash cleared _) "") with cleared. rewrite Hj. cbn.
  by rewrite String.eqb_refl.
Qed.

Lemma push_arming_run caravan_id number observed trigger before attempts reads log s :
  squash_armed observed = true → answered number observed log →
  wp (push_root_auto_merge (W := W) (E := E) (F := F) caravan_id observed trigger before (negb (attempts =? 0)) reads attempts) s
    (λ new r s', new = [] ∧ (r = Ok () → armed number attempts log s')).
Proof.
  intros Ha Hlog. unfold push_root_auto_merge. apply wp_then. eapply wp_here; [apply (land_here (setting id) (Ok (pg_settings (pa_progress s)))); done |].
  cbv beta iota. apply wp_then, wp_expect; [intros receipt Hr | done]. apply wp_then.
  assert (∀ s1, pg_settings (pa_progress s1) = pg_settings (pa_progress s) →
    wp (update_extra (λ x, with_root_auto_merge (replace_by ar_pr receipt (px_root_auto_merge x)) x)) s1
      (λ new r s', new = [] ∧ (r = Ok () → armed number attempts log s'))) as Hpush.
  { intros s1 Hset. exists []. split; [by split_and!; [rewrite app_nil_r | |] |]. split; [done |]. intros _.
    apply arming_receipt_valid in Hr as Hv. destruct Hv as [Hv Hpr].
    eexists (pg_settings (pa_progress s)), caravan_id, observed, trigger, before, (negb (attempts =? 0)), reads, receipt, _.
    split_and!; [by rewrite <- Hset | exact Hr | reflexivity | | done..].
    apply Forall_forall. intros r [Hin Hne]%list_elem_of_In%List.filter_In.
    by apply negb_true_iff, N.eqb_neq in Hne. }
  destruct (negb (attempts =? 0)).
  - apply wp_update; [done |]. by apply Hpush.
  - eapply wp_here; [reflexivity |]. by apply Hpush.
Qed.

(** The attempts of an arming. *)
Lemma arm_attempts_run repository caravan_id number trigger before left_ attempts reads observed s :
  wp (arm_attempts (W := W) (F := F) repository caravan_id number trigger before left_ attempts reads observed) s
    (λ new r s', arming_calls left_ new
       ∧ (r = Ok () → Forall (λ a, ∃ receipt, a.2 = Ok receipt) (armings new)
            ∧ armed number (attempts + length (armings new)) new s')).
Proof.
  revert attempts reads observed s. induction left_ as [| n IH]; intros attempts reads observed s; cbn [arm_attempts].
  { eapply wp_here; [reflexivity |]. split; [| done]. split; [constructor | done]. }
  apply wp_then. eapply wp_weaken; [apply arm_once_run |]. intros new r s1 [[Hf Hl] Ho].
  destruct r as [[o more] | e]; [| by split; [split; [done | lia] |]].
  destruct (Ho o more eq_refl) as (Hans & expected & receipt & Hone).
  assert (arming_calls (S n) new) as Hc by (split; [done | lia]).
  destruct (negb (String.eqb _ _)); [eapply wp_here; [reflexivity |]; rewrite app_nil_r; by split |].
  destruct (squash_armed o) eqn:Harmed.
  - eapply wp_weaken; [apply (push_arming_run _ number _ _ _ (S attempts) _ new); done |].
    intros more' r s2 [-> Hok]. rewrite app_nil_r. split; [done |]. intros ->. rewrite Hone. split.
    + constructor; [by exists receipt | constructor].
    + cbn. rewrite Nat.add_1_r. by apply Hok.
  - eapply wp_weaken; [apply IH |]. intros new' r s2 [[Hf' Hl'] Hok]. split.
    + split; [by apply Forall_app | rewrite armings_app, length_app; lia].
    + intros ->. destruct (Hok eq_refl) as [Hall Hk]. rewrite armings_app, Hone. split; [constructor; [by exists receipt | done] |].
      cbn. rewrite Nat.add_succ_r. by apply armed_app.
Qed.

(** C10. Converging the required auto-merge of a root merges nothing and arms at
    most twice; when it returns, every arming was accepted, and the receipt it
    leaves as the only one of its root is sealed, of the operation, for facts
    the provider answered with squash auto-merge armed, and says how many
    armings were made and that Cara armed exactly when there was one. *)
Theorem arming_is_proved repository caravan_id number discovery rewritten s :
  let '(r, s') := ensure_root_squash_auto_merge (W := W) (E := E) (F := F) repository caravan_id number discovery rewritten s in
  ∃ new, pa_log s' = pa_log s ++ new
    ∧ Forall arms new ∧ length (armings new) ≤ ROOT_AUTO_MERGE_ARMING_ATTEMPTS
    ∧ (r = Ok () → Forall (λ a, ∃ receipt, a.2 = Ok receipt) (armings new)
         ∧ armed number (length (armings new)) new s').
Proof.
  cut (wp (ensure_root_squash_auto_merge (W := W) (E := E) (F := F) repository caravan_id number discovery rewritten) s
    (λ new r s', arming_calls ROOT_AUTO_MERGE_ARMING_ATTEMPTS new
       ∧ (r = Ok () → Forall (λ a, ∃ receipt, a.2 = Ok receipt) (armings new)
            ∧ armed number (length (armings new)) new s'))).
  { intros (new & (Hlog & _) & [Hf Hl] & Ho). destruct (ensure_root_squash_auto_merge _ _ _ _ _ _) as [r s']. by exists new. }
  unfold ensure_root_squash_auto_merge. apply wp_then, wp_ask, wp_then.
  eapply (wp_landed (λ o new, CallRefetch number (Ok o.1) ∈ new)).
  { apply steps_read_exact. }
  { intros [o n] t' Hr. apply read_exact_ok in Hr as (new & Hm & _ & Hin & _). by exists new. }
  intros new r s1 _ Hf Ho. destruct r as [[o reads] | e]; [| split; [by apply arming_calls_still | done]].
  destruct (Ho _ eq_refl) as (calls & -> & Hin). cbn in Hin.
  assert (answered number o (SentLanding <$> calls)) as Hans by (left; by apply list_elem_of_fmap_2).
  apply wp_then, wp_ask. cbv zeta. destruct (negb (arming_requires_write _)) eqn:Hw.
  - apply wp_then, wp_update; [done |].
    eapply wp_weaken; [apply (push_arming_run _ number _ _ _ 0 _ (SentLanding <$> calls)); [| done] |].
    + unfold classify_trigger in Hw. destruct (squash_armed o); [done |]. by repeat case_match.
    + intros more r s2 [-> Hok]. rewrite !app_nil_r. split; [by apply arming_calls_still |]. intros ->.
      rewrite armings_still by done. split; [constructor | by apply Hok].
  - eapply wp_weaken; [apply arm_attempts_run |]. intros more r s2 [Hc Hok]. cbn [app].
    split; [by apply arming_calls_quiet |]. rewrite armings_app, armings_still by done. intros Hr.
    destruct (Hok Hr) as [? ?]. split; [done | by apply armed_app].
Qed.
End arming.
