(* ===== verification/CiGate.v ===== *)
(** The two gates a workflow asks before it runs expensive jobs:
    src/src/ci_gate.rs and src/src/ci_admission_gate.rs, with their contracts in
    src/src/lib.rs. *)

From Stdlib Require Import Ascii String.
From S2P Require Import Prelude Text Model Json Graph Files Programs Store.

#[local] Open Scope string_scope.
#[local] Open Scope list_scope.
#[local] Open Scope nat_scope.
#[local] Open Scope caravan_scope.

(** ** Is existing evidence still valid *)

Record CiGateInput := mkCiGateInput {
  gi_pr : PrNumber;
  gi_head_evidence : bool }.

Inductive CiGateDecision := CiValid | CiRequired | CiForceAccepted | CiNotApplicable | CiUnknown.
#[export] Instance CiGateDecision_eq_dec : EqDecision CiGateDecision.
Proof. solve_decision. Defined.
Definition gate_code (d : CiGateDecision) : string :=
  match d with
  | CiValid => "ci_valid" | CiRequired => "ci_required" | CiForceAccepted => "ci_force_accepted"
  | CiNotApplicable => "ci_not_applicable" | CiUnknown => "ci_unknown"
  end.
Definition gate_runs_ci (d : CiGateDecision) : bool := match d with CiRequired | CiUnknown => true | _ => false end.

Record CiGateOutput := mkCiGateOutput {
  go_schema_version : N;
  go_decision : CiGateDecision;
  go_decision_code : string;
  go_run_ci : bool;
  go_pr : PrNumber;
  go_reason : string;
  go_evidence : Value }.

Definition gate_output (decision : CiGateDecision) (pr : PrNumber) (reason : string) (evidence : Value) : CiGateOutput :=
  mkCiGateOutput 1 decision (gate_code decision) (gate_runs_ci decision) pr reason evidence.

(** Of a status the gate reads the analysis. The code returns a [Result] that
    is never an error. *)
Definition evaluate_gate (analysis : GraphAnalysis) (input : CiGateInput) : CiGateOutput :=
  let pr := gi_pr input in
  match ga_pull_requests analysis !! pr with
  | None =>
      gate_output CiUnknown pr "pull request was not present in discovery, so nothing can be proven"
        (VObject [("head_evidence", VBool (gi_head_evidence input))])
  | Some candidate =>
      let head := br_oid (pr_head candidate) in
      let enrolled := is_some_b (containing (ga_fleet analysis) pr) in
      if negb enrolled then
        gate_output CiNotApplicable pr "pull request is not an active caravan member; Caravan has no opinion"
          (VObject [("enrolled", VBool false); ("head", VString head)])
      else if has_label candidate "caravan-force" then
        gate_output CiForceAccepted pr
          "durable PR-scoped caravan-force intent bypasses CI for the member's current generation"
          (VObject [("head", VString head); ("label", VString "caravan-force"); ("scope", VString "pull_request")])
      else if negb (gi_head_evidence input) then
        gate_output CiRequired pr "no prior successful required-check run is known for this exact head"
          (VObject [("head", VString head); ("head_evidence", VBool false)])
      else if existsb (λ proof, String.eqb (br_oid (ct_candidate proof)) head) (ga_cumulative_trees analysis) then
        gate_output CiValid pr "head is unchanged and its proven merge tree is unchanged, so existing checks still apply"
          (VObject [("cumulative_tree_proved", VBool true); ("head", VString head)])
      else
        gate_output CiRequired pr "merge content for this head is not proven unchanged"
          (VObject [("cumulative_tree_proved", VBool false); ("head", VString head)])
  end.

(** ** Is the pull request to be deferred *)

Definition EVENT_MAX_BYTES : N := 128 * 1024.
Definition SCHEMA_VERSION : N := 1.
Definition DEFERRED_WORKFLOW_EXIT_CODE : Z := 78.

Inductive CiAdmissionGateDecision := RunMember | DeferredUnjoined | RunUnproven.
#[export] Instance CiAdmissionGateDecision_eq_dec : EqDecision CiAdmissionGateDecision.
Proof. solve_decision. Defined.
Definition admission_gate_code (d : CiAdmissionGateDecision) : string :=
  match d with
  | RunMember => "run_member" | DeferredUnjoined => "deferred_unjoined" | RunUnproven => "run_unproven"
  end.
Definition admission_runs_ci (d : CiAdmissionGateDecision) : bool :=
  match d with DeferredUnjoined => false | _ => true end.

Record CiAdmissionGateInput := mkAdmissionGateInput {
  ag_event : Path;
  ag_selected_pr : option PrNumber }.

(** The one mode of the policy is left out. *)
Record CiAdmissionGatePolicy := mkAdmissionGatePolicy {
  gp_context : string;
  gp_member_label : string }.

(** What the gate reads of a context; [cx_config] is the text of its whole
    configuration. *)
Record GateContext := mkGateContext {
  cx_config_path_absolute : bool;
  cx_allow_fetch : bool;
  cx_repository : option string;
  cx_admission_gate : option CiAdmissionGatePolicy;
  cx_actor : HeadMergeActor;
  cx_config : list N }.

Record EventFacts := mkEventFacts {
  ef_repository : RepositoryId;
  ef_action : string;
  ef_wake_pr : PrNumber;
  ef_head : CommitOid;
  ef_base : CommitOid }.

(** The facts a receipt fingerprint covers. *)
Record GateFacts := mkGateFacts {
  gf_decision : CiAdmissionGateDecision;
  gf_repository : option RepositoryId;
  gf_wake_pr : option PrNumber;
  gf_selected_pr : option PrNumber;
  gf_event_action : option string;
  gf_head : option CommitOid;
  gf_base : option CommitOid;
  gf_default_head : option CommitOid;
  gf_enrolled : bool;
  gf_member_label_present : bool;
  gf_policy : option CiAdmissionGatePolicy;
  gf_config_fingerprint : string }.

(** The receipt without the telemetry of the provider. *)
Record CiAdmissionGateOutput := mkAdmissionGateOutput {
  ao_schema_version : N;
  ao_decision_code : string;
  ao_run_ci : bool;
  ao_deferred_unjoined : bool;
  ao_workflow_exit_code : Z;
  ao_facts : GateFacts;
  ao_reason : string;
  ao_receipt_fingerprint : string }.

(** ** The event *)

Definition as_u64 (v : Value) : option N := match v with VNumber (PosInt n) => Some n | _ => None end.
(** [Value::pointer] along keys of objects. *)
Fixpoint pointer (keys : list string) (v : Value) : option Value :=
  match keys with [] => Some v | key :: keys => v ← get key v; pointer keys v end.

Definition parse_repository (value : string) : result RepositoryId string :=
  match split_once "/" value with
  | None => Err "event repository is malformed; expensive CI is required"
  | Some (owner, name) =>
      if str_is_empty owner || str_is_empty name || contains_str "/" name
      then Err "event repository is malformed; expensive CI is required"
      else Ok (mkRepositoryId owner name)
  end.

Definition parse_oid (value field : string) : result CommitOid string :=
  if negb ((40 <=? String.length value) && (String.length value <=? 64)) || negb (all_bytes is_ascii_hexdigit value)
  then Err (fmt ["event "; field; " is not one full Git object ID; expensive CI is required"])
  else Ok (to_ascii_lowercase value).

Definition str_at (keys : list string) (v : Value) : option string := found ← pointer keys v; as_str found.

Definition event_facts (event : Value) : result EventFacts string :=
  full_name <-? ok_or (str_at ["repository"; "full_name"] event)
                  "event repository identity is missing; expensive CI is required" ;;
  repository <-? parse_repository full_name ;;
  wake_pr <-? ok_or (match (number ← pointer ["pull_request"; "number"] event; as_u64 number) with
                     | Some number => Some number
                     | None => number ← get "number" event; as_u64 number
                     end) "event PR number is missing; expensive CI is required" ;;
  action <-? ok_or (opt_filter (λ action, negb (str_is_empty action)) (action ← get "action" event; as_str action))
               "event action is missing; expensive CI is required" ;;
  head <-? ok_or (str_at ["pull_request"; "head"; "sha"] event) "event head is missing; expensive CI is required" ;;
  head <-? parse_oid head "head" ;;
  base <-? ok_or (str_at ["pull_request"; "base"; "sha"] event) "event base is missing; expensive CI is required" ;;
  base <-? parse_oid base "base" ;;
  Ok (mkEventFacts repository action wake_pr head base).

Definition is_membership_observation_action (action : string) : bool :=
  mem action ["opened"; "synchronize"; "reopened"; "ready_for_review"].

Definition membership_decision (enrolled member_label_present : bool) : CiAdmissionGateDecision * string :=
  match enrolled, member_label_present with
  | true, true =>
      (RunMember, "exact live provider generation is an active Caravan member; run expensive CI")
  | false, false =>
      (DeferredUnjoined, "exact live provider generation is unjoined; emit the required deferred sentinel")
  | _, _ => (RunUnproven, "membership graph and member label disagree; expensive CI is required")
  end.

(** Of a configuration's provenance its relation to the default branch. *)
Inductive ConfigRelation := Explicit | DefaultBranch | MatchesDefaultBranch | DiffersFromDefaultBranch | UnknownRelation.
Definition trusted_default_policy (provenance : option ConfigRelation) : bool :=
  is_some_and provenance (λ relation, match relation with DefaultBranch | MatchesDefaultBranch => true | _ => false end).
Definition effective_policy_trusted (authority_materialized : bool) (provenance : option ConfigRelation) : bool :=
  authority_materialized || trusted_default_policy provenance.

(** [admission_membership] of src/src/read.rs on a discovered snapshot, without
    the position and the telemetry. *)
Record AdmissionMembership := mkAdmissionMembership {
  am_repository : RepositoryId;
  am_candidate : PullRequestSnapshot;
  am_enrolled : bool;
  am_default_head : CommitOid }.
Definition membership_of (actor : HeadMergeActor) (number : PrNumber) (snapshot : RepositorySnapshot)
    : result AdmissionMembership string :=
  match derive_for_actor snapshot actor with
  | None => Err "panic"
  | Some analysis =>
      candidate <-? ok_or (ga_pull_requests analysis !! number) "admission_candidate_not_found" ;;
      Ok (mkAdmissionMembership (rs_repository snapshot) candidate (is_some_b (containing (ga_fleet analysis) number))
            (br_oid (rs_default_branch snapshot)))
  end.

(** ** The gate *)

(** Beside the event file: the fetch of the default branch's policy
    ([sync_authority::prepare_for_ci_admission]) and the discovery of the pull
    request and the labelled members; each may fail with a code. *)
Inductive GateOp : Type → Type :=
| GateFile {R : Type} (op : FileOp R) : GateOp R
| GatePrepare : GateOp (result GateContext string)
| GateDiscover (repository : option string) (number : PrNumber) : GateOp (result RepositorySnapshot string).

Class GateCodec := {
  parse_json : list N → option Value;
  encode_facts : GateFacts → list N;
  gate_sha256 : list N → string }.

Section gate.
Context `{!GateCodec}.
#[local] Open Scope prog_scope.

Definition fingerprint_of (bytes : list N) : string := fmt ["sha256:"; gate_sha256 bytes].
Definition config_fingerprint (context : GateContext) : string := fingerprint_of (cx_config context).

(** [status] is [None] in every call, so no default head is covered. *)
Definition admission_output (event : option EventFacts) (selected_pr : option PrNumber) (policy : option CiAdmissionGatePolicy)
    (decision : CiAdmissionGateDecision) (enrolled member_label_present : bool) (reason config_fingerprint : string)
    : CiAdmissionGateOutput :=
  let facts := mkGateFacts decision (ef_repository <$> event) (ef_wake_pr <$> event) selected_pr (ef_action <$> event)
    (ef_head <$> event) (ef_base <$> event) None enrolled member_label_present policy config_fingerprint in
  mkAdmissionGateOutput SCHEMA_VERSION (admission_gate_code decision) (admission_runs_ci decision)
    (bool_decide (decision = DeferredUnjoined))
    (if bool_decide (decision = DeferredUnjoined) then DEFERRED_WORKFLOW_EXIT_CODE else 0%Z)
    facts reason (fingerprint_of (encode_facts facts)).

Definition run_unproven (event : option EventFacts) (selected_pr : option PrNumber) (policy : option CiAdmissionGatePolicy)
    (reason config_fingerprint : string) : CiAdmissionGateOutput :=
  admission_output event selected_pr policy RunUnproven false false reason config_fingerprint.

(** [receipt.default_head = Some(..)]. *)
Definition with_default_head (oid : CommitOid) (o : CiAdmissionGateOutput) : CiAdmissionGateOutput :=
  let f := ao_facts o in
  mkAdmissionGateOutput (ao_schema_version o) (ao_decision_code o) (ao_run_ci o) (ao_deferred_unjoined o)
    (ao_workflow_exit_code o)
    (mkGateFacts (gf_decision f) (gf_repository f) (gf_wake_pr f) (gf_selected_pr f) (gf_event_action f) (gf_head f)
       (gf_base f) (Some oid) (gf_enrolled f) (gf_member_label_present f) (gf_policy f) (gf_config_fingerprint f))
    (ao_reason o) (ao_receipt_fingerprint o).

Definition read_event (path : Path) : Prog GateOp (result EventFacts string) :=
  let? len := map_err (perform (GateFile (FsMetadataLen path))) (λ _, "event file is unavailable; expensive CI is required") in
  if (EVENT_MAX_BYTES <? len)%N
  then Ret (Err "event file exceeds the bounded 128 KiB input; expensive CI is required")
  else
    let? bytes := map_err (perform (GateFile (FsRead path))) (λ _, "event file could not be read; expensive CI is required") in
    Ret (match parse_json bytes with
         | None => Err "event JSON is malformed; expensive CI is required"
         | Some event => event_facts event
         end).

Definition same_generation (event : EventFacts) (membership : AdmissionMembership) : bool :=
  let candidate := am_candidate membership in
  negb (negb (bool_decide (am_repository membership = ef_repository event))
        || negb (String.eqb (br_oid (pr_head candidate)) (ef_head event))
        || negb (String.eqb (br_oid (pr_base candidate)) (ef_base event))
        || pr_cross_repository candidate || negb (state_is candidate Open) || pr_draft candidate).

Definition evaluate_live_provider (context : GateContext) (event : EventFacts) (selected_pr : PrNumber)
    (policy : CiAdmissionGatePolicy) (fingerprint : string) (authority_materialized : bool)
    : Prog GateOp CiAdmissionGateOutput :=
  let unproven reason := run_unproven (Some event) (Some selected_pr) (Some policy) reason fingerprint in
  let! discovered := perform (GateDiscover (cx_repository context) selected_pr) in
  Ret (match (snapshot <-? discovered ;; membership_of (cx_actor context) selected_pr snapshot) with
  | Err code =>
      unproven (fmt ["live provider membership is unproven ("; code; "); expensive CI is required"])
  | Ok membership =>
      if negb (effective_policy_trusted authority_materialized None) then
        unproven "effective config is not proven byte-identical to default-branch policy; expensive CI is required"
      else if negb (same_generation event membership) then
        unproven "event/provider repository, head, base, state, draft, or fork generation is unsupported/drifted; expensive CI is required"
      else
        let enrolled := am_enrolled membership in
        let member_label_present := has_label (am_candidate membership) (gp_member_label policy) in
        let '(decision, reason) := membership_decision enrolled member_label_present in
        with_default_head (am_default_head membership)
          (admission_output (Some event) (Some selected_pr) (Some policy) decision enrolled member_label_present
             reason fingerprint)
  end).

Definition evaluate_trusted (context : GateContext) (input : CiAdmissionGateInput) (authority_materialized : bool)
    : Prog GateOp CiAdmissionGateOutput :=
  let fingerprint := config_fingerprint context in
  let! read := read_event (ag_event input) in
  match read with
  | Err reason => Ret (run_unproven None (ag_selected_pr input) None reason fingerprint)
  | Ok event =>
      let selected := default (ef_wake_pr event) (ag_selected_pr input) in
      match cx_admission_gate context with
      | None =>
          Ret (run_unproven (Some event) (Some selected) None
            "ci.admission_gate is disabled in trusted default policy; expensive CI is required" fingerprint)
      | Some policy =>
          if negb (is_membership_observation_action (ef_action event)) then
            Ret (run_unproven (Some event) (Some selected) (Some policy)
              (fmt ["unsupported pull_request action `"; ef_action event;
                    "` cannot produce a deferral; expensive CI is required"]) fingerprint)
          else if negb (selected =? ef_wake_pr event)%N then
            Ret (run_unproven (Some event) (Some selected) (Some policy)
              "selected PR differs from workflow wake PR; this suite cannot run or defer another generation" fingerprint)
          else if is_some_and (cx_repository context) (λ repository, negb (String.eqb repository (slug (ef_repository event)))) then
            Ret (run_unproven (Some event) (Some selected) (Some policy)
              "event repository differs from trusted configured repository; expensive CI is required" fingerprint)
          else evaluate_live_provider context event selected policy fingerprint authority_materialized
      end
  end.

Definition evaluate_admission_gate (context : GateContext) (input : CiAdmissionGateInput) : Prog GateOp CiAdmissionGateOutput :=
  let fingerprint := config_fingerprint context in
  if cx_config_path_absolute context || negb (cx_allow_fetch context) then
    Ret (run_unproven None (ag_selected_pr input) None
      "admission deferral requires freshly fetched default-branch policy; explicit/local-only config runs expensive CI"
      fingerprint)
  else
    let! prepared := perform GatePrepare in
    match prepared with
    | Err code =>
        Ret (run_unproven None (ag_selected_pr input) None
          (fmt ["authoritative default policy is unproven ("; code; "); expensive CI is required"]) fingerprint)
    | Ok prepared => evaluate_trusted prepared input true
    end.
End gate.
