(* ===== verification/CiGateProofs.v ===== *)
(** When a gate lets a workflow skip its expensive jobs. *)

From Stdlib Require Import Ascii String.
From S2P Require Import Prelude Text Model Json Graph Files Programs Store RequiredRuns GraphProofs Analysis CiGate.

#[local] Open Scope string_scope.
#[local] Open Scope list_scope.
#[local] Open Scope nat_scope.
#[local] Open Scope caravan_scope.

(** ** The evidence gate *)

(** A proof of the cumulative tree of exactly this head. *)
Definition tree_observed (analysis : GraphAnalysis) (head : CommitOid) : Prop :=
  ∃ proof, proof ∈ ga_cumulative_trees analysis ∧ br_oid (ct_candidate proof) = head.

Lemma tree_observed_true analysis head :
  tree_observed analysis head ↔
  existsb (λ proof, String.eqb (br_oid (ct_candidate proof)) head) (ga_cumulative_trees analysis) = true.
Proof.
  rewrite existsb_elem_of. unfold tree_observed. by setoid_rewrite String.eqb_eq.
Qed.

(** Both sides of the cases of a decision. *)
Ltac decided :=
  split_and!; try done; split; let case := fresh "case" in intros case; decompose [ex and or] case; simplify_eq; split_and?; try congruence; eauto 10.

(** The evidence gate is exact. It lets jobs be skipped for a discovered
    pull request in three cases only: it belongs to no caravan, its member
    carries the force label, or the caller states evidence for the head and
    the analysis holds a cumulative tree of exactly that head; the decision
    names the case, and everything else runs CI. *)
Theorem evidence_gate_is_exact analysis input :
  let out := evaluate_gate analysis input in
  let skips decision := go_run_ci out = false ∧ go_decision out = decision in
  (skips CiNotApplicable ↔ is_Some (ga_pull_requests analysis !! gi_pr input) ∧ containing (ga_fleet analysis) (gi_pr input) = None)
  ∧ (skips CiForceAccepted ↔ ∃ candidate, ga_pull_requests analysis !! gi_pr input = Some candidate
      ∧ is_Some (containing (ga_fleet analysis) (gi_pr input)) ∧ has_label candidate "caravan-force" = true)
  ∧ (skips CiValid ↔ ∃ candidate, ga_pull_requests analysis !! gi_pr input = Some candidate
      ∧ is_Some (containing (ga_fleet analysis) (gi_pr input)) ∧ has_label candidate "caravan-force" = false
      ∧ gi_head_evidence input = true ∧ tree_observed analysis (br_oid (pr_head candidate)))
  ∧ (go_run_ci out = true ↔ go_decision out = CiRequired ∨ go_decision out = CiUnknown)
  ∧ go_pr out = gi_pr input ∧ go_decision_code out = gate_code (go_decision out).
Proof.
  cbn zeta. setoid_rewrite tree_observed_true. unfold evaluate_gate, is_Some. destruct (ga_pull_requests analysis !! gi_pr input) as [candidate |]; cbn;
    [| decided].
  destruct (containing (ga_fleet analysis) (gi_pr input)) as [caravan |]; cbn; [| decided].
  destruct (has_label candidate "caravan-force") eqn:Hf; cbn; [decided |].
  destruct (gi_head_evidence input); cbn; [| decided].
  destruct (existsb _ _) eqn:Hx; cbn; decided.
Qed.

(** ** The admission gate *)

Section gate.
Context `{!GateCodec}.

(** What the environment answers: the trusted policy, the discovery, the files. *)
Record GateWorld := mkGateWorld {
  gw_prepare : result GateContext string;
  gw_discover : option string → PrNumber → result RepositorySnapshot string;
  gw_disk : gmap Path (list N) }.
Definition exec_gate (R : Type) (c : FileChoice) (op : GateOp R) (w : GateWorld) : R * GateWorld :=
  match op in GateOp R return R * GateWorld with
  | GateFile op => ((exec_file (mkPath true []) _ c op (gw_disk w)).1, w)
  | GatePrepare => (gw_prepare w, w)
  | GateDiscover repository number => (gw_discover w repository number, w)
  end.

(** The one state of the policy, the event and the provider that is deferred. *)
Record deferrable (context : GateContext) (input : CiAdmissionGateInput) (w : GateWorld) : Prop := {
  df_path : cx_config_path_absolute context = false;
  df_fetch : cx_allow_fetch context = true;
  df_state : ∃ trusted policy bytes json event snapshot analysis candidate,
    gw_prepare w = Ok trusted ∧ cx_admission_gate trusted = Some policy
    ∧ gw_disk w !! ag_event input = Some bytes ∧ (N.of_nat (length bytes) ≤ EVENT_MAX_BYTES)%N
    ∧ parse_json bytes = Some json ∧ event_facts json = Ok event
    ∧ is_membership_observation_action (ef_action event) = true
    ∧ (ag_selected_pr input = None ∨ ag_selected_pr input = Some (ef_wake_pr event))
    ∧ (∀ repository, cx_repository trusted = Some repository → repository = slug (ef_repository event))
    ∧ gw_discover w (cx_repository trusted) (ef_wake_pr event) = Ok snapshot
    ∧ derive_for_actor snapshot (cx_actor trusted) = Some analysis
    ∧ ga_pull_requests analysis !! ef_wake_pr event = Some candidate
    ∧ rs_repository snapshot = ef_repository event
    ∧ br_oid (pr_head candidate) = ef_head event ∧ br_oid (pr_base candidate) = ef_base event
    ∧ pr_cross_repository candidate = false ∧ pr_state candidate = Open ∧ pr_draft candidate = false
    ∧ containing (ga_fleet analysis) (ef_wake_pr event) = None
    ∧ has_label candidate (gp_member_label policy) = false }.

Definition receipt_ok (out : CiAdmissionGateOutput) : Prop :=
  ao_run_ci out = admission_runs_ci (gf_decision (ao_facts out))
  ∧ ao_deferred_unjoined out = negb (ao_run_ci out)
  ∧ ao_workflow_exit_code out = (if ao_run_ci out then 0 else DEFERRED_WORKFLOW_EXIT_CODE)%Z
  ∧ ao_decision_code out = admission_gate_code (gf_decision (ao_facts out)).

Lemma output_receipt event selected policy decision enrolled label reason fingerprint :
  receipt_ok (admission_output event selected policy decision enrolled label reason fingerprint).
Proof. by destruct decision. Qed.

Lemma same_generation_true event membership :
  same_generation event membership = true ↔
  am_repository membership = ef_repository event ∧ br_oid (pr_head (am_candidate membership)) = ef_head event
  ∧ br_oid (pr_base (am_candidate membership)) = ef_base event ∧ pr_cross_repository (am_candidate membership) = false
  ∧ pr_state (am_candidate membership) = Open ∧ pr_draft (am_candidate membership) = false.
Proof.
  unfold same_generation. rewrite negb_true_iff, !orb_false_iff, !negb_false_iff, bool_decide_eq_true, !String.eqb_eq, state_is_true.
  tauto.
Qed.

(** What a run may answer in the world [w]. *)
Definition gate_answer (context : GateContext) (input : CiAdmissionGateInput) (w : GateWorld)
    (out : CiAdmissionGateOutput) (w' : GateWorld) : Prop :=
  receipt_ok out ∧ (ao_run_ci out = false → deferrable context input w).

Lemma unproven_answer context input w event selected policy reason fingerprint w' :
  gate_answer context input w (run_unproven event selected policy reason fingerprint) w'.
Proof. by split; [apply output_receipt |]. Qed.

Lemma gate_holds context input w :
  holds exec_gate (eq w) (evaluate_admission_gate context input) (gate_answer context input w) w.
Proof.
  unfold evaluate_admission_gate.
  destruct (cx_config_path_absolute context) eqn:Hpath; [apply unproven_answer |].
  destruct (cx_allow_fetch context) eqn:Hfetch; [| apply unproven_answer].
  intros c0. split; [done |]. cbn. clear c0. destruct (gw_prepare w) as [trusted | code] eqn:Hprepare; [| apply unproven_answer].
  unfold evaluate_trusted, read_event. intros c1. split; [done |]. cbn.
  unfold faulty at 1. destruct (fc_fault c1); [apply unproven_answer |].
  destruct (gw_disk w !! ag_event input) as [bytes |] eqn:Hfile; [| apply unproven_answer]. cbn.
  destruct (EVENT_MAX_BYTES <? _)%N eqn:Hlen; [apply unproven_answer | apply N.ltb_ge in Hlen].
  intros c2. split; [done |]. cbn. rewrite Hfile. unfold faulty. destruct (fc_fault c2); [apply unproven_answer |]. cbn.
  destruct (parse_json bytes) as [json |] eqn:Hjson; [| apply unproven_answer].
  destruct (event_facts json) as [event | reason] eqn:Hevent; [| apply unproven_answer].
  destruct (cx_admission_gate trusted) as [policy |] eqn:Hpolicy; [| apply unproven_answer].
  destruct (is_membership_observation_action (ef_action event)) eqn:Haction; [| apply unproven_answer].
  destruct (default (ef_wake_pr event) (ag_selected_pr input) =? ef_wake_pr event)%N eqn:Hselected; [| apply unproven_answer].
  apply N.eqb_eq in Hselected. rewrite Hselected.
  destruct (is_some_and (cx_repository trusted) _) eqn:Hrepo; [apply unproven_answer |].
  intros c3. split; [done |]. cbn.
  destruct (gw_discover w (cx_repository trusted) (ef_wake_pr event)) as [snapshot | code] eqn:Hdiscover; [| apply unproven_answer].
  cbn. unfold membership_of. destruct (derive_for_actor snapshot (cx_actor trusted)) as [analysis |] eqn:Hderive;
    [| apply unproven_answer].
  destruct (ga_pull_requests analysis !! ef_wake_pr event) as [candidate |] eqn:Hcandidate; [| apply unproven_answer].
  cbn. destruct (same_generation event _) eqn:Hsame; [cbn | apply unproven_answer].
  apply same_generation_true in Hsame as (? & ? & ? & ? & ? & ?). cbn in *.
  destruct (containing (ga_fleet analysis) (ef_wake_pr event)) eqn:Hin; cbn;
    destruct (has_label candidate (gp_member_label policy)) eqn:Hlabel; cbn; (split; [done |]); try done.
  intros _. split; [done.. |]. exists trusted, policy, bytes, json, event, snapshot, analysis, candidate.
  split_and!; try done.
  - destruct (ag_selected_pr input); cbn in Hselected; [right; congruence | by left].
  - intros repository Hr. rewrite Hr in Hrepo. cbn in Hrepo. by apply negb_false_iff, String.eqb_eq in Hrepo.
Qed.

Lemma gate_defers context input w :
  deferrable context input w →
  ao_run_ci (run exec_gate works (evaluate_admission_gate context input) w).1 = false.
Proof.
  intros [Hpath Hfetch (trusted & policy & bytes & json & event & snapshot & analysis & candidate & Hprepare & Hpolicy & Hfile
    & Hlen & Hjson & Hevent & Haction & Hselected & Hrepo & Hdiscover & Hderive & Hcandidate & Hsame)].
  unfold evaluate_admission_gate. rewrite Hpath, Hfetch. cbn. rewrite Hprepare. cbn. rewrite Hfile. cbn.
  destruct (N.ltb_spec EVENT_MAX_BYTES (N.of_nat (length bytes))); [lia |]. cbn. rewrite Hfile. cbn.
  rewrite Hjson, Hevent, Hpolicy, Haction. cbn.
  assert (default (ef_wake_pr event) (ag_selected_pr input) = ef_wake_pr event) as -> by (by destruct Hselected as [-> | ->]).
  rewrite N.eqb_refl. cbn.
  assert (is_some_and (cx_repository trusted) (λ repository, negb (String.eqb repository (slug (ef_repository event)))) = false) as ->.
  { destruct (cx_repository trusted) as [repository |]; [| done]. cbn. by rewrite (Hrepo repository), String.eqb_refl. }
  cbn. rewrite Hdiscover. cbn. unfold membership_of. rewrite Hderive. cbn. rewrite Hcandidate. cbn.
  destruct Hsame as (? & ? & ? & ? & ? & ? & Hin & Hlabel).
  assert (same_generation event (mkAdmissionMembership (rs_repository snapshot) candidate
    (is_some_b (containing (ga_fleet analysis) (ef_wake_pr event))) (br_oid (rs_default_branch snapshot))) = true) as ->
    by (by apply same_generation_true).
  cbn. by rewrite Hin, Hlabel.
Qed.

(** C32. The admission gate defers exactly the unjoined. Whatever the file
    system, the policy fetch and the discovery answer, a receipt that lets a
    suite be skipped is given only if the freshly fetched policy enables the
    gate, the event is a bounded, well-formed observation of the selected pull
    request in the configured repository, and the discovery shows that very
    generation open, in no caravan and without the member label; an answer
    that cannot be had runs CI. Where this state is given and the files can be
    read the gate does defer, with the neutral exit code. *)
Theorem deferral_is_exact context input w :
  (∀ choices out w', drive exec_gate choices (evaluate_admission_gate context input) w = (Some out, w') →
     receipt_ok out ∧ (ao_run_ci out = false → deferrable context input w))
  ∧ (deferrable context input w →
     let out := (run exec_gate works (evaluate_admission_gate context input) w).1 in
     gf_decision (ao_facts out) = DeferredUnjoined ∧ ao_workflow_exit_code out = DEFERRED_WORKFLOW_EXIT_CODE).
Proof.
  split.
  - intros choices out w' Hrun. destruct (drive_holds exec_gate (eq w) (evaluate_admission_gate context input) (gate_answer context input w) choices w)
      as [_ Hout]; [done | apply gate_holds |]. rewrite Hrun in Hout. by apply Hout.
  - intros Hdefer. cbn zeta. pose proof (gate_defers context input w Hdefer) as Hruns.
    pose proof (holds_run exec_gate (eq w) (evaluate_admission_gate context input) (gate_answer context input w) works w (gate_holds context input w))
      as [(Hrun & _ & Hcode & _) _].
    rewrite Hruns in Hrun, Hcode. split; [| done]. by destruct (gf_decision _).
Qed.
End gate.

(** ** Concrete runs *)

(** What the receipt says of the default branch is not under its fingerprint. *)
Lemma default_head_is_not_fingerprinted oid out :
  ao_receipt_fingerprint (with_default_head oid out) = ao_receipt_fingerprint out.
Proof. done. Qed.

Definition chain_with_tree (identical : bool) : GraphAnalysis :=
  push_proof (analysis_of chain_rows)
    (mkCumulativeTreeProof (sample_branch "b" "b") (sample_branch "main" "main") "t1" "t2" identical true).

(** A recorded proof that the tree of the head is not the merge result counts
    as a proof that it is unchanged. *)
Example different_tree_is_valid :
  go_decision_code (evaluate_gate (chain_with_tree false) (mkCiGateInput 2 true)) = "ci_valid".
Proof. vm_compute. reflexivity. Qed.

Lemma evidence_gate_is_exact_witness :
  go_decision (evaluate_gate (chain_with_tree true) (mkCiGateInput 2 true)) = CiValid
  ∧ go_run_ci (evaluate_gate (analysis_of chain_rows) (mkCiGateInput 2 true)) = true.
Proof.
  split.
  - apply (evidence_gate_is_exact (chain_with_tree true) (mkCiGateInput 2 true)).
    eexists. split_and!; [vm_compute; reflexivity | by vm_compute; eauto | vm_compute; reflexivity | done |].
    eexists. split; [apply list_elem_of_here | vm_compute; reflexivity].
  - apply (evidence_gate_is_exact (analysis_of chain_rows) (mkCiGateInput 2 true)). vm_compute. by left.
Defined.

Definition sample_sha : string := "0123456789abcdef0123456789abcdef01234567".
Definition sample_event : Value :=
  let branch := VObject [("sha", VString sample_sha)] in
  VObject [("action", VString "opened"); ("number", VNumber (PosInt 9));
           ("pull_request", VObject [("base", branch); ("head", branch); ("number", VNumber (PosInt 9))]);
           ("repository", VObject [("full_name", VString "o/r")])].
#[local] Instance sample_gate_codec : GateCodec := {
  parse_json bytes := match bytes with [] => None | _ => Some sample_event end;
  encode_facts _ := [];
  gate_sha256 _ := "" }.

Definition sample_candidate : PullRequestSnapshot :=
  mkPullRequestSnapshot 9 "t" "u" Open false (sample_branch "x" sample_sha) (sample_branch "main" sample_sha)
    false ∅ auto_merge_disabled [] None None None None.
Definition sample_discovery : RepositorySnapshot := sample_snapshot [sample_candidate].
Definition sample_policy : CiAdmissionGatePolicy := mkAdmissionGatePolicy "caravan" "caravan".
Definition local_context : GateContext := mkGateContext false true None None actor_default [].
Definition fetched_context : GateContext := mkGateContext false true (Some "o/r") (Some sample_policy) actor_default [].
Definition event_path : Path := mkPath true ["event.json"].
Definition sample_gate_world : GateWorld :=
  mkGateWorld (Ok fetched_context) (λ _ _, Ok sample_discovery) {[ event_path := [1%N] ]}.
Definition sample_gate_input : CiAdmissionGateInput := mkAdmissionGateInput event_path None.

Lemma deferral_is_exact_witness :
  deferrable local_context sample_gate_input sample_gate_world
  ∧ ao_workflow_exit_code (run exec_gate works (evaluate_admission_gate local_context sample_gate_input) sample_gate_world).1
    = DEFERRED_WORKFLOW_EXIT_CODE.
Proof.
  assert (deferrable local_context sample_gate_input sample_gate_world) as Hdefer.
  { split; [done.. |]. exists fetched_context, sample_policy, [1%N], sample_event,
      (mkEventFacts sample_repo "opened" 9 sample_sha sample_sha), sample_discovery, (analysis_of [sample_candidate]), sample_candidate.
    assert (derive_for_actor sample_discovery actor_default = Some (analysis_of [sample_candidate])) as Hderive
      by apply analysis_of_derived.
    split_and!; try done; try (by left); try (vm_compute; reflexivity). by intros ? [= <-]. }
  split; [exact Hdefer | by apply deferral_is_exact].
Defined.
