(* ===== verification/Journal.v ===== *)
(** The event journal: src/src/journal.rs. Records are lines of an active
    file that is rotated into numbered archives; an advisory lock lets one
    process write at a time. *)

From Stdlib Require Import Ascii String.
From S2P Require Import Prelude Text Model Json Events Files Programs Store.

#[local] Open Scope string_scope.
#[local] Open Scope list_scope.
#[local] Open Scope nat_scope.
#[local] Open Scope caravan_scope.

Definition JOURNAL_DIR : string := "caravan".
Definition JOURNAL_FILE : string := "events-v1.jsonl".
Definition LOCK_FILE : string := "events-v1.lock".
Definition DEFAULT_LIMIT : nat := 100.
Definition MAX_LIMIT : nat := 10000.
Definition MAX_RECORD_BYTES : nat := 1024 * 1024.
Definition JOURNAL_VERSION : N := 1.
#[global] Arguments MAX_RECORD_BYTES : simpl never.
#[global] Arguments MAX_LIMIT : simpl never.

Inductive JournalRecord :=
| Event (version : N) (event : CaravanEvent)
| Delivery (version : N) (event_id : EventId) (operation_id : OperationId) (kind : EventKind)
    (caravan_id : option PrNumber) (prs : list PrNumber) (timestamp : string) (delivery : HookDelivery).

#[export] Instance JournalRecord_eq_dec : EqDecision JournalRecord.
Proof. solve_decision. Defined.

Definition record_kind (r : JournalRecord) : EventKind :=
  match r with Event _ event => cv_kind event | Delivery _ _ _ kind _ _ _ _ => kind end.
Definition record_timestamp (r : JournalRecord) : string :=
  match r with Event _ event => cv_timestamp event | Delivery _ _ _ _ _ _ timestamp _ => timestamp end.
Definition concerns (caravan_id : option PrNumber) (prs : list PrNumber) (pr : PrNumber) : bool :=
  bool_decide (caravan_id = Some pr) || mem pr prs.
Definition contains_pr (pr : PrNumber) (r : JournalRecord) : bool :=
  match r with
  | Event _ event => concerns (cv_caravan_id event) (cv_prs event) pr
  | Delivery _ _ _ _ caravan_id prs _ _ => concerns caravan_id prs pr
  end.
Definition record_event_id (r : JournalRecord) : EventId :=
  match r with Event _ event => cv_event_id event | Delivery _ event_id _ _ _ _ _ _ => event_id end.
Definition is_event (r : JournalRecord) : bool := match r with Event _ _ => true | _ => false end.

(** [AppError] by its code. *)
Record JournalError := mkJournalError { je_code : string }.
Definition io_error {A} (code : string) (p : Prog FileOp (result A IoError)) : Prog FileOp (result A JournalError) :=
  map_err p (λ _, mkJournalError code).

(** [serde_json] on a record. *)
Class JournalCodec := {
  encode_record : JournalRecord → option string;
  decode_record : string → option JournalRecord }.

Record JournalConfig := mkJournalConfig {
  jc_max_bytes : N;
  jc_max_archives : N }.

Record JournalPaths := mkJournalPaths {
  jp_directory : Path;
  jp_active : Path;
  jp_lock : Path }.
Definition journal_paths (common : Path) : JournalPaths :=
  let directory := path_join JOURNAL_DIR common in
  mkJournalPaths directory (path_join JOURNAL_FILE directory) (path_join LOCK_FILE directory).

(** The text of the path with [.index] after it. *)
Definition archive_path (active : Path) (index : N) : Path :=
  match last (pa_components active) with
  | Some name => mkPath (pa_absolute active) (removelast (pa_components active) ++ [fmt [name; "."; show_N index]])
  | None => mkPath (pa_absolute active) [fmt ["."; show_N index]]
  end.

(** [(1..=n).rev()]. *)
Definition descending (n : N) : list N := N.of_nat <$> rev (seq 1 (N.to_nat n)).

(** ** Reading *)

(** [read_line] until the end of the file: every line with its line feed. *)
Fixpoint raw_lines (bytes : list N) : list (list N) :=
  match bytes with
  | [] => []
  | b :: bytes =>
      if (b =? 10)%N then [b] :: raw_lines bytes
      else match raw_lines bytes with [] => [[b]] | line :: rest => (b :: line) :: rest end
  end.
Definition ends_line (line : list N) : bool := bool_decide (last line = Some 10%N).

Section journal.
Context `{!JournalCodec}.
#[local] Open Scope prog_scope.
#[local] Abbreviation FileProg A := (Prog FileOp (result A JournalError)).

(** The loop over the lines of a file of [len] bytes, [consumed] of them read. *)
Fixpoint read_lines (len consumed : nat) (lines : list (list N)) : result (list JournalRecord * nat) JournalError :=
  match lines with
  | [] => Ok ([], 0)
  | line :: rest =>
      if negb (utf8_valid line) then Err (mkJournalError "journal_read_failed")
      else
        let consumed := consumed + length line in
        let text := bytes_str line in
        if str_is_empty (trim text) then read_lines len consumed rest
        else match decode_record (trim_end text) with
        | Some record =>
            read <-? read_lines len consumed rest ;; Ok (record :: read.1, read.2)
        | None =>
            if (consumed =? len) && negb (ends_line line) then Ok ([], 0)
            else read <-? read_lines len consumed rest ;; Ok (read.1, S read.2)
        end
  end.

Definition read_file (path : Path) : FileProg (list JournalRecord * nat) :=
  let! bytes := perform (FsRead path) in
  Ret (match bytes with
       | Ok bytes => read_lines (length bytes) 0 (raw_lines bytes)
       | Err NotFound => Ok ([], 0)
       | Err _ => Err (mkJournalError "journal_read_failed")
       end).

Fixpoint read_archives (active : Path) (indexes : list N) (records : list JournalRecord) (unreadable : nat)
    : FileProg (list JournalRecord * nat) :=
  match indexes with
  | [] => Ret (Ok (records, unreadable))
  | index :: indexes =>
      let? read := read_file (archive_path active index) in
      read_archives active indexes (records ++ read.1) (unreadable + read.2)
  end.

Definition read_all_locked (ps : JournalPaths) (max_archives : N) : FileProg (list JournalRecord * nat) :=
  let? archived := read_archives (jp_active ps) (descending max_archives) [] 0 in
  let? read := read_file (jp_active ps) in
  Ret (Ok (archived.1 ++ read.1, archived.2 + read.2)).

(** ** Writing *)

(** [rposition] of the last line feed, plus one. *)
Fixpoint valid_len (bytes : list N) : nat :=
  match bytes with
  | [] => 0
  | b :: bytes =>
      match valid_len bytes with
      | 0 => if (b =? 10)%N then 1 else 0
      | n => S n
      end
  end.

Definition recover_truncated_tail (path : Path) : FileProg unit :=
  let! bytes := perform (FsRead path) in
  match bytes with
  | Err NotFound => Ret (Ok ())
  | Err _ => Ret (Err (mkJournalError "journal_read_failed"))
  | Ok bytes =>
      if bool_decide (bytes = []) || ends_line bytes then Ret (Ok ())
      else io_error "journal_truncation_recovery_failed" (perform (FsSetLen path (valid_len bytes)))
  end.

Definition rotation_failed : string := "journal_rotation_failed".

Fixpoint shift_archives (active : Path) (indexes : list N) : FileProg unit :=
  match indexes with
  | [] => Ret (Ok ())
  | index :: indexes =>
      let from := archive_path active index in
      let! exists_ := perform (FsExists from) in
      run? (if (exists_ : bool)
            then io_error rotation_failed (perform (FsRename from (archive_path active (index + 1))))
            else Ret (Ok ())) in
      shift_archives active indexes
  end.

Definition rotate (ps : JournalPaths) (max_archives : N) : FileProg unit :=
  let active := jp_active ps in
  if (max_archives =? 0)%N then
    let! removed := perform (FsRemove active) in
    Ret (match removed with
         | Ok _ | Err NotFound => Ok ()
         | Err _ => Err (mkJournalError rotation_failed)
         end)
  else
    let oldest := archive_path active max_archives in
    let! exists_ := perform (FsExists oldest) in
    run? (if (exists_ : bool) then io_error rotation_failed (perform (FsRemove oldest)) else Ret (Ok ())) in
    run? shift_archives active (descending (max_archives - 1)) in
    io_error rotation_failed (perform (FsRename active (archive_path active 1))).

Definition paths : FileProg JournalPaths :=
  let! answer := perform FsCommonDir in
  Ret (match answer with
       | GitDir common => Ok (journal_paths common)
       | GitFailed | GitNotStarted => Err (mkJournalError "journal_git_metadata_failed")
       end).

(** The files are used between the lock and the unlock only. *)
Definition locked {A} (f : JournalPaths → FileProg A) : FileProg A :=
  let? ps := paths in
  run? io_error "journal_directory_failed" (perform (FsCreateDirs (jp_directory ps))) in
  run? io_error "journal_lock_open_failed" (perform (FsOpen (jp_lock ps))) in
  run? io_error "journal_lock_failed" (perform (FsLock (jp_lock ps))) in
  let! result := f ps in
  run! perform (FsUnlock (jp_lock ps)) in
  Ret result.

Definition same_event (record existing : JournalRecord) : bool :=
  is_event existing && String.eqb (record_event_id existing) (record_event_id record).

(** The active file has this many bytes, or none when that cannot be read. *)
Definition active_length (len : result N IoError) : N := match len with Ok len => len | Err _ => 0 end.

Definition append_payload (config : JournalConfig) (payload : list N) (ps : JournalPaths) : FileProg unit :=
  let! len := perform (FsMetadataLen (jp_active ps)) in
  let len := active_length len in
  run? (if (0 <? len)%N && (jc_max_bytes config <? sat_add len (N.of_nat (length payload)))%N
        then rotate ps (jc_max_archives config) else Ret (Ok ())) in
  run? io_error "journal_open_failed" (perform (FsOpen (jp_active ps))) in
  io_error "journal_append_failed" (perform (FsAppendSync (jp_active ps) payload)).

Definition append_locked (config : JournalConfig) (record : JournalRecord) (payload : list N) (ps : JournalPaths)
    : FileProg unit :=
  run? recover_truncated_tail (jp_active ps) in
  if is_event record then
    let? read := read_all_locked ps (jc_max_archives config) in
    if existsb (same_event record) read.1 then Ret (Ok ())
    else append_payload config payload ps
  else append_payload config payload ps.

Definition append (config : JournalConfig) (record : JournalRecord) : FileProg unit :=
  match encode_record record with
  | None => Ret (Err (mkJournalError "journal_encode_failed"))
  | Some text =>
      let payload := str_bytes text in
      if MAX_RECORD_BYTES <? length payload then Ret (Err (mkJournalError "journal_record_too_large"))
      else locked (append_locked config record (payload ++ [10%N]))
  end.

Definition append_event (config : JournalConfig) (event : CaravanEvent) : FileProg unit :=
  append config (Event JOURNAL_VERSION event).

(** [unix_millis] is the clock of the host. *)
Definition append_delivery (config : JournalConfig) (unix_millis : string) (event : CaravanEvent) (delivery : HookDelivery)
    : FileProg unit :=
  append config (Delivery JOURNAL_VERSION (cv_event_id event) (cv_operation_id event) (cv_kind event)
                   (cv_caravan_id event) (cv_prs event) unix_millis delivery).

(** ** Queries *)

Definition records_for_flush (config : JournalConfig) : FileProg (list JournalRecord) :=
  locked (λ ps, let? read := read_all_locked ps (jc_max_archives config) in Ret (Ok read.1)).

Record LogInput := mkLogInput {
  li_limit : nat;
  li_kind : option string;
  li_pr : option PrNumber;
  li_since : option string;
  li_until : option string }.

Record JournalSource := mkJournalSource {
  js_path : Path;
  js_present : bool;
  js_archives : N;
  js_unreadable_records : nat }.
Definition empty_result_is_uninformative (s : JournalSource) : bool := negb (js_present s).

Record LogOutput := mkLogOutput {
  lo_records : list JournalRecord;
  lo_limit : nat;
  lo_matching_records : nat;
  lo_truncated : bool;
  lo_source : JournalSource }.

Definition validate_input (input : LogInput) : result unit JournalError :=
  if (li_limit input =? 0) || (MAX_LIMIT <? li_limit input) then Err (mkJournalError "invalid_log_limit")
  else match li_since input, li_until input with
  | Some since, Some until =>
      if ord_lt until since then Err (mkJournalError "invalid_log_time_range") else Ok ()
  | _, _ => Ok ()
  end.

Definition parse_kind (value : string) : result EventKind JournalError :=
  ok_or (snd <$> List.find (λ k, String.eqb (fst k) value) kind_names) (mkJournalError "invalid_event_kind").

Definition selected (input : LogInput) (kind : option EventKind) (r : JournalRecord) : bool :=
  is_none_or kind (λ kind, bool_decide (record_kind r = kind))
  && is_none_or (li_pr input) (λ pr, contains_pr pr r)
  && is_none_or (li_since input) (λ since, ord_le since (record_timestamp r))
  && is_none_or (li_until input) (λ until, ord_le (record_timestamp r) until).

(** [take_while] over [1..=u32::MAX] of the archives that exist. *)
Definition count_archive (active : Path) (index : N) : Prog FileOp (N + N) :=
  let! exists_ := perform (FsExists (archive_path active index)) in
  Ret (if (exists_ : bool) then inl (index + 1)%N else inr (index - 1)%N).
Definition archive_count (ps : JournalPaths) : Prog FileOp N :=
  let! counted := repeat_up_to (Pos.pred (2 ^ 32)) (count_archive (jp_active ps)) 1%N in
  Ret (match counted with inl next => (next - 1)%N | inr count => count end).

Definition take_snapshot (config : JournalConfig) (input : LogInput) (kind : option EventKind) (ps : JournalPaths)
    : FileProg LogOutput :=
  let? read := read_all_locked ps (jc_max_archives config) in
  let filtered := List.filter (selected input kind) read.1 in
  let matching_records := length filtered in
  let start := matching_records - li_limit input in
  let! present := perform (FsExists (jp_active ps)) in
  let! archives := archive_count ps in
  Ret (Ok (mkLogOutput (drop start filtered) (li_limit input) matching_records (0 <? start)
             (mkJournalSource (jp_active ps) present archives read.2))).

Definition snapshot (config : JournalConfig) (input : LogInput) : FileProg LogOutput :=
  let parsed :=
    do? validate_input input ;;
    match li_kind input with
    | None => Ok None
    | Some value => kind <-? parse_kind value ;; Ok (Some kind)
    end in
  match parsed with
  | Err error => Ret (Err error)
  | Ok kind => locked (take_snapshot config input kind)
  end.

(** ** Following *)

(** One round of [follow]: the records of a snapshot beyond the occurrences
    the round before saw, and the occurrences of this one. *)
Fixpoint follow_round (seen observed : gmap string nat) (records : list JournalRecord)
    : list JournalRecord * result (gmap string nat) JournalError :=
  match records with
  | [] => ([], Ok observed)
  | record :: records =>
      match encode_record record with
      | None => ([], Err (mkJournalError "journal_encode_failed"))
      | Some key =>
          let occurrence := S (default 0 (observed !! key)) in
          let round := follow_round seen (<[key := occurrence]> observed) records in
          (if default 0 (seen !! key) <? occurrence then record :: round.1 else round.1, round.2)
      end
  end.

(** The rounds of [follow] on the snapshots it reads, each of at most
    [MAX_LIMIT] records, after the tail of [limit] records it starts with. *)
Fixpoint follow_rounds (seen : gmap string nat) (snapshots : list (list JournalRecord))
    : list JournalRecord * result unit JournalError :=
  match snapshots with
  | [] => ([], Ok ())
  | records :: snapshots =>
      let round := follow_round seen ∅ records in
      match round.2 with
      | Err e => (round.1, Err e)
      | Ok seen => let rest := follow_rounds seen snapshots in (round.1 ++ rest.1, rest.2)
      end
  end.
Definition follow (limit : nat) (baseline : list JournalRecord) (snapshots : list (list JournalRecord))
    : list JournalRecord * result unit JournalError :=
  let tail := drop (length baseline - limit) baseline in
  match (follow_round ∅ ∅ baseline).2 with
  | Err e => (tail, Err e)
  | Ok seen => let rest := follow_rounds seen snapshots in (tail ++ rest.1, rest.2)
  end.
End journal.
