(* ===== verification/JournalLog.v ===== *)
(** The bytes of a journal file that holds records and perhaps a torn last
    line, and what the readers and the recovery make of them. *)

From Stdlib Require Import Ascii String.
From S2P Require Import Prelude Text TextProofs Model Json Events Files Programs Store Journal.

#[local] Open Scope string_scope.
#[local] Open Scope list_scope.
#[local] Open Scope nat_scope.
#[local] Open Scope prog_scope.

(** What the journal needs of its serializer, as [serde_json] documents it: a
    record is written as one object on one line, read back, and no proper
    prefix of it is a value. *)
Class JournalLaws `{!JournalCodec} := {
  record_roundtrip : ∀ r text, encode_record r = Some text → decode_record text = Some r;
  record_prefix : ∀ r p q, encode_record r = Some (p +:+ q) → q ≠ "" → decode_record p = None;
  record_object : ∀ r text, encode_record r = Some text → ∃ mid, text = String "{" (mid +:+ "}");
  record_utf8 : ∀ r text, encode_record r = Some text → utf8_valid (str_bytes text) = true ∧ (10 ∉ str_bytes text)%N }.

(** ** Lines *)

Lemma str_bytes_app a b : str_bytes (a +:+ b) = str_bytes a ++ str_bytes b.
Proof.
  unfold str_bytes. induction a as [| c a IH]; [done |].
  change (list_ascii_of_string (String c a +:+ b)) with (c :: list_ascii_of_string (a +:+ b)).
  by rewrite fmap_cons, IH.
Qed.
Lemma length_str_bytes s : length (str_bytes s) = String.length s.
Proof. unfold str_bytes. rewrite length_fmap. induction s; cbn; congruence. Qed.
Lemma bytes_str_app a b : bytes_str (a ++ b) = bytes_str a +:+ bytes_str b.
Proof.
  unfold bytes_str. induction a as [| c a IH]; [done |]. cbn [app]. rewrite !fmap_cons.
  change (String (char_of c) (string_of_list_ascii (char_of <$> a ++ b))
    = String (char_of c) (string_of_list_ascii (char_of <$> a) +:+ string_of_list_ascii (char_of <$> b))).
  by rewrite IH.
Qed.

Lemma raw_lines_line l rest : 10%N ∉ l → raw_lines (l ++ 10%N :: rest) = (l ++ [10%N]) :: raw_lines rest.
Proof.
  induction l as [| b l IH]; cbn; [done |]. intros [Hb Hl]%not_elem_of_cons.
  rewrite IH by done. by destruct (N.eqb_spec b 10) as [-> |].
Qed.
Lemma raw_lines_torn l : 10%N ∉ l → l ≠ [] → raw_lines l = [l].
Proof.
  induction l as [| b l IH]; [done |]. intros [Hb Hl]%not_elem_of_cons _. cbn.
  destruct (N.eqb_spec b 10) as [-> | _]; [done |]. destruct l as [| b' l]; [done |]. by rewrite IH.
Qed.

Lemma valid_len_torn l : 10%N ∉ l → valid_len l = 0.
Proof.
  induction l as [| b l IH]; cbn; [done |]. intros [Hb Hl]%not_elem_of_cons. rewrite IH by done.
  by destruct (N.eqb_spec b 10) as [-> |].
Qed.
Lemma valid_len_app a t : 10%N ∉ t → valid_len (a ++ t) = valid_len a.
Proof. intros Ht. induction a as [| b a IH]; cbn; [by apply valid_len_torn | by rewrite IH]. Qed.
Lemma valid_len_snoc a : valid_len (a ++ [10%N]) = S (length a).
Proof. induction a as [| b a IH]; cbn; [done | by rewrite IH]. Qed.

Lemma trim_end_prefix s : ∃ w, s = trim_end s +:+ w.
Proof.
  induction s as [| c s [w IH]]; cbn [trim_end]; destruct (all_ws _).
  - by exists "".
  - by exists "".
  - by exists (String c s).
  - exists w. change (String c s = String c (trim_end s +:+ w)). by rewrite <- IH.
Qed.

Section journal.
Context `{!JournalCodec, !JournalLaws}.

(** The line of a record, and the bytes of a file of lines. *)
Definition line_of (r : JournalRecord) : list N :=
  match encode_record r with Some text => str_bytes text ++ [10%N] | None => [] end.
Definition encodable (r : JournalRecord) : Prop := is_Some (encode_record r).
Definition log_bytes (rs : list JournalRecord) : list N := concat (line_of <$> rs).

(** The record of a write that was cut off after [k] bytes. *)
Definition torn_bytes (pending : option (JournalRecord * nat)) : list N :=
  match pending with Some (r, k) => take k (line_of r) | None => [] end.
Definition torn_ok (pending : option (JournalRecord * nat)) : Prop :=
  match pending with Some (r, k) => encodable r ∧ 0 < k < length (line_of r) | None => True end.
(** A cut before the line feed leaves a record that can be read. *)
Definition torn_records (pending : option (JournalRecord * nat)) : list JournalRecord :=
  match pending with Some (r, k) => if S k =? length (line_of r) then [r] else [] | None => [] end.
Definition torn_text (pending : option (JournalRecord * nat)) : bool := utf8_valid (torn_bytes pending).

Lemma log_bytes_app a b : log_bytes (a ++ b) = log_bytes a ++ log_bytes b.
Proof. unfold log_bytes. by rewrite fmap_app, concat_app. Qed.

Lemma line_shape r : encodable r →
  ∃ text, encode_record r = Some text ∧ line_of r = str_bytes text ++ [10%N] ∧ 10%N ∉ str_bytes text
  ∧ str_bytes text ≠ [].
Proof.
  intros [text Ht]. exists text. unfold line_of. rewrite Ht. split_and!; [done | done | by eapply record_utf8 |].
  destruct (record_object r text Ht) as [mid ->]. done.
Qed.

Lemma torn_no_feed pending : torn_ok pending → 10%N ∉ torn_bytes pending.
Proof.
  destruct pending as [[r k] |]; cbn; [| set_solver]. intros [Hr Hk].
  destruct (line_shape r Hr) as (text & _ & Hl & Hf & _). rewrite Hl in *. rewrite length_app in Hk. cbn in Hk.
  rewrite take_app_le by lia. intros Hin. apply Hf. by apply (subseteq_take k).
Qed.

(** ** Reading *)

Lemma str_cut s k : k ≤ String.length s →
  ∃ p q, s = p +:+ q ∧ take k (str_bytes s) = str_bytes p ∧ String.length p = k.
Proof.
  revert s. induction k as [| k IH]; intros s Hk; [by exists "", s |].
  destruct s as [| c s]; [cbn in Hk; lia |]. destruct (IH s) as (p & q & -> & Ht & Hp); [cbn in Hk; lia |].
  exists (String c p), q. split_and!; [done | | by cbn; rewrite Hp].
  change (str_bytes (String c (p +:+ q))) with (byte_of c :: str_bytes (p +:+ q)). cbn [take]. by rewrite Ht.
Qed.

Lemma visible_not_blank p : str_is_empty (trim (String "{" p)) = false.
Proof. unfold trim. rewrite trim_start_visible by done. pose proof (trim_end_visible "" "{" p eq_refl) as Ht. cbn [String.append] in Ht. change (str_is_empty (trim_end (String "{" p)) = false). change (trim_end (String "{" p) = String "{" (trim_end p)) in Ht. by rewrite Ht. Qed.

Lemma full_line_text text mid : text = String "{" (mid +:+ "}") →
  str_is_empty (trim (bytes_str (str_bytes text ++ [10%N]))) = false ∧ trim_end (bytes_str (str_bytes text ++ [10%N])) = text.
Proof.
  intros ->. rewrite bytes_str_app, bytes_str_bytes. change (bytes_str [10%N]) with (String line_feed "").
  assert (String "{" (mid +:+ "}") +:+ String line_feed "" = String "{" mid +:+ String "}" (String line_feed "")) as ->.
  { change (String "{" ((mid +:+ "}") +:+ String line_feed "") = String "{" (mid +:+ ("}" +:+ String line_feed ""))).
    by rewrite str_app_assoc. }
  assert (trim_end (String "{" mid +:+ String "}" (String line_feed "")) = String "{" (mid +:+ "}")) as Ht.
  { rewrite trim_end_visible by done. done. }
  split; [| done]. unfold trim. change (String "{" mid +:+ ?x) with (String "{" (mid +:+ x)) in *.
  rewrite trim_start_visible by done. by rewrite Ht.
Qed.

(** The lines of the records, then the torn line. *)
Lemma read_lines_log rs pending len consumed :
  Forall encodable rs → torn_ok pending → consumed + length (log_bytes rs ++ torn_bytes pending) = len →
  read_lines len consumed (raw_lines (log_bytes rs ++ torn_bytes pending))
  = if torn_text pending then Ok (rs ++ torn_records pending, 0) else Err (mkJournalError "journal_read_failed").
Proof.
  intros Hrs Ht. revert consumed. induction Hrs as [| r rs Hr _ IH]; intros consumed Hlen.
  - change (log_bytes []) with (@nil N) in *. cbn [app] in *. unfold torn_text.
    destruct pending as [[r k] |]; [| done]. pose proof (torn_no_feed _ Ht) as Hf.
    destruct Ht as [Hr Hk]. destruct (line_shape r Hr) as (text & He & Hl & _ & _).
    cbn [torn_bytes] in *. rewrite Hl in *. rewrite length_app in Hk. cbn [length] in Hk.
    rewrite take_app_le in * by lia. set (cut := take k (str_bytes text)) in *.
    assert (length cut = k) as Hcut by (unfold cut; rewrite length_take; lia).
    rewrite raw_lines_torn by (done || (intros Hn; by rewrite Hn in Hcut; cbn in Hcut; lia)).
    cbn [read_lines]. destruct (utf8_valid cut); [| done]. cbn [negb].
    destruct (str_cut text k) as (p & q & -> & Hcut_p & Hp); [rewrite <- length_str_bytes; lia |].
    fold cut in Hcut_p. rewrite Hcut_p, bytes_str_bytes. rewrite length_str_bytes, str_length_app in Hk.
    destruct p as [| c p]; [cbn in Hp; lia |]. destruct (record_object _ _ He) as [mid Hmid].
    assert (c = "{"%char) as -> by (by injection Hmid). rewrite visible_not_blank.
    assert (length (line_of r) = String.length (String "{" p) + String.length q + 1) as Hll
      by by rewrite Hl, length_app, length_str_bytes, str_length_app.
    cbn [torn_records]. rewrite Hll.
    destruct (Nat.eqb_spec (S k) (String.length (String "{" p) + String.length q + 1)) as [Heq | Hne].
    + assert (q = "") as -> by (destruct q; [done | cbn in Heq, Hp; lia]). rewrite str_app_nil_r in *.
      assert (trim_end (String "{" p) = String "{" p) as ->.
      { rewrite Hmid. exact (trim_end_visible (String "{" mid) "}" "" eq_refl). }
      by rewrite (record_roundtrip _ _ He).
    + assert (decode_record (trim_end (String "{" p)) = None) as ->.
      { destruct (trim_end_prefix (String "{" p)) as [w Hw]. apply (record_prefix r _ (w +:+ q)).
        - rewrite He. by rewrite <- str_app_assoc, <- Hw.
        - intros Hwq. apply (f_equal String.length) in Hwq. rewrite str_length_app in Hwq. cbn in Hwq.
          assert (String.length q = 0) by lia. cbn in Hp, Hne. lia. }
      assert (length cut = String.length (String "{" p)) as Hlc by by rewrite Hcut_p, length_str_bytes.
      assert (consumed + length (str_bytes (String "{" p)) = len) as -> by (rewrite length_str_bytes; lia).
      rewrite Nat.eqb_refl. rewrite <- Hcut_p. unfold ends_line. case_bool_decide as Hlast; [| done].
      exfalso. apply Hf. by apply last_Some_elem_of in Hlast.
  - destruct (line_shape r Hr) as (text & He & Hl & Hf & Hne). destruct (record_object _ _ He) as [mid Hmid].
    change (log_bytes (r :: rs)) with (line_of r ++ log_bytes rs) in *. rewrite <- app_assoc in *. rewrite Hl in *.
    rewrite <- app_assoc. cbn [app]. rewrite (raw_lines_line _ _ Hf). cbn [read_lines].
    rewrite utf8_app by (by eapply record_utf8). cbn [utf8_valid N.ltb negb]. change (10 <? 128)%N with true. cbn [negb].
    destruct (full_line_text text mid Hmid) as [-> ->]. rewrite (record_roundtrip r text He), IH.
    + by destruct (torn_text pending).
    + rewrite (length_app (_ ++ _)) in Hlen. lia.
Qed.
End journal.
