(* ===== verification/JournalFiles.v ===== *)
(** What the files of the journal hold, how its readers and the recovery of a
    torn tail see it, and what a rotation does to the order of the records. *)

From Stdlib Require Import Ascii String.
From S2P Require Import Prelude Text TextProofs Model Json Events Files Programs Store Journal JournalLog.

#[local] Open Scope string_scope.
#[local] Open Scope list_scope.
#[local] Open Scope nat_scope.
#[local] Open Scope prog_scope.

Section journal.
Context `{!JournalCodec, !JournalLaws} (common_dir : Path).
#[local] Abbreviation ps := (journal_paths common_dir).
#[local] Abbreviation active := (jp_active ps).
#[local] Abbreviation archive := (archive_path active).

(** ** The files *)

Definition archive_name (i : N) : Path :=
  mkPath (pa_absolute common_dir) (pa_components common_dir ++ [JOURNAL_DIR; fmt [JOURNAL_FILE; "."; show_N i]]).
Lemma archive_eq i : archive i = archive_name i.
Proof.
  unfold archive_path, journal_paths, path_join, archive_name. cbn. rewrite last_snoc, removelast_last.
  by rewrite <- app_assoc.
Qed.
Lemma archive_inj i j : archive i = archive j → i = j.
Proof.
  rewrite !archive_eq. unfold archive_name, fmt. cbn. intros [= Heq%app_inv_head].
  injection Heq as Heq. rewrite !str_app_nil_r in Heq. by apply (inj pretty).
Qed.
Lemma archive_not_active i : archive i ≠ active.
Proof.
  rewrite archive_eq. unfold archive_name, journal_paths, path_join. cbn. rewrite <- app_assoc. cbn.
  by intros [= Heq%app_inv_head].
Qed.
Lemma lock_not_active : jp_lock ps ≠ active.
Proof. unfold journal_paths, path_join. cbn. rewrite <- !app_assoc. by intros [= Heq%app_inv_head]. Qed.
Lemma archive_not_lock i : archive i ≠ jp_lock ps.
Proof.
  rewrite archive_eq. unfold archive_name, journal_paths, path_join. cbn. rewrite <- app_assoc. cbn.
  by intros [= Heq%app_inv_head].
Qed.

(** What the files hold: the records of every archive and of the active file,
    and a write that was cut off. *)
Record Contents := mkContents {
  ct_archived : N → list JournalRecord;
  ct_active : list JournalRecord;
  ct_pending : option (JournalRecord * nat) }.

Definition file_holds (d : Disk) (path : Path) (rs : list JournalRecord) (pending : option (JournalRecord * nat)) : Prop :=
  Forall encodable rs ∧ torn_ok pending
  ∧ (d !! path = Some (log_bytes rs ++ torn_bytes pending) ∨ d !! path = None ∧ rs = [] ∧ pending = None).

Record shape (d : Disk) (c : Contents) : Prop := {
  sh_archived : ∀ i, file_holds d (archive i) (ct_archived c i) None;
  sh_active : file_holds d active (ct_active c) (ct_pending c) }.

Definition complete (n : N) (c : Contents) : list JournalRecord :=
  concat (ct_archived c <$> descending n) ++ ct_active c.
Definition everything (n : N) (c : Contents) : list JournalRecord :=
  complete n c ++ option_list (fst <$> ct_pending c).
Definition readable (n : N) (c : Contents) : list JournalRecord :=
  complete n c ++ torn_records (ct_pending c).

Lemma torn_records_sublist pending : torn_records pending `sublist_of` option_list (fst <$> pending).
Proof. destruct pending as [[r k] |]; cbn; [| done]. case_match; [done | apply sublist_nil_l]. Qed.
Lemma readable_everything n c : readable n c `sublist_of` everything n c.
Proof. unfold readable, everything. apply sublist_app; [done | apply torn_records_sublist]. Qed.

Lemma file_holds_ext d d' path rs pending :
  d' !! path = d !! path → file_holds d path rs pending → file_holds d' path rs pending.
Proof. unfold file_holds. by intros ->. Qed.

Lemma shape_other path content d c :
  (∀ i, archive i ≠ path) → active ≠ path → shape d c → shape (partial_alter (λ _, content) path d) c.
Proof.
  intros Ha Hp [H1 H2]. split; [intros i |];
    (eapply file_holds_ext; [apply lookup_partial_alter_ne |]; [| done]; done).
Qed.

(** ** The operations *)

Section rules.
Context (faults : bool) (I : Disk → Prop).
#[local] Abbreviation holds := (holds (exec_files common_dir faults) I).
#[local] Abbreviation exec_files := (exec_files common_dir faults).

Lemma holds_read_file path rs pending (Q : result (list JournalRecord * nat) JournalError → Disk → Prop) d :
  I d → file_holds d path rs pending →
  (faults = true ∨ torn_text pending = false → Q (Err (mkJournalError "journal_read_failed")) d) →
  (torn_text pending = true → Q (Ok (rs ++ torn_records pending, 0)) d) →
  holds (read_file path) Q d.
Proof.
  intros HI (Hrs & Ht & Hd) He Ho. apply (holds_answer _ _ _ _ (ok_or (d !! path) NotFound)); [done | done | by intros; apply He; left |].
  destruct Hd as [-> | (-> & -> & ->)]; cbn [ok_or holds]; [| by apply Ho].
  rewrite read_lines_log by done. destruct (torn_text pending) eqn:Hp; [by apply Ho | by apply He; right].
Qed.

Lemma holds_read_archives c indexes records unreadable
    (Q : result (list JournalRecord * nat) JournalError → Disk → Prop) d :
  I d → shape d c → (faults = true → Q (Err (mkJournalError "journal_read_failed")) d) →
  Q (Ok (records ++ concat (ct_archived c <$> indexes), unreadable)) d →
  holds (read_archives active indexes records unreadable) Q d.
Proof.
  intros HI Hc He. revert records unreadable. induction indexes as [| i indexes IH]; intros records unreadable Ho; cbn [read_archives].
  - cbn [fmap list_fmap concat] in Ho. by rewrite app_nil_r in Ho.
  - apply holds_try, (holds_read_file _ (ct_archived c i) None); [done | by apply Hc | by intros [Hf | Hf]; auto |].
    intros _. cbn [fst snd]. apply IH. cbn [torn_records]. rewrite app_nil_r, Nat.add_0_r.
    rewrite <- app_assoc. exact Ho.
Qed.

Lemma holds_read_all n c (Q : result (list JournalRecord * nat) JournalError → Disk → Prop) d :
  I d → shape d c →
  (faults = true ∨ torn_text (ct_pending c) = false → Q (Err (mkJournalError "journal_read_failed")) d) →
  (torn_text (ct_pending c) = true → Q (Ok (readable n c, 0)) d) →
  holds (read_all_locked ps n) Q d.
Proof.
  intros HI Hc He Ho. unfold read_all_locked. apply holds_try, (holds_read_archives c); [done | done | auto |].
  apply holds_try, (holds_read_file _ (ct_active c) (ct_pending c)); [done | apply Hc | done |].
  intros Ht. cbn. unfold readable, complete in Ho. rewrite <- app_assoc in Ho. by apply Ho.
Qed.

Definition recovered (c : Contents) : Contents := mkContents (ct_archived c) (ct_active c) None.

Lemma log_bytes_ends rs : Forall encodable rs → rs = [] ∨ ∃ a, log_bytes rs = a ++ [10%N].
Proof.
  destruct rs as [| r rs _] using rev_ind; [by left |]. intros [_ Hr]%Forall_app. inversion_clear Hr as [| ? ? Hr1 _]. right.
  destruct (line_shape r Hr1) as (text & _ & Hl & _). rewrite log_bytes_app. unfold log_bytes at 2. cbn.
  rewrite app_nil_r, Hl, app_assoc. by eexists.
Qed.

Lemma valid_len_log rs pending : Forall encodable rs → torn_ok pending →
  valid_len (log_bytes rs ++ torn_bytes pending) = length (log_bytes rs).
Proof.
  intros Hrs Ht. rewrite valid_len_app by by apply torn_no_feed.
  destruct (log_bytes_ends rs Hrs) as [-> | [a ->]]; [done |]. rewrite valid_len_snoc, length_app. cbn. lia.
Qed.

Lemma holds_recover c (Q : result unit JournalError → Disk → Prop) d :
  I d → shape d c → (faults = true → ∀ e, Q (Err e) d) →
  (∀ d', shape d' (recovered c) → I d' ∧ Q (Ok ()) d') →
  holds (recover_truncated_tail active) Q d.
Proof.
  intros HI Hc He Ho. pose proof (sh_active d c Hc) as (Hrs & Ht & Hd).
  assert (ct_pending c = None → Q (Ok ()) d) as Hsame.
  { intros Hp. apply Ho. destruct c as [f a p]. cbn in *. by subst p. }
  apply (holds_answer _ _ _ _ (ok_or (d !! active) NotFound)); [done | done | by intros; apply He |].
  destruct Hd as [Hd | (Hd & _ & Hp)]; rewrite Hd; cbn [ok_or]; [| by apply Hsame].
  destruct (bool_decide _ || ends_line _) eqn:Hend; cbn [holds pbind].
  { apply Hsame. destruct (ct_pending c) as [[r k] |] eqn:Hp; [| done]. exfalso.
    pose proof (torn_no_feed _ Ht) as Hfeed. destruct Ht as [Hr Hk].
    assert (torn_bytes (Some (r, k)) ≠ []) as Hne.
    { cbn. intros Hn. apply (f_equal length) in Hn. rewrite length_take in Hn. cbn in Hn. lia. }
    apply orb_true_iff in Hend as [Hend | Hend]; apply bool_decide_eq_true in Hend.
    - by apply app_nil in Hend as [_ Hend].
    - rewrite last_app in Hend. destruct (last (torn_bytes (Some (r, k)))) as [b |] eqn:Hlast.
      + injection Hend as ->. by apply Hfeed, last_Some_elem_of.
      + by apply last_None in Hlast. }
  set (d' := <[active := log_bytes (ct_active c)]> d).
  assert (shape d' (recovered c)) as Hc'.
  { split; cbn.
    - intros i. eapply file_holds_ext; [| apply Hc]. apply lookup_insert_ne. apply not_eq_sym, archive_not_active.
    - split_and!; [done | done | left]. unfold d'. rewrite lookup_insert_eq. cbn. by rewrite app_nil_r. }
  apply (holds_effect _ _ _ _ (Ok ()) d'); [| done | by intros; apply He | by apply Ho].
  intros ch. unfold Store.exec_files, exec_file. by rewrite Hd, valid_len_log, take_app_length.
Qed.
End rules.

(** ** Rotation *)

(** The files that archives keep from [k] down to one. *)
Fixpoint older (f : N → list JournalRecord) (k : nat) : list JournalRecord :=
  match k with 0 => [] | S k => f (N.of_nat (S k)) ++ older f k end.
Lemma complete_older n c : complete n c = older (ct_archived c) (N.to_nat n) ++ ct_active c.
Proof.
  unfold complete, descending. f_equal. induction (N.to_nat n) as [| k IH]; [done |].
  rewrite seq_S, rev_app_distr. cbn. by rewrite IH.
Qed.
Lemma older_ext f g k : (∀ i, (1 ≤ i ≤ N.of_nat k)%N → f i = g i) → older f k = older g k.
Proof.
  induction k as [| k IH]; intros Hfg; cbn [older]; [done |]. rewrite IH, Hfg; [done | lia |]. intros i Hi. apply Hfg. lia.
Qed.

Definition set_archive (f : N → list JournalRecord) (i : N) (rs : list JournalRecord) : N → list JournalRecord :=
  λ j, if decide (j = i) then rs else f j.

Lemma older_clear f i k : older (set_archive f i []) k `sublist_of` older f k.
Proof.
  induction k as [| k IH]; cbn [older]; [done |]. apply sublist_app; [| done]. unfold set_archive.
  case_decide; [apply sublist_nil_l | done].
Qed.

Lemma older_move f i k : (1 ≤ i)%N →
  older (set_archive (set_archive f i []) (i + 1) (f i)) k `sublist_of` older f k.
Proof.
  intros Hi. set (g := set_archive (set_archive f i []) (i + 1) (f i)).
  assert (∀ k, (N.of_nat k < i)%N → older g k = older f k) as Hlow.
  { intros k' Hk. apply older_ext. intros j Hj. unfold g, set_archive. rewrite !decide_False by lia. done. }
  assert (∀ k, N.of_nat (S k) = i → older g (S k) = older f k) as Hat.
  { intros k' Hk. cbn [older]. rewrite Hlow by lia. unfold g, set_archive.
    rewrite decide_False, decide_True by lia. done. }
  induction k as [| k IH]; [done |]. destruct (decide (N.of_nat (S k) = i)) as [Heq | Hne].
  { rewrite Hat by done. cbn [older]. by apply sublist_inserts_l. }
  destruct (decide (N.of_nat (S k) = i + 1)%N) as [Heq | Hne'].
  - destruct k as [| k]; [lia |]. change (older g (S (S k))) with (g (N.of_nat (S (S k))) ++ older g (S k)).
    rewrite Hat by lia. unfold g at 1, set_archive. rewrite decide_True by done.
    cbn [older]. assert (i = N.of_nat (S k)) as -> by lia. by apply sublist_inserts_l.
  - cbn [older]. apply sublist_app; [| done]. unfold g, set_archive. rewrite !decide_False by done. done.
Qed.

Lemma older_rotate f a k : older (set_archive f 1 a) k `sublist_of` older f k ++ a.
Proof.
  induction k as [| k IH]; cbn [older]; [apply sublist_nil_l |]. rewrite <- app_assoc.
  destruct k as [| k]; [cbn; unfold set_archive; rewrite decide_True, app_nil_r by done; by apply sublist_inserts_l |].
  apply sublist_app; [| done]. unfold set_archive. rewrite decide_False by lia. done.
Qed.

(** ** What the rotation and the append leave *)

Lemma shape_set d c i content rs :
  shape d c → (content = Some (log_bytes rs) ∧ Forall encodable rs ∨ content = None ∧ rs = []) →
  shape (partial_alter (λ _, content) (archive i) d)
    (mkContents (set_archive (ct_archived c) i rs) (ct_active c) (ct_pending c)).
Proof.
  intros Hc Hcontent. split; cbn.
  - intros j. unfold set_archive. case_decide as Hj.
    + subst j. unfold file_holds. rewrite lookup_partial_alter_eq. cbn. rewrite app_nil_r.
      destruct Hcontent as [[-> Hrs] | [-> ->]]; split_and!; try done; [by left | by right].
    + eapply file_holds_ext; [| apply Hc]. apply lookup_partial_alter_ne. intros Heq%archive_inj. congruence.
  - eapply file_holds_ext; [| apply Hc]. apply lookup_partial_alter_ne, archive_not_active.
Qed.

Lemma shape_active d c content rs pending :
  shape d c → Forall encodable rs → torn_ok pending →
  (content = Some (log_bytes rs ++ torn_bytes pending) ∨ content = None ∧ rs = [] ∧ pending = None) →
  shape (partial_alter (λ _, content) active d) (mkContents (ct_archived c) rs pending).
Proof.
  intros Hc Hrs Ht Hcontent. split; cbn.
  - intros i. eapply file_holds_ext; [| apply Hc]. apply lookup_partial_alter_ne, not_eq_sym, archive_not_active.
  - unfold file_holds. by rewrite lookup_partial_alter_eq.
Qed.

Lemma shape_file d c i bytes : shape d c → d !! archive i = Some bytes →
  bytes = log_bytes (ct_archived c i) ∧ Forall encodable (ct_archived c i).
Proof.
  intros Hc Hd. destruct (sh_archived d c Hc i) as (Hrs & _ & [Hd' | [Hd' _]]); [| congruence].
  rewrite Hd in Hd'. injection Hd' as ->. cbn. by rewrite app_nil_r.
Qed.

Section kept.
(** A property that the loss of records keeps, of the records up to archive [n]. *)
Context (P : list JournalRecord → Prop) (n : N).
Context (P_sublist : ∀ l k, l `sublist_of` k → P k → P l).

(** The property holds with the records [next] to come, and no write is torn. *)
Definition quiet (next : list JournalRecord) (d : Disk) : Prop :=
  ∃ c, shape d c ∧ ct_pending c = None ∧ P (complete n c ++ next).
Definition kept (d : Disk) : Prop := ∃ c, shape d c ∧ P (everything n c).

Lemma quiet_less next c c' d' :
  shape d' c' → ct_pending c' = None → complete n c' `sublist_of` complete n c → P (complete n c ++ next) → quiet next d'.
Proof.
  intros Hc' Hp Hless HP. exists c'. split_and!; [done | done |]. eapply P_sublist; [| exact HP]. by apply sublist_app.
Qed.
Lemma quiet_kept next d : quiet next d → kept d.
Proof.
  intros (c & Hc & Hp & HP). exists c. split; [done |]. unfold everything. rewrite Hp. cbn. rewrite app_nil_r.
  eapply P_sublist; [| exact HP]. by apply sublist_inserts_r.
Qed.

Lemma quiet_set next d c i content rs :
  shape d c → ct_pending c = None → P (complete n c ++ next) →
  (content = Some (log_bytes rs) ∧ Forall encodable rs ∨ content = None ∧ rs = []) →
  older (set_archive (ct_archived c) i rs) (N.to_nat n) `sublist_of` older (ct_archived c) (N.to_nat n) →
  quiet next (partial_alter (λ _, content) (archive i) d).
Proof.
  intros Hc Hp HP Hcontent Hless. eapply quiet_less; [by apply shape_set | done | | exact HP].
  rewrite !complete_older. cbn. by apply sublist_app.
Qed.

Lemma quiet_clear next d i : quiet next d → quiet next (delete (archive i) d).
Proof.
  intros (c & Hc & Hp & HP). eapply (quiet_set next d c i None []); [done.. | by right |]. apply older_clear.
Qed.

Lemma quiet_move next d i bytes : (1 ≤ i)%N → d !! archive i = Some bytes → quiet next d →
  quiet next (<[archive (i + 1) := bytes]> (delete (archive i) d)).
Proof.
  intros Hi Hd (c & Hc & Hp & HP). destruct (shape_file d c i bytes Hc Hd) as [-> Henc].
  eapply quiet_less; [| | | exact HP].
  - apply (shape_set _ (mkContents (set_archive (ct_archived c) i []) (ct_active c) (ct_pending c)) (i + 1) (Some _));
      [apply (shape_set d c i None []); [done | by right] | left; by split].
  - done.
  - rewrite !complete_older. cbn. apply sublist_app; [by apply older_move | done].
Qed.

Lemma quiet_archive next d bytes : d !! active = Some bytes → quiet next d →
  quiet next (<[archive 1 := bytes]> (delete active d)).
Proof.
  intros Hd (c & Hc & Hp & HP). destruct (sh_active d c Hc) as (Henc & _ & [Hd' | [Hd' _]]); [| congruence].
  rewrite Hd, Hp in Hd'. injection Hd' as ->. cbn. rewrite app_nil_r. eapply quiet_less; [| | | exact HP].
  - apply (shape_set _ (mkContents (ct_archived c) [] None) 1 (Some _)); [by apply (shape_active _ c None [] None); auto | left; by split].
  - done.
  - rewrite !complete_older. cbn. rewrite app_nil_r. apply older_rotate.
Qed.

Lemma quiet_drop next d : quiet next d → quiet next (delete active d).
Proof.
  intros (c & Hc & Hp & HP). eapply quiet_less; [by apply (shape_active _ c None [] None); auto | done | | exact HP].
  rewrite !complete_older. cbn. apply sublist_app; [done | apply sublist_nil_l].
Qed.
End kept.
End journal.
