(* ===== verification/JournalProofs.v ===== *)
(** The journal under kills and failures: the order and the identity of the
    records it keeps, and that an acknowledged record is read back. *)

From Stdlib Require Import Ascii String.
From S2P Require Import Prelude Text TextProofs Model Json Events Files Programs Store Journal JournalLog JournalFiles.

#[local] Open Scope string_scope.
#[local] Open Scope list_scope.
#[local] Open Scope nat_scope.
#[local] Open Scope prog_scope.

Section journal.
Context `{!JournalCodec, !JournalLaws} (common_dir : Path) (faults : bool).
#[local] Abbreviation ps := (journal_paths common_dir).
#[local] Abbreviation active := (jp_active ps).
#[local] Abbreviation archive := (archive_path active).

Section kept.
Context (P : list JournalRecord → Prop) (n : N).
Context (P_sublist : ∀ l k, l `sublist_of` k → P k → P l).
#[local] Abbreviation quiet := (quiet common_dir P n).
#[local] Abbreviation kept := (kept common_dir P n).
#[local] Abbreviation holds := (holds (exec_files common_dir faults) kept).

(** A step that leaves the journal quiet whatever its result is. *)
Lemma holds_quiet_step {B} next (op : FileOp (result unit IoError)) r d' (k : result unit IoError → Prog FileOp B) Q d :
  (∀ c, exec_files common_dir faults _ c op d = effect (answered faults c) d r d') →
  quiet next d → quiet next d' → (∀ d r, quiet next d → holds (k r) Q d) → holds (pbind (perform op) k) Q d.
Proof.
  intros Hop Hd Hd' Hk. apply (holds_effect _ _ _ _ r d'); [done | by eapply quiet_kept | auto |].
  destruct r; (split; [by eapply quiet_kept | by apply Hk]).
Qed.

Lemma holds_rename_step {B} next source target bytes (k : result unit IoError → Prog FileOp B) Q d :
  d !! source = Some bytes → quiet next d → quiet next (<[target := bytes]> (delete source d)) →
  (∀ d r, quiet next d → holds (k r) Q d) → holds (pbind (perform (FsRename source target)) k) Q d.
Proof.
  intros Hd Hq Hq'. apply (holds_quiet_step next _ (Ok ()) (<[target := bytes]> (delete source d))); [| done | done].
  intros c. unfold exec_files, exec_file. by rewrite Hd.
Qed.

Lemma holds_shift next indexes Q d :
  Forall (λ i, (1 ≤ i)%N) indexes → quiet next d → (∀ d r, quiet next d → Q r d) →
  holds (shift_archives active indexes) Q d.
Proof.
  intros Hi Hd HQ. revert d Hd. induction Hi as [| i indexes Hi _ IH]; intros d Hd; cbn [shift_archives holds]; [by apply HQ |].
  apply holds_exists; [by eapply quiet_kept | | by intros; apply IH].
  case_bool_decide as Hex; [| by apply IH]. destruct Hex as [bytes Hbytes].
  apply holds_try. apply (holds_rename_step next _ _ bytes); [done | done | by apply quiet_move |].
  intros d' [[] | e] Hd'; [by apply IH | by apply HQ].
Qed.

Lemma holds_rotate next max_archives Q d :
  quiet next d → (∀ d r, quiet next d → Q r d) → holds (rotate ps max_archives) Q d.
Proof.
  intros Hd HQ. unfold rotate. destruct (N.eqb_spec max_archives 0) as [_ | Hm].
  - destruct (d !! active) as [bytes |] eqn:Hbytes.
    + apply (holds_quiet_step next _ (Ok ()) (delete active d)); [| done | by apply quiet_drop | intros; by apply HQ].
      intros c. unfold exec_files, exec_file. by rewrite Hbytes.
    + apply (holds_quiet_step next _ (Err NotFound) d); [| done | done | intros; by apply HQ].
      intros c. unfold exec_files, exec_file. by rewrite Hbytes.
  - assert (∀ d, quiet next d → holds (shift_archives active (descending (max_archives - 1)))
      (λ r d, match r with
        | Ok _ => holds (io_error rotation_failed (perform (FsRename active (archive 1)))) Q d
        | Err e => Q (Err e) d end) d) as Hrest.
    { intros d1 Hd1. apply (holds_shift next); [| done |].
      - unfold descending. apply Forall_fmap, Forall_rev, Forall_forall. intros i Hi%elem_of_seq. cbn. lia.
      - intros d2 [[] | e] Hd2; [| by apply HQ]. destruct (d2 !! active) as [bytes |] eqn:Hbytes.
        + apply (holds_rename_step next _ _ bytes); [done | done | by apply quiet_archive | intros; by apply HQ].
        + apply (holds_quiet_step next _ (Err NotFound) d2); [| done | done | intros; by apply HQ].
          intros c. unfold exec_files, exec_file. by rewrite Hbytes. }
    apply holds_exists; [by eapply quiet_kept | | intros; apply holds_try; by apply holds_try, Hrest].
    case_bool_decide as Hex; [| apply holds_try; by apply holds_try, Hrest]. destruct Hex as [bytes Hbytes].
    apply holds_try. apply (holds_quiet_step next _ (Ok ()) (delete (archive max_archives) d));
      [| done | by apply quiet_clear |].
    + intros c. unfold exec_files, exec_file. by rewrite Hbytes.
    + intros d1 [[] | e] Hd1; [by apply holds_try, Hrest | by apply HQ].
Qed.

(** ** The append *)

(** The record is the last of the active file. *)
Definition acknowledged (r : JournalRecord) (d : Disk) : Prop :=
  ∃ c, shape common_dir d c ∧ ct_pending c = None ∧ P (complete n c) ∧ last (ct_active c) = Some r.

Lemma holds_record_write r (Q : result unit JournalError → Disk → Prop) d c :
  encodable r → shape common_dir d c → ct_pending c = None → P (complete n c ++ [r]) → is_Some (d !! active) →
  (∀ d' e, kept d' → Q (Err e) d') → (∀ d', acknowledged r d' → Q (Ok ()) d') →
  holds (io_error "journal_append_failed" (perform (FsAppendSync active (line_of r)))) Q d.
Proof.
  intros Hr Hc Hp HP [old Hold] He Ho ch.
  change (let (res, d') := (faulty (answered faults ch) (Ok ()), match d !! active with
      Some old => <[active := old ++ written (answered faults ch) (line_of r)]> d | None => d end) in
    kept d' ∧ Q (match (res : result unit IoError) with Ok a => Ok a | Err _ => Err (mkJournalError "journal_append_failed") end) d').
  rewrite Hold. destruct (sh_active common_dir d c Hc) as (Henc & _ & [Hd | [Hd _]]); [| congruence].
  rewrite Hold, Hp in Hd. injection Hd as ->. cbn [torn_bytes]. rewrite app_nil_r.
  assert (acknowledged r (<[active := log_bytes (ct_active c) ++ line_of r]> d)) as Hfull.
  { exists (mkContents (ct_archived c) (ct_active c ++ [r]) None). split_and!; [| done | |].
    - apply (shape_active _ _ c (Some _)); [done | apply Forall_app; by split; [| apply Forall_singleton] | done | left].
      cbn. by rewrite app_nil_r, log_bytes_app; unfold log_bytes at 2; cbn; rewrite app_nil_r.
    - unfold complete. cbn. rewrite app_assoc. exact HP.
    - apply last_snoc. }
  assert (∀ d, acknowledged r d → kept d) as Hkept.
  { intros d' (c' & Hc' & Hp' & HP' & _). exists c'. unfold everything. rewrite Hp'. cbn. by rewrite app_nil_r. }
  unfold faulty, written. destruct (fc_fault (answered faults ch)); [| by split; [apply Hkept | apply Ho]].
  set (k := fc_torn _). assert (kept (<[active := log_bytes (ct_active c) ++ take k (line_of r)]> d)) as Hk.
  2: { split; [done | by apply He]. }
  destruct (decide (length (line_of r) ≤ k)) as [Hlong | Hshort]; [rewrite take_ge by done; by apply Hkept |].
  destruct (decide (k = 0)) as [-> | Hk0].
  - exists c. cbn [take]. rewrite app_nil_r. split.
    + destruct c as [arch a p]. cbn in *. subst p. apply (shape_active _ _ (mkContents arch a None) (Some _)); [done | done | done | left].
      cbn. by rewrite app_nil_r.
    + unfold everything. rewrite Hp. cbn. rewrite app_nil_r. eapply P_sublist; [| exact HP]. by apply sublist_inserts_r.
  - exists (mkContents (ct_archived c) (ct_active c) (Some (r, k))). split.
    + apply (shape_active _ _ c (Some _)); [done | done | split; [done | lia] | by left].
    + unfold everything. cbn. exact HP.
Qed.

Lemma holds_append_payload config r (Q : result unit JournalError → Disk → Prop) d :
  encodable r → quiet [r] d → (∀ d' e, kept d' → Q (Err e) d') → (∀ d', acknowledged r d' → Q (Ok ()) d') →
  holds (append_payload config (line_of r) ps) Q d.
Proof.
  intros Hr Hd He Ho.
  assert (∀ d, quiet [r] d → holds
    (run? io_error "journal_open_failed" (perform (FsOpen active)) in
     io_error "journal_append_failed" (perform (FsAppendSync active (line_of r)))) Q d) as Hwrite.
  { intros d1 Hd1. pose proof (quiet_kept _ _ _ P_sublist _ _ Hd1) as Hk. destruct Hd1 as (c & Hc & Hp & HP).
    set (d2 := match d1 !! active with Some _ => d1 | None => <[active := []]> d1 end).
    assert (shape common_dir d2 c ∧ is_Some (d2 !! active)) as [Hc2 Hd2].
    { unfold d2. destruct (d1 !! active) as [old |] eqn:Hold; [by split | split; [| by rewrite lookup_insert_eq]].
      destruct (sh_active _ _ _ Hc) as (_ & _ & [Hd' | (_ & Ha & _)]); [congruence |].
      destruct c as [arch a p]. cbn in *. subst a p. apply (shape_active _ _ (mkContents arch [] None) (Some _)); [done | constructor | done | by left]. }
    apply holds_try. apply (holds_effect _ _ _ _ (Ok ()) d2); [done | done | intros; by apply He |].
    split; [| by eapply holds_record_write].
    apply (quiet_kept _ _ _ P_sublist [r]). by exists c. }
  intros ch. change (kept d ∧ holds (let len := active_length (faulty (answered faults ch) (match d !! active with
      Some bytes => Ok (N.of_nat (length bytes)) | None => Err NotFound end)) in
    run? (if (0 <? len)%N && (jc_max_bytes config <? sat_add len (N.of_nat (length (line_of r))))%N
          then rotate ps (jc_max_archives config) else Ret (Ok ())) in
    run? io_error "journal_open_failed" (perform (FsOpen active)) in
    io_error "journal_append_failed" (perform (FsAppendSync active (line_of r)))) Q d).
  split; [by eapply quiet_kept |]. cbv zeta. destruct (_ && _); apply holds_try; [| by apply Hwrite].
  apply (holds_rotate [r]); [done |]. intros d1 [[] | e] Hd1; [by apply Hwrite |]. apply He. by eapply quiet_kept.
Qed.

(** An acknowledged event may be one the journal has already. *)
Definition found (config : JournalConfig) (r : JournalRecord) (d : Disk) : Prop :=
  ∃ c existing, shape common_dir d c ∧ ct_pending c = None
  ∧ existing ∈ complete (jc_max_archives config) c ∧ same_event r existing = true.

(** [P0] is what the records satisfy before an append, and [P] after it. *)
Lemma holds_append_locked (P0 : list JournalRecord → Prop) config r (Q : result unit JournalError → Disk → Prop) d c :
  (∀ l k, l `sublist_of` k → P0 k → P0 l) → (∀ l, P0 l → P l) →
  (∀ l, P0 l → (jc_max_archives config = n → is_event r = true → existsb (same_event r) l = false) → P (l ++ [r])) →
  encodable r → shape common_dir d c → P0 (everything n c) →
  (∀ d' e, kept d' → Q (Err e) d') → (∀ d', kept d' → acknowledged r d' ∨ found config r d' → Q (Ok ()) d') →
  holds (append_locked config r (line_of r) ps) Q d.
Proof.
  intros HP0 HP Hnext Hr Hc Hd He Ho. assert (kept d) as Hk by by exists c; split; [| apply HP].
  assert (P0 (complete n c)) as Hcomplete by (eapply HP0; [| exact Hd]; by apply sublist_inserts_r).
  assert (∀ d, acknowledged r d → kept d) as Hacked.
  { intros d' (c' & Hc' & Hp' & HP' & _). exists c'. unfold everything. rewrite Hp'. cbn. by rewrite app_nil_r. }
  apply holds_try, (holds_recover common_dir faults _ c); [done | done | by intros; apply He |].
  intros d1 Hc1. assert (kept d1) as Hk1.
  { exists (recovered c). split; [done |]. unfold everything. cbn. rewrite app_nil_r. by apply HP. }
  split; [done |]. destruct (is_event r) eqn:Hevent.
  - apply holds_try, (holds_read_all common_dir faults _ _ (recovered c)); [done | done | by intros; apply He |].
    intros _. cbn [fst]. unfold readable. cbn [torn_records recovered ct_pending]. rewrite app_nil_r.
    destruct (existsb _ _) eqn:Hex; cbn [holds].
    + apply existsb_exists in Hex as (existing & Hin%list_elem_of_In & Hsame). apply Ho; [done | right].
      by exists (recovered c), existing.
    + apply holds_append_payload; [done | | done | intros; apply Ho; auto].
      exists (recovered c). split_and!; [done | done |]. apply Hnext; [done |]. by intros <- _.
  - apply holds_append_payload; [done | | done | intros; apply Ho; auto].
    exists (recovered c). split_and!; [done | done |]. apply Hnext; [done |]. done.
Qed.

Lemma holds_locked {A} (f : JournalPaths → Prog FileOp (result A JournalError)) Q d :
  kept d → (faults = true → ∀ e d', kept d' → Q (Err e) d') →
  (∀ d', (∀ c, shape common_dir d c → shape common_dir d' c) → holds (f ps) (λ r d, kept d ∧ Q r d) d') →
  holds (locked f) Q d.
Proof.
  intros Hk He Hf. apply holds_try, (holds_common_dir common_dir faults); [done | by intros; split; apply He |].
  set (d2 := match d !! jp_lock ps with Some _ => d | None => <[jp_lock ps := []]> d end).
  assert (∀ c, shape common_dir d c → shape common_dir d2 c) as Hc2.
  { intros c Hc. unfold d2. destruct (d !! jp_lock ps); [done |].
    apply (shape_other _ _ (Some [])); [intros i; apply archive_not_lock | apply not_eq_sym, lock_not_active | done]. }
  assert (kept d2) as Hk2 by (destruct Hk as (c & Hc & HP); exists c; auto).
  apply holds_try, (holds_answer _ _ _ _ (Ok ())); [done | done | by intros; apply He |].
  apply holds_try, (holds_effect _ _ _ _ (Ok ()) d2); [done | done | by intros; apply He | split; [done |]].
  apply holds_try, (holds_answer _ _ _ _ (Ok ())); [done | done | by intros; apply He |].
  apply holds_bind. eapply holds_mono; [| by apply Hf]. intros r d3 [Hk3 HQ] c. by split.
Qed.

Lemma holds_append (P0 : list JournalRecord → Prop) config r (Q : result unit JournalError → Disk → Prop) d c :
  (∀ l k, l `sublist_of` k → P0 k → P0 l) → (∀ l, P0 l → P l) →
  (∀ l, P0 l → (jc_max_archives config = n → is_event r = true → existsb (same_event r) l = false) → P (l ++ [r])) →
  shape common_dir d c → P0 (everything n c) →
  (∀ d' e, kept d' → Q (Err e) d') → (∀ d', kept d' → acknowledged r d' ∨ found config r d' → Q (Ok ()) d') →
  holds (append config r) Q d.
Proof.
  intros HP0 HP Hnext Hc Hd He Ho. assert (kept d) as Hk by by exists c; split; [| apply HP].
  unfold append. destruct (encode_record r) as [text |] eqn:Ht; [| by apply He]. cbv zeta.
  assert (str_bytes text ++ [10%N] = line_of r) as -> by (unfold line_of; by rewrite Ht).
  destruct (_ <? _); [by apply He |].
  apply holds_locked; [done | by intros; apply He |]. intros d' Hd'.
  apply (holds_append_locked P0 _ _ _ _ c); try done; [by exists text | by apply Hd' | |].
  - intros d2 e Hk2. split; [done | by apply He].
  - intros d2 Hk2 Hor. split; [done | by apply Ho].
Qed.

Lemma holds_flush config (Q : result (list JournalRecord) JournalError → Disk → Prop) d c :
  shape common_dir d c → P (everything n c) →
  (faults = true ∨ torn_text (ct_pending c) = false → ∀ e d', Q (Err e) d') →
  (∀ d', torn_text (ct_pending c) = true → Q (Ok (readable (jc_max_archives config) c)) d') →
  holds (records_for_flush config) Q d.
Proof.
  intros Hc HP He Ho. apply holds_locked; [by exists c | by intros; apply He; left |]. intros d' Hd'.
  assert (kept d') as Hk by by exists c; split; [apply Hd' |].
  apply holds_try, (holds_read_all common_dir faults _ _ c); [done | by apply Hd' | |].
  - intros Hor. split; [done | by apply He].
  - intros Ht. split; [done | by apply Ho].
Qed.
End kept.
End journal.

(** ** Sequences of calls *)

Section calls.
Context `{!JournalCodec, !JournalLaws} (common_dir : Path).
#[local] Abbreviation active := (jp_active (journal_paths common_dir)).

(** One append, which the end of its choices kills. The advisory lock lets
    one process at a time use the files, so the calls follow one another. *)
Record JournalCall := mkJournalCall {
  jl_config : JournalConfig;
  jl_record : JournalRecord;
  jl_choices : list FileChoice }.
Definition run_append (d : gmap Path (list N)) (call : JournalCall) : gmap Path (list N) :=
  (drive (exec_file common_dir) (jl_choices call) (append (jl_config call) (jl_record call)) d).2.
Definition run_appends (calls : list JournalCall) (d : gmap Path (list N)) : gmap Path (list N) := foldl run_append d calls.

Definition no_journal (d : gmap Path (list N)) : Prop :=
  d !! active = None ∧ ∀ i, d !! archive_path active i = None.

Definition event_ids (rs : list JournalRecord) : list EventId := record_event_id <$> List.filter is_event rs.
Lemma event_ids_app a b : event_ids (a ++ b) = event_ids a ++ event_ids b.
Proof. unfold event_ids. by rewrite List.filter_app, fmap_app. Qed.
Lemma event_ids_sublist a b : a `sublist_of` b → event_ids a `sublist_of` event_ids b.
Proof.
  intros Hab. unfold event_ids. apply fmap_sublist. induction Hab as [| x a b Hab IH | x a b Hab IH]; cbn; [done | |].
  - destruct (is_event x); [by apply sublist_skip | done].
  - destruct (is_event x); [by apply sublist_cons | done].
Qed.

(** The calls with the number [n] of archives keep the identifiers distinct. *)
Definition lawful (calls : list JournalCall) (n : N) (l : list JournalRecord) : Prop :=
  l `sublist_of` (jl_record <$> calls)
  ∧ (Forall (λ call, jc_max_archives (jl_config call) = n) calls → NoDup (event_ids l)).

Lemma lawful_sublist calls n l k : l `sublist_of` k → lawful calls n k → lawful calls n l.
Proof.
  intros Hlk [H1 H2]. split; [by etrans |]. intros Hall%H2.
  eapply sublist_NoDup; [exact Hall |]. by apply event_ids_sublist.
Qed.

Lemma lawful_next calls n call l :
  lawful calls n l →
  (jc_max_archives (jl_config call) = n → is_event (jl_record call) = true →
    existsb (same_event (jl_record call)) l = false) →
  lawful (calls ++ [call]) n (l ++ [jl_record call]).
Proof.
  intros [H1 H2] Hnew. split; [rewrite fmap_app; by apply sublist_app |].
  intros [Hall Hcall]%Forall_app. inversion_clear Hcall as [| ? ? Hn _]. rewrite event_ids_app. apply NoDup_app.
  split_and!; [by apply H2 | | unfold event_ids; cbn; destruct (is_event _); [apply NoDup_singleton | constructor]].
  intros id Hid Hid'. unfold event_ids in Hid'. cbn in Hid'. destruct (is_event (jl_record call)) eqn:He; [| set_solver].
  apply list_elem_of_singleton in Hid' as ->. apply list_elem_of_fmap in Hid as (x & Hx & [Hin Hxe]%elem_of_list_filter_b).
  specialize (Hnew Hn eq_refl). apply existsb_false_elem_of with (x := x) in Hnew; [| done].
  unfold same_event in Hnew. rewrite Hxe, <- Hx, String.eqb_refl in Hnew. done.
Qed.

Lemma lawful_start n d : no_journal d → kept common_dir (lawful [] n) n d.
Proof.
  intros [Ha Hi]. exists (mkContents (λ _, []) [] None). split.
  - split; cbn; [intros i |]; unfold file_holds; (split_and!; [constructor | done | by right]).
  - unfold everything, complete. cbn. rewrite !app_nil_r.
    assert (concat ((λ _ : N, []) <$> descending n) = ([] : list JournalRecord)) as ->
      by by induction (descending n).
    split; [done | intros _; constructor].
Qed.

Lemma append_lawful calls n call d :
  kept common_dir (lawful calls n) n d → kept common_dir (lawful (calls ++ [call]) n) n (run_append d call).
Proof.
  intros (c & Hc & HP). unfold run_append.
  assert (∀ l, lawful calls n l → lawful (calls ++ [call]) n l) as Hweak.
  { intros l [H1 H2]. split; [rewrite fmap_app; by apply sublist_inserts_r |]. by intros [Hall _]%Forall_app; apply H2. }
  apply (drive_holds (exec_files common_dir true) (kept common_dir (lawful (calls ++ [call]) n) n)
    (append (jl_config call) (jl_record call)) (λ _ _, True)).
  - exists c. by split; [| apply Hweak].
  - eapply (holds_append common_dir true _ n (lawful_sublist _ n) (lawful calls n)); try done.
    + apply lawful_sublist.
    + intros l Hl Hnew. by apply lawful_next.
Qed.

Lemma appends_lawful calls n d :
  no_journal d → kept common_dir (lawful calls n) n (run_appends calls d).
Proof.
  intros Hd. induction calls as [| call calls IH] using rev_ind; [by apply lawful_start |].
  unfold run_appends. rewrite foldl_snoc. by apply append_lawful.
Qed.

(** C29. The journal keeps the order. Whatever appends ran, killed or failing
    at any operation and cut off in any write, a reader that returns sees
    records that were appended, in the order of the calls, with their losses
    at rotations and failures only; and when every call retains as many
    archives as the reader does, no event twice (without that an event can be
    read twice: [changed_retention_repeats_an_event]). *)
Theorem journal_keeps_the_order calls config d choices records d' :
  no_journal d →
  drive (exec_file common_dir) choices (records_for_flush config) (run_appends calls d) = (Some (Ok records), d') →
  records `sublist_of` (jl_record <$> calls)
  ∧ (Forall (λ call, jc_max_archives (jl_config call) = jc_max_archives config) calls → NoDup (event_ids records)).
Proof.
  intros Hd Hrun. destruct (appends_lawful calls (jc_max_archives config) d Hd) as (c & Hc & HP).
  destruct (drive_holds (exec_files common_dir true) (kept common_dir (lawful calls (jc_max_archives config)) (jc_max_archives config))
    (records_for_flush config) (λ r _, match r with Ok l => lawful calls (jc_max_archives config) l | Err _ => True end)
    choices (run_appends calls d)) as [_ Hq].
  - by exists c.
  - eapply (holds_flush common_dir true); [exact Hc | exact HP | done |].
    intros _ _. eapply lawful_sublist; [apply readable_everything | exact HP].
  - change (exec_files common_dir true) with (exec_file common_dir) in Hq. rewrite Hrun in Hq. exact (Hq _ eq_refl).
Qed.

(** C30. An acknowledged record is read back. After an append that returned
    success, whatever failed or was killed before it, a reader on working
    files returns records that end with the record, or that hold an event of
    the same identifier. *)
Theorem acknowledged_record_is_read_back calls config record d choices d1 :
  no_journal d →
  drive (exec_file common_dir) choices (append config record) (run_appends calls d) = (Some (Ok ()), d1) →
  ∃ records, (run (exec_file common_dir) works (records_for_flush config) d1).1 = Ok records
  ∧ (last records = Some record ∨ ∃ existing, existing ∈ records ∧ same_event record existing = true).
Proof.
  intros Hd Hrun. set (n := jc_max_archives config).
  destruct (appends_lawful calls n d Hd) as (c & Hc & HP).
  set (P := λ _ : list JournalRecord, True).
  destruct (drive_holds (exec_files common_dir true) (kept common_dir P n) (append config record)
    (λ r d, match r with Ok _ => acknowledged common_dir P n record d ∨ found common_dir config record d | Err _ => True end)
    choices (run_appends calls d)) as [_ Hq].
  { by exists c. }
  { eapply (holds_append common_dir true P n ltac:(done) P); try done. }
  change (exec_files common_dir true) with (exec_file common_dir) in Hq. rewrite Hrun in Hq. specialize (Hq _ eq_refl). cbn in Hq.
  assert (∃ c, shape common_dir d1 c ∧ ct_pending c = None ∧ (last (complete n c) = Some record
    ∨ ∃ existing, existing ∈ complete n c ∧ same_event record existing = true)) as (c1 & Hc1 & Hp1 & Hor).
  { destruct Hq as [(c1 & Hc1 & Hp1 & _ & Hlast) | (c1 & existing & Hc1 & Hp1 & Hin & Hsame)]; exists c1; split_and!; try done.
    - left. unfold complete. by rewrite last_app, Hlast.
    - right. by exists existing. }
  assert (holds (exec_files common_dir false) (kept common_dir P n) (records_for_flush config)
    (λ r _, r = Ok (complete n c1)) d1) as Hflush.
  { eapply (holds_flush common_dir false P n _ _ _ c1); [done | done | |].
    - rewrite Hp1. by intros [? | ?].
    - intros _ _. unfold readable. rewrite Hp1. cbn. by rewrite app_nil_r. }
  apply (holds_run _ _ _ _ works) in Hflush. exists (complete n c1). split; [| exact Hor].
  by rewrite <- Hflush, (run_ext _ (exec_files common_dir false)).
Qed.
End calls.

(** * Runs *)

Definition sample_event (id : string) (timestamp : string) : JournalRecord :=
  Event JOURNAL_VERSION (mkEvent 1 id "op" SyncFailed (mkRepositoryId "o" "r") None [1%N] None None ∅ timestamp).
(** A letter of two bytes. *)
Definition sample_letter : string := bytes_str [195; 169]%N.
Definition sample_first : JournalRecord := sample_event "a" "1000".
Definition sample_second : JournalRecord := sample_event "b" "2000".
Definition sample_third : JournalRecord := sample_event sample_letter "3000".

Definition sample_texts : list (JournalRecord * string) :=
  [(sample_first, "{a}"); (sample_second, "{b}"); (sample_third, fmt ["{"; sample_letter; "}"])].
#[local] Instance sample_codec : JournalCodec := {
  encode_record r := snd <$> List.find (λ e, bool_decide (fst e = r)) sample_texts;
  decode_record t := fst <$> List.find (λ e, String.eqb (snd e) t) sample_texts }.

Lemma sample_encoded r text : encode_record r = Some text → (r, text) ∈ sample_texts.
Proof.
  cbn [encode_record sample_codec]. intros ([r' t] & [Hf Heq]%List.find_some & [= <-])%fmap_Some.
  cbn in Heq. apply bool_decide_eq_true in Heq as ->. by apply list_elem_of_In.
Qed.

#[local] Instance sample_laws : JournalLaws.
Proof.
  split.
  - intros r text Hin%sample_encoded. unfold sample_texts in Hin. by repeat (apply elem_of_cons in Hin as [[= -> ->] | Hin]); [.. | apply elem_of_nil in Hin].
  - intros r p q Hin%sample_encoded Hq.
    destruct (decode_record p) as [r' |] eqn:Hp; [| done]. exfalso.
    cbn [decode_record sample_codec] in Hp. apply fmap_Some in Hp as ([r2 t] & [Hf Heq]%List.find_some & ->).
    cbn in Heq. apply String.eqb_eq in Heq as ->. apply list_elem_of_In in Hf. unfold sample_texts in *.
    repeat (apply elem_of_cons in Hf as [[= -> ->] | Hf]); [.. | by apply elem_of_nil in Hf];
      repeat (apply elem_of_cons in Hin as [[= -> Ht] | Hin]); try (by apply elem_of_nil in Hin); by destruct q.
  - intros r text Hin%sample_encoded. unfold sample_texts in Hin.
    repeat (apply elem_of_cons in Hin as [[= -> ->] | Hin]); [by exists "a" | by exists "b" | by exists sample_letter | by apply elem_of_nil in Hin].
  - intros r text Hin%sample_encoded. unfold sample_texts in Hin.
    repeat (apply elem_of_cons in Hin as [[= -> ->] | Hin]); [.. | by apply elem_of_nil in Hin];
      (split; [done |]; intros Hten; by repeat (apply elem_of_cons in Hten as [? | Hten]; [done |]); apply elem_of_nil in Hten).
Qed.

Definition sample_dir : Path := mkPath true ["repo"; ".git"].
Definition sample_config : JournalConfig := mkJournalConfig 6 2.
(** The last choice of an append is the answer of its write. *)
Definition works_throughout : list FileChoice := repeat works 40.
Definition torn_at (operation bytes : nat) : list FileChoice :=
  repeat works operation ++ [mkFileChoice (Some Refused) bytes].

(** Two appends, the second of which rotates and is cut off after two bytes;
    then both again. *)
Definition sample_calls : list JournalCall :=
  [mkJournalCall sample_config sample_first works_throughout;
   mkJournalCall sample_config sample_second (torn_at 13 2);
   mkJournalCall sample_config sample_second works_throughout;
   mkJournalCall sample_config sample_first works_throughout].
Definition read_back (d : gmap Path (list N)) : option (result (list JournalRecord) JournalError) :=
  (drive (exec_file sample_dir) works_throughout (records_for_flush sample_config) d).1.

Example sample_reads :
  read_back (run_appends sample_dir (take 2 sample_calls) ∅) = Some (Ok [sample_first])
  ∧ read_back (run_appends sample_dir sample_calls ∅) = Some (Ok [sample_first; sample_second]).
Proof. by vm_compute. Qed.

Lemma returned {A B} (x : A * B) a : fst x = a → x = (a, snd x).
Proof. by destruct x as [? ?]; intros <-. Qed.

Lemma journal_keeps_the_order_witness :
  [sample_first; sample_second] `sublist_of` (jl_record <$> sample_calls) ∧ NoDup (event_ids [sample_first; sample_second]).
Proof.
  destruct (journal_keeps_the_order sample_dir sample_calls sample_config ∅ works_throughout [sample_first; sample_second]
    (drive (exec_file sample_dir) works_throughout (records_for_flush sample_config) (run_appends sample_dir sample_calls ∅)).2)
    as [Hs Hn].
  - by split.
  - apply returned. by vm_compute.
  - split; [exact Hs |]. apply Hn. by repeat constructor.
Defined.

Lemma acknowledged_record_is_read_back_witness :
  let d := run_appends sample_dir (take 2 sample_calls) ∅ in
  let d1 := (drive (exec_file sample_dir) works_throughout (append sample_config sample_second) d).2 in
  ∃ records, (run (exec_file sample_dir) works (records_for_flush sample_config) d1).1 = Ok records
  ∧ (last records = Some sample_second
     ∨ ∃ existing, existing ∈ records ∧ same_event sample_second existing = true).
Proof.
  intros d d1. apply (acknowledged_record_is_read_back sample_dir (take 2 sample_calls) sample_config sample_second ∅ works_throughout).
  - by split.
  - apply returned. by vm_compute.
Defined.

(** A call that retains fewer archives does not look for the event in the older
    one, which a later reader still shows: the event is there twice. *)
Example changed_retention_repeats_an_event :
  let d := run_appends sample_dir
    [mkJournalCall sample_config sample_first works_throughout;
     mkJournalCall sample_config sample_second works_throughout;
     mkJournalCall sample_config sample_third works_throughout;
     mkJournalCall (mkJournalConfig 6 1) sample_first works_throughout] ∅ in
  read_back d = Some (Ok [sample_first; sample_third; sample_first]).
Proof. by vm_compute. Qed.

(** A write that is cut off inside a character makes every reader fail until
    the next append truncates the file. *)
Example torn_character_stops_the_readers :
  let d := run_appends sample_dir
    [mkJournalCall sample_config sample_first works_throughout;
     mkJournalCall sample_config sample_third (torn_at 13 2)] ∅ in
  read_back d = Some (Err (mkJournalError "journal_read_failed"))
  ∧ read_back (run_append sample_dir d (mkJournalCall sample_config sample_second works_throughout))
    = Some (Ok [sample_first; sample_second]).
Proof. by vm_compute. Qed.

(** A record that lacks only its line feed is shown to readers, and removed by
    the next append. *)
Example shown_record_is_removed :
  let d := run_appends sample_dir
    [mkJournalCall sample_config sample_first works_throughout;
     mkJournalCall sample_config sample_third (torn_at 13 4)] ∅ in
  read_back d = Some (Ok [sample_first; sample_third])
  ∧ read_back (run_append sample_dir d (mkJournalCall sample_config sample_second works_throughout))
    = Some (Ok [sample_first; sample_second]).
Proof. by vm_compute. Qed.

(** Time bounds are compared as texts: an earlier bound hides later events. *)
Example time_bounds_are_texts :
  let since bound := mkLogInput 10 None None (Some bound) None in
  selected (since "999") None sample_second = false ∧ selected (since "1999") None sample_second = true.
Proof. by vm_compute. Qed.
