(* ===== verification/FailureOutcome.v ===== *)
(** Typed outcomes of queue failures: src/src/failure_outcome.rs. The JSON
    details of a failure are read for identifiers only. *)

From Stdlib Require Import Ascii String.
From S2P Require Import Prelude Text Model Json Events Files Programs Store Journal.

#[local] Open Scope string_scope.
#[local] Open Scope list_scope.
#[local] Open Scope nat_scope.

Definition FAILURE_OUTCOME_SCHEMA_VERSION : N := 1.
Definition SUMMARY_SCAN_LIMIT : nat := 2000.
Definition SUMMARY_EXAMPLES : nat := 10.
Definition MAX_IDENTIFIER_BYTES : nat := 96.
#[global] Arguments SUMMARY_SCAN_LIMIT : simpl never.
#[global] Arguments MAX_IDENTIFIER_BYTES : simpl never.

Inductive FailureSurface :=
  SurfaceSync | SurfaceJoin | SurfaceAdmission | SurfaceReadiness | SurfacePublication | SurfaceEviction | SurfaceCi
| SurfaceUnknown.
#[export] Instance FailureSurface_eq_dec : EqDecision FailureSurface.
Proof. solve_decision. Defined.

Definition parse_surface (value : string) : FailureSurface :=
  if String.eqb value "sync" then SurfaceSync
  else if mem value ["join"; "new"; "renew"; "rejoin"; "membership"] then SurfaceJoin
  else if mem value ["admission"; "admit"] then SurfaceAdmission
  else if mem value ["readiness"; "ci_admission_gate"] then SurfaceReadiness
  else if mem value ["publication"; "reintegration"; "completion"] then SurfacePublication
  else if mem value ["eviction"; "evict"] then SurfaceEviction
  else if String.eqb value "ci" then SurfaceCi
  else SurfaceUnknown.

(** The name [serde] gives a surface. *)
Definition surface_name (s : FailureSurface) : string :=
  match s with
  | SurfaceSync => "sync" | SurfaceJoin => "join" | SurfaceAdmission => "admission" | SurfaceReadiness => "readiness"
  | SurfacePublication => "publication" | SurfaceEviction => "eviction" | SurfaceCi => "ci" | SurfaceUnknown => "unknown"
  end.

Inductive FailureClass := ProviderFailure | BudgetRefusal | FailureTimeout | ConflictOrTestFailure | ProcessRefusal | UnknownFailure.
#[export] Instance FailureClass_eq_dec : EqDecision FailureClass.
Proof. solve_decision. Defined.
Definition class_code (c : FailureClass) : string :=
  match c with
  | ProviderFailure => "provider_error" | BudgetRefusal => "budget_refusal" | FailureTimeout => "timeout"
  | ConflictOrTestFailure => "conflict_or_test_failure" | ProcessRefusal => "process_refusal" | UnknownFailure => "unknown"
  end.

Record FailureOutcome := mkFailureOutcome {
  fo_schema_version : N;
  fo_surface : FailureSurface;
  fo_class : FailureClass;
  fo_code : string;
  fo_refusing_step : option string;
  fo_retryable : bool;
  fo_process_only : option bool;
  fo_bug : option string;
  fo_needs_bug : bool }.

(** ** Identifiers *)

Definition identifier_char (c : ascii) : bool :=
  between 97 122 c || is_ascii_digit c || mem c ["_"; "."; "-"]%char.

(** [take_while] and [take] of the leading characters; a character of several
    bytes starts with a byte that is not allowed. *)
Fixpoint leading (limit : nat) (s : string) : string :=
  match limit, s with
  | S limit, String c s => if identifier_char c then String c (leading limit s) else EmptyString
  | _, _ => EmptyString
  end.
Definition identifier (text : string) : option string :=
  let value := leading MAX_IDENTIFIER_BYTES text in
  if str_is_empty value then None else Some value.
Definition after (text marker : string) : option string :=
  match split_once marker text with Some (_, rest) => identifier rest | None => None end.

(** ** JSON details *)

(** Deeper than six levels nothing is read: [levels] is what is left of seven. *)
Fixpoint find_key (levels : nat) (key : string) (v : Value) : option Value :=
  match levels with
  | O => None
  | S levels =>
      match v with
      | VObject fields =>
          match map_get key fields with
          | Some found => Some found
          | None => find_map (λ f, find_key levels key (snd f)) fields
          end
      | VArray items => find_map (find_key levels key) (take 64 items)
      | _ => None
      end
  end.

Fixpoint collect_strings (levels : nat) (v : Value) (into : string) : string :=
  match levels with
  | O => into
  | S levels =>
      if N.ltb (64 * 1024) (N.of_nat (String.length into)) then into
      else match v with
      | VString text => fmt [into; String line_feed EmptyString; text]
      | VObject fields => foldl (λ into f, collect_strings levels (snd f) into) into fields
      | VArray items => foldl (λ into v, collect_strings levels v into) into (take 64 items)
      | _ => into
      end
  end.
Definition LEVELS : nat := 7.

(** ** Classification *)

Definition classify_class (code lower : string) (app_category readiness_predicate : option string) : FailureClass :=
  match app_category with
  | Some category =>
      if mem category ["timeout"; "deadline_exhausted"] then FailureTimeout
      else if String.eqb category "request_budget" then BudgetRefusal
      else ProviderFailure
  | None =>
      let has := existsb (λ needle, contains_str needle code) in
      if has ["budget"; "rate_limit"] || contains_str "rate limit" lower then BudgetRefusal
      else if has ["timeout"; "deadline"; "timed_out"] then FailureTimeout
      else if has ["receipt"; "invariant"; "provenance"; "dead_letter"; "rolled_back"; "materialization";
                   "published_unjoined"; "backend_unhealthy"; "validation_failed"; "handoff"]
              || is_some_and readiness_predicate (λ p, mem p ["deferred_label_absent"; "member_label"])
      then ProcessRefusal
      else if has ["conflict"; "ci_failed"; "terminal_red"; "required_check"; "incompatible"; "rebase_required";
                   "diverged"; "source_rewrite_required"; "test_failed"]
      then ConflictOrTestFailure
      else if has ["github"; "provider"; "discovery"; "graphql"; "http"]
              || contains_str "something went wrong while executing your query" lower
      then ProviderFailure
      else UnknownFailure
  end.

Definition known_bug (code : string) (step : option string) (class : FailureClass) : option string :=
  let step_in names := is_some_and step (λ s, mem s names) in
  if step_in ["force_intent"] then Some "caravan:bd-78d4aa cacophony:bd-5666aa"
  else if mem code ["receipt_validation_failed"; "cara_receipt_invalid"] then Some "cacophony:bd-282421"
  else if mem code ["membership_envelope_rolled_back"; "cara_materialization_failed"] then Some "caravan:bd-420191"
  else if step_in ["deferred_label_absent"; "member_label"] then Some "caravan:bd-06e059"
  else if starts_with "github_stack_recovery_" code then Some "caravan:bd-4d4621"
  else if contains_str "native_stack_rebase_required" code || contains_str "source_rewrite_required" code
  then Some "caravan:bd-7ff76d"
  else if negb (bool_decide (class = ProcessRefusal)) && step_in ["credential_broker"; "repository_probe"]
  then Some "caravan:bd-096b1e"
  else None.

Definition get_str (key : string) (v : Value) : option string := v ← get key v; as_str v.
(** [Option::or_else]. *)
Definition or_else {A} (a b : option A) : option A := match a with Some x => Some x | None => b end.

Definition default_retryable (class : FailureClass) : bool :=
  match class with BudgetRefusal | FailureTimeout | ProviderFailure => true | _ => false end.

Definition classify (surface : FailureSurface) (code message : string) (details : option Value) : FailureOutcome :=
  let code := default "unknown" (identifier code) in
  let text := match details with Some details => collect_strings LEVELS details message | None => message end in
  let lower := to_ascii_lowercase text in
  let app := details ← details; find_key LEVELS "github_app_refusal" details in
  let app_category := app ← app; get_str "category" app in
  let readiness_predicate := after lower "predicate=" in
  let receipt_field := after lower "receipt invariant mismatch: " in
  let class := classify_class code lower app_category readiness_predicate in
  let refusing_step :=
    or_else (or_else (or_else receipt_field readiness_predicate)
                     (app ← app; stage ← get_str "stage" app; identifier stage))
            (details ← details; stage ← get_str "stage" details; identifier stage) in
  let retryable :=
    default (default_retryable class)
      (opt_filter (λ _, negb (bool_decide (class = ProcessRefusal)))
         (details ← details; found ← find_key LEVELS "retryable" details; as_bool found)) in
  let bug := known_bug code refusing_step class in
  mkFailureOutcome FAILURE_OUTCOME_SCHEMA_VERSION surface class code refusing_step retryable None bug
    (bool_decide (class = ProcessRefusal) && is_none_b bug).

Definition set_process_only (verdict : option bool) (o : FailureOutcome) : FailureOutcome :=
  mkFailureOutcome (fo_schema_version o) (fo_surface o) (fo_class o) (fo_code o) (fo_refusing_step o) (fo_retryable o)
    verdict (fo_bug o) (fo_needs_bug o).

(** [succeeded] is the verdict of the membership proof. *)
Definition with_provider_truth (o : FailureOutcome) (succeeded : bool) : FailureOutcome :=
  if bool_decide (fo_class o = ProcessRefusal) then set_process_only (Some succeeded) o else o.

Definition classify_envelope (surface : FailureSurface) (envelope : Value) : FailureOutcome :=
  let source := default envelope (opt_filter is_object (get "error" envelope)) in
  let code := default "unknown" (get_str "code" source) in
  let message := default "" (get_str "message" source) in
  let surface :=
    if bool_decide (surface = SurfaceUnknown)
    then match get_str "surface" envelope with Some name => parse_surface name | None => SurfaceUnknown end
    else surface in
  classify surface code message (Some source).

(** ** The summary of a journal *)

Record FailureExample := mkFailureExample {
  fe_timestamp : string;
  fe_caravan_id : option PrNumber;
  fe_prs : list PrNumber;
  fe_outcome : FailureOutcome }.

Record FailureSummary := mkFailureSummary {
  fs_schema_version : N;
  fs_scanned_records : nat;
  fs_failures : nat;
  fs_by_class : gmap string nat;
  fs_by_signature : gmap string nat;
  fs_process_only : nat;
  fs_needs_bug : nat;
  fs_recent : list FailureExample }.

Definition surface_for (kind : EventKind) : option FailureSurface :=
  match kind with
  | SyncFailed => Some SurfaceSync
  | JoinFailed => Some SurfaceJoin
  | AdmissionSkipped => Some SurfaceAdmission
  | EvictionFailed => Some SurfaceEviction
  | CiFailedEvent => Some SurfaceCi
  | _ => None
  end.

Definition metadata_str (key : string) (metadata : gmap string Value) : option string := v ← metadata !! key; as_str v.

Section summary.
(** Provider truth for a pull request, when it is known. *)
Context (enrolled_or_merged : PrNumber → option bool).

(** The outcome of an event, when it is a failure. *)
Definition failure_of (event : CaravanEvent) (surface : FailureSurface) : FailureOutcome :=
  let code :=
    default (if bool_decide (cv_kind event = CiFailedEvent) then "ci_failed" else "unknown")
      (or_else (metadata_str "error_code" (cv_metadata event)) (metadata_str "code" (cv_metadata event))) in
  let details := VObject (bt_entries (cv_metadata event)) in
  let outcome := classify surface code (default "" (cv_reason event)) (Some details) in
  if bool_decide (fo_class outcome = ProcessRefusal) then
    let verdicts := omap enrolled_or_merged (cv_prs event) in
    if bool_decide (verdicts = []) then outcome
    else set_process_only (Some (existsb (λ verdict, verdict) verdicts)) outcome
  else outcome.

(** [*entry(key).or_default() += 1]. *)
Definition count_up (key : string) (m : gmap string nat) : gmap string nat := <[key := S (default 0 (m !! key))]> m.

Definition signature (o : FailureOutcome) : string :=
  match fo_refusing_step o with
  | Some step => fmt [surface_name (fo_surface o); "/"; class_code (fo_class o); "/"; fo_code o; "/"; step]
  | None => fmt [surface_name (fo_surface o); "/"; class_code (fo_class o); "/"; fo_code o]
  end.

Definition summarize_record (s : FailureSummary) (record : JournalRecord) : FailureSummary :=
  match record with
  | Delivery _ _ _ _ _ _ _ _ => s
  | Event _ event =>
      match surface_for (cv_kind event) with
      | None => s
      | Some surface =>
          let outcome := failure_of event surface in
          mkFailureSummary (fs_schema_version s) (fs_scanned_records s) (S (fs_failures s))
            (count_up (class_code (fo_class outcome)) (fs_by_class s))
            (count_up (signature outcome) (fs_by_signature s))
            (if bool_decide (fo_process_only outcome = Some true) then S (fs_process_only s) else fs_process_only s)
            (if fo_needs_bug outcome then S (fs_needs_bug s) else fs_needs_bug s)
            (if length (fs_recent s) <? SUMMARY_EXAMPLES
             then fs_recent s ++ [mkFailureExample (cv_timestamp event) (cv_caravan_id event) (cv_prs event) outcome]
             else fs_recent s)
      end
  end.

Definition summarize (records : list JournalRecord) : FailureSummary :=
  foldl summarize_record
    (mkFailureSummary FAILURE_OUTCOME_SCHEMA_VERSION (length records) 0 ∅ ∅ 0 0 []) (rev records).
End summary.

(** Provider truth from the facts a status has read. *)
Definition status_truth (pull_requests : gmap PrNumber PullRequestSnapshot) (fleet : CaravanFleet) (pr : PrNumber)
    : option bool :=
  snapshot ← pull_requests !! pr;
  Some (match pr_state snapshot with
        | Merged => true
        | Closed => false
        | Open => has_label snapshot "caravan" && is_some_b (containing fleet pr)
        end).
Definition journal_truth (status : option (gmap PrNumber PullRequestSnapshot * CaravanFleet)) (pr : PrNumber) : option bool :=
  '(pull_requests, fleet) ← status; status_truth pull_requests fleet pr.

Section journal.
Context `{!JournalCodec}.
#[local] Open Scope prog_scope.

Definition scan : LogInput := mkLogInput SUMMARY_SCAN_LIMIT None None None None.

Definition journal_summary (config : JournalConfig) (status : option (gmap PrNumber PullRequestSnapshot * CaravanFleet))
    : Prog FileOp (option FailureSummary) :=
  let! output := snapshot config scan in
  Ret (match output with Ok output => Some (summarize (journal_truth status) (lo_records output)) | Err _ => None end).

Definition failures (config : JournalConfig) : Prog FileOp (result FailureSummary JournalError) :=
  let? output := snapshot config scan in
  Ret (Ok (summarize (λ _, None) (lo_records output))).
End journal.

(** ** A file with one error envelope *)

Record ClassifyInput := mkClassifyInput {
  ci_error_file : Path;
  ci_surface : option string;
  ci_pr : option PrNumber;
  ci_expected_head : option string }.

(** The proof of membership reads the provider; of its answer the verdict counts. *)
Inductive ClassifyOp : Type → Type :=
| ClassifyFile {R : Type} (op : FileOp R) : ClassifyOp R
| ClassifyProve (pr : PrNumber) (expected_head : option string) : ClassifyOp (result bool string).

Definition MAX_ENVELOPE_BYTES : nat := 4 * 1024 * 1024.
#[global] Arguments MAX_ENVELOPE_BYTES : simpl never.

Section classify_file.
(** [serde_json::from_slice]. *)
Context (parse_json : list N → option Value).
#[local] Open Scope prog_scope.

Definition classify_file (input : ClassifyInput) : Prog ClassifyOp (result FailureOutcome string) :=
  let? bytes := map_err (perform (ClassifyFile (FsRead (ci_error_file input)))) (λ _, "failure_classify_input_unreadable") in
  if MAX_ENVELOPE_BYTES <? length bytes then Ret (Err "failure_classify_input_too_large")
  else match parse_json bytes with
  | None => Ret (Err "failure_classify_input_invalid")
  | Some envelope =>
      let surface := match ci_surface input with Some name => parse_surface name | None => SurfaceUnknown end in
      let outcome := classify_envelope surface envelope in
      match ci_pr input with
      | None => Ret (Ok outcome)
      | Some pr =>
          if negb (bool_decide (fo_class outcome = ProcessRefusal)) then Ret (Ok outcome)
          else
            let? succeeded := perform (ClassifyProve pr (ci_expected_head input)) in
            Ret (Ok (with_provider_truth outcome succeeded))
      end
  end.
End classify_file.
