(* ===== verification/FailureProofs.v ===== *)
(** What a failure outcome can say, and that the summary of a journal counts
    its failures. *)

From Stdlib Require Import Ascii String.
From S2P Require Import Prelude Text TextProofs Model Json Events Files Programs Store Journal FailureOutcome.

#[local] Open Scope string_scope.
#[local] Open Scope list_scope.
#[local] Open Scope nat_scope.

(** ** Identifiers *)

Definition identifier_text (s : string) : Prop :=
  s ≠ "" ∧ String.length s ≤ MAX_IDENTIFIER_BYTES ∧ all_bytes identifier_char s = true.

Lemma leading_spec limit s :
  String.length (leading limit s) ≤ limit ∧ all_bytes identifier_char (leading limit s) = true.
Proof.
  revert s. induction limit as [| limit IH]; intros s; cbn; [by destruct s |].
  destruct s as [| c s]; cbn; [by split; [lia |] |]. destruct (identifier_char c) eqn:Hc; cbn; [| by split; [lia |]].
  destruct (IH s) as [H1 H2]. rewrite Hc. split; [lia | done].
Qed.

Lemma identifier_spec text value : identifier text = Some value → identifier_text value.
Proof.
  unfold identifier. destruct (str_is_empty _) eqn:He; [done |]. intros Hv. apply (inj Some) in Hv as <-.
  destruct (leading_spec MAX_IDENTIFIER_BYTES text) as [H1 H2]. split_and!; [| done | done].
  intros Hn. by rewrite Hn in He.
Qed.

Lemma after_spec text marker value : after text marker = Some value → identifier_text value.
Proof. unfold after. destruct (split_once _ _) as [[? rest] |]; [apply identifier_spec | done]. Qed.

Definition known_bugs : list string :=
  ["caravan:bd-78d4aa cacophony:bd-5666aa"; "cacophony:bd-282421"; "caravan:bd-420191"; "caravan:bd-06e059";
   "caravan:bd-4d4621"; "caravan:bd-7ff76d"; "caravan:bd-096b1e"].
Lemma known_bug_spec code step class bug : known_bug code step class = Some bug → bug ∈ known_bugs.
Proof. unfold known_bug, known_bugs. intros Hb. repeat case_match; simplify_eq; set_solver. Qed.

(** ** Outcomes *)

(** What an outcome says is a fixed code or an identifier, and only a process
    refusal is one to file or to refute by provider truth. *)
Record outcome_ok (o : FailureOutcome) : Prop := {
  ok_code : identifier_text (fo_code o);
  ok_step : ∀ step, fo_refusing_step o = Some step → identifier_text step;
  ok_bug : ∀ bug, fo_bug o = Some bug → bug ∈ known_bugs;
  ok_needs : fo_needs_bug o = true ↔ fo_class o = ProcessRefusal ∧ fo_bug o = None;
  ok_process : is_Some (fo_process_only o) → fo_class o = ProcessRefusal;
  ok_retry : fo_retryable o = true → fo_class o ≠ ProcessRefusal }.

Lemma or_else_some {A} (a b : option A) x : or_else a b = Some x → a = Some x ∨ b = Some x.
Proof. destruct a; cbn; auto. Qed.

Lemma retryable_class class (o : option bool) :
  default (default_retryable class) (opt_filter (λ _, negb (bool_decide (class = ProcessRefusal))) o) = true →
  class ≠ ProcessRefusal.
Proof. intros Hr ->. by destruct o. Qed.

Lemma classify_ok surface code message details : outcome_ok (classify surface code message details).
Proof.
  unfold classify. cbv zeta. split; cbn.
  - destruct (identifier code) as [value |] eqn:Hc; [by apply identifier_spec in Hc | by split_and!; [| cbn; unfold MAX_IDENTIFIER_BYTES; lia |]].
  - intros step [[[Hs | Hs]%or_else_some | Hs]%or_else_some | Hs]%or_else_some.
    + by apply after_spec in Hs.
    + by apply after_spec in Hs.
    + apply bind_Some in Hs as (app & _ & Hs). apply bind_Some in Hs as (stage & _ & Hs). by apply identifier_spec in Hs.
    + apply bind_Some in Hs as (d & _ & Hs). apply bind_Some in Hs as (stage & _ & Hs). by apply identifier_spec in Hs.
  - intros bug. apply known_bug_spec.
  - set (class := classify_class _ _ _ _). set (bug := known_bug _ _ _). rewrite andb_true_iff, bool_decide_eq_true.
    destruct bug; cbn; naive_solver.
  - by intros [? ?].
  - apply retryable_class.
Qed.

Lemma set_process_only_ok verdict o :
  fo_class o = ProcessRefusal → outcome_ok o → outcome_ok (set_process_only verdict o).
Proof. intros Hc [H1 H2 H3 H4 H5 H6]. by split. Qed.

Lemma with_provider_truth_ok o succeeded : outcome_ok o → outcome_ok (with_provider_truth o succeeded).
Proof. unfold with_provider_truth. intros Ho. case_bool_decide; [by apply set_process_only_ok | done]. Qed.

Lemma failure_of_ok truth event surface : outcome_ok (failure_of truth event surface).
Proof.
  unfold failure_of. cbv zeta. set (o := classify _ _ _ _). assert (outcome_ok o) as Ho by apply classify_ok.
  case_bool_decide; [| done]. case_bool_decide; [done |]. by apply set_process_only_ok.
Qed.

(** ** The summary *)

(** Every journalled failure, the newest first. *)
Definition journalled (truth : PrNumber → option bool) (records : list JournalRecord) : list FailureExample :=
  omap (λ record, match record with
    | Event _ event =>
        surface ← surface_for (cv_kind event);
        Some (mkFailureExample (cv_timestamp event) (cv_caravan_id event) (cv_prs event) (failure_of truth event surface))
    | _ => None
    end) (rev records).

Definition count_of (key : FailureExample → string) (k : string) (es : list FailureExample) : nat :=
  length (List.filter (λ e, String.eqb (key e) k) es).
Definition class_of (e : FailureExample) : string := class_code (fo_class (fe_outcome e)).
Definition signature_of (e : FailureExample) : string := signature (fe_outcome e).

(** A table of counts holds the keys that occur. *)
Definition counts (key : FailureExample → string) (es : list FailureExample) (m : gmap string nat) : Prop :=
  ∀ k, m !! k = if count_of key k es =? 0 then None else Some (count_of key k es).

Lemma counts_snoc key es m e : counts key es m → counts key (es ++ [e]) (count_up (key e) m).
Proof.
  intros Hm k. unfold count_up, count_of in *. rewrite List.filter_app, length_app. cbn.
  destruct (String.eqb_spec (key e) k) as [<- | Hne]; cbn.
  - rewrite lookup_insert_eq, Hm. unfold count_of. destruct (length _) as [| n]; cbn; [done |].
    by rewrite Nat.add_1_r.
  - rewrite lookup_insert_ne by done. rewrite Hm, Nat.add_0_r. done.
Qed.

Record summary_of (scanned : nat) (es : list FailureExample) (s : FailureSummary) : Prop := {
  so_version : fs_schema_version s = FAILURE_OUTCOME_SCHEMA_VERSION;
  so_scanned : fs_scanned_records s = scanned;
  so_failures : fs_failures s = length es;
  so_class : counts class_of es (fs_by_class s);
  so_signature : counts signature_of es (fs_by_signature s);
  so_process : fs_process_only s = length (List.filter (λ e, bool_decide (fo_process_only (fe_outcome e) = Some true)) es);
  so_needs : fs_needs_bug s = length (List.filter (λ e, fo_needs_bug (fe_outcome e)) es);
  so_recent : fs_recent s = take SUMMARY_EXAMPLES es }.

Lemma length_filter_snoc {A} (f : A → bool) l x :
  length (List.filter f (l ++ [x])) = if f x then S (length (List.filter f l)) else length (List.filter f l).
Proof. rewrite List.filter_app, length_app. cbn. destruct (f x); cbn; lia. Qed.

Lemma take_snoc {A} n (l : list A) x :
  take n (l ++ [x]) = if length (take n l) <? n then take n l ++ [x] else take n l.
Proof.
  rewrite length_take. destruct (Nat.ltb_spec (n `min` length l) n) as [Hlt | Hge].
  - rewrite !take_ge; [done | lia | rewrite length_app; cbn; lia].
  - by rewrite take_app_le by lia.
Qed.

Lemma summary_of_records truth records :
  summary_of (length records) (journalled truth records) (summarize truth records).
Proof.
  unfold summarize, journalled. set (f := λ record, _). generalize (length records) as scanned. intros scanned.
  induction (rev records) as [| record l IH] using rev_ind; [by split |].
  rewrite foldl_snoc, omap_app. destruct IH as [H1 H2 H3 H4 H5 H6 H7 H8].
  destruct record as [version event |]; cbn [summarize_record f omap list_omap]; [| by rewrite app_nil_r].
  destruct (surface_for (cv_kind event)) as [surface |]; cbn [mbind option_bind]; [| by rewrite app_nil_r].
  set (o := failure_of truth event surface). set (e := mkFailureExample _ _ _ o).
  split; cbn [fs_schema_version fs_scanned_records fs_failures fs_by_class fs_by_signature fs_process_only fs_needs_bug fs_recent];
    [done | done | by rewrite length_app, H3, Nat.add_1_r | by apply (counts_snoc class_of _ _ e)
    | by apply (counts_snoc signature_of _ _ e) | by rewrite length_filter_snoc, H6
    | by rewrite length_filter_snoc, H7 | by rewrite take_snoc, H8].
Qed.

(** A summary counts exactly the journalled failures: their number, one
    count for every class and every signature that occurs, the process
    refusals that provider truth refutes, the ones to file, and the ten newest
    as examples. *)
Theorem summary_counts_the_failures truth records :
  summary_of (length records) (journalled truth records) (summarize truth records).
Proof. apply summary_of_records. Qed.

(** The outcomes a summary or a caller can get, and the keys of its tables. *)
Definition signature_char (c : ascii) : bool := identifier_char c || Ascii.eqb c "/".

Lemma identifier_all_bytes s : all_bytes identifier_char s = true → all_bytes signature_char s = true.
Proof. apply all_bytes_impl. intros c Hc. unfold signature_char. by rewrite Hc. Qed.

Lemma signature_text o : outcome_ok o → all_bytes signature_char (signature o) = true.
Proof.
  intros [[_ [_ Hcode]] Hstep _ _ _ _]. unfold signature, fmt. cbn [foldr].
  assert (all_bytes signature_char (surface_name (fo_surface o)) = true) as Hs by by destruct (fo_surface o).
  assert (all_bytes signature_char (class_code (fo_class o)) = true) as Hc by by destruct (fo_class o).
  apply identifier_all_bytes in Hcode. destruct (fo_refusing_step o) as [step |]; cbn [foldr].
  - destruct (Hstep step eq_refl) as [_ [_ Hst]]. apply identifier_all_bytes in Hst.
    rewrite !all_bytes_app, Hs, Hc, Hcode, Hst. done.
  - rewrite !all_bytes_app, Hs, Hc, Hcode. done.
Qed.

(** C31. Outcomes are typed. Whatever an envelope, a message or a record of the
    journal contains, an outcome carries one of the fixed codes and at most
    two identifiers of at most 96 bytes from [a-z0-9_.-]; only a process
    refusal can ask for a bug or be refuted, and it is never retryable; and a
    signature of a summary is made of such parts alone. *)
Theorem outcomes_are_typed truth records surface envelope succeeded :
  outcome_ok (with_provider_truth (classify_envelope surface envelope) succeeded)
  ∧ Forall (λ e, outcome_ok (fe_outcome e)) (fs_recent (summarize truth records))
  ∧ (∀ key n, fs_by_signature (summarize truth records) !! key = Some n → all_bytes signature_char key = true)
  ∧ (∀ key n, fs_by_class (summarize truth records) !! key = Some n → ∃ class, key = class_code class).
Proof.
  destruct (summary_of_records truth records) as [_ _ _ Hclass Hsig _ _ Hrecent].
  assert (Forall (λ e, outcome_ok (fe_outcome e)) (journalled truth records)) as Hall.
  { apply Forall_forall. intros e (record & _ & He)%list_elem_of_omap. destruct record as [version event |]; [| done].
    apply bind_Some in He as (s & _ & [= <-]). apply failure_of_ok. }
  split_and!.
  - by apply with_provider_truth_ok, classify_ok.
  - rewrite Hrecent. by apply Forall_take.
  - intros key n Hk. rewrite Hsig in Hk. unfold count_of in Hk.
    destruct (List.filter _ _) as [| e l] eqn:Hf; [done |].
    assert (e ∈ List.filter (λ e, String.eqb (signature_of e) key) (journalled truth records)) as He by (rewrite Hf; left).
    apply elem_of_list_filter_b in He as [He <-%String.eqb_eq]. rewrite Forall_forall in Hall. by apply signature_text, Hall.
  - intros key n Hk. rewrite Hclass in Hk. unfold count_of in Hk.
    destruct (List.filter _ _) as [| e l] eqn:Hf; [done |].
    assert (e ∈ List.filter (λ e, String.eqb (class_of e) key) (journalled truth records)) as He by (rewrite Hf; left).
    apply elem_of_list_filter_b in He as [_ <-%String.eqb_eq]. by eexists.
Qed.

(** ** Examples *)

(** The dead letter of a refused receipt, and a provider failure. *)
Example dead_letter :
  let o := classify_envelope SurfaceUnknown
    (VObject [("code", VString "cara_receipt_invalid"); ("message", VString "Receipt invariant mismatch: force_intent expected absent");
              ("surface", VString "reintegration")]) in
  fo_class o = ProcessRefusal ∧ fo_surface o = SurfacePublication ∧ fo_refusing_step o = Some "force_intent"
  ∧ fo_needs_bug o = false ∧ fo_retryable o = false.
Proof. by vm_compute. Qed.

(** The characters are checked, not the identifier: a token of lower-case
    letters and digits at the marker or in the code is copied. *)
Example token_is_copied :
  let o := classify SurfaceJoin "ghs_0123456789abcdef" "predicate=ghs_fedcba9876543210 failed" None in
  fo_code o = "ghs_0123456789abcdef" ∧ fo_refusing_step o = Some "ghs_fedcba9876543210".
Proof. by vm_compute. Qed.
