(* ===== verification/OperationLock.v ===== *)
(** The repository-scoped operation lock: src/src/operation_lock.rs.

    A handler is a program of file operations ([Prog]); the system runs the
    programs of several processes on one directory, one operation at a time in
    any order. The file system has inodes, so that an open file stays the one
    that was opened when its name is removed or replaced. [serde_json] and
    SHA-256 are operations of the class [LockCodec]; the directory Git reports
    is a parameter, the same for every worktree of the repository. The
    variants for Windows are not modelled. *)

From Stdlib Require Import Ascii String.
From S2P Require Import Prelude Text Model Files Programs.

#[local] Open Scope string_scope.
#[local] Open Scope list_scope.
#[local] Open Scope nat_scope.

Definition LOCK_DIRECTORY : string := "caravan".
Definition LOCK_FILE : string := "operation.lock".
Definition MAX_OWNER_BYTES : nat := 16 * 1024.
#[global] Arguments MAX_OWNER_BYTES : simpl never.
(** [DEFAULT_STALE_AFTER], in nanoseconds. *)
Definition NANOS : N := 1000000000.
Definition DEFAULT_STALE_AFTER : N := 30 * 60 * NANOS.

(** ** Records *)

Record CheckpointCompaction := mkCompaction {
  cc_original_bytes : N;
  cc_original_digest : string;
  cc_keys : list string;
  cc_counts : gmap string N }.
#[export] Instance CheckpointCompaction_eq_dec : EqDecision CheckpointCompaction.
Proof. solve_decision. Defined.

Record OperationLockCheckpoint (Value : Type) := mkCheckpoint {
  lc_phase : string;
  lc_updated_unix_ms : N;
  lc_evidence : Value;
  lc_evidence_compaction : option CheckpointCompaction;
  lc_provider_state_indeterminate : bool }.
#[global] Arguments mkCheckpoint {Value} _ _ _ _ _.
#[global] Arguments lc_phase {Value} _.
#[global] Arguments lc_updated_unix_ms {Value} _.
#[global] Arguments lc_evidence {Value} _.
#[global] Arguments lc_evidence_compaction {Value} _.
#[global] Arguments lc_provider_state_indeterminate {Value} _.

Record OperationLockOwner (Value : Type) := mkOwner {
  ow_version : N;
  ow_pid : N;
  ow_operation : string;
  ow_created_unix_secs : N;
  ow_token : string;
  ow_checkpoint : option (OperationLockCheckpoint Value) }.
#[global] Arguments mkOwner {Value} _ _ _ _ _ _.
#[global] Arguments ow_version {Value} _.
#[global] Arguments ow_pid {Value} _.
#[global] Arguments ow_operation {Value} _.
#[global] Arguments ow_created_unix_secs {Value} _.
#[global] Arguments ow_token {Value} _.
#[global] Arguments ow_checkpoint {Value} _.

#[export] Instance OperationLockCheckpoint_eq_dec `{EqDecision Value} : EqDecision (OperationLockCheckpoint Value).
Proof. solve_decision. Defined.
#[export] Instance OperationLockOwner_eq_dec `{EqDecision Value} : EqDecision (OperationLockOwner Value).
Proof. solve_decision. Defined.

Record OperationLockStatus (Value : Type) := mkLockStatus {
  st_path : Path;
  st_present : bool;
  st_owner : option (OperationLockOwner Value);
  st_age_secs : option N;
  st_owner_alive : option bool;
  st_auto_recoverable : bool;
  st_stale_after_secs : N;
  st_stale : bool }.
#[global] Arguments mkLockStatus {Value} _ _ _ _ _ _ _ _.
#[global] Arguments st_path {Value} _.
#[global] Arguments st_present {Value} _.
#[global] Arguments st_owner {Value} _.
#[global] Arguments st_age_secs {Value} _.
#[global] Arguments st_owner_alive {Value} _.
#[global] Arguments st_auto_recoverable {Value} _.
#[global] Arguments st_stale_after_secs {Value} _.
#[global] Arguments st_stale {Value} _.

Record OperationLockRecovery (Value : Type) := mkLockRecovery {
  rc_path : Path;
  rc_removed_owner : OperationLockOwner Value;
  rc_age_secs : N;
  rc_owner_alive : bool;
  rc_token_verified : bool }.
#[global] Arguments mkLockRecovery {Value} _ _ _ _ _.
#[global] Arguments rc_path {Value} _.
#[global] Arguments rc_removed_owner {Value} _.
#[global] Arguments rc_age_secs {Value} _.
#[global] Arguments rc_owner_alive {Value} _.
#[global] Arguments rc_token_verified {Value} _.

Abbreviation Inode := N (only parsing).

(** [OperationLock] without the flag [released]: a guard that was released is
    no longer a value of a process. *)
Record OperationLock (Value : Type) := mkLock {
  lk_path : Path;
  lk_owner : OperationLockOwner Value;
  lk_file : option Inode;
  lk_recovered_dead_owner : option (OperationLockRecovery Value) }.
#[global] Arguments mkLock {Value} _ _ _ _.
#[global] Arguments lk_path {Value} _.
#[global] Arguments lk_owner {Value} _.
#[global] Arguments lk_file {Value} _.
#[global] Arguments lk_recovered_dead_owner {Value} _.

(** [AppError] without its message and details. *)
Inductive LockErrorCategory := LkValidation | LkExecutionFailure | LkSerializationError | LkTargetNotFound.
Record LockError := mkLockError {
  le_category : LockErrorCategory;
  le_code : string }.
Definition lock_io_error (code : string) : LockError := mkLockError LkExecutionFailure code.

(** [serde_json] on owners and evidence, and SHA-256. *)
Class LockCodec (Value : Type) := {
  value_eq : EqDecision Value;
  encode_owner : OperationLockOwner Value → option (list N);
  decode_owner : list N → option (OperationLockOwner Value);
  value_bytes : Value → list N;
  value_object : Value → option (list (string * Value));
  value_array_len : Value → option nat;
  compacted_evidence : Value;
  minimal_evidence : Value;
  digest_hex : list N → string }.
#[export] Existing Instance value_eq.

(** ** Programs of file operations *)

Inductive LockOp (Value : Type) : Type → Type :=
| OpCommonDir : LockOp Value (result Path LockError)
| OpCreateDirs (path : Path) : LockOp Value (result unit IoError)
| OpNow : LockOp Value Z
| OpSequence : LockOp Value N
| OpCreateNew (path : Path) : LockOp Value (result Inode IoError)
| OpWriteSync (file : Inode) (bytes : list N) : LockOp Value (result unit IoError)
| OpMetadata (path : Path) : LockOp Value (result (option Z) IoError)
| OpRead (path : Path) : LockOp Value (result (list N) IoError)
| OpProbe (pid : N) : LockOp Value (result bool LockError)
(** The owner a recovery read for the last time before it removes the file;
    it does not change what is removed. *)
| OpRemove (path : Path) (validated : option (OperationLockOwner Value)) : LockOp Value (result unit IoError)
| OpRename (source target : Path) : LockOp Value (result unit IoError)
| OpOpen (path : Path) : LockOp Value (result Inode IoError).
#[global] Arguments OpCommonDir {Value}.
#[global] Arguments OpCreateDirs {Value} _.
#[global] Arguments OpNow {Value}.
#[global] Arguments OpSequence {Value}.
#[global] Arguments OpCreateNew {Value} _.
#[global] Arguments OpWriteSync {Value} _ _.
#[global] Arguments OpMetadata {Value} _.
#[global] Arguments OpRead {Value} _.
#[global] Arguments OpProbe {Value} _.
#[global] Arguments OpRemove {Value} _ _.
#[global] Arguments OpRename {Value} _ _.
#[global] Arguments OpOpen {Value} _.

#[local] Open Scope prog_scope.

(** ** The clock *)

(** [now.duration_since(earlier).ok()]: times are nanoseconds since the Unix
    epoch, and a duration is not negative. *)
Definition since (now earlier : Z) : option N :=
  if (earlier <=? now)%Z then Some (Z.to_N (now - earlier)) else None.
Definition secs (nanos : N) : N := nanos / NANOS.
Definition millis (nanos : N) : N := N.min u64_max (nanos / 1000000).

(** ** The handlers *)

Definition with_checkpoint {Value} (owner : OperationLockOwner Value)
    (checkpoint : option (OperationLockCheckpoint Value)) : OperationLockOwner Value :=
  mkOwner (ow_version owner) (ow_pid owner) (ow_operation owner) (ow_created_unix_secs owner)
    (ow_token owner) checkpoint.
Definition with_owner {Value} (lock : OperationLock Value) (owner : OperationLockOwner Value)
    : OperationLock Value :=
  mkLock (lk_path lock) owner (lk_file lock) (lk_recovered_dead_owner lock).
Definition with_file {Value} (lock : OperationLock Value) (file : option Inode) : OperationLock Value :=
  mkLock (lk_path lock) (lk_owner lock) file (lk_recovered_dead_owner lock).

Section handlers.
Context {Value : Type} `{!LockCodec Value}.
(** [std::process::id()]. *)
Context (pid : N).

#[local] Abbreviation Owner := (OperationLockOwner Value).
#[local] Abbreviation Program A := (Prog (LockOp Value) A).
#[local] Abbreviation Eff A := (Prog (LockOp Value) (result A LockError)).

Definition lock_path : Eff Path :=
  let? common_dir := perform OpCommonDir in
  Ret (Ok (path_join LOCK_FILE (path_join LOCK_DIRECTORY common_dir))).

Definition new_owner (operation : string) : Program Owner :=
  let! now := perform OpNow in
  let created := default 0%N (since now 0) in
  let! sequence := perform OpSequence in
  Ret (mkOwner 1 pid operation (secs created)
         (fmt [show_N pid; "-"; show_N created; "-"; show_N sequence]) None).

Definition read_owner (path : Path) : Program (result Owner IoError) :=
  let? bytes := perform (OpRead path) in
  Ret (ok_or (decode_owner (take MAX_OWNER_BYTES bytes)) InvalidData).

Definition lock_age_secs (modified : option Z) (owner : Owner) : Program N :=
  let! now := perform OpNow in
  match since now 0 with
  | Some wall => Ret (secs wall - ow_created_unix_secs owner)%N
  | None =>
      match modified with
      | None => Ret 0%N
      | Some modified =>
          let! now := perform OpNow in
          Ret (secs (default 0%N (since now modified)))
      end
  end.

(** The recorded process identifier is a positive [i32]. *)
Definition process_is_alive (owner_pid : N) : Eff bool :=
  if ((owner_pid =? 0) || (2147483647 <? owner_pid))%N
  then Ret (Err (mkLockError LkValidation "operation_lock_pid_invalid"))
  else perform (OpProbe owner_pid).

Inductive DeadOwnerProbe := Gone | Live | Recovered (receipt : OperationLockRecovery Value).

Definition owner_changed : LockError := mkLockError LkValidation "operation_lock_owner_changed".
Definition lock_race : LockError := mkLockError LkExecutionFailure "operation_lock_race".

Definition recover_dead_owner_for_acquire (path : Path) : Eff DeadOwnerProbe :=
  let! metadata := perform (OpMetadata path) in
  match metadata with
  | Err NotFound => Ret (Ok Gone)
  | Err _ => Ret (Err (lock_io_error "operation_lock_inspection_failed"))
  | Ok modified =>
      let! read := read_owner path in
      match read with
      | Err NotFound => Ret (Ok Gone)
      | Err _ => Ret (Err (lock_io_error "operation_lock_owner_invalid"))
      | Ok owner =>
          let? alive := process_is_alive (ow_pid owner) in
          if alive then Ret (Ok Live)
          else
            let! read := read_owner path in
            match read with
            | Err NotFound => Ret (Ok Gone)
            | Err _ => Ret (Err (lock_io_error "operation_lock_recovery_inspection_failed"))
            | Ok latest =>
                if negb (bool_decide (latest = owner)) || negb (String.eqb (ow_token latest) (ow_token owner))
                then Ret (Err owner_changed)
                else
                  let? alive := process_is_alive (ow_pid latest) in
                  if alive then Ret (Ok Live)
                  else
                    run? map_err (perform (OpRemove path (Some latest)))
                           (λ _, lock_io_error "operation_lock_recovery_failed") in
                    let! age_secs := lock_age_secs modified latest in
                    Ret (Ok (Recovered (mkLockRecovery path latest age_secs false true)))
            end
      end
  end.

(** The error of a live owner; the details repeat the evidence. *)
Definition existing_lock_error (path : Path) (stale_after : N) : Program (result LockError IoError) :=
  let? modified := perform (OpMetadata path) in
  let! age :=
    match modified with
    | None => Ret 0%N
    | Some modified => let! now := perform OpNow in Ret (default 0%N (since now modified))
    end in
  let! _owner := read_owner path in
  Ret (Ok (if (stale_after <=? age)%N then mkLockError LkValidation "stale_operation_lock"
           else mkLockError LkValidation "operation_lock_contended")).

(** The attempts of an acquisition; [left_] of the three remain. *)
Fixpoint acquire_attempts (path : Path) (owner : Owner) (stale_after : N) (left_ : nat)
    (recovered : option (OperationLockRecovery Value)) : Eff (OperationLock Value) :=
  match left_ with
  | O => Ret (Err lock_race)
  | S left_ =>
      let! created := perform (OpCreateNew path) in
      match created with
      | Ok file =>
          match encode_owner owner with
          | None => Ret (Err (mkLockError LkSerializationError "operation_lock_encode_failed"))
          | Some encoded =>
              let! written := perform (OpWriteSync file encoded) in
              match written with
              | Ok _ => Ret (Ok (mkLock path owner (Some file) recovered))
              | Err _ =>
                  run! perform (OpRemove path None) in
                  Ret (Err (lock_io_error "operation_lock_write_failed"))
              end
          end
      | Err AlreadyExists =>
          let? probe := recover_dead_owner_for_acquire path in
          match probe with
          | Recovered receipt =>
              acquire_attempts path owner stale_after left_
                (match recovered with Some _ => recovered | None => Some receipt end)
          | Gone =>
              match left_ with
              | O => Ret (Err lock_race)
              | S _ => acquire_attempts path owner stale_after left_ recovered
              end
          | Live =>
              let! error := existing_lock_error path stale_after in
              match error with
              | Ok error => Ret (Err error)
              | Err read_error =>
                  if bool_decide (read_error = NotFound) && negb (left_ =? 0)
                  then acquire_attempts path owner stale_after left_ recovered
                  else Ret (Err (lock_io_error "operation_lock_inspection_failed"))
              end
          end
      | Err _ => Ret (Err (lock_io_error "operation_lock_create_failed"))
      end
  end.

Definition acquire_with_stale_after (operation : string) (stale_after : N) : Eff (OperationLock Value) :=
  if str_is_empty (trim operation) || contains_char [line_feed; carriage_return] operation
  then Ret (Err (mkLockError LkValidation "invalid_operation_name"))
  else
    let? path := lock_path in
    run? map_err (perform (OpCreateDirs (default path (parent path))))
           (λ _, lock_io_error "operation_lock_directory_failed") in
    let! owner := new_owner operation in
    acquire_attempts path owner stale_after 3 None.

Definition acquire (operation : string) : Eff (OperationLock Value) :=
  acquire_with_stale_after operation DEFAULT_STALE_AFTER.

(** *** Checkpoints *)

Definition compact_checkpoint_evidence (owner : Owner) : Owner :=
  match ow_checkpoint owner with
  | None => owner
  | Some c =>
      let serialized := value_bytes (lc_evidence c) in
      let entries := default [] (value_object (lc_evidence c)) in
      let counts := omap (λ '(key, value), (λ n, (key, N.min u64_max (N.of_nat n))) <$> value_array_len value) entries in
      with_checkpoint owner (Some (mkCheckpoint (lc_phase c) (lc_updated_unix_ms c) compacted_evidence
        (Some (mkCompaction (N.min u64_max (N.of_nat (length serialized))) (digest_hex serialized)
                 (fst <$> entries) (list_to_map (reverse counts))))
        (lc_provider_state_indeterminate c)))
  end.

Definition minimize_checkpoint_evidence (owner : Owner) : Owner :=
  match ow_checkpoint owner with
  | None => owner
  | Some c =>
      with_checkpoint owner (Some (mkCheckpoint (lc_phase c) (lc_updated_unix_ms c) minimal_evidence
        ((λ k, mkCompaction (cc_original_bytes k) (cc_original_digest k) [] ∅) <$> lc_evidence_compaction c)
        (lc_provider_state_indeterminate c)))
  end.

Definition oversized (bytes : list N) : bool := MAX_OWNER_BYTES <? length bytes.
Definition checkpoint_encode_failed : LockError :=
  mkLockError LkSerializationError "operation_lock_checkpoint_encode_failed".

(** The bytes of a checkpoint and the owner they record; the owner is changed
    even where no bytes fit. *)
Definition bounded_owner (owner : Owner) : result (list N) LockError * Owner :=
  match encode_owner owner with
  | None => (Err checkpoint_encode_failed, owner)
  | Some encoded =>
      if negb (oversized encoded) then (Ok encoded, owner)
      else
        let owner := compact_checkpoint_evidence owner in
        match encode_owner owner with
        | None => (Err checkpoint_encode_failed, owner)
        | Some encoded =>
            if negb (oversized encoded) then (Ok encoded, owner)
            else
              let owner := minimize_checkpoint_evidence owner in
              match encode_owner owner with
              | None => (Err checkpoint_encode_failed, owner)
              | Some encoded =>
                  if oversized encoded
                  then (Err (mkLockError LkValidation "operation_lock_checkpoint_too_large"), owner)
                  else (Ok encoded, owner)
              end
        end
  end.

Definition temporary_path (path : Path) (owner_pid sequence : N) : Path :=
  with_extension (fmt ["checkpoint-"; show_N owner_pid; "-"; show_N sequence; ".tmp"]) path.

(** The replacement on Unix: a temporary file, the owner again, a rename. *)
Definition persist_checkpoint_bytes (lock : OperationLock Value) (encoded : list N)
    : Program (result unit LockError * OperationLock Value) :=
  let path := lk_path lock in
  let! sequence := perform OpSequence in
  let temporary := temporary_path path (ow_pid (lk_owner lock)) sequence in
  let discard (e : LockError) :=
    run! perform (OpRemove temporary None) in Ret (Err e, lock) in
  let! written :=
    (let? file := perform (OpCreateNew temporary) in perform (OpWriteSync file encoded)) in
  match written with
  | Err _ => discard (lock_io_error "operation_lock_checkpoint_write_failed")
  | Ok _ =>
      let! latest := read_owner path in
      match latest with
      | Err _ => discard (lock_io_error "operation_lock_checkpoint_inspection_failed")
      | Ok latest =>
          if negb (String.eqb (ow_token latest) (ow_token (lk_owner lock))) then discard owner_changed
          else
            let! renamed := perform (OpRename temporary path) in
            match renamed with
            | Err _ => discard (lock_io_error "operation_lock_checkpoint_write_failed")
            | Ok _ =>
                let! opened := perform (OpOpen path) in
                match opened with
                | Err _ => Ret (Err (lock_io_error "operation_lock_checkpoint_reopen_failed"), lock)
                | Ok file => Ret (Ok (), with_file lock (Some file))
                end
            end
      end
  end.

Definition checkpoint (lock : OperationLock Value) (phase : string) (evidence : Value)
    (provider_state_indeterminate : bool) : Program (result unit LockError * OperationLock Value) :=
  let! existing := read_owner (lk_path lock) in
  match existing with
  | Err _ => Ret (Err (lock_io_error "operation_lock_checkpoint_inspection_failed"), lock)
  | Ok existing =>
      if negb (String.eqb (ow_token existing) (ow_token (lk_owner lock))) then Ret (Err owner_changed, lock)
      else
        let! now := perform OpNow in
        let recorded := with_checkpoint (lk_owner lock) (Some (mkCheckpoint phase
          (millis (default 0%N (since now 0))) evidence None provider_state_indeterminate)) in
        let (encoded, owner) := bounded_owner recorded in
        let lock := with_owner lock owner in
        match encoded with
        | Err e => Ret (Err e, lock)
        | Ok encoded =>
            match lk_file lock with
            | None => Ret (Err (lock_io_error "operation_lock_checkpoint_file_closed"), lock)
            | Some _ => persist_checkpoint_bytes lock encoded
            end
        end
  end.

(** *** Release *)

Definition release_inner (lock : OperationLock Value) : Eff unit :=
  let? existing := map_err (read_owner (lk_path lock))
                     (λ _, lock_io_error "operation_lock_release_inspection_failed") in
  if negb (String.eqb (ow_token existing) (ow_token (lk_owner lock))) then Ret (Err owner_changed)
  else map_err (perform (OpRemove (lk_path lock) None)) (λ _, lock_io_error "operation_lock_release_failed").

(** [Drop]. *)
Definition drop_lock (lock : OperationLock Value) : Program unit :=
  let! read := read_owner (lk_path lock) in
  match read with
  | Ok owner =>
      if String.eqb (ow_token owner) (ow_token (lk_owner lock))
      then run! perform (OpRemove (lk_path lock) None) in Ret ()
      else Ret ()
  | Err _ => Ret ()
  end.

(** A release that fails drops the guard, which tries once more. *)
Definition release (lock : OperationLock Value) : Eff unit :=
  let! released := release_inner lock in
  match released with
  | Ok _ => Ret (Ok ())
  | Err e => run! drop_lock lock in Ret (Err e)
  end.

(** *** Inspection and operator recovery *)

Definition inspect_lock (stale_after : N) : Eff (OperationLockStatus Value) :=
  let? path := lock_path in
  let stale_after_secs := secs stale_after in
  let! metadata := perform (OpMetadata path) in
  match metadata with
  | Err NotFound => Ret (Ok (mkLockStatus path false None None None false stale_after_secs false))
  | Err _ => Ret (Err (lock_io_error "operation_lock_inspection_failed"))
  | Ok modified =>
      let? owner := map_err (read_owner path) (λ _, lock_io_error "operation_lock_owner_invalid") in
      let! age_secs := lock_age_secs modified owner in
      let? owner_alive := process_is_alive (ow_pid owner) in
      Ret (Ok (mkLockStatus path true (Some owner) (Some age_secs) (Some owner_alive) (negb owner_alive)
                 stale_after_secs (stale_after_secs <=? age_secs)%N))
  end.

Definition recover_stale_lock (stale_after : N) (expected_token : string)
    : Eff (OperationLockRecovery Value) :=
  if str_is_empty (trim expected_token)
  then Ret (Err (mkLockError LkValidation "operation_lock_token_required"))
  else
    let? status := inspect_lock stale_after in
    match st_owner status, st_age_secs status with
    | Some owner, Some age_secs =>
        if negb (st_present status) then Ret (Err (mkLockError LkTargetNotFound "operation_lock_not_found"))
        else if negb (String.eqb (ow_token owner) expected_token)
        then Ret (Err (mkLockError LkValidation "operation_lock_token_mismatch"))
        else if negb (st_stale status)
        then Ret (Err (mkLockError LkValidation "operation_lock_not_stale"))
        else if bool_decide (st_owner_alive status = Some true)
        then Ret (Err (mkLockError LkValidation "operation_lock_owner_alive"))
        else
          let? path := lock_path in
          let? latest := map_err (read_owner path)
                           (λ _, lock_io_error "operation_lock_recovery_inspection_failed") in
          if negb (bool_decide (latest = owner)) || negb (String.eqb (ow_token latest) expected_token)
          then Ret (Err owner_changed)
          else
            let? alive := process_is_alive (ow_pid latest) in
            if alive then Ret (Err (mkLockError LkValidation "operation_lock_owner_alive"))
            else
              run? map_err (perform (OpRemove path (Some latest)))
                     (λ _, lock_io_error "operation_lock_recovery_failed") in
              Ret (Ok (mkLockRecovery path latest age_secs false true))
    (** An absent lock; a present one has an owner and an age. *)
    | _, _ => Ret (Err (mkLockError LkTargetNotFound "operation_lock_not_found"))
    end.
End handlers.
