(* ===== verification/LockSystem.v ===== *)
(** Processes that use the operation lock of one repository, on one file
    system: every operation of a handler is a step of its own, and the steps of
    the processes are interleaved by a schedule. A schedule also spawns and
    kills processes, makes operations fail, lets a write show its bytes one
    part after the other, and answers the clock. A process identifier is not
    used twice. *)

From Stdlib Require Import Ascii String.
From S2P Require Import Prelude Text Model Files Programs OperationLock.

#[local] Open Scope string_scope.
#[local] Open Scope list_scope.
#[local] Open Scope nat_scope.

Section system.
Context {Value : Type} `{!LockCodec Value}.
(** [git rev-parse --git-common-dir]. *)
Context (common_dir : Path).

Definition the_lock : Path := path_join LOCK_FILE (path_join LOCK_DIRECTORY common_dir).

(** A process: the guard it holds, and the handler it is in. *)
Record Agent := mkAgent {
  ag_guard : option (OperationLock Value);
  ag_code : option (Prog (LockOp Value) (option (OperationLock Value))) }.

(** An inode keeps the process that created it beside its bytes. *)
Record LockSystem := mkSystem {
  sy_names : gmap Path Inode;
  sy_inodes : gmap Inode (N * list N);
  sy_next : Inode;
  sy_used : gset N;
  sy_sequences : gmap N N;
  sy_agents : gmap N Agent }.

Definition set_names (names : gmap Path Inode) (s : LockSystem) : LockSystem :=
  mkSystem names (sy_inodes s) (sy_next s) (sy_used s) (sy_sequences s) (sy_agents s).
Definition set_inodes (inodes : gmap Inode (N * list N)) (s : LockSystem) : LockSystem :=
  mkSystem (sy_names s) inodes (sy_next s) (sy_used s) (sy_sequences s) (sy_agents s).
Definition set_agents (agents : gmap N Agent) (s : LockSystem) : LockSystem :=
  mkSystem (sy_names s) (sy_inodes s) (sy_next s) (sy_used s) (sy_sequences s) agents.

(** What the environment decides about one operation. *)
Record Choice := mkChoice {
  cz_fault : option IoError;   (** the operation fails *)
  cz_error : LockError;        (** how Git or the process probe failed *)
  cz_shown : option nat;       (** a write that goes on has put this many bytes *)
  cz_written : nat;            (** a write that fails has put this many bytes *)
  cz_now : Z;
  cz_modified : option Z }.

Definition put_inode (file : Inode) (bytes : list N) (s : LockSystem) : LockSystem :=
  match sy_inodes s !! file with
  | Some (creator, _) => set_inodes (<[file := (creator, bytes)]> (sy_inodes s)) s
  | None => s
  end.

Definition answer {A} (c : Choice) (r : result A IoError) : option (result A IoError) :=
  Some (match cz_fault c with Some e => Err e | None => r end).

(** One operation of process [pid]: its answer, or that it goes on. *)
Definition exec_op (pid : N) (c : Choice) {R} (op : LockOp Value R) (s : LockSystem)
    : option R * LockSystem :=
  match op in LockOp _ R return option R * LockSystem with
  | OpCommonDir => (Some (match cz_fault c with Some _ => Err (cz_error c) | None => Ok common_dir end), s)
  | OpCreateDirs _ => (answer c (Ok ()), s)
  | OpNow => (Some (cz_now c), s)
  | OpSequence =>
      let n := default 0%N (sy_sequences s !! pid) in
      (Some n, mkSystem (sy_names s) (sy_inodes s) (sy_next s) (sy_used s)
                 (<[pid := ((n + 1) mod 18446744073709551616)%N]> (sy_sequences s)) (sy_agents s))
  | OpCreateNew path =>
      match cz_fault c, sy_names s !! path with
      | Some e, _ => (Some (Err e), s)
      | None, Some _ => (Some (Err AlreadyExists), s)
      | None, None =>
          let file := sy_next s in
          (Some (Ok file), mkSystem (<[path := file]> (sy_names s)) (<[file := (pid, [])]> (sy_inodes s))
                             (file + 1)%N (sy_used s) (sy_sequences s) (sy_agents s))
      end
  | OpWriteSync file bytes =>
      match cz_shown c, cz_fault c with
      | Some n, _ => (None, put_inode file (take n bytes) s)
      | None, Some e => (Some (Err e), put_inode file (take (cz_written c) bytes) s)
      | None, None => (Some (Ok ()), put_inode file bytes s)
      end
  | OpMetadata path =>
      (answer c (match sy_names s !! path with Some _ => Ok (cz_modified c) | None => Err NotFound end), s)
  | OpRead path =>
      (answer c (match sy_names s !! path ≫= λ file, sy_inodes s !! file with
                 | Some (_, bytes) => Ok bytes
                 | None => Err NotFound
                 end), s)
  | OpProbe other =>
      (Some (match cz_fault c with
             | Some _ => Err (cz_error c)
             | None => Ok (bool_decide (is_Some (sy_agents s !! other)))
             end), s)
  | OpRemove path _ =>
      match cz_fault c, sy_names s !! path with
      | Some e, _ => (Some (Err e), s)
      | None, None => (Some (Err NotFound), s)
      | None, Some _ => (Some (Ok ()), set_names (delete path (sy_names s)) s)
      end
  | OpRename source target =>
      match cz_fault c, sy_names s !! source with
      | Some e, _ => (Some (Err e), s)
      | None, None => (Some (Err NotFound), s)
      | None, Some file => (Some (Ok ()), set_names (<[target := file]> (delete source (sy_names s))) s)
      end
  | OpOpen path =>
      (answer c (match sy_names s !! path with Some file => Ok file | None => Err NotFound end), s)
  end.

(** ** Schedules *)

Inductive LockCall :=
| CallAcquire (operation : string) (stale_after : N)
| CallCheckpoint (phase : string) (evidence : Value) (provider_state_indeterminate : bool)
| CallRelease
| CallDrop
| CallInspect (stale_after : N)
| CallRecover (stale_after : N) (expected_token : string).

Inductive LockStep :=
| Spawn (pid : N)
| Kill (pid : N)
| Start (pid : N) (c : LockCall)
| Run (pid : N) (c : Choice).

(** The guard a process has while it is in a handler, and the handler, which
    returns the guard it has afterwards. *)
Definition started (pid : N) (guard : option (OperationLock Value)) (c : LockCall) : option Agent :=
  match c, guard with
  | CallAcquire operation stale_after, None =>
      Some (mkAgent None (Some (pbind (acquire_with_stale_after pid operation stale_after)
        (λ r, Ret (match r with Ok lock => Some lock | Err _ => None end)))))
  | CallCheckpoint phase evidence indeterminate, Some lock =>
      Some (mkAgent guard (Some (pbind (checkpoint lock phase evidence indeterminate) (λ r, Ret (Some r.2)))))
  | CallRelease, Some lock => Some (mkAgent None (Some (pbind (release lock) (λ _, Ret None))))
  | CallDrop, Some lock => Some (mkAgent None (Some (pbind (drop_lock lock) (λ _, Ret None))))
  | CallInspect stale_after, _ => Some (mkAgent guard (Some (pbind (inspect_lock stale_after) (λ _, Ret guard))))
  | CallRecover stale_after token, _ =>
      Some (mkAgent guard (Some (pbind (recover_stale_lock stale_after token) (λ _, Ret guard))))
  | _, _ => None
  end.

Definition lock_step (l : LockStep) (s : LockSystem) : option LockSystem :=
  match l with
  | Spawn pid =>
      if bool_decide (pid ∈ sy_used s) then None
      else Some (mkSystem (sy_names s) (sy_inodes s) (sy_next s) ({[pid]} ∪ sy_used s) (sy_sequences s)
                   (<[pid := mkAgent None None]> (sy_agents s)))
  | Kill pid =>
      match sy_agents s !! pid with
      | Some _ => Some (set_agents (delete pid (sy_agents s)) s)
      | None => None
      end
  | Start pid c =>
      match sy_agents s !! pid with
      | Some (mkAgent guard None) =>
          (λ agent, set_agents (<[pid := agent]> (sy_agents s)) s) <$> started pid guard c
      | _ => None
      end
  | Run pid c =>
      match sy_agents s !! pid with
      | Some (mkAgent guard (Some (Ret out))) =>
          Some (set_agents (<[pid := mkAgent out None]> (sy_agents s)) s)
      | Some (mkAgent guard (Some (Vis op k))) =>
          match exec_op pid c op s with
          | (None, s) => Some s
          | (Some r, s) => Some (set_agents (<[pid := mkAgent guard (Some (k r))]> (sy_agents s)) s)
          end
      | _ => None
      end
  end.

Fixpoint lock_run (s : LockSystem) (schedule : list LockStep) : option LockSystem :=
  match schedule with
  | [] => Some s
  | l :: rest => lock_step l s ≫= λ s, lock_run s rest
  end.

(** ** Recoveries that remove what they validated *)

Definition owner_at (s : LockSystem) (path : Path) : option (OperationLockOwner Value) :=
  match sy_names s !! path ≫= λ file, sy_inodes s !! file with
  | Some (_, bytes) => decode_owner (take MAX_OWNER_BYTES bytes)
  | None => None
  end.

(** A removal on validated evidence finds that owner in the file it removes. *)
Definition exact_removal (s : LockSystem) {R} (op : LockOp Value R) : bool :=
  match op with
  | OpRemove path (Some validated) =>
      match sy_names s !! path with
      | Some _ => bool_decide (owner_at s path = Some validated)
      | None => true
      end
  | _ => true
  end.

Definition exact_step (l : LockStep) (s : LockSystem) : bool :=
  match l with
  | Run pid _ =>
      match sy_agents s !! pid with
      | Some (mkAgent _ (Some (Vis op _))) => exact_removal s op
      | _ => true
      end
  | _ => true
  end.

Fixpoint exact_run (s : LockSystem) (schedule : list LockStep) : bool :=
  match schedule with
  | [] => true
  | l :: rest => exact_step l s && match lock_step l s with Some s => exact_run s rest | None => true end
  end.

(** ** Handlers that run alone *)

(** A handler on a quiet file system at one time. *)
Fixpoint run_alone {A} (pid : N) (now : Z) (modified : option Z) (p : Prog (LockOp Value) A) (s : LockSystem)
    : option A * LockSystem :=
  match p with
  | Ret a => (Some a, s)
  | Vis op k =>
      match exec_op pid (mkChoice None lock_race None 0 now modified) op s with
      | (Some r, s) => run_alone pid now modified (k r) s
      | (None, s) => (None, s)
      end
  end.

(** The processes that hold the lock. *)
Definition holders (s : LockSystem) : list N :=
  (map_to_list (sy_agents s)) ≫= λ '(pid, a), match ag_guard a with Some _ => [pid] | None => [] end.
End system.
#[global] Arguments LockSystem Value : clear implicits.
#[global] Arguments Agent Value : clear implicits.
#[global] Arguments LockStep Value : clear implicits.
#[global] Arguments LockCall Value : clear implicits.
