(* ===== verification/LockProofs.v ===== *)
(** Mutual exclusion of the operation lock under every interleaving in which a
    recovery removes the file it validated: a logic for programs that share
    the lock, the handlers verified in it, and the invariant of the system. *)

From Stdlib Require Import Ascii String.
From S2P Require Import Prelude Text TextProofs Model Files Programs OperationLock LockSystem.

#[local] Open Scope string_scope.
#[local] Open Scope list_scope.
#[local] Open Scope nat_scope.
#[local] Open Scope prog_scope.

(** What the codec promises: no bytes are no owner, and an encoding that was
    cut decodes to nothing else. *)
Class LockCodecLaws (Value : Type) `{!LockCodec Value} := {
  decode_empty : decode_owner (Value := Value) [] = None;
  owner_roundtrip : ∀ o bytes, encode_owner o = Some bytes → decode_owner bytes = Some o;
  decode_prefix : ∀ o bytes n o', encode_owner o = Some bytes → decode_owner (take n bytes) = Some o' → o' = o }.

(** ** The names of the files *)

Lemma with_extension_last absolute components name extension :
  name ≠ ".." →
  with_extension extension (mkPath absolute (components ++ [name]))
  = mkPath absolute (components ++ [fmt [file_stem name; "."; extension]]).
Proof.
  intros Hn. unfold with_extension, file_name. cbn. rewrite last_snoc. cbn.
  destruct (String.eqb_spec name "..") as [-> |]; [done |]. cbn. by rewrite removelast_last.
Qed.

Lemma digits_dash a b x y :
  all_digits a = true → all_digits b = true →
  a +:+ String "-" x = b +:+ String "-" y → a = b.
Proof.
  revert b. induction a as [| c a IH]; intros [| d b]; cbn; try done.
  - intros _ Hb [= <- _]. done.
  - intros Ha _ [= -> _]. done.
  - intros [_ Ha]%andb_true_iff [_ Hb]%andb_true_iff [= -> H]. f_equal. by apply IH.
Qed.

Section names.
Context (common_dir : Path).

Lemma temporary_path_lock p n :
  temporary_path (the_lock common_dir) p n
  = mkPath (pa_absolute common_dir) ((pa_components common_dir ++ [LOCK_DIRECTORY])
      ++ [fmt ["operation.checkpoint-"; show_N p; "-"; show_N n; ".tmp"]]).
Proof.
  unfold temporary_path, the_lock, path_join. cbn [pa_absolute pa_components].
  rewrite with_extension_last by done. do 3 f_equal. cbn. by rewrite !str_app_nil_r.
Qed.

Lemma temporary_path_not_lock p n : temporary_path (the_lock common_dir) p n ≠ the_lock common_dir.
Proof.
  rewrite temporary_path_lock. unfold the_lock, path_join. cbn [pa_absolute pa_components].
  intros [= H]. apply app_inj_tail in H as [_ H]. discriminate.
Qed.

Lemma temporary_path_pid p n q m :
  temporary_path (the_lock common_dir) p n = temporary_path (the_lock common_dir) q m → p = q.
Proof.
  rewrite !temporary_path_lock. intros [= H]. apply app_inj_tail in H as [_ H].
  cbn in H. injection H as H. apply digits_dash in H; [| apply all_digits_pretty..].
  by apply (inj pretty).
Qed.
End names.

(** ** Programs that respect the lock *)

(** What a process knows for good: files it created, process identifiers
    that were used, and processes that died. *)
Record Knows := mkKnows {
  kn_mine : gset Inode;
  kn_seen : gset N;
  kn_dead : gset N }.
Definition know_mine (file : Inode) (K : Knows) : Knows := mkKnows ({[file]} ∪ kn_mine K) (kn_seen K) (kn_dead K).
Definition know_seen (pid : N) (K : Knows) : Knows := mkKnows (kn_mine K) ({[pid]} ∪ kn_seen K) (kn_dead K).
Definition know_dead (pid : N) (K : Knows) : Knows := mkKnows (kn_mine K) (kn_seen K) ({[pid]} ∪ kn_dead K).

Section logic.
Context {Value : Type} `{!LockCodec Value} (common_dir : Path).
(** The process, and whether it holds a guard it must keep. *)
Context (pid : N) (held : bool).

#[local] Abbreviation lock := (the_lock common_dir).
#[local] Abbreviation own_temporary path := (∃ n, path = temporary_path lock pid n).

Definition learn (bytes : list N) (K : Knows) : Knows :=
  match decode_owner (Value := Value) (take MAX_OWNER_BYTES bytes) with
  | Some o => know_seen (ow_pid o) K
  | None => K
  end.

(** Every part of these bytes names this process as the owner, if any. *)
Definition signed (bytes : list N) : Prop :=
  ∀ n o, decode_owner (Value := Value) (take MAX_OWNER_BYTES (take n bytes)) = Some o → ow_pid o = pid.

(** An operation of a process that owns the lock file [own] and knows [K],
    and what holds with its answer. *)
Definition op_wp {R} (op : LockOp Value R) (own : option Inode) (K : Knows)
    : (option Inode → Knows → R → Prop) → Prop :=
  match op in LockOp _ R return (option Inode → Knows → R → Prop) → Prop with
  | OpCommonDir => λ Φ, Φ own K (Ok common_dir) ∧ ∀ e, Φ own K (Err e)
  | OpCreateDirs _ | OpNow | OpSequence | OpMetadata _ | OpOpen _ => λ Φ, ∀ r, Φ own K r
  | OpCreateNew path => λ Φ,
      (path = lock ∨ own_temporary path) ∧ (∀ e, Φ own K (Err e))
      ∧ ∀ file, Φ (if decide (path = lock) then Some file else own) (know_mine file K) (Ok file)
  | OpWriteSync file bytes => λ Φ, file ∈ kn_mine K ∧ signed bytes ∧ ∀ r, Φ own K r
  | OpRead path => λ Φ, (∀ e, Φ own K (Err e)) ∧ ∀ bytes, Φ own (learn bytes K) (Ok bytes)
  | OpProbe other => λ Φ,
      (∀ e, Φ own K (Err e)) ∧ Φ own K (Ok true)
      ∧ (other ∈ kn_seen K ∧ Φ own (know_dead other K) (Ok false) ∨ Φ own K (Ok false))
  | OpRemove path validated => λ Φ,
      (path = lock ∧
        match validated with
        | Some o => ow_pid o ∈ kn_dead K ∧ ∀ r, Φ own K r
        | None => held = false ∧ is_Some own ∧ Φ None K (Ok ()) ∧ ∀ e, Φ own K (Err e)
        end)
      ∨ own_temporary path ∧ ∀ r, Φ own K r
  | OpRename source target => λ Φ,
      own_temporary source ∧ target = lock ∧ is_Some own
      ∧ (∀ e, Φ own K (Err e)) ∧ ∀ file, Φ (Some file) K (Ok ())
  end.

Fixpoint wp {A} (p : Prog (LockOp Value) A) (own : option Inode) (K : Knows)
    (Q : option Inode → Knows → A → Prop) : Prop :=
  match p with
  | Ret a => Q own K a
  | Vis op k => op_wp op own K (λ own K r, wp (k r) own K Q)
  end.

Lemma op_wp_mono {R} (op : LockOp Value R) own K (Φ Ψ : option Inode → Knows → R → Prop) :
  (∀ own K r, Φ own K r → Ψ own K r) → op_wp op own K Φ → op_wp op own K Ψ.
Proof.
  intros H. destruct op; cbn; try naive_solver.
  destruct validated; naive_solver.
Qed.

Lemma wp_mono {A} (p : Prog (LockOp Value) A) own K (P Q : option Inode → Knows → A → Prop) :
  (∀ own K a, P own K a → Q own K a) → wp p own K P → wp p own K Q.
Proof.
  intros H. revert own K. induction p as [a | R op k IH]; intros own K; cbn; [apply H |].
  apply op_wp_mono. intros own' K' r. apply IH.
Qed.

Lemma wp_bind {A B} (p : Prog (LockOp Value) A) (f : A → Prog (LockOp Value) B) own K Q :
  wp p own K (λ own K a, wp (f a) own K Q) → wp (pbind p f) own K Q.
Proof.
  revert own K. induction p as [a | R op k IH]; intros own K; cbn; [done |].
  apply op_wp_mono. intros own' K' r. apply IH.
Qed.
End logic.

(** The next operation of a program. *)
Ltac prog_step := cbn [pbind ebind map_err perform wp op_wp].

(** ** The handlers respect the lock *)

Section handlers.
Context {Value : Type} `{!LockCodec Value, !LockCodecLaws Value} (common_dir : Path).
Context (pid : N) (held : bool).

#[local] Abbreviation lock := (the_lock common_dir).
#[local] Abbreviation wp := (wp common_dir pid held).
Implicit Types (own : option Inode) (K : Knows).

Definition good (l : OperationLock Value) : Prop := lk_path l = lock ∧ ow_pid (lk_owner l) = pid.
(** The process owns what it owned. *)
Definition keeps_own {A} own : option Inode → Knows → A → Prop := λ own' _ _, own' = own.

Lemma signed_encoding o bytes : encode_owner o = Some bytes → ow_pid o = pid → signed (Value := Value) pid bytes.
Proof.
  intros He Hp n o' Hd. rewrite take_take in Hd. by rewrite (decode_prefix _ _ _ _ He Hd).
Qed.

Lemma wp_lock_path own K Q :
  Q own K (Ok lock) → (∀ e, Q own K (Err e)) → wp lock_path own K Q.
Proof. intros H1 H2. cbn. auto. Qed.

Lemma wp_read_owner path own K Q :
  (∀ e, Q own K (Err e)) → (∀ o, Q own (know_seen (ow_pid o) K) (Ok o)) → wp (read_owner path) own K Q.
Proof.
  intros He Ho. cbn. split; [apply He |]. intros bytes. unfold learn.
  destruct (decode_owner _) as [o |]; cbn; [apply Ho | apply He].
Qed.

Lemma wp_process_is_alive other own K Q :
  other ∈ kn_seen K →
  (∀ e, Q own K (Err e)) → Q own K (Ok true) → Q own (know_dead other K) (Ok false) →
  wp (process_is_alive other) own K Q.
Proof. intros Hs He Ht Hf. unfold process_is_alive. destruct (_ || _); cbn; auto. Qed.

(** A program of queries only. *)
Lemma wp_lock_age modified o own K Q : (∀ n, Q own K n) → wp (lock_age_secs modified o) own K Q.
Proof. intros H. cbn. intros now. repeat case_match; cbn; auto. Qed.

Lemma wp_existing_error path stale own K Q :
  (∀ K' r, Q own K' r) → wp (existing_lock_error path stale) own K Q.
Proof.
  intros H. cbn. intros r. destruct r as [modified | e]; [| apply H]. destruct modified as [m |]; cbn; auto.
Qed.

(** After the owner was read for the last time, the file is removed only on
    the knowledge that this owner died. *)
Lemma wp_recover_dead_owner own K : wp (recover_dead_owner_for_acquire lock) own K (keeps_own own).
Proof.
  unfold recover_dead_owner_for_acquire. prog_step. intros metadata.
  destruct metadata as [modified | []]; try done.
  apply wp_bind, wp_read_owner; [by intros [] |]. intros owner.
  apply wp_bind, wp_process_is_alive; [set_solver | done | done |].
  apply wp_bind, wp_read_owner; [by intros [] |]. intros latest.
  destruct (_ || _); [done |].
  apply wp_bind, wp_process_is_alive; [set_solver | done | done |].
  cbn. left. split; [done |]. split; [set_solver |]. intros [u | e]; [| done].
  intros now. repeat case_match; cbn; done.
Qed.

Definition acquired own (r : result (OperationLock Value) LockError) : Prop :=
  match r with Ok l => is_Some own ∧ good l | Err _ => True end.

Lemma wp_acquire_attempts owner stale left_ recovered K :
  held = false → ow_pid owner = pid →
  wp (acquire_attempts lock owner stale left_ recovered) None K (λ own _ r, acquired own r).
Proof.
  intros Hheld Hpid. revert recovered K. induction left_ as [| n IH]; intros recovered K; [done |].
  cbn [acquire_attempts]; prog_step.
  split; [by left |]. split.
  - intros []; try done. apply wp_bind. eapply wp_mono; [| apply wp_recover_dead_owner].
    intros own' K' [probe | e] ->; [| done]. destruct probe as [| | receipt].
    + destruct n as [| n]; [done | apply IH].
    + apply wp_bind, wp_existing_error. intros K'' [e | e]; [done |]. destruct (_ && _); [apply IH | done].
    + apply IH.
  - intros file. destruct (decide _) as [_ |]; [| done]. destruct (encode_owner owner) as [encoded |] eqn:He; [| done].
    cbn. split; [set_solver |]. split; [by eapply signed_encoding |]. intros [u | e].
    + cbn. split; [by eexists | done].
    + cbn. left. split; [done |]. rewrite Hheld. split_and!; try done.
Qed.

Lemma wp_acquire operation stale K :
  held = false →
  wp (acquire_with_stale_after pid operation stale) None K (λ own _ r, acquired own r).
Proof.
  intros Hheld. unfold acquire_with_stale_after. destruct (_ || _); [done |].
  apply wp_bind, wp_lock_path; [| done]. prog_step. intros [u | e]; [| done].
  unfold new_owner. prog_step. intros now sequence.
  by apply wp_acquire_attempts.
Qed.

Lemma bounded_owner_pid o r o' : bounded_owner o = (r, o') → ow_pid o' = ow_pid o.
Proof.
  unfold bounded_owner, compact_checkpoint_evidence, minimize_checkpoint_evidence.
  intros Hb. repeat case_match; simplify_eq; done.
Qed.

Lemma bounded_owner_bytes o bytes o' : bounded_owner o = (Ok bytes, o') → encode_owner o' = Some bytes.
Proof. unfold bounded_owner. intros Hb. repeat case_match; simplify_eq; done. Qed.

Definition still_held own (l : OperationLock Value) : Prop := is_Some own ∧ good l.

(** A checkpoint that fails removes its temporary file. *)
Ltac discard sequence := intros; prog_step; right; split; [by exists sequence | done].

Lemma wp_persist l encoded own K :
  still_held own l → encode_owner (lk_owner l) = Some encoded →
  wp (persist_checkpoint_bytes l encoded) own K (λ own _ r, still_held own r.2).
Proof.
  intros [Hown [Hpath Hpid]] He. unfold persist_checkpoint_bytes. rewrite Hpath, Hpid.
  prog_step. intros sequence.
  split; [right; by exists sequence |]. split; [discard sequence |].
  intros file. destruct (decide _) as [Heq |]; [by apply temporary_path_not_lock in Heq |].
  split; [set_solver |]. split; [by eapply signed_encoding |].
  intros [u | e]; [| discard sequence].
  apply wp_bind, wp_read_owner; [discard sequence |]. intros latest.
  destruct (negb _); [discard sequence |]. prog_step.
  split; [by exists sequence |]. split; [done |]. split; [done |]. split; [discard sequence |].
  intros file'. intros [f | e]; (split; [by eexists | by split; cbn]).
Qed.

Lemma wp_checkpoint l phase evidence indeterminate own K :
  still_held own l →
  wp (checkpoint l phase evidence indeterminate) own K (λ own _ r, still_held own r.2).
Proof.
  intros Hl. pose proof Hl as [Hown [Hpath Hpid]]. unfold checkpoint.
  apply wp_bind, wp_read_owner; [done |]. intros existing. destruct (negb _); [done |].
  prog_step. intros now.
  destruct (bounded_owner _) as [encoded owner] eqn:Hb.
  assert (still_held own (with_owner l owner)) as Hl'.
  { split; [done |]. split; [done |]. apply bounded_owner_pid in Hb. cbn. by rewrite Hb. }
  destruct encoded as [bytes | e]; [| done]. apply bounded_owner_bytes in Hb.
  destruct (lk_file _); [by apply wp_persist | done].
Qed.

Lemma wp_release_inner l own K :
  held = false → still_held own l →
  wp (release_inner l) own K (λ own _ r, match r with Ok _ => True | Err _ => still_held own l end).
Proof.
  intros Hheld Hl. pose proof Hl as [Hown [Hpath Hpid]]. unfold release_inner.
  apply wp_bind, wp_bind, wp_read_owner; [done |]. intros o. cbn. destruct (negb _); [done |].
  cbn. rewrite Hpath. left. split; [done |]. by split_and!.
Qed.

Lemma wp_drop_lock l own K : held = false → still_held own l → wp (drop_lock l) own K (λ _ _ _, True).
Proof.
  intros Hheld [Hown [Hpath Hpid]]. unfold drop_lock.
  apply wp_bind, wp_read_owner; [done |]. intros o. destruct (String.eqb _ _); [| done].
  cbn. rewrite Hpath. left. split; [done |]. by split_and!.
Qed.

Lemma wp_release l own K : held = false → still_held own l → wp (release l) own K (λ _ _ _, True).
Proof.
  intros Hheld Hl. unfold release. apply wp_bind. eapply wp_mono; [| by apply wp_release_inner].
  intros own' K' [u | e]; [done |]. intros Hl'. apply wp_bind.
  eapply wp_mono; [| by apply wp_drop_lock]. done.
Qed.

Lemma wp_inspect stale own K : wp (inspect_lock stale) own K (keeps_own own).
Proof.
  unfold inspect_lock. apply wp_bind, wp_lock_path; [| done]. prog_step.
  intros [modified | []]; try done.
  apply wp_bind, wp_bind, wp_read_owner; [done |]. intros o. apply wp_bind, wp_lock_age. intros age.
  by apply wp_bind, wp_process_is_alive; [set_solver | ..].
Qed.

Lemma wp_recover_stale stale token own K : wp (recover_stale_lock stale token) own K (keeps_own own).
Proof.
  unfold recover_stale_lock. destruct (str_is_empty _); [done |].
  apply wp_bind. eapply wp_mono; [| apply wp_inspect]. intros own' K' [status | e] ->; [| done].
  destruct (st_owner status), (st_age_secs status); try done.
  do 4 (case_match; [done |]).
  apply wp_bind, wp_lock_path; [| done]. apply wp_bind, wp_bind, wp_read_owner; [done |]. intros latest. prog_step.
  destruct (_ || _); [done |].
  apply wp_bind, wp_process_is_alive; [set_solver | done | done |].
  cbn. left. split; [done |]. split; [set_solver |]. by intros [].
Qed.
End handlers.
