(* ===== verification/LockExclusion.v ===== *)
(** The invariant of the processes that share the operation lock: who holds a
    guard owns the file under the lock's name, and a recovery removes the file
    of a dead process only. *)

From Stdlib Require Import Ascii String.
From S2P Require Import Prelude Text TextProofs Model Files Programs OperationLock LockSystem LockProofs.

#[local] Open Scope string_scope.
#[local] Open Scope list_scope.
#[local] Open Scope nat_scope.
#[local] Open Scope prog_scope.

Section exclusion.
Context {Value : Type} `{!LockCodec Value, !LockCodecLaws Value} (common_dir : Path).

#[local] Abbreviation lock := (the_lock common_dir).
#[local] Abbreviation System := (LockSystem Value).
Implicit Types (s : System) (p q : N) (file : Inode).

Definition creator s file : option N := fst <$> sy_inodes s !! file.

(** The files of the system. *)
Record files_ok s : Prop := {
  fo_created : ∀ path file, sy_names s !! path = Some file → is_Some (creator s file);
  fo_allocated : ∀ file p, creator s file = Some p → (file < sy_next s)%N ∧ p ∈ sy_used s;
  fo_signed : ∀ file p bytes o, sy_inodes s !! file = Some (p, bytes) →
    decode_owner (Value := Value) (take MAX_OWNER_BYTES bytes) = Some o → ow_pid o = p;
  fo_temporary : ∀ p n file, sy_names s !! temporary_path lock p n = Some file → creator s file = Some p }.

(** What process [p] owns and knows is so. *)
Record knows s p (own : option Inode) (K : Knows) : Prop := {
  ks_own : ∀ file, own = Some file → sy_names s !! lock = Some file ∧ creator s file = Some p;
  ks_mine : ∀ file, file ∈ kn_mine K → creator s file = Some p;
  ks_seen : kn_seen K ⊆ sy_used s;
  ks_dead : ∀ q, q ∈ kn_dead K → q ∈ sy_used s ∧ sy_agents s !! q = None }.

(** A change of the system that another process does not notice, apart from
    the name of the lock. *)
Record quiet s s' : Prop := {
  qu_created : ∀ file p, creator s file = Some p → creator s' file = Some p;
  qu_used : sy_used s ⊆ sy_used s';
  qu_dead : ∀ q, q ∈ sy_used s → sy_agents s !! q = None → sy_agents s' !! q = None }.

#[global] Instance quiet_refl : Reflexive quiet.
Proof. by split. Qed.
#[global] Instance quiet_trans : Transitive quiet.
Proof. intros s1 s2 s3 [] []. split; set_solver. Qed.

Lemma knows_quiet s s' p own K :
  quiet s s' → (own ≠ None → sy_names s' !! lock = sy_names s !! lock) →
  knows s p own K → knows s' p own K.
Proof.
  intros [Hc Hu Hd] Hn [Hown Hmine Hseen Hdead]. split.
  - intros file ->. destruct (Hown file eq_refl) as [? ?]. rewrite Hn by done. auto.
  - auto.
  - by transitivity (sy_used s).
  - intros q [? ?]%Hdead. auto.
Qed.

Lemma knows_disown s p own K : knows s p own K → knows s p None K.
Proof. intros []. by split. Qed.

Lemma knows_owner s p own K file :
  knows s p own K → sy_names s !! lock = Some file → creator s file = Some p → knows s p (Some file) K.
Proof. intros [] Hname Hcreator. split; try done. by intros g [= <-]. Qed.

Lemma knows_nothing s p own K : knows s p own K → knows s p own (mkKnows ∅ ∅ ∅).
Proof. intros []. split; cbn; [done | set_solver..]. Qed.

(** Two processes do not own the lock. *)
Lemma owner_unique s p q own own' K K' :
  knows s p own K → knows s q own' K' → is_Some own → is_Some own' → p = q.
Proof.
  intros [Hp _ _ _] [Hq _ _ _] [f ->] [g ->].
  destruct (Hp f eq_refl) as [? ?], (Hq g eq_refl) as [? ?]. congruence.
Qed.

(** ** The operations *)

Lemma creator_put file bytes s g : creator (put_inode file bytes s) g = creator s g.
Proof.
  unfold put_inode, creator. destruct (sy_inodes s !! file) as [[p old] |] eqn:Hf; [| done]. cbn.
  destruct (decide (g = file)) as [-> |]; [by rewrite lookup_insert_eq, Hf | by rewrite lookup_insert_ne].
Qed.

Lemma put_quiet file bytes s : quiet s (put_inode file bytes s).
Proof.
  split; [intros g p; by rewrite creator_put | ..]; unfold put_inode; by destruct (sy_inodes s !! file) as [[] |].
Qed.

Lemma put_names file bytes s : sy_names (put_inode file bytes s) = sy_names s.
Proof. unfold put_inode. by destruct (sy_inodes s !! file) as [[] |]. Qed.

Lemma put_files_ok file bytes s p :
  files_ok s → creator s file = Some p →
  (∀ o, decode_owner (take MAX_OWNER_BYTES bytes) = Some o → ow_pid o = p) →
  files_ok (put_inode file bytes s).
Proof.
  intros [Hc Ha Hs Ht] Hfile Hsigned. split.
  - intros path g. rewrite put_names, creator_put. apply Hc.
  - intros g q. rewrite creator_put. intros [? ?]%Ha.
    unfold put_inode. by destruct (sy_inodes s !! file) as [[] |].
  - intros g q bytes' o. unfold put_inode. unfold creator in Hfile.
    destruct (sy_inodes s !! file) as [[p' old] |] eqn:Hf; [| done]. cbn in Hfile |- *. simplify_eq.
    destruct (decide (g = file)) as [-> |].
    + rewrite lookup_insert_eq. intros [= <- <-]. apply Hsigned.
    + rewrite lookup_insert_ne by done. apply Hs.
  - intros q n g. rewrite put_names, creator_put. apply Ht.
Qed.

Lemma signed_take bytes p n : signed (Value := Value) p bytes →
  ∀ o, decode_owner (take MAX_OWNER_BYTES (take n bytes)) = Some o → ow_pid o = p.
Proof. intros H o. apply H. Qed.

Lemma signed_all bytes p : signed (Value := Value) p bytes →
  ∀ o, decode_owner (take MAX_OWNER_BYTES bytes) = Some o → ow_pid o = p.
Proof. intros H o Hd. apply (H (length bytes)). by rewrite firstn_all. Qed.

Definition create_file p path s : System :=
  mkSystem (<[path := sy_next s]> (sy_names s)) (<[sy_next s := (p, [])]> (sy_inodes s))
    (sy_next s + 1)%N (sy_used s) (sy_sequences s) (sy_agents s).

Lemma creator_create p path s file :
  creator (create_file p path s) file = if decide (file = sy_next s) then Some p else creator s file.
Proof.
  unfold creator, create_file. cbn. destruct (decide _) as [-> |].
  - by rewrite lookup_insert_eq.
  - by rewrite lookup_insert_ne.
Qed.

Lemma next_fresh s : files_ok s → creator s (sy_next s) = None.
Proof.
  intros Hs. destruct (creator s (sy_next s)) as [p |] eqn:H; [| done].
  apply (fo_allocated _ Hs) in H. lia.
Qed.

Lemma create_quiet p path s : files_ok s → quiet s (create_file p path s).
Proof.
  intros Hs. split; [| done | done]. intros file q Hf. rewrite creator_create.
  destruct (decide _) as [-> |]; [by rewrite next_fresh in Hf | done].
Qed.
Lemma create_files_ok p path s :
  files_ok s → p ∈ sy_used s → path = lock ∨ (∃ n, path = temporary_path lock p n) →
  files_ok (create_file p path s).
Proof.
  intros Hs Hp Hpath. pose proof (create_quiet p path s Hs) as [Hquiet _ _]. split.
  - intros other file. cbn. rewrite creator_create. destruct (decide _); [done |].
    intros [[_ <-] | [_ H]]%lookup_insert_Some; [done | by eapply fo_created].
  - intros file q. rewrite creator_create. cbn. destruct (decide _) as [-> |].
    + intros [= <-]. split; [lia | done].
    + intros [? ?]%(fo_allocated _ Hs). split; [lia | done].
  - intros file q bytes o. cbn. intros [[<- [= <- <-]] | [_ H]]%lookup_insert_Some; [| by eapply fo_signed].
    rewrite take_nil. by rewrite (decode_empty (Value := Value)).
  - intros q n file. cbn. rewrite creator_create. intros [[Heq <-] | [_ H]]%lookup_insert_Some.
    + rewrite decide_True by done. destruct Hpath as [-> | [m ->]].
      * by symmetry in Heq; apply temporary_path_not_lock in Heq.
      * by apply temporary_path_pid in Heq as ->.
    + apply (fo_temporary _ Hs) in H. destruct (decide _) as [-> |]; [by rewrite next_fresh in H | done].
Qed.

(** The names changed, and every name still leads to a file of its kind. *)
Lemma names_files_ok s names :
  files_ok s →
  (∀ path file, names !! path = Some file →
    sy_names s !! path = Some file
    ∨ path = lock ∧ is_Some (creator s file)) →
  files_ok (set_names names s).
Proof.
  intros [Hc Ha Hs Ht] Hnames. split; [| exact Ha | exact Hs |].
  - intros path file [H | [_ H]]%Hnames; [by eapply Hc | exact H].
  - intros p n file [H | [H _]]%Hnames; [by eapply Ht |].
    by apply temporary_path_not_lock in H.
Qed.

Lemma names_quiet s names : quiet s (set_names names s).
Proof. by split. Qed.

(** ** One operation *)

(** The answer of an operation agrees with what was proved for it, and the
    operation leaves the other processes what they own. *)
Record answered (p : N) (held : bool) (s s' : System) (own : option Inode) (K : Knows)
    (P : option Inode → Knows → Prop) : Prop := {
  an_files : files_ok s';
  an_agents : sy_agents s' = sy_agents s;
  an_quiet : quiet s s';
  an_others : ∀ q own K, q ≠ p → is_Some (sy_agents s !! q) → knows s q own K → knows s' q own K;
  an_after : ∃ own' K', knows s' p own' K' ∧ P own' K' ∧ (held = true → is_Some own → is_Some own') }.

(** An operation that changes no name of the lock. *)
Lemma answered_quiet p held s s' own K own' K' (P : option Inode → Knows → Prop) :
  files_ok s' → sy_agents s' = sy_agents s → quiet s s' → sy_names s' !! lock = sy_names s !! lock →
  knows s p own K → (knows s' p own K → knows s' p own' K') → (held = true → is_Some own → is_Some own') →
  P own' K' → answered p held s s' own K P.
Proof.
  intros Hfiles Hagents Hquiet Hlock Hknows Hafter Hheld HP. split; try done.
  - intros q ownq Kq _ _. by apply knows_quiet.
  - exists own', K'. split; [| done]. apply Hafter. by apply (knows_quiet s).
Qed.

Lemma answered_same p held s own K (P : option Inode → Knows → Prop) :
  files_ok s → knows s p own K → P own K → answered p held s s own K P.
Proof. intros. by eapply (answered_quiet _ _ _ _ _ _ own K). Qed.

(** An operation while no other process owns the lock. *)
Lemma answered_alone p held s s' own K own' K' (P : option Inode → Knows → Prop) :
  files_ok s' → sy_agents s' = sy_agents s → quiet s s' →
  (∀ q ownq Kq, q ≠ p → is_Some (sy_agents s !! q) → knows s q ownq Kq → is_Some ownq → False) →
  knows s' p own' K' → (held = true → is_Some own → is_Some own') →
  P own' K' → answered p held s s' own K P.
Proof.
  intros Hfiles Hagents Hquiet Halone Hafter Hheld HP. split; try done.
  - intros q ownq Kq Hq Hlive Hother. apply (knows_quiet s); [done | | done]. intros Hnone.
    destruct ownq as [f |]; [| done]. by destruct (Halone q (Some f) Kq).
  - exists own', K'. auto.
Qed.

Lemma owner_alone s p own K :
  knows s p own K → is_Some own →
  ∀ q ownq Kq, q ≠ p → is_Some (sy_agents s !! q) → knows s q ownq Kq → is_Some ownq → False.
Proof. intros Hp Hown q ownq Kq Hq _ Hother Hownq. destruct Hq. by eapply owner_unique. Qed.

Lemma free_alone s p :
  sy_names s !! lock = None →
  ∀ q ownq Kq, q ≠ p → is_Some (sy_agents s !! q) → knows s q ownq Kq → is_Some ownq → False.
Proof. intros Hfree q ownq Kq _ _ [Hown _ _ _] [f ->]. destruct (Hown f eq_refl). congruence. Qed.

(** The lock of a dead process is no other's. *)
Lemma dead_alone s file o :
  files_ok s → sy_names s !! lock = Some file → owner_at s lock = Some o → sy_agents s !! ow_pid o = None →
  ∀ q ownq Kq, is_Some (sy_agents s !! q) → knows s q ownq Kq → is_Some ownq → False.
Proof.
  intros Hfiles Hname Howner Hdead q ownq Kq Hlive [Hown _ _ _] [f ->].
  destruct (Hown f eq_refl) as [Hname' Hcreator]. simplify_eq. unfold owner_at in Howner. rewrite Hname in Howner. cbn in Howner.
  unfold creator in Hcreator. destruct (sy_inodes s !! file) as [[p' bytes] |] eqn:Hf; [| done]. cbn in Hcreator, Howner. simplify_eq.
  rewrite <- (fo_signed _ Hfiles _ _ _ _ Hf Howner) in Hlive. rewrite Hdead in Hlive. by destruct Hlive.
Qed.

(** *** The operations that change files *)

Lemma create_sound p held c path s own K Φ :
  files_ok s → p ∈ sy_used s → knows s p own K → op_wp common_dir p held (OpCreateNew path) own K Φ →
  match exec_op common_dir p c (OpCreateNew path) s with
  | (Some r, s') => answered p held s s' own K (λ own K, Φ own K r)
  | (None, s') => False
  end.
Proof.
  intros Hfiles Hused Hk [Hpath [Herr Hok]]. cbn.
  destruct (cz_fault c) as [e |]; [by apply answered_same |].
  destruct (sy_names s !! path) as [file |] eqn:Hname; [by apply answered_same |].
  fold (create_file p path s). pose proof (create_quiet p path s Hfiles) as Hquiet.
  pose proof (create_files_ok p path s Hfiles Hused Hpath) as Hfiles'.
  assert (∀ own', (∀ file, own' = Some file → sy_names (create_file p path s) !! lock = Some file
      ∧ creator (create_file p path s) file = Some p) →
    knows (create_file p path s) p own' (know_mine (sy_next s) K)) as Hafter.
  { intros own' Hown'. pose proof (knows_disown _ _ _ _ Hk) as Hnone.
    apply (knows_quiet _ (create_file p path s)) in Hnone as [_ Hmine Hseen Hdead]; [| done | done].
    split; [done | | done | done]. intros file [->%elem_of_singleton | ?]%elem_of_union; [| auto].
    rewrite creator_create. by rewrite decide_True. }
  specialize (Hok (sy_next s)). destruct (decide (path = lock)) as [-> | Hne].
  - eapply answered_alone; [done | done | done | by apply free_alone | apply Hafter | done | exact Hok].
    intros file [= <-]. rewrite creator_create. cbn. by rewrite lookup_insert_eq, decide_True.
  - eapply answered_quiet; [done | done | done | | exact Hk | | | exact Hok].
    + cbn. by rewrite lookup_insert_ne.
    + intros Hk'. apply Hafter, Hk'.
    + done.
Qed.

Lemma write_sound p held c file bytes s own K Φ :
  files_ok s → knows s p own K → op_wp common_dir p held (OpWriteSync file bytes) own K Φ →
  match exec_op common_dir p c (OpWriteSync file bytes) s with
  | (Some r, s') => answered p held s s' own K (λ own K, Φ own K r)
  | (None, s') => answered p held s s' own K (λ own K, op_wp common_dir p held (OpWriteSync file bytes) own K Φ)
  end.
Proof.
  intros Hfiles Hk [Hmine [Hsigned Hok]]. pose proof (ks_mine _ _ _ _ Hk file Hmine) as Hcreator.
  assert (∀ bytes' (P : option Inode → Knows → Prop),
    (∀ o, decode_owner (take MAX_OWNER_BYTES bytes') = Some o → ow_pid o = p) → P own K →
    answered p held s (put_inode file bytes' s) own K P) as Hput.
  { intros bytes' P Hbytes HP. eapply answered_quiet; [by eapply put_files_ok | | apply put_quiet | by rewrite put_names | ..]; try done.
    unfold put_inode. by destruct (sy_inodes s !! file) as [[] |]. }
  cbn. destruct (cz_shown c) as [n |]; [| destruct (cz_fault c) as [e |]].
  - apply Hput; [by apply signed_take | by split_and!].
  - apply Hput; [by apply signed_take | done].
  - apply Hput; [by apply signed_all | done].
Qed.

Lemma remove_names_ok s path : files_ok s → files_ok (set_names (delete path (sy_names s)) s).
Proof. intros Hs. apply names_files_ok; [done |]. intros other file [_ H]%lookup_delete_Some. by left. Qed.

Lemma remove_sound p held c path validated s own K Φ :
  files_ok s → is_Some (sy_agents s !! p) → knows s p own K → exact_removal s (OpRemove path validated) = true →
  op_wp common_dir p held (OpRemove path validated) own K Φ →
  match exec_op common_dir p c (OpRemove path validated) s with
  | (Some r, s') => answered p held s s' own K (λ own K, Φ own K r)
  | (None, s') => False
  end.
Proof.
  intros Hfiles Hlive Hk Hexact Hop. cbn in Hexact, Hop |- *.
  assert (∀ e, Φ own K (Err e)) as Herr.
  { intros e. destruct Hop as [[_ H] | [_ H]]; [destruct validated; destruct_and?; auto | auto]. }
  destruct (cz_fault c) as [e |]; [by apply answered_same |].
  destruct (sy_names s !! path) as [file |] eqn:Hname; [| by apply answered_same].
  pose proof (remove_names_ok s path Hfiles) as Hfiles'.
  pose proof (names_quiet s (delete path (sy_names s))) as Hquiet.
  destruct Hop as [[-> H] | [[n ->] H]].
  - destruct validated as [o |].
    + destruct H as [Hdead H]. apply bool_decide_eq_true in Hexact.
      apply (ks_dead _ _ _ _ Hk) in Hdead as [_ Hdead].
      pose proof (dead_alone s file o Hfiles Hname Hexact Hdead) as Halone.
      eapply (answered_alone _ _ _ _ own K own K); [done | done | done | by intros q ownq Kq _; apply Halone | | done | apply H].
      eapply knows_quiet; [done | | exact Hk]. intros Hsome. destruct own as [f |]; [| done].
      by destruct (Halone p (Some f) K).
    + destruct H as [-> [Hown [Hok _]]].
      eapply (answered_alone _ _ _ _ own K None K); [done | done | done | by eapply owner_alone | | done | exact Hok].
      eapply knows_quiet; [done | | by eapply knows_disown]. done.
  - eapply (answered_quiet _ _ _ _ own K own K); [done | done | done | | exact Hk | | | apply H]; try done.
    cbn. apply lookup_delete_ne, temporary_path_not_lock.
Qed.

Lemma rename_sound p held c source target s own K Φ :
  files_ok s → knows s p own K → op_wp common_dir p held (OpRename source target) own K Φ →
  match exec_op common_dir p c (OpRename source target) s with
  | (Some r, s') => answered p held s s' own K (λ own K, Φ own K r)
  | (None, s') => False
  end.
Proof.
  intros Hfiles Hk [[n ->] [-> [Hown [Herr Hok]]]]. cbn.
  destruct (cz_fault c) as [e |]; [by apply answered_same |].
  destruct (sy_names s !! temporary_path lock p n) as [file |] eqn:Hname; [| by apply answered_same].
  pose proof (fo_temporary _ Hfiles _ _ _ Hname) as Hcreator.
  eapply (answered_alone _ _ _ _ own K (Some file) K); [| done | apply names_quiet | by eapply owner_alone | | done | apply Hok].
  - apply names_files_ok; [done |]. intros path g H. apply lookup_insert_Some in H as [[<- <-] | [_ H]].
    + right. split; [done |]. by rewrite Hcreator.
    + left. by apply lookup_delete_Some in H as [_ H].
  - eapply knows_owner; [| cbn; apply lookup_insert_eq | exact Hcreator].
    eapply (knows_quiet s _ p None); [apply names_quiet | done | by eapply knows_disown].
Qed.

(** *** The operations that ask *)

Lemma learn_sound s p own K path file p' bytes :
  files_ok s → knows s p own K → sy_names s !! path = Some file → sy_inodes s !! file = Some (p', bytes) →
  knows s p own (learn (Value := Value) bytes K).
Proof.
  intros Hfiles Hk _ Hf. unfold learn. destruct (decode_owner _) as [o |] eqn:Ho; [| done].
  destruct Hk as [Hown Hmine Hseen Hdead]. split; cbn; try done.
  rewrite (fo_signed _ Hfiles _ _ _ _ Hf Ho). apply union_subseteq. split; [| done].
  apply singleton_subseteq_l. apply (fo_allocated _ Hfiles file). unfold creator. by rewrite Hf.
Qed.

(** Every operation, where a recovery removes the file it validated. *)
Lemma exec_sound p held c {R} (op : LockOp Value R) s own K Φ :
  files_ok s → is_Some (sy_agents s !! p) → p ∈ sy_used s → knows s p own K →
  exact_removal s op = true → op_wp common_dir p held op own K Φ →
  match exec_op common_dir p c op s with
  | (Some r, s') => answered p held s s' own K (λ own K, Φ own K r)
  | (None, s') => answered p held s s' own K (λ own K, op_wp common_dir p held op own K Φ)
  end.
Proof.
  intros Hfiles Hlive Hused Hk Hexact Hop.
  assert (∀ P : option Inode → Knows → Prop, P own K → answered p held s s own K P) as Hsame.
  { intros P HP. by apply answered_same. }
  destruct op; cbn in Hop; try (apply Hsame, Hop).
  - destruct Hop as [Hok Herr]. cbn. destruct (cz_fault c); apply Hsame; [apply Herr | apply Hok].
  - cbn. eapply (answered_quiet _ _ _ _ own K own K); [| done | done | done | done | | done | apply Hop].
    + destruct Hfiles. by split.
    + done.
  - pose proof (create_sound p held c path s own K Φ Hfiles Hused Hk Hop) as H.
    by destruct (exec_op _ _ _ _ _) as [[] ?].
  - by apply write_sound.
  - destruct Hop as [Herr Hok]. cbn. destruct (cz_fault c); [by apply Hsame |].
    destruct (sy_names s !! path) as [file |] eqn:Hname; cbn; [| by apply Hsame].
    destruct (sy_inodes s !! file) as [[p' bytes] |] eqn:Hf; [| by apply Hsame].
    apply (answered_quiet _ _ _ _ own K own (learn (Value := Value) bytes K)); try done.
    intros _. by eapply learn_sound.
  - destruct Hop as [Herr [Htrue Hfalse]]. cbn. destruct (cz_fault c); [by apply Hsame |].
    destruct (bool_decide_reflect (is_Some (sy_agents s !! pid))) as [| Hdead]; [by apply Hsame |].
    destruct Hfalse as [[Hseen Hfalse] | Hfalse]; [| by apply Hsame].
    apply (answered_quiet _ _ _ _ own K own (know_dead pid K)); try done.
    intros [Hown Hmine Hse Hd]. split; cbn; try done. intros q [->%elem_of_singleton | ?]%elem_of_union; [| auto].
    split; [set_solver |]. by apply eq_None_not_Some.
  - pose proof (remove_sound p held c path validated s own K Φ Hfiles Hlive Hk Hexact Hop) as H.
    by destruct (exec_op _ _ _ _ _) as [[] ?].
  - pose proof (rename_sound p held c source target s own K Φ Hfiles Hk Hop) as H.
    by destruct (exec_op _ _ _ _ _) as [[] ?].
Qed.

(** ** The system *)

Definition guarded {A} (guard : option A) : bool := match guard with Some _ => true | None => false end.

Definition returns p own (K : Knows) (out : option (OperationLock Value)) : Prop :=
  ∀ l, out = Some l → still_held common_dir p own l.

Definition agent_ok s p (a : Agent Value) : Prop :=
  ∃ own K, knows s p own K ∧ returns p own K (ag_guard a)
  ∧ ∀ code, ag_code a = Some code → wp common_dir p (guarded (ag_guard a)) code own K (returns p).

Record system_ok s : Prop := {
  so_files : files_ok s;
  so_agents : ∀ p a, sy_agents s !! p = Some a → p ∈ sy_used s ∧ agent_ok s p a }.

Lemma agent_quiet s s' p a :
  quiet s s' → sy_names s' !! lock = sy_names s !! lock → agent_ok s p a → agent_ok s' p a.
Proof. intros Hq Hn (own & K & Hk & Ha). exists own, K. split; [| done]. by eapply knows_quiet. Qed.

(** A handler that is called begins with what it may assume. *)
Lemma started_ok s p guard call a :
  agent_ok s p (mkAgent guard None) → started p guard call = Some a → agent_ok s p a.
Proof.
  intros (own & K & Hk & Hguard & _) Hs. cbn in Hguard.
  assert (∀ own' guard' (code : Prog (LockOp Value) (option (OperationLock Value))),
    knows s p own' K → returns p own' K guard' → wp common_dir p (guarded guard') code own' K (returns p) →
    agent_ok s p (mkAgent guard' (Some code))) as Hagent.
  { intros own' guard' code Hk' Hr Hwp. exists own', K. split_and!; [done | done |]. by intros ? [= <-]. }
  destruct call, guard as [l |]; cbv beta iota delta [started] in Hs; simplify_eq.
  { apply (Hagent None); [by eapply knows_disown | done |]. apply wp_bind.
    eapply wp_mono; [| by apply wp_acquire]. intros own' K' [l | e] H; [| done]. by intros ? [= <-]. }
  all: apply (Hagent own); [done | done |]; apply wp_bind; try specialize (Hguard l eq_refl).
  - eapply wp_mono; [| by apply wp_checkpoint]. intros own' K' r H. by intros ? [= <-].
  - eapply wp_mono; [| by apply wp_release]. done.
  - eapply wp_mono; [| by apply wp_drop_lock]. done.
  - eapply wp_mono; [| apply wp_inspect]. intros own' K' r ->. by intros ? [= <-].
  - eapply wp_mono; [| apply wp_inspect]. done.
  - eapply wp_mono; [| apply wp_recover_stale]. intros own' K' r ->. by intros ? [= <-].
  - eapply wp_mono; [| apply wp_recover_stale]. done.
Qed.

(** The agents changed: those that died, and those that are as they should. *)
Lemma agents_system_ok s agents used :
  system_ok s → sy_used s ⊆ used →
  (∀ q, q ∈ sy_used s → sy_agents s !! q = None → agents !! q = None) →
  (∀ q a, agents !! q = Some a → q ∈ used ∧ (sy_agents s !! q = Some a ∨ agent_ok s q a)) →
  system_ok (mkSystem (sy_names s) (sy_inodes s) (sy_next s) used (sy_sequences s) agents).
Proof.
  intros [[Hc Ha Hs Ht] Hagents] Hused Hdead Hnew. split.
  - split; [exact Hc | | exact Hs | exact Ht]. intros file p [? ?]%Ha. split; [done | by apply Hused].
  - intros q a [Hq H]%Hnew. split; [done |]. apply (agent_quiet s); [by split | done |].
    destruct H as [[_ ?]%Hagents | ?]; done.
Qed.

(** The process goes on with what the operation left it. *)
Lemma answered_system_ok p guard old code s s1 own K (P : option Inode → Knows → Prop) :
  system_ok s → sy_agents s !! p = Some (mkAgent guard (Some old)) → returns p own K guard →
  answered p (guarded guard) s s1 own K P →
  (∀ own K, P own K → wp common_dir p (guarded guard) code own K (returns p)) →
  system_ok (set_agents (<[p := mkAgent guard (Some code)]> (sy_agents s1)) s1).
Proof.
  intros Hs Hp Hguard [Hfiles Hsame Hquiet Hothers (own' & K' & Hk & HP & Hheld)] Hcode.
  assert (sy_used s ⊆ sy_used s1) as Hused by apply Hquiet.
  split; [by destruct Hfiles |]. intros q a H.
  assert (∀ q a, agent_ok s1 q a →
    agent_ok (set_agents (<[p := mkAgent guard (Some code)]> (sy_agents s1)) s1) q a) as Htransport.
  { intros q' a'. apply agent_quiet; [| done]. split; [done | done |]. intros d _ Hd. cbn.
    rewrite lookup_insert_None. split; [done |]. intros ->. congruence. }
  cbn in H. apply lookup_insert_Some in H as [[<- <-] | [Hne H]].
  - split; [by apply Hused, (so_agents _ Hs _ _ Hp) |]. apply Htransport.
    exists own', K'. split; [done |]. cbn. split; [| intros ? [= <-]; by apply Hcode].
    intros l ->. destruct (Hguard l eq_refl) as [Hown Hgood]. split; [by apply Hheld | done].
  - rewrite Hsame in H. destruct (so_agents _ Hs _ _ H) as [Hq (ownq & Kq & Hkq & Ha)].
    split; [by apply Hused |]. apply Htransport. exists ownq, Kq. split; [| done].
    apply Hothers; [done | by rewrite H | done].
Qed.

Lemma lock_step_ok l s s' :
  system_ok s → exact_step l s = true → lock_step common_dir l s = Some s' → system_ok s'.
Proof.
  intros Hs Hexact Hstep. pose proof (so_agents _ Hs) as Hagents.
  assert (∀ p a a', sy_agents s !! p = Some a → agent_ok s p a' →
    system_ok (set_agents (<[p := a']> (sy_agents s)) s)) as Hset.
  { intros p a a' Hp Ha'. apply agents_system_ok; [done | done | |].
    - intros q _ Hq. rewrite lookup_insert_None. split; [done |]. intros ->. congruence.
    - intros q b H. apply lookup_insert_Some in H as [[<- <-] | [_ H]].
      + split; [by eapply Hagents | by right].
      + split; [by eapply Hagents | by left]. }
  destruct l as [p | p | p call | p c]; cbn in Hstep.
  - case_bool_decide as Hfresh; simplify_eq. apply agents_system_ok; [done | set_solver | |].
    + intros q Hq Hnone. rewrite lookup_insert_None. split; [done |]. by intros ->.
    + intros q a H. apply lookup_insert_Some in H as [[<- <-] | [_ H]].
      * split; [set_solver |]. right. exists None, (mkKnows ∅ ∅ ∅). split; [| done]. split; set_solver.
      * split; [apply Hagents in H; set_solver | by left].
  - destruct (sy_agents s !! p) as [old |]; simplify_eq. apply agents_system_ok; [done | done | |].
    + intros q _ Hq. rewrite lookup_delete_None. by right.
    + intros q a [_ H]%lookup_delete_Some. split; [by eapply Hagents | by left].
  - destruct (sy_agents s !! p) as [[guard [code |]] |] eqn:Hp; try done.
    destruct (started p guard call) as [a |] eqn:Ha; simplify_eq/=.
    eapply Hset; [exact Hp |]. eapply started_ok; [| exact Ha]. by eapply Hagents.
  - destruct (sy_agents s !! p) as [[guard [[out | R op k] |]] |] eqn:Hp; try done; simplify_eq;
      pose proof (Hagents _ _ Hp) as [Hused (own & K & Hk & Hguard & Hcode)]; specialize (Hcode _ eq_refl).
    + eapply Hset; [exact Hp |]. by exists own, K.
    + cbn in Hexact. rewrite Hp in Hexact.
      pose proof (exec_sound p (guarded guard) c op s own K _ (so_files _ Hs) ltac:(by rewrite Hp) Hused Hk Hexact Hcode) as Hop.
      destruct (exec_op common_dir p c op s) as [[r |] s1].
      * injection Hstep as <-. eapply answered_system_ok; [exact Hs | exact Hp | exact Hguard | exact Hop | done].
      * injection Hstep as <-.
        assert (set_agents (<[p := mkAgent guard (Some (Vis op k))]> (sy_agents s1)) s1 = s1) as <-.
        { rewrite insert_id by by rewrite (an_agents _ _ _ _ _ _ _ Hop). by destruct s1. }
        eapply answered_system_ok; [exact Hs | exact Hp | exact Hguard | exact Hop | done].
Qed.

Lemma lock_run_ok schedule s s' :
  system_ok s → exact_run common_dir s schedule = true → lock_run common_dir s schedule = Some s' → system_ok s'.
Proof.
  revert s. induction schedule as [| l rest IH]; intros s Hs; cbn; [by intros _ [= <-] |].
  intros [Hl Hrest]%andb_true_iff Hrun.
  destruct (lock_step common_dir l s) as [s1 |] eqn:Hstep; [| done]. cbn in Hrun.
  eapply IH; [by eapply lock_step_ok | done | done].
Qed.

Lemma holders_owner s p :
  system_ok s → p ∈ holders s → ∃ own K, knows s p own K ∧ is_Some own.
Proof.
  intros Hs (x & Hp & Hx)%list_elem_of_bind. destruct x as [q [guard code]]. cbn in Hp.
  apply elem_of_map_to_list in Hx. destruct guard as [l |]; [| set_solver].
  apply list_elem_of_singleton in Hp as ->.
  apply (so_agents _ Hs) in Hx as [_ (own & K & Hk & Hguard & _)]. exists own, K.
  split; [done |]. by destruct (Hguard l eq_refl).
Qed.
End exclusion.
