(* ===== verification/LockAlone.v ===== *)
(** What the handlers of the operation lock do on a quiet repository: the
    outcome of an acquisition in every state of the lock, and its release. *)

From Stdlib Require Import Ascii String.
From S2P Require Import Prelude Text TextProofs Model Files Programs OperationLock LockSystem LockProofs LockExclusion.

#[local] Open Scope string_scope.
#[local] Open Scope list_scope.
#[local] Open Scope nat_scope.
#[local] Open Scope prog_scope.

Section alone.
Context {Value : Type} `{!LockCodec Value, !LockCodecLaws Value} (common_dir : Path).
Context (pid : N) (now : Z) (modified : option Z).

#[local] Abbreviation lock := (the_lock common_dir).
#[local] Abbreviation System := (LockSystem Value).
#[local] Abbreviation alone := (run_alone common_dir pid now modified).
Implicit Types (s : System).

Lemma alone_bind {A B} (p : Prog (LockOp Value) A) (f : A → Prog (LockOp Value) B) s :
  alone (pbind p f) s
  = match alone p s with (Some a, s) => alone (f a) s | (None, s) => (None, s) end.
Proof.
  revert s. induction p as [a | R op k IH]; intros s; cbn; [done |].
  destruct (exec_op common_dir pid _ op s) as [[r |] s']; [apply IH | done].
Qed.

Lemma alone_step {A B} (p : Prog (LockOp Value) A) (f : A → Prog (LockOp Value) B) s a s' :
  alone p s = (Some a, s') → alone (pbind p f) s = alone (f a) s'.
Proof. intros H. by rewrite alone_bind, H. Qed.

Lemma alone_try {A B E} (p : Prog (LockOp Value) (result A E)) (f : A → Prog (LockOp Value) (result B E)) s r s' :
  alone p s = (Some r, s') →
  alone (ebind p f) s = match r with Ok a => alone (f a) s' | Err e => (Some (Err e), s') end.
Proof. intros H. unfold ebind. rewrite alone_bind, H. by destruct r. Qed.

(** The process identifier of an owner, as the platform has them. *)
Definition pid_ok (q : N) : bool := negb ((q =? 0) || (2147483647 <? q))%N.
Definition alive s q : bool := bool_decide (is_Some (sy_agents s !! q)).

Lemma alone_probe q s :
  alone (process_is_alive q) s
  = (Some (if pid_ok q then Ok (alive s q) else Err (mkLockError LkValidation "operation_lock_pid_invalid")), s).
Proof. unfold process_is_alive, pid_ok. by destruct (_ || _). Qed.

Lemma alone_read path s :
  alone (read_owner path) s
  = (Some (match sy_names s !! path ≫= λ file, sy_inodes s !! file with
           | Some _ => ok_or (owner_at s path) InvalidData
           | None => Err NotFound
           end), s).
Proof.
  unfold owner_at, read_owner. cbn. destruct (sy_names s !! path) as [file |]; cbn; [| done].
  by destruct (sy_inodes s !! file) as [[p bytes] |].
Qed.

(** The age an owner's file shows. *)
Definition age_of (o : OperationLockOwner Value) : N :=
  match since now 0 with
  | Some wall => (secs wall - ow_created_unix_secs o)%N
  | None => match modified with None => 0%N | Some m => secs (default 0%N (since now m)) end
  end.

Lemma alone_age o s : alone (lock_age_secs modified o) s = (Some (age_of o), s).
Proof. unfold age_of. cbn. destruct (since now 0); [done |]. by destruct modified. Qed.

(** The state of the lock, as an acquisition finds it. *)
Inductive LockState := Absent | Unreadable | Unprobed | Held | Orphaned (o : OperationLockOwner Value).
Definition lock_state s : LockState :=
  match sy_names s !! lock with
  | None => Absent
  | Some _ =>
      match owner_at s lock with
      | None => Unreadable
      | Some o => if negb (pid_ok (ow_pid o)) then Unprobed else if alive s (ow_pid o) then Held else Orphaned o
      end
  end.

Definition remove_lock s : System := set_names (delete lock (sy_names s)) s.
Definition receipt_of (o : OperationLockOwner Value) := mkLockRecovery lock o (age_of o) false true.

Lemma alone_recover s :
  files_ok common_dir s →
  alone (recover_dead_owner_for_acquire lock) s
  = match lock_state s with
    | Absent => (Some (Ok Gone), s)
    | Unreadable => (Some (Err (lock_io_error "operation_lock_owner_invalid")), s)
    | Unprobed => (Some (Err (mkLockError LkValidation "operation_lock_pid_invalid")), s)
    | Held => (Some (Ok Live), s)
    | Orphaned o => (Some (Ok (Recovered (receipt_of o))), remove_lock s)
    end.
Proof.
  intros Hs. unfold recover_dead_owner_for_acquire, lock_state.
  erewrite alone_step by done. cbn [cz_fault cz_modified].
  destruct (sy_names s !! lock) as [file |] eqn:Hname; [| done].
  assert (is_Some (sy_inodes s !! file)) as [x Hx].
  { pose proof (fo_created _ _ Hs _ _ Hname) as H. by apply fmap_is_Some in H. }
  assert (alone (read_owner lock) s = (Some (ok_or (owner_at s lock) InvalidData), s)) as Hread.
  { rewrite alone_read, Hname. cbn. by rewrite Hx. }
  erewrite alone_step by apply Hread.
  destruct (owner_at s lock) as [o |] eqn:Ho; cbn [ok_or]; [| done].
  erewrite alone_try by apply alone_probe. destruct (pid_ok (ow_pid o)) eqn:Hpid; cbn [negb]; [| done].
  destruct (alive s (ow_pid o)) eqn:Halive; [done |].
  erewrite alone_step by apply Hread. cbn [ok_or].
  rewrite bool_decide_true, String.eqb_refl by done. cbn [negb orb].
  erewrite alone_try by apply alone_probe. rewrite Hpid, Halive.
  erewrite alone_try by (cbn; rewrite Hname; done). cbn.
  by erewrite alone_step by apply alone_age.
Qed.

(** ** Acquisition *)

Definition bump s : System :=
  mkSystem (sy_names s) (sy_inodes s) (sy_next s) (sy_used s)
    (<[pid := ((default 0 (sy_sequences s !! pid) + 1) mod 18446744073709551616)%N]> (sy_sequences s)) (sy_agents s).
Definition owner_for s (operation : string) : OperationLockOwner Value :=
  let created := default 0%N (since now 0) in
  mkOwner 1 pid operation (secs created)
    (fmt [show_N pid; "-"; show_N created; "-"; show_N (default 0%N (sy_sequences s !! pid))]) None.
Definition write_lock bytes s : System := put_inode (sy_next s) bytes (create_file pid lock s).

Lemma alone_create owner bytes stale n recovered s :
  sy_names s !! lock = None → encode_owner owner = Some bytes →
  alone (acquire_attempts lock owner stale (S n) recovered) s
  = (Some (Ok (mkLock lock owner (Some (sy_next s)) recovered)), write_lock bytes s).
Proof.
  intros Hname He. cbn [acquire_attempts]. erewrite alone_step by (cbn; by rewrite Hname). by rewrite He.
Qed.

Lemma alone_exists s file :
  sy_names s !! lock = Some file → alone (perform (OpCreateNew lock)) s = (Some (Err AlreadyExists), s).
Proof. intros Hname. cbn. by rewrite Hname. Qed.

Definition valid_operation (operation : string) : bool :=
  negb (str_is_empty (trim operation) || contains_char [line_feed; carriage_return] operation).

(** Which error a live owner's lock gives. *)
Definition live_owner_error (stale_after : N) : LockError :=
  mkLockError LkValidation
    (if (stale_after <=? default 0 (modified ≫= since now))%N then "stale_operation_lock" else "operation_lock_contended").

(** What an acquisition returns, in every state of the lock. *)
Definition acquire_outcome stale_after operation bytes s :=
  let took recovered s := (Some (Ok (mkLock lock (owner_for s operation) (Some (sy_next s)) recovered)),
                           write_lock bytes (bump s)) in
  match lock_state s with
  | Absent => took None s
  | Unreadable => (Some (Err (lock_io_error "operation_lock_owner_invalid")), bump s)
  | Unprobed => (Some (Err (mkLockError LkValidation "operation_lock_pid_invalid")), bump s)
  | Held => (Some (Err (live_owner_error stale_after)), bump s)
  | Orphaned o => took (Some (receipt_of o)) (remove_lock s)
  end.

Lemma alone_live_owner_error stale_after s file :
  files_ok common_dir s → sy_names s !! lock = Some file →
  alone (existing_lock_error lock stale_after) s = (Some (Ok (live_owner_error stale_after)), s).
Proof.
  intros Hs Hname. unfold existing_lock_error, live_owner_error. cbn. rewrite Hname.
  pose proof (fo_created _ _ Hs _ _ Hname) as H. apply fmap_is_Some in H as [[p b] Hx].
  destruct modified as [m |]; cbn; rewrite ?Hname; cbn; rewrite Hx; cbn; by destruct (_ <=? _)%N.
Qed.

Lemma acquire_outcome_sound operation stale_after bytes s :
  files_ok common_dir s → valid_operation operation = true → encode_owner (owner_for s operation) = Some bytes →
  alone (acquire_with_stale_after pid operation stale_after) s = acquire_outcome stale_after operation bytes s.
Proof.
  intros Hs Hop He. unfold acquire_with_stale_after.
  unfold valid_operation in Hop. destruct (_ || _); [done |].
  rewrite (alone_try lock_path _ s (Ok lock) s) by done. cbv beta iota. erewrite alone_try by done. cbv beta iota.
  erewrite (alone_step _ _ _ (owner_for s operation) (bump s)) by done.
  assert (files_ok common_dir (bump s)) as Hb by (destruct Hs; by split).
  assert (lock_state (bump s) = lock_state s) as Hstate by done.
  unfold acquire_outcome. destruct (sy_names s !! lock) as [file |] eqn:Hname.
  - cbn [acquire_attempts]. erewrite alone_step by by eapply alone_exists.
    cbv beta iota. pose proof (alone_recover (bump s) Hb) as Hr. rewrite Hstate in Hr.
    destruct (lock_state s) eqn:Hl; erewrite alone_try by exact Hr; try done.
    + unfold lock_state in Hl. rewrite Hname in Hl. repeat case_match; done.
    + cbv beta iota. by erewrite alone_step by by eapply alone_live_owner_error.
    + exact (alone_create _ bytes stale_after 1 (Some (receipt_of o)) (remove_lock (bump s)) (lookup_delete_eq _ _) He).
  - assert (lock_state s = Absent) as -> by (unfold lock_state; by rewrite Hname).
    exact (alone_create _ bytes stale_after 2 None (bump s) Hname He).
Qed.

(** An acquisition that runs alone, in every state of the lock: it takes an
    absent lock and that of a dead process, whose owner it reports; a live
    owner gives the contention or the staleness error, evidence that cannot be
    read or probed gives its own, and none of these changes a file. *)
Theorem acquire_alone operation stale_after bytes s :
  files_ok common_dir s → valid_operation operation = true → encode_owner (owner_for s operation) = Some bytes →
  alone (acquire_with_stale_after pid operation stale_after) s = acquire_outcome stale_after operation bytes s.
Proof. apply acquire_outcome_sound. Qed.

(** ** Release *)

Lemma write_lock_eq bytes s :
  write_lock bytes s
  = mkSystem (<[lock := sy_next s]> (sy_names s)) (<[sy_next s := (pid, bytes)]> (sy_inodes s))
      (sy_next s + 1)%N (sy_used s) (sy_sequences s) (sy_agents s).
Proof.
  unfold write_lock, put_inode. cbn [create_file sy_inodes]. rewrite lookup_insert_eq.
  unfold set_inodes, create_file. cbn. by rewrite insert_insert_eq.
Qed.

Lemma write_lock_owner owner bytes s :
  encode_owner owner = Some bytes → length bytes ≤ MAX_OWNER_BYTES →
  owner_at (write_lock bytes s) lock = Some owner.
Proof.
  intros He Hlen. rewrite write_lock_eq. unfold owner_at. cbn [sy_names sy_inodes].
  rewrite lookup_insert_eq. cbn [mbind option_bind]. rewrite lookup_insert_eq, take_ge by done.
  by apply owner_roundtrip.
Qed.

(** A guard whose lock is the one it wrote removes it. *)
Lemma alone_release l s :
  lk_path l = lock → owner_at s lock = Some (lk_owner l) →
  alone (release l) s = (Some (Ok ()), remove_lock s).
Proof.
  intros Hpath Ho. unfold release, release_inner, map_err. rewrite Hpath.
  assert (∃ file x, sy_names s !! lock = Some file ∧ sy_inodes s !! file = Some x) as (file & x & Hname & Hx).
  { unfold owner_at in Ho. destruct (sy_names s !! lock) as [file |]; [| done]. cbn in Ho.
    destruct (sy_inodes s !! file) as [x |] eqn:Hx; [| done]. by eexists file, x. }
  assert (alone (read_owner lock) s = (Some (Ok (lk_owner l)), s)) as Hread.
  { rewrite alone_read, Hname. cbn. by rewrite Hx, Ho. }
  rewrite alone_bind. unfold ebind at 1. rewrite !alone_bind, Hread.
  cbn [run_alone]. cbv beta iota. cbn [run_alone]. rewrite String.eqb_refl. cbn [negb].
  rewrite alone_bind. cbn. by rewrite Hname.
Qed.

(** C15. An acquisition and its release that run alone, on a repository whose
    lock is absent or is that of a dead process: the guard is the owner the file
    shows and carries the operation, the release finds it, and afterwards the
    names are exactly those that were there when the lock was absent, and those
    without the orphaned lock, which the guard reports as recovered, when it was
    not. *)
Theorem acquire_release operation stale_after bytes s :
  files_ok common_dir s → valid_operation operation = true →
  encode_owner (owner_for s operation) = Some bytes → length bytes ≤ MAX_OWNER_BYTES →
  (lock_state s = Absent ∨ ∃ o, lock_state s = Orphaned o) →
  ∃ l s' s'',
    alone (acquire_with_stale_after pid operation stale_after) s = (Some (Ok l), s')
    ∧ owner_at s' lock = Some (lk_owner l) ∧ ow_operation (lk_owner l) = operation
    ∧ alone (release l) s' = (Some (Ok ()), s'')
    ∧ match lock_state s with
      | Orphaned o => lk_recovered_dead_owner l = Some (receipt_of o) ∧ sy_names s'' = delete lock (sy_names s)
      | _ => lk_recovered_dead_owner l = None ∧ sy_names s'' = sy_names s
      end.
Proof.
  intros Hs Hop He Hlen Hstate.
  assert (∃ recovered t, sy_next t = sy_next s ∧ delete lock (sy_names t) = delete lock (sy_names s) ∧
    alone (acquire_with_stale_after pid operation stale_after) s
    = (Some (Ok (mkLock lock (owner_for s operation) (Some (sy_next s)) recovered)), write_lock bytes t)
    ∧ recovered = match lock_state s with Orphaned o => Some (receipt_of o) | _ => None end)
    as (recovered & t & Hnext & Hnames & Ha & Hrec).
  { rewrite (acquire_outcome_sound _ _ bytes) by done. unfold acquire_outcome.
    destruct Hstate as [-> | [o ->]].
    - by exists None, (bump s).
    - exists (Some (receipt_of o)), (bump (remove_lock s)). split; [done |]. split; [| done].
      cbn. by rewrite delete_delete_eq. }
  eexists _, _, _. split; [exact Ha |]. split; [by apply write_lock_owner |]. split; [done |].
  split; [apply alone_release; [done | by apply write_lock_owner] |].
  rewrite write_lock_eq. cbn. rewrite delete_insert_eq, Hnames, Hrec.
  assert (lock_state s = Absent → delete lock (sy_names s) = sy_names s) as Habsent.
  { unfold lock_state. intros Hl. apply delete_id. repeat case_match; done. }
  destruct Hstate as [Hl | [o Hl]]; rewrite Hl; [by rewrite Habsent | done].
Qed.
End alone.
