(* ===== verification/LockSample.v ===== *)
(** The operation lock on a small codec: mutual exclusion, and the race of two
    recoveries that it leaves. *)

From Stdlib Require Import Ascii String.
From S2P Require Import Prelude Text Model Files Programs OperationLock LockSystem LockProofs LockExclusion LockAlone.

#[local] Open Scope string_scope.
#[local] Open Scope list_scope.
#[local] Open Scope nat_scope.

(** ** A codec *)

(** An owner without a checkpoint is one number and an end mark. *)
#[local] Instance sample_codec : LockCodec unit := {
  value_eq := _;
  encode_owner o :=
    match ow_checkpoint o with
    | None =>
        Some [Npos (encode (ow_version o, ow_pid o, ow_operation o, ow_created_unix_secs o, ow_token o)); 0%N]
    | Some _ => None
    end;
  decode_owner bytes :=
    match bytes with
    | [Npos p; 0%N] =>
        (λ '(version, pid, operation, created, token), mkOwner version pid operation created token None)
          <$> decode p
    | _ => None
    end;
  value_bytes _ := [];
  value_object _ := None;
  value_array_len _ := None;
  compacted_evidence := tt;
  minimal_evidence := tt;
  digest_hex _ := "" }.

#[local] Instance sample_codec_laws : LockCodecLaws unit.
Proof.
  split.
  - done.
  - intros [version pid operation created token [c |]] bytes; cbn; [done |]. intros [= <-].
    by rewrite decode_encode.
  - intros [version pid operation created token [c |]] bytes n o; cbn; [done |]. intros [= <-].
    destruct n as [| [| n]]; cbn; [done | done |].
    rewrite take_nil, decode_encode. by intros [= <-].
Qed.

Definition repository : Path := mkPath true ["repo"; ".git"].

Definition fresh {Value} : LockSystem Value := mkSystem ∅ ∅ 0 ∅ ∅ ∅.

Lemma fresh_ok {Value} `{!LockCodec Value} common_dir : system_ok (Value := Value) common_dir fresh.
Proof.
  split; [split |]; cbn; unfold creator; cbn; intros *; rewrite ?lookup_empty; done.
Qed.

Definition quietly : Choice := mkChoice None lock_race None 0 5000000000 None.
(** So many operations of one process. *)
Definition go (p : N) (n : nat) : list (LockStep unit) := replicate n (Run p quietly).

(** A process writes the lock and is killed; the others wait for the owner's
    bytes, and one of them recovers the lock. *)
Definition handover : list (LockStep unit) :=
  [Spawn 1; Spawn 2; Spawn 3; Start 1 (CallAcquire "sync" DEFAULT_STALE_AFTER)] ++ go 1 7
  ++ [Start 2 (CallAcquire "sync" DEFAULT_STALE_AFTER)] ++ go 2 11 ++ [Kill 1]
  ++ [Start 3 (CallAcquire "watch" DEFAULT_STALE_AFTER)] ++ go 3 15.

(** Two processes have both found the owner dead before either removes it. *)
Definition recovery_race : list (LockStep unit) :=
  [Spawn 1; Spawn 2; Spawn 3; Start 1 (CallAcquire "sync" DEFAULT_STALE_AFTER)] ++ go 1 7 ++ [Kill 1]
  ++ [Start 2 (CallAcquire "sync" DEFAULT_STALE_AFTER); Start 3 (CallAcquire "watch" DEFAULT_STALE_AFTER)]
  ++ go 2 10 ++ go 3 10 ++ go 2 5 ++ go 3 5.

(** The process is killed after it created the file and before it wrote. *)
Definition killed_before_write : list (LockStep unit) :=
  [Spawn 1; Spawn 2; Start 1 (CallAcquire "sync" DEFAULT_STALE_AFTER)] ++ go 1 5 ++ [Kill 1].

(** C14. Mutual exclusion: from a repository without a lock, whatever the order
    of the operations of any number of processes, whichever of them fail or
    are killed and whatever a reader sees of a write in progress, at most one
    process holds a guard, provided that a recovery removes the file whose
    owner it validated. *)
Theorem lock_excludes {Value} `{!LockCodec Value, !LockCodecLaws Value} common_dir
    (schedule : list (LockStep Value)) s :
  exact_run common_dir fresh schedule = true → lock_run common_dir fresh schedule = Some s →
  ∀ p q, p ∈ holders s → q ∈ holders s → p = q.
Proof.
  intros Hexact Hrun p q Hp Hq.
  assert (system_ok common_dir s) as Hs by (eapply lock_run_ok; [apply fresh_ok | done | done]).
  destruct (holders_owner _ _ _ Hs Hp) as (own & K & Hk & Hown), (holders_owner _ _ _ Hs Hq) as (own' & K' & Hk' & Hown').
  by eapply owner_unique.
Qed.

Lemma lock_excludes_witness :
  ∃ s, lock_run repository fresh handover = Some s ∧ holders s = [3%N]
  ∧ ∀ p q, p ∈ holders s → q ∈ holders s → p = q.
Proof.
  assert (holders <$> lock_run repository fresh handover = Some [3%N]) as Hrun by (vm_compute; reflexivity).
  destruct (lock_run repository fresh handover) as [s |] eqn:Hs; [| discriminate].
  injection Hrun as Hrun. exists s. split; [done |]. split; [done |].
  apply (lock_excludes repository handover); [vm_compute; reflexivity | exact Hs].
Defined.

(** The proviso is needed: both recoveries of one dead owner succeed, and the
    second removes the lock the first has acquired. *)
Example recoveries_race :
  holders <$> lock_run repository fresh recovery_race = Some [2%N; 3%N]
  ∧ exact_run repository fresh recovery_race = false.
Proof. by vm_compute. Qed.

(** ** Handlers on a quiet repository *)

Definition after (schedule : list (LockStep unit)) : LockSystem unit :=
  default fresh (lock_run repository fresh schedule).

Lemma after_ok schedule : exact_run repository fresh schedule = true → files_ok repository (after schedule).
Proof.
  intros Hexact. unfold after. destruct (lock_run repository fresh schedule) as [s |] eqn:Hrun; cbn.
  - eapply lock_run_ok; [apply fresh_ok | done | done].
  - apply fresh_ok.
Qed.

(** The lock of a killed process. *)
Definition orphaned : LockSystem unit :=
  after ([Spawn 1; Spawn 2; Start 1 (CallAcquire "sync" DEFAULT_STALE_AFTER)] ++ go 1 7 ++ [Kill 1]).

Lemma acquire_alone_witness :
  ∃ o bytes, lock_state repository orphaned = Orphaned o ∧ ow_pid o = 1%N
  ∧ run_alone repository 2 6000000000 None (acquire_with_stale_after 2 "watch" DEFAULT_STALE_AFTER) orphaned
    = acquire_outcome repository 2 6000000000 None DEFAULT_STALE_AFTER "watch" bytes orphaned.
Proof.
  eexists _, _. split; [vm_compute; reflexivity |]. split; [reflexivity |].
  apply acquire_alone; [by apply after_ok; vm_compute | vm_compute; reflexivity | reflexivity].
Defined.

Lemma acquire_release_witness :
  ∃ o l s' s'',
    lock_state repository orphaned = Orphaned o
    ∧ run_alone repository 2 6000000000 None (acquire_with_stale_after 2 "watch" DEFAULT_STALE_AFTER) orphaned
      = (Some (Ok l), s')
    ∧ owner_at s' (the_lock repository) = Some (lk_owner l) ∧ ow_operation (lk_owner l) = "watch"
    ∧ run_alone repository 2 6000000000 None (release l) s' = (Some (Ok ()), s'')
    ∧ lk_recovered_dead_owner l = Some (receipt_of repository 6000000000 None o)
    ∧ sy_names s'' = delete (the_lock repository) (sy_names orphaned).
Proof.
  assert (∃ o, lock_state repository orphaned = Orphaned o) as [o Ho] by (eexists; vm_compute; reflexivity).
  assert (∃ bytes, encode_owner (owner_for 2 6000000000 orphaned "watch") = Some bytes ∧ length bytes ≤ MAX_OWNER_BYTES)
    as (bytes & He & Hlen) by (eexists; split; [vm_compute; reflexivity | apply Nat.leb_le; vm_compute; reflexivity]).
  destruct (acquire_release repository 2 6000000000 None "watch" DEFAULT_STALE_AFTER bytes orphaned) as (l & s' & s'' & H1 & H2 & H3 & H4 & H5);
    [by apply after_ok; vm_compute | vm_compute; reflexivity | exact He | exact Hlen | right; exists o; exact Ho |].
  rewrite Ho in H5. destruct H5 as [H5 H6].
  exact (ex_intro _ o (ex_intro _ l (ex_intro _ s' (ex_intro _ s'' (conj Ho (conj H1 (conj H2 (conj H3 (conj H4 (conj H5 H6)))))))))).
Defined.

(** A process killed between the creation of its lock and its bytes leaves
    evidence that no handler removes. *)
Example empty_lock_stays :
  lock_state repository (after killed_before_write) = Unreadable
  ∧ (run_alone repository 2 6000000000 None (acquire_with_stale_after 2 "watch" DEFAULT_STALE_AFTER)
       (after killed_before_write)).1 = Some (Err (lock_io_error "operation_lock_owner_invalid"))
  ∧ (run_alone repository 2 6000000000 None (recover_stale_lock DEFAULT_STALE_AFTER "1-5000000000-0")
       (after killed_before_write)).1 = Some (Err (lock_io_error "operation_lock_owner_invalid")).
Proof. by vm_compute. Qed.
