(* ===== verification/RecoveryLedger.v ===== *)
(** The recovery handoff and its attempt ledger: src/src/recovery_ledger.rs.

    [record_request] builds one exact request from a captured error and a fresh
    status and stores it; [record_attempt] validates a receipt against the
    stored request and appends it; [load_ledger] and [persist_ledger] are the
    file protocol, on the file system of [Files]. The JSON values, the derived
    serializers and SHA-256 are the class [LedgerCodec]; the status read, the
    clock and the UUID source are the class [RecoveryHost]. *)

From Stdlib Require Import Ascii String.
From S2P Require Import Prelude Text Model Graph Effects Files.

#[local] Open Scope string_scope.
#[local] Open Scope list_scope.
#[local] Open Scope nat_scope.
#[local] Open Scope caravan_scope.
#[local] Open Scope effect_scope.

(** ** Data *)

Definition SCHEMA_VERSION : N := 1.
Definition MAX_INPUT_BYTES : N := 256 * 1024.
Definition MAX_ATTEMPTS : N := 10.
Definition MAX_BACKOFF_SECS : N := 3600.

Record RecoveryRequestInput := mkRequestInput {
  ri_error : Path;
  ri_ledger : Path;
  ri_max_attempts : N;
  ri_initial_backoff_secs : N }.

Record RecoveryAttemptInput := mkAttemptInput {
  ri_attempt_ledger : Path;
  ri_receipt : Path }.

Inductive RecoveryDisposition := RetryTransient | ExternalDecision | OperatorAction.
#[export] Instance RecoveryDisposition_eq_dec : EqDecision RecoveryDisposition.
Proof. solve_decision. Defined.

Inductive RecoveryAllowedAction :=
| Rediscover
| RetrySync
| AwaitCi
| OwnerRepair (pr : PrNumber) (expected_head : CommitOid)
| OperatorDecision (code : string)
| ExactPlan (operation operation_id plan_hash : string) (owner_pr : PrNumber).
#[export] Instance RecoveryAllowedAction_eq_dec : EqDecision RecoveryAllowedAction.
Proof. solve_decision. Defined.

Record RecoveryHelpCursor := mkHelpCursor {
  hc_cli : string;
  hc_mcp_tool : string;
  hc_schema_version : N }.
#[export] Instance RecoveryHelpCursor_eq_dec : EqDecision RecoveryHelpCursor.
Proof. solve_decision. Defined.

Record GitHubRateLimit := mkRateLimit {
  rl_cost : N;
  rl_remaining : N;
  rl_reset_at : string }.
#[export] Instance GitHubRateLimit_eq_dec : EqDecision GitHubRateLimit.
Proof. solve_decision. Defined.

Record GitHubApiTelemetry := mkTelemetry {
  te_authenticated : option bool;
  te_auth_source : option string;
  te_github_app_slug : option string;
  te_github_app_installation_id : option N;
  te_github_app_token_expires_unix_secs : option N;
  te_github_app_git_transport : option string;
  te_github_app_git_repository : option string;
  te_github_app_refusal_stage : option string;
  te_github_app_refusal_category : option string;
  te_calls : N;
  te_graphql_calls : N;
  te_rest_calls : N;
  te_gh_cli_calls : N;
  te_cache_hits : N;
  te_cache_age_ms : option N;
  te_rate_limit : option GitHubRateLimit }.
#[export] Instance GitHubApiTelemetry_eq_dec : EqDecision GitHubApiTelemetry.
Proof. solve_decision. Defined.

Record RecoveryRequest := mkRecoveryRequest {
  rq_schema_version : N;
  rq_request_id : string;
  rq_repository : RepositoryId;
  rq_pr : option PrNumber;
  rq_head : option CommitOid;
  rq_base : option CommitOid;
  rq_main : CommitOid;
  rq_stack_root_pr : option PrNumber;
  rq_check_generation : string;
  rq_config_fingerprint : string;
  rq_policy_fingerprint : string;
  rq_wake_class : string;
  rq_disposition : RecoveryDisposition;
  rq_decision_fingerprint : string;
  rq_diagnostic_codes : list string;
  rq_links : list string;
  rq_allowed_actions : list RecoveryAllowedAction;
  rq_max_attempts : N;
  rq_initial_backoff_secs : N;
  rq_help : RecoveryHelpCursor;
  rq_observed_unix_ms : N;
  rq_provider_api : GitHubApiTelemetry }.
#[export] Instance RecoveryRequest_eq_dec : EqDecision RecoveryRequest.
Proof. solve_decision. Defined.

Inductive RecoveryAttemptOutcome :=
  Acknowledged | TransientFailure | Refused | TerminalFailure | Success.
#[export] Instance RecoveryAttemptOutcome_eq_dec : EqDecision RecoveryAttemptOutcome.
Proof. solve_decision. Defined.

Record RecoveryAttemptReceipt := mkAttemptReceipt {
  ar_schema_version : N;
  ar_request_id : string;
  ar_repository : RepositoryId;
  ar_pr : option PrNumber;
  ar_head : option CommitOid;
  ar_main : CommitOid;
  ar_decision_fingerprint : string;
  ar_outcome : RecoveryAttemptOutcome;
  ar_operation_receipt : option string;
  ar_landed_commit : option CommitOid;
  ar_provider_main_verified : bool;
  ar_observed_unix_ms : N }.

Record RecoveryAttemptRecord := mkAttemptRecord {
  at_attempt : N;
  at_outcome : RecoveryAttemptOutcome;
  at_operation_receipt : option string;
  at_landed_commit : option CommitOid;
  at_provider_main_verified : bool;
  at_observed_unix_ms : N;
  at_next_retry_unix_ms : option N }.

Record RecoveryEscalation := mkEscalation {
  es_kind : string;
  es_request_id : string;
  es_exact_plan : option RecoveryAllowedAction;
  es_emitted_unix_ms : N }.

Record RecoveryLedgerEntry := mkLedgerEntry {
  en_request : RecoveryRequest;
  en_attempts : list RecoveryAttemptRecord;
  en_escalation : option RecoveryEscalation;
  en_completed : bool }.

Record RecoveryLedger := mkRecoveryLedger {
  lg_schema_version : N;
  lg_entries : gmap string RecoveryLedgerEntry }.

(** [impl Default for RecoveryLedger]. *)
Definition ledger_default : RecoveryLedger := mkRecoveryLedger SCHEMA_VERSION ∅.

Record RecoveryRequestOutput := mkRequestOutput {
  ro_request : RecoveryRequest;
  ro_ledger : RecoveryLedger;
  ro_created : bool;
  ro_mutated_provider : bool }.

Record RecoveryAttemptOutput := mkAttemptOutput {
  ao_entry : RecoveryLedgerEntry;
  ao_duplicate : bool;
  ao_mutated_provider : bool }.

(** The fields of the status the module reads. *)
Record RecoveryStatus := mkRecoveryStatus {
  st_repository : RepositoryId;
  st_current_pr : option PrNumber;
  st_analysis : GraphAnalysis;
  st_provider_api : GitHubApiTelemetry }.

(** An error of this module carries [{"mutated": false}]; one of the status
    read is passed on. *)
Inductive RecoveryError (E : Type) :=
| ValidationError (code message : string)
| StatusError (e : E).
#[global] Arguments ValidationError {E} code message.
#[global] Arguments StatusError {E} e.

(** ** Bounds, classification and the pure helpers *)

Definition validate_bounds {E} (max_attempts backoff : N) : result unit (RecoveryError E) :=
  if negb ((1 <=? max_attempts) && (max_attempts <=? MAX_ATTEMPTS))%N
     || negb ((1 <=? backoff) && (backoff <=? MAX_BACKOFF_SECS))%N
  then Err (ValidationError "recovery_retry_policy_invalid"
              "retry bounds exceed max_attempts=10 or backoff=3600s")
  else Ok ().

Definition safe_code (value : string) : bool :=
  negb (str_is_empty value) && (String.length value <=? 96)
  && all_bytes (λ b, is_ascii_alphanumeric b || mem b ["_"; "-"; "."]%char) value.

Definition safe_receipt (value : string) : bool :=
  negb (str_is_empty value) && (String.length value <=? 256)
  && all_bytes (λ b, is_ascii_alphanumeric b || mem b ["_"; "-"; "."; ":"; "/"]%char) value.

Definition SENTINELS : list string :=
  ["ghp_"; "ghs_"; "github_pat_"; "authorization:"; "begin private key";
   "ignore previous instructions"; "system prompt"].

(** [rendered] is the serialized value. *)
Definition reject_secrets {E} (rendered : string) : result unit (RecoveryError E) :=
  let lowered := to_ascii_lowercase rendered in
  if existsb (λ marker, contains_str marker lowered) SENTINELS
  then Err (ValidationError "recovery_secret_or_instruction_rejected"
              "recovery state contains secret/prompt-injection sentinel")
  else Ok ().

Definition is_exact_plan (a : RecoveryAllowedAction) : bool :=
  match a with ExactPlan _ _ _ _ => true | _ => false end.

Definition escalation (request : RecoveryRequest) (now : N) : RecoveryEscalation :=
  let exact_plan := List.find is_exact_plan (rq_allowed_actions request) in
  mkEscalation (if is_some_b exact_plan then "exact_plan_owner_request" else "operator_escalation")
    (rq_request_id request) exact_plan now.

(** [u64::checked_shl]. *)
Definition checked_shl (a shift : N) : option N :=
  if (shift <? 64)%N then Some (N.land (N.shiftl a shift) u64_max) else None.

Definition next_retry_ms (request : RecoveryRequest) (attempt observed : N) : N :=
  let shift := N.min (sat_sub attempt 1) 20 in
  let multiplier := default u64_max (checked_shl 1 shift) in
  let seconds := N.min (sat_mul (rq_initial_backoff_secs request) multiplier) MAX_BACKOFF_SECS in
  sat_add observed (sat_mul seconds 1000).

Definition validate_receipt_generation {E} (request : RecoveryRequest) (receipt : RecoveryAttemptReceipt)
    : result unit (RecoveryError E) :=
  if negb (ar_schema_version receipt =? SCHEMA_VERSION)%N
     || negb (bool_decide (ar_repository receipt = rq_repository request))
     || negb (bool_decide (ar_pr receipt = rq_pr request))
     || negb (bool_decide (ar_head receipt = rq_head request))
     || negb (bool_decide (ar_main receipt = rq_main request))
     || negb (bool_decide (ar_decision_fingerprint receipt = rq_decision_fingerprint request))
  then Err (ValidationError "recovery_attempt_generation_mismatch"
              "attempt receipt does not match exact request generation/fingerprint")
  else if is_some_and (ar_operation_receipt receipt) (λ receipt, negb (safe_receipt receipt))
  then Err (ValidationError "recovery_attempt_receipt_invalid"
              "operation receipt contains unsafe characters")
  else Ok ().

(** ** The attempt ledger *)

(** The request was already answered with this operation receipt. *)
Definition is_duplicate (entry : RecoveryLedgerEntry) (receipt : RecoveryAttemptReceipt) : bool :=
  existsb (λ attempt,
      bool_decide (at_outcome attempt = ar_outcome receipt)
      && bool_decide (at_operation_receipt attempt = ar_operation_receipt receipt)
      && is_some_b (ar_operation_receipt receipt))
    (en_attempts entry).

(** A transient failure of a request that may be retried. *)
Definition retryable (request : RecoveryRequest) (outcome : RecoveryAttemptOutcome) : bool :=
  bool_decide (outcome = TransientFailure) && bool_decide (rq_disposition request = RetryTransient).

(** [u32::try_from(len).unwrap_or(u32::MAX).saturating_add(1)]. *)
Definition next_attempt (attempts : list RecoveryAttemptRecord) : N :=
  N.min u32_max (N.min u32_max (N.of_nat (length attempts)) + 1).

(** The branch [!duplicate] of [record_attempt], up to the write. *)
Definition push_attempt {E} (entry : RecoveryLedgerEntry) (receipt : RecoveryAttemptReceipt)
    : result RecoveryLedgerEntry (RecoveryError E) :=
  let request := en_request entry in
  let outcome := ar_outcome receipt in
  if retryable request outcome
     && (rq_max_attempts request <=? N.of_nat (length (en_attempts entry)))%N
  then Err (ValidationError "recovery_attempts_exhausted"
              "transient retry budget is exhausted for this exact generation")
  else
    let attempt := next_attempt (en_attempts entry) in
    let exhausted := retryable request outcome && (rq_max_attempts request <=? attempt)%N in
    let next_retry := then_some (retryable request outcome && negb exhausted)
                        (next_retry_ms request attempt (ar_observed_unix_ms receipt)) in
    Ok (mkLedgerEntry request
          (en_attempts entry ++
           [mkAttemptRecord attempt outcome (ar_operation_receipt receipt) (ar_landed_commit receipt)
              (ar_provider_main_verified receipt) (ar_observed_unix_ms receipt) next_retry])
          (if exhausted && is_none_b (en_escalation entry)
           then Some (escalation request (ar_observed_unix_ms receipt))
           else en_escalation entry)
          (bool_decide (outcome = Success))).

(** ** What lies outside *)

(** [serde_json::Value], the derived serializers and SHA-256. *)
Class LedgerCodec (Value : Type) := {
  jv_null : Value;
  jv_pointer : string → Value → option Value;
  jv_get : string → Value → option Value;
  jv_as_str : Value → option string;
  jv_as_u64 : Value → option N;
  jv_as_array : Value → option (list Value);
  from_slice : list N → option Value;
  ledger_from_value : Value → option RecoveryLedger;
  receipt_from_value : Value → option RecoveryAttemptReceipt;
  ledger_text : RecoveryLedger → string;
  receipt_text : RecoveryAttemptReceipt → string;
  request_text : RecoveryRequest → string;
  ledger_to_vec_pretty : RecoveryLedger → option (list N);
  checks_json : option (list CheckSnapshot) → list N;
  decision_json : RepositoryId → option PrNumber → option CommitOid → option CommitOid → CommitOid →
    option PrNumber → string → string → string → string → RecoveryDisposition → string →
    list string → list RecoveryAllowedAction → list N;
  sha256_hex : list N → string }.

Class RecoveryHost (H E Config : Type) := {
  read_status : H → result RecoveryStatus E * H;
  (** [SystemTime::now()], in milliseconds since the epoch. *)
  now_unix_ms : H → N * H;
  now_v7 : H → string * H;
  config_of : H → Config;
  config_json : Config → list N;
  policy_json : Config → list N }.

(** The file system and the rest of the world. *)
Record World (H : Type) := mkWorld {
  wd_fs : FileSystem;
  wd_host : H }.
#[global] Arguments mkWorld {H} _ _.
#[global] Arguments wd_fs {H} _.
#[global] Arguments wd_host {H} _.

Section values.
Context {Value : Type} `{!LedgerCodec Value}.

Definition digest_json (bytes : list N) : string := fmt ["sha256:"; sha256_hex bytes].

(** [a.and_then(f)] and [a.or_else(b)] are written [≫=] and [opt_or]. *)
Definition classify_disposition (code : string) (details : Value) : RecoveryDisposition :=
  let disposition := default ""
    (opt_or (jv_pointer "/decision/disposition" details) (jv_get "disposition" details) ≫= jv_as_str) in
  if String.eqb disposition "retry_tick"
     || existsb (λ marker, contains_str marker code) ["timeout"; "transport"; "temporarily"; "rate_limit"]
  then RetryTransient
  else if String.eqb disposition "external_decision" then ExternalDecision
  else OperatorAction.

Definition extract_exact_plan (details : Value) : option RecoveryAllowedAction :=
  plan ← opt_or (jv_pointer "/top_eviction_plan" details) (jv_pointer "/details/top_eviction_plan" details);
  operation_id ← (jv_get "operation_id" plan ≫= jv_as_str);
  plan_hash ← (jv_get "plan_hash" plan ≫= jv_as_str);
  owner_pr ← (opt_or (jv_pointer "/affected_prs/0" plan) (jv_get "evict_pr" plan) ≫= jv_as_u64);
  if negb (safe_receipt operation_id) || negb (safe_receipt plan_hash) then None
  else Some (ExactPlan "top_eviction" operation_id plan_hash owner_pr).

Definition allowed_actions (disposition : RecoveryDisposition) (pr : option PrNumber)
    (head : option CommitOid) (details : Value) : list RecoveryAllowedAction :=
  match disposition with
  | RetryTransient => [Rediscover; RetrySync]
  | ExternalDecision | OperatorAction => [OperatorDecision "review_exact_evidence"]
  end
  ++ match pr, head with
     | Some pr, Some head => [OwnerRepair pr head]
     | _, _ => []
     end
  ++ option_list (extract_exact_plan details).

Definition link_candidates (details : Value) : list string :=
  omap (λ pointer, jv_pointer pointer details ≫= jv_as_str)
    ["/url"; "/details_url"; "/decision/url"; "/receipt/url"]
  ++ match jv_get "links" details ≫= jv_as_array with
     | Some links => omap jv_as_str links
     | None => []
     end.

Definition github_prefix (repository : RepositoryId) : string :=
  fmt ["https://github.com/"; repo_owner repository; "/"; repo_name repository].
Definition api_prefix (repository : RepositoryId) : string :=
  fmt ["https://api.github.com/repos/"; repo_owner repository; "/"; repo_name repository].

Definition link_allowed (repository : RepositoryId) (url : string) : bool :=
  (String.length url <=? 512) && negb (contains_char ["?"; "#"; "@"]%char url)
  && (starts_with (github_prefix repository) url || starts_with (api_prefix repository) url).

(** The first five, in the order of a [BTreeSet]. *)
Definition extract_links (details : Value) (repository : RepositoryId) : list string :=
  vec_dedup (vec_sort (take 5 (List.filter (link_allowed repository) (link_candidates details)))).

Definition extract_pr (details : Value) : option PrNumber :=
  head (omap (λ pointer, jv_pointer pointer details ≫= jv_as_u64)
          ["/pr"; "/candidate_pr"; "/decision/pr"; "/candidate/pr"]).
End values.

(** ** The file protocol and the handlers *)

Section handlers.
Context {Value H E Config : Type} `{!LedgerCodec Value} `{!RecoveryHost H E Config}.

#[local] Abbreviation Eff A := (M (World H) (RecoveryError E) A).

(** A file operation whose error becomes one of this module. *)
Definition io {A} (op : FsOp A) (code message : string) : Eff A := λ w,
  let (r, fs) := op (wd_fs w) in
  (ok_or r (ValidationError code message), mkWorld fs (wd_host w)).
(** A file operation whose error is only observed. *)
Definition probe {A} (op : FsOp A) : Eff (option A) := λ w,
  let (r, fs) := op (wd_fs w) in (Ok r, mkWorld fs (wd_host w)).
Definition host_call {A} (op : H → A * H) : Eff A := λ w,
  let (a, h) := op (wd_host w) in (Ok a, mkWorld (wd_fs w) h).
Definition status : Eff RecoveryStatus := λ w,
  match read_status (wd_host w) with
  | (Ok s, h) => (Ok s, mkWorld (wd_fs w) h)
  | (Err e, h) => (Err (StatusError e), mkWorld (wd_fs w) h)
  end.

Definition read_json (path : Path) (code : string) : Eff Value :=
  let* len := io (fs_metadata_len path) code "input file is unavailable" in
  do* ensure (len <=? MAX_INPUT_BYTES)%N (ValidationError code "input exceeds bounded 256 KiB") in
  let* bytes := io (fs_read path) code "input could not be read" in
  lift (ok_or (from_slice bytes) (ValidationError code "input JSON is malformed")).

Definition is_symlink_node (n : option Node) : bool :=
  match n with Some (Symlink _) => true | _ => false end.

Definition validate_ledger_path (path : Path) : Eff unit :=
  do* ensure (bool_decide (file_name path = Some "recovery-ledger.json"))
        (ValidationError "recovery_ledger_path_invalid"
           "ledger filename must be exactly recovery-ledger.json") in
  let* own := probe (fs_symlink_metadata path) in
  let* above :=
    (if is_symlink_node own then ret None
     else match parent path with
          | Some p => probe (fs_symlink_metadata p)
          | None => ret None
          end) in
  ensure (negb (is_symlink_node own || is_symlink_node above))
    (ValidationError "recovery_ledger_path_invalid"
       "ledger path and parent must not be symbolic links").

Definition load_ledger (path : Path) : Eff RecoveryLedger :=
  do* validate_ledger_path path in
  let* exists_ := probe (fs_exists path) in
  if is_none_b exists_ then ret ledger_default
  else
    let* value := read_json path "recovery_ledger_invalid" in
    let* ledger := lift (ok_or (ledger_from_value value)
                           (ValidationError "recovery_ledger_invalid" "ledger schema invalid")) in
    do* ensure (lg_schema_version ledger =? SCHEMA_VERSION)%N
          (ValidationError "recovery_ledger_version_unsupported" "ledger schema version unsupported") in
    ret ledger.

Definition persist_ledger (path : Path) (ledger : RecoveryLedger) : Eff unit :=
  do* validate_ledger_path path in
  do* lift (reject_secrets (ledger_text ledger)) in
  let* parent := lift (ok_or (parent path)
        (ValidationError "recovery_ledger_path_invalid" "ledger path has no parent")) in
  do* io (fs_create_dir_all parent) "recovery_ledger_write_failed" "ledger directory unavailable" in
  do* io (fs_set_permissions parent 448) "recovery_ledger_write_failed" "ledger permissions failed" in
  let* uuid := host_call now_v7 in
  let temporary := with_extension (fmt [uuid; ".tmp"]) path in
  let* bytes := lift (ok_or (ledger_to_vec_pretty ledger)
        (ValidationError "recovery_ledger_invalid" "ledger serialization failed")) in
  do* io (fs_create_new temporary 384) "recovery_ledger_write_failed" "temporary ledger unavailable" in
  do* io (fs_write_sync temporary bytes) "recovery_ledger_write_failed" "ledger sync failed" in
  io (fs_rename temporary path) "recovery_ledger_write_failed" "atomic ledger rename failed".

Definition show (ledger : Path) : Eff RecoveryLedger := load_ledger ledger.

Definition find_member (fleet : CaravanFleet) (pr : PrNumber) : option PrNumber :=
  cv_id <$> containing fleet pr.

(** The request of [record_request], from the error, the status and the
    configuration. *)
Definition build_request (input : RecoveryRequestInput) (code : string) (details : Value)
    (status : RecoveryStatus) (config : Config) (now : N) : RecoveryRequest :=
  let fleet := ga_fleet (st_analysis status) in
  let pr := opt_or (opt_or (extract_pr details) (st_current_pr status))
              (cv_id <$> head (fl_caravans fleet)) in
  let candidate := pr ≫= λ pr, ga_pull_requests (st_analysis status) !! pr in
  let head := (λ c, br_oid (pr_head c)) <$> candidate in
  let base := (λ c, br_oid (pr_base c)) <$> candidate in
  let main := br_oid (fl_default_branch fleet) in
  let stack_root_pr := pr ≫= find_member fleet in
  let disposition := classify_disposition code details in
  let links := extract_links details (st_repository status) in
  let actions := allowed_actions disposition pr head details in
  let check_generation := digest_json (checks_json (pr_checks <$> candidate)) in
  let config_fingerprint := digest_json (config_json (H := H) (E := E) config) in
  let policy_fingerprint := digest_json (policy_json (H := H) (E := E) config) in
  let wake_class := default "unknown" (opt_filter safe_code
    (opt_or (jv_pointer "/decision/wake_class" details) (jv_get "wake_class" details) ≫= jv_as_str)) in
  let decision_fingerprint := digest_json (decision_json (st_repository status) pr head base main
    stack_root_pr check_generation config_fingerprint policy_fingerprint wake_class disposition code
    links actions) in
  mkRecoveryRequest SCHEMA_VERSION (fmt ["recovery:"; String.substring 7 16 decision_fingerprint])
    (st_repository status) pr head base main stack_root_pr check_generation config_fingerprint
    policy_fingerprint wake_class disposition decision_fingerprint [code] links actions
    (ri_max_attempts input) (ri_initial_backoff_secs input)
    (mkHelpCursor "cara help --json" "help" 1) now (st_provider_api status).

(** Lookup of the request id, insertion and write. *)
Definition store_request (path : Path) (request : RecoveryRequest) (ledger : RecoveryLedger)
    : Eff RecoveryRequestOutput :=
  let request_id := rq_request_id request in
  match lg_entries ledger !! request_id with
  | Some existing =>
      if bool_decide (en_request existing = request)
      then ret (mkRequestOutput request ledger false false)
      else throw (ValidationError "recovery_request_generation_collision"
                    "request ID exists with different exact generation")
  | None =>
      let ledger := mkRecoveryLedger (lg_schema_version ledger)
        (<[request_id := mkLedgerEntry request [] None false]> (lg_entries ledger)) in
      do* persist_ledger path ledger in
      ret (mkRequestOutput request ledger true false)
  end.

Definition record_request (input : RecoveryRequestInput) : Eff RecoveryRequestOutput :=
  do* lift (validate_bounds (ri_max_attempts input) (ri_initial_backoff_secs input)) in
  let* error := read_json (ri_error input) "recovery_error_input_invalid" in
  let* code := lift (ok_or (opt_filter safe_code (jv_pointer "/error/code" error ≫= jv_as_str))
        (ValidationError "recovery_error_code_invalid" "Cara error code is missing/unsafe")) in
  let details := default jv_null (jv_pointer "/error/details" error) in
  let* status := status in
  let* config := ask (λ w, config_of (wd_host w)) in
  let* now := host_call now_unix_ms in
  let request := build_request input code details status config now in
  do* lift (reject_secrets (request_text request)) in
  let* ledger := load_ledger (ri_ledger input) in
  store_request (ri_ledger input) request ledger.

Definition unverified (message : string) : RecoveryError E :=
  ValidationError "recovery_success_unverified" message.

(** [context] is whether the caller has a repository context. *)
Definition verify_success (context : bool) (request : RecoveryRequest) (receipt : RecoveryAttemptReceipt)
    : Eff unit :=
  do* ensure (ar_provider_main_verified receipt)
        (unverified "success requires a fresh provider/main reread") in
  let* pr := lift (ok_or (rq_pr request)
        (unverified "terminal success requires one exact PR generation")) in
  let* landed_commit := lift (ok_or (ar_landed_commit receipt)
        (unverified "terminal success requires the exact landed commit")) in
  do* ensure context
        (unverified "terminal success requires repository context for provider/main reread") in
  let* status := status in
  let* pull := lift (ok_or (ga_pull_requests (st_analysis status) !! pr)
        (unverified "fresh provider status does not contain the exact PR")) in
  ensure (negb (negb (bool_decide (st_repository status = rq_repository request))
                || negb (state_is pull Merged)
                || negb (String.eqb (br_oid (fl_default_branch (ga_fleet (st_analysis status)))) landed_commit)))
    (unverified "fresh provider status does not prove the exact merged PR/commit").

Definition with_entry (id : string) (entry : RecoveryLedgerEntry) (ledger : RecoveryLedger) : RecoveryLedger :=
  mkRecoveryLedger (lg_schema_version ledger) (<[id := entry]> (lg_entries ledger)).

(** The entry is found, checked against the receipt and advanced. *)
Definition advance_entry (context : bool) (path : Path) (receipt : RecoveryAttemptReceipt)
    (ledger : RecoveryLedger) : Eff RecoveryAttemptOutput :=
  let* entry := lift (ok_or (lg_entries ledger !! ar_request_id receipt)
        (ValidationError "recovery_request_unknown" "request ID is not in ledger")) in
  do* lift (validate_receipt_generation (en_request entry) receipt) in
  do* (if bool_decide (ar_outcome receipt = Success)
       then verify_success context (en_request entry) receipt else ret ()) in
  if is_duplicate entry receipt then ret (mkAttemptOutput entry true false)
  else
    let* entry := lift (push_attempt entry receipt) in
    do* persist_ledger path (with_entry (ar_request_id receipt) entry ledger) in
    ret (mkAttemptOutput entry false false).

Definition record_attempt (context : bool) (input : RecoveryAttemptInput) : Eff RecoveryAttemptOutput :=
  let* value := read_json (ri_receipt input) "recovery_attempt_input_invalid" in
  let* receipt := lift (ok_or (receipt_from_value value)
        (ValidationError "recovery_attempt_input_invalid" "attempt receipt schema invalid")) in
  do* lift (reject_secrets (receipt_text receipt)) in
  let* ledger := load_ledger (ri_attempt_ledger input) in
  advance_entry context (ri_attempt_ledger input) receipt ledger.
End handlers.
