(* ===== verification/RecoverySample.v ===== *)
(** A small host and codec for the examples of the recovery ledger: one
    merged pull request, a directory with the ledger and three receipts, and a
    codec that numbers the ledgers the examples go through. *)

From Stdlib Require Import Ascii String.
From S2P Require Import Prelude Text Model Graph Effects Files RecoveryLedger.

#[local] Open Scope string_scope.
#[local] Open Scope list_scope.
#[local] Open Scope nat_scope.

#[export] Instance RecoveryAttemptRecord_eq_dec : EqDecision RecoveryAttemptRecord.
Proof. solve_decision. Defined.
#[export] Instance RecoveryEscalation_eq_dec : EqDecision RecoveryEscalation.
Proof. solve_decision. Defined.
#[export] Instance RecoveryLedgerEntry_eq_dec : EqDecision RecoveryLedgerEntry.
Proof. solve_decision. Defined.
#[export] Instance RecoveryLedger_eq_dec : EqDecision RecoveryLedger.
Proof. solve_decision. Defined.

Definition sample_repository : RepositoryId := mkRepositoryId "owner" "repo".
Definition sample_pr : PullRequestSnapshot :=
  mkPullRequestSnapshot 41 "title" "url" Merged false (mkBranchSnapshot sample_repository "topic" "head")
    (mkBranchSnapshot sample_repository "main" "base") false ∅ auto_merge_disabled [] None None None None.
Definition sample_fleet : CaravanFleet :=
  mkCaravanFleet sample_repository (mkBranchSnapshot sample_repository "main" "tip") [] [] []
    (mkCaravanHistory 0 None None 0).
Definition sample_telemetry : GitHubApiTelemetry :=
  mkTelemetry None None None None None None None None None 0 0 0 0 0 None None.
Definition sample_recovery_status : RecoveryStatus :=
  mkRecoveryStatus sample_repository (Some 41%N)
    (mkGraphAnalysis sample_fleet None {[41%N := sample_pr]} [] [] []) sample_telemetry.

Definition sample_digest : string := "sha256:0123456789abcdef0123456789abcdef".
Definition sample_id : string := "recovery:0123456789abcdef".
Definition sample_request : RecoveryRequest :=
  mkRecoveryRequest 1 sample_id sample_repository (Some 41%N) (Some "head") (Some "base") "tip"
    None sample_digest sample_digest sample_digest "unknown" RetryTransient sample_digest
    ["transport_timeout"] [] [Rediscover; RetrySync; OwnerRepair 41 "head"] 2 5
    (mkHelpCursor "cara help --json" "help" 1) 1000 sample_telemetry.

Definition sample_receipt (outcome : RecoveryAttemptOutcome) (operation : option string) (now : N)
    : RecoveryAttemptReceipt :=
  mkAttemptReceipt 1 sample_id sample_repository (Some 41%N) (Some "head") "tip" sample_digest
    outcome operation (Some "tip") true now.

Definition sample_entry : RecoveryLedgerEntry := mkLedgerEntry sample_request [] None false.
Definition sample_ledger (entry : RecoveryLedgerEntry) : RecoveryLedger :=
  mkRecoveryLedger SCHEMA_VERSION {[sample_id := entry]}.
Definition sample_push (entry : RecoveryLedgerEntry) (receipt : RecoveryAttemptReceipt) : RecoveryLedgerEntry :=
  match push_attempt (E := unit) entry receipt with Ok entry => entry | Err _ => entry end.

Definition sample_receipts : list RecoveryAttemptReceipt :=
  [sample_receipt TransientFailure (Some "attempt-1") 2000;
   sample_receipt TransientFailure (Some "attempt-2") 9000;
   sample_receipt TransientFailure (Some "attempt-3") 30000;
   sample_receipt Success (Some "landed") 40000].

(** The ledgers the examples write. *)
Definition sample_ledgers : list RecoveryLedger :=
  let e1 := sample_push sample_entry (sample_receipt TransientFailure (Some "attempt-1") 2000) in
  sample_ledger <$>
    [sample_entry; e1;
     sample_push e1 (sample_receipt TransientFailure (Some "attempt-2") 9000);
     sample_push sample_entry (sample_receipt Success (Some "landed") 40000)].

(** A ledger by its number, a receipt by ten more, and a captured error. *)
Inductive SampleValue := SampleNumber (n : N) | SampleText (s : string) | SampleError.

#[export] Instance sample_codec : LedgerCodec SampleValue := {
  jv_null := SampleText "";
  jv_pointer path v :=
    match v with
    | SampleError => if String.eqb path "/error/code" then Some (SampleText "transport_timeout") else None
    | _ => None
    end;
  jv_get _ _ := None;
  jv_as_str v := match v with SampleText s => Some s | _ => None end;
  jv_as_u64 _ := None;
  jv_as_array _ := None;
  from_slice bytes :=
    match bytes with [n] => Some (if (n =? 99)%N then SampleError else SampleNumber n) | _ => None end;
  ledger_from_value v :=
    match v with SampleNumber n => sample_ledgers !! N.to_nat n | _ => None end;
  receipt_from_value v :=
    match v with SampleNumber n => sample_receipts !! N.to_nat (n - 10) | _ => None end;
  ledger_text _ := "ledger";
  receipt_text _ := "receipt";
  request_text _ := "request";
  ledger_to_vec_pretty ledger :=
    (λ n, [N.of_nat n]) <$> position (λ known, bool_decide (known = ledger)) sample_ledgers;
  checks_json _ := [];
  decision_json _ _ _ _ _ _ _ _ _ _ _ _ _ _ := [];
  sha256_hex _ := "0123456789abcdef0123456789abcdef" }.

#[export] Instance sample_recovery_host : RecoveryHost unit unit unit := {
  read_status h := (Ok sample_recovery_status, h);
  now_unix_ms h := (1000%N, h);
  now_v7 h := ("uuid", h);
  config_of h := h;
  config_json _ := [];
  policy_json _ := [] }.

Definition sample_path : Path := mkPath true ["var"; "recovery-ledger.json"].
Definition sample_location : list string := ["var"; "recovery-ledger.json"].
Definition sample_input (name : string) : RecoveryAttemptInput := mkAttemptInput sample_path (mkPath true [name]).

(** The receipts, the error and, when given, a ledger. *)
Definition sample_world (ledger : list (list string * Node)) : World unit :=
  mkWorld (mkFileSystem []
    (list_to_map (ledger ++
      [(["var"], Dir 493); (["r1"], File 420 [10%N]); (["r2"], File 420 [11%N]);
       (["r3"], File 420 [12%N]); (["ok"], File 420 [13%N]); (["error"], File 420 [99%N])])) []) ().
Definition stored_world : World unit := sample_world [(sample_location, File 384 [0%N])].

Example sample_success :
  record_attempt (E := unit) true (sample_input "ok") stored_world
  = (Ok (mkAttemptOutput (sample_push sample_entry (sample_receipt Success (Some "landed") 40000))
           false false),
     sample_world [(sample_location, File 384 [3%N]); (["var"], Dir 448)]).
Proof. vm_compute. reflexivity. Qed.

Example sample_recorded :
  record_request (E := unit) (mkRequestInput (mkPath true ["error"]) sample_path 2 5) (sample_world [])
  = (Ok (mkRequestOutput sample_request (sample_ledger sample_entry) true false),
     sample_world [(sample_location, File 384 [0%N]); (["var"], Dir 448)]).
Proof. vm_compute. reflexivity. Qed.

(** The same error, captured again a millisecond later. *)
Definition later_host : RecoveryHost unit unit unit :=
  {| read_status := λ h, (Ok sample_recovery_status, h); now_unix_ms := λ h, (1001%N, h);
     now_v7 := λ h, ("uuid", h); config_of := λ h, h; config_json := λ _, []; policy_json := λ _, [] |}.

(** The stored request includes the time of its capture and the telemetry of
    the status read, so recording the same generation again is refused as a
    collision instead of finding the entry. *)
Lemma recording_again_collides :
  (record_request (RecoveryHost0 := later_host)
     (mkRequestInput (mkPath true ["error"]) sample_path 2 5) stored_world).1
  = Err (ValidationError "recovery_request_generation_collision"
           "request ID exists with different exact generation").
Proof. vm_compute. reflexivity. Qed.

(** A bare file name has the empty path as its parent, which the permissions
    call cannot change: the ledger of the documented command line is never
    written. *)
Lemma bare_ledger_name_is_refused :
  (record_request (E := unit) (mkRequestInput (mkPath true ["error"]) (mkPath false ["recovery-ledger.json"]) 2 5)
     (sample_world [])).1
  = Err (ValidationError "recovery_ledger_write_failed" "ledger permissions failed").
Proof. vm_compute. reflexivity. Qed.

(** A link to another repository whose name extends this one's is kept. *)
Lemma longer_repository_link_is_kept :
  link_allowed sample_repository "https://github.com/owner/repository-of-someone-else/x" = true.
Proof. reflexivity. Qed.

(** Receipts that only acknowledge use up the indices of the retry budget:
    after them a transient failure is refused and nothing was escalated. *)
Lemma acknowledgements_use_the_budget :
  let ack n := sample_receipt Acknowledged None n in
  let entry := sample_push (sample_push sample_entry (ack 1%N)) (ack 2%N) in
  push_attempt (E := unit) entry (sample_receipt TransientFailure None 3%N)
  = Err (ValidationError "recovery_attempts_exhausted"
           "transient retry budget is exhausted for this exact generation")
  ∧ en_escalation entry = None.
Proof. vm_compute. done. Qed.

(** A later outcome takes a verified completion back. *)
Lemma completion_is_taken_back :
  let done_ := sample_push sample_entry (sample_receipt Success (Some "landed") 1%N) in
  en_completed done_ = true
  ∧ en_completed (sample_push done_ (sample_receipt Acknowledged None 2%N)) = false.
Proof. vm_compute. done. Qed.

(** The codec reads back every ledger it writes. *)
Lemma position_lookup {A} `{EqDecision A} (x : A) (known : list A) n :
  position (λ y, bool_decide (y = x)) known = Some n → known !! n = Some x.
Proof.
  revert n. induction known as [| y known IH]; intros n; simpl; [done |].
  destruct (bool_decide_reflect (y = x)) as [-> |]; [by intros [= <-] |].
  destruct (position _ known); simpl; [| done]. intros [= <-]. by apply IH.
Qed.

Lemma sample_ledgers_few ledger n :
  position (λ known, bool_decide (known = ledger)) sample_ledgers = Some n → n < 4.
Proof. intros Hp. apply position_lookup, lookup_lt_Some in Hp. exact Hp. Qed.

Lemma sample_round_trips ledger bytes :
  ledger_to_vec_pretty ledger = Some bytes →
  ∃ v, from_slice bytes = Some v ∧ ledger_from_value v = Some ledger.
Proof.
  unfold ledger_to_vec_pretty, from_slice, ledger_from_value, sample_codec.
  destruct (position _ _) as [n |] eqn:Hp; [| done]. intros [= <-].
  exists (SampleNumber (N.of_nat n)). pose proof (sample_ledgers_few _ _ Hp) as Hn. split.
  - replace (N.of_nat n =? 99)%N with false; [done |]. symmetry. apply N.eqb_neq. lia.
  - rewrite Nnat.Nat2N.id. by apply position_lookup in Hp.
Qed.
