(* ===== verification/RecoveryLedgerProofs.v ===== *)
(** What the recovery ledger guarantees: the attempt rules of an entry, the
    file that stays a well-formed ledger under every fault, success that a
    fresh read proved, and exhaustion that escalates exactly once. *)

From Stdlib Require Import Ascii String.
From S2P Require Import Prelude Text Model Graph Effects Files RecoveryLedger RecoverySample.

#[local] Open Scope string_scope.
#[local] Open Scope list_scope.
#[local] Open Scope nat_scope.
#[local] Open Scope caravan_scope.
#[local] Open Scope effect_scope.

(** ** The attempt rules of one entry *)

Definition transient (a : RecoveryAttemptRecord) : bool :=
  bool_decide (at_outcome a = TransientFailure).

(** The retry budget, as an index of the attempts. *)
Definition budget (request : RecoveryRequest) : nat := N.to_nat (rq_max_attempts request).

Definition same_receipt (a b : RecoveryAttemptRecord) : Prop :=
  at_outcome a = at_outcome b ∧ at_operation_receipt a = at_operation_receipt b
  ∧ is_Some (at_operation_receipt a).

(** The attempt at position [i] of an entry of [request]. *)
Definition attempt_ok (request : RecoveryRequest) (i : nat) (a : RecoveryAttemptRecord) : Prop :=
  at_attempt a = N.min u32_max (N.of_nat (S i))
  ∧ (retryable request (at_outcome a) = true → i < budget request)
  ∧ at_next_retry_unix_ms a =
      then_some (retryable request (at_outcome a) && (S i <? budget request)%nat)
        (next_retry_ms request (N.of_nat (S i)) (at_observed_unix_ms a)).

(** The one attempt whose failure exhausts the budget. *)
Definition exhausting (entry : RecoveryLedgerEntry) : option RecoveryAttemptRecord :=
  opt_filter (λ a, retryable (en_request entry) (at_outcome a))
    (en_attempts entry !! (budget (en_request entry) - 1)).

Record entry_ok (id : string) (entry : RecoveryLedgerEntry) : Prop := mkEntryOk {
  eo_id : rq_request_id (en_request entry) = id;
  eo_bounds : (1 ≤ rq_max_attempts (en_request entry) ≤ MAX_ATTEMPTS)%N
              ∧ (1 ≤ rq_initial_backoff_secs (en_request entry) ≤ MAX_BACKOFF_SECS)%N;
  eo_attempts : ∀ i a, en_attempts entry !! i = Some a → attempt_ok (en_request entry) i a;
  eo_unique : ∀ i j a b, en_attempts entry !! i = Some a → en_attempts entry !! j = Some b →
              same_receipt a b → i = j;
  eo_escalation : en_escalation entry =
    (λ a, escalation (en_request entry) (at_observed_unix_ms a)) <$> exhausting entry;
  eo_completed : en_completed entry =
    is_some_and (last (en_attempts entry)) (λ a, bool_decide (at_outcome a = Success)) }.

Definition ledger_ok (ledger : RecoveryLedger) : Prop :=
  lg_schema_version ledger = SCHEMA_VERSION
  ∧ map_Forall entry_ok (lg_entries ledger).

Lemma next_attempt_eq attempts :
  next_attempt attempts = N.min u32_max (N.of_nat (S (length attempts))).
Proof. unfold next_attempt. lia. Qed.

Lemma fresh_entry_ok request :
  validate_bounds (E := unit) (rq_max_attempts request) (rq_initial_backoff_secs request) = Ok () →
  entry_ok (rq_request_id request) (mkLedgerEntry request [] None false).
Proof.
  unfold validate_bounds. intros Hb.
  destruct (negb _ || negb _) eqn:Hc; [done |]. bool_prop.
  split; try done.
Qed.

Lemma lookup_snoc_cases {A} (l : list A) (x : A) i y :
  (l ++ [x]) !! i = Some y → l !! i = Some y ∨ (i = length l ∧ y = x).
Proof.
  intros Hi. apply lookup_app_Some in Hi as [Hi | [Hle Hi]]; [by left |].
  apply list_lookup_singleton_Some in Hi as [Hi ->]. right. split; [lia | done].
Qed.

Lemma is_duplicate_false entry receipt a :
  is_duplicate entry receipt = false → a ∈ en_attempts entry →
  at_outcome a = ar_outcome receipt → at_operation_receipt a = ar_operation_receipt receipt →
  is_Some (at_operation_receipt a) → False.
Proof.
  unfold is_duplicate. rewrite existsb_false_elem_of. intros Hd Ha Ho Hr [r Hs].
  specialize (Hd a Ha). rewrite <- Hr, Hs, Ho in Hd. simpl in Hd.
  rewrite !bool_decide_eq_true_2 in Hd by done. done.
Qed.

(** What one push leaves. *)
Lemma push_attempt_inv {E} entry receipt entry' :
  push_attempt (E := E) entry receipt = Ok entry' →
  ∃ a, en_request entry' = en_request entry
  ∧ en_attempts entry' = en_attempts entry ++ [a]
  ∧ at_outcome a = ar_outcome receipt
  ∧ at_operation_receipt a = ar_operation_receipt receipt
  ∧ at_landed_commit a = ar_landed_commit receipt
  ∧ at_observed_unix_ms a = ar_observed_unix_ms receipt
  ∧ en_completed entry' = bool_decide (ar_outcome receipt = Success)
  ∧ (retryable (en_request entry) (ar_outcome receipt) = true →
     length (en_attempts entry) < budget (en_request entry))
  ∧ ((rq_max_attempts (en_request entry) ≤ MAX_ATTEMPTS)%N →
     attempt_ok (en_request entry) (length (en_attempts entry)) a)
  ∧ en_escalation entry' =
      if retryable (en_request entry) (ar_outcome receipt)
         && (rq_max_attempts (en_request entry) <=? next_attempt (en_attempts entry))%N
         && is_none_b (en_escalation entry)
      then Some (escalation (en_request entry) (ar_observed_unix_ms receipt))
      else en_escalation entry.
Proof.
  unfold push_attempt. destruct (retryable _ _ && _) eqn:Hx; [done |].
  intros Hp. simplify_eq. eexists. simpl. repeat split; try done.
  - intros Hr. rewrite Hr in Hx. simpl in Hx. bool_prop. unfold budget. lia.
  - rewrite next_attempt_eq. done.
  - simpl. intros Hr. rewrite Hr in Hx. simpl in Hx. bool_prop. unfold budget. lia.
  - simpl. rewrite next_attempt_eq.
    destruct (retryable _ _) eqn:Hr; [| done]. simpl in *. bool_prop.
    assert (N.min u32_max (N.of_nat (S (length (en_attempts entry))))
            = N.of_nat (S (length (en_attempts entry)))) as ->.
    { unfold u32_max, MAX_ATTEMPTS in *. lia. }
    f_equal. unfold budget.
    destruct (_ <=? _)%N eqn:H1, (_ <? _)%nat eqn:H2; try done; exfalso; bool_prop; lia.
Qed.

Lemma push_escalation {E} id entry receipt entry' :
  entry_ok id entry → push_attempt (E := E) entry receipt = Ok entry' →
  en_escalation entry' =
    (λ a, escalation (en_request entry') (at_observed_unix_ms a)) <$> exhausting entry'.
Proof.
  intros Hok Hp. apply push_attempt_inv in Hp
    as (a & Hrq & Hats & Ho & _ & _ & Hobs & _ & Hb & _ & ->).
  destruct (eo_bounds _ _ Hok) as [[H1 H2] _].
  pose proof (eo_escalation _ _ Hok) as He. unfold exhausting in *. rewrite Hrq, Hats, He.
  rewrite next_attempt_eq. set (n := length (en_attempts entry)) in *.
  assert (1 ≤ budget (en_request entry)) as Hpos by (unfold budget; lia).
  assert ((rq_max_attempts (en_request entry) <=? N.min u32_max (N.of_nat (S n)))%N
          = (budget (en_request entry) <=? S n)) as ->.
  { unfold budget, u32_max, MAX_ATTEMPTS in *.
    destruct (_ <=? _)%N eqn:Ha, (_ <=? _)%nat eqn:Hc; try done; exfalso; bool_prop; lia. }
  destruct (decide (n = budget (en_request entry) - 1)) as [Hn | Hn].
  - rewrite <- Hn, (lookup_ge_None_2 (en_attempts entry)) by done. rewrite list_lookup_middle by done.
    simpl. rewrite Ho. replace (budget (en_request entry) <=? S n) with true
      by (symmetry; apply Nat.leb_le; lia).
    destruct (retryable _ _); simpl; [by rewrite Hobs | done].
  - destruct (decide (n < budget (en_request entry))) as [Hlt | Hge].
    + rewrite !lookup_ge_None_2 by (rewrite ?length_app; simpl; fold n; lia). simpl.
      replace (budget (en_request entry) <=? S n) with false; [by rewrite andb_false_r |].
      symmetry. apply Nat.leb_gt. lia.
    + rewrite lookup_app_l by (fold n; lia).
      destruct (retryable (en_request entry) (ar_outcome receipt)); [| done]. specialize (Hb eq_refl). lia.
Qed.

Lemma push_preserves {E} id entry receipt entry' :
  entry_ok id entry → is_duplicate entry receipt = false →
  push_attempt (E := E) entry receipt = Ok entry' → entry_ok id entry'.
Proof.
  intros Hok Hd Hp. pose proof (push_escalation _ _ _ _ Hok Hp) as Hesc.
  apply push_attempt_inv in Hp as (a & Hrq & Hats & Ho & Hr & _ & _ & Hc & _ & Ha & _).
  destruct (eo_bounds _ _ Hok) as [[H1 H2] H3].
  split; [| by rewrite Hrq | | | done |]; rewrite ?Hrq, ?Hats; [apply (eo_id _ _ Hok) | | |].
  - intros i b [Hi | [-> ->]]%lookup_snoc_cases; [by eapply eo_attempts | by apply Ha].
  - intros i j b c Hi Hj Hs.
    assert (∀ k x, en_attempts entry !! k = Some x → same_receipt x a → False) as Hnew.
    { intros k x Hx (Hxo & Hxr & Hxs).
      eapply is_duplicate_false; [done | by eapply list_elem_of_lookup_2 | congruence..]. }
    apply lookup_snoc_cases in Hi as [Hi | [-> ->]], Hj as [Hj | [-> ->]]; try done.
    + by eapply eo_unique.
    + exfalso. by eapply Hnew.
    + exfalso. destruct Hs as (? & ? & ?). eapply Hnew; [exact Hj |].
      split; [done |]. split; [done | congruence].
  - rewrite Hc, last_snoc. simpl. by rewrite Ho.
Qed.

(** ** The delay before a retry *)

Lemma shiftl_one_u64 n : (n ≤ 20)%N → checked_shl 1 n = Some (2 ^ n)%N.
Proof.
  intros Hn. unfold checked_shl. replace (n <? 64)%N with true by (symmetry; apply N.ltb_lt; lia).
  f_equal. rewrite N.shiftl_1_l. change u64_max with (N.ones 64). rewrite N.land_ones.
  apply N.mod_small. apply N.pow_lt_mono_r; lia.
Qed.

(** The delay before a retry is the initial backoff doubled once per
    earlier attempt, and never more than an hour: the shift that is cut at 20
    and the saturating multiplications of the code never change the value for
    a request inside the accepted bounds. *)
Theorem backoff_doubles_up_to_an_hour request attempt observed :
  (1 ≤ rq_initial_backoff_secs request ≤ MAX_BACKOFF_SECS)%N → (1 ≤ attempt)%N →
  next_retry_ms request attempt observed
  = sat_add observed (1000 * N.min (rq_initial_backoff_secs request * 2 ^ (attempt - 1)) MAX_BACKOFF_SECS).
Proof.
  intros Hb Ha. unfold next_retry_ms, sat_sub. set (shift := N.min (attempt - 1) 20).
  rewrite shiftl_one_u64 by lia. cbn [default id]. f_equal. unfold sat_mul, MAX_BACKOFF_SECS, u64_max in *.
  assert (2 ^ shift ≤ 2 ^ 20)%N as Hs by (apply N.pow_le_mono_r; lia).
  change (2 ^ 20)%N with 1048576%N in Hs.
  assert (N.min (rq_initial_backoff_secs request * 2 ^ shift) 3600
          = N.min (rq_initial_backoff_secs request * 2 ^ (attempt - 1)) 3600)%N as <-;
    [| generalize (rq_initial_backoff_secs request * 2 ^ shift)%N; intros; lia].
  destruct (N.le_gt_cases (attempt - 1) 20) as [Hle | Hgt].
  { unfold shift. by rewrite (N.min_l (attempt - 1) 20). }
  assert (2 ^ 20 ≤ 2 ^ (attempt - 1))%N as Hl by (apply N.pow_le_mono_r; lia).
  unfold shift. rewrite (N.min_r (attempt - 1) 20) by lia. change (2 ^ 20)%N with 1048576%N in *.
  rewrite !N.min_r; nia.
Qed.

Lemma backoff_doubles_up_to_an_hour_witness :
  next_retry_ms sample_request 25 1000 = sat_add 1000 (1000 * N.min (5 * 2 ^ (25 - 1)) 3600)
  ∧ next_retry_ms sample_request 25 1000 = 3601000%N.
Proof.
  split; [| reflexivity].
  apply (backoff_doubles_up_to_an_hour sample_request 25 1000); by vm_compute.
Defined.

(** ** The file *)

Lemma last_removelast_length {A} (l : list A) : l ≠ [] → length (removelast l) < length l.
Proof.
  destruct l as [| x l _] using rev_ind; [done |]. intros _.
  rewrite removelast_last, length_app. simpl. lia.
Qed.

(** The temporary file is another file of the same directory. *)
Lemma temporary_location p fs l uuid :
  file_name p = Some "recovery-ledger.json" → locate fs p = Some l →
  ∃ k, locate fs (with_extension (fmt [uuid; ".tmp"]) p) = Some k ∧ k ≠ l
       ∧ k = removelast l ++ [fmt ["recovery-ledger"; "."; fmt [uuid; ".tmp"]]].
Proof.
  unfold file_name, with_extension. destruct p as [absolute comps]. simpl. intros Hn Hl.
  assert (last comps = Some "recovery-ledger.json") as Hlast.
  { destruct (last comps); simpl in Hn; [| done]. by destruct (negb _); simplify_eq. }
  unfold file_name. simpl. rewrite Hlast. simpl.
  change (file_stem "recovery-ledger.json") with "recovery-ledger".
  assert (comps ≠ []) as Hne by (intros ->; done).
  apply last_Some in Hlast as [k ->]. rewrite removelast_last.
  assert ("recovery-ledger" +:+ "." +:+ (uuid +:+ ".tmp" +:+ "") +:+ "" ≠ "recovery-ledger.json") as Hd.
  { destruct uuid as [| ? [| ? [| ? [| ? [| ? ?]]]]]; simpl; discriminate. }
  unfold locate in *. simpl in *. destruct absolute.
  - simplify_eq. eexists. split; [reflexivity |]. rewrite removelast_last.
    split; [| done]. intros [_ Hx]%app_inj_2; [| done]. by simplify_eq.
  - destruct (k ++ ["recovery-ledger.json"]) eqn:Hk; [by destruct k |]. rewrite <- Hk in Hl. simplify_eq.
    destruct (k ++ [_]) eqn:Hk' at 1; [by destruct k |]. rewrite <- Hk'.
    eexists. split; [reflexivity |]. rewrite !app_assoc, removelast_last.
    split; [| done]. intros [_ Hx]%app_inj_2; [| done]. by simplify_eq.
Qed.

Lemma parent_location p fs l q k :
  locate fs p = Some l → parent p = Some q → locate fs q = Some k → length k < length l.
Proof.
  unfold parent, locate. destruct p as [absolute comps]. simpl. destruct comps as [| c comps]; [done |].
  intros Hl Hq. simplify_eq. simpl.
  assert (length (removelast (c :: comps)) < length (c :: comps)) as Hlen by by apply last_removelast_length.
  destruct absolute; intros Hk; simplify_eq; [done |].
  destruct comps as [| c' comps]; [done |]. simplify_eq. rewrite !length_app.
  simpl in *. lia.
Qed.

Section file.
Context {Value H E Config : Type} `{!LedgerCodec Value} `{!RecoveryHost H E Config}.
Context (p : Path) (l : Location).

#[local] Abbreviation W := (World H).

(** The ledger path denotes [l], and the file there is as in [w0]. *)
Definition unchanged (w0 w : W) : Prop := locate (wd_fs w0) p = Some l ∧ keeps l (wd_fs w0) (wd_fs w).

Lemma unchanged_locate w0 w q : unchanged w0 w → locate (wd_fs w) q = locate (wd_fs w0) q.
Proof. intros [_ [Hc _]]. by apply locate_nodes. Qed.

Lemma unchanged_content w0 w :
  unchanged w0 w → content (fs_nodes (wd_fs w) !! l) = content (fs_nodes (wd_fs w0) !! l).
Proof. by intros [_ [_ Hk]]. Qed.

Lemma unchanged_step w0 w fs h : unchanged w0 w → keeps l (wd_fs w) fs → unchanged w0 (mkWorld fs h).
Proof. intros [Hl Hk] Hk'. split; [done | by etrans]. Qed.

Lemma io_triple {A} (op : FsOp A) code message w0 (P : W → Prop) (Q : A → W → Prop) :
  (∀ w, P w → unchanged w0 w) → (∀ w, P w → keeps l (wd_fs w) (op (wd_fs w)).2) →
  (∀ w a, P w → unchanged w0 (mkWorld (op (wd_fs w)).2 (wd_host w)) → (op (wd_fs w)).1 = Some a →
     Q a (mkWorld (op (wd_fs w)).2 (wd_host w))) →
  triple P (io (E := E) op code message) Q (λ _, unchanged w0).
Proof.
  intros HP Hk HQ w Hw. specialize (HQ w). specialize (Hk w Hw).
  pose proof (unchanged_step w0 w (op (wd_fs w)).2 (wd_host w) (HP w Hw) Hk) as Hu.
  unfold io. destruct (op (wd_fs w)) as [[a |] fs]; simpl in *; [by apply HQ | done].
Qed.

Lemma io_keeps {A} (op : FsOp A) code message w0 :
  (∀ fs, keeps l fs (op fs).2) →
  triple (unchanged w0) (io (E := E) op code message) (λ _, unchanged w0) (λ _, unchanged w0).
Proof. intros Hk. by apply io_triple. Qed.

Lemma probe_keeps {A} (op : FsOp A) w0 :
  (∀ fs, keeps l fs (op fs).2) →
  triple (unchanged w0) (probe (E := E) op) (λ _, unchanged w0) (λ _, unchanged w0).
Proof.
  intros Hk w Hw. unfold probe. specialize (Hk (wd_fs w)).
  destruct (op (wd_fs w)) as [r fs]. simpl in *. by eapply unchanged_step.
Qed.

Lemma host_call_keeps {A} (op : H → A * H) w0 :
  triple (unchanged w0) (host_call (E := E) op) (λ _, unchanged w0) (λ _, unchanged w0).
Proof. intros w Hw. unfold host_call. destruct (op (wd_host w)). by eapply unchanged_step. Qed.

Lemma status_keeps w0 :
  triple (unchanged w0) (status (H := H) (E := E)) (λ _, unchanged w0) (λ _, unchanged w0).
Proof.
  intros w Hw. unfold status. destruct (read_status (wd_host w)) as [[s | e] h]; by eapply unchanged_step.
Qed.

(** The computations that only read. *)
Lemma lift_keeps {A} (r : result A (RecoveryError E)) w0 :
  triple (unchanged w0) (lift r) (λ a w, unchanged w0 w ∧ r = Ok a) (λ _, unchanged w0).
Proof. by apply triple_lift. Qed.
Lemma ensure_keeps b (e : RecoveryError E) w0 :
  triple (unchanged w0) (ensure b e) (λ _ w, unchanged w0 w ∧ b = true) (λ _, unchanged w0).
Proof. by apply triple_ensure. Qed.

Lemma validate_ledger_path_keeps w0 :
  triple (unchanged w0) (validate_ledger_path (E := E) p)
    (λ _ w, unchanged w0 w ∧ file_name p = Some "recovery-ledger.json") (λ _, unchanged w0).
Proof.
  unfold validate_ledger_path. eapply triple_bind; [apply ensure_keeps |]. intros []; cbv beta.
  apply triple_pre. intros Hn. bool_prop.
  eapply triple_bind; [apply probe_keeps; intros; apply fs_read_op_keeps |]. intros own. cbv beta.
  eapply triple_bind with (Q := λ _, unchanged w0).
  - apply triple_if; intros _; [by apply triple_ret |].
    destruct (parent p); [apply probe_keeps; intros; apply fs_read_op_keeps | by apply triple_ret].
  - intros above. eapply triple_weaken; [apply ensure_keeps | done | | done]. cbv beta. naive_solver.
Qed.

Lemma read_json_keeps q code w0 :
  triple (unchanged w0) (read_json (E := E) q code) (λ _, unchanged w0) (λ _, unchanged w0).
Proof.
  unfold read_json. eapply triple_bind; [apply io_keeps; intros; apply fs_read_op_keeps |]. intros len.
  eapply triple_bind; [apply ensure_keeps |]. intros []. cbv beta. apply triple_pre. intros _.
  eapply triple_bind; [apply io_keeps; intros; apply fs_read_op_keeps |]. intros bytes.
  eapply triple_weaken; [apply lift_keeps | done | | done]. naive_solver.
Qed.

(** No link at the path itself. *)
Definition plain (w : W) : Prop := ∀ target, content (fs_nodes (wd_fs w) !! l) ≠ Some (Symlink target).

Lemma content_file n bytes : content n = Some (File 0 bytes) ↔ ∃ mode, n = Some (File mode bytes).
Proof. destruct n as [[] |]; simpl; naive_solver. Qed.

Lemma fs_read_content fs bytes :
  locate fs p = Some l → (∀ target, content (fs_nodes fs !! l) ≠ Some (Symlink target)) →
  (fs_read p fs).1 = Some bytes → content (fs_nodes fs !! l) = Some (File 0 bytes).
Proof.
  intros Hl Hp. unfold fs_read, fs_read_op.
  edestruct (fs_op_outcome (A := list N)) as (faults & [-> | [n ->]]); [| done].
  cbn [fst]. unfold node_at. change (locate (spend faults fs) p) with (locate fs p). rewrite Hl.
  rewrite follow_here.
  - simpl. destruct (fs_nodes fs !! l) as [[] |]; naive_solver.
  - intros target Ht. simpl in Ht. specialize (Hp target). by rewrite Ht in Hp.
Qed.

Lemma read_ledger_json code w0 :
  plain w0 →
  triple (unchanged w0) (read_json (E := E) p code)
    (λ v w, unchanged w0 w ∧ ∃ bytes,
       content (fs_nodes (wd_fs w0) !! l) = Some (File 0 bytes) ∧ from_slice bytes = Some v)
    (λ _, unchanged w0).
Proof.
  intros Hplain. unfold read_json.
  eapply triple_bind; [apply io_keeps; intros; apply fs_read_op_keeps |]. intros len.
  eapply triple_bind; [apply ensure_keeps |]. intros []. cbv beta. apply triple_pre. intros _.
  eapply triple_bind with (Q := λ bytes w, unchanged w0 w
    ∧ content (fs_nodes (wd_fs w0) !! l) = Some (File 0 bytes)).
  - apply io_triple; [done | intros; apply fs_read_op_keeps |]. intros w bytes Hw Hu Hb. split; [done |].
    rewrite <- (unchanged_content _ _ Hw). apply fs_read_content; [| | done].
    + rewrite (unchanged_locate _ _ _ Hw). apply Hw.
    + intros target. rewrite (unchanged_content _ _ Hw). apply Hplain.
  - intros bytes. apply triple_pre. intros Hb.
    eapply triple_weaken; [apply lift_keeps | done | | done]. cbv beta. intros v w [Hw Hv].
    split; [done |]. exists bytes. split; [done |]. by destruct (from_slice bytes); simpl in Hv; simplify_eq.
Qed.

(** The ledger a file holds. *)
Definition holds (w : W) (ledger : RecoveryLedger) : Prop :=
  ∃ bytes v, content (fs_nodes (wd_fs w) !! l) = Some (File 0 bytes)
  ∧ from_slice bytes = Some v ∧ ledger_from_value v = Some ledger
  ∧ lg_schema_version ledger = SCHEMA_VERSION.

Lemma load_ledger_spec w0 :
  plain w0 →
  triple (unchanged w0) (load_ledger (E := E) p)
    (λ ledger w, unchanged w0 w ∧ (ledger = ledger_default ∨ holds w0 ledger)) (λ _, unchanged w0).
Proof.
  intros Hplain. unfold load_ledger. eapply triple_bind; [apply validate_ledger_path_keeps |]. intros [].
  apply triple_pre. intros _.
  eapply triple_bind; [apply probe_keeps; intros; apply fs_read_op_keeps |]. intros there. cbv beta.
  apply triple_if; intros _; [apply triple_ret; naive_solver |].
  eapply triple_bind; [by apply read_ledger_json |]. intros v. cbv beta.
  apply triple_pre. intros (bytes & Hb & Hv).
  eapply triple_bind; [apply lift_keeps |]. intros ledger. cbv beta. apply triple_pre. intros Hd.
  eapply triple_bind; [apply ensure_keeps |]. intros []. cbv beta. apply triple_pre. intros Hs. bool_prop.
  apply triple_ret. intros w Hw. split; [done |]. right.
  exists bytes, v. by destruct (ledger_from_value v); simpl in Hd; simplify_eq.
Qed.

(** The file is the new ledger, readable by its owner only. *)
Definition published (ledger : RecoveryLedger) (w0 w : W) : Prop :=
  fs_cwd (wd_fs w) = fs_cwd (wd_fs w0)
  ∧ ∃ bytes, ledger_to_vec_pretty ledger = Some bytes
             ∧ fs_nodes (wd_fs w) !! l = Some (File 384 bytes).

(** The temporary file, while it is written. *)
Lemma write_temporary_spec k temporary bytes w0 :
  (∀ w, unchanged w0 w → locate (wd_fs w) temporary = Some k) → k ≠ l →
  triple (unchanged w0)
    (do* io (E := E) (fs_create_new temporary 384) "recovery_ledger_write_failed" "temporary ledger unavailable" in
     do* io (fs_write_sync temporary bytes) "recovery_ledger_write_failed" "ledger sync failed" in
     io (fs_rename temporary p) "recovery_ledger_write_failed" "atomic ledger rename failed")
    (λ _ w, fs_cwd (wd_fs w) = fs_cwd (wd_fs w0) ∧ fs_nodes (wd_fs w) !! l = Some (File 384 bytes))
    (λ _, unchanged w0).
Proof.
  intros Hk Hne.
  eapply triple_bind with (Q := λ _ w, unchanged w0 w ∧ fs_nodes (wd_fs w) !! k = Some (File 384 [])).
  { apply io_triple; [done | |].
    - intros w Hw. eapply fs_create_new_spec; [by apply Hk | done].
    - intros w [] Hw Hu Ha. split; [done |]. simpl. eapply fs_create_new_spec; [by apply Hk | done | done]. }
  intros [].
  eapply triple_bind with (Q := λ _ w, unchanged w0 w ∧ fs_nodes (wd_fs w) !! k = Some (File 384 bytes)).
  { apply io_triple; [naive_solver | |].
    - intros w [Hw Hn]. eapply fs_write_sync_spec; [by apply Hk | done..].
    - intros w [] [Hw Hn] Hu Ha. split; [done |]. simpl. eapply fs_write_sync_spec; [by apply Hk | done..]. }
  intros [] w [Hw Hn]. unfold io.
  pose proof (fs_rename_spec temporary p 384 bytes (wd_fs w) k l (Hk w Hw)) as Hr.
  rewrite (unchanged_locate _ _ _ Hw) in Hr. specialize (Hr (proj1 Hw) Hn).
  pose proof (proj1 (proj2 Hw)) as Hc.
  destruct (fs_rename temporary p (wd_fs w)) as [[[] |] fs]; simpl in *; destruct Hr as [Hr1 Hr2].
  - split; [congruence |]. by rewrite Hr2, lookup_insert_eq.
  - eapply unchanged_step; [done |]. apply keeps_same; [done | by rewrite Hr2].
Qed.

Lemma persist_ledger_spec ledger w0 :
  triple (unchanged w0) (persist_ledger (E := E) p ledger)
    (λ _, published ledger w0) (λ _, unchanged w0).
Proof.
  unfold persist_ledger. eapply triple_bind; [apply validate_ledger_path_keeps |]. intros [].
  apply triple_pre. intros Hname.
  eapply triple_bind; [apply lift_keeps |]. intros []. cbv beta. apply triple_pre. intros _.
  eapply triple_bind; [apply lift_keeps |]. intros q. cbv beta. apply triple_pre. intros Hq.
  eapply triple_bind with (Q := λ _, unchanged w0).
  { apply io_triple; [done | | done]. intros w Hw. apply fs_create_dir_all_keeps. intros k Hk.
    eapply parent_location; [| | exact Hk].
    - rewrite (unchanged_locate _ _ _ Hw). apply Hw.
    - by destruct (parent p); simpl in Hq; simplify_eq. }
  intros []. cbv beta.
  eapply triple_bind; [apply io_keeps; intros; apply fs_set_permissions_keeps |]. intros [].
  eapply triple_bind; [apply host_call_keeps |]. intros uuid. cbv beta zeta.
  eapply triple_bind; [apply lift_keeps |]. intros bytes. cbv beta. apply triple_pre. intros Hb.
  intros w Hw.
  destruct (temporary_location p (wd_fs w0) l uuid Hname (proj1 Hw)) as (k & Hk & Hne & _).
  eapply triple_weaken; [apply (write_temporary_spec k _ bytes w0) | done | | done | exact Hw]; [| done |].
  - intros w' Hw'. by rewrite (unchanged_locate _ _ _ Hw').
  - cbv beta. intros _ w' [Hc Hn]. split; [done |]. exists bytes. split; [| done].
    by destruct (ledger_to_vec_pretty ledger); simpl in Hb; simplify_eq.
Qed.

(** ** The handlers keep the file a well-formed ledger *)

(** [Serialize] and [Deserialize] are derived from the same declaration. *)
Definition round_trips : Prop := ∀ ledger bytes,
  ledger_to_vec_pretty ledger = Some bytes →
  ∃ v, from_slice bytes = Some v ∧ ledger_from_value v = Some ledger.

(** No ledger yet, or the bytes of a well-formed one. *)
Definition file_ok (w : W) : Prop :=
  content (fs_nodes (wd_fs w) !! l) = None
  ∨ ∃ ledger bytes, content (fs_nodes (wd_fs w) !! l) = Some (File 0 bytes)
    ∧ ledger_to_vec_pretty ledger = Some bytes ∧ ledger_ok ledger.

Lemma file_ok_plain w : file_ok w → plain w.
Proof. intros [Hn | (L & b & Hn & _)] target; by rewrite Hn. Qed.

Lemma file_ok_keeps w fs h : file_ok w → keeps l (wd_fs w) fs → file_ok (mkWorld fs h).
Proof. unfold file_ok. intros Hf [_ Hk]. simpl. by rewrite Hk. Qed.

Lemma holds_ok w ledger : round_trips → file_ok w → holds w ledger → ledger_ok ledger.
Proof.
  intros Hrt [Hn | (L & b & Hn & Hb & Hok)] (bytes & v & Hc & Hv & Hd & _); rewrite Hn in Hc; [done |].
  simplify_eq. destruct (Hrt _ _ Hb) as (v' & Hv' & Hd'). simplify_eq. done.
Qed.

Lemma ledger_default_ok : ledger_ok ledger_default.
Proof. split; [done |]. apply map_Forall_empty. Qed.

Lemma ledger_ok_insert ledger id entry :
  ledger_ok ledger → entry_ok id entry → ledger_ok (with_entry id entry ledger).
Proof. intros [Hs He] Hi. split; [done |]. by apply map_Forall_insert_2. Qed.

Lemma published_ok ledger w0 w : ledger_ok ledger → published ledger w0 w → file_ok w.
Proof.
  intros Hok (_ & bytes & Hb & Hn). right. exists ledger, bytes. split; [| done]. by rewrite Hn.
Qed.

Lemma unchanged_ok w0 w : file_ok w0 → unchanged w0 w → file_ok w.
Proof. intros Hf [_ Hk]. destruct w as [fs h]. by eapply file_ok_keeps. Qed.

(** The path still denotes the same place afterwards. *)
Definition stays (w0 w : W) : Prop := fs_cwd (wd_fs w) = fs_cwd (wd_fs w0) ∧ file_ok w.

Lemma unchanged_stays w0 w : file_ok w0 → unchanged w0 w → stays w0 w.
Proof. intros Hf Hu. split; [apply Hu | by eapply unchanged_ok]. Qed.

Lemma persist_stays ledger w0 :
  file_ok w0 → ledger_ok ledger →
  triple (unchanged w0) (persist_ledger (E := E) p ledger) (λ _, stays w0) (λ _, stays w0).
Proof.
  intros Hf Hok. eapply triple_weaken; [apply persist_ledger_spec | done | |]; cbv beta.
  - intros _ w Hp. split; [apply Hp | by eapply published_ok].
  - intros _ w. by apply unchanged_stays.
Qed.

Lemma store_request_stays request ledger w0 :
  file_ok w0 → ledger_ok ledger →
  validate_bounds (E := unit) (rq_max_attempts request) (rq_initial_backoff_secs request) = Ok () →
  triple (unchanged w0) (store_request (E := E) p request ledger) (λ _, stays w0) (λ _, stays w0).
Proof.
  intros Hf Hok Hb. unfold store_request.
  destruct (lg_entries ledger !! rq_request_id request) as [existing |].
  - apply triple_if; intros _; [apply triple_ret | apply triple_throw]; intros w; by apply unchanged_stays.
  - eapply triple_bind; [apply persist_stays; [done |] |].
    + apply (ledger_ok_insert ledger); [done |]. by apply fresh_entry_ok.
    + intros []. cbv beta. by apply triple_ret.
Qed.

Lemma verify_success_keeps context request receipt w0 :
  triple (unchanged w0) (verify_success (E := E) context request receipt)
    (λ _, unchanged w0) (λ _, unchanged w0).
Proof.
  unfold verify_success.
  eapply triple_bind; [apply ensure_keeps |]. intros []. cbv beta. apply triple_pre. intros _.
  eapply triple_bind; [apply lift_keeps |]. intros pr. cbv beta. apply triple_pre. intros _.
  eapply triple_bind; [apply lift_keeps |]. intros commit. cbv beta. apply triple_pre. intros _.
  eapply triple_bind; [apply ensure_keeps |]. intros []. cbv beta. apply triple_pre. intros _.
  eapply triple_bind; [apply status_keeps |]. intros st. cbv beta.
  eapply triple_bind; [apply lift_keeps |]. intros pull. cbv beta. apply triple_pre. intros _.
  eapply triple_weaken; [apply ensure_keeps | done | | done]. naive_solver.
Qed.

Lemma advance_entry_stays context receipt ledger w0 :
  file_ok w0 → ledger_ok ledger →
  triple (unchanged w0) (advance_entry (E := E) context p receipt ledger) (λ _, stays w0) (λ _, stays w0).
Proof.
  intros Hf Hok. unfold advance_entry. pose proof (unchanged_stays w0) as Hs.
  eapply triple_bind; [apply triple_lift; auto |]. intros entry. cbv beta. apply triple_pre. intros He.
  assert (entry_ok (ar_request_id receipt) entry) as Hentry.
  { apply (proj2 Hok). by destruct (lg_entries ledger !! ar_request_id receipt); simpl in He; simplify_eq. }
  eapply triple_bind; [apply triple_lift; auto |]. intros []. cbv beta. apply triple_pre. intros _.
  eapply triple_bind with (Q := λ _, unchanged w0).
  { apply triple_if; intros _; [| by apply triple_ret].
    eapply triple_weaken; [apply verify_success_keeps | done | done |]. cbv beta. auto. }
  intros []. destruct (is_duplicate entry receipt) eqn:Hd; [apply triple_ret; auto |].
  eapply triple_bind; [apply triple_lift; auto |]. intros entry'. cbv beta. apply triple_pre. intros Hp.
  eapply triple_bind; [apply persist_stays; [done |] |].
  - apply ledger_ok_insert; [done |]. by eapply push_preserves.
  - intros []. cbv beta. by apply triple_ret.
Qed.

(** The load that the handlers start from. *)
Lemma load_ledger_ok w0 :
  round_trips → file_ok w0 →
  triple (unchanged w0) (load_ledger (E := E) p) (λ ledger w, unchanged w0 w ∧ ledger_ok ledger)
    (λ _, stays w0).
Proof.
  intros Hrt Hf. eapply triple_weaken; [apply load_ledger_spec; by apply file_ok_plain | done | |]; cbv beta.
  - intros ledger w [Hw [-> | Hh]]; (split; [done |]); [apply ledger_default_ok | by eapply holds_ok].
  - intros _ w. by apply unchanged_stays.
Qed.

Lemma record_request_stays input w0 :
  round_trips → file_ok w0 → ri_ledger input = p →
  triple (unchanged w0) (record_request (E := E) input) (λ _, stays w0) (λ _, stays w0).
Proof.
  intros Hrt Hf Hp. unfold record_request. rewrite Hp. pose proof (unchanged_stays w0) as Hs.
  eapply triple_bind; [apply triple_lift; auto |]. intros []. cbv beta. apply triple_pre. intros Hb.
  eapply triple_bind; [eapply triple_weaken; [apply read_json_keeps | done | done |]; auto |].
  intros error. cbv beta.
  eapply triple_bind; [apply triple_lift; auto |]. intros code. cbv beta zeta. apply triple_pre. intros _.
  eapply triple_bind; [eapply triple_weaken; [apply status_keeps | done | done |]; auto |]. intros st. cbv beta.
  eapply triple_bind; [apply triple_ask |]. intros config. cbv beta.
  eapply triple_bind with (Q := λ _, unchanged w0).
  { eapply triple_weaken; [apply host_call_keeps | naive_solver | done |]. cbv beta. auto. }
  intros now. cbv zeta.
  eapply triple_bind; [apply triple_lift; auto |]. intros []. cbv beta. apply triple_pre. intros _.
  eapply triple_bind; [by apply load_ledger_ok |]. intros ledger. cbv beta.
  apply triple_pre. intros Hok. apply store_request_stays; [done.. |].
  cbn [build_request rq_max_attempts rq_initial_backoff_secs].
  revert Hb. unfold validate_bounds. by destruct (negb _ || negb _).
Qed.

Lemma record_attempt_stays context input w0 :
  round_trips → file_ok w0 → ri_attempt_ledger input = p →
  triple (unchanged w0) (record_attempt (E := E) context input) (λ _, stays w0) (λ _, stays w0).
Proof.
  intros Hrt Hf Hp. unfold record_attempt. rewrite Hp. pose proof (unchanged_stays w0) as Hs.
  eapply triple_bind; [eapply triple_weaken; [apply read_json_keeps | done | done |]; auto |].
  intros v. cbv beta.
  eapply triple_bind; [apply triple_lift; auto |]. intros receipt. cbv beta. apply triple_pre. intros _.
  eapply triple_bind; [apply triple_lift; auto |]. intros []. cbv beta. apply triple_pre. intros _.
  eapply triple_bind; [by apply load_ledger_ok |]. intros ledger. cbv beta.
  apply triple_pre. intros Hok. by apply advance_entry_stays.
Qed.

(** Every world the handlers can lead to: calls with any input for this
    ledger, and anything that happens outside the ledger file between them,
    the faults of the file system included. *)
Inductive reachable (w0 : W) : W → Prop :=
| reach_start : reachable w0 w0
| reach_request w input :
    reachable w0 w → ri_ledger input = p → reachable w0 (record_request (E := E) input w).2
| reach_attempt w context input :
    reachable w0 w → ri_attempt_ledger input = p →
    reachable w0 (record_attempt (E := E) context input w).2
| reach_environment w fs h :
    reachable w0 w → keeps l (wd_fs w) fs → reachable w0 (mkWorld fs h).

Lemma stays_call {A} (m : M W (RecoveryError E) A) w0 w :
  locate (wd_fs w0) p = Some l → stays w0 w →
  triple (unchanged w) m (λ _, stays w) (λ _, stays w) → stays w0 (m w).2.
Proof.
  intros Hl [Hc Hf] Hm. specialize (Hm w).
  assert (unchanged w w) as Hw.
  { split; [| done]. rewrite <- Hl. by apply locate_nodes. }
  specialize (Hm Hw). destruct (m w) as [[a | e] w']; destruct Hm as [Hc' Hf']; (split; [| done]);
    simpl; congruence.
Qed.

Lemma reachable_stays w0 w :
  round_trips → locate (wd_fs w0) p = Some l → file_ok w0 → reachable w0 w → stays w0 w.
Proof.
  intros Hrt Hl Hf. induction 1 as [| w input Hr IH Hp | w ctx input Hr IH Hp | w fs h Hr IH Hk].
  - done.
  - apply stays_call; [done.. |]. apply record_request_stays; [done | apply IH | done].
  - apply stays_call; [done.. |]. apply record_attempt_stays; [done | apply IH | done].
  - destruct IH as [Hc Hok]. split; [simpl; by rewrite (proj1 Hk) | by eapply file_ok_keeps].
Qed.

(** C12. Whatever sequence of calls and faults follows, a ledger file that
    started absent is absent or decodes to a well-formed ledger: its entries
    are stored under their request ids, their attempts are numbered in order,
    no transient failure of a retryable request lies beyond its budget, each
    retry stamp is the backoff of its attempt, no receipt is recorded twice,
    and the escalation is the one of the attempt that exhausted the budget,
    present exactly when there is such an attempt. *)
Theorem ledger_file_stays_well_formed w0 w :
  round_trips → locate (wd_fs w0) p = Some l → fs_nodes (wd_fs w0) !! l = None →
  reachable w0 w →
  fs_nodes (wd_fs w) !! l = None ∨ ∃ ledger, holds w ledger ∧ ledger_ok ledger.
Proof.
  intros Hrt Hl Hn Hr.
  assert (file_ok w0) as Hf by (left; by rewrite Hn).
  destruct (reachable_stays w0 w Hrt Hl Hf Hr) as [_ [Hnone | (ledger & bytes & Hb & Hv & Hok)]].
  - left. by destruct (fs_nodes (wd_fs w) !! l) as [[] |].
  - right. exists ledger. split; [| done]. destruct (Hrt _ _ Hv) as (v & Hv' & Hd).
    exists bytes, v. repeat split; [done.. |]. apply Hok.
Qed.

(** The write is atomic and private: under any faults of the file system,
    [persist_ledger] either reports success and the file then holds exactly
    the new bytes with mode 0600, or reports an error and the file's content
    is what it was. *)
Theorem persist_is_atomic_and_private ledger w :
  locate (wd_fs w) p = Some l →
  match persist_ledger (E := E) p ledger w with
  | (Ok _, w') => ∃ bytes, ledger_to_vec_pretty ledger = Some bytes
                           ∧ fs_nodes (wd_fs w') !! l = Some (File 384 bytes)
  | (Err _, w') => content (fs_nodes (wd_fs w') !! l) = content (fs_nodes (wd_fs w) !! l)
  end.
Proof.
  intros Hl. pose proof (persist_ledger_spec ledger w w) as Hp.
  assert (unchanged w w) as Hw by done. specialize (Hp Hw).
  destruct (persist_ledger p ledger w) as [[a | e] w']; [apply Hp |]. by eapply unchanged_content.
Qed.

(** *** The host of a call *)

(** Only a status read and a fresh identifier change the host. *)
Definition host_is (h : H) (w : W) : Prop := wd_host w = h.
#[local] Abbreviation still h m := (triple (host_is h) m (λ _, host_is h) (λ _, host_is h)).

Lemma io_still {A} h (op : FsOp A) code message : still h (io (E := E) op code message).
Proof. intros w Hw. unfold io. by destruct (op (wd_fs w)) as [[] fs]. Qed.
Lemma probe_still {A} h (op : FsOp A) : still h (probe (E := E) op).
Proof. intros w Hw. unfold probe. by destruct (op (wd_fs w)) as [[] fs]. Qed.
Lemma lift_still {A} h (r : result A (RecoveryError E)) : still h (lift r).
Proof. intros w Hw. unfold lift. by destruct r. Qed.
Lemma ensure_still h b (e : RecoveryError E) : still h (ensure b e).
Proof. intros w Hw. unfold ensure. by destruct b. Qed.
Lemma ret_still {A} h (a : A) : still h (ret (E := RecoveryError E) a).
Proof. by intros w Hw. Qed.

Ltac walk_still :=
  repeat first
    [ match goal with |- ∀ _, _ => intros ? end
    | apply io_still | apply probe_still | apply lift_still | apply ensure_still | apply ret_still
    | eapply triple_bind; [| intros ?; cbv beta]
    | case_match ].

Lemma read_json_still h q code : still h (read_json (E := E) q code).
Proof. unfold read_json. walk_still. Qed.
Lemma validate_ledger_path_still h q : still h (validate_ledger_path (E := E) q).
Proof. unfold validate_ledger_path. walk_still. Qed.
Lemma load_ledger_still h q : still h (load_ledger (E := E) q).
Proof.
  unfold load_ledger. eapply triple_bind; [apply validate_ledger_path_still |]. intros ?. cbv beta.
  eapply triple_bind; [apply probe_still |]. intros ?. cbv beta. case_match; [apply ret_still |].
  eapply triple_bind; [apply read_json_still |]. walk_still.
Qed.
(** A write draws one identifier. *)
Lemma persist_ledger_host h q ledger :
  triple (host_is h) (persist_ledger (E := E) q ledger) (λ _, host_is (now_v7 h).2) (λ _ _, True).
Proof.
  assert (∀ A k (m : M W (RecoveryError E) A), still k m → triple (host_is k) m (λ _, host_is k) (λ _ _, True)) as Hw.
  { intros A k m Hm. by eapply triple_weaken. }
  unfold persist_ledger. do 5 (eapply triple_bind; [apply Hw; first [apply validate_ledger_path_still | walk_still] | intros ?; cbv beta]).
  eapply (triple_bind _ _ _ (λ _, host_is (now_v7 h).2)).
  { intros w <-. unfold host_call, host_is. by destruct (now_v7 (wd_host w)). }
  intros uuid. apply Hw. walk_still.
Qed.

(** What the status read [h → h'] proved of a success receipt. *)
Definition proved_merged (h h' : H) (request : RecoveryRequest) (commit : CommitOid) : Prop :=
  ∃ st pr pull, read_status h = (Ok st, h')
  ∧ rq_pr request = Some pr ∧ st_repository st = rq_repository request
  ∧ ga_pull_requests (st_analysis st) !! pr = Some pull ∧ pr_state pull = Merged
  ∧ br_oid (fl_default_branch (ga_fleet (st_analysis st))) = commit.

Lemma verify_success_inv context request receipt w u w' :
  verify_success (E := E) context request receipt w = (Ok u, w') →
  context = true ∧ ar_provider_main_verified receipt = true
  ∧ ∃ commit, ar_landed_commit receipt = Some commit ∧ proved_merged (wd_host w) (wd_host w') request commit.
Proof.
  unfold verify_success. intros Hv. bind_inv Hv. apply ensure_ok in Hm as [Hver ->].
  bind_inv Hv. apply lift_ok in Hm as [Hpr ->]. bind_inv Hv. apply lift_ok in Hm as [Hc ->].
  bind_inv Hv. apply ensure_ok in Hm as [Hctx ->]. bind_inv Hv.
  unfold status in Hm. destruct (read_status (wd_host w)) as [[st | e] h] eqn:Hst; [| done]. simplify_eq.
  bind_inv Hv. apply lift_ok in Hm as [Hpull ->]. apply ensure_ok in Hv as [Hall ->].
  split; [done |]. split; [done |].
  destruct (rq_pr request) as [pr |] eqn:Hrq; [| done].
  destruct (ar_landed_commit receipt) as [commit |]; [| done].
  destruct (ga_pull_requests (st_analysis _) !! _) as [pull |] eqn:Hp; [| done]. simpl in *. simplify_eq.
  apply negb_true_iff in Hall. bool_prop.
  eexists. split; [reflexivity |]. eexists _, _, _. repeat split; try done.
  - by apply state_is_true.
  - by apply String.eqb_eq.
Qed.

(** C13. Completion is proved by the provider: an attempt that leaves its entry
    completed, when it is not a repetition, was verified against a status it
    read itself, in the state of the host the call began in; that read, and the
    identifier of the file it writes, are all the call asks of the host. In it
    the request's pull request is merged, the repository is the request's, and
    the default branch points at the commit the receipt claims. *)
Theorem completion_is_proved_by_a_fresh_read context input w out w' :
  record_attempt (E := E) context input w = (Ok out, w') →
  ao_duplicate out = false → en_completed (ao_entry out) = true →
  context = true
  ∧ ∃ a commit h, last (en_attempts (ao_entry out)) = Some a ∧ at_outcome a = Success
    ∧ at_landed_commit a = Some commit ∧ proved_merged (wd_host w) h (en_request (ao_entry out)) commit
    ∧ wd_host w' = (now_v7 h).2.
Proof.
  unfold record_attempt. intros Hr Hdup Hdone. bind_inv Hr. bind_inv Hr. apply lift_ok in Hm0 as [_ ->].
  bind_inv Hr. apply lift_ok in Hm0 as [_ ->]. bind_inv Hr. rename Hm0 into Hload.
  pose proof (read_json_still (wd_host w) (ri_receipt input) "recovery_attempt_input_invalid" w eq_refl) as H1.
  rewrite Hm in H1. pose proof (load_ledger_still (wd_host w) (ri_attempt_ledger input) _ H1) as H2. rewrite Hload in H2.
  unfold advance_entry in Hr. bind_inv Hr. apply lift_ok in Hm0 as [_ ->]. bind_inv Hr. apply lift_ok in Hm0 as [_ ->].
  bind_inv Hr. destruct (is_duplicate _ _) eqn:Hd; [by injection Hr as <- _ |].
  bind_inv Hr. apply lift_ok in Hm1 as [Hp ->]. bind_inv Hr. injection Hr as <- <-. simpl in *.
  apply push_attempt_inv in Hp as (x & Hrq & Hats & Ho & _ & Hl & _ & Hc & _).
  rewrite Hc in Hdone. rewrite Hdone in Hm0. bool_prop.
  apply verify_success_inv in Hm0 as (Hctx & _ & commit & Hcommit & Hproved).
  split; [done |]. eexists x, commit, _. rewrite Hats, last_snoc, Hrq, Ho, Hl.
  unfold host_is in H2. rewrite H2 in Hproved. split_and!; [done | done | exact Hcommit | exact Hproved |].
  pose proof (persist_ledger_host (wd_host w2) (ri_attempt_ledger input) (with_entry (ar_request_id a0) a6 a2) w2 eq_refl) as H3. by rewrite Hm1 in H3.
Qed.
End file.

(** ** The hypotheses can hold *)

Definition sample_request_input : RecoveryRequestInput :=
  mkRequestInput (mkPath true ["error"]) sample_path 2 5.
Definition recorded_world : World unit := (record_request (E := unit) sample_request_input (sample_world [])).2.
Definition failed_world : World unit :=
  (record_attempt (E := unit) true (sample_input "r1") recorded_world).2.

Lemma ledger_file_stays_well_formed_witness :
  fs_nodes (wd_fs failed_world) !! sample_location ≠ None
  ∧ (fs_nodes (wd_fs failed_world) !! sample_location = None
     ∨ ∃ ledger, holds sample_location failed_world ledger ∧ ledger_ok ledger).
Proof.
  split; [by vm_compute |].
  apply (ledger_file_stays_well_formed (E := unit) sample_path sample_location (sample_world []) failed_world).
  - exact sample_round_trips.
  - reflexivity.
  - by vm_compute.
  - apply reach_attempt; [| reflexivity]. apply reach_request; [apply reach_start | reflexivity].
Defined.

Lemma persist_is_atomic_and_private_witness :
  match persist_ledger (E := unit) sample_path (sample_ledger sample_entry) (sample_world []) with
  | (Ok _, w') => ∃ bytes, ledger_to_vec_pretty (sample_ledger sample_entry) = Some bytes
                           ∧ fs_nodes (wd_fs w') !! sample_location = Some (File 384 bytes)
  | (Err _, w') => False
  end.
Proof.
  pose proof (persist_is_atomic_and_private (E := unit) sample_path sample_location
    (sample_ledger sample_entry) (sample_world []) eq_refl) as Hp.
  assert (is_ok (persist_ledger (E := unit) sample_path (sample_ledger sample_entry) (sample_world [])).1 = true)
    as Hok by by vm_compute.
  destruct (persist_ledger sample_path (sample_ledger sample_entry) (sample_world [])) as [[u | e] w'];
    [exact Hp | discriminate Hok].
Defined.

Lemma completion_is_proved_by_a_fresh_read_witness :
  ∃ a commit h, last (en_attempts (sample_push sample_entry (sample_receipt Success (Some "landed") 40000))) = Some a
    ∧ at_outcome a = Success ∧ at_landed_commit a = Some commit
    ∧ proved_merged (wd_host stored_world) h sample_request commit ∧ wd_host (sample_world [(sample_location, File 384 [3%N]); (["var"], Dir 448)]) = (now_v7 h).2.
Proof.
  apply (completion_is_proved_by_a_fresh_read true (sample_input "ok") stored_world _ _ sample_success);
    reflexivity.
Defined.
