(* ===== verification/RecoveryLiveness.v ===== *)
(** Exhaustion is reported: on a file system that works, repeated transient
    failures of one request are all recorded up to its budget, the last of
    them escalates, and the next one is refused. *)

From Stdlib Require Import Ascii String.
From S2P Require Import Prelude Text Model Graph Effects Files RecoveryLedger RecoverySample RecoveryLedgerProofs.

#[local] Open Scope string_scope.
#[local] Open Scope list_scope.
#[local] Open Scope nat_scope.
#[local] Open Scope caravan_scope.
#[local] Open Scope effect_scope.

(** ** The file system works *)

Lemma make_dirs_id todo above nodes :
  (∀ k, k `prefix_of` todo → k ≠ [] → ∃ mode, nodes !! (above ++ k) = Some (Dir mode)) →
  make_dirs above todo nodes = Some nodes.
Proof.
  revert above. induction todo as [| c todo IH]; intros above Hd; simpl; [done |].
  destruct (Hd [c]) as [mode Hm]; [by apply prefix_cons, prefix_nil | done |]. rewrite Hm. apply IH.
  intros k Hk Hne. rewrite <- app_assoc. simpl. by apply Hd; [apply prefix_cons |].
Qed.

Section working.
Context {Value H E Config : Type} `{!LedgerCodec Value} `{!RecoveryHost H E Config}.
Context (p q : Path) (l k : Location).

#[local] Abbreviation W := (World H).

(** The name of a temporary file of this ledger. *)
Definition temporary_name (uuid : string) : string :=
  fmt ["recovery-ledger"; "."; fmt [uuid; ".tmp"]].

(** No fault is scheduled, the directory of the ledger exists, no temporary
    file was left behind, and the ledger is a file. *)
Record ready (w : W) : Prop := mkReady {
  rd_faults : fs_faults (wd_fs w) = [];
  rd_name : file_name p = Some "recovery-ledger.json";
  rd_parent : parent p = Some q;
  rd_locate : locate (wd_fs w) p = Some l;
  rd_locate_parent : locate (wd_fs w) q = Some k;
  rd_above : removelast l = k ∧ length k < length l;
  rd_dirs : ∀ d, d `prefix_of` k → d ≠ [] → ∃ mode, fs_nodes (wd_fs w) !! d = Some (Dir mode);
  rd_dir : ∃ mode, fs_nodes (wd_fs w) !! k = Some (Dir mode);
  rd_free : ∀ uuid, fs_nodes (wd_fs w) !! (k ++ [temporary_name uuid]) = None;
  rd_file : ∃ mode bytes, fs_nodes (wd_fs w) !! l = Some (File mode bytes) }.

(** A ledger the module accepts to write, and can read back. *)
Definition storable (ledger : RecoveryLedger) : Prop :=
  reject_secrets (E := E) (ledger_text ledger) = Ok ()
  ∧ ∃ bytes, ledger_to_vec_pretty ledger = Some bytes ∧ (N.of_nat (length bytes) ≤ MAX_INPUT_BYTES)%N.

Lemma fs_read_op_ready {A : Type} (read : FileSystem → option A) fs :
  fs_faults fs = [] → fs_read_op read fs = (read fs, fs).
Proof. intros Hf. unfold fs_read_op. by rewrite fs_op_works. Qed.

Lemma probe_ready {A : Type} (read : FileSystem → option A) (w : W) :
  fs_faults (wd_fs w) = [] → probe (E := E) (fs_read_op read) w = (Ok (read (wd_fs w)), w).
Proof. intros Hf. unfold probe. rewrite fs_read_op_ready by done. by destruct w. Qed.

Lemma io_ready {A : Type} (op : FsOp A) code message (w : W) a fs :
  op (wd_fs w) = (Some a, fs) →
  io (E := E) op code message w = (Ok a, mkWorld fs (wd_host w)).
Proof. intros Ho. unfold io. by rewrite Ho. Qed.

Lemma validate_ready w : ready w → validate_ledger_path (E := E) p w = (Ok (), w).
Proof.
  intros [Hf Hn Hp Hl Hk _ _ [dm Hd] _ (m & b & Hfile)]. unfold validate_ledger_path, bind, ensure.
  rewrite bool_decide_eq_true_2 by done. unfold fs_symlink_metadata. rewrite probe_ready by done.
  rewrite Hl, Hfile. simpl. rewrite Hp, probe_ready by done. rewrite Hk, Hd. done.
Qed.

Lemma node_at_file fs r j mode bytes :
  locate fs r = Some j → fs_nodes fs !! j = Some (File mode bytes) →
  node_at fs r = Some (File mode bytes).
Proof.
  intros Hl Hn. unfold node_at. rewrite Hl, follow_here; [done |]. intros t. by rewrite Hn.
Qed.

(** A small file that is there is read. *)
Lemma read_json_ready r code (w : W) j mode bytes v :
  fs_faults (wd_fs w) = [] → locate (wd_fs w) r = Some j →
  fs_nodes (wd_fs w) !! j = Some (File mode bytes) →
  (N.of_nat (length bytes) ≤ MAX_INPUT_BYTES)%N → from_slice bytes = Some v →
  read_json (E := E) r code w = (Ok v, w).
Proof.
  intros Hf Hl Hn Hlen Hv. unfold read_json, bind, io, fs_metadata_len, fs_read.
  rewrite fs_read_op_ready by done. rewrite (node_at_file _ _ _ _ _ Hl Hn). simpl. unfold ensure.
  rewrite (proj2 (N.leb_le _ _) Hlen). simpl. rewrite fs_read_op_ready by done.
  rewrite (node_at_file _ _ _ _ _ Hl Hn). unfold lift. simpl. rewrite Hv. by destruct w.
Qed.

(** The file holds this ledger, in a form that is read back. *)
Definition stores (w : W) (ledger : RecoveryLedger) : Prop :=
  ∃ mode bytes v, fs_nodes (wd_fs w) !! l = Some (File mode bytes)
  ∧ (N.of_nat (length bytes) ≤ MAX_INPUT_BYTES)%N
  ∧ from_slice bytes = Some v ∧ ledger_from_value v = Some ledger
  ∧ lg_schema_version ledger = SCHEMA_VERSION.

Lemma load_ready w ledger :
  ready w → stores w ledger → load_ledger (E := E) p w = (Ok ledger, w).
Proof.
  intros Hr (m & bytes & v & Hn & Hlen & Hv & Hd & Hs). unfold load_ledger.
  rewrite (bind_ok _ _ _ _ _ (validate_ready w Hr)). destruct Hr as [Hf _ _ Hl _ _ _ _ _ _].
  unfold fs_exists. rewrite (bind_ok _ _ _ _ _ (probe_ready _ _ Hf)).
  rewrite (node_at_file _ _ _ _ _ Hl Hn). cbn [is_none_b is_some_b negb].
  rewrite (bind_ok _ _ _ _ _ (read_json_ready _ _ _ _ _ _ _ Hf Hl Hn Hlen Hv)).
  unfold bind, lift, ensure. rewrite Hd. simpl. rewrite Hs. done.
Qed.

(** What a successful write leaves. *)
Definition written (bytes : list N) (w : W) (h : H) : W :=
  mkWorld (with_nodes (<[l := File 384 bytes]> (<[k := Dir 448]> (fs_nodes (wd_fs w)))) (wd_fs w)) h.

Lemma parent_dir_ready (w : W) :
  ready w →
  fs_create_dir_all q (wd_fs w) = (Some (), wd_fs w)
  ∧ fs_set_permissions q 448 (wd_fs w)
    = (Some (), with_nodes (<[k := Dir 448]> (fs_nodes (wd_fs w))) (wd_fs w)).
Proof.
  intros [Hf Hn Hp Hl Hk _ Hds [dm Hd] _ _]. split.
  - unfold fs_create_dir_all. rewrite fs_op_works by done. rewrite Hk, make_dirs_id by done.
    by destruct (wd_fs w).
  - unfold fs_set_permissions. rewrite fs_op_works by done. rewrite Hk, follow_here, Hd; [done |].
    intros t. by rewrite Hd.
Qed.

Lemma is_dir_location_dir fs d mode : fs_nodes fs !! d = Some (Dir mode) → is_dir_location fs d = true.
Proof.
  intros Hd. unfold is_dir_location. destruct d as [| c d]; [done |].
  rewrite follow_here; [by rewrite Hd |]. intros t. by rewrite Hd.
Qed.

(** The three operations on the temporary file, at [j]. *)
Lemma temporary_ready t j bytes fs mode old b :
  fs_faults fs = [] → locate fs t = Some j → locate fs p = Some l → removelast j = k →
  removelast l = k → l ≠ [] → j ≠ [] → j ≠ l → j ≠ k → fs_nodes fs !! k = Some (Dir mode) →
  fs_nodes fs !! j = None → fs_nodes fs !! l = Some (File old b) →
  ∃ fs1 fs2, fs_create_new t 384 fs = (Some (), fs1) ∧ fs_write_sync t bytes fs1 = (Some (), fs2)
  ∧ fs_rename t p fs2 = (Some (), with_nodes (<[l := File 384 bytes]> (fs_nodes fs)) fs).
Proof.
  intros Hf Ht Hl Hjk Hlk Hl0 Hj0 Hjl Hjk' Hk Hj Hold.
  exists (with_nodes (<[j := File 384 []]> (fs_nodes fs)) fs).
  exists (with_nodes (<[j := File 384 bytes]> (fs_nodes fs)) fs). repeat split.
  - unfold fs_create_new. rewrite fs_op_works by done. rewrite Ht, Hj, Hjk.
    rewrite (is_dir_location_dir _ _ _ Hk), bool_decide_eq_false_2 by done. done.
  - unfold fs_write_sync, put_bytes. rewrite fs_op_works by done.
    rewrite (locate_nodes _ fs) by done. rewrite Ht. simpl.
    rewrite lookup_insert_eq. unfold with_nodes. simpl. by rewrite insert_insert_eq.
  - unfold fs_rename. rewrite fs_op_works by done.
    rewrite (locate_nodes _ fs t), (locate_nodes _ fs p) by done. rewrite Ht, Hl. simpl.
    rewrite lookup_insert_eq, lookup_insert_ne, Hold by done. rewrite Hlk.
    rewrite (is_dir_location_dir _ k mode) by (simpl; by rewrite lookup_insert_ne).
    rewrite bool_decide_eq_false_2 by done. simpl. unfold with_nodes. simpl.
    by rewrite delete_insert_eq, delete_id.
Qed.

Lemma persist_ready w ledger :
  ready w → storable ledger →
  ∃ bytes h, ledger_to_vec_pretty ledger = Some bytes
  ∧ (N.of_nat (length bytes) ≤ MAX_INPUT_BYTES)%N
  ∧ persist_ledger (E := E) p ledger w = (Ok (), written bytes w h).
Proof.
  intros Hr (Htext & bytes & Hbytes & Hlen). destruct (parent_dir_ready w Hr) as [Hcreate Hmode].
  destruct (now_v7 (wd_host w)) as [uuid h] eqn:Hu. exists bytes, h. split; [done |]. split; [done |].
  unfold persist_ledger. rewrite (bind_ok _ _ _ _ _ (validate_ready w Hr)).
  destruct Hr as [Hf Hn Hp Hl Hk [Hab Hlt] Hds [dm Hd] Hfree (om & ob & Hfile)].
  rewrite Htext, Hp, Hbytes. cbn [ok_or].
  rewrite !bind_lift_ok.
  rewrite (bind_ok _ _ _ _ _ (io_ready _ _ _ _ _ _ Hcreate)). cbn [wd_fs].
  rewrite (bind_ok _ _ _ _ _ (io_ready _ _ _ (mkWorld (wd_fs w) (wd_host w)) _ _ Hmode)).
  set (fs := with_nodes (<[k := Dir 448]> (fs_nodes (wd_fs w))) (wd_fs w)).
  assert (host_call (E := E) now_v7 (mkWorld fs (wd_host w)) = (Ok uuid, mkWorld fs h)) as Hcall
    by (unfold host_call; simpl; by rewrite Hu).
  rewrite (bind_ok _ _ _ _ _ Hcall). cbn zeta.
  rewrite bind_lift_ok.
  destruct (temporary_location p (wd_fs w) l uuid Hn Hl) as (j & Hj & Hjl & Hjk).
  rewrite Hab in Hjk. fold (temporary_name uuid) in Hjk.
  assert (j ≠ k) as Hne.
  { rewrite Hjk. intros Hx%(f_equal length). rewrite length_app in Hx. simpl in Hx. lia. }
  edestruct (temporary_ready (with_extension (fmt [uuid; ".tmp"]) p) j bytes fs 448 om ob)
    as (fs1 & fs2 & H1 & H2 & H3); try done.
  - by rewrite Hjk, removelast_last.
  - intros ->. simpl in Hlt. lia.
  - rewrite Hjk. by destruct k.
  - simpl. by rewrite lookup_insert_eq.
  - simpl. rewrite lookup_insert_ne by done. by rewrite Hjk.
  - simpl. rewrite lookup_insert_ne; [done |]. intros ->. lia.
  - rewrite (bind_ok _ _ _ _ _ (io_ready _ _ _ (mkWorld fs h) _ _ H1)).
    rewrite (bind_ok _ _ _ _ _ (io_ready _ _ _ (mkWorld fs1 h) _ _ H2)).
    by rewrite (io_ready _ _ _ (mkWorld fs2 h) _ _ H3).
Qed.

Lemma written_lookup bytes w h j :
  j ≠ l → j ≠ k → fs_nodes (wd_fs (written bytes w h)) !! j = fs_nodes (wd_fs w) !! j.
Proof. intros Hl Hk. simpl. by rewrite !lookup_insert_ne. Qed.

Lemma written_ready bytes w h : ready w → ready (written bytes w h).
Proof.
  intros [Hf Hn Hp Hl Hk [Hab Hlt] Hds [dm Hd] Hfree (om & ob & Hfile)].
  assert (k ≠ l) as Hkl by (intros ->; lia).
  split; try done.
  - intros d Hpre Hne. destruct (decide (d = k)) as [-> | Hdk].
    + exists 448%N. simpl. by rewrite lookup_insert_ne, lookup_insert_eq.
    + rewrite written_lookup; [by apply Hds | | done].
      intros ->. apply prefix_length in Hpre. lia.
  - exists 448%N. simpl. by rewrite lookup_insert_ne, lookup_insert_eq.
  - intros uuid. rewrite written_lookup; [done | |].
    + intros Hx. specialize (Hfree uuid). rewrite Hx, Hfile in Hfree. done.
    + intros Hx%(f_equal length). rewrite length_app in Hx. simpl in Hx. lia.
  - exists 384%N, bytes. simpl. by rewrite lookup_insert_eq.
Qed.

(** ** One recorded attempt *)

(** The input names this ledger and a readable file with the receipt. *)
Definition receipt_at (w : W) (input : RecoveryAttemptInput) (receipt : RecoveryAttemptReceipt) : Prop :=
  ri_attempt_ledger input = p
  ∧ reject_secrets (E := E) (receipt_text receipt) = Ok ()
  ∧ ∃ j mode bytes v, locate (wd_fs w) (ri_receipt input) = Some j ∧ j ≠ l
    ∧ fs_nodes (wd_fs w) !! j = Some (File mode bytes) ∧ (N.of_nat (length bytes) ≤ MAX_INPUT_BYTES)%N
    ∧ from_slice bytes = Some v ∧ receipt_from_value v = Some receipt.

Lemma receipt_at_written bytes w h input receipt :
  ready w → receipt_at w input receipt → receipt_at (written bytes w h) input receipt.
Proof.
  intros [_ _ _ _ _ _ _ [dm Hd] _ _] (Hp & Ht & j & mode & b & v & Hj & Hjl & Hn & Hrest).
  split; [done |]. split; [done |]. exists j, mode, b, v. split; [done |]. split; [done |].
  split; [| done]. rewrite written_lookup; [done.. |]. intros ->. by rewrite Hd in Hn.
Qed.

Lemma record_attempt_loads context w ledger input receipt :
  ready w → stores w ledger → receipt_at w input receipt →
  record_attempt (E := E) context input w = advance_entry context p receipt ledger w.
Proof.
  intros Hr Hs (Hp & Ht & j & mode & bytes & v & Hj & _ & Hn & Hlen & Hv & Hd).
  unfold record_attempt. rewrite Hp.
  rewrite (bind_ok _ _ _ _ _ (read_json_ready _ _ _ _ _ _ _ (rd_faults _ Hr) Hj Hn Hlen Hv)).
  rewrite Hd. cbn [ok_or]. rewrite bind_lift_ok, Ht, bind_lift_ok.
  by rewrite (bind_ok _ _ _ _ _ (load_ready w ledger Hr Hs)).
Qed.

(** A receipt for an entry of the ledger that may be pushed on it. *)
Definition fits_request (id : string) (request : RecoveryRequest) (receipt : RecoveryAttemptReceipt) : Prop :=
  ar_request_id receipt = id ∧ ar_outcome receipt ≠ Success
  ∧ validate_receipt_generation (E := E) request receipt = Ok ().

Lemma advance_entry_eq context w ledger id entry receipt :
  lg_entries ledger !! id = Some entry → fits_request id (en_request entry) receipt →
  is_duplicate entry receipt = false →
  advance_entry (E := E) context p receipt ledger w =
  match push_attempt entry receipt with
  | Err e => (Err e, w)
  | Ok entry' => bind (persist_ledger p (with_entry id entry' ledger))
                   (λ _, ret (mkAttemptOutput entry' false false)) w
  end.
Proof.
  intros He (Hid & Ho & Hg) Hd. unfold advance_entry. rewrite Hid, He. cbn [ok_or].
  rewrite bind_lift_ok, Hg, bind_lift_ok. rewrite bool_decide_eq_false_2 by done.
  unfold bind at 1, ret at 1. rewrite Hd. by destruct (push_attempt entry receipt).
Qed.

(** ** A sequence of attempts runs as the pushes of its receipts *)

Fixpoint run_attempts (context : bool) (inputs : list RecoveryAttemptInput) (w : W)
    : list (result RecoveryAttemptOutput (RecoveryError E)) * W :=
  match inputs with
  | [] => ([], w)
  | input :: inputs =>
      let (r, w) := record_attempt context input w in
      let (rs, w) := run_attempts context inputs w in (r :: rs, w)
  end.

Fixpoint push_all (entry : RecoveryLedgerEntry) (receipts : list RecoveryAttemptReceipt)
    : list (result RecoveryAttemptOutput (RecoveryError E)) * RecoveryLedgerEntry :=
  match receipts with
  | [] => ([], entry)
  | receipt :: receipts =>
      match push_attempt entry receipt with
      | Ok entry =>
          let (rs, final) := push_all entry receipts in (Ok (mkAttemptOutput entry false false) :: rs, final)
      | Err e => let (rs, final) := push_all entry receipts in (Err e :: rs, final)
      end
  end.

(** The entry before each receipt is pushed does not hold it already, and each
    ledger on the way can be written. *)
Fixpoint runs_through (id : string) (ledger : RecoveryLedger) (entry : RecoveryLedgerEntry)
    (receipts : list RecoveryAttemptReceipt) : Prop :=
  match receipts with
  | [] => True
  | receipt :: receipts =>
      is_duplicate entry receipt = false
      ∧ match push_attempt (E := E) entry receipt with
        | Ok entry => storable (with_entry id entry ledger) ∧ runs_through id ledger entry receipts
        | Err _ => runs_through id ledger entry receipts
        end
  end.

Lemma with_entry_twice id a b ledger : with_entry id b (with_entry id a ledger) = with_entry id b ledger.
Proof. unfold with_entry. simpl. by rewrite insert_insert_eq. Qed.

Lemma with_entry_same id entry ledger :
  lg_entries ledger !! id = Some entry → with_entry id entry ledger = ledger.
Proof. intros He. unfold with_entry. rewrite insert_id by done. by destruct ledger. Qed.

Lemma push_attempt_request entry receipt entry' :
  push_attempt (E := E) entry receipt = Ok entry' → en_request entry' = en_request entry.
Proof. intros Hp. by apply push_attempt_inv in Hp as (a & Hrq & _). Qed.

Lemma written_stores bytes w h ledger :
  round_trips → ledger_to_vec_pretty ledger = Some bytes →
  (N.of_nat (length bytes) ≤ MAX_INPUT_BYTES)%N → lg_schema_version ledger = SCHEMA_VERSION →
  stores (written bytes w h) ledger.
Proof.
  intros Hrt Hb Hlen Hs. destruct (Hrt _ _ Hb) as (v & Hv & Hd). exists 384%N, bytes, v.
  repeat split; try done. simpl. by rewrite lookup_insert_eq.
Qed.

Lemma run_attempts_push context id ledger inputs receipts w entry :
  round_trips → ready w → stores w (with_entry id entry ledger) →
  lg_schema_version ledger = SCHEMA_VERSION →
  Forall2 (receipt_at w) inputs receipts → Forall (fits_request id (en_request entry)) receipts →
  runs_through id ledger entry receipts →
  ∃ w', run_attempts context inputs w = ((push_all entry receipts).1, w')
  ∧ ready w' ∧ stores w' (with_entry id (push_all entry receipts).2 ledger).
Proof.
  intros Hrt Hr Hs Hsch Hin. revert w entry Hr Hs Hin.
  induction inputs as [| input inputs IH] in receipts |- *; intros w entry Hr Hs Hin Hm Hrun.
  { apply Forall2_nil_inv_l in Hin as ->. by exists w. }
  apply Forall2_cons_inv_l in Hin as (receipt & receipts' & Hat & Hin & ->).
  apply Forall_cons in Hm as [Hm1 Hm]. simpl in Hrun. destruct Hrun as [Hdup Hrun]. simpl.
  rewrite (record_attempt_loads _ _ _ _ _ Hr Hs Hat).
  rewrite (advance_entry_eq context w (with_entry id entry ledger) id entry receipt)
    by (try done; simpl; by rewrite lookup_insert_eq).
  destruct (push_attempt entry receipt) as [entry' | e] eqn:Hp.
  - destruct Hrun as [Hst Hrun]. rewrite with_entry_twice.
    destruct (persist_ready w _ Hr Hst) as (bytes & h & Hb & Hlen & Hok).
    rewrite (bind_ok _ _ _ _ _ Hok).
    destruct (IH receipts' (written bytes w h) entry') as (w' & Hw' & Hr' & Hs').
    + by apply written_ready.
    + by apply written_stores.
    + eapply Forall2_impl; [exact Hin |]. intros i r. by apply receipt_at_written.
    + by rewrite (push_attempt_request _ _ _ Hp).
    + done.
    + exists w'. unfold ret. rewrite Hw'. by destruct (push_all entry' receipts').
  - destruct (IH receipts' w entry) as (w' & Hw' & Hr' & Hs'); try done.
    exists w'. rewrite Hw'. by destruct (push_all entry receipts').
Qed.

(** ** Exhaustion *)

Definition exhausted_error : RecoveryError E :=
  ValidationError "recovery_attempts_exhausted"
    "transient retry budget is exhausted for this exact generation".

Lemma push_transient entry receipt :
  ar_outcome receipt = TransientFailure → rq_disposition (en_request entry) = RetryTransient →
  push_attempt (E := E) entry receipt = Err exhausted_error ↔
  budget (en_request entry) ≤ length (en_attempts entry).
Proof.
  intros Ho Hd. unfold push_attempt, retryable. rewrite Ho, Hd, !bool_decide_eq_true_2 by done. simpl.
  unfold budget. destruct (_ <=? _)%N eqn:Hx; bool_prop; (split; [| done || lia]); try done; intros; lia.
Qed.

(** A transient failure inside the budget is recorded. *)
Lemma push_inside_budget id entry receipt :
  entry_ok id entry → is_duplicate entry receipt = false →
  ar_outcome receipt = TransientFailure → rq_disposition (en_request entry) = RetryTransient →
  length (en_attempts entry) < budget (en_request entry) →
  ∃ entry', push_attempt (E := E) entry receipt = Ok entry' ∧ entry_ok id entry'
  ∧ en_request entry' = en_request entry
  ∧ length (en_attempts entry') = S (length (en_attempts entry))
  ∧ en_escalation entry' =
      then_some (S (length (en_attempts entry)) =? budget (en_request entry))%nat
        (escalation (en_request entry) (ar_observed_unix_ms receipt)).
Proof.
  intros Hok Hdup Ho Hd Hlt.
  destruct (push_attempt entry receipt) as [entry' | e] eqn:Hp.
  2: { exfalso. assert (e = exhausted_error) as ->.
       { unfold push_attempt in Hp. by case_on Hp; simplify_eq. }
       apply push_transient in Hp; [lia | done..]. }
  exists entry'. split; [done |]. split; [by eapply push_preserves |].
  pose proof (push_escalation _ _ _ _ Hok Hp) as Hesc.
  apply push_attempt_inv in Hp as (a & Hrq & Hats & Hao & _ & _ & Hobs & _).
  split; [done |]. split; [by rewrite Hats, length_app, Nat.add_1_r |].
  rewrite Hesc. unfold exhausting. rewrite Hrq, Hats.
  destruct (Nat.eqb_spec (S (length (en_attempts entry))) (budget (en_request entry))) as [He | Hne].
  - rewrite <- He. simpl. rewrite Nat.sub_0_r, list_lookup_middle by done. simpl.
    unfold retryable. rewrite Hao, Ho, Hd, !bool_decide_eq_true_2 by done. simpl. by rewrite Hobs.
  - by rewrite lookup_ge_None_2 by (rewrite length_app; simpl; lia).
Qed.

Definition is_transient (receipt : RecoveryAttemptReceipt) : Prop := ar_outcome receipt = TransientFailure.

Lemma push_all_exhausts id ledger entry receipts request :
  entry_ok id entry → en_request entry = request → rq_disposition request = RetryTransient →
  Forall is_transient receipts → runs_through id ledger entry receipts →
  length (en_attempts entry) < budget request →
  length receipts = S (budget request - length (en_attempts entry)) →
  ∃ outs out last_receipt,
    (push_all entry receipts).1 = (Ok <$> outs) ++ [Ok out; Err exhausted_error]
    ∧ length outs = budget request - length (en_attempts entry) - 1
    ∧ Forall (λ o, en_escalation (ao_entry o) = None) outs
    ∧ receipts !! (budget request - length (en_attempts entry) - 1) = Some last_receipt
    ∧ en_escalation (ao_entry out) = Some (escalation request (ar_observed_unix_ms last_receipt))
    ∧ (push_all entry receipts).2 = ao_entry out.
Proof.
  intros Hok Hrq Hd. revert entry Hok Hrq.
  induction receipts as [| r receipts IH]; intros entry Hok Hrq Ht Hrun Hlt Hlen; [done |].
  apply Forall_cons in Ht as [Hr Ht]. simpl in Hrun. destruct Hrun as [Hdup Hrun].
  destruct (push_inside_budget id entry r) as (entry' & Hp & Hok' & Hrq' & Hlen' & Hesc);
    [done | done | done | by rewrite Hrq | by rewrite Hrq |].
  rewrite Hp in Hrun. destruct Hrun as [_ Hrun]. simpl. rewrite Hp. rewrite Hrq in *.
  simpl in Hlen. injection Hlen as Hlen.
  destruct (Nat.eqb_spec (S (length (en_attempts entry))) (budget request)) as [He | Hne].
  - destruct receipts as [| r2 [| ? ?]]; simpl in Hlen; [lia | | lia].
    apply Forall_cons in Ht as [Hr2 _]. simpl in Hrun. destruct Hrun as [_ _].
    assert (push_attempt (E := E) entry' r2 = Err exhausted_error) as Hx.
    { apply push_transient; [done | congruence | rewrite Hrq', Hlen'; lia]. }
    simpl. rewrite Hx. exists [], (mkAttemptOutput entry' false false), r. simpl.
    replace (budget request - length (en_attempts entry) - 1) with 0 by lia. by rewrite Hesc.
  - destruct (IH entry') as (outs & out & lastr & H1 & H2 & H3 & H4 & H5 & H6); try done.
    + lia.
    + lia.
    + destruct (push_all entry' receipts) as [rs final]. simpl in *. subst rs.
      exists (mkAttemptOutput entry' false false :: outs), out, lastr. split; [done |].
      split; [simpl; lia |]. split; [by apply Forall_cons |]. split; [| done].
      replace (budget request - length (en_attempts entry) - 1)
        with (S (budget request - length (en_attempts entry') - 1)) by lia. done.
Qed.

(** C11. Exhaustion is reported, exactly once. Given a working file system, a
    fresh request that may be retried, and readable receipts of one more
    transient failure than its budget, every call returns: the attempts inside
    the budget are recorded, none before the last escalates, the last one
    escalates with the observation it was given, the surplus one is refused
    with [recovery_attempts_exhausted], and the file holds the escalated
    entry. *)
Theorem exhaustion_escalates_exactly_once context id ledger entry inputs receipts w :
  round_trips → ready w → stores w ledger →
  lg_entries ledger !! id = Some entry → entry_ok id entry → en_attempts entry = [] →
  rq_disposition (en_request entry) = RetryTransient →
  Forall2 (receipt_at w) inputs receipts → Forall (fits_request id (en_request entry)) receipts →
  Forall is_transient receipts → length receipts = S (budget (en_request entry)) →
  runs_through id ledger entry receipts →
  ∃ outs out last_receipt w',
    run_attempts context inputs w = ((Ok <$> outs) ++ [Ok out; Err exhausted_error], w')
    ∧ length outs = budget (en_request entry) - 1
    ∧ Forall (λ o, en_escalation (ao_entry o) = None) outs
    ∧ receipts !! (budget (en_request entry) - 1) = Some last_receipt
    ∧ en_escalation (ao_entry out)
      = Some (escalation (en_request entry) (ar_observed_unix_ms last_receipt))
    ∧ stores w' (with_entry id (ao_entry out) ledger).
Proof.
  intros Hrt Hr Hs He Hok Hnil Hd Hin Hm Ht Hlen Hrun.
  assert (1 ≤ budget (en_request entry)) as Hpos.
  { destruct (eo_bounds _ _ Hok) as [[H1 _] _]. unfold budget. lia. }
  destruct (run_attempts_push context id ledger inputs receipts w entry) as (w' & Hw & _ & Hst); try done.
  { by rewrite with_entry_same. }
  { by destruct Hs as (? & ? & ? & ? & ? & ? & ? & ?). }
  destruct (push_all_exhausts id ledger entry receipts (en_request entry))
    as (outs & out & lastr & H1 & H2 & H3 & H4 & H5 & H6);
    try done; [rewrite Hnil; simpl; lia.. |].
  rewrite Hnil in *. simpl in *. rewrite Nat.sub_0_r in *.
  exists outs, out, lastr, w'. rewrite Hw, H1. repeat split; try done. by rewrite <- H6.
Qed.
End working.

(** ** The hypotheses can hold *)

Lemma sample_ready : ready sample_path (mkPath true ["var"]) sample_location ["var"] stored_world.
Proof.
  split; try reflexivity.
  - split; [reflexivity | by vm_compute; lia].
  - intros d Hd Hne. exists 493%N. destruct d as [| c [| c' d]]; [done | |].
    + apply prefix_cons_inv_1 in Hd as ->. by vm_compute.
    + by apply prefix_length in Hd; simpl in Hd; lia.
  - exists 493%N. by vm_compute.
  - intros uuid. unfold stored_world, sample_world. simpl.
    rewrite lookup_insert_ne; [by rewrite !lookup_insert_ne |].
    intros Hx. destruct (temporary_location sample_path (wd_fs (H := unit) (sample_world [])) sample_location uuid
      eq_refl eq_refl) as (j & _ & Hne & ->). by apply Hne.
  - exists 384%N, [0%N]. by vm_compute.
Qed.

Lemma runs_through_cons id ledger entry receipt receipts entry' bytes :
  is_duplicate entry receipt = false → push_attempt (E := unit) entry receipt = Ok entry' →
  ledger_to_vec_pretty (with_entry id entry' ledger) = Some [bytes] →
  runs_through (E := unit) id ledger entry' receipts →
  runs_through (E := unit) id ledger entry (receipt :: receipts).
Proof.
  intros Hd Hp Hb Hr. cbn [runs_through]. split; [done |]. rewrite Hp. split; [| done].
  split; [reflexivity |]. exists [bytes]. split; [done |]. done.
Qed.

Lemma runs_through_refused id ledger entry receipt e :
  is_duplicate entry receipt = false → push_attempt (E := unit) entry receipt = Err e →
  runs_through (E := unit) id ledger entry [receipt].
Proof. intros Hd Hp. cbn [runs_through]. split; [done |]. by rewrite Hp. Qed.

Lemma sample_runs_through :
  runs_through (E := unit) sample_id (sample_ledger sample_entry) sample_entry (take 3 sample_receipts).
Proof.
  apply (runs_through_cons _ _ _ _ _ (sample_push sample_entry
    (sample_receipt TransientFailure (Some "attempt-1") 2000)) 1); [by vm_compute.. |].
  apply (runs_through_cons _ _ _ _ _ (sample_push (sample_push sample_entry
    (sample_receipt TransientFailure (Some "attempt-1") 2000))
    (sample_receipt TransientFailure (Some "attempt-2") 9000)) 2); [by vm_compute.. |].
  eapply runs_through_refused; by vm_compute.
Qed.

Lemma sample_receipt_at name byte receipt :
  fs_nodes (wd_fs stored_world) !! [name] = Some (File 420 [byte]) →
  from_slice [byte] = Some (SampleNumber byte) → receipt_from_value (SampleNumber byte) = Some receipt →
  receipt_at (E := unit) sample_path sample_location stored_world (sample_input name) receipt.
Proof.
  intros Hn Hb Hr. split; [done |]. split; [done |].
  exists [name], 420%N, [byte], (SampleNumber byte). repeat split; try done.
Qed.

Lemma exhaustion_escalates_exactly_once_witness :
  ∃ outs out last_receipt w',
    run_attempts (E := unit) true (sample_input <$> ["r1"; "r2"; "r3"]) stored_world
    = ((Ok <$> outs) ++ [Ok out; Err exhausted_error], w')
    ∧ length outs = 1
    ∧ Forall (λ o, en_escalation (ao_entry o) = None) outs
    ∧ take 3 sample_receipts !! 1 = Some last_receipt
    ∧ en_escalation (ao_entry out) = Some (escalation sample_request (ar_observed_unix_ms last_receipt))
    ∧ stores sample_location w' (with_entry sample_id (ao_entry out) (sample_ledger sample_entry)).
Proof.
  apply (exhaustion_escalates_exactly_once sample_path (mkPath true ["var"]) sample_location ["var"] true
    sample_id (sample_ledger sample_entry) sample_entry _ (take 3 sample_receipts) stored_world).
  - exact sample_round_trips.
  - exact sample_ready.
  - exists 384%N, [0%N], (SampleNumber 0). by vm_compute.
  - by vm_compute.
  - apply (fresh_entry_ok sample_request). reflexivity.
  - reflexivity.
  - reflexivity.
  - repeat apply Forall2_cons_2; [.. | apply Forall2_nil_2].
    + by apply (sample_receipt_at "r1" 10); [vm_compute | |].
    + by apply (sample_receipt_at "r2" 11); [vm_compute | |].
    + by apply (sample_receipt_at "r3" 12); [vm_compute | |].
  - repeat constructor; by vm_compute.
  - repeat constructor.
  - reflexivity.
  - exact sample_runs_through.
Defined.
