(* ===== verification/GraphChains.v ===== *)
(** Chains of a topology and how they react to edited branches.

    A caravan that starts at a root is the maximal chain of single children
    from it ([derive_root_caravan], [root_caravan_chain]); a problem that
    touches an unparked caravan makes the fleet unhealthy
    ([healthy_caravan_clean]); rewriting the rows of a snapshot without
    touching numbers, states, labels and head names keeps members and heads
    ([rows_map], [active_map], [heads_map]). *)

From Stdlib Require Import String.
From S2P Require Import Prelude Text Model Graph GraphProofs.

#[local] Open Scope string_scope.
#[local] Open Scope list_scope.
#[local] Open Scope nat_scope.

(** ** Maximal chains *)

Section chains.
Context (ch : gmap N (list N)).

Definition stops (x : N) : Prop := ∀ y, ch !! x ≠ Some [y].

Record maximal_chain (l : list N) : Prop := {
  mx_edges : ∀ a b, (a, b) ∈ pairs l → ch !! a = Some [b];
  mx_stops : ∀ x, last l = Some x → stops x }.

Lemma maximal_chain_tail x y l : maximal_chain (x :: y :: l) → maximal_chain (y :: l) ∧ ch !! x = Some [y].
Proof.
  intros [He Hs]. split; [split|].
  - intros a b Hab. apply He. cbn. by right.
  - intros z Hz. by apply Hs.
  - apply He. by left.
Qed.

Lemma maximal_chain_unique l k : l ≠ [] → head l = head k → maximal_chain l → maximal_chain k → l = k.
Proof.
  revert k. induction l as [|x l IH]; intros k Hne Hh Hl Hk; [done|]. clear Hne.
  destruct k as [|x' k]; [done|]. injection Hh as <-.
  destruct l as [|y l], k as [|z k]; [done| | |].
  - apply maximal_chain_tail in Hk as [_ Hk]. by destruct (mx_stops _ Hl x eq_refl z).
  - apply maximal_chain_tail in Hl as [_ Hl]. by destruct (mx_stops _ Hk x eq_refl y).
  - apply maximal_chain_tail in Hl as [Hl Hx], Hk as [Hk Hz]. f_equal.
    apply IH; [done| |done|done]. cbn. congruence.
Qed.
End chains.

Lemma pairs_app {A} (l k : list A) x y :
  last l = Some x → head k = Some y → pairs (l ++ k) = pairs l ++ (x, y) :: pairs k.
Proof.
  intros Hx Hy. induction l as [|a l IH]; [done|]. destruct l as [|b l].
  - cbn in Hx. injection Hx as ->. destruct k as [|c k]; [done|]. cbn in Hy. by injection Hy as ->.
  - cbn in IH |- *. f_equal. by apply IH.
Qed.

Lemma NoDup_last_pair {A} (l : list A) x y : NoDup l → last l = Some x → (x, y) ∉ pairs l.
Proof.
  intros Hnd Hl (l1 & l2 & ->)%elem_of_pairs_split.
  rewrite last_app_cons, last_cons_cons in Hl. apply last_Some_elem_of in Hl.
  apply NoDup_app in Hnd as (_ & _ & Hnd). by apply NoDup_cons in Hnd as [Hni _].
Qed.

(** ** Rooted caravans *)

Section rooted.
Context (snapshot : RepositorySnapshot).
#[local] Abbreviation active := (active_of snapshot).
#[local] Abbreviation parents := (parent_of snapshot).
#[local] Abbreviation children := (children_of snapshot).

Lemma single_child x y : parents !! y = Some x → (∀ c, parents !! c = Some x → c = y) → children !! x = Some [y].
Proof.
  intros Hy Hall. destruct (children_of_parent snapshot y x Hy) as (l & Hl & Hin).
  rewrite Hl. apply children_spec in Hl as (_ & Hnd & Hc). f_equal.
  assert (∀ c, c ∈ l → c = y) as Honly by (intros c Hcl; by apply Hall, Hc).
  assert (l ≡ₚ [y]) as Hp%Permutation_singleton_r; [|done].
  apply NoDup_Permutation; [done|apply NoDup_singleton|]. intros c. rewrite list_elem_of_singleton.
  split; [apply Honly|by intros ->].
Qed.

Lemma single_child_inv x y : children !! x = Some [y] → parents !! y = Some x ∧ ∀ c, parents !! c = Some x → c = y.
Proof.
  intros Hc. split; [by apply child_link|]. intros c Hp.
  apply children_spec in Hc as (_ & _ & Hc). apply Hc in Hp. by apply list_elem_of_singleton in Hp.
Qed.

Lemma unlinked_stops x : (∀ y, parents !! y ≠ Some x) → stops children x.
Proof. intros Hno y Hy%single_child_inv. destruct Hy as [Hy _]. by destruct (Hno y). Qed.

Context (rooted headless : list Caravan) (Hspec : caravans_spec snapshot rooted headless).

Lemma rooted_root c : c ∈ rooted → parents !! cv_id c = None ∧ is_Some (active !! cv_id c).
Proof. intros Hc. apply (cs_rooted _ _ _ Hspec) in Hc. by apply elem_of_roots in Hc as [? ?]. Qed.

Lemma member_unique c d n : c ∈ rooted ++ headless → d ∈ rooted ++ headless →
  n ∈ cv_members c → n ∈ cv_members d → c = d.
Proof.
  pose proof (cs_NoDup _ _ _ Hspec) as Hnd. revert Hnd. generalize (rooted ++ headless).
  induction l as [|x l IH]; cbn; intros Hnd Hc Hd Hnc Hndm; [by apply elem_of_nil in Hc|].
  apply NoDup_app in Hnd as (_ & Hdis & Hnd).
  apply elem_of_cons in Hc as [->|Hc], Hd as [->|Hd]; [done| | |by apply IH].
  - destruct (Hdis n Hnc). apply elem_of_all_members. eauto.
  - destruct (Hdis n Hndm). apply elem_of_all_members. eauto.
Qed.

(** A member that is not the head follows its parent. *)
Lemma member_pair c n p : c ∈ rooted ++ headless → n ∈ cv_members c → n ≠ cv_id c →
  parents !! n = Some p → (p, n) ∈ pairs (cv_members c).
Proof.
  intros Hc Hn Hne Hp. destruct (cs_walked _ _ _ Hspec c Hc) as (Hnew & _ & Hed).
  apply caravan_new_Some in Hnew as (_ & Hh & _).
  destruct (elem_of_head_or_pair _ _ Hn) as [Hh'|(q & Hq)]; [congruence|].
  assert (q = p) as <-; [|done]. apply Hed, child_link in Hq. congruence.
Qed.

Lemma rooted_maximal c : c ∈ rooted → maximal_chain children (cv_members c).
Proof.
  intros Hc. assert (c ∈ rooted ++ headless) as Hc' by (rewrite elem_of_app; by left).
  destruct (cs_walked _ _ _ Hspec c Hc') as (_ & Hnd & Hed). split; [done|].
  intros x Hx y Hy. pose proof (cs_maximal _ _ _ Hspec c x y Hc Hx Hy) as Hin.
  apply elem_of_all_members in Hin as (d & Hd & Hyd).
  assert (d ∈ rooted ++ headless) as Hd' by (rewrite elem_of_app; by left).
  apply child_link in Hy. assert (y ≠ cv_id d) as Hne.
  { intros ->. destruct (rooted_root d Hd). congruence. }
  pose proof (member_pair d y x Hd' Hyd Hne Hy) as Hpair.
  assert (d = c) as ->.
  { apply (member_unique d c x); try done; [by apply pairs_elem_of in Hpair as [? _]|by apply last_Some_elem_of]. }
  by apply NoDup_last_pair in Hpair.
Qed.

Lemma rooted_of_root r : parents !! r = None → is_Some (active !! r) → ∃ c, c ∈ rooted ∧ cv_id c = r.
Proof.
  intros Hp Ha. assert (r ∈ lk_roots (links_of snapshot)) as Hr by (by apply elem_of_roots).
  pose proof Ha as Hin. apply (cs_members _ _ _ Hspec) in Hin. rewrite all_members_app, elem_of_app in Hin.
  destruct Hin as [Hin|Hin]; [|by destruct (cs_headless _ _ _ Hspec r Hin)].
  apply elem_of_all_members in Hin as (c & Hc & Hrc). exists c. split; [done|].
  destruct (cs_walked _ _ _ Hspec c) as (Hnew & _ & Hed); [rewrite elem_of_app; by left|].
  apply caravan_new_Some in Hnew as (_ & Hh & _).
  destruct (elem_of_head_or_pair _ _ Hrc) as [Hh'|(q & Hq)]; [congruence|].
  apply Hed, child_link in Hq. congruence.
Qed.

Lemma rooted_is_chain r l : parents !! r = None → is_Some (active !! r) → head l = Some r →
  maximal_chain children l → ∃ c, c ∈ rooted ∧ cv_id c = r ∧ cv_members c = l.
Proof.
  intros Hp Ha Hh Hl. destruct (rooted_of_root r Hp Ha) as (c & Hc & Hid). exists c. split_and!; [done|done|].
  destruct (cs_walked _ _ _ Hspec c) as (Hnew & _ & _); [rewrite elem_of_app; by left|].
  apply caravan_new_Some in Hnew as (Hne & Hhc & _).
  apply (maximal_chain_unique children); [|congruence|by apply rooted_maximal|done].
  intros Hnil. by rewrite Hnil in Hhc.
Qed.
End rooted.

(** ** Derived fleets *)

Section fleet.
Context (snapshot : RepositorySnapshot) (actor : HeadMergeActor) (a : GraphAnalysis).
Context (Ha : derive_for_actor snapshot actor = Some a).
#[local] Abbreviation active := (active_of snapshot).
#[local] Abbreviation parents := (parent_of snapshot).
#[local] Abbreviation children := (children_of snapshot).

(** The maximal chain from a root is a caravan. *)
Lemma derive_root_caravan r pr l : parents !! r = None → active !! r = Some pr → head l = Some r →
  maximal_chain children l → mkCaravan r l (has_label pr "caravan-parked") ∈ fl_caravans (ga_fleet a).
Proof.
  intros Hp Hr Hh Hl. destruct (derive_spec snapshot actor) as (rooted & headless & cs & b & cy & au & Hd & Hparts).
  rewrite Hd in Ha. injection Ha as <-. cbn. destruct Hparts as [-> Hspec _ _ _ _].
  destruct (rooted_is_chain snapshot rooted headless Hspec r l Hp ltac:(eauto) Hh Hl) as (c & Hc & <- & <-).
  apply list_elem_of_fmap. exists c. split; [unfold set_parked; by rewrite Hr|].
  rewrite elem_of_sort_by_key, elem_of_app. by left.
Qed.

(** A caravan that starts at a root is the maximal chain from it. *)
Lemma root_caravan_chain c : c ∈ fl_caravans (ga_fleet a) → parents !! cv_id c = None →
  maximal_chain children (cv_members c) ∧ NoDup (cv_members c) ∧ head (cv_members c) = Some (cv_id c) ∧
  ∃ pr, active !! cv_id c = Some pr ∧ cv_parked c = has_label pr "caravan-parked".
Proof.
  intros Hc Hp. destruct (derive_spec snapshot actor) as (rooted & headless & cs & b & cy & au & Hd & Hparts).
  rewrite Hd in Ha. injection Ha as <-. cbn in Hc. destruct Hparts as [-> Hspec _ _ _ _].
  apply list_elem_of_fmap in Hc as (d & -> & Hin). rewrite elem_of_sort_by_key in Hin. cbn in *.
  destruct (cs_walked _ _ _ Hspec d Hin) as (Hnew & Hnd & _). apply caravan_new_Some in Hnew as (_ & Hh & _).
  assert (is_Some (active !! cv_id d)) as [pr Hpr].
  { apply (cs_members _ _ _ Hspec), elem_of_all_members. exists d. split; [done|]. by apply head_Some_elem_of. }
  apply elem_of_app in Hin as [Hin|Hin].
  - split_and!; [by eapply rooted_maximal|done|done|]. exists pr. by rewrite Hpr.
  - destruct (cs_headless _ _ _ Hspec (cv_id d)); [|apply elem_of_roots; eauto].
    apply elem_of_all_members. exists d. split; [done|]. by apply head_Some_elem_of.
Qed.

Lemma derived_members_unique c d n : c ∈ fl_caravans (ga_fleet a) → d ∈ fl_caravans (ga_fleet a) →
  n ∈ cv_members c → n ∈ cv_members d → c = d.
Proof.
  intros Hc Hd Hnc Hnd. destruct (derive_spec snapshot actor) as (rooted & headless & cs & b & cy & au & Hder & Hparts).
  rewrite Hder in Ha. injection Ha as <-. cbn in Hc, Hd. destruct Hparts as [-> Hspec _ _ _ _].
  apply list_elem_of_fmap in Hc as (c' & -> & Hc), Hd as (d' & -> & Hd). rewrite elem_of_sort_by_key in Hc, Hd.
  f_equal. by eapply member_unique.
Qed.

Lemma derived_member_active c n : c ∈ fl_caravans (ga_fleet a) → n ∈ cv_members c → is_Some (active !! n).
Proof.
  intros Hc Hn. destruct (derive_spec snapshot actor) as (rooted & headless & cs & b & cy & au & Hder & Hparts).
  rewrite Hder in Ha. injection Ha as <-. cbn in Hc. destruct Hparts as [-> Hspec _ _ _ _].
  apply list_elem_of_fmap in Hc as (c' & -> & Hc). rewrite elem_of_sort_by_key in Hc.
  apply (cs_members _ _ _ Hspec), elem_of_all_members. eauto.
Qed.

(** *** What health says about an unparked caravan

    [A] is the analysis that is found healthy; later passes may have added
    problems to the derived ones. *)
Context (A : GraphAnalysis) (Hcaravans : fl_caravans (ga_fleet A) = fl_caravans (ga_fleet a)).
Context (Hproblems : fl_problems (ga_fleet a) ⊆ fl_problems (ga_fleet A)) (Hhealthy : healthy A = true).
Context (c : Caravan) (Hc : c ∈ fl_caravans (ga_fleet a)) (Hparked : cv_parked c = false).

Lemma healthy_caravan_clean q n : q ∈ fl_problems (ga_fleet a) → blocks_fleet (gp_kind q) = true →
  n ∈ gp_prs q → n ∉ cv_members c.
Proof.
  intros Hq Hk Hn Hin. unfold healthy in Hhealthy. rewrite negb_true_iff, existsb_false_elem_of in Hhealthy.
  specialize (Hhealthy q (Hproblems q Hq)). unfold problem_blocks_active_fleet in Hhealthy.
  rewrite Hk in Hhealthy. cbn in Hhealthy.
  assert (scan_problem_prs (ga_fleet A) (gp_prs q) false = true); [|congruence].
  apply scan_problem_prs_true. left. exists n.
  destruct (containing (ga_fleet A) n) as [d|] eqn:Hd.
  - exists d. split_and!; [done..|]. apply fleet_containing_Some in Hd as [Hd Hnd]. rewrite Hcaravans in Hd.
    by rewrite (derived_members_unique d c n Hd Hc Hnd Hin).
  - rewrite fleet_containing_None in Hd. destruct (Hd c); [|done]. by rewrite Hcaravans.
Qed.

Lemma healthy_caravan_root : parents !! cv_id c = None.
Proof.
  pose proof healthy_caravan_clean as Hclean. clear Hhealthy Hproblems Hcaravans.
  destruct (derive_spec snapshot actor) as (rooted & headless & cs & b & cy & au & Hder & Hparts).
  rewrite Hder in Ha. injection Ha as <-. cbn in Hc, Hclean. destruct Hparts as [-> Hspec _ _ _ _].
  apply list_elem_of_fmap in Hc as (d & -> & Hd). rewrite elem_of_sort_by_key in Hd. cbn in *.
  assert (cv_id d ∈ cv_members d) as Hid by (eapply elem_of_walked_id, cs_walked; eauto).
  apply elem_of_app in Hd as [Hd|Hd]; [by eapply rooted_root|].
  destruct (Hclean (headless_problem (cv_members d)) (cv_id d)); [|done..].
  rewrite !elem_of_app. left. right. apply list_elem_of_fmap. eauto.
Qed.

(** No member has two children. *)
Lemma healthy_caravan_linear n l : n ∈ cv_members c → children !! n = Some l → ∃ y, l = [y].
Proof.
  intros Hn Hl. pose proof healthy_caravan_clean as Hclean. clear Hhealthy Hproblems Hcaravans.
  destruct (derive_spec snapshot actor) as (rooted & headless & cs & b & cy & au & Hder & Hparts).
  rewrite Hder in Ha. injection Ha as <-. cbn in Hc, Hclean. destruct Hparts as [-> Hspec Hb _ _ _].
  destruct l as [|y [|z l]]; [by apply children_spec in Hl as [? _]|eauto|].
  destruct (Hclean (branching_problem n (y :: z :: l)) n); [|done|by left|done].
  rewrite !elem_of_app. left. left. left. right. apply Hb. exists (y :: z :: l), n. cbn. split_and!; [done|lia|done].
Qed.

Lemma early_problem_derived q : q ∈ lk_problems (links_of snapshot) → q ∈ fl_problems (ga_fleet a).
Proof.
  intros Hq. destruct (derive_spec snapshot actor) as (rooted & headless & cs & b & cy & au & Hder & _).
  rewrite Hder in Ha. injection Ha as <-. cbn. rewrite !elem_of_app. by do 4 left.
Qed.

(** The head branch of a member is held by nobody else. *)
Lemma healthy_caravan_holder n pr : n ∈ cv_members c → active !! n = Some pr →
  heads_of snapshot !! br_name (pr_head pr) = Some [n].
Proof.
  intros Hn Hpr. destruct (heads_by_branch_spec (rs_repository snapshot) active (mb_problems (members_of snapshot)))
    as [Hheads Hprob]. fold (heads_of snapshot) in Hheads, Hprob.
  assert (n ∈ holders active (br_name (pr_head pr))) as Hin by (apply elem_of_holders; [apply active_keyed|eauto]).
  assert (heads_of snapshot !! br_name (pr_head pr) = Some (vec_sort (holders active (br_name (pr_head pr))))) as Hh.
  { rewrite Hheads. destruct (holders active _); [by apply elem_of_nil in Hin|done]. }
  rewrite Hh. f_equal. apply Permutation_singleton_r.
  assert (n ∈ vec_sort (holders active (br_name (pr_head pr)))) as Hin'.
  { unfold vec_sort. by rewrite elem_of_sort_by_key. }
  destruct (vec_sort (holders active (br_name (pr_head pr)))) as [|y [|z l]] eqn:E; [by apply elem_of_nil in Hin'| |].
  - apply list_elem_of_singleton in Hin'. by subst.
  - exfalso. eapply (healthy_caravan_clean (mkGraphProblem DuplicateMember (y :: z :: l) _) n);
      [|done|exact Hin'|done].
    apply early_problem_derived. destruct (links_spec snapshot) as (_ & _ & _ & ->).
    rewrite elem_of_app, Hprob, !elem_of_app. left. right. right. unfold duplicate_heads.
    rewrite elem_of_flat_map. exists (y :: z :: l). split; [apply elem_of_bt_values; eauto|]. cbn. by left.
Qed.

(** A request on the branch of a member is linked to it. *)
Lemma healthy_caravan_choice n pr q : active !! n = Some pr → q ∈ cv_members c →
  br_name (pr_base pr) ≠ br_name (rs_default_branch snapshot) →
  heads_of snapshot !! br_name (pr_base pr) = Some [q] → parents !! n = Some q.
Proof.
  intros Hpr Hq Hne Hh. apply parent_of_Some. exists pr. split; [done|]. unfold choice_of, choice.
  destruct (String.eqb_spec (br_name (pr_base pr)) (br_name (rs_default_branch snapshot))); [done|].
  rewrite Hh. destruct (_ && _) eqn:E; [exfalso|done].
  eapply (healthy_caravan_clean (reused_problem pr q (mb_merged_by_head (members_of snapshot) !! br_name (pr_base pr))) q);
    [|done|right; by left|done].
  apply early_problem_derived. destruct (links_spec snapshot) as (_ & _ & _ & ->).
  rewrite elem_of_app, elem_of_flat_map. right. exists pr. split.
  - apply elem_of_active_values. by rewrite (active_keyed _ _ _ Hpr).
  - unfold root_problems. destruct (String.eqb_spec (br_name (pr_base pr)) (br_name (rs_default_branch snapshot))); [done|].
    rewrite Hh, E. by left.
Qed.
End fleet.

(** ** Rewritten rows *)

Lemma insert_by_key_fmap {A B K} `{RustOrd K} (key : A → K) (g : B → A) x l :
  insert_by_key key (g x) (g <$> l) = g <$> insert_by_key (key ∘ g) x l.
Proof. induction l as [|y l IH]; [done|]. cbn. case_match; [done|]. cbn. by f_equal. Qed.

Lemma sort_by_key_fmap {A B K} `{RustOrd K} (key : A → K) (g : B → A) l :
  sort_by_key key (g <$> l) = g <$> sort_by_key (key ∘ g) l.
Proof.
  induction l as [|x l IH]; [done|]. rewrite fmap_cons.
  change (insert_by_key key (g x) (sort_by_key key (g <$> l)) = g <$> insert_by_key (key ∘ g) x (sort_by_key (key ∘ g) l)).
  rewrite IH. apply insert_by_key_fmap.
Qed.

Lemma bt_values_fmap {K V V'} `{Countable K, RustOrd K} (f : V → V') (m : gmap K V) :
  bt_values (f <$> m) = f <$> bt_values m.
Proof.
  unfold bt_values, bt_entries. rewrite map_to_list_fmap, sort_by_key_fmap, <- !list_fmap_compose. done.
Qed.

Section rewritten.
Context (snapshot : RepositorySnapshot) (f : PullRequestSnapshot → PullRequestSnapshot).
Context (f_number : ∀ pr, pr_number (f pr) = pr_number pr) (f_state : ∀ pr, pr_state (f pr) = pr_state pr).
Context (f_labels : ∀ pr, pr_labels (f pr) = pr_labels pr).
Context (f_head : ∀ pr, br_name (pr_head (f pr)) = br_name (pr_head pr)).

Definition rewritten : RepositorySnapshot :=
  with_pull_requests snapshot (f <$> rs_pull_requests snapshot).

Lemma rows_map : rows_of rewritten = f <$> rows_of snapshot.
Proof.
  unfold rows_of, rewritten. cbn [rs_pull_requests with_pull_requests].
  induction (rs_pull_requests snapshot) as [|x l IH] using rev_ind; [done|].
  rewrite fmap_app. cbn [fmap list_fmap]. rewrite !collect_snoc.
  destruct (collect_pull_requests l) as [m p], (collect_pull_requests (f <$> l)) as [m' p']. cbn in *.
  by rewrite IH, f_number, fmap_insert.
Qed.

Lemma f_active pr : is_active_caravan_member (f pr) = is_active_caravan_member pr.
Proof. unfold is_active_caravan_member, state_is, has_label. by rewrite f_state, f_labels. Qed.

Lemma classify_map m m' l : mb_active m' = f <$> mb_active m → mb_merged_by_head m' = mb_merged_by_head m →
  let r := foldl classify_member m l in let r' := foldl classify_member m' (f <$> l) in
  mb_active r' = f <$> mb_active r ∧ mb_merged_by_head r' = mb_merged_by_head r.
Proof.
  revert m m'. induction l as [|x l IH]; intros m m' Ha Hm; [done|]. cbn. apply IH.
  - rewrite !(proj1 (classify_member_fields _ _)), f_active, Ha.
    destruct (is_active_caravan_member x); [|done]. by rewrite f_number, fmap_insert.
  - unfold classify_member, note_active, note_departed, note_merged, state_is, has_label.
    rewrite f_active, f_state, f_labels, f_head, f_number.
    repeat case_match; cbn; congruence.
Qed.

Lemma members_map :
  mb_active (members_of rewritten) = f <$> active_of snapshot ∧
  mb_merged_by_head (members_of rewritten) = mb_merged_by_head (members_of snapshot).
Proof.
  unfold active_of, members_of, classify_members. rewrite rows_map, bt_values_fmap.
  apply classify_map; [cbn [mb_active]; by rewrite fmap_empty|done].
Qed.

Lemma active_map : active_of rewritten = f <$> active_of snapshot.
Proof. apply members_map. Qed.

Lemma heads_map : heads_of rewritten = heads_of snapshot.
Proof.
  apply map_eq. intros b. unfold heads_of.
  rewrite !(proj1 (heads_by_branch_spec _ _ _)), active_map. do 2 f_equal. unfold holders.
  rewrite bt_values_fmap. unfold group_list. induction (bt_values (active_of snapshot)) as [|x l IH]; [done|].
  cbn. rewrite f_head. case_bool_decide; cbn; [|exact IH]. rewrite f_number. f_equal. exact IH.
Qed.

(** The link of a rewritten row. *)
Lemma rewritten_parent n p : parent_of rewritten !! n = Some p ↔
  ∃ pr, active_of snapshot !! n = Some pr ∧
    br_name (pr_base (f pr)) ≠ br_name (rs_default_branch snapshot) ∧
    heads_of snapshot !! br_name (pr_base (f pr)) = Some [p] ∧
    (is_some_b (mb_merged_by_head (members_of snapshot) !! br_name (pr_base (f pr))) = true →
     ∀ q, active_of snapshot !! p = Some q → br_oid (pr_head (f q)) = br_oid (pr_base (f pr))).
Proof.
  rewrite parent_of_Some, active_map. setoid_rewrite lookup_fmap_Some.
  assert (∀ pr, choice_of rewritten (f pr) = Some p ↔
    br_name (pr_base (f pr)) ≠ br_name (rs_default_branch snapshot) ∧
    heads_of snapshot !! br_name (pr_base (f pr)) = Some [p] ∧
    (is_some_b (mb_merged_by_head (members_of snapshot) !! br_name (pr_base (f pr))) = true →
     ∀ q, active_of snapshot !! p = Some q → br_oid (pr_head (f q)) = br_oid (pr_base (f pr)))) as Hchoice.
  { intros pr. unfold choice_of, choice, provenance_ok. rewrite heads_map, (proj2 members_map), (proj1 members_map).
    change (rs_default_branch rewritten) with (rs_default_branch snapshot).
    destruct (String.eqb_spec (br_name (pr_base (f pr))) (br_name (rs_default_branch snapshot))) as [He|Hne].
    { split; [done|]. by intros [? _]. }
    destruct (heads_of snapshot !! _) as [[|x [|y l]]|]; [naive_solver| |naive_solver|naive_solver].
    destruct (is_some_b _) eqn:Hs; cbn; [|naive_solver].
    rewrite lookup_fmap. destruct (active_of snapshot !! x) as [q|] eqn:Hq; cbn.
    - destruct (String.eqb_spec (br_oid (pr_head (f q))) (br_oid (pr_base (f pr)))); naive_solver.
    - naive_solver. }
  split.
  - intros (pr' & (pr & <- & Hpr) & Hch). exists pr. split; [done|]. by apply Hchoice.
  - intros (pr & Hpr & Hch). exists (f pr). split; [eauto|]. by apply Hchoice.
Qed.
End rewritten.

Lemma rewritten_id snapshot : rewritten snapshot id = snapshot.
Proof. unfold rewritten, with_pull_requests. destruct snapshot. cbn. by rewrite list_fmap_id. Qed.

(** When a row is linked to [p]. *)
Lemma parent_iff snapshot n p : parent_of snapshot !! n = Some p ↔
  ∃ pr, active_of snapshot !! n = Some pr ∧
    br_name (pr_base pr) ≠ br_name (rs_default_branch snapshot) ∧
    heads_of snapshot !! br_name (pr_base pr) = Some [p] ∧
    (is_some_b (mb_merged_by_head (members_of snapshot) !! br_name (pr_base pr)) = true →
     ∀ q, active_of snapshot !! p = Some q → br_oid (pr_head q) = br_oid (pr_base pr)).
Proof. by rewrite <- (rewritten_id snapshot) at 1; apply rewritten_parent. Qed.
