(* ===== verification/Concat.v ===== *)
(** Concatenating two caravans: src/src/concat.rs.

    [plan_from_status] builds the no-write plan; [execute] is the transaction
    that rewrites the source branches, retargets the source root, verifies the
    observed topology and compensates when a step fails. The provider mutation
    [set_base] is written as src/src/github.rs runs it: verify, edit, refetch.
    Everything outside is an operation of the class [ConcatHost] on a world:
    the status read, the Git rewrites of src/src/physical_rebase.rs, the
    journal and the hooks. An [expect] that fails is [None]. *)

From Stdlib Require Import String.
From S2P Require Import Prelude Text Model Mutations Graph Analysis Budget.

#[local] Open Scope string_scope.
#[local] Open Scope list_scope.
#[local] Open Scope nat_scope.
#[local] Open Scope caravan_scope.

(** ** Data *)

Record ConcatInput := mkConcatInput {
  ci_source_head_pr : PrNumber;
  ci_target_tail_pr : PrNumber;
  ci_actor : string;
  ci_reason : string }.

Record ConcatMemberPlan := mkConcatMember {
  cm_pr : PrNumber;
  cm_branch : string;
  cm_old_head_oid : CommitOid;
  cm_old_base : BranchSnapshot;
  cm_target_pr : PrNumber;
  cm_target_branch : string;
  cm_target_head_oid : CommitOid;
  cm_requires_rewrite : bool }.

Record ConcatPlan := mkConcatPlan {
  cp_schema_version : N;
  cp_repository : RepositoryId;
  cp_source_caravan : PrNumber;
  cp_target_caravan : PrNumber;
  cp_source_members : list PrNumber;
  cp_target_members : list PrNumber;
  cp_old_ordering : list (list PrNumber);
  cp_new_ordering : list PrNumber;
  cp_members : list ConcatMemberPlan;
  cp_actor : string;
  cp_reason : string;
  cp_plan_hash : string;
  cp_rollback_heads : list BranchSnapshot }.

Definition with_plan_hash (p : ConcatPlan) (hash : string) : ConcatPlan :=
  mkConcatPlan (cp_schema_version p) (cp_repository p) (cp_source_caravan p) (cp_target_caravan p)
    (cp_source_members p) (cp_target_members p) (cp_old_ordering p) (cp_new_ordering p)
    (cp_members p) (cp_actor p) (cp_reason p) hash (cp_rollback_heads p).

(** The fields of the status the module reads; a pause is its state and the
    head of the caravan it holds. *)
Record ConcatStatus := mkConcatStatus {
  so_repository : RepositoryId;
  so_healthy : bool;
  so_analysis : GraphAnalysis;
  so_pauses : list (PauseState * PrNumber) }.

(** ** Errors: the JSON details of each refusal as a constructor *)

Inductive ErrorCategory := CatValidation | CatExecutionFailure | CatOther (name : string).

#[warnings="-register-all"]
Inductive ConcatDetails :=
| DetailsOpaque (json : string)
| DetailsProblems (problems : list GraphProblem)
| DetailsCaravans (source target : Caravan)
| DetailsCycle (caravan : PrNumber) (members : list PrNumber)
| DetailsHeld (caravan : PrNumber) (pause : PauseState * PrNumber)
| DetailsIncompatible (compatibility : CompatibilityReport)
| DetailsMissing (source missing_pr : PrNumber)
| DetailsFork (pr : PrNumber)
| DetailsStale (expected_plan_hash : string) (actual_plan : ConcatPlan)
| DetailsFleet (fleet : CaravanFleet)
| DetailsMutation (plan : ConcatPlan)
| DetailsRolledBack (plan : ConcatPlan) (source : option ConcatDetails)
| DetailsRollbackFailed (plan : ConcatPlan) (source rollback : option ConcatDetails)
| DetailsMembershipRollbackFailed (plan : ConcatPlan) (source : option ConcatDetails)
    (rollback_error : string)
| DetailsTopologyRestored (plan : ConcatPlan) (source : option ConcatDetails)
| DetailsPhysicalRollbackFailed (plan : ConcatPlan) (source rollback : option ConcatDetails).

(** The ["mutated"] entry of the details. *)
Definition mutated_flag (d : ConcatDetails) : option bool :=
  match d with
  | DetailsIncompatible _ | DetailsStale _ _ | DetailsMutation _ | DetailsRolledBack _ _
  | DetailsTopologyRestored _ _ => Some false
  | DetailsRollbackFailed _ _ _ | DetailsMembershipRollbackFailed _ _ _
  | DetailsPhysicalRollbackFailed _ _ _ => Some true
  | _ => None
  end.

Record AppError := mkAppError {
  ae_category : ErrorCategory;
  ae_code : string;
  ae_message : string;
  ae_details : option ConcatDetails }.

Definition validation (code message : string) : AppError := mkAppError CatValidation code message None.
Definition structured (code message : string) (details : ConcatDetails) : AppError :=
  mkAppError CatValidation code message (Some details).
Definition execution_failure (code message : string) (details : ConcatDetails) : AppError :=
  mkAppError CatExecutionFailure code message (Some details).
Definition show_app_error (e : AppError) : string := fmt [ae_code e; ": "; ae_message e].

(** An error of code outside this module: its details are not interpreted. *)
Record HostError := mkHostError {
  he_category : ErrorCategory;
  he_code : string;
  he_message : string;
  he_details : option string }.
Definition of_host (e : HostError) : AppError :=
  mkAppError (he_category e) (he_code e) (he_message e) (DetailsOpaque <$> he_details e).

(** ** Planning *)

Definition bounded_text (limit : nat) (text : string) : bool :=
  negb (str_is_empty (trim text)) && (String.length (trim text) <=? limit)
  && String.eqb (trim text) text && negb (has_control (trim text)).

Definition find_hold (pauses : list (PauseState * PrNumber)) (c : Caravan)
    : option (PauseState * PrNumber) :=
  List.find (λ pause, is_effective pause.1 && N.eqb pause.2 (cv_id c)) pauses.

Definition foreign (repository : RepositoryId) (pr : PullRequestSnapshot) : bool :=
  pr_cross_repository pr || negb (bool_decide (br_repository (pr_head pr) = repository)).

Definition held_error (c : Caravan) (pause : PauseState * PrNumber) : AppError :=
  structured "concat_caravan_held" "concat refuses an intentionally held source or target caravan"
    (DetailsHeld (cv_id c) pause).

(** One member of the source, rebased on its predecessor. *)
Definition member_plan (number : PrNumber) (candidate predecessor : PullRequestSnapshot) : ConcatMemberPlan :=
  mkConcatMember number (br_name (pr_head candidate)) (br_oid (pr_head candidate)) (pr_base candidate)
    (pr_number predecessor) (br_name (pr_head predecessor)) (br_oid (pr_head predecessor)) true.

(** The loop over the source members: their plans and their rollback heads. *)
Fixpoint plan_members (status : ConcatStatus) (source : PrNumber) (predecessor : PullRequestSnapshot)
    (numbers : list PrNumber) : result (list ConcatMemberPlan * list BranchSnapshot) AppError :=
  match numbers with
  | [] => Ok ([], [])
  | number :: rest =>
      match ga_pull_requests (so_analysis status) !! number with
      | None => Err (structured "concat_source_incomplete" "source caravan member facts are missing"
                       (DetailsMissing source number))
      | Some candidate =>
          if foreign (so_repository status) candidate
          then Err (structured "concat_fork_refused"
                      "concat supports only same-repository owned caravan branches" (DetailsFork number))
          else
            match plan_members status source candidate rest with
            | Err e => Err e
            | Ok (members, heads) =>
                Ok (member_plan number candidate predecessor :: members, pr_head candidate :: heads)
            end
      end
  end.

Section plan.
Context {W : Type} `{CompatibilityChecker W HostError}.
(** [serde_json::to_vec] on a plan. *)
Context (plan_json : ConcatPlan → list N).

Definition seal (p : ConcatPlan) : ConcatPlan :=
  with_plan_hash p (fnv1a64 (plan_json (with_plan_hash p EmptyString))).

Definition initial_plan (status : ConcatStatus) (input : ConcatInput) (source target : Caravan)
    (members : list ConcatMemberPlan) (heads : list BranchSnapshot) : ConcatPlan :=
  mkConcatPlan 1 (so_repository status) (cv_id source) (cv_id target) (cv_members source)
    (cv_members target) [cv_members target; cv_members source] (cv_members target ++ cv_members source)
    members (trim (ci_actor input)) (trim (ci_reason input)) EmptyString heads.

(** From the compatibility check on. *)
Definition plan_checked (status : ConcatStatus) (input : ConcatInput) (source target : Caravan)
    (source_root target_snapshot : PullRequestSnapshot) (w : W) : result ConcatPlan AppError * W :=
  match prepare [pr_head source_root; pr_head target_snapshot] w with
  | (Err e, w) => (Err (of_host e), w)
  | (Ok _, w) =>
      match check (pr_head source_root) (pr_head target_snapshot) w with
      | (Err e, w) => (Err (of_host e), w)
      | (Ok compatibility, w) =>
          if negb (bool_decide (cr_outcome compatibility = Clean))
          then (Err (structured "concat_incompatible"
                       "source root is not mechanically compatible with the exact target tail"
                       (DetailsIncompatible compatibility)), w)
          else
            (members_heads <-? plan_members status (cv_id source) target_snapshot (cv_members source);;
             Ok (seal (initial_plan status input source target members_heads.1 members_heads.2)), w)
      end
  end.

(** The two caravans and the facts of their joint, with every refusal that
    needs no compatibility check. *)
Definition plan_pair (status : ConcatStatus) (input : ConcatInput)
    : result (Caravan * Caravan * PullRequestSnapshot * PullRequestSnapshot) AppError :=
  let fleet := ga_fleet (so_analysis status) in
  let source_head := ci_source_head_pr input in
  let target_tail := ci_target_tail_pr input in
  if negb (bounded_text 256 (ci_actor input)) then
    Err (validation "concat_actor_required"
           "concat requires a bounded non-empty audited actor without surrounding whitespace")
  else if negb (bounded_text 512 (ci_reason input)) then
    Err (validation "concat_reason_required"
           "concat requires a bounded non-empty rationale without surrounding whitespace")
  else if negb (so_healthy status) then
    Err (structured "concat_fleet_unhealthy" "concat requires a healthy complete fleet snapshot"
           (DetailsProblems (fl_problems fleet)))
  else
    source <-? ok_or (List.find (λ c, N.eqb (cv_id c) source_head) (fl_caravans fleet))
      (validation "concat_source_head_not_found"
         (fmt ["PR #"; show_pr source_head; " is not a current caravan head"]));;
    target <-? ok_or (List.find (λ c, opt_eqb (caravan_tail c) (Some target_tail)) (fl_caravans fleet))
      (validation "concat_target_tail_not_found"
         (fmt ["PR #"; show_pr target_tail; " is not a current caravan tail"]));;
    if cv_parked source || cv_parked target then
      Err (structured "concat_caravan_parked"
             "concat refuses parked caravans until current CI reactivates them"
             (DetailsCaravans source target))
    else if N.eqb (cv_id source) (cv_id target) then
      Err (structured "concat_cycle_refused"
             "source and target name the same caravan; concatenation would create a cycle"
             (DetailsCycle (cv_id source) (cv_members source)))
    else
      match find_hold (so_pauses status) source, find_hold (so_pauses status) target with
      | Some pause, _ => Err (held_error source pause)
      | None, Some pause => Err (held_error target pause)
      | None, None =>
          target_snapshot <-? ok_or (ga_pull_requests (so_analysis status) !! target_tail)
            (validation "concat_target_incomplete" "target tail facts are missing");;
          source_root <-? ok_or (ga_pull_requests (so_analysis status) !! source_head)
            (validation "concat_source_incomplete" "source root facts are missing");;
          if pr_cross_repository source_root || pr_cross_repository target_snapshot
             || negb (bool_decide (br_repository (pr_head source_root) = so_repository status))
             || negb (bool_decide (br_repository (pr_head target_snapshot) = so_repository status))
          then Err (validation "concat_fork_refused"
                      "concat supports only same-repository owned caravan branches")
          else Ok (source, target, source_root, target_snapshot)
      end.

Definition plan_from_status (status : ConcatStatus) (input : ConcatInput) (w : W)
    : result ConcatPlan AppError * W :=
  match plan_pair status input with
  | Err e => (Err e, w)
  | Ok (source, target, source_root, target_snapshot) =>
      plan_checked status input source target source_root target_snapshot w
  end.
End plan.

(** ** Execution *)

Record ConcatExecuteInput := mkConcatExecuteInput {
  ce_intent : ConcatInput;
  ce_expected_plan_hash : string }.

Inductive PlannedBase := RemoteBase (branch : BranchSnapshot) | SimulatedBase (branch : BranchSnapshot).
Inductive PlannedRangeBase :=
| RemoteBranch (branch : BranchSnapshot)
| HistoricalTargetBranch (branch current : BranchSnapshot)
| HistoricalParentBranch (branch current : BranchSnapshot)
| HistoricalSourceBranch (branch current : BranchSnapshot)
| PullRequestHead (pr : PrNumber) (branch : BranchSnapshot).

(** The base name is the target's while the object moved on. *)
Definition base_lags (candidate : PullRequestSnapshot) (target : BranchSnapshot) : bool :=
  String.eqb (br_name (pr_base candidate)) (br_name target)
  && negb (String.eqb (br_oid (pr_base candidate)) (br_oid target)).
Definition range_base_for_remote_target (candidate : PullRequestSnapshot) (target : BranchSnapshot)
    : PlannedRangeBase :=
  if base_lags candidate target then HistoricalTargetBranch (pr_base candidate) target
  else RemoteBranch (pr_base candidate).
Definition range_base_for_rewritten_parent (candidate : PullRequestSnapshot)
    (current_parent : BranchSnapshot) : PlannedRangeBase :=
  if base_lags candidate current_parent then HistoricalParentBranch (pr_base candidate) current_parent
  else RemoteBranch (pr_base candidate).

(** [Prepared] is a prepared rewrite in its worktree, [Physical] the receipt of
    an atomic push, [Event] and [Deliveries] what the hooks take and give. *)
Record ConcatOutput (Physical Event Deliveries : Type) := mkConcatOutput {
  co_idempotent : bool;
  co_plan : ConcatPlan;
  co_physical : Physical;
  co_membership : GitHubMutationReceipt;
  co_resulting_ordering : list PrNumber;
  co_receipt : OperationReceipt;
  co_events : list Event;
  co_hook_deliveries : Deliveries }.
#[global] Arguments mkConcatOutput {_ _ _} _ _ _ _ _ _ _ _.
#[global] Arguments co_idempotent {_ _ _} _.
#[global] Arguments co_plan {_ _ _} _.
#[global] Arguments co_physical {_ _ _} _.
#[global] Arguments co_membership {_ _ _} _.
#[global] Arguments co_events {_ _ _} _.
#[global] Arguments co_hook_deliveries {_ _ _} _.
#[global] Arguments co_resulting_ordering {_ _ _} _.

(** What the transaction asks of the rest of the program. *)
Class ConcatHost (W Prepared Physical Event Deliveries MutationError : Type) := {
  existing_receipt : string → W → result (option (ConcatOutput Physical Event Deliveries)) HostError * W;
  acquire_writer_operation : W → result unit HostError * W;
  read_status : W → result ConcatStatus HostError * W;
  prepare_candidate : PullRequestSnapshot → PlannedRangeBase → PlannedBase → BranchSnapshot → PrNumber →
    W → result Prepared HostError * W;
  prepared_new_head : Prepared → CommitOid;
  apply_prepared_atomically : list Prepared → W → result Physical HostError * W;
  (** The number and the new head of each receipt. *)
  physical_receipts : Physical → list (PrNumber * CommitOid);
  rollback_prepared_atomically : list Prepared → W → result unit HostError * W;
  (** The three commands of [mutate_pull_request]. *)
  verify_precondition : RepositoryId → PullRequestPrecondition → W → result PullRequestSnapshot MutationError * W;
  edit_base : RepositoryId → PrNumber → string → W → result (option string) MutationError * W;
  refetch_pull_request : RepositoryId → PrNumber → W → result PullRequestSnapshot MutationError * W;
  show_mutation_error : MutationError → string;
  new_operation_id : W → string * W;
  concatenated_event : RepositoryId → Caravan → ConcatPlan → CaravanFleet → Physical →
    GitHubMutationReceipt → OperationReceipt → Event;
  dispatch_events : Event → W → result Deliveries HostError * W }.

Section execute.
Context {W Prepared Physical Event Deliveries MutationError : Type}.
Context `{!CompatibilityChecker W HostError}.
Context `{!ConcatHost W Prepared Physical Event Deliveries MutationError}.
Context (plan_json : ConcatPlan → list N).

#[local] Abbreviation Output := (ConcatOutput Physical Event Deliveries).
(** Fallible code that may panic, with its effects. *)
#[local] Abbreviation M A := (W → option (result A AppError * W)).

Definition ret {A} (a : A) : M A := λ w, Some (Ok a, w).
Definition throw {A} (e : AppError) : M A := λ w, Some (Err e, w).
Definition bind {A B} (m : M A) (f : A → M B) : M B := λ w,
  match m w with
  | None => None
  | Some (Err e, w) => Some (Err e, w)
  | Some (Ok a, w) => f a w
  end.
Definition expect {A} (o : option A) : M A := λ w, (λ a, (Ok a, w)) <$> o.
Definition host {A} (m : W → result A HostError * W) : M A := λ w,
  match m w with
  | (Ok a, w) => Some (Ok a, w)
  | (Err e, w) => Some (Err (of_host e), w)
  end.
#[local] Notation "'let*' x ':=' m 'in' k" := (bind m (λ x, k)) (at level 10, x binder, m at level 100, k at level 200).

(** [mutate_pull_request] with the base edit. *)
Definition set_base (repository : RepositoryId) (expected : PullRequestPrecondition) (base : string) (w : W)
    : result GitHubMutationReceipt MutationError * W :=
  match verify_precondition repository expected w with
  | (Err e, w) => (Err e, w)
  | (Ok before, w) =>
      match edit_base repository (pc_number expected) base w with
      | (Err e, w) => (Err e, w)
      | (Ok output, w) =>
          match refetch_pull_request repository (pc_number expected) w with
          | (Err e, w) => (Err e, w)
          | (Ok after, w) => (Ok (mkMutationReceipt SetBase (Some before) after output), w)
          end
      end
  end.

Definition concat_mutation_error (e : MutationError) (plan : ConcatPlan) : AppError :=
  execution_failure "concat_provider_mutation_failed"
    (fmt ["concat provider membership commit failed: "; show_mutation_error e]) (DetailsMutation plan).

(** Undo the branch rewrites after a failure; always an error. *)
Definition rollback_physical_error (source : AppError) (prepared : list Prepared) (plan : ConcatPlan)
    (code : string) : M Output := λ w,
  match rollback_prepared_atomically prepared w with
  | (Ok _, w) =>
      Some (Err (mkAppError (ae_category source) code
        (fmt ["concat stopped and restored every original source head: "; show_app_error source])
        (Some (DetailsRolledBack plan (ae_details source)))), w)
  | (Err rollback, w) =>
      Some (Err (execution_failure "concat_rollback_indeterminate"
        "concat failed after physical rewrite and original source heads could not be proven restored"
        (DetailsRollbackFailed plan (ae_details source) (ae_details (of_host rollback)))), w)
  end.

(** Undo the base and then the rewrites after the final verification failed. *)
Definition rollback_complete_transaction (repository : RepositoryId) (membership : GitHubMutationReceipt)
    (prepared : list Prepared) (plan : ConcatPlan) (source : AppError) (code : string) : M Output := λ w,
  match cp_members plan with
  | [] => None
  | first :: _ =>
      match set_base repository (precondition_of (gm_after membership)) (br_name (cm_old_base first)) w with
      | (Err e, w) =>
          Some (Err (execution_failure "concat_membership_rollback_indeterminate"
            "concat could not restore the source-root base after final verification failed"
            (DetailsMembershipRollbackFailed plan (ae_details source) (show_mutation_error e))), w)
      | (Ok _, w) =>
          match rollback_prepared_atomically prepared w with
          | (Ok _, w) =>
              Some (Err (mkAppError (ae_category source) code
                (fmt ["concat final verification failed and the complete original topology was restored: ";
                      show_app_error source])
                (Some (DetailsTopologyRestored plan (ae_details source)))), w)
          | (Err rollback, w) =>
              Some (Err (execution_failure "concat_physical_rollback_indeterminate"
                "source-root base was restored but original source branch heads could not be proven restored"
                (DetailsPhysicalRollbackFailed plan (ae_details source) (ae_details (of_host rollback)))), w)
          end
      end
  end.

(** The loop preparing every source member on its rewritten predecessor;
    [parent] is the member before, [target] the base to rebase on. *)
Fixpoint prepare_members (status : ConcatStatus) (target_head : BranchSnapshot)
    (parent : option PullRequestSnapshot) (target : PlannedBase) (numbers : list PrNumber)
    (plans : list ConcatMemberPlan) : M (list Prepared) :=
  match numbers with
  | [] => ret []
  | number :: rest =>
      let* candidate := expect (ga_pull_requests (so_analysis status) !! number) in
      let* member := expect (head plans) in
      let range := match parent with
                   | None => range_base_for_remote_target candidate target_head
                   | Some parent => range_base_for_rewritten_parent candidate (pr_head parent)
                   end in
      let* item := host (prepare_candidate candidate range target
                           (fl_default_branch (ga_fleet (so_analysis status))) (cm_target_pr member)) in
      let simulated := SimulatedBase (mkBranchSnapshot (so_repository status) (br_name (pr_head candidate))
                                        (prepared_new_head item)) in
      let* items := prepare_members status target_head (Some candidate) simulated rest (tail plans) in
      ret (item :: items)
  end.

(** Some exact rewritten head is not what the provider shows. *)
Definition rewrite_not_observed (status : ConcatStatus) (receipts : list (PrNumber * CommitOid)) : bool :=
  existsb (λ receipt,
    match ga_pull_requests (so_analysis status) !! receipt.1 with
    | None => true
    | Some pr => negb (String.eqb (br_oid (pr_head pr)) receipt.2)
    end) receipts.

Definition ordering_observed (status : ConcatStatus) (plan : ConcatPlan) : option Caravan :=
  List.find (λ caravan, bool_decide (cv_members caravan = cp_new_ordering plan))
    (fl_caravans (ga_fleet (so_analysis status))).

Definition concat_receipt (operation_id : string) (plan : ConcatPlan) (target_tail_pr : PrNumber)
    : OperationReceipt :=
  mkOperationReceipt operation_id "concat"
    [mkMutationStep SetBase StepCompleted (Some (cp_source_caravan plan))
       (fmt ["concatenated caravan #"; show_pr (cp_source_caravan plan); " after tail #"; show_pr target_tail_pr])]
    true.

(** The receipt, the event and its delivery. *)
Definition conclude_concat (input : ConcatExecuteInput) (repository : RepositoryId) (plan : ConcatPlan)
    (physical : Physical) (membership : GitHubMutationReceipt) (fleet : CaravanFleet)
    (concatenated : Caravan) : M Output := λ w,
  let '(operation_id, w) := new_operation_id w in
  let receipt := concat_receipt operation_id plan (ci_target_tail_pr (ce_intent input)) in
  let event := concatenated_event repository concatenated plan fleet physical membership receipt in
  (let* deliveries := host (dispatch_events event) in
   ret (mkConcatOutput false plan physical membership (cp_new_ordering plan) receipt [event] deliveries)) w.

(** The final rediscovery and its verdict. *)
Definition verify_topology (input : ConcatExecuteInput) (repository : RepositoryId) (plan : ConcatPlan)
    (prepared : list Prepared) (physical : Physical) (membership : GitHubMutationReceipt) : M Output := λ w,
  match read_status w with
  | (Err error, w) =>
      rollback_complete_transaction repository membership prepared plan (of_host error)
        "concat_final_rediscovery_failed" w
  | (Ok final_status, w) =>
      match ordering_observed final_status plan with
      | None =>
          rollback_complete_transaction repository membership prepared plan
            (structured "concat_final_topology_unexpected"
               "provider writes completed but exact concatenated ordering was not observed"
               (DetailsFleet (ga_fleet (so_analysis final_status))))
            "concat_final_topology_rollback" w
      | Some concatenated =>
          conclude_concat input repository plan physical membership
            (ga_fleet (so_analysis final_status)) concatenated w
      end
  end.

(** From the atomic push on: rediscover, retarget the source root, verify. *)
Definition commit_rewrites (input : ConcatExecuteInput) (repository : RepositoryId) (plan : ConcatPlan)
    (prepared : list Prepared) (physical : Physical) : M Output := λ w,
  match read_status w with
  | (Err error, w) =>
      rollback_physical_error (of_host error) prepared plan "concat_post_rewrite_rediscovery_failed" w
  | (Ok post_rewrite, w) =>
      if rewrite_not_observed post_rewrite (physical_receipts physical) then
        rollback_physical_error
          (validation "concat_rewrite_head_stale"
             "provider did not expose every exact atomically rewritten head")
          prepared plan "concat_post_rewrite_rediscovery_failed" w
      else
        match ga_pull_requests (so_analysis post_rewrite) !! cp_source_caravan plan, cp_members plan with
        | Some source_root, first :: _ =>
            match set_base repository (precondition_of source_root) (cm_target_branch first) w with
            | (Err error, w) =>
                rollback_physical_error (concat_mutation_error error plan) prepared plan
                  "concat_membership_commit_failed" w
            | (Ok membership, w) => verify_topology input repository plan prepared physical membership w
            end
        | _, _ => None
        end
  end.

(** The preparation of every member, without a provider write. *)
Definition prepare_rewrites (status : ConcatStatus) (plan : ConcatPlan) : M (list Prepared) :=
  let* source := expect (fleet_caravan (ga_fleet (so_analysis status)) (cp_source_caravan plan)) in
  let* first := expect (head (cp_members plan)) in
  let* target_tail := expect (ga_pull_requests (so_analysis status) !! cm_target_pr first) in
  prepare_members status (pr_head target_tail) None (RemoteBase (pr_head target_tail))
    (cv_members source) (cp_members plan).

Definition stale_error (expected : string) (plan : ConcatPlan) : AppError :=
  structured "concat_plan_stale"
    "concat facts changed after the reviewed plan; refusing before mutation" (DetailsStale expected plan).

(** The plan computed again under the writer lease. *)
Definition replan (status : ConcatStatus) (input : ConcatExecuteInput) : M ConcatPlan := λ w,
  match plan_from_status plan_json status (ce_intent input) w with
  | (Err e, w) => Some (Err e, w)
  | (Ok plan, w) =>
      if String.eqb (ce_expected_plan_hash input) (cp_plan_hash plan) then Some (Ok plan, w)
      else Some (Err (stale_error (ce_expected_plan_hash input) plan), w)
  end.

Definition execute (input : ConcatExecuteInput) : M Output :=
  let* existing := host (existing_receipt (ce_expected_plan_hash input)) in
  match existing with
  | Some output => ret output
  | None =>
      let* _ := host acquire_writer_operation in
      let* status := host read_status in
      let* plan := replan status input in
      let* prepared := prepare_rewrites status plan in
      let* physical := host (apply_prepared_atomically prepared) in
      commit_rewrites input (so_repository status) plan prepared physical
  end.
End execute.
