(* ===== verification/ConcatProofs.v ===== *)
(** What the concatenation promises: the plan is exactly the two chains in a
    row with one rebase per source member, and the transaction leaves the
    topology as it was whenever it reports that nothing was mutated, one case
    excepted. *)

From Stdlib Require Import String.
From S2P Require Import Prelude Text Model Mutations RequiredRuns Graph GraphProofs Analysis Budget Concat.

#[local] Open Scope string_scope.
#[local] Open Scope list_scope.
#[local] Open Scope nat_scope.
#[local] Open Scope caravan_scope.

(** ** The plan *)

(** Each member with the snapshot before it. *)
Fixpoint chained (predecessor : PullRequestSnapshot) (numbers : list PrNumber)
    (rows : list PullRequestSnapshot) : list ConcatMemberPlan :=
  match numbers, rows with
  | number :: numbers, row :: rows => member_plan number row predecessor :: chained row numbers rows
  | _, _ => []
  end.

Definition row_of (status : ConcatStatus) (n : PrNumber) (pr : PullRequestSnapshot) : Prop :=
  ga_pull_requests (so_analysis status) !! n = Some pr ∧ foreign (so_repository status) pr = false.

Lemma plan_members_spec status source predecessor numbers members heads :
  plan_members status source predecessor numbers = Ok (members, heads) →
  ∃ rows, Forall2 (row_of status) numbers rows ∧ members = chained predecessor numbers rows ∧
    heads = pr_head <$> rows.
Proof.
  revert predecessor members heads. induction numbers as [|n numbers IH]; intros predecessor members heads; cbn.
  { intros [= <- <-]. by exists []. }
  destruct (_ !! n) as [row|] eqn:Hrow; [|done]. destruct (foreign _ row) eqn:Hf; [done|].
  destruct (plan_members status source row numbers) as [[ms hs]|] eqn:E; [|done]. intros [= <- <-].
  destruct (IH row ms hs E) as (rows & Hrows & -> & ->). exists (row :: rows).
  split_and!; [by constructor|done|done].
Qed.

Section plan.
Context {W : Type} `{CompatibilityChecker W HostError} (plan_json : ConcatPlan → list N).

(** What [plan_pair] establishes. *)
Record pair_spec (status : ConcatStatus) (input : ConcatInput) (source target : Caravan)
    (source_root target_snapshot : PullRequestSnapshot) : Prop := {
  ps_healthy : so_healthy status = true;
  ps_source : source ∈ fl_caravans (ga_fleet (so_analysis status)) ∧ cv_id source = ci_source_head_pr input;
  ps_target : target ∈ fl_caravans (ga_fleet (so_analysis status)) ∧
    caravan_tail target = Some (ci_target_tail_pr input);
  ps_parked : cv_parked source = false ∧ cv_parked target = false;
  ps_distinct : cv_id source ≠ cv_id target;
  ps_held state n : (state, n) ∈ so_pauses status → is_effective state = true →
    n ≠ cv_id source ∧ n ≠ cv_id target;
  ps_tail : ga_pull_requests (so_analysis status) !! ci_target_tail_pr input = Some target_snapshot;
  ps_root : ga_pull_requests (so_analysis status) !! ci_source_head_pr input = Some source_root }.

Lemma find_hold_None pauses c state n : find_hold pauses c = None →
  (state, n) ∈ pauses → is_effective state = true → n ≠ cv_id c.
Proof.
  unfold find_hold. intros Hnone Hin He ->. 
  pose proof (List.find_none _ _ Hnone (state, cv_id c)) as Hf. rewrite <- list_elem_of_In in Hf.
  specialize (Hf Hin). cbn in Hf. by rewrite He, N.eqb_refl in Hf.
Qed.

Lemma plan_pair_spec status input source target source_root target_snapshot :
  plan_pair status input = Ok (source, target, source_root, target_snapshot) →
  pair_spec status input source target source_root target_snapshot.
Proof.
  unfold plan_pair. destruct (bounded_text 256 _); [cbn|done]. destruct (bounded_text 512 _); [cbn|done].
  destruct (so_healthy status) eqn:Hh; [cbn|done].
  destruct (List.find _ _) as [s|] eqn:Hs; [cbn|done].
  destruct (List.find (λ c, opt_eqb _ _) _) as [t|] eqn:Ht; [cbn|done].
  destruct (cv_parked s) eqn:Hps; [done|]. destruct (cv_parked t) eqn:Hpt; [done|]. cbn.
  destruct (N.eqb_spec (cv_id s) (cv_id t)) as [|Hne]; [done|].
  destruct (find_hold _ s) eqn:Hhs; [done|]. destruct (find_hold _ t) eqn:Hht; [done|].
  destruct (_ !! ci_target_tail_pr input) as [tr|] eqn:Htr; [cbn|done].
  destruct (_ !! ci_source_head_pr input) as [sr|] eqn:Hsr; [cbn|done].
  destruct (_ || _); [done|]. intros [= <- <- <- <-].
  apply List.find_some in Hs as [Hsin Hsid]. apply List.find_some in Ht as [Htin Htid].
  rewrite <- list_elem_of_In in Hsin, Htin. apply N.eqb_eq in Hsid.
  unfold opt_eqb in Htid. apply bool_decide_eq_true in Htid.
  split; try done. intros state n Hin He. split; eapply find_hold_None; eauto.
Qed.

(** A plan exists only for two distinct, unparked, unheld caravans of a
    healthy fleet whose joint was checked clean, and it is then exact: the new
    ordering is the target followed by the source, every source member has one
    entry, whose base to be is the snapshot before it (the target tail for the
    root), the rollback heads are the members' present heads in order, and the
    hash is the hash of the plan with the hash left blank. *)
Theorem concat_plan_is_exact status input w plan w' :
  plan_from_status plan_json status input w = (Ok plan, w') →
  ∃ source target source_root target_snapshot rows report w0,
    pair_spec status input source target source_root target_snapshot ∧
    check (pr_head source_root) (pr_head target_snapshot) w0 = (Ok report, w') ∧ cr_outcome report = Clean ∧
    cp_source_caravan plan = ci_source_head_pr input ∧ cp_target_caravan plan = cv_id target ∧
    cp_source_members plan = cv_members source ∧ cp_target_members plan = cv_members target ∧
    cp_new_ordering plan = cv_members target ++ cv_members source ∧
    Forall2 (row_of status) (cv_members source) rows ∧
    cp_members plan = chained target_snapshot (cv_members source) rows ∧
    cp_rollback_heads plan = pr_head <$> rows ∧
    cp_plan_hash plan = fnv1a64 (plan_json (with_plan_hash plan EmptyString)).
Proof.
  unfold plan_from_status. destruct (plan_pair status input) as [[[[source target] root] tail]|e] eqn:Hpair; [|done].
  apply plan_pair_spec in Hpair. unfold plan_checked.
  destruct (prepare _ w) as [[] w0]; [|done].
  destruct (check _ _ w0) as [[report|] w1] eqn:Hcheck; [|done].
  destruct (bool_decide _) eqn:Hclean; cbn [negb]; [|done]. apply bool_decide_eq_true in Hclean.
  destruct (plan_members _ _ _ _) as [[members heads]|] eqn:Hm; [|done]. intros [= <- <-].
  apply plan_members_spec in Hm as (rows & Hrows & -> & ->).
  exists source, target, root, tail, rows, report, w0. cbn. destruct (ps_source _ _ _ _ _ _ Hpair) as [_ Hid].
  split_and!; try done.
Qed.
End plan.

(** ** The transaction *)

(** What the operations do to the branch heads and to the base names of the
    pull requests on the forge, when nobody else writes. The push is atomic
    and leased on the old heads, so a completed rollback restores the heads
    before it ([applied] relates them); a failed edit may or may not have
    reached the forge; reads change nothing and report the bases truly. *)
Class LawfulConcatHost (W Prepared Physical Event Deliveries MutationError : Type)
    `{!CompatibilityChecker W HostError}
    `{!ConcatHost W Prepared Physical Event Deliveries MutationError} := {
  heads : W → gmap string CommitOid;
  bases : W → gmap PrNumber string;
  applied : list Prepared → gmap string CommitOid → gmap string CommitOid → Prop;
  topo (w : W) := (heads w, bases w);
  prepare_topo l w : topo (prepare l w).2 = topo w;
  check_topo a b w : topo (check a b w).2 = topo w;
  existing_topo h w : topo (existing_receipt h w).2 = topo w;
  existing_idempotent h w output w' : existing_receipt h w = (Ok (Some output), w') →
    co_idempotent output = true;
  acquire_topo w : topo (acquire_writer_operation w).2 = topo w;
  status_topo w : topo (read_status w).2 = topo w;
  status_truth w status w' n pr : read_status w = (Ok status, w') →
    ga_pull_requests (so_analysis status) !! n = Some pr →
    pr_number pr = n ∧ bases w !! n = Some (br_name (pr_base pr));
  status_caravans w status w' c : read_status w = (Ok status, w') →
    c ∈ fl_caravans (ga_fleet (so_analysis status)) → caravan_head c = Some (cv_id c);
  candidate_topo c r b d p w : topo (prepare_candidate c r b d p w).2 = topo w;
  apply_ok prepared w physical w' : apply_prepared_atomically prepared w = (Ok physical, w') →
    applied prepared (heads w) (heads w') ∧ bases w' = bases w;
  rollback_ok prepared h w w' : rollback_prepared_atomically prepared w = (Ok tt, w') →
    applied prepared h (heads w) → heads w' = h ∧ bases w' = bases w;
  verify_topo r p w : topo (verify_precondition r p w).2 = topo w;
  refetch_topo r n w : topo (refetch_pull_request r n w).2 = topo w;
  refetch_number r n w pr w' : refetch_pull_request r n w = (Ok pr, w') → pr_number pr = n;
  edit_heads r n b w : heads (edit_base r n b w).2 = heads w;
  edit_ok r n b w out w' : edit_base r n b w = (Ok out, w') → bases w' = <[n := b]> (bases w);
  edit_err r n b w e w' : edit_base r n b w = (Err e, w') →
    bases w' = bases w ∨ bases w' = <[n := b]> (bases w);
  operation_topo w : topo (new_operation_id w).2 = topo w;
  dispatch_topo e w : topo (dispatch_events e w).2 = topo w }.

Section transaction.
Context {W Prepared Physical Event Deliveries MutationError : Type}.
Context `{!CompatibilityChecker W HostError}.
Context `{!ConcatHost W Prepared Physical Event Deliveries MutationError}.
Context `{!LawfulConcatHost W Prepared Physical Event Deliveries MutationError}.
Context (plan_json : ConcatPlan → list N).
#[local] Abbreviation Output := (ConcatOutput Physical Event Deliveries).

Definition flag (e : AppError) : option bool := ae_details e ≫= mutated_flag.

(** An error of other code carries no flag. *)
Lemma of_host_flag e : flag (of_host e) = None.
Proof. unfold flag, of_host. cbn. by destruct (he_details e). Qed.

Lemma set_base_heads repository expected base w : heads (set_base repository expected base w).2 = heads w.
Proof.
  unfold set_base. pose proof (verify_topo repository expected w) as Hv.
  destruct (verify_precondition _ _ w) as [[before|e] w1]; cbn in *; unfold topo in Hv; [|congruence].
  pose proof (edit_heads repository (pc_number expected) base w1) as He.
  destruct (edit_base _ _ _ w1) as [[out|e] w2]; cbn in *; [|congruence].
  pose proof (refetch_topo repository (pc_number expected) w2) as Hr.
  destruct (refetch_pull_request _ _ w2) as [[after|e] w3]; cbn in *; unfold topo in Hr; congruence.
Qed.

Lemma set_base_bases repository expected base w r w' : set_base repository expected base w = (r, w') →
  match r with
  | Ok receipt => bases w' = <[pc_number expected := base]> (bases w) ∧
      pr_number (gm_after receipt) = pc_number expected
  | Err _ => bases w' = bases w ∨ bases w' = <[pc_number expected := base]> (bases w)
  end.
Proof.
  unfold set_base. pose proof (verify_topo repository expected w) as Hv.
  destruct (verify_precondition _ _ w) as [[before|e] w1]; cbn in *; unfold topo in Hv;
    [|intros [= <- <-]; left; congruence].
  destruct (edit_base _ _ _ w1) as [[out|e] w2] eqn:He; cbn in *.
  2: { intros [= <- <-]. apply edit_err in He. injection Hv as _ <-. exact He. }
  apply edit_ok in He. pose proof (refetch_topo repository (pc_number expected) w2) as Hr.
  destruct (refetch_pull_request _ _ w2) as [[after|e] w3] eqn:Hf; cbn in *; unfold topo in Hr;
    intros [= <- <-]; [split; [congruence|by eapply refetch_number]|right; congruence].
Qed.

(** What a run that ends in [r] from the topology [t] leaves. *)
Definition outcome_spec (t : gmap string CommitOid * gmap PrNumber string) (source : PrNumber)
    (r : result Output AppError) (w' : W) : Prop :=
  match r with
  | Ok output => ∃ prepared first, applied prepared t.1 (heads w') ∧
      cp_source_caravan (co_plan output) = source ∧ head (cp_members (co_plan output)) = Some first ∧
      bases w' = <[source := cm_target_branch first]> t.2
  | Err e => flag e = Some false →
      heads w' = t.1 ∧
      (bases w' = t.2 ∨
       ae_code e = "concat_membership_commit_failed" ∧ ∃ b, bases w' = <[source := b]> t.2)
  end.

Lemma rollback_physical_outcome source_error prepared plan code t n w r w' :
  rollback_physical_error (Event := Event) (Deliveries := Deliveries) source_error prepared plan code w
    = Some (r, w') →
  applied prepared t.1 (heads w) →
  (bases w = t.2 ∨ code = "concat_membership_commit_failed" ∧ ∃ b, bases w = <[n := b]> t.2) →
  outcome_spec t n r w'.
Proof.
  unfold rollback_physical_error. intros Hrun Happ Hb.
  destruct (rollback_prepared_atomically prepared w) as [[[]|e] w1] eqn:Hroll; injection Hrun as <- <-; cbn.
  - intros _. apply (rollback_ok prepared t.1) in Hroll as [-> ->]; [|done]. done.
  - done.
Qed.

Lemma rollback_complete_outcome repository membership prepared plan source_error code t n w r w' first rest b :
  rollback_complete_transaction (Event := Event) (Deliveries := Deliveries) repository membership prepared
    plan source_error code w = Some (r, w') →
  cp_members plan = first :: rest → applied prepared t.1 (heads w) →
  pr_number (gm_after membership) = n → t.2 !! n = Some (br_name (cm_old_base first)) →
  bases w = <[n := b]> t.2 → outcome_spec t n r w'.
Proof.
  unfold rollback_complete_transaction. intros Hrun Hfirst Happ Hn Hold Hb. rewrite Hfirst in Hrun.
  pose proof (set_base_heads repository (precondition_of (gm_after membership)) (br_name (cm_old_base first)) w) as Hh.
  destruct (set_base _ _ _ w) as [[m|e] w1] eqn:Hset; cbn in Hh; [|by injection Hrun as <- <-].
  apply set_base_bases in Hset as [Hset _]. cbn in Hset. rewrite Hn, Hb, insert_insert_eq, insert_id in Hset by done.
  destruct (rollback_prepared_atomically prepared w1) as [[[]|e] w2] eqn:Hroll; injection Hrun as <- <-; cbn; [|done].
  intros _. apply (rollback_ok prepared t.1) in Hroll as [-> ->]; [|by rewrite Hh].
  split; [done|by left].
Qed.

(** The writes of a run up to the state [w2] behind the base edit: the branches
    were pushed from the topology [t], every pushed head was observed, and the
    source root of that observation was retargeted. *)
Definition committed (t : gmap string CommitOid * gmap PrNumber string) (plan : ConcatPlan) (physical : Physical)
    (membership : GitHubMutationReceipt) (w2 : W) : Prop :=
  ∃ repository prepared first wx w0 post w1 root,
    topo wx = t ∧ apply_prepared_atomically prepared wx = (Ok physical, w0)
    ∧ read_status w0 = (Ok post, w1) ∧ rewrite_not_observed post (physical_receipts physical) = false
    ∧ ga_pull_requests (so_analysis post) !! cp_source_caravan plan = Some root ∧ head (cp_members plan) = Some first
    ∧ set_base repository (precondition_of root) (cm_target_branch first) w1 = (Ok membership, w2).

(** The observation a new success rests on: the status read from the very state
    the base edit left shows the planned ordering, and after this read there is
    only the delivery of the event. *)
Definition observed (t : gmap string CommitOid * gmap PrNumber string) (plan : ConcatPlan) (output : Output) (w' : W) : Prop :=
  ∃ w2 status w3 c event, committed t plan (co_physical output) (co_membership output) w2
    ∧ read_status w2 = (Ok status, w3) ∧ ordering_observed status plan = Some c
    ∧ co_events output = [event] ∧ dispatch_events event (new_operation_id w3).2 = (Ok (co_hook_deliveries output), w').

Definition success (t : gmap string CommitOid * gmap PrNumber string) (plan : ConcatPlan) (output : Output) (w' : W) : Prop :=
  co_idempotent output = false ∧ co_plan output = plan ∧ observed t plan output w' ∧
  co_resulting_ordering output = cp_new_ordering plan ∧
  ∃ prepared first, applied prepared t.1 (heads w') ∧ head (cp_members plan) = Some first ∧
    bases w' = <[cp_source_caravan plan := cm_target_branch first]> t.2.

Lemma conclude_outcome input repository plan prepared physical membership status c t first w2 w r w' :
  conclude_concat input repository plan physical membership (ga_fleet (so_analysis status)) c w = Some (r, w') →
  committed t plan physical membership w2 → read_status w2 = (Ok status, w) → ordering_observed status plan = Some c →
  applied prepared t.1 (heads w) → head (cp_members plan) = Some first →
  bases w = <[cp_source_caravan plan := cm_target_branch first]> t.2 →
  match r with Ok output => success t plan output w' | Err e => flag e = None end.
Proof.
  unfold conclude_concat. intros Hrun Hcom Hread Hobs Happ Hfirst Hb. pose proof (operation_topo w) as Ho.
  destruct (new_operation_id w) as [id w1] eqn:Hid. unfold bind, host in Hrun.
  match type of Hrun with context [dispatch_events ?e w1] => set (event := e) in Hrun; pose proof (dispatch_topo event w1) as Hd end.
  destruct (dispatch_events event w1) as [[d|e] w4] eqn:Hdis; injection Hrun as <- <-; [|apply of_host_flag].
  cbn in Ho, Hd. unfold topo in *. rewrite Ho in Hd. injection Hd as Hh Hbs. unfold success. cbn.
  split_and!; try done; [|exists prepared, first; by rewrite Hh, Hbs].
  exists w2, status, w, c, event. by rewrite Hid.
Qed.

(** The facts the last phases share: the rewrites are applied to [t]. *)
Record applied_from (t : gmap string CommitOid * gmap PrNumber string) (plan : ConcatPlan)
    (prepared : list Prepared) (w : W) : Prop := {
  af_applied : applied prepared t.1 (heads w);
  af_old : ∃ first rest, cp_members plan = first :: rest ∧
    t.2 !! cp_source_caravan plan = Some (br_name (cm_old_base first)) }.

Definition final_spec (t : gmap string CommitOid * gmap PrNumber string) (plan : ConcatPlan)
    (r : result Output AppError) (w' : W) : Prop :=
  match r with Ok output => success t plan output w' | Err e => outcome_spec t (cp_source_caravan plan) (Err e) w' end.

Lemma rollback_physical_err source_error prepared plan code w r w' :
  rollback_physical_error (Event := Event) (Deliveries := Deliveries) source_error prepared plan code w
    = Some (r, w') → ∃ e, r = Err e.
Proof.
  unfold rollback_physical_error. destruct (rollback_prepared_atomically _ w) as [[]]; intros [= <- <-]; eauto.
Qed.

Lemma rollback_complete_err repository membership prepared plan source_error code w r w' :
  rollback_complete_transaction (Event := Event) (Deliveries := Deliveries) repository membership prepared
    plan source_error code w = Some (r, w') → ∃ e, r = Err e.
Proof.
  unfold rollback_complete_transaction. destruct (cp_members plan); [done|].
  destruct (set_base _ _ _ w) as [[] w1]; [|intros [= <- <-]; eauto].
  destruct (rollback_prepared_atomically _ w1) as [[]]; intros [= <- <-]; eauto.
Qed.

Lemma verify_topology_outcome input repository plan prepared physical membership t w r w' :
  verify_topology input repository plan prepared physical membership w = Some (r, w') →
  applied_from t plan prepared w → committed t plan physical membership w →
  pr_number (gm_after membership) = cp_source_caravan plan →
  (∃ first, head (cp_members plan) = Some first ∧
     bases w = <[cp_source_caravan plan := cm_target_branch first]> t.2) →
  final_spec t plan r w'.
Proof.
  intros Hrun [Happ (first & rest & Hmem & Hold)] Hcom Hn (f & Hf & Hb). unfold verify_topology in Hrun.
  pose proof (status_topo w) as Hs. destruct (read_status w) as [[status|e] w1] eqn:Hread; cbn in Hs;
    unfold topo in Hs; injection Hs as Hh Hbs; rewrite <- Hh in Happ; rewrite <- Hbs in Hb.
  2: { destruct (rollback_complete_err _ _ _ _ _ _ _ _ _ Hrun) as [e' ->].
       eapply rollback_complete_outcome; eauto. }
  destruct (ordering_observed status plan) as [c|] eqn:Hobs.
  - pose proof (conclude_outcome _ _ _ _ _ _ _ _ _ _ _ _ _ _ Hrun Hcom Hread Hobs Happ Hf Hb) as Hc.
    destruct r; [exact Hc|]. cbn. intros Hflag. congruence.
  - destruct (rollback_complete_err _ _ _ _ _ _ _ _ _ Hrun) as [e' ->].
    eapply rollback_complete_outcome; eauto.
Qed.

Lemma commit_rewrites_outcome input repository plan prepared physical t w r w' :
  commit_rewrites input repository plan prepared physical w = Some (r, w') →
  (∃ wx, topo wx = t ∧ apply_prepared_atomically prepared wx = (Ok physical, w)) →
  applied_from t plan prepared w → bases w = t.2 → final_spec t plan r w'.
Proof.
  intros Hrun (wx & Hwx & Happly) Haf Hb. pose proof Haf as [Happ (first & rest & Hmem & Hold)]. unfold commit_rewrites in Hrun.
  pose proof (status_topo w) as Hs. destruct (read_status w) as [[post|e] w1] eqn:Hread; cbn in Hs;
    unfold topo in Hs; injection Hs as Hh Hbs; rewrite <- Hh in Happ; rewrite <- Hbs in Hb.
  2: { destruct (rollback_physical_err _ _ _ _ _ _ _ Hrun) as [e' ->].
       eapply rollback_physical_outcome; eauto. }
  destruct (rewrite_not_observed _ _) eqn:Hshown.
  { destruct (rollback_physical_err _ _ _ _ _ _ _ Hrun) as [e' ->].
    eapply rollback_physical_outcome; eauto. }
  destruct (_ !! cp_source_caravan plan) as [root|] eqn:Hroot; [|done]. rewrite Hmem in Hrun.
  pose proof Hroot as [Hnum _]%(status_truth _ _ _ _ _ Hread).
  pose proof (set_base_heads repository (precondition_of root) (cm_target_branch first) w1) as Hsh.
  destruct (set_base _ _ _ w1) as [[m|e] w2] eqn:Hedit; cbn in Hsh; pose proof (set_base_bases _ _ _ _ _ _ Hedit) as Hset; cbn in Hset;
    rewrite Hnum, Hb in Hset; rewrite <- Hsh in Happ.
  - destruct Hset as [Hset Hafter]. eapply verify_topology_outcome; eauto; [split; eauto| |exists first; by rewrite Hmem].
    exists repository, prepared, first, wx, w, post, w1, root. by rewrite Hmem.
  - destruct (rollback_physical_err _ _ _ _ _ _ _ Hrun) as [e' ->].
    eapply rollback_physical_outcome; eauto. destruct Hset; [by left|right; eauto].
Qed.

(** Steps that leave the topology alone. *)
Definition silent {A} (m : W → option (result A AppError * W)) : Prop :=
  ∀ w r w', m w = Some (r, w') → topo w' = topo w.

Lemma silent_ret {A} (a : A) : silent (ret a).
Proof. by intros w r w' [= <- <-]. Qed.

Lemma silent_expect {A} (o : option A) : silent (expect o).
Proof. intros w r w'. unfold expect. destruct o; cbn; [|done]. by intros [= <- <-]. Qed.

Lemma silent_host {A} (m : W → result A HostError * W) : (∀ w, topo (m w).2 = topo w) → silent (host m).
Proof.
  intros Hm w r w'. unfold host. specialize (Hm w). by destruct (m w) as [[] w1]; intros [= <- <-].
Qed.

Lemma bind_inv {A B} (m : W → option (result A AppError * W)) (f : A → W → option (result B AppError * W)) w r w' :
  bind m f w = Some (r, w') →
  (∃ e, m w = Some (Err e, w') ∧ r = Err e) ∨ (∃ a w1, m w = Some (Ok a, w1) ∧ f a w1 = Some (r, w')).
Proof.
  unfold bind. destruct (m w) as [[[a|e] w1]|] eqn:E; [right; eauto| |done]. intros [= <- <-]. left. eauto.
Qed.

Lemma silent_bind {A B} (m : W → option (result A AppError * W)) (f : A → W → option (result B AppError * W)) :
  silent m → (∀ a, silent (f a)) → silent (bind m f).
Proof.
  intros Hm Hf w r w' [(e & He & ->)|(a & w1 & Ha & Hr)]%bind_inv; [by eapply Hm|].
  etrans; [by eapply Hf|by eapply Hm].
Qed.

Lemma prepare_members_silent status target parent base numbers plans :
  silent (prepare_members status target parent base numbers plans).
Proof.
  revert parent base plans. induction numbers as [|n numbers IH]; intros; cbn; [apply silent_ret|].
  apply silent_bind; [apply silent_expect|intros candidate].
  apply silent_bind; [apply silent_expect|intros member].
  apply silent_bind; [apply silent_host; intros; apply candidate_topo|intros item].
  apply silent_bind; [apply IH|intros; apply silent_ret].
Qed.

Lemma prepare_rewrites_silent status plan : silent (prepare_rewrites status plan).
Proof. repeat (apply silent_bind; [apply silent_expect|intros ?]). apply prepare_members_silent. Qed.

Lemma plan_topo status input w : topo (plan_from_status plan_json status input w).2 = topo w.
Proof.
  unfold plan_from_status. destruct (plan_pair status input) as [[[[s t] root] tail]|]; [|done].
  unfold plan_checked. pose proof (prepare_topo [pr_head root; pr_head tail] w) as Hp.
  destruct (prepare _ w) as [[] w1]; cbn in Hp; [|done].
  pose proof (check_topo (pr_head root) (pr_head tail) w1) as Hc.
  destruct (check _ _ w1) as [[report|] w2]; cbn in Hc; [destruct (negb _)|]; cbn; congruence.
Qed.

Lemma replan_silent status input : silent (replan plan_json status input).
Proof.
  intros w r w'. unfold replan. pose proof (plan_topo status (ce_intent input) w) as Hp.
  destruct (plan_from_status _ _ _ w) as [[plan|e] w1]; [destruct (String.eqb _ _)|]; by intros [= <- <-].
Qed.

(** The plan of an execution starts with the source root at its present base. *)
Lemma plan_first w0 status w1 input w plan w' : read_status w0 = (Ok status, w1) →
  plan_from_status plan_json status input w = (Ok plan, w') →
  ∃ first rest, cp_members plan = first :: rest ∧
    bases w0 !! cp_source_caravan plan = Some (br_name (cm_old_base first)).
Proof.
  intros Hread Hplan. pose proof Hplan as Hplan'.
  unfold plan_from_status in Hplan. destruct (plan_pair status input) as [[[[source target] root] tail]|e] eqn:Hpair; [|done].
  apply plan_pair_spec in Hpair. unfold plan_checked in Hplan.
  destruct (prepare _ w) as [[] w2]; [|done]. destruct (check _ _ w2) as [[report|] w3]; [|done].
  destruct (negb _); [done|]. destruct (plan_members _ _ _ _) as [[members hs]|] eqn:Hm; [|done].
  injection Hplan as <- <-. apply plan_members_spec in Hm as (rows & Hrows & -> & _). cbn.
  destruct (ps_source _ _ _ _ _ _ Hpair) as [Hin Hid].
  pose proof (status_caravans _ _ _ _ Hread Hin) as Hhead. unfold caravan_head in Hhead.
  destruct (cv_members source) as [|n ns] eqn:Hms; [done|]. injection Hhead as ->.
  inversion Hrows as [|? row ? rows' [Hrow _] ?]; subst. cbn. eexists _, _. split; [done|]. cbn.
  by apply (status_truth _ _ _ _ _ Hread) in Hrow as [_ ->].
Qed.

(** C40. What an execution leaves behind, when nobody else writes. A success is
    the receipt an earlier run recorded for the hash of the plan, which nothing
    is asked about and which touches nothing, or it is a new one for a plan of
    that hash. A new success rests on two status reads: one behind the push shows
    every pushed head, and one from the state the accepted base edit left, after
    which only the event is delivered, shows a caravan with exactly the planned
    ordering. It leaves the planned heads applied and of all bases only that of
    the source root changed, to the branch of the target tail. An error that says
    nothing was mutated restored every branch head, and every base too, unless
    the commit of the membership failed: its edit may have reached the forge (the
    base is then not undone). *)
Theorem concat_is_transactional input w r w' :
  execute plan_json input w = Some (r, w') →
  match r with
  | Ok output =>
      (existing_receipt (ce_expected_plan_hash input) w = (Ok (Some output), w') ∧ co_idempotent output = true ∧ topo w' = topo w)
      ∨ ∃ plan, cp_plan_hash plan = ce_expected_plan_hash input ∧ success (topo w) plan output w'
  | Err e => flag e = Some false →
      heads w' = heads w ∧
      (bases w' = bases w ∨
       ae_code e = "concat_membership_commit_failed" ∧ ∃ n b, bases w' = <[n := b]> (bases w))
  end.
Proof.
  assert (∀ t : W, topo t = topo w → ∀ e : AppError, flag e = Some false → heads t = heads w ∧
    (bases t = bases w ∨ ae_code e = "concat_membership_commit_failed" ∧ ∃ n b, bases t = <[n := b]> (bases w))) as Hsame.
  { intros t Ht e _. unfold topo in Ht. injection Ht as -> ->. split; [done|by left]. }
  intros [(e & He & ->)|(existing & w1 & He & Hrun)]%bind_inv.
  { apply Hsame. revert He. by apply silent_host, existing_topo. }
  assert (topo w1 = topo w) as Hw1 by (revert He; by apply silent_host, existing_topo).
  destruct existing as [output|].
  { injection Hrun as <- <-. left. unfold host in He.
    destruct (existing_receipt _ w) as [[[o|]|] wx] eqn:Hx; try done. injection He as -> ->.
    split_and!; [done|by eapply existing_idempotent|done]. }
  apply bind_inv in Hrun as [(e & Ha & ->)|([] & w2 & Ha & Hrun)];
    apply (silent_host acquire_writer_operation acquire_topo) in Ha; [apply Hsame; congruence|].
  apply bind_inv in Hrun as [(e & Hs & ->)|(status & w3 & Hs & Hrun)];
    pose proof (silent_host read_status status_topo _ _ _ Hs) as Hst; [apply Hsame; congruence|].
  apply bind_inv in Hrun as [(e & Hp & ->)|(plan & w4 & Hp & Hrun)];
    pose proof (replan_silent _ _ _ _ _ Hp) as Hpt; [apply Hsame; congruence|].
  apply bind_inv in Hrun as [(e & Hprep & ->)|(prepared & w5 & Hprep & Hrun)];
    apply prepare_rewrites_silent in Hprep; [apply Hsame; congruence|].
  apply bind_inv in Hrun as [(e & Happly & ->)|(physical & w6 & Happly & Hrun)];
    unfold host in Happly; destruct (apply_prepared_atomically prepared w5) as [[ph|he] wx] eqn:Hap;
    try done; injection Happly as <- <-.
  { rewrite of_host_flag. done. }
  pose proof Hap as [Happ Hb]%apply_ok. assert (topo w5 = topo w) as Hw5 by congruence.
  assert (cp_plan_hash plan = ce_expected_plan_hash input ∧ ∃ first rest, cp_members plan = first :: rest ∧
    bases w !! cp_source_caravan plan = Some (br_name (cm_old_base first))) as [Hhash Hfirst].
  { unfold host in Hs. destruct (read_status w2) as [[st|] wr] eqn:Hread; [|done]. injection Hs as -> ->.
    unfold replan in Hp. destruct (plan_from_status _ _ _ _) as [[p|] wp] eqn:Hplan; [|done].
    destruct (String.eqb _ _) eqn:Hhash; [|done]. apply String.eqb_eq in Hhash. injection Hp as -> ->. split; [done|].
    destruct (plan_first _ _ _ _ _ _ _ Hread Hplan) as (first & rest & Hm & Hbase).
    exists first, rest. split; [done|]. assert (topo w2 = topo w) as Hw2 by congruence.
    unfold topo in Hw2. by injection Hw2 as _ <-. }
  pose proof Hw5 as Htopo. unfold topo in Htopo. injection Htopo as Hh5 Hb5. rewrite Hh5 in Happ. rewrite Hb5 in Hb.
  pose proof (commit_rewrites_outcome _ _ _ _ _ (topo w) _ _ _ Hrun) as Hout.
  specialize (Hout (ex_intro _ w5 (conj Hw5 Hap)) ltac:(by split) Hb).
  destruct r as [output|e]; [right; by exists plan|]. cbn in Hout. intros Hf.
  destruct (Hout Hf) as [? [?|(? & b & ?)]]; (split; [done|]); [by left|right; eauto].
Qed.
End transaction.

(** ** A host

    The forge is the head of each branch and the base of each request; four
    open members form the chains 1, 2 and 3, 4. [refetch_works] says whether
    the read after an edit succeeds. *)

Record SampleForge := mkSampleForge {
  sf_heads : gmap string CommitOid;
  sf_bases : gmap PrNumber string }.

Definition sample_member (w : SampleForge) (n : PrNumber) (branch : string) : option PullRequestSnapshot :=
  base ← sf_bases w !! n;
  Some (mkPullRequestSnapshot n "t" "u" Open false
          (mkBranchSnapshot sample_repo branch (default "" (sf_heads w !! branch)))
          (sample_branch base base) false {["caravan"]}
          (if N.odd n then auto_merge_squash else auto_merge_disabled) [] None None None None).

Definition sample_rows (w : SampleForge) : list PullRequestSnapshot :=
  omap (λ '(n, branch), sample_member w n branch) [(1%N, "a"); (2%N, "b"); (3%N, "c"); (4%N, "d")].

Definition sample_status (w : SampleForge) : ConcatStatus :=
  let a := analysis_of (sample_rows w) in
  mkConcatStatus sample_repo (healthy a) a [].

Definition sample_error : HostError := mkHostError CatExecutionFailure "refused" "refused" None.

(** A rewrite: the branch, its old head and its new head. *)
Definition sample_push (prepared : list (string * CommitOid * CommitOid)) (h : gmap string CommitOid)
    : gmap string CommitOid := foldr (λ '(branch, _, new), <[branch := new]>) h prepared.
Definition sample_restore (prepared : list (string * CommitOid * CommitOid)) (h : gmap string CommitOid)
    : gmap string CommitOid := foldr (λ '(branch, old, _), <[branch := old]>) h prepared.

#[local] Instance sample_checker : CompatibilityChecker SampleForge HostError := {
  prepare _ w := (Ok tt, w);
  check a b w := (Ok (mkCompatibilityReport a b Clean [] None), w);
  cumulative_tree _ _ w := (Ok None, w);
  squash_equivalence _ _ w := (Ok None, w) }.

Section sample.
Context (refetch_works : bool).

(** The push holds the lease on the old heads. *)
#[local] Instance sample_host : ConcatHost SampleForge (string * CommitOid * CommitOid)
    (list (PrNumber * CommitOid)) unit unit string := {
  existing_receipt _ w := (Ok None, w);
  acquire_writer_operation w := (Ok tt, w);
  read_status w := (Ok (sample_status w), w);
  prepare_candidate c _ _ _ _ w :=
    (Ok (br_name (pr_head c), br_oid (pr_head c), br_oid (pr_head c) +:+ "'"), w);
  prepared_new_head p := p.2;
  apply_prepared_atomically prepared w :=
    let pushed := sample_push prepared (sf_heads w) in
    if bool_decide (sample_restore prepared pushed = sf_heads w)
    then (Ok [], mkSampleForge pushed (sf_bases w)) else (Err sample_error, w);
  physical_receipts p := p;
  rollback_prepared_atomically prepared w :=
    (Ok tt, mkSampleForge (sample_restore prepared (sf_heads w)) (sf_bases w));
  verify_precondition _ p w :=
    (match List.find (λ pr, N.eqb (pr_number pr) (pc_number p)) (sample_rows w) with
     | Some pr => Ok pr | None => Err "missing" end, w);
  edit_base _ n b w := (Ok None, mkSampleForge (sf_heads w) (<[n := b]> (sf_bases w)));
  refetch_pull_request _ n w :=
    (match List.find (λ pr, N.eqb (pr_number pr) n) (sample_rows w) with
     | Some pr => if refetch_works then Ok pr else Err "timeout" | None => Err "missing" end, w);
  show_mutation_error e := e;
  new_operation_id w := ("op", w);
  concatenated_event _ _ _ _ _ _ _ := tt;
  dispatch_events _ w := (Ok tt, w) }.

Lemma sample_rows_spec w pr : pr ∈ sample_rows w →
  sf_bases w !! pr_number pr = Some (br_name (pr_base pr)).
Proof.
  unfold sample_rows. rewrite list_elem_of_omap. intros ([n branch] & _ & Hpr). unfold sample_member in Hpr.
  destruct (sf_bases w !! n) as [b|] eqn:E; [|done]. injection Hpr as <-. exact E.
Qed.

Lemma sample_status_truth w n pr : ga_pull_requests (so_analysis (sample_status w)) !! n = Some pr →
  pr_number pr = n ∧ sf_bases w !! n = Some (br_name (pr_base pr)).
Proof.
  change (so_analysis (sample_status w)) with (analysis_of (sample_rows w)). intros Hpr.
  pose proof (analysis_of_derived (sample_rows w)) as Hd.
  destruct (derive_spec (sample_snapshot (sample_rows w)) actor_default) as (? & ? & ? & ? & ? & ? & Hd' & _).
  rewrite Hd in Hd'. injection Hd' as Ha. rewrite Ha in Hpr. cbn in Hpr.
  pose proof (rows_keyed _ _ _ Hpr) as Hn. split; [done|]. rewrite <- Hn.
  apply sample_rows_spec. by apply rows_elem in Hpr.
Qed.

#[local] Instance sample_lawful : LawfulConcatHost SampleForge (string * CommitOid * CommitOid)
    (list (PrNumber * CommitOid)) unit unit string.
Proof.
  refine {| heads := sf_heads; bases := sf_bases;
    applied := λ prepared h h', sample_restore prepared h' = h |}; cbn; try done.
  - intros w status w' n pr [= <- <-]. apply sample_status_truth.
  - intros w status w' c [= <- <-]. cbn.
    by apply (caravans_of_derived _ _ _ (analysis_of_derived (sample_rows w))).
  - intros prepared w physical w'. case_bool_decide as Hlease; [|done]. by intros [= <- <-].
  - intros prepared h w w' [= <-] <-. done.
  - intros _ n w pr w'. destruct (List.find _ _) as [r|] eqn:E; [|done].
    destruct refetch_works; [|done]. intros [= <- <-]. apply List.find_some in E as [_ E]. by apply N.eqb_eq.
  - by intros _ n b w out w' [= <- <-].
Defined.

Definition sample_run (w : SampleForge)
    : option (result (ConcatOutput (list (PrNumber * CommitOid)) unit unit) AppError * SampleForge) :=
  execute (λ _, []) (mkConcatExecuteInput (mkConcatInput 3 2 "operator" "one lane") (fnv1a64 [])) w.
End sample.

Definition sample_forge : SampleForge :=
  mkSampleForge {["a" := "a0"; "b" := "b0"; "c" := "c0"; "d" := "d0"]}
    {[1%N := "main"; 2%N := "a"; 3%N := "main"; 4%N := "c"]}.

Example sample_run_works :
  (λ r, (match r.1 with Ok o => Some (co_resulting_ordering o) | Err _ => None end,
         sf_heads r.2 !! "c", sf_bases r.2 !! 3%N)) <$> sample_run true sample_forge =
  Some (Some [1%N; 2%N; 3%N; 4%N], Some "c0'", Some "b").
Proof. vm_compute. reflexivity. Qed.

#[local] Instance working_host : ConcatHost SampleForge (string * CommitOid * CommitOid)
    (list (PrNumber * CommitOid)) unit unit string := sample_host true.
#[local] Instance working_lawful : LawfulConcatHost SampleForge (string * CommitOid * CommitOid)
    (list (PrNumber * CommitOid)) unit unit string := sample_lawful true.

Lemma concat_is_transactional_witness :
  match sample_run true sample_forge with
  | Some (Ok output, w') => ∃ plan, success (topo sample_forge) plan output w'
  | _ => False
  end.
Proof.
  destruct (sample_run true sample_forge) as [[[output|e] w']|] eqn:E.
  - destruct (concat_is_transactional _ _ _ _ _ E) as [(_ & Hi & _) | (plan & _ & Hs)]; [|by exists plan].
    vm_compute in E. injection E as <- <-. discriminate Hi.
  - vm_compute in E. discriminate.
  - vm_compute in E. discriminate.
Defined.

Lemma concat_plan_is_exact_witness :
  match plan_from_status (λ _, []) (sample_status sample_forge) (mkConcatInput 3 2 "operator" "one lane") sample_forge with
  | (Ok plan, w') => ∃ source target source_root target_snapshot rows report w0,
      pair_spec (sample_status sample_forge) (mkConcatInput 3 2 "operator" "one lane") source target
        source_root target_snapshot ∧
      check (pr_head source_root) (pr_head target_snapshot) w0 = (Ok report, w') ∧
      cp_new_ordering plan = cv_members target ++ cv_members source ∧
      cp_members plan = chained target_snapshot (cv_members source) rows
  | (Err _, _) => False
  end.
Proof.
  destruct (plan_from_status _ _ _ _) as [[plan|e] w'] eqn:E.
  - destruct (concat_plan_is_exact _ _ _ _ _ _ E)
      as (source & target & root & tail & rows & report & w0 & H1 & H2 & _ & _ & _ & _ & _ & H3 & _ & H4 & _).
    exists source, target, root, tail, rows, report, w0. exact (conj H1 (conj H2 (conj H3 H4))).
  - vm_compute in E. discriminate.
Defined.

(** When the read after the base edit fails, the execution undoes the branch
    heads and reports that nothing was mutated, but the base stays edited. *)
Lemma edit_survives_the_rollback :
  (λ r, (match r.1 with Err e => Some (ae_code e, flag e) | Ok _ => None end,
         sf_heads r.2 !! "c", sf_bases r.2 !! 3%N)) <$> sample_run false sample_forge =
  Some (Some ("concat_membership_commit_failed", Some false), Some "c0", Some "b").
Proof. vm_compute. reflexivity. Qed.
