(* ===== verification/ConcatGraph.v ===== *)
(** The topology a concatenation leads to.

    [committed] is the snapshot the forge shows once the rewrites and the base
    edit of a plan are in place. The theorem says that deriving the graph from
    it gives exactly the caravan the transaction looks for. *)

From Stdlib Require Import String.
From S2P Require Import Prelude Text Model Mutations RequiredRuns Graph GraphProofs Analysis Budget GraphChains Concat ConcatProofs.

#[local] Open Scope string_scope.
#[local] Open Scope list_scope.
#[local] Open Scope nat_scope.

(** ** The committed snapshot *)

Definition with_branches (pr : PullRequestSnapshot) (head base : BranchSnapshot) : PullRequestSnapshot :=
  mkPullRequestSnapshot (pr_number pr) (pr_title pr) (pr_url pr) (pr_state pr) (pr_draft pr) head base
    (pr_cross_repository pr) (pr_labels pr) (pr_auto_merge pr) (pr_checks pr) (pr_created_at pr)
    (pr_merged_at pr) (pr_updated_at pr) (pr_merge_state_status pr).

Definition plan_entry (plan : ConcatPlan) (n : PrNumber) : option ConcatMemberPlan :=
  List.find (λ m, N.eqb (cm_pr m) n) (cp_members plan).

(** [new] gives the rewritten head of each source member; the base object
    follows the head it names, and only the root changes its base name. *)
Definition committed_row (new : PrNumber → CommitOid) (plan : ConcatPlan) (pr : PullRequestSnapshot)
    : PullRequestSnapshot :=
  match plan_entry plan (pr_number pr) with
  | None => pr
  | Some m =>
      with_branches pr
        (mkBranchSnapshot (br_repository (pr_head pr)) (br_name (pr_head pr)) (new (pr_number pr)))
        (mkBranchSnapshot (br_repository (pr_base pr))
           (if N.eqb (pr_number pr) (cp_source_caravan plan) then cm_target_branch m else br_name (pr_base pr))
           (if bool_decide (cm_target_pr m ∈ cp_source_members plan) then new (cm_target_pr m)
            else cm_target_head_oid m))
  end.

Definition committed (new : PrNumber → CommitOid) (plan : ConcatPlan) (s : RepositorySnapshot)
    : RepositorySnapshot := rewritten s (committed_row new plan).

Lemma committed_row_fields new plan pr :
  pr_number (committed_row new plan pr) = pr_number pr ∧ pr_state (committed_row new plan pr) = pr_state pr ∧
  pr_labels (committed_row new plan pr) = pr_labels pr ∧
  br_name (pr_head (committed_row new plan pr)) = br_name (pr_head pr).
Proof. unfold committed_row. by destruct (plan_entry plan (pr_number pr)). Qed.

(** ** The entries of a plan *)

Section entries.
Context (rows_map : gmap N PullRequestSnapshot).

Lemma chained_find p0 ns rows n :
  Forall2 (λ n row, rows_map !! n = Some row) ns rows → NoDup ns → n ∈ ns →
  ∃ row pred, List.find (λ m, N.eqb (cm_pr m) n) (chained p0 ns rows) = Some (member_plan n row pred) ∧
    rows_map !! n = Some row ∧
    (head ns = Some n ∧ pred = p0 ∨ ∃ p, (p, n) ∈ pairs ns ∧ rows_map !! p = Some pred).
Proof.
  intros H. revert p0. induction H as [|x row ns rows Hx H IH]; intros p0 Hnd Hn; [by apply elem_of_nil in Hn|].
  apply NoDup_cons in Hnd as [Hni Hnd]. cbn. destruct (N.eqb_spec x n) as [->|Hne].
  { exists row, p0. split_and!; [done|done|by left]. }
  apply elem_of_cons in Hn as [->|Hn]; [done|].
  destruct (IH row Hnd Hn) as (r & pred & Hf & Hr & Hp). exists r, pred. split_and!; [done|done|].
  right. destruct Hp as [[Hh ->]|(p & Hp & Hpred)].
  - exists x. split; [|done]. destruct ns as [|y ns]; [done|]. injection Hh as ->. by left.
  - exists p. split; [|done]. destruct ns as [|y ns]; [by apply elem_of_nil in Hp|]. cbn. by right.
Qed.

Lemma chained_find_None p0 ns rows n : n ∉ ns → List.find (λ m, N.eqb (cm_pr m) n) (chained p0 ns rows) = None.
Proof.
  revert p0 rows. induction ns as [|x ns IH]; intros p0 [|row rows] Hn; try done.
  rewrite not_elem_of_cons in Hn. destruct Hn as [Hne Hn]. cbn.
  destruct (N.eqb_spec x n); [congruence|]. by apply IH.
Qed.
End entries.

(** ** The committed topology *)

Section concatenation.
Context (s : RepositorySnapshot) (actor : HeadMergeActor) (a A : GraphAnalysis).
Context (Ha : derive_for_actor s actor = Some a) (HA : fl_caravans (ga_fleet A) = fl_caravans (ga_fleet a)).
Context (HP : fl_problems (ga_fleet a) ⊆ fl_problems (ga_fleet A)) (HH : healthy A = true).
Context (source target : Caravan).
Context (Hsource : source ∈ fl_caravans (ga_fleet a)) (Htarget : target ∈ fl_caravans (ga_fleet a)).
Context (Hps : cv_parked source = false) (Hpt : cv_parked target = false) (Hne : cv_id source ≠ cv_id target).
Context (t : PrNumber) (tr : PullRequestSnapshot) (Htail : last (cv_members target) = Some t).
Context (Htr : active_of s !! t = Some tr) (Hdefault : br_name (pr_head tr) ≠ br_name (rs_default_branch s)).
Context (rows : list PullRequestSnapshot).
Context (Hrows : Forall2 (λ n row, active_of s !! n = Some row) (cv_members source) rows).
Context (plan : ConcatPlan) (new : PrNumber → CommitOid).
Context (Hmembers : cp_members plan = chained tr (cv_members source) rows).
Context (Hid : cp_source_caravan plan = cv_id source) (Hsm : cp_source_members plan = cv_members source).

#[local] Abbreviation parents := (parent_of s).
#[local] Abbreviation r := (cv_id source).
#[local] Abbreviation s' := (committed new plan s).

Lemma source_root : parents !! r = None.
Proof. by apply (healthy_caravan_root s actor a Ha A HA HP HH source). Qed.
Lemma target_root : parents !! cv_id target = None.
Proof. by apply (healthy_caravan_root s actor a Ha A HA HP HH target). Qed.

Lemma source_chain : maximal_chain (children_of s) (cv_members source) ∧ NoDup (cv_members source) ∧
  head (cv_members source) = Some r.
Proof. destruct (root_caravan_chain s actor a Ha source Hsource source_root) as (? & ? & ? & _). done. Qed.
Lemma target_chain : maximal_chain (children_of s) (cv_members target) ∧ NoDup (cv_members target) ∧
  head (cv_members target) = Some (cv_id target).
Proof. destruct (root_caravan_chain s actor a Ha target Htarget target_root) as (? & ? & ? & _). done. Qed.

Lemma members_disjoint n : n ∈ cv_members source → n ∈ cv_members target → False.
Proof.
  intros H1 H2. pose proof (derived_members_unique s actor a Ha source target n Hsource Htarget H1 H2) as E.
  by rewrite E in Hne.
Qed.

Lemma tail_in_target : t ∈ cv_members target.
Proof. by apply last_Some_elem_of. Qed.
Lemma tail_not_source : t ∉ cv_members source.
Proof. intros H. exact (members_disjoint t H tail_in_target). Qed.
Lemma root_in_source : r ∈ cv_members source.
Proof. apply head_Some_elem_of. apply source_chain. Qed.

(** A linear caravan whose last member stops has no child outside itself. *)
Lemma no_outside_child c n p : c ∈ fl_caravans (ga_fleet a) → cv_parked c = false →
  p ∈ cv_members c → parents !! n = Some p → (p, n) ∈ pairs (cv_members c).
Proof.
  intros Hc Hpk Hp Hn. destruct (children_of_parent s n p Hn) as (l & Hl & Hnl).
  destruct (healthy_caravan_linear s actor a Ha A HA HP HH c Hc Hpk p l Hp Hl) as [y ->].
  apply list_elem_of_singleton in Hnl as ->.
  pose proof (healthy_caravan_root s actor a Ha A HA HP HH c Hc Hpk) as Hroot.
  destruct (root_caravan_chain s actor a Ha c Hc Hroot) as ([He Hs] & _ & _ & _).
  destruct (elem_of_last_or_pair _ _ Hp) as [Hlast|(z & Hz)].
  - by destruct (Hs p Hlast y).
  - pose proof (He _ _ Hz). congruence.
Qed.

Lemma tail_has_no_child n : parents !! n ≠ Some t.
Proof.
  intros Hn. pose proof (no_outside_child target n t Htarget Hpt tail_in_target Hn) as Hp.
  revert Hp. apply NoDup_last_pair; [apply target_chain|exact Htail].
Qed.

(** Who is rewritten, and how. *)
Lemma committed_outside n pr : active_of s !! n = Some pr → n ∉ cv_members source →
  committed_row new plan pr = pr.
Proof.
  intros Hpr Hn. unfold committed_row, plan_entry.
  rewrite (active_keyed s _ _ Hpr), Hmembers, chained_find_None by done. done.
Qed.

Lemma committed_inside n : n ∈ cv_members source →
  ∃ pr pred, active_of s !! n = Some pr ∧
    (n = r ∧ pred = tr ∨ n ≠ r ∧ ∃ p, (p, n) ∈ pairs (cv_members source) ∧ active_of s !! p = Some pred) ∧
    br_oid (pr_head (committed_row new plan pr)) = new n ∧
    br_name (pr_base (committed_row new plan pr)) =
      (if N.eqb n r then br_name (pr_head pred) else br_name (pr_base pr)) ∧
    br_oid (pr_base (committed_row new plan pr)) =
      (if bool_decide (pr_number pred ∈ cv_members source) then new (pr_number pred) else br_oid (pr_head pred)).
Proof.
  intros Hn. destruct source_chain as (_ & Hnd & Hh).
  destruct (chained_find (active_of s) tr (cv_members source) rows n Hrows Hnd Hn) as (pr & pred & Hf & Hpr & Hpos).
  exists pr, pred. split; [done|]. split.
  { destruct Hpos as [[Hh' ->]|(p & Hp & Hpred)]; [left; split; congruence|right].
    split; [|eauto]. intros ->. by apply (head_not_pair _ p _ Hnd Hh). }
  unfold committed_row, plan_entry. rewrite (active_keyed s _ _ Hpr), Hmembers, Hf, Hid, Hsm. done.
Qed.

(** The links after the commit: the source root hangs under the target tail,
    and nothing else changes. *)
Lemma committed_parent n p : parent_of s' !! n = Some p ↔ n = r ∧ p = t ∨ n ≠ r ∧ parents !! n = Some p.
Proof.
  unfold committed. rewrite rewritten_parent; try (intros; apply committed_row_fields).
  destruct (decide (n ∈ cv_members source)) as [Hin|Hout].
  - destruct (committed_inside n Hin) as (pr & pred & Hpr & Hpos & Hhead & Hbase & Hoid).
    destruct Hpos as [[-> ->]|(Hnr & q & Hq & Hpred)].
    + rewrite N.eqb_refl in Hbase. rewrite (active_keyed s _ _ Htr), bool_decide_eq_false_2 in Hoid by apply tail_not_source.
      pose proof (healthy_caravan_holder s actor a Ha A HA HP HH target Htarget Hpt t tr tail_in_target Htr) as Hhold.
      split.
      * intros (pr' & Hpr' & _ & Hh & _). rewrite Hpr in Hpr'. injection Hpr' as <-. rewrite Hbase, Hhold in Hh.
        injection Hh as <-. by left.
      * intros [[_ ->]|[? _]]; [|done]. exists pr. rewrite Hbase. split_and!; [done..|].
        intros _ q. rewrite Htr. intros [= <-]. rewrite (committed_outside t tr Htr tail_not_source). by rewrite Hoid.
    + rewrite (proj2 (N.eqb_neq n r) Hnr) in Hbase.
      assert (parents !! n = Some q) as Hlink by (by apply child_link, (mx_edges _ _ (proj1 source_chain))).
      apply pairs_elem_of in Hq as Hq'. destruct Hq' as [Hqs _].
      rewrite (active_keyed s _ _ Hpred), bool_decide_eq_true_2 in Hoid by done.
      pose proof (proj1 (parent_iff s n q) Hlink) as (pr' & Hpr' & Hd & Hh & _). rewrite Hpr in Hpr'. injection Hpr' as <-.
      split.
      * intros (pr' & Hpr' & _ & Hh' & _). rewrite Hpr in Hpr'. injection Hpr' as <-. rewrite Hbase, Hh in Hh'.
        injection Hh' as <-. by right.
      * intros [[-> _]|[_ Hp]]; [done|]. rewrite Hlink in Hp. injection Hp as <-. exists pr. rewrite Hbase.
        split_and!; [done..|]. intros _ x Hx. destruct (committed_inside q Hqs) as (prq & ? & Hprq & _ & Hhq & _).
        rewrite Hx in Hprq. injection Hprq as <-. by rewrite Hhq, Hoid.
  - assert (n ≠ r) as Hnr by (intros ->; apply Hout, root_in_source). split.
    + intros (pr & Hpr & Hrest). rewrite (committed_outside n pr Hpr Hout) in Hrest. destruct Hrest as (Hd & Hh & Hprov).
      right. split; [done|]. destruct (decide (p ∈ cv_members source)) as [Hp|Hp].
      * by apply (healthy_caravan_choice s actor a Ha A HA HP HH source Hsource Hps n pr p).
      * apply parent_iff. exists pr. split_and!; [done..|]. intros Hm q Hq.
        rewrite <- (Hprov Hm q Hq). by rewrite (committed_outside p q Hq Hp).
    + intros [[? _]|[_ Hp]]; [done|]. pose proof (proj1 (parent_iff s n p) Hp) as (pr & Hpr & Hd & Hh & Hprov).
      assert (p ∉ cv_members source) as Hps'.
      { intros Hp'. apply Hout. pose proof (no_outside_child source n p Hsource Hps Hp' Hp) as Hpair.
        by apply pairs_elem_of in Hpair as [_ ?]. }
      exists pr. rewrite (committed_outside n pr Hpr Hout). split_and!; [done..|]. intros Hm q Hq.
      rewrite (committed_outside p q Hq Hps'). by apply Hprov.
Qed.

(** A single child survives, unless its parent is the tail. *)
Lemma committed_child x y : x ≠ t → children_of s !! x = Some [y] → y ≠ r → children_of s' !! x = Some [y].
Proof.
  intros Hx Hc Hy. apply single_child_inv in Hc as [Hp Hall]. apply single_child.
  - apply committed_parent. by right.
  - intros c [[_ ?]|[_ Hc]]%committed_parent; [done|by apply Hall].
Qed.

Lemma committed_stops x : x ≠ t → stops (children_of s) x → stops (children_of s') x.
Proof.
  intros Hx Hs y [Hp Hall]%single_child_inv. apply committed_parent in Hp as [[_ ?]|[Hyr Hp]]; [done|].
  apply (Hs y), single_child; [done|]. intros c Hc. apply Hall, committed_parent. right. split; [|done].
  intros ->. by rewrite source_root in Hc.
Qed.

Lemma edge_not_root x y : children_of s !! x = Some [y] → y ≠ r.
Proof. intros Hc ->. apply child_link in Hc. by rewrite source_root in Hc. Qed.

(** A chain that avoids the tail is kept as it is. *)
Lemma committed_chain l : t ∉ l → maximal_chain (children_of s) l → maximal_chain (children_of s') l.
Proof.
  intros Ht [He Hs]. split.
  - intros x y Hxy. pose proof (He x y Hxy) as Hc. apply committed_child; [|done|by apply (edge_not_root x)].
    intros ->. apply Ht. by apply pairs_elem_of in Hxy as [? _].
  - intros x Hx. apply committed_stops; [|by apply Hs]. intros ->. by apply Ht, last_Some_elem_of.
Qed.

Lemma joined_chain : maximal_chain (children_of s') (cv_members target ++ cv_members source).
Proof.
  destruct source_chain as (Hsc & _ & Hsh). destruct target_chain as (Htc & Htn & _).
  pose proof (committed_chain _ tail_not_source Hsc) as Hsc'. split.
  - intros x y. rewrite (pairs_app _ _ t r Htail Hsh), elem_of_app, elem_of_cons. intros [Hxy|[[= -> ->]|Hxy]].
    + pose proof (mx_edges _ _ Htc x y Hxy) as Hc. apply committed_child; [|done|by apply (edge_not_root x)].
      intros ->. revert Hxy. by apply NoDup_last_pair.
    + apply single_child; [apply committed_parent; by left|].
      intros c [[-> _]|[_ Hc]]%committed_parent; [done|]. by destruct (tail_has_no_child c).
    + by apply (mx_edges _ _ Hsc').
  - intros x Hx. apply (mx_stops _ _ Hsc'). rewrite last_app in Hx.
    destruct (last (cv_members source)) as [z|] eqn:E; [done|].
    apply last_None in E. by rewrite E in Hsh.
Qed.
End concatenation.

(** ** The composition with the plan *)

(** The status of a snapshot: its derived fleet, to which later passes may have
    added problems, and a health that is not better than the analysis'. *)
Record status_of (a : GraphAnalysis) (status : ConcatStatus) : Prop := {
  st_caravans : fl_caravans (ga_fleet (so_analysis status)) = fl_caravans (ga_fleet a);
  st_rows : ga_pull_requests (so_analysis status) = ga_pull_requests a;
  st_problems : fl_problems (ga_fleet a) ⊆ fl_problems (ga_fleet (so_analysis status));
  st_healthy : so_healthy status = true → healthy (so_analysis status) = true }.

Lemma committed_parked new plan pr : has_label (committed_row new plan pr) "caravan-parked" = has_label pr "caravan-parked".
Proof. unfold has_label. by rewrite (proj1 (proj2 (proj2 (committed_row_fields new plan pr)))). Qed.

Lemma committed_active new plan s n pr : active_of s !! n = Some pr →
  active_of (committed new plan s) !! n = Some (committed_row new plan pr).
Proof.
  intros Hn. unfold committed. rewrite active_map by (intros; apply committed_row_fields).
  by rewrite lookup_fmap, Hn.
Qed.

Section composition.
Context {W : Type} `{CompatibilityChecker W HostError} (plan_json : ConcatPlan → list N).

(** C39. Committing a plan gives the topology it promises. Whenever a plan was
    made from the status of a snapshot, deriving the graph from the snapshot
    with the rewritten heads and the edited base yields one unparked caravan
    with exactly the planned ordering, named by the target's head; every other
    rooted caravan is derived as before, and the source heads no caravan any
    more. The branch of the target tail must not be the default branch. *)
Theorem concatenation_is_derived s actor a status input w plan w' new :
  derive_for_actor s actor = Some a → status_of a status →
  plan_from_status plan_json status input w = (Ok plan, w') →
  (∀ first, head (cp_members plan) = Some first →
     cm_target_branch first ≠ br_name (rs_default_branch s)) →
  ∃ a', derive_for_actor (committed new plan s) actor = Some a' ∧
    mkCaravan (cp_target_caravan plan) (cp_new_ordering plan) false ∈ fl_caravans (ga_fleet a') ∧
    (∀ c, c ∈ fl_caravans (ga_fleet a) → lk_parent_of (tp_links (topology_of s)) !! cv_id c = None →
       cv_id c ≠ cp_source_caravan plan → cv_id c ≠ cp_target_caravan plan →
       c ∈ fl_caravans (ga_fleet a')) ∧
    (∀ c, c ∈ fl_caravans (ga_fleet a') → cv_id c ≠ cp_source_caravan plan).
Proof.
  intros Ha [Hcars Hrowmap Hprob Hhealth] Hplan Hdefault.
  unfold plan_from_status in Hplan. destruct (plan_pair status input) as [[[[source target] root] tr]|e] eqn:Hpair; [|done].
  apply plan_pair_spec in Hpair as [Hh [Hsin Hsid] [Htin Htail] [Hps Hpt] Hne _ Htr _].
  specialize (Hhealth Hh). rewrite Hcars in Hsin, Htin.
  unfold plan_checked in Hplan. destruct (prepare _ w) as [[] w2]; [|done].
  destruct (check _ _ w2) as [[report|] w3]; [|done]. destruct (negb _); [done|].
  destruct (plan_members _ _ _ _) as [[members hs]|] eqn:Hm; [|done]. injection Hplan as <- <-.
  apply plan_members_spec in Hm as (rows & Hrows & -> & ->).
  assert (∀ n pr, ga_pull_requests (so_analysis status) !! n = Some pr → ∀ c, c ∈ fl_caravans (ga_fleet a) →
    n ∈ cv_members c → active_of s !! n = Some pr) as Hact.
  { intros n pr Hpr c Hc Hn. destruct (derived_member_active s actor a Ha c n Hc Hn) as [pr' Hpr'].
    rewrite Hpr'. apply active_spec in Hpr' as [Hpr' _]. rewrite Hrowmap in Hpr.
    destruct (derive_spec s actor) as (? & ? & ? & ? & ? & ? & Hd & _). rewrite Hd in Ha. injection Ha as <-. cbn in Hpr.
    congruence. }
  assert (active_of s !! ci_target_tail_pr input = Some tr) as Htra.
  { apply (Hact _ _ Htr target Htin). by apply last_Some_elem_of. }
  assert (Forall2 (λ n row, active_of s !! n = Some row) (cv_members source) rows) as Hrows'.
  { apply Forall2_same_length_lookup_2; [by eapply Forall2_length|]. intros i n row Hi Hr.
    destruct (Forall2_lookup_lr _ _ _ _ _ _ Hrows Hi Hr) as [Hn _].
    apply (Hact n row Hn source Hsin). by eapply list_elem_of_lookup_2. }
  set (plan := seal plan_json _) in *.
  destruct (derive_for_actor_some (committed new plan s) actor) as [a' Ha'].
  pose proof (source_root s actor a (so_analysis status) Ha Hcars Hprob Hhealth source Hsin Hps) as Hsroot.
  pose proof (target_root s actor a (so_analysis status) Ha Hcars Hprob Hhealth target Htin Hpt) as Htroot.
  destruct (source_chain s actor a (so_analysis status) Ha Hcars Hprob Hhealth source Hsin Hps) as (_ & _ & Hshead).
  destruct (target_chain s actor a (so_analysis status) Ha Hcars Hprob Hhealth target Htin Hpt) as (_ & _ & Hthead).
  assert (br_name (pr_head tr) ≠ br_name (rs_default_branch s)) as Hd.
  { destruct (cv_members source) as [|x ns] eqn:E; [done|]. inversion Hrows' as [|? row ? rows'']; subst.
    apply (Hdefault (member_plan x row tr)). done. }
  pose proof (committed_parent s actor a (so_analysis status) Ha Hcars Hprob Hhealth source target Hsin Htin Hps Hpt Hne
    _ tr Htail Htra Hd rows Hrows' plan new eq_refl eq_refl eq_refl) as Hparent.
  assert (∀ n, n ≠ cv_id source → parent_of s !! n = None → parent_of (committed new plan s) !! n = None) as Hroots.
  { intros n Hn Hnone. destruct (parent_of (committed new plan s) !! n) as [p|] eqn:E; [|done].
    apply Hparent in E as [[? _]|[_ E]]; [done|congruence]. }
  assert (mkCaravan (cv_id target) (cv_members target ++ cv_members source) false ∈ fl_caravans (ga_fleet a')) as Hjoined.
  { destruct (root_caravan_chain s actor a Ha target Htin Htroot) as (_ & _ & _ & pr & Hpr & Hpk).
    rewrite <- Hpt, Hpk, <- (committed_parked new plan).
    apply (derive_root_caravan (committed new plan s) actor a' Ha').
    - by apply Hroots.
    - by apply committed_active.
    - destruct (cv_members target); [done|]. exact Hthead.
    - eapply (joined_chain s actor a (so_analysis status) Ha Hcars Hprob Hhealth source target Hsin Htin Hps Hpt Hne
        _ tr Htail Htra Hd rows Hrows' plan new eq_refl eq_refl eq_refl). }
  exists a'. split; [done|]. split; [exact Hjoined|]. split.
  - intros c Hc Hroot Hcs Hct. destruct (root_caravan_chain s actor a Ha c Hc Hroot) as (Hchain & _ & Hhd & pr & Hpr & Hpk).
    assert (c = mkCaravan (cv_id c) (cv_members c) (has_label (committed_row new plan pr) "caravan-parked")) as ->.
    { rewrite committed_parked, <- Hpk. by destruct c. }
    apply (derive_root_caravan (committed new plan s) actor a' Ha').
    + by apply Hroots.
    + by apply committed_active.
    + done.
    + eapply (committed_chain s actor a (so_analysis status) Ha Hcars Hprob Hhealth source target Hsin Htin Hps Hpt Hne
        _ tr Htail Htra Hd rows Hrows' plan new eq_refl eq_refl eq_refl); [|exact Hchain]. intros Hin. apply Hct.
      assert (c = target) as ->; [|done].
      apply (derived_members_unique s actor a Ha c target _ Hc Htin Hin). by apply last_Some_elem_of.
  - intros c Hc Heq. change (cp_source_caravan plan) with (cv_id source) in Heq.
    assert (head (cv_members c) = Some (cv_id c)) as Hhd by (by eapply (proj1 (caravans_of_derived _ _ _ Ha'))).
    assert (c = mkCaravan (cv_id target) (cv_members target ++ cv_members source) false) as Hcc.
    { apply (derived_members_unique (committed new plan s) actor a' Ha' _ _ (cv_id source) Hc Hjoined).
      - rewrite <- Heq. by apply head_Some_elem_of.
      - cbn. rewrite elem_of_app. right. by apply head_Some_elem_of. }
    rewrite Hcc in Heq. by cbn in Heq.
Qed.
End composition.

#[local] Existing Instance sample_checker.

Definition sample_plan_input : ConcatInput := mkConcatInput 3 2 "operator" "one lane".

Lemma concatenation_is_derived_witness :
  match plan_from_status (λ _, []) (sample_status sample_forge) sample_plan_input sample_forge with
  | (Ok plan, _) => ∃ a',
      derive_for_actor (committed (λ _, "new") plan (sample_snapshot (sample_rows sample_forge))) actor_default = Some a' ∧
      mkCaravan (cp_target_caravan plan) (cp_new_ordering plan) false ∈ fl_caravans (ga_fleet a')
  | (Err _, _) => False
  end.
Proof.
  assert (match (plan_from_status (λ _, []) (sample_status sample_forge) sample_plan_input sample_forge).1 with
          | Ok p => cm_target_branch <$> head (cp_members p) | Err _ => None end = Some "b") as Hb
    by (vm_compute; reflexivity).
  destruct (plan_from_status _ _ _ _) as [[plan|e] w'] eqn:E; [|done].
  destruct (concatenation_is_derived (λ _, []) (sample_snapshot (sample_rows sample_forge)) actor_default
    (analysis_of (sample_rows sample_forge)) (sample_status sample_forge) sample_plan_input sample_forge plan w' (λ _, "new"))
    as (a' & Hd & Hin & _).
  - apply analysis_of_derived.
  - by split.
  - exact E.
  - intros first Hf. cbn in Hb. rewrite Hf in Hb. injection Hb as Hb. rewrite Hb. done.
  - exists a'. split; [exact Hd|exact Hin].
Defined.
